(* ===== verification/_CoqProject ===== *)
-Q . S2P
Prelude.v
GoStrings.v
GoUnicode.v
Regex.v
Version.v
VersionOrder.v
VersionFacts.v
Json.v
Types.v
Config.v
ConfigFacts.v
Resolve.v
TopSort.v
ResolveFacts.v
Marshal.v
Surface.v
SurfaceFacts.v
Lock.v
Packages.v
GoPath.v
Template.v
Diagnostics.v
Merge.v
MergeFacts.v
MergeRelations.v
Validate.v
ValidateFacts.v
Overlay.v
OverlayFacts.v
Context.v
LayerTar.v
Oci.v
Assemble.v
AssembleFacts.v
Inventory.v
InventoryFacts.v
Collisions.v
CollisionsFacts.v
Registry.v
Expand.v
ExpandFacts.v
Selection.v
Fetch.v
Bindings.v
FetchFacts.v
Composition.v
CompositionFacts.v
Publish.v
SetBuild.v
SetOrder.v
SetFacts.v
SetRelations.v
Delta.v
GoNet.v
Yaml.v
YamlFacts.v
Recipe.v
RecipeFacts.v
Report.v
SpecLink.v
KitSuite.v
KitFacts.v
AccountFacts.v
Render.v
KitMerge.v
KitSource.v
KitSourceFacts.v
Adapter.v
Backing.v
Suite.v
SuiteGroups.v
SuiteIdentity.v
SuiteSSH.v
SuiteChecks.v
SuiteTidy.v
SuiteFacts.v
BuildStamp.v
Command.v
Frontend.v
BuildFacts.v
