(* ===== verification/Prelude.v ===== *)
(** * The sandbox kit specification, verified

    The program under [src/] defines kits: OCI images whose manifest carries a
    descriptor — what the kit provides and requires, its arguments, its hooks and
    the capabilities it asks the host for.  [src/spec] is the descriptor model
    and its algebra, [src/resolve] resolves a set of kits and gates updates,
    [src/fetch] loads kits from registries and composes them, [src/assemble] and
    [src/internal/overlayfs] are the image side, [src/cmd/frontend] publishes kits,
    [src/tck] holds published kits to the specification, and [src/internal/version]
    is the build stamp of the binaries.  The development translates these packages into
    executable definitions under the sources' names and proves what they
    promise.

    ** How the parts interact

    A request names a kit.  The registry walk ([Registry]) reads its descriptor;
    [Fetch] resolves the arguments ([Template]), expands the document with them
    and with the environment the set agrees on ([Expand]), hands the set to the
    resolver ([Resolve]), lets the host choose among the requests ([Selection])
    and folds the kits, in dependency order, into one descriptor ([Merge],
    [Config], over the types of [Types] and the values of [Json]).  The lock and
    its gate ([Lock]) compare the permission surface ([Surface]) of a resolution
    with the one granted before.  A set document that lists kits is published as
    one kit ([SetBuild]): the frontend resolves the kits, orders them with the
    set's own declarations, judges the relations between the two and merges
    declarations ([Publish]), filesystems and image configurations.  [Composition] is the assembly of a whole set:
    every kit loaded, the image configurations and layers composed ([Assemble]),
    the layers listed within limits ([Inventory], reading them as [LayerTar]
    does) and refused where one kit replaces another's files ([Collisions]),
    every stage bracketed by progress events ([Context]).  What a composed
    filesystem shows is [Overlay]; the packages installed in it are read by
    [Packages].  A published kit is judged by the conformance suite ([KitSuite]),
    which reads the artifact back ([KitSource]) and holds it to its own descriptor,
    and a merged set to the kits it lists.  A runtime is judged by the runtime suite
    ([Suite], [SuiteChecks]): its checks create sandboxes of fixture kits through an
    adapter ([Adapter]), act on them and report what they observe ([Report]).  [Command]
    runs either suite and writes its report down ([Render]), each requirement with the
    page that states it ([SpecLink]).  The frontend's build ([Frontend]) takes one descriptor
    to an annotated image: it finds the content recipe ([Recipe]), expands the build
    arguments and amends the published document in place ([Yaml]), solves the
    recipe or merges the set's kits, reduces a mixin's configuration to what its
    recipe stated ([Delta]), and runs the suite on what it is about to export.

    ** Files

    - [Prelude]: results, folds and loops over them, generic list and map lemmas,
      the tactics and the hint database.
    - [GoStrings], [Regex], [GoPath], [GoNet], [Json], [Marshal]: the parts of Go's
      standard library the sources call — [strings], [regexp] (with a derivative
      matcher proved correct), [path], [net], [encoding/json] and SHA-256; [GoUnicode]:
      runes, with the [unicode] tables as a class.
    - [Version] (spec/version.go); [VersionOrder], [VersionFacts].
    - [Types], [Config] (spec/types.go, capabilities.go, agent_skill.go);
      [ConfigFacts].
    - [Template] (the patterns and arguments of spec/expand.go, environment.go),
      [Expand] (whole documents; the validators of spec/groups.go); [ExpandFacts].
    - [Diagnostics] (spec/position.go, diagnostics.go, cmd/frontend/source.go): where the
      elements of a document are, and failures shown there.
    - [Validate] (spec/validate.go, phases.go, the validating halves of
      ssh_agent.go, agent_skill.go and groups.go); [ValidateFacts].
    - [Merge] (spec/merge.go, the merging half of ssh_agent.go); [MergeFacts],
      [MergeRelations].
    - [Surface] (spec/surface.go, the widenings of ssh_agent.go); [SurfaceFacts].
    - [Selection] (spec/groups.go).
    - [Packages] (spec/packages.go).
    - [Resolve] (resolve/resolve.go); [TopSort], [ResolveFacts]. [Lock]
      (resolve/lock.go).
    - [Overlay] (internal/overlayfs/fs.go); [OverlayFacts].
    - [Oci], [Assemble] (assemble/assemble.go, resolve.go, image.go);
      [AssembleFacts]. [LayerTar] (assemble/inventory.go).
    - [Context] (progress and cancellation, fetch/assemble.go), [Registry]
      (fetch/registry.go, image.go), [Fetch] (fetch/fetch.go, load_kit.go),
      [Inventory] (fetch/assemble_inventory.go), [Collisions]
      (fetch/assemble_collisions.go, layer_validator.go), [Composition]
      (fetch/assemble.go); [FetchFacts], [InventoryFacts], [CollisionsFacts],
      [CompositionFacts].
    - [Publish] (the publishing half of spec/merge.go and groups.go,
      spec/annotations.go); [SetBuild] (cmd/frontend/set.go),
      [SetOrder], [SetFacts], [SetRelations]. [Bindings]: variables bound by
      several writers, shared by [FetchFacts] and [SetFacts].
    - [Report] (tck/report/report.go), [KitSuite] (tck/kit/kit.go, agent_skill.go,
      inspect.go): the conformance checks of a published kit over the record of what
      its source answers; [KitFacts], [AccountFacts], [KitMerge].
    - [KitSource] (tck/kit/source_oci.go, overlay_fs.go): a published kit read back
      from a registry or an image layout, and what its layers show without
      unpacking them; [KitSourceFacts].
    - [Adapter] (tck/adapter): the verbs a candidate runtime is driven by, over the
      class [Host] of the machine. [Suite] (tck/sandbox/sandbox.go): programs of calls
      with deferred cleanups, their execution, the run over the checks. [Backing],
      [SuiteSSH] (ssh_agent.go, ssh_agent_backing.go, ssh_agent_server.go),
      [SuiteGroups] (groups.go), [SuiteIdentity] (git_identity.go, agent_skill.go),
      [SuiteChecks] (checks.go, environment.go, credential_phases.go,
      long_running.go): the 72 checks. [SuiteTidy]: a weakest precondition over the
      sandboxes that exist, met by every check; [SuiteFacts].
    - [Render] (tck/report/render.go), [SpecLink] (tck/speclink), [Command]
      (cmd/kit-tck: present.go, inspect.go, main.go): a report as text on a writer that
      may fail, where the specification states a requirement, and the command line over
      the two suites.
    - [BuildStamp] (internal/version/version.go).
    - [Yaml] (node trees: [ExpandBuildArgs] of spec/expand.go, the in-place rewrites of
      cmd/frontend/build.go), [Delta] (the configurations of cmd/frontend/diff.go),
      [Recipe] (cmd/frontend/comment_descriptor.go, the options of build.go, the
      stages of diff.go), [Frontend] (cmd/frontend/build.go, diff.go, packages.go,
      selfcheck.go, over the class [Builder] of what is asked of BuildKit);
      [YamlFacts], [RecipeFacts], [BuildFacts].

    ** Conventions

    A Go function that returns a value and an error is a function to [result];
    the error types keep the errors' constructors and the values they report,
    not their wording.  A loop that may return is [for_range].  Strings are byte
    strings, ints that cannot overflow for the sizes the limits admit are [Z] or
    [nat].  A Go map is a [gmap]; where the code ranges over one and the order
    matters it sorts the keys, and so does the model.  Field [F] of struct [T] is
    the projection [T_F].  Code outside [src/] — the registry, decompressors, the
    tar reader, digest algorithms, YAML — is a class or a section variable of the
    file that uses it, with what is relied on as its named laws; each theorem
    over such a class has a witness at a concrete instance.  The findings of the
    runtime suite keep their format and arguments apart.

    Recursion that is not structural runs on fuel that is proved enough:
    the resolver's loop (the number of kits), path resolution
    (the 256 expansions the code itself allows and the steps left), the registry
    walk (its depth limit of five and its budget of manifests), the suite's reading
    (its limits on links followed and on nested indexes), the walk up a field path (its
    length), errors in errors (their nesting), the suite's waits (102 turns of
    50 milliseconds, more than the five seconds the code waits).  Theorems about
    these state that an answer is returned, not only what it is.

    ** What the theorems show

    - Resolution: an accepted set is coherent; providers precede the kits they
      serve; the sort succeeds exactly when no set of kits waits on itself; the
      order is the greedy one; whether a set is accepted does not depend on the order it
      is listed in, nor, its references being distinct, does the resolution.
    - Authority: the surface lists exactly what each declared request asks for by its
      type, in one canonical form; an update the gate is silent on gains nothing, however
      the runtime matches hosts and path segments; recreation accepts exactly
      the locked kits.
    - Validation: a block of requests is accepted exactly when its entries are, each
      alone, no two claim one thing and credentials stay within the allowed hosts;
      the resolver can read every entry of a kit that may be published.
    - Diagnostics: the position map holds every element of a document and nothing else
      under a path; a failure about an absent element is shown at the innermost one around
      it; each failure is located by itself, its marker under its column, and BuildKit is
      given a range for each; argument references are attributed to the scalars that
      hold them.
    - Merging: the composed descriptor carries each request of each contribution,
      the network policies' union, one owner per credential, and the relations
      the set does not answer itself.
    - Templates and expansion: arguments bind exactly what is declared and bring
      no environment reference; the selection is atomic in groups; configurations
      survive their encoding.
    - Filesystems: flattening layers shows at each path what overlayfs picks;
      an archive entry changes its own place in its layer and nothing else; path
      resolution ends; a composition that passes the
      collision check shows each kit's files as the kit put them.
    - Reading: listings and descriptors are of verified bytes, within the limits.
    - Composition: each kit of a resolution is composed with what is selected of its
      expanded declarations, in the order of its dependencies; the pipeline's
      events are bracketed whatever fails or is cancelled; the composed image has
      the workload's contract and the environment the kits were expanded in.
    - Publishing a set: its contributions are ordered, or a circle of them is named;
      nothing that is left of their relations is about the set itself; the exports
      of its kits are stated once in its image; a re-export is accepted exactly where it
      restates the kit's argument, and then accepts only what the kit accepts.
    - Conformance: the suite reports no failure exactly for the kits whose
      annotations, sources, image and content keep the specification's promises; of a set
      the frontend built it refuses no declaration but an integration a contribution has with
      what it offers itself; accounts written to a database are the ones it reads.
    - Reading a kit back: what is present, what it is and what it holds are answered
      by one layer; the kit's declared stems are staged; nothing is fetched without
      TLS beyond the registry that was asked for.
    - Judging a runtime: every sandbox a run creates is removed once, whatever the checks
      find, and a removal that fails is reported; a check that is not claimed asks
      nothing; a wait ends; what the deny-by-default check passes on was observed; the
      suite's agent counts requests however their bytes arrive.
    - The command: validation succeeds exactly when every image of the kit was judged
      without a failure and the run was written down; platforms judged alike are one
      group; flags and operands may be interleaved; styles are decoration, wrapping
      loses no word, writing stops at the first error; a requirement's link is to a page
      the binary has, at the heading its statement is under.
    - Building: whatever a build exports passed the suite under the annotations it
      carries, on every platform; no reserved option reaches the recipe's solve; a
      descriptor in comments is read back as written; a reduced configuration
      states what its recipe changed and composes over the base as the whole one would;
      entries derived from the image land in the provides list, and nothing else reads
      differently but an alias of an anchored null.
    - Versions: the order is a total preorder on plain versions and has a cycle
      beyond them; canonical renderings and satisfiability checks are exact.

    ** Not modelled

    - the YAML decoding of documents into values and located nodes, URL, regular
      expression, float and image reference parsing: operations of the classes
      [Documents] ([Validate]) and [SourceNodes] ([Diagnostics]).
    - the wording of the rules a descriptor breaks: [Diagnostics] formats any wording,
      the validators report the rule.
    - tck/sandbox/embed.go and the default fixture directory, the listening socket of
      the suite's agent, and the processes an adapter runs: operations of the classes
      [Host] and [SSH], or file I/O before the suite starts.
    - cmd/frontend/main.go: BuildKit's gateway loop.
    - the usage text of cmd/kit-tck and what it writes to standard error.
*)
From Stdlib Require Export Ascii.
From stdpp Require Export prelude list gmap strings sorting pretty.
From stdpp Require Import options.

(** ** Results

    Go functions return [(value, error)]; a call that fails carries an error
    value, and the value beside it is not used. *)

Inductive result (E A : Type) : Type :=
  | Ok (a : A)
  | Err (e : E).
Arguments Ok {E A} a.
Arguments Err {E A} e.

#[export] Instance result_ret {E} : MRet (result E) := fun A a => Ok a.
#[export] Instance result_bind {E} : MBind (result E) := fun A B f m =>
  match m with Ok a => f a | Err e => Err e end.
#[export] Instance result_fmap {E} : FMap (result E) := fun A B f m =>
  match m with Ok a => Ok (f a) | Err e => Err e end.

#[export] Instance result_eq_dec {E A} `{EqDecision E, EqDecision A} :
  EqDecision (result E A).
Proof. solve_decision. Defined.

Definition is_ok {E A} (r : result E A) : bool :=
  match r with Ok _ => true | Err _ => false end.

(** [fmt.Errorf("...: %w", err)]: the error is wrapped, the value kept. *)
Definition map_err {E F A} (f : E → F) (r : result E A) : result F A :=
  match r with Ok a => Ok a | Err e => Err (f e) end.

Section result_laws.
Context {E A B C : Type}.

Lemma result_bind_Ok (m : result E A) (f : A → result E B) b :
  (m ≫= f) = Ok b ↔ ∃ a, m = Ok a ∧ f a = Ok b.
Proof. destruct m; cbn; naive_solver. Qed.

Lemma result_bind_Err (m : result E A) (f : A → result E B) e :
  (m ≫= f) = Err e ↔ m = Err e ∨ ∃ a, m = Ok a ∧ f a = Err e.
Proof. destruct m; cbn; naive_solver. Qed.

Lemma map_err_Ok {F} (f : E → F) (r : result E A) a :
  map_err f r = Ok a ↔ r = Ok a.
Proof. destruct r; cbn; naive_solver. Qed.
End result_laws.

Create HintDb kit.

(** Opens the sequence of successful calls that a successful result came from. *)
Ltac inv_ok :=
  repeat match goal with
  | H : Ok _ = Ok _ |- _ => injection H as H; try subst
  | H : Err _ = Ok _ |- _ => discriminate H
  | H : Ok _ = Err _ |- _ => discriminate H
  | H : (_ ≫= _) = Ok _ |- _ => apply result_bind_Ok in H as (? & ? & H)
  | H : map_err _ _ = Ok _ |- _ => apply map_err_Ok in H
  | H : (if ?b then Err _ else _) = Ok _ |- _ => destruct b eqn:?; [discriminate H|]
  | H : (if ?b then _ else Err _) = Ok _ |- _ => destruct b eqn:?; [|discriminate H]
  end.

(** ** Boolean tests on lists *)

Lemma forallb_Forall {A} (f : A → bool) l :
  forallb f l = true ↔ Forall (λ x, f x = true) l.
Proof. rewrite forallb_forall, Forall_forall. by setoid_rewrite list_elem_of_In. Qed.

Lemma existsb_Exists {A} (f : A → bool) l :
  existsb f l = true ↔ ∃ x, x ∈ l ∧ f x = true.
Proof. rewrite existsb_exists. by setoid_rewrite list_elem_of_In. Qed.

Lemma existsb_false {A} (f : A → bool) l :
  existsb f l = false ↔ ∀ x, x ∈ l → f x = false.
Proof.
  rewrite <-not_true_iff_false, existsb_Exists. split.
  - intros H x Hx. apply not_true_iff_false. naive_solver.
  - intros H (x & Hx & E). rewrite (H x Hx) in E. done.
Qed.

Lemma elem_of_flat_map {A B} (f : A → list B) l y :
  y ∈ flat_map f l ↔ ∃ x, x ∈ l ∧ y ∈ f x.
Proof. rewrite list_elem_of_In, in_flat_map. by setoid_rewrite list_elem_of_In. Qed.

Lemma elem_of_filter_bool {A} (f : A → bool) l x :
  x ∈ List.filter f l ↔ x ∈ l ∧ f x = true.
Proof. by rewrite !list_elem_of_In, filter_In. Qed.

Lemma sublist_Forall {A} (P : A → Prop) l l' : l `sublist_of` l' → Forall P l' → Forall P l.
Proof. induction 1 as [|x l l' _ IH|x l l' _ IH]; intros Hp; [done| |]; inversion_clear Hp; auto. Qed.

Lemma forallb_ext_in {A} (f g : A → bool) l :
  (∀ x, x ∈ l → f x = g x) → forallb f l = forallb g l.
Proof.
  induction l as [|x l IH]; cbn; [done|]. intros H.
  rewrite (H x), IH; [done| |]; set_solver.
Qed.

(** Elements with one image are one where the images are distinct. *)
Lemma NoDup_fmap_elem {A B} (f : A → B) (l : list A) (x y : A) :
  NoDup (f <$> l) → x ∈ l → y ∈ l → f x = f y → x = y.
Proof.
  intros Hnd [i Hi]%list_elem_of_lookup [j Hj]%list_elem_of_lookup E. rewrite NoDup_alt in Hnd.
  assert (i = j) as ->; [|congruence]. apply (Hnd i j (f x)); rewrite list_lookup_fmap; [by rewrite Hi|by rewrite Hj, E].
Qed.

(** ** Keeping the first occurrence

    [seen := map[K]bool{}; for _, x := range l { if seen[k(x)] { continue }; ... }]
    is the deduplication idiom of the sources. *)
Section dedupe.
Context {A K : Type} `{EqDecision K} (key : A → K).

Fixpoint dedupe_from (seen : list K) (l : list A) : list A :=
  match l with
  | [] => []
  | x :: l =>
      if decide (key x ∈ seen) then dedupe_from seen l
      else x :: dedupe_from (key x :: seen) l
  end.

Definition dedupe : list A → list A := dedupe_from [].

Lemma dedupe_from_sublist seen l : dedupe_from seen l `sublist_of` l.
Proof.
  revert seen. induction l as [|x l IH]; intros seen; cbn; [constructor|].
  case_decide; constructor; auto.
Qed.

Lemma dedupe_from_key seen l k :
  k ∈ key <$> dedupe_from seen l ↔ k ∈ key <$> l ∧ k ∉ seen.
Proof.
  revert seen. induction l as [|x l IH]; intros seen; csimpl; [set_solver|].
  case_decide as Hx; csimpl; rewrite ?elem_of_cons, IH; [set_solver|].
  destruct (decide (k = key x)); set_solver.
Qed.

Lemma dedupe_from_NoDup seen l : NoDup (key <$> dedupe_from seen l).
Proof.
  revert seen. induction l as [|x l IH]; intros seen; csimpl; [constructor|].
  case_decide; csimpl; [apply IH|]. constructor; [|apply IH].
  rewrite dedupe_from_key. set_solver.
Qed.

Lemma dedupe_from_ext seen seen' l :
  (∀ k, k ∈ seen ↔ k ∈ seen') → dedupe_from seen l = dedupe_from seen' l.
Proof.
  revert seen seen'. induction l as [|x l IH]; intros seen seen' E; [done|]. cbn.
  rewrite (decide_ext (key x ∈ seen) (key x ∈ seen')) by apply E.
  case_decide; [by apply IH|]. f_equal. apply IH. intros k. rewrite !elem_of_cons. by rewrite E.
Qed.

Lemma dedupe_NoDup l : NoDup (key <$> dedupe l).
Proof. apply dedupe_from_NoDup. Qed.

Lemma dedupe_key l k : k ∈ key <$> dedupe l ↔ k ∈ key <$> l.
Proof. unfold dedupe. rewrite dedupe_from_key. set_solver. Qed.

Lemma dedupe_elem_of l x : x ∈ dedupe l → x ∈ l.
Proof. intros H. eapply elem_of_sublist; [exact H|apply dedupe_from_sublist]. Qed.
End dedupe.

Lemma dedupe_id_elem_of {A} `{EqDecision A} (l : list A) x :
  x ∈ dedupe id l ↔ x ∈ l.
Proof.
  pose proof (dedupe_key id l x) as H. by rewrite !list_fmap_id in H.
Qed.

Lemma dedupe_id_NoDup {A} `{EqDecision A} (l : list A) : NoDup (dedupe id l).
Proof. pose proof (dedupe_NoDup id l) as H. by rewrite list_fmap_id in H. Qed.

#[export] Hint Resolve dedupe_id_NoDup dedupe_NoDup : kit.

(** ** [sort.Strings]

    The order on strings is total and antisymmetric, so the sorted
    permutation is unique and any correct sort computes it. *)
Definition sort_strings (l : list string) : list string := merge_sort String.le l.

Lemma sort_strings_perm l : sort_strings l ≡ₚ l.
Proof. apply merge_sort_Permutation. Qed.

Lemma sort_strings_sorted l : StronglySorted String.le (sort_strings l).
Proof. apply StronglySorted_merge_sort; apply _. Qed.

Lemma sort_strings_elem_of l x : x ∈ sort_strings l ↔ x ∈ l.
Proof. by rewrite sort_strings_perm. Qed.

Lemma sort_strings_unique l l' :
  StronglySorted String.le l' → l' ≡ₚ l → sort_strings l = l'.
Proof.
  intros Hs Hp. apply (StronglySorted_unique String.le); [apply sort_strings_sorted|done|].
  by rewrite sort_strings_perm.
Qed.

Lemma sort_strings_perm_eq l l' : l ≡ₚ l' → sort_strings l = sort_strings l'.
Proof.
  intros H. apply sort_strings_unique; [apply sort_strings_sorted|].
  by rewrite sort_strings_perm.
Qed.

#[export] Instance sort_strings_proper : Proper ((≡ₚ) ==> (=)) sort_strings.
Proof. intros l l' H. by apply sort_strings_perm_eq. Qed.

Lemma sort_strings_idem l : sort_strings (sort_strings l) = sort_strings l.
Proof. apply sort_strings_perm_eq, sort_strings_perm. Qed.

#[export] Hint Resolve sort_strings_sorted sort_strings_perm : kit.
#[export] Hint Rewrite sort_strings_elem_of @dedupe_id_elem_of sort_strings_idem : kit.

Lemma list_filter_nil {A} (f : A → bool) l : List.filter f l = [] ↔ ∀ x, x ∈ l → f x = false.
Proof.
  induction l as [|x l IH]; [split; [intros _ x Hx; inversion Hx|done]|]. cbn.
  setoid_rewrite elem_of_cons. destruct (f x) eqn:E; split; try done.
  - intros H. specialize (H x (or_introl eq_refl)). congruence.
  - intros H y [->|Hy]; [done|]. by apply IH.
  - intros H. apply IH. auto.
Qed.
