(* ===== verification/GoStrings.v ===== *)
(** The parts of Go's [strings] package the sources call, on byte strings:
    [Cut], [Split], [Join], [HasPrefix], [HasSuffix], [TrimPrefix],
    [TrimSuffix], [TrimLeft], [TrimSpace], [LastIndex], [Contains], and the
    order on strings.  A Go string is a sequence of bytes; [string] is that. *)
From stdpp Require Import options.
From S2P Require Import Prelude.

Declare Scope go_scope.
Delimit Scope go_scope with go.
Open Scope go_scope.

(** ** Bytes *)

Definition byte_in (lo hi c : ascii) : bool :=
  (N.leb (N_of_ascii lo) (N_of_ascii c)) && (N.leb (N_of_ascii c) (N_of_ascii hi)).

Definition is_digit : ascii → bool := byte_in "0" "9".
Definition is_lower : ascii → bool := byte_in "a" "z".
Definition is_upper : ascii → bool := byte_in "A" "Z".

(** Printable ASCII apart from the space: no such byte starts or ends the
    UTF-8 encoding of white space. *)
Definition is_graphic : ascii → bool := byte_in "!" "~".

Fixpoint str_forall (f : ascii → bool) (s : string) : bool :=
  match s with "" => true | String c s => f c && str_forall f s end.

Definition contains_byte (c : ascii) (s : string) : bool :=
  negb (str_forall (λ d, negb (bool_decide (d = c))) s).

(** ** Positions *)

Fixpoint str_drop (n : nat) (s : string) : string :=
  match n, s with
  | 0, _ => s
  | S n, "" => ""
  | S n, String _ s => str_drop n s
  end.

Fixpoint str_take (n : nat) (s : string) : string :=
  match n, s with
  | 0, _ | S _, "" => ""
  | S n, String c s => String c (str_take n s)
  end.

(** [strings.HasPrefix], [strings.HasSuffix]. *)
Notation has_prefix := String.prefix.
Definition has_suffix (p s : string) : bool :=
  (String.length p <=? String.length s)
  && bool_decide (str_drop (String.length s - String.length p) s = p).

(** [strings.TrimPrefix], [strings.TrimSuffix]. *)
Definition trim_prefix (p s : string) : string :=
  if has_prefix p s then str_drop (String.length p) s else s.
Definition trim_suffix (p s : string) : string :=
  if has_suffix p s then str_take (String.length s - String.length p) s else s.

(** [strings.TrimLeft(s, "c")] for a one-byte cutset. *)
Fixpoint trim_left (c : ascii) (s : string) : string :=
  match s with
  | "" => ""
  | String d s' => if decide (d = c) then trim_left c s' else s
  end.

(** [strings.LastIndex(s, "c")], [None] for -1. *)
Fixpoint last_index (c : ascii) (s : string) : option nat :=
  match s with
  | "" => None
  | String d s' =>
      match last_index c s' with
      | Some i => Some (S i)
      | None => if decide (d = c) then Some 0 else None
      end
  end.

(** [strings.Contains]. *)
Fixpoint contains (p s : string) : bool :=
  has_prefix p s || match s with "" => false | String _ s => contains p s end.

(** ** [strings.Cut(s, "c")] for a one-byte separator *)

Fixpoint cut (c : ascii) (s : string) : string * string * bool :=
  match s with
  | "" => ("", "", false)
  | String d s =>
      if decide (d = c) then ("", s, true)
      else let '(before, after, found) := cut c s in (String d before, after, found)
  end.

(** ** [strings.Split(s, "c")] and [strings.Join] *)

Fixpoint split (c : ascii) (s : string) : list string :=
  match s with
  | "" => [""]
  | String d s =>
      if decide (d = c) then "" :: split c s
      else match split c s with
           | [] => [String d ""]
           | x :: xs => String d x :: xs
           end
  end.

Definition newline_byte : ascii := "010".

Fixpoint join (sep : string) (l : list string) : string :=
  match l with
  | [] => ""
  | [x] => x
  | x :: l => x +:+ sep +:+ join sep l
  end.

(** ** [strings.TrimSpace]

    White space is [unicode.IsSpace], here as the UTF-8 encodings of those
    code points; the rune at the end of a string is white space exactly when
    the string ends in one of them. *)

Definition byte (n : nat) : ascii := ascii_of_nat n.
Definition of_bytes (l : list nat) : string :=
  foldr (λ n s, String (byte n) s) "" l.

Definition space_encodings : list string :=
  map of_bytes
    ([ [9]; [10]; [11]; [12]; [13]; [32]; [194; 133]; [194; 160]; [225; 154; 128];
       [226; 128; 168]; [226; 128; 169]; [226; 128; 175]; [226; 129; 159];
       [227; 128; 128] ]
     ++ map (λ n, [226; 128; n]) (seq 128 11)).

Fixpoint strip (n : nat) (ps : list string) (s : string) : string :=
  match n with
  | 0 => s
  | S n =>
      match find (λ p, has_prefix p s) ps with
      | Some p => strip n ps (str_drop (String.length p) s)
      | None => s
      end
  end.

Definition trim_left_space (s : string) : string :=
  strip (String.length s) space_encodings s.
Definition trim_right_space (s : string) : string :=
  String.rev (strip (String.length s) (map String.rev space_encodings) (String.rev s)).
Definition trim_space (s : string) : string := trim_right_space (trim_left_space s).

(** ** Order

    [a < b] on strings is bytewise; [strings.Compare] returns -1, 0, 1, here
    [Lt], [Eq], [Gt]. *)
Notation str_compare := String.compare.
Notation str_ltb := String.ltb.

(** ** Facts *)

Lemma str_app_cons c s t : String c s +:+ t = String c (s +:+ t).
Proof. done. Qed.
Lemma str_app_nil_l s : "" +:+ s = s.
Proof. done. Qed.
Lemma str_app_nil_r s : s +:+ "" = s.
Proof. induction s as [|c s IH]; [done|]. by rewrite str_app_cons, IH. Qed.
Lemma str_app_assoc s t u : (s +:+ t) +:+ u = s +:+ t +:+ u.
Proof. induction s as [|c s IH]; [done|]. by rewrite !str_app_cons, IH. Qed.
#[export] Hint Rewrite str_app_nil_l str_app_nil_r str_app_cons : kit.

Lemma str_forall_app f s t :
  str_forall f (s +:+ t) = str_forall f s && str_forall f t.
Proof.
  induction s as [|c s IH]; [done|]. rewrite str_app_cons. cbn.
  by rewrite IH, andb_assoc.
Qed.

Lemma str_forall_impl (f g : ascii → bool) s :
  (∀ c, f c = true → g c = true) → str_forall f s = true → str_forall g s = true.
Proof.
  intros Hfg. induction s as [|c s IH]; cbn; [done|].
  rewrite !andb_true_iff. naive_solver.
Qed.

Lemma contains_byte_cons c d s :
  contains_byte c (String d s) = bool_decide (d = c) || contains_byte c s.
Proof. unfold contains_byte. cbn. by rewrite negb_andb, negb_involutive. Qed.

Lemma contains_byte_app c s t :
  contains_byte c (s +:+ t) = contains_byte c s || contains_byte c t.
Proof. unfold contains_byte. by rewrite str_forall_app, negb_andb. Qed.

Lemma str_forall_contains f c s :
  str_forall f s = true → f c = false → contains_byte c s = false.
Proof.
  intros Hs Hc. unfold contains_byte. apply negb_false_iff.
  eapply str_forall_impl; [|exact Hs]. intros d Hd. apply negb_true_iff.
  apply bool_decide_eq_false. congruence.
Qed.

Lemma str_length_app s t :
  String.length (s +:+ t) = String.length s + String.length t.
Proof. induction s as [|c s IH]; [done|]. rewrite str_app_cons. cbn. by rewrite IH. Qed.

Lemma str_drop_app s t : str_drop (String.length s) (s +:+ t) = t.
Proof. induction s; [done|]. by rewrite str_app_cons. Qed.

Lemma str_take_app s t : str_take (String.length s) (s +:+ t) = s.
Proof. induction s as [|c s IH]; [by destruct t|]. rewrite str_app_cons. cbn. by rewrite IH. Qed.

Lemma str_drop_length n s : String.length (str_drop n s) = String.length s - n.
Proof. revert s. induction n as [|n IH]; intros [|c s]; cbn; auto. Qed.

Lemma str_take_drop n s : str_take n s +:+ str_drop n s = s.
Proof.
  revert s. induction n as [|n IH]; intros [|c s]; cbn; [done..|].
  by rewrite str_app_cons, IH.
Qed.

Lemma has_prefix_app p s : has_prefix p (p +:+ s) = true.
Proof. induction p as [|c p IH]; [by destruct s|]. rewrite str_app_cons. cbn. by destruct ascii_dec. Qed.

Lemma has_prefix_inv p s : has_prefix p s = true → s = p +:+ str_drop (String.length p) s.
Proof.
  revert s. induction p as [|c p IH]; intros s; [done|].
  destruct s as [|d s]; cbn; [done|]. destruct ascii_dec as [->|]; [|done].
  intros H. by rewrite str_app_cons, <-IH.
Qed.

Lemma trim_prefix_app p s : trim_prefix p (p +:+ s) = s.
Proof. unfold trim_prefix. by rewrite has_prefix_app, str_drop_app. Qed.

Lemma has_suffix_app p s : has_suffix p (s +:+ p) = true.
Proof.
  unfold has_suffix. rewrite str_length_app.
  replace (String.length s + String.length p - String.length p) with (String.length s) by lia.
  rewrite str_drop_app, bool_decide_true by done.
  rewrite andb_true_r. apply Nat.leb_le. lia.
Qed.

Lemma has_suffix_inv p s :
  has_suffix p s = true → s = trim_suffix p s +:+ p.
Proof.
  intros H. unfold trim_suffix. rewrite H. unfold has_suffix in H.
  apply andb_true_iff in H as [_ H%bool_decide_eq_true]. 
  pose proof (str_take_drop (String.length s - String.length p) s) as E.
  by rewrite H in E.
Qed.

Lemma trim_suffix_app p s : trim_suffix p (s +:+ p) = s.
Proof.
  unfold trim_suffix. rewrite has_suffix_app, str_length_app.
  replace (String.length s + String.length p - String.length p) with (String.length s) by lia.
  apply str_take_app.
Qed.

(** *** [Cut] and [Split] *)

Lemma cut_found c s b a :
  cut c s = (b, a, true) → s = b +:+ String c a ∧ contains_byte c b = false.
Proof.
  revert b. induction s as [|d s IH]; intros b; cbn; [done|].
  case_decide as Hd; [intros [= <- <-]; by subst|].
  destruct (cut c s) as [[b' a'] f]. intros [= <- <- ->].
  destruct (IH b' eq_refl) as [-> Hb]. split; [done|].
  by rewrite contains_byte_cons, bool_decide_false.
Qed.

Lemma cut_not_found c s b a :
  cut c s = (b, a, false) → b = s ∧ a = "" ∧ contains_byte c s = false.
Proof.
  revert b. induction s as [|d s IH]; intros b; cbn; [by intros [= <- <-]|].
  case_decide as Hd; [done|].
  destruct (cut c s) as [[b' a'] f]. intros [= <- <- ->].
  destruct (IH b' eq_refl) as (-> & -> & Hb).
  by rewrite contains_byte_cons, bool_decide_false.
Qed.

Lemma cut_app c b a :
  contains_byte c b = false → cut c (b +:+ String c a) = (b, a, true).
Proof.
  induction b as [|d b IH]; cbn; rewrite ?str_app_cons, ?str_app_nil_l; cbn.
  - intros _. by rewrite decide_True.
  - rewrite contains_byte_cons, orb_false_iff, bool_decide_eq_false.
    intros [Hd Hb]. by rewrite decide_False, IH.
Qed.

Lemma cut_none c s : contains_byte c s = false → cut c s = (s, "", false).
Proof.
  induction s as [|d b IH]; cbn; [done|].
  rewrite contains_byte_cons, orb_false_iff, bool_decide_eq_false.
  intros [Hd Hb]. by rewrite decide_False, IH.
Qed.

Lemma split_nonempty c s : split c s ≠ [].
Proof. destruct s; cbn; [done|]. case_decide; [done|]. by destruct (split c s). Qed.

Lemma split_app_sep c s t : split c (s +:+ String c t) = split c s ++ split c t.
Proof.
  induction s as [|d s IH]; rewrite ?str_app_cons, ?str_app_nil_l; cbn.
  - by rewrite decide_True.
  - case_decide; [by rewrite IH|]. rewrite IH.
    pose proof (split_nonempty c s). by destruct (split c s).
Qed.

Lemma split_none c s : contains_byte c s = false → split c s = [s].
Proof.
  induction s as [|d b IH]; cbn; [done|].
  rewrite contains_byte_cons, orb_false_iff, bool_decide_eq_false.
  intros [Hd Hb]. by rewrite decide_False, IH.
Qed.

Lemma join_cons2 sep x y l : join sep (x :: y :: l) = x +:+ sep +:+ join sep (y :: l).
Proof. done. Qed.

Lemma split_join c l :
  l ≠ [] → Forall (λ x, contains_byte c x = false) l → split c (join (String c "") l) = l.
Proof.
  intros Hne Hl. induction Hl as [|x l Hx Hl IH]; [done|].
  destruct l as [|y l]; [by apply split_none|].
  rewrite join_cons2, str_app_cons, str_app_nil_l, split_app_sep, IH by done.
  by rewrite split_none.
Qed.

Lemma join_split c s : join (String c "") (split c s) = s.
Proof.
  induction s as [|d s IH]; cbn; [done|].
  pose proof (split_nonempty c s) as Hne. case_decide as Hd.
  - destruct (split c s) as [|y l]; [done|]. rewrite join_cons2, IH. by subst.
  - destruct (split c s) as [|y [|z l]]; [done| |]; cbn in *; [by rewrite IH|].
    by rewrite str_app_cons, IH.
Qed.

Lemma split_free c s : Forall (λ x, contains_byte c x = false) (split c s).
Proof.
  induction s as [|d s IH]; cbn; [by repeat constructor|].
  case_decide as Hd; [by constructor|].
  destruct (split c s) as [|y l]; [constructor; [|done]|inversion IH; subst; constructor; [|done]];
    by rewrite contains_byte_cons, bool_decide_false.
Qed.

Lemma split_forall c f s :
  str_forall f s = true → Forall (λ x, str_forall f x = true) (split c s).
Proof.
  induction s as [|d s IH]; cbn; [by repeat constructor|].
  rewrite andb_true_iff. intros [Hd Hs]. specialize (IH Hs).
  case_decide; [by constructor|].
  destruct (split c s) as [|y l]; [constructor; [|done]|inversion IH; subst; constructor; [|done]];
    cbn; by rewrite Hd.
Qed.

(** *** [TrimSpace] *)

Lemma str_forall_rev_app f s t :
  str_forall f (String.rev_app s t) = str_forall f s && str_forall f t.
Proof.
  revert t. induction s as [|c s IH]; intros t; cbn; [done|].
  rewrite IH. cbn. by destruct (f c), (str_forall f s), (str_forall f t).
Qed.

Lemma str_forall_rev f s : str_forall f (String.rev s) = str_forall f s.
Proof. unfold String.rev. by rewrite str_forall_rev_app, andb_true_r. Qed.

Lemma str_rev_app_involutive s t u :
  String.rev_app (String.rev_app s t) u = String.rev_app t (s +:+ u).
Proof. revert t. induction s as [|c s IH]; intros t; cbn; [done|]. by rewrite IH. Qed.

Lemma str_rev_involutive s : String.rev (String.rev s) = s.
Proof. unfold String.rev. rewrite str_rev_app_involutive. apply str_app_nil_r. Qed.

Definition starts_off (p : string) : bool :=
  match p with "" => false | String c _ => negb (is_graphic c) end.

Lemma strip_graphic n ps s :
  forallb starts_off ps = true → str_forall is_graphic s = true → strip n ps s = s.
Proof.
  intros Hps Hs. destruct n as [|n]; cbn; [done|].
  destruct (find _ ps) as [p|] eqn:E; [|done].
  apply find_some in E as [Hin Hp].
  rewrite List.forallb_forall in Hps. specialize (Hps p Hin).
  destruct p as [|c p]; cbn in Hps; [done|].
  destruct s as [|d s]; cbn in *; [done|].
  revert Hp. destruct ascii_dec as [->|]; [intros _|done].
  apply negb_true_iff in Hps. by rewrite Hps in Hs.
Qed.

Lemma trim_space_graphic s : str_forall is_graphic s = true → trim_space s = s.
Proof.
  intros Hs. unfold trim_space, trim_left_space, trim_right_space.
  rewrite (strip_graphic _ space_encodings s) by (done || by vm_compute).
  rewrite strip_graphic by (rewrite ?str_forall_rev; done || by vm_compute).
  apply str_rev_involutive.
Qed.

(** Trimming again changes nothing. *)
Lemma str_rev_app_eq s t : String.rev_app s t = String.rev s +:+ t.
Proof.
  unfold String.rev. assert (∀ u, String.rev_app s (u +:+ t) = String.rev_app s u +:+ t) as Hall; [|by apply (Hall "")].
  induction s as [|c s IH]; intros u; cbn; [done|]. by rewrite <-IH, str_app_cons.
Qed.
Lemma str_rev_app_distr s t : String.rev (s +:+ t) = String.rev t +:+ String.rev s.
Proof.
  induction s as [|c s IH]; [by rewrite str_app_nil_r|]. rewrite str_app_cons. unfold String.rev. cbn [String.rev_app].
  rewrite (str_rev_app_eq (s +:+ t)), IH, (str_rev_app_eq s), str_app_assoc. done.
Qed.
Lemma has_prefix_app_l p s t : has_prefix p s = true → has_prefix p (s +:+ t) = true.
Proof. intros Hp. rewrite (has_prefix_inv p s Hp), str_app_assoc. apply has_prefix_app. Qed.

Definition starts_none (ps : list string) (s : string) : Prop := ∀ p, p ∈ ps → has_prefix p s = false.
Lemma starts_none_find ps s : starts_none ps s ↔ List.find (λ p, has_prefix p s) ps = None.
Proof.
  split.
  - intros Hs. destruct (List.find _ ps) as [p|] eqn:E; [|done]. apply find_some in E as [Hin Hp].
    rewrite Hs in Hp; [done|]. by apply list_elem_of_In.
  - intros E p Hin. eapply find_none in E; [exact E|]. by apply list_elem_of_In.
Qed.
Lemma strip_fixed n ps s : starts_none ps s → strip n ps s = s.
Proof. intros Hs%starts_none_find. destruct n; cbn; [done|]. by rewrite Hs. Qed.
Lemma strip_starts_none n ps s :
  "" ∉ ps → String.length s ≤ n → starts_none ps (strip n ps s).
Proof.
  intros Hps. revert s. induction n as [|n IH]; intros s Hs; cbn.
  - destruct s; [|cbn in Hs; lia]. intros [|c p] Hin; [done|reflexivity].
  - destruct (List.find _ ps) as [p|] eqn:E; [|by apply starts_none_find].
    apply IH. apply find_some in E as [Hin%list_elem_of_In _]. rewrite str_drop_length.
    destruct p; [done|]. cbn. lia.
Qed.
Lemma strip_suffix n ps s : ∃ u, s = u +:+ strip n ps s.
Proof.
  revert s. induction n as [|n IH]; intros s; [by exists ""|]. cbn.
  destruct (List.find _ ps) as [p|] eqn:E; [|by exists ""]. apply find_some in E as [_ Hp].
  destruct (IH (str_drop (String.length p) s)) as [u Hu]. exists (p +:+ u).
  rewrite str_app_assoc, <-Hu. by apply has_prefix_inv.
Qed.
Lemma str_rev_length s : String.length (String.rev s) = String.length s.
Proof.
  assert (∀ t, String.length (String.rev_app s t) = String.length s + String.length t) as Hall.
  { induction s as [|c s IH]; intros t; cbn; [done|]. rewrite IH. cbn. lia. }
  unfold String.rev. rewrite Hall. cbn. lia.
Qed.
Lemma trim_space_idemp s : trim_space (trim_space s) = trim_space s.
Proof.
  unfold trim_space. set (l := trim_left_space s).
  assert (starts_none space_encodings l) as Hl by (apply strip_starts_none; [by refine (bool_decide_unpack _ _); vm_compute|done]).
  unfold trim_right_space at 2 3. set (r := strip _ (map String.rev space_encodings) (String.rev l)).
  assert (starts_none (map String.rev space_encodings) r) as Hr.
  { apply strip_starts_none; [by refine (bool_decide_unpack _ _); vm_compute|]. by rewrite str_rev_length. }
  assert (starts_none space_encodings (String.rev r)) as Hlr.
  { destruct (strip_suffix (String.length l) (map String.rev space_encodings) (String.rev l)) as [u Hu].
    fold r in Hu. apply (f_equal String.rev) in Hu. rewrite str_rev_involutive, str_rev_app_distr in Hu.
    intros p Hin. specialize (Hl p Hin). destruct (has_prefix p (String.rev r)) eqn:E; [|done].
    by rewrite Hu, has_prefix_app_l in Hl. }
  unfold trim_left_space. rewrite (strip_fixed _ space_encodings) by done.
  unfold trim_right_space. by rewrite str_rev_involutive, strip_fixed.
Qed.

(** *** Order *)

Lemma str_compare_refl s : str_compare s s = Eq.
Proof. induction s as [|c s IH]; cbn; [done|]. unfold Ascii.compare. by rewrite N.compare_refl. Qed.

Lemma str_compare_eq s t : str_compare s t = Eq ↔ s = t.
Proof. split; [apply String.compare_eq_iff|]. intros ->. apply str_compare_refl. Qed.

Lemma str_ltb_compare s t : str_ltb s t = bool_decide (str_compare s t = Lt).
Proof. unfold String.ltb. by destruct (str_compare s t). Qed.
