(* ===== verification/GoUnicode.v ===== *)
(** Go's runes: what [range] over a string yields ([unicode/utf8]), a rune written back,
    and the [unicode] tables, which the class [Unicode] stands for. *)
From stdpp Require Import options.
From S2P Require Import Prelude GoStrings.

(** ** [unicode/utf8] *)

Definition RuneError : N := 65533.

(** A lead byte: how many bytes follow it, and the range of the first of them. *)
Definition lead (b : N) : option (nat * N * N) :=
  if (194 <=? b)%N && (b <=? 223)%N then Some (1, 128%N, 191%N)
  else if (b =? 224)%N then Some (2, 160%N, 191%N)
  else if (b =? 237)%N then Some (2, 128%N, 159%N)
  else if (225 <=? b)%N && (b <=? 239)%N then Some (2, 128%N, 191%N)
  else if (b =? 240)%N then Some (3, 144%N, 191%N)
  else if (241 <=? b)%N && (b <=? 243)%N then Some (3, 128%N, 191%N)
  else if (b =? 244)%N then Some (3, 128%N, 143%N)
  else None.
(** The bytes that follow, six bits of each. *)
Fixpoint continued (n : nat) (lo hi acc : N) (s : string) : option N :=
  match n, s with
  | O, _ => Some acc
  | S n, "" => None
  | S n, String c s =>
      let b := N_of_ascii c in
      if (lo <=? b)%N && (b <=? hi)%N then continued n 128 191 (acc * 64 + b mod 64)%N s else None
  end.
(** [DecodeRuneInString] of a string that starts with [c]: the rune and its width. *)
Definition decode_rune (c : ascii) (s : string) : N * nat :=
  let b := N_of_ascii c in
  if (b <? 128)%N then (b, 1)
  else
    match lead b with
    | None => (RuneError, 1)
    | Some (n, lo, hi) =>
        match continued n lo hi (b mod 2 ^ N.of_nat (6 - n))%N s with
        | Some r => (r, S n)
        | None => (RuneError, 1)
        end
    end.
Fixpoint runes_from (skip : nat) (s : string) : list N :=
  match s with
  | "" => []
  | String c s =>
      match skip with
      | S skip => runes_from skip s
      | O => let '(r, n) := decode_rune c s in r :: runes_from (pred n) s
      end
  end.
Definition runes (s : string) : list N := runes_from 0 s.

(** [utf8.RuneCountInString]. *)
Definition RuneCount (s : string) : nat := length (runes s).

(** [utf8.AppendRune]: what is no code point is written as [RuneError]. *)
Definition encode_rune (r : N) : string :=
  let r := if ((55296 <=? r)%N && (r <=? 57343)%N) || (1114111 <? r)%N then RuneError else r in
  let tail n := ascii_of_N (128 + n mod 64) in
  if (r <? 128)%N then String (ascii_of_N r) ""
  else if (r <? 2048)%N then String (ascii_of_N (192 + r / 64)) (String (tail r) "")
  else if (r <? 65536)%N
  then String (ascii_of_N (224 + r / 4096)) (String (tail (r / 64)%N) (String (tail r) ""))
  else String (ascii_of_N (240 + r / 262144))
         (String (tail (r / 4096)%N) (String (tail (r / 64)%N) (String (tail r) ""))).

(** ** The tables *)

Class Unicode := {
  IsLetter : N → bool;
  IsDigit : N → bool;
  to_lower_rune : N → N;
}.
(** [strings.ToLower]. *)
Definition ToLower `{Unicode} (s : string) : string :=
  String.concat "" (map (λ r, encode_rune (to_lower_rune r)) (runes s)).

(** The tables of the first 128 code points. *)
Definition ascii_tables : Unicode := {|
  IsLetter := λ r, ((65 <=? r) && (r <=? 90) || (97 <=? r) && (r <=? 122))%N;
  IsDigit := λ r, ((48 <=? r) && (r <=? 57))%N;
  to_lower_rune := λ r, if ((65 <=? r) && (r <=? 90))%N then (r + 32)%N else r;
|}.

(** ** Facts *)

Definition is_ascii (c : ascii) : bool := (N_of_ascii c <? 128)%N.

Lemma decode_rune_ascii c s : is_ascii c = true → decode_rune c s = (N_of_ascii c, 1).
Proof. unfold is_ascii, decode_rune. by intros ->. Qed.
Lemma runes_ascii c s : is_ascii c = true → runes (String c s) = N_of_ascii c :: runes s.
Proof. intros Hc. unfold runes at 1. cbn [runes_from]. by rewrite decode_rune_ascii by done. Qed.

(** An ASCII byte is never part of another rune: it splits a string's runes. *)
Lemma continued_app n lo hi acc s c t :
  (128 <= lo)%N → is_ascii c = true →
  continued n lo hi acc (s +:+ String c t) = continued n lo hi acc s.
Proof.
  unfold is_ascii. intros Hlo Hc%N.ltb_lt. revert lo hi acc s Hlo.
  induction n as [|n IH]; intros lo hi acc s Hlo; [done|]. destruct s as [|d s]; rewrite ?str_app_cons, ?str_app_nil_l; cbn [continued].
  - by rewrite (proj2 (N.leb_gt _ _)) by lia.
  - destruct (_ && _); [|done]. by apply IH.
Qed.
Lemma lead_low b n lo hi : lead b = Some (n, lo, hi) → (128 <= lo)%N.
Proof. unfold lead. intros. repeat case_match; simplify_eq; lia. Qed.
Lemma continued_length n lo hi acc s r : continued n lo hi acc s = Some r → n ≤ String.length s.
Proof.
  revert lo hi acc s. induction n as [|n IH]; intros lo hi acc s; [lia|]. destruct s as [|c s]; cbn; [done|].
  destruct (_ && _); [|done]. intros ?%IH. lia.
Qed.
Lemma decode_rune_app d s c t :
  is_ascii c = true → decode_rune d (s +:+ String c t) = decode_rune d s.
Proof.
  intros Hc. unfold decode_rune. destruct (_ <? _)%N; [done|]. destruct (lead (N_of_ascii d)) as [[[n lo] hi]|] eqn:E; [|done].
  by rewrite continued_app by eauto using lead_low.
Qed.
Lemma decode_rune_width d s r n : decode_rune d s = (r, n) → pred n ≤ String.length s.
Proof.
  unfold decode_rune. destruct (_ <? _)%N; [intros [= <- <-]; lia|].
  destruct (lead _) as [[[k lo] hi]|]; [|intros [= <- <-]; lia].
  destruct (continued _ _ _ _ _) eqn:E; intros [= <- <-]; [|lia]. cbn. by eapply continued_length.
Qed.
Lemma runes_from_app skip s c t :
  is_ascii c = true → skip ≤ String.length s →
  runes_from skip (s +:+ String c t) = runes_from skip s ++ runes (String c t).
Proof.
  intros Hc. revert skip. induction s as [|d s IH]; intros skip Hs; cbn in Hs.
  - by replace skip with 0 by lia.
  - rewrite str_app_cons. cbn [runes_from]. destruct skip as [|skip]; [|apply IH; lia].
    rewrite decode_rune_app by done. destruct (decode_rune d s) as [r n] eqn:E.
    cbn [app]. f_equal. apply IH. by eapply decode_rune_width.
Qed.
Lemma runes_app s c t : is_ascii c = true → runes (s +:+ String c t) = runes s ++ N_of_ascii c :: runes t.
Proof. intros Hc. unfold runes at 1. rewrite runes_from_app by (done || lia). by rewrite runes_ascii by done. Qed.

Lemma RuneCount_app s c t : is_ascii c = true → RuneCount (s +:+ String c t) = RuneCount s + S (RuneCount t).
Proof. intros Hc. unfold RuneCount. by rewrite runes_app, length_app by done. Qed.

Example runes_sample :
  runes ("a" +:+ of_bytes [194; 167] +:+ of_bytes [226; 156; 147] +:+ of_bytes [240; 159; 152; 128] +:+ of_bytes [226; 156]) =
  [97; 167; 10003; 128512; RuneError; RuneError]%N.
Proof. by vm_compute. Qed.
Example encode_sample :
  String.concat "" (map encode_rune [97; 167; 10003; 128512]%N) =
  "a" +:+ of_bytes [194; 167] +:+ of_bytes [226; 156; 147] +:+ of_bytes [240; 159; 152; 128].
Proof. by vm_compute. Qed.
