(* ===== verification/Regex.v ===== *)
(** Go's [regexp] for the patterns the sources compile: regular expressions
    over bytes, an inductive semantics, a matcher by derivatives and its
    correctness.  Each pattern of the sources is transcribed as a [regex] by
    the file that uses it. *)
From stdpp Require Import options.
From S2P Require Import Prelude GoStrings.

Inductive regex :=
  | RNone
  | REps
  | RSet (f : ascii → bool)
  | RCat (r1 r2 : regex)
  | RAlt (r1 r2 : regex)
  | RStar (r : regex)
  | RUpTo (n : nat) (r : regex)  (** [r{0,n}] *).

(** [r?], [r+] and a literal byte sequence. *)
Definition ROpt (r : regex) : regex := RAlt REps r.
Definition RPlus (r : regex) : regex := RCat r (RStar r).
Definition RByte (c : ascii) : regex := RSet (λ d, bool_decide (d = c)).
Fixpoint RLit (s : string) : regex :=
  match s with "" => REps | String c s => RCat (RByte c) (RLit s) end.

Inductive re_match : regex → string → Prop :=
  | M_eps : re_match REps ""
  | M_set f c : f c = true → re_match (RSet f) (String c "")
  | M_cat r1 r2 s1 s2 :
      re_match r1 s1 → re_match r2 s2 → re_match (RCat r1 r2) (s1 +:+ s2)
  | M_alt_l r1 r2 s : re_match r1 s → re_match (RAlt r1 r2) s
  | M_alt_r r1 r2 s : re_match r2 s → re_match (RAlt r1 r2) s
  | M_star_nil r : re_match (RStar r) ""
  | M_star_cons r s1 s2 :
      re_match r s1 → re_match (RStar r) s2 → re_match (RStar r) (s1 +:+ s2)
  | M_upto_nil n r : re_match (RUpTo n r) ""
  | M_upto_cons n r s1 s2 :
      re_match r s1 → re_match (RUpTo n r) s2 →
      re_match (RUpTo (S n) r) (s1 +:+ s2).

(** ** The matcher *)

Fixpoint nullable (r : regex) : bool :=
  match r with
  | RNone | RSet _ => false
  | REps | RStar _ | RUpTo _ _ => true
  | RCat r1 r2 => nullable r1 && nullable r2
  | RAlt r1 r2 => nullable r1 || nullable r2
  end.

Definition rcat (r1 r2 : regex) : regex :=
  match r1, r2 with
  | RNone, _ | _, RNone => RNone
  | REps, r | r, REps => r
  | _, _ => RCat r1 r2
  end.

Definition ralt (r1 r2 : regex) : regex :=
  match r1, r2 with
  | RNone, r | r, RNone => r
  | _, _ => RAlt r1 r2
  end.

Fixpoint deriv (c : ascii) (r : regex) : regex :=
  match r with
  | RNone | REps => RNone
  | RSet f => if f c then REps else RNone
  | RCat r1 r2 =>
      let d := rcat (deriv c r1) r2 in
      if nullable r1 then ralt d (deriv c r2) else d
  | RAlt r1 r2 => ralt (deriv c r1) (deriv c r2)
  | RStar r' => rcat (deriv c r') (RStar r')
  | RUpTo 0 _ => RNone
  | RUpTo (S n) r' => rcat (deriv c r') (RUpTo n r')
  end.

(** [regexp.MatchString] of [^r$]. *)
Fixpoint matches (r : regex) (s : string) : bool :=
  match s with "" => nullable r | String c s => matches (deriv c r) s end.

(** [regexp.FindString] of [^r] where [r] matches at most one way: the
    longest matching prefix, [None] when no prefix matches. *)
Fixpoint longest_prefix (r : regex) (s : string) : option string :=
  let here := if nullable r then Some "" else None in
  match s with
  | "" => here
  | String c s =>
      match longest_prefix (deriv c r) s with
      | Some p => Some (String c p)
      | None => here
      end
  end.

(** ** Correctness *)

Ltac inv_match :=
  repeat match goal with
  | H : re_match RNone _ |- _ => inversion H
  | H : re_match REps _ |- _ => inversion H; clear H; subst
  | H : re_match (RSet _) _ |- _ => inversion H; clear H; subst
  | H : re_match (RCat _ _) _ |- _ => inversion H; clear H; subst
  | H : re_match (RAlt _ _) _ |- _ => inversion H; clear H; subst
  end.

Lemma str_app_eq_nil s t : "" = s +:+ t → s = "" ∧ t = "".
Proof. destruct s; [done|]. by rewrite str_app_cons. Qed.

Lemma nullable_match r : nullable r = true ↔ re_match r "".
Proof.
  split.
  - induction r; cbn; intros H; try done; try (constructor; done).
    + apply andb_true_iff in H as [??]. apply (M_cat _ _ "" ""); auto.
    + apply orb_true_iff in H as [?|?]; [apply M_alt_l|apply M_alt_r]; auto.
  - intros H. remember "" as s eqn:Es.
    induction H; cbn; simplify_eq; rewrite ?andb_true_iff, ?orb_true_iff; auto;
      symmetry in Es; apply str_app_eq_nil in Es as [-> ->]; auto.
Qed.

Lemma rcat_match r1 r2 s : re_match (rcat r1 r2) s ↔ re_match (RCat r1 r2) s.
Proof.
  assert (re_match REps "") as He by constructor.
  split.
  - destruct r1, r2; cbn; intros H; try done; try (by inv_match);
      try (rewrite <-(str_app_nil_l s); by constructor);
      try (rewrite <-(str_app_nil_r s); by constructor).
  - destruct r1, r2; cbn; intros H; try done; inv_match;
      rewrite ?str_app_nil_l, ?str_app_nil_r; try done; by constructor.
Qed.

Lemma ralt_match r1 r2 s : re_match (ralt r1 r2) s ↔ re_match (RAlt r1 r2) s.
Proof.
  split.
  - destruct r1, r2; cbn; intros H; try done;
      first [by apply M_alt_l | by apply M_alt_r].
  - destruct r1, r2; cbn; intros H; try done; inversion H; subst;
      first [done | by inv_match].
Qed.

Lemma re_match_upto_S n r s : re_match (RUpTo n r) s → re_match (RUpTo (S n) r) s.
Proof.
  intros H. remember (RUpTo n r) as q eqn:Eq. revert n Eq.
  induction H; intros ? [=]; subst; [constructor|].
  constructor; [done|]. naive_solver.
Qed.

Lemma str_cons_eq_app c t s1 s2 :
  String c t = s1 +:+ s2 →
  (s1 = "" ∧ s2 = String c t) ∨ ∃ s1', s1 = String c s1' ∧ t = s1' +:+ s2.
Proof.
  destruct s1 as [|d s1]; [by left|]. rewrite str_app_cons. intros [= -> ->].
  right. eauto.
Qed.

Lemma re_match_star_cons c r t :
  re_match (RStar r) (String c t) →
  ∃ s1 s2, t = s1 +:+ s2 ∧ re_match r (String c s1) ∧ re_match (RStar r) s2.
Proof.
  intros H. remember (RStar r) as q eqn:Eq. remember (String c t) as s eqn:Es.
  revert Eq Es. induction H as [| | | | | |r' s1 s2 H1 _ H2 IH| |];
    intros [=] Es; subst; [done|].
  symmetry in Es. apply str_cons_eq_app in Es as [[-> ->]|(s1' & -> & ->)]; eauto.
Qed.

Lemma re_match_upto_cons c n r t :
  re_match (RUpTo n r) (String c t) →
  ∃ n' s1 s2, n = S n' ∧ t = s1 +:+ s2 ∧ re_match r (String c s1) ∧
    re_match (RUpTo n' r) s2.
Proof.
  intros H. remember (RUpTo n r) as q eqn:Eq. remember (String c t) as s eqn:Es.
  revert n Eq Es. induction H as [| | | | | | | |n r' s1 s2 H1 _ H2 IH];
    intros ? [=] Es; subst; [done|].
  symmetry in Es. apply str_cons_eq_app in Es as [[-> ->]|(s1' & -> & ->)]; [|eauto 10].
  destruct (IH n eq_refl eq_refl) as (n' & t1 & t2 & -> & -> & ? & ?).
  exists (S n'), t1, t2. eauto using re_match_upto_S.
Qed.

Lemma deriv_match c r s : re_match (deriv c r) s ↔ re_match r (String c s).
Proof.
  revert s. induction r as [| |f|r1 IH1 r2 IH2|r1 IH1 r2 IH2|r IH|n r IH];
    intros s; cbn; split.
  - by inversion 1.
  - by inversion 1.
  - by inversion 1.
  - by inversion 1.
  - destruct (f c) eqn:?; intros H; inv_match; by constructor.
  - intros H; inv_match. match goal with H : f c = true |- _ => rewrite H end.
    constructor.
  - intros H.
    assert (re_match (RCat (deriv c r1) r2) s ∨
            nullable r1 = true ∧ re_match (deriv c r2) s) as [H'|[Hn H']].
    { destruct (nullable r1); rewrite ?ralt_match, ?rcat_match in H; [|by left].
      inversion H; subst; [left; by apply rcat_match|by right]. }
    + inv_match. rewrite <-str_app_cons. constructor; naive_solver.
    + rewrite <-(str_app_nil_l (String c s)). constructor; [by apply nullable_match|].
      by apply IH2.
  - intros H. inversion H as [| |? ? s1 s2 H1 H2 [E1 E2] Es| | | | | |]; subst.
    symmetry in Es. apply str_cons_eq_app in Es as [[-> ->]|(s1' & -> & ->)].
    + apply nullable_match in H1 as ->. apply ralt_match, M_alt_r. by apply IH2.
    + assert (re_match (rcat (deriv c r1) r2) (s1' +:+ s2)).
      { apply rcat_match. constructor; [by apply IH1|done]. }
      destruct (nullable r1); [apply ralt_match; by apply M_alt_l|done].
  - rewrite ralt_match. intros H; inv_match;
      [apply M_alt_l; by apply IH1|apply M_alt_r; by apply IH2].
  - rewrite ralt_match. intros H; inv_match;
      [apply M_alt_l; by apply IH1|apply M_alt_r; by apply IH2].
  - rewrite rcat_match. intros H; inv_match. rewrite <-str_app_cons.
    constructor; [by apply IH|done].
  - rewrite rcat_match. intros (s1 & s2 & -> & ? & ?)%re_match_star_cons.
    constructor; [by apply IH|done].
  - destruct n as [|n]; cbn; rewrite ?rcat_match; [by inversion 1|].
    intros H; inv_match. rewrite <-str_app_cons. constructor; [by apply IH|done].
  - intros (n' & s1 & s2 & -> & -> & ? & ?)%re_match_upto_cons. cbn.
    rewrite rcat_match. constructor; [by apply IH|done].
Qed.

Lemma matches_spec r s : matches r s = true ↔ re_match r s.
Proof.
  revert r. induction s as [|c s IH]; intros r; cbn.
  - apply nullable_match.
  - by rewrite IH, deriv_match.
Qed.

Lemma longest_prefix_match r s p :
  longest_prefix r s = Some p → re_match r p ∧ ∃ q, s = p +:+ q.
Proof.
  revert r p. induction s as [|c s IH]; intros r p; cbn.
  - destruct (nullable r) eqn:Hn; intros [= <-].
    split; [by apply nullable_match|by exists ""].
  - destruct (longest_prefix _ _) as [p'|] eqn:E.
    + intros [= <-]. apply IH in E as [? [q ->]].
      split; [by apply deriv_match|by exists q].
    + destruct (nullable r) eqn:Hn; intros [= <-].
      split; [by apply nullable_match|by exists (String c s)].
Qed.

(** A string that starts with a match has a longest one. *)
Lemma longest_prefix_Some r p q : re_match r p → is_Some (longest_prefix r (p +:+ q)).
Proof.
  revert r. induction p as [|c p IH]; intros r Hm.
  - apply nullable_match in Hm. rewrite str_app_nil_l. destruct q as [|d q]; cbn; rewrite Hm; [done|].
    by destruct (longest_prefix _ _).
  - rewrite str_app_cons. cbn. apply deriv_match, IH in Hm as [x ->]. done.
Qed.

Lemma re_match_lit s t : re_match (RLit s) t ↔ t = s.
Proof.
  revert t. induction s as [|c s IH]; intros t; cbn.
  - split; [by inversion 1|intros ->; constructor].
  - split.
    + inversion 1 as [| |? ? s1 s2 H1 H2| | | | | |]; subst. apply IH in H2 as ->.
      inversion H1; subst. by match goal with H : bool_decide _ = true |- _ => apply bool_decide_eq_true in H as -> end.
    + intros ->. rewrite <-(str_app_nil_l s), <-str_app_cons. constructor; [|by apply IH].
      constructor. by apply bool_decide_eq_true.
Qed.

(** ** The bytes a pattern admits *)

Definition all_bytes : list ascii := map ascii_of_nat (seq 0 256).

Lemma all_bytes_elem_of c : c ∈ all_bytes.
Proof.
  apply list_elem_of_fmap. exists (nat_of_ascii c).
  split; [by rewrite ascii_nat_embedding|]. apply elem_of_seq.
  pose proof (nat_ascii_bounded c). lia.
Qed.

(** Every class of the pattern is within [f]. *)
Fixpoint re_within (f : ascii → bool) (r : regex) : bool :=
  match r with
  | RNone | REps => true
  | RSet g => forallb (λ c, implb (g c) (f c)) all_bytes
  | RCat r1 r2 | RAlt r1 r2 => re_within f r1 && re_within f r2
  | RStar r | RUpTo _ r => re_within f r
  end.

Lemma re_match_within f r s :
  re_within f r = true → re_match r s → str_forall f s = true.
Proof.
  intros Hf H.
  induction H as [|g c Hg| | | | | | |]; cbn [re_within str_forall] in *;
    rewrite ?str_forall_app, ?andb_true_iff in *; destruct_and?; auto.
  split; [|done]. apply forallb_Forall in Hf. rewrite Forall_forall in Hf.
  specialize (Hf c (all_bytes_elem_of c)). by rewrite Hg in Hf.
Qed.

Lemma matches_within f r s :
  re_within f r = true → matches r s = true → str_forall f s = true.
Proof. rewrite matches_spec. apply re_match_within. Qed.

(** ** Shapes of matches *)

Lemma re_match_byte c s : re_match (RByte c) s ↔ s = String c "".
Proof.
  split.
  - inversion 1 as [|f d Hd| | | | | | |]; subst. by apply bool_decide_eq_true in Hd as ->.
  - intros ->. constructor. by apply bool_decide_eq_true.
Qed.

Lemma re_match_star_set f s : re_match (RStar (RSet f)) s ↔ str_forall f s = true.
Proof.
  split.
  - intros H. eapply re_match_within in H; [exact H|].
    apply List.forallb_forall. intros c _. by destruct (f c).
  - induction s as [|c s IH]; cbn; [constructor|].
    rewrite andb_true_iff. intros [Hc Hs].
    apply (M_star_cons _ (String c "") s); [by constructor|auto].
Qed.

Lemma re_match_plus_set f s :
  re_match (RPlus (RSet f)) s ↔ s ≠ "" ∧ str_forall f s = true.
Proof.
  unfold RPlus. split.
  - inversion 1 as [| |? ? s1 s2 H1 H2| | | | | |]; subst. inversion H1; subst.
    apply re_match_star_set in H2. rewrite str_app_cons, str_app_nil_l. cbn.
    by rewrite andb_true_iff.
  - intros [Hne Hs]. destruct s as [|c s]; [done|]. cbn in Hs.
    apply andb_true_iff in Hs as [Hc Hs].
    apply (M_cat _ _ (String c "") s); [by constructor|].
    by apply re_match_star_set.
Qed.

(** A list of segments, each behind the separator. *)
Fixpoint prefixed (c : ascii) (l : list string) : string :=
  match l with [] => "" | x :: l => String c x +:+ prefixed c l end.

Lemma re_match_star_prefixed c r s :
  re_match (RStar (RCat (RByte c) r)) s ↔ ∃ l, s = prefixed c l ∧ Forall (re_match r) l.
Proof.
  split.
  - intros H. remember (RStar _) as q eqn:Eq.
    induction H as [| | | | | |? s1 s2 H1 _ H2 IH| |]; simplify_eq.
    + by exists [].
    + inversion H1 as [| |? ? t1 t2 Ht1 Ht2| | | | | |]; subst.
      apply re_match_byte in Ht1 as ->. destruct (IH eq_refl) as (l & -> & Hl).
      exists (t2 :: l). split; [done|by constructor].
  - intros (l & -> & Hl). induction Hl as [|x l Hx Hl IH]; cbn; [constructor|].
    constructor; [|done]. apply (M_cat _ _ (String c "") x); [by apply re_match_byte|done].
Qed.

Lemma prefixed_join c x l : x +:+ prefixed c l = join (String c "") (x :: l).
Proof.
  revert x. induction l as [|y l IH]; intros x; cbn [prefixed].
  - apply str_app_nil_r.
  - by rewrite join_cons2, !str_app_cons, IH.
Qed.

(** A pattern [a(\.b)*] splits at its separator. *)
Lemma re_match_separated c r1 r2 s :
  (∀ t, re_match r1 t → contains_byte c t = false) →
  (∀ t, re_match r2 t → contains_byte c t = false) →
  re_match (RCat r1 (RStar (RCat (RByte c) r2))) s ↔
  ∃ x l, split c s = x :: l ∧ re_match r1 x ∧ Forall (re_match r2) l.
Proof.
  intros Hr1 Hr2. split.
  - inversion 1 as [| |? ? s1 s2 H1 H2| | | | | |]; subst.
    apply re_match_star_prefixed in H2 as (l & -> & Hl).
    exists s1, l. split; [|done]. rewrite prefixed_join. apply split_join; [done|].
    constructor; [by apply Hr1|]. eapply Forall_impl; [exact Hl|]. auto.
  - intros (x & l & Hs & Hx & Hl). rewrite <-(join_split c s), Hs, <-prefixed_join.
    constructor; [done|]. apply re_match_star_prefixed. eauto.
Qed.
