(* ===== verification/Version.v ===== *)
(** [spec/version.go]: capability names, versions, provides and requires
    entries, and the order on versions. *)
From stdpp Require Import options.
From S2P Require Import Prelude GoStrings Regex.

(** ** Patterns *)

Definition is_alnum (c : ascii) : bool := is_lower c || is_digit c.
Definition one_of (s : string) (c : ascii) : bool := contains_byte c s.

Definition handleName : regex :=
  RCat (RSet is_alnum)
    (ROpt (RCat (RUpTo 62 (RSet (λ c, is_alnum c || one_of "-" c))) (RSet is_alnum))).

Definition capabilityName : regex :=
  RCat (RSet is_alnum)
    (ROpt (RCat (RUpTo 62 (RSet (λ c, is_alnum c || one_of "+.-" c)))
                (RSet (λ c, is_alnum c || one_of "+" c)))).

Definition capabilityNamespace : regex :=
  RPlus (RSet (λ c, is_alnum c || one_of ".-" c)).

Definition namespaceLabel : regex :=
  RCat (RSet is_alnum)
    (ROpt (RCat (RUpTo 61 (RSet (λ c, is_alnum c || one_of "-" c))) (RSet is_alnum))).

Definition maxNamespaceLength : nat := 253.

Definition DefaultCapabilityNamespace : string := "com.docker.kit".
Definition DebNamespace : string := "deb".
Definition ApkNamespace : string := "apk".

(** ** Capability names *)

Definition IsDerivedProvide (name : string) : bool :=
  let '(ns, _, qualified) := cut "/" name in
  qualified && (bool_decide (ns = DebNamespace) || bool_decide (ns = ApkNamespace)).

Definition NormalizeCapabilityName (name : string) : string :=
  if contains "/" name then name else DefaultCapabilityNamespace +:+ "/" +:+ name.

Definition DisplayCapabilityName (name : string) : string :=
  trim_prefix (DefaultCapabilityNamespace +:+ "/") name.

Definition reservedNamespaces : list string := [DebNamespace; ApkNamespace].

Inductive name_error :=
  | InvalidName (name : string)
  | NamespaceTooLong (base : string) (len : nat)
  | NotReverseDNS (ns name label : string)
  | ReservedLabel (ns name base : string).

Definition capabilityNameError (name : string) : option name_error :=
  let '(ns, base, qualified) := cut "/" name in
  if negb qualified then
    if negb (matches capabilityName name) then Some (InvalidName name) else None
  else if bool_decide (ns = "") then Some (InvalidName name)
  else if negb (matches capabilityNamespace ns) || negb (matches capabilityName base)
  then Some (InvalidName name)
  else if maxNamespaceLength <? String.length ns
  then Some (NamespaceTooLong base (String.length ns))
  else
    let labels := split "." ns in
    match find (λ label, negb (matches namespaceLabel label)) labels with
    | Some label => Some (NotReverseDNS ns name label)
    | None =>
        if bool_decide (ns ∈ reservedNamespaces) then None
        else if length labels <? 2 then Some (ReservedLabel ns name base)
        else None
    end.

Definition validCapabilityName (name : string) : bool :=
  match capabilityNameError name with None => true | Some _ => false end.

(** ** Versions *)

Definition is_version_byte (c : ascii) : bool :=
  is_digit c || is_upper c || is_lower c || one_of "-" c.

Definition versionPattern : regex :=
  RCat (RPlus (RSet is_digit))
    (RStar (RCat (RByte ".") (RPlus (RSet is_version_byte)))).

(** What a parse reports when it refuses an entry. *)
Inductive ConstraintOp := OpGTE | OpGT | OpLTE | OpLT | OpEQ.
#[export] Instance ConstraintOp_eq_dec : EqDecision ConstraintOp.
Proof. solve_decision. Defined.

Record Constraint := mkConstraint { Op : ConstraintOp; CVersion : string }.
#[export] Instance Constraint_eq_dec : EqDecision Constraint.
Proof. solve_decision. Defined.

Inductive parse_error :=
  | ProvidesEntry (s : string) (e : parse_error)
  | RequiresEntry (s : string) (e : parse_error)
  | BadName (e : name_error)
  | InvalidVersion (v : string)
  | MissingCapabilityName
  | MissingVersion (op : ConstraintOp)
  | BadConstraint (op : ConstraintOp) (e : parse_error)
  | TrailingComma
  | EmptyConstraints
  | ExpectedOperator (s : string)
  | ConflictingPins (pin v : string)
  | PinConflicts (pin : string) (c : Constraint)
  | UnsatisfiableBounds (lo hi : Constraint).

Definition parseVersion (v : string) : result parse_error string :=
  let v := trim_space v in
  if negb (matches versionPattern v) then Err (InvalidVersion v) else Ok v.

Definition IsVersion (s : string) : bool := is_ok (parseVersion s).

Definition splitVersion (v : string) : list string :=
  let v := trim_space v in if bool_decide (v = "") then [] else split "." v.

Definition allDigits (s : string) : bool :=
  if bool_decide (s = "") then false else str_forall is_digit s.

Definition compareDigits (a b : string) : comparison :=
  let a := trim_left "0" a in
  let b := trim_left "0" b in
  if negb (String.length a =? String.length b)
  then (if String.length a <? String.length b then Lt else Gt)
  else str_compare a b.

(** One position of the loop of [CompareVersions]. *)
Definition compareSegment (av bv : string) : comparison :=
  if allDigits av && allDigits bv then compareDigits av bv
  else if bool_decide (av = bv) then Eq
  else if str_ltb av bv then Lt else Gt.

Fixpoint compareSegments (xs ys : list string) {struct xs} : comparison :=
  match xs with
  | [] =>
      (fix go ys :=
         match ys with
         | [] => Eq
         | y :: ys => match compareSegment "" y with Eq => go ys | c => c end
         end) ys
  | x :: xs =>
      match compareSegment x (hd "" ys) with
      | Eq => compareSegments xs (tl ys)
      | c => c
      end
  end.

(** [Lt], [Eq], [Gt] stand for -1, 0, 1. *)
Definition CompareVersions (a b : string) : comparison :=
  compareSegments (splitVersion a) (splitVersion b).

Definition canonicalSegment (seg : string) : string :=
  if negb (allDigits seg) then seg
  else
    let trimmed := trim_left "0" seg in
    if bool_decide (trimmed = "") then "0" else trimmed.

Definition canonicalVersion (v : string) : string :=
  join "." (canonicalSegment <$> splitVersion v).

(** ** Provides and requires *)

Record Provide := mkProvide { PName : string; PVersion : string }.
Record Require_ := mkRequire { RName : string; Constraints : list Constraint }.

#[export] Instance Provide_eq_dec : EqDecision Provide.
Proof. solve_decision. Defined.
#[export] Instance Require_eq_dec : EqDecision Require_.
Proof. solve_decision. Defined.

Definition ParseProvide (s : string) : result parse_error Provide :=
  let '(name, version, found) := cut "@" (trim_space s) in
  match capabilityNameError name with
  | Some e => Err (ProvidesEntry s (BadName e))
  | None =>
      let p := Ok (mkProvide (NormalizeCapabilityName name) version) in
      if found then
        match parseVersion version with
        | Err e => Err (ProvidesEntry s e)
        | Ok _ => p
        end
      else p
  end.

Definition constraintHolds (version : string) (c : Constraint) : bool :=
  match Op c, CompareVersions version (CVersion c) with
  | OpGTE, (Gt | Eq) => true
  | OpGT, Gt => true
  | OpLTE, (Lt | Eq) => true
  | OpLT, Lt => true
  | OpEQ, Eq => true
  | _, _ => false
  end.

Definition Satisfies (p : Provide) (r : Require_) : bool :=
  if negb (bool_decide (PName p = RName r)) then false
  else if bool_decide (Constraints r = []) then true
  else if bool_decide (PVersion p = "") then false
  else forallb (constraintHolds (PVersion p)) (Constraints r).

Definition versionSuccessorSuffix : string := ".-".
Definition nextVersion (v : string) : string := v +:+ versionSuccessorSuffix.

(** *** [checkConstraintsSatisfiable] *)

(** The first loop: the last pin, when every pin agrees with the one before. *)
Fixpoint collectPin (pin : option string) (cs : list Constraint) :
    result parse_error (option string) :=
  match cs with
  | [] => Ok pin
  | c :: cs =>
      match Op c with
      | OpEQ =>
          match pin with
          | Some p =>
              match CompareVersions p (CVersion c) with
              | Eq => collectPin (Some (CVersion c)) cs
              | _ => Err (ConflictingPins p (CVersion c))
              end
          | None => collectPin (Some (CVersion c)) cs
          end
      | _ => collectPin pin cs
      end
  end.

(** A bound under construction: the version, whether it is excluded, and
    whether there is one. *)
Record bound := mkBound { bVer : string; bExc : bool; bSet : bool }.

Definition tightenLo (lo : bound) (c : Constraint) : bound :=
  match Op c with
  | OpGTE | OpGT =>
      let exc := bool_decide (Op c = OpGT) in
      match negb (bSet lo), CompareVersions (CVersion c) (bVer lo) with
      | true, _ | _, Gt => mkBound (CVersion c) exc true
      | _, Eq => if exc && negb (bExc lo) then mkBound (CVersion c) exc true else lo
      | _, Lt => lo
      end
  | _ => lo
  end.

Definition tightenHi (hi : bound) (c : Constraint) : bound :=
  match Op c with
  | OpLTE | OpLT =>
      let exc := bool_decide (Op c = OpLT) in
      match negb (bSet hi), CompareVersions (CVersion c) (bVer hi) with
      | true, _ | _, Lt => mkBound (CVersion c) exc true
      | _, Eq => if exc && negb (bExc hi) then mkBound (CVersion c) exc true else hi
      | _, Gt => hi
      end
  | _ => hi
  end.

Definition checkConstraintsSatisfiable (cs : list Constraint) : result parse_error () :=
  pin ← collectPin None cs;
  match pin with
  | Some pin =>
      match find (λ c, negb (constraintHolds pin c)) cs with
      | Some c => Err (PinConflicts pin c)
      | None => Ok ()
      end
  | None =>
      let lo := foldl tightenLo (mkBound "0" false true) cs in
      let hi := foldl tightenHi (mkBound "" false false) cs in
      if negb (bSet lo) || negb (bSet hi) then Ok ()
      else
        let effectiveLo := if bExc lo then nextVersion (bVer lo) else bVer lo in
        let effectiveExc := if bExc lo then false else bExc lo in
        let cmp := CompareVersions effectiveLo (bVer hi) in
        if bool_decide (cmp = Gt) || (bool_decide (cmp = Eq) && (effectiveExc || bExc hi))
        then Err (UnsatisfiableBounds
               (mkConstraint (if bExc lo then OpGT else OpGTE) (bVer lo))
               (mkConstraint (if bExc hi then OpLT else OpLTE) (bVer hi)))
        else Ok ()
  end.

(** *** Parsing *)

Definition cutConstraintOp (s : string) : result parse_error (ConstraintOp * string) :=
  let s := trim_space s in
  if has_prefix ">=" s then Ok (OpGTE, trim_space (str_drop 2 s))
  else if has_prefix "<=" s then Ok (OpLTE, trim_space (str_drop 2 s))
  else if has_prefix ">" s then Ok (OpGT, trim_space (str_drop 1 s))
  else if has_prefix "<" s then Ok (OpLT, trim_space (str_drop 1 s))
  else if has_prefix "=" s then Ok (OpEQ, trim_space (str_drop 1 s))
  else Err (ExpectedOperator s).

(** The loop of [parseConstraints]; each turn consumes an operator, so the
    length of the text bounds the turns. *)
Fixpoint parseConstraintsLoop (fuel : nat) (s : string) (out : list Constraint) :
    result parse_error (list Constraint) :=
  match fuel with
  | 0 => Ok out
  | S fuel =>
      if bool_decide (s = "") then Ok out
      else
        '(op, afterOp) ← cutConstraintOp s;
        let '(versionPart, next, more) := cut "," afterOp in
        let versionPart := trim_space versionPart in
        if bool_decide (versionPart = "") then Err (MissingVersion op)
        else
          version ← map_err (BadConstraint op) (parseVersion versionPart);
          let out := out ++ [mkConstraint op version] in
          if negb more then Ok out
          else
            let s := trim_space next in
            if bool_decide (s = "") then Err TrailingComma
            else parseConstraintsLoop fuel s out
  end.

Definition parseConstraints (s : string) : result parse_error (list Constraint) :=
  out ← parseConstraintsLoop (S (String.length s)) s [];
  if bool_decide (out = []) then Err EmptyConstraints
  else
    _ ← checkConstraintsSatisfiable out;
    Ok out.

Definition is_operator_byte (c : ascii) : bool := one_of "><=" c.

(** The text before the first operator, and the text from it on. *)
Fixpoint splitAtOperator (s : string) : string * string :=
  match s with
  | "" => ("", "")
  | String c s' =>
      if is_operator_byte c then ("", s)
      else let '(before, from) := splitAtOperator s' in (String c before, from)
  end.

Definition splitRequireName (s : string) : result parse_error (string * string) :=
  let '(before, from) := splitAtOperator s in
  if bool_decide (from = "") then Ok (trim_space s, "")
  else
    let name := trim_space before in
    if bool_decide (name = "") then Err MissingCapabilityName
    else Ok (name, trim_space from).

Definition ParseRequire (s : string) : result parse_error Require_ :=
  let s := trim_space s in
  '(name, rest) ← map_err (RequiresEntry s) (splitRequireName s);
  match capabilityNameError name with
  | Some e => Err (RequiresEntry s (BadName e))
  | None =>
      if bool_decide (rest = "") then Ok (mkRequire (NormalizeCapabilityName name) [])
      else
        cs ← map_err (RequiresEntry s) (parseConstraints rest);
        Ok (mkRequire (NormalizeCapabilityName name) cs)
  end.

(** *** [CanonicalRequire] *)

Definition normalizeConstraint (c : Constraint) : Constraint :=
  if bool_decide (Op c = OpGT) then mkConstraint OpGTE (nextVersion (CVersion c))
  else if bool_decide (Op c = OpLT) && has_suffix versionSuccessorSuffix (CVersion c)
  then mkConstraint OpLTE (trim_suffix versionSuccessorSuffix (CVersion c))
  else c.

Definition pickLo (lo : option Constraint) (c : Constraint) : option Constraint :=
  match Op c with
  | OpGTE | OpGT =>
      match lo with
      | None => Some c
      | Some l =>
          match CompareVersions (CVersion c) (CVersion l) with
          | Gt => Some c
          | Eq => if bool_decide (Op c = OpGT) then Some c else lo
          | Lt => lo
          end
      end
  | _ => lo
  end.

Definition pickHi (hi : option Constraint) (c : Constraint) : option Constraint :=
  match Op c with
  | OpLTE | OpLT =>
      match hi with
      | None => Some c
      | Some h =>
          match CompareVersions (CVersion c) (CVersion h) with
          | Lt => Some c
          | Eq => if bool_decide (Op c = OpLT) then Some c else hi
          | Gt => hi
          end
      end
  | _ => hi
  end.

Definition simplifyConstraints (cs : list Constraint) : list Constraint :=
  match find (λ c, bool_decide (Op c = OpEQ)) cs with
  | Some c => [c]
  | None =>
      let cs := normalizeConstraint <$> cs in
      let lo := foldl pickLo None cs in
      let hi := foldl pickHi None cs in
      match lo, hi with
      | Some l, Some h =>
          if bool_decide (Op l = OpGTE) && bool_decide (Op h = OpLTE)
             && bool_decide (CompareVersions (CVersion l) (CVersion h) = Eq)
          then [mkConstraint OpEQ (CVersion l)]
          else [l; h]
      | _, _ => option_list lo ++ option_list hi
      end
  end.

Definition op_string (op : ConstraintOp) : string :=
  match op with
  | OpGTE => ">=" | OpGT => ">" | OpLTE => "<=" | OpLT => "<" | OpEQ => "="
  end.

Definition CanonicalRequire (r : Require_) : string :=
  let rendered :=
    (λ c, op_string (Op c) +:+ canonicalVersion (CVersion c))
      <$> simplifyConstraints (Constraints r) in
  RName r +:+ " " +:+ join "," (sort_strings rendered).

(** ** Package and tag versions *)

Definition nonzero_digit : ascii → bool := byte_in "1" "9".
Definition semver_number : regex :=
  RAlt (RByte "0") (RCat (RSet nonzero_digit) (RStar (RSet is_digit))).

Definition semverCore : regex :=
  RCat semver_number (RUpTo 2 (RCat (RByte ".") semver_number)).
Definition numericCore : regex :=
  RCat (RPlus (RSet is_digit)) (RUpTo 2 (RCat (RByte ".") (RPlus (RSet is_digit)))).
Definition versionEpoch : regex := RCat (RPlus (RSet is_digit)) (RByte ":").

(** [regexp.FindString] returns the empty string when nothing matches. *)
Definition FindString (r : regex) (s : string) : string :=
  default "" (longest_prefix r s).

Definition PackageVersion (raw : string) : string :=
  let raw := trim_space raw in
  let raw := str_drop (String.length (FindString versionEpoch raw)) raw in
  let upstream :=
    match last_index "-" raw with Some i => str_take i raw | None => raw end in
  if contains "~" upstream then ""
  else
    let core := FindString semverCore raw in
    let permissive := FindString numericCore raw in
    let core := if String.length core <? String.length permissive
                then permissive else core in
    if negb (IsVersion core) then "" else core.

Definition TagVersion (tag : string) : string :=
  let v := trim_prefix "v" tag in if negb (IsVersion v) then "" else v.

Definition latestStep (best : string * string) (tag : string) : string * string :=
  let '(bestTag, bestVersion) := best in
  let v := TagVersion tag in
  if bool_decide (v = "") then best
  else if bool_decide (bestTag = "")
          || bool_decide (CompareVersions v bestVersion = Gt)
  then (tag, v) else best.

Definition LatestVersion (tags : list string) : string :=
  (foldl latestStep ("", "") tags).1.
