(* ===== verification/VersionOrder.v ===== *)
(** The order [CompareVersions] puts on versions: segments of digits compare by
    value at any length, the comparison is reflexive and antisymmetric on all
    strings, and it is a total preorder on plain versions, whose segments are
    numbers or the successor segment ["-"]. *)
From stdpp Require Import options.
From S2P Require Import Prelude GoStrings Regex Version.

(** ** Digit strings *)

Definition digit_value (c : ascii) : N := N_of_ascii c - 48.

Fixpoint digits_value (acc : N) (s : string) : N :=
  match s with
  | "" => acc
  | String c s => digits_value (10 * acc + digit_value c) s
  end.

Notation pow10 n := (10 ^ N.of_nat n)%N.

Lemma pow10_S n : pow10 (S n) = (10 * pow10 n)%N.
Proof. rewrite Nat2N.inj_succ. apply N.pow_succ_r'. Qed.

Lemma pow10_pos n : (0 < pow10 n)%N.
Proof. apply N.neq_0_lt_0, N.pow_nonzero. done. Qed.

Lemma digit_code c : is_digit c = true → N_of_ascii c = (48 + digit_value c)%N ∧ (digit_value c < 10)%N.
Proof.
  unfold is_digit, byte_in, digit_value.
  rewrite andb_true_iff, !N.leb_le. change (N_of_ascii "0") with 48%N.
  change (N_of_ascii "9") with 57%N. lia.
Qed.

Lemma digits_value_acc acc s :
  digits_value acc s = (acc * pow10 (String.length s) + digits_value 0 s)%N.
Proof.
  revert acc. induction s as [|c s IH]; intros acc; [cbn; lia|].
  cbn [digits_value String.length].
  rewrite IH, (IH (10 * 0 + _)%N), pow10_S. lia.
Qed.

Lemma digits_value_cons c s :
  digits_value 0 (String c s) =
    (digit_value c * pow10 (String.length s) + digits_value 0 s)%N.
Proof. cbn [digits_value]. rewrite digits_value_acc. lia. Qed.

Lemma digits_value_lt s :
  str_forall is_digit s = true → (digits_value 0 s < pow10 (String.length s))%N.
Proof.
  induction s as [|c s IH]; [cbn; lia|]. cbn [str_forall].
  rewrite andb_true_iff. intros [Hc Hs]. apply digit_code in Hc as [_ Hc].
  specialize (IH Hs). rewrite digits_value_cons. cbn [String.length].
  rewrite pow10_S. nia.
Qed.

(** Strings of one length compare bytewise as their values do. *)
Lemma str_compare_digits a b :
  str_forall is_digit a = true → str_forall is_digit b = true →
  String.length a = String.length b →
  str_compare a b = (digits_value 0 a ?= digits_value 0 b)%N.
Proof.
  revert b. induction a as [|c a IH]; intros [|d b]; try done.
  cbn [str_forall String.length]. rewrite !andb_true_iff.
  intros [Hc Ha] [Hd Hb] [= Hlen].
  pose proof (digits_value_lt a Ha). pose proof (digits_value_lt b Hb).
  apply digit_code in Hc as [Ec Hc], Hd as [Ed Hd].
  rewrite !digits_value_cons, Hlen in *. cbn [str_compare]. unfold Ascii.compare.
  rewrite Ec, Ed, IH by done.
  destruct (N.compare_spec (48 + digit_value c) (48 + digit_value d)) as [E|E|E];
    symmetry; [|apply N.compare_lt_iff|apply N.compare_gt_iff].
  - assert (digit_value c = digit_value d) as -> by lia.
    destruct (N.compare_spec (digits_value 0 a) (digits_value 0 b)) as [E'|E'|E'];
      [apply N.compare_eq_iff|apply N.compare_lt_iff|apply N.compare_gt_iff]; nia.
  - nia.
  - nia.
Qed.

Lemma trim_left_forall f c s :
  str_forall f s = true → str_forall f (trim_left c s) = true.
Proof.
  induction s as [|d s IH]; cbn; [done|].
  rewrite andb_true_iff. intros [Hd Hs]. case_decide; [auto|]. cbn.
  by rewrite Hd.
Qed.

Lemma trim_left_value s :
  digits_value 0 (trim_left "0" s) = digits_value 0 s.
Proof.
  induction s as [|d s IH]; [done|]. cbn [trim_left]. case_decide as Hd; [|done].
  by rewrite IH, Hd, digits_value_cons.
Qed.

Lemma trim_left_head c s : trim_left c s = "" ∨ ∃ d t, trim_left c s = String d t ∧ d ≠ c.
Proof. induction s as [|d s IH]; cbn; [by left|]. case_decide; naive_solver. Qed.

Lemma trimmed_value_ge a :
  str_forall is_digit a = true → trim_left "0" a ≠ "" →
  (pow10 (String.length (trim_left "0" a)) ≤ 10 * digits_value 0 a)%N.
Proof.
  intros Ha Hne. rewrite <-trim_left_value.
  apply (trim_left_forall _ "0") in Ha.
  destruct (trim_left_head "0" a) as [E|(d & t & E & Hd)]; [done|].
  rewrite E in *. cbn [str_forall] in Ha. apply andb_true_iff in Ha as [Hc Ha].
  apply digit_code in Hc as [Ed Hc]. rewrite digits_value_cons.
  cbn [String.length]. rewrite pow10_S.
  assert (digit_value d ≠ 0)%N; [|nia].
  intros Ez. apply Hd. rewrite Ez in Ed.
  by rewrite <-(ascii_N_embedding d), Ed.
Qed.

Lemma trimmed_length_lt a b :
  str_forall is_digit a = true → str_forall is_digit b = true →
  String.length (trim_left "0" a) < String.length (trim_left "0" b) →
  (digits_value 0 a < digits_value 0 b)%N.
Proof.
  intros Ha Hb Hlt.
  assert (trim_left "0" b ≠ "") as Hne by (intros E; rewrite E in Hlt; cbn in Hlt; lia).
  pose proof (trimmed_value_ge b Hb Hne) as Hge.
  pose proof (digits_value_lt _ (trim_left_forall _ "0" a Ha)) as Hub.
  rewrite trim_left_value in Hub.
  destruct (String.length (trim_left "0" b)) as [|n] eqn:En; [lia|].
  rewrite pow10_S in Hge.
  assert (pow10 (String.length (trim_left "0" a)) ≤ pow10 n)%N; [|lia].
  apply N.pow_le_mono_r; lia.
Qed.

Lemma compareDigits_value a b :
  str_forall is_digit a = true → str_forall is_digit b = true →
  compareDigits a b = (digits_value 0 a ?= digits_value 0 b)%N.
Proof.
  intros Ha Hb. unfold compareDigits.
  destruct (Nat.eqb_spec (String.length (trim_left "0" a)) (String.length (trim_left "0" b)))
    as [E|E]; cbn [negb].
  - rewrite str_compare_digits by (try apply trim_left_forall; done).
    by rewrite !trim_left_value.
  - destruct (Nat.ltb_spec (String.length (trim_left "0" a)) (String.length (trim_left "0" b)));
      symmetry; [apply N.compare_lt_iff|apply N.compare_gt_iff];
      apply trimmed_length_lt; done || lia.
Qed.

(** ** Segments *)

Lemma allDigits_true s : allDigits s = true ↔ s ≠ "" ∧ str_forall is_digit s = true.
Proof. unfold allDigits. case_bool_decide; naive_solver. Qed.

Lemma compareSegment_refl s : compareSegment s s = Eq.
Proof.
  unfold compareSegment. destruct (allDigits s) eqn:E; cbn [andb].
  - apply allDigits_true in E as [_ E]. rewrite compareDigits_value by done.
    apply N.compare_refl.
  - by rewrite bool_decide_true.
Qed.

Lemma compareSegment_antisym s t : compareSegment t s = CompOpp (compareSegment s t).
Proof.
  unfold compareSegment. rewrite andb_comm.
  destruct (allDigits s) eqn:Es, (allDigits t) eqn:Et; cbn [andb];
    [|case_bool_decide as E1; case_bool_decide as E2; simplify_eq; [done|];
      rewrite !str_ltb_compare, String.compare_antisym;
      destruct (str_compare s t) eqn:E; try done; by apply str_compare_eq in E..].
  apply allDigits_true in Es as [_ Es], Et as [_ Et].
  rewrite !compareDigits_value by done. apply N.compare_antisym.
Qed.


(** A plain segment has a rank: the padding of a shorter version lies below the
    successor segment, which lies below every number. *)
Definition segRank (s : string) : option Z :=
  if bool_decide (s = "") then Some (-2)%Z
  else if bool_decide (s = "-") then Some (-1)%Z
  else if allDigits s then Some (Z.of_N (digits_value 0 s)) else None.

Lemma segRank_cases s r :
  segRank s = Some r →
  (s = "" ∧ r = -2 ∨ s = "-" ∧ r = -1 ∨
   allDigits s = true ∧ str_forall is_digit s = true ∧ r = Z.of_N (digits_value 0 s))%Z.
Proof.
  unfold segRank. repeat case_bool_decide; [naive_solver..|].
  destruct (allDigits s) eqn:E; [|done]. intros [= <-].
  pose proof (proj1 (allDigits_true s) E). naive_solver.
Qed.

Lemma digits_above_dash s : allDigits s = true → str_compare s "-" = Gt.
Proof.
  intros [Hne Hs]%allDigits_true. destruct s as [|c s]; [done|].
  cbn in Hs. apply andb_true_iff in Hs as [[Hc _]%digit_code _].
  cbn. unfold Ascii.compare. rewrite Hc.
  replace (48 + digit_value c ?= N_of_ascii "-")%N with Gt; [done|].
  symmetry. apply N.compare_gt_iff. cbn. lia.
Qed.

Lemma compareSegment_rank s t x y :
  segRank s = Some x → segRank t = Some y → compareSegment s t = (x ?= y)%Z.
Proof.
  intros Hs Ht.
  assert (∀ u, allDigits u = true → u ≠ "" ∧ u ≠ "-") as Hne.
  { intros u Hu. split; intros ->; done. }
  assert (∀ u r, u = "" ∨ u = "-" → allDigits r = true →
          compareSegment u r = Lt) as Hlow.
  { intros u r Hu Hr. unfold compareSegment.
    replace (allDigits u) with false by (destruct Hu; by subst). cbn [andb].
    destruct (Hne _ Hr). rewrite bool_decide_false by naive_solver.
    rewrite str_ltb_compare, bool_decide_true; [done|].
    destruct Hu as [->| ->]; [by destruct r|].
    rewrite String.compare_antisym, digits_above_dash; done. }
  apply segRank_cases in Hs as [[-> ->]|[[-> ->]|(Hs & Hds & ->)]],
    Ht as [[-> ->]|[[-> ->]|(Ht & Hdt & ->)]]; try done.
  - rewrite Hlow by auto. symmetry. apply Z.compare_lt_iff. lia.
  - rewrite Hlow by auto. symmetry. apply Z.compare_lt_iff. lia.
  - rewrite compareSegment_antisym, Hlow by auto. symmetry. apply Z.compare_gt_iff. lia.
  - rewrite compareSegment_antisym, Hlow by auto. symmetry. apply Z.compare_gt_iff. lia.
  - unfold compareSegment. rewrite Hs, Ht. cbn [andb].
    rewrite compareDigits_value by done. by rewrite N2Z.inj_compare.
Qed.

(** ** Versions as segment lists *)

Lemma compareSegments_step xs ys :
  xs ≠ [] ∨ ys ≠ [] →
  compareSegments xs ys =
    match compareSegment (hd "" xs) (hd "" ys) with
    | Eq => compareSegments (tl xs) (tl ys)
    | c => c
    end.
Proof. intros H. destruct xs as [|x xs], ys as [|y ys]; [naive_solver|reflexivity..]. Qed.

(** Induction on two lists in step, the shorter padded. *)
Lemma lists_ind2 {A} (P : list A → list A → Prop) :
  P [] [] →
  (∀ xs ys, xs ≠ [] ∨ ys ≠ [] → P (tl xs) (tl ys) → P xs ys) →
  ∀ xs ys, P xs ys.
Proof.
  intros Hnil Hstep xs. induction xs as [|x xs IH]; intros ys.
  - induction ys; [done|]. apply Hstep; [by right|done].
  - apply Hstep; [by left|]. apply IH.
Qed.

Lemma lists_ind3 {A} (P : list A → list A → list A → Prop) :
  P [] [] [] →
  (∀ xs ys zs, xs ≠ [] ∨ ys ≠ [] ∨ zs ≠ [] → P (tl xs) (tl ys) (tl zs) → P xs ys zs) →
  ∀ xs ys zs, P xs ys zs.
Proof.
  intros Hnil Hstep xs. induction xs as [|x xs IH]; intros ys zs.
  - revert ys zs. apply lists_ind2; [done|]. intros ys zs [?|?] ?; apply Hstep; auto.
  - apply Hstep; [by left|]. apply IH.
Qed.

Lemma compareSegments_refl xs : compareSegments xs xs = Eq.
Proof. induction xs as [|x xs IH]; [done|]. cbn. by rewrite compareSegment_refl. Qed.

Lemma compareSegments_antisym xs ys :
  compareSegments ys xs = CompOpp (compareSegments xs ys).
Proof.
  revert xs ys. apply lists_ind2; [done|]. intros xs ys Hne IH.
  rewrite (compareSegments_step ys xs), (compareSegments_step xs ys) by naive_solver.
  rewrite (compareSegment_antisym (hd "" xs)).
  destruct (compareSegment (hd "" xs) _); [exact IH|done..].
Qed.

Definition plainSegments (xs : list string) : Prop := Forall (λ s, is_Some (segRank s)) xs.

Lemma plainSegments_hd xs : plainSegments xs → is_Some (segRank (hd "" xs)).
Proof. destruct 1; [by eexists|done]. Qed.
Lemma plainSegments_tl xs : plainSegments xs → plainSegments (tl xs).
Proof. destruct 1; [constructor|done]. Qed.
#[export] Hint Resolve plainSegments_hd plainSegments_tl : kit.

(** How the verdicts of two comparisons compose. *)
Definition comp_then (c d : comparison) : comparison :=
  match c with Eq => d | _ => c end.

Lemma compareSegments_trans xs ys zs :
  plainSegments xs → plainSegments ys → plainSegments zs →
  compareSegments xs ys ≠ Gt → compareSegments ys zs ≠ Gt →
  compareSegments xs zs = comp_then (compareSegments xs ys) (compareSegments ys zs).
Proof.
  revert xs ys zs. apply (lists_ind3 (λ xs ys zs, _ → _ → _ → _ → _ → _)); [done|].
  intros xs ys zs Hne IH Hx Hy Hz.
  destruct (plainSegments_hd _ Hx) as [x Ex], (plainSegments_hd _ Hy) as [y Ey],
    (plainSegments_hd _ Hz) as [z Ez].
  specialize (IH (plainSegments_tl _ Hx) (plainSegments_tl _ Hy) (plainSegments_tl _ Hz)).
  assert (∀ us vs : list string, (us ≠ [] ∨ vs ≠ []) ∨ us = [] ∧ vs = []) as Hdec.
  { intros [|??] [|??]; naive_solver. }
  assert (∀ us vs u v, segRank (hd "" us) = Some u → segRank (hd "" vs) = Some v →
    compareSegments us vs = comp_then (u ?= v)%Z (compareSegments (tl us) (tl vs))) as Hstep.
  { intros us vs u v Eu Ev. rewrite <-(compareSegment_rank _ _ _ _ Eu Ev).
    destruct (Hdec us vs) as [H|[-> ->]]; [rewrite compareSegments_step by done; by destruct (compareSegment _ _)|].
    rewrite compareSegment_refl. done. }
  rewrite (Hstep xs ys _ _ Ex Ey), (Hstep ys zs _ _ Ey Ez), (Hstep xs zs _ _ Ex Ez).
  destruct (Z.compare_spec x y), (Z.compare_spec y z), (Z.compare_spec x z);
    cbn; intros; try done; try lia; auto.
  by destruct (compareSegments (tl xs) (tl ys)).
Qed.

(** ** Numbers as [pretty] spells them *)

Lemma pretty_go_digits x : ∀ s, str_forall is_digit s = true →
  str_forall is_digit (pretty_N_go x s) = true ∧
  digits_value 0 (pretty_N_go x s) = (x * pow10 (String.length s) + digits_value 0 s)%N.
Proof.
  induction (N.lt_wf_0 x) as [x _ IH]. intros s Hs. destruct (decide (x = 0)%N) as [->|Hx].
  { rewrite pretty_N_go_0. split; [done|]. lia. }
  rewrite pretty_N_go_step by lia. assert (x `mod` 10 < 10)%N as Hm by (apply N.mod_lt; lia).
  assert (is_digit (pretty_N_char (x `mod` 10)) = true ∧ digit_value (pretty_N_char (x `mod` 10)) = x `mod` 10)%N as [Hd Hv].
  { generalize dependent (x `mod` 10)%N. intros m Hm.
    assert (m = 0 ∨ m = 1 ∨ m = 2 ∨ m = 3 ∨ m = 4 ∨ m = 5 ∨ m = 6 ∨ m = 7 ∨ m = 8 ∨ m = 9)%N as Hc by lia.
    destruct_or! Hc; subst; by vm_compute. }
  destruct (IH (x `div` 10)%N ltac:(apply N.div_lt; lia) (String (pretty_N_char (x `mod` 10)) s)) as [H1 H2].
  { cbn. by rewrite Hd. }
  split; [done|]. rewrite H2, digits_value_cons, Hv. cbn [String.length]. rewrite pow10_S.
  pose proof (N.div_mod x 10 ltac:(lia)). nia.
Qed.
Lemma pretty_value n : str_forall is_digit (pretty n) = true ∧ digits_value 0 (pretty n) = n.
Proof.
  unfold pretty, pretty_N. case_decide as Hn; [subst; by vm_compute|].
  destruct (pretty_go_digits n "" eq_refl) as [H1 H2]. cbn [String.length digits_value] in H2. split; [done|lia].
Qed.
