(* ===== verification/VersionFacts.v ===== *)
(** Theorems on versions and constraints: the order, the successor version, and
    the two functions that reason about constraint sets. *)
From stdpp Require Import options.
From S2P Require Import Prelude GoStrings Regex Version VersionOrder.

(** ** Versions of the grammar *)

Definition wfVersion (v : string) : bool := matches versionPattern v.

(** A version whose segments are numbers or the successor segment. *)
Definition plainVersion (v : string) : bool :=
  wfVersion v && forallb (λ s, bool_decide (is_Some (segRank s))) (split "." v).

Definition is_segment (s : string) : Prop := s ≠ "" ∧ str_forall is_version_byte s = true.

Lemma dot_not_in_segments f s :
  f "."%char = false → re_match (RPlus (RSet f)) s → contains_byte "." s = false.
Proof. intros Hf [_ Hs]%re_match_plus_set. by eapply str_forall_contains. Qed.

Lemma wfVersion_split v :
  wfVersion v = true ↔
  ∃ x l, split "." v = x :: l ∧ allDigits x = true ∧ Forall is_segment l.
Proof.
  unfold wfVersion, versionPattern. rewrite matches_spec, re_match_separated.
  - split; intros (x & l & Hs & Hx & Hl); exists x, l; (split; [done|]).
    + rewrite allDigits_true. split; [by apply re_match_plus_set|].
      eapply Forall_impl; [exact Hl|]. by intros s ?%re_match_plus_set.
    + rewrite allDigits_true in Hx. split; [by apply re_match_plus_set|].
      eapply Forall_impl; [exact Hl|]. intros s Hs'. by apply re_match_plus_set.
  - intros t. by apply dot_not_in_segments.
  - intros t. by apply dot_not_in_segments.
Qed.

Lemma wfVersion_graphic v : wfVersion v = true → str_forall is_graphic v = true.
Proof. apply matches_within. by vm_compute. Qed.

Lemma wfVersion_trim v : wfVersion v = true → trim_space v = v.
Proof. intros H. by apply trim_space_graphic, wfVersion_graphic. Qed.

Lemma wfVersion_nonempty v : wfVersion v = true → v ≠ "".
Proof. intros H ->. by vm_compute in H. Qed.

Lemma splitVersion_wf v : wfVersion v = true → splitVersion v = split "." v.
Proof.
  intros H. unfold splitVersion. rewrite (wfVersion_trim v H).
  rewrite bool_decide_false; [done|by apply wfVersion_nonempty].
Qed.

Lemma parseVersion_Ok v w : parseVersion v = Ok w ↔ w = trim_space v ∧ wfVersion w = true.
Proof.
  unfold parseVersion. fold (wfVersion (trim_space v)).
  destruct (wfVersion (trim_space v)) eqn:E; cbn; split; try done.
  - by intros [= <-].
  - by intros [-> _].
  - intros [-> H]. congruence.
Qed.

Lemma IsVersion_wf v : wfVersion v = true → IsVersion v = true.
Proof.
  intros H. unfold IsVersion.
  by rewrite (proj2 (parseVersion_Ok v v)) by by rewrite wfVersion_trim.
Qed.

Lemma plainVersion_wf v : plainVersion v = true → wfVersion v = true.
Proof. unfold plainVersion. by intros [? _]%andb_true_iff. Qed.

Lemma plainVersion_segments v : plainVersion v = true → plainSegments (splitVersion v).
Proof.
  intros H. rewrite splitVersion_wf by by apply plainVersion_wf.
  apply andb_true_iff in H as [_ H]. apply forallb_Forall in H.
  eapply Forall_impl; [exact H|]. by intros s ?%bool_decide_eq_true.
Qed.
#[export] Hint Resolve plainVersion_wf plainVersion_segments : kit.

(** ** The order *)

Lemma CompareVersions_refl v : CompareVersions v v = Eq.
Proof. apply compareSegments_refl. Qed.

Lemma CompareVersions_antisym v w : CompareVersions w v = CompOpp (CompareVersions v w).
Proof. apply compareSegments_antisym. Qed.

Lemma CompareVersions_trans u v w :
  plainVersion u = true → plainVersion v = true → plainVersion w = true →
  CompareVersions u v ≠ Gt → CompareVersions v w ≠ Gt →
  CompareVersions u w = comp_then (CompareVersions u v) (CompareVersions v w).
Proof. intros. apply compareSegments_trans; auto with kit. Qed.

(** [v ⊑ w]: [v] is not above [w]. *)
Notation "v ⊑ w" := (CompareVersions v w ≠ Gt) (at level 70) : go_scope.

Lemma vle_trans u v w :
  plainVersion u = true → plainVersion v = true → plainVersion w = true →
  u ⊑ v → v ⊑ w → u ⊑ w.
Proof.
  intros Hu Hv Hw H1 H2. rewrite (CompareVersions_trans u v w) by done.
  destruct (CompareVersions u v), (CompareVersions v w); done.
Qed.

Lemma vle_total v w : ¬ v ⊑ w → w ⊑ v.
Proof. rewrite (CompareVersions_antisym v w). destruct (CompareVersions v w); naive_solver. Qed.

Lemma vle_dec v w : {v ⊑ w} + {¬ v ⊑ w}.
Proof. destruct (CompareVersions v w); [left|left|right]; by auto. Defined.

Lemma CompareVersions_Eq_iff v w : CompareVersions v w = Eq ↔ v ⊑ w ∧ w ⊑ v.
Proof. rewrite (CompareVersions_antisym v w). destruct (CompareVersions v w); naive_solver. Qed.
Lemma CompareVersions_Lt_iff v w : CompareVersions v w = Lt ↔ ¬ w ⊑ v.
Proof. rewrite (CompareVersions_antisym v w). destruct (CompareVersions v w); naive_solver. Qed.
Lemma CompareVersions_Gt_iff v w : CompareVersions v w = Gt ↔ ¬ v ⊑ w.
Proof. destruct (CompareVersions v w); naive_solver. Qed.

(** What each operator says. *)
Definition opHolds (op : ConstraintOp) (w v : string) : Prop :=
  match op with
  | OpGTE => v ⊑ w
  | OpGT => ¬ w ⊑ v
  | OpLTE => w ⊑ v
  | OpLT => ¬ v ⊑ w
  | OpEQ => v ⊑ w ∧ w ⊑ v
  end.

Lemma constraintHolds_iff w c : constraintHolds w c = true ↔ opHolds (Op c) w (CVersion c).
Proof.
  unfold constraintHolds, opHolds. rewrite (CompareVersions_antisym w (CVersion c)).
  destruct (Op c), (CompareVersions w (CVersion c)); naive_solver.
Qed.

Lemma opHolds_congr op w w' v :
  plainVersion w = true → plainVersion w' = true → plainVersion v = true →
  w ⊑ w' → w' ⊑ w → opHolds op w v → opHolds op w' v.
Proof.
  intros Hw Hw' Hv H1 H2.
  assert (v ⊑ w ↔ v ⊑ w') as E1 by (split; intros; [apply (vle_trans v w w')|apply (vle_trans v w' w)]; done).
  assert (w ⊑ v ↔ w' ⊑ v) as E2 by (split; intros; [apply (vle_trans w' w v)|apply (vle_trans w w' v)]; done).
  destruct op; cbn; by rewrite ?E1, ?E2.
Qed.

(** ** The successor *)

Lemma split_nextVersion v : split "." (nextVersion v) = split "." v ++ ["-"].
Proof. apply (split_app_sep "." v "-"). Qed.

Lemma wfVersion_next v : wfVersion v = true ↔ wfVersion (nextVersion v) = true.
Proof.
  rewrite !wfVersion_split, split_nextVersion. pose proof (split_nonempty "." v).
  split.
  - intros (x & l & -> & Hx & Hl). exists x, (l ++ ["-"]).
    repeat (split; [done|]). apply Forall_app. by repeat constructor.
  - destruct (split "." v) as [|y l]; [done|]. intros (x & l' & [= -> <-] & Hx & Hl).
    apply Forall_app in Hl as [Hl _]. by exists x, l.
Qed.

Lemma plainVersion_next v : plainVersion v = true ↔ plainVersion (nextVersion v) = true.
Proof.
  unfold plainVersion. rewrite !andb_true_iff, <-wfVersion_next, split_nextVersion.
  rewrite forallb_app, andb_true_iff. naive_solver.
Qed.

Lemma is_version_byte_code c :
  is_version_byte c = true → (N_of_ascii "-" ≤ N_of_ascii c)%N.
Proof.
  unfold is_version_byte, is_digit, is_upper, is_lower, byte_in, one_of.
  rewrite contains_byte_cons, !orb_true_iff, !andb_true_iff, !N.leb_le, bool_decide_eq_true.
  intros [[[H|H]|H]|[->|H]]; [| | |done|done]; cbn in *; lia.
Qed.

(** A segment of the grammar is above the padding and not below ["-"]. *)
Lemma compareSegment_above s :
  is_segment s → compareSegment "" s = Lt ∧ compareSegment s "-" ≠ Lt.
Proof.
  intros [Hne Hs]. destruct s as [|c s]; [done|]. cbn in Hs.
  apply andb_true_iff in Hs as [Hc%is_version_byte_code _]. split; [done|].
  unfold compareSegment. rewrite andb_false_r.
  case_bool_decide as E; [done|]. rewrite str_ltb_compare. case_bool_decide as E'; [|done].
  revert E'. cbn. unfold Ascii.compare.
  destruct (N.compare_spec (N_of_ascii c) (N_of_ascii "-")) as [Ec|Ec|Ec]; [|lia|done].
  destruct s; [|done]. intros _. exfalso. apply E.
  by rewrite <-(ascii_N_embedding c), Ec.
Qed.

Lemma compareSegments_nil_r xs : Forall is_segment xs → compareSegments xs [] ≠ Lt.
Proof.
  destruct 1 as [|x xs Hx _]; [done|]. rewrite compareSegments_step by (by left).
  cbn [hd]. rewrite compareSegment_antisym. by rewrite (proj1 (compareSegment_above x Hx)).
Qed.

Lemma compareSegments_successor xs ys :
  Forall is_segment xs → Forall is_segment ys →
  (compareSegments ys xs = Gt ↔ compareSegments ys (xs ++ ["-"]) ≠ Lt).
Proof.
  intros Hxs. revert ys. induction Hxs as [|x xs Hx Hxs IH]; intros ys Hys.
  - cbn [app]. destruct Hys as [|y ys Hy Hys]; [done|].
    rewrite (compareSegments_step _ []), (compareSegments_step _ ["-"]) by (by left).
    cbn [hd tl]. destruct (compareSegment_above y Hy) as [Hlo Hhi].
    rewrite compareSegment_antisym, Hlo. cbn [CompOpp].
    pose proof (compareSegments_nil_r ys Hys).
    split; [intros _|done]. by destruct (compareSegment y "-").
  - cbn [app]. destruct Hys as [|y ys Hy Hys].
    + cbn. destruct (compareSegment_above x Hx) as [-> _]. done.
    + cbn. destruct (compareSegment y x); [apply IH; done|done..].
Qed.

Lemma wfVersion_segments v : wfVersion v = true → Forall is_segment (splitVersion v).
Proof.
  intros H. rewrite splitVersion_wf by done.
  apply wfVersion_split in H as (x & l & -> & Hx & Hl). constructor; [|done].
  apply allDigits_true in Hx as [Hne Hx]. split; [done|].
  eapply str_forall_impl; [|exact Hx]. intros c Hc. unfold is_version_byte. by rewrite Hc.
Qed.

Lemma CompareVersions_successor v w :
  wfVersion v = true → wfVersion w = true → (¬ w ⊑ v ↔ nextVersion v ⊑ w).
Proof.
  intros Hv Hw. rewrite <-CompareVersions_Gt_iff, (CompareVersions_antisym w (nextVersion v)).
  unfold CompareVersions.
  rewrite (splitVersion_wf (nextVersion v)) by by apply wfVersion_next in Hv.
  rewrite split_nextVersion, <-splitVersion_wf by done.
  rewrite compareSegments_successor by by apply wfVersion_segments.
  by destruct (compareSegments _ (_ ++ _)).
Qed.

Lemma zero_least w : wfVersion w = true → "0" ⊑ w.
Proof.
  intros Hw. pose proof (wfVersion_segments w Hw) as Hs. unfold CompareVersions.
  rewrite (splitVersion_wf w Hw) in Hs |- *.
  apply wfVersion_split in Hw as (x & l & -> & Hx & Hl).
  change (splitVersion "0") with ["0"]. rewrite compareSegments_step by (by left).
  cbn [hd tl]. unfold compareSegment. rewrite Hx. change (allDigits "0") with true. cbn [andb].
  apply allDigits_true in Hx as [_ Hx]. rewrite compareDigits_value by done.
  change (digits_value 0 "0") with 0%N.
  destruct (N.compare_spec 0 (digits_value 0 x)); [|done|lia].
  rewrite compareSegments_antisym. pose proof (compareSegments_nil_r l Hl).
  by destruct (compareSegments l []).
Qed.

(** ** Constraint sets *)

Definition plainConstraints (cs : list Constraint) : Prop :=
  Forall (λ c, plainVersion (CVersion c) = true) cs.

(** [w] meets every constraint. *)
Definition allHold (w : string) (cs : list Constraint) : Prop :=
  Forall (λ c, constraintHolds w c = true) cs.

Definition is_lower_op (op : ConstraintOp) : bool :=
  match op with OpGTE | OpGT => true | _ => false end.
Definition is_upper_op (op : ConstraintOp) : bool :=
  match op with OpLTE | OpLT => true | _ => false end.

Lemma allHold_split w cs :
  Forall (λ c, Op c ≠ OpEQ) cs →
  (allHold w cs ↔
   Forall (λ c, is_lower_op (Op c) = true → constraintHolds w c = true) cs ∧
   Forall (λ c, is_upper_op (Op c) = true → constraintHolds w c = true) cs).
Proof.
  intros H. unfold allHold. rewrite <-Forall_and. induction H as [|c cs Hc H IH]; [done|].
  rewrite !Forall_cons, IH. destruct (Op c); cbn; naive_solver.
Qed.

Section tighten.
#[local] Set Default Proof Using "Type*".
Context (w : string) (Hw : plainVersion w = true).

Definition aboveLo (b : bound) : Prop :=
  if bExc b then ¬ w ⊑ bVer b else bVer b ⊑ w.
Definition belowHi (b : bound) : Prop :=
  bSet b = true → if bExc b then ¬ bVer b ⊑ w else w ⊑ bVer b.

Definition plainBound (b : bound) : Prop := bSet b = true → plainVersion (bVer b) = true.

(** The stronger of two bounds in one direction decides both. *)
Lemma lower_stronger op op' u v :
  plainVersion u = true → plainVersion v = true →
  is_lower_op op = true → is_lower_op op' = true →
  CompareVersions v u = Gt ∨ (CompareVersions v u = Eq ∧ (op = OpGT ∨ op = op' )) →
  opHolds op w v → opHolds op' w u.
Proof.
  rewrite CompareVersions_Gt_iff, CompareVersions_Eq_iff.
  intros Hu Hv Ho Ho' Hc Hop.
  assert (u ⊑ v) as Huv by (destruct Hc as [?%vle_total|[[??] _]]; done).
  destruct op, op'; try done; cbn in *.
  - by apply (vle_trans u v w).
  - intros Hwu. destruct Hc as [Hc|[_ [?|?]]]; [|done..].
    apply Hc. by apply (vle_trans v w u).
  - by apply (vle_trans u v w), vle_total.
  - intros Hwu. apply Hop. by apply (vle_trans w u v).
Qed.

Lemma upper_stronger op op' u v :
  plainVersion u = true → plainVersion v = true →
  is_upper_op op = true → is_upper_op op' = true →
  CompareVersions v u = Lt ∨ (CompareVersions v u = Eq ∧ (op = OpLT ∨ op = op')) →
  opHolds op w v → opHolds op' w u.
Proof.
  rewrite CompareVersions_Lt_iff, CompareVersions_Eq_iff.
  intros Hu Hv Ho Ho' Hc Hop.
  assert (v ⊑ u) as Huv by (destruct Hc as [?%vle_total|[[??] _]]; done).
  destruct op, op'; try done; cbn in *.
  - by apply (vle_trans w v u).
  - intros Hwu. destruct Hc as [Hc|[_ [?|?]]]; [|done..].
    apply Hc. by apply (vle_trans u w v).
  - apply (vle_trans w v u); try done. by apply vle_total.
  - intros Hwu. apply Hop. by apply (vle_trans v u w).
Qed.

Definition lo_op (b : bound) : ConstraintOp := if bExc b then OpGT else OpGTE.
Definition hi_op (b : bound) : ConstraintOp := if bExc b then OpLT else OpLTE.

Lemma aboveLo_op b : aboveLo b ↔ opHolds (lo_op b) w (bVer b).
Proof. unfold aboveLo, lo_op. by destruct (bExc b). Qed.
Lemma belowHi_op b : belowHi b ↔ (bSet b = true → opHolds (hi_op b) w (bVer b)).
Proof. unfold belowHi, hi_op. by destruct (bExc b). Qed.

(** Which of the two bounds a step of the loop keeps. *)
Lemma tightenLo_cases lo c :
  bSet lo = true → is_lower_op (Op c) = true →
  (tightenLo lo c = mkBound (CVersion c) (bool_decide (Op c = OpGT)) true ∧
   (CompareVersions (CVersion c) (bVer lo) = Gt ∨
    CompareVersions (CVersion c) (bVer lo) = Eq ∧ (Op c = OpGT ∨ Op c = lo_op lo))) ∨
  (tightenLo lo c = lo ∧
   (CompareVersions (CVersion c) (bVer lo) = Lt ∨
    CompareVersions (CVersion c) (bVer lo) = Eq ∧ (lo_op lo = OpGT ∨ lo_op lo = Op c))).
Proof using Type.
  intros Hs Ho. unfold tightenLo, lo_op. rewrite Hs.
  destruct (Op c); try done; destruct (bExc lo), (CompareVersions _ _); cbn; auto 10.
Qed.

Lemma tightenHi_cases hi c :
  bSet hi = true → is_upper_op (Op c) = true →
  (tightenHi hi c = mkBound (CVersion c) (bool_decide (Op c = OpLT)) true ∧
   (CompareVersions (CVersion c) (bVer hi) = Lt ∨
    CompareVersions (CVersion c) (bVer hi) = Eq ∧ (Op c = OpLT ∨ Op c = hi_op hi))) ∨
  (tightenHi hi c = hi ∧
   (CompareVersions (CVersion c) (bVer hi) = Gt ∨
    CompareVersions (CVersion c) (bVer hi) = Eq ∧ (hi_op hi = OpLT ∨ hi_op hi = Op c))).
Proof using Type.
  intros Hs Ho. unfold tightenHi, hi_op. rewrite Hs.
  destruct (Op c); try done; destruct (bExc hi), (CompareVersions _ _); cbn; auto 10.
Qed.

Lemma lo_op_lower b : is_lower_op (lo_op b) = true.
Proof using Type. unfold lo_op. by destruct (bExc b). Qed.
Lemma hi_op_upper b : is_upper_op (hi_op b) = true.
Proof using Type. unfold hi_op. by destruct (bExc b). Qed.

Lemma lo_op_taken c v :
  is_lower_op (Op c) = true → lo_op (mkBound v (bool_decide (Op c = OpGT)) true) = Op c.
Proof using Type. by destruct (Op c). Qed.
Lemma hi_op_taken c v :
  is_upper_op (Op c) = true → hi_op (mkBound v (bool_decide (Op c = OpLT)) true) = Op c.
Proof using Type. by destruct (Op c). Qed.

Lemma tightenLo_spec lo c :
  bSet lo = true → plainBound lo → plainVersion (CVersion c) = true →
  bSet (tightenLo lo c) = true ∧ plainBound (tightenLo lo c) ∧
  (aboveLo (tightenLo lo c) ↔
   aboveLo lo ∧ (is_lower_op (Op c) = true → constraintHolds w c = true)).
Proof.
  intros Hset Hp Hc. pose proof (Hp Hset) as Hpl.
  destruct (is_lower_op (Op c)) eqn:Ho.
  2: { assert (tightenLo lo c = lo) as -> by (unfold tightenLo; by destruct (Op c)).
       naive_solver. }
  pose proof (lo_op_lower lo). rewrite constraintHolds_iff, !aboveLo_op.
  destruct (tightenLo_cases lo c Hset Ho) as [[-> Hcmp]|[-> Hcmp]].
  - rewrite lo_op_taken by done. cbn [bVer bSet]. split; [done|]. split; [by intros _|].
    split; [|naive_solver]. intros H1. split; [|done].
    by apply (lower_stronger (Op c) (lo_op lo) (bVer lo) (CVersion c)).
  - do 2 (split; [done|]). split; [|naive_solver]. intros H1. split; [done|]. intros _.
    apply (lower_stronger (lo_op lo) (Op c) (CVersion c) (bVer lo)); try done.
    rewrite CompareVersions_antisym. destruct Hcmp as [->|[-> ?]]; auto.
Qed.

Lemma tightenHi_spec hi c :
  plainBound hi → plainVersion (CVersion c) = true →
  plainBound (tightenHi hi c) ∧
  (belowHi (tightenHi hi c) ↔
   belowHi hi ∧ (is_upper_op (Op c) = true → constraintHolds w c = true)).
Proof.
  intros Hp Hc.
  destruct (is_upper_op (Op c)) eqn:Ho.
  2: { assert (tightenHi hi c = hi) as -> by (unfold tightenHi; by destruct (Op c)).
       naive_solver. }
  pose proof (hi_op_upper hi). rewrite constraintHolds_iff, !belowHi_op.
  destruct (bSet hi) eqn:Hset.
  2: { assert (tightenHi hi c = mkBound (CVersion c) (bool_decide (Op c = OpLT)) true)
         as -> by (unfold tightenHi; rewrite Hset; by destruct (Op c)).
       rewrite hi_op_taken by done. cbn [bVer bSet]. split; [by intros _|]. naive_solver. }
  pose proof (Hp Hset) as Hpl.
  destruct (tightenHi_cases hi c Hset Ho) as [[-> Hcmp]|[-> Hcmp]].
  - rewrite hi_op_taken by done. cbn [bVer bSet]. split; [by intros _|].
    split; [|naive_solver]. intros H1. specialize (H1 eq_refl). split; [intros _|done].
    by apply (upper_stronger (Op c) (hi_op hi) (bVer hi) (CVersion c)).
  - rewrite Hset. split; [done|]. split; [|naive_solver].
    intros H1. specialize (H1 eq_refl). split; [done|]. intros _.
    apply (upper_stronger (hi_op hi) (Op c) (CVersion c) (bVer hi)); try done.
    rewrite CompareVersions_antisym. destruct Hcmp as [->|[-> ?]]; auto.
Qed.

Lemma foldl_tightenLo cs lo :
  plainConstraints cs → bSet lo = true → plainBound lo →
  bSet (foldl tightenLo lo cs) = true ∧ plainBound (foldl tightenLo lo cs) ∧
  (aboveLo (foldl tightenLo lo cs) ↔
   aboveLo lo ∧ Forall (λ c, is_lower_op (Op c) = true → constraintHolds w c = true) cs).
Proof.
  intros Hcs. revert lo. induction Hcs as [|c cs Hc Hcs IH]; intros lo Hs Hp; cbn [foldl].
  - naive_solver.
  - destruct (tightenLo_spec lo c Hs Hp Hc) as (Hs' & Hp' & E).
    destruct (IH _ Hs' Hp') as (? & ? & E'). rewrite E', E, Forall_cons. tauto.
Qed.

Lemma foldl_tightenHi cs hi :
  plainConstraints cs → plainBound hi →
  plainBound (foldl tightenHi hi cs) ∧
  (belowHi (foldl tightenHi hi cs) ↔
   belowHi hi ∧ Forall (λ c, is_upper_op (Op c) = true → constraintHolds w c = true) cs).
Proof.
  intros Hcs. revert hi. induction Hcs as [|c cs Hc Hcs IH]; intros hi Hp; cbn [foldl].
  - naive_solver.
  - destruct (tightenHi_spec hi c Hp Hc) as (Hp' & E).
    destruct (IH _ Hp') as (? & E'). rewrite E', E, Forall_cons. tauto.
Qed.
End tighten.

(** ** Pins *)

Lemma collectPin_Some pin cs p :
  collectPin pin cs = Ok (Some p) →
  pin = Some p ∨ ∃ c, c ∈ cs ∧ Op c = OpEQ ∧ CVersion c = p.
Proof.
  revert pin. induction cs as [|c cs IH]; intros pin; cbn; [naive_solver|].
  assert (∀ q, collectPin q cs = Ok (Some p) → q = Some (CVersion c) → Op c = OpEQ →
    pin = Some p ∨ ∃ c', c' ∈ c :: cs ∧ Op c' = OpEQ ∧ CVersion c' = p) as Hnext.
  { intros q Hq -> Ho. apply IH in Hq as [[= <-]|(c' & ? & ?)]; right;
      [exists c|exists c']; set_solver. }
  destruct (Op c) eqn:Ho.
  1-4: intros [?|(c' & ? & ?)]%IH; [by left|right; exists c'; set_solver].
  destruct pin as [q|]; [|eauto]. destruct (CompareVersions q _); [eauto|done..].
Qed.

Lemma collectPin_None pin cs :
  collectPin pin cs = Ok None → pin = None ∧ Forall (λ c, Op c ≠ OpEQ) cs.
Proof.
  revert pin. induction cs as [|c cs IH]; intros pin; cbn; [naive_solver|].
  rewrite Forall_cons. destruct (Op c).
  1-4: intros [? ?]%IH; naive_solver.
  destruct pin as [q|]; [destruct (CompareVersions q _)|]; try done;
    intros [? ?]%IH; done.
Qed.

Definition near (w : string) (pin : option string) : Prop :=
  match pin with Some p => plainVersion p = true ∧ w ⊑ p ∧ p ⊑ w | None => True end.

Lemma collectPin_holds w pin cs :
  plainVersion w = true → plainConstraints cs → allHold w cs → near w pin →
  ∃ r, collectPin pin cs = Ok r ∧ near w r.
Proof.
  intros Hw Hcs. revert pin. induction Hcs as [|c cs Hc Hcs IH]; intros pin Hall Hpin.
  { by exists pin. }
  apply Forall_cons in Hall as [Hh Hall]. cbn.
  destruct (Op c) eqn:Ho; [by apply IH..|].
  apply constraintHolds_iff in Hh. rewrite Ho in Hh. destruct Hh as [H1 H2].
  assert (near w (Some (CVersion c))) by done.
  destruct pin as [q|]; [|by apply IH]. destruct Hpin as (Hq & H3 & H4).
  assert (CompareVersions q (CVersion c) = Eq) as ->; [|by apply IH].
  apply CompareVersions_Eq_iff.
  split; [by apply (vle_trans q w)|by apply (vle_trans (CVersion c) w)].
Qed.

(** ** [checkConstraintsSatisfiable] *)

Lemma find_none_allHold w cs :
  find (λ c, negb (constraintHolds w c)) cs = None ↔ allHold w cs.
Proof.
  unfold allHold. split.
  - intros H. apply Forall_forall. intros c Hc%list_elem_of_In.
    by apply negb_false_iff, (find_none _ _ H).
  - intros H. destruct (find _ cs) as [c|] eqn:E; [|done].
    apply find_some in E as [Hin%list_elem_of_In Hn].
    rewrite Forall_forall in H. by rewrite (H c Hin) in Hn.
Qed.

Lemma allHold_near w p cs :
  plainVersion w = true → plainConstraints cs → near w (Some p) →
  (allHold w cs ↔ allHold p cs).
Proof.
  intros Hw Hcs (Hp & H1 & H2). unfold allHold.
  induction Hcs as [|c cs Hc Hcs IH]; [done|]. rewrite !Forall_cons, IH, !constraintHolds_iff.
  split; intros [Hop ?]; (split; [|done]).
  - by apply (opHolds_congr _ w p).
  - by apply (opHolds_congr _ p w).
Qed.

(** The constraint set without pins says: above the lower bound the loop
    finds, and below the upper one. *)
Lemma allHold_bounds w cs :
  plainVersion w = true → plainConstraints cs → Forall (λ c, Op c ≠ OpEQ) cs →
  (allHold w cs ↔
   aboveLo w (foldl tightenLo (mkBound "0" false true) cs) ∧
   belowHi w (foldl tightenHi (mkBound "" false false) cs)).
Proof.
  intros Hw Hcs Hpin. rewrite allHold_split by done.
  destruct (foldl_tightenLo w Hw cs (mkBound "0" false true)) as (_ & _ & ->);
    [done|done|by intros _|].
  destruct (foldl_tightenHi w Hw cs (mkBound "" false false)) as (_ & ->); [done|done|].
  pose proof (zero_least w (plainVersion_wf w Hw)).
  unfold aboveLo, belowHi. cbn [bExc bVer bSet]. naive_solver.
Qed.

Definition effective_lo (lo : bound) : string :=
  if bExc lo then nextVersion (bVer lo) else bVer lo.

Lemma effective_lo_plain lo :
  plainBound lo → bSet lo = true → plainVersion (effective_lo lo) = true.
Proof.
  intros Hp Hs. unfold effective_lo. specialize (Hp Hs).
  destruct (bExc lo); [by apply plainVersion_next in Hp|done].
Qed.

Lemma aboveLo_effective w lo :
  plainBound lo → bSet lo = true → plainVersion w = true →
  (aboveLo w lo ↔ effective_lo lo ⊑ w).
Proof.
  intros Hp Hs Hw. unfold aboveLo, effective_lo. destruct (bExc lo); [|done].
  apply CompareVersions_successor; auto with kit.
Qed.

Lemma satisfiable_bounds cs :
  plainConstraints cs → Forall (λ c, Op c ≠ OpEQ) cs →
  let lo := foldl tightenLo (mkBound "0" false true) cs in
  let hi := foldl tightenHi (mkBound "" false false) cs in
  bSet lo = true ∧
  ((∃ w, plainVersion w = true ∧ allHold w cs) ↔ belowHi (effective_lo lo) hi).
Proof.
  intros Hcs Hpin lo hi.
  destruct (foldl_tightenLo "0" eq_refl cs (mkBound "0" false true)) as (Hs & Hp & _);
    [done|done|by intros _|].
  destruct (foldl_tightenHi "0" eq_refl cs (mkBound "" false false)) as (Hp' & _); [done|done|].
  fold lo in Hs, Hp. fold hi in Hp'. split; [done|].
  pose proof (effective_lo_plain lo Hp Hs) as He. split.
  - intros (w & Hw & Hall). apply (allHold_bounds w cs Hw Hcs Hpin) in Hall as [Hlo Hhi].
    fold lo in Hlo. fold hi in Hhi. apply aboveLo_effective in Hlo; [|done..].
    intros Hsh. specialize (Hhi Hsh). specialize (Hp' Hsh).
    destruct (bExc hi); [|by apply (vle_trans _ w)].
    intros H. apply Hhi. by apply (vle_trans _ (effective_lo lo)).
  - intros Hb. exists (effective_lo lo). split; [done|].
    apply allHold_bounds; [done..|]. split; [|done].
    apply aboveLo_effective; [done..|]. by rewrite CompareVersions_refl.
Qed.

Lemma checkConstraintsSatisfiable_Ok cs :
  plainConstraints cs →
  checkConstraintsSatisfiable cs = Ok () ↔
  ∃ w, plainVersion w = true ∧ allHold w cs.
Proof.
  intros Hcs. unfold checkConstraintsSatisfiable. split.
  - intros (pin & Hpin & Hrest)%result_bind_Ok. destruct pin as [p|].
    + destruct (find _ cs) eqn:E; [done|]. apply find_none_allHold in E.
      apply collectPin_Some in Hpin as [|(c & Hc & _ & <-)]; [done|].
      exists (CVersion c). split; [|done]. unfold plainConstraints in Hcs.
      rewrite Forall_forall in Hcs. by apply Hcs.
    + apply collectPin_None in Hpin as [_ Hpin].
      destruct (satisfiable_bounds cs Hcs Hpin) as [Hs ->]. rewrite Hs in Hrest.
      unfold belowHi. intros Hsh. rewrite Hsh in Hrest. cbn [negb orb] in Hrest.
      case_match eqn:Ec; [done|]. apply orb_false_iff in Ec as [E1 E2].
      fold (effective_lo (foldl tightenLo (mkBound "0" false true) cs)) in E1, E2.
      apply bool_decide_eq_false in E1. revert E2.
      destruct (bExc (foldl tightenHi _ cs)); [|done].
      rewrite orb_true_r, andb_true_r, bool_decide_eq_false, CompareVersions_Eq_iff. tauto.
  - intros (w & Hw & Hall).
    destruct (collectPin_holds w None cs) as (pin & Hpin & Hnear); [done..|].
    rewrite Hpin. cbn. destruct pin as [p|].
    + apply (allHold_near w p) in Hall; [|done..]. by apply find_none_allHold in Hall as ->.
    + apply collectPin_None in Hpin as [_ Hpin].
      destruct (satisfiable_bounds cs Hcs Hpin) as [Hs Hb]. rewrite Hs.
      assert (belowHi (effective_lo (foldl tightenLo (mkBound "0" false true) cs))
        (foldl tightenHi (mkBound "" false false) cs)) as Hbelow by (apply Hb; eauto).
      clear Hb Hs. set (lo := foldl tightenLo _ cs) in *.
      set (hi := foldl tightenHi _ cs) in *. clearbody lo hi. unfold belowHi in Hbelow.
      destruct (bSet hi); [|done]. specialize (Hbelow eq_refl). cbn [negb orb].
      fold (effective_lo lo). generalize dependent (effective_lo lo). intros e Hbelow.
      replace (if bExc lo then false else bExc lo) with false by (by destruct (bExc lo)).
      pose proof (CompareVersions_antisym e (bVer hi)) as Ea.
      destruct (bExc hi), (CompareVersions e (bVer hi)) eqn:E; try done;
        exfalso; apply Hbelow; by rewrite Ea.
Qed.

(** ** [simplifyConstraints] *)

Lemma has_suffix_next v :
  has_suffix versionSuccessorSuffix v = true →
  v = nextVersion (trim_suffix versionSuccessorSuffix v).
Proof. apply has_suffix_inv. Qed.

(** Rewriting an exclusive bound as the inclusive bound it equals keeps its
    meaning and leaves no other exclusive lower bound. *)
Lemma normalizeConstraint_spec w c :
  plainVersion w = true → plainVersion (CVersion c) = true →
  plainVersion (CVersion (normalizeConstraint c)) = true ∧
  (Op (normalizeConstraint c) ≠ OpGT) ∧
  (Op (normalizeConstraint c) = OpEQ ↔ Op c = OpEQ) ∧
  constraintHolds w (normalizeConstraint c) = constraintHolds w c.
Proof.
  intros Hw Hc. unfold normalizeConstraint. case_bool_decide as Ho.
  - cbn [Op CVersion]. split; [by apply plainVersion_next in Hc|].
    split; [done|]. split; [by rewrite Ho|]. apply eq_iff_eq_true.
    rewrite !constraintHolds_iff, Ho. cbn.
    by rewrite CompareVersions_successor by auto with kit.
  - destruct (bool_decide (Op c = OpLT) && _) eqn:E; [|done].
    apply andb_true_iff in E as [Ho'%bool_decide_eq_true Hs%has_suffix_next].
    cbn [Op CVersion]. pose proof Hc as Hc'. rewrite Hs in Hc'.
    apply plainVersion_next in Hc'. split; [done|]. split; [done|].
    split; [by rewrite Ho'|].
    apply eq_iff_eq_true. rewrite !constraintHolds_iff, Ho'. cbn [opHolds Op CVersion].
    rewrite Hs at 2. rewrite <-CompareVersions_successor by auto with kit.
    pose proof (vle_dec w (trim_suffix versionSuccessorSuffix (CVersion c))). tauto.
Qed.

Definition optHolds (w : string) (o : option Constraint) : Prop :=
  match o with Some c => opHolds (Op c) w (CVersion c) | None => True end.

Definition optLower (o : option Constraint) : Prop :=
  match o with
  | Some c => is_lower_op (Op c) = true ∧ plainVersion (CVersion c) = true
  | None => True
  end.
Definition optUpper (o : option Constraint) : Prop :=
  match o with
  | Some c => is_upper_op (Op c) = true ∧ plainVersion (CVersion c) = true
  | None => True
  end.

Lemma pickLo_spec w lo c :
  plainVersion w = true → optLower lo → plainVersion (CVersion c) = true →
  Op c ≠ OpGT →
  optLower (pickLo lo c) ∧
  (optHolds w (pickLo lo c) ↔
   optHolds w lo ∧ (is_lower_op (Op c) = true → constraintHolds w c = true)).
Proof.
  intros Hw Hlo Hc Hgt. unfold pickLo.
  destruct (is_lower_op (Op c)) eqn:Ho; [|by destruct (Op c); naive_solver].
  assert (Op c = OpGTE) as Ho' by (by destruct (Op c)).
  rewrite constraintHolds_iff, Ho'. rewrite bool_decide_false by done.
  destruct lo as [l|]; cbn [optHolds optLower]; [|rewrite Ho'; cbn; tauto].
  destruct Hlo as [Hl Hlp].
  destruct (CompareVersions (CVersion c) (CVersion l)) eqn:Ec;
    cbn [optHolds optLower]; rewrite ?Ho'; (split; [done|]).
  - split; [|tauto]. intros H. split; [done|]. intros _.
    apply (lower_stronger w Hw (Op l) OpGTE (CVersion c) (CVersion l)); try done.
    rewrite CompareVersions_antisym, Ec. right. split; [done|]. by destruct (Op l); auto.
  - split; [|tauto]. intros H. split; [done|]. intros _.
    apply (lower_stronger w Hw (Op l) OpGTE (CVersion c) (CVersion l)); try done.
    rewrite CompareVersions_antisym, Ec. by left.
  - split; [|tauto]. intros H. split; [|done].
    apply (lower_stronger w Hw OpGTE (Op l) (CVersion l) (CVersion c)); auto.
Qed.

Lemma pickHi_spec w hi c :
  plainVersion w = true → optUpper hi → plainVersion (CVersion c) = true →
  optUpper (pickHi hi c) ∧
  (optHolds w (pickHi hi c) ↔
   optHolds w hi ∧ (is_upper_op (Op c) = true → constraintHolds w c = true)).
Proof.
  intros Hw Hhi Hc. unfold pickHi.
  destruct (is_upper_op (Op c)) eqn:Ho; [|by destruct (Op c); naive_solver].
  rewrite constraintHolds_iff.
  destruct hi as [h|]; [|destruct (Op c) eqn:Eo; try done; cbn; rewrite Eo; naive_solver].
  destruct Hhi as [Hh Hhp].
  assert (∀ o, (o = Some c ∧ (CompareVersions (CVersion c) (CVersion h) = Lt ∨
      CompareVersions (CVersion c) (CVersion h) = Eq ∧ (Op c = OpLT ∨ Op c = Op h))) ∨
    (o = Some h ∧ (CompareVersions (CVersion h) (CVersion c) = Lt ∨
      CompareVersions (CVersion h) (CVersion c) = Eq ∧ (Op h = OpLT ∨ Op h = Op c))) →
    optUpper o ∧ (optHolds w o ↔ optHolds w (Some h) ∧
      (true = true → opHolds (Op c) w (CVersion c)))) as Hpick.
  { intros o [[-> Hcmp]|[-> Hcmp]]; cbn [optUpper optHolds]; (split; [done|]);
      (split; [|tauto]); intros H.
    - split; [|done]. by apply (upper_stronger w Hw (Op c) (Op h) (CVersion h) (CVersion c)).
    - split; [done|]. intros _.
      by apply (upper_stronger w Hw (Op h) (Op c) (CVersion c) (CVersion h)). }
  apply Hpick. rewrite (CompareVersions_antisym (CVersion c) (CVersion h)).
  destruct (CompareVersions (CVersion c) (CVersion h)); cbn [CompOpp];
    destruct (Op c), (Op h); try done; cbn; auto 10.
Qed.

Lemma foldl_pick w cs lo hi :
  plainVersion w = true → plainConstraints cs → Forall (λ c, Op c ≠ OpGT) cs →
  optLower lo → optUpper hi →
  (optLower (foldl pickLo lo cs) ∧ optUpper (foldl pickHi hi cs)) ∧
  (optHolds w (foldl pickLo lo cs) ↔
   optHolds w lo ∧ Forall (λ c, is_lower_op (Op c) = true → constraintHolds w c = true) cs) ∧
  (optHolds w (foldl pickHi hi cs) ↔
   optHolds w hi ∧ Forall (λ c, is_upper_op (Op c) = true → constraintHolds w c = true) cs).
Proof.
  intros Hw Hcs. revert lo hi. induction Hcs as [|c cs Hc Hcs IH]; intros lo hi Hgt Hlo Hhi;
    cbn [foldl]; [naive_solver|].
  apply Forall_cons in Hgt as [Hg Hgt].
  destruct (pickLo_spec w lo c) as [Hlo' El]; [done..|].
  destruct (pickHi_spec w hi c) as [Hhi' Eh]; [done..|].
  destruct (IH _ _ Hgt Hlo' Hhi') as (? & E1 & E2).
  rewrite E1, E2, El, Eh, !Forall_cons. tauto.
Qed.

(** No exclusive lower bound survives normalization, so the pair of bounds
    collapses to a pin exactly when they meet. *)
Lemma simplify_bounds_hold w cs :
  plainVersion w = true → plainConstraints cs →
  Forall (λ c, Op c ≠ OpGT) cs → Forall (λ c, Op c ≠ OpEQ) cs →
  (optHolds w (foldl pickLo None cs) ∧ optHolds w (foldl pickHi None cs) ↔ allHold w cs).
Proof.
  intros Hw Hcs Hgt Hpin. rewrite allHold_split by done.
  destruct (foldl_pick w cs None None) as (_ & -> & ->); [done..|]. cbn. tauto.
Qed.

Lemma normalize_allHold w cs :
  plainVersion w = true → plainConstraints cs →
  plainConstraints (normalizeConstraint <$> cs) ∧
  Forall (λ c, Op c ≠ OpGT) (normalizeConstraint <$> cs) ∧
  (allHold w (normalizeConstraint <$> cs) ↔ allHold w cs).
Proof.
  intros Hw Hcs. unfold plainConstraints, allHold. induction Hcs as [|c cs Hc Hcs IH]; [done|].
  destruct (normalizeConstraint_spec w c) as (? & ? & _ & E); [done..|].
  rewrite fmap_cons, !Forall_cons, E. tauto.
Qed.

Lemma simplifyConstraints_hold w cs :
  plainVersion w = true → plainConstraints cs → checkConstraintsSatisfiable cs = Ok () →
  (allHold w (simplifyConstraints cs) ↔ allHold w cs).
Proof.
  intros Hw Hcs Hsat. unfold simplifyConstraints.
  destruct (find _ cs) as [c|] eqn:Epin.
  - apply find_some in Epin as [Hc%list_elem_of_In Ho%bool_decide_eq_true].
    assert (plainVersion (CVersion c) = true) as Hcp.
    { unfold plainConstraints in Hcs. rewrite Forall_forall in Hcs. auto. }
    assert (∀ u, constraintHolds u c = true ↔ CVersion c ⊑ u ∧ u ⊑ CVersion c) as Hpin.
    { intros u. by rewrite constraintHolds_iff, Ho. }
    split; [|unfold allHold; rewrite Forall_singleton, Forall_forall; auto].
    unfold allHold at 1. rewrite Forall_singleton, Hpin. intros [H1 H2].
    apply (allHold_near w (CVersion c)); [done..|].
    apply checkConstraintsSatisfiable_Ok in Hsat as (u & Hu & Hall); [|done].
    apply (allHold_near u (CVersion c)); [done..| |done].
    unfold allHold in Hall. rewrite Forall_forall in Hall. specialize (Hall c Hc).
    apply Hpin in Hall. naive_solver.
  - assert (Forall (λ c, Op c ≠ OpEQ) cs) as Hpin.
    { apply Forall_forall. intros c Hc%list_elem_of_In Ho.
      apply (find_none _ _ Epin) in Hc. by apply bool_decide_eq_false in Hc. }
    destruct (normalize_allHold w cs Hw Hcs) as (Hn & Hgt & <-).
    assert (Forall (λ c, Op c ≠ OpEQ) (normalizeConstraint <$> cs)) as Hpin'.
    { apply Forall_fmap.
      apply (Forall_impl (λ c, plainVersion (CVersion c) = true ∧ Op c ≠ OpEQ));
        [by apply Forall_and|].
      intros c [Hc Ho]. cbn. destruct (normalizeConstraint_spec w c Hw Hc) as (_ & _ & -> & _).
      done. }
    rewrite <-(simplify_bounds_hold w (normalizeConstraint <$> cs)) by done.
    destruct (foldl_pick w (normalizeConstraint <$> cs) None None) as ([Hlo Hhi] & _);
      [done..|].
    destruct (foldl pickLo None _) as [l|], (foldl pickHi None _) as [h|];
      cbn [option_list app optHolds]; unfold allHold.
    + case_match eqn:E; [|by rewrite !Forall_cons, Forall_nil, !constraintHolds_iff; tauto].
      rewrite !andb_true_iff, !bool_decide_eq_true, CompareVersions_Eq_iff in E.
      destruct E as [[Ol Oh] [E1 E2]], Hlo as [_ Hlp], Hhi as [_ Hhp].
      rewrite Forall_singleton, constraintHolds_iff, Ol, Oh. cbn.
      split; intros [H1 H2]; (split; [done|]).
      * by apply (vle_trans w (CVersion l)).
      * by apply (vle_trans w (CVersion h)).
    + change (Forall (λ c, constraintHolds w c = true) [l] ↔ opHolds (Op l) w (CVersion l) ∧ True).
      rewrite Forall_singleton, constraintHolds_iff. tauto.
    + change (Forall (λ c, constraintHolds w c = true) [h] ↔ True ∧ opHolds (Op h) w (CVersion h)).
      rewrite Forall_singleton, constraintHolds_iff. tauto.
    + change (Forall (λ c, constraintHolds w c = true) [] ↔ True ∧ True).
      rewrite Forall_nil. tauto.
Qed.

(** ** Canonical spellings *)

Lemma trim_left_sub f c s : str_forall f s = true → str_forall f (trim_left c s) = true.
Proof. apply trim_left_forall. Qed.

Lemma canonicalSegment_forall f s :
  f "0"%char = true → str_forall f s = true → str_forall f (canonicalSegment s) = true.
Proof.
  intros H0 Hs. unfold canonicalSegment. destruct (negb _); [done|].
  case_bool_decide; [cbn; by rewrite H0|by apply trim_left_forall].
Qed.

Lemma canonicalSegment_nonempty s : s ≠ "" → canonicalSegment s ≠ "".
Proof. intros Hs. unfold canonicalSegment. destruct (negb _); [done|]. by case_bool_decide. Qed.

Lemma compareDigits_Eq s t : compareDigits s t = Eq ↔ trim_left "0" s = trim_left "0" t.
Proof.
  unfold compareDigits.
  destruct (Nat.eqb_spec (String.length (trim_left "0" s)) (String.length (trim_left "0" t)))
    as [E|E]; cbn [negb]; [apply str_compare_eq|].
  split; [by destruct (_ <? _)|]. intros H. by rewrite H in E.
Qed.

Lemma canonicalSegment_digits s :
  allDigits s = true → allDigits (canonicalSegment s) = true.
Proof.
  rewrite !allDigits_true. intros [Hne Hs].
  split; [by apply canonicalSegment_nonempty|by apply canonicalSegment_forall].
Qed.

Lemma compareSegment_Eq s t :
  compareSegment s t = Eq ↔ canonicalSegment s = canonicalSegment t.
Proof.
  assert (∀ u, allDigits u = false → canonicalSegment u = u) as Hnd.
  { intros u Hu. unfold canonicalSegment. by rewrite Hu. }
  assert (∀ u v, allDigits u = true → allDigits v = false →
    (compareSegment u v = Eq ↔ canonicalSegment u = canonicalSegment v)) as Hmix.
  { intros u v Hu Hv. unfold compareSegment. rewrite Hu, Hv. cbn [andb]. rewrite (Hnd v Hv).
    pose proof (canonicalSegment_digits u Hu).
    rewrite bool_decide_false by congruence. split; [by destruct (str_ltb u v)|congruence]. }
  destruct (allDigits s) eqn:Es, (allDigits t) eqn:Et.
  - unfold compareSegment. rewrite Es, Et. cbn [andb]. rewrite compareDigits_Eq.
    unfold canonicalSegment. rewrite Es, Et. cbn [negb].
    split; [by intros ->|].
    destruct (trim_left_head "0" s) as [->|(d & u & -> & Hd)],
      (trim_left_head "0" t) as [->|(e & v & -> & He)]; repeat case_bool_decide; congruence.
  - by apply Hmix.
  - rewrite compareSegment_antisym, (eq_comm (canonicalSegment s)), <-(Hmix t s) by done.
    by destruct (compareSegment t s).
  - rewrite !Hnd by done. unfold compareSegment. rewrite Es. cbn [andb].
    case_bool_decide; [done|]. split; [by destruct (str_ltb s t)|done].
Qed.

Lemma compareSegments_Eq xs ys :
  Forall is_segment xs → Forall is_segment ys →
  (compareSegments xs ys = Eq ↔ canonicalSegment <$> xs = canonicalSegment <$> ys).
Proof.
  intros Hxs. revert ys. induction Hxs as [|x xs Hx Hxs IH]; intros ys Hys.
  - destruct Hys as [|y ys Hy Hys]; [done|].
    cbn. by rewrite (proj1 (compareSegment_above y Hy)).
  - destruct Hys as [|y ys Hy Hys]; rewrite compareSegments_step by (by left); cbn [hd tl].
    + rewrite compareSegment_antisym. by rewrite (proj1 (compareSegment_above x Hx)).
    + rewrite !fmap_cons.
      assert (∀ (a b : string) k k', a :: k = b :: k' ↔ a = b ∧ k = k') as -> by naive_solver.
      rewrite <-compareSegment_Eq, <-IH by done.
      destruct (compareSegment x y); naive_solver.
Qed.

Lemma split_canonicalVersion v :
  wfVersion v = true →
  split "." (canonicalVersion v) = canonicalSegment <$> splitVersion v.
Proof.
  intros Hv. apply split_join.
  - rewrite splitVersion_wf by done. pose proof (split_nonempty "." v).
    by destruct (split "." v).
  - rewrite splitVersion_wf by done. apply Forall_fmap.
    eapply Forall_impl; [apply split_free|]. intros s Hs. cbn.
    unfold contains_byte in *. apply negb_false_iff. apply negb_false_iff in Hs.
    by apply canonicalSegment_forall.
Qed.

Lemma canonicalVersion_Eq v w :
  wfVersion v = true → wfVersion w = true →
  (CompareVersions v w = Eq ↔ canonicalVersion v = canonicalVersion w).
Proof.
  intros Hv Hw. unfold CompareVersions. rewrite compareSegments_Eq by by apply wfVersion_segments.
  split; [unfold canonicalVersion; by intros ->|]. intros E.
  by rewrite <-!split_canonicalVersion, E.
Qed.

Lemma canonicalVersion_head v :
  wfVersion v = true → ∃ c s, canonicalVersion v = String c s ∧ is_digit c = true.
Proof.
  intros Hv. pose proof (split_canonicalVersion v Hv) as Hs.
  rewrite splitVersion_wf in Hs by done.
  apply wfVersion_split in Hv as (x & l & E & Hx & _). rewrite E in Hs.
  apply canonicalSegment_digits, allDigits_true in Hx as [Hne Hx].
  rewrite <-(join_split "." (canonicalVersion v)), Hs. rewrite fmap_cons, <-prefixed_join.
  destruct (canonicalSegment x) as [|c s]; [done|].
  cbn in Hx. apply andb_true_iff in Hx as [Hc _]. eauto.
Qed.

Lemma canonicalVersion_forall f v :
  f "0"%char = true → f "."%char = true → wfVersion v = true → str_forall f v = true →
  str_forall f (canonicalVersion v) = true.
Proof.
  intros H0 Hd Hv Hf. unfold canonicalVersion. rewrite splitVersion_wf by done.
  apply (split_forall ".") in Hf.
  induction Hf as [|x l Hx Hl IH]; [done|]. rewrite fmap_cons.
  destruct l as [|y l]; [by apply canonicalSegment_forall|].
  rewrite fmap_cons, join_cons2 in *. rewrite !str_forall_app. cbn [str_forall].
  rewrite IH, Hd, canonicalSegment_forall; done.
Qed.

(** ** Rendered constraints *)

Definition renderConstraint (c : Constraint) : string :=
  op_string (Op c) +:+ canonicalVersion (CVersion c).

Lemma renderConstraint_inj c d :
  wfVersion (CVersion c) = true → wfVersion (CVersion d) = true →
  renderConstraint c = renderConstraint d →
  Op c = Op d ∧ CompareVersions (CVersion c) (CVersion d) = Eq.
Proof.
  intros Hc Hd. unfold renderConstraint. intros E.
  rewrite (canonicalVersion_Eq _ _ Hc Hd).
  destruct (canonicalVersion_head _ Hc) as (x & s & Ex & Hx),
    (canonicalVersion_head _ Hd) as (y & t & Ey & Hy).
  rewrite Ex, Ey in *.
  destruct (Op c), (Op d); cbn in E; injection E; intros; subst; try done;
    by vm_compute in Hx || by vm_compute in Hy.
Qed.

Lemma renderConstraint_no_comma c :
  wfVersion (CVersion c) = true → contains_byte "," (renderConstraint c) = false.
Proof.
  intros Hc. unfold renderConstraint. rewrite contains_byte_app, orb_false_iff.
  split; [by destruct (Op c)|]. unfold contains_byte. apply negb_false_iff.
  apply canonicalVersion_forall; [done..|].
  apply (matches_within _ versionPattern); [by vm_compute|done].
Qed.

Lemma renderConstraint_nonempty c : renderConstraint c ≠ "".
Proof. unfold renderConstraint. by destruct (Op c). Qed.

(** The rendered set determines the constraints up to their order and to
    spellings of one version. *)
Lemma join_rendered_inj l l' :
  Forall (λ x, x ≠ "" ∧ contains_byte "," x = false) l →
  Forall (λ x, x ≠ "" ∧ contains_byte "," x = false) l' →
  join "," l = join "," l' → l = l'.
Proof.
  assert (∀ l, Forall (λ x, x ≠ "" ∧ contains_byte "," x = false) l →
    join "," l = "" → l = []) as Hnil.
  { intros k Hk. destruct Hk as [|x k [Hx _] _]; [done|].
    destruct k; cbn; [done|]. by destruct x. }
  intros Hl Hl' E.
  destruct l as [|x l]; [symmetry; apply Hnil; [done|by rewrite <-E]|].
  destruct l' as [|y l']; [by apply Hnil|].
  assert (∀ k, Forall (λ x, x ≠ "" ∧ contains_byte "," x = false) k →
    Forall (λ x, contains_byte "," x = false) k) as Hsep.
  { intros k Hk. eapply Forall_impl; [exact Hk|]. by intros ? [??]. }
  rewrite <-(split_join "," (x :: l)), <-(split_join "," (y :: l')) by auto.
  by rewrite E.
Qed.

Lemma foldl_pickLo_None lo cs :
  foldl pickLo lo cs = None → lo = None ∧ Forall (λ c, is_lower_op (Op c) = false) cs.
Proof.
  revert lo. induction cs as [|c cs IH]; intros lo; cbn [foldl]; [done|].
  intros [H ?]%IH. rewrite Forall_cons. unfold pickLo in H.
  destruct (Op c); destruct lo as [l|]; try done;
    destruct (CompareVersions _ _); cbn in H; try done; by case_bool_decide.
Qed.

Lemma foldl_pickHi_None hi cs :
  foldl pickHi hi cs = None → hi = None ∧ Forall (λ c, is_upper_op (Op c) = false) cs.
Proof.
  revert hi. induction cs as [|c cs IH]; intros hi; cbn [foldl]; [done|].
  intros [H ?]%IH. rewrite Forall_cons. unfold pickHi in H.
  destruct (Op c); destruct hi as [l|]; try done;
    destruct (CompareVersions _ _); cbn in H; try done; by case_bool_decide.
Qed.

Lemma simplifyConstraints_nil cs : simplifyConstraints cs = [] → cs = [].
Proof.
  unfold simplifyConstraints. destruct (find _ cs) as [c|] eqn:E; [done|].
  destruct (foldl pickLo None _) as [l|] eqn:El, (foldl pickHi None _) as [h|] eqn:Eh;
    try done; [by case_match|intros _].
  apply foldl_pickLo_None in El as [_ Hl]. apply foldl_pickHi_None in Eh as [_ Hh].
  destruct cs as [|c cs]; [done|]. rewrite fmap_cons in Hl, Hh.
  apply Forall_cons in Hl as [Hl _], Hh as [Hh _].
  cbn in E. case_bool_decide as Ho; [done|].
  exfalso. revert Hl Hh. unfold normalizeConstraint.
  repeat case_match; cbn; try done; destruct (Op c); done.
Qed.

Lemma simplifyConstraints_Forall (P : string → Prop) cs :
  (∀ v, P v ↔ P (nextVersion v)) →
  Forall (λ c, P (CVersion c)) cs → Forall (λ c, P (CVersion c)) (simplifyConstraints cs).
Proof.
  intros HP Hcs. unfold simplifyConstraints.
  destruct (find _ cs) as [c|] eqn:E.
  { apply find_some in E as [Hc%list_elem_of_In _]. rewrite Forall_forall in Hcs.
    constructor; [auto|done]. }
  assert (Forall (λ c, P (CVersion c)) (normalizeConstraint <$> cs)) as Hn.
  { apply Forall_fmap. eapply Forall_impl; [exact Hcs|]. cbn. intros c Hc.
    unfold normalizeConstraint. case_bool_decide; [by apply HP in Hc|].
    case_match eqn:Es; [|done]. apply andb_true_iff in Es as [_ Es%has_suffix_next].
    rewrite Es in Hc. by apply HP in Hc. }
  assert (∀ f o, (∀ o c, f o c = o ∨ f o c = Some c) →
    match o with Some c => P (CVersion c) | None => True end →
    match foldl f o (normalizeConstraint <$> cs) with
    | Some c => P (CVersion c) | None => True end) as Hfold.
  { intros f o Hf. revert o. induction Hn as [|c k Hc Hn IH]; intros o Ho; cbn; [done|].
    apply IH. destruct (Hf o c) as [->| ->]; done. }
  assert (∀ o c, pickLo o c = o ∨ pickLo o c = Some c) as HLo.
  { intros o c. unfold pickLo. destruct (Op c), o; try (by auto);
      destruct (CompareVersions _ _); auto; case_bool_decide; auto. }
  assert (∀ o c, pickHi o c = o ∨ pickHi o c = Some c) as HHi.
  { intros o c. unfold pickHi. destruct (Op c), o; try (by auto);
      destruct (CompareVersions _ _); auto; case_bool_decide; auto. }
  pose proof (Hfold pickLo None HLo I) as H1. pose proof (Hfold pickHi None HHi I) as H2.
  destruct (foldl pickLo _ _), (foldl pickHi _ _); try case_match; by repeat constructor.
Qed.

Lemma simplifyConstraints_wf cs :
  Forall (λ c, wfVersion (CVersion c) = true) cs →
  Forall (λ c, wfVersion (CVersion c) = true) (simplifyConstraints cs).
Proof. apply (simplifyConstraints_Forall (λ v, wfVersion v = true)), wfVersion_next. Qed.

Lemma simplifyConstraints_plain cs :
  plainConstraints cs → plainConstraints (simplifyConstraints cs).
Proof. apply (simplifyConstraints_Forall (λ v, plainVersion v = true)), plainVersion_next. Qed.

(** ** Parsed entries *)

Lemma capabilityName_within : re_within is_graphic capabilityName = true.
Proof. by vm_compute. Qed.
Lemma capabilityNamespace_within : re_within is_graphic capabilityNamespace = true.
Proof. by vm_compute. Qed.

Lemma capabilityName_graphic name :
  capabilityNameError name = None → str_forall is_graphic name = true.
Proof.
  unfold capabilityNameError. destruct (cut "/" name) as [[ns base] q] eqn:E.
  destruct q; cbn [negb].
  - apply cut_found in E as [-> _]. case_bool_decide; [done|].
    destruct (negb _ || negb _) eqn:Em; [done|]. intros _.
    apply orb_false_iff in Em as [Hn%negb_false_iff Hb%negb_false_iff].
    rewrite str_forall_app. cbn [str_forall].
    rewrite (matches_within _ _ _ capabilityNamespace_within Hn).
    by rewrite (matches_within _ _ _ capabilityName_within Hb).
  - apply cut_not_found in E as (-> & -> & _).
    destruct (negb _) eqn:Em; [done|]. intros _. apply negb_false_iff in Em.
    by apply (matches_within _ _ _ capabilityName_within Em).
Qed.

Lemma Normalize_graphic name :
  str_forall is_graphic name = true → str_forall is_graphic (NormalizeCapabilityName name) = true.
Proof.
  intros H. unfold NormalizeCapabilityName. case_match; [done|].
  by rewrite !str_forall_app, H.
Qed.

Lemma parseConstraintsLoop_wf fuel s out out' :
  parseConstraintsLoop fuel s out = Ok out' →
  Forall (λ c, wfVersion (CVersion c) = true) out →
  Forall (λ c, wfVersion (CVersion c) = true) out'.
Proof.
  revert s out. induction fuel as [|fuel IH]; intros s out; cbn; [by intros [= <-]|].
  case_bool_decide as Hs; [by intros [= <-]|].
  intros ([op afterOp] & _ & H)%result_bind_Ok Hout.
  destruct (cut "," afterOp) as [[vp next] more]. case_bool_decide as Hvp; [done|].
  apply result_bind_Ok in H as (v & Hv%map_err_Ok%parseVersion_Ok & H).
  assert (Forall (λ c, wfVersion (CVersion c) = true) (out ++ [mkConstraint op v])).
  { apply Forall_app. split; [done|]. constructor; [|done]. cbn. by destruct Hv. }
  destruct more; cbn [negb] in H; [|by injection H as <-].
  case_bool_decide as Hne; [done|]. by eapply IH.
Qed.

Lemma ParseRequire_Ok s r :
  ParseRequire s = Ok r →
  str_forall is_graphic (RName r) = true ∧
  Forall (λ c, wfVersion (CVersion c) = true) (Constraints r) ∧
  (Constraints r = [] ∨ checkConstraintsSatisfiable (Constraints r) = Ok ()).
Proof.
  unfold ParseRequire. intros ([name rest] & _ & H)%result_bind_Ok.
  destruct (capabilityNameError name) eqn:Hn; [done|].
  apply capabilityName_graphic, Normalize_graphic in Hn.
  case_bool_decide as Hrest.
  - injection H as <-. split; [done|]. split; [constructor|by left].
  - apply result_bind_Ok in H as (cs & Hcs%map_err_Ok & [= <-]).
    split; [done|]. unfold parseConstraints in Hcs.
    apply result_bind_Ok in Hcs as (out & Hout & Hin). case_bool_decide as Hnil; [done|].
    apply result_bind_Ok in Hin as ([] & Hsat & [= <-]). cbn. split; [|by right].
    by eapply parseConstraintsLoop_wf.
Qed.

Lemma CanonicalRequire_unfold r :
  CanonicalRequire r =
    RName r +:+ String " " (join "," (sort_strings (renderConstraint <$> simplifyConstraints (Constraints r)))).
Proof. done. Qed.

Lemma CanonicalRequire_inj r r' :
  str_forall is_graphic (RName r) = true → str_forall is_graphic (RName r') = true →
  Forall (λ c, wfVersion (CVersion c) = true) (Constraints r) →
  Forall (λ c, wfVersion (CVersion c) = true) (Constraints r') →
  CanonicalRequire r = CanonicalRequire r' →
  RName r = RName r' ∧
  renderConstraint <$> simplifyConstraints (Constraints r)
    ≡ₚ renderConstraint <$> simplifyConstraints (Constraints r').
Proof.
  intros Hn Hn' Hc%simplifyConstraints_wf Hc'%simplifyConstraints_wf.
  rewrite !CanonicalRequire_unfold. intros E.
  assert (∀ n, str_forall is_graphic n = true → contains_byte " " n = false) as Hsp.
  { intros n Hg. by eapply str_forall_contains. }
  apply (f_equal (cut " ")) in E. rewrite !cut_app in E by auto.
  injection E as En Ej. split; [done|].
  assert (∀ k, Forall (λ c, wfVersion (CVersion c) = true) k →
    Forall (λ x, x ≠ "" ∧ contains_byte "," x = false) (sort_strings (renderConstraint <$> k)))
    as Hr.
  { intros k Hk. rewrite sort_strings_perm. apply Forall_fmap.
    eapply Forall_impl; [exact Hk|]. intros c Hcw. cbn.
    split; [apply renderConstraint_nonempty|by apply renderConstraint_no_comma]. }
  apply join_rendered_inj in Ej; [|by apply Hr..].
  rewrite <-(sort_strings_perm (renderConstraint <$> _)), Ej. apply sort_strings_perm.
Qed.

Lemma rendered_allHold w k k' :
  plainVersion w = true →
  Forall (λ c, plainVersion (CVersion c) = true) k' →
  Forall (λ c, plainVersion (CVersion c) = true) k →
  (∀ x, x ∈ renderConstraint <$> k → x ∈ renderConstraint <$> k') →
  allHold w k' → allHold w k.
Proof.
  intros Hw Hk' Hk Hsub Hall. unfold allHold in *. rewrite Forall_forall in Hk, Hk', Hall.
  apply Forall_forall. intros c Hc.
  destruct (proj1 (list_elem_of_fmap _ _ _) (Hsub (renderConstraint c)
    (list_elem_of_fmap_2 _ _ _ Hc))) as (d & E & Hd).
  apply renderConstraint_inj in E as [Ho E]; [|by auto with kit..].
  specialize (Hall d Hd). rewrite constraintHolds_iff in *. rewrite Ho.
  apply CompareVersions_Eq_iff in E as [E1 E2].
  specialize (Hk c Hc). specialize (Hk' d Hd).
  assert (CVersion d ⊑ w ↔ CVersion c ⊑ w) as Ea by
    (split; intros; [apply (vle_trans (CVersion c) (CVersion d) w)
                    |apply (vle_trans (CVersion d) (CVersion c) w)]; done).
  assert (w ⊑ CVersion d ↔ w ⊑ CVersion c) as Eb by
    (split; intros; [apply (vle_trans w (CVersion d) (CVersion c))
                    |apply (vle_trans w (CVersion c) (CVersion d))]; done).
  destruct (Op d); cbn in *; by rewrite <-?Ea, <-?Eb.
Qed.

(** ** Properties *)

(** On plain versions (dotted numbers, possibly with successor segments)
    [CompareVersions] is a total preorder: comparing a version with itself gives
    0, swapping the arguments negates the verdict, and the verdicts of two
    comparisons in a row compose, strictly when either is strict. *)
Theorem compare_versions_preorder u v w :
  plainVersion u = true → plainVersion v = true → plainVersion w = true →
  CompareVersions u u = Eq ∧
  CompareVersions v u = CompOpp (CompareVersions u v) ∧
  (CompareVersions u v ≠ Gt → CompareVersions v w ≠ Gt →
   CompareVersions u w =
     match CompareVersions u v with Eq => CompareVersions v w | _ => Lt end).
Proof.
  intros Hu Hv Hw. split; [apply CompareVersions_refl|].
  split; [apply CompareVersions_antisym|]. intros H1 H2.
  rewrite (CompareVersions_trans u v w) by done. by destruct (CompareVersions u v).
Qed.

Lemma compare_versions_preorder_witness :
  CompareVersions "1.9" "99999999999999999999.0" = Lt ∧
  CompareVersions "1.9" "100000000000000000000" = Lt.
Proof.
  destruct (compare_versions_preorder "1.9" "99999999999999999999.0" "100000000000000000000")
    as (_ & _ & H); [by vm_compute..|].
  assert (CompareVersions "1.9" "99999999999999999999.0" = Lt) as E by by vm_compute.
  rewrite E in H. split; [done|]. apply H; by vm_compute.
Defined.

(** On all versions the grammar admits the order is not transitive, because
    a segment of digits and one with letters compare as text: [1.9] is below
    [1.10], which is below [1.1a], which is below [1.9].  So the satisfiability
    check refuses [>= 1.10, <= 1.9] although the version [1.1a] meets both
    constraints. *)
Theorem compare_versions_cycle :
  IsVersion "1.9" = true ∧ IsVersion "1.10" = true ∧ IsVersion "1.1a" = true ∧
  CompareVersions "1.9" "1.10" = Lt ∧ CompareVersions "1.10" "1.1a" = Lt ∧
  CompareVersions "1.1a" "1.9" = Lt ∧
  is_ok (ParseRequire "gh >= 1.10, <= 1.9") = false ∧
  Satisfies (mkProvide "com.docker.kit/gh" "1.1a")
    (mkRequire "com.docker.kit/gh" [mkConstraint OpGTE "1.10"; mkConstraint OpLTE "1.9"]) = true.
Proof. by vm_compute. Qed.

(** [nextVersion] is the successor: for all versions of the grammar, being
    above [v] is being at or above [nextVersion v], and being below
    [nextVersion v] is being at or below [v]. *)
Theorem next_version_successor v w :
  IsVersion v = true → trim_space v = v → IsVersion w = true → trim_space w = w →
  constraintHolds w (mkConstraint OpGT v) =
    constraintHolds w (mkConstraint OpGTE (nextVersion v)) ∧
  constraintHolds w (mkConstraint OpLT (nextVersion v)) =
    constraintHolds w (mkConstraint OpLTE v).
Proof.
  unfold IsVersion, parseVersion. intros Hv Ev Hw Ew. rewrite Ev in Hv. rewrite Ew in Hw.
  fold (wfVersion v) in Hv. fold (wfVersion w) in Hw.
  destruct (wfVersion v) eqn:Wv, (wfVersion w) eqn:Ww; try done.
  pose proof (CompareVersions_successor v w Wv Ww) as E.
  split; apply eq_iff_eq_true; rewrite !constraintHolds_iff; cbn; [done|].
  rewrite <-E. pose proof (vle_dec w v). tauto.
Qed.

Lemma next_version_successor_witness :
  constraintHolds "1.0.0" (mkConstraint OpGT "1.0") = true ∧
  constraintHolds "1.0.0" (mkConstraint OpGTE (nextVersion "1.0")) = true.
Proof.
  destruct (next_version_successor "1.0" "1.0.0") as [H _]; [by vm_compute..|].
  assert (constraintHolds "1.0.0" (mkConstraint OpGT "1.0") = true) as E by by vm_compute.
  split; [done|]. by rewrite <-H.
Defined.

(** [checkConstraintsSatisfiable] accepts a set of constraints on plain
    versions exactly when some version meets every one of them; so a requires
    entry that can never resolve is refused, and no other is. *)
Theorem satisfiable_check_exact cs :
  Forall (λ c, plainVersion (CVersion c) = true) cs →
  checkConstraintsSatisfiable cs = Ok () ↔
  ∃ w, plainVersion w = true ∧ ∀ c, c ∈ cs → constraintHolds w c = true.
Proof.
  intros Hcs. rewrite checkConstraintsSatisfiable_Ok by done.
  unfold allHold. by setoid_rewrite Forall_forall.
Qed.

Lemma satisfiable_check_exact_witness :
  checkConstraintsSatisfiable [mkConstraint OpGT "1.0"; mkConstraint OpLT "1.0.1"] = Ok () ∧
  ¬ (∃ w, plainVersion w = true ∧
     ∀ c, c ∈ [mkConstraint OpGT "1"; mkConstraint OpLT "1.-"] → constraintHolds w c = true).
Proof.
  split; [by vm_compute|]. intros H.
  apply (satisfiable_check_exact [mkConstraint OpGT "1"; mkConstraint OpLT "1.-"]) in H.
  - by vm_compute in H.
  - repeat constructor.
Defined.

(** [CanonicalRequire] merges no two relations: two requires entries with one
    canonical rendering are satisfied by the same provides, at every plain
    version and for unversioned provides. *)
Theorem canonical_require_sound s s' r r' p :
  ParseRequire s = Ok r → ParseRequire s' = Ok r' →
  Forall (λ c, plainVersion (CVersion c) = true) (Constraints r) →
  Forall (λ c, plainVersion (CVersion c) = true) (Constraints r') →
  PVersion p = "" ∨ plainVersion (PVersion p) = true →
  CanonicalRequire r = CanonicalRequire r' →
  Satisfies p r = Satisfies p r'.
Proof.
  intros Hr Hr' Hc Hc' Hp E.
  apply ParseRequire_Ok in Hr as (Hn & Hw & Hs). apply ParseRequire_Ok in Hr' as (Hn' & Hw' & Hs').
  apply CanonicalRequire_inj in E as [En Ep]; [|done..].
  unfold Satisfies. rewrite En. case_bool_decide; [|done]. cbn [negb].
  assert (Constraints r = [] ↔ Constraints r' = []) as Enil.
  { split; intros E0; rewrite E0 in Ep; apply simplifyConstraints_nil.
    - by apply Permutation_nil, fmap_nil_inv in Ep.
    - symmetry in Ep. by apply Permutation_nil, fmap_nil_inv in Ep. }
  rewrite (bool_decide_ext _ _ Enil). case_bool_decide as E0; [done|].
  destruct Hp as [->|Hp]; [done|]. case_bool_decide; [done|].
  destruct Hs as [|Hs]; [naive_solver|]. destruct Hs' as [|Hs']; [naive_solver|].
  apply eq_iff_eq_true. rewrite !forallb_Forall. fold (allHold (PVersion p)).
  change (allHold (PVersion p) (Constraints r) ↔ allHold (PVersion p) (Constraints r')).
  rewrite <-(simplifyConstraints_hold _ (Constraints r)),
    <-(simplifyConstraints_hold _ (Constraints r')) by done.
  apply simplifyConstraints_plain in Hc, Hc'.
  split; apply rendered_allHold; try done; intros x; by rewrite Ep.
Qed.

Lemma canonical_require_sound_witness :
  let p := mkProvide "com.docker.kit/shell" "2.5" in
  match ParseRequire "shell >= 1.0.0, >= 2.0.0", ParseRequire "com.docker.kit/shell>=02.0.0" with
  | Ok r, Ok r' => Satisfies p r = Satisfies p r'
  | _, _ => False
  end.
Proof.
  intros p.
  destruct (ParseRequire "shell >= 1.0.0, >= 2.0.0") as [r|] eqn:E; [|by vm_compute in E].
  destruct (ParseRequire "com.docker.kit/shell>=02.0.0") as [r'|] eqn:E'; [|by vm_compute in E'].
  apply (canonical_require_sound _ _ r r' p E E');
    vm_compute in E; vm_compute in E'; injection E as <-; injection E' as <-;
    [repeat constructor|repeat constructor|by right|by vm_compute].
Defined.
