(* ===== verification/Json.v ===== *)
(** Go's untyped configuration values and [encoding/json] as [package spec]
    uses it: a value is what [map[string]any] holds after a descriptor is
    parsed, a decoder is what [json.Decoder] with [DisallowUnknownFields] does
    for a field type, an encoder what [json.Marshal] does.

    A map lists its entries in key order, the order in which [json.Marshal]
    writes them and therefore in which a decoder meets them.  Numbers are
    their JSON literals; strings are valid UTF-8. *)
From stdpp Require Import options.
From S2P Require Import Prelude GoStrings.

(** ** Values *)

(** A number by its JSON literal: a decimal integer, or any other literal. *)
Inductive number := NInt (z : Z) | NFloat (lit : string).

(** [VOther] is a value [json.Marshal] refuses: a non-finite float, or a map
    with a key that is not a string. *)
Inductive value :=
  | VNull
  | VBool (b : bool)
  | VNum (n : number)
  | VStr (s : string)
  | VList (l : list value)
  | VMap (m : list (string * value))
  | VOther.

#[export] Instance number_eq_dec : EqDecision number.
Proof. solve_decision. Defined.

#[export] Instance value_eq_dec : EqDecision value.
Proof.
  refine (fix go (x y : value) {struct x} : Decision (x = y) :=
    let _ : EqDecision value := @go in
    match x, y with
    | VNull, VNull => left eq_refl
    | VBool a, VBool b => cast_if (decide (a = b))
    | VNum a, VNum b => cast_if (decide (a = b))
    | VStr a, VStr b => cast_if (decide (a = b))
    | VList a, VList b => cast_if (decide (a = b))
    | VMap a, VMap b => cast_if (decide (a = b))
    | VOther, VOther => left eq_refl
    | _, _ => right _
    end); clear go r; abstract congruence.
Defined.

(** [json.Marshal] succeeds. *)
Fixpoint marshals (v : value) : bool :=
  match v with
  | VList l => forallb marshals l
  | VMap m => forallb (λ kv, marshals kv.2) m
  | VOther => false
  | _ => true
  end.

(** ** Decoding *)

Inductive json_error :=
  | UnknownField (key : string)
  | TypeMismatch (v : value)
  | Unencodable
  | EmptyListStated (field : string).

(** A decoder updates the Go variable it decodes into: [null] leaves most types
    as they are, and a field met twice keeps what the first one stored. *)
Definition decoder (A : Type) : Type := A → value → result json_error A.

(** Field names match up to Unicode case folding; for the ASCII names of the
    structs those are the ASCII letters, the long s and the Kelvin sign. *)
Definition lower_byte (c : ascii) : ascii :=
  if is_upper c then ascii_of_nat (nat_of_ascii c + 32) else c.

Definition long_s : string := of_bytes [197; 191].
Definition kelvin : string := of_bytes [226; 132; 170].

Fixpoint fold_name (s : string) : string :=
  match s with
  | String "197" (String "191" r) => String "s" (fold_name r)
  | String "226" (String "132" (String "170" r)) => String "k" (fold_name r)
  | String c r => String (lower_byte c) (fold_name r)
  | EmptyString => ""
  end.

Definition same_name (k name : string) : bool :=
  bool_decide (fold_name k = fold_name name).

Definition decode_string : decoder string := λ cur v,
  match v with VNull => Ok cur | VStr s => Ok s | _ => Err (TypeMismatch v) end.

Definition decode_bool : decoder bool := λ cur v,
  match v with VNull => Ok cur | VBool b => Ok b | _ => Err (TypeMismatch v) end.

Definition in_int64 (z : Z) : bool :=
  bool_decide (-2 ^ 63 ≤ z)%Z && bool_decide (z < 2 ^ 63)%Z.

Definition decode_int : decoder Z := λ cur v,
  match v with
  | VNull => Ok cur
  | VNum (NInt z) => if in_int64 z then Ok z else Err (TypeMismatch v)
  | VNum (NFloat lit) => if bool_decide (lit = "-0") then Ok 0%Z else Err (TypeMismatch v)
  | _ => Err (TypeMismatch v)
  end.

Definition decode_number : decoder number := λ cur v,
  match v with VNull => Ok cur | VNum n => Ok n | _ => Err (TypeMismatch v) end.

(** The elements of an array are decoded into the elements the slice had, and
    into zero values past its length. *)
Fixpoint decode_elems {A} (d : decoder A) (zero : A) (old : list A) (l : list value) :
    result json_error (list A) :=
  match l with
  | [] => Ok []
  | v :: l => a ← d (default zero (head old)) v; r ← decode_elems d zero (tail old) l; Ok (a :: r)
  end.

(** A slice whose nil and empty values are told apart. *)
Definition decode_nil_slice {A} (d : decoder A) (zero : A) : decoder (option (list A)) :=
  λ cur v,
    match v with
    | VNull => Ok None
    | VList l => r ← decode_elems d zero (default [] cur) l; Ok (Some r)
    | _ => Err (TypeMismatch v)
    end.

Definition decode_slice {A} (d : decoder A) (zero : A) : decoder (list A) := λ cur v,
  match v with
  | VNull => Ok []
  | VList l => decode_elems d zero cur l
  | _ => Err (TypeMismatch v)
  end.

Definition decode_strings : decoder (list string) := decode_slice decode_string "".

Definition decode_ptr {A} (d : decoder A) (zero : A) : decoder (option A) := λ cur v,
  match v with
  | VNull => Ok None
  | _ => a ← d (default zero cur) v; Ok (Some a)
  end.

(** [map[string]any]: an entry replaces the one of its key. *)
Fixpoint map_put (kv : string * value) (m : list (string * value)) : list (string * value) :=
  match m with
  | [] => [kv]
  | kv' :: r =>
      match str_compare kv.1 kv'.1 with
      | Lt => kv :: m
      | Eq => kv :: r
      | Gt => kv' :: map_put kv r
      end
  end.

Definition decode_any_map : decoder (option (list (string * value))) := λ cur v,
  match v with
  | VNull => Ok None
  | VMap m => Ok (Some (foldl (λ acc kv, map_put kv acc) (default [] cur) m))
  | _ => Err (TypeMismatch v)
  end.

(** A struct field: the entries that name it, in order. *)
Fixpoint decode_field {A} (name : string) (d : decoder A) (m : list (string * value)) (cur : A) :
    result json_error A :=
  match m with
  | [] => Ok cur
  | (k, v) :: m =>
      if same_name k name then a ← d cur v; decode_field name d m a
      else decode_field name d m cur
  end.

Definition unknown_field (names : list string) (m : list (string * value)) : option string :=
  match List.find (λ kv, negb (existsb (same_name kv.1) names)) m with
  | Some kv => Some kv.1
  | None => None
  end.

(** A struct with [DisallowUnknownFields]: every entry names a field. *)
Definition decode_struct {A} (names : list string)
    (fields : A → list (string * value) → result json_error A) : decoder A := λ cur v,
  match v with
  | VNull => Ok cur
  | VMap m =>
      match unknown_field names m with
      | Some k => Err (UnknownField k)
      | None => fields cur m
      end
  | _ => Err (TypeMismatch v)
  end.

(** ** Encoding *)

(** The fields of a struct in key order; [omitempty] leaves zero values out. *)
Definition fields : Type := list (string * value).

Definition omit_string (name s : string) : fields :=
  if bool_decide (s = "") then [] else [(name, VStr s)].
Definition omit_bool (name : string) (b : bool) : fields :=
  if b then [(name, VBool true)] else [].
Definition encode_strings (l : list string) : value := VList (map VStr l).
Definition omit_strings (name : string) (l : list string) : fields :=
  if bool_decide (l = []) then [] else [(name, encode_strings l)].
(** A string slice without [omitempty]: a nil one is written [null]. *)
Definition encode_nil_strings (l : option (list string)) : value :=
  match l with None => VNull | Some l => encode_strings l end.
Definition omit_some {A} (name : string) (enc : A → value) (o : option A) : fields :=
  match o with None => [] | Some a => [(name, enc a)] end.
Definition omit_list {A} (name : string) (enc : A → value) (l : list A) : fields :=
  match l with [] => [] | _ => [(name, VList (map enc l))] end.

(** ** Facts *)

Definition json_ok {A} (d : decoder A) (enc : A → value) (zero a : A) : Prop :=
  d zero (enc a) = Ok a.

Lemma decode_elems_map {A} (d : decoder A) (zero : A) enc l :
  Forall (json_ok d enc zero) l → decode_elems d zero [] (map enc l) = Ok l.
Proof.
  induction 1 as [|a l Ha _ IH]; [done|]. cbn. rewrite Ha. cbn. by rewrite IH.
Qed.

Lemma decode_slice_map {A} (d : decoder A) (zero : A) enc l :
  Forall (json_ok d enc zero) l → decode_slice d zero [] (VList (map enc l)) = Ok l.
Proof. apply decode_elems_map. Qed.

Lemma decode_string_VStr zero s : json_ok decode_string VStr zero s.
Proof. done. Qed.

Lemma decode_strings_encode l : decode_strings [] (encode_strings l) = Ok l.
Proof. apply decode_slice_map, Forall_true. intros s. apply decode_string_VStr. Qed.

Lemma decode_nil_strings_encode l :
  decode_nil_slice decode_string "" None (encode_nil_strings l) = Ok l.
Proof.
  destruct l as [l|]; [|done]. cbn. rewrite decode_elems_map; [done|].
  apply Forall_true. intros s. apply decode_string_VStr.
Qed.

(** A field writes nothing when its value is omitted and one entry otherwise;
    reading it back in the right place gives the value. *)
Definition field_ok {A} (name : string) (d : decoder A) (zero a : A) (fs : fields) : Prop :=
  (fs = [] ∧ a = zero) ∨ ∃ v, fs = [(name, v)] ∧ d zero v = Ok a.

Lemma omit_string_ok name s : field_ok name decode_string "" s (omit_string name s).
Proof. unfold omit_string. case_bool_decide; [by left|right]. by exists (VStr s). Qed.

Lemma omit_bool_ok name b : field_ok name decode_bool false b (omit_bool name b).
Proof. destruct b; [right; by exists (VBool true)|by left]. Qed.

Lemma omit_strings_ok name l : field_ok name decode_strings [] l (omit_strings name l).
Proof.
  unfold omit_strings. case_bool_decide; [by left|right].
  eexists. split; [done|]. apply decode_strings_encode.
Qed.

Lemma omit_list_ok {A} name (d : decoder A) zero enc l :
  Forall (json_ok d enc zero) l →
  field_ok name (decode_slice d zero) [] l (omit_list name enc l).
Proof.
  intros H. destruct l; [by left|right]. eexists. split; [done|]. by apply decode_slice_map.
Qed.

(** Only [null] decodes a pointer to nil. *)
Lemma omit_some_ok {A} name (d : decoder A) zero enc o :
  (∀ a, o = Some a → enc a ≠ VNull ∧ json_ok d enc zero a) →
  field_ok name (decode_ptr d zero) None o (omit_some name enc o).
Proof.
  intros H. destruct o as [a|]; [right|by left]. destruct (H a eq_refl) as [Hn Ha].
  eexists. split; [done|]. unfold decode_ptr. cbn.
  destruct (enc a) eqn:E; try done; unfold json_ok in Ha; rewrite E in Ha; by rewrite Ha.
Qed.

Lemma required_ok {A} name (d : decoder A) zero a v :
  d zero v = Ok a → field_ok name d zero a [(name, v)].
Proof. right. by exists v. Qed.

(** A struct is written field by field, in key order; a field is read where it
    was written and skips the others. *)
Definition only_key (name : string) (fs : fields) : bool :=
  forallb (λ kv, bool_decide (kv.1 = name)) fs.

Lemma field_ok_key {A} name (d : decoder A) zero a fs :
  field_ok name d zero a fs → only_key name fs = true.
Proof. intros [[-> _]|(v & -> & _)]; [done|]. cbn. by rewrite bool_decide_eq_true_2. Qed.

Lemma only_key_nil name : only_key name [] = true.
Proof. done. Qed.

Lemma decode_field_skip {A} name k (d : decoder A) fs fss z :
  only_key k fs = true → same_name k name = false →
  decode_field name d (concat (fs :: fss)) z = decode_field name d (concat fss) z.
Proof.
  intros Hk Hn. cbn. induction fs as [|[k' v] fs IH]; [done|]. cbn in *.
  apply andb_true_iff in Hk as [E Hk]. apply bool_decide_eq_true in E. subst.
  rewrite Hn. by apply IH.
Qed.

Lemma same_name_refl k : same_name k k = true.
Proof. by apply bool_decide_eq_true. Qed.

Lemma decode_field_here {A} name (d : decoder A) zero a fs fss :
  field_ok name d zero a fs →
  decode_field name d (concat (fs :: fss)) zero = decode_field name d (concat fss) a.
Proof.
  intros [[-> ->]|(v & -> & Hv)]; [done|]. cbn. rewrite same_name_refl, Hv. done.
Qed.

Lemma unknown_field_skip names k fs fss :
  only_key k fs = true → existsb (same_name k) names = true →
  unknown_field names (concat (fs :: fss)) = unknown_field names (concat fss).
Proof.
  intros Hk Hn. cbn. induction fs as [|[k' v] fs IH]; [done|]. unfold unknown_field in *. cbn in *.
  apply andb_true_iff in Hk as [E Hk]. apply bool_decide_eq_true in E. subst.
  rewrite Hn. by apply IH.
Qed.

Lemma omit_string_key name s : only_key name (omit_string name s) = true.
Proof. eapply field_ok_key, omit_string_ok. Qed.
Lemma omit_bool_key name b : only_key name (omit_bool name b) = true.
Proof. eapply field_ok_key, omit_bool_ok. Qed.
Lemma omit_strings_key name l : only_key name (omit_strings name l) = true.
Proof. eapply field_ok_key, omit_strings_ok. Qed.
Lemma one_key name v : only_key name [(name, v)] = true.
Proof. cbn. by rewrite bool_decide_eq_true_2. Qed.
Lemma omit_some_key {A} name (enc : A → value) o : only_key name (omit_some name enc o) = true.
Proof. destruct o; [apply one_key|done]. Qed.
Lemma omit_list_key {A} name (enc : A → value) l : only_key name (omit_list name enc l) = true.
Proof. destruct l; [done|apply one_key]. Qed.

(** Reads a written struct back: [codec] proves [field_ok] of every field. *)
Create HintDb codec.
#[export] Hint Resolve omit_string_ok omit_bool_ok omit_strings_ok omit_string_key omit_bool_key
  omit_strings_key one_key omit_some_key omit_list_key : codec.
#[export] Hint Extern 1 (field_ok _ _ _ _ [_]) => (apply required_ok; reflexivity) : codec.

Ltac solve_field := solve [eassumption | eauto 2 with codec].
Ltac solve_key := solve [eauto 2 with codec | eapply field_ok_key; eassumption].
Ltac read_map dec :=
  unfold dec at 1; unfold decode_struct;
  cbn -[concat decode_field unknown_field];
  repeat (erewrite unknown_field_skip; [|solve_key|vm_compute; reflexivity]);
  change (unknown_field _ (concat [])) with (@None string); cbv iota;
  repeat first
    [erewrite decode_field_here by solve_field
    |erewrite decode_field_skip; [|solve_key|vm_compute; reflexivity]
    |progress cbn [concat decode_field mbind result_bind]];
  try reflexivity.
Ltac read_fields dec enc := unfold json_ok; unfold enc at 1; read_map dec.
