(* ===== verification/Types.v ===== *)
(** [spec/types.go]: the descriptor, its capability requests and the typed
    configurations of the well-known capabilities, with the JSON codec of each
    configuration.  Field [F] of the Go struct [T] is the projection [T_F]. *)
From stdpp Require Import options.
From S2P Require Import Prelude GoStrings Json.

Definition SchemaVersion : string := "3".

(** ** Capability types *)

Definition CapabilityNetworkPolicy := "com.docker.sandbox/network-policy@1".
Definition CapabilityNetworkPolicyV2 := "com.docker.sandbox/network-policy@2".
Definition CapabilityGitIdentity := "com.docker.sandbox/git-identity@1".
Definition CapabilityCredential := "com.docker.sandbox/credential@1".
Definition CapabilitySSHAgent := "com.docker.sandbox/ssh-agent@1".
Definition CapabilityVolume := "com.docker.sandbox/volume@1".
Definition CapabilityPort := "com.docker.sandbox/port@1".
Definition CapabilityAgentSkills := "com.docker.sandbox/agent-skills@1".
Definition CapabilityAgentSkill := "com.docker.sandbox/agent-skill@1".
Definition CapabilityUSBDevice := "com.docker.sandbox/usb-device@1".
Definition CapabilityResources := "com.docker.sandbox/resources@1".
Definition CapabilityPrivileged := "com.docker.sandbox/privileged@1".
Definition CapabilityLifecycle := "com.docker.sandbox/lifecycle@1".
Definition CapabilityAgentContext := "com.docker.sandbox/agent-context@1".
Definition CapabilityAgentSessions := "com.docker.sandbox/agent-sessions@1".
Definition CapabilitySbx := "com.docker.sandbox/sbx@1".
Definition CapabilityLongRunning := "com.docker.sandbox/long-running@1".
Definition CapabilityKitRegistry := "com.docker.sandbox/kit-registry@1".

(** ** The descriptor *)

Definition KindWorkload : string := "workload".
Definition KindMixin : string := "mixin".
Definition KindSet : string := "set".

Record Kit := mkKit {
  Kit_Ref : string;
  Kit_Digest : string;
  Kit_Args : gmap string string;
}.

Record CapabilitySource := mkCapabilitySource {
  Source_Kit : string;
  Source_Path : string;
}.

(** A request or a group of requests ([spec/types.go] [Capability] and
    [spec/groups.go] [CapabilityGroup]).  [Config] is [None] for a nil map;
    [configSet], [optionalSet] and [groupSet] record that the document stated
    the key. *)
Inductive Capability : Type := mkCapability {
  Group : option CapabilityGroup;
  Source : option CapabilitySource;
  optionalSet : bool;
  groupSet : bool;
  Type_ : string;
  Name : string;
  Optional : bool;
  Config : option (list (string * value));
  configSet : bool;
  Description : string;
}
with CapabilityGroup : Type := mkCapabilityGroup {
  Group_Name : string;
  Group_Description : string;
  Group_Optional : bool;
  Group_Capabilities : list Capability;
}.

(** An ordinary request of a type, as Go code builds one. *)
Definition capability_of (typ : string) (config : option (list (string * value))) : Capability :=
  mkCapability None None false false typ "" false config false "".

Definition ConfigStated (c : Capability) : bool :=
  configSet c || bool_decide (is_Some (Config c)).

Record Arg := mkArg {
  Arg_Default : option string;
  Arg_Required : bool;
  Arg_Description : string;
  Arg_Enum : list string;
  Arg_Pattern : string;
  Arg_Env : string;
  Arg_BuildArg : string;
}.

Record Descriptor := mkDescriptor {
  declarationsOnly : bool;
  Descriptor_SchemaVersion : string;
  DisplayName : string;
  Author : string;
  Descriptor_Description : string;
  SourceURL : string;
  IconURL : string;
  Version : string;
  Licenses : list string;
  Kind : string;
  Provides : list string;
  Requires : list string;
  Integrates : list string;
  Conflicts : list string;
  Capabilities : list Capability;
  Args : gmap string Arg;
  Build : string;
  Kits : list Kit;
  Dockerfile : string;
  (** [kits] is stated: an empty list is a present one, not a nil slice. *)
  kitsStated : bool;
}.

(** The zero value of the Go struct. *)
Definition zero_descriptor : Descriptor :=
  mkDescriptor false "" "" "" "" "" "" "" [] "" [] [] [] [] [] ∅ "" [] "" false.

(** ** Network policy *)

Record NetworkRules := mkNetworkRules { Allow : list string; Deny : list string }.
Record PhasedNetwork := mkPhasedNetwork {
  Install : option NetworkRules;
  Runtime : option NetworkRules;
}.

(** A slice whose nil and stated-empty values the code tells apart is an
    [option (list string)]; [elems] ranges over either. *)
Record NetworkEntry := mkNetworkEntry {
  Hosts : option (list string);
  Methods : option (list string);
  Paths : option (list string);
}.
Record NetworkRulesV2 := mkNetworkRulesV2 {
  AllowV2 : list NetworkEntry;
  DenyV2 : list NetworkEntry;
}.
Record PhasedNetworkV2 := mkPhasedNetworkV2 {
  InstallV2 : option NetworkRulesV2;
  RuntimeV2 : option NetworkRulesV2;
}.

Definition elems (l : option (list string)) : list string := default [] l.

Definition NetworkEntry_Bounded (e : NetworkEntry) : bool :=
  negb (bool_decide (elems (Methods e) = [])) || negb (bool_decide (elems (Paths e) = [])).

Definition MethodAny : string := "ANY".

(** ** The other configurations *)

Record Inject := mkInject {
  Inject_Domain : string;
  Inject_Header : string;
  Inject_Format : string;
  Inject_Scheme : string;
  Inject_Username : string;
}.
Record APIKey := mkAPIKey {
  APIKey_Name : string;
  APIKey_ProxyManaged : bool;
  APIKey_Inject : list Inject;
}.
Record TokenEndpoint := mkTokenEndpoint {
  TokenEndpoint_Host : string;
  TokenEndpoint_Path : string;
}.
Record Sentinels := mkSentinels {
  Sentinels_AccessToken : string;
  Sentinels_RefreshToken : string;
}.
Record CredentialFile := mkCredentialFile {
  CredentialFile_Path : string;
  CredentialFile_Structure : option (list (string * value));
  CredentialFile_Format : string;
}.
Record ResponseFields := mkResponseFields {
  ResponseFields_AccessToken : string;
  ResponseFields_RefreshToken : string;
  ResponseFields_ExpiresIn : string;
}.
Record OAuth := mkOAuth {
  OAuth_TokenEndpoint : option TokenEndpoint;
  OAuth_ResourceHosts : list string;
  OAuth_Sentinels : option Sentinels;
  OAuth_CredentialFile : option CredentialFile;
  OAuth_ResponseFields : option ResponseFields;
  OAuth_Passthrough : bool;
}.
Record Credential := mkCredential {
  Credential_Service : string;
  Credential_Phase : option (list string);
  Credential_APIKey : option APIKey;
  Credential_OAuth : option OAuth;
}.

Record SSHAgent := mkSSHAgent {
  SSHAgent_Phase : option (list string);
  SSHAgent_Unrestricted : option bool;
  SSHAgent_Sign : option (list string);
  SSHAgent_Authenticate : option (list string);
}.
Definition SSHAgent_Bounded (a : SSHAgent) : bool :=
  match SSHAgent_Unrestricted a with Some u => negb u | None => false end.

Record AgentSkills := mkAgentSkills { AgentSkills_Path : string; AgentSkills_Mode : string }.
Definition SkillsReadOnly : string := "readonly".
Definition SkillsReadWrite : string := "readwrite".
Definition SkillsMode (s : AgentSkills) : string :=
  if bool_decide (AgentSkills_Mode s = "") then SkillsReadOnly else AgentSkills_Mode s.
Definition SkillsWritable (s : AgentSkills) : bool :=
  bool_decide (SkillsMode s = SkillsReadWrite).

Record Volume := mkVolume {
  Volume_Path : string;
  Volume_Size : string;
  Volume_Tmpfs : bool;
  Volume_Mode : string;
}.

Record Port := mkPort {
  Port_Name : string;
  Port_Container : Z;
  Port_Transport : string;
}.
Definition PortTransport (p : Port) : string :=
  if bool_decide (Port_Transport p = "") then "tcp" else Port_Transport p.
Definition PortKey (p : Port) : string :=
  pretty (Port_Container p) +:+ "/" +:+ PortTransport p.

Record USBDevice := mkUSBDevice {
  USBDevice_VendorID : string;
  USBDevice_ProductID : string;
  USBDevice_Class : string;
}.
Record Resources := mkResources {
  Resources_CPU : number;
  Resources_Memory : string;
  Resources_GPU : string;
}.

Definition SessionPromptPlaceholder : string := "{{.Prompt}}".
Definition SessionIDPlaceholder : string := "{{.SessionID}}".
Record AgentSessions := mkAgentSessions {
  AgentSessions_Prompt : list string;
  AgentSessions_Resume : list string;
  AgentSessions_Continue : list string;
  AgentSessions_List : list string;
}.

Record InstallHook := mkInstallHook {
  InstallHook_Command : option (list string);
  InstallHook_User : string;
  InstallHook_Env : list string;
  InstallHook_Description : string;
}.
Record StartupHook := mkStartupHook {
  StartupHook_Command : option (list string);
  StartupHook_User : string;
  StartupHook_Background : bool;
  StartupHook_Env : list string;
  StartupHook_Description : string;
}.
Record File := mkFile {
  File_Path : string;
  File_Content : string;
  File_Mode : string;
  File_Overwrite : option bool;
  File_Description : string;
}.
Record Lifecycle := mkLifecycle {
  Lifecycle_Install : list InstallHook;
  Lifecycle_Startup : list StartupHook;
  Lifecycle_Files : list File;
  Lifecycle_Interactive : option (list string);
}.
Record AgentContext := mkAgentContext {
  AgentContext_Filename : string;
  AgentContext_ContentFile : string;
  AgentContext_Content : string;
}.

Record AgentSkill := mkAgentSkill { AgentSkill_Path : string; AgentSkill_Name : string }.
