(* ===== verification/Config.v ===== *)
(** [spec/capabilities.go] and the JSON codecs of [spec/types.go]: decoding a
    request's configuration into its typed form, encoding it back, and the
    typed accessors over a list of requests. *)
From stdpp Require Import options.
From S2P Require Import Prelude GoStrings Json Types.

(** ** Decoders with a method of their own *)

(** [Phases.UnmarshalJSON]: one phase as a string, several as a list; [null]
    is a string to the first attempt. *)
Definition decode_phases : decoder (option (list string)) := λ _ v,
  match v with
  | VNull => Ok (Some [""])
  | VStr s => Ok (Some [s])
  | _ => decode_nil_slice decode_string "" None v
  end.
Definition encode_phases (p : option (list string)) : value :=
  match p with Some [s] => VStr s | _ => encode_nil_strings p end.

(** [CommandLine.UnmarshalJSON]: an argument vector, or a shell string. *)
Definition decode_command : decoder (option (list string)) := λ _ v,
  match v with
  | VStr s => Ok (Some ["sh"; "-c"; s])
  | _ => decode_nil_slice decode_string "" None v
  end.

(** [NetworkEntry.UnmarshalJSON]: a bare host, or an entry in which a stated
    [null] list is an empty one and not an absent one. *)
Definition stated_null (name : string) (m : list (string * value)) : bool :=
  existsb (λ kv, bool_decide (kv.1 = name) && bool_decide (kv.2 = VNull)) m.
Definition null_as_empty (name : string) (m : list (string * value)) (l : option (list string)) :
    option (list string) :=
  if stated_null name m then Some [] else l.

Definition decode_list : decoder (option (list string)) := decode_nil_slice decode_string "".

Definition zero_entry : NetworkEntry := mkNetworkEntry None None None.

Definition decode_entry_object : decoder NetworkEntry :=
  decode_struct ["hosts"; "methods"; "paths"] (λ _ m,
    hosts ← decode_field "hosts" decode_list m None;
    methods ← decode_field "methods" decode_list m None;
    paths ← decode_field "paths" decode_list m None;
    Ok (mkNetworkEntry (null_as_empty "hosts" m hosts) (null_as_empty "methods" m methods)
          (null_as_empty "paths" m paths))).
Definition decode_entry : decoder NetworkEntry := λ _ v,
  match v with
  | VNull => Ok (mkNetworkEntry (Some [""]) None None)
  | VStr host => Ok (mkNetworkEntry (Some [host]) None None)
  | _ => decode_entry_object zero_entry v
  end.

Definition empty_stated (l : option (list string)) : bool := bool_decide (l = Some []).

Definition encode_entry_object (e : NetworkEntry) : value :=
  VMap (concat [
        [("hosts", encode_nil_strings (Hosts e))];
        omit_strings "methods" (elems (Methods e));
        omit_strings "paths" (elems (Paths e))]).
Definition encode_entry (e : NetworkEntry) : result json_error value :=
  if empty_stated (Methods e) then Err (EmptyListStated "methods")
  else if empty_stated (Paths e) then Err (EmptyListStated "paths")
  else
    match NetworkEntry_Bounded e, Hosts e with
    | false, Some [host] => Ok (VStr host)
    | _, _ => Ok (encode_entry_object e)
    end.

(** ** Network policies *)

Definition zero_rules : NetworkRules := mkNetworkRules [] [].
Definition zero_network : PhasedNetwork := mkPhasedNetwork None None.
Definition zero_rules_v2 : NetworkRulesV2 := mkNetworkRulesV2 [] [].
Definition zero_network_v2 : PhasedNetworkV2 := mkPhasedNetworkV2 None None.

Definition decode_rules : decoder NetworkRules :=
  decode_struct ["allow"; "deny"] (λ r m,
    allow ← decode_field "allow" decode_strings m (Allow r);
    deny ← decode_field "deny" decode_strings m (Deny r);
    Ok (mkNetworkRules allow deny)).
Definition decode_network : decoder PhasedNetwork :=
  decode_struct ["install"; "runtime"] (λ p m,
    install ← decode_field "install" (decode_ptr decode_rules zero_rules) m (Install p);
    runtime ← decode_field "runtime" (decode_ptr decode_rules zero_rules) m (Runtime p);
    Ok (mkPhasedNetwork install runtime)).
Definition encode_rules (r : NetworkRules) : value :=
  VMap (concat [
        omit_strings "allow" (Allow r);
        omit_strings "deny" (Deny r)]).
Definition encode_network (p : PhasedNetwork) : value :=
  VMap (concat [
        omit_some "install" encode_rules (Install p);
        omit_some "runtime" encode_rules (Runtime p)]).

Definition decode_rules_v2 : decoder NetworkRulesV2 :=
  decode_struct ["allow"; "deny"] (λ r m,
    allow ← decode_field "allow" (decode_slice decode_entry zero_entry) m (AllowV2 r);
    deny ← decode_field "deny" (decode_slice decode_entry zero_entry) m (DenyV2 r);
    Ok (mkNetworkRulesV2 allow deny)).
Definition decode_network_v2 : decoder PhasedNetworkV2 :=
  decode_struct ["install"; "runtime"] (λ p m,
    install ← decode_field "install" (decode_ptr decode_rules_v2 zero_rules_v2) m (InstallV2 p);
    runtime ← decode_field "runtime" (decode_ptr decode_rules_v2 zero_rules_v2) m (RuntimeV2 p);
    Ok (mkPhasedNetworkV2 install runtime)).

Definition encode_entries (name : string) (l : list NetworkEntry) : result json_error fields :=
  match l with
  | [] => Ok []
  | _ => vs ← mapM encode_entry l; Ok [(name, VList vs)]
  end.
Definition encode_rules_v2 (r : NetworkRulesV2) : result json_error value :=
  allow ← encode_entries "allow" (AllowV2 r);
  deny ← encode_entries "deny" (DenyV2 r);
  Ok (VMap (concat [allow; deny])).
Definition encode_phase_v2 (name : string) (r : option NetworkRulesV2) :
    result json_error fields :=
  match r with
  | None => Ok []
  | Some r => v ← encode_rules_v2 r; Ok [(name, v)]
  end.
Definition encode_network_v2 (p : PhasedNetworkV2) : result json_error value :=
  install ← encode_phase_v2 "install" (InstallV2 p);
  runtime ← encode_phase_v2 "runtime" (RuntimeV2 p);
  Ok (VMap (concat [install; runtime])).

(** ** Credentials *)

Definition zero_inject : Inject := mkInject "" "" "" "" "".
Definition decode_inject : decoder Inject :=
  decode_struct ["domain"; "header"; "format"; "scheme"; "username"] (λ i m,
    domain ← decode_field "domain" decode_string m (Inject_Domain i);
    header ← decode_field "header" decode_string m (Inject_Header i);
    format ← decode_field "format" decode_string m (Inject_Format i);
    scheme ← decode_field "scheme" decode_string m (Inject_Scheme i);
    username ← decode_field "username" decode_string m (Inject_Username i);
    Ok (mkInject domain header format scheme username)).
Definition encode_inject (i : Inject) : value :=
  VMap (concat [
        [("domain", VStr (Inject_Domain i))];
        omit_string "format" (Inject_Format i);
        omit_string "header" (Inject_Header i);
        omit_string "scheme" (Inject_Scheme i);
        omit_string "username" (Inject_Username i)]).

Definition zero_apikey : APIKey := mkAPIKey "" false [].
Definition decode_apikey : decoder APIKey :=
  decode_struct ["name"; "proxyManaged"; "inject"] (λ k m,
    name ← decode_field "name" decode_string m (APIKey_Name k);
    managed ← decode_field "proxyManaged" decode_bool m (APIKey_ProxyManaged k);
    inject ← decode_field "inject" (decode_slice decode_inject zero_inject) m (APIKey_Inject k);
    Ok (mkAPIKey name managed inject)).
Definition encode_apikey (k : APIKey) : value :=
  VMap (concat [
        omit_list "inject" encode_inject (APIKey_Inject k);
        [("name", VStr (APIKey_Name k))];
        omit_bool "proxyManaged" (APIKey_ProxyManaged k)]).

Definition decode_token_endpoint : decoder TokenEndpoint :=
  decode_struct ["host"; "path"] (λ t m,
    host ← decode_field "host" decode_string m (TokenEndpoint_Host t);
    path ← decode_field "path" decode_string m (TokenEndpoint_Path t);
    Ok (mkTokenEndpoint host path)).
Definition encode_token_endpoint (t : TokenEndpoint) : value :=
  VMap (concat [
        [("host", VStr (TokenEndpoint_Host t))];
        omit_string "path" (TokenEndpoint_Path t)]).

Definition decode_sentinels : decoder Sentinels :=
  decode_struct ["accessToken"; "refreshToken"] (λ s m,
    access ← decode_field "accessToken" decode_string m (Sentinels_AccessToken s);
    refresh ← decode_field "refreshToken" decode_string m (Sentinels_RefreshToken s);
    Ok (mkSentinels access refresh)).
Definition encode_sentinels (s : Sentinels) : value :=
  VMap (concat [
        omit_string "accessToken" (Sentinels_AccessToken s);
        omit_string "refreshToken" (Sentinels_RefreshToken s)]).

Definition decode_credential_file : decoder CredentialFile :=
  decode_struct ["path"; "structure"; "format"] (λ f m,
    path ← decode_field "path" decode_string m (CredentialFile_Path f);
    structure ← decode_field "structure" decode_any_map m (CredentialFile_Structure f);
    format ← decode_field "format" decode_string m (CredentialFile_Format f);
    Ok (mkCredentialFile path structure format)).
Definition omit_any_map (name : string) (m : option (list (string * value))) : fields :=
  match m with
  | None | Some [] => []
  | Some kvs => [(name, VMap kvs)]
  end.
Definition encode_credential_file (f : CredentialFile) : value :=
  VMap (concat [
        omit_string "format" (CredentialFile_Format f);
        [("path", VStr (CredentialFile_Path f))];
        omit_any_map "structure" (CredentialFile_Structure f)]).

Definition decode_response_fields : decoder ResponseFields :=
  decode_struct ["accessToken"; "refreshToken"; "expiresIn"] (λ r m,
    access ← decode_field "accessToken" decode_string m (ResponseFields_AccessToken r);
    refresh ← decode_field "refreshToken" decode_string m (ResponseFields_RefreshToken r);
    expires ← decode_field "expiresIn" decode_string m (ResponseFields_ExpiresIn r);
    Ok (mkResponseFields access refresh expires)).
Definition encode_response_fields (r : ResponseFields) : value :=
  VMap (concat [
        omit_string "accessToken" (ResponseFields_AccessToken r);
        omit_string "expiresIn" (ResponseFields_ExpiresIn r);
        omit_string "refreshToken" (ResponseFields_RefreshToken r)]).

Definition decode_oauth : decoder OAuth :=
  decode_struct ["tokenEndpoint"; "resourceHosts"; "sentinels"; "credentialFile";
                 "responseFields"; "passthrough"] (λ o m,
    endpoint ← decode_field "tokenEndpoint"
      (decode_ptr decode_token_endpoint (mkTokenEndpoint "" "")) m (OAuth_TokenEndpoint o);
    hosts ← decode_field "resourceHosts" decode_strings m (OAuth_ResourceHosts o);
    sentinels ← decode_field "sentinels"
      (decode_ptr decode_sentinels (mkSentinels "" "")) m (OAuth_Sentinels o);
    file ← decode_field "credentialFile"
      (decode_ptr decode_credential_file (mkCredentialFile "" None "")) m (OAuth_CredentialFile o);
    response ← decode_field "responseFields"
      (decode_ptr decode_response_fields (mkResponseFields "" "" "")) m (OAuth_ResponseFields o);
    passthrough ← decode_field "passthrough" decode_bool m (OAuth_Passthrough o);
    Ok (mkOAuth endpoint hosts sentinels file response passthrough)).
Definition zero_oauth : OAuth := mkOAuth None [] None None None false.
Definition encode_oauth (o : OAuth) : value :=
  VMap (concat [
        omit_some "credentialFile" encode_credential_file (OAuth_CredentialFile o);
        omit_bool "passthrough" (OAuth_Passthrough o);
        omit_strings "resourceHosts" (OAuth_ResourceHosts o);
        omit_some "responseFields" encode_response_fields (OAuth_ResponseFields o);
        omit_some "sentinels" encode_sentinels (OAuth_Sentinels o);
        omit_some "tokenEndpoint" encode_token_endpoint (OAuth_TokenEndpoint o)]).

Definition zero_credential : Credential := mkCredential "" None None None.
Definition decode_credential : decoder Credential :=
  decode_struct ["service"; "phase"; "apiKey"; "oauth"] (λ c m,
    service ← decode_field "service" decode_string m (Credential_Service c);
    phase ← decode_field "phase" decode_phases m (Credential_Phase c);
    apikey ← decode_field "apiKey" (decode_ptr decode_apikey zero_apikey) m (Credential_APIKey c);
    oauth ← decode_field "oauth" (decode_ptr decode_oauth zero_oauth) m (Credential_OAuth c);
    Ok (mkCredential service phase apikey oauth)).
Definition encode_credential (c : Credential) : value :=
  VMap (concat [
        omit_some "apiKey" encode_apikey (Credential_APIKey c);
        omit_some "oauth" encode_oauth (Credential_OAuth c);
        [("phase", encode_phases (Credential_Phase c))];
        [("service", VStr (Credential_Service c))]]).

(** ** SSH agent, skills, storage, ports, devices, resources *)

Definition zero_ssh_agent : SSHAgent := mkSSHAgent None None None None.
Definition decode_ssh_agent : decoder SSHAgent :=
  decode_struct ["phase"; "unrestricted"; "sign"; "authenticate"] (λ a m,
    phase ← decode_field "phase" decode_phases m (SSHAgent_Phase a);
    unrestricted ← decode_field "unrestricted" (decode_ptr decode_bool false) m
      (SSHAgent_Unrestricted a);
    sign ← decode_field "sign" decode_list m (SSHAgent_Sign a);
    authenticate ← decode_field "authenticate" decode_list m (SSHAgent_Authenticate a);
    Ok (mkSSHAgent phase unrestricted sign authenticate)).
Definition encode_ssh_agent (a : SSHAgent) : value :=
  VMap (concat [
        omit_strings "authenticate" (elems (SSHAgent_Authenticate a));
        [("phase", encode_phases (SSHAgent_Phase a))];
        omit_strings "sign" (elems (SSHAgent_Sign a));
        omit_some "unrestricted" VBool (SSHAgent_Unrestricted a)]).

Definition decode_agent_skills : decoder AgentSkills :=
  decode_struct ["path"; "mode"] (λ s m,
    path ← decode_field "path" decode_string m (AgentSkills_Path s);
    mode ← decode_field "mode" decode_string m (AgentSkills_Mode s);
    Ok (mkAgentSkills path mode)).
Definition decode_agent_skill : decoder AgentSkill :=
  decode_struct ["path"; "name"] (λ s m,
    path ← decode_field "path" decode_string m (AgentSkill_Path s);
    name ← decode_field "name" decode_string m (AgentSkill_Name s);
    Ok (mkAgentSkill path name)).

Definition decode_volume : decoder Volume :=
  decode_struct ["path"; "size"; "tmpfs"; "mode"] (λ x m,
    path ← decode_field "path" decode_string m (Volume_Path x);
    size ← decode_field "size" decode_string m (Volume_Size x);
    tmpfs ← decode_field "tmpfs" decode_bool m (Volume_Tmpfs x);
    mode ← decode_field "mode" decode_string m (Volume_Mode x);
    Ok (mkVolume path size tmpfs mode)).

Definition decode_port : decoder Port :=
  decode_struct ["name"; "container"; "transport"] (λ p m,
    name ← decode_field "name" decode_string m (Port_Name p);
    container ← decode_field "container" decode_int m (Port_Container p);
    transport ← decode_field "transport" decode_string m (Port_Transport p);
    Ok (mkPort name container transport)).

Definition decode_usb : decoder USBDevice :=
  decode_struct ["vendorId"; "productId"; "class"] (λ u m,
    vendor ← decode_field "vendorId" decode_string m (USBDevice_VendorID u);
    product ← decode_field "productId" decode_string m (USBDevice_ProductID u);
    class ← decode_field "class" decode_string m (USBDevice_Class u);
    Ok (mkUSBDevice vendor product class)).

Definition decode_resources : decoder Resources :=
  decode_struct ["cpu"; "memory"; "gpu"] (λ r m,
    cpu ← decode_field "cpu" decode_number m (Resources_CPU r);
    memory ← decode_field "memory" decode_string m (Resources_Memory r);
    gpu ← decode_field "gpu" decode_string m (Resources_GPU r);
    Ok (mkResources cpu memory gpu)).

(** ** Sessions, lifecycle, agent context *)

Definition decode_agent_sessions : decoder AgentSessions :=
  decode_struct ["prompt"; "resume"; "continue"; "list"] (λ a m,
    prompt ← decode_field "prompt" decode_strings m (AgentSessions_Prompt a);
    resume ← decode_field "resume" decode_strings m (AgentSessions_Resume a);
    continue ← decode_field "continue" decode_strings m (AgentSessions_Continue a);
    list ← decode_field "list" decode_command m (Some (AgentSessions_List a));
    Ok (mkAgentSessions prompt resume continue (elems list))).

Definition decode_install_hook : decoder InstallHook :=
  decode_struct ["command"; "user"; "env"; "description"] (λ h m,
    command ← decode_field "command" decode_command m (InstallHook_Command h);
    user ← decode_field "user" decode_string m (InstallHook_User h);
    env ← decode_field "env" decode_strings m (InstallHook_Env h);
    description ← decode_field "description" decode_string m (InstallHook_Description h);
    Ok (mkInstallHook command user env description)).
Definition encode_install_hook (h : InstallHook) : value :=
  VMap (concat [
        [("command", encode_nil_strings (InstallHook_Command h))];
        omit_string "description" (InstallHook_Description h);
        omit_strings "env" (InstallHook_Env h);
        omit_string "user" (InstallHook_User h)]).

Definition decode_startup_hook : decoder StartupHook :=
  decode_struct ["command"; "user"; "background"; "env"; "description"] (λ h m,
    command ← decode_field "command" decode_command m (StartupHook_Command h);
    user ← decode_field "user" decode_string m (StartupHook_User h);
    background ← decode_field "background" decode_bool m (StartupHook_Background h);
    env ← decode_field "env" decode_strings m (StartupHook_Env h);
    description ← decode_field "description" decode_string m (StartupHook_Description h);
    Ok (mkStartupHook command user background env description)).
Definition encode_startup_hook (h : StartupHook) : value :=
  VMap (concat [
        omit_bool "background" (StartupHook_Background h);
        [("command", encode_nil_strings (StartupHook_Command h))];
        omit_string "description" (StartupHook_Description h);
        omit_strings "env" (StartupHook_Env h);
        omit_string "user" (StartupHook_User h)]).

Definition decode_file : decoder File :=
  decode_struct ["path"; "content"; "mode"; "overwrite"; "description"] (λ f m,
    path ← decode_field "path" decode_string m (File_Path f);
    content ← decode_field "content" decode_string m (File_Content f);
    mode ← decode_field "mode" decode_string m (File_Mode f);
    overwrite ← decode_field "overwrite" (decode_ptr decode_bool false) m (File_Overwrite f);
    description ← decode_field "description" decode_string m (File_Description f);
    Ok (mkFile path content mode overwrite description)).
Definition encode_file (f : File) : value :=
  VMap (concat [
        [("content", VStr (File_Content f))];
        omit_string "description" (File_Description f);
        omit_string "mode" (File_Mode f);
        omit_some "overwrite" VBool (File_Overwrite f);
        [("path", VStr (File_Path f))]]).

Definition zero_lifecycle : Lifecycle := mkLifecycle [] [] [] None.
Definition decode_lifecycle : decoder Lifecycle :=
  decode_struct ["install"; "startup"; "files"; "interactive"] (λ l m,
    install ← decode_field "install"
      (decode_slice decode_install_hook (mkInstallHook None "" [] "")) m (Lifecycle_Install l);
    startup ← decode_field "startup"
      (decode_slice decode_startup_hook (mkStartupHook None "" false [] "")) m
      (Lifecycle_Startup l);
    files ← decode_field "files"
      (decode_slice decode_file (mkFile "" "" "" None "")) m (Lifecycle_Files l);
    interactive ← decode_field "interactive" decode_list m (Lifecycle_Interactive l);
    Ok (mkLifecycle install startup files interactive)).
Definition encode_lifecycle (l : Lifecycle) : value :=
  VMap (concat [
        omit_list "files" encode_file (Lifecycle_Files l);
        omit_list "install" encode_install_hook (Lifecycle_Install l);
        omit_strings "interactive" (elems (Lifecycle_Interactive l));
        omit_list "startup" encode_startup_hook (Lifecycle_Startup l)]).

Definition zero_context : AgentContext := mkAgentContext "" "" "".
Definition decode_context : decoder AgentContext :=
  decode_struct ["filename"; "contentFile"; "content"] (λ c m,
    filename ← decode_field "filename" decode_string m (AgentContext_Filename c);
    contentFile ← decode_field "contentFile" decode_string m (AgentContext_ContentFile c);
    content ← decode_field "content" decode_string m (AgentContext_Content c);
    Ok (mkAgentContext filename contentFile content)).
Definition encode_context (c : AgentContext) : value :=
  VMap (concat [
        omit_string "content" (AgentContext_Content c);
        omit_string "contentFile" (AgentContext_ContentFile c);
        omit_string "filename" (AgentContext_Filename c)]).

(** ** Requests ([spec/capabilities.go]) *)

Inductive config_error :=
  | ConfigUnencodable (typ : string)
  | ConfigMalformed (typ : string) (cause : json_error)
  | GroupsUnselected.

(** A nil configuration is marshalled as [null]. *)
Definition config_value (c : Capability) : value :=
  match Config c with None => VNull | Some m => VMap m end.

Definition DecodeCapabilityConfig {A} (d : decoder A) (zero : A) (c : Capability) :
    result config_error A :=
  if negb (marshals (config_value c)) then Err (ConfigUnencodable (Type_ c))
  else map_err (ConfigMalformed (Type_ c)) (d zero (config_value c)).

(** [toConfigMap]: the encoding read back as an untyped map. *)
Definition toConfigMap (v : value) : option (list (string * value)) :=
  match v with VMap m => Some m | _ => None end.

Definition with_config (c : Capability) (config : option (list (string * value))) : Capability :=
  mkCapability (Group c) (Source c) (optionalSet c) (groupSet c) (Type_ c) (Name c)
    (Optional c) config (configSet c) (Description c).

Definition CapabilityWithConfig (c : Capability) (config : value) : Capability :=
  with_config c (toConfigMap config).

(** [spec/groups.go] [DeclaredCapabilities]: the requests of an item, a group's
    members in its place. *)
Fixpoint declared_item (c : Capability) : list Capability :=
  match Group c with
  | Some g => flat_map declared_item (Group_Capabilities g)
  | None => [c]
  end.
Definition DeclaredCapabilities (items : list Capability) : list Capability :=
  flat_map declared_item items.

Definition CapabilityTypes (cs : list Capability) : string :=
  join "," (sort_strings (dedupe id (map Type_ (DeclaredCapabilities cs)))).

Definition HasCapability (needs : list Capability) (typ : string) : bool :=
  existsb (λ n, bool_decide (Type_ n = typ)) needs.
Definition PrivilegedOf (needs : list Capability) : bool :=
  HasCapability needs CapabilityPrivileged.

(** The accessors are two loops: the first request of a type, and all of them. *)
Fixpoint first_of {A} (typ : string) (f : Capability → result config_error A)
    (needs : list Capability) : result config_error (option A) :=
  match needs with
  | [] => Ok None
  | n :: needs =>
      if bool_decide (Type_ n = typ) then a ← f n; Ok (Some a) else first_of typ f needs
  end.
Fixpoint all_of {A} (typ : string) (f : Capability → result config_error A)
    (needs : list Capability) : result config_error (list A) :=
  match needs with
  | [] => Ok []
  | n :: needs =>
      if bool_decide (Type_ n = typ)
      then a ← f n; r ← all_of typ f needs; Ok (a :: r)
      else all_of typ f needs
  end.

Definition NetworkPolicyOf (needs : list Capability) :
    result config_error (option PhasedNetwork) :=
  first_of CapabilityNetworkPolicy (DecodeCapabilityConfig decode_network zero_network) needs.

Definition hostEntries (hosts : list string) : list NetworkEntry :=
  map (λ h, mkNetworkEntry (Some [h]) None None) hosts.
Definition liftNetworkRules (r : option NetworkRules) : option NetworkRulesV2 :=
  match r with
  | None => None
  | Some r => Some (mkNetworkRulesV2 (hostEntries (Allow r)) (hostEntries (Deny r)))
  end.

Fixpoint NetworkPolicyV2Of (needs : list Capability) :
    result config_error (option PhasedNetworkV2) :=
  match needs with
  | [] => Ok None
  | n :: needs =>
      if bool_decide (Type_ n = CapabilityNetworkPolicyV2) then
        p ← DecodeCapabilityConfig decode_network_v2 zero_network_v2 n; Ok (Some p)
      else if bool_decide (Type_ n = CapabilityNetworkPolicy) then
        p ← DecodeCapabilityConfig decode_network zero_network n;
        Ok (Some (mkPhasedNetworkV2 (liftNetworkRules (Install p)) (liftNetworkRules (Runtime p))))
      else NetworkPolicyV2Of needs
  end.

Definition EntryMethods (e : NetworkEntry) : list string :=
  if bool_decide (elems (Methods e) = []) then [MethodAny] else elems (Methods e).
Definition EntryPaths (e : NetworkEntry) : list string :=
  if bool_decide (elems (Paths e) = []) then ["/**"] else elems (Paths e).

(** A decoded request with its entry's optionality and display metadata. *)
Record decoded (A : Type) := mkDecoded {
  request : A;
  isOptional : bool;
  label : string;
  explanation : string;
}.
Arguments mkDecoded {A} _ _ _ _.
Arguments request {A} _.
Arguments isOptional {A} _.
Arguments label {A} _.
Arguments explanation {A} _.

Definition decode_request {A} (d : decoder A) (zero : A) (n : Capability) :
    result config_error (decoded A) :=
  a ← DecodeCapabilityConfig d zero n; Ok (mkDecoded a (Optional n) (Name n) (Description n)).

(** [CredentialCapability] states the opposite of the optionality. *)
Record CredentialCapability := mkCredentialCapability {
  CredentialOf : Credential;
  Credential_Required : bool;
  Credential_Name : string;
  Credential_Description : string;
}.
Definition CredentialsOf (needs : list Capability) :
    result config_error (list CredentialCapability) :=
  all_of CapabilityCredential (λ n,
    c ← DecodeCapabilityConfig decode_credential zero_credential n;
    Ok (mkCredentialCapability c (negb (Optional n)) (Name n) (Description n))) needs.
Definition CredentialsOfPhase (needs : list Capability) (phase : string) :
    result config_error (list CredentialCapability) :=
  all ← CredentialsOf needs;
  Ok (List.filter (λ c, bool_decide (phase ∈ elems (Credential_Phase (CredentialOf c)))) all).

Definition SSHAgentsOf (needs : list Capability) : result config_error (list (decoded SSHAgent)) :=
  all_of CapabilitySSHAgent (decode_request decode_ssh_agent zero_ssh_agent) needs.
Definition SSHAgentsOfPhase (needs : list Capability) (phase : string) :
    result config_error (list (decoded SSHAgent)) :=
  all ← SSHAgentsOf needs;
  Ok (List.filter (λ a, bool_decide (phase ∈ elems (SSHAgent_Phase (request a)))) all).

(** Loops that refuse an unselected group in their way. *)
Fixpoint selected_of {A} (typ : string) (f : Capability → result config_error A)
    (needs : list Capability) : result config_error (list A) :=
  match needs with
  | [] => Ok []
  | n :: needs =>
      match Group n with
      | Some _ => Err GroupsUnselected
      | None =>
          if bool_decide (Type_ n = typ)
          then a ← f n; r ← selected_of typ f needs; Ok (a :: r)
          else selected_of typ f needs
      end
  end.
Definition AgentSkillsOf (needs : list Capability) :
    result config_error (list (decoded AgentSkills)) :=
  selected_of CapabilityAgentSkills
    (decode_request decode_agent_skills (mkAgentSkills "" "")) needs.
Definition AgentContextsOf (needs : list Capability) : result config_error (list AgentContext) :=
  selected_of CapabilityAgentContext (DecodeCapabilityConfig decode_context zero_context) needs.

Definition VolumesOf (needs : list Capability) : result config_error (list Volume) :=
  all_of CapabilityVolume (DecodeCapabilityConfig decode_volume (mkVolume "" "" false "")) needs.
Definition PortsOf (needs : list Capability) : result config_error (list Port) :=
  all_of CapabilityPort (DecodeCapabilityConfig decode_port (mkPort "" 0 "")) needs.
Definition USBDevicesOf (needs : list Capability) :
    result config_error (list (decoded USBDevice)) :=
  all_of CapabilityUSBDevice (decode_request decode_usb (mkUSBDevice "" "" "")) needs.
Definition ResourcesOf (needs : list Capability) : result config_error (option Resources) :=
  first_of CapabilityResources
    (DecodeCapabilityConfig decode_resources (mkResources (NInt 0) "" "")) needs.
Definition LifecycleOf (needs : list Capability) : result config_error (option Lifecycle) :=
  first_of CapabilityLifecycle (DecodeCapabilityConfig decode_lifecycle zero_lifecycle) needs.
Definition AgentContextOf (needs : list Capability) : result config_error (option AgentContext) :=
  first_of CapabilityAgentContext (DecodeCapabilityConfig decode_context zero_context) needs.
Definition AgentSessionsOf (needs : list Capability) :
    result config_error (option AgentSessions) :=
  first_of CapabilityAgentSessions
    (DecodeCapabilityConfig decode_agent_sessions (mkAgentSessions [] [] [] [])) needs.
