(* ===== verification/ConfigFacts.v ===== *)
(** The JSON codecs are lossless: what the merge encodes into an entry, every
    reader decodes into the value it came from. *)
From stdpp Require Import options.
From S2P Require Import Prelude GoStrings Json Types Config.

(** ** The interface a codec promises *)

Class Codec (A : Type) := {
  codec_decode : decoder A;
  codec_encode : A → value;
  codec_zero : A;
  (** the values the struct's encoding can tell apart *)
  codec_valid : A → Prop;
}.

Class LawfulCodec (A : Type) `{Codec A} := {
  codec_map a : ∃ m, codec_encode a = VMap m;
  codec_marshals a : codec_valid a → marshals (codec_encode a) = true;
  codec_roundtrip a : codec_valid a → codec_decode codec_zero (codec_encode a) = Ok a;
}.

(** A client of the interface: rewriting an entry's configuration and reading
    it back. *)
Lemma CapabilityWithConfig_decode `{LawfulCodec A} c (a : A) :
  codec_valid a →
  DecodeCapabilityConfig codec_decode codec_zero (CapabilityWithConfig c (codec_encode a)) = Ok a.
Proof.
  intros Ha. unfold DecodeCapabilityConfig, CapabilityWithConfig, config_value. cbn.
  pose proof (codec_marshals a Ha) as Hm. pose proof (codec_roundtrip a Ha) as Hr.
  destruct (codec_map a) as [m E]. rewrite E in *. cbn in *. by rewrite Hm, Hr.
Qed.

(** ** Fields *)

Lemma marshals_strings l : marshals (encode_strings l) = true.
Proof. cbn. by induction l. Qed.

Lemma marshals_nil_strings l : marshals (encode_nil_strings l) = true.
Proof. destruct l; [apply marshals_strings|done]. Qed.

Lemma marshals_phases p : marshals (encode_phases p) = true.
Proof.
  destruct p as [[|s [|]]|]; try done. apply (marshals_nil_strings (Some (s :: _ :: _))).
Qed.

Definition fields_marshal (m : fields) : bool := forallb (λ kv, marshals kv.2) m.

Lemma fields_marshal_app m m' : fields_marshal (m ++ m') = fields_marshal m && fields_marshal m'.
Proof. apply forallb_app. Qed.

Lemma marshals_map m : marshals (VMap m) = fields_marshal m.
Proof. done. Qed.

Lemma omit_string_marshals name s : fields_marshal (omit_string name s) = true.
Proof. unfold omit_string. by case_bool_decide. Qed.
Lemma omit_bool_marshals name b : fields_marshal (omit_bool name b) = true.
Proof. by destruct b. Qed.
Lemma omit_strings_marshals name l : fields_marshal (omit_strings name l) = true.
Proof.
  unfold omit_strings. case_bool_decide; [done|]. cbn -[marshals]. by rewrite marshals_strings.
Qed.
Lemma omit_some_marshals {A} name (enc : A → value) o :
  (∀ a, o = Some a → marshals (enc a) = true) → fields_marshal (omit_some name enc o) = true.
Proof. intros H. destruct o as [a|]; [|done]. cbn. by rewrite H. Qed.
Lemma omit_list_marshals {A} name (enc : A → value) l :
  Forall (λ a, marshals (enc a) = true) l → fields_marshal (omit_list name enc l) = true.
Proof.
  intros H. destruct l as [|a l]; [done|]. unfold omit_list.
  cbn [fields_marshal forallb snd marshals]. rewrite andb_true_r.
  induction H as [|b l' Hb _ IH]; [done|]. cbn [map forallb]. by rewrite Hb.
Qed.

Lemma decode_phases_encode ph : ph ≠ None → decode_phases None (encode_phases ph) = Ok ph.
Proof.
  intros H. destruct ph as [[|s [|t l]]|]; try done.
  pose proof (decode_nil_strings_encode (Some (s :: t :: l))) as E. exact E.
Qed.

Lemma decode_command_encode c : decode_command None (encode_nil_strings c) = Ok c.
Proof. destruct c as [l|]; [|done]. apply (decode_nil_strings_encode (Some l)). Qed.

Lemma omit_nil_strings_ok name l :
  l ≠ Some [] → field_ok name decode_list None l (omit_strings name (elems l)).
Proof.
  intros H. destruct l as [[|s l]|]; [done| |by left]. right. eexists. split; [done|].
  apply (decode_nil_strings_encode (Some (s :: l))).
Qed.

(** A map written in key order reads back as itself. *)
Definition key_ordered (m : list (string * value)) : Prop :=
  StronglySorted (λ a b, str_compare b.1 a.1 = Gt) m.

Lemma map_put_last kv m :
  Forall (λ a, str_compare kv.1 a.1 = Gt) m → map_put kv m = m ++ [kv].
Proof. induction 1 as [|a m Ha _ IH]; [done|]. cbn. by rewrite Ha, IH. Qed.

Lemma map_put_ordered acc m :
  key_ordered (acc ++ m) → foldl (λ acc kv, map_put kv acc) acc m = acc ++ m.
Proof.
  revert acc. induction m as [|kv m IH]; intros acc H; [by rewrite app_nil_r|]. cbn.
  rewrite map_put_last.
  - rewrite IH; [by rewrite <-app_assoc|]. by rewrite <-app_assoc.
  - apply Forall_forall. intros a Ha.
    eapply (StronglySorted_app_1_elem_of _ acc (kv :: m) a kv H); [done|by left].
Qed.

#[export] Hint Resolve omit_string_marshals omit_bool_marshals omit_strings_marshals
  marshals_strings marshals_nil_strings marshals_phases : kit.

(** ** The codecs *)

Lemma fields_marshal_concat fss :
  fields_marshal (concat fss) = forallb fields_marshal fss.
Proof. induction fss as [|fs fss IH]; [done|]. cbn [concat]. by rewrite fields_marshal_app, IH. Qed.

Lemma fields_marshal_one name v : fields_marshal [(name, v)] = marshals v.
Proof. apply andb_true_r. Qed.

(** A struct marshals when every field does. *)
Ltac solve_marshals enc :=
  unfold enc; cbn -[concat marshals]; change (marshals (VMap ?m)) with (fields_marshal m);
  rewrite fields_marshal_concat; cbn [forallb];
  rewrite ?fields_marshal_one; rewrite ?andb_true_iff;
  repeat split; eauto with kit.

Lemma inject_ok i : json_ok decode_inject encode_inject zero_inject i.
Proof. destruct i. read_fields decode_inject encode_inject. Qed.

Lemma inject_marshals i : marshals (encode_inject i) = true.
Proof. destruct i. solve_marshals encode_inject. Qed.

Lemma apikey_ok k : json_ok decode_apikey encode_apikey zero_apikey k.
Proof.
  destruct k as [n m l].
  pose proof (omit_list_ok "inject" decode_inject zero_inject encode_inject l
    (Forall_true _ _ inject_ok)).
  read_fields decode_apikey encode_apikey.
Qed.

Lemma token_endpoint_ok t :
  json_ok decode_token_endpoint encode_token_endpoint (mkTokenEndpoint "" "") t.
Proof. destruct t. read_fields decode_token_endpoint encode_token_endpoint. Qed.

Lemma sentinels_ok s : json_ok decode_sentinels encode_sentinels (mkSentinels "" "") s.
Proof. destruct s. read_fields decode_sentinels encode_sentinels. Qed.

Lemma response_fields_ok r :
  json_ok decode_response_fields encode_response_fields (mkResponseFields "" "" "") r.
Proof. destruct r. read_fields decode_response_fields encode_response_fields. Qed.

(** A structure is a map in key order whose values [json.Marshal] accepts. *)
Definition valid_structure (m : option (list (string * value))) : Prop :=
  m ≠ Some [] ∧ key_ordered (default [] m) ∧ fields_marshal (default [] m) = true.

Lemma omit_any_map_ok name m :
  valid_structure m → field_ok name decode_any_map None m (omit_any_map name m).
Proof.
  intros (Hn & Ho & _). destruct m as [[|kv m]|]; [done| |by left]. right.
  eexists. split; [done|]. pose proof (map_put_ordered [] (kv :: m) Ho) as E.
  unfold decode_any_map. by rewrite <-E at 2.
Qed.

Lemma omit_any_map_key name m : only_key name (omit_any_map name m) = true.
Proof. destruct m as [[|kv m]|]; [done|apply one_key|done]. Qed.
#[local] Hint Resolve omit_any_map_key : codec.

Lemma credential_file_ok f :
  valid_structure (CredentialFile_Structure f) →
  json_ok decode_credential_file encode_credential_file (mkCredentialFile "" None "") f.
Proof.
  destruct f as [p s fmt]. cbn. intros Hs. pose proof (omit_any_map_ok "structure" s Hs).
  read_fields decode_credential_file encode_credential_file.
Qed.

Lemma token_endpoint_marshals t : marshals (encode_token_endpoint t) = true.
Proof. destruct t. solve_marshals encode_token_endpoint. Qed.
Lemma sentinels_marshals s : marshals (encode_sentinels s) = true.
Proof. destruct s. solve_marshals encode_sentinels. Qed.
Lemma response_fields_marshals r : marshals (encode_response_fields r) = true.
Proof. destruct r. solve_marshals encode_response_fields. Qed.

Lemma credential_file_marshals f :
  valid_structure (CredentialFile_Structure f) → marshals (encode_credential_file f) = true.
Proof.
  destruct f as [p s fmt]. intros (_ & _ & Hs). cbn in Hs.
  assert (fields_marshal (omit_any_map "structure" s) = true) as H.
  { destruct s as [[|kv m]|]; try done. unfold omit_any_map. by rewrite fields_marshal_one. }
  solve_marshals encode_credential_file.
Qed.

Lemma apikey_marshals k : marshals (encode_apikey k) = true.
Proof.
  destruct k as [n m l].
  pose proof (omit_list_marshals "inject" encode_inject l (Forall_true _ _ inject_marshals)).
  solve_marshals encode_apikey.
Qed.

Definition valid_oauth (o : OAuth) : Prop :=
  ∀ f, OAuth_CredentialFile o = Some f → valid_structure (CredentialFile_Structure f).

(** An optional struct: its encoding is a map, never [null]. *)
Lemma omit_some_map {A} name (d : decoder A) zero enc o :
  (∀ a, o = Some a → json_ok d enc zero a ∧ ∃ m, enc a = VMap m) →
  field_ok name (decode_ptr d zero) None o (omit_some name enc o).
Proof.
  intros H. apply omit_some_ok. intros a Ha. destruct (H a Ha) as [? [m E]].
  split; [by rewrite E|done].
Qed.

Lemma oauth_ok o : valid_oauth o → json_ok decode_oauth encode_oauth zero_oauth o.
Proof.
  destruct o as [t h s f r p]. unfold valid_oauth. cbn. intros Hf.
  assert (field_ok "credentialFile" (decode_ptr decode_credential_file (mkCredentialFile "" None ""))
    None f (omit_some "credentialFile" encode_credential_file f)).
  { apply omit_some_map. intros a Ha. split; [by apply credential_file_ok, Hf|]. by eexists. }
  assert (field_ok "responseFields" (decode_ptr decode_response_fields (mkResponseFields "" "" ""))
    None r (omit_some "responseFields" encode_response_fields r)).
  { apply omit_some_map. intros a Ha. split; [apply response_fields_ok|]. by eexists. }
  assert (field_ok "sentinels" (decode_ptr decode_sentinels (mkSentinels "" ""))
    None s (omit_some "sentinels" encode_sentinels s)).
  { apply omit_some_map. intros a Ha. split; [apply sentinels_ok|]. by eexists. }
  assert (field_ok "tokenEndpoint" (decode_ptr decode_token_endpoint (mkTokenEndpoint "" ""))
    None t (omit_some "tokenEndpoint" encode_token_endpoint t)).
  { apply omit_some_map. intros a Ha. split; [apply token_endpoint_ok|]. by eexists. }
  read_fields decode_oauth encode_oauth.
Qed.

#[local] Hint Resolve token_endpoint_marshals sentinels_marshals response_fields_marshals
  credential_file_marshals apikey_marshals omit_some_marshals : kit.

Lemma oauth_marshals o : valid_oauth o → marshals (encode_oauth o) = true.
Proof. destruct o. unfold valid_oauth. intros H. cbn in H. solve_marshals encode_oauth. Qed.

Definition valid_credential (c : Credential) : Prop :=
  Credential_Phase c ≠ None ∧ ∀ o, Credential_OAuth c = Some o → valid_oauth o.

#[export] Instance credential_codec : Codec Credential :=
  { codec_decode := decode_credential; codec_encode := encode_credential;
    codec_zero := zero_credential; codec_valid := valid_credential }.

Lemma credential_ok c :
  valid_credential c → json_ok decode_credential encode_credential zero_credential c.
Proof.
  destruct c as [s ph k o]. intros [Hp Ho]. cbn in *.
  assert (field_ok "phase" decode_phases None ph [("phase", encode_phases ph)])
    by by apply required_ok, decode_phases_encode.
  assert (field_ok "apiKey" (decode_ptr decode_apikey zero_apikey)
    None k (omit_some "apiKey" encode_apikey k)).
  { apply omit_some_map. intros a Ha. split; [apply apikey_ok|]. by eexists. }
  assert (field_ok "oauth" (decode_ptr decode_oauth zero_oauth)
    None o (omit_some "oauth" encode_oauth o)).
  { apply omit_some_map. intros a Ha. split; [by apply oauth_ok, Ho|]. by eexists. }
  read_fields decode_credential encode_credential.
Qed.

#[local] Hint Resolve oauth_marshals : kit.

#[export] Instance credential_lawful : LawfulCodec Credential.
Proof.
  split; [by eexists| |apply credential_ok].
  intros [s ph k o] [_ Ho]. cbn [codec_encode credential_codec Credential_OAuth] in *.
  solve_marshals encode_credential.
Qed.

Definition valid_ssh_agent (a : SSHAgent) : Prop :=
  SSHAgent_Phase a ≠ None ∧ SSHAgent_Sign a ≠ Some [] ∧ SSHAgent_Authenticate a ≠ Some [].

#[export] Instance ssh_agent_codec : Codec SSHAgent :=
  { codec_decode := decode_ssh_agent; codec_encode := encode_ssh_agent;
    codec_zero := zero_ssh_agent; codec_valid := valid_ssh_agent }.

Lemma bool_ptr_ok name b : field_ok name (decode_ptr decode_bool false) None b
  (omit_some name VBool b).
Proof. apply omit_some_ok. intros a _. by split. Qed.
#[local] Hint Resolve bool_ptr_ok : codec.

Lemma bool_some_marshals name b : fields_marshal (omit_some name VBool b) = true.
Proof. by destruct b. Qed.
#[local] Hint Resolve bool_some_marshals : kit.

#[export] Instance ssh_agent_lawful : LawfulCodec SSHAgent.
Proof.
  split; [by eexists| |]; intros [p u s a] (Hp & Hs & Ha);
    cbn [codec_decode codec_encode codec_zero ssh_agent_codec SSHAgent_Phase SSHAgent_Sign
         SSHAgent_Authenticate] in *; [solve_marshals encode_ssh_agent|].
  assert (field_ok "phase" decode_phases None p [("phase", encode_phases p)])
    by by apply required_ok, decode_phases_encode.
  pose proof (omit_nil_strings_ok "sign" s Hs).
  pose proof (omit_nil_strings_ok "authenticate" a Ha).
  read_fields decode_ssh_agent encode_ssh_agent.
Qed.

Lemma install_hook_ok h :
  json_ok decode_install_hook encode_install_hook (mkInstallHook None "" [] "") h.
Proof.
  destruct h as [c u e d].
  assert (field_ok "command" decode_command None c [("command", encode_nil_strings c)])
    by apply required_ok, decode_command_encode.
  read_fields decode_install_hook encode_install_hook.
Qed.

Lemma startup_hook_ok h :
  json_ok decode_startup_hook encode_startup_hook (mkStartupHook None "" false [] "") h.
Proof.
  destruct h as [c u b e d].
  assert (field_ok "command" decode_command None c [("command", encode_nil_strings c)])
    by apply required_ok, decode_command_encode.
  read_fields decode_startup_hook encode_startup_hook.
Qed.

Lemma file_ok f : json_ok decode_file encode_file (mkFile "" "" "" None "") f.
Proof. destruct f. read_fields decode_file encode_file. Qed.

Lemma install_hook_marshals h : marshals (encode_install_hook h) = true.
Proof. destruct h. solve_marshals encode_install_hook. Qed.
Lemma startup_hook_marshals h : marshals (encode_startup_hook h) = true.
Proof. destruct h. solve_marshals encode_startup_hook. Qed.
Lemma file_marshals f : marshals (encode_file f) = true.
Proof. destruct f. solve_marshals encode_file. Qed.

Definition valid_lifecycle (l : Lifecycle) : Prop := Lifecycle_Interactive l ≠ Some [].

#[export] Instance lifecycle_codec : Codec Lifecycle :=
  { codec_decode := decode_lifecycle; codec_encode := encode_lifecycle;
    codec_zero := zero_lifecycle; codec_valid := valid_lifecycle }.

#[export] Instance lifecycle_lawful : LawfulCodec Lifecycle.
Proof.
  split; [by eexists| |]; intros [i s f x] Hx;
    unfold valid_lifecycle in *;
    cbn [codec_decode codec_encode codec_zero codec_valid lifecycle_codec Lifecycle_Interactive] in *.
  - pose proof (omit_list_marshals "install" _ i (Forall_true _ _ install_hook_marshals)).
    pose proof (omit_list_marshals "startup" _ s (Forall_true _ _ startup_hook_marshals)).
    pose proof (omit_list_marshals "files" _ f (Forall_true _ _ file_marshals)).
    solve_marshals encode_lifecycle.
  - pose proof (omit_list_ok "install" _ _ _ i (Forall_true _ _ install_hook_ok)).
    pose proof (omit_list_ok "startup" _ _ _ s (Forall_true _ _ startup_hook_ok)).
    pose proof (omit_list_ok "files" _ _ _ f (Forall_true _ _ file_ok)).
    pose proof (omit_nil_strings_ok "interactive" x Hx).
    read_fields decode_lifecycle encode_lifecycle.
Qed.

#[export] Instance context_codec : Codec AgentContext :=
  { codec_decode := decode_context; codec_encode := encode_context;
    codec_zero := zero_context; codec_valid := λ _, True }.

#[export] Instance context_lawful : LawfulCodec AgentContext.
Proof.
  split; [by eexists| |]; intros [f p c] _; cbn [codec_decode codec_encode codec_zero context_codec].
  - solve_marshals encode_context.
  - read_fields decode_context encode_context.
Qed.

#[export] Instance network_codec : Codec PhasedNetwork :=
  { codec_decode := decode_network; codec_encode := encode_network;
    codec_zero := zero_network; codec_valid := λ _, True }.

Lemma rules_ok r : json_ok decode_rules encode_rules zero_rules r.
Proof. destruct r. read_fields decode_rules encode_rules. Qed.
Lemma rules_marshals r : marshals (encode_rules r) = true.
Proof. destruct r. solve_marshals encode_rules. Qed.
Lemma rules_field_ok name r :
  field_ok name (decode_ptr decode_rules zero_rules) None r (omit_some name encode_rules r).
Proof. apply omit_some_map. intros a _. split; [apply rules_ok|by eexists]. Qed.
#[local] Hint Resolve rules_field_ok : codec.
#[local] Hint Resolve rules_marshals : kit.

#[export] Instance network_lawful : LawfulCodec PhasedNetwork.
Proof.
  split; [by eexists| |]; intros [i r] _; cbn [codec_decode codec_encode codec_zero network_codec].
  - solve_marshals encode_network.
  - read_fields decode_network encode_network.
Qed.

(** ** Version 2 network policies, whose encoder can refuse *)

Definition no_nulls (m : fields) : bool := forallb (λ kv, negb (bool_decide (kv.2 = VNull))) m.

Lemma null_as_empty_no_nulls name m l : no_nulls m = true → null_as_empty name m l = l.
Proof.
  intros H. unfold null_as_empty, stated_null.
  induction m as [|kv m IH]; [done|]. cbn in *. apply andb_true_iff in H as [Hv H].
  destruct (bool_decide (kv.2 = VNull)); [done|]. rewrite andb_false_r. by apply IH.
Qed.

Lemma omit_strings_no_nulls name l : no_nulls (omit_strings name l) = true.
Proof. unfold omit_strings. by case_bool_decide. Qed.

Lemma entry_object_no_nulls h m p : no_nulls (concat [[("hosts", encode_nil_strings (Some h))];
  omit_strings "methods" m; omit_strings "paths" p]) = true.
Proof.
  unfold no_nulls. cbn [concat app]. rewrite app_nil_r. cbn [forallb snd].
  rewrite forallb_app. by rewrite !omit_strings_no_nulls.
Qed.

Lemma entry_object_ok h m p :
  m ≠ Some [] → p ≠ Some [] →
  json_ok decode_entry_object encode_entry_object zero_entry (mkNetworkEntry (Some h) m p).
Proof.
  intros Hm Hp.
  assert (field_ok "hosts" decode_list None (Some h) [("hosts", encode_nil_strings (Some h))])
    by apply required_ok, decode_nil_strings_encode.
  pose proof (omit_nil_strings_ok "methods" m Hm). pose proof (omit_nil_strings_ok "paths" p Hp).
  read_fields decode_entry_object encode_entry_object.
  by rewrite !null_as_empty_no_nulls by apply entry_object_no_nulls.
Qed.

Lemma encode_entry_ok e v :
  encode_entry e = Ok v → Hosts e ≠ None →
  decode_entry zero_entry v = Ok e ∧ marshals v = true.
Proof.
  unfold encode_entry, empty_stated. destruct e as [h m p]. cbn [Hosts Methods Paths].
  repeat case_bool_decide; try done. intros E Hh. destruct h as [h|]; [|done].
  assert (json_ok decode_entry_object encode_entry_object zero_entry (mkNetworkEntry (Some h) m p))
    as Ho by by apply entry_object_ok.
  assert (marshals (encode_entry_object (mkNetworkEntry (Some h) m p)) = true)
    by solve_marshals encode_entry_object.
  assert (v = encode_entry_object (mkNetworkEntry (Some h) m p) ∨
          v = VStr (hd "" h) ∧ h = [hd "" h] ∧ m = None ∧ p = None) as [->|(-> & Eh & -> & ->)].
  { unfold NetworkEntry_Bounded in E. cbn [Hosts Methods Paths] in E.
    destruct m as [[|? ?]|], p as [[|? ?]|], h as [|? [|? ?]]; cbn in E;
      try done; injection E as <-; auto. }
  - done.
  - by rewrite Eh.
Qed.

Lemma mapM_Ok_inv {A B} (f : A → result json_error B) l vs :
  mapM f l = Ok vs → Forall2 (λ a v, f a = Ok v) l vs.
Proof.
  revert vs. induction l as [|a l IH]; intros vs; cbn; [by intros [= <-]|].
  destruct (f a) eqn:E; [|done]. cbn. destruct (mapM f l) eqn:E'; [|done]. cbn.
  intros [= <-]. constructor; auto.
Qed.

Definition valid_entries (l : list NetworkEntry) : Prop := Forall (λ e, Hosts e ≠ None) l.
Definition valid_rules_v2 (r : NetworkRulesV2) : Prop :=
  valid_entries (AllowV2 r) ∧ valid_entries (DenyV2 r).
Definition valid_phase_v2 (r : option NetworkRulesV2) : Prop := ∀ x, r = Some x → valid_rules_v2 x.
Definition valid_network_v2 (p : PhasedNetworkV2) : Prop :=
  valid_phase_v2 (InstallV2 p) ∧ valid_phase_v2 (RuntimeV2 p).

Lemma encode_entries_ok name l fs :
  encode_entries name l = Ok fs → valid_entries l →
  field_ok name (decode_slice decode_entry zero_entry) [] l fs ∧ fields_marshal fs = true.
Proof.
  intros E Hl. destruct l as [|e l]; [injection E as <-; split; [by left|done]|].
  unfold encode_entries in E. destruct (mapM encode_entry (e :: l)) as [vs|] eqn:Em; [|done].
  injection E as <-. apply mapM_Ok_inv in Em. clear -Em Hl.
  assert (decode_elems decode_entry zero_entry [] vs = Ok (e :: l) ∧
          forallb marshals vs = true) as [Ed Ev].
  { induction Em as [|x v l' vs Hx _ IH]; [done|]. inversion_clear Hl.
    destruct IH as [IH1 IH2]; [done|]. destruct (encode_entry_ok x v) as [Hd Hm]; [done..|].
    cbn. rewrite Hd, Hm. cbn. by rewrite IH1. }
  split; [right; by eexists|]. rewrite fields_marshal_one. exact Ev.
Qed.

Lemma encode_rules_v2_ok r v :
  encode_rules_v2 r = Ok v → valid_rules_v2 r →
  json_ok decode_rules_v2 (λ _, v) zero_rules_v2 r ∧ marshals v = true ∧ v ≠ VNull.
Proof.
  destruct r as [a d]. unfold encode_rules_v2, valid_rules_v2. cbn [AllowV2 DenyV2].
  destruct (encode_entries "allow" a) as [fa|] eqn:Ea; [|done].
  destruct (encode_entries "deny" d) as [fd|] eqn:Ed; [|done].
  intros [= <-] [Ha Hd]. apply encode_entries_ok in Ea as [? ?]; [|done].
  apply encode_entries_ok in Ed as [? ?]; [|done].
  change (fa ++ fd ++ []) with (concat [fa; fd]).
  split; [unfold json_ok; read_map decode_rules_v2|]. split; [|done].
  rewrite marshals_map, fields_marshal_concat. cbn [forallb].
  by repeat (apply andb_true_iff; split).
Qed.

Lemma encode_phase_v2_ok name r fs :
  encode_phase_v2 name r = Ok fs → valid_phase_v2 r →
  field_ok name (decode_ptr decode_rules_v2 zero_rules_v2) None r fs ∧ fields_marshal fs = true.
Proof.
  intros E Hr. destruct r as [r|]; [|injection E as <-; split; [by left|done]].
  unfold encode_phase_v2 in E. destruct (encode_rules_v2 r) as [v|] eqn:Ev; [|done].
  injection E as <-. apply encode_rules_v2_ok in Ev as (Hd & Hm & Hn); [|by apply Hr].
  split; [|by rewrite fields_marshal_one].
  exact (omit_some_ok name decode_rules_v2 zero_rules_v2 (λ _, v) (Some r)
           ltac:(intros a [= <-]; by split)).
Qed.

Lemma encode_network_v2_ok p v :
  encode_network_v2 p = Ok v → valid_network_v2 p →
  decode_network_v2 zero_network_v2 v = Ok p ∧ marshals v = true ∧ ∃ m, v = VMap m.
Proof.
  destruct p as [i r]. unfold encode_network_v2, valid_network_v2. cbn [InstallV2 RuntimeV2].
  destruct (encode_phase_v2 "install" i) as [fi|] eqn:Ei; [|done].
  destruct (encode_phase_v2 "runtime" r) as [fr|] eqn:Er; [|done].
  intros [= <-] [Hi Hr]. apply encode_phase_v2_ok in Ei as [? ?]; [|done].
  apply encode_phase_v2_ok in Er as [? ?]; [|done].
  change (fi ++ fr ++ []) with (concat [fi; fr]).
  split; [read_map decode_network_v2|]. split; [|by eexists].
  rewrite marshals_map, fields_marshal_concat. cbn [forallb].
  by repeat (apply andb_true_iff; split).
Qed.

(** ** Properties *)

(** Replacing an entry's configuration by the encoding of a typed one loses
    nothing: every accessor then decodes exactly that value — for network
    policies of both versions, credentials, SSH agent requests, lifecycle
    declarations and agent contexts whose lists are stated as the schemas
    demand. *)
Theorem config_roundtrip c net netv2 v cred ssh life ctx :
  encode_network_v2 netv2 = Ok v → valid_network_v2 netv2 →
  valid_credential cred → valid_ssh_agent ssh → valid_lifecycle life →
  DecodeCapabilityConfig decode_network zero_network
    (CapabilityWithConfig c (encode_network net)) = Ok net ∧
  DecodeCapabilityConfig decode_network_v2 zero_network_v2 (CapabilityWithConfig c v) = Ok netv2 ∧
  DecodeCapabilityConfig decode_credential zero_credential
    (CapabilityWithConfig c (encode_credential cred)) = Ok cred ∧
  DecodeCapabilityConfig decode_ssh_agent zero_ssh_agent
    (CapabilityWithConfig c (encode_ssh_agent ssh)) = Ok ssh ∧
  DecodeCapabilityConfig decode_lifecycle zero_lifecycle
    (CapabilityWithConfig c (encode_lifecycle life)) = Ok life ∧
  DecodeCapabilityConfig decode_context zero_context
    (CapabilityWithConfig c (encode_context ctx)) = Ok ctx.
Proof.
  intros Hv Hn Hc Hs Hl. split; [exact (CapabilityWithConfig_decode c net I)|].
  split.
  { destruct (encode_network_v2_ok netv2 v Hv Hn) as (Hd & Hm & m & ->).
    unfold DecodeCapabilityConfig.
    change (config_value (CapabilityWithConfig c (VMap m))) with (VMap m).
    by rewrite Hm, Hd. }
  split; [exact (CapabilityWithConfig_decode c cred Hc)|].
  split; [exact (CapabilityWithConfig_decode c ssh Hs)|].
  split; [exact (CapabilityWithConfig_decode c life Hl)|].
  exact (CapabilityWithConfig_decode c ctx I).
Qed.

Lemma config_roundtrip_witness :
  let entry := mkNetworkEntry (Some ["api.example.com"]) (Some ["GET"]) None in
  let net := mkPhasedNetworkV2 None (Some (mkNetworkRulesV2 [entry] [])) in
  let cred := mkCredential "github" (Some ["runtime"]) (Some (mkAPIKey "TOKEN" true [])) None in
  let ssh := mkSSHAgent (Some ["install"; "runtime"]) (Some false) (Some ["git"]) None in
  let c := capability_of CapabilityNetworkPolicyV2 None in
  ∃ v, encode_network_v2 net = Ok v ∧
    DecodeCapabilityConfig decode_network_v2 zero_network_v2 (CapabilityWithConfig c v) = Ok net.
Proof.
  intros entry net cred ssh c. eexists. split; [by vm_compute|].
  refine (proj1 (proj2 (config_roundtrip c zero_network net _ cred ssh zero_lifecycle
    zero_context _ _ _ _ _))).
  - by vm_compute.
  - split; [done|]. intros x [= <-]. split; [by apply Forall_singleton|by constructor].
  - split; [done|]. by intros o.
  - by split.
  - done.
Defined.
