(* ===== verification/Resolve.v ===== *)
(** [resolve/resolve.go]: validating a closed set of kits and deriving its
    composition order. *)
From stdpp Require Import options.
From S2P Require Import Prelude GoStrings Version Json Types Config.

(** ** Kits in a set *)

(** A [*Unit]: [uid] is the pointer, by which the code compares units and keys
    its maps. *)
Record Unit := mkUnit {
  uid : nat;
  Reference : string;
  Digest : string;
  Image : string;
  Unit_Descriptor : option Descriptor;
  Unit_Args : gmap string string;
  Unit_Env : option (gmap string string);
}.

(** The descriptor of a unit [resolve] has checked to have one. *)
Definition descriptor (u : Unit) : Descriptor := default zero_descriptor (Unit_Descriptor u).

Definition same_unit (u v : Unit) : bool := bool_decide (uid u = uid v).

Record Resolution := mkResolution {
  Workload : option Unit;
  Mixins : list Unit;
  topological : list Unit;
}.

Definition Topological (r : Resolution) : list Unit := topological r.
Definition Ordered (r : Resolution) : list Unit :=
  match Workload r with
  | None => Mixins r
  | Some w => w :: Mixins r
  end.

(** ** Versions carried by references *)

(** [url.QueryUnescape]. *)
Definition hex_digit (c : ascii) : option nat :=
  let n := nat_of_ascii c in
  if is_digit c then Some (n - 48)
  else if byte_in "a" "f" c then Some (n - 87)
  else if byte_in "A" "F" c then Some (n - 55)
  else None.
Fixpoint QueryUnescape (s : string) : option string :=
  match s with
  | "" => Some ""
  | String "%" (String a (String b r)) =>
      h ← hex_digit a; l ← hex_digit b; t ← QueryUnescape r;
      Some (String (ascii_of_nat (16 * h + l)) t)
  | String "%" _ => None
  | String "+" r => t ← QueryUnescape r; Some (String " " t)
  | String c r => t ← QueryUnescape r; Some (String c t)
  end.

(** [url.ParseQuery]: the pairs in order, or [None] when any is malformed. *)
Fixpoint parseQueryPairs (pairs : list string) : option (list (string * string)) :=
  match pairs with
  | [] => Some []
  | entry :: pairs =>
      if contains ";" entry then None
      else if bool_decide (entry = "") then parseQueryPairs pairs
      else
        let '(k, v, _) := cut "=" entry in
        k ← QueryUnescape k; v ← QueryUnescape v; r ← parseQueryPairs pairs;
        Some ((k, v) :: r)
  end.
Definition ParseQuery (s : string) : option (list (string * string)) :=
  parseQueryPairs (split "&" s).
Definition query_get (k : string) (q : list (string * string)) : string :=
  match List.find (λ kv, bool_decide (kv.1 = k)) q with Some kv => kv.2 | None => "" end.

Definition versionFromGitReference (ref : string) : string :=
  let '(_, fragment, found) := cut "#" ref in
  if negb found then ""
  else match ParseQuery fragment with
       | None => ""
       | Some values => TagVersion (query_get "ref" values)
       end.

(** An index, with Go's -1 for a byte that does not occur. *)
Definition LastIndex (c : ascii) (s : string) : Z :=
  match last_index c s with Some i => Z.of_nat i | None => -1 end.

Definition VersionFromReference (ref : string) : string :=
  if has_prefix "git+" ref then versionFromGitReference ref
  else
    let '(ref, _, _) := cut "@" ref in
    let slash := LastIndex "/" ref in
    let colon := LastIndex ":" ref in
    if bool_decide (colon ≤ slash)%Z then ""
    else TagVersion (str_drop (Z.to_nat colon + 1) ref).

Definition EffectiveProvideVersion (reference : string) (d : option Descriptor) : string :=
  let v := VersionFromReference reference in
  if negb (bool_decide (v = "")) then v
  else match d with None => "" | Some d => Types.Version d end.

(** ** What the checks report *)

Inductive problem :=
  | MoreThanOneWorkload (first second : string)
  | NoWorkload
  | MalformedProvide (ref : string) (cause : parse_error)
  | ManyProviders (name : string) (offers : list (string * string))
  | GroupUnselected (ref : string) (i : nat)
  | ManyCredentialOwners (service phase : string) (refs : list string)
  | MalformedRequire (ref : string) (cause : parse_error)
  | NothingProvides (ref entry name : string)
  | OnlyOffers (ref entry : string) (offered : list string)
  | IntegrationViolated (ref entry : string) (offered : list string)
  | ConflictPresent (ref name other : string).

Inductive resolve_error :=
  | EmptySet
  | NoDescriptor (ref : string)
  | NotCoherent (problems : list problem)
  | DependencyCycle (refs : list string)
  | OutOfFuel.

(** ** The provides index *)

Record provider := mkProvider { punit : Unit; provide : Provide }.
Notation index := (gmap string (list provider)).

Definition providers (ix : index) (name : string) : list provider := default [] (ix !! name).

Definition versioned (fallback : string) (p : Provide) : Provide :=
  if bool_decide (PVersion p = "") && negb (bool_decide (fallback = ""))
  then mkProvide (PName p) fallback else p.

Definition index_entry (u : Unit) (fallback : string) (st : index * list problem) (s : string) :
    index * list problem :=
  let '(ix, problems) := st in
  match ParseProvide s with
  | Err e => (ix, problems ++ [MalformedProvide (Reference u) e])
  | Ok p =>
      let p := versioned fallback p in
      (<[PName p := providers ix (PName p) ++ [mkProvider u p]]> ix, problems)
  end.
Definition index_unit (st : index * list problem) (u : Unit) : index * list problem :=
  let fallback := VersionFromReference (Reference u) in
  let fallback :=
    if bool_decide (fallback = "") then Types.Version (descriptor u) else fallback in
  foldl (index_entry u fallback) st (Provides (descriptor u)).
Definition providesIndex (units : list Unit) : index * list problem :=
  foldl index_unit (∅, []) units.

(** ** The checks *)

Fixpoint checkOneWorkload_loop (workload : option Unit) (units : list Unit) :
    option Unit * list problem :=
  match units with
  | [] => (workload, [])
  | u :: units =>
      if negb (bool_decide (Kind (descriptor u) = KindWorkload))
      then checkOneWorkload_loop workload units
      else
        match workload with
        | Some w =>
            let '(r, ps) := checkOneWorkload_loop workload units in
            (r, MoreThanOneWorkload (Reference w) (Reference u) :: ps)
        | None => checkOneWorkload_loop (Some u) units
        end
  end.
Definition checkOneWorkload (units : list Unit) (partial : bool) : option Unit * list problem :=
  let '(workload, problems) := checkOneWorkload_loop None units in
  (workload,
   problems ++ match workload with
               | None => if partial then [] else [NoWorkload]
               | Some _ => []
               end).

(** The first provider of each kit, in index order. *)
Definition owners (ps : list provider) : list provider := dedupe (λ p, uid (punit p)) ps.
Definition offer (p : provider) : string * string :=
  (Reference (punit p),
   if bool_decide (PVersion (provide p) = "") then "unversioned" else PVersion (provide p)).
Definition many_owners (ps : list provider) : bool := 1 <? length (owners ps).
Definition checkOneProviderPerName (ix : index) : list problem :=
  let names := map fst (List.filter (λ np, many_owners np.2) (map_to_list ix)) in
  map (λ name, ManyProviders name (map offer (owners (providers ix name)))) (sort_strings names).

Definition checkGroups (u : Unit) : list problem :=
  concat (imap (λ i c, match Group c with
                       | Some _ => [GroupUnselected (Reference u) i]
                       | None => []
                       end) (Capabilities (descriptor u))).

(** The owner map is filled in declaration order and reported in key order. *)
Definition credential_keys (u : Unit) : list (string * string) :=
  match CredentialsOf (Capabilities (descriptor u)) with
  | Err _ => []
  | Ok creds =>
      flat_map (λ c, map (λ phase, (Credential_Service (CredentialOf c), phase))
                       (elems (Credential_Phase (CredentialOf c)))) creds
  end.
Definition add_owner (ref : string) (m : gmap (string * string) (list string))
    (k : string * string) : gmap (string * string) (list string) :=
  <[k := default [] (m !! k) ++ [ref]]> m.
Definition credential_owners (units : list Unit) : gmap (string * string) (list string) :=
  foldl (λ m u, foldl (add_owner (Reference u)) m (credential_keys u)) ∅ units.

Definition key_le (k k' : string * string) : Prop :=
  if bool_decide (k.1 = k'.1) then String.le k.2 k'.2 else String.le k.1 k'.1.
#[export] Instance key_le_dec : RelDecision key_le.
Proof. intros k k'. unfold key_le. destruct (bool_decide (k.1 = k'.1)); apply _. Defined.

Definition checkOneCredentialOwner (units : list Unit) : list problem :=
  let owners := credential_owners units in
  let keys := map fst (List.filter (λ kr, 1 <? length kr.2) (map_to_list owners)) in
  map (λ k, ManyCredentialOwners k.1 k.2 (default [] (owners !! k))) (merge_sort key_le keys).

(** The first satisfying provider that is another kit. *)
Definition satisfiedBy (r : Require_) (ix : index) (self : Unit) : option Unit :=
  match List.find (λ c, negb (same_unit (punit c) self) && Satisfies (provide c) r)
          (providers ix (RName r)) with
  | Some c => Some (punit c)
  | None => None
  end.

Definition othersProviding (name : string) (ix : index) (self : Unit) : list provider :=
  List.filter (λ c, negb (same_unit (punit c) self)) (providers ix name).

Definition describeProvide (c : provider) : string :=
  let name := DisplayCapabilityName (PName (provide c)) in
  let from := "from " +:+ Reference (punit c) +:+ ")" in
  if bool_decide (PVersion (provide c) = "") then name +:+ " (unversioned, " +:+ from
  else name +:+ "@" +:+ PVersion (provide c) +:+ " (" +:+ from.

Definition requires_problem (ix : index) (u : Unit) (s : string) : list problem :=
  match ParseRequire s with
  | Err e => [MalformedRequire (Reference u) e]
  | Ok r =>
      match satisfiedBy r ix u with
      | Some _ => []
      | None =>
          match providers ix (RName r) with
          | [] => [NothingProvides (Reference u) s (RName r)]
          | candidates => [OnlyOffers (Reference u) s (map describeProvide candidates)]
          end
      end
  end.
Definition checkRequires (units : list Unit) (ix : index) : list problem :=
  flat_map (λ u, flat_map (requires_problem ix u) (Requires (descriptor u))) units.

Definition integrates_problem (ix : index) (u : Unit) (s : string) : list problem :=
  match ParseRequire s with
  | Err e => [MalformedRequire (Reference u) e]
  | Ok r =>
      match othersProviding (RName r) ix u, satisfiedBy r ix u with
      | [], _ | _, Some _ => []
      | candidates, None => [IntegrationViolated (Reference u) s (map describeProvide candidates)]
      end
  end.
Definition checkIntegrates (units : list Unit) (ix : index) : list problem :=
  flat_map (λ u, flat_map (integrates_problem ix u) (Integrates (descriptor u))) units.

Definition conflicts_problem (ix : index) (u : Unit) (name : string) : list problem :=
  map (λ c, ConflictPresent (Reference u) name (Reference (punit c)))
    (List.filter (λ c, negb (same_unit (punit c) u)) (providers ix (NormalizeCapabilityName name))).
Definition checkConflicts (units : list Unit) (ix : index) : list problem :=
  flat_map (λ u, flat_map (conflicts_problem ix u) (Conflicts (descriptor u))) units.

(** ** The composition order *)

(** [sort.Slice] by reference: a permutation in non-decreasing order, which
    says nothing about the order of equal references. *)
Definition ref_le (u v : Unit) : Prop := String.le (Reference u) (Reference v).

Class ReadySort := {
  sort_ready : list Unit → list Unit;
  sort_ready_perm l : sort_ready l ≡ₚ l;
  sort_ready_sorted l : Sorted ref_le (sort_ready l);
}.

#[export] Instance ref_le_dec : RelDecision ref_le.
Proof. intros u v. unfold ref_le. apply _. Defined.
#[export] Instance ref_le_total : Total ref_le.
Proof. intros u v. unfold ref_le. apply (total String.le). Qed.

(** One such sort. *)
Definition merge_ready : ReadySort :=
  {| sort_ready := merge_sort ref_le;
     sort_ready_perm := merge_sort_Permutation ref_le;
     sort_ready_sorted := Sorted_merge_sort ref_le |}.

Record graph := mkGraph {
  indegree : gmap nat Z;
  dependents : gmap nat (list Unit);
}.
Definition degree (g : graph) (u : Unit) : Z := default 0%Z (indegree g !! uid u).
Definition dependents_of (g : graph) (u : Unit) : list Unit := default [] (dependents g !! uid u).
Definition add_edge (p u : Unit) (g : graph) : graph :=
  mkGraph (<[uid u := (degree g u + 1)%Z]> (indegree g))
          (<[uid p := dependents_of g p ++ [u]]> (dependents g)).

Definition dep_step (ix : index) (u : Unit) (st : list Unit * graph) (s : string) :
    list Unit * graph :=
  let '(deps, g) := st in
  match ParseRequire s with
  | Err _ => st
  | Ok r =>
      match satisfiedBy r ix u with
      | None => st
      | Some p => if existsb (same_unit p) deps then st else (deps ++ [p], add_edge p u g)
      end
  end.
Definition dep_unit (ix : index) (g : graph) (u : Unit) : graph :=
  (foldl (dep_step ix u) ([], g) (Requires (descriptor u) ++ Integrates (descriptor u))).2.
Definition zero_degrees (units : list Unit) : graph :=
  mkGraph (foldl (λ m u, <[uid u := 0%Z]> m) ∅ units) ∅.
Definition build_graph (units : list Unit) (ix : index) : graph :=
  foldl (dep_unit ix) (zero_degrees units) units.

Definition release (st : gmap nat Z * list Unit) (dep : Unit) : gmap nat Z * list Unit :=
  let '(degrees, ready) := st in
  let d := (default 0 (degrees !! uid dep) - 1)%Z in
  (<[uid dep := d]> degrees, if bool_decide (d = 0%Z) then ready ++ [dep] else ready).

Section Order.
Context `{ReadySort}.

Fixpoint order_loop (fuel : nat) (g : graph) (degrees : gmap nat Z) (ready ordered : list Unit) :
    option (gmap nat Z * list Unit) :=
  match ready with
  | [] => Some (degrees, ordered)
  | _ =>
      match fuel, sort_ready ready with
      | S fuel, next :: ready =>
          let '(degrees, ready) := foldl release (degrees, ready) (dependents_of g next) in
          order_loop fuel g degrees ready (ordered ++ [next])
      | _, _ => None
      end
  end.

Definition order (units : list Unit) (ix : index) : result resolve_error (list Unit) :=
  let g := build_graph units ix in
  let ready := List.filter (λ u, bool_decide (degree g u = 0%Z)) units in
  match order_loop (length units) g (indegree g) ready [] with
  | None => Err OutOfFuel
  | Some (degrees, ordered) =>
      if bool_decide (length ordered = length units) then Ok ordered
      else
        let cyclic :=
          List.filter (λ u, bool_decide (0 < default 0 (degrees !! uid u))%Z) units in
        Err (DependencyCycle (sort_strings (map Reference cyclic)))
  end.

(** ** Resolution *)

Definition coherence (units : list Unit) (partial capabilities : bool) :
    option Unit * index * list problem :=
  let '(workload, p1) := checkOneWorkload units partial in
  let '(ix, p2) := providesIndex units in
  (workload, ix,
   p1 ++ p2 ++ checkOneProviderPerName ix ++
   (if capabilities then flat_map checkGroups units ++ checkOneCredentialOwner units else []) ++
   checkRequires units ix ++ checkIntegrates units ix ++ checkConflicts units ix).

Definition is_workload (workload : option Unit) (u : Unit) : bool :=
  match workload with Some w => same_unit u w | None => false end.

Definition resolve (units : list Unit) (partial capabilities : bool) :
    result resolve_error Resolution :=
  if bool_decide (units = []) then Err EmptySet
  else
    match List.find (λ u, negb (bool_decide (is_Some (Unit_Descriptor u)))) units with
    | Some u => Err (NoDescriptor (Reference u))
    | None =>
        let '(workload, ix, problems) := coherence units partial capabilities in
        match problems with
        | [] =>
            ordered ← order units ix;
            Ok (mkResolution workload
                  (List.filter (λ u, negb (is_workload workload u)) ordered) ordered)
        | _ => Err (NotCoherent problems)
        end
    end.

Definition Resolve (units : list Unit) := resolve units false true.
Definition ResolvePartial (units : list Unit) := resolve units true true.
Definition Dependencies (units : list Unit) (partial : bool) := resolve units partial false.
End Order.
