(* ===== verification/TopSort.v ===== *)
(** The topological sort of [resolve/resolve.go] [order], against the edges it
    was built from: the invariant of the loop, and what it leaves out. *)
From stdpp Require Import options.
From S2P Require Import Prelude GoStrings Version Types Resolve.

Notation ids l := (uid <$> l).

(** ** Counting *)

Lemma filter_split {A} (f g : A → bool) l :
  length (List.filter f l) =
  length (List.filter (λ x, f x && negb (g x)) l) + length (List.filter (λ x, f x && g x) l).
Proof.
  induction l as [|x l IH]; [done|]. cbn. destruct (f x), (g x); cbn; lia.
Qed.

Lemma filter_ext_length {A} (f g : A → bool) l :
  (∀ x, x ∈ l → f x = g x) → length (List.filter f l) = length (List.filter g l).
Proof.
  intros H. induction l as [|x l IH]; [done|]. cbn. rewrite (H x) by by left.
  destruct (g x); cbn; rewrite IH; auto; intros; apply H; by right.
Qed.

Lemma filter_empty {A} (f : A → bool) l :
  length (List.filter f l) = 0 ↔ ∀ x, x ∈ l → f x = false.
Proof.
  induction l as [|x l IH]; [split; [intros _ x Hx; inversion Hx|done]|]. cbn.
  destruct (f x) eqn:E; cbn; split.
  - done.
  - intros H. specialize (H x (list_elem_of_here _ _)). congruence.
  - intros H y [->|Hy]%elem_of_cons; [done|]. by apply IH.
  - intros H. apply IH. intros y Hy. apply H. by right.
Qed.

Lemma filter_elem_of {A} (f : A → bool) x l : x ∈ List.filter f l ↔ f x = true ∧ x ∈ l.
Proof. rewrite !list_elem_of_In, filter_In. tauto. Qed.

Lemma filter_Permutation {A} (f : A → bool) l l' :
  l ≡ₚ l' → List.filter f l ≡ₚ List.filter f l'.
Proof.
  induction 1 as [|x l l' _ IH|x y l|l l' l'' _ IH1 _ IH2]; cbn;
    [done|by destruct (f x); rewrite IH|destruct (f x), (f y); try done; apply perm_swap|by rewrite IH1].
Qed.

Lemma filter_key_length {A B} `{EqDecision B} (key : A → B) (k : B) l :
  NoDup (key <$> l) →
  length (List.filter (λ x, bool_decide (key x = k)) l) = if bool_decide (k ∈ key <$> l) then 1 else 0.
Proof.
  induction l as [|x l IH]; [done|]. cbn. intros [Hx Hl]%NoDup_cons.
  specialize (IH Hl). destruct (decide (key x = k)) as [<-|Hk].
  - rewrite (bool_decide_eq_true_2 (key x = key x)) by done. cbn. rewrite IH.
    rewrite bool_decide_eq_false_2 by done. by rewrite bool_decide_eq_true_2 by by left.
  - rewrite bool_decide_eq_false_2 by done. rewrite IH.
    rewrite (bool_decide_ext (k ∈ key x :: (key <$> l)) (k ∈ key <$> l)); [done|].
    rewrite elem_of_cons. intuition congruence.
Qed.

(** Units of a set are the same when their pointers are. *)
Lemma uid_unique units u v :
  NoDup (ids units) → u ∈ units → v ∈ units → uid u = uid v → u = v.
Proof.
  intros Hnd Hu Hv E. induction units as [|x l IH]; [by inversion Hu|].
  apply NoDup_cons in Hnd as [Hx Hl].
  apply elem_of_cons in Hu as [->|Hu], Hv as [->|Hv]; try done.
  - destruct Hx. rewrite E. by apply list_elem_of_fmap_2.
  - destruct Hx. rewrite <-E. by apply list_elem_of_fmap_2.
  - by apply IH.
Qed.

(** The first of a sorted list is least. *)
#[export] Instance ref_le_trans : Transitive ref_le.
Proof. intros u v w. unfold ref_le. apply (transitivity (R := String.le)). Qed.
#[export] Instance ref_le_refl : Reflexive ref_le.
Proof. intros u. unfold ref_le. reflexivity. Qed.

Lemma least_ready next rest v :
  Sorted ref_le (next :: rest) → v ∈ next :: rest → ref_le next v.
Proof.
  intros Hs Hv. apply Sorted_StronglySorted in Hs; [|intros x y z; apply ref_le_trans].
  apply StronglySorted_inv in Hs as [_ Hall]. rewrite Forall_forall in Hall.
  apply elem_of_cons in Hv as [->|Hv]; [reflexivity|by apply Hall].
Qed.

(** ** The loop of [order] *)

Section Kahn.
Context `{ReadySort}.
Context (units : list Unit) (es : list (Unit * Unit)) (g : graph).

Definition edge_key (e : Unit * Unit) : nat * nat := (uid e.1, uid e.2).

(** [es] are the edges, provider first, in the order they were added. *)
Context (units_nodup : NoDup (ids units)).
Context (es_units : ∀ p u, (p, u) ∈ es → p ∈ units ∧ u ∈ units).
Context (es_nodup : NoDup (edge_key <$> es)).

(** The providers of [u] that are not composed yet. *)
Definition waits (done : list Unit) (u : Unit) (e : Unit * Unit) : bool :=
  bool_decide (uid e.2 = uid u) && negb (bool_decide (uid e.1 ∈ ids done)).
Definition pending (done : list Unit) (u : Unit) : nat :=
  length (List.filter (waits done u) es).

Context (g_dependents : ∀ p, dependents_of g p = snd <$> List.filter (λ e, bool_decide (uid e.1 = uid p)) es).

#[local] Set Default Proof Using "Type*".

Lemma uid_inj u v : u ∈ units → v ∈ units → uid u = uid v → u = v.
Proof. by apply uid_unique. Qed.

Lemma uid_elem u l : u ∈ units → l ⊆ units → uid u ∈ ids l ↔ u ∈ l.
Proof.
  intros Hu Hl. split; [|apply list_elem_of_fmap_2].
  intros (v & E & Hv)%list_elem_of_fmap. rewrite (uid_inj u v); auto.
Qed.

Lemma dependents_elem p u :
  uid u ∈ ids (dependents_of g p) ↔ (uid p, uid u) ∈ edge_key <$> es.
Proof.
  rewrite g_dependents, !list_elem_of_fmap. split.
  - intros (v & E & ([q w] & -> & [E' Hq]%filter_elem_of)%list_elem_of_fmap). exists (q, w).
    split; [|done]. apply bool_decide_eq_true in E'. cbn in *. unfold edge_key. cbn. congruence.
  - intros ([q v] & E & Hq). injection E as E1 E2. exists v. split; [done|].
    apply list_elem_of_fmap. exists (q, v). split; [done|].
    apply filter_elem_of. split; [|done]. by apply bool_decide_eq_true.
Qed.

Lemma dependents_units p u : u ∈ dependents_of g p → u ∈ units.
Proof.
  rewrite g_dependents. intros ([q v] & -> & [_ Hq]%filter_elem_of)%list_elem_of_fmap.
  by eapply es_units.
Qed.

Lemma dependents_nodup p : NoDup (ids (dependents_of g p)).
Proof.
  rewrite g_dependents. clear es_units g_dependents. induction es as [|[q v] l IH]; [constructor|].
  cbn in es_nodup. apply NoDup_cons in es_nodup as [Hq Hl]. cbn.
  case_bool_decide as E; [|by apply IH]. cbn. apply NoDup_cons. split; [|by apply IH].
  intros (w & E' & (e & -> & [E2 He]%filter_elem_of)%list_elem_of_fmap)%list_elem_of_fmap.
  apply bool_decide_eq_true in E2. apply Hq, list_elem_of_fmap. exists e. split; [|done].
  unfold edge_key. cbn. congruence.
Qed.

(** Composing a provider releases one wait of each of its dependents. *)
Lemma pending_snoc done next u :
  uid next ∉ ids done →
  pending done u =
  pending (done ++ [next]) u +
  if bool_decide (uid u ∈ ids (dependents_of g next)) then 1 else 0.
Proof.
  intros Hn. unfold pending.
  rewrite (filter_split _ (λ e, bool_decide (uid e.1 = uid next))). f_equal.
  - apply filter_ext_length. intros e _. unfold waits. rewrite <-andb_assoc. f_equal.
    rewrite <-negb_orb. f_equal. apply eq_iff_eq_true.
    rewrite orb_true_iff, !bool_decide_eq_true, fmap_app, elem_of_app. set_solver.
  - rewrite (filter_ext_length _ (λ e, bool_decide (edge_key e = (uid next, uid u)))).
    + rewrite filter_key_length by done. erewrite bool_decide_ext; [done|].
      symmetry. by apply dependents_elem.
    + intros e _. apply eq_iff_eq_true. unfold waits, edge_key.
      rewrite !andb_true_iff, negb_true_iff, !bool_decide_eq_true, bool_decide_eq_false.
      split; [intros [[E1 _] E2]; congruence|]. intros [= E1 E2]. rewrite E1. done.
Qed.

(** ** The invariant *)

Record loop_inv (degrees : gmap nat Z) (ready ordered : list Unit) : Prop := {
  inv_nodup : NoDup (ids (ordered ++ ready));
  inv_units : ordered ++ ready ⊆ units;
  inv_degree u : u ∈ units → degrees !! uid u = Some (Z.of_nat (pending ordered u));
  inv_free u : u ∈ units → pending ordered u = 0 ↔ u ∈ ordered ++ ready;
  inv_order o1 u o2 : ordered = o1 ++ u :: o2 → pending o1 u = 0;
  inv_least o1 u o2 v :
    ordered = o1 ++ u :: o2 → v ∈ units → v ∉ o1 → pending o1 v = 0 → ref_le u v;
}.

(** One pass over the dependents of the composed provider. *)
Lemma release_all l (degrees : gmap nat Z) ready :
  NoDup (ids l) →
  foldl release (degrees, ready) l =
  (foldl (λ m u, <[uid u := (default 0 (m !! uid u) - 1)%Z]> m) degrees l,
   ready ++ List.filter (λ u, bool_decide (default 0 (degrees !! uid u) - 1 = 0)%Z) l).
Proof.
  revert degrees ready. induction l as [|u l IH]; intros degrees ready Hl; [by rewrite app_nil_r|].
  apply NoDup_cons in Hl as [Hu Hl]. cbn. rewrite IH by done. f_equal.
  assert (List.filter (λ v, bool_decide
      (default 0 (<[uid u:=(default 0 (degrees !! uid u) - 1)%Z]> degrees !! uid v) - 1 = 0)%Z) l =
    List.filter (λ v, bool_decide (default 0 (degrees !! uid v) - 1 = 0)%Z) l) as E.
  { apply filter_ext_in. intros v Hv%list_elem_of_In. rewrite lookup_insert_ne; [done|].
    intros E. apply Hu. rewrite E. by apply list_elem_of_fmap_2. }
  rewrite E. case_bool_decide; [by rewrite <-app_assoc|done].
Qed.

Lemma released_degree l (degrees : gmap nat Z) i :
  NoDup (ids l) →
  foldl (λ (m : gmap nat Z) u, <[uid u := (default 0 (m !! uid u) - 1)%Z]> m) degrees l !! i =
  if bool_decide (i ∈ ids l) then Some (default 0 (degrees !! i) - 1)%Z else degrees !! i.
Proof.
  revert degrees. induction l as [|u l IH]; intros degrees Hl; [done|].
  apply NoDup_cons in Hl as [Hu Hl]. cbn [foldl]. rewrite IH by done. csimpl.
  destruct (decide (i = uid u)) as [->|Hi].
  - rewrite bool_decide_eq_false_2 by done. rewrite lookup_insert_eq.
    by rewrite bool_decide_eq_true_2 by by left.
  - rewrite lookup_insert_ne by done.
    rewrite (bool_decide_ext (i ∈ uid u :: _) (i ∈ ids l)); [done|].
    rewrite elem_of_cons. tauto.
Qed.

Lemma newly_ready (degrees : gmap nat Z) next ordered u :
  (∀ u, u ∈ units → degrees !! uid u = Some (Z.of_nat (pending ordered u))) →
  uid next ∉ ids ordered →
  u ∈ List.filter (λ u, bool_decide (default 0 (degrees !! uid u) - 1 = 0)%Z)
        (dependents_of g next) ↔
  u ∈ dependents_of g next ∧ pending (ordered ++ [next]) u = 0.
Proof.
  intros Hdeg Hn. rewrite filter_elem_of, bool_decide_eq_true.
  assert (u ∈ dependents_of g next →
    degrees !! uid u = Some (Z.of_nat (S (pending (ordered ++ [next]) u)))) as E.
  { intros Hu. rewrite Hdeg by by eapply dependents_units. rewrite (pending_snoc ordered next) by done.
    rewrite bool_decide_eq_true_2 by by apply list_elem_of_fmap_2. do 2 f_equal. lia. }
  split; intros [H1 H2]; split; try done.
  - rewrite E in H1 by done. cbn in H1. lia.
  - rewrite E by done. cbn. lia.
Qed.

Lemma newly_ready_waited next ordered u :
  uid next ∉ ids ordered → u ∈ dependents_of g next → pending ordered u ≠ 0.
Proof.
  intros Hn Hu. rewrite (pending_snoc ordered next) by done.
  rewrite bool_decide_eq_true_2 by by apply list_elem_of_fmap_2. lia.
Qed.

Lemma loop_step degrees ready next rest ordered degrees' ready' :
  loop_inv degrees ready ordered → next :: rest ≡ₚ ready → Sorted ref_le (next :: rest) →
  foldl release (degrees, rest) (dependents_of g next) = (degrees', ready') →
  loop_inv degrees' ready' (ordered ++ [next]).
Proof.
  intros [Hnd Hin Hdeg Hfree Hord Hleast] Hp Hsort. rewrite <-Hp in Hnd.
  assert (∀ x, x ∈ ready ↔ x ∈ next :: rest) as Hr by by intros; rewrite Hp.
  assert (next ∈ units) as Hnu by (apply Hin, elem_of_app; right; apply Hr; left).
  assert (uid next ∉ ids ordered) as Hnn.
  { rewrite fmap_app, NoDup_app in Hnd. intros Hx. apply (proj1 (proj2 Hnd) _ Hx). left. }
  rewrite release_all by apply dependents_nodup. intros [= <- <-].
  pose proof (λ u, newly_ready degrees next ordered u Hdeg Hnn) as Hnew.
  pose proof (λ u, newly_ready_waited next ordered u Hnn) as Hwait.
  set (new := List.filter _ _) in *.
  assert (∀ u, u ∈ new → u ∈ units) as Hnewu by (intros u Hu; by eapply dependents_units, Hnew).
  split.
  - rewrite <-app_assoc. change ([next] ++ rest ++ new) with ((next :: rest) ++ new).
    rewrite app_assoc, fmap_app. apply NoDup_app. split; [done|]. split.
    + intros i Hi (u & -> & Hu)%list_elem_of_fmap. pose proof (Hnewu u Hu) as Huu.
      apply (Hwait u); [by apply Hnew|]. apply Hfree; [done|].
      rewrite elem_of_app, Hr, <-elem_of_app. apply uid_elem; [done| |done].
      intros x. rewrite elem_of_app, <-Hr, <-elem_of_app. apply Hin.
    + apply NoDup_fmap_2_strong; [intros x y Hx Hy; apply uid_inj; by apply Hnewu|].
      apply NoDup_ListNoDup, List.NoDup_filter, NoDup_ListNoDup, (NoDup_fmap_1 uid),
        dependents_nodup.
  - intros u. rewrite !elem_of_app, list_elem_of_singleton. intros [[Hu| ->]|[Hu|Hu]]; auto.
    + apply Hin, elem_of_app. by left.
    + apply Hin, elem_of_app. right. apply Hr. by right.
  - intros u Hu. rewrite released_degree by apply dependents_nodup. rewrite Hdeg by done. cbn.
    rewrite (pending_snoc ordered next) by done. destruct (bool_decide _); f_equal; lia.
  - intros u Hu. rewrite !elem_of_app, list_elem_of_singleton, Hnew.
    pose proof (pending_snoc ordered next u Hnn) as Hstep. specialize (Hfree u Hu).
    rewrite elem_of_app, Hr, elem_of_cons in Hfree. split.
    + intros E. case_bool_decide as Hd; [|destruct Hfree as [Hf _]; specialize (Hf ltac:(lia)); tauto].
      right. right. split; [|done]. apply uid_elem; [done|intros x; apply dependents_units|done].
    + intros [[Ho| ->]|[Ho|[_ Ho]]]; [| | |done].
      all: destruct Hfree as [_ Hf]; specialize (Hf ltac:(tauto)); lia.
  - intros o1 u o2 E. destruct o2 as [|y o2 _] using rev_ind.
    + apply app_inj_tail in E as [<- <-]. apply Hfree; [done|]. apply elem_of_app. right. apply Hr. left.
    + rewrite app_comm_cons, app_assoc in E. apply app_inj_tail in E as [-> _]. by eapply Hord.
  - intros o1 u o2 v E Hv Hvo Hv0. destruct o2 as [|y o2 _] using rev_ind.
    + apply app_inj_tail in E as [<- <-]. apply least_ready with rest; [done|]. apply Hr.
      apply Hfree in Hv0; [|done]. apply elem_of_app in Hv0 as [?|?]; done.
    + rewrite app_comm_cons, app_assoc in E. apply app_inj_tail in E as [-> _]. by eapply Hleast.
Qed.

Lemma loop_inv_length degrees ready ordered :
  loop_inv degrees ready ordered → length ordered + length ready ≤ length units.
Proof.
  intros [Hnd Hin _ _ _ _]. rewrite <-length_app.
  apply submseteq_length, NoDup_submseteq; [by apply (NoDup_fmap_1 uid)|]. apply Hin.
Qed.

(** Enough fuel for the units that are left is enough fuel, and the loop ends
    with nothing ready. *)
Lemma order_loop_inv fuel degrees ready ordered :
  loop_inv degrees ready ordered → length units ≤ fuel + length ordered →
  ∃ degrees' rest, order_loop fuel g degrees ready ordered = Some (degrees', ordered ++ rest) ∧
    loop_inv degrees' [] (ordered ++ rest).
Proof.
  revert degrees ready ordered. induction fuel as [|fuel IH]; intros degrees ready ordered Hinv Hf.
  - pose proof (loop_inv_length _ _ _ Hinv) as Hl. destruct ready; cbn in Hl; [|lia].
    exists degrees, []. by rewrite app_nil_r.
  - destruct ready as [|x ready]; [exists degrees, []; by rewrite app_nil_r|]. cbn [order_loop].
    pose proof (sort_ready_perm (x :: ready)) as Hp.
    pose proof (sort_ready_sorted (x :: ready)) as Hs.
    destruct (sort_ready (x :: ready)) as [|next rest]; [by apply Permutation_nil_cons in Hp|].
    destruct (foldl release _ _) as [degrees' ready'] eqn:E.
    pose proof (loop_step _ _ _ _ _ _ _ Hinv Hp Hs E) as Hinv'.
    destruct (IH _ _ _ Hinv') as (d & r & Hr & Hi); [rewrite length_app; cbn; lia|].
    exists d, (next :: r). by rewrite <-app_assoc in Hr, Hi.
Qed.

Definition free (u : Unit) : bool := bool_decide (pending [] u = 0).

Context (g_degree : ∀ u, u ∈ units → indegree g !! uid u = Some (Z.of_nat (pending [] u))).

Lemma loop_inv_start :
  loop_inv (indegree g) (List.filter (λ u, bool_decide (degree g u = 0%Z)) units) [].
Proof.
  assert (∀ u, u ∈ units → bool_decide (degree g u = 0%Z) = true ↔ pending [] u = 0) as Hd.
  { intros u Hu. rewrite bool_decide_eq_true. unfold degree. rewrite g_degree by done. cbn. lia. }
  split; cbn [app].
  - apply NoDup_fmap_2_strong.
    + intros x y Hx Hy. apply filter_elem_of in Hx as [_ Hx], Hy as [_ Hy]. by apply uid_inj.
    + apply NoDup_ListNoDup, List.NoDup_filter, NoDup_ListNoDup. by apply (NoDup_fmap_1 uid).
  - intros u [_ Hu]%filter_elem_of. done.
  - done.
  - intros u Hu. rewrite filter_elem_of, Hd by done. tauto.
  - intros o1 u o2 E. by destruct o1.
  - intros o1 u o2 v E. by destruct o1.
Qed.

(** The loop composes exactly the kits outside every waiting set; it composes
    all of them when there is no such set. *)
Lemma order_loop_result :
  ∃ degrees ordered,
    order_loop (length units) g (indegree g)
      (List.filter (λ u, bool_decide (degree g u = 0%Z)) units) [] = Some (degrees, ordered) ∧
    loop_inv degrees [] ordered.
Proof.
  destruct (order_loop_inv (length units) _ _ _ loop_inv_start) as (d & r & E & Hi); [cbn; lia|].
  by exists d, r.
Qed.

Lemma loop_end degrees ordered :
  loop_inv degrees [] ordered →
  length ordered = length units ↔ ordered ≡ₚ units.
Proof.
  intros [Hnd Hin _ _ _ _]. rewrite app_nil_r in Hnd, Hin. split; [|by intros ->].
  intros E. apply submseteq_length_Permutation; [|lia].
  apply NoDup_submseteq; [by apply (NoDup_fmap_1 uid)|]. apply Hin.
Qed.

(** A kit that is left out waits for another that is left out. *)
Lemma left_out_waits degrees ordered u :
  loop_inv degrees [] ordered → u ∈ units → u ∉ ordered →
  ∃ p, (uid p, uid u) ∈ edge_key <$> es ∧ p ∈ units ∧ p ∉ ordered.
Proof.
  intros [Hnd Hin Hdeg Hfree _ _] Hu Hn. rewrite app_nil_r in Hin, Hfree.
  destruct (decide (pending ordered u = 0)) as [E|E]; [by apply Hfree in E|].
  destruct (List.filter (waits ordered u) es) as [|[p v] l] eqn:El; [by unfold pending in E; rewrite El in E|].
  assert ((p, v) ∈ List.filter (waits ordered u) es) as [Hw He]%filter_elem_of by (rewrite El; left).
  unfold waits in Hw. apply andb_true_iff in Hw as [H1%bool_decide_eq_true H2].
  apply negb_true_iff, bool_decide_eq_false in H2. cbn in *. exists p. split.
  - apply list_elem_of_fmap. exists (p, v). split; [|done]. unfold edge_key. cbn. congruence.
  - destruct (es_units _ _ He) as [Hp _]. split; [done|]. intros Ho. apply H2.
    by apply list_elem_of_fmap_2.
Qed.

Lemma left_out_degree degrees ordered u :
  loop_inv degrees [] ordered → u ∈ units →
  (0 < default 0 (degrees !! uid u))%Z ↔ u ∉ ordered.
Proof.
  intros [_ _ Hdeg Hfree _ _] Hu. rewrite app_nil_r in Hfree. rewrite Hdeg by done. cbn.
  rewrite <-Hfree by done. lia.
Qed.

(** In the order, the providers of a kit come before it. *)
Lemma loop_order degrees ready ordered o1 u o2 p :
  loop_inv degrees ready ordered → ordered = o1 ++ u :: o2 →
  (uid p, uid u) ∈ edge_key <$> es → uid p ∈ ids o1.
Proof.
  intros Hinv E Hpu. pose proof (inv_order _ _ _ Hinv o1 u o2 E) as H0.
  unfold pending in H0. rewrite filter_empty in H0.
  apply list_elem_of_fmap in Hpu as ([q v] & Ek & He). specialize (H0 _ He).
  injection Ek as E1 E2. unfold waits in H0. cbn in H0.
  rewrite bool_decide_eq_true_2 in H0 by done. cbn in H0.
  apply negb_false_iff, bool_decide_eq_true in H0. congruence.
Qed.

(** Kits that wait for each other are never composed. *)
Lemma waiting_set_left_out degrees ordered (S : list Unit) :
  loop_inv degrees [] ordered → S ⊆ units →
  (∀ u, u ∈ S → ∃ p, p ∈ S ∧ (uid p, uid u) ∈ edge_key <$> es) →
  ∀ u, u ∈ S → u ∉ ordered.
Proof.
  intros Hinv HS Hw. assert (∀ o1 o2, ordered = o1 ++ o2 → ∀ u, u ∈ S → u ∉ o1) as H0.
  { intros o1. induction o1 as [|v o1 IH] using rev_ind; intros o2 E u Hu; [apply not_elem_of_nil|].
    rewrite <-app_assoc in E. rewrite not_elem_of_app, list_elem_of_singleton.
    split; [by eapply IH|]. intros ->. destruct (Hw v Hu) as (p & Hp & He).
    assert (uid p ∈ ids o1) as Hp1 by by eapply loop_order.
    apply (IH _ E p Hp). apply uid_elem; [by apply HS| |done].
    intros x Hx. apply (inv_units _ _ _ Hinv). rewrite E, !elem_of_app. tauto. }
  intros u Hu. apply (H0 ordered []); [by rewrite app_nil_r|done].
Qed.
End Kahn.
