(* ===== verification/ResolveFacts.v ===== *)
(** What [resolve] establishes of the set it accepts, and of the order it
    derives. *)
From stdpp Require Import options.
From S2P Require Import Prelude GoStrings Version Json Types Config Resolve TopSort.

(** ** The index lists the provides entries of the set *)

Definition effective_version (u : Unit) : string :=
  EffectiveProvideVersion (Reference u) (Unit_Descriptor u).

Definition unit_provides (u : Unit) : list provider :=
  omap (λ s, match ParseProvide s with
             | Ok p => Some (mkProvider u (versioned (effective_version u) p))
             | Err _ => None
             end) (Provides (descriptor u)).

Definition named (name : string) (p : provider) : bool := bool_decide (PName (provide p) = name).

Lemma versioned_name fallback p : PName (versioned fallback p) = PName p.
Proof. unfold versioned. by destruct (_ && _). Qed.

Lemma providers_insert ix name name' ps :
  providers (<[name' := ps]> ix) name = if bool_decide (name' = name) then ps else providers ix name.
Proof.
  unfold providers. case_bool_decide; [subst; by rewrite lookup_insert_eq|by rewrite lookup_insert_ne].
Qed.

Lemma index_entries u fallback l ix problems name :
  providers (foldl (index_entry u fallback) (ix, problems) l).1 name =
  providers ix name ++ List.filter (named name)
    (omap (λ s, match ParseProvide s with
             | Ok p => Some (mkProvider u (versioned fallback p))
             | Err _ => None
             end) l).
Proof.
  revert ix problems. induction l as [|s l IH]; intros ix problems; [by rewrite app_nil_r|].
  cbn [foldl index_entry]. destruct (ParseProvide s) as [p|e] eqn:E; cbn [omap list_omap]; rewrite E.
  - rewrite IH. cbn [List.filter]. unfold named at 2. cbn [provide].
    rewrite versioned_name, providers_insert. case_bool_decide as Hn; [|done].
    subst. by rewrite <-app_assoc.
  - apply IH.
Qed.

Lemma fallback_version u :
  is_Some (Unit_Descriptor u) →
  (if bool_decide (VersionFromReference (Reference u) = "") then Types.Version (descriptor u)
   else VersionFromReference (Reference u)) = effective_version u.
Proof.
  intros [d E]. unfold effective_version, EffectiveProvideVersion, descriptor. rewrite E. cbn.
  by case_bool_decide.
Qed.

Definition described (units : list Unit) : Prop :=
  Forall (λ u, is_Some (Unit_Descriptor u)) units.

Lemma providesIndex_providers units name :
  described units →
  providers (providesIndex units).1 name = List.filter (named name) (flat_map unit_provides units).
Proof.
  intros Hd. unfold providesIndex.
  assert (∀ st, providers (foldl index_unit st units).1 name =
    providers st.1 name ++ List.filter (named name) (flat_map unit_provides units)) as E.
  { induction Hd as [|u units Hu _ IH]; intros [ix ps]; [by rewrite app_nil_r|].
    cbn [foldl flat_map]. rewrite IH, List.filter_app, app_assoc. f_equal.
    unfold index_unit. rewrite fallback_version by done. by rewrite index_entries. }
  rewrite E. done.
Qed.

Lemma provider_unit units name p :
  described units → p ∈ providers (providesIndex units).1 name → punit p ∈ units.
Proof.
  intros Hd. rewrite providesIndex_providers by done. rewrite filter_elem_of.
  intros [_ (u & Hu & Hp)%list_elem_of_In%in_flat_map].
  apply list_elem_of_In in Hu, Hp. unfold unit_provides in Hp.
  apply list_elem_of_omap in Hp as (s & _ & E).
  destruct (ParseProvide s); [|done]. by injection E as <-.
Qed.

Lemma satisfiedBy_Some units r u p :
  described units → satisfiedBy r (providesIndex units).1 u = Some p →
  p ∈ units ∧ uid p ≠ uid u ∧
  ∃ e, e ∈ unit_provides p ∧ Satisfies (provide e) r = true.
Proof.
  intros Hd. unfold satisfiedBy. destruct (List.find _ _) as [c|] eqn:E; [|done].
  intros [= <-]. apply find_some in E as [Hc%list_elem_of_In [Hs Hsat]%andb_true_iff].
  split; [by eapply provider_unit|]. split.
  { apply negb_true_iff, bool_decide_eq_false in Hs. done. }
  exists c. split; [|done]. rewrite providesIndex_providers in Hc by done.
  apply filter_elem_of in Hc as [_ (v & Hv & Hp)%list_elem_of_In%in_flat_map].
  apply list_elem_of_In in Hp. pose proof Hp as Hp'. unfold unit_provides in Hp.
  apply list_elem_of_omap in Hp as (s & _ & E).
  destruct (ParseProvide s); [|done]. by injection E as <-.
Qed.

(** ** The dependency graph *)

(** The providers a kit's met entries name, each once. *)
Definition met (ix : index) (u : Unit) (s : string) : option Unit :=
  match ParseRequire s with Ok r => satisfiedBy r ix u | Err _ => None end.
Definition unit_deps (ix : index) (u : Unit) : list Unit :=
  dedupe uid (omap (met ix u) (Requires (descriptor u) ++ Integrates (descriptor u))).
Definition edges (ix : index) (units : list Unit) : list (Unit * Unit) :=
  flat_map (λ u, map (λ p, (p, u)) (unit_deps ix u)) units.

Definition add_edges (g : graph) (es : list (Unit * Unit)) : graph :=
  foldl (λ g e, add_edge e.1 e.2 g) g es.

Lemma existsb_same_unit p l : existsb (same_unit p) l = bool_decide (uid p ∈ ids l).
Proof.
  apply eq_iff_eq_true. rewrite bool_decide_eq_true, list_elem_of_fmap, existsb_exists.
  setoid_rewrite <-list_elem_of_In. unfold same_unit. setoid_rewrite bool_decide_eq_true.
  firstorder.
Qed.

Lemma dep_steps ix u l deps g :
  (foldl (dep_step ix u) (deps, g) l).2 =
  add_edges g (map (λ p, (p, u)) (dedupe_from uid (ids deps) (omap (met ix u) l))).
Proof.
  revert deps g. induction l as [|s l IH]; intros deps g; [done|].
  cbn [foldl dep_step omap list_omap]. unfold met at 1.
  destruct (ParseRequire s) as [r|e]; [|apply IH]. destruct (satisfiedBy r ix u) as [p|]; [|apply IH].
  rewrite existsb_same_unit. cbn [dedupe_from].
  destruct (decide (uid p ∈ ids deps)) as [Hp|Hp].
  - rewrite bool_decide_eq_true_2 by done. apply IH.
  - rewrite bool_decide_eq_false_2 by done. rewrite IH. cbn [map add_edges foldl fst snd].
    erewrite dedupe_from_ext; [done|]. intros k. rewrite fmap_app, elem_of_app, elem_of_cons. cbn.
    rewrite list_elem_of_singleton. tauto.
Qed.

Lemma add_edges_app g es es' : add_edges g (es ++ es') = add_edges (add_edges g es) es'.
Proof. apply foldl_app. Qed.

Lemma build_graph_edges units ix :
  build_graph units ix = add_edges (zero_degrees units) (edges ix units).
Proof.
  unfold build_graph. generalize (zero_degrees units) as g.
  induction units as [|u units IH]; intros g; [done|]. cbn [foldl edges flat_map].
  rewrite add_edges_app, IH. do 2 f_equal. unfold dep_unit. by rewrite dep_steps.
Qed.

Lemma add_edges_dependents g es p :
  dependents_of (add_edges g es) p =
  dependents_of g p ++ (snd <$> List.filter (λ e, bool_decide (uid e.1 = uid p)) es).
Proof.
  revert g. induction es as [|[q u] es IH]; intros g; [by rewrite app_nil_r|].
  cbn [add_edges foldl fst snd]. rewrite IH. cbn. unfold dependents_of at 1, add_edge. cbn [dependents].
  case_bool_decide as E.
  - rewrite E, lookup_insert_eq. unfold dependents_of at 1. rewrite E. cbn. by rewrite <-app_assoc.
  - by rewrite lookup_insert_ne.
Qed.

Lemma add_edges_degree g es i d :
  indegree g !! i = Some d →
  indegree (add_edges g es) !! i =
  Some (d + Z.of_nat (length (List.filter (λ e, bool_decide (uid e.2 = i)) es)))%Z.
Proof.
  revert g d. induction es as [|[q u] es IH]; intros g d Hd; [by rewrite Z.add_0_r|].
  cbn [add_edges foldl fst snd List.filter]. case_bool_decide as E.
  - rewrite (IH _ (d + 1)%Z); [cbn; f_equal; lia|]. cbn. subst. rewrite lookup_insert_eq.
    unfold degree. by rewrite Hd.
  - rewrite (IH _ d); [done|]. cbn. by rewrite lookup_insert_ne.
Qed.

Lemma zero_degrees_lookup units u :
  u ∈ units → indegree (zero_degrees units) !! uid u = Some 0%Z.
Proof.
  intros Hu. unfold zero_degrees. cbn.
  assert (∀ (m : gmap nat Z) , (m !! uid u = Some 0%Z ∨ u ∈ units) →
    foldl (λ (m : gmap nat Z) u, <[uid u := 0%Z]> m) m units !! uid u = Some 0%Z) as H0; [|auto].
  clear Hu. induction units as [|v units IH]; intros m [Hm|Hm]; try done; [by inversion Hm| |].
  - cbn. apply IH. destruct (decide (uid v = uid u)) as [->|];
      [rewrite lookup_insert_eq|rewrite lookup_insert_ne by done]; auto.
  - cbn. apply IH. apply elem_of_cons in Hm as [->|Hm]; [left; by rewrite lookup_insert_eq|auto].
Qed.

(** ** The graph of a set *)

Section Set_.
Context `{ReadySort}.
Context (units : list Unit).
Context (units_nodup : NoDup (ids units)) (units_described : described units).
#[local] Set Default Proof Using "All".

Let ix := (providesIndex units).1.
Let es := edges ix units.
Let g := build_graph units ix.

Lemma unit_deps_met u p :
  p ∈ unit_deps ix u →
  ∃ s, s ∈ Requires (descriptor u) ++ Integrates (descriptor u) ∧ met ix u s = Some p.
Proof.
  intros Hp. apply dedupe_elem_of in Hp. by apply list_elem_of_omap in Hp.
Qed.

Lemma edges_elem p u : (p, u) ∈ es ↔ u ∈ units ∧ p ∈ unit_deps ix u.
Proof.
  unfold es, edges. rewrite list_elem_of_In, in_flat_map. setoid_rewrite in_map_iff.
  setoid_rewrite <-list_elem_of_In. split.
  - by intros (v & Hv & q & [= <- <-] & Hq).
  - intros [Hu Hp]. exists u. split; [done|]. by exists p.
Qed.

Lemma edges_units p u : (p, u) ∈ es → p ∈ units ∧ u ∈ units.
Proof.
  intros [Hu Hp]%edges_elem. split; [|done]. apply unit_deps_met in Hp as (s & _ & Hs).
  unfold met in Hs. destruct (ParseRequire s); [|done].
  apply satisfiedBy_Some in Hs; [by destruct Hs|done].
Qed.

Lemma edges_nodup : NoDup (edge_key <$> es).
Proof.
  unfold es, edges. clear es g. revert units_nodup. generalize units as l.
  intros l Hl. induction l as [|u l IH]; [constructor|].
  apply NoDup_cons in Hl as [Hu Hl]. cbn [flat_map]. rewrite fmap_app. apply NoDup_app. split.
  - pose proof (dedupe_NoDup uid (omap (met ix u) (Requires (descriptor u) ++ Integrates (descriptor u))))
      as Hd. fold (unit_deps ix u) in Hd. induction (unit_deps ix u) as [|p ps IHp]; [constructor|].
    apply NoDup_cons in Hd as [Hp Hd]. cbn. apply NoDup_cons. split; [|by apply IHp].
    intros (e & E & (q & <- & Hq%list_elem_of_In)%list_elem_of_In%in_map_iff)%list_elem_of_fmap.
    injection E as E. apply Hp. rewrite E. by apply list_elem_of_fmap_2.
  - split; [|by apply IH].
    intros k ([p v] & -> & (q & [= <- <-] & Hq)%list_elem_of_In%in_map_iff)%list_elem_of_fmap.
    intros ([p' v'] & E & Hin)%list_elem_of_fmap. injection E as _ E. cbn in *.
    apply list_elem_of_In, in_flat_map in Hin as (w & Hw & (q' & [= <- <-] & _)%in_map_iff).
    apply Hu. rewrite E. apply list_elem_of_fmap_2. by apply list_elem_of_In.
Qed.

Lemma graph_dependents p :
  dependents_of g p = snd <$> List.filter (λ e, bool_decide (uid e.1 = uid p)) es.
Proof.
  unfold g. rewrite build_graph_edges, add_edges_dependents. done.
Qed.

Lemma graph_degree u : u ∈ units → indegree g !! uid u = Some (Z.of_nat (pending es [] u)).
Proof.
  intros Hu. unfold g. rewrite build_graph_edges, (add_edges_degree _ _ _ 0).
  - rewrite Z.add_0_l. do 2 f_equal. unfold pending. apply filter_ext_length. intros e _. unfold waits.
    rewrite (bool_decide_eq_false_2 (_ ∈ ids [])) by apply not_elem_of_nil. by rewrite andb_true_r.
  - by apply zero_degrees_lookup.
Qed.

Ltac kahn :=
  first [exact units_nodup|exact edges_units|exact edges_nodup|exact graph_dependents
        |exact graph_degree|eassumption].

(** [order] never runs out of fuel, and its answer is the loop's. *)
Lemma order_cases :
  ∃ degrees ordered, loop_inv units es degrees [] ordered ∧
    order units ix =
      if bool_decide (length ordered = length units) then Ok ordered
      else Err (DependencyCycle (sort_strings (map Reference
             (List.filter (λ u, bool_decide (0 < default 0 (degrees !! uid u))%Z) units)))).
Proof.
  destruct (order_loop_result units es g) as (d & o & E & Hi); [kahn..|].
  exists d, o. split; [done|]. unfold order. fold g. by rewrite E.
Qed.

Definition precedes (p u : Unit) (l : list Unit) : Prop :=
  ∃ l1 l2, l = l1 ++ u :: l2 ∧ p ∈ l1.

Lemma order_Ok ordered :
  order units ix = Ok ordered →
  ordered ≡ₚ units ∧ ∀ u p, u ∈ units → p ∈ unit_deps ix u → precedes p u ordered.
Proof.
  destruct order_cases as (d & o & Hinv & ->). case_bool_decide as E; [|done]. intros [= <-].
  assert (o ≡ₚ units) as Hp.
  { by apply (loop_end units es g) in Hinv as [Hp _]; [apply Hp|kahn..]. }
  split; [done|]. intros u p Hu Hd. assert ((p, u) ∈ es) as He by by apply edges_elem.
  assert (u ∈ o) as Hu' by by rewrite Hp.
  apply list_elem_of_split in Hu' as (o1 & o2 & Eo). exists o1, o2. split; [done|].
  destruct (edges_units p u He) as [Hpu _].
  apply (uid_elem units es g); [kahn..|done| |].
  - intros x Hx. rewrite <-Hp, Eo. apply elem_of_app. by left.
  - eapply (loop_order units es g); [kahn..|exact Eo|].
    apply list_elem_of_fmap. by exists (p, u).
Qed.

(** The specification of the order: each next kit is the one with the smallest
    reference among the kits not yet composed whose providers all are. *)
Definition available (composed : list Unit) (u : Unit) : Prop :=
  u ∈ units ∧ u ∉ composed ∧ ∀ p, p ∈ unit_deps ix u → p ∈ composed.
Definition greedy (l : list Unit) : Prop :=
  ∀ o1 u o2, l = o1 ++ u :: o2 → available o1 u ∧ ∀ v, available o1 v → ref_le u v.

Lemma pending_deps o1 u :
  o1 ⊆ units → u ∈ units → pending es o1 u = 0 ↔ ∀ p, p ∈ unit_deps ix u → p ∈ o1.
Proof.
  intros Ho Hu. unfold pending. rewrite filter_empty. split.
  - intros Hp p Hd. assert ((p, u) ∈ es) as He by by apply edges_elem.
    specialize (Hp _ He). unfold waits in Hp. cbn in Hp.
    rewrite bool_decide_eq_true_2 in Hp by done. cbn in Hp.
    apply negb_false_iff, bool_decide_eq_true in Hp.
    apply (uid_elem units es g); [kahn..|exact (proj1 (edges_units _ _ He))|done|done].
  - intros Hd [p v] He. unfold waits. cbn. destruct (edges_units _ _ He) as [Hp Hv].
    apply edges_elem in He as [_ He]. case_bool_decide as E; [|done]. cbn.
    apply negb_false_iff, bool_decide_eq_true, list_elem_of_fmap_2, Hd.
    by rewrite (uid_unique units u v).
Qed.

Lemma order_greedy_list ordered :
  order units ix = Ok ordered → ordered ≡ₚ units ∧ greedy ordered.
Proof.
  intros Ho. split; [exact (proj1 (order_Ok _ Ho))|].
  destruct order_cases as (d & o & Hinv & E). rewrite E in Ho.
  case_bool_decide as El; [|done]. injection Ho as <-.
  pose proof (inv_nodup _ _ _ _ _ Hinv) as Hnd. rewrite app_nil_r in Hnd.
  pose proof (inv_units _ _ _ _ _ Hinv) as Hin. rewrite app_nil_r in Hin.
  intros o1 u o2 Es.
  assert (o1 ⊆ units) as Ho1 by (intros x Hx; apply Hin; rewrite Es; apply elem_of_app; by left).
  assert (u ∈ units) as Hu by (apply Hin; rewrite Es; apply elem_of_app; right; left).
  split.
  - split; [done|]. split.
    + intros Hu1. rewrite Es in Hnd. apply (NoDup_fmap_1 uid), NoDup_app in Hnd as (_ & Hd & _).
      apply (Hd u Hu1). left.
    + apply pending_deps; [done..|]. by eapply inv_order.
  - intros v (Hv & Hvo & Hd). eapply inv_least; [exact Hinv|exact Es|done..|].
    by apply pending_deps.
Qed.

(** A set of kits each of which has an entry met by another of the set. *)
Definition waiting_set (S : list Unit) : Prop :=
  S ≠ [] ∧ S ⊆ units ∧ ∀ u, u ∈ S → ∃ p, p ∈ S ∧ p ∈ unit_deps ix u.

Lemma edge_key_elem p u :
  p ∈ units → u ∈ units → (uid p, uid u) ∈ edge_key <$> es ↔ p ∈ unit_deps ix u.
Proof.
  intros Hp Hu. rewrite list_elem_of_fmap. split.
  - intros ([q w] & Ek & He). injection Ek as E1 E2. destruct (edges_units q w He) as [Hq Hw].
    apply (uid_inj units es g) in E1; [|kahn..]. apply (uid_inj units es g) in E2; [|kahn..].
    subst. by apply edges_elem in He as [_ He].
  - intros Hd. exists (p, u). split; [done|]. by apply edges_elem.
Qed.

Lemma and_swap_under (A B C : Prop) : (A → (B ↔ C)) → (B ∧ A) ↔ (A ∧ C).
Proof. clear. tauto. Qed.

(** What the loop leaves out waits for itself. *)
Lemma left_over_waiting d o u :
  loop_inv units es d [] o → u ∈ units → u ∉ o →
  waiting_set (List.filter (λ u, bool_decide (0 < default 0 (d !! uid u))%Z) units).
Proof.
  intros Hinv Hu Ho.
  assert (∀ v, v ∈ List.filter (λ u, bool_decide (0 < default 0 (d !! uid u))%Z) units ↔
               v ∈ units ∧ v ∉ o) as Hf.
  { intros v. rewrite filter_elem_of, bool_decide_eq_true. apply and_swap_under.
    intros Hv. eapply (left_out_degree units es g); kahn. }
  split; [|split].
  - intros E0. assert (u ∈ @nil Unit) as Hx; [|by inversion Hx]. rewrite <-E0. by apply Hf.
  - intros v Hv. by apply Hf in Hv as [].
  - intros v [Hv Hvo]%Hf.
    destruct (left_out_waits units es g units_nodup edges_units edges_nodup graph_dependents
                graph_degree d o v Hinv Hv Hvo) as (p & Hp & Hpu & Hpo).
    exists p. split; [by apply Hf|]. by apply edge_key_elem.
Qed.

Lemma not_all_composed d o :
  loop_inv units es d [] o → length o ≠ length units → ∃ u, u ∈ units ∧ u ∉ o.
Proof.
  intros Hinv E. destruct (decide (Forall (λ i, i ∈ ids o) (ids units))) as [Hs|Hs].
  - destruct E. apply (loop_end units es g) with (degrees := d); [kahn..|].
    pose proof (inv_nodup _ _ _ _ _ Hinv) as Hnd. rewrite app_nil_r in Hnd.
    pose proof (inv_units _ _ _ _ _ Hinv) as Hin. rewrite app_nil_r in Hin.
    apply NoDup_Permutation; [by apply (NoDup_fmap_1 uid)..|]. intros u. split; [apply Hin|].
    intros Hu. apply (uid_elem units es g); [kahn..|done|done|].
    rewrite Forall_forall in Hs. by apply Hs, list_elem_of_fmap_2.
  - apply not_Forall_Exists in Hs; [|intros i; apply _].
    apply Exists_exists in Hs as (i & Hi & Ho).
    apply list_elem_of_fmap in Hi as (u & -> & Hu). exists u. split; [done|].
    intros H1. apply Ho. by apply list_elem_of_fmap_2.
Qed.

Lemma order_Err e :
  order units ix = Err e →
  ∃ S, waiting_set S ∧ e = DependencyCycle (sort_strings (map Reference S)).
Proof.
  destruct order_cases as (d & o & Hinv & ->). case_bool_decide as E; [done|].
  intros [= <-]. eexists. split; [|done].
  destruct (not_all_composed d o Hinv E) as (u & Hu & Ho). by eapply left_over_waiting.
Qed.

Lemma order_waiting S : waiting_set S → is_ok (order units ix) = false.
Proof.
  intros (Hne & HS & Hw). destruct order_cases as (d & o & Hinv & ->).
  case_bool_decide as E; [|done]. exfalso. destruct S as [|u S]; [done|].
  apply (loop_end units es g) in Hinv as Hl; [|kahn..]. apply Hl in E.
  eapply (waiting_set_left_out units es g) with (S := u :: S) (u := u);
    [kahn..|exact HS| |left|rewrite E; apply HS; left].
  intros v Hv. destruct (Hw v Hv) as (p & Hp & Hd). exists p. split; [done|].
  apply edge_key_elem; auto.
Qed.
End Set_.

(** ** What an accepted set satisfies *)

Lemma flat_map_nil {A B} (f : A → list B) l : flat_map f l = [] ↔ ∀ x, x ∈ l → f x = [].
Proof.
  induction l as [|x l IH]; [split; [intros _ x Hx; inversion Hx|done]|]. cbn.
  rewrite app_nil, IH. setoid_rewrite elem_of_cons. naive_solver.
Qed.

Definition workloads (units : list Unit) : list Unit :=
  List.filter (λ u, bool_decide (Kind (descriptor u) = KindWorkload)) units.

Lemma checkOneWorkload_loop_ok w units r :
  checkOneWorkload_loop w units = (r, []) → option_list r = option_list w ++ workloads units.
Proof.
  revert w. induction units as [|u units IH]; intros w; cbn.
  { intros [= <-]. by rewrite app_nil_r. }
  destruct (bool_decide (Kind (descriptor u) = KindWorkload)); cbn; [|apply IH].
  destruct w as [w|].
  - by destruct (checkOneWorkload_loop _ units).
  - intros E. apply IH in E. done.
Qed.

Lemma checkOneWorkload_ok units partial w :
  checkOneWorkload units partial = (w, []) →
  workloads units = option_list w ∧ (w = None → partial = true).
Proof.
  unfold checkOneWorkload. destruct (checkOneWorkload_loop None units) as [w' ps] eqn:E.
  intros [= <- E']. apply app_nil in E' as [-> Hn]. apply checkOneWorkload_loop_ok in E.
  split; [done|]. intros ->. by destruct partial.
Qed.

Lemma one_owner ix name p q :
  checkOneProviderPerName ix = [] →
  p ∈ providers ix name → q ∈ providers ix name → uid (punit p) = uid (punit q).
Proof.
  intros E Hp Hq. unfold checkOneProviderPerName in E. apply map_eq_nil in E.
  assert (many_owners (providers ix name) = false) as Hm.
  { apply not_true_iff_false. intros Hm. unfold providers in Hm.
    destruct (ix !! name) as [ps|] eqn:El; [|done].
    assert (name ∈ sort_strings (map fst (List.filter (λ np, many_owners np.2) (map_to_list ix))))
      as Hin; [|rewrite E in Hin; by inversion Hin].
    apply sort_strings_elem_of, list_elem_of_In, in_map_iff. exists (name, ps). split; [done|].
    apply list_elem_of_In, filter_elem_of. split; [done|]. by apply elem_of_map_to_list. }
  unfold many_owners in Hm. apply Nat.ltb_ge in Hm.
  assert (∀ r, r ∈ providers ix name → uid (punit r) ∈ (λ p, uid (punit p)) <$> owners (providers ix name))
    as Ho by (intros r Hr; apply dedupe_key; by apply list_elem_of_fmap_2 with (f := λ p, uid (punit p))).
  pose proof (Ho _ Hp) as H1. pose proof (Ho _ Hq) as H2.
  destruct (owners (providers ix name)) as [|o [|]]; cbn in *; [by inversion H1| |lia].
  apply list_elem_of_singleton in H1, H2. congruence.
Qed.

Section Accepted.
Context `{ReadySort}.
Context (units : list Unit) (partial capabilities : bool) (r : Resolution).
Context (units_nodup : NoDup (ids units)).
Context (accepted : resolve units partial capabilities = Ok r).
#[local] Set Default Proof Using "All".

Let ix := (providesIndex units).1.

Lemma accepted_inv :
  described units ∧ (Workload r, ix, []) = coherence units partial capabilities ∧
  order units ix = Ok (topological r) ∧
  Mixins r = List.filter (λ u, negb (is_workload (Workload r) u)) (topological r).
Proof.
  clear units_nodup. revert accepted. unfold resolve. case_bool_decide; [done|].
  destruct (List.find _ units) eqn:Ef; [done|].
  assert (described units) as Hd.
  { apply Forall_forall. intros u Hu. apply list_elem_of_In in Hu.
    pose proof (find_none _ _ Ef u Hu) as Hn. cbn in Hn.
    by apply negb_false_iff, bool_decide_eq_true in Hn. }
  destruct (coherence units partial capabilities) as [[w ix'] ps] eqn:Ec.
  assert (ix' = ix) as ->.
  { unfold coherence in Ec. destruct (checkOneWorkload units partial).
    unfold ix. destruct (providesIndex units). by injection Ec as <- <-. }
  destruct ps; [|done]. destruct (order units ix) as [o|] eqn:Eo; [|done].
  intros [= <-]. done.
Qed.

Lemma accepted_checks :
  workloads units = option_list (Workload r) ∧ (Workload r = None → partial = true) ∧
  checkOneProviderPerName ix = [] ∧
  (∀ u s, u ∈ units → s ∈ Requires (descriptor u) → requires_problem ix u s = []) ∧
  (∀ u s, u ∈ units → s ∈ Integrates (descriptor u) → integrates_problem ix u s = []) ∧
  (∀ u name, u ∈ units → name ∈ Conflicts (descriptor u) → conflicts_problem ix u name = []).
Proof.
  destruct accepted_inv as (_ & Hc & _). unfold coherence in Hc.
  destruct (checkOneWorkload units partial) as [w p1] eqn:Ew. unfold ix in *.
  destruct (providesIndex units) as [ix' p2]. cbn in *. injection Hc as -> Hp.
  symmetry in Hp. repeat (apply app_nil in Hp as [? Hp]). subst.
  apply checkOneWorkload_ok in Ew as [? ?]. split_and!; try done.
  all: unfold checkRequires, checkIntegrates, checkConflicts in *.
  all: repeat match goal with H : flat_map _ _ = [] |- _ => rewrite flat_map_nil in H end.
  all: intros u s Hu; apply (flat_map_nil _ _); naive_solver.
Qed.

Lemma unit_provides_providers u e :
  u ∈ units → e ∈ unit_provides u → e ∈ providers ix (PName (provide e)) ∧ punit e = u.
Proof.
  intros Hu He. destruct accepted_inv as (Hd & _). unfold ix.
  rewrite providesIndex_providers by done. split.
  - apply filter_elem_of. split; [by apply bool_decide_eq_true|].
    apply list_elem_of_In, in_flat_map. exists u. by rewrite <-!list_elem_of_In.
  - unfold unit_provides in He. apply list_elem_of_omap in He as (s & _ & E).
    destruct (ParseProvide s); [|done]. by injection E as <-.
Qed.

Lemma topological_units : topological r ≡ₚ units.
Proof.
  destruct accepted_inv as (Hd & _ & Ho & _). by apply order_Ok in Ho as [].
Qed.

Lemma workload_in w : Workload r = Some w → w ∈ units ∧ Kind (descriptor w) = KindWorkload.
Proof.
  destruct accepted_checks as (Hw & _). intros E. rewrite E in Hw.
  assert (w ∈ workloads units) as [Hk Hu]%filter_elem_of by (rewrite Hw; left).
  by apply bool_decide_eq_true in Hk.
Qed.

Lemma ordered_units : Ordered r ≡ₚ units.
Proof.
  destruct accepted_inv as (_ & _ & _ & Hm). rewrite <-topological_units. unfold Ordered.
  rewrite Hm. destruct (Workload r) as [w|] eqn:Ew.
  - destruct (workload_in w Ew) as [Hu _].
    assert (w ∈ topological r) as Hin by by rewrite topological_units.
    assert (NoDup (ids (topological r))) as Hnd by by rewrite topological_units.
    clear -Hin Hnd. induction (topological r) as [|v l IH]; [by inversion Hin|]. cbn in *.
    apply NoDup_cons in Hnd as [Hv Hl]. unfold is_workload, same_unit at 1.
    apply elem_of_cons in Hin as [->|Hin].
    + rewrite bool_decide_eq_true_2 by done. cbn. constructor. clear -Hv.
      induction l as [|x l IH]; [done|]. cbn. unfold same_unit.
      rewrite bool_decide_eq_false_2; [cbn; constructor; apply IH|]; set_solver.
    + rewrite bool_decide_eq_false_2; [cbn|by intros E; apply Hv; rewrite E; apply list_elem_of_fmap_2].
      rewrite perm_swap. constructor. by apply IH.
  - assert (∀ l, List.filter (λ u, negb (is_workload None u)) l = l) as ->; [|done].
    intros l. induction l as [|x l IH]; [done|]. cbn in *. by rewrite IH.
Qed.

Lemma require_met u s :
  u ∈ units → s ∈ Requires (descriptor u) →
  ∃ req p, ParseRequire s = Ok req ∧ satisfiedBy req ix u = Some p.
Proof.
  intros Hu Hs. destruct accepted_checks as (_ & _ & _ & Hr & _). specialize (Hr u s Hu Hs).
  unfold requires_problem in Hr. destruct (ParseRequire s) as [req|]; [|done].
  destruct (satisfiedBy req ix u) as [p|] eqn:E; [by exists req, p|]. by destruct (providers ix _).
Qed.

Lemma met_precedes u s p :
  u ∈ units → s ∈ Requires (descriptor u) ++ Integrates (descriptor u) →
  met ix u s = Some p →
  p ∈ units ∧ uid p ≠ uid u ∧ precedes p u (topological r) ∧
  ∃ req e, ParseRequire s = Ok req ∧ e ∈ unit_provides p ∧ Satisfies (provide e) req = true.
Proof.
  intros Hu Hs Hm. destruct accepted_inv as (Hd & _ & Ho & _).
  assert (∃ q, q ∈ unit_deps ix u ∧ uid q = uid p) as (q & Hq & Eq).
  { assert (uid p ∈ ids (unit_deps ix u)) as Hk.
    - apply dedupe_key, list_elem_of_fmap_2, list_elem_of_omap. by exists s.
    - apply list_elem_of_fmap in Hk as (q & E & Hq). by exists q. }
  pose proof Hm as Hm'. unfold met in Hm'. destruct (ParseRequire s) as [req|] eqn:Es; [|done].
  apply satisfiedBy_Some in Hm' as (Hp & Hne & e & He & Hsat); [|done].
  split; [done|]. split; [done|]. apply order_Ok in Ho as [Hperm Hprec]; [|done..]. split.
  - assert (q = p) as <-; [|by apply Hprec].
    apply (unit_deps_met units) in Hq as (s' & _ & Hs'); [|done..]. unfold met in Hs'.
    destruct (ParseRequire s'); [|done]. apply satisfiedBy_Some in Hs' as (Hq & _); [|done].
    by eapply uid_unique.
  - by exists req, e.
Qed.
End Accepted.

Lemma precedes_filter (f : Unit → bool) p u l :
  precedes p u l → f p = true → f u = true → precedes p u (List.filter f l).
Proof.
  intros (l1 & l2 & -> & Hp) Hfp Hfu. exists (List.filter f l1), (List.filter f l2).
  rewrite List.filter_app. cbn. rewrite Hfu. split; [done|]. by apply filter_elem_of.
Qed.

Lemma integration_met `{ReadySort} units partial capabilities r u s :
  NoDup (ids units) → resolve units partial capabilities = Ok r →
  u ∈ units → s ∈ Integrates (descriptor u) →
  ∃ req, ParseRequire s = Ok req ∧
    ((∃ p, met (providesIndex units).1 u s = Some p) ∨
     othersProviding (RName req) (providesIndex units).1 u = []).
Proof.
  intros Hnd Hr Hu Hs.
  destruct (accepted_checks units partial capabilities r Hnd Hr) as (_ & _ & _ & _ & Hi & _).
  specialize (Hi u s Hu Hs). unfold integrates_problem, met in *.
  destruct (ParseRequire s) as [req|]; [|done]. exists req. split; [done|].
  destruct (othersProviding _ _ _); [by right|].
  destruct (satisfiedBy _ _ _) as [q|]; [left; by exists q|done].
Qed.

Lemma others_none units name u v e :
  described units → othersProviding name (providesIndex units).1 u = [] →
  v ∈ units → uid v ≠ uid u → e ∈ unit_provides v → punit e = v → PName (provide e) ≠ name.
Proof.
  intros Hd Ho Hv Hne He Epu En. unfold othersProviding in Ho.
  assert (e ∈ @nil provider) as Hx; [|by inversion Hx]. rewrite <-Ho.
  apply filter_elem_of. split.
  - apply negb_true_iff, bool_decide_eq_false. by rewrite Epu.
  - rewrite providesIndex_providers by done. apply filter_elem_of.
    split; [by apply bool_decide_eq_true|].
    apply list_elem_of_In, in_flat_map. exists v. by rewrite <-!list_elem_of_In.
Qed.

(** The specification leaves one order when references are distinct. *)
Lemma nodup_refs_inj units u v :
  NoDup (map Reference units) → u ∈ units → v ∈ units → Reference u = Reference v → u = v.
Proof. apply NoDup_fmap_elem. Qed.

Lemma greedy_unique units units' l l' :
  (∀ o u, available units o u ↔ available units' o u) →
  NoDup (map Reference units) → length l = length l' →
  greedy units l → greedy units' l' → l = l'.
Proof.
  intros Hav Hnd Hlen Hg Hg'.
  assert (∀ o r r', l = o ++ r → l' = o ++ r' → r = r') as H0; [|by apply (H0 [])].
  intros o r. revert o. induction r as [|u r IH]; intros o r' El El'.
  - rewrite El, El', !length_app in Hlen. destruct r'; [done|cbn in Hlen; lia].
  - destruct r' as [|u' r']; [rewrite El, El', !length_app in Hlen; cbn in Hlen; lia|].
    destruct (Hg _ _ _ El) as [Hu Hmin], (Hg' _ _ _ El') as [Hu' Hmin'].
    assert (u = u') as <-.
    { apply (nodup_refs_inj units); [done|by apply Hu|by apply Hav in Hu' as []|].
      apply (anti_symm String.le); [by apply Hmin, Hav|by apply Hmin', Hav]. }
    f_equal. apply (IH (o ++ [u])); by rewrite <-app_assoc.
Qed.

(** With one owner per name the met provider is a function of the set. *)
Lemma satisfiedBy_unique ix ix' req u p :
  checkOneProviderPerName ix = [] → providers ix (RName req) ≡ₚ providers ix' (RName req) →
  satisfiedBy req ix u = Some p →
  ∃ q, satisfiedBy req ix' u = Some q ∧ uid q = uid p.
Proof.
  intros Ho Hp. unfold satisfiedBy. set (f := λ c, _).
  destruct (List.find f (providers ix (RName req))) as [c|] eqn:E; [|done]. intros [= <-].
  apply find_some in E as [Hc%list_elem_of_In Hf].
  destruct (List.find f (providers ix' (RName req))) as [c'|] eqn:E'.
  - apply find_some in E' as [Hc'%list_elem_of_In _]. rewrite <-Hp in Hc'.
    eexists. split; [done|]. by eapply one_owner.
  - rewrite Hp in Hc. apply list_elem_of_In in Hc.
    by rewrite (find_none _ _ E' _ Hc) in Hf.
Qed.

Lemma providers_perm units units' name :
  described units → units ≡ₚ units' →
  providers (providesIndex units).1 name ≡ₚ providers (providesIndex units').1 name.
Proof.
  intros Hd Hp. assert (described units') by by (unfold described; rewrite <-Hp).
  rewrite !providesIndex_providers by done. apply filter_Permutation.
  by apply Permutation_flat_map.
Qed.

Lemma unit_deps_perm units units' u p :
  NoDup (ids units) → described units → units ≡ₚ units' →
  checkOneProviderPerName (providesIndex units).1 = [] →
  p ∈ unit_deps (providesIndex units).1 u → p ∈ unit_deps (providesIndex units').1 u.
Proof.
  intros Hnd Hd Hp Ho Hin.
  assert (described units') as Hd' by by (unfold described; rewrite <-Hp).
  apply dedupe_elem_of in Hin as Hin'. apply list_elem_of_omap in Hin' as (s & Hs & Hm).
  assert (p ∈ units ∧ ∃ q, met (providesIndex units').1 u s = Some q ∧ uid q = uid p)
    as (Hpu & q & Hq & Eq).
  { unfold met in *. destruct (ParseRequire s) as [req|]; [|done].
    split; [by apply satisfiedBy_Some in Hm as []|].
    eapply satisfiedBy_unique; [done|by apply providers_perm|done]. }
  assert (∃ q', q' ∈ unit_deps (providesIndex units').1 u ∧ uid q' = uid q) as (q' & Hq' & Eq').
  { assert (uid q ∈ ids (unit_deps (providesIndex units').1 u)) as Hk.
    - apply dedupe_key, list_elem_of_fmap_2, list_elem_of_omap. by exists s.
    - apply list_elem_of_fmap in Hk as (q' & E & Hq'). by exists q'. }
  assert (q' = p) as <-; [|done]. apply (uid_unique units); [done| |done|congruence].
  apply dedupe_elem_of, list_elem_of_omap in Hq' as (s' & _ & Hs'). unfold met in Hs'.
  destruct (ParseRequire s'); [|done]. apply satisfiedBy_Some in Hs' as (Hx & _); [|done].
  by rewrite Hp.
Qed.

Lemma available_perm units units' o u :
  NoDup (ids units) → described units → units ≡ₚ units' →
  checkOneProviderPerName (providesIndex units).1 = [] →
  checkOneProviderPerName (providesIndex units').1 = [] →
  available units o u ↔ available units' o u.
Proof.
  intros Hnd Hd Hp Ho Ho'. assert (described units') as Hd' by by (unfold described; rewrite <-Hp).
  assert (NoDup (ids units')) as Hnd' by by rewrite <-Hp.
  unfold available. rewrite Hp. split; intros (Hu & Hn & Hdep); split_and!; try done;
    intros p Hin; apply Hdep.
  - by apply (unit_deps_perm units' units).
  - by apply (unit_deps_perm units units').
Qed.

(** ** Acceptance does not depend on the order of the set *)

Lemma and_iff_under (A B C : Prop) : (A → (B ↔ C)) → (A ∧ B) ↔ (A ∧ C).
Proof. tauto. Qed.
Lemma checkOneWorkload_nil units partial :
  (checkOneWorkload units partial).2 = [] ↔
    length (workloads units) ≤ 1 ∧ (partial = false → length (workloads units) = 1).
Proof.
  assert (∀ w, match checkOneWorkload_loop w units with
    | (r, ps) => (ps = [] ↔ length (option_list w ++ workloads units) ≤ 1) ∧
        (is_Some r ↔ is_Some w ∨ workloads units ≠ [])
    end) as Hloop.
  { induction units as [|u units IH]; intros w; cbn.
    - destruct w; cbn; split; [split; [lia|done]|naive_solver|split; [lia|done]|naive_solver].
    - destruct (bool_decide (Kind (descriptor u) = KindWorkload)); cbn; [|apply IH].
      destruct w as [w|].
      + specialize (IH (Some w)). destruct (checkOneWorkload_loop _ units) as [r ps]. destruct IH as [_ IH].
        cbn. split; [split; [done|cbn; lia]|]. rewrite IH. naive_solver.
      + specialize (IH (Some u)). destruct (checkOneWorkload_loop _ units) as [r ps]. destruct IH as [IH1 IH2].
        cbn in *. split; [done|]. rewrite IH2. naive_solver. }
  specialize (Hloop None). unfold checkOneWorkload. destruct (checkOneWorkload_loop None units) as [r ps].
  destruct Hloop as [Hps Hr]. cbn in *. rewrite app_nil, Hps. apply and_iff_under. intros Hl.
  destruct r as [r|].
  - split; [|done]. intros _ _. destruct (proj1 Hr (mk_is_Some _ _ eq_refl)) as [[]|Hne]; [done|].
    destruct (workloads units); [done|cbn in *; lia].
  - destruct partial; [done|]. split; [done|]. intros H. specialize (H eq_refl).
    destruct (proj2 Hr) as [? ?]; [|done]. right. by destruct (workloads units).
Qed.

Lemma providesIndex_problems units :
  (providesIndex units).2 = [] ↔ ∀ u s, u ∈ units → s ∈ Provides (descriptor u) → is_ok (ParseProvide s) = true.
Proof.
  assert (∀ u fallback l st, (foldl (index_entry u fallback) st l).2 = [] ↔
    st.2 = [] ∧ ∀ s, s ∈ l → is_ok (ParseProvide s) = true) as Hentries.
  { intros u fallback l. induction l as [|s l IH]; intros [ix ps]; cbn.
    - split; [|by intros []]. intros ->. split; [done|]. by intros ? ?%not_elem_of_nil.
    - rewrite IH. setoid_rewrite elem_of_cons. destruct (ParseProvide s) eqn:E; cbn.
      + split; [|naive_solver]. intros [-> H]. split; [done|]. intros s' [->|?]; [by rewrite E|auto].
      + rewrite app_nil. split; [naive_solver|]. intros [_ H]. specialize (H s (or_introl eq_refl)). by rewrite E in H. }
  assert (∀ st, (foldl index_unit st units).2 = [] ↔
    st.2 = [] ∧ ∀ u s, u ∈ units → s ∈ Provides (descriptor u) → is_ok (ParseProvide s) = true) as Hunits.
  { induction units as [|u units IH]; intros st; cbn.
    - split; [|by intros []]. intros ->. split; [done|]. by intros ? ? ?%not_elem_of_nil.
    - rewrite IH. unfold index_unit. rewrite Hentries. setoid_rewrite elem_of_cons. naive_solver. }
  unfold providesIndex. rewrite Hunits. naive_solver.
Qed.

Lemma same_keys_short {A} (key : A → nat) l :
  (∀ p q, p ∈ l → q ∈ l → key p = key q) → length (dedupe key l) ≤ 1.
Proof.
  intros H. pose proof (dedupe_NoDup key l) as Hnd. pose proof (dedupe_elem_of key l) as Hin.
  destruct (dedupe key l) as [|p [|q r]]; cbn; [lia..|]. exfalso.
  apply NoDup_cons in Hnd as [Hnd _]. apply Hnd. cbn.
  rewrite (H p q) by (apply Hin; first [by left|by right; left]). by left.
Qed.
Lemma checkOneProviderPerName_nil ix :
  checkOneProviderPerName ix = [] ↔
    ∀ name p q, p ∈ providers ix name → q ∈ providers ix name → uid (punit p) = uid (punit q).
Proof.
  split; [intros H name p q; by apply one_owner|]. intros H. unfold checkOneProviderPerName.
  enough (List.filter (λ np, many_owners np.2) (map_to_list ix) = []) as -> by done.
  apply list_filter_nil. intros [name ps] Hin. apply elem_of_map_to_list in Hin.
  change (many_owners ps = false). apply Nat.ltb_ge. apply same_keys_short. intros p q. specialize (H name p q). unfold providers in H. by rewrite Hin in H.
Qed.

(** The kits that own a credential, as often as they state it. *)
Definition stating (k : string * string) (u : Unit) : list string :=
  map (λ _, Reference u) (filter (λ k', k' = k) (credential_keys u)).
Lemma credential_owners_lookup units k :
  default [] (credential_owners units !! k) = flat_map (stating k) units.
Proof.
  assert (∀ ref keys m, default [] (foldl (add_owner ref) m keys !! k) =
    default [] (m !! k) ++ map (λ _, ref) (filter (λ k', k' = k) keys)) as Hkeys.
  { intros ref keys. induction keys as [|k' keys IH]; intros m; cbn [foldl]; [by rewrite app_nil_r|].
    rewrite IH. unfold add_owner at 1. rewrite filter_cons. case_decide as E.
    - subst. rewrite lookup_insert_eq. cbn. by rewrite <-(assoc_L (++)).
    - by rewrite lookup_insert_ne. }
  unfold credential_owners.
  assert (∀ m, default [] (foldl (λ m u, foldl (add_owner (Reference u)) m (credential_keys u)) m units !! k) =
    default [] (m !! k) ++ flat_map (stating k) units) as ->; [|by rewrite lookup_empty].
  induction units as [|u units IH]; intros m; cbn; [by rewrite app_nil_r|]. rewrite IH, Hkeys. by rewrite <-(assoc_L (++)).
Qed.
Lemma checkOneCredentialOwner_nil units :
  checkOneCredentialOwner units = [] ↔ ∀ k, length (flat_map (stating k) units) ≤ 1.
Proof.
  unfold checkOneCredentialOwner. split.
  - intros E k. rewrite <-credential_owners_lookup. apply map_eq_nil in E.
    destruct (credential_owners units !! k) as [refs|] eqn:Ek; [cbn|cbn; lia].
    destruct (Nat.le_gt_cases (length refs) 1) as [|Hl]; [done|exfalso].
    assert (k ∈ merge_sort key_le (map fst (List.filter (λ kr, 1 <? length kr.2) (map_to_list (credential_owners units))))) as Hin;
      [|by rewrite E in Hin; apply not_elem_of_nil in Hin].
    rewrite merge_sort_Permutation. apply list_elem_of_In, in_map_iff. exists (k, refs). split; [done|].
    apply filter_In. split; [by apply list_elem_of_In, elem_of_map_to_list|]. by apply Nat.ltb_lt.
  - intros H. enough (List.filter (λ kr, 1 <? length kr.2) (map_to_list (credential_owners units)) = []) as -> by done.
    apply list_filter_nil. intros [k refs] Hin. apply elem_of_map_to_list in Hin. apply Nat.ltb_ge.
    specialize (H k). rewrite <-credential_owners_lookup, Hin in H. done.
Qed.

Lemma satisfiedBy_is_Some r ix u :
  is_Some (satisfiedBy r ix u) ↔
    ∃ c, c ∈ providers ix (RName r) ∧ uid (punit c) ≠ uid u ∧ Satisfies (provide c) r = true.
Proof.
  unfold satisfiedBy, same_unit. destruct (List.find _ _) as [c|] eqn:E.
  - split; [intros _|done]. apply find_some in E as [Hc%list_elem_of_In [Hne%negb_true_iff Hs]%andb_true_iff].
    exists c. split; [done|]. split; [by apply bool_decide_eq_false in Hne|done].
  - split; [by intros []|]. intros (c & Hc%list_elem_of_In & Hne & Hs). pose proof (find_none _ _ E c Hc) as H.
    cbn in H. by rewrite bool_decide_eq_false_2, Hs in H.
Qed.

(** What the checks ask of a set, said without the order of its kits. *)
Definition supplied (ix : index) (r : Require_) (u : Unit) : Prop :=
  ∃ c, c ∈ providers ix (RName r) ∧ uid (punit c) ≠ uid u ∧ Satisfies (provide c) r = true.
Record coherent (units : list Unit) (partial capabilities : bool) : Prop := {
  coherent_workload :
    length (workloads units) ≤ 1 ∧ (partial = false → length (workloads units) = 1);
  coherent_provides u s : u ∈ units → s ∈ Provides (descriptor u) → is_ok (ParseProvide s) = true;
  coherent_names name p q :
    p ∈ providers (providesIndex units).1 name → q ∈ providers (providesIndex units).1 name →
    uid (punit p) = uid (punit q);
  coherent_groups u : capabilities = true → u ∈ units → checkGroups u = [];
  coherent_credentials k : capabilities = true → length (flat_map (stating k) units) ≤ 1;
  coherent_requires u s : u ∈ units → s ∈ Requires (descriptor u) →
    ∃ r, ParseRequire s = Ok r ∧ supplied (providesIndex units).1 r u;
  coherent_integrates u s : u ∈ units → s ∈ Integrates (descriptor u) →
    ∃ r, ParseRequire s = Ok r ∧
      ((∀ c, c ∈ providers (providesIndex units).1 (RName r) → uid (punit c) = uid u) ∨
       supplied (providesIndex units).1 r u);
  coherent_conflicts u name c : u ∈ units → name ∈ Conflicts (descriptor u) →
    c ∈ providers (providesIndex units).1 (NormalizeCapabilityName name) → uid (punit c) = uid u;
}.

Lemma requires_problem_nil ix u s :
  requires_problem ix u s = [] ↔ ∃ r, ParseRequire s = Ok r ∧ supplied ix r u.
Proof.
  unfold requires_problem. destruct (ParseRequire s) as [r|e]; [|split; [done|by intros (? & ? & _)]].
  unfold supplied. split.
  - intros H. exists r. split; [done|]. apply satisfiedBy_is_Some. destruct (satisfiedBy r ix u); [done|].
    by destruct (providers ix (RName r)).
  - intros (r' & [= <-] & [p ->]%satisfiedBy_is_Some). done.
Qed.
Lemma others_nil name ix u :
  othersProviding name ix u = [] ↔ ∀ c, c ∈ providers ix name → uid (punit c) = uid u.
Proof.
  unfold othersProviding, same_unit. rewrite list_filter_nil.
  by setoid_rewrite negb_false_iff; setoid_rewrite bool_decide_eq_true.
Qed.
Lemma integrates_problem_nil ix u s :
  integrates_problem ix u s = [] ↔ ∃ r, ParseRequire s = Ok r ∧
    ((∀ c, c ∈ providers ix (RName r) → uid (punit c) = uid u) ∨ supplied ix r u).
Proof.
  unfold integrates_problem. destruct (ParseRequire s) as [r|e]; [|split; [done|by intros (? & ? & _)]]. split.
  - intros H. exists r. split; [done|]. rewrite <-others_nil. unfold supplied. rewrite <-satisfiedBy_is_Some.
    destruct (othersProviding (RName r) ix u); [by left|]. destruct (satisfiedBy r ix u); [by right|done].
  - intros (r' & [= <-] & [->%others_nil|[p ->]%satisfiedBy_is_Some]); [done|]. by destruct (othersProviding _ _ _).
Qed.
Lemma conflicts_problem_nil ix u name :
  conflicts_problem ix u name = [] ↔
    ∀ c, c ∈ providers ix (NormalizeCapabilityName name) → uid (punit c) = uid u.
Proof.
  rewrite <-others_nil. unfold conflicts_problem, othersProviding. split; [apply map_eq_nil|by intros ->].
Qed.

Lemma coherence_coherent units partial capabilities :
  (coherence units partial capabilities).2 = [] ↔ coherent units partial capabilities.
Proof.
  unfold coherence. pose proof (checkOneWorkload_nil units partial) as Hw. pose proof (providesIndex_problems units) as Hp.
  destruct (checkOneWorkload units partial) as [w p1]. destruct (providesIndex units) as [ix p2] eqn:Ex.
  assert (ix = (providesIndex units).1) as Eix by by rewrite Ex. cbn [snd] in *.
  rewrite !app_nil, Hw, Hp, checkOneProviderPerName_nil. unfold checkRequires, checkIntegrates, checkConflicts.
  rewrite !flat_map_nil.
  setoid_rewrite flat_map_nil. setoid_rewrite requires_problem_nil. setoid_rewrite integrates_problem_nil.
  setoid_rewrite conflicts_problem_nil. rewrite Eix.
  assert ((if capabilities then flat_map checkGroups units ++ checkOneCredentialOwner units else []) = [] ↔
    (∀ u, capabilities = true → u ∈ units → checkGroups u = []) ∧
    (∀ k, capabilities = true → length (flat_map (stating k) units) ≤ 1)) as ->.
  { destruct capabilities; [|split; [split; done|done]]. rewrite app_nil, flat_map_nil, checkOneCredentialOwner_nil. naive_solver. }
  clear Hw Hp Ex. split.
  - intros ([? ?] & ? & ? & [? ?] & H5 & H6 & H7). constructor; [by split|done..| | |]; intros u s; [intros ?; by apply H5|intros ?; by apply H6|intros c ? ?; by apply H7].
  - intros [[? ?] H1 H2 H3 H4 H5 H6 H7]. split_and!; [done|done|exact H1|exact H2|exact H3|exact H4|..]; intros u Hu s Hs;
      [by apply H5|by apply H6|by intros c; apply H7].
Qed.

Lemma described_exact units :
  List.find (λ u, negb (bool_decide (is_Some (Unit_Descriptor u)))) units = None ↔ described units.
Proof.
  unfold described. rewrite Forall_forall. split.
  - intros Ef u Hu%list_elem_of_In. pose proof (find_none _ _ Ef u Hu) as Hn. by apply negb_false_iff, bool_decide_eq_true in Hn.
  - intros H. destruct (List.find _ units) as [u|] eqn:E; [|done]. apply find_some in E as [Hu%list_elem_of_In Hn].
    by rewrite bool_decide_eq_true_2 in Hn by by apply H.
Qed.
Lemma resolve_accepts `{ReadySort} units partial capabilities :
  NoDup (ids units) →
  is_ok (resolve units partial capabilities) = true ↔
    units ≠ [] ∧ described units ∧ coherent units partial capabilities ∧ ¬ ∃ S, waiting_set units S.
Proof.
  intros Hnd. rewrite <-described_exact, <-coherence_coherent. unfold resolve. case_bool_decide as Hne; [split; [done|by intros []]|].
  destruct (List.find _ units) eqn:Ef; [split; [done|by intros (_ & ? & _)]|]. apply described_exact in Ef.
  assert ((coherence units partial capabilities).1.2 = (providesIndex units).1) as Eix.
  { unfold coherence. destruct (checkOneWorkload units partial). by destruct (providesIndex units). }
  destruct (coherence units partial capabilities) as [[w ix] ps]. cbn in Eix. subst ix. cbn [snd].
  destruct ps; [|split; [done|by intros (_ & _ & ? & _)]].
  assert (is_ok (order units (providesIndex units).1) = true ↔ ¬ ∃ S, waiting_set units S) as <-.
  { split; [intros Hok (S & HS); apply order_waiting in HS; [congruence|done..]|].
    intros Hn. destruct (order units _) as [|e] eqn:E; [done|].
    apply order_Err in E as (S & HS & _); [|done..]. destruct Hn. by exists S. }
  destruct (order units _); naive_solver.
Qed.

Lemma supplied_perm units units' r u :
  described units → units ≡ₚ units' →
  supplied (providesIndex units).1 r u → supplied (providesIndex units').1 r u.
Proof. intros Hd Hp (c & Hc & ?). exists c. by rewrite <-(providers_perm units units') by done. Qed.
Lemma coherent_perm units units' partial capabilities :
  described units → units ≡ₚ units' → coherent units partial capabilities → coherent units' partial capabilities.
Proof.
  intros Hd Hp []. pose proof (λ name, providers_perm units units' name Hd Hp) as Hix.
  assert (workloads units ≡ₚ workloads units') as Hw by by apply filter_Permutation.
  constructor.
  - by rewrite <-Hw.
  - intros u s. rewrite <-Hp. eauto.
  - intros name p q. rewrite <-!Hix. eauto.
  - intros u ?. rewrite <-Hp. auto.
  - intros k ?. rewrite <-(Permutation_flat_map (stating k) Hp). auto.
  - intros u s Hu Hs. rewrite <-Hp in Hu. destruct (coherent_requires0 u s Hu Hs) as (r & ? & ?).
    exists r. split; [done|]. by eapply supplied_perm.
  - intros u s Hu Hs. rewrite <-Hp in Hu. destruct (coherent_integrates0 u s Hu Hs) as (r & ? & Hr).
    exists r. split; [done|]. destruct Hr as [Hr|Hr]; [left; intros c; rewrite <-Hix; auto|right; by eapply supplied_perm].
  - intros u name c. rewrite <-Hix, <-Hp. eauto.
Qed.
Lemma waiting_set_perm units units' S :
  NoDup (ids units) → described units → units ≡ₚ units' → checkOneProviderPerName (providesIndex units).1 = [] →
  waiting_set units S → waiting_set units' S.
Proof.
  intros Hnd Hd Hp Ho (Hne & Hsub & Hw). split; [done|]. split; [intros u; rewrite <-Hp; apply Hsub|].
  intros u Hu. destruct (Hw u Hu) as (p & ? & ?). exists p. split; [done|]. by apply (unit_deps_perm units units').
Qed.
Lemma accepts_perm (sort sort' : ReadySort) units units' partial capabilities :
  NoDup (ids units) → units ≡ₚ units' →
  is_ok (@resolve sort units partial capabilities) = true → is_ok (@resolve sort' units' partial capabilities) = true.
Proof.
  intros Hnd Hp. assert (NoDup (ids units')) as Hnd' by by rewrite <-Hp.
  rewrite !resolve_accepts by done. intros (Hne & Hd & Hc & Hw).
  assert (described units') as Hd' by by (unfold described; rewrite <-Hp).
  assert (coherent units' partial capabilities) as Hc' by exact (coherent_perm units units' partial capabilities Hd Hp Hc).
  split; [|split; [done|split; [done|]]].
  - intros ->. apply Hne, Permutation_nil. by symmetry.
  - intros (S & HS). apply Hw. exists S. eapply waiting_set_perm; [exact Hnd'|done|by symmetry| |done].
    apply checkOneProviderPerName_nil, Hc'.
Qed.

(** ** A set to evaluate the definitions on *)

Definition sample_kit (id : nat) (ref kind : string) (provides requires integrates : list string) :
    Unit :=
  mkUnit id ref "" "" (Some (mkDescriptor false SchemaVersion "" "" "" "" "" "" [] kind provides
    requires integrates [] [] ∅ "" [] "" false)) ∅ None.
Definition sample_app : Unit :=
  sample_kit 0 "reg.io/app:2.1" KindWorkload [] ["tool >= 1.0"] [].
Definition sample_tool : Unit :=
  sample_kit 1 "reg.io/tool:1.2" KindMixin ["tool"] [] ["zlib"].
Definition sample_zlib : Unit := sample_kit 2 "reg.io/zlib:3" KindMixin ["zlib@3"] [] [].
Definition sample_set : list Unit := [sample_app; sample_tool; sample_zlib].
Definition sample_resolution : Resolution :=
  mkResolution (Some sample_app) [sample_zlib; sample_tool] [sample_zlib; sample_tool; sample_app].

Lemma sample_resolves :
  @resolve merge_ready sample_set false true = Ok sample_resolution.
Proof. by vm_compute. Qed.

Lemma sample_nodup : NoDup (ids sample_set).
Proof. by apply (bool_decide_unpack _). Qed.

(** ** Properties *)

(** C1: an accepted set is coherent and complete: the resolution lists every kit
    of the set once, its base is the set's one workload (absent only from a
    partial set), every requires entry parses and is satisfied by what another
    kit of the set provides, no capability name has two owners, and no kit
    meets a capability it conflicts with in another. *)
Theorem resolve_sound `{ReadySort} units partial capabilities r :
  NoDup (ids units) → resolve units partial capabilities = Ok r →
  Ordered r ≡ₚ units ∧ Topological r ≡ₚ units ∧
  workloads units = option_list (Workload r) ∧ (Workload r = None → partial = true) ∧
  (∀ u s, u ∈ units → s ∈ Requires (descriptor u) →
    ∃ req p e, ParseRequire s = Ok req ∧ p ∈ units ∧ uid p ≠ uid u ∧
      e ∈ unit_provides p ∧ Satisfies (provide e) req = true) ∧
  (∀ u v e f, u ∈ units → v ∈ units → e ∈ unit_provides u → f ∈ unit_provides v →
    PName (provide e) = PName (provide f) → u = v) ∧
  (∀ u v name e, u ∈ units → v ∈ units → name ∈ Conflicts (descriptor u) →
    e ∈ unit_provides v → PName (provide e) = NormalizeCapabilityName name → v = u).
Proof.
  intros Hnd Hr.
  destruct (accepted_checks units partial capabilities r Hnd Hr) as (Hw & Hn & Ho & _ & _ & Hc).
  pose proof (λ u e, unit_provides_providers units partial capabilities r Hnd Hr u e) as Hp.
  split; [by eapply ordered_units|]. split; [by eapply topological_units|].
  split; [done|]. split; [done|]. split; [|split].
  - intros u s Hu Hs. destruct (require_met _ _ _ _ Hnd Hr u s Hu Hs) as (req & p & Es & Hsat).
    exists req, p. destruct (met_precedes _ _ _ _ Hnd Hr u s p Hu) as (Hpu & Hne & _ & req' & e & E & H').
    { apply elem_of_app. by left. }
    { unfold met. by rewrite Es. }
    exists e. rewrite Es in E. by injection E as <-.
  - intros u v e f Hu Hv He Hf En. apply Hp in He as [He <-]; [|done]. apply Hp in Hf as [Hf <-]; [|done].
    rewrite En in He. apply (uid_unique units); [done..|]. by eapply one_owner.
  - intros u v name e Hu Hv Hname He En. specialize (Hc u name Hu Hname).
    apply Hp in He as [He <-]; [|done]. unfold conflicts_problem in Hc. apply map_eq_nil in Hc.
    destruct (decide (uid (punit e) = uid u)) as [E|E]; [by apply (uid_unique units)|].
    assert (e ∈ @nil provider) as Hx; [|by inversion Hx]. rewrite <-Hc, <-En.
    apply filter_elem_of. split; [|done]. by apply negb_true_iff, bool_decide_eq_false.
Qed.

Lemma resolve_sound_witness :
  Ordered sample_resolution ≡ₚ sample_set ∧
  workloads sample_set = option_list (Workload sample_resolution).
Proof.
  destruct (@resolve_sound merge_ready sample_set false true sample_resolution) as (H1 & _ & H2 & _).
  - exact sample_nodup.
  - by vm_compute.
  - by split.
Defined.

(** C2: the composition order puts providers first: a kit that meets a requires
    entry, or an integrates entry whose capability another kit of the set
    offers, comes before the kit that states it — in the topological order, and
    among the mixins in the layer order too. *)
Theorem resolve_providers_first `{ReadySort} units partial capabilities r u s :
  NoDup (ids units) → resolve units partial capabilities = Ok r → u ∈ units →
  s ∈ Requires (descriptor u) ∨
  s ∈ Integrates (descriptor u) ∧
    (∃ req v e, ParseRequire s = Ok req ∧ v ∈ units ∧ uid v ≠ uid u ∧
       e ∈ unit_provides v ∧ PName (provide e) = RName req) →
  ∃ req p e, ParseRequire s = Ok req ∧ p ∈ units ∧ e ∈ unit_provides p ∧
    Satisfies (provide e) req = true ∧ precedes p u (Topological r) ∧
    (is_workload (Workload r) p = false → is_workload (Workload r) u = false →
     precedes p u (Mixins r)).
Proof.
  intros Hnd Hr Hu Hs.
  assert (∃ p, met (providesIndex units).1 u s = Some p) as [p Hp].
  { destruct Hs as [Hs|[Hs (req & v & e & Es & Hv & Hne & He & En)]].
    - destruct (require_met _ _ _ _ Hnd Hr u s Hu Hs) as (req & p & Es & Hsat).
      exists p. unfold met. by rewrite Es.
    - destruct (integration_met units partial capabilities r u s) as (req' & Es' & [?|Ho]); [done..|].
      rewrite Es in Es'. injection Es' as <-. exfalso.
      destruct (accepted_inv units partial capabilities r Hnd Hr) as [Hd _].
      eapply (others_none units _ u v e); try done.
      by eapply (unit_provides_providers units partial capabilities r Hnd Hr). }
  destruct (met_precedes _ _ _ _ Hnd Hr u s p Hu) as (Hpu & Hne & Hprec & req & e & E & He & Hsat);
    [apply elem_of_app; tauto|done|].
  exists req, p, e. split_and!; try done. intros Hwp Hwu.
  destruct (accepted_inv _ _ _ _ Hnd Hr) as (_ & _ & _ & ->).
  apply precedes_filter; [done|by rewrite Hwp|by rewrite Hwu].
Qed.

Lemma resolve_providers_first_witness :
  ∃ req p e, ParseRequire "zlib" = Ok req ∧ p ∈ sample_set ∧ e ∈ unit_provides p ∧
    Satisfies (provide e) req = true ∧ precedes p sample_tool (Topological sample_resolution) ∧
    (is_workload (Workload sample_resolution) p = false →
     is_workload (Workload sample_resolution) sample_tool = false →
     precedes p sample_tool (Mixins sample_resolution)).
Proof.
  apply (@resolve_providers_first merge_ready sample_set false true sample_resolution).
  - exact sample_nodup.
  - by vm_compute.
  - right; left.
  - right. split; [left|].
    exists (mkRequire "com.docker.kit/zlib" []), sample_zlib,
      (mkProvider sample_zlib (mkProvide "com.docker.kit/zlib" "3")).
    split_and!; [by vm_compute|right; right; left|done|left|done].
Defined.

(** C3: [order] fails exactly on a dependency cycle: it never runs out of fuel,
    it succeeds when no set of kits waits on itself, and when it fails the
    kits it names are such a set. *)
Theorem order_cycle_exact `{ReadySort} units :
  NoDup (ids units) → described units →
  (is_ok (order units (providesIndex units).1) = true ↔ ¬ ∃ S, waiting_set units S) ∧
  (∀ e, order units (providesIndex units).1 = Err e →
    ∃ S, waiting_set units S ∧ e = DependencyCycle (sort_strings (map Reference S))).
Proof.
  intros Hnd Hd. split; [|by apply order_Err]. split.
  - intros Hok (S & HS). apply order_waiting in HS; [|done..]. congruence.
  - intros Hn. destruct (order units _) as [|e] eqn:E; [done|].
    apply order_Err in E as (S & HS & _); [|done..]. destruct Hn. by exists S.
Qed.

Lemma order_cycle_exact_witness :
  let a := sample_kit 0 "a" KindMixin ["a"] ["b"] [] in
  let b := sample_kit 1 "b" KindMixin ["b"] ["a"] [] in
  is_ok (@order merge_ready [a; b] (providesIndex [a; b]).1) = false ∧
  ¬ ¬ ∃ S, waiting_set [a; b] S.
Proof.
  intros a b. destruct (@order_cycle_exact merge_ready [a; b]) as [[_ H] _].
  - by apply (bool_decide_unpack _).
  - repeat constructor; by eexists.
  - assert (is_ok (@order merge_ready [a; b] (providesIndex [a; b]).1) = false) as E by by vm_compute.
    split; [done|]. intros Hn. apply H in Hn. congruence.
Defined.

(** C4: the composition order refines its specification: every next kit is the
    one with the smallest reference among those whose providers are composed. *)
Theorem resolve_greedy `{ReadySort} units partial capabilities r :
  NoDup (ids units) → resolve units partial capabilities = Ok r →
  greedy units (Topological r).
Proof.
  intros Hnd Hr. destruct (accepted_inv units partial capabilities r Hnd Hr) as (Hd & _ & Ho & _).
  exact (proj2 (order_greedy_list units Hnd Hd _ Ho)).
Qed.

Lemma resolve_greedy_witness : greedy sample_set [sample_zlib; sample_tool; sample_app].
Proof.
  apply (@resolve_greedy merge_ready sample_set false true sample_resolution).
  - exact sample_nodup.
  - by vm_compute.
Defined.

(** C5: the resolution is a function of the set: of distinct kits, a set is accepted in every
    order the caller lists it in or in none, whichever of the kits with one reference
    [sort.Slice] puts first; and where the references are distinct too, base, mixins and
    composition order are the same. *)
Theorem resolve_deterministic (sort sort' : ReadySort) units units' partial capabilities :
  NoDup (ids units) → units ≡ₚ units' →
  is_ok (@resolve sort units partial capabilities) = is_ok (@resolve sort' units' partial capabilities) ∧
  (NoDup (map Reference units) → ∀ r r',
    @resolve sort units partial capabilities = Ok r →
    @resolve sort' units' partial capabilities = Ok r' → r = r').
Proof.
  intros Hnd Hp. split.
  { apply eq_bool_prop_intro. split; intros H%Is_true_true; apply Is_true_true.
    - by apply (accepts_perm sort sort' units).
    - apply (accepts_perm sort' sort units'); [by rewrite <-Hp|by symmetry|done]. }
  intros Hrefs r r' Hr Hr'. assert (NoDup (ids units')) as Hnd' by by rewrite <-Hp.
  destruct (accepted_checks _ _ _ _ Hnd Hr) as (Hw & _ & Ho & _).
  destruct (accepted_checks _ _ _ _ Hnd' Hr') as (Hw' & _ & Ho' & _).
  destruct (accepted_inv _ _ _ _ Hnd Hr) as (Hd & _ & Eo & Em).
  destruct (accepted_inv _ _ _ _ Hnd' Hr') as (Hd' & _ & Eo' & Em').
  apply order_greedy_list in Eo as [Hperm Hg]; [|done..].
  apply order_greedy_list in Eo' as [Hperm' Hg']; [|done..].
  assert (topological r = topological r') as E.
  { apply (greedy_unique units units'); [intros; by apply available_perm|done| |done..].
    by rewrite Hperm, Hperm', Hp. }
  assert (Workload r = Workload r') as Ew.
  { assert (workloads units ≡ₚ workloads units') as Hpw by by apply filter_Permutation.
    rewrite Hw, Hw' in Hpw. destruct (Workload r), (Workload r'); cbn in Hpw; try done.
    - apply Permutation_singleton_r in Hpw. by injection Hpw as <-.
    - symmetry in Hpw. by apply Permutation_nil_cons in Hpw.
    - by apply Permutation_nil_cons in Hpw. }
  destruct r, r'. cbn in *. by rewrite Em, Em', E, Ew.
Qed.

Lemma resolve_deterministic_witness :
  @resolve merge_ready [sample_zlib; sample_app; sample_tool] false true = Ok sample_resolution ∧
  is_ok (@resolve merge_ready [sample_zlib; sample_tool] false true) = false.
Proof.
  assert (NoDup (ids sample_set) ∧ sample_set ≡ₚ [sample_zlib; sample_app; sample_tool]) as [Hnd Hp].
  { split; [exact sample_nodup|]. apply (Permutation_app_comm [sample_app; sample_tool] [sample_zlib]). }
  destruct (resolve_deterministic merge_ready merge_ready _ _ false true Hnd Hp) as [Hok Hsame]. split.
  - assert (NoDup (map Reference sample_set)) as Hrefs by by apply (bool_decide_unpack _).
    assert (∃ r, @resolve merge_ready [sample_zlib; sample_app; sample_tool] false true = Ok r) as [r E]
      by (eexists; vm_compute; reflexivity).
    pose proof (Hsame Hrefs sample_resolution r sample_resolves E) as <-. exact E.
  - assert (NoDup (ids [sample_tool; sample_zlib])) as Hnd2 by by apply (bool_decide_unpack _).
    destruct (resolve_deterministic merge_ready merge_ready [sample_tool; sample_zlib] [sample_zlib; sample_tool]
      false true Hnd2 (perm_swap _ _ _)) as [H2 _].
    exact (eq_trans (eq_sym H2) (eq_refl false)).
Defined.
