(* ===== verification/Marshal.v ===== *)
(** The standard library functions behind [spec/surface.go]
    [capabilitySurfaceEntry]: [json.Marshal] of a configuration (compact, keys in
    order, HTML characters escaped), SHA-256 and lower-case hexadecimal. *)
From stdpp Require Import options.
From S2P Require Import Prelude GoStrings Json.

(** ** [json.Marshal] *)

Definition hex_char (n : Z) : ascii :=
  if (n <? 10)%Z then ascii_of_nat (Z.to_nat n + 48) else ascii_of_nat (Z.to_nat n + 87).

Definition unicode_escape (c : ascii) : string :=
  let n := Z.of_nat (nat_of_ascii c) in
  String "\" (String "u" (String "0" (String "0"
    (String (hex_char (n / 16)) (String (hex_char (n mod 16)) ""))))).

Definition quote : ascii := "034".

Definition escape_byte (c : ascii) : string :=
  let n := nat_of_ascii c in
  if bool_decide (c = quote) || bool_decide (c = "\"%char) then String "\" (String c "")
  else if bool_decide (n = 8) then "\b"
  else if bool_decide (n = 9) then "\t"
  else if bool_decide (n = 10) then "\n"
  else if bool_decide (n = 12) then "\f"
  else if bool_decide (n = 13) then "\r"
  else if (n <? 32) || contains_byte c "<>&" then unicode_escape c
  else String c "".

(** U+2028 and U+2029 are escaped too. *)
Fixpoint escape (s : string) : string :=
  match s with
  | String "226" (String "128" (String "168" r)) => "\u2028" +:+ escape r
  | String "226" (String "128" (String "169" r)) => "\u2029" +:+ escape r
  | String c r => escape_byte c +:+ escape r
  | "" => ""
  end.
Definition marshal_string (s : string) : string :=
  String quote "" +:+ escape s +:+ String quote "".

Definition marshal_number (n : number) : string :=
  match n with NInt z => pretty z | NFloat lit => lit end.

Fixpoint marshal (v : value) : string :=
  match v with
  | VNull => "null"
  | VBool true => "true"
  | VBool false => "false"
  | VNum n => marshal_number n
  | VStr s => marshal_string s
  | VList l => "[" +:+ join "," (map marshal l) +:+ "]"
  | VMap m => "{" +:+ join "," (map (λ kv, marshal_string kv.1 +:+ ":" +:+ marshal kv.2) m) +:+ "}"
  | VOther => ""
  end.

(** ** SHA-256 *)

Module Sha256.
Open Scope Z_scope.

Definition word (z : Z) : Z := z mod 2 ^ 32.
Definition rotr (n x : Z) : Z := Z.lor (Z.shiftr x n) (word (Z.shiftl x (32 - n))).

(** The round constants are the leading fractional bits of the cube roots of the
    first 64 primes, the initial state those of the square roots of the first
    eight. *)
Definition is_prime (n : nat) : bool := forallb (λ d, negb (n mod d =? 0)%nat) (seq 2 (n - 2)).
Definition primes : list Z := map Z.of_nat (List.filter is_prime (seq 2 310)).
Fixpoint cube_root (bits : nat) (root n : Z) : Z :=
  match bits with
  | O => root
  | S bits =>
      let root' := root + 2 ^ Z.of_nat bits in
      cube_root bits (if root' * root' * root' <=? n then root' else root) n
  end.
Definition K : list Z :=
  Eval vm_compute in map (λ p, word (cube_root 40 0 (p * 2 ^ 96))) (take 64 primes).
Definition H0 : list Z :=
  Eval vm_compute in map (λ p, word (Z.sqrt (p * 2 ^ 64))) (take 8 primes).

Definition big_endian (n : nat) (z : Z) : list Z :=
  map (λ i, Z.shiftr z (8 * Z.of_nat i) mod 256) (rev (seq 0 n)).
Definition pad (bytes : list Z) : list Z :=
  let l := length bytes in
  bytes ++ [0x80] ++ replicate ((119 - l mod 64) mod 64) 0 ++ big_endian 8 (8 * Z.of_nat l).

Fixpoint words (bytes : list Z) : list Z :=
  match bytes with
  | a :: b :: c :: d :: r => (((a * 256 + b) * 256 + c) * 256 + d) :: words r
  | _ => []
  end.

(** The message schedule, latest word first. *)
Fixpoint schedule (n : nat) (w : list Z) : list Z :=
  match n with
  | O => w
  | S n =>
      let at_ i := default 0 (w !! i) in
      let s0 := Z.lxor (Z.lxor (rotr 7 (at_ 14%nat)) (rotr 18 (at_ 14%nat))) (Z.shiftr (at_ 14%nat) 3) in
      let s1 := Z.lxor (Z.lxor (rotr 17 (at_ 1%nat)) (rotr 19 (at_ 1%nat))) (Z.shiftr (at_ 1%nat) 10) in
      schedule n (word (at_ 15%nat + s0 + at_ 6%nat + s1) :: w)
  end.

Definition round (st : list Z) (kw : Z * Z) : list Z :=
  match st with
  | [a; b; c; d; e; f; g; h] =>
      let S1 := Z.lxor (Z.lxor (rotr 6 e) (rotr 11 e)) (rotr 25 e) in
      let ch := Z.lxor (Z.land e f) (Z.land (Z.lxor e 0xffffffff) g) in
      let t1 := h + S1 + ch + kw.1 + kw.2 in
      let S0 := Z.lxor (Z.lxor (rotr 2 a) (rotr 13 a)) (rotr 22 a) in
      let maj := Z.lxor (Z.lxor (Z.land a b) (Z.land a c)) (Z.land b c) in
      [word (t1 + S0 + maj); a; b; c; word (d + t1); e; f; g]
  | _ => st
  end.
Definition block (h : list Z) (w : list Z) : list Z :=
  zip_with (λ x y, word (x + y)) h
    (foldl round h (combine K (rev (schedule 48 (rev w))))).

Fixpoint blocks (fuel : nat) (h w : list Z) : list Z :=
  match fuel, w with
  | S fuel, _ :: _ => blocks fuel (block h (take 16 w)) (drop 16 w)
  | _, _ => h
  end.
Definition sum (bytes : list Z) : list Z :=
  let w := words (pad bytes) in
  mjoin (map (big_endian 4) (blocks (length w) H0 w)).
End Sha256.

Definition bytes_of (s : string) : list Z :=
  map (λ c, Z.of_nat (nat_of_ascii c)) (String.list_ascii_of_string s).

Definition hex_byte (z : Z) : string :=
  String (hex_char (z / 16)) (String (hex_char (z mod 16)) "").
Definition hex (bytes : list Z) : string := String.concat "" (map hex_byte bytes).

Definition Sum256 (s : string) : list Z := Sha256.sum (bytes_of s).

Example sum256_abc :
  hex (Sum256 "abc") = "ba7816bf8f01cfea414140de5dae2223b00361a396177a9cb410ff61f20015ad".
Proof. by vm_compute. Qed.

Example sum256_two_blocks :
  hex (Sum256 "abcdbcdecdefdefgefghfghighijhijkijkljklmklmnlmnomnopnopq") =
  "248d6a61d20638b8e5c026930c3e6039a33ce45964ff2167f6ecedd419db06c1".
Proof. by vm_compute. Qed.

Example marshal_sample :
  marshal (VMap [("a<", VList [VNum (NInt (-3)); VNull; VStr (String "010" "&")])]) =
  "{" +:+ marshal_string "a<" +:+ ":[-3,null," +:+ marshal_string (String "010" "&") +:+ "]}".
Proof. by vm_compute. Qed.
