(* ===== verification/Surface.v ===== *)
(** [spec/surface.go] and the SSH part of [spec/ssh_agent.go]: the permission
    surface of a descriptor, and the widenings a candidate surface makes over a
    granted one. *)
From stdpp Require Import options.
From S2P Require Import Prelude GoStrings Json Types Config Marshal.

(** ** The surface *)

Record Surface := mkSurface {
  NetworkInstallAllow : list string;
  NetworkInstallDeny : list string;
  NetworkRuntimeAllow : list string;
  NetworkRuntimeDeny : list string;
  NetworkInstallHTTPAllow : list string;
  NetworkInstallHTTPDeny : list string;
  NetworkRuntimeHTTPAllow : list string;
  NetworkRuntimeHTTPDeny : list string;
  CredentialsInstall : list string;
  CredentialsRuntime : list string;
  SSHAgentGrants : list string;
  StoragePaths : list string;
  SkillsPaths : list string;
  SkillsWritePaths : list string;
  Ports : list string;
  USB : list string;
  Privileged : bool;
  Services : list string;
}.

Definition zero_surface : Surface :=
  mkSurface [] [] [] [] [] [] [] [] [] [] [] [] [] [] [] [] false [].

Definition normalized (l : list string) : list string := sort_strings (dedupe id l).

(** Two surfaces side by side, before normalization. *)
Definition surface_app (s t : Surface) : Surface :=
  mkSurface
    (NetworkInstallAllow s ++ NetworkInstallAllow t)
    (NetworkInstallDeny s ++ NetworkInstallDeny t)
    (NetworkRuntimeAllow s ++ NetworkRuntimeAllow t)
    (NetworkRuntimeDeny s ++ NetworkRuntimeDeny t)
    (NetworkInstallHTTPAllow s ++ NetworkInstallHTTPAllow t)
    (NetworkInstallHTTPDeny s ++ NetworkInstallHTTPDeny t)
    (NetworkRuntimeHTTPAllow s ++ NetworkRuntimeHTTPAllow t)
    (NetworkRuntimeHTTPDeny s ++ NetworkRuntimeHTTPDeny t)
    (CredentialsInstall s ++ CredentialsInstall t)
    (CredentialsRuntime s ++ CredentialsRuntime t)
    (SSHAgentGrants s ++ SSHAgentGrants t)
    (StoragePaths s ++ StoragePaths t)
    (SkillsPaths s ++ SkillsPaths t)
    (SkillsWritePaths s ++ SkillsWritePaths t)
    (Ports s ++ Ports t)
    (USB s ++ USB t)
    (Privileged s || Privileged t)
    (Services s ++ Services t).

Definition surface_normalized (s : Surface) : Surface :=
  mkSurface
    (normalized (NetworkInstallAllow s)) (normalized (NetworkInstallDeny s))
    (normalized (NetworkRuntimeAllow s)) (normalized (NetworkRuntimeDeny s))
    (normalized (NetworkInstallHTTPAllow s)) (normalized (NetworkInstallHTTPDeny s))
    (normalized (NetworkRuntimeHTTPAllow s)) (normalized (NetworkRuntimeHTTPDeny s))
    (normalized (CredentialsInstall s)) (normalized (CredentialsRuntime s))
    (normalized (SSHAgentGrants s)) (normalized (StoragePaths s)) (normalized (SkillsPaths s))
    (normalized (SkillsWritePaths s)) (normalized (Ports s)) (normalized (USB s))
    (Privileged s) (normalized (Services s)).

(** ** What each request adds *)

(** A nil or empty configuration is the type alone. *)
Definition capabilitySurfaceEntry (n : Capability) : string :=
  match Config n with
  | None | Some [] => Type_ n
  | Some m =>
      if negb (marshals (VMap m)) then Type_ n +:+ "+unencodable-config"
      else Type_ n +:+ "+" +:+ hex (take 6 (Sum256 (marshal (VMap m))))
  end.

Definition connectionHosts (entries : list NetworkEntry) : list string :=
  normalized (flat_map (λ e, if NetworkEntry_Bounded e then [] else elems (Hosts e)) entries).

Definition entry_grants (e : NetworkEntry) : list string :=
  let methods := EntryMethods e in
  let methods := if bool_decide (MethodAny ∈ methods) then [MethodAny] else methods in
  flat_map (λ host, flat_map (λ m, map (λ p, m +:+ " " +:+ host +:+ p) (EntryPaths e)) methods)
    (elems (Hosts e)).
Definition entrySurface (entries : list NetworkEntry) : list string :=
  flat_map entry_grants entries.

Definition service_surface (n : Capability) : Surface :=
  mkSurface [] [] [] [] [] [] [] [] [] [] [] [] [] [] [] [] false [capabilitySurfaceEntry n].
Definition install_network_surface (r : NetworkRulesV2) : Surface :=
  mkSurface (connectionHosts (AllowV2 r)) (connectionHosts (DenyV2 r)) [] []
    (entrySurface (AllowV2 r)) (entrySurface (DenyV2 r)) [] [] [] [] [] [] [] [] [] [] false [].
Definition runtime_network_surface (r : NetworkRulesV2) : Surface :=
  mkSurface [] [] (connectionHosts (AllowV2 r)) (connectionHosts (DenyV2 r)) [] []
    (entrySurface (AllowV2 r)) (entrySurface (DenyV2 r)) [] [] [] [] [] [] [] [] false [].
Definition network_surface (p : PhasedNetworkV2) : Surface :=
  surface_app
    match InstallV2 p with Some r => install_network_surface r | None => zero_surface end
    match RuntimeV2 p with Some r => runtime_network_surface r | None => zero_surface end.

Definition credential_surface (c : Credential) : Surface :=
  let phases := elems (Credential_Phase c) in
  mkSurface [] [] [] [] [] [] [] []
    (flat_map (λ p, if bool_decide (p = "install") then [Credential_Service c] else []) phases)
    (flat_map (λ p, if bool_decide (p = "install") then [] else [Credential_Service c]) phases)
    [] [] [] [] [] [] false [].

Definition sshAgentSurface (a : SSHAgent) : list string :=
  flat_map (λ phase,
    if negb (SSHAgent_Bounded a) then [phase]
    else map (λ ns, phase +:+ " sign " +:+ ns) (elems (SSHAgent_Sign a)) ++
         map (λ d, phase +:+ " authenticate " +:+ d) (elems (SSHAgent_Authenticate a)))
    (elems (SSHAgent_Phase a)).
Definition ssh_surface (a : SSHAgent) : Surface :=
  mkSurface [] [] [] [] [] [] [] [] [] [] (sshAgentSurface a) [] [] [] [] [] false [].

Definition skills_surface (s : AgentSkills) : Surface :=
  mkSurface [] [] [] [] [] [] [] [] [] [] [] [] [AgentSkills_Path s]
    (if SkillsWritable s then [AgentSkills_Path s] else []) [] [] false [].
Definition volume_surface (v : Volume) : Surface :=
  mkSurface [] [] [] [] [] [] [] [] [] [] [] [Volume_Path v] [] [] [] [] false [].
Definition port_surface (p : Port) : Surface :=
  mkSurface [] [] [] [] [] [] [] [] [] [] [] [] [] [] [PortKey p] [] false [].
Definition usb_surface (u : USBDevice) : Surface :=
  mkSurface [] [] [] [] [] [] [] [] [] [] [] [] [] [] []
    [if negb (bool_decide (USBDevice_Class u = "")) then "class:" +:+ USBDevice_Class u
     else USBDevice_VendorID u +:+ ":" +:+ USBDevice_ProductID u] false [].
Definition privileged_surface : Surface :=
  mkSurface [] [] [] [] [] [] [] [] [] [] [] [] [] [] [] [] true [].

(** A configuration that does not decode is surfaced as a service. *)
Definition decoded_surface {A} (d : decoder A) (zero : A) (f : A → Surface) (n : Capability) :
    Surface :=
  match DecodeCapabilityConfig d zero n with
  | Ok a => f a
  | Err _ => service_surface n
  end.

(** The types that cross no boundary. *)
Definition ungated_types : list string :=
  [CapabilityResources; CapabilityLongRunning; CapabilityAgentSkill; CapabilityAgentSessions;
   CapabilityLifecycle; CapabilityAgentContext; CapabilitySbx].

Definition capability_surface (n : Capability) : Surface :=
  if bool_decide (Type_ n = CapabilityNetworkPolicy) || bool_decide (Type_ n = CapabilityNetworkPolicyV2)
  then
    match NetworkPolicyV2Of [n] with
    | Ok (Some p) => network_surface p
    | _ => service_surface n
    end
  else if bool_decide (Type_ n = CapabilityCredential) then
    decoded_surface decode_credential zero_credential credential_surface n
  else if bool_decide (Type_ n = CapabilitySSHAgent) then
    decoded_surface decode_ssh_agent zero_ssh_agent ssh_surface n
  else if bool_decide (Type_ n = CapabilityAgentSkills) then
    decoded_surface decode_agent_skills (mkAgentSkills "" "") skills_surface n
  else if bool_decide (Type_ n = CapabilityVolume) then
    decoded_surface decode_volume (mkVolume "" "" false "") volume_surface n
  else if bool_decide (Type_ n = CapabilityPort) then
    decoded_surface decode_port (mkPort "" 0 "") port_surface n
  else if bool_decide (Type_ n = CapabilityUSBDevice) then
    decoded_surface decode_usb (mkUSBDevice "" "" "") usb_surface n
  else if bool_decide (Type_ n = CapabilityPrivileged) then privileged_surface
  else if bool_decide (Type_ n ∈ ungated_types) then zero_surface
  else service_surface n.

Definition SurfaceOf (d : Descriptor) : Surface :=
  surface_normalized
    (foldl (λ s n, surface_app s (capability_surface n)) zero_surface
       (DeclaredCapabilities (Capabilities d))).

(** ** Widenings *)

Record Widening := mkWidening { Category : string; Detail : string }.

Definition Widening_String (w : Widening) : string := Category w +:+ ": " +:+ Detail w.
Definition newline : string := String "010" "".
Definition FormatWidenings (ws : list Widening) : string :=
  join newline (map (λ w, "  + " +:+ Widening_String w) ws).

Definition missingFrom (granted candidate : list string) : list string :=
  List.filter (λ c, negb (bool_decide (c ∈ granted))) candidate.

(** Network hosts and entries *)

Record httpEntry := mkHttpEntry { method : string; host : string; path : string }.

Definition parseHTTPEntry (entry : string) : httpEntry :=
  let '(method, rest, _) := cut " " entry in
  let '(host, pathPart, ok) := cut "/" rest in
  if negb ok then mkHttpEntry method host "/" else mkHttpEntry method host ("/" +:+ pathPart).

Definition hostCovers (granting candidate : string) : bool :=
  if bool_decide (granting = "*") || bool_decide (granting = "**") then true
  else
    let '(gName, gPort, _) := cut ":" granting in
    let '(cName, cPort, _) := cut ":" candidate in
    bool_decide (gName = cName) && (bool_decide (gPort = "") || bool_decide (gPort = cPort)).

Definition pathPatternCovers (granted candidate : string) : bool :=
  if bool_decide (granted = candidate) then true
  else if has_suffix "**" granted then
    let prefix := trim_suffix "**" granted in
    has_suffix "/" prefix && (has_prefix prefix candidate || bool_decide (candidate +:+ "/" = prefix))
  else false.

(** One entry contains another. *)
Definition entryCovers (g c : httpEntry) : bool :=
  hostCovers (host g) (host c) &&
  (bool_decide (method g = method c) || bool_decide (method g = MethodAny)) &&
  pathPatternCovers (path g) (path c).

(** [stripPort]: the host of a [host:port] spelling. *)
Definition stripPort (h : string) : string := (cut ":" h).1.1.

Definition suppressed (fresh candidateHosts : list string) (entryHost : string) : bool :=
  let '(name, _, qualified) := cut ":" entryHost in
  if qualified then bool_decide (entryHost ∈ fresh) || bool_decide (name ∈ fresh)
  else
    let named := List.filter (λ h, bool_decide (stripPort h = name)) candidateHosts in
    negb (bool_decide (named = [])) && forallb (λ h, bool_decide (h ∈ fresh)) named.

Definition httpWidenings (grantedHosts candidateHosts grantedHTTP candidateHTTP : list string) :
    list string :=
  let fresh := missingFrom grantedHosts candidateHosts in
  let granted := map parseHTTPEntry grantedHTTP in
  List.filter (λ e,
    let c := parseHTTPEntry e in
    negb (existsb (λ g, entryCovers g c) granted) && negb (suppressed fresh candidateHosts (host c)))
    candidateHTTP.

Definition httpDenyRemovals (grantedHosts candidateHosts grantedDeny candidateDeny : list string) :
    list string :=
  let dropped := missingFrom candidateHosts grantedHosts in
  let candidates := map parseHTTPEntry candidateDeny in
  List.filter (λ e,
    let g := parseHTTPEntry e in
    negb (bool_decide (host g ∈ dropped)) && negb (existsb (λ c, entryCovers c g) candidates))
    grantedDeny.

Definition httpEntryHost (entry : string) : string :=
  let '(_, rest, ok) := cut " " entry in
  if negb ok then "" else (cut "/" rest).1.1.

Definition completeHTTPGrants (hosts grants : list string) : list string :=
  let bounded := map (λ e, stripPort (httpEntryHost e)) grants in
  let entries :=
    map (λ h, mkNetworkEntry (Some [h]) None None)
      (List.filter (λ h, negb (bool_decide (stripPort h ∈ bounded))) hosts) in
  if bool_decide (length entries = 0) then grants
  else normalized (grants ++ entrySurface entries).

(** SSH grants *)

Definition sshDestinationHost (d : string) : string :=
  match last_index "@" d with Some at_ => str_drop (S at_) d | None => d end.

Definition ssh_covered (granted : list string) (c : string) : bool :=
  let unbounded := List.filter (λ g, negb (contains " " g)) granted in
  let '(phase, rest, _) := cut " " c in
  bool_decide (c ∈ granted) || bool_decide (phase ∈ unbounded) ||
  (has_prefix "authenticate " rest &&
   let d := trim_prefix "authenticate " rest in
   let host := sshDestinationHost d in
   negb (bool_decide (host = d)) && bool_decide (phase +:+ " authenticate " +:+ host ∈ granted)).
Definition sshAgentWidenings (granted candidate : list string) : list string :=
  List.filter (λ c, negb (ssh_covered granted c)) candidate.

Definition add (category : string) (details : list string) : list Widening :=
  map (mkWidening category) details.

Definition DiffWidenings (granted candidate : Surface) : list Widening :=
  add "network.install.allow"
    (missingFrom (NetworkInstallAllow granted) (NetworkInstallAllow candidate)) ++
  add "network.runtime.allow"
    (missingFrom (NetworkRuntimeAllow granted) (NetworkRuntimeAllow candidate)) ++
  add "network.install.deny-removed"
    (missingFrom (NetworkInstallDeny candidate) (NetworkInstallDeny granted)) ++
  add "network.runtime.deny-removed"
    (missingFrom (NetworkRuntimeDeny candidate) (NetworkRuntimeDeny granted)) ++
  add "network.install.http.allow"
    (httpWidenings (NetworkInstallAllow granted) (NetworkInstallAllow candidate)
       (completeHTTPGrants (NetworkInstallAllow granted) (NetworkInstallHTTPAllow granted))
       (NetworkInstallHTTPAllow candidate)) ++
  add "network.runtime.http.allow"
    (httpWidenings (NetworkRuntimeAllow granted) (NetworkRuntimeAllow candidate)
       (completeHTTPGrants (NetworkRuntimeAllow granted) (NetworkRuntimeHTTPAllow granted))
       (NetworkRuntimeHTTPAllow candidate)) ++
  add "network.install.http.deny-removed"
    (httpDenyRemovals (NetworkInstallDeny granted) (NetworkInstallDeny candidate)
       (NetworkInstallHTTPDeny granted) (NetworkInstallHTTPDeny candidate)) ++
  add "network.runtime.http.deny-removed"
    (httpDenyRemovals (NetworkRuntimeDeny granted) (NetworkRuntimeDeny candidate)
       (NetworkRuntimeHTTPDeny granted) (NetworkRuntimeHTTPDeny candidate)) ++
  add "credentials.install" (missingFrom (CredentialsInstall granted) (CredentialsInstall candidate)) ++
  add "credentials.runtime" (missingFrom (CredentialsRuntime granted) (CredentialsRuntime candidate)) ++
  add "ssh-agent" (sshAgentWidenings (SSHAgentGrants granted) (SSHAgentGrants candidate)) ++
  add "storage" (missingFrom (StoragePaths granted) (StoragePaths candidate)) ++
  add "skills" (missingFrom (SkillsPaths granted) (SkillsPaths candidate)) ++
  add "skills.write" (missingFrom (SkillsWritePaths granted) (SkillsWritePaths candidate)) ++
  add "ports" (missingFrom (Ports granted) (Ports candidate)) ++
  add "usb" (missingFrom (USB granted) (USB candidate)) ++
  (if negb (Privileged granted) && Privileged candidate
   then [mkWidening "privileged" "requests privileged execution"] else []) ++
  add "services" (missingFrom (Services granted) (Services candidate)).
