(* ===== verification/SurfaceFacts.v ===== *)
(** What the permission surface records, and what an update without widenings
    cannot do. *)
From stdpp Require Import options.
From S2P Require Import Prelude GoStrings Json Types Config Marshal Surface.

(** ** Surfaces as lists of grants *)

Definition surface_lists (s : Surface) : list (list string) :=
  [NetworkInstallAllow s; NetworkInstallDeny s; NetworkRuntimeAllow s; NetworkRuntimeDeny s;
   NetworkInstallHTTPAllow s; NetworkInstallHTTPDeny s; NetworkRuntimeHTTPAllow s;
   NetworkRuntimeHTTPDeny s; CredentialsInstall s; CredentialsRuntime s; SSHAgentGrants s;
   StoragePaths s; SkillsPaths s; SkillsWritePaths s; Ports s; USB s; Services s].

Lemma surface_eq s t :
  surface_lists s = surface_lists t → Privileged s = Privileged t → s = t.
Proof. destruct s, t. cbn. by intros [= <- <- <- <- <- <- <- <- <- <- <- <- <- <- <- <- <-] <-. Qed.

Lemma surface_lists_app s t :
  surface_lists (surface_app s t) = zip_with app (surface_lists s) (surface_lists t).
Proof. done. Qed.

Lemma surface_lists_normalized s :
  surface_lists (surface_normalized s) = map normalized (surface_lists s).
Proof. done. Qed.

(** Every grant of [s] is one of [t]. *)
Definition surface_sub (s t : Surface) : Prop :=
  Forall2 (⊆) (surface_lists s) (surface_lists t) ∧ (Privileged s = true → Privileged t = true).

#[export] Instance surface_sub_refl : Reflexive surface_sub.
Proof. intros s. by split. Qed.

#[export] Instance surface_sub_trans : Transitive surface_sub.
Proof. intros s t u [H1 H2] [H3 H4]. split; [by etrans|auto]. Qed.

Lemma surface_sub_app_l s t : surface_sub s (surface_app s t).
Proof.
  split; [|cbn; intros ->; done]. rewrite surface_lists_app.
  unfold surface_lists. cbn. repeat constructor; apply list_subseteq_app_l; done.
Qed.

Lemma surface_sub_app_r s t : surface_sub t (surface_app s t).
Proof.
  split; [|cbn; intros ->; apply orb_true_r]. rewrite surface_lists_app.
  unfold surface_lists. cbn. repeat constructor; apply list_subseteq_app_r; done.
Qed.

Lemma normalized_elem l x : x ∈ normalized l ↔ x ∈ l.
Proof. unfold normalized. by rewrite sort_strings_elem_of, dedupe_id_elem_of. Qed.

Lemma normalized_NoDup l : NoDup (normalized l).
Proof. unfold normalized. rewrite sort_strings_perm. apply dedupe_id_NoDup. Qed.

Lemma normalized_sorted l : StronglySorted String.le (normalized l).
Proof. apply sort_strings_sorted. Qed.

(** The normal form of a set of grants is unique. *)
Lemma normalized_unique l l' : (∀ x, x ∈ l ↔ x ∈ l') → normalized l = normalized l'.
Proof.
  intros H. apply sort_strings_perm_eq, NoDup_Permutation; [apply dedupe_id_NoDup..|].
  intros x. by rewrite !dedupe_id_elem_of.
Qed.

Lemma normalized_idem l : normalized (normalized l) = normalized l.
Proof. apply normalized_unique, normalized_elem. Qed.

Lemma surface_sub_normalized s : surface_sub s (surface_normalized s).
Proof.
  split; [|done]. rewrite surface_lists_normalized. apply Forall2_fmap_r, Forall_Forall2_diag,
    Forall_true. intros l x. apply normalized_elem.
Qed.

(** ** The surface of a descriptor *)

Definition gathered (cs : list Capability) : Surface :=
  foldl (λ s n, surface_app s (capability_surface n)) zero_surface cs.

Lemma foldl_surface_sub cs s n :
  n ∈ cs → surface_sub (capability_surface n)
             (foldl (λ s n, surface_app s (capability_surface n)) s cs).
Proof.
  assert (∀ cs s, surface_sub s (foldl (λ s n, surface_app s (capability_surface n)) s cs)) as Hs.
  { clear. induction cs as [|c cs IH]; intros s; [done|]. cbn.
    etrans; [apply surface_sub_app_l|apply IH]. }
  revert s. induction cs as [|c cs IH]; intros s Hn; [by inversion Hn|]. cbn.
  apply elem_of_cons in Hn as [->|Hn]; [|by apply IH].
  etrans; [apply surface_sub_app_r|apply Hs].
Qed.

(** Grants are gathered as a set: their order and multiplicity do not matter. *)
Definition grant (k : nat) (x : string) (s : Surface) : Prop :=
  ∃ l, surface_lists s !! k = Some l ∧ x ∈ l.

Lemma grant_app k x s t : grant k x (surface_app s t) ↔ grant k x s ∨ grant k x t.
Proof.
  unfold grant. rewrite surface_lists_app.
  assert (length (surface_lists s) = length (surface_lists t)) as Hl by done.
  setoid_rewrite lookup_zip_with_Some. split.
  - intros (l & (l1 & l2 & -> & H1 & H2) & Hx). apply elem_of_app in Hx as [Hx|Hx]; [left|right]; eauto.
  - intros [(l & Hk & Hx)|(l & Hk & Hx)].
    + assert (is_Some (surface_lists t !! k)) as [l' Hl'].
      { apply lookup_lt_is_Some. rewrite <-Hl. by eapply lookup_lt_Some. }
      exists (l ++ l'). split; [eauto|]. apply elem_of_app. by left.
    + assert (is_Some (surface_lists s !! k)) as [l' Hl'].
      { apply lookup_lt_is_Some. rewrite Hl. by eapply lookup_lt_Some. }
      exists (l' ++ l). split; [eauto|]. apply elem_of_app. by right.
Qed.

Lemma grant_gathered k x cs :
  grant k x (gathered cs) ↔ ∃ n, n ∈ cs ∧ grant k x (capability_surface n).
Proof.
  unfold gathered. assert (∀ s, grant k x (foldl (λ s n, surface_app s (capability_surface n)) s cs) ↔
    grant k x s ∨ ∃ n, n ∈ cs ∧ grant k x (capability_surface n)) as H.
  { induction cs as [|c cs IH]; intros s; cbn.
    - split; [by left|]. intros [?|(n & Hn & _)]; [done|by inversion Hn].
    - rewrite IH, grant_app. setoid_rewrite elem_of_cons. naive_solver. }
  rewrite H. split; [|by right]. intros [(l & Hk & Hx)|]; [|done].
  assert (l ∈ surface_lists zero_surface) as Hl by by eapply list_elem_of_lookup_2.
  exfalso. unfold surface_lists in Hl. cbn in Hl.
  repeat (apply elem_of_cons in Hl as [->|Hl]; [by inversion Hx|]). by inversion Hl.
Qed.

Lemma surface_normalized_ext s t :
  (∀ k x, grant k x s ↔ grant k x t) → Privileged s = Privileged t →
  surface_normalized s = surface_normalized t.
Proof.
  intros H Hp. apply surface_eq; [|done]. rewrite !surface_lists_normalized.
  apply list_eq. intros k. rewrite !list_lookup_fmap. specialize (H k). unfold grant in H.
  destruct (surface_lists s !! k) as [l|] eqn:E, (surface_lists t !! k) as [l'|] eqn:E'; cbn.
  - f_equal. apply normalized_unique. intros x. specialize (H x). naive_solver.
  - apply lookup_lt_Some in E. apply lookup_ge_None in E'. cbn in *. lia.
  - apply lookup_lt_Some in E'. apply lookup_ge_None in E. cbn in *. lia.
  - done.
Qed.

Lemma gathered_privileged cs :
  Privileged (gathered cs) = existsb (λ n, Privileged (capability_surface n)) cs.
Proof.
  unfold gathered.
  assert (∀ s, Privileged (foldl (λ s n, surface_app s (capability_surface n)) s cs) =
    Privileged s || existsb (λ n, Privileged (capability_surface n)) cs) as H; [|apply H].
  induction cs as [|c cs IH]; intros s; cbn; [by rewrite orb_false_r|].
  rewrite IH. cbn. by rewrite orb_assoc.
Qed.

(** ** Containment of grants *)

Lemma missingFrom_nil granted candidate : missingFrom granted candidate = [] ↔ candidate ⊆ granted.
Proof.
  unfold missingFrom. split.
  - intros E x Hx. destruct (decide (x ∈ granted)) as [?|Hn]; [done|].
    assert (x ∈ @nil string) as H; [|by inversion H]. rewrite <-E.
    apply list_elem_of_In, filter_In. rewrite <-list_elem_of_In. split; [done|].
    by rewrite bool_decide_eq_false_2.
  - intros H. induction candidate as [|x l IH]; [done|]. cbn.
    rewrite bool_decide_eq_true_2 by (apply H; left). apply IH. intros y Hy. apply H. by right.
Qed.

(** A path pattern covers itself, and [q/**] covers [q] and everything under
    it. *)
Lemma pathPatternCovers_spec g c :
  pathPatternCovers g c = true ↔
  g = c ∨ ∃ q, g = q +:+ "/**" ∧ (c = q ∨ ∃ t, c = q +:+ "/" +:+ t).
Proof.
  unfold pathPatternCovers. case_bool_decide as E; [split; [by left|done]|].
  split.
  - destruct (has_suffix "**" g) eqn:Es; [|done]. apply has_suffix_inv in Es.
    intros [Hp H]%andb_true_iff. apply has_suffix_inv in Hp. set (q := trim_suffix "/" _) in Hp.
    right. exists q. split; [by rewrite Es, Hp, str_app_assoc|].
    apply orb_true_iff in H as [H|H].
    + right. apply has_prefix_inv in H. eexists. by rewrite H at 1; rewrite Hp at 1; rewrite str_app_assoc.
    + left. apply bool_decide_eq_true in H. rewrite Hp in H.
      apply (f_equal (trim_suffix "/")) in H. by rewrite !trim_suffix_app in H.
  - intros [?|(q & -> & H)]; [done|]. change (q +:+ "/**") with (q +:+ ("/" +:+ "**")).
    rewrite <-str_app_assoc, has_suffix_app, trim_suffix_app, has_suffix_app. cbn.
    destruct H as [->|(t & ->)].
    + rewrite bool_decide_eq_true_2 by done. by rewrite orb_true_r.
    + by rewrite <-str_app_assoc, has_prefix_app.
Qed.

Lemma pathPatternCovers_refl p : pathPatternCovers p p = true.
Proof. apply pathPatternCovers_spec. by left. Qed.

Lemma hostCovers_refl h : hostCovers h h = true.
Proof.
  unfold hostCovers. destruct (_ || _); [done|]. destruct (cut ":" h) as [[n p] q].
  rewrite (bool_decide_eq_true_2 (n = n)), (bool_decide_eq_true_2 (p = p)) by done.
  apply orb_true_r.
Qed.

Lemma entryCovers_refl e : entryCovers e e = true.
Proof.
  unfold entryCovers. by rewrite hostCovers_refl, pathPatternCovers_refl, bool_decide_eq_true_2.
Qed.

(** ** What the entries of a surface mean

    The enforcer's matching of one host name, and of one segment of a path, is the
    runtime's own; of the former the specification says that [*] and [**] are every host. *)
Class RequestMatcher := {
  name_matches : string → string → bool;
  segment_matches : string → string → bool;
  name_matches_any name : name_matches "*" name = true ∧ name_matches "**" name = true;
}.

Record request := mkRequest { to_host : string; to_port : string; by_method : string; at_path : string }.

(** An entry is written ["<METHOD> <host><path>"]; one cut short is read as the root path, of
    no host when it is a method alone. *)
Inductive reads : string → string → string → string → Prop :=
  | reads_path m h t :
      contains_byte " " m = false → contains_byte "/" h = false →
      reads (m +:+ " " +:+ h +:+ "/" +:+ t) m h ("/" +:+ t)
  | reads_host m h :
      contains_byte " " m = false → contains_byte "/" h = false → reads (m +:+ " " +:+ h) m h "/"
  | reads_method m : contains_byte " " m = false → reads m m "" "/".

Section Requests.
Context `{RequestMatcher}.

(** [**] is any number of segments. *)
Inductive globs : list string → list string → Prop :=
  | globs_nil : globs [] []
  | globs_any pattern skipped path : globs pattern path → globs ("**" :: pattern) (skipped ++ path)
  | globs_segment p pattern s path :
      segment_matches p s = true → globs pattern path → globs (p :: pattern) (s :: path).
Definition path_matches (pattern path : string) : Prop := globs (split "/" pattern) (split "/" path).

(** A host pattern with a port is a grant of that port alone. *)
Definition host_matches (pattern : string) (r : request) : Prop :=
  let '(name, port, _) := cut ":" pattern in
  name_matches name (to_host r) = true ∧ (port = "" ∨ port = to_port r).

Definition admits (entries : list string) (r : request) : Prop :=
  ∃ e m h p, e ∈ entries ∧ reads e m h p ∧
    (m = MethodAny ∨ m = by_method r) ∧ host_matches h r ∧ path_matches p (at_path r).

Definition host_name (h : string) : string := (cut ":" h).1.1.
(** What a recorded surface lets through: what its entries admit and, for a host no entry
    names, as in a surface recorded before there were entries, every request to it. *)
Definition opens (hosts entries : list string) (r : request) : Prop :=
  admits entries r ∨
  ∃ h, h ∈ hosts ∧ (∀ e m h' p, e ∈ entries → reads e m h' p → host_name h' ≠ host_name h) ∧
    admits [MethodAny +:+ " " +:+ h +:+ "/**"] r.

Lemma reads_parse e m h p : reads e m h p ↔ parseHTTPEntry e = mkHttpEntry m h p.
Proof.
  split.
  - unfold parseHTTPEntry. intros [m' h' t Hm Hh|m' h' Hm Hh|m' Hm].
    + change (m' +:+ " " +:+ h' +:+ "/" +:+ t) with (m' +:+ String " " (h' +:+ String "/" t)).
      by rewrite cut_app, cut_app by done.
    + change (m' +:+ " " +:+ h') with (m' +:+ String " " h'). by rewrite cut_app, cut_none by done.
    + by rewrite cut_none by done.
  - unfold parseHTTPEntry. destruct (cut " " e) as [[m' rest] []] eqn:E1.
    + apply cut_found in E1 as [-> Hm]. destruct (cut "/" rest) as [[h' t] []] eqn:E2; intros [= <- <- <-].
      * apply cut_found in E2 as [-> Hh]. by apply (reads_path m' h' t).
      * apply cut_not_found in E2 as (-> & -> & Hh). by apply reads_host.
    + apply cut_not_found in E1 as (-> & -> & Hm). intros [= <- <- <-]. by apply reads_method.
Qed.

Lemma globs_app a b path : globs (a ++ b) path → ∃ l r, path = l ++ r ∧ globs a l ∧ globs b r.
Proof.
  revert path. induction a as [|p a IH]; intros path; cbn; [intros Hg; exists [], path; by repeat constructor|].
  intros Hg. inversion Hg as [|? skipped rest Hr|? ? s rest Hs Hr]; subst.
  - destruct (IH _ Hr) as (l & r & -> & Hl & ?). exists (skipped ++ l), r. rewrite (assoc_L (++)). by repeat constructor.
  - destruct (IH _ Hr) as (l & r & -> & Hl & ?). exists (s :: l), r. by repeat constructor.
Qed.
Lemma globs_prefix a l skipped : globs a l → globs (a ++ ["**"]) (l ++ skipped).
Proof.
  induction 1; cbn; rewrite <-?(assoc_L (++)); [|by constructor..].
  rewrite <-(app_nil_r skipped). apply globs_any. constructor.
Qed.

(** The code's containment of patterns is sound, whatever the matchers are. *)
Lemma pathPatternCovers_sound g c path :
  pathPatternCovers g c = true → path_matches c path → path_matches g path.
Proof.
  rewrite pathPatternCovers_spec. unfold path_matches. intros [->|(q & -> & Hc)]; [done|].
  change (q +:+ "/**") with (q +:+ String "/" "**"). rewrite split_app_sep. change (split "/" "**") with ["**"].
  destruct Hc as [->|(t & ->)].
  - intros Hg. rewrite <-(app_nil_r (split "/" path)). by apply globs_prefix.
  - change (q +:+ "/" +:+ t) with (q +:+ String "/" t). rewrite split_app_sep.
    intros (l & r & -> & Hl & _)%globs_app. by apply globs_prefix.
Qed.
Lemma hostCovers_sound g c r : hostCovers g c = true → host_matches c r → host_matches g r.
Proof.
  unfold hostCovers, host_matches.
  destruct (bool_decide_reflect (g = "*")) as [->|]; [cbn; intros _ _; split; [apply name_matches_any|by left]|].
  destruct (bool_decide_reflect (g = "**")) as [->|]; [cbn; intros _ _; split; [apply name_matches_any|by left]|].
  cbn [orb]. destruct (cut ":" g) as [[gn gp] ?], (cut ":" c) as [[cn cp] ?].
  rewrite andb_true_iff, orb_true_iff, !bool_decide_eq_true. naive_solver.
Qed.

Lemma covered_admits wider narrower r :
  (∀ e, e ∈ narrower → existsb (λ g, entryCovers g (parseHTTPEntry e)) (map parseHTTPEntry wider) = true) →
  admits narrower r → admits wider r.
Proof.
  intros Hc (e & m & h & p & He & Hread & Hm & Hh & Hp). apply Hc in He.
  apply existsb_Exists in He as (g & Hg & Hcov). apply list_elem_of_In, in_map_iff in Hg as (x & <- & Hx%list_elem_of_In).
  apply reads_parse in Hread. rewrite Hread in Hcov. destruct (parseHTTPEntry x) as [gm gh gp] eqn:Ex.
  unfold entryCovers in Hcov. cbn in Hcov. rewrite !andb_true_iff, orb_true_iff, !bool_decide_eq_true in Hcov.
  destruct Hcov as [[Hhost Hmeth] Hpath]. exists x, gm, gh, gp. split; [done|]. split; [by apply reads_parse|].
  split; [naive_solver|]. split; [by eapply hostCovers_sound|by eapply pathPatternCovers_sound].
Qed.

Lemma admits_complete hosts entries r : admits (completeHTTPGrants hosts entries) r → opens hosts entries r.
Proof.
  unfold completeHTTPGrants. case_bool_decide; [by left|].
  intros (e & m & h & p & He & Hread & Hrest). apply normalized_elem, elem_of_app in He as [He|He].
  { left. by exists e, m, h, p. }
  right. unfold entrySurface in He. apply list_elem_of_In, in_flat_map in He as (ne & Hne & He).
  apply in_map_iff in Hne as (host & <- & [Hhost%list_elem_of_In Hb]%filter_In).
  cbn in He. destruct He as [<-|[]]. exists host. split; [done|]. split.
  - intros e' m' h' p' He' Hread' En. apply negb_true_iff, bool_decide_eq_false in Hb. apply Hb.
    apply list_elem_of_In, in_map_iff. exists e'. split; [|by apply list_elem_of_In].
    apply reads_parse in Hread'. change (host_name h' = host_name host) in En.
    assert (httpEntryHost e' = Surface.host (parseHTTPEntry e')) as ->; [|by rewrite Hread'].
    unfold httpEntryHost, parseHTTPEntry. destruct (cut " " e') as [[m1 rest] ok] eqn:E1.
    destruct ok; cbn; [|apply cut_not_found in E1 as (_ & -> & _); done].
    by destruct (cut "/" rest) as [[? ?] []].
  - exists (MethodAny +:+ " " +:+ host +:+ "/**"), m, h, p. by split; [left|].
Qed.
End Requests.

Lemma not_suppressed candidateHosts h : suppressed [] candidateHosts h = false.
Proof.
  unfold suppressed. destruct (cut ":" h) as [[n p] []].
  - by rewrite !bool_decide_eq_false_2 by (by intros []%elem_of_nil).
  - destruct (List.filter _ _) as [|x l]; [done|]. cbn. apply andb_false_iff. left.
    apply bool_decide_eq_false. by intros []%elem_of_nil.
Qed.

Lemma httpWidenings_nil gh ch g c :
  ch ⊆ gh → httpWidenings gh ch g c = [] →
  ∀ e, e ∈ c → existsb (λ x, entryCovers x (parseHTTPEntry e)) (map parseHTTPEntry g) = true.
Proof.
  intros Hh H e He. apply missingFrom_nil in Hh. unfold httpWidenings in H.
  rewrite Hh, list_filter_nil in H. specialize (H e He). cbn in H.
  rewrite not_suppressed, andb_true_r in H. by apply negb_false_iff in H.
Qed.

Lemma httpDenyRemovals_nil gh ch g c :
  gh ⊆ ch → httpDenyRemovals gh ch g c = [] →
  ∀ e, e ∈ g → existsb (λ x, entryCovers x (parseHTTPEntry e)) (map parseHTTPEntry c) = true.
Proof.
  intros Hh H e He. apply missingFrom_nil in Hh. unfold httpDenyRemovals in H.
  rewrite Hh, list_filter_nil in H. specialize (H e He). cbn in H.
  rewrite bool_decide_eq_false_2 in H by (by intros []%elem_of_nil). by apply negb_false_iff in H.
Qed.

(** ** SSH grants *)

Lemma ssh_phase_no_space c phase rest b :
  cut " " c = (phase, rest, b) → contains_byte " " phase = false.
Proof.
  destruct b.
  - by intros [_ ?]%cut_found.
  - by intros (-> & _ & ?)%cut_not_found.
Qed.

Lemma contains_space s : contains " " s = contains_byte " " s.
Proof.
  induction s as [|c s IH]; [done|]. cbn [contains]. rewrite contains_byte_cons, IH. f_equal.
  case_bool_decide as E.
  - subst. destruct s; reflexivity.
  - apply not_true_iff_false. intros H. apply has_prefix_inv in H. by injection H.
Qed.

Lemma ssh_covered_in granted c : c ∈ granted → ssh_covered granted c = true.
Proof.
  intros H. unfold ssh_covered. destruct (cut " " c) as [[p r] b].
  by rewrite bool_decide_eq_true_2.
Qed.

(** What covers a whole phase covers every request in it. *)
Lemma ssh_covered_phase granted phase :
  contains_byte " " phase = false → ssh_covered granted phase = true → phase ∈ granted.
Proof.
  intros Hp. unfold ssh_covered. rewrite cut_none by done.
  change (has_prefix "authenticate " "") with false. cbn [andb]. rewrite orb_false_r.
  rewrite orb_true_iff, !bool_decide_eq_true. intros [H|H]; [done|].
  by apply list_elem_of_In, filter_In in H as [H%list_elem_of_In _].
Qed.

Lemma unbounded_elem granted phase :
  contains_byte " " phase = false →
  phase ∈ List.filter (λ g, negb (contains " " g)) granted ↔ phase ∈ granted.
Proof.
  intros Hp. rewrite !list_elem_of_In, filter_In. rewrite contains_space, Hp. tauto.
Qed.

Lemma last_index_none_after c s i : last_index c s = Some i → last_index c (str_drop (S i) s) = None.
Proof.
  revert i. induction s as [|d s IH]; intros i; [done|]. cbn [last_index str_drop].
  destruct (last_index c s) as [j|] eqn:E.
  - intros [= <-]. by apply IH.
  - case_decide; [|done]. by intros [= <-].
Qed.

Lemma sshDestinationHost_idem d : sshDestinationHost (sshDestinationHost d) = sshDestinationHost d.
Proof.
  unfold sshDestinationHost. destruct (last_index "@" d) as [i|] eqn:E.
  - by rewrite (last_index_none_after _ _ _ E).
  - by rewrite E.
Qed.

(** What a list of SSH grants signs: a namespaced signature, or a login to a host as a user. *)
Definition signs (grants : list string) (phase namespace : string) : Prop :=
  phase ∈ grants ∨ phase +:+ " sign " +:+ namespace ∈ grants.
Definition logs_in (grants : list string) (phase user host : string) : Prop :=
  phase ∈ grants ∨ phase +:+ " authenticate " +:+ host ∈ grants ∨
  phase +:+ " authenticate " +:+ user +:+ "@" +:+ host ∈ grants.

Lemma last_index_free c s : contains_byte c s = false → last_index c s = None.
Proof.
  induction s as [|d s IH]; [done|]. rewrite contains_byte_cons. intros [Hd Hs]%orb_false_iff.
  cbn. rewrite IH by done. apply bool_decide_eq_false in Hd. by case_decide.
Qed.
Lemma sshDestinationHost_bare host : contains_byte "@" host = false → sshDestinationHost host = host.
Proof. intros Hh. unfold sshDestinationHost. by rewrite last_index_free. Qed.
Lemma sshDestinationHost_user user host :
  contains_byte "@" host = false → sshDestinationHost (user +:+ "@" +:+ host) = host.
Proof.
  intros Hh. unfold sshDestinationHost.
  assert (last_index "@" (user +:+ "@" +:+ host) = Some (String.length user)) as ->.
  { change (user +:+ "@" +:+ host) with (user +:+ String "@" host). induction user as [|c user IH].
    - rewrite str_app_nil_l. cbn. by rewrite last_index_free.
    - rewrite str_app_cons. cbn. by rewrite IH. }
  change (user +:+ "@" +:+ host) with (user +:+ ("@" +:+ host)). rewrite <-str_app_assoc.
  replace (S (String.length user)) with (String.length (user +:+ "@")) by (rewrite str_length_app; cbn; lia).
  apply str_drop_app.
Qed.

(** An operation of a phase that is covered is granted as it is, or with the whole phase, or
    is a login to a host that is granted for every user. *)
Lemma ssh_covered_operation granted phase rest :
  contains_byte " " phase = false → ssh_covered granted (phase +:+ " " +:+ rest) = true →
  phase +:+ " " +:+ rest ∈ granted ∨ phase ∈ granted ∨
  ∃ d, rest = "authenticate " +:+ d ∧ phase +:+ " authenticate " +:+ sshDestinationHost d ∈ granted.
Proof.
  intros Hp. unfold ssh_covered. change (phase +:+ " " +:+ rest) with (phase +:+ String " " rest).
  rewrite cut_app by done. rewrite !orb_true_iff, !andb_true_iff, !bool_decide_eq_true.
  intros [[H|H]|(Hpre & _ & H)]; [by left| |]; right.
  - left. by apply (unbounded_elem granted phase Hp).
  - right. exists (trim_prefix "authenticate " rest). split; [|done].
    apply has_prefix_inv in Hpre. rewrite Hpre at 2. rewrite trim_prefix_app. exact Hpre.
Qed.

Lemma silent_signs granted candidate phase namespace :
  (∀ c, c ∈ candidate → ssh_covered granted c = true) → contains_byte " " phase = false →
  signs candidate phase namespace → signs granted phase namespace.
Proof.
  intros Hc Hp [H|H]; apply Hc in H.
  - left. by apply ssh_covered_phase in H.
  - apply (ssh_covered_operation granted phase ("sign " +:+ namespace)) in H as [?|[?|(d & E & _)]]; [by right|by left|done|done].
Qed.
Lemma silent_logs_in granted candidate phase user host :
  (∀ c, c ∈ candidate → ssh_covered granted c = true) →
  contains_byte " " phase = false → contains_byte "@" host = false →
  logs_in candidate phase user host → logs_in granted phase user host.
Proof.
  intros Hc Hp Hh [H|[H|H]]; apply Hc in H.
  - left. by apply ssh_covered_phase in H.
  - apply (ssh_covered_operation granted phase ("authenticate " +:+ host)) in H as [?|[?|(d & E & H)]]; [by right; left|by left| |done].
    apply (inj (String.append "authenticate ")) in E as <-. rewrite sshDestinationHost_bare in H by done. by right; left.
  - apply (ssh_covered_operation granted phase ("authenticate " +:+ user +:+ "@" +:+ host)) in H
      as [?|[?|(d & E & H)]]; [by right; right|by left| |done].
    apply (inj (String.append "authenticate ")) in E as <-. rewrite sshDestinationHost_user in H by done. by right; left.
Qed.

(** ** Completing surfaces recorded without HTTP lists *)

Lemma completeHTTPGrants_full hosts grants :
  normalized grants = grants →
  (∀ h, h ∈ hosts → MethodAny +:+ " " +:+ h +:+ "/**" ∈ grants) →
  completeHTTPGrants hosts grants = grants.
Proof.
  intros Hn Hh. unfold completeHTTPGrants. case_bool_decide; [done|].
  transitivity (normalized grants); [|done]. apply normalized_unique. intros x. rewrite elem_of_app.
  split; [|by left]. intros [?|Hx]; [done|]. unfold entrySurface in Hx.
  apply list_elem_of_In, in_flat_map in Hx as (e & He & Hx).
  apply in_map_iff in He as (h & <- & Hin%filter_In). destruct Hin as [Hin _].
  apply list_elem_of_In in Hin. cbn in Hx. destruct Hx as [<-|[]]. by apply Hh.
Qed.

Lemma connectionHosts_granted entries h :
  h ∈ connectionHosts entries → MethodAny +:+ " " +:+ h +:+ "/**" ∈ entrySurface entries.
Proof.
  unfold connectionHosts. rewrite normalized_elem. unfold entrySurface.
  rewrite !list_elem_of_In, !in_flat_map. intros (e & He & Hh). exists e. split; [done|].
  destruct (NetworkEntry_Bounded e) eqn:E; [by destruct Hh|].
  unfold NetworkEntry_Bounded in E. apply orb_false_iff in E as [Em Ep].
  apply negb_false_iff in Em, Ep. unfold entry_grants, EntryMethods, EntryPaths.
  rewrite Em, Ep. change (bool_decide (MethodAny ∈ [MethodAny])) with true. cbn iota.
  apply in_flat_map. exists h. split; [done|]. by left.
Qed.

(** The allow lists of a request are complete: a host it opens is a grant of
    every method and path on it. *)
Lemma capability_surface_complete n :
  (∀ h, h ∈ NetworkInstallAllow (capability_surface n) →
     MethodAny +:+ " " +:+ h +:+ "/**" ∈ NetworkInstallHTTPAllow (capability_surface n)) ∧
  (∀ h, h ∈ NetworkRuntimeAllow (capability_surface n) →
     MethodAny +:+ " " +:+ h +:+ "/**" ∈ NetworkRuntimeHTTPAllow (capability_surface n)).
Proof.
  assert (∀ s : Surface, NetworkInstallAllow s = [] → NetworkRuntimeAllow s = [] →
    (∀ h, h ∈ NetworkInstallAllow s →
       MethodAny +:+ " " +:+ h +:+ "/**" ∈ NetworkInstallHTTPAllow s) ∧
    (∀ h, h ∈ NetworkRuntimeAllow s →
       MethodAny +:+ " " +:+ h +:+ "/**" ∈ NetworkRuntimeHTTPAllow s)) as H0.
  { intros s -> ->. split; intros h Hh; by inversion Hh. }
  unfold capability_surface, decoded_surface.
  destruct (_ || _).
  - destruct (NetworkPolicyV2Of [n]) as [[p|]|]; [|by apply H0..].
    unfold network_surface. destruct (InstallV2 p), (RuntimeV2 p); cbn; rewrite ?app_nil_r;
      split; intros h Hh; try (by inversion Hh); by apply connectionHosts_granted.
  - repeat case_match; by apply H0.
Qed.

Lemma add_nil category l : add category l = [] → l = [].
Proof. apply map_eq_nil. Qed.

(** What a silent update leaves of each kind of grant, whatever the runtime's matchers. *)
Record within (granted candidate : Surface) : Prop := {
  within_install_hosts : NetworkInstallAllow candidate ⊆ NetworkInstallAllow granted;
  within_runtime_hosts : NetworkRuntimeAllow candidate ⊆ NetworkRuntimeAllow granted;
  within_install_denied : NetworkInstallDeny granted ⊆ NetworkInstallDeny candidate;
  within_runtime_denied : NetworkRuntimeDeny granted ⊆ NetworkRuntimeDeny candidate;
  within_install_http `{RequestMatcher} r :
    admits (NetworkInstallHTTPAllow candidate) r →
    opens (NetworkInstallAllow granted) (NetworkInstallHTTPAllow granted) r;
  within_runtime_http `{RequestMatcher} r :
    admits (NetworkRuntimeHTTPAllow candidate) r →
    opens (NetworkRuntimeAllow granted) (NetworkRuntimeHTTPAllow granted) r;
  within_install_http_denied `{RequestMatcher} r :
    admits (NetworkInstallHTTPDeny granted) r → admits (NetworkInstallHTTPDeny candidate) r;
  within_runtime_http_denied `{RequestMatcher} r :
    admits (NetworkRuntimeHTTPDeny granted) r → admits (NetworkRuntimeHTTPDeny candidate) r;
  within_credentials :
    CredentialsInstall candidate ⊆ CredentialsInstall granted ∧
    CredentialsRuntime candidate ⊆ CredentialsRuntime granted;
  within_signatures phase namespace : contains_byte " " phase = false →
    signs (SSHAgentGrants candidate) phase namespace → signs (SSHAgentGrants granted) phase namespace;
  within_logins phase user host : contains_byte " " phase = false → contains_byte "@" host = false →
    logs_in (SSHAgentGrants candidate) phase user host → logs_in (SSHAgentGrants granted) phase user host;
  within_storage : StoragePaths candidate ⊆ StoragePaths granted;
  within_skills :
    SkillsPaths candidate ⊆ SkillsPaths granted ∧ SkillsWritePaths candidate ⊆ SkillsWritePaths granted;
  within_devices : Ports candidate ⊆ Ports granted ∧ USB candidate ⊆ USB granted;
  within_privileged : Privileged candidate = true → Privileged granted = true;
  within_services : Services candidate ⊆ Services granted;
}.

(** A candidate that gives grants up and keeps refusals. *)
Definition allow_lists (s : Surface) : list (list string) :=
  [NetworkInstallAllow s; NetworkRuntimeAllow s; NetworkInstallHTTPAllow s;
   NetworkRuntimeHTTPAllow s; CredentialsInstall s; CredentialsRuntime s; SSHAgentGrants s;
   StoragePaths s; SkillsPaths s; SkillsWritePaths s; Ports s; USB s; Services s].
Definition deny_lists (s : Surface) : list (list string) :=
  [NetworkInstallDeny s; NetworkRuntimeDeny s; NetworkInstallHTTPDeny s; NetworkRuntimeHTTPDeny s].
Definition narrows (granted candidate : Surface) : Prop :=
  Forall2 (⊆) (allow_lists candidate) (allow_lists granted) ∧
  Forall2 (⊆) (deny_lists granted) (deny_lists candidate) ∧
  (Privileged candidate = true → Privileged granted = true).

Lemma SurfaceOf_gathered d :
  SurfaceOf d = surface_normalized (gathered (DeclaredCapabilities (Capabilities d))).
Proof. done. Qed.

(** The configuration of a well-known request is one the type's decoder refuses. *)
Definition malformed (n : Capability) : Prop :=
  (Type_ n = CapabilityNetworkPolicy ∨ Type_ n = CapabilityNetworkPolicyV2) ∧
    (∀ p, NetworkPolicyV2Of [n] ≠ Ok (Some p)) ∨
  Type_ n = CapabilityCredential ∧
    is_ok (DecodeCapabilityConfig decode_credential zero_credential n) = false ∨
  Type_ n = CapabilitySSHAgent ∧
    is_ok (DecodeCapabilityConfig decode_ssh_agent zero_ssh_agent n) = false ∨
  Type_ n = CapabilityAgentSkills ∧
    is_ok (DecodeCapabilityConfig decode_agent_skills (mkAgentSkills "" "") n) = false ∨
  Type_ n = CapabilityVolume ∧
    is_ok (DecodeCapabilityConfig decode_volume (mkVolume "" "" false "") n) = false ∨
  Type_ n = CapabilityPort ∧
    is_ok (DecodeCapabilityConfig decode_port (mkPort "" 0 "") n) = false ∨
  Type_ n = CapabilityUSBDevice ∧
    is_ok (DecodeCapabilityConfig decode_usb (mkUSBDevice "" "" "") n) = false.

(** The types with a list of their own, and those that are not gated. *)
Definition surfaced_types : list string :=
  [CapabilityNetworkPolicy; CapabilityNetworkPolicyV2; CapabilityCredential; CapabilitySSHAgent;
   CapabilityAgentSkills; CapabilityVolume; CapabilityPort; CapabilityUSBDevice;
   CapabilityPrivileged] ++ ungated_types.

Lemma capability_surface_unknown n :
  Type_ n ∉ surfaced_types → capability_surface n = service_surface n.
Proof.
  intros H. unfold capability_surface.
  assert (∀ t, t ∈ surfaced_types → bool_decide (Type_ n = t) = false) as Hf.
  { intros t Ht. apply bool_decide_eq_false. congruence. }
  rewrite !Hf by (eapply bool_decide_unpack; vm_compute; exact I). cbn [orb].
  rewrite bool_decide_eq_false_2; [done|]. intros Hu. apply H, elem_of_app. by right.
Qed.

(** ** What a request asks for

    Each type's grants, read off its configuration.  The texts are the ones a
    surface records: a request as ["<METHOD> <host><path>"], a use of the SSH agent under its
    phase. *)
Inductive gate_phase := AtInstall | AtRuntime.
Inductive permission :=
  | Connect (ph : gate_phase) | NoConnect (ph : gate_phase)
  | Requests (ph : gate_phase) | NoRequests (ph : gate_phase)
  | UseCredential (ph : gate_phase) | UseSSHAgent | UseStorage | ReadSkills | WriteSkills
  | OpenPort | UseDevice | UseService.

Definition phase_rules (p : PhasedNetworkV2) (ph : gate_phase) : option NetworkRulesV2 :=
  match ph with AtInstall => InstallV2 p | AtRuntime => RuntimeV2 p end.
Definition network_rules (n : Capability) (ph : gate_phase) (r : NetworkRulesV2) : Prop :=
  (Type_ n = CapabilityNetworkPolicy ∨ Type_ n = CapabilityNetworkPolicyV2) ∧
  ∃ p, NetworkPolicyV2Of [n] = Ok (Some p) ∧ phase_rules p ph = Some r.

(** A host an entry that states neither methods nor paths opens connections to. *)
Definition opens_host (l : list NetworkEntry) (h : string) : Prop :=
  ∃ e, e ∈ l ∧ elems (Methods e) = [] ∧ elems (Paths e) = [] ∧ h ∈ elems (Hosts e).
(** The requests an entry is about: every method unless it lists some without [ANY], every
    path unless it lists some. *)
Definition has_method (e : NetworkEntry) (m : string) : Prop :=
  m = MethodAny ∧ (elems (Methods e) = [] ∨ MethodAny ∈ elems (Methods e)) ∨
  m ∈ elems (Methods e) ∧ MethodAny ∉ elems (Methods e).
Definition has_path (e : NetworkEntry) (p : string) : Prop :=
  p = "/**" ∧ elems (Paths e) = [] ∨ p ∈ elems (Paths e).
Definition has_request (l : list NetworkEntry) (x : string) : Prop :=
  ∃ e h m p, e ∈ l ∧ h ∈ elems (Hosts e) ∧ has_method e m ∧ has_path e p ∧ x = m +:+ " " +:+ h +:+ p.

Inductive asks (n : Capability) : permission → string → Prop :=
  | asks_connect ph r h : network_rules n ph r → opens_host (AllowV2 r) h → asks n (Connect ph) h
  | asks_no_connect ph r h : network_rules n ph r → opens_host (DenyV2 r) h → asks n (NoConnect ph) h
  | asks_requests ph r x : network_rules n ph r → has_request (AllowV2 r) x → asks n (Requests ph) x
  | asks_no_requests ph r x : network_rules n ph r → has_request (DenyV2 r) x → asks n (NoRequests ph) x
  | asks_credential_install c :
      Type_ n = CapabilityCredential → DecodeCapabilityConfig decode_credential zero_credential n = Ok c →
      "install" ∈ elems (Credential_Phase c) → asks n (UseCredential AtInstall) (Credential_Service c)
  | asks_credential_runtime c phase :
      Type_ n = CapabilityCredential → DecodeCapabilityConfig decode_credential zero_credential n = Ok c →
      phase ∈ elems (Credential_Phase c) → phase ≠ "install" →
      asks n (UseCredential AtRuntime) (Credential_Service c)
  | asks_agent a phase x :
      Type_ n = CapabilitySSHAgent → DecodeCapabilityConfig decode_ssh_agent zero_ssh_agent n = Ok a →
      phase ∈ elems (SSHAgent_Phase a) →
      (if SSHAgent_Bounded a
       then (∃ ns, ns ∈ elems (SSHAgent_Sign a) ∧ x = phase +:+ " sign " +:+ ns) ∨
            (∃ d, d ∈ elems (SSHAgent_Authenticate a) ∧ x = phase +:+ " authenticate " +:+ d)
       else x = phase) →
      asks n UseSSHAgent x
  | asks_storage v :
      Type_ n = CapabilityVolume → DecodeCapabilityConfig decode_volume (mkVolume "" "" false "") n = Ok v →
      asks n UseStorage (Volume_Path v)
  | asks_skills s :
      Type_ n = CapabilityAgentSkills → DecodeCapabilityConfig decode_agent_skills (mkAgentSkills "" "") n = Ok s →
      asks n ReadSkills (AgentSkills_Path s)
  | asks_write_skills s :
      Type_ n = CapabilityAgentSkills → DecodeCapabilityConfig decode_agent_skills (mkAgentSkills "" "") n = Ok s →
      SkillsWritable s = true → asks n WriteSkills (AgentSkills_Path s)
  | asks_port p :
      Type_ n = CapabilityPort → DecodeCapabilityConfig decode_port (mkPort "" 0 "") n = Ok p →
      asks n OpenPort (PortKey p)
  | asks_device u :
      Type_ n = CapabilityUSBDevice → DecodeCapabilityConfig decode_usb (mkUSBDevice "" "" "") n = Ok u →
      asks n UseDevice (if decide (USBDevice_Class u = "") then USBDevice_VendorID u +:+ ":" +:+ USBDevice_ProductID u
                        else "class:" +:+ USBDevice_Class u)
  (** A type with no list of its own, or a configuration its type cannot decode. *)
  | asks_service : Type_ n ∉ surfaced_types ∨ malformed n → asks n UseService (capabilitySurfaceEntry n).

Definition recorded (k : permission) (s : Surface) : list string :=
  match k with
  | Connect AtInstall => NetworkInstallAllow s | Connect AtRuntime => NetworkRuntimeAllow s
  | NoConnect AtInstall => NetworkInstallDeny s | NoConnect AtRuntime => NetworkRuntimeDeny s
  | Requests AtInstall => NetworkInstallHTTPAllow s | Requests AtRuntime => NetworkRuntimeHTTPAllow s
  | NoRequests AtInstall => NetworkInstallHTTPDeny s | NoRequests AtRuntime => NetworkRuntimeHTTPDeny s
  | UseCredential AtInstall => CredentialsInstall s | UseCredential AtRuntime => CredentialsRuntime s
  | UseSSHAgent => SSHAgentGrants s | UseStorage => StoragePaths s
  | ReadSkills => SkillsPaths s | WriteSkills => SkillsWritePaths s
  | OpenPort => Ports s | UseDevice => USB s | UseService => Services s
  end.

Lemma capability_surface_malformed n : malformed n → capability_surface n = service_surface n.
Proof.
  unfold malformed, capability_surface, decoded_surface. intros H.
  repeat match goal with H : _ ∨ _ |- _ => destruct H as [H|H] end; destruct H as [E H];
    try (destruct E as [E|E]); rewrite E; cbn -[NetworkPolicyV2Of DecodeCapabilityConfig];
    match goal with
    | H : is_ok ?r = false |- _ => by destruct r
    | H : ∀ p, ?r ≠ Ok (Some p) |- _ => by destruct r as [[p|]|]; [destruct (H p)|..]
    end.
Qed.

Lemma connectionHosts_exact l h : h ∈ connectionHosts l ↔ opens_host l h.
Proof.
  unfold connectionHosts, opens_host. rewrite normalized_elem, elem_of_flat_map. apply exist_proper. intros e.
  unfold NetworkEntry_Bounded. destruct (bool_decide_reflect (elems (Methods e) = [])),
    (bool_decide_reflect (elems (Paths e) = [])); cbn; rewrite ?elem_of_nil; naive_solver.
Qed.
Lemma entrySurface_exact l x : x ∈ entrySurface l ↔ has_request l x.
Proof.
  unfold entrySurface, has_request. rewrite elem_of_flat_map. apply exist_proper. intros e. unfold entry_grants.
  assert (∀ m, m ∈ (if bool_decide (MethodAny ∈ EntryMethods e) then [MethodAny] else EntryMethods e) ↔ has_method e m) as Hm.
  { intros m. unfold EntryMethods, has_method. destruct (bool_decide_reflect (elems (Methods e) = [])) as [E|E].
    - rewrite bool_decide_eq_true_2 by by left. rewrite E, list_elem_of_singleton, !elem_of_nil. naive_solver.
    - case_bool_decide; rewrite ?list_elem_of_singleton; naive_solver. }
  assert (∀ p, p ∈ EntryPaths e ↔ has_path e p) as Hp.
  { intros p. unfold EntryPaths, has_path. destruct (bool_decide_reflect (elems (Paths e) = [])) as [E|E].
    - rewrite E, list_elem_of_singleton, elem_of_nil. naive_solver.
    - naive_solver. }
  setoid_rewrite elem_of_flat_map. setoid_rewrite elem_of_flat_map. setoid_rewrite Hm.
  change (@map string string) with (@fmap list _ string string). setoid_rewrite list_elem_of_fmap. setoid_rewrite Hp.
  naive_solver.
Qed.
Lemma sshAgentSurface_exact a x :
  x ∈ sshAgentSurface a ↔ ∃ phase, phase ∈ elems (SSHAgent_Phase a) ∧
    (if SSHAgent_Bounded a
     then (∃ ns, ns ∈ elems (SSHAgent_Sign a) ∧ x = phase +:+ " sign " +:+ ns) ∨
          (∃ d, d ∈ elems (SSHAgent_Authenticate a) ∧ x = phase +:+ " authenticate " +:+ d)
     else x = phase).
Proof.
  unfold sshAgentSurface. rewrite elem_of_flat_map. apply exist_proper. intros phase.
  destruct (SSHAgent_Bounded a); cbn [negb]; [|by rewrite list_elem_of_singleton].
  rewrite elem_of_app. change (@map string string) with (@fmap list _ string string). rewrite !list_elem_of_fmap.
  naive_solver.
Qed.

(** One request's surface is what it asks for. *)
Ltac of_type E := unfold capability_surface, decoded_surface; rewrite E; cbn -[NetworkPolicyV2Of DecodeCapabilityConfig SkillsWritable].
Lemma network_surface_exact n ph :
  Type_ n = CapabilityNetworkPolicy ∨ Type_ n = CapabilityNetworkPolicyV2 →
  ∀ p, NetworkPolicyV2Of [n] = Ok (Some p) → capability_surface n = network_surface p ∧
    recorded (Connect ph) (network_surface p) = default [] (connectionHosts ∘ AllowV2 <$> phase_rules p ph) ∧
    recorded (NoConnect ph) (network_surface p) = default [] (connectionHosts ∘ DenyV2 <$> phase_rules p ph) ∧
    recorded (Requests ph) (network_surface p) = default [] (entrySurface ∘ AllowV2 <$> phase_rules p ph) ∧
    recorded (NoRequests ph) (network_surface p) = default [] (entrySurface ∘ DenyV2 <$> phase_rules p ph).
Proof.
  intros [E|E] p Hp; (split; [of_type E; by rewrite Hp|]); unfold network_surface;
    destruct ph, (InstallV2 p) eqn:Ei, (RuntimeV2 p) eqn:Er; cbn; rewrite ?Ei, ?Er; cbn; by rewrite ?app_nil_r.
Qed.
Lemma asks_recorded n k x : asks n k x → x ∈ recorded k (capability_surface n).
Proof.
  assert (∀ {A} (o : option A) (f : A → list string) r y, o = Some r → y ∈ f r → y ∈ default [] (f <$> o)) as Hd by (by intros; subst).
  intros [ph r h (Ht & p & Hp & Hr) Hx|ph r h (Ht & p & Hp & Hr) Hx|ph r x' (Ht & p & Hp & Hr) Hx|ph r x' (Ht & p & Hp & Hr) Hx
    |c E Ed Hi|c phase E Ed Hi Hne|a phase x' E Ed Hi Hx|v E Ed|s E Ed|s E Ed Hw|p E Ed|u E Ed|Hu].
  1-4: destruct (network_surface_exact n ph Ht p Hp) as (-> & H1 & H2 & H3 & H4);
    rewrite ?H1, ?H2, ?H3, ?H4; eapply Hd; [exact Hr|]; cbn; by rewrite ?connectionHosts_exact, ?entrySurface_exact.
  all: try (of_type E; rewrite Ed; cbn -[SkillsWritable]).
  - apply elem_of_flat_map. exists "install". split; [done|]. by left.
  - apply elem_of_flat_map. exists phase. split; [done|]. rewrite bool_decide_eq_false_2 by done. by left.
  - apply sshAgentSurface_exact. by exists phase.
  - by left.
  - by left.
  - change (AgentSkills_Path s ∈ if SkillsWritable s then [AgentSkills_Path s] else []). rewrite Hw. by left.
  - by left.
  - change ((if decide (USBDevice_Class u = "") then USBDevice_VendorID u +:+ ":" +:+ USBDevice_ProductID u
             else "class:" +:+ USBDevice_Class u) ∈ USB (usb_surface u)). unfold usb_surface. cbn [USB].
    case_decide as Hc; [rewrite bool_decide_eq_true_2 by done|rewrite bool_decide_eq_false_2 by done]; by left.
  - assert (capability_surface n = service_surface n) as -> by
      (destruct Hu; [by apply capability_surface_unknown|by apply capability_surface_malformed]). by left.
Qed.

Lemma service_recorded n k x :
  Type_ n ∉ surfaced_types ∨ malformed n → x ∈ recorded k (service_surface n) → asks n k x.
Proof.
  intros Hu Hx. destruct k as [[]|[]|[]|[]|[]| | | | | | |]; cbn in Hx; try by apply not_elem_of_nil in Hx.
  apply list_elem_of_singleton in Hx as ->. by apply asks_service.
Qed.
Lemma decoded_recorded {A} (d : decoder A) zero (f : A → Surface) n k x :
  (is_ok (DecodeCapabilityConfig d zero n) = false → malformed n) →
  (∀ a, DecodeCapabilityConfig d zero n = Ok a → x ∈ recorded k (f a) → asks n k x) →
  x ∈ recorded k (decoded_surface d zero f n) → asks n k x.
Proof.
  intros Hm Ha. unfold decoded_surface. destruct (DecodeCapabilityConfig d zero n) as [a|e]; [by apply Ha|].
  apply service_recorded. right. by apply Hm.
Qed.
Ltac one_list k Hx :=
  destruct k as [[]|[]|[]|[]|[]| | | | | | |]; cbn in Hx; try by apply not_elem_of_nil in Hx.
Lemma network_recorded n k x p :
  Type_ n = CapabilityNetworkPolicy ∨ Type_ n = CapabilityNetworkPolicyV2 →
  NetworkPolicyV2Of [n] = Ok (Some p) → x ∈ recorded k (network_surface p) → asks n k x.
Proof.
  intros Ht Hp Hx.
  assert (∀ ph (f : NetworkRulesV2 → list string), x ∈ default [] (f <$> phase_rules p ph) →
    ∃ r, network_rules n ph r ∧ x ∈ f r) as Hd.
  { intros ph f. destruct (phase_rules p ph) as [r|] eqn:Er; [|by intros ?%not_elem_of_nil].
    intros H. exists r. split; [|done]. split; [done|]. by exists p. }
  pose proof (λ ph, network_surface_exact n ph Ht p Hp) as He.
  destruct k as [ph|ph|ph|ph|[]| | | | | | |]; try (destruct (He ph) as (_ & H1 & H2 & H3 & H4));
    rewrite ?H1, ?H2, ?H3, ?H4 in Hx.
  1: apply Hd in Hx as (r & Hr & Hx); eapply asks_connect; [exact Hr|by apply connectionHosts_exact].
  1: apply Hd in Hx as (r & Hr & Hx); eapply asks_no_connect; [exact Hr|by apply connectionHosts_exact].
  1: apply Hd in Hx as (r & Hr & Hx); eapply asks_requests; [exact Hr|by apply entrySurface_exact].
  1: apply Hd in Hx as (r & Hr & Hx); eapply asks_no_requests; [exact Hr|by apply entrySurface_exact].
  all: exfalso; unfold network_surface in Hx; destruct (InstallV2 p), (RuntimeV2 p); cbn in Hx; by apply not_elem_of_nil in Hx.
Qed.
Lemma recorded_asks n k x : x ∈ recorded k (capability_surface n) → asks n k x.
Proof.
  unfold capability_surface.
  destruct (bool_decide_reflect (Type_ n = CapabilityNetworkPolicy)) as [E|E0];
    [|destruct (bool_decide_reflect (Type_ n = CapabilityNetworkPolicyV2)) as [E|E1]].
  1, 2: cbn [orb]; destruct (NetworkPolicyV2Of [n]) as [[p|]|e] eqn:Ep; [by apply network_recorded; auto| |];
    apply service_recorded; right; left; (split; [by auto|intros p' Hp'; congruence]).
  cbn [orb]. case_bool_decide as E2.
  { apply decoded_recorded; [by unfold malformed; auto 10|]. intros c Hc Hx. one_list k Hx.
    - apply elem_of_flat_map in Hx as (ph & Hph & Hx). case_bool_decide; [subst ph|by apply not_elem_of_nil in Hx].
      apply list_elem_of_singleton in Hx as ->. by apply asks_credential_install.
    - apply elem_of_flat_map in Hx as (ph & Hph & Hx). case_bool_decide; [by apply not_elem_of_nil in Hx|].
      apply list_elem_of_singleton in Hx as ->. by eapply asks_credential_runtime. }
  case_bool_decide as E3.
  { apply decoded_recorded; [by unfold malformed; auto 10|]. intros a Ha Hx. one_list k Hx.
    apply sshAgentSurface_exact in Hx as (ph & Hph & Hx). by eapply asks_agent. }
  case_bool_decide as E4.
  { apply decoded_recorded; [by unfold malformed; auto 10|]. intros a Ha Hx. one_list k Hx.
    - apply list_elem_of_singleton in Hx as ->. by apply asks_skills.
    - destruct (SkillsWritable a) eqn:Ew; [|by apply not_elem_of_nil in Hx].
      apply list_elem_of_singleton in Hx as ->. by apply asks_write_skills. }
  case_bool_decide as E5.
  { apply decoded_recorded; [by unfold malformed; auto 10|]. intros v Hv Hx. one_list k Hx.
    apply list_elem_of_singleton in Hx as ->. by apply asks_storage. }
  case_bool_decide as E6.
  { apply decoded_recorded; [by unfold malformed; auto 10|]. intros v Hv Hx. one_list k Hx.
    apply list_elem_of_singleton in Hx as ->. by apply asks_port. }
  case_bool_decide as E7.
  { apply decoded_recorded; [by unfold malformed; auto 10|]. intros u Hu Hx. one_list k Hx.
    apply list_elem_of_singleton in Hx as ->. pose proof (asks_device n u E7 Hu) as Hd. revert Hd.
    case_decide as Hc; [rewrite bool_decide_eq_true_2 by done|rewrite bool_decide_eq_false_2 by done]; done. }
  case_bool_decide as E8; [intros Hx; one_list k Hx|].
  case_bool_decide as E9; [intros Hx; one_list k Hx|].
  apply service_recorded. left. unfold surfaced_types. rewrite elem_of_app, !elem_of_cons, elem_of_nil. tauto.
Qed.

Lemma recorded_grant k : ∃ i, ∀ s, surface_lists s !! i = Some (recorded k s).
Proof.
  destruct k as [[]|[]|[]|[]|[]| | | | | | |];
    [exists 0|exists 2|exists 1|exists 3|exists 4|exists 6|exists 5|exists 7|exists 8|exists 9|exists 10|exists 11
    |exists 12|exists 13|exists 14|exists 15|exists 16]; done.
Qed.
Lemma recorded_exact d k x :
  x ∈ recorded k (SurfaceOf d) ↔ ∃ n, n ∈ DeclaredCapabilities (Capabilities d) ∧ asks n k x.
Proof.
  rewrite SurfaceOf_gathered. destruct (recorded_grant k) as [i Hi].
  assert (∀ s, x ∈ recorded k s ↔ grant i x s) as Hg by (intros s; unfold grant; rewrite Hi; naive_solver).
  rewrite Hg. unfold grant. rewrite surface_lists_normalized, list_lookup_fmap, Hi.
  transitivity (grant i x (gathered (DeclaredCapabilities (Capabilities d)))).
  - rewrite <-Hg. cbn. split; [intros (l & [= <-] & Hx)|intros Hx; eexists; split; [done|]]; by apply normalized_elem.
  - rewrite grant_gathered. setoid_rewrite <-Hg. split; intros (n & ? & ?); exists n; auto using recorded_asks, asks_recorded.
Qed.

(** ** Properties *)

Lemma silent_within granted candidate : DiffWidenings granted candidate = [] → within granted candidate.
Proof.
  intros H. unfold DiffWidenings in H.
  repeat (apply app_nil in H as [?H H]).
  repeat match goal with E : add _ _ = [] |- _ => apply add_nil in E end.
  repeat match goal with E : missingFrom _ _ = [] |- _ => apply missingFrom_nil in E end.
  assert (∀ c, c ∈ SSHAgentGrants candidate → ssh_covered (SSHAgentGrants granted) c = true) as Hssh.
  { match goal with E : sshAgentWidenings _ _ = [] |- _ =>
      unfold sshAgentWidenings in E; rewrite list_filter_nil in E; intros c Hc; by apply negb_false_iff, (E c Hc) end. }
  split; auto.
  - intros ? r Hr. apply admits_complete. revert Hr. apply covered_admits. eapply httpWidenings_nil; [|eassumption]; done.
  - intros ? r Hr. apply admits_complete. revert Hr. apply covered_admits. eapply httpWidenings_nil; [|eassumption]; done.
  - intros ? r. apply covered_admits. eapply httpDenyRemovals_nil; [|eassumption]; done.
  - intros ? r. apply covered_admits. eapply httpDenyRemovals_nil; [|eassumption]; done.
  - intros phase ns. by apply silent_signs.
  - intros phase user h. by apply silent_logs_in.
  - destruct (Privileged granted), (Privileged candidate); done.
Qed.

(** C6: an update without widenings stays within the grant: when
    [DiffWidenings] reports nothing, the candidate opens no host, admits no
    HTTP request - however the runtime matches host names and path segments, [*] and [**]
    being every host, and reading a [**] in a path as any segments - uses no
    credential, makes no SSH signature and no login and reaches no
    path, port, device or service that the granted surface did not, and keeps
    every refusal that was part of the grant. *)
Theorem no_widening_within granted candidate :
  DiffWidenings granted candidate = [] → within granted candidate.
Proof. apply silent_within. Qed.

Definition sample_capability (typ : string) (config : list (string * value)) : Capability :=
  capability_of typ (Some config).
Definition sample_descriptor (cs : list Capability) : Descriptor :=
  mkDescriptor false SchemaVersion "" "" "" "" "" "" [] KindMixin [] [] [] [] cs ∅ "" [] "" false.
Definition sample_open : Descriptor := sample_descriptor
  [sample_capability CapabilityNetworkPolicyV2
     [("runtime", VMap [("allow", VList [VStr "api.example.com"])])];
   sample_capability CapabilityVolume [("path", VStr "/data")]].
Definition sample_bounded : Descriptor := sample_descriptor
  [sample_capability CapabilityNetworkPolicyV2
     [("runtime", VMap [("allow", VList [VMap [("hosts", VList [VStr "api.example.com"]);
        ("methods", VList [VStr "GET"]); ("paths", VList [VStr "/v1/**"])]])])]].
Definition sample_wide : Surface := SurfaceOf sample_open.
Definition sample_narrow : Surface := SurfaceOf sample_bounded.

(** One enforcer: names and segments match themselves, [*] anything. *)
#[local] Instance literal_matcher : RequestMatcher.
Proof.
  refine {| name_matches p n := bool_decide (p = "*") || bool_decide (p = "**") || bool_decide (p = n);
            segment_matches p s := bool_decide (p = "*") || bool_decide (p = s) |}.
  intros name. by split.
Defined.

Lemma no_widening_within_witness :
  DiffWidenings sample_wide sample_narrow = [] ∧ DiffWidenings sample_narrow sample_wide ≠ [] ∧
  within sample_wide sample_narrow ∧
  opens (NetworkRuntimeAllow sample_wide) (NetworkRuntimeHTTPAllow sample_wide)
    (mkRequest "api.example.com" "443" "GET" "/v1/users/7").
Proof.
  split; [by vm_compute|]. split; [by vm_compute|].
  assert (within sample_wide sample_narrow) as Hw by (apply (no_widening_within sample_wide sample_narrow); by vm_compute).
  split; [exact Hw|]. apply (within_runtime_http _ _ Hw).
  exists "GET api.example.com/v1/**", "GET", "api.example.com", "/v1/**". split; [vm_compute; left|].
  split; [by apply (reads_path "GET" "api.example.com" "v1/**")|]. split; [by right|]. split; [by split; [|left]|].
  apply (globs_segment "" ["v1"; "**"] "" ["v1"; "users"; "7"]); [done|].
  apply (globs_segment "v1" ["**"] "v1" ["users"; "7"]); [done|].
  apply (globs_any [] ["users"; "7"] []). constructor.
Defined.

Lemma existsb_self l e :
  e ∈ l → existsb (λ g, entryCovers g (parseHTTPEntry e)) (map parseHTTPEntry l) = true.
Proof.
  intros He. apply existsb_Exists. exists (parseHTTPEntry e). split; [|apply entryCovers_refl].
  apply list_elem_of_In, in_map, list_elem_of_In, He.
Qed.

Lemma completeHTTPGrants_sub hosts grants e : e ∈ grants → e ∈ completeHTTPGrants hosts grants.
Proof.
  intros He. unfold completeHTTPGrants. case_bool_decide; [done|].
  apply normalized_elem, elem_of_app. by left.
Qed.

Lemma httpWidenings_sub gh ch g c : c ⊆ g → httpWidenings gh ch g c = [].
Proof.
  intros H. apply list_filter_nil. intros e He. cbn.
  by rewrite (existsb_self g e (H e He)).
Qed.

Lemma httpDenyRemovals_sub gh ch g c : g ⊆ c → httpDenyRemovals gh ch g c = [].
Proof.
  intros H. apply list_filter_nil. intros e He. cbn.
  rewrite (existsb_self c e (H e He)). apply andb_false_r.
Qed.

Lemma narrows_silent granted candidate :
  narrows granted candidate → DiffWidenings granted candidate = [].
Proof.
  intros [Ha [Hd Hp]]. unfold allow_lists, deny_lists in *.
  repeat (apply Forall2_cons in Ha as [?H Ha]). repeat (apply Forall2_cons in Hd as [?H Hd]).
  unfold DiffWidenings.
  repeat match goal with E : ?c ⊆ ?g |- context [missingFrom ?g ?c] =>
    rewrite (proj2 (missingFrom_nil g c) E) end.
  rewrite !httpWidenings_sub by (intros e He; apply completeHTTPGrants_sub; auto).
  rewrite !httpDenyRemovals_sub by done.
  assert (sshAgentWidenings (SSHAgentGrants granted) (SSHAgentGrants candidate) = []) as ->.
  { apply list_filter_nil. intros c Hc. apply negb_false_iff, ssh_covered_in. auto. }
  destruct (Privileged granted), (Privileged candidate); auto. by specialize (Hp eq_refl).
Qed.

(** An unchanged kit, and one that only gives grants up, needs no approval:
    a candidate whose grants are among the granted ones and whose refusals
    include them has no widening. *)
Theorem narrowing_is_silent granted candidate :
  narrows granted candidate → DiffWidenings granted candidate = [].
Proof. apply narrows_silent. Qed.

Lemma narrowing_is_silent_witness : DiffWidenings sample_wide sample_wide = [].
Proof.
  apply (narrowing_is_silent sample_wide sample_wide).
  split; [done|]. by split.
Defined.

(** C7: nothing a kit requests escapes its surface, and nothing else is in it: each list
    holds exactly what some declared request, members of groups included, asks
    for - hosts and requests by phase, credentials by phase, uses of the SSH agent, volumes, skills,
    ports, devices, and as services the requests of an unknown type and those whose
    configuration does not decode - each once and in order; and the surface is
    privileged exactly when a request is. *)
Theorem surface_inventory d :
  (∀ k x, x ∈ recorded k (SurfaceOf d) ↔ ∃ n, n ∈ DeclaredCapabilities (Capabilities d) ∧ asks n k x) ∧
  (Privileged (SurfaceOf d) = true ↔
     ∃ n, n ∈ DeclaredCapabilities (Capabilities d) ∧ Type_ n = CapabilityPrivileged) ∧
  (∀ k, StronglySorted String.le (recorded k (SurfaceOf d)) ∧ NoDup (recorded k (SurfaceOf d))).
Proof.
  split; [intros k x; apply recorded_exact|]. rewrite SurfaceOf_gathered. split.
  - change (Privileged (gathered (DeclaredCapabilities (Capabilities d))) = true ↔ ∃ n, n ∈ DeclaredCapabilities (Capabilities d) ∧ Type_ n = CapabilityPrivileged).
    rewrite gathered_privileged, existsb_Exists. apply exist_proper. intros n. split; intros [Hn Hp]; (split; [done|]).
    + unfold capability_surface, decoded_surface, network_surface in Hp.
      repeat case_match; try done; by eapply bool_decide_eq_true_1.
    + unfold capability_surface. by rewrite Hp.
  - intros k. destruct k as [[]|[]|[]|[]|[]| | | | | | |]; split; (apply normalized_sorted || apply normalized_NoDup).
Qed.

(** The surface is canonical: it depends on the set of declared requests and
    not on their order or repetition, and its lists are sorted without
    duplicates, so two surfaces compare structurally. *)
Theorem surface_canonical d d' :
  (∀ n, n ∈ DeclaredCapabilities (Capabilities d) ↔ n ∈ DeclaredCapabilities (Capabilities d')) →
  SurfaceOf d = SurfaceOf d' ∧
  Forall (λ l, StronglySorted String.le l ∧ NoDup l) (surface_lists (SurfaceOf d)).
Proof.
  intros H. rewrite !SurfaceOf_gathered. split.
  - apply surface_normalized_ext.
    + intros k x. rewrite !grant_gathered. naive_solver.
    + rewrite !gathered_privileged. apply eq_iff_eq_true. rewrite !existsb_Exists. naive_solver.
  - rewrite surface_lists_normalized. apply Forall_fmap, Forall_true. intros l. split.
    + apply normalized_sorted.
    + apply normalized_NoDup.
Qed.

Lemma surface_canonical_witness :
  let a := sample_capability CapabilityVolume [("path", VStr "/data")] in
  let b := sample_capability CapabilityPrivileged [] in
  SurfaceOf (sample_descriptor [a; b; a]) = SurfaceOf (sample_descriptor [b; a]).
Proof.
  intros a b. apply (surface_canonical (sample_descriptor [a; b; a]) (sample_descriptor [b; a])).
  intros n. cbn. set_solver.
Defined.

(** For a surface [SurfaceOf] computed, reconstructing the implied HTTP
    grants adds nothing; the reconstruction only matters for surfaces recorded
    without the HTTP lists. *)
Theorem completion_adds_nothing d :
  completeHTTPGrants (NetworkInstallAllow (SurfaceOf d)) (NetworkInstallHTTPAllow (SurfaceOf d)) =
    NetworkInstallHTTPAllow (SurfaceOf d) ∧
  completeHTTPGrants (NetworkRuntimeAllow (SurfaceOf d)) (NetworkRuntimeHTTPAllow (SurfaceOf d)) =
    NetworkRuntimeHTTPAllow (SurfaceOf d).
Proof.
  rewrite SurfaceOf_gathered. set (cs := DeclaredCapabilities _).
  split; (apply completeHTTPGrants_full; [apply normalized_idem|]); intros h Hh;
    apply normalized_elem; cbn in Hh; rewrite normalized_elem in Hh.
  - assert (grant 0 h (gathered cs)) as (n & Hn & l & [= <-] & Hl)%grant_gathered by (by eexists).
    apply capability_surface_complete in Hl.
    assert (grant 4 (MethodAny +:+ " " +:+ h +:+ "/**") (gathered cs)) as (l & [= <-] & ?);
      [|done]. apply grant_gathered. exists n. split; [done|]. by eexists.
  - assert (grant 2 h (gathered cs)) as (n & Hn & l & [= <-] & Hl)%grant_gathered by (by eexists).
    apply capability_surface_complete in Hl.
    assert (grant 6 (MethodAny +:+ " " +:+ h +:+ "/**") (gathered cs)) as (l & [= <-] & ?);
      [|done]. apply grant_gathered. exists n. split; [done|]. by eexists.
Qed.
