(* ===== verification/Lock.v ===== *)
(** [resolve/lock.go]: the reproducibility record of a resolution, the gate that
    diffs a new resolution against it, and the recreate check. *)
From stdpp Require Import options.
From S2P Require Import Prelude GoStrings Json Types Config Surface SurfaceFacts.
From S2P Require Import Resolve TopSort ResolveFacts.

Definition LockVersion : Z := 1.

Record LockedKit := mkLockedKit {
  Locked_Reference : string;
  Locked_Digest : string;
  Locked_Image : string;
  Locked_Kind : string;
  Locked_Args : gmap string string;
  Permissions : Surface;
}.
Record Lock := mkLock { Lock_Version : Z; Lock_Kits : list LockedKit }.

Definition unit_surface (u : Unit) : Surface := SurfaceOf (descriptor u).

Definition locked (u : Unit) : LockedKit :=
  mkLockedKit (Reference u) (Digest u) (Image u) (Kind (descriptor u)) (Unit_Args u) (unit_surface u).
Definition LockFrom (r : Resolution) : Lock := mkLock LockVersion (map locked (Ordered r)).

Inductive lock_error :=
  | LockMalformed (cause : json_error)
  | LockVersionUnsupported (version : Z)
  | LockCount (locked resolved : nat)
  | LockReference (i : nat) (locked resolved : string)
  | LockDigest (ref resolved locked : string).

(** [ParseLock], after [json.Unmarshal]. *)
Definition ParseLock (decoded : result json_error Lock) : result lock_error Lock :=
  l ← map_err LockMalformed decoded;
  if negb (bool_decide (Lock_Version l = LockVersion))
  then Err (LockVersionUnsupported (Lock_Version l))
  else Ok l.

(** The grants by reference; a later entry replaces an earlier one. *)
Definition granted_by (l : Lock) : gmap string Surface :=
  foldl (λ m k, <[Locked_Reference k := Permissions k]> m) ∅ (Lock_Kits l).
Definition Gate (l : Lock) (r : Resolution) : list Widening :=
  let granted := granted_by l in
  flat_map (λ u, DiffWidenings (default zero_surface (granted !! Reference u)) (unit_surface u))
    (Ordered r).

Fixpoint verify_kits (i : nat) (kits : list LockedKit) (ordered : list Unit) :
    result lock_error () :=
  match kits, ordered with
  | k :: kits, u :: ordered =>
      if negb (bool_decide (Locked_Reference k = Reference u))
      then Err (LockReference i (Locked_Reference k) (Reference u))
      else if negb (bool_decide (Locked_Digest k = Digest u))
      then Err (LockDigest (Reference u) (Digest u) (Locked_Digest k))
      else verify_kits (S i) kits ordered
  | _, _ => Ok ()
  end.
Definition VerifyRecreate (l : Lock) (r : Resolution) : result lock_error () :=
  if negb (bool_decide (length (Ordered r) = length (Lock_Kits l)))
  then Err (LockCount (length (Lock_Kits l)) (length (Ordered r)))
  else verify_kits 0 (Lock_Kits l) (Ordered r).

(** ** Facts *)

Lemma verify_kits_Ok i kits ordered :
  length ordered = length kits →
  verify_kits i kits ordered = Ok () ↔
  map (λ k, (Locked_Reference k, Locked_Digest k)) kits =
  map (λ u, (Reference u, Digest u)) ordered.
Proof.
  revert i ordered. induction kits as [|k kits IH]; intros i [|u ordered] Hl; try done.
  cbn in *. repeat case_bool_decide; cbn.
  - rewrite IH by lia. split; [by intros ->; f_equal; f_equal|by intros [= _ _ ->]].
  - split; [done|]. intros [=]. done.
  - split; [done|]. intros [=]. done.
  - split; [done|]. intros [=]. done.
Qed.

Lemma granted_by_app kits k kits' :
  Locked_Reference k ∉ map Locked_Reference kits' →
  granted_by (mkLock LockVersion (kits ++ k :: kits')) !! Locked_Reference k = Some (Permissions k).
Proof.
  intros Hn. unfold granted_by. cbn [Lock_Kits]. rewrite foldl_app. cbn [foldl].
  assert (∀ m : gmap string Surface, m !! Locked_Reference k = Some (Permissions k) →
    foldl (λ (m : gmap string Surface) k, <[Locked_Reference k := Permissions k]> m) m kits'
      !! Locked_Reference k = Some (Permissions k)) as H; [|apply H, lookup_insert_eq].
  clear kits. induction kits' as [|k' kits IH]; intros m Hm; [done|]. cbn.
  apply not_elem_of_cons in Hn as [Hk Hn]. apply IH; [done|]. by rewrite lookup_insert_ne.
Qed.

Lemma granted_by_LockFrom r u :
  NoDup (map Reference (Ordered r)) → u ∈ Ordered r →
  granted_by (LockFrom r) !! Reference u = Some (unit_surface u).
Proof.
  intros Hnd Hu. apply list_elem_of_split in Hu as (o1 & o2 & E). rewrite E in Hnd.
  unfold LockFrom. rewrite E, map_app. cbn [map].
  change (Reference u) with (Locked_Reference (locked u)) at 1.
  change (unit_surface u) with (Permissions (locked u)). apply granted_by_app.
  rewrite map_map. rewrite map_app in Hnd. apply NoDup_app in Hnd as (_ & _ & Hnd).
  by apply NoDup_cons in Hnd as [Hn _].
Qed.

Lemma granted_by_new r ref :
  ref ∉ map Reference (Ordered r) → default zero_surface (granted_by (LockFrom r) !! ref) = zero_surface.
Proof.
  intros Hn. unfold granted_by, LockFrom. cbn [Lock_Kits].
  enough (∀ l (m : gmap string Surface), ref ∉ map Reference l → m !! ref = None →
    foldl (λ (m : gmap string Surface) k, <[Locked_Reference k := Permissions k]> m) m (map locked l) !! ref = None) as H
    by (rewrite (H (Ordered r) ∅ Hn); [done|apply lookup_empty]).
  intros l. induction l as [|u l IH]; intros m Hl Hm; [done|]. cbn in *. apply not_elem_of_cons in Hl as [Hu Hl].
  apply IH; [done|]. by rewrite lookup_insert_ne.
Qed.

(** ** Properties *)

(** Recreating from a lock reproduces the resolution: the check accepts
    exactly the resolutions with the recorded references and digests in the
    recorded order, and accepts every resolution against the lock recorded
    from it. *)
Theorem recreate_exact l r :
  (VerifyRecreate l r = Ok () ↔
   map (λ k, (Locked_Reference k, Locked_Digest k)) (Lock_Kits l) =
   map (λ u, (Reference u, Digest u)) (Ordered r)) ∧
  VerifyRecreate (LockFrom r) r = Ok ().
Proof.
  assert (∀ l, VerifyRecreate l r = Ok () ↔
    map (λ k, (Locked_Reference k, Locked_Digest k)) (Lock_Kits l) =
    map (λ u, (Reference u, Digest u)) (Ordered r)) as H.
  { intros l'. unfold VerifyRecreate. case_bool_decide as E; cbn; [by apply verify_kits_Ok|].
    split; [done|]. intros Em. apply (f_equal length) in Em. rewrite !length_map in Em. by destruct E. }
  split; [apply H|]. apply H. unfold LockFrom. cbn [Lock_Kits]. by rewrite map_map.
Qed.

(** C8: the gate is silent on what was approved and sound on what changed: a
    resolution of kits with distinct references gates silently against the lock recorded from
    it; a resolution the gate is silent on gives every kit only what the lock granted its
    reference; and one it lets past the recorded lock gives a kit only what the kit of that
    reference was given before, and a new kit nothing. *)
Theorem gate_sound r :
  NoDup (map Reference (Ordered r)) →
  Gate (LockFrom r) r = [] ∧
  (∀ l r' u, Gate l r' = [] → u ∈ Ordered r' →
     within (default zero_surface (granted_by l !! Reference u)) (unit_surface u)) ∧
  (∀ r' u, Gate (LockFrom r) r' = [] → u ∈ Ordered r' →
     (∀ old, old ∈ Ordered r → Reference old = Reference u → within (unit_surface old) (unit_surface u)) ∧
     (Reference u ∉ map Reference (Ordered r) → within zero_surface (unit_surface u))).
Proof.
  intros Hnd.
  assert (∀ l r' u, Gate l r' = [] → u ∈ Ordered r' →
    within (default zero_surface (granted_by l !! Reference u)) (unit_surface u)) as Hsound.
  { intros l r' u Hg Hu. unfold Gate in Hg. rewrite flat_map_nil in Hg. by apply silent_within, Hg. }
  split; [|split; [exact Hsound|]].
  - unfold Gate. apply flat_map_nil. intros u Hu. rewrite granted_by_LockFrom by done.
    apply narrows_silent. split; [done|]. by split.
  - intros r' u Hg Hu. specialize (Hsound _ _ _ Hg Hu). split.
    + intros old Hold E. rewrite <-E, granted_by_LockFrom in Hsound by done. exact Hsound.
    + intros Hnew. by rewrite granted_by_new in Hsound.
Qed.

Definition kit_of (d : Descriptor) : Resolution :=
  let u := mkUnit 0 "reg.io/kit:1" "" "" (Some d) ∅ None in mkResolution None [u] [u].
Lemma gate_sound_witness :
  Gate (LockFrom (kit_of sample_open)) (kit_of sample_bounded) = [] ∧
  Gate (LockFrom (kit_of sample_bounded)) (kit_of sample_open) ≠ [] ∧
  within (SurfaceOf sample_open) (SurfaceOf sample_bounded).
Proof.
  assert (Gate (LockFrom (kit_of sample_open)) (kit_of sample_bounded) = []) as Hg by by vm_compute.
  split; [exact Hg|]. split; [by vm_compute|].
  destruct (gate_sound (kit_of sample_open)) as (_ & _ & H); [by apply (bool_decide_unpack _)|].
  destruct (H (kit_of sample_bounded) (mkUnit 0 "reg.io/kit:1" "" "" (Some sample_bounded) ∅ None) Hg) as [Ho _]; [by left|].
  apply (Ho (mkUnit 0 "reg.io/kit:1" "" "" (Some sample_open) ∅ None)); [by left|done].
Defined.
