(* ===== verification/Packages.v ===== *)
(** [spec/packages.go]: reading the dpkg and apk databases of a filesystem, and
    the provides entries the listings of every platform agree on: exactly what every
    listing records at one version.  A database written in its format reads back. *)
From stdpp Require Import options.
From S2P Require Import Prelude GoStrings Version.

(** ** Lines and words *)

(** [bufio.Scanner]: the lines of the input; an empty last line is none.  The
    scanner drops a carriage return at the end of a line, and the reader one
    more. *)
Definition drop_cr (line : string) : string := trim_suffix (of_bytes [13]) line.
Definition scan_lines (s : string) : list string :=
  match rev (split newline_byte s) with
  | "" :: rest => rev rest
  | _ => split newline_byte s
  end.

Definition maxPackageDatabaseLine : nat := 2 ^ 20.

(** The space at the head of a string, by the length of its encoding. *)
Definition space_at (s : string) : option nat :=
  match List.find (λ e, has_prefix e s) space_encodings with
  | Some e => Some (String.length e)
  | None => None
  end.

(** [strings.Fields]. *)
Definition add_word (cur : string) (rest : list string) : list string :=
  if bool_decide (cur = "") then rest else cur :: rest.
Fixpoint fields_from (skip : nat) (cur s : string) : list string :=
  match s with
  | "" => add_word cur []
  | String c r =>
      match skip with
      | S skip => fields_from skip cur r
      | O =>
          match space_at s with
          | Some n => add_word cur (fields_from (pred n) "" r)
          | None => fields_from 0 (cur +:+ String c "") r
          end
      end
  end.
Definition Fields (s : string) : list string := fields_from 0 "" s.

(** [strings.ToLower], on the characters whose lower case is ASCII. *)
Definition lower_ascii (c : ascii) : ascii :=
  if is_upper c then ascii_of_nat (nat_of_ascii c + 32) else c.
Fixpoint to_lower (s : string) : string :=
  match s with
  | String "226" (String "132" (String "170" r)) => String "k" (to_lower r)
  | String "196" (String "176" r) => String "i" (to_lower r)
  | String c r => String (lower_ascii c) (to_lower r)
  | "" => ""
  end.

(** ** Stanzas *)

Record Package := mkPackage { Package_Name : string; Package_Version : string }.

Notation stanza := (gmap string string).
Definition field (k : string) (fs : stanza) : string := default "" (fs !! k).

Section Reader.
Context (emit : stanza → list Package) (split_line : string → option (string * string)).

Definition flush (fs : stanza) : list Package := if bool_decide (fs = ∅) then [] else emit fs.

(** The packages, and whether a line was too long to scan. *)
Fixpoint eachStanza_loop (fs : stanza) (lines : list string) : list Package * bool :=
  match lines with
  | [] => (flush fs, true)
  | line :: lines =>
      if maxPackageDatabaseLine <=? String.length line then ([], false)
      else
        let line := drop_cr (drop_cr line) in
        if bool_decide (trim_space line = "") then
          let '(out, ok) := eachStanza_loop ∅ lines in (flush fs ++ out, ok)
        else
          match split_line line with
          | Some (k, v) => eachStanza_loop (<[k := v]> fs) lines
          | None => eachStanza_loop fs lines
          end
  end.
End Reader.

Definition dpkg_emit (fs : stanza) : list Package :=
  match last (Fields (field "status" fs)) with
  | Some "installed" =>
      if bool_decide (field "package" fs = "") then []
      else [mkPackage (field "package" fs) (field "version" fs)]
  | _ => []
  end.
Definition dpkg_line (line : string) : option (string * string) :=
  if has_prefix " " line || has_prefix (of_bytes [9]) line then None
  else
    let '(key, value, found) := cut ":" line in
    if found then Some (to_lower (trim_space key), trim_space value) else None.
Definition ReadDpkgStatus (s : string) : list Package * bool :=
  eachStanza_loop dpkg_emit dpkg_line ∅ (scan_lines s).

Definition apk_emit (fs : stanza) : list Package :=
  if bool_decide (field "P" fs = "") then [] else [mkPackage (field "P" fs) (field "V" fs)].
Definition apk_line (line : string) : option (string * string) :=
  let '(key, value, found) := cut ":" line in
  if negb found || negb (String.length key =? 1) then None else Some (key, value).
Definition ReadApkInstalled (s : string) : list Package * bool :=
  eachStanza_loop apk_emit apk_line ∅ (scan_lines s).

(** ** Derived provides *)

Record tally := mkTally {
  versions : gmap string string;
  counts : gmap string nat;
  seen : gset string;
}.

(** An empty version marks a name that disagrees with itself. *)
Definition tally_version (i : nat) (name version : string) (vs : gmap string string) :
    gmap string string :=
  if bool_decide (version = "") then <[name := ""]> vs
  else
    match vs !! name with
    | None => <[name := if i =? 0 then version else ""]> vs
    | Some known => if bool_decide (known = version) then vs else <[name := ""]> vs
    end.
Definition tally_package (namespace : string) (i : nat) (t : tally) (p : Package) : tally :=
  let name := namespace +:+ "/" +:+ Package_Name p in
  if negb (validCapabilityName name) then t
  else
    let versions := tally_version i name (PackageVersion (Package_Version p)) (versions t) in
    if bool_decide (name ∈ seen t) then mkTally versions (counts t) (seen t)
    else mkTally versions (<[name := S (default 0 (counts t !! name))]> (counts t)) ({[name]} ∪ seen t).

Fixpoint tally_listings (namespace : string) (i : nat) (t : tally) (listings : list (list Package)) :
    tally :=
  match listings with
  | [] => t
  | l :: listings =>
      tally_listings namespace (S i)
        (foldl (tally_package namespace i) (mkTally (versions t) (counts t) ∅) l) listings
  end.

Definition agreed (n : nat) (t : tally) (nv : string * string) : bool :=
  negb (bool_decide (nv.2 = "")) && bool_decide (default 0 (counts t !! nv.1) = n).
Definition DerivedProvides (namespace : string) (listings : list (list Package)) : list string :=
  let t := tally_listings namespace 0 (mkTally ∅ ∅ ∅) listings in
  sort_strings (map (λ nv, nv.1 +:+ "@" +:+ nv.2)
    (List.filter (agreed (length listings) t) (map_to_list (versions t)))).

Record PackageDatabase := mkPackageDatabase {
  Namespace : string;
  Database_Path : string;
  Read : string → list Package * bool;
}.
Definition DpkgStatusPath : string := "/var/lib/dpkg/status".
Definition ApkInstalledPath : string := "/lib/apk/db/installed".
Definition PackageDatabases : list PackageDatabase :=
  [mkPackageDatabase DebNamespace DpkgStatusPath ReadDpkgStatus;
   mkPackageDatabase ApkNamespace ApkInstalledPath ReadApkInstalled].

(** * What the tally holds *)

(** ** The tally of one name *)

Definition package_name (namespace : string) (p : Package) : string :=
  namespace +:+ "/" +:+ Package_Name p.

(** The version known of a name, the listings counted, and whether the current
    listing has been. *)
Definition name_state : Type := option string * nat * bool.
Definition project (name : string) (t : tally) : name_state :=
  (versions t !! name, default 0 (counts t !! name), bool_decide (name ∈ seen t)).

Definition known_step (i : nat) (known : option string) (v : string) : option string :=
  if bool_decide (v = "") then Some ""
  else match known with
       | None => Some (if i =? 0 then v else "")
       | Some k => if bool_decide (k = v) then known else Some ""
       end.
Definition name_step (i : nat) (st : name_state) (v : string) : name_state :=
  let '(known, n, seen) := st in
  (known_step i known v, if seen then n else S n, true).

Definition record_of (namespace name : string) (p : Package) : list string :=
  if bool_decide (package_name namespace p = name) then [PackageVersion (Package_Version p)] else [].
Definition records (namespace name : string) (l : list Package) : list string :=
  flat_map (record_of namespace name) l.

Lemma tally_version_lookup i name version vs name' :
  tally_version i name version vs !! name' =
  if bool_decide (name = name') then known_step i (vs !! name') version else vs !! name'.
Proof.
  unfold tally_version, known_step. destruct (decide (name = name')) as [->|Hn].
  - rewrite (bool_decide_eq_true_2 (name' = name')) by done.
    destruct (vs !! name') as [k|] eqn:Ek; repeat case_bool_decide; by rewrite ?lookup_insert_eq, ?Ek.
  - rewrite (bool_decide_eq_false_2 (name = name')) by done.
    destruct (vs !! name) as [k|]; repeat case_bool_decide; by rewrite ?lookup_insert_ne.
Qed.

Lemma project_package namespace name i t p :
  validCapabilityName name = true →
  project name (tally_package namespace i t p) =
  foldl (name_step i) (project name t) (record_of namespace name p).
Proof.
  intros Hv. unfold tally_package, record_of. fold (package_name namespace p).
  generalize (package_name namespace p) as pn. intros pn.
  generalize (PackageVersion (Package_Version p)) as v. intros v.
  destruct (decide (pn = name)) as [->|E].
  - rewrite Hv, (bool_decide_eq_true_2 (name = name)) by done. cbn [negb foldl].
    unfold project, name_step. destruct (decide (name ∈ seen t)) as [Hs|Hs].
    + rewrite !(bool_decide_eq_true_2 (name ∈ seen t)) by done. cbv iota. cbn [versions counts seen].
      by rewrite tally_version_lookup, (bool_decide_eq_true_2 (name = name)).
    + rewrite !(bool_decide_eq_false_2 (name ∈ seen t)) by done. cbv iota. cbn [versions counts seen].
      rewrite tally_version_lookup, (bool_decide_eq_true_2 (name = name)) by done.
      rewrite lookup_insert_eq, bool_decide_eq_true_2 by set_solver. done.
  - rewrite (bool_decide_eq_false_2 (pn = name)) by done. cbn [foldl].
    destruct (validCapabilityName pn); [|done]. cbn [negb]. unfold project.
    destruct (bool_decide (pn ∈ seen t)); cbn [versions counts seen];
      rewrite tally_version_lookup, (bool_decide_eq_false_2 (pn = name)) by done; [done|].
    rewrite lookup_insert_ne by done. f_equal. apply bool_decide_ext. set_solver.
Qed.

Lemma project_listing namespace name i t l :
  validCapabilityName name = true →
  project name (foldl (tally_package namespace i) t l) =
  foldl (name_step i) (project name t) (records namespace name l).
Proof.
  intros Hv. revert t. induction l as [|p l IH]; intros t; [done|]. cbn [foldl records flat_map].
  by rewrite IH, project_package, foldl_app.
Qed.

Lemma name_steps_seen i known n vs :
  foldl (name_step i) (known, n, true) vs = (foldl (known_step i) known vs, n, true).
Proof. revert known. induction vs as [|v vs IH]; intros known; [done|]. apply IH. Qed.

Lemma name_steps i known n vs :
  foldl (name_step i) (known, n, false) vs =
  (foldl (known_step i) known vs, if bool_decide (vs = []) then n else S n, bool_decide (vs ≠ [])).
Proof. destruct vs as [|v vs]; [done|]. cbn [foldl name_step]. by rewrite name_steps_seen. Qed.

(** ** All listings *)

(** What is known of a name after its records of listings [i], [i+1], ... *)
Fixpoint known_after (i : nat) (known : option string) (ls : list (list string)) : option string :=
  match ls with
  | [] => known
  | vs :: ls => known_after (S i) (foldl (known_step i) known vs) ls
  end.
Definition mentions (ls : list (list string)) : nat :=
  length (List.filter (λ vs, negb (bool_decide (vs = []))) ls).

Lemma project_listings namespace name i t ls :
  validCapabilityName name = true →
  let t' := tally_listings namespace i t ls in
  versions t' !! name = known_after i (versions t !! name) (map (records namespace name) ls) ∧
  default 0 (counts t' !! name) =
    default 0 (counts t !! name) + mentions (map (records namespace name) ls).
Proof.
  intros Hv. revert i t. induction ls as [|l ls IH]; intros i t; [by split; cbn; [|lia]|].
  cbn [tally_listings map]. set (t1 := mkTally _ _ _).
  pose proof (project_listing namespace name i t1 l Hv) as Hp.
  unfold project in Hp at 2. cbn [versions counts seen t1] in Hp.
  rewrite (bool_decide_eq_false_2 (name ∈ ∅)) in Hp by set_solver. rewrite name_steps in Hp.
  injection Hp as H1 H2 _. destruct (IH (S i) (foldl (tally_package namespace i) t1 l)) as [IH1 IH2].
  split; [by rewrite IH1, H1|]. rewrite IH2, H2. unfold mentions. cbn [List.filter].
  case_bool_decide as E; cbn; lia.
Qed.

Lemma known_step_conflict i v : known_step i (Some "") v = Some "".
Proof. unfold known_step. repeat case_bool_decide; done. Qed.

Lemma known_steps_conflict i vs : foldl (known_step i) (Some "") vs = Some "".
Proof. induction vs as [|v vs IH]; [done|]. cbn. by rewrite known_step_conflict. Qed.

Lemma known_after_conflict i ls : known_after i (Some "") ls = Some "".
Proof.
  revert i. induction ls as [|vs ls IH]; intros i; [done|]. cbn. by rewrite known_steps_conflict.
Qed.

Lemma known_steps_Some i k v vs :
  v ≠ "" → foldl (known_step i) (Some k) vs = Some v ↔ k = v ∧ Forall (λ w, w = v) vs.
Proof.
  intros Hv. revert k. induction vs as [|w vs IH]; intros k; cbn; [naive_solver|].
  rewrite Forall_cons. unfold known_step at 2. case_bool_decide as E1.
  { rewrite known_steps_conflict. split; [congruence|]. intros (_ & -> & _). done. }
  case_bool_decide as E2; [rewrite IH; naive_solver|].
  rewrite known_steps_conflict. split; [congruence|]. naive_solver.
Qed.

Lemma known_after_Some i k v ls :
  v ≠ "" → known_after i (Some k) ls = Some v ↔ k = v ∧ Forall (Forall (λ w, w = v)) ls.
Proof.
  intros Hv. revert i k. induction ls as [|vs ls IH]; intros i k; cbn; [naive_solver|].
  rewrite Forall_cons. destruct (foldl (known_step i) (Some k) vs) as [k'|] eqn:E.
  - rewrite IH. destruct (decide (k' = v)) as [->|Hk].
    + apply known_steps_Some in E; naive_solver.
    + split; [naive_solver|]. intros (-> & H & _). exfalso. apply Hk.
      assert (foldl (known_step i) (Some v) vs = Some v) as E' by by apply known_steps_Some.
      congruence.
  - exfalso. clear -E. revert k E. induction vs as [|w vs IH]; intros k; [done|]. cbn.
    unfold known_step at 2. repeat case_bool_decide; apply IH.
Qed.

(** From the first listing on, all listings agree on one version. *)
Lemma known_after_start v vs ls :
  v ≠ "" → vs ≠ [] →
  known_after 0 None (vs :: ls) = Some v ↔ Forall (Forall (λ w, w = v)) (vs :: ls).
Proof.
  intros Hv Hvs. destruct vs as [|w vs]; [done|]. cbn [known_after foldl].
  unfold known_step at 2. rewrite !Forall_cons. case_bool_decide as E.
  - rewrite known_steps_conflict, known_after_conflict. split; [congruence|]. intros [[-> _] _]. done.
  - cbn [Nat.eqb]. destruct (foldl (known_step 0) (Some w) vs) as [k|] eqn:Ek.
    + rewrite known_after_Some by done. split.
      * intros [-> H]. apply known_steps_Some in Ek; naive_solver.
      * intros [[-> H] H']. split; [|done].
        assert (foldl (known_step 0) (Some v) vs = Some v) as E' by by apply known_steps_Some.
        congruence.
    + exfalso. clear -Ek. revert w Ek. induction vs as [|x vs IH]; intros w; [done|]. cbn.
      unfold known_step at 2. repeat case_bool_decide; apply IH.
Qed.

Lemma mentions_all ls : mentions ls = length ls ↔ Forall (λ vs, vs ≠ []) ls.
Proof.
  unfold mentions. induction ls as [|vs ls IH]; [done|]. cbn. rewrite Forall_cons.
  case_bool_decide as E; cbn.
  - split; [|naive_solver]. intros H.
    pose proof (filter_length_le (λ vs, negb (bool_decide (vs = []))) ls). lia.
  - rewrite <-IH. naive_solver lia.
Qed.

Lemma tally_package_invalid namespace i t p name :
  validCapabilityName name = false → versions (tally_package namespace i t p) !! name = versions t !! name.
Proof.
  intros Hv. unfold tally_package. fold (package_name namespace p).
  generalize (package_name namespace p) as pn. intros pn.
  destruct (validCapabilityName pn) eqn:Hp; [|done]. cbn [negb].
  assert (pn ≠ name) as Hn by (intros ->; congruence).
  destruct (bool_decide (pn ∈ seen t)); cbn [versions];
    by rewrite tally_version_lookup, bool_decide_eq_false_2.
Qed.

Lemma tally_listings_invalid namespace i t ls name :
  validCapabilityName name = false →
  versions (tally_listings namespace i t ls) !! name = versions t !! name.
Proof.
  intros Hv. revert i t. induction ls as [|l ls IH]; intros i t; [done|]. cbn. rewrite IH.
  assert (∀ t', versions (foldl (tally_package namespace i) t' l) !! name = versions t' !! name) as H.
  { induction l as [|p l IHl]; intros t'; [done|]. cbn. by rewrite IHl, tally_package_invalid. }
  by rewrite H.
Qed.

Lemma records_elem namespace name l v :
  v ∈ records namespace name l ↔
  ∃ p, p ∈ l ∧ package_name namespace p = name ∧ PackageVersion (Package_Version p) = v.
Proof.
  unfold records. rewrite list_elem_of_In, in_flat_map. setoid_rewrite <-list_elem_of_In.
  unfold record_of. split.
  - intros (p & Hp & Hv). case_bool_decide; [|by inversion Hv].
    apply list_elem_of_singleton in Hv. by exists p.
  - intros (p & Hp & Hn & Hv). exists p. split; [done|]. rewrite bool_decide_eq_true_2 by done.
    by apply list_elem_of_singleton.
Qed.

Lemma not_nil_elem {A} (l : list A) : l ≠ [] ↔ ∃ x, x ∈ l.
Proof.
  destruct l as [|x l]; [split; [done|by intros (x & Hx%elem_of_nil)]|].
  split; [|done]. exists x. left.
Qed.

(** The listings agree that every record of a name has one version. *)
Definition unanimous (namespace : string) (listings : list (list Package)) (name v : string) : Prop :=
  ∀ l, l ∈ listings →
    (∃ p, p ∈ l ∧ package_name namespace p = name) ∧
    ∀ p, p ∈ l → package_name namespace p = name → PackageVersion (Package_Version p) = v.

Lemma unanimous_records namespace listings name v :
  unanimous namespace listings name v ↔
  Forall (λ vs, vs ≠ []) (map (records namespace name) listings) ∧
  Forall (Forall (λ w, w = v)) (map (records namespace name) listings).
Proof.
  unfold unanimous. rewrite !Forall_fmap, !Forall_forall. unfold compose.
  assert (∀ l, records namespace name l ≠ [] ↔ ∃ p, p ∈ l ∧ package_name namespace p = name) as H1.
  { intros l. rewrite not_nil_elem. setoid_rewrite records_elem. naive_solver. }
  assert (∀ l, Forall (λ w, w = v) (records namespace name l) ↔
    ∀ p, p ∈ l → package_name namespace p = name → PackageVersion (Package_Version p) = v) as H2.
  { intros l. rewrite Forall_forall. setoid_rewrite records_elem. naive_solver. }
  setoid_rewrite H1. setoid_rewrite H2. naive_solver.
Qed.

Lemma agreed_unanimous namespace listings name v :
  listings ≠ [] →
  let t := tally_listings namespace 0 (mkTally ∅ ∅ ∅) listings in
  versions t !! name = Some v ∧ agreed (length listings) t (name, v) = true ↔
  validCapabilityName name = true ∧ v ≠ "" ∧ unanimous namespace listings name v.
Proof.
  intros Hne t. unfold agreed. cbn [fst snd].
  rewrite andb_true_iff, negb_true_iff, bool_decide_eq_false, bool_decide_eq_true.
  destruct (validCapabilityName name) eqn:Hv.
  - destruct (project_listings namespace name 0 (mkTally ∅ ∅ ∅) listings Hv) as [H1 H2].
    cbn [versions counts] in H1, H2. rewrite lookup_empty in H1. rewrite lookup_empty in H2.
    change (default 0 (None : option nat)) with 0 in H2. rewrite Nat.add_0_l in H2.
    fold t in H1, H2. rewrite H1, H2, unanimous_records.
    replace (length listings) with (length (map (records namespace name) listings))
      by apply length_map. rewrite mentions_all.
    destruct listings as [|l listings]; [done|]. cbn [map]. split.
    + intros (Hk & Hvn & Hm). split_and!; try done. assert (Hm' := Hm). apply Forall_cons in Hm' as [Hm1 Hm2].
     
      by apply known_after_start in Hk; [|done|].
    + intros (_ & Hvn & Hm & Hf). split_and!; try done. assert (Hm' := Hm). apply Forall_cons in Hm' as [Hm1 Hm2].
     
      by apply known_after_start.
  - split; [|by intros [? _]]. intros [Hk _]. unfold t in Hk.
    rewrite tally_listings_invalid in Hk by done. done.
Qed.

(** ** Properties *)

(** The derived entries are exactly what is true of every platform: there
    is an entry [name@v] precisely for the names every listing records, with
    every record of the name anywhere at the one version [v] that
    [PackageVersion] can name; and the entries are sorted and distinct. *)
Theorem derived_provides_exact namespace listings :
  listings ≠ [] →
  (∀ entry, entry ∈ DerivedProvides namespace listings ↔
     ∃ name v, entry = name +:+ "@" +:+ v ∧
       validCapabilityName name = true ∧ v ≠ "" ∧ unanimous namespace listings name v) ∧
  StronglySorted String.le (DerivedProvides namespace listings).
Proof.
  intros Hne. split; [|apply sort_strings_sorted]. intros entry.
  unfold DerivedProvides. rewrite sort_strings_elem_of, list_elem_of_In, in_map_iff. split.
  - intros ([name v] & <- & [Hin Ha]%filter_In). exists name, v. split; [done|].
    apply agreed_unanimous; [done|]. split; [|done]. by apply elem_of_map_to_list, list_elem_of_In.
  - intros (name & v & -> & H). apply agreed_unanimous in H as [Hk Ha]; [|done].
    exists (name, v). split; [done|]. apply filter_In. split; [|done].
    by apply list_elem_of_In, elem_of_map_to_list.
Qed.

Lemma derived_provides_exact_witness :
  let amd := [mkPackage "zlib1g" "1:1.2.13.dfsg-1"; mkPackage "gh" "2.40.1"] in
  let arm := [mkPackage "gh" "2.40.1-1"; mkPackage "libfoo" "3"] in
  "deb/" +:+ "gh" +:+ "@" +:+ "2.40.1" ∈ DerivedProvides "deb" [amd; arm] ∧
  "deb/zlib1g@1.2.13" ∉ DerivedProvides "deb" [amd; arm].
Proof.
  intros amd arm. destruct (derived_provides_exact "deb" [amd; arm]) as [H _]; [done|].
  split; [|eapply bool_decide_unpack; vm_compute; exact I].
  apply H. exists "deb/gh", "2.40.1". split; [done|]. split; [by vm_compute|]. split; [done|].
  apply unanimous_records. by split; vm_compute; repeat constructor.
Defined.
