(* ===== verification/GoPath.v ===== *)
(** Go's [path] package as [package spec] calls it: [Clean], [IsAbs] and
    [Base], and the canonical absolute paths of [spec/validate.go]. *)
From stdpp Require Import options.
From S2P Require Import Prelude GoStrings.

Definition slash : ascii := "/".

(** ** [path.Clean]

    The library's scan, element by element: [..] takes the last element away, or
    stays when there is none to take and the path is relative. *)

Definition clean_step (rooted : bool) (out : list string) (e : string) : list string :=
  if bool_decide (e = "") || bool_decide (e = ".") then out
  else if bool_decide (e = "..") then
    match out with
    | [] => if rooted then [] else [".."]
    | top :: out' => if bool_decide (top = "..") then ".." :: out else out'
    end
  else e :: out.

Definition is_abs (p : string) : bool := has_prefix "/" p.

Definition clean_elements (p : string) : list string :=
  rev (foldl (clean_step (is_abs p)) [] (split slash p)).

Definition Clean (p : string) : string :=
  let out := join "/" (clean_elements p) in
  if is_abs p then "/" +:+ out else if bool_decide (out = "") then "." else out.

(** ** [path.Base] *)

Fixpoint strip_slashes (n : nat) (s : string) : string :=
  match n with
  | O => s
  | S n => if has_suffix "/" s then strip_slashes n (trim_suffix "/" s) else s
  end.
Definition Base (p : string) : string :=
  if bool_decide (p = "") then "."
  else
    let p := strip_slashes (String.length p) p in
    let p := match last_index slash p with Some i => str_drop (S i) p | None => p end in
    if bool_decide (p = "") then "/" else p.

(** ** [path.Split] and [path.Join] *)

(** The directory keeps its slash. *)
Definition Split (p : string) : string * string :=
  match last_index slash p with
  | Some i => (str_take (S i) p, str_drop (S i) p)
  | None => ("", p)
  end.

(** Empty elements are ignored. *)
Definition Join (a b : string) : string :=
  if bool_decide (a = "") then (if bool_decide (b = "") then "" else Clean b)
  else if bool_decide (b = "") then Clean a
  else Clean (a +:+ "/" +:+ b).

(** ** Canonical paths ([spec/validate.go]) *)

Definition canonicalAbsPath (p : string) : bool := has_prefix "/" p && bool_decide (p = Clean p).

Example clean_samples :
  map Clean [""; "/"; "/data/./cache"; "/data//cache/"; "/../a"; "../a/../../b"; "a/.."; "//"] =
  ["."; "/"; "/data/cache"; "/data/cache"; "/a"; "../../b"; "."; "/"].
Proof. by vm_compute. Qed.

Example base_samples :
  map Base [""; "/"; "/skills/review/"; "review"; "a//"] = ["."; "/"; "review"; "review"; "a"].
Proof. by vm_compute. Qed.

(** ** Facts *)

(** An element that [Clean] keeps as it is. *)
Definition proper (e : string) : bool :=
  negb (bool_decide (e = "")) && negb (bool_decide (e = ".")) && negb (bool_decide (e = "..")).

Lemma proper_spec e : proper e = true ↔ e ≠ "" ∧ e ≠ "." ∧ e ≠ "..".
Proof. unfold proper. rewrite !andb_true_iff, !negb_true_iff, !bool_decide_eq_false. tauto. Qed.

Lemma clean_step_proper rooted out e : proper e = true → clean_step rooted out e = e :: out.
Proof.
  rewrite proper_spec. intros (H1 & H2 & H3). unfold clean_step.
  by rewrite !bool_decide_eq_false_2.
Qed.

Lemma foldl_clean_proper rooted l out :
  Forall (λ e, proper e = true) l → foldl (clean_step rooted) out l = rev l ++ out.
Proof.
  intros H. revert out. induction H as [|e l He _ IH]; intros out; [done|].
  cbn [foldl rev]. rewrite clean_step_proper, IH by done. by rewrite <-(assoc_L (++)).
Qed.

(** What a rooted path keeps. *)
Lemma clean_step_rooted out e :
  Forall (λ e, proper e = true) out → Forall (λ e, proper e = true) (clean_step true out e).
Proof.
  intros H. unfold clean_step. repeat case_bool_decide; cbn; try done; simplify_eq.
  - destruct H as [|top out Ht Ho]; [done|]. case_bool_decide; [subst; done|done].
  - constructor; [|done]. by apply proper_spec.
Qed.

Lemma foldl_clean_rooted l out :
  Forall (λ e, proper e = true) out → Forall (λ e, proper e = true) (foldl (clean_step true) out l).
Proof. revert out. induction l as [|e l IH]; intros out H; [done|]. by apply IH, clean_step_rooted. Qed.

Lemma clean_elements_rooted p :
  is_abs p = true → Forall (λ e, proper e = true) (clean_elements p).
Proof.
  intros Hp. unfold clean_elements. rewrite Hp. apply Forall_rev. by apply foldl_clean_rooted.
Qed.

Lemma clean_step_elements rooted out e x :
  x ∈ clean_step rooted out e → x ∈ out ∨ x = e.
Proof.
  unfold clean_step. repeat case_bool_decide; cbn; try (by left); simplify_eq.
  - destruct out as [|top out]; [destruct rooted; set_solver|]. case_bool_decide; set_solver.
  - set_solver.
Qed.

Lemma foldl_clean_elements rooted l out x :
  x ∈ foldl (clean_step rooted) out l → x ∈ out ∨ x ∈ l.
Proof.
  revert out. induction l as [|e l IH]; intros out; [by left|]. cbn. intros H.
  apply IH in H as [H|H]; [|right; by right].
  apply clean_step_elements in H as [H| ->]; [by left|right; by left].
Qed.

(** The elements of a rooted path in canonical form. *)
Definition clean_names (l : list string) : Prop :=
  Forall (λ e, proper e = true ∧ contains_byte slash e = false) l.

Lemma clean_elements_clean p : is_abs p = true → clean_names (clean_elements p).
Proof.
  intros Hp. pose proof (clean_elements_rooted p Hp) as H1.
  apply Forall_forall. intros e He. rewrite Forall_forall in H1. split; [by apply H1|].
  unfold clean_elements in He. rewrite list_elem_of_In, <-in_rev, <-list_elem_of_In in He.
  apply foldl_clean_elements in He as [He|He]; [by inversion He|].
  pose proof (split_free slash p) as Hf. rewrite Forall_forall in Hf. by apply Hf.
Qed.

Lemma Clean_rooted p : is_abs p = true → Clean p = "/" +:+ join "/" (clean_elements p).
Proof. intros Hp. unfold Clean. by rewrite Hp. Qed.

Lemma clean_elements_join l : clean_names l → clean_elements ("/" +:+ join "/" l) = l.
Proof.
  intros Hl. unfold clean_elements. change (is_abs ("/" +:+ join "/" l)) with (has_prefix "/" ("/" +:+ join "/" l)).
  rewrite has_prefix_app.
  change ("/" +:+ join "/" l) with ("" +:+ String slash (join "/" l)).
  rewrite split_app_sep. cbn [split app foldl].
  change (clean_step true [] "") with (@nil string).
  destruct l as [|x l]; [done|].
  change "/" with (String slash ""). rewrite split_join; [|done|].
  - rewrite foldl_clean_proper, app_nil_r, rev_involutive; [done|].
    eapply Forall_impl; [exact Hl|]. by intros e [? _].
  - eapply Forall_impl; [exact Hl|]. by intros e [_ ?].
Qed.

Lemma Clean_abs p : is_abs p = true → is_abs (Clean p) = true.
Proof. intros Hp. rewrite Clean_rooted by done. apply (has_prefix_app "/"). Qed.

Lemma Clean_idem p : is_abs p = true → Clean (Clean p) = Clean p.
Proof.
  intros Hp. rewrite (Clean_rooted (Clean p)) by by apply Clean_abs.
  rewrite (Clean_rooted p) by done. rewrite clean_elements_join; [done|].
  by apply clean_elements_clean.
Qed.

Lemma canonicalAbsPath_Clean p : is_abs p = true → canonicalAbsPath (Clean p) = true.
Proof.
  intros Hp. unfold canonicalAbsPath. rewrite Clean_idem by done.
  rewrite bool_decide_eq_true_2 by done. rewrite andb_true_r. by apply Clean_abs.
Qed.

(** *** [path.Split] *)

Lemma last_index_None c s : last_index c s = None ↔ contains_byte c s = false.
Proof.
  induction s as [|d s IH]; [done|]. cbn [last_index]. rewrite contains_byte_cons, orb_false_iff, bool_decide_eq_false.
  destruct (last_index c s); [naive_solver|]. case_decide; naive_solver.
Qed.

(** The base is the last element of the path. *)
Lemma Split_base s : (Split s).2 = List.last (split slash s) "".
Proof.
  unfold Split. induction s as [|d s IH]; [done|]. cbn [last_index split].
  pose proof (split_nonempty slash s) as Hne.
  destruct (last_index slash s) as [i|] eqn:E.
  - cbn [snd str_drop] in *. rewrite IH. case_decide.
    + by destruct (split slash s).
    + destruct (split slash s) as [|x [|y l]] eqn:El; [done| |done].
      exfalso. assert (contains_byte slash s = false) as Hc%last_index_None; [|congruence].
      rewrite <-(join_split slash s), El. cbn. pose proof (split_free slash s) as Hf. rewrite El in Hf.
      by inversion Hf.
  - apply last_index_None in E. rewrite split_none by done. case_decide; done.
Qed.

Lemma Split_base_free s : contains_byte slash (Split s).2 = false.
Proof.
  rewrite Split_base. pose proof (split_free slash s) as Hf. pose proof (split_nonempty slash s).
  destruct (split slash s) as [|x l] using rev_ind; [done|]. rewrite last_last.
  apply Forall_app in Hf as [_ Hf]. by inversion Hf.
Qed.

Lemma clean_step_nonempty rooted out e :
  Forall (.≠ "") out → Forall (.≠ "") (clean_step rooted out e).
Proof.
  intros H. unfold clean_step. repeat case_bool_decide; cbn; simplify_eq; try done.
  - destruct H as [|top out Ht Ho]; [destruct rooted; by repeat constructor|].
    case_bool_decide; by repeat constructor.
  - by constructor.
Qed.

Lemma clean_elements_nonempty p : Forall (λ e, e ≠ "" ∧ contains_byte slash e = false) (clean_elements p).
Proof.
  unfold clean_elements. apply Forall_rev. apply Forall_and. split.
  - generalize (split slash p), (is_abs p). intros l r.
    assert (∀ out, Forall (.≠ "") out → Forall (.≠ "") (foldl (clean_step r) out l)) as H; [|by apply H].
    induction l as [|e l IH]; intros out Ho; [done|]. by apply IH, clean_step_nonempty.
  - apply Forall_forall. intros e He. apply foldl_clean_elements in He as [He|He]; [by inversion He|].
    pose proof (split_free slash p) as Hf. rewrite Forall_forall in Hf. by apply Hf.
Qed.

(** The base of a cleaned path is empty for the root only. *)
Lemma Clean_base p : Clean p ≠ "/" → (Split (Clean p)).2 ≠ "".
Proof.
  intros Hp. rewrite Split_base. unfold Clean in *.
  pose proof (clean_elements_nonempty p) as Hf.
  assert (∀ l, l ≠ [] → Forall (λ e, e ≠ "" ∧ contains_byte slash e = false) l →
            List.last (split slash (join "/" l)) "" ≠ "") as Hl.
  { intros l Hne Hl. change "/" with (String slash "").
    rewrite split_join; [|done|by eapply Forall_impl; [exact Hl|]; intros ? []].
    destruct l as [|x l _] using rev_ind; [done|]. rewrite last_last.
    apply Forall_app in Hl as [_ Hl]. inversion Hl; naive_solver. }
  destruct (clean_elements p) as [|x l] eqn:E.
  - destruct (is_abs p); cbn in *; [done|]. done.
  - destruct (is_abs p); cbn zeta.
    + change ("/" +:+ join "/" (x :: l)) with ("" +:+ String slash (join "/" (x :: l))).
      rewrite split_app_sep. specialize (Hl (x :: l)). cbn [split app].
      pose proof (split_nonempty slash (join "/" (x :: l))).
      destruct (split slash (join "/" (x :: l))); [done|]. by apply Hl.
    + case_bool_decide; [done|]. by apply Hl.
Qed.

(** ** Properties *)

(** A path is canonical exactly when it is a slash followed by names, none
    empty, [.] or [..], separated by single slashes; so two canonical spellings
    of one destination are the same string, and cleaning any absolute path
    gives a canonical one. *)
Theorem canonical_paths_exact p :
  (canonicalAbsPath p = true ↔ ∃ l, clean_names l ∧ p = "/" +:+ join "/" l) ∧
  (is_abs p = true → canonicalAbsPath (Clean p) = true ∧
     ∀ q, canonicalAbsPath q = true → clean_elements q = clean_elements p → q = Clean p).
Proof.
  assert (∀ q, canonicalAbsPath q = true → is_abs q = true ∧ q = Clean q) as Hc.
  { intros q. unfold canonicalAbsPath, is_abs. rewrite andb_true_iff, bool_decide_eq_true. done. }
  split; [split|].
  - intros [Ha He]%Hc. exists (clean_elements p). split; [by apply clean_elements_clean|].
    by rewrite <-Clean_rooted.
  - intros (l & Hl & ->). unfold canonicalAbsPath. rewrite has_prefix_app.
    rewrite Clean_rooted by apply (has_prefix_app "/").
    by rewrite clean_elements_join, bool_decide_eq_true_2.
  - intros Hp. split; [by apply canonicalAbsPath_Clean|].
    intros q [Ha He]%Hc E.
    rewrite He, !Clean_rooted by done. by rewrite E.
Qed.

Lemma canonical_paths_exact_witness :
  canonicalAbsPath (Clean "/data/./cache/../x") = true.
Proof. apply (canonical_paths_exact "/data/./cache/../x"). by vm_compute. Defined.
