(* ===== verification/Template.v ===== *)
(** Kit templates: the reference patterns of [spec/expand.go] and
    [spec/environment.go], the strings and configurations that contain them,
    and the resolution of kit arguments ([ResolveArgs], [ExpandString],
    [ExpandLifecycle]). *)
From stdpp Require Import options.
From S2P Require Import Prelude GoStrings Regex Version Json Types Config.

(** ** Patterns *)

(** [\s] and [\w]. *)
Definition is_space (c : ascii) : bool :=
  bool_decide (nat_of_ascii c ∈ [9; 10; 12; 13; 32]).
Definition is_name_start (c : ascii) : bool := is_upper c || is_lower c || one_of "_" c.
Definition is_word (c : ascii) : bool := is_name_start c || is_digit c.

Definition name_pattern : regex := RCat (RSet is_name_start) (RStar (RSet is_word)).
Definition envVarName : regex := name_pattern.

Definition opening (keyword : string) : regex :=
  RCat (RLit "${{") (RCat (RStar (RSet is_space)) (RLit keyword)).
Definition reference_to (keyword : string) : regex :=
  RCat (opening keyword) (RCat name_pattern (RCat (RStar (RSet is_space)) (RLit "}}"))).

Definition argRef : regex := reference_to "kit.args.".
Definition envRef : regex := reference_to "kit.env.".
Definition wholeArgRef : regex := argRef.

(** A string cut at the leftmost matches of a pattern, as [FindAll] and
    [ReplaceAll] cut it.  The patterns here match in at most one way at a
    position, since they end at the first closing braces. *)
Inductive piece := Text (s : string) | Match (s : string).

Definition push_char (c : ascii) (ps : list piece) : list piece :=
  match ps with
  | Text t :: ps => Text (String c t) :: ps
  | _ => Text (String c "") :: ps
  end.
Fixpoint pieces (r : regex) (skip : nat) (s : string) : list piece :=
  match s with
  | "" => []
  | String c s' =>
      match skip with
      | S skip => pieces r skip s'
      | O =>
          match longest_prefix r s with
          | Some (String _ m as t) => Match t :: pieces r (String.length m) s'
          | _ => push_char c (pieces r 0 s')
          end
      end
  end.

(** The submatch of a reference: the name between the keyword and the braces. *)
Fixpoint take_word (s : string) : string :=
  match s with String c s => if is_word c then String c (take_word s) else "" | "" => "" end.
Fixpoint drop_space (s : string) : string :=
  match s with String c s' => if is_space c then drop_space s' else s | "" => "" end.
Definition ref_name (keyword m : string) : string :=
  take_word (trim_prefix keyword (drop_space (trim_prefix "${{" m))).

Definition matched (ps : list piece) : list string :=
  omap (λ p, match p with Match m => Some m | Text _ => None end) ps.
Definition arg_names (s : string) : list string := map (ref_name "kit.args.") (matched (pieces argRef 0 s)).

Definition has_match (r : regex) (s : string) : bool :=
  negb (bool_decide (matched (pieces r 0 s) = [])).

Definition ContainsArgRef (s : string) : bool := contains "${{" s && has_match argRef s.
Definition IsWholeArgRef (s : string) : bool := matches wholeArgRef s.
Definition ReferencedArgs (raw : string) : list string := dedupe id (arg_names raw).

(** An opener: [\$\{\{\s*kit\.env\b] ends before a byte that is no word byte. *)
Definition word_boundary (s : string) : bool :=
  match s with "" => true | String c _ => negb (is_word c) end.
Definition opens_at (keyword s : string) : bool :=
  match longest_prefix (opening keyword) s with
  | Some p => word_boundary (str_drop (String.length p) s)
  | None => false
  end.
Fixpoint opener_in (keyword s : string) : bool :=
  opens_at keyword s || match s with "" => false | String _ s => opener_in keyword s end.

Definition ContainsEnvRef (s : string) : bool := opener_in "kit.env" s.
Definition ContainsKitPlaceholder (s : string) : bool :=
  opener_in "kit.args" s || opener_in "kit.env" s.

Example arg_names_sample :
  arg_names "v${{ kit.args.major }}.${{kit.args.minor}}-${{ kit.args. }}" = ["major"; "minor"].
Proof. by vm_compute. Qed.

Example openers_sample :
  (ContainsEnvRef "a ${{ kit.env", ContainsEnvRef "${{ kit.envx }}", ContainsArgRef "${{ kit.args.}}") =
  (true, false, false).
Proof. by vm_compute. Qed.

(** ** References in configurations ([spec/environment.go]) *)

(** References in the string values of a configuration, and in its keys. *)
Fixpoint env_values (v : value) : bool :=
  match v with
  | VStr s => ContainsEnvRef s
  | VList l => existsb env_values l
  | VMap m => existsb (λ kv, env_values kv.2) m
  | _ => false
  end.
Fixpoint env_keys (v : value) : bool :=
  match v with
  | VList l => existsb env_keys l
  | VMap m => existsb (λ kv, ContainsEnvRef kv.1 || env_keys kv.2) m
  | _ => false
  end.
Definition environmentReferences (config : value) : bool * bool :=
  if negb (marshals config) then (false, false) else (env_values config, env_keys config).

Definition HasEnvReferences (items : list Capability) : bool :=
  existsb (λ c, let '(values, keys) := environmentReferences (config_value c) in values || keys)
    (DeclaredCapabilities items).

(** ** Resolving arguments *)

Inductive arg_error :=
  | ArgNotDeclared (name : string)
  | ArgRequired (name : string)
  | ArgNotInEnum (name value : string) (enum : list string)
  | ArgBadPattern (name : string)
  | ArgNoMatch (name value pattern : string)
  | ArgUnresolved (name : string)
  | ArgBakedIn (name : string)
  | ArgEmbedded (name value : string)
  | HookArg (i : nat) (cause : arg_error)
  | FileArg (i : nat) (path : string) (cause : arg_error).

(** [regexp.Compile] of a pattern built around one an author wrote: [None] when
    it does not compile, otherwise its [MatchString]. *)
Section Resolving.
Context (compile : string → option (string → bool)).

Definition checkArgValue (name : string) (decl : Arg) (v : string) : result arg_error () :=
  if negb (bool_decide (Arg_Enum decl = [])) then
    if bool_decide (v ∈ Arg_Enum decl) then Ok () else Err (ArgNotInEnum name v (Arg_Enum decl))
  else if negb (bool_decide (Arg_Pattern decl = "")) then
    match compile ("^(?:" +:+ Arg_Pattern decl +:+ ")$") with
    | None => Err (ArgBadPattern name)
    | Some re => if negb (re v) then Err (ArgNoMatch name v (Arg_Pattern decl)) else Ok ()
    end
  else Ok ().

(** The value one declaration gets, if any. *)
Definition resolve_arg (supplied : gmap string string) (name : string) (decl : Arg) :
    result arg_error (option string) :=
  match supplied !! name with
  | Some v => _ ← checkArgValue name decl v; Ok (Some v)
  | None =>
      if Arg_Required decl then Err (ArgRequired name)
      else
        match Arg_Default decl with
        | None => Ok None
        | Some v => _ ← checkArgValue name decl v; Ok (Some v)
        end
  end.

(** Go's map order decides only which of several errors is reported. *)
Fixpoint resolve_args (supplied : gmap string string) (decls : list (string * Arg))
    (values : gmap string string) : result arg_error (gmap string string) :=
  match decls with
  | [] => Ok values
  | (name, decl) :: decls =>
      v ← resolve_arg supplied name decl;
      resolve_args supplied decls match v with Some v => <[name := v]> values | None => values end
  end.
Definition ResolveArgs (decls : gmap string Arg) (supplied : gmap string string) :
    result arg_error (gmap string string) :=
  match List.find (λ kv, negb (bool_decide (is_Some (decls !! kv.1)))) (map_to_list supplied) with
  | Some kv => Err (ArgNotDeclared kv.1)
  | None => resolve_args supplied (map_to_list decls) ∅
  end.
End Resolving.

(** ** Expanding hooks and files *)

(** The first unresolved reference is the error; a [nil] error keeps the text. *)
Fixpoint expand_pieces (values : gmap string string) (ps : list piece) :
    result arg_error string :=
  match ps with
  | [] => Ok ""
  | Text t :: ps => r ← expand_pieces values ps; Ok (t +:+ r)
  | Match m :: ps =>
      let name := ref_name "kit.args." m in
      match values !! name with
      | None => Err (ArgUnresolved name)
      | Some v => r ← expand_pieces values ps; Ok (v +:+ r)
      end
  end.
Definition ExpandString (s : string) (values : gmap string string) : result arg_error string :=
  expand_pieces values (pieces argRef 0 s).

(** [make(CommandLine, len(c))] turns a nil command into an empty one. *)
Definition expandCommand (c : option (list string)) (values : gmap string string) :
    result arg_error (option (list string)) :=
  l ← mapM (λ part, ExpandString part values) (elems c); Ok (Some l).

Fixpoint expand_each {A} (f : A → result arg_error A) (wrap : nat → A → arg_error → arg_error)
    (i : nat) (l : list A) : result arg_error (list A) :=
  match l with
  | [] => Ok []
  | a :: l => b ← map_err (wrap i a) (f a); r ← expand_each f wrap (S i) l; Ok (b :: r)
  end.

Definition ExpandLifecycle (lc : option Lifecycle) (values : gmap string string) :
    result arg_error (option Lifecycle) :=
  match lc with
  | None => Ok None
  | Some lc =>
      install ← expand_each (λ h,
        command ← expandCommand (InstallHook_Command h) values;
        Ok (mkInstallHook command (InstallHook_User h) (InstallHook_Env h)
              (InstallHook_Description h)))
        (λ i _, HookArg i) 0 (Lifecycle_Install lc);
      startup ← expand_each (λ h,
        command ← expandCommand (StartupHook_Command h) values;
        Ok (mkStartupHook command (StartupHook_User h) (StartupHook_Background h)
              (StartupHook_Env h) (StartupHook_Description h)))
        (λ i _, HookArg i) 0 (Lifecycle_Startup lc);
      files ← expand_each (λ f,
        content ← ExpandString (File_Content f) values;
        Ok (mkFile (File_Path f) content (File_Mode f) (File_Overwrite f) (File_Description f)))
        (λ i f, FileArg i (File_Path f)) 0 (Lifecycle_Files lc);
      Ok (Some (mkLifecycle install startup files (Lifecycle_Interactive lc)))
  end.

(** ** Facts *)

Definition piece_text (p : piece) : string := match p with Text s | Match s => s end.
Definition unpiece (ps : list piece) : string := foldr (λ p s, piece_text p +:+ s) "" ps.

Lemma unpiece_push c ps : unpiece (push_char c ps) = String c (unpiece ps).
Proof. by destruct ps as [|[t|m] ps]. Qed.

Lemma str_drop_cons_app n c s : str_drop (S n) (String c s) = str_drop n s.
Proof. done. Qed.

(** Cutting a string at the matches loses nothing. *)
Lemma unpiece_pieces r skip s : unpiece (pieces r skip s) = str_drop skip s.
Proof.
  revert skip. induction s as [|c s IH]; intros skip; [by destruct skip|].
  destruct skip as [|skip]; [|cbn; apply IH]. cbn [pieces str_drop].
  destruct (longest_prefix r (String c s)) as [[|d m]|] eqn:E.
  - by rewrite unpiece_push, IH.
  - cbn [unpiece foldr piece_text]. fold (unpiece (pieces r (String.length m) s)). rewrite IH.
    apply longest_prefix_match in E as [_ [q Eq]]. rewrite str_app_cons in Eq.
    injection Eq as -> ->. by rewrite str_drop_app.
  - by rewrite unpiece_push, IH.
Qed.

Lemma pieces_none s : matched (pieces argRef 0 s) = [] → ∀ values, ExpandString s values = Ok s.
Proof.
  intros H values. unfold ExpandString. rewrite <-(unpiece_pieces argRef 0 s : _ = s) at 2.
  induction (pieces argRef 0 s) as [|[t|m] ps IH]; [done| |done]. cbn.
  by rewrite IH by exact H.
Qed.

(** The text with every reference replaced. *)
Definition substituted (values : gmap string string) (ps : list piece) : string :=
  foldr (λ p s, match p with
                | Text t => t
                | Match m => default "" (values !! ref_name "kit.args." m)
                end +:+ s) "" ps.

Lemma expand_pieces_Ok values ps s :
  expand_pieces values ps = Ok s ↔
  Forall (λ m, is_Some (values !! ref_name "kit.args." m)) (matched ps) ∧ s = substituted values ps.
Proof.
  revert s. induction ps as [|[t|m] ps IH]; intros s.
  - cbn. split; [intros [= <-]; split; [constructor|done]|by intros [_ ->]].
  - cbn [expand_pieces matched omap list_omap substituted foldr]. rewrite result_bind_Ok. split.
    + intros (r & Hr & [= <-]). apply IH in Hr as [Hf ->]. done.
    + intros [Hf ->]. eexists. split; [by apply IH|done].
  - cbn [expand_pieces matched omap list_omap substituted foldr].
    destruct (values !! _) as [v|] eqn:E; cbn [default].
    + rewrite result_bind_Ok. split.
      * intros (r & Hr & [= <-]). apply IH in Hr as [Hf ->]. split; [|done].
        constructor; [by rewrite E|done].
      * intros [Hf ->]. apply Forall_cons in Hf as [_ Hf]. eexists. split; [by apply IH|done].
    + split; [done|]. intros [Hf _]. apply Forall_cons in Hf as [[v Hv] _]. congruence.
Qed.

Section ResolvingFacts.
#[local] Set Default Proof Using "All".
Context (compile : string → option (string → bool)).

(** What a declaration admits. *)
Definition accepts (decl : Arg) (v : string) : Prop :=
  (Arg_Enum decl ≠ [] → v ∈ Arg_Enum decl) ∧
  (Arg_Enum decl = [] → Arg_Pattern decl ≠ "" →
   ∃ re, compile ("^(?:" +:+ Arg_Pattern decl +:+ ")$") = Some re ∧ re v = true).

Lemma checkArgValue_Ok name decl v : checkArgValue compile name decl v = Ok () ↔ accepts decl v.
Proof.
  unfold checkArgValue, accepts. case_bool_decide as He; cbn [negb].
  - case_bool_decide as Hp; cbn [negb]; [tauto|].
    destruct (compile _) as [re|].
    + destruct (re v) eqn:Ev; cbn [negb]; split; try done; intros H.
      * split; [done|]. eauto.
      * destruct H as [_ H]. destruct (H He Hp) as (re' & [= <-] & ?). congruence.
    + split; [done|]. intros [_ H]. by destruct (H He Hp) as (? & ? & _).
  - case_bool_decide as Hv; split; try done. intros [H _]. by destruct Hv; apply H.
Qed.

Definition arg_value (supplied : gmap string string) (name : string) (decl : Arg) : option string :=
  match supplied !! name with
  | Some v => Some v
  | None => if Arg_Required decl then None else Arg_Default decl
  end.
Definition answered (supplied : gmap string string) (name : string) (decl : Arg) : Prop :=
  match arg_value supplied name decl with
  | Some v => accepts decl v
  | None => Arg_Required decl = false
  end.

Lemma resolve_arg_Ok supplied name decl v :
  resolve_arg compile supplied name decl = Ok v ↔
  answered supplied name decl ∧ v = arg_value supplied name decl.
Proof.
  unfold resolve_arg, answered, arg_value. destruct (supplied !! name) as [s|].
  - rewrite result_bind_Ok. setoid_rewrite <-(checkArgValue_Ok name). split.
    + intros ([] & ? & [= <-]). done.
    + intros [? ->]. by exists ().
  - destruct (Arg_Required decl); [naive_solver|]. destruct (Arg_Default decl) as [s|].
    + rewrite result_bind_Ok. setoid_rewrite <-(checkArgValue_Ok name). split.
      * intros ([] & ? & [= <-]). done.
      * intros [? ->]. by exists ().
    + naive_solver.
Qed.

Lemma resolve_args_Ok supplied l vals :
  NoDup l.*1 →
  (∀ n d, (n, d) ∈ l → answered supplied n d) ↔ ∃ out, resolve_args compile supplied l vals = Ok out.
Proof.
  revert vals. induction l as [|[n d] l IH]; intros vals Hnd.
  - split; [by exists vals|]. intros _ n d H. by inversion H.
  - cbn [fmap list_fmap fst] in Hnd. apply NoDup_cons in Hnd as [Hn Hnd]. cbn [resolve_args].
    setoid_rewrite elem_of_cons. split.
    + intros H. assert (answered supplied n d) as Ha by (apply H; by left).
      rewrite (proj2 (resolve_arg_Ok supplied n d _) (conj Ha eq_refl)).
      cbn. apply IH; [done|]. intros n' d' ?. apply H. by right.
    + intros [out (v & Hv & Ho)%result_bind_Ok]. apply resolve_arg_Ok in Hv as [Ha ->].
      intros n' d' [[= -> ->]|Hin]; [done|]. revert n' d' Hin.
      apply (IH (match arg_value supplied n d with Some v => <[n:=v]> vals | None => vals end) Hnd).
      by exists out.
Qed.

Lemma resolve_args_lookup supplied l vals out :
  NoDup l.*1 → (∀ n, n ∈ l.*1 → vals !! n = None) →
  resolve_args compile supplied l vals = Ok out →
  ∀ n, (∀ d, (n, d) ∈ l → out !! n = arg_value supplied n d) ∧
       (n ∉ l.*1 → out !! n = vals !! n).
Proof.
  revert vals. induction l as [|[m d] l IH]; intros vals Hnd Hvals Ho.
  - injection Ho as <-. intros n. split; [by intros d H; inversion H|done].
  - cbn [fmap list_fmap fst] in Hnd, Hvals. apply NoDup_cons in Hnd as [Hm Hnd].
    cbn [resolve_args] in Ho. apply result_bind_Ok in Ho as (v & Hv & Ho).
    apply resolve_arg_Ok in Hv as [_ ->].
    assert (Hvals' : ∀ n, n ∈ l.*1 → (match arg_value supplied m d with
      Some v => <[m:=v]> vals | None => vals end) !! n = None).
    { intros n Hn. assert (n ≠ m) by (by intros ->).
      destruct (arg_value supplied m d); rewrite ?lookup_insert_ne by done; apply Hvals; by right. }
    specialize (IH _ Hnd Hvals' Ho). intros n. destruct (IH n) as [IH1 IH2]. split.
    + intros d' Hd. apply elem_of_cons in Hd as [[= -> ->]|Hd]; [|by apply IH1].
      rewrite IH2 by done. destruct (arg_value supplied m d); [apply lookup_insert_eq|].
      apply Hvals. by left.
    + intros Hn. cbn [fmap list_fmap fst] in Hn. apply not_elem_of_cons in Hn as [Hne Hn].
      rewrite IH2 by done. destruct (arg_value supplied m d); [|done]. by rewrite lookup_insert_ne.
Qed.

Lemma ResolveArgs_Ok decls supplied :
  (∃ out, ResolveArgs compile decls supplied = Ok out) ↔
  (∀ n, is_Some (supplied !! n) → is_Some (decls !! n)) ∧
  (∀ n d, decls !! n = Some d → answered supplied n d).
Proof.
  unfold ResolveArgs. destruct (List.find _ _) as [[n v]|] eqn:E.
  - apply List.find_some in E as [Hin Hn]. apply list_elem_of_In, elem_of_map_to_list in Hin.
    apply negb_true_iff, bool_decide_eq_false in Hn. cbn in Hn.
    split; [by intros [? ?]|]. intros [H _]. destruct Hn. apply H. by eexists.
  - assert (∀ n, is_Some (supplied !! n) → is_Some (decls !! n)) as Hd.
    { intros n [v Hv]. apply elem_of_map_to_list in Hv.
      pose proof (List.find_none _ _ E (n, v)) as H. rewrite <-list_elem_of_In in H.
      specialize (H Hv). by apply negb_false_iff, bool_decide_eq_true in H. }
    rewrite <-resolve_args_Ok by apply NoDup_fst_map_to_list.
    setoid_rewrite elem_of_map_to_list. tauto.
Qed.

Lemma ResolveArgs_lookup decls supplied out :
  ResolveArgs compile decls supplied = Ok out →
  ∀ n, out !! n = d ← decls !! n; arg_value supplied n d.
Proof.
  unfold ResolveArgs. destruct (List.find _ _) as [[? ?]|]; [done|]. intros Ho n.
  destruct (resolve_args_lookup supplied (map_to_list decls) ∅ out
    (NoDup_fst_map_to_list decls)) with (n := n) as [H1 H2];
    [intros; apply lookup_empty|done|].
  destruct (decls !! n) as [d|] eqn:E; cbn.
  - apply H1. by apply elem_of_map_to_list.
  - rewrite H2; [apply lookup_empty|]. intros [[n' d] [-> H]]%list_elem_of_fmap.
    apply elem_of_map_to_list in H. cbn in *. congruence.
Qed.
End ResolvingFacts.

(** ** Properties *)

(** Resolving arguments succeeds exactly when nothing undeclared is
    supplied and every declaration is answered — by the supplied value, or by
    the default of an optional argument — with a value its enum or pattern
    admits; the result then binds every declared argument to that value and
    nothing else. *)
Theorem resolve_args_exact compile decls supplied :
  ((∃ out, ResolveArgs compile decls supplied = Ok out) ↔
   (∀ n, is_Some (supplied !! n) → is_Some (decls !! n)) ∧
   (∀ n d, decls !! n = Some d → answered compile supplied n d)) ∧
  (∀ out, ResolveArgs compile decls supplied = Ok out →
   (∀ n, out !! n = d ← decls !! n; arg_value supplied n d) ∧
   (∀ n v, out !! n = Some v → ∃ d, decls !! n = Some d ∧ accepts compile d v)).
Proof.
  split; [apply ResolveArgs_Ok|]. intros out Ho. pose proof (ResolveArgs_lookup _ _ _ _ Ho) as Hl.
  split; [done|]. intros n v Hv. rewrite Hl in Hv.
  destruct (decls !! n) as [d|] eqn:E; [|done]. exists d. split; [done|]. cbn in Hv.
  assert (∃ out, ResolveArgs compile decls supplied = Ok out) as Hex by eauto.
  apply ResolveArgs_Ok in Hex as [_ Ha]. specialize (Ha n d E). unfold answered in Ha.
  by rewrite Hv in Ha.
Qed.

Lemma resolve_args_exact_witness :
  let decls : gmap string Arg :=
    <["port" := mkArg (Some "8080") false "" [] "[0-9]+" "" ""]>
    (<["mode" := mkArg None true "" ["dev"; "prod"] "" "" ""]> ∅) in
  let digits p :=
    if bool_decide (p = "^(?:[0-9]+)$") then Some (matches (RPlus (RSet is_digit))) else None in
  ∃ d, decls !! "port" = Some d ∧ accepts digits d "8080".
Proof.
  intros decls digits.
  destruct (resolve_args_exact digits decls (<["mode" := "dev"]> ∅)) as [_ H].
  refine (proj2 (H (<["port" := "8080"]> (<["mode" := "dev"]> ∅)) _) "port" "8080" _);
    by vm_compute.
Defined.

(** Expanding a string succeeds exactly when every reference in it has a
    value; the result is the text with each reference replaced by its value
    and every other byte unchanged. *)
Theorem expand_string_exact s values out :
  ExpandString s values = Ok out ↔
  (∀ n, n ∈ arg_names s → is_Some (values !! n)) ∧ out = substituted values (pieces argRef 0 s).
Proof.
  unfold ExpandString. rewrite expand_pieces_Ok. unfold arg_names.
  rewrite Forall_forall. split; intros [H ->]; (split; [|done]); intros x.
  - intros [m [-> Hm]]%list_elem_of_fmap. by apply H.
  - intros Hx. apply H, list_elem_of_fmap_2, Hx.
Qed.
