(* ===== verification/Diagnostics.v ===== *)
(** [spec/position.go], [spec/diagnostics.go] and [cmd/frontend/source.go]: where the
    elements of a document are in its source, and the failures of a validation shown
    there.

    A field path is a string; [segment]s are what it is made of.  The errors are trees,
    searched the way [errors.As] searches them. *)
From stdpp Require Import options.
From S2P Require Import Prelude GoStrings GoUnicode Version VersionOrder Template.

(** ** Documents with their positions

    [yaml.Node], as far as positions are concerned. *)

Inductive node_kind := DocumentNode | SequenceNode | MappingNode | ScalarNode | AliasNode.
#[export] Instance node_kind_eq_dec : EqDecision node_kind.
Proof. solve_decision. Defined.

Inductive Located := mkLocated {
  Kind : node_kind;
  Line : Z;
  Column : Z;
  Value : string;
  Content : list Located;
}.

(** [yaml.Unmarshal] into a node: a document without content leaves the node zero. *)
Class SourceNodes := { yaml_nodes : string → result string (option Located) }.

Record Position := mkPosition {
  Position_Line : Z;
  Position_Column : Z;
  EndLine : Z;
  EndColumn : Z;
}.
#[export] Instance Position_eq_dec : EqDecision Position.
Proof. solve_decision. Defined.

(** The loops over a mapping's pairs and a sequence's items. *)
Definition over_pairs {A} (f : Located → Located → A → A) : list Located → A → A :=
  fix go l acc := match l with key :: value :: l => go l (f key value acc) | _ => acc end.
Definition over_items {A} (f : nat → Located → A → A) : nat → list Located → A → A :=
  fix go i l acc := match l with item :: l => go (S i) l (f i item acc) | [] => acc end.

Definition last_or {A B} (d : B) (f : A → B) : list A → B :=
  fix go l := match l with [] => d | [x] => f x | _ :: l => go l end.

Fixpoint endPositionOf (n : Located) : Z * Z :=
  match n with
  | mkLocated ScalarNode line column value _ =>
      let lines := split newline_byte value in
      if bool_decide (length lines = 1)
      then (line, column + Z.max 0 (Z.of_nat (String.length value) - 1))%Z
      else (line + Z.of_nat (length lines) - 1, Z.of_nat (String.length (default "" (last lines))))%Z
  | mkLocated (MappingNode | SequenceNode) line column _ content => last_or (line, column) endPositionOf content
  | mkLocated _ line column _ _ => (line, column)
  end.
Definition positionOf (n : Located) : Position :=
  let '(endLine, endColumn) := endPositionOf n in mkPosition (Line n) (Column n) endLine endColumn.

(** ** Paths *)

Definition field_path (path key : string) : string :=
  if bool_decide (path = "") then key else path +:+ "." +:+ key.
Definition indexed (field : string) (i : nat) : string := field +:+ "[" +:+ pretty i +:+ "]".

Fixpoint collectPositions (n : Located) (path : string) (positions : gmap string Position) : gmap string Position :=
  match n with
  | mkLocated MappingNode _ _ _ content =>
      over_pairs (λ key value positions,
        let childPath := field_path path (Value key) in
        collectPositions value childPath (<[childPath := positionOf value]> positions)) content positions
  | mkLocated SequenceNode _ _ _ content =>
      over_items (λ i item positions,
        let childPath := indexed path i in
        collectPositions item childPath (<[childPath := positionOf item]> positions)) 0 content positions
  | _ => positions
  end.

Definition document (root : Located) : Located :=
  match Kind root, Content root with DocumentNode, doc :: _ => doc | _, _ => root end.

(** [nil] maps are empty ones. *)
Definition Positions `{SourceNodes} (raw : string) : gmap string Position :=
  match yaml_nodes raw with
  | Ok (Some root) =>
      let doc := document root in
      if bool_decide (Line doc = 0%Z) then ∅ else collectPositions doc "" {[ "" := positionOf doc ]}
  | _ => ∅
  end.

(** [paths[name] = append(paths[name], path)], for the names a scalar refers to. *)
Definition add_reference (path : string) (paths : gmap string (list string)) (name : string) :
    gmap string (list string) :=
  <[name := default [] (paths !! name) ++ [path]]> paths.

Fixpoint visit_references (n : Located) (path : string) (paths : gmap string (list string)) : gmap string (list string) :=
  match n with
  | mkLocated DocumentNode _ _ _ content => foldl (λ paths child, visit_references child path paths) paths content
  | mkLocated MappingNode _ _ _ content =>
      over_pairs (λ key value paths,
        let childPath := field_path path (Value key) in visit_references value childPath (visit_references key childPath paths))
        content paths
  | mkLocated SequenceNode _ _ _ content =>
      over_items (λ i child paths, visit_references child (indexed path i) paths) 0 content paths
  | mkLocated ScalarNode _ _ value _ => foldl (add_reference path) paths (ReferencedArgs value)
  | mkLocated AliasNode _ _ _ _ => paths
  end.
Definition argReferencePaths `{SourceNodes} (raw : string) : gmap string (list string) :=
  match yaml_nodes raw with Ok (Some root) => visit_references root "" ∅ | _ => ∅ end.

(** [strings.LastIndexAny]. *)
Fixpoint last_index_any (chars : ascii → bool) (s : string) : option nat :=
  match s with
  | "" => None
  | String d s' =>
      match last_index_any chars s' with
      | Some i => Some (S i)
      | None => if chars d then Some 0 else None
      end
  end.

(** The path of the element around the one at [path]. *)
Definition container (path : string) : string :=
  match last_index_any (one_of ".[") path with Some i => str_take i path | None => "" end.

(** The loop of [PositionFor]; every turn shortens the path. *)
Fixpoint position_loop (fuel : nat) (positions : gmap string Position) (path : string) : option Position :=
  match fuel with
  | O => None
  | S fuel =>
      match positions !! path with
      | Some pos => Some pos
      | None => if bool_decide (path = "") then None else position_loop fuel positions (container path)
      end
  end.
Definition PositionFor (positions : gmap string Position) (path : string) : option Position :=
  position_loop (S (String.length path)) positions path.

(** ** Errors *)

Inductive error :=
  (** [errors.New], [fmt.Errorf]. *)
  | Plain (message : string)
  (** [fmt.Errorf("...%w...", err)]: the message is the formatted one. *)
  | Wrapped (message : string) (err : error)
  (** [*FieldError]. *)
  | Field (path : string) (err : error)
  | ValidationErrors (errs : list error)
  (** [*sourceError]. *)
  | Sourced (err : error) (message : string).

Fixpoint Error (err : error) : string :=
  match err with
  | Plain message | Wrapped message _ | Sourced _ message => message
  | Field path err =>
      if bool_decide (path = "") then Error err
      else if has_prefix (path +:+ ": ") (Error err) then Error err
      else path +:+ ": " +:+ Error err
  | ValidationErrors errs => join (String newline_byte "") (map Error errs)
  end.

(** [ValidationErrors.add] and [ValidationErrors.err]; [None] is [nil]. *)
Definition add (e : list error) (err : option error) : list error :=
  match err with
  | None => e
  | Some (ValidationErrors nested) => e ++ nested
  | Some err => e ++ [err]
  end.
Definition err (e : list error) : option error := match e with [] => None | _ => Some (ValidationErrors e) end.

(** [errors.As]: the first error of the type in the tree, from the root down. *)
Fixpoint as_validation (err : error) : option (list error) :=
  match err with
  | ValidationErrors errs => Some errs
  | Wrapped _ err | Field _ err | Sourced err _ => as_validation err
  | Plain _ => None
  end.
Definition first_some {A B} (f : A → option B) : list A → option B :=
  fix go l := match l with [] => None | x :: l => match f x with Some b => Some b | None => go l end end.
(** The field's path. *)
Fixpoint as_field (err : error) : option string :=
  match err with
  | Field path _ => Some path
  | Wrapped _ err | Sourced err _ => as_field err
  | ValidationErrors errs => first_some as_field errs
  | Plain _ => None
  end.

(** [strings.Replace(s, old, new, 1)] and [strings.Repeat]. *)
Fixpoint replace_first (old new s : string) : string :=
  if has_prefix old s then new +:+ str_drop (String.length old) s
  else match s with "" => "" | String c s => String c (replace_first old new s) end.
Fixpoint repeated (s : string) (n : nat) : string := match n with O => "" | S n => s +:+ repeated s n end.

(** ** Excerpts *)

Definition line_feed : string := String newline_byte "".
Definition tab_rune : N := 9.
Definition pad_rune (r : N) : string := if bool_decide (r = tab_rune) then String "009" "" else " ".

Definition sourceExcerpt (lines : list string) (pos : Position) : string :=
  if ((Position_Line pos <? 1) || (Z.of_nat (length lines) <? Position_Line pos) || (Position_Column pos <? 1))%Z then ""
  else
    let line := trim_suffix (String "013" "") (default "" (lines !! Z.to_nat (Position_Line pos - 1))) in
    let runes := runes line in
    if (Z.of_nat (length runes) + 1 <? Position_Column pos)%Z then ""
    else
      let padding := String.concat "" (map pad_rune (take (Z.to_nat (Position_Column pos - 1)) runes)) in
      let number := pretty (Position_Line pos) in
      let gutter := repeated " " (String.length number) in
      line_feed +:+ gutter +:+ " |" +:+ line_feed +:+ number +:+ " | " +:+ line +:+ line_feed +:+ gutter +:+ " | "
        +:+ padding +:+ "^".

(** ** Failures in their source *)

Section Format.
Context (filename : string) (positions : gmap string Position) (lines : list string).

(** A failure that is not several. *)
Definition format_one (err : error) : string :=
  let located := as_field err ≫= PositionFor positions in
  let prefix :=
    match located with
    | Some pos =>
        (if bool_decide (filename = "") then "" else filename +:+ ":")
          +:+ pretty (Position_Line pos) +:+ ":" +:+ pretty (Position_Column pos)
    | None => filename
    end in
  let excerpt := match located with Some pos => sourceExcerpt lines pos | None => "" end in
  if bool_decide (prefix = "") then Error err else prefix +:+ ": " +:+ Error err +:+ excerpt.

Fixpoint format_loop (fuel : nat) (err : error) : string :=
  match fuel with
  | O => ""
  | S fuel =>
      match as_validation err with
      | Some all =>
          replace_first (Error (ValidationErrors all)) (join (line_feed +:+ line_feed) (map (format_loop fuel) all))
            (Error err)
      | None => format_one err
      end
  end.
End Format.

(** How deep lists of failures are nested. *)
Fixpoint nesting (err : error) : nat :=
  match err with
  | Plain _ => 0
  | Wrapped _ err | Field _ err | Sourced err _ => nesting err
  | ValidationErrors errs => S (foldr max 0 (map nesting errs))
  end.
Definition formatSourceError (err : error) (filename : string) (positions : gmap string Position)
    (lines : list string) : string :=
  format_loop filename positions lines (S (nesting err)) err.

Definition WithSource `{SourceNodes} (err : option error) (filename raw : string) : option error :=
  match err with
  | None => None
  | Some err => Some (Sourced err (formatSourceError err filename (Positions raw) (split newline_byte raw)))
  end.

(** ** What BuildKit is given to render *)

(** [int32(n)]. *)
Definition int32 (n : Z) : Z := ((n + 2 ^ 31) mod 2 ^ 32 - 2 ^ 31)%Z.

(** [pb.Range]: the line and character of its start and of its end. *)
Record Range := mkRange { Start : Z * Z; End_ : Z * Z }.
(** [errdefs.Source]; the language is always YAML. *)
Record Source := mkSource { Data : string; Filename : string; Ranges : list Range }.

Definition range_of (pos : Position) : Range :=
  mkRange (int32 (Position_Line pos), int32 (Position_Column pos)) (int32 (EndLine pos), int32 (EndColumn pos)).

Fixpoint addRanges (fuel : nat) (positions : gmap string Position) (ranges : list Range) (err : error) : list Range :=
  match fuel with
  | O => ranges
  | S fuel =>
      match as_validation err with
      | Some all => foldl (addRanges fuel positions) ranges all
      | None =>
          match as_field err ≫= PositionFor positions with
          | Some pos => ranges ++ [range_of pos]
          | None => ranges
          end
      end
  end.

(** The error with the source attached. *)
Definition withYAMLSource `{SourceNodes} (err : option error) (filename raw : string) : option (error * Source) :=
  match err with
  | None => None
  | Some err =>
      Some (err, mkSource raw filename (addRanges (S (nesting err)) (Positions raw) [] err))
  end.

(** ** Segments *)

Inductive segment := Key (key : string) | Item (i : nat).
#[export] Instance segment_eq_dec : EqDecision segment.
Proof. solve_decision. Defined.
Definition extend (path : string) (s : segment) : string :=
  match s with Key key => field_path path key | Item i => indexed path i end.
Definition render (q : list segment) : string := foldl extend "" q.

(** A key that a path shows as one segment. *)
Definition plain_key (key : string) : bool :=
  negb (bool_decide (key = "")) && str_forall (λ c, negb (one_of ".[" c)) key.
Definition plain_segment (s : segment) : bool := match s with Key key => plain_key key | Item _ => true end.

Lemma last_index_any_free chars s t :
  str_forall (λ c, negb (chars c)) t = true → last_index_any chars (s +:+ t) = last_index_any chars s.
Proof.
  intros Ht. induction s as [|c s IH]; [|by rewrite str_app_cons; cbn; rewrite IH].
  rewrite str_app_nil_l. cbn. induction t as [|c t IH]; [done|]. cbn in *.
  apply andb_true_iff in Ht as [Hc Ht]. rewrite (IH Ht). by destruct (chars c).
Qed.
Lemma last_index_any_here chars s c t :
  chars c = true → str_forall (λ c, negb (chars c)) t = true →
  last_index_any chars (s +:+ String c t) = Some (String.length s).
Proof.
  intros Hc Ht. induction s as [|d s IH].
  - rewrite str_app_nil_l. cbn. rewrite <-(str_app_nil_l t), (last_index_any_free _ "" t Ht). cbn. by rewrite Hc.
  - rewrite str_app_cons. cbn. by rewrite IH.
Qed.
Lemma last_index_any_lt chars s i : last_index_any chars s = Some i → i < String.length s.
Proof.
  revert i. induction s as [|c s IH]; intros i; cbn; [done|]. destruct (last_index_any chars s) as [j|].
  - intros [= <-]. specialize (IH j eq_refl). lia.
  - destruct (chars c); [|done]. intros [= <-]. lia.
Qed.
Lemma str_take_all_length n s : n ≤ String.length s → String.length (str_take n s) = n.
Proof. revert s. induction n as [|n IH]; intros [|c s]; cbn; intros; try lia. rewrite IH; lia. Qed.

Lemma container_shorter path : path ≠ "" → String.length (container path) < String.length path.
Proof.
  intros Hp. unfold container. destruct (last_index_any _ path) as [i|] eqn:Ei.
  - apply last_index_any_lt in Ei. rewrite str_take_all_length; lia.
  - destruct path; [done|cbn; lia].
Qed.

(** [PositionFor] as its loop reads; the fuel is enough. *)
Lemma position_loop_fuel positions fuel path :
  String.length path < fuel → position_loop fuel positions path = PositionFor positions path.
Proof.
  unfold PositionFor. remember (S (String.length path)) as m eqn:Em. assert (String.length path < m) as Hm by lia. clear Em.
  revert fuel path Hm. induction m as [|m IH]; intros [|fuel] path Hm Hf; [lia..|]. cbn.
  destruct (positions !! path); [done|]. case_bool_decide as Hp; [done|].
  pose proof (container_shorter path Hp). apply IH; lia.
Qed.
Lemma PositionFor_eq positions path :
  PositionFor positions path =
    match positions !! path with
    | Some pos => Some pos
    | None => if bool_decide (path = "") then None else PositionFor positions (container path)
    end.
Proof.
  unfold PositionFor at 1. cbn. destruct (positions !! path); [done|]. case_bool_decide as Hp; [done|].
  apply position_loop_fuel, container_shorter, Hp.
Qed.

(** Even a missing top-level field has a location. *)
Theorem every_path_located positions path : is_Some (positions !! "") → is_Some (PositionFor positions path).
Proof.
  intros Hd. remember (String.length path) as n eqn:En. revert path En.
  induction (lt_wf n) as [n _ IH]. intros path ->. rewrite PositionFor_eq. destruct (positions !! path) eqn:E; [done|].
  case_bool_decide as Hp; [subst; by rewrite E in Hd|]. by eapply IH; [apply container_shorter|].
Qed.

Lemma pretty_no_separator (i : nat) : str_forall (λ c, negb (one_of ".[" c)) (pretty i +:+ "]") = true.
Proof.
  change (pretty i) with (pretty (N.of_nat i)). destruct (pretty_value (N.of_nat i)) as [Hd _].
  rewrite str_forall_app. apply andb_true_iff. split; [|done]. eapply str_forall_impl; [|exact Hd].
  intros c Hc. apply negb_true_iff. destruct (one_of ".[" c) eqn:E; [|done]. revert c E Hc.
  intros [[] [] [] [] [] [] [] []]; vm_compute; done.
Qed.
Lemma extend_nonempty path s : plain_segment s = true → extend path s ≠ "".
Proof.
  destruct s as [key|i]; cbn.
  - unfold plain_key, field_path. intros [Hk _]%andb_true_iff. apply negb_true_iff, bool_decide_eq_false in Hk.
    case_bool_decide; [done|]. by destruct path.
  - intros _. unfold indexed. by destruct path.
Qed.
Lemma container_extend path s : plain_segment s = true → container (extend path s) = path.
Proof.
  assert (∀ c t, one_of ".[" c = true → str_forall (λ c, negb (one_of ".[" c)) t = true →
    container (path +:+ String c t) = path) as Hcut.
  { intros c t Hc Ht. unfold container. rewrite last_index_any_here by done. apply str_take_app. }
  destruct s as [key|i]; cbn.
  - unfold plain_key, field_path. intros [_ Hk]%andb_true_iff. case_bool_decide as Hp; [subst|by apply (Hcut "."%char)].
    unfold container. by rewrite <-(str_app_nil_l key), last_index_any_free.
  - intros _. apply (Hcut "["%char); [done|apply pretty_no_separator].
Qed.

Lemma extend_inj path s t : plain_segment s = true → plain_segment t = true → extend path s = extend path t → s = t.
Proof.
  assert (∀ key i, plain_key key = true → extend path (Key key) ≠ extend path (Item i)) as Hmix.
  { cbn. unfold field_path, indexed. intros key i [_ Hk]%andb_true_iff E. case_bool_decide as Hp.
    - rewrite E, str_forall_app in Hk. by apply andb_true_iff in Hk as [_ Hk].
    - by apply (inj (String.append path)) in E. }
  destruct s as [k|i], t as [l|j]; intros Hs Ht E.
  - f_equal. cbn in E. unfold field_path in E. case_bool_decide; [done|].
    apply (inj (String.append path)) in E. by injection E.
  - by apply Hmix in E.
  - symmetry in E. by apply Hmix in E.
  - f_equal. cbn in E. unfold indexed in E. apply (inj (String.append path)) in E. injection E as E.
    apply (f_equal (trim_suffix "]")) in E. rewrite !str_app_nil_l, !trim_suffix_app in E. by apply (inj (pretty (A := nat))) in E.
Qed.

#[local] Notation plain_path := (Forall (λ s, plain_segment s = true)).

Lemma render_snoc q s : render (q ++ [s]) = extend (render q) s.
Proof. unfold render. by rewrite foldl_app. Qed.
Lemma plain_snoc q s : plain_path (q ++ [s]) ↔ plain_path q ∧ plain_segment s = true.
Proof. by rewrite Forall_app, Forall_singleton. Qed.
Lemma render_inj p q : plain_path p → plain_path q → render p = render q → p = q.
Proof.
  revert q. induction p as [|s p IH] using rev_ind; intros q; destruct q as [|t q _] using rev_ind;
    intros Hp Hq; rewrite ?render_snoc; intros E; [done|..].
  - apply plain_snoc in Hq as [_ Ht]. by destruct (extend_nonempty (render q) t Ht).
  - apply plain_snoc in Hp as [_ Hs]. by destruct (extend_nonempty (render p) s Hs).
  - apply plain_snoc in Hp as [Hp Hs], Hq as [Hq Ht].
    pose proof (f_equal container E) as Ec. rewrite !container_extend in Ec by done.
    rewrite (IH q) in E |- * by done. by apply extend_inj in E as ->.
Qed.

(** ** Where elements are *)

(** A node's elements, with the segment each adds to the path. *)
Fixpoint pairs_of (content : list Located) : list (segment * Located) :=
  match content with key :: value :: content => (Key (Value key), value) :: pairs_of content | _ => [] end.
Definition elements (n : Located) : list (segment * Located) :=
  match Kind n with
  | MappingNode => pairs_of (Content n)
  | SequenceNode => imap (λ i item, (Item i, item)) (Content n)
  | _ => []
  end.

(** [at_ n q m]: [m] is the element at [q] in [n]. *)
Inductive at_ (n : Located) : list segment → Located → Prop :=
  | at_here : at_ n [] n
  | at_child s c q m : (s, c) ∈ elements n → at_ c q m → at_ n (s :: q) m.

(** No mapping states a key twice, and every key is one segment. *)
Fixpoint plain (n : Located) : bool :=
  match n with
  | mkLocated kind line column value content =>
      bool_decide (NoDup (elements (mkLocated kind line column value content)).*1)
      && forallb (λ c, plain_segment c.1) (elements (mkLocated kind line column value content))
      && forallb plain content
  end.

Lemma over_pairs_foldl {A} (f : string → Located → A → A) content acc :
  over_pairs (λ key, f (Value key)) content acc =
    foldl (λ acc c, match c.1 with Key key => f key c.2 acc | Item _ => acc end) acc (pairs_of content).
Proof.
  remember (length content) as n eqn:En. revert content acc En.
  induction (lt_wf n) as [n _ IH]. intros [|key [|value content]] acc ->; [done..|]. cbn.
  rewrite <-(IH (length content)); [done|cbn; lia|done].
Qed.
Lemma over_items_foldl {A} (f : segment → Located → A → A) k content acc :
  over_items (λ i, f (Item i)) k content acc =
    foldl (λ acc c, f c.1 c.2 acc) acc (imap (λ i item, (Item (k + i), item)) content).
Proof.
  revert k acc. induction content as [|item content IH]; intros k acc; [done|]. cbn. rewrite Nat.add_0_r, IH.
  f_equal. apply imap_ext. intros i x _. cbn. by rewrite <-Nat.add_succ_comm.
Qed.

(** The positions of a node's elements, whichever of the loops goes through them. *)
Definition place (path : string) (positions : gmap string Position) (c : segment * Located) : gmap string Position :=
  collectPositions c.2 (extend path c.1) (<[extend path c.1 := positionOf c.2]> positions).
Lemma collectPositions_elements n path positions :
  collectPositions n path positions = foldl (place path) positions (elements n).
Proof.
  destruct n as [[] line column value content]; cbn; [done| | |done|done].
  - exact (over_items_foldl (λ s item positions, place path positions (s, item)) 0 content positions).
  - etrans; [exact (over_pairs_foldl (λ key v positions, place path positions (Key key, v)) content positions)|].
    revert positions. generalize dependent content. intros content.
    assert (Forall (λ c, ∃ k, c.1 = Key k) (pairs_of content)) as Hk.
    { remember (length content) as n eqn:En. revert content En. induction (lt_wf n) as [n _ IH].
      intros [|key [|v content]] ->; [constructor..|]. cbn. constructor; [eauto|]. eapply IH; [|done]. cbn; lia. }
    induction Hk as [|[s c] l [k Es] Hl IH]; intros positions; [done|]. cbn in Es. subst s. cbn. apply IH.
Qed.

Lemma Located_nested (P : Located → Prop) :
  (∀ n, Forall P (Content n) → P n) → ∀ n, P n.
Proof.
  intros step. fix IH 1. intros [kind line column value content]. apply step. cbn.
  induction content as [|c content IHc]; constructor; [apply IH|exact IHc].
Qed.
Lemma elements_content n s c : (s, c) ∈ elements n → c ∈ Content n.
Proof.
  destruct n as [[] line column value content]; cbn; [by intros ?%not_elem_of_nil| | |by intros ?%not_elem_of_nil..].
  - rewrite elem_of_lookup_imap. intros (i & x & [= -> ->] & Hx). by apply list_elem_of_lookup_2 in Hx.
  - remember (length content) as k eqn:Ek. revert content Ek. induction (lt_wf k) as [k _ IH].
    intros [|key [|v content]] ->; [by intros ?%not_elem_of_nil..|]. cbn. rewrite !elem_of_cons.
    intros [[= -> ->]|H]; [auto|]. do 2 right. eapply IH; [|done|done]. cbn; lia.
Qed.
Lemma plain_inv n :
  plain n = true →
  NoDup (elements n).*1 ∧ (∀ s c, (s, c) ∈ elements n → plain_segment s = true ∧ plain c = true).
Proof.
  destruct n as [kind line column value content]. intros [[Hd Hs]%andb_true_iff Hc]%andb_true_iff.
  split; [by apply bool_decide_eq_true in Hd|]. intros s c H. split.
  - rewrite forallb_forall in Hs. apply (Hs (s, c)), list_elem_of_In, H.
  - rewrite forallb_forall in Hc. apply Hc, list_elem_of_In, (elements_content _ _ _ H).
Qed.
Lemma at_plain n q m : at_ n q m → plain n = true → plain_path q ∧ plain m = true.
Proof.
  induction 1 as [n|n s c q m Hc Hm IH]; intros Hn; [done|]. apply plain_inv in Hn as [_ Hn].
  destruct (Hn s c Hc) as [Hs Hp]. destruct (IH Hp). split; [by constructor|done].
Qed.
Lemma at_snoc n q m s c : at_ n q m → (s, c) ∈ elements m → at_ n (q ++ [s]) c.
Proof.
  induction 1; intros Hc; [econstructor; [done|constructor]|econstructor; eauto].
Qed.
Lemma at_app_inv n p q m : at_ n (p ++ q) m → ∃ c, at_ n p c ∧ at_ c q m.
Proof.
  revert n. induction p as [|s p IH]; intros n H; [by eexists; split; [constructor|]|].
  inversion H as [|? c ? ? Hc Hm]; subst. destruct (IH c Hm) as (d & ? & ?). exists d. split; [by econstructor|done].
Qed.
Lemma at_functional n q m m' : plain n = true → at_ n q m → at_ n q m' → m = m'.
Proof.
  intros Hn H. revert Hn m'. induction H as [n|n s c q m Hc Hm IH]; intros Hn m' H'; inversion H' as [|? c' ? ? Hc' Hm']; subst; [done|].
  apply plain_inv in Hn as [Hd Hp]. destruct (Hp s c Hc) as [_ Hpc]. apply IH; [done|].
  apply list_elem_of_lookup in Hc as [i Hi], Hc' as [j Hj].
  assert (i = j) as <-. { eapply NoDup_lookup; [exact Hd|rewrite list_lookup_fmap, Hi|rewrite list_lookup_fmap, Hj]; done. }
  by simplify_eq.
Qed.

(** An element strictly inside [n], whose path is [p]. *)
Definition inside (cs : list (segment * Located)) (p q : list segment) (x : Position) : Prop :=
  ∃ s c r m, (s, c) ∈ cs ∧ at_ c r m ∧ q = p ++ s :: r ∧ x = positionOf m.

Lemma inside_cons s c cs p q x :
  inside ((s, c) :: cs) p q x ↔
    (q = p ++ [s] ∧ x = positionOf c) ∨ inside (elements c) (p ++ [s]) q x ∨ inside cs p q x.
Proof.
  unfold inside. split.
  - intros (s' & c' & r & m & [[= -> ->]|Hin]%elem_of_cons & Hm & -> & ->); [|by right; right; eauto 10].
    inversion Hm as [|s1 c1 ? ? H1 Hm1]; subst; [by left|]. right; left.
    exists s1, c1, q, m. by rewrite <-(assoc_L (++)).
  - intros [[-> ->]|[(s1 & c1 & r & m & H1 & Hm & -> & ->)|(s' & c' & r & m & Hin & Hm & -> & ->)]].
    + exists s, c, [], c. rewrite elem_of_cons. split; [auto|]. split; [constructor|done].
    + exists s, c, (s1 :: r), m. rewrite elem_of_cons, <-(assoc_L (++)). split; [auto|]. by split; [econstructor|].
    + exists s', c', r, m. rewrite elem_of_cons. auto.
Qed.

(** A write below the writes of [B], which are below those of [A]. *)
Lemma layered_writes {X} (A B : X → Prop) (T : Prop) `{!Decision T} (e x : X) (base : option X) :
  (∀ y, T ∨ B y → ¬ ∃ z, A z) → (T → ¬ ∃ y, B y) →
  A x ∨ (¬ ∃ y, A y) ∧ (B x ∨ (¬ ∃ y, B y) ∧ (if decide T then Some e else base) = Some x) ↔
  ((T ∧ x = e) ∨ B x ∨ A x) ∨ (¬ ∃ y, (T ∧ y = e) ∨ B y ∨ A y) ∧ base = Some x.
Proof.
  intros HA HB. split.
  - intros [H|[Hn [H|[Hm H]]]]; [auto..|]. case_decide as HT; [injection H as <-; auto|].
    right. split; [|done]. intros (y & [[? _]|[?|?]]); eauto.
  - intros [[[HT ->]|[H|H]]|[Hn Hb]].
    + right. split; [by apply (HA e); left|]. right. split; [by apply HB|]. by rewrite decide_True.
    + right. split; [|by left]. by apply (HA x); right.
    + by left.
    + right. split; [|right; split; [|rewrite decide_False; [done|]]]; [intros [y ?]; apply Hn; eauto..|].
      intros HT. apply Hn. eauto.
Qed.
Lemma foldl_place cs p positions q x :
  NoDup cs.*1 →
  (∀ s c, (s, c) ∈ cs → plain_segment s = true ∧ ∀ p positions, plain_path p →
    foldl (place (render p)) positions (elements c) !! render q = Some x ↔
      inside (elements c) p q x ∨ (¬ ∃ y, inside (elements c) p q y) ∧ positions !! render q = Some x) →
  plain_path p → plain_path q →
  foldl (place (render p)) positions cs !! render q = Some x ↔
    inside cs p q x ∨ (¬ ∃ y, inside cs p q y) ∧ positions !! render q = Some x.
Proof.
  intros Hd Hcs Hp Hq. revert positions. induction cs as [|[s c] cs IH]; intros positions.
  { cbn. split; [|by intros [(? & ? & ? & ? & ?%not_elem_of_nil & _)|[_ ?]]]. intros H. right. split; [|done].
    by intros (? & ? & ? & ? & ? & ?%not_elem_of_nil & _). }
  cbn [fmap list_fmap] in Hd. apply NoDup_cons in Hd as [Hs Hd].
  destruct (Hcs s c (list_elem_of_here _ _)) as [Hps Hc].
  cbn [foldl]. rewrite IH by (done || intros; apply Hcs; by right). clear IH.
  unfold place at 1. cbn [fst snd]. rewrite collectPositions_elements, <-render_snoc, Hc by (by apply plain_snoc).
  assert (∀ y, q = p ++ [s] ∨ inside (elements c) (p ++ [s]) q y → ¬ ∃ y, inside cs p q y) as Hother.
  { intros y Hy (z & s' & c' & r & m & Hin & _ & Eq & _). apply Hs.
    assert (s' = s) as <-.
    { destruct Hy as [->|(s1 & c1 & r1 & m1 & _ & _ & -> & _)]; rewrite <-?(assoc_L (++)) in Eq;
        apply (inj (app p)) in Eq; by injection Eq. }
    apply list_elem_of_fmap. by exists (s', c'). }
  assert (q = p ++ [s] → ¬ ∃ y, inside (elements c) (p ++ [s]) q y) as Hdeeper.
  { intros -> (y & s1 & c1 & r1 & m1 & _ & _ & Eq & _). rewrite <-(app_nil_r (p ++ [s])) in Eq at 1.
    by apply (inj (app (p ++ [s]))) in Eq. }
  assert (<[render (p ++ [s]) := positionOf c]> positions !! render q =
    if decide (q = p ++ [s]) then Some (positionOf c) else positions !! render q) as ->.
  { destruct (decide (q = p ++ [s])) as [->|Hne]; [by rewrite lookup_insert_eq|]. rewrite lookup_insert_ne; [done|].
    intros E. apply Hne. symmetry. apply render_inj; [by apply plain_snoc|done..]. }
  setoid_rewrite inside_cons. by apply layered_writes.
Qed.
Lemma elements_placed n p positions q x :
  plain n = true → plain_path p → plain_path q →
  foldl (place (render p)) positions (elements n) !! render q = Some x ↔
    inside (elements n) p q x ∨ (¬ ∃ y, inside (elements n) p q y) ∧ positions !! render q = Some x.
Proof.
  intros Hn Hp Hq. revert Hn p Hp positions. induction n as [n IH] using Located_nested. intros Hn p Hp positions.
  destruct (plain_inv _ Hn) as [Hd Hcs]. apply foldl_place; [done| |done..]. intros s c Hin.
  destruct (Hcs _ _ Hin) as [Hs Hc]. split; [done|]. rewrite Forall_forall in IH. intros p' positions' Hp'.
  apply IH; [by eapply elements_content|done..].
Qed.

Section Located_failures.
Context `{SourceNodes}.

Lemma readable_positions raw root :
  yaml_nodes raw = Ok (Some root) → Line (document root) ≠ 0%Z →
  Positions raw = foldl (place (render [])) {[ "" := positionOf (document root) ]} (elements (document root)).
Proof. intros Hr Hl. unfold Positions. by rewrite Hr, bool_decide_eq_false_2, collectPositions_elements. Qed.

(** The map holds every element of the document under its path, and nothing else under a path. *)
Theorem Positions_exact raw root q x :
  yaml_nodes raw = Ok (Some root) → Line (document root) ≠ 0%Z → plain (document root) = true → plain_path q →
  Positions raw !! render q = Some x ↔ ∃ m, at_ (document root) q m ∧ x = positionOf m.
Proof.
  intros Hr Hl Hp Hq. rewrite (readable_positions raw root), elements_placed by done. split.
  - intros [(s & c & r & m & Hin & Hm & -> & ->)|[_ Hx]]; [by eexists; split; [econstructor|]|].
    apply lookup_singleton_Some in Hx as [E <-]. change "" with (render []) in E.
    apply render_inj in E as <-; [|done..]. by eexists; split; [constructor|].
  - intros (m & Hm & ->). inversion Hm as [|s c r ? Hin Hc]; subst.
    + right. split; [by intros (y & s & c & r & m & _ & _ & ? & _)|]. apply lookup_singleton_eq.
    + left. by exists s, c, r, m.
Qed.

(** A failure about an absent element is shown at the innermost element around it: where
    [n] is there at [p] and has no element [s], whatever was expected at or below [s] is
    located at [n]. *)
Theorem absent_located_at_container raw root p n s rest :
  yaml_nodes raw = Ok (Some root) → Line (document root) ≠ 0%Z → plain (document root) = true →
  at_ (document root) p n → (∀ c, (s, c) ∉ elements n) → plain_path (s :: rest) →
  PositionFor (Positions raw) (render (p ++ s :: rest)) = Some (positionOf n).
Proof.
  intros Hr Hl Hp Hn Hs Hrest. destruct (at_plain _ _ _ Hn Hp) as [Hpp _].
  assert (∀ r, plain_path r → plain_path (p ++ r)) as Hpath by (intros; by apply Forall_app).
  assert (PositionFor (Positions raw) (render p) = Some (positionOf n)) as Hfound.
  { rewrite PositionFor_eq. by rewrite (proj2 (Positions_exact raw root p (positionOf n) Hr Hl Hp Hpp)) by eauto. }
  induction rest as [|t rest IH] using rev_ind.
  all: rewrite ?app_comm_cons, ?(assoc_L (++)), render_snoc, PositionFor_eq, <-render_snoc.
  all: destruct (Positions raw !! _) as [x|] eqn:Ex.
  1, 3: exfalso; rewrite <-?(assoc_L (++)) in Ex; apply (Positions_exact raw root) in Ex as (m & Hm & _); try done;
    [|by apply Hpath]; apply at_app_inv in Hm as (c & Hc & Hm); rewrite (at_functional _ _ _ _ Hp Hn Hc) in Hs;
    inversion Hm; subst; naive_solver.
  - apply Forall_cons in Hrest as [Hs1 _]. rewrite render_snoc, bool_decide_eq_false_2, container_extend; auto using extend_nonempty.
  - rewrite app_comm_cons in Hrest. apply plain_snoc in Hrest as [Hr' Ht].
    rewrite render_snoc, bool_decide_eq_false_2, container_extend; auto using extend_nonempty.
Qed.
End Located_failures.

(** ** Where arguments are referenced *)

(** The scalars of a tree in document order, each with its path; a key's is its value's. *)
Fixpoint scalars (n : Located) (path : string) : list (string * string) :=
  match n with
  | mkLocated DocumentNode _ _ _ content => foldl (λ acc child, acc ++ scalars child path) [] content
  | mkLocated MappingNode _ _ _ content =>
      over_pairs (λ key value acc,
        let childPath := field_path path (Value key) in acc ++ scalars key childPath ++ scalars value childPath) content []
  | mkLocated SequenceNode _ _ _ content => over_items (λ i child acc, acc ++ scalars child (indexed path i)) 0 content []
  | mkLocated ScalarNode _ _ value _ => [(path, value)]
  | mkLocated AliasNode _ _ _ _ => []
  end.
Definition referring (name : string) (l : list (string * string)) : list string :=
  (filter (λ c, name ∈ ReferencedArgs c.2) l).*1.

Lemma over_pairs_rel {A B} (R : A → B → Prop) f g content a b :
  Forall (λ key, Forall (λ value, ∀ a b, R a b → R (f key value a) (g key value b)) content) content →
  R a b → R (over_pairs f content a) (over_pairs g content b).
Proof.
  rewrite Forall_forall. setoid_rewrite Forall_forall.
  remember (length content) as n eqn:En. revert content En a b.
  induction (lt_wf n) as [n _ IH]. intros [|key [|value content]] -> a b Hfg Hab; [done..|]. cbn.
  eapply IH; [| reflexivity | |]; [cbn; lia| |].
  - intros x Hx y Hy. apply Hfg; by do 2 right.
  - apply Hfg; [by left|by right; left|done].
Qed.
Lemma over_items_rel {A B} (R : A → B → Prop) f g k content a b :
  Forall (λ item, ∀ i a b, R a b → R (f i item a) (g i item b)) content →
  R a b → R (over_items f k content a) (over_items g k content b).
Proof. intros Hc. revert k a b. induction Hc; intros k a b Hab; cbn; auto. Qed.

Lemma add_references path names paths name :
  NoDup names →
  default [] (foldl (add_reference path) paths names !! name) =
    default [] (paths !! name) ++ (if decide (name ∈ names) then [path] else []).
Proof.
  intros Hd. revert paths. induction Hd as [|x names Hx Hd IH]; intros paths; cbn [foldl].
  { by rewrite decide_False, app_nil_r by apply not_elem_of_nil. }
  rewrite IH. unfold add_reference at 1. destruct (decide (name = x)) as [->|Hne].
  - rewrite lookup_insert_eq, (decide_False (P := x ∈ names)), decide_True by (done || by left). by rewrite app_nil_r.
  - rewrite lookup_insert_ne by done. f_equal. apply decide_ext. set_solver.
Qed.

(** [argReferencePaths] lists, for each argument, the paths of the scalars that refer to it. *)
Lemma visit_references_scalars n path paths name :
  default [] (visit_references n path paths !! name) = default [] (paths !! name) ++ referring name (scalars n path).
Proof.
  set (R (d : list string) (paths : gmap string (list string)) acc := default [] (paths !! name) = d ++ referring name acc).
  assert (∀ d n, (∀ path paths, R (default [] (paths !! name)) (visit_references n path paths) (scalars n path)) →
    ∀ path paths acc, R d paths acc → R d (visit_references n path paths) (acc ++ scalars n path)) as Hcompose.
  { intros d m Hm q ps acc E. unfold R in *. rewrite Hm, E. unfold referring. by rewrite filter_app, fmap_app, (assoc_L (++)). }
  enough (R (default [] (paths !! name)) (visit_references n path paths) (scalars n path)) by done.
  revert path paths. induction n as [n IH] using Located_nested. intros path paths.
  destruct n as [[] line column value content]; cbn [visit_references scalars Content] in *.
  - assert (R (default [] (paths !! name)) paths []) as H0 by (symmetry; apply app_nil_r).
    revert H0. generalize (default [] (paths !! name)) as d. intros d H0. revert H0. generalize (@nil (string * string)) as acc.
    revert paths. induction IH as [|c content Hc _ IHc]; intros paths acc H0; [done|]. cbn. by apply IHc, Hcompose.
  - apply over_items_rel; [|symmetry; apply app_nil_r].
    eapply Forall_impl; [exact IH|]. intros c Hc i a b Hab. by apply Hcompose.
  - apply over_pairs_rel; [|symmetry; apply app_nil_r].
    rewrite Forall_forall in IH. apply Forall_forall. intros key Hk. apply Forall_forall. intros v Hv a b Hab. cbn.
    rewrite (assoc_L (++)). apply Hcompose; [by apply IH|]. apply Hcompose; [by apply IH|done].
  - unfold R. rewrite add_references by apply dedupe_id_NoDup. f_equal. unfold referring. cbn.
    by destruct (decide _).
  - unfold R. by rewrite app_nil_r.
Qed.
Theorem argReferencePaths_exact `{SourceNodes} raw root name :
  yaml_nodes raw = Ok (Some root) →
  default [] (argReferencePaths raw !! name) = referring name (scalars root "").
Proof. intros Hr. unfold argReferencePaths. rewrite Hr, visit_references_scalars. by rewrite lookup_empty. Qed.

(** ** Messages *)

Lemma nesting_all err all : as_validation err = Some all → Forall (λ e, nesting e < nesting err) all.
Proof.
  induction err as [|m err IH|p err IH|errs|err IH m]; cbn; [done|exact IH|exact IH| |exact IH].
  intros [= ->]. induction all as [|e all IH]; constructor; cbn; [lia|]. eapply Forall_impl; [exact IH|cbn; lia].
Qed.
Lemma format_loop_fuel filename positions lines fuel err :
  nesting err < fuel → format_loop filename positions lines fuel err = formatSourceError err filename positions lines.
Proof.
  unfold formatSourceError. remember (S (nesting err)) as m eqn:Em. assert (nesting err < m) as Hm by lia. clear Em.
  revert fuel err Hm. induction m as [|m IH]; intros [|fuel] err Hm Hf; [lia..|]. cbn.
  destruct (as_validation err) as [all|] eqn:Ea; [|done]. do 2 f_equal.
  apply nesting_all in Ea. apply map_ext_in. intros e He. rewrite Forall_forall in Ea.
  specialize (Ea e (proj2 (list_elem_of_In _ _) He)). apply IH; lia.
Qed.

(** [formatSourceError] as the source reads; the fuel is enough. *)
Lemma formatSourceError_eq err filename positions lines :
  formatSourceError err filename positions lines =
    match as_validation err with
    | Some all =>
        replace_first (Error (ValidationErrors all))
          (join (line_feed +:+ line_feed) (map (λ e, formatSourceError e filename positions lines) all)) (Error err)
    | None => format_one filename positions lines err
    end.
Proof.
  unfold formatSourceError at 1. cbn. destruct (as_validation err) as [all|] eqn:Ea; [|done]. do 2 f_equal.
  apply nesting_all in Ea. apply map_ext_in. intros e He. rewrite Forall_forall in Ea.
  apply format_loop_fuel, Ea, list_elem_of_In, He.
Qed.

Lemma replace_first_self old new s : replace_first old new (old +:+ s) = new +:+ s.
Proof.
  assert (has_prefix old (old +:+ s) = true) as Hp by apply has_prefix_app.
  destruct (old +:+ s) as [|c t] eqn:E; cbn [replace_first]; rewrite Hp, <-E, str_drop_app; done.
Qed.
Lemma replace_first_after old new pre s :
  (∀ n, n < String.length pre → has_prefix old (str_drop n (pre +:+ old +:+ s)) = false) →
  replace_first old new (pre +:+ old +:+ s) = pre +:+ new +:+ s.
Proof.
  induction pre as [|c pre IH]; intros Hn; [rewrite !str_app_nil_l; apply replace_first_self|].
  pose proof (Hn 0 ltac:(cbn; lia)) as H0. rewrite !str_app_cons in *. cbn [str_drop replace_first] in *. rewrite H0.
  f_equal. apply IH. intros n Hlt. apply (Hn (S n)). cbn. lia.
Qed.

(** Every failure of a validation is formatted by itself, and the context that wraps the
    failures stays around them, where it does not say the same words first. *)
Theorem failures_formatted pre post all filename positions lines :
  let said := Error (ValidationErrors all) in
  (∀ n, n < String.length pre → has_prefix said (str_drop n (pre +:+ said +:+ post)) = false) →
  formatSourceError (Wrapped (pre +:+ said +:+ post) (ValidationErrors all)) filename positions lines =
    pre +:+ join (line_feed +:+ line_feed) (map (λ e, formatSourceError e filename positions lines) all) +:+ post.
Proof. intros said Hn. rewrite formatSourceError_eq. by apply replace_first_after. Qed.

(** The source leaves the error's tree as it was. *)
Theorem WithSource_unwraps `{SourceNodes} err filename raw :
  ∃ message, WithSource (Some err) filename raw = Some (Sourced err message) ∧
    as_validation (Sourced err message) = as_validation err ∧ as_field (Sourced err message) = as_field err.
Proof. by eexists. Qed.

(** ** The marker line *)

Lemma runes_ascii_string s t : str_forall is_ascii s = true → runes (s +:+ t) = runes s ++ runes t.
Proof.
  induction s as [|c s IH]; [done|]. cbn [str_forall]. intros [Hc Hs]%andb_true_iff.
  by rewrite str_app_cons, !runes_ascii, IH by done.
Qed.
Lemma padding_runes rs :
  runes (String.concat "" (map pad_rune rs)) = map (λ r, if bool_decide (r = tab_rune) then tab_rune else 32%N) rs
  ∧ str_forall is_ascii (String.concat "" (map pad_rune rs)) = true.
Proof.
  assert (∀ r, str_forall is_ascii (pad_rune r) = true) as Ha by (intros r; unfold pad_rune; by case_bool_decide).
  induction rs as [|r rs [IH IHa]]; [done|].
  assert (String.concat "" (map pad_rune (r :: rs)) = pad_rune r +:+ String.concat "" (map pad_rune rs)) as ->.
  { destruct rs; [by rewrite str_app_nil_r|done]. }
  rewrite runes_ascii_string, str_forall_app, Ha, IHa, IH by done. split; [|done].
  unfold pad_rune. cbn. by case_bool_decide.
Qed.

Lemma repeated_length s n : String.length (repeated s n) = n * String.length s.
Proof. induction n as [|n IH]; [done|]. cbn. rewrite str_length_app, IH. lia. Qed.

(** The marker is in the column of the position, whatever tabs the line has: the padding
    is as many runes as come before, each tab_rune a tab_rune; both gutters are as wide as the number. *)
Theorem marker_under_position lines pos line :
  let shown := trim_suffix (String "013" "") line in
  (1 ≤ Position_Line pos)%Z → lines !! Z.to_nat (Position_Line pos - 1) = Some line →
  (1 ≤ Position_Column pos ≤ Z.of_nat (length (runes shown)) + 1)%Z →
  ∃ gutter padding,
    sourceExcerpt lines pos =
      line_feed +:+ gutter +:+ " |" +:+ line_feed +:+ pretty (Position_Line pos) +:+ " | " +:+ shown +:+ line_feed +:+
        gutter +:+ " | " +:+ padding +:+ "^" ∧
    String.length gutter = String.length (pretty (Position_Line pos)) ∧
    length (runes padding) = Z.to_nat (Position_Column pos - 1) ∧
    runes padding = map (λ r, if bool_decide (r = tab_rune) then tab_rune else 32%N)
      (take (Z.to_nat (Position_Column pos - 1)) (runes shown)).
Proof.
  intros shown Hl Hline Hc.
  set (before := take (Z.to_nat (Position_Column pos - 1)) (runes shown)).
  exists (repeated " " (String.length (pretty (Position_Line pos)))), (String.concat "" (map pad_rune before)).
  destruct (padding_runes before) as [Hp _]. pose proof (lookup_lt_Some _ _ _ Hline).
  split; [|split; [|split; [|exact Hp]]].
  - unfold sourceExcerpt. rewrite Hline. change (default "" (Some line)) with line.
    rewrite !(proj2 (Z.ltb_ge _ _)) by (fold shown; lia). done.
  - rewrite repeated_length. cbn. lia.
  - rewrite Hp, length_map. unfold before. rewrite length_take. lia.
Qed.

(** ** Ranges *)

Lemma addRanges_fuel positions fuel ranges err :
  nesting err < fuel → addRanges fuel positions ranges err = addRanges (S (nesting err)) positions ranges err.
Proof.
  remember (S (nesting err)) as m eqn:Em. assert (nesting err < m) as Hm by lia. clear Em.
  revert fuel err ranges Hm. induction m as [|m IH]; intros [|fuel] err ranges Hm Hf; [lia..|]. cbn.
  destruct (as_validation err) as [all|] eqn:Ea; [|done]. apply nesting_all in Ea.
  assert (Forall (λ e, nesting e < m ∧ nesting e < fuel) all) as Hall by (eapply Forall_impl; [exact Ea|cbn; lia]).
  clear Ea Hm Hf. revert ranges. induction Hall as [|e all [??] _ IHa]; intros ranges; [done|]. cbn.
  by rewrite (IH fuel), IHa.
Qed.

(** The paths of the failures in an error, in order. *)
Fixpoint failure_paths (fuel : nat) (err : error) : list (option string) :=
  match fuel with
  | O => []
  | S fuel =>
      match as_validation err with
      | Some all => concat (map (failure_paths fuel) all)
      | None => [as_field err]
      end
  end.

Lemma addRanges_failures positions fuel ranges err :
  addRanges fuel positions ranges err =
    ranges ++ map range_of (omap (λ path, path ≫= PositionFor positions) (failure_paths fuel err)).
Proof.
  revert ranges err. induction fuel as [|fuel IH]; intros ranges err; cbn; [by rewrite app_nil_r|].
  destruct (as_validation err) as [all|].
  - revert ranges. induction all as [|e all IHa]; intros ranges; cbn; [by rewrite app_nil_r|].
    by rewrite IHa, IH, omap_app, map_app, (assoc_L (++)).
  - cbn. destruct (as_field err ≫= PositionFor positions); cbn; [done|by rewrite app_nil_r].
Qed.

(** BuildKit is given one range for each failure of a validation, in the order of the
    failures: none is left out, since in a document that reads every path has a position. *)
Theorem withYAMLSource_exact `{SourceNodes} message errs filename raw root :
  yaml_nodes raw = Ok (Some root) → Line (document root) ≠ 0%Z → plain (document root) = true →
  let err := Wrapped message (ValidationErrors (map (λ e, Field e.1 (Plain e.2)) errs)) in
  ∃ found, Forall2 (λ e pos, PositionFor (Positions raw) e.1 = Some pos) errs found ∧
    withYAMLSource (Some err) filename raw = Some (err, mkSource raw filename (map range_of found)).
Proof.
  intros Hr Hl Hp err.
  assert (∀ path, is_Some (PositionFor (Positions raw) path)) as Hsome.
  { intros path. apply every_path_located. exists (positionOf (document root)).
    apply (Positions_exact raw root [] _ Hr Hl Hp (Forall_nil_2 _)). by eexists; split; [constructor|]. }
  exists (omap (λ e : string * string, PositionFor (Positions raw) e.1) errs). split.
  - induction errs as [|e errs IH]; [constructor|]. destruct (Hsome e.1) as [pos Hpos].
    cbn -[PositionFor]. rewrite Hpos. by constructor.
  - cbn [withYAMLSource]. rewrite addRanges_failures. cbn [app]. do 4 f_equal. unfold err. cbn [failure_paths as_validation nesting].
    generalize (foldr max 0 (map nesting (map (λ e : string * string, Field e.1 (Plain e.2)) errs))) as fuel. intros fuel.
    clear err. induction errs as [|e errs IH]; [done|]. cbn -[PositionFor]. cbn -[PositionFor] in IH. rewrite IH.
    by destruct (PositionFor _ e.1).
Qed.

(** ** A kit with two failures *)

Module Example_kit.
Definition scalar (line column : Z) (value : string) : Located := mkLocated ScalarNode line column value [].
Definition mapping (line column : Z) (content : list Located) : Located := mkLocated MappingNode line column "" content.
Definition port_type : string := "com.docker.sandbox/port@1".
Definition lines : list string :=
  ["schemaVersion: 3"; "capabilities:"; "  - type: " +:+ port_type; "    config: {container: 99999}"; "args:";
   "  version:"; "    pattern: '['"; ""].
Definition tree : Located :=
  mkLocated DocumentNode 1 1 ""
    [mapping 1 1
       [scalar 1 1 "schemaVersion"; scalar 1 16 "3";
        scalar 2 1 "capabilities";
        mkLocated SequenceNode 3 3 ""
          [mapping 3 5
             [scalar 3 5 "type"; scalar 3 11 port_type;
              scalar 4 5 "config"; mapping 4 13 [scalar 4 14 "container"; scalar 4 25 "99999"]]];
        scalar 5 1 "args";
        mapping 6 3 [scalar 6 3 "version"; mapping 7 5 [scalar 7 5 "pattern"; scalar 7 14 "["]]]].
Definition nodes : SourceNodes := {| yaml_nodes := λ _, Ok (Some tree) |}.
Definition raw : string := join (String newline_byte "") lines.
Definition port : string := "capabilities[0].config.container".
Definition failures : list (string * string) := [(port, "too large"); ("args.version.pattern", "malformed")].

Lemma tree_plain : plain (document tree) = true ∧ Line (document tree) ≠ 0%Z.
Proof. by vm_compute. Qed.
(** A required field that is absent is shown at the request that lacks it. *)
Lemma missing_service :
  PositionFor (Positions (H := nodes) raw) "capabilities[0].config.service" = Some (mkPosition 4 13 4 29).
Proof.
  pose proof (absent_located_at_container (H := nodes) raw tree [Key "capabilities"; Item 0; Key "config"]
    (mapping 4 13 [scalar 4 14 "container"; scalar 4 25 "99999"]) (Key "service") []) as Hp.
  change (Some (mkPosition 4 13 4 29)) with (Some (positionOf (mapping 4 13 [scalar 4 14 "container"; scalar 4 25 "99999"]))).
  apply Hp; [done..|by vm_compute| |set_solver|by repeat constructor].
  repeat (eapply at_child; [cbn; (by left) || (right; by left)|]). constructor.
Qed.
Lemma port_message :
  option_map Error (WithSource (H := nodes) (Some (Field port (Plain "too large"))) "kit.yaml" raw) =
    Some (join (String newline_byte "")
      ["kit.yaml:4:25: " +:+ port +:+ ": too large"; "  |"; "4 |     config: {container: 99999}";
       "  |                         ^"]).
Proof. by vm_compute. Qed.
Lemma both_ranged :
  option_map (λ r, Ranges r.2)
    (withYAMLSource (H := nodes) (Some (ValidationErrors (map (λ e, Field e.1 (Plain e.2)) failures))) "kit.yaml" raw) =
  Some [mkRange (4, 25)%Z (4, 29)%Z; mkRange (7, 14)%Z (7, 14)%Z].
Proof. by vm_compute. Qed.

(** A block scalar ends in a line feed, and its end is put before the first column. *)
Theorem block_scalar_ends_at_column_zero :
  positionOf (scalar 3 12 ("first" +:+ line_feed +:+ "second" +:+ line_feed)) = mkPosition 3 12 5 0.
Proof. by vm_compute. Qed.
End Example_kit.
