(* ===== verification/Merge.v ===== *)
(** [spec/merge.go] (with the merging half of [spec/ssh_agent.go]): folding the
    descriptors of a composition into one — its relations, its licenses and its
    capability requests. *)
From stdpp Require Import options.
From S2P Require Import Prelude GoStrings Version Json Types Config Marshal GoPath Template.

(** ** Contributions *)

Record Contribution := mkContribution {
  Contribution_Reference : string;
  Contribution_Descriptor : option Descriptor;
}.
(** The descriptor of a contribution that was checked to have one. *)
Definition cdescriptor (c : Contribution) : Descriptor :=
  default zero_descriptor (Contribution_Descriptor c).

Record ContextSource := mkContextSource {
  ContextSource_Reference : string;
  ContextSource_Path : string;
  ContextSource_Content : string;
  ContextSource_Target : string;
}.
Record MergeResult := mkMergeResult {
  Merged : Descriptor;
  ContextSources : list ContextSource;
}.

Inductive merge_error :=
  | NoContributions
  | ContributionWithoutDescriptor (ref : string)
  | TwoWorkloads (first second : string)
  | UnmergedSet (ref : string)
  | UnselectedGroup (ref : string) (i : nat)
  | PhaseEmpty (ref typ : string)
  | NotOnePhase (ref typ : string)
  | ConfigUnreadable (ref typ : string) (parameterized : bool) (cause : config_error)
  | PolicyUnreadable (ref : string) (cause : config_error)
  | TwoOwners (first second typ : string)
  | DifferentRequests (first second typ : string)
  | TwoAuthors (first second label : string)
  | TemplatePath (ref path : string)
  | EncodingRefused (typ : string) (cause : json_error)
  | NoContextPath (bodies : nat)
  | ContextUnreadable (cause : config_error).

(** ** The derived kind *)

Fixpoint derivedKind_loop (workload : string) (cs : list Contribution) : result merge_error string :=
  match cs with
  | [] => Ok (if bool_decide (workload = "") then KindMixin else KindWorkload)
  | c :: cs =>
      if bool_decide (Kind (cdescriptor c) = KindWorkload) then
        if negb (bool_decide (workload = "")) then Err (TwoWorkloads workload (Contribution_Reference c))
        else derivedKind_loop (Contribution_Reference c) cs
      else if bool_decide (Kind (cdescriptor c) = KindSet) then Err (UnmergedSet (Contribution_Reference c))
      else derivedKind_loop workload cs
  end.
Definition derivedKind (cs : list Contribution) : result merge_error string := derivedKind_loop "" cs.

(** ** Relations *)

(** A bare provide takes the version of the kit that offers it. *)
Definition materialized (d : Descriptor) (p : Provide) : Provide :=
  if bool_decide (PVersion p = "") && negb (bool_decide (Types.Version d = ""))
  then mkProvide (PName p) (Types.Version d) else p.

Record OwnedProvide := mkOwnedProvide { Owned : Provide; Owner : string }.

(** What one descriptor offers, malformed entries left to the validator. *)
Definition offers (d : Descriptor) : list Provide :=
  omap (λ s, match ParseProvide s with Err _ => None | Ok p => Some (materialized d p) end) (Provides d).

Definition index_offer {A} (key : A → string) (m : gmap string (list A)) (a : A) : gmap string (list A) :=
  <[key a := default [] (m !! key a) ++ [a]]> m.

Definition ProvidesIndex (cs : list Contribution) : gmap string (list Provide) :=
  foldl (λ m c, match Contribution_Descriptor c with
                | None => m
                | Some d => foldl (index_offer PName) m (offers d)
                end) ∅ cs.
Definition OwnedProvides (cs : list Contribution) : gmap string (list OwnedProvide) :=
  foldl (λ m c, match Contribution_Descriptor c with
                | None => m
                | Some d =>
                    foldl (index_offer (λ o, PName (Owned o))) m
                      (map (λ p, mkOwnedProvide p (Contribution_Reference c)) (offers d))
                end) ∅ cs.

Definition SatisfiedByOther (owned : gmap string (list OwnedProvide)) (r : Require_) (by_ : string) : bool :=
  existsb (λ o, negb (bool_decide (Owner o = by_)) && Satisfies (Owned o) r)
    (default [] (owned !! RName r)).
Definition SatisfiedBy (provided : gmap string (list Provide)) (r : Require_) : bool :=
  existsb (λ p, Satisfies p r) (default [] (provided !! RName r)).

(** The entry a contribution's provide becomes, with the key it is emitted under. *)
Definition emitted_provide (d : Descriptor) (s : string) : option (string * string) :=
  match ParseProvide s with
  | Err _ => None
  | Ok p =>
      let bare := bool_decide (PVersion p = "") && negb (bool_decide (Types.Version d = "")) in
      let p' := materialized d p in
      Some (PName p' +:+ "@" +:+ PVersion p',
            if bare then trim_space s +:+ "@" +:+ PVersion p' else s)
  end.
Definition merged_provides (cs : list Contribution) : list string :=
  map snd (dedupe fst
    (flat_map (λ c, omap (emitted_provide (cdescriptor c)) (Provides (cdescriptor c))) cs)).

Definition satisfied (owned : gmap string (list OwnedProvide)) (entry by_ : string) : bool :=
  match ParseRequire entry with Err _ => false | Ok r => SatisfiedByOther owned r by_ end.
Definition unanswered (cs : list Contribution) (entries : Descriptor → list string) : list string :=
  let owned := OwnedProvides cs in
  dedupe id (flat_map (λ c, List.filter (λ s, negb (satisfied owned s (Contribution_Reference c)))
                              (entries (cdescriptor c))) cs).

Definition mergeRelations (cs : list Contribution) (out : Descriptor) : Descriptor :=
  mkDescriptor (declarationsOnly out) (Descriptor_SchemaVersion out) (DisplayName out) (Author out)
    (Descriptor_Description out) (SourceURL out) (IconURL out) (Types.Version out) (Licenses out)
    (Kind out)
    (merged_provides cs) (unanswered cs Requires) (unanswered cs Integrates)
    (dedupe id (flat_map (λ c, Conflicts (cdescriptor c)) cs))
    (Capabilities out) (Args out) (Build out) (Kits out) (Dockerfile out) (kitsStated out).

Definition mergeLicenses (cs : list Contribution) (out : Descriptor) : Descriptor :=
  mkDescriptor (declarationsOnly out) (Descriptor_SchemaVersion out) (DisplayName out) (Author out)
    (Descriptor_Description out) (SourceURL out) (IconURL out) (Types.Version out)
    (sort_strings (dedupe id (flat_map (λ c, Licenses (cdescriptor c)) cs)))
    (Kind out) (Provides out) (Requires out) (Integrates out) (Conflicts out)
    (Capabilities out) (Args out) (Build out) (Kits out) (Dockerfile out) (kitsStated out).

Definition with_capabilities (l : list Capability) (out : Descriptor) : Descriptor :=
  mkDescriptor (declarationsOnly out) (Descriptor_SchemaVersion out) (DisplayName out) (Author out)
    (Descriptor_Description out) (SourceURL out) (IconURL out) (Types.Version out) (Licenses out)
    (Kind out) (Provides out) (Requires out) (Integrates out) (Conflicts out)
    l (Args out) (Build out) (Kits out) (Dockerfile out) (kitsStated out).

(** ** Requests: keys and sameness *)

Definition capabilityIsParameterized (n : Capability) : bool :=
  match Config n with
  | None | Some [] => false
  | Some m =>
      if negb (marshals (VMap m)) then false
      else ContainsArgRef (marshal (VMap m)) || (environmentReferences (VMap m)).1
  end.

Definition decodeForMerge {A} (d : decoder A) (zero : A) (reference : string) (n : Capability) :
    result merge_error A :=
  map_err (ConfigUnreadable reference (Type_ n) (capabilityIsParameterized n))
    (DecodeCapabilityConfig d zero n).

Definition nul : string := of_bytes [0].

Definition capabilityIdentity (n : Capability) : string :=
  match Config n with
  | None | Some [] => Type_ n
  | Some m =>
      if negb (marshals (VMap m)) then Type_ n +:+ nul +:+ "unencodable"
      else Type_ n +:+ nul +:+ marshal (VMap m)
  end.

(** [spec/agent_skill.go] *)
Definition AgentSkillName (s : AgentSkill) : string :=
  if negb (bool_decide (AgentSkill_Name s = "")) then AgentSkill_Name s else Base (AgentSkill_Path s).

Definition zero_volume : Volume := mkVolume "" "" false "".
Definition zero_port : Port := mkPort "" 0 "".
Definition zero_skill : AgentSkill := mkAgentSkill "" "".
Definition zero_skills : AgentSkills := mkAgentSkills "" "".

Definition instanceKey (reference : string) (n : Capability) : result merge_error string :=
  if bool_decide (Type_ n = CapabilityCredential) then
    c ← decodeForMerge decode_credential zero_credential reference n;
    match elems (Credential_Phase c) with
    | [phase] => Ok (Type_ n +:+ nul +:+ Credential_Service c +:+ nul +:+ phase)
    | _ => Err (NotOnePhase reference (Type_ n))
    end
  else if bool_decide (Type_ n = CapabilitySSHAgent) then
    a ← decodeForMerge decode_ssh_agent zero_ssh_agent reference n;
    match elems (SSHAgent_Phase a) with
    | [phase] => Ok (Type_ n +:+ nul +:+ phase)
    | _ => Err (NotOnePhase reference (Type_ n))
    end
  else if bool_decide (Type_ n = CapabilityVolume) then
    v ← decodeForMerge decode_volume zero_volume reference n;
    Ok (Type_ n +:+ nul +:+ Clean (Volume_Path v))
  else if bool_decide (Type_ n = CapabilityAgentSkill) then
    s ← decodeForMerge decode_agent_skill zero_skill reference n;
    Ok (Type_ n +:+ nul +:+ AgentSkillName s)
  else if bool_decide (Type_ n = CapabilityAgentSkills) then
    s ← decodeForMerge decode_agent_skills zero_skills reference n;
    Ok (Type_ n +:+ nul +:+ AgentSkills_Path s)
  else if bool_decide (Type_ n = CapabilityPort) then
    p ← decodeForMerge decode_port zero_port reference n;
    Ok (Type_ n +:+ nul +:+ PortKey p)
  else Ok (capabilityIdentity n).

(** Both configurations decode and agree on what they ask, or they are the same
    text. *)
Definition same_decoded {A} (d : decoder A) (zero : A) (same : A → A → bool) (a b : Capability) : bool :=
  match DecodeCapabilityConfig d zero a, DecodeCapabilityConfig d zero b with
  | Ok x, Ok y => same x y
  | _, _ => bool_decide (capabilityIdentity a = capabilityIdentity b)
  end.
Definition same_volume (v w : Volume) : bool :=
  bool_decide (Clean (Volume_Path v) = Clean (Volume_Path w)) &&
  bool_decide (Volume_Size v = Volume_Size w) &&
  bool_decide (Volume_Tmpfs v = Volume_Tmpfs w) && bool_decide (Volume_Mode v = Volume_Mode w).
Definition sameRequest (a b : Capability) : bool :=
  if negb (bool_decide (Type_ a = Type_ b)) then false
  else if bool_decide (Type_ a = CapabilityPort) then
    same_decoded decode_port zero_port (λ p q, bool_decide (PortKey p = PortKey q)) a b
  else if bool_decide (Type_ a = CapabilityAgentSkill) then
    same_decoded decode_agent_skill zero_skill
      (λ s t, bool_decide (AgentSkill_Path s = AgentSkill_Path t) &&
              bool_decide (AgentSkillName s = AgentSkillName t)) a b
  else if bool_decide (Type_ a = CapabilityAgentSkills) then
    same_decoded decode_agent_skills zero_skills
      (λ s t, bool_decide (AgentSkills_Path s = AgentSkills_Path t) &&
              bool_decide (SkillsMode s = SkillsMode t)) a b
  else if bool_decide (Type_ a = CapabilityVolume) then
    same_decoded decode_volume zero_volume same_volume a b
  else bool_decide (capabilityIdentity a = capabilityIdentity b).

(** ** Requests: the merge *)

Record keyed := mkKeyed { keyed_reference : string; keyed_capability : Capability }.
Record networkAsk := mkNetworkAsk {
  network_reference : string;
  network_name : string;
  network_v2 : bool;
  network_policy : option PhasedNetworkV2;
  network_optional : bool;
}.
Record lifecycleAsk := mkLifecycleAsk {
  lifecycle_reference : string;
  lifecycle_name : string;
  lifecycle_asked : Lifecycle;
  lifecycle_optional : bool;
}.
Record contextAsk := mkContextAsk {
  context_reference : string;
  context_contribution : string;
  context_name : string;
  context_asked : AgentContext;
  context_optional : bool;
}.

(** [order] lists the keys of [byKey] as they were first met. *)
Record capabilityMerge := mkCapabilityMerge {
  order : list string;
  byKey : gmap string keyed;
  optional : gmap string bool;
  network : list networkAsk;
  lifecycle : list lifecycleAsk;
  context : list contextAsk;
  resources : option keyed;
  sessions : option keyed;
}.
Definition empty_merge : capabilityMerge := mkCapabilityMerge [] ∅ ∅ [] [] [] None None.

Definition set_instances (o : list string) (b : gmap string keyed) (p : gmap string bool)
    (m : capabilityMerge) : capabilityMerge :=
  mkCapabilityMerge o b p (network m) (lifecycle m) (context m) (resources m) (sessions m).
Definition add_network (a : networkAsk) (m : capabilityMerge) : capabilityMerge :=
  mkCapabilityMerge (order m) (byKey m) (optional m) (network m ++ [a]) (lifecycle m) (context m)
    (resources m) (sessions m).
Definition add_lifecycle (a : lifecycleAsk) (m : capabilityMerge) : capabilityMerge :=
  mkCapabilityMerge (order m) (byKey m) (optional m) (network m) (lifecycle m ++ [a]) (context m)
    (resources m) (sessions m).
Definition set_context (l : list contextAsk) (m : capabilityMerge) : capabilityMerge :=
  mkCapabilityMerge (order m) (byKey m) (optional m) (network m) (lifecycle m) l
    (resources m) (sessions m).
Definition set_resources (k : option keyed) (m : capabilityMerge) : capabilityMerge :=
  mkCapabilityMerge (order m) (byKey m) (optional m) (network m) (lifecycle m) (context m)
    k (sessions m).
Definition set_sessions (k : option keyed) (m : capabilityMerge) : capabilityMerge :=
  mkCapabilityMerge (order m) (byKey m) (optional m) (network m) (lifecycle m) (context m)
    (resources m) k.

Definition set_name (name : string) (c : Capability) : Capability :=
  mkCapability (Group c) (Source c) (optionalSet c) (groupSet c) (Type_ c) name
    (Optional c) (Config c) (configSet c) (Description c).
Definition set_optional (o : bool) (c : Capability) : Capability :=
  mkCapability (Group c) (Source c) (optionalSet c) (groupSet c) (Type_ c) (Name c)
    o (Config c) (configSet c) (Description c).
Definition set_source (s : option CapabilitySource) (c : Capability) : Capability :=
  mkCapability (Group c) s (optionalSet c) (groupSet c) (Type_ c) (Name c)
    (Optional c) (Config c) (configSet c) (Description c).

(** A name given to what has none. *)
Definition name_if_unnamed (name : string) (c : Capability) : Capability :=
  if bool_decide (Name c = "") then set_name name c else c.

Definition mergeSole (slot : option keyed) (reference : string) (n : Capability) (label : string) :
    result merge_error (option keyed) :=
  match slot with
  | None => Ok (Some (mkKeyed reference n))
  | Some k =>
      if sameRequest (keyed_capability k) n then
        let c := name_if_unnamed (Name n) (keyed_capability k) in
        let c := if negb (Optional n) then set_optional false c else c in
        Ok (Some (mkKeyed (keyed_reference k) c))
      else Err (TwoAuthors (keyed_reference k) reference label)
  end.

Definition unionSorted (a b : option (list string)) : option (list string) :=
  match a, b with
  | None, None => None
  | _, _ => Some (sort_strings (dedupe id (elems a ++ elems b)))
  end.
Definition mergeSSHAgents (a b : SSHAgent) : SSHAgent :=
  if negb (SSHAgent_Bounded a) || negb (SSHAgent_Bounded b)
  then mkSSHAgent (SSHAgent_Phase a) None None None
  else mkSSHAgent (SSHAgent_Phase a) (Some false)
         (unionSorted (SSHAgent_Sign a) (SSHAgent_Sign b))
         (unionSorted (SSHAgent_Authenticate a) (SSHAgent_Authenticate b)).

Definition require_key (n : Capability) (key : string) (o : gmap string bool) : gmap string bool :=
  if negb (Optional n) then <[key := false]> o else o.

(** A request under a key that was met before. *)
Definition add_again (reference : string) (n : Capability) (key : string) (prev : keyed)
    (m : capabilityMerge) : result merge_error capabilityMerge :=
  let c := keyed_capability prev in
  if bool_decide (Type_ n = CapabilityCredential)
  then Err (TwoOwners (keyed_reference prev) reference (Type_ n))
  else if bool_decide (Type_ n = CapabilitySSHAgent) then
    held ← decodeForMerge decode_ssh_agent zero_ssh_agent (keyed_reference prev) c;
    asked ← decodeForMerge decode_ssh_agent zero_ssh_agent reference n;
    let merged := CapabilityWithConfig c (encode_ssh_agent (mergeSSHAgents held asked)) in
    let merged := name_if_unnamed (Name n) merged in
    Ok (set_instances (order m) (<[key := mkKeyed (keyed_reference prev) merged]> (byKey m))
          (require_key n key (optional m)) m)
  else if negb (sameRequest c n)
  then Err (DifferentRequests (keyed_reference prev) reference (Type_ n))
  else
    Ok (set_instances (order m)
          (<[key := mkKeyed (keyed_reference prev) (name_if_unnamed (Name n) c)]> (byKey m))
          (require_key n key (optional m)) m).

Definition add_instance (reference : string) (n : Capability) (m : capabilityMerge) :
    result merge_error capabilityMerge :=
  key ← instanceKey reference n;
  match byKey m !! key with
  | None =>
      Ok (set_instances (order m ++ [key]) (<[key := mkKeyed reference n]> (byKey m))
            (<[key := Optional n]> (optional m)) m)
  | Some prev => add_again reference n key prev m
  end.

(** [capabilityMerge.add] *)
Definition add_request (reference : string) (n : Capability) (m : capabilityMerge) :
    result merge_error capabilityMerge :=
  if bool_decide (Type_ n = CapabilityNetworkPolicy) || bool_decide (Type_ n = CapabilityNetworkPolicyV2)
  then
    p ← map_err (PolicyUnreadable reference) (NetworkPolicyV2Of [n]);
    Ok (add_network (mkNetworkAsk reference (Name n)
          (bool_decide (Type_ n = CapabilityNetworkPolicyV2)) p (Optional n)) m)
  else if bool_decide (Type_ n = CapabilityLifecycle) then
    l ← decodeForMerge decode_lifecycle zero_lifecycle reference n;
    Ok (add_lifecycle (mkLifecycleAsk reference (Name n) l (Optional n)) m)
  else if bool_decide (Type_ n = CapabilityAgentContext) then
    a ← decodeForMerge decode_context zero_context reference n;
    Ok (set_context (context m ++ [mkContextAsk reference "" (Name n) a (Optional n)]) m)
  else if bool_decide (Type_ n = CapabilityResources) then
    k ← mergeSole (resources m) reference n "resources"; Ok (set_resources k m)
  else if bool_decide (Type_ n = CapabilityAgentSessions) then
    k ← mergeSole (sessions m) reference n "agent-sessions"; Ok (set_sessions k m)
  else add_instance reference n m.

(** One request per phase. *)
Fixpoint add_phases (reference : string) (entry : string → Capability) (phases : list string)
    (m : capabilityMerge) : result merge_error capabilityMerge :=
  match phases with
  | [] => Ok m
  | phase :: phases => m ← add_request reference (entry phase) m; add_phases reference entry phases m
  end.

Definition credential_for (n : Capability) (c : Credential) (phase : string) : Capability :=
  CapabilityWithConfig n (encode_credential
    (mkCredential (Credential_Service c) (Some [phase]) (Credential_APIKey c) (Credential_OAuth c))).
Definition ssh_agent_for (n : Capability) (a : SSHAgent) (phase : string) : Capability :=
  CapabilityWithConfig n (encode_ssh_agent
    (mkSSHAgent (Some [phase]) (SSHAgent_Unrestricted a) (SSHAgent_Sign a) (SSHAgent_Authenticate a))).

(** The last context ask is the contribution's. *)
Definition attribute_context (contribution : string) (l : list contextAsk) : list contextAsk :=
  match last l with
  | None => l
  | Some a =>
      take (pred (length l)) l ++
      [mkContextAsk (context_reference a) contribution (context_name a) (context_asked a) (context_optional a)]
  end.

Definition entry_reference (ref : string) (i : nat) (n : Capability) : string :=
  match Source n with
  | None => ref +:+ " capabilities[" +:+ pretty i +:+ "]"
  | Some s => ref +:+ " (" +:+ Source_Kit s +:+ " " +:+ Source_Path s +:+ ")"
  end.

Definition add_entry (ref : string) (i : nat) (n : Capability) (m : capabilityMerge) :
    result merge_error capabilityMerge :=
  if bool_decide (is_Some (Group n)) then Err (UnselectedGroup ref i)
  else
    let reference := entry_reference ref i n in
    if bool_decide (Type_ n = CapabilityCredential) then
      c ← decodeForMerge decode_credential zero_credential reference n;
      if bool_decide (elems (Credential_Phase c) = []) then Err (PhaseEmpty reference (Type_ n))
      else add_phases reference (credential_for n c) (elems (Credential_Phase c)) m
    else if bool_decide (Type_ n = CapabilitySSHAgent) then
      a ← decodeForMerge decode_ssh_agent zero_ssh_agent reference n;
      if bool_decide (elems (SSHAgent_Phase a) = []) then Err (PhaseEmpty reference (Type_ n))
      else add_phases reference (ssh_agent_for n a) (elems (SSHAgent_Phase a)) m
    else
      m ← add_request reference n m;
      Ok (if bool_decide (Type_ n = CapabilityAgentContext)
          then set_context (attribute_context ref (context m)) m else m).

Fixpoint add_entries (ref : string) (i : nat) (l : list Capability) (m : capabilityMerge) :
    result merge_error capabilityMerge :=
  match l with
  | [] => Ok m
  | n :: l => m ← add_entry ref i n m; add_entries ref (S i) l m
  end.
Fixpoint add_contributions (cs : list Contribution) (m : capabilityMerge) :
    result merge_error capabilityMerge :=
  match cs with
  | [] => Ok m
  | c :: cs =>
      m ← add_entries (Contribution_Reference c) 0 (Capabilities (cdescriptor c)) m;
      add_contributions cs m
  end.

(** ** Finishing: network *)

(** The name of the first ask that has one; optional only when every ask is. *)
Definition first_name {A} (name : A → string) (l : list A) : string :=
  match List.find (λ a, negb (bool_decide (name a = ""))) l with Some a => name a | None => "" end.

Definition appendRules (into : option NetworkRulesV2) (from : NetworkRulesV2) : option NetworkRulesV2 :=
  let into := default (mkNetworkRulesV2 [] []) into in
  Some (mkNetworkRulesV2 (AllowV2 into ++ AllowV2 from) (DenyV2 into ++ DenyV2 from)).

(** The key quotes every element, so entries share one exactly when their three
    lists have the same elements. *)
Definition entry_key (e : NetworkEntry) : list string * list string * list string :=
  (elems (Hosts e), elems (Methods e), elems (Paths e)).
Definition dedupeEntries (entries : list NetworkEntry) : list NetworkEntry := dedupe entry_key entries.

(** The hosts granted outright, and the entries left when a bounded one gives
    those hosts up. *)
Definition unbounded_hosts (entries : list NetworkEntry) : list string :=
  flat_map (λ e, if NetworkEntry_Bounded e then [] else elems (Hosts e)) entries.
Definition kept_entry (unbounded : list string) (e : NetworkEntry) : list NetworkEntry :=
  if negb (NetworkEntry_Bounded e) then [e]
  else
    let hosts := List.filter (λ h, negb (bool_decide (h ∈ unbounded))) (elems (Hosts e)) in
    if bool_decide (hosts = []) then [] else [mkNetworkEntry (Some hosts) (Methods e) (Paths e)].
Definition normalizeRules (r : option NetworkRulesV2) : option NetworkRulesV2 :=
  match r with
  | None => None
  | Some r =>
      let allow := dedupeEntries (AllowV2 r) in
      Some (mkNetworkRulesV2 (flat_map (kept_entry (unbounded_hosts allow)) allow)
              (dedupeEntries (DenyV2 r)))
  end.

Definition hostsOf (entries : list NetworkEntry) : list string :=
  dedupe id (flat_map (λ e, elems (Hosts e)) entries).
Definition downgradeToV1 (p : PhasedNetworkV2) : PhasedNetwork :=
  let rules := option_map (λ r, mkNetworkRules (hostsOf (AllowV2 r)) (hostsOf (DenyV2 r))) in
  mkPhasedNetwork (rules (InstallV2 p)) (rules (RuntimeV2 p)).

Definition join_ask (merged : PhasedNetworkV2) (ask : networkAsk) : PhasedNetworkV2 :=
  match network_policy ask with
  | None => merged
  | Some p =>
      mkPhasedNetworkV2
        match InstallV2 p with Some r => appendRules (InstallV2 merged) r | None => InstallV2 merged end
        match RuntimeV2 p with Some r => appendRules (RuntimeV2 merged) r | None => RuntimeV2 merged end
  end.
Definition joined_policy (asks : list networkAsk) : PhasedNetworkV2 :=
  let merged := foldl join_ask (mkPhasedNetworkV2 None None) asks in
  mkPhasedNetworkV2 (normalizeRules (InstallV2 merged)) (normalizeRules (RuntimeV2 merged)).

(** An entry of a type, through [capabilityFrom]. *)
Definition merged_entry (typ : string) (config : value) (name : string) (optional : bool) : Capability :=
  set_optional optional (set_name name (capability_of typ (toConfigMap config))).

Definition mergedNetwork (asks : list networkAsk) : result merge_error (option Capability) :=
  match asks with
  | [] => Ok None
  | _ =>
      let v2 := existsb network_v2 asks in
      let merged := joined_policy asks in
      config ← (if v2
                then map_err (EncodingRefused CapabilityNetworkPolicyV2) (encode_network_v2 merged)
                else Ok (encode_network (downgradeToV1 merged)));
      Ok (Some (merged_entry (if v2 then CapabilityNetworkPolicyV2 else CapabilityNetworkPolicy)
                  config (first_name network_name asks) (forallb network_optional asks)))
  end.

(** ** Finishing: lifecycle *)

Record lifecycleState := mkLifecycleState {
  hooks : Lifecycle;
  interactiveFrom : string;
  seenFile : gmap string string;
}.

Fixpoint lifecycle_files (reference : string) (files : list File) (seen : gmap string string) :
    result merge_error (gmap string string) :=
  match files with
  | [] => Ok seen
  | f :: files =>
      if ContainsArgRef (File_Path f) then Err (TemplatePath reference (File_Path f))
      else
        match seen !! Clean (File_Path f) with
        | Some prev => Err (TwoAuthors prev reference (Clean (File_Path f)))
        | None => lifecycle_files reference files (<[Clean (File_Path f) := reference]> seen)
        end
  end.
Definition lifecycle_step (st : lifecycleState) (ask : lifecycleAsk) : result merge_error lifecycleState :=
  let l := lifecycle_asked ask in
  let h := hooks st in
  let reference := lifecycle_reference ask in
  seen ← lifecycle_files reference (Lifecycle_Files l) (seenFile st);
  let joined interactive :=
    mkLifecycle (Lifecycle_Install h ++ Lifecycle_Install l) (Lifecycle_Startup h ++ Lifecycle_Startup l)
      (Lifecycle_Files h ++ Lifecycle_Files l) interactive in
  match Lifecycle_Interactive l with
  | None => Ok (mkLifecycleState (joined (Lifecycle_Interactive h)) (interactiveFrom st) seen)
  | Some tail =>
      if negb (bool_decide (interactiveFrom st = ""))
      then Err (TwoAuthors (interactiveFrom st) reference "interactive")
      else Ok (mkLifecycleState (joined (Some tail)) reference seen)
  end.
Fixpoint lifecycle_loop (st : lifecycleState) (asks : list lifecycleAsk) :
    result merge_error lifecycleState :=
  match asks with
  | [] => Ok st
  | a :: asks => st ← lifecycle_step st a; lifecycle_loop st asks
  end.
Definition mergedLifecycle (asks : list lifecycleAsk) : result merge_error (option Capability) :=
  match asks with
  | [] => Ok None
  | _ =>
      st ← lifecycle_loop (mkLifecycleState zero_lifecycle "" ∅) asks;
      Ok (Some (merged_entry CapabilityLifecycle (encode_lifecycle (hooks st))
                  (first_name lifecycle_name asks) (forallb lifecycle_optional asks)))
  end.

(** ** Finishing: agent context *)

Definition context_source (ask : contextAsk) : list ContextSource :=
  let a := context_asked ask in
  if negb (bool_decide (AgentContext_ContentFile a = ""))
  then [mkContextSource (context_contribution ask) (AgentContext_ContentFile a) "" ""]
  else if negb (bool_decide (AgentContext_Content a = ""))
  then [mkContextSource (context_contribution ask) "" (AgentContext_Content a) ""]
  else [].

(** The profile filename and the reference that stated it. *)
Fixpoint context_filename (filename from : string) (asks : list contextAsk) :
    result merge_error string :=
  match asks with
  | [] => Ok filename
  | a :: asks =>
      let f := AgentContext_Filename (context_asked a) in
      if bool_decide (f = "") then context_filename filename from asks
      else if negb (bool_decide (from = ""))
      then Err (TwoAuthors from (context_reference a) "agent-context filename")
      else context_filename f (context_reference a) asks
  end.

Definition mergedContext (asks : list contextAsk) :
    result merge_error (option Capability * list ContextSource) :=
  match asks with
  | [] => Ok (None, [])
  | _ =>
      filename ← context_filename "" "" asks;
      let sources := flat_map context_source asks in
      if bool_decide (filename = "") && bool_decide (sources = []) then Ok (None, [])
      else
        Ok (Some (merged_entry CapabilityAgentContext (encode_context (mkAgentContext filename "" ""))
                    (first_name context_name asks) (forallb context_optional asks)), sources)
  end.

(** ** Finishing *)

Definition some_list {A} (o : option A) : list A := match o with Some a => [a] | None => [] end.

Definition instances (m : capabilityMerge) : list Capability :=
  omap (λ key, k ← byKey m !! key;
               Some (set_optional (default false (optional m !! key)) (keyed_capability k))) (order m).

Definition finish (m : capabilityMerge) : result merge_error (list Capability * list ContextSource) :=
  net ← mergedNetwork (network m);
  life ← mergedLifecycle (lifecycle m);
  '(ctx, sources) ← mergedContext (context m);
  Ok (some_list net ++ instances m ++ some_list (option_map keyed_capability (resources m)) ++
      some_list (option_map keyed_capability (sessions m)) ++ some_list life ++ some_list ctx, sources).

Definition mergeCapabilities (cs : list Contribution) :
    result merge_error (list Capability * list ContextSource) :=
  m ← add_contributions cs empty_merge; finish m.

(** ** The merge *)

Definition merged_base (kind : string) : Descriptor :=
  mkDescriptor false SchemaVersion "" "" "" "" "" "" [] kind [] [] [] [] [] ∅ "" [] "" false.

Definition mergeDeclarations (cs : list Contribution) : result merge_error MergeResult :=
  if bool_decide (cs = []) then Err NoContributions
  else
    match List.find (λ c, negb (bool_decide (is_Some (Contribution_Descriptor c)))) cs with
    | Some c => Err (ContributionWithoutDescriptor (Contribution_Reference c))
    | None =>
        kind ← derivedKind cs;
        let out := mergeLicenses cs (mergeRelations cs (merged_base kind)) in
        '(capabilities, sources) ← mergeCapabilities cs;
        Ok (mkMergeResult (with_capabilities capabilities out) sources)
    end.

Definition Compose (cs : list Contribution) : result merge_error Descriptor :=
  r ← mergeDeclarations cs;
  Ok (with_capabilities (map (set_source None) (Capabilities (Merged r))) (Merged r)).
