(* ===== verification/MergeFacts.v ===== *)
(** What the merge of [spec/merge.go] keeps: the requests of every contribution,
    reconciled by kind. *)
From stdpp Require Import options.
From S2P Require Import Prelude GoStrings Version Json Types Config ConfigFacts Marshal GoPath Template Merge.

(** ** The requests of a composition

    Every capability request of every contribution in order, the multi-phase
    ones split by phase. *)

Definition phase_requests (n : Capability) : list Capability :=
  if bool_decide (Type_ n = CapabilityCredential) then
    match DecodeCapabilityConfig decode_credential zero_credential n with
    | Ok c => map (credential_for n c) (elems (Credential_Phase c))
    | Err _ => []
    end
  else if bool_decide (Type_ n = CapabilitySSHAgent) then
    match DecodeCapabilityConfig decode_ssh_agent zero_ssh_agent n with
    | Ok a => map (ssh_agent_for n a) (elems (SSHAgent_Phase a))
    | Err _ => []
    end
  else [n].
Definition requests (cs : list Contribution) : list Capability :=
  flat_map (λ c, flat_map phase_requests (Capabilities (cdescriptor c))) cs.

Lemma decodeForMerge_Ok {A} (d : decoder A) zero ref n a :
  decodeForMerge d zero ref n = Ok a ↔ DecodeCapabilityConfig d zero n = Ok a.
Proof. apply map_err_Ok. Qed.

(** An induction principle: what holds of no request and is kept by each
    addition holds of the state the contributions lead to. *)
Section MergeInduction.
#[local] Set Default Proof Using "All".
Context (P : list Capability → capabilityMerge → Prop).
Hypothesis P_request : ∀ rs m ref n m',
  P rs m → add_request ref n m = Ok m' → P (rs ++ [n]) m'.
Hypothesis P_attribute : ∀ rs m ref, P rs m → P rs (set_context (attribute_context ref (context m)) m).

Lemma add_phases_ind ref entry phases rs m m' :
  P rs m → add_phases ref entry phases m = Ok m' → P (rs ++ map entry phases) m'.
Proof.
  revert rs m. induction phases as [|p ps IH]; intros rs m Hm H; cbn in *.
  - injection H as <-. by rewrite app_nil_r.
  - apply result_bind_Ok in H as (m1 & H1 & H). apply (IH (rs ++ [entry p]) m1) in H.
    + by rewrite <-(assoc_L (++)) in H.
    + by eapply P_request.
Qed.

Lemma add_entry_ind ref i n rs m m' :
  P rs m → add_entry ref i n m = Ok m' → P (rs ++ phase_requests n) m'.
Proof.
  intros Hm H. unfold add_entry in H. unfold phase_requests.
  case_bool_decide as Hg; [done|]. case_bool_decide as Hc; [|case_bool_decide as Hs].
  - apply result_bind_Ok in H as (c & Hd%decodeForMerge_Ok & H).
    case_bool_decide as He; [done|]. rewrite Hd.
    by eapply add_phases_ind in H.
  - apply result_bind_Ok in H as (a & Hd%decodeForMerge_Ok & H).
    case_bool_decide as He; [done|]. rewrite Hd.
    by eapply add_phases_ind in H.
  - apply result_bind_Ok in H as (m1 & H1 & [= <-]).
    eapply P_request in H1; [|exact Hm]. by case_bool_decide; [apply P_attribute|].
Qed.

Lemma add_entries_ind ref i l rs m m' :
  P rs m → add_entries ref i l m = Ok m' → P (rs ++ flat_map phase_requests l) m'.
Proof.
  revert i rs m. induction l as [|n l IH]; intros i rs m Hm H; cbn [add_entries flat_map] in *.
  - injection H as <-. by rewrite app_nil_r.
  - apply result_bind_Ok in H as (m1 & H1 & H). eapply add_entry_ind in H1; [|exact Hm].
    eapply IH in H; [|exact H1]. by rewrite <-(assoc_L (++)) in H.
Qed.

Lemma add_contributions_ind cs rs m m' :
  P rs m → add_contributions cs m = Ok m' → P (rs ++ requests cs) m'.
Proof.
  revert rs m. induction cs as [|c cs IH]; intros rs m Hm H; cbn [add_contributions] in *.
  - injection H as <-. by rewrite app_nil_r.
  - apply result_bind_Ok in H as (m1 & H1 & H). eapply add_entries_ind in H1; [|exact Hm].
    eapply IH in H; [|exact H1]. unfold requests in *. cbn [flat_map].
    by rewrite <-(assoc_L (++)) in H.
Qed.
End MergeInduction.

(** The cases of [add_request]. *)
Definition is_network (n : Capability) : bool :=
  bool_decide (Type_ n = CapabilityNetworkPolicy) || bool_decide (Type_ n = CapabilityNetworkPolicyV2).
Definition folded_types : list string :=
  [CapabilityNetworkPolicy; CapabilityNetworkPolicyV2; CapabilityLifecycle; CapabilityAgentContext;
   CapabilityResources; CapabilityAgentSessions].
Definition is_instance (n : Capability) : bool := negb (bool_decide (Type_ n ∈ folded_types)).
Definition is_type (typ : string) (n : Capability) : bool := bool_decide (Type_ n = typ).

Lemma is_network_spec n :
  is_network n = true ↔ Type_ n = CapabilityNetworkPolicy ∨ Type_ n = CapabilityNetworkPolicyV2.
Proof. unfold is_network. by rewrite orb_true_iff, !bool_decide_eq_true. Qed.

Inductive added (ref : string) (n : Capability) (m : capabilityMerge) : capabilityMerge → Prop :=
  | Added_network p :
      is_network n = true → NetworkPolicyV2Of [n] = Ok p →
      added ref n m (add_network (mkNetworkAsk ref (Name n)
        (bool_decide (Type_ n = CapabilityNetworkPolicyV2)) p (Optional n)) m)
  | Added_lifecycle l :
      Type_ n = CapabilityLifecycle →
      DecodeCapabilityConfig decode_lifecycle zero_lifecycle n = Ok l →
      added ref n m (add_lifecycle (mkLifecycleAsk ref (Name n) l (Optional n)) m)
  | Added_context a :
      Type_ n = CapabilityAgentContext →
      DecodeCapabilityConfig decode_context zero_context n = Ok a →
      added ref n m (set_context (context m ++ [mkContextAsk ref "" (Name n) a (Optional n)]) m)
  | Added_resources k :
      Type_ n = CapabilityResources → mergeSole (resources m) ref n "resources" = Ok k →
      added ref n m (set_resources k m)
  | Added_sessions k :
      Type_ n = CapabilityAgentSessions → mergeSole (sessions m) ref n "agent-sessions" = Ok k →
      added ref n m (set_sessions k m)
  | Added_instance m' :
      is_instance n = true → add_instance ref n m = Ok m' → added ref n m m'.

Lemma add_request_added ref n m m' : add_request ref n m = Ok m' → added ref n m m'.
Proof.
  intros H. unfold add_request in H. fold (is_network n) in H.
  destruct (is_network n) eqn:En.
  { apply result_bind_Ok in H as (p & Hp%map_err_Ok & [= <-]). by apply Added_network. }
  unfold is_network in En. apply orb_false_iff in En as [En1 En2].
  apply bool_decide_eq_false in En1, En2.
  case_bool_decide as Hl; [|case_bool_decide as Hc; [|case_bool_decide as Hr; [|case_bool_decide as Hs]]].
  - apply result_bind_Ok in H as (l & Hd%decodeForMerge_Ok & [= <-]). by apply Added_lifecycle.
  - apply result_bind_Ok in H as (a & Hd%decodeForMerge_Ok & [= <-]). by apply Added_context.
  - apply result_bind_Ok in H as (k & Hk & [= <-]). by apply Added_resources.
  - apply result_bind_Ok in H as (k & Hk & [= <-]). by apply Added_sessions.
  - apply Added_instance; [|done]. unfold is_instance, folded_types.
    apply negb_true_iff, bool_decide_eq_false. rewrite !elem_of_cons, elem_of_nil. naive_solver.
Qed.

(** ** Network policies *)

(** What a list of entries lets through: a connection to a host (no HTTP
    request), or one HTTP request to it.  [covers] is the enforcer's matching of
    path patterns, of which nothing is assumed. *)
Section Reach.
#[local] Set Default Proof Using "Type*".
Context (covers : string → string → bool).

Definition entry_reaches (e : NetworkEntry) (h : string) (o : option (string * string)) : Prop :=
  h ∈ elems (Hosts e) ∧
  (NetworkEntry_Bounded e = false ∨
   ∃ m p, o = Some (m, p) ∧ (m ∈ EntryMethods e ∨ MethodAny ∈ EntryMethods e) ∧
     ∃ pat, pat ∈ EntryPaths e ∧ covers pat p = true).
Definition reaches (l : list NetworkEntry) (h : string) (o : option (string * string)) : Prop :=
  ∃ e, e ∈ l ∧ entry_reaches e h o.

Lemma reaches_app l l' h o : reaches (l ++ l') h o ↔ reaches l h o ∨ reaches l' h o.
Proof. unfold reaches. setoid_rewrite elem_of_app. naive_solver. Qed.

Lemma reaches_flat_map {A} (f : A → list NetworkEntry) l h o :
  reaches (flat_map f l) h o ↔ ∃ a, a ∈ l ∧ reaches (f a) h o.
Proof.
  unfold reaches. setoid_rewrite elem_of_flat_map. naive_solver.
Qed.

Lemma entry_reaches_key e e' h o :
  entry_key e = entry_key e' → entry_reaches e h o → entry_reaches e' h o.
Proof.
  unfold entry_key. intros [= E1 E2 E3]. unfold entry_reaches, NetworkEntry_Bounded, EntryMethods, EntryPaths.
  by rewrite E1, E2, E3.
Qed.

Lemma reaches_dedupe l h o : reaches (dedupeEntries l) h o ↔ reaches l h o.
Proof.
  unfold reaches. split.
  - intros (e & He & Hr). exists e. split; [by eapply dedupe_elem_of|done].
  - intros (e & He & Hr). apply (list_elem_of_fmap_2 entry_key), dedupe_key in He.
    apply list_elem_of_fmap in He as (e' & E & He'). exists e'. split; [done|].
    by eapply entry_reaches_key.
Qed.

Lemma unbounded_hosts_elem h l :
  h ∈ unbounded_hosts l ↔ ∃ e, e ∈ l ∧ NetworkEntry_Bounded e = false ∧ h ∈ elems (Hosts e).
Proof.
  unfold unbounded_hosts. rewrite elem_of_flat_map.
  split; intros (e & He & H); exists e; (split; [done|]).
  - destruct (NetworkEntry_Bounded e); [by inversion H|done].
  - destruct H as [-> H]. done.
Qed.

Lemma reaches_kept l h o :
  reaches (flat_map (kept_entry (unbounded_hosts l)) l) h o ↔ reaches l h o.
Proof.
  rewrite reaches_flat_map. split.
  - intros (e & He & e' & He' & Hr). exists e. split; [done|]. unfold kept_entry in He'.
    destruct (NetworkEntry_Bounded e) eqn:Eb; cbn [negb] in He'.
    + case_bool_decide; [by inversion He'|]. apply list_elem_of_singleton in He' as ->.
      destruct Hr as [Hh Hr]. split; [|exact Hr]. cbn in Hh.
      apply elem_of_filter_bool in Hh. by destruct Hh.
    + by apply list_elem_of_singleton in He' as ->.
  - intros (e & He & Hh & Hr).
    destruct (NetworkEntry_Bounded e) eqn:Eb.
    + destruct (decide (h ∈ unbounded_hosts l)) as [Hu|Hu].
      * apply unbounded_hosts_elem in Hu as (e' & He' & Hb & Hh').
        exists e'. split; [done|]. exists e'. unfold kept_entry. rewrite Hb.
        split; [by left|]. split; [done|by left].
      * exists e. split; [done|]. unfold kept_entry. rewrite Eb. cbn [negb].
        assert (h ∈ List.filter (λ h, negb (bool_decide (h ∈ unbounded_hosts l))) (elems (Hosts e))) as Hf.
        { apply elem_of_filter_bool. split; [done|].
          by rewrite bool_decide_eq_false_2. }
        case_bool_decide as E; [rewrite E in Hf; by inversion Hf|].
        eexists. split; [by left|]. split; [done|]. right. destruct Hr as [Hr|Hr]; [done|].
        exact Hr.
    + exists e. split; [done|]. exists e. unfold kept_entry. rewrite Eb. split; [by left|].
      split; [done|by left].
Qed.

Lemma reaches_hosts l h o :
  Forall (λ e, NetworkEntry_Bounded e = false) l →
  reaches (hostEntries (hostsOf l)) h o ↔ reaches l h o.
Proof.
  intros Hl. rewrite Forall_forall in Hl.
  assert (h ∈ hostsOf l ↔ ∃ e, e ∈ l ∧ h ∈ elems (Hosts e)) as Hh.
  { unfold hostsOf. by rewrite dedupe_id_elem_of, elem_of_flat_map. }
  split.
  - intros (e & [x [-> Hx]]%list_elem_of_fmap & Hr & _). cbn in Hr.
    apply list_elem_of_singleton in Hr as <-. apply Hh in Hx as (e & He & Hx).
    exists e. split; [done|]. split; [done|]. left. by apply Hl.
  - intros (e & He & Hr & _). exists (mkNetworkEntry (Some [h]) None None).
    split; [|split; [by left|by left]]. unfold hostEntries.
    apply (list_elem_of_fmap_2 (λ h, mkNetworkEntry (Some [h]) None None)), Hh. by exists e.
Qed.
End Reach.

(** The rules of a phase. *)
Inductive phase := PhaseInstall | PhaseRuntime.
Definition phase_rules (p : PhasedNetworkV2) (ph : phase) : option NetworkRulesV2 :=
  match ph with PhaseInstall => InstallV2 p | PhaseRuntime => RuntimeV2 p end.
Definition allow_of (p : PhasedNetworkV2) (ph : phase) : list NetworkEntry :=
  match phase_rules p ph with Some r => AllowV2 r | None => [] end.
Definition deny_of (p : PhasedNetworkV2) (ph : phase) : list NetworkEntry :=
  match phase_rules p ph with Some r => DenyV2 r | None => [] end.

Definition ask_policy (a : networkAsk) : PhasedNetworkV2 :=
  default (mkPhasedNetworkV2 None None) (network_policy a).

Lemma join_ask_of (f : NetworkRulesV2 → list NetworkEntry) merged a ph :
  f = AllowV2 ∨ f = DenyV2 →
  match phase_rules (join_ask merged a) ph with Some r => f r | None => [] end =
  match phase_rules merged ph with Some r => f r | None => [] end ++
  match phase_rules (ask_policy a) ph with Some r => f r | None => [] end.
Proof.
  intros Hf. unfold join_ask, ask_policy. destruct (network_policy a) as [[i r]|]; cbn.
  - destruct Hf as [-> | ->], ph, merged as [[[??]|] [[??]|]], i as [[??]|], r as [[??]|];
      cbn; rewrite ?app_nil_r; done.
  - destruct ph; cbn; by rewrite app_nil_r.
Qed.

Lemma foldl_join_of (f : NetworkRulesV2 → list NetworkEntry) asks merged ph :
  f = AllowV2 ∨ f = DenyV2 →
  match phase_rules (foldl join_ask merged asks) ph with Some r => f r | None => [] end =
  match phase_rules merged ph with Some r => f r | None => [] end ++
  flat_map (λ a, match phase_rules (ask_policy a) ph with Some r => f r | None => [] end) asks.
Proof.
  intros Hf. revert merged. induction asks as [|a asks IH]; intros merged.
  - cbn. by rewrite app_nil_r.
  - cbn [foldl flat_map]. by rewrite IH, join_ask_of, <-(assoc_L (++)).
Qed.

Lemma joined_allow asks ph :
  let l := dedupeEntries (flat_map (λ a, allow_of (ask_policy a) ph) asks) in
  allow_of (joined_policy asks) ph = flat_map (kept_entry (unbounded_hosts l)) l.
Proof.
  cbn. pose proof (foldl_join_of AllowV2 asks (mkPhasedNetworkV2 None None) ph (or_introl eq_refl)) as E.
  unfold allow_of in *.
  replace (match phase_rules (mkPhasedNetworkV2 None None) ph with
           | Some r => AllowV2 r | None => [] end) with (@nil NetworkEntry) in E by by destruct ph.
  cbn [app] in E. rewrite <-E. unfold joined_policy.
  destruct ph; cbn; [destruct (InstallV2 _)|destruct (RuntimeV2 _)]; done.
Qed.

Lemma joined_deny asks ph :
  deny_of (joined_policy asks) ph = dedupeEntries (flat_map (λ a, deny_of (ask_policy a) ph) asks).
Proof.
  pose proof (foldl_join_of DenyV2 asks (mkPhasedNetworkV2 None None) ph (or_intror eq_refl)) as E.
  unfold deny_of in *.
  replace (match phase_rules (mkPhasedNetworkV2 None None) ph with
           | Some r => DenyV2 r | None => [] end) with (@nil NetworkEntry) in E by by destruct ph.
  cbn [app] in E. rewrite <-E. unfold joined_policy.
  destruct ph; cbn; [destruct (InstallV2 _)|destruct (RuntimeV2 _)]; done.
Qed.

(** What an ask may be: an @2 policy that states its hosts, or an @1 one, whose
    entries are all unbounded. *)
Definition policy_entries (p : PhasedNetworkV2) : list NetworkEntry :=
  flat_map (λ ph, allow_of p ph ++ deny_of p ph) [PhaseInstall; PhaseRuntime].
Definition sound_ask (a : networkAsk) : Prop :=
  Forall (λ e, Hosts e ≠ None) (policy_entries (ask_policy a)) ∧
  (network_v2 a = false → Forall (λ e, NetworkEntry_Bounded e = false) (policy_entries (ask_policy a))).

Lemma policy_entries_elem p e :
  e ∈ policy_entries p ↔ ∃ ph, e ∈ allow_of p ph ∨ e ∈ deny_of p ph.
Proof.
  unfold policy_entries. cbn. rewrite !elem_of_app, elem_of_nil. split; [|intros [[] ?]; tauto].
  intros [[?|?]|[[?|?]|[]]]; eauto.
Qed.

Lemma kept_entry_from u e e' :
  e' ∈ kept_entry u e → Methods e' = Methods e ∧ Paths e' = Paths e ∧ (Hosts e ≠ None → Hosts e' ≠ None).
Proof.
  unfold kept_entry. destruct (negb _); [intros ->%list_elem_of_singleton; done|].
  case_bool_decide; [by inversion 1|]. by intros ->%list_elem_of_singleton.
Qed.

Lemma joined_entries asks e :
  e ∈ policy_entries (joined_policy asks) →
  ∃ a e', a ∈ asks ∧ e' ∈ policy_entries (ask_policy a) ∧
    Methods e = Methods e' ∧ Paths e = Paths e' ∧ (Hosts e' ≠ None → Hosts e ≠ None).
Proof.
  rewrite policy_entries_elem. intros [ph [H|H]].
  - rewrite joined_allow in H. apply elem_of_flat_map in H as (e' & He' & He).
    apply dedupe_elem_of in He'. apply elem_of_flat_map in He' as (a & Ha & He'). exists a, e'. apply kept_entry_from in He as (? & ? & ?).
    split; [done|]. split; [|done]. apply policy_entries_elem. eauto.
  - rewrite joined_deny in H. apply dedupe_elem_of in H.
    apply elem_of_flat_map in H as (a & Ha & He). exists a, e. split; [done|]. split; [|done].
    apply policy_entries_elem. eauto.
Qed.

Lemma joined_valid asks :
  Forall sound_ask asks → valid_network_v2 (joined_policy asks).
Proof.
  intros Ha. assert (Forall (λ e, Hosts e ≠ None) (policy_entries (joined_policy asks))) as H.
  { apply Forall_forall. intros e (a & e' & Hin & He' & _ & _ & Hh)%joined_entries.
    rewrite Forall_forall in Ha. destruct (Ha a Hin) as [Hv _]. rewrite Forall_forall in Hv. auto. }
  rewrite Forall_forall in H. setoid_rewrite policy_entries_elem in H.
  split; intros r Hr; split; apply Forall_forall; intros e He; apply H;
    [exists PhaseInstall; left|exists PhaseInstall; right|exists PhaseRuntime; left|exists PhaseRuntime; right];
    unfold allow_of, deny_of, phase_rules; by rewrite Hr.
Qed.

Lemma joined_unbounded asks :
  Forall sound_ask asks → existsb network_v2 asks = false →
  ∀ ph, Forall (λ e, NetworkEntry_Bounded e = false) (allow_of (joined_policy asks) ph) ∧
        Forall (λ e, NetworkEntry_Bounded e = false) (deny_of (joined_policy asks) ph).
Proof.
  intros Ha H1. rewrite existsb_false in H1.
  assert (∀ e, e ∈ policy_entries (joined_policy asks) → NetworkEntry_Bounded e = false) as H.
  { intros e (a & e' & Hin & He' & Em & Ep & _)%joined_entries.
    rewrite Forall_forall in Ha. destruct (Ha a Hin) as [_ Hv]. specialize (Hv (H1 a Hin)).
    rewrite Forall_forall in Hv. specialize (Hv e' He'). unfold NetworkEntry_Bounded in *.
    by rewrite Em, Ep. }
  setoid_rewrite policy_entries_elem in H.
  intros ph. split; apply Forall_forall; intros e He; apply H; eauto.
Qed.

Lemma NetworkPolicyV2Of_source s c l :
  NetworkPolicyV2Of (set_source s c :: l) =
  if is_network c then NetworkPolicyV2Of [c] else NetworkPolicyV2Of l.
Proof.
  unfold is_network. cbn. change (Type_ (set_source s c)) with (Type_ c).
  repeat case_bool_decide; cbn; try done; congruence.
Qed.

Section Union.
Context (covers : string → string → bool).

(** The rules two policies allow and refuse are the same. *)
Definition unites (p : PhasedNetworkV2) (asked : list PhasedNetworkV2) : Prop :=
  ∀ ph h o,
    (reaches covers (allow_of p ph) h o ↔ ∃ q, q ∈ asked ∧ reaches covers (allow_of q ph) h o) ∧
    (reaches covers (deny_of p ph) h o ↔ ∃ q, q ∈ asked ∧ reaches covers (deny_of q ph) h o).

Lemma joined_unites asks : unites (joined_policy asks) (map ask_policy asks).
Proof.
  intros ph h o. split.
  - rewrite joined_allow, reaches_kept, reaches_dedupe, reaches_flat_map.
    setoid_rewrite list_elem_of_fmap. naive_solver.
  - rewrite joined_deny, reaches_dedupe, reaches_flat_map.
    setoid_rewrite list_elem_of_fmap. naive_solver.
Qed.

Lemma downgraded_unites p asked :
  unites p asked →
  (∀ ph, Forall (λ e, NetworkEntry_Bounded e = false) (allow_of p ph) ∧
         Forall (λ e, NetworkEntry_Bounded e = false) (deny_of p ph)) →
  let q := downgradeToV1 p in
  unites (mkPhasedNetworkV2 (liftNetworkRules (Install q)) (liftNetworkRules (Runtime q))) asked.
Proof.
  intros Hp Hu q ph h o. destruct (Hp ph h o) as [Ha Hd]. destruct (Hu ph) as [Hua Hud].
  rewrite <-Ha, <-Hd, <-(reaches_hosts covers _ h o Hua), <-(reaches_hosts covers _ h o Hud).
  unfold allow_of, deny_of, q. destruct p as [[[??]|] [[??]|]], ph; done.
Qed.

Lemma mergedNetwork_unites asks s c :
  Forall sound_ask asks → mergedNetwork asks = Ok (Some c) →
  is_network c = true ∧
  ∃ p, NetworkPolicyV2Of [set_source s c] = Ok (Some p) ∧ unites p (map ask_policy asks).
Proof.
  intros Ha H. destruct asks as [|a0 asks0]; [done|]. cbn [mergedNetwork] in H.
  set (asks := a0 :: asks0) in *. clearbody asks. apply result_bind_Ok in H as (v & Hv & [= <-]).
  pose proof (joined_unites asks) as Hj. destruct (existsb network_v2 asks) eqn:E2.
  - apply map_err_Ok in Hv. pose proof (joined_valid asks Ha) as Hvalid.
    destruct (encode_network_v2_ok _ _ Hv Hvalid) as (Hd & Hm & m & ->).
    split; [done|]. exists (joined_policy asks). split; [|done].
    unfold NetworkPolicyV2Of. rewrite bool_decide_eq_true_2 by done.
    unfold DecodeCapabilityConfig.
    change (config_value _) with (VMap m). by rewrite Hm, Hd.
  - injection Hv as <-. split; [done|]. eexists. split.
    + unfold NetworkPolicyV2Of. rewrite bool_decide_eq_false_2 by done.
      rewrite bool_decide_eq_true_2 by done.
      pose proof (CapabilityWithConfig_decode (capability_of CapabilityNetworkPolicy None)
        (downgradeToV1 (joined_policy asks)) I) as Hd.
      cbn [codec_decode codec_zero codec_encode network_codec] in Hd.
      unfold DecodeCapabilityConfig in *.
      change (config_value (CapabilityWithConfig _ _)) with (config_value (set_source s
        (merged_entry CapabilityNetworkPolicy (encode_network (downgradeToV1 (joined_policy asks)))
          (first_name network_name asks) (forallb network_optional asks)))) in Hd.
      destruct (negb _); [done|]. cbn [map_err] in Hd.
      destruct (decode_network _ _) as [q|]; [|done]. injection Hd as ->. done.
    + apply downgraded_unites; [done|]. by apply joined_unbounded.
Qed.
End Union.

(** ** What the state records *)

Definition declared (cs : list Contribution) : list Capability :=
  flat_map (λ c, Capabilities (cdescriptor c)) cs.

(** A test that only reads the type of requests that are not split by phase. *)
Definition unsplit (f : Capability → bool) : Prop :=
  (∀ n n', Type_ n = Type_ n' → f n = f n') ∧
  ∀ n, Type_ n = CapabilityCredential ∨ Type_ n = CapabilitySSHAgent → f n = false.

Lemma filter_none {A} (f : A → bool) l : (∀ x, x ∈ l → f x = false) → List.filter f l = [].
Proof.
  induction l as [|x l IH]; [done|]. intros H. cbn. rewrite H by by left.
  apply IH. intros y Hy. apply H. by right.
Qed.

Lemma filter_flat_map {A B} (f : B → bool) (g : A → list B) l :
  List.filter f (flat_map g l) = flat_map (λ a, List.filter f (g a)) l.
Proof. induction l as [|a l IH]; [done|]. cbn. by rewrite List.filter_app, IH. Qed.

Lemma filter_phase_requests f n :
  unsplit f → List.filter f (phase_requests n) = List.filter f [n].
Proof.
  intros [Ht Hf]. unfold phase_requests. case_bool_decide as Hc; [|case_bool_decide as Hs; [|done]].
  - assert (f n = false) as E by auto. cbn. rewrite E. apply filter_none.
    destruct (DecodeCapabilityConfig _ _ n) as [c|]; [|by inversion 1].
    intros x [ph [-> _]]%list_elem_of_fmap. by rewrite <-E; apply Ht.
  - assert (f n = false) as E by auto. cbn. rewrite E. apply filter_none.
    destruct (DecodeCapabilityConfig _ _ n) as [a|]; [|by inversion 1].
    intros x [ph [-> _]]%list_elem_of_fmap. by rewrite <-E; apply Ht.
Qed.

Lemma requests_unsplit f cs :
  unsplit f → List.filter f (requests cs) = List.filter f (declared cs).
Proof.
  intros Hf. unfold requests, declared. rewrite !filter_flat_map. apply flat_map_ext. intros c.
  rewrite filter_flat_map. induction (Capabilities (cdescriptor c)) as [|n l IH]; [done|].
  cbn [flat_map]. rewrite IH, filter_phase_requests by done. cbn. by destruct (f n).
Qed.

Lemma unsplit_network : unsplit is_network.
Proof.
  split; [intros n n' E; unfold is_network; by rewrite E|].
  intros n [E|E]; unfold is_network; rewrite E; done.
Qed.
Lemma unsplit_type typ :
  typ ≠ CapabilityCredential → typ ≠ CapabilitySSHAgent → unsplit (is_type typ).
Proof.
  intros H1 H2. split; [intros n n' E; unfold is_type; by rewrite E|].
  intros n [E|E]; unfold is_type; rewrite E; apply bool_decide_eq_false_2; congruence.
Qed.

Definition net_ask (n : Capability) (a : networkAsk) : Prop :=
  NetworkPolicyV2Of [n] = Ok (network_policy a) ∧
  network_v2 a = is_type CapabilityNetworkPolicyV2 n ∧ network_optional a = Optional n.
Definition life_ask (n : Capability) (a : lifecycleAsk) : Prop :=
  DecodeCapabilityConfig decode_lifecycle zero_lifecycle n = Ok (lifecycle_asked a) ∧
  lifecycle_optional a = Optional n.
Definition ctx_ask (n : Capability) (a : contextAsk) : Prop :=
  DecodeCapabilityConfig decode_context zero_context n = Ok (context_asked a) ∧
  context_optional a = Optional n.

(** A slot holds the first request of its type; the others ask the same. *)
Definition sole_slot (typ : string) (rs : list Capability) (slot : option keyed) : Prop :=
  match slot with
  | None => List.filter (is_type typ) rs = []
  | Some k =>
      let l := List.filter (is_type typ) rs in
      is_type typ (keyed_capability k) = true ∧
      Config (keyed_capability k) = match l with n :: _ => Config n | [] => None end ∧
      l ≠ [] ∧ Optional (keyed_capability k) = forallb Optional l
  end.

Record folded (rs : list Capability) (m : capabilityMerge) : Prop := {
  folded_network : Forall2 net_ask (List.filter is_network rs) (network m);
  folded_lifecycle : Forall2 life_ask (List.filter (is_type CapabilityLifecycle) rs) (lifecycle m);
  folded_context : Forall2 ctx_ask (List.filter (is_type CapabilityAgentContext) rs) (context m);
  folded_resources : sole_slot CapabilityResources rs (resources m);
  folded_sessions : sole_slot CapabilityAgentSessions rs (sessions m);
  folded_instances : ∀ k e, byKey m !! k = Some e → is_instance (keyed_capability e) = true;
}.

Lemma filter_snoc {A} (f : A → bool) l x :
  List.filter f (l ++ [x]) = List.filter f l ++ (if f x then [x] else []).
Proof. rewrite List.filter_app. cbn. by destruct (f x). Qed.

Lemma sole_slot_other typ rs slot n :
  is_type typ n = false → sole_slot typ rs slot → sole_slot typ (rs ++ [n]) slot.
Proof. intros E. unfold sole_slot. by rewrite filter_snoc, E, app_nil_r. Qed.

Lemma name_if_unnamed_fields name c :
  Type_ (name_if_unnamed name c) = Type_ c ∧ Config (name_if_unnamed name c) = Config c ∧
  Optional (name_if_unnamed name c) = Optional c ∧ Group (name_if_unnamed name c) = Group c.
Proof. unfold name_if_unnamed. by case_bool_decide. Qed.

Lemma mergeSole_slot typ label ref rs slot n slot' :
  is_type typ n = true → sole_slot typ rs slot → mergeSole slot ref n label = Ok slot' →
  sole_slot typ (rs ++ [n]) slot'.
Proof.
  intros Et Hs H. unfold mergeSole in H. unfold sole_slot in *. rewrite filter_snoc, Et.
  destruct slot as [k|].
  - destruct (sameRequest _ _); [|done]. injection H as <-. destruct Hs as (Ht & Hc & Hl & Ho).
    destruct (name_if_unnamed_fields (Name n) (keyed_capability k)) as (Et' & Ec' & Eo' & _).
    cbn [keyed_capability]. rewrite forallb_app. cbn [forallb]. rewrite <-Ho, andb_true_r.
    assert (List.filter (is_type typ) rs ++ [n] ≠ []) by by destruct (List.filter _ _).
    destruct (Optional n) eqn:En; cbn [negb]; unfold is_type in *; cbn [Type_ Config Optional set_optional].
    + rewrite Et', Ec', Eo', Hc, andb_true_r. destruct (List.filter _ rs); done.
    + rewrite Et', Ec', Hc, andb_false_r. destruct (List.filter _ rs); done.
  - injection H as <-. rewrite Hs. cbn. by rewrite andb_true_r.
Qed.

Lemma set_instances_others o b p m :
  network (set_instances o b p m) = network m ∧ lifecycle (set_instances o b p m) = lifecycle m ∧
  context (set_instances o b p m) = context m ∧ resources (set_instances o b p m) = resources m ∧
  sessions (set_instances o b p m) = sessions m.
Proof. done. Qed.

(** ** Keys *)

Definition key_of (n : Capability) : option string :=
  match instanceKey "" n with Ok k => Some k | Err _ => None end.

Lemma instanceKey_ref ref n k : instanceKey ref n = Ok k → key_of n = Some k.
Proof.
  unfold key_of, instanceKey. repeat case_bool_decide; try (intros [= <-]; reflexivity);
    intros (x & Hx%decodeForMerge_Ok & HK)%result_bind_Ok; unfold decodeForMerge;
    rewrite Hx; cbn;
    try (match type of HK with match ?l with _ => _ end = _ => destruct l as [|? [|]]; try done end);
    by injection HK as <-.
Qed.

Lemma cut_nul_app s t : contains_byte "000" s = false → (cut "000" (s +:+ nul +:+ t)).1.1 = s.
Proof.
  intros Hs. induction s as [|c s IH]; [done|]. rewrite contains_byte_cons in Hs.
  apply orb_false_iff in Hs as [Hc Hs]. apply bool_decide_eq_false in Hc.
  rewrite str_app_cons. cbn [cut]. rewrite decide_False by done.
  specialize (IH Hs). destruct (cut "000" (s +:+ nul +:+ t)) as [[b r] f]. cbn in *. by rewrite IH.
Qed.

Lemma cut_nul_none s : contains_byte "000" s = false → (cut "000" s).1.1 = s.
Proof.
  intros Hs. induction s as [|c s IH]; [done|]. rewrite contains_byte_cons in Hs.
  apply orb_false_iff in Hs as [Hc Hs]. apply bool_decide_eq_false in Hc.
  cbn [cut]. rewrite decide_False by done.
  specialize (IH Hs). destruct (cut "000" s) as [[b r] f]. cbn in *. by rewrite IH.
Qed.

(** A key starts with the type of its request. *)
Lemma key_of_type n k :
  contains_byte "000" (Type_ n) = false → key_of n = Some k → (cut "000" k).1.1 = Type_ n.
Proof.
  intros Hn. unfold key_of. destruct (instanceKey "" n) as [k'|] eqn:E; [|done]. intros [= ->].
  unfold instanceKey in E.
  repeat (case_bool_decide; [apply result_bind_Ok in E as (x & _ & E);
    first [injection E as <-; by apply cut_nul_app
          |match type of E with match ?l with _ => _ end = _ => destruct l as [|? [|]]; try done end;
           injection E as <-; by apply cut_nul_app]|]).
  injection E as <-. unfold capabilityIdentity. destruct (Config n) as [[|kv m]|];
    [by apply cut_nul_none| |by apply cut_nul_none].
  destruct (negb _); by apply cut_nul_app.
Qed.

Lemma DecodeCapabilityConfig_config {A} (d : decoder A) zero n n' a :
  Config n = Config n' → DecodeCapabilityConfig d zero n = Ok a → DecodeCapabilityConfig d zero n' = Ok a.
Proof.
  intros E. unfold DecodeCapabilityConfig, config_value. rewrite <-E.
  destruct (negb _); [done|]. by rewrite !map_err_Ok.
Qed.

Lemma same_decoded_config {A} (d : decoder A) zero same a a' b :
  Type_ a = Type_ a' → Config a = Config a' →
  same_decoded d zero same a b = same_decoded d zero same a' b.
Proof.
  intros Et Ec. unfold same_decoded, DecodeCapabilityConfig, config_value, capabilityIdentity.
  rewrite Et, Ec. destruct (negb _); [done|]. by destruct (d zero _).
Qed.

Lemma sameRequest_config a a' b :
  Type_ a = Type_ a' → Config a = Config a' → sameRequest a b = sameRequest a' b.
Proof.
  intros Et Ec. unfold sameRequest. rewrite <-Et.
  rewrite !(same_decoded_config _ _ _ a a' b Et Ec).
  unfold capabilityIdentity. by rewrite Et, Ec.
Qed.

(** ** SSH agents *)

Definition signs (a : SSHAgent) (namespace : string) : Prop :=
  SSHAgent_Bounded a = false ∨ namespace ∈ elems (SSHAgent_Sign a).
Definition authenticates (a : SSHAgent) (destination : string) : Prop :=
  SSHAgent_Bounded a = false ∨ destination ∈ elems (SSHAgent_Authenticate a).

Lemma unionSorted_elem a b x : x ∈ elems (unionSorted a b) ↔ x ∈ elems a ∨ x ∈ elems b.
Proof.
  unfold unionSorted, elems. destruct a as [a|], b as [b|]; cbn [default from_option id];
    rewrite ?sort_strings_elem_of, ?dedupe_id_elem_of, ?elem_of_app, ?elem_of_nil; tauto.
Qed.

Lemma unionSorted_stated a b :
  a ≠ Some [] → b ≠ Some [] → unionSorted a b ≠ Some [].
Proof.
  intros Ha Hb E. assert (∀ x, x ∉ elems (unionSorted a b)) as H
    by (intros x; rewrite E; apply not_elem_of_nil).
  setoid_rewrite unionSorted_elem in H.
  destruct a as [[|x a]|]; [done| |]; [apply (H x); cbn; set_solver|].
  destruct b as [[|x b]|]; [done| |done]. apply (H x). cbn. set_solver.
Qed.

Lemma mergeSSHAgents_exact a b :
  (∀ ns, signs (mergeSSHAgents a b) ns ↔ signs a ns ∨ signs b ns) ∧
  (∀ d, authenticates (mergeSSHAgents a b) d ↔ authenticates a d ∨ authenticates b d) ∧
  SSHAgent_Phase (mergeSSHAgents a b) = SSHAgent_Phase a.
Proof.
  unfold mergeSSHAgents, signs, authenticates.
  destruct (SSHAgent_Bounded a) eqn:Ea, (SSHAgent_Bounded b) eqn:Eb; cbn [negb orb];
    cbn [SSHAgent_Phase SSHAgent_Sign SSHAgent_Authenticate]; (split; [|split]); try done; intros x.
  - rewrite unionSorted_elem. unfold SSHAgent_Bounded. cbn. naive_solver.
  - rewrite unionSorted_elem. unfold SSHAgent_Bounded. cbn. naive_solver.
  - unfold SSHAgent_Bounded. cbn. naive_solver.
  - unfold SSHAgent_Bounded. cbn. naive_solver.
  - unfold SSHAgent_Bounded. cbn. naive_solver.
  - unfold SSHAgent_Bounded. cbn. naive_solver.
  - unfold SSHAgent_Bounded. cbn. naive_solver.
  - unfold SSHAgent_Bounded. cbn. naive_solver.
Qed.

Lemma mergeSSHAgents_valid a b :
  valid_ssh_agent a → valid_ssh_agent b → valid_ssh_agent (mergeSSHAgents a b).
Proof.
  intros (Hp & Hs & Ha) (_ & Hs' & Ha'). unfold mergeSSHAgents. destruct (_ || _); [done|].
  split; [done|]. split; by apply unionSorted_stated.
Qed.

(** ** Instances *)

(** The requests under a key. *)
Definition has_key (key : string) (n : Capability) : bool :=
  is_instance n && bool_decide (key_of n = Some key).
Definition asking (key : string) (rs : list Capability) : list Capability :=
  List.filter (has_key key) rs.

(** What the merge relies on: types of the capability grammar hold no NUL, and an
    SSH request states no empty list. *)
Definition well_stated (rs : list Capability) : Prop :=
  ∀ n, n ∈ rs → contains_byte "000" (Type_ n) = false ∧
    (Type_ n = CapabilitySSHAgent → ∀ a,
       DecodeCapabilityConfig decode_ssh_agent zero_ssh_agent n = Ok a → valid_ssh_agent a).

(** The entry [c] kept for the requests [l] under one key: one credential, an
    SSH agent that permits what any of them asked, or else the first request,
    which the others repeat. *)
Definition reconciles (c : Capability) (l : list Capability) : Prop :=
  match l with
  | [] => False
  | n :: rest =>
      Type_ c = Type_ n ∧ Forall (λ n', Type_ n' = Type_ n) rest ∧
      if bool_decide (Type_ n = CapabilityCredential) then rest = [] ∧ Config c = Config n
      else if bool_decide (Type_ n = CapabilitySSHAgent) then
        ∃ a, DecodeCapabilityConfig decode_ssh_agent zero_ssh_agent c = Ok a ∧ valid_ssh_agent a ∧
          (∀ ns, signs a ns ↔ ∃ n' b, n' ∈ l ∧
             DecodeCapabilityConfig decode_ssh_agent zero_ssh_agent n' = Ok b ∧ signs b ns) ∧
          (∀ d, authenticates a d ↔ ∃ n' b, n' ∈ l ∧
             DecodeCapabilityConfig decode_ssh_agent zero_ssh_agent n' = Ok b ∧ authenticates b d)
      else Config c = Config n ∧ Forall (λ n', sameRequest n n' = true) rest
  end.

Record instanced (rs : list Capability) (m : capabilityMerge) : Prop := {
  instanced_NoDup : NoDup (order m);
  instanced_byKey : ∀ key, key ∈ order m ↔ is_Some (byKey m !! key);
  instanced_order : ∀ key, key ∈ order m ↔ asking key rs ≠ [];
  instanced_keyed : ∀ n, n ∈ rs → is_instance n = true → is_Some (key_of n);
  instanced_entry : ∀ key e, byKey m !! key = Some e →
    reconciles (keyed_capability e) (asking key rs);
  instanced_optional : ∀ key, key ∈ order m →
    optional m !! key = Some (forallb Optional (asking key rs));
}.

Lemma asking_snoc key rs n :
  asking key (rs ++ [n]) = asking key rs ++ (if has_key key n then [n] else []).
Proof. apply filter_snoc. Qed.

Lemma asking_other key rs n : has_key key n = false → asking key (rs ++ [n]) = asking key rs.
Proof. intros E. by rewrite asking_snoc, E, app_nil_r. Qed.

Lemma has_key_spec key n : has_key key n = true ↔ is_instance n = true ∧ key_of n = Some key.
Proof. unfold has_key. by rewrite andb_true_iff, bool_decide_eq_true. Qed.

Lemma instanced_not_instance rs n m :
  is_instance n = false → instanced rs m → instanced (rs ++ [n]) m.
Proof.
  intros E []. assert (∀ key, asking key (rs ++ [n]) = asking key rs) as Ha.
  { intros key. apply asking_other. unfold has_key. by rewrite E. }
  split; try done.
  - intros key. by rewrite Ha.
  - intros n' [H|H%list_elem_of_singleton]%elem_of_app; [auto|]. subst. congruence.
  - intros key e He. rewrite Ha. auto.
  - intros key Hk. rewrite Ha. auto.
Qed.

(** Instances do not read the rest of the state. *)
Lemma instanced_ext rs m m' :
  order m = order m' → byKey m = byKey m' → optional m = optional m' →
  instanced rs m → instanced rs m'.
Proof. intros E1 E2 E3 []. split; rewrite <-?E1, <-?E2, <-?E3; done. Qed.

Lemma ssh_first n a :
  DecodeCapabilityConfig decode_ssh_agent zero_ssh_agent n = Ok a →
  (∀ ns, signs a ns ↔ ∃ n' b, n' ∈ [n] ∧
     DecodeCapabilityConfig decode_ssh_agent zero_ssh_agent n' = Ok b ∧ signs b ns) ∧
  (∀ d, authenticates a d ↔ ∃ n' b, n' ∈ [n] ∧
     DecodeCapabilityConfig decode_ssh_agent zero_ssh_agent n' = Ok b ∧ authenticates b d).
Proof.
  intros Hd. split; intros x.
  - split; [intros H; exists n, a; split; [by left|done]|].
    intros (n' & b & ->%list_elem_of_singleton & Hb & H). congruence.
  - split; [intros H; exists n, a; split; [by left|done]|].
    intros (n' & b & ->%list_elem_of_singleton & Hb & H). congruence.
Qed.

Lemma reconciles_first n key :
  is_instance n = true → key_of n = Some key → well_stated [n] → reconciles n [n].
Proof.
  intros Hi Hk Hw. unfold reconciles. split; [done|]. split; [done|].
  repeat case_bool_decide; try done.
  destruct (DecodeCapabilityConfig decode_ssh_agent zero_ssh_agent n) as [a|] eqn:E.
  - exists a. split; [done|]. split; [|by apply ssh_first].
    by eapply Hw; [left| |].
  - unfold key_of, instanceKey in Hk. rewrite bool_decide_eq_false_2 in Hk by done.
    rewrite bool_decide_eq_true_2 in Hk by done. unfold decodeForMerge in Hk. by rewrite E in Hk.
Qed.

Lemma well_stated_app rs rs' : well_stated (rs ++ rs') ↔ well_stated rs ∧ well_stated rs'.
Proof. unfold well_stated. setoid_rewrite elem_of_app. naive_solver. Qed.

Lemma well_stated_asking key rs : well_stated rs → well_stated (asking key rs).
Proof. intros H n [Hn _]%elem_of_filter_bool. by apply H. Qed.

Lemma asking_type key rs n n' :
  well_stated rs → n ∈ asking key rs → n' ∈ asking key rs → Type_ n = Type_ n'.
Proof.
  intros Hw [Hn [_ Hk]%has_key_spec]%elem_of_filter_bool [Hn' [_ Hk']%has_key_spec]%elem_of_filter_bool.
  transitivity ((cut "000" key).1.1); [symmetry|]; eapply key_of_type; try done; by apply Hw.
Qed.

(** A request under a new key. *)
Lemma instanced_new rs m ref n key :
  instanced rs m → well_stated (rs ++ [n]) → is_instance n = true → key_of n = Some key →
  byKey m !! key = None →
  instanced (rs ++ [n]) (set_instances (order m ++ [key]) (<[key := mkKeyed ref n]> (byKey m))
    (<[key := Optional n]> (optional m)) m).
Proof.
  intros I Hw Hi Hk Hn. pose proof I as [H1 H2 H3 H4 H5 H6].
  assert (key ∉ order m) as Hno by (rewrite H2, Hn; by intros [? ?]).
  assert (asking key rs = []) as Hnil.
  { destruct (asking key rs) eqn:E; [done|]. destruct Hno. apply H3. by rewrite E. }
  assert (∀ key', asking key' (rs ++ [n]) = if decide (key' = key) then [n] else asking key' rs) as Ha.
  { intros key'. rewrite asking_snoc. destruct (has_key key' n) eqn:E.
    - apply has_key_spec in E as [_ E]. rewrite Hk in E. injection E as <-.
      by rewrite decide_True, Hnil.
    - rewrite app_nil_r. destruct (decide _) as [->|]; [|done].
      assert (has_key key n = true) by (by apply has_key_spec). congruence. }
  split; cbn [order byKey optional set_instances].
  - apply NoDup_app. split; [done|]. split; [|apply NoDup_singleton].
    intros x Hx ->%list_elem_of_singleton. done.
  - intros key'. rewrite elem_of_app, list_elem_of_singleton. destruct (decide (key' = key)) as [->|Hne].
    + rewrite lookup_insert_eq. split; [by eexists|by right].
    + rewrite lookup_insert_ne by done. rewrite H2. naive_solver.
  - intros key'. rewrite Ha, elem_of_app, list_elem_of_singleton, H3.
    destruct (decide _) as [->|Hne]; [|naive_solver]. split; [done|by right].
  - intros n' [Hn'| ->%list_elem_of_singleton]%elem_of_app Hi'; [auto|by exists key].
  - intros key' e He. rewrite Ha. destruct (decide _) as [->|Hne].
    + rewrite lookup_insert_eq in He. injection He as <-. cbn. eapply reconciles_first; try done.
      by apply well_stated_app in Hw as [_ ?].
    + rewrite lookup_insert_ne in He by done. auto.
  - intros key'. rewrite elem_of_app, list_elem_of_singleton, Ha.
    destruct (decide (key' = key)) as [->|Hne].
    + intros _. rewrite lookup_insert_eq. cbn. by rewrite andb_true_r.
    + rewrite lookup_insert_ne by done. intros [?|?]; [auto|done].
Qed.

Lemma require_key_lookup n key o key' :
  require_key n key o !! key' =
  if decide (key' = key) then (if Optional n then o !! key else Some false) else o !! key'.
Proof.
  unfold require_key. destruct (Optional n); cbn [negb]; destruct (decide _) as [->|Hne]; try done.
  - apply lookup_insert_eq.
  - by apply lookup_insert_ne.
Qed.

(** A request under a known key, whose entry becomes [c]. *)
Lemma instanced_again rs m ref n key e c :
  instanced rs m → is_instance n = true → key_of n = Some key →
  byKey m !! key = Some e → reconciles c (asking key rs ++ [n]) →
  instanced (rs ++ [n]) (set_instances (order m) (<[key := mkKeyed ref c]> (byKey m))
    (require_key n key (optional m)) m).
Proof.
  intros I Hi Hk He Hr. pose proof I as [H1 H2 H3 H4 H5 H6].
  assert (key ∈ order m) as Hin by (apply H2; by eexists).
  assert (∀ key', asking key' (rs ++ [n]) =
    if decide (key' = key) then asking key rs ++ [n] else asking key' rs) as Ha.
  { intros key'. rewrite asking_snoc. destruct (has_key key' n) eqn:E.
    - apply has_key_spec in E as [_ E]. rewrite Hk in E. injection E as <-. by rewrite decide_True.
    - rewrite app_nil_r. destruct (decide _) as [->|]; [|done].
      assert (has_key key n = true) by (by apply has_key_spec). congruence. }
  split; cbn [order byKey optional set_instances].
  - done.
  - intros key'. rewrite H2. destruct (decide (key' = key)) as [->|Hne].
    + rewrite lookup_insert_eq, He. split; intros _; by eexists.
    + by rewrite lookup_insert_ne.
  - intros key'. rewrite Ha, H3. destruct (decide _) as [->|Hne]; [|done].
    apply H3 in Hin. split; intros _; [by destruct (asking key rs)|done].
  - intros n' [Hn'| ->%list_elem_of_singleton]%elem_of_app Hi'; [auto|by exists key].
  - intros key' e' He'. rewrite Ha. destruct (decide _) as [->|Hne].
    + rewrite lookup_insert_eq in He'. by injection He' as <-.
    + rewrite lookup_insert_ne in He' by done. auto.
  - intros key' Hk'. rewrite Ha, require_key_lookup. destruct (decide _) as [->|Hne]; [|auto].
    rewrite (H6 key Hin), forallb_app. cbn. rewrite andb_true_r.
    destruct (Optional n); [by rewrite andb_true_r|by rewrite andb_false_r].
Qed.

Lemma set_config_fields c v :
  Type_ (CapabilityWithConfig c v) = Type_ c ∧ Group (CapabilityWithConfig c v) = Group c.
Proof. done. Qed.

(** The entry [add_again] keeps reconciles one request more. *)
Lemma reconciles_ssh c n l a b :
  reconciles c l → Type_ c = CapabilitySSHAgent → Type_ n = CapabilitySSHAgent →
  DecodeCapabilityConfig decode_ssh_agent zero_ssh_agent c = Ok a →
  DecodeCapabilityConfig decode_ssh_agent zero_ssh_agent n = Ok b → valid_ssh_agent b →
  reconciles (name_if_unnamed (Name n)
    (CapabilityWithConfig c (encode_ssh_agent (mergeSSHAgents a b)))) (l ++ [n]).
Proof.
  intros Hr Ec En Ha Hb Hv. unfold reconciles in *. destruct l as [|n0 rest]; [done|]. cbn [app].
  destruct Hr as (Et & Hf & Hr). rewrite <-Et, Ec in Hr. rewrite <-Et, Ec.
  rewrite bool_decide_eq_false_2 in Hr by done. rewrite bool_decide_eq_true_2 in Hr by done.
  rewrite bool_decide_eq_false_2 by done. rewrite bool_decide_eq_true_2 by done.
  destruct Hr as (a' & Ha' & Hva & Hs & Hu). assert (a' = a) as -> by congruence.
  set (c' := CapabilityWithConfig c _).
  destruct (name_if_unnamed_fields (Name n) c') as (Et' & Ec' & _).
  split; [by rewrite Et'|]. split.
  { apply Forall_app. split; [|by apply Forall_singleton].
    eapply Forall_impl; [exact Hf|]. intros x Hx. congruence. }
  pose proof (mergeSSHAgents_valid a b Hva Hv) as Hvm.
  pose proof (CapabilityWithConfig_decode c (mergeSSHAgents a b) Hvm) as Hd.
  exists (mergeSSHAgents a b). split; [by eapply DecodeCapabilityConfig_config; [|exact Hd]|].
  split; [done|]. destruct (mergeSSHAgents_exact a b) as (Hms & Hmu & _).
  split; intros x; [rewrite Hms, Hs|rewrite Hmu, Hu].
  all: change (n0 :: rest ++ [n]) with ((n0 :: rest) ++ [n]).
  all: setoid_rewrite elem_of_app; setoid_rewrite list_elem_of_singleton; split;
    [intros [(n' & b' & ? & ?)|?]; [by exists n', b'; eauto|by exists n, b; eauto]|
     intros (n' & b' & [Hin| ->] & Hb' & ?); [left; eauto|right; congruence]].
Qed.

Lemma reconciles_same c n l :
  reconciles c l → Type_ n ≠ CapabilityCredential → Type_ n ≠ CapabilitySSHAgent →
  sameRequest c n = true → reconciles (name_if_unnamed (Name n) c) (l ++ [n]).
Proof.
  intros Hr Hc Hs Hsame. unfold reconciles in *. destruct l as [|n0 rest]; [done|]. cbn [app].
  destruct Hr as (Et & Hf & Hr).
  assert (Type_ c = Type_ n) as En.
  { unfold sameRequest in Hsame. by case_bool_decide. }
  destruct (name_if_unnamed_fields (Name n) c) as (Et' & Ec' & _).
  rewrite <-Et, En in Hr. rewrite <-Et, En.
  rewrite !bool_decide_eq_false_2 in Hr by done. rewrite !bool_decide_eq_false_2 by done.
  destruct Hr as [Hcfg Hall]. split; [congruence|]. split.
  { apply Forall_app. split; [|by apply Forall_singleton]. eapply Forall_impl; [exact Hf|]. congruence. }
  split; [congruence|]. apply Forall_app. split; [done|]. apply Forall_singleton.
  by rewrite <-(sameRequest_config c n0 n Et Hcfg).
Qed.

Lemma add_instance_instanced rs m ref n m' :
  instanced rs m → well_stated (rs ++ [n]) → is_instance n = true →
  add_instance ref n m = Ok m' → instanced (rs ++ [n]) m'.
Proof.
  intros I Hw Hi H. unfold add_instance in H. apply result_bind_Ok in H as (key & Hk & H).
  apply instanceKey_ref in Hk. destruct (byKey m !! key) as [e|] eqn:He.
  2: { injection H as <-. by apply instanced_new. }
  pose proof (instanced_entry _ _ I key e He) as Hr.
  assert (Type_ n = Type_ (keyed_capability e)) as Et.
  { unfold reconciles in Hr. destruct (asking key rs) as [|n0 rest] eqn:Ea; [done|].
    destruct Hr as [Hr _]. rewrite Hr.
    apply (asking_type key (rs ++ [n])); [done| |].
    - apply elem_of_filter_bool. split; [apply elem_of_app; right; by left|by apply has_key_spec].
    - rewrite asking_snoc, Ea. by left. }
  unfold add_again in H. case_bool_decide as Hc; [done|]. case_bool_decide as Hs.
  - apply result_bind_Ok in H as (a & Ha%decodeForMerge_Ok & H).
    apply result_bind_Ok in H as (b & Hb%decodeForMerge_Ok & [= <-]).
    eapply instanced_again; try done. eapply reconciles_ssh; try done; [congruence|].
    eapply (Hw n); [apply elem_of_app; right; by left|done|done].
  - destruct (sameRequest _ n) eqn:Es; [|done]. injection H as <-.
    eapply instanced_again; try done. by apply reconciles_same.
Qed.

(** ** The state after every contribution *)

Lemma add_instance_others ref n m m' :
  add_instance ref n m = Ok m' →
  network m' = network m ∧ lifecycle m' = lifecycle m ∧ context m' = context m ∧
  resources m' = resources m ∧ sessions m' = sessions m.
Proof.
  intros H. unfold add_instance in H. apply result_bind_Ok in H as (key & _ & H).
  destruct (byKey m !! key) as [e|]; [|by injection H as <-].
  unfold add_again in H. case_bool_decide; [done|]. case_bool_decide.
  - apply result_bind_Ok in H as (a & _ & H). apply result_bind_Ok in H as (b & _ & [= <-]). done.
  - destruct (sameRequest _ _); [|done]. by injection H as <-.
Qed.

(** Which of the tests a type passes. *)
Lemma folded_type typ n :
  Type_ n = typ → typ ∈ folded_types → is_instance n = false.
Proof.
  intros Ht H. unfold is_instance. by rewrite Ht, bool_decide_eq_true_2.
Qed.
Lemma instance_types n :
  is_instance n = true →
  is_network n = false ∧ ∀ typ, typ ∈ folded_types → is_type typ n = false.
Proof.
  unfold is_instance. rewrite negb_true_iff, bool_decide_eq_false. intros H. split.
  - apply not_true_iff_false. rewrite is_network_spec. unfold folded_types in H. intros [E|E];
      rewrite E in H; apply H; by apply (bool_decide_unpack _).
  - intros typ Ht. unfold is_type. apply bool_decide_eq_false_2. intros E. by rewrite E in H.
Qed.

Lemma folded_type_dec typ : typ ∈ folded_types ↔ existsb (λ t, bool_decide (t = typ)) folded_types = true.
Proof.
  rewrite existsb_Exists. split.
  - intros H. exists typ. split; [done|]. by rewrite bool_decide_eq_true.
  - intros (t & Ht & E). apply bool_decide_eq_true in E. by subst.
Qed.

Lemma folded_snoc rs m n :
  folded rs m → is_network n = false → (∀ typ, typ ∈ folded_types → is_type typ n = false) →
  folded (rs ++ [n]) m.
Proof.
  intros [] Hn Ht. split; try done.
  - by rewrite filter_snoc, Hn, app_nil_r.
  - rewrite filter_snoc, Ht, app_nil_r by (apply folded_type_dec; by vm_compute). done.
  - rewrite filter_snoc, Ht, app_nil_r by (apply folded_type_dec; by vm_compute). done.
  - apply sole_slot_other; [|done]. apply Ht, folded_type_dec. by vm_compute.
  - apply sole_slot_other; [|done]. apply Ht, folded_type_dec. by vm_compute.
Qed.

(** A request of one folded type leaves the records of the others alone. *)
Lemma is_type_other typ typ' n : Type_ n = typ → typ ≠ typ' → is_type typ' n = false.
Proof. intros Ht H. unfold is_type. rewrite Ht. by apply bool_decide_eq_false_2. Qed.
Lemma is_type_same typ n : Type_ n = typ → is_type typ n = true.
Proof. intros Ht. unfold is_type. rewrite Ht. by apply bool_decide_eq_true_2. Qed.
Lemma is_network_other n :
  Type_ n ≠ CapabilityNetworkPolicy → Type_ n ≠ CapabilityNetworkPolicyV2 → is_network n = false.
Proof. intros H1 H2. apply not_true_iff_false. rewrite is_network_spec. tauto. Qed.
Lemma network_not_type n typ :
  is_network n = true → typ ≠ CapabilityNetworkPolicy → typ ≠ CapabilityNetworkPolicyV2 →
  is_type typ n = false.
Proof.
  rewrite is_network_spec. intros H H1 H2. apply bool_decide_eq_false_2. destruct H; congruence.
Qed.

(** The entries kept under the keys stay of instance types. *)
Lemma add_instance_types m ref n m' :
  is_instance n = true → add_instance ref n m = Ok m' →
  (∀ k e, byKey m !! k = Some e → is_instance (keyed_capability e) = true) →
  ∀ k e, byKey m' !! k = Some e → is_instance (keyed_capability e) = true.
Proof.
  intros Hi Hm F6 key e He. unfold add_instance in Hm. apply result_bind_Ok in Hm as (key0 & _ & Hm).
  destruct (byKey m !! key0) as [e0|] eqn:He0.
  - assert (∀ c, is_instance c = true → byKey m' = <[key0 := mkKeyed (keyed_reference e0) c]> (byKey m) →
      is_instance (keyed_capability e) = true) as Hins.
    { intros c Hc E. rewrite E in He. destruct (decide (key = key0)) as [->|Hne].
      - rewrite lookup_insert_eq in He. by injection He as <-.
      - rewrite lookup_insert_ne in He by done. by eapply F6. }
    assert (∀ c, Type_ c = Type_ (keyed_capability e0) → is_instance c = true) as Hty.
    { intros c Ec. unfold is_instance. rewrite Ec. by apply (F6 key0 e0). }
    unfold add_again in Hm. case_bool_decide; [done|]. case_bool_decide.
    + apply result_bind_Ok in Hm as (a & _ & Hm). apply result_bind_Ok in Hm as (b & _ & [= <-]).
      eapply Hins; [|reflexivity]. apply Hty. etrans; [apply name_if_unnamed_fields|done].
    + destruct (sameRequest _ _); [|done]. injection Hm as <-.
      eapply Hins; [|reflexivity]. apply Hty. etrans; [apply name_if_unnamed_fields|done].
  - injection Hm as <-. cbn in He. destruct (decide (key = key0)) as [->|Hne].
    + rewrite lookup_insert_eq in He. by injection He as <-.
    + rewrite lookup_insert_ne in He by done. by eapply F6.
Qed.

Lemma add_request_folded rs m ref n m' :
  folded rs m → add_request ref n m = Ok m' → folded (rs ++ [n]) m'.
Proof.
  intros F H. apply add_request_added in H. pose proof F as [F1 F2 F3 F4 F5 F6].
  destruct H as [p Hn Hp|l Ht Hd|a Ht Hd|k Ht Hk|k Ht Hk|m' Hi Hm].
  - split; cbn [network lifecycle context resources sessions byKey add_network];
      rewrite ?filter_snoc, ?Hn, ?(network_not_type n CapabilityLifecycle Hn),
        ?(network_not_type n CapabilityAgentContext Hn), ?app_nil_r by done; try done.
    + apply Forall2_app; [done|]. constructor; [|constructor]. by repeat split.
    + apply sole_slot_other; [by apply network_not_type|done].
    + apply sole_slot_other; [by apply network_not_type|done].
  - assert (is_network n = false) as Hn by (apply is_network_other; by rewrite Ht).
    split; cbn [network lifecycle context resources sessions byKey add_lifecycle];
      rewrite ?filter_snoc, ?Hn, ?(is_type_same _ n Ht),
        ?(is_type_other _ CapabilityAgentContext n Ht), ?app_nil_r by done; try done.
    + apply Forall2_app; [done|]. by constructor; [|constructor].
    + by apply sole_slot_other; [apply (is_type_other _ _ n Ht)|].
    + by apply sole_slot_other; [apply (is_type_other _ _ n Ht)|].
  - assert (is_network n = false) as Hn by (apply is_network_other; by rewrite Ht).
    split; cbn [network lifecycle context resources sessions byKey set_context];
      rewrite ?filter_snoc, ?Hn, ?(is_type_same _ n Ht),
        ?(is_type_other _ CapabilityLifecycle n Ht), ?app_nil_r by done; try done.
    + apply Forall2_app; [done|]. by constructor; [|constructor].
    + by apply sole_slot_other; [apply (is_type_other _ _ n Ht)|].
    + by apply sole_slot_other; [apply (is_type_other _ _ n Ht)|].
  - assert (is_network n = false) as Hn by (apply is_network_other; by rewrite Ht).
    split; cbn [network lifecycle context resources sessions byKey set_resources];
      rewrite ?filter_snoc, ?Hn, ?(is_type_other _ CapabilityLifecycle n Ht),
        ?(is_type_other _ CapabilityAgentContext n Ht), ?app_nil_r by done; try done.
    + by eapply mergeSole_slot; [apply is_type_same| |].
    + by apply sole_slot_other; [apply (is_type_other _ _ n Ht)|].
  - assert (is_network n = false) as Hn by (apply is_network_other; by rewrite Ht).
    split; cbn [network lifecycle context resources sessions byKey set_sessions];
      rewrite ?filter_snoc, ?Hn, ?(is_type_other _ CapabilityLifecycle n Ht),
        ?(is_type_other _ CapabilityAgentContext n Ht), ?app_nil_r by done; try done.
    + by apply sole_slot_other; [apply (is_type_other _ _ n Ht)|].
    + by eapply mergeSole_slot; [apply is_type_same| |].
  - destruct (instance_types n Hi) as [Hn Ht].
    pose proof (add_instance_others _ _ _ _ Hm) as (E1 & E2 & E3 & E4 & E5).
    destruct (folded_snoc rs m n F Hn Ht) as [G1 G2 G3 G4 G5 _].
    split; rewrite ?E1, ?E2, ?E3, ?E4, ?E5; try done.
    by eapply add_instance_types.
Qed.

Lemma attribute_context_asks rs ref l :
  Forall2 ctx_ask rs l → Forall2 ctx_ask rs (attribute_context ref l).
Proof.
  intros H. unfold attribute_context. destruct (last l) as [a|] eqn:E; [|done].
  apply last_Some in E as [l' ->]. rewrite length_app, Nat.add_comm. cbn [length Nat.add pred].
  rewrite take_app_length. apply Forall2_app_inv_r in H as (r1 & r2 & H1 & H2 & ->).
  apply Forall2_app; [done|]. inversion H2 as [|n ? l2 ? [Hd Ho] Hnil]; subst.
  inversion Hnil; subst. by constructor; [split|constructor].
Qed.

Lemma folded_attribute rs m ref :
  folded rs m → folded rs (set_context (attribute_context ref (context m)) m).
Proof. intros []. split; cbn; try done. by apply attribute_context_asks. Qed.

Lemma folded_empty : folded [] empty_merge.
Proof.
  split; try done; constructor.
Qed.
Lemma instanced_empty : instanced [] empty_merge.
Proof.
  split; cbn.
  - constructor.
  - intros key. rewrite lookup_empty. split; [by inversion 1|by intros [? ?]].
  - intros key. split; [by inversion 1|done].
  - intros n H. by inversion H.
  - intros key e. by rewrite lookup_empty.
  - intros key H. by inversion H.
Qed.

Lemma merged_state cs m :
  add_contributions cs empty_merge = Ok m →
  folded (requests cs) m ∧ (well_stated (requests cs) → instanced (requests cs) m).
Proof.
  intros H.
  apply (add_contributions_ind (λ rs m, folded rs m ∧ (well_stated rs → instanced rs m))
    ) with (rs := []) in H; [done| | |].
  - intros rs m0 ref n m1 [F I] Hm. split; [by eapply add_request_folded|]. intros Hw.
    pose proof Hw as [Hwr _]%well_stated_app. specialize (I Hwr).
    destruct (is_instance n) eqn:Hi.
    + apply add_request_added in Hm. destruct Hm as [p Hn _|l Ht _|a Ht _|k Ht _|k Ht _|m1 _ Hm].
      6: by eapply add_instance_instanced.
      1: by apply instance_types in Hi as [? _]; congruence.
      all: exfalso; erewrite folded_type in Hi; [done|exact Ht|apply folded_type_dec; by vm_compute].
    + apply add_request_added in Hm.
      apply (instanced_not_instance _ _ _ Hi) in I.
      destruct Hm; try by eapply instanced_ext; [..|exact I]. congruence.
  - intros rs m0 ref [F I]. split; [by apply folded_attribute|]. intros Hw.
    by eapply instanced_ext; [..|exact (I Hw)].
  - split; [apply folded_empty|]. intros _. apply instanced_empty.
Qed.

Lemma Compose_inv cs d :
  Compose cs = Ok d →
  ∃ kind m net life ctx sources,
    cs ≠ [] ∧ Forall (λ c, is_Some (Contribution_Descriptor c)) cs ∧ derivedKind cs = Ok kind ∧
    add_contributions cs empty_merge = Ok m ∧
    mergedNetwork (network m) = Ok net ∧ mergedLifecycle (lifecycle m) = Ok life ∧
    mergedContext (context m) = Ok (ctx, sources) ∧
    d = with_capabilities (map (set_source None)
          (some_list net ++ instances m ++ some_list (option_map keyed_capability (resources m)) ++
           some_list (option_map keyed_capability (sessions m)) ++ some_list life ++ some_list ctx))
          (mergeLicenses cs (mergeRelations cs (merged_base kind))).
Proof.
  unfold Compose, mergeDeclarations. intros (r & Hr & [= <-])%result_bind_Ok.
  case_bool_decide as Hne; [done|]. destruct (List.find _ cs) as [c|] eqn:Ef; [done|].
  apply result_bind_Ok in Hr as (kind & Hk & Hr).
  apply result_bind_Ok in Hr as ([caps sources] & Hc & [= <-]).
  unfold mergeCapabilities in Hc. apply result_bind_Ok in Hc as (m & Hm & Hf). unfold finish in Hf.
  apply result_bind_Ok in Hf as (net & Hn & Hf). apply result_bind_Ok in Hf as (life & Hl & Hf).
  apply result_bind_Ok in Hf as ([ctx src] & Hx & [= <- <-]).
  exists kind, m, net, life, ctx, src. split; [done|]. split; [|done].
  apply Forall_forall. intros c Hc. pose proof (List.find_none _ _ Ef c) as H.
  rewrite <-list_elem_of_In in H. specialize (H Hc). by apply negb_false_iff, bool_decide_eq_true in H.
Qed.

(** ** Properties *)

(** *** Network *)

Definition asked_policy (n : Capability) : option PhasedNetworkV2 :=
  if is_network n then match NetworkPolicyV2Of [n] with Ok p => p | Err _ => None end else None.
Definition asked_policies (cs : list Contribution) : list PhasedNetworkV2 :=
  omap asked_policy (declared cs).

Lemma network_policy_some n p : is_network n = true → NetworkPolicyV2Of [n] = Ok p → is_Some p.
Proof.
  intros Hn H. apply is_network_spec in Hn. cbn in H. case_bool_decide.
  - apply result_bind_Ok in H as (q & _ & [= <-]). by eexists.
  - rewrite bool_decide_eq_true_2 in H by naive_solver.
    apply result_bind_Ok in H as (q & _ & [= <-]). by eexists.
Qed.

Lemma lifted_unbounded r e :
  (∃ q, liftNetworkRules r = Some q ∧ (e ∈ AllowV2 q ∨ e ∈ DenyV2 q)) → NetworkEntry_Bounded e = false.
Proof.
  intros (q & Hq & He). destruct r as [[a b]|]; [|done]. injection Hq as <-. cbn in He.
  unfold hostEntries in He. by destruct He as [[h [-> _]]%list_elem_of_fmap|[h [-> _]]%list_elem_of_fmap].
Qed.

Lemma v1_unbounded n p :
  is_network n = true → is_type CapabilityNetworkPolicyV2 n = false →
  NetworkPolicyV2Of [n] = Ok (Some p) →
  Forall (λ e, NetworkEntry_Bounded e = false) (policy_entries p).
Proof.
  intros Hn H2 H. apply is_network_spec in Hn. unfold is_type in H2. apply bool_decide_eq_false in H2.
  cbn in H. rewrite bool_decide_eq_false_2 in H by done.
  rewrite bool_decide_eq_true_2 in H by naive_solver.
  apply result_bind_Ok in H as (q & _ & [= <-]). apply Forall_forall.
  intros e [ph He]%policy_entries_elem. unfold allow_of, deny_of in He.
  assert (∀ r, e ∈ match liftNetworkRules r with Some r => AllowV2 r | None => [] end ∨
               e ∈ match liftNetworkRules r with Some r => DenyV2 r | None => [] end →
               NetworkEntry_Bounded e = false) as Hr.
  { intros r H. destruct (liftNetworkRules r) as [r'|] eqn:E.
    - apply (lifted_unbounded r). by exists r'.
    - by destruct H as [H|H]; inversion H. }
  by destruct ph; apply Hr in He.
Qed.

(** The asks of the state are the policies asked for. *)
Lemma network_asks rs asks :
  Forall2 net_ask (List.filter is_network rs) asks → map ask_policy asks = omap asked_policy rs.
Proof.
  revert asks. induction rs as [|n rs IH]; intros asks H; [by inversion H|].
  cbn [List.filter] in H. cbn [omap list_omap]. unfold asked_policy at 1.
  destruct (is_network n) eqn:Hn; [|by apply IH].
  inversion H as [|? a ? asks' (Hp & _) Hrest]; subst. rewrite Hp.
  destruct (network_policy_some n _ Hn Hp) as [p E]. rewrite E. cbn. f_equal; [|by apply IH].
  unfold ask_policy. by rewrite E.
Qed.

Lemma network_asks_sound rs asks :
  Forall2 net_ask (List.filter is_network rs) asks →
  Forall (λ p, Forall (λ e, Hosts e ≠ None) (policy_entries p)) (omap asked_policy rs) →
  Forall sound_ask asks.
Proof.
  intros H Hs. rewrite <-(network_asks rs asks H) in Hs. apply Forall_forall. intros a Ha. split.
  - rewrite Forall_forall in Hs. apply Hs, (list_elem_of_fmap_2 ask_policy), Ha.
  - intros E2. apply list_elem_of_lookup in Ha as [i Hi].
    destruct (Forall2_lookup_r _ _ _ _ _ H Hi) as (n & Hn & Hp & Hv & _).
    apply list_elem_of_lookup_2, elem_of_filter_bool in Hn as [_ Hn].
    destruct (network_policy_some n _ Hn Hp) as [p Ep].
    unfold ask_policy. rewrite Ep in *. cbn. eapply v1_unbounded; [done| |done]. by rewrite <-Hv.
Qed.

Lemma NetworkPolicyV2Of_none l :
  Forall (λ c, is_network c = false) l → NetworkPolicyV2Of (map (set_source None) l) = Ok None.
Proof.
  induction 1 as [|c l Hc _ IH]; [done|]. cbn [map]. by rewrite NetworkPolicyV2Of_source, Hc.
Qed.

Lemma merged_entry_not_network typ v name o :
  typ ≠ CapabilityNetworkPolicy → typ ≠ CapabilityNetworkPolicyV2 →
  is_network (merged_entry typ v name o) = false.
Proof. intros H1 H2. by apply is_network_other. Qed.

Lemma mergedLifecycle_type asks c : mergedLifecycle asks = Ok (Some c) → Type_ c = CapabilityLifecycle.
Proof. destruct asks; [done|]. intros (st & _ & [= <-])%result_bind_Ok. done. Qed.
Lemma mergedContext_type asks c s :
  mergedContext asks = Ok (Some c, s) → Type_ c = CapabilityAgentContext.
Proof.
  destruct asks; [done|]. intros (f & _ & H)%result_bind_Ok. cbv zeta in H.
  destruct (bool_decide (f = "") && _); [done|].
  by injection H as <- _.
Qed.

Lemma instances_elem m c :
  c ∈ instances m ↔ ∃ key e, key ∈ order m ∧ byKey m !! key = Some e ∧
    c = set_optional (default false (optional m !! key)) (keyed_capability e).
Proof.
  unfold instances. rewrite list_elem_of_omap. split.
  - intros (key & Hk & H). destruct (byKey m !! key) as [e|] eqn:E; [|done]. injection H as <-. eauto.
  - intros (key & e & Hk & He & ->). exists key. split; [done|]. by rewrite He.
Qed.

(** Everything behind the network entry. *)
Lemma rest_not_network rs m life ctx sources :
  folded rs m → mergedLifecycle (lifecycle m) = Ok life → mergedContext (context m) = Ok (ctx, sources) →
  Forall (λ c, is_network c = false)
    (instances m ++ some_list (option_map keyed_capability (resources m)) ++
     some_list (option_map keyed_capability (sessions m)) ++ some_list life ++ some_list ctx).
Proof.
  intros [_ _ _ F4 F5 F6] Hl Hc. rewrite !Forall_app. repeat split.
  - apply Forall_forall. intros c (key & e & _ & He & ->)%instances_elem.
    apply instance_types. by apply (F6 key e).
  - destruct (resources m) as [k|]; [|constructor]. destruct F4 as [Ht _].
    apply Forall_singleton, is_network_other; apply bool_decide_eq_true in Ht; by rewrite Ht.
  - destruct (sessions m) as [k|]; [|constructor]. destruct F5 as [Ht _].
    apply Forall_singleton, is_network_other; apply bool_decide_eq_true in Ht; by rewrite Ht.
  - destruct life as [c|]; [|constructor]. apply mergedLifecycle_type in Hl.
    apply Forall_singleton, is_network_other; by rewrite Hl.
  - destruct ctx as [c|]; [|constructor]. apply mergedContext_type in Hc.
    apply Forall_singleton, is_network_other; by rewrite Hc.
Qed.

(** C9: the composed network policy is the union of the policies asked for:
    under any matching of paths, in each phase it allows exactly the connections
    and HTTP requests some kit's policy allows and refuses exactly those some
    kit's policy refuses, whichever versions the kits wrote; with no policy asked
    for there is none. *)
Theorem compose_network_union covers cs d :
  Compose cs = Ok d →
  Forall (λ p, Forall (λ e, Hosts e ≠ None) (policy_entries p)) (asked_policies cs) →
  (asked_policies cs = [] → NetworkPolicyV2Of (Capabilities d) = Ok None) ∧
  (asked_policies cs ≠ [] → ∃ p, NetworkPolicyV2Of (Capabilities d) = Ok (Some p) ∧
     unites covers p (asked_policies cs)).
Proof.
  intros (kind & m & net & life & ctx & sources & _ & _ & _ & Hm & Hn & Hl & Hc & ->)%Compose_inv Hs.
  apply merged_state in Hm as [F _]. pose proof (folded_network _ _ F) as Fn.
  rewrite requests_unsplit in Fn by apply unsplit_network.
  pose proof (network_asks _ _ Fn) as E. pose proof (network_asks_sound _ _ Fn Hs) as Hsound.
  unfold asked_policies in *. rewrite <-E. cbn [Capabilities with_capabilities].
  rewrite map_app. pose proof (NetworkPolicyV2Of_none _ (rest_not_network _ _ _ _ _ F Hl Hc)) as Hrest.
  destruct net as [c|]; cbn [some_list map app].
  - destruct (mergedNetwork_unites covers _ None c Hsound Hn) as [Hnet (p & Hp & Hu)].
    rewrite NetworkPolicyV2Of_source in *. rewrite Hnet in *. split; [|by eauto].
    intros Hnil. destruct (network m); [|done]. done.
  - rewrite Hrest. split; [done|]. intros Hne. destruct (network m); [done|].
    apply result_bind_Ok in Hn as (? & _ & ?). done.
Qed.

Definition sample_contribution (ref kind : string) (cs : list Capability) : Contribution :=
  mkContribution ref (Some (with_capabilities cs (merged_base kind))).
Definition sample_policy (typ : string) (allow : list value) (o : bool) : Capability :=
  set_optional o (capability_of typ (Some [("runtime", VMap [("allow", VList allow)])])).
Definition sample_contributions : list Contribution :=
  [sample_contribution "app" KindWorkload
     [sample_policy CapabilityNetworkPolicy [VStr "api.example.com"] false;
      capability_of CapabilitySSHAgent (Some [("phase", VStr "runtime"); ("sign", VList [VStr "git"]);
        ("unrestricted", VBool false)])];
   sample_contribution "tool" KindMixin
     [sample_policy CapabilityNetworkPolicyV2
        [VMap [("hosts", VList [VStr "api.example.com"; VStr "cdn.example.com"]);
               ("methods", VList [VStr "GET"])]] true;
      capability_of CapabilitySSHAgent (Some [("phase", VList [VStr "install"; VStr "runtime"]);
        ("authenticate", VList [VStr "git@github.com"]); ("unrestricted", VBool false)])]].

Lemma compose_network_union_witness :
  ∃ d p, Compose sample_contributions = Ok d ∧ NetworkPolicyV2Of (Capabilities d) = Ok (Some p) ∧
    unites (λ pat p, bool_decide (pat = p)) p (asked_policies sample_contributions).
Proof.
  destruct (Compose sample_contributions) as [d|] eqn:E; [|by vm_compute in E].
  destruct (compose_network_union (λ pat p, bool_decide (pat = p)) sample_contributions d E)
    as [_ H].
  - vm_compute. repeat constructor; discriminate.
  - destruct H as [p H]; [by vm_compute|]. by exists d, p.
Defined.

(** *** Instances *)

(** The requests of the composition that are kept under keys of their own. *)
Definition instance_entries (d : Descriptor) : list Capability :=
  List.filter is_instance (Capabilities d).

Lemma merged_entry_not_instance typ v name o :
  typ ∈ folded_types → is_instance (merged_entry typ v name o) = false.
Proof. by apply folded_type. Qed.

Lemma filter_instance_option (o : option Capability) :
  (∀ c, o = Some c → is_instance c = false) →
  List.filter is_instance (map (set_source None) (some_list o)) = [].
Proof.
  intros Ho. destruct o as [c|]; [|done]. cbn [some_list map List.filter].
  change (is_instance (set_source None c)) with (is_instance c). by rewrite (Ho c eq_refl).
Qed.

Lemma sole_slot_not_instance typ rs slot c :
  typ ∈ folded_types → sole_slot typ rs slot → option_map keyed_capability slot = Some c →
  is_instance c = false.
Proof.
  intros Ht Hs E. destruct slot as [k|]; [|done]. injection E as <-. destruct Hs as [Hk _].
  apply bool_decide_eq_true in Hk. by apply (folded_type typ).
Qed.

Lemma mergedNetwork_type asks c :
  mergedNetwork asks = Ok (Some c) →
  Type_ c = CapabilityNetworkPolicy ∨ Type_ c = CapabilityNetworkPolicyV2.
Proof.
  destruct asks as [|a asks]; [done|]. intros (v & _ & [= <-])%result_bind_Ok.
  change (Type_ (merged_entry ?typ _ _ _)) with typ.
  destruct (network_v2 a || existsb network_v2 asks); [by right|by left].
Qed.

(** A reconciled entry stays one without its source, whatever its optionality. *)
Lemma reconciles_presented c l o :
  reconciles c l → reconciles (set_source None (set_optional o c)) l.
Proof.
  unfold reconciles. destruct l as [|n rest]; [done|]. intros (Et & Hf & Hr).
  split; [done|]. split; [done|]. repeat case_bool_decide; try done.
Qed.

Lemma presented_instances rs m :
  folded rs m →
  List.filter is_instance (map (set_source None) (instances m)) = map (set_source None) (instances m).
Proof.
  intros F. assert (Forall (λ c, is_instance c = true) (map (set_source None) (instances m))) as H.
  { apply Forall_fmap, Forall_forall. intros c (key & e & _ & He & ->)%instances_elem.
    by apply (folded_instances _ _ F key e). }
  induction H as [|c l Hc _ IH]; [done|]. cbn [List.filter]. by rewrite Hc, IH.
Qed.

Lemma instances_keyed rs m :
  instanced rs m →
  Forall2 (λ key c, reconciles c (asking key rs) ∧ Optional c = forallb Optional (asking key rs))
    (order m) (map (set_source None) (instances m)).
Proof.
  intros I. unfold instances.
  assert (∀ key, key ∈ order m → is_Some (byKey m !! key) ∧
    optional m !! key = Some (forallb Optional (asking key rs))) as H.
  { intros key Hk. split; [by apply (instanced_byKey _ _ I)|by apply (instanced_optional _ _ I)]. }
  induction (order m) as [|key l IH]; [constructor|].
  destruct (H key) as [[e He] Ho]; [by left|]. cbn [omap list_omap]. rewrite He. cbn [mbind option_bind map].
  constructor; [|apply IH; intros k Hk; apply H; by right]. split; [|by rewrite Ho].
  apply reconciles_presented. by apply (instanced_entry _ _ I).
Qed.

(** C10: every request that is neither a network policy, a lifecycle, a context,
    resources nor sessions has one entry under its key and every such entry is
    someone's request: a credential's key has one owner; an SSH agent may do
    exactly what some kit asked in its phase; any other entry is the first kit's
    configuration, which the others under the key repeat; and the entry is
    optional exactly when every kit that asks for it says so. *)
Theorem compose_instances_exact cs d :
  Compose cs = Ok d → well_stated (requests cs) →
  ∃ keys, NoDup keys ∧
    (∀ key, key ∈ keys ↔ asking key (requests cs) ≠ []) ∧
    (∀ n, n ∈ requests cs → is_instance n = true → ∃ key, key_of n = Some key ∧ key ∈ keys) ∧
    Forall2 (λ key c, reconciles c (asking key (requests cs)) ∧
        Optional c = forallb Optional (asking key (requests cs)))
      keys (instance_entries d).
Proof.
  intros (kind & m & net & life & ctx & sources & _ & _ & _ & Hm & Hn & Hl & Hc & ->)%Compose_inv Hw.
  apply merged_state in Hm as [F I]. specialize (I Hw). exists (order m).
  split; [apply (instanced_NoDup _ _ I)|]. split; [apply (instanced_order _ _ I)|]. split.
  - intros n Hin Hi. destruct (instanced_keyed _ _ I n Hin Hi) as [key Hk]. exists key.
    split; [done|]. apply (instanced_order _ _ I). intros E.
    assert (n ∈ asking key (requests cs)) as H; [|rewrite E in H; by inversion H].
    apply elem_of_filter_bool. split; [done|]. by apply has_key_spec.
  - unfold instance_entries. cbn [Capabilities with_capabilities].
    rewrite !map_app, !List.filter_app, (presented_instances _ _ F).
    rewrite !filter_instance_option, app_nil_l, !app_nil_r; [by apply instances_keyed|..].
    + intros c ->. apply mergedContext_type in Hc. apply (folded_type _ _ Hc), folded_type_dec. by vm_compute.
    + intros c ->. apply mergedLifecycle_type in Hl. apply (folded_type _ _ Hl), folded_type_dec. by vm_compute.
    + intros c. eapply sole_slot_not_instance; [|apply (folded_sessions _ _ F)].
      apply folded_type_dec. by vm_compute.
    + intros c. eapply sole_slot_not_instance; [|apply (folded_resources _ _ F)].
      apply folded_type_dec. by vm_compute.
    + intros c ->. apply mergedNetwork_type in Hn as [E|E]; apply (folded_type _ _ E), folded_type_dec; by vm_compute.
Qed.

Definition well_statedb (rs : list Capability) : bool :=
  forallb (λ n, negb (contains_byte "000" (Type_ n)) &&
    (negb (is_type CapabilitySSHAgent n) ||
     match DecodeCapabilityConfig decode_ssh_agent zero_ssh_agent n with
     | Ok a => negb (bool_decide (SSHAgent_Phase a = None)) &&
               negb (bool_decide (SSHAgent_Sign a = Some [])) &&
               negb (bool_decide (SSHAgent_Authenticate a = Some []))
     | Err _ => true
     end)) rs.

Lemma well_statedb_ok rs : well_statedb rs = true → well_stated rs.
Proof.
  unfold well_statedb. rewrite forallb_Forall, Forall_forall. intros H n Hn.
  specialize (H n Hn). apply andb_true_iff in H as [H1 H2]. split; [by apply negb_true_iff|].
  intros Ht a Ha. rewrite (is_type_same _ _ Ht), Ha in H2. cbn [negb orb] in H2.
  apply andb_true_iff in H2 as [[H2 H3]%andb_true_iff H4].
  apply negb_true_iff, bool_decide_eq_false in H2, H3, H4. by split.
Qed.

Lemma compose_instances_exact_witness :
  ∃ d, Compose sample_contributions = Ok d ∧ length (instance_entries d) = 2 ∧
    ∃ keys, Forall2 (λ key c, reconciles c (asking key (requests sample_contributions)) ∧
      Optional c = forallb Optional (asking key (requests sample_contributions)))
      keys (instance_entries d).
Proof.
  destruct (Compose sample_contributions) as [d|] eqn:E; [|by vm_compute in E].
  destruct (compose_instances_exact sample_contributions d E) as (keys & _ & _ & _ & H).
  - apply well_statedb_ok. by vm_compute.
  - exists d. split; [done|]. split; [|by exists keys]. vm_compute in E. by injection E as <-.
Defined.
