(* ===== verification/MergeRelations.v ===== *)
(** What the merge of [spec/merge.go] makes of the relations between kits:
    entries the composition answers itself are dropped, the others carry over. *)
From stdpp Require Import options.
From S2P Require Import Prelude GoStrings Version Json Types Config Merge MergeFacts.

(** ** The index of provides *)

Lemma index_offer_lookup {A} (key : A → string) l m k :
  default [] (foldl (index_offer key) m l !! k) =
  default [] (m !! k) ++ List.filter (λ a, bool_decide (key a = k)) l.
Proof.
  revert m. induction l as [|a l IH]; intros m; cbn [foldl List.filter]; [by rewrite app_nil_r|].
  rewrite IH. unfold index_offer. case_bool_decide as E.
  - subst. rewrite lookup_insert_eq. cbn [default from_option id]. by rewrite <-(assoc_L (++)).
  - by rewrite lookup_insert_ne.
Qed.

(** What every contribution offers, with its owner. *)
Definition all_offers (cs : list Contribution) : list OwnedProvide :=
  flat_map (λ c, match Contribution_Descriptor c with
                 | None => []
                 | Some d => map (λ p, mkOwnedProvide p (Contribution_Reference c)) (offers d)
                 end) cs.

Lemma OwnedProvides_lookup cs k :
  default [] (OwnedProvides cs !! k) =
  List.filter (λ o, bool_decide (PName (Owned o) = k)) (all_offers cs).
Proof.
  unfold OwnedProvides, all_offers.
  assert (∀ m : gmap string (list OwnedProvide), default [] (foldl (λ m c, match Contribution_Descriptor c with
      | None => m
      | Some d => foldl (index_offer (λ o, PName (Owned o))) m
          (map (λ p, mkOwnedProvide p (Contribution_Reference c)) (offers d))
      end) m cs !! k) = default [] (m !! k) ++ List.filter (λ o, bool_decide (PName (Owned o) = k))
        (flat_map (λ c, match Contribution_Descriptor c with
                 | None => []
                 | Some d => map (λ p, mkOwnedProvide p (Contribution_Reference c)) (offers d)
                 end) cs)) as H; [|by rewrite H, lookup_empty].
  induction cs as [|c cs IH]; intros m; cbn [foldl flat_map]; [by rewrite app_nil_r|].
  rewrite IH, List.filter_app. destruct (Contribution_Descriptor c) as [d|]; [|done].
  by rewrite index_offer_lookup, (assoc_L (++)).
Qed.

(** Another contribution offers what the entry requires. *)
Definition answered_by_other (cs : list Contribution) (entry by_ : string) : Prop :=
  ∃ r c p, ParseRequire entry = Ok r ∧ c ∈ cs ∧ Contribution_Reference c ≠ by_ ∧
    p ∈ offers (cdescriptor c) ∧ PName p = RName r ∧ Satisfies p r = true.

Lemma all_offers_elem cs o :
  Forall (λ c, is_Some (Contribution_Descriptor c)) cs →
  o ∈ all_offers cs ↔ ∃ c, c ∈ cs ∧ Owner o = Contribution_Reference c ∧ Owned o ∈ offers (cdescriptor c).
Proof.
  intros Hd. rewrite Forall_forall in Hd. unfold all_offers. rewrite elem_of_flat_map. split.
  - intros (c & Hc & Ho). exists c. split; [done|]. destruct (Hd c Hc) as [d E]. rewrite E in Ho.
    apply list_elem_of_fmap in Ho as (p & -> & Hp). unfold cdescriptor. by rewrite E.
  - intros (c & Hc & Ho & Hp). exists c. split; [done|]. destruct (Hd c Hc) as [d E].
    unfold cdescriptor in Hp. rewrite E in *. apply list_elem_of_fmap. exists (Owned o).
    split; [|done]. destruct o. cbn in *. by subst.
Qed.

Lemma satisfied_spec cs entry by_ :
  Forall (λ c, is_Some (Contribution_Descriptor c)) cs →
  satisfied (OwnedProvides cs) entry by_ = true ↔ answered_by_other cs entry by_.
Proof.
  intros Hd. unfold satisfied, answered_by_other. destruct (ParseRequire entry) as [r|] eqn:E.
  - unfold SatisfiedByOther. rewrite existsb_Exists, OwnedProvides_lookup.
    setoid_rewrite elem_of_filter_bool. setoid_rewrite (all_offers_elem cs _ Hd). split.
    + intros (o & [(c & Hc & Ho & Hp) Hn] & H). apply bool_decide_eq_true in Hn.
      apply andb_true_iff in H as [Hb Hs]. apply negb_true_iff, bool_decide_eq_false in Hb.
      exists r, c, (Owned o). rewrite <-Ho. by repeat split.
    + intros (r' & c & p & [= <-] & Hc & Hb & Hp & Hn & Hs).
      exists (mkOwnedProvide p (Contribution_Reference c)). cbn.
      rewrite (bool_decide_eq_true_2 _ Hn), (bool_decide_eq_false_2 _ Hb). eauto 10.
  - split; [done|]. by intros (r & c & p & ? & _).
Qed.

Lemma unanswered_elem cs entries s :
  Forall (λ c, is_Some (Contribution_Descriptor c)) cs →
  s ∈ unanswered cs entries ↔
  ∃ c, c ∈ cs ∧ s ∈ entries (cdescriptor c) ∧ ¬ answered_by_other cs s (Contribution_Reference c).
Proof.
  intros Hd. unfold unanswered. rewrite dedupe_id_elem_of, elem_of_flat_map.
  setoid_rewrite elem_of_filter_bool. setoid_rewrite negb_true_iff.
  setoid_rewrite <-not_true_iff_false. by setoid_rewrite (satisfied_spec cs _ _ Hd).
Qed.

(** ** Properties *)

(** C11: the merged kit requires exactly what some kit of the set requires and no
    other kit of the set provides in a satisfying version — a kit's own provide
    never counts — and integrates likewise; it conflicts with whatever a kit
    conflicts with, and carries every kit's licenses, sorted; each list is free
    of duplicates. *)
Theorem compose_relations_exact cs d :
  Compose cs = Ok d →
  (∀ s, s ∈ Requires d ↔ ∃ c, c ∈ cs ∧ s ∈ Requires (cdescriptor c) ∧
     ¬ answered_by_other cs s (Contribution_Reference c)) ∧
  (∀ s, s ∈ Integrates d ↔ ∃ c, c ∈ cs ∧ s ∈ Integrates (cdescriptor c) ∧
     ¬ answered_by_other cs s (Contribution_Reference c)) ∧
  (∀ s, s ∈ Conflicts d ↔ ∃ c, c ∈ cs ∧ s ∈ Conflicts (cdescriptor c)) ∧
  (∀ s, s ∈ Licenses d ↔ ∃ c, c ∈ cs ∧ s ∈ Licenses (cdescriptor c)) ∧
  StronglySorted String.le (Licenses d) ∧
  NoDup (Requires d) ∧ NoDup (Integrates d) ∧ NoDup (Conflicts d) ∧ NoDup (Licenses d).
Proof.
  intros (kind & m & net & life & ctx & sources & _ & Hd & _ & _ & _ & _ & _ & ->)%Compose_inv.
  cbn [with_capabilities mergeLicenses mergeRelations Requires Integrates Conflicts Licenses].
  split; [intros s; by apply unanswered_elem|]. split; [intros s; by apply unanswered_elem|].
  split; [intros s; by rewrite dedupe_id_elem_of, elem_of_flat_map|].
  split; [intros s; by rewrite sort_strings_elem_of, dedupe_id_elem_of, elem_of_flat_map|].
  split; [apply sort_strings_sorted|].
  repeat split; try apply dedupe_id_NoDup. rewrite sort_strings_perm. apply dedupe_id_NoDup.
Qed.

Lemma compose_relations_exact_witness :
  let kit ref provides requires :=
    mkContribution ref (Some (mkDescriptor false SchemaVersion "" "" "" "" "" "" ["MIT"] KindMixin
      provides requires [] [] [] ∅ "" [] "" false)) in
  ∃ d, Compose [kit "a" ["node@20.1"] ["git"]; kit "b" [] ["node >= 18"]] = Ok d ∧
    "git" ∈ Requires d ∧ ¬ "node >= 18" ∈ Requires d.
Proof.
  intros kit. destruct (Compose _) as [d|] eqn:E; [|by vm_compute in E]. exists d. split; [done|].
  destruct (compose_relations_exact _ d E) as [H _].
  vm_compute in E. injection E as <-. split; [left|]. apply (bool_decide_unpack _). by vm_compute.
Defined.
