(* ===== verification/Validate.v ===== *)
(** [spec/validate.go], [spec/phases.go] and the validating halves of
    [spec/ssh_agent.go], [spec/agent_skill.go] and [spec/groups.go]: the rules a
    descriptor is held to, authored and published.

    An error is the element it is about and the rule it breaks; the wording, with
    the index of the earlier entry a duplicate repeats, is not kept.  The YAML
    library, [url.Parse], [regexp.Compile], the image reference grammar and the
    reading of float literals are the class [Documents]; where a document refers to
    an argument is read off its nodes ([Diagnostics]). *)
From stdpp Require Import options.
From S2P Require Import Prelude Diagnostics GoStrings Regex Version VersionOrder Json Types Config Marshal Surface GoPath Template Merge.

(** ** Errors *)

Inductive rule :=
  | KindUnknown (kind : string)
  | IconMalformed (icon : string)
  | VersionMalformed (cause : parse_error)
  | EntryMalformed (entry : string) (cause : parse_error)
  | NameMalformed (entry : string) (cause : name_error)
  | ArgsNotAllowed (entry : string)
  | TwoRecipes
  | RecipeBesideKits
  | RecipeOutside (path : string)
  | NoKitsListed
  | KitsEmpty
  | RefRequired
  | RefUnresolvable (ref : string)
  | RefResolvesAtCreate (arg : string)
  | DigestMalformed (digest : string)
  | TwoPins (pinned stated : string)
  | ListedTwice (key : string)
  | ArgNameMalformed (name : string)
  | RequiredWithDefault
  | EnumWithPattern
  | PatternMalformed (pattern : string)
  | TwoPhases
  | VariableMalformed (name : string)
  | OverBudget (bytes : Z)
  | ArgNotDeclared_ (name : string)
  | WorkloadOnly (typ : string)
  | EnvInKey
  | SourcePathRequired
  | TypeMalformed (typ : string)
  | TakesNoConfig (typ : string)
  | ConfigUndecodable (cause : config_error)
  | PathNotAbsolute (path : string)
  | PathNotCanonical (path : string)
  | SizeMalformed (size : string)
  | ModeMalformed (mode : string)
  | PhaseMalformed (phase : string)
  | PhaseRequired
  | NullValue (at_ : string)
  | FieldRequired (what : string)
  | FieldsExclusive (what : string)
  | ValueMalformed (value : string)
  | EmptyList (field : string)
  | PatternBounded (host : string)
  | PathsWithoutMethods
  | MethodMalformed (method : string)
  | AnyBesideMethod
  | PortOutOfRange (port : Z)
  | NegativeCPU
  | NoVerbs
  | PlaceholderMissing (placeholder : string)
  | NoHooks
  | TwoPolicyVersions
  | NotAllowed (domain phase : string)
  | GroupMalformed (what : string)
  | NotExpanded (name : string)
  | NeverMerged
  | NoDigest (ref : string)
  | Unversioned (entry : string)
  | ReservedNamespace (entry : string)
  | GroupsLeft
  | ArgsLeft (names : list string)
  | EnvLeft
  (** A required request was refused; its original source, when that is another place. *)
  | SelectionRejected (item : string) (source : option CapabilitySource).

(** [FieldError]; an error that is about no element has the empty path. *)
Record FieldError := mkFieldError { Path : string; broken : rule }.

Definition report (b : bool) (path : string) (r : rule) : list FieldError :=
  if b then [mkFieldError path r] else [].

(** A check of every element of a list, by index. *)
Definition each {A} (check : nat → A → list FieldError) (l : list A) : list FieldError :=
  concat (imap check l).

(** ** What the rules ask of libraries *)

Class Documents := {
  yaml_value : string → result string value;
  yaml_descriptor : string → result string Descriptor;
  document_nodes :: SourceNodes;
  (** A float literal's canonical spelling, and whether it is below zero. *)
  float_literal : string → option string;
  float_negative : string → bool;
  (** Scheme and host. *)
  url_parts : string → result string (string * string);
  regexp_compiles : string → bool;
  (** [reference.ParseNormalizedNamed], and the digest of a canonical reference. *)
  image_reference : string → result string (option string);
}.

(** ** Patterns *)

Definition octalMode : regex := let o := RSet (byte_in "0" "7") in RCat o (RCat o (RCat o (ROpt o))).
Definition sizeBytes : regex :=
  RCat (RPlus (RSet is_digit))
    (RCat (ROpt (RCat (RByte ".") (RPlus (RSet is_digit))))
       (RCat (RStar (RSet is_space))
          (ROpt (RCat (RSet (one_of "kKmMgGtT")) (RCat (ROpt (RByte "i")) (ROpt (RSet (one_of "bB")))))))).
Definition is_hex_digit (c : ascii) : bool := is_digit c || byte_in "a" "f" c.
(** [r{n}]. *)
Fixpoint RTimes (n : nat) (r : regex) : regex :=
  match n with O => REps | S n => RCat r (RTimes n r) end.
Definition manifestDigest : regex := RCat (RLit "sha256:") (RTimes 64 (RSet is_hex_digit)).
(** A name whose first and last bytes are letters or digits. *)
Definition delimited (inner : ascii → bool) : regex :=
  RCat (RSet is_alnum)
    (ROpt (RCat (RStar (RSet (λ c, is_alnum c || inner c))) (RSet is_alnum))).
Definition needType : regex :=
  RCat (delimited (one_of ".-"))
    (RCat (RByte "/") (RCat (delimited (one_of "-"))
       (RCat (RByte "@") (RCat (RSet (byte_in "1" "9")) (RStar (RSet is_digit)))))).
Definition agentSkillName : regex :=
  let w c := is_alnum c || is_upper c in RCat (RSet w) (RStar (RSet (λ c, w c || one_of "._-" c))).
Definition sshSignatureNamespace : regex := RPlus (RSet (byte_in "!" "~")).
Definition ssh_label : regex := delimited (one_of "-").
Definition sshDestination : regex :=
  RCat (ROpt (RCat (RSet (λ c, is_lower c || one_of "_" c))
                (RCat (RStar (RSet (λ c, is_alnum c || one_of "_.-" c))) (RByte "@"))))
    (RCat ssh_label (RStar (RCat (RByte ".") ssh_label))).


(** ** The parts of a rule *)

(** [validateNetworkEntryShape]: which fields an entry states. *)
Definition validateNetworkEntryShape (path : string) (r : NetworkEntry) : list FieldError :=
  report (bool_decide (elems (Hosts r) = [])) (path +:+ ".hosts") (FieldRequired "hosts") ++
  flat_map (λ h, report (bool_decide (h = "")) (path +:+ ".hosts") (FieldRequired "host")) (elems (Hosts r)) ++
  report (bool_decide (Methods r = Some [])) (path +:+ ".methods") (EmptyList "methods") ++
  report (bool_decide (Paths r = Some [])) (path +:+ ".paths") (EmptyList "paths") ++
  report (negb (bool_decide (elems (Paths r) = [])) && bool_decide (elems (Methods r) = []))
    (path +:+ ".paths") PathsWithoutMethods.

Definition httpMethods : list string :=
  ["GET"; "HEAD"; "POST"; "PUT"; "PATCH"; "DELETE"; "OPTIONS"; "TRACE"; "CONNECT"].
Definition HTTPMethods : list string := sort_strings httpMethods.

Fixpoint validate_methods (path : string) (seen l : list string) : list FieldError :=
  match l with
  | [] => []
  | m :: l =>
      report (negb (bool_decide (m = MethodAny)) && negb (bool_decide (m ∈ httpMethods))) (path +:+ ".methods")
        (MethodMalformed m) ++
      report (bool_decide (m ∈ seen)) (path +:+ ".methods") (ListedTwice m) ++
      validate_methods path (m :: seen) l
  end.

Definition validateNetworkEntry (path : string) (r : NetworkEntry) : list FieldError :=
  validateNetworkEntryShape path r ++
  validate_methods path [] (elems (Methods r)) ++
  report (bool_decide (MethodAny ∈ elems (Methods r)) && (1 <? length (elems (Methods r)))) (path +:+ ".methods")
    AnyBesideMethod ++
  flat_map (λ p, report (negb (has_prefix "/" p)) (path +:+ ".paths") (PathNotAbsolute p)) (elems (Paths r)).

Definition isHostPattern (h : string) : bool := contains "*" h.

(** Both phases of a policy, by name, those that are stated. *)
Definition policy_phases (p : PhasedNetworkV2) : list (string * NetworkRulesV2) :=
  match InstallV2 p with Some r => [("install", r)] | None => [] end ++
  match RuntimeV2 p with Some r => [("runtime", r)] | None => [] end.

Definition validate_allow (path : string) (e : NetworkEntry) : list FieldError :=
  validateNetworkEntry path e ++
  (if negb (NetworkEntry_Bounded e) then []
   else flat_map (λ h, report (isHostPattern h) (path +:+ ".hosts") (PatternBounded h)) (elems (Hosts e))).
Definition validateNetworkEntries (path : string) (p : PhasedNetworkV2) : list FieldError :=
  flat_map (λ '(phase, rules),
    let at_ field := indexed (path +:+ ".config." +:+ phase +:+ "." +:+ field) in
    each (λ j, validate_allow (at_ "allow" j)) (AllowV2 rules) ++
    each (λ j, validateNetworkEntry (at_ "deny" j)) (DenyV2 rules)) (policy_phases p).

Definition placeholder_free (s : string) : bool := negb (ContainsArgRef s) && negb (ContainsEnvRef s).

(** [validatePhases]: the first problem. *)
Fixpoint validate_phases (path : string) (seen phases : list string) : list FieldError :=
  match phases with
  | [] => []
  | phase :: phases =>
      if placeholder_free phase && negb (bool_decide (phase = "install")) && negb (bool_decide (phase = "runtime"))
      then [mkFieldError (path +:+ ".config.phase") (PhaseMalformed phase)]
      else if bool_decide (phase ∈ seen) then [mkFieldError (path +:+ ".config.phase") (ListedTwice phase)]
      else validate_phases path (phase :: seen) phases
  end.
Definition validatePhases (path : string) (phases : option (list string)) : list FieldError :=
  if bool_decide (elems phases = []) then [mkFieldError (path +:+ ".config.phase") PhaseRequired]
  else validate_phases path [] (elems phases).

(** The value of a key of a configuration. *)
Definition config_get (n : Capability) (key : string) : option value :=
  snd <$> List.find (λ kv, bool_decide (kv.1 = key)) (default [] (Config n)).
Definition phase_config (n : Capability) : Capability :=
  capability_of (Type_ n) (Some [("phase", default VNull (config_get n "phase"))]).

(** A struct whose only field is the phase. *)
Definition decode_phase_only : decoder (option (list string)) :=
  decode_struct ["phase"] (λ cur m, decode_field "phase" decode_phases m cur).
Definition credentialPhases (n : Capability) : result config_error (option (list string)) :=
  DecodeCapabilityConfig decode_phase_only None (phase_config n).

(** [nullConfigPaths]: where a null is; [skip] exempts what is under one map. *)
Fixpoint nullConfigPaths (at_ : string) (v : value) (skip : string) : list string :=
  match v with
  | VNull => [at_]
  | VMap m =>
      if bool_decide (at_ = skip) then []
      else flat_map (λ kv, nullConfigPaths (at_ +:+ "." +:+ kv.1) kv.2 skip) m
  | VList l =>
      (fix elements i l := match l with
        | [] => []
        | x :: l => nullConfigPaths (indexed at_ i) x skip ++ elements (S i) l
        end) 0 l
  | _ => []
  end.

(** *** SSH agents *)

Fixpoint validate_ssh_nulls (path : string) (n : Capability) (fields : list string) : list FieldError :=
  match fields with
  | [] => []
  | field :: fields =>
      if bool_decide (config_get n field = Some VNull)
      then [mkFieldError (path +:+ ".config." +:+ field) (NullValue field)] else validate_ssh_nulls path n fields
  end.
Definition validateSSHAgentNulls (path : string) (n : Capability) : list FieldError :=
  validate_ssh_nulls path n ["phase"; "unrestricted"; "sign"; "authenticate"].

Definition validateSSHAgentPresence (path : string) (a : SSHAgent) : list FieldError :=
  let none := bool_decide (SSHAgent_Sign a = None) && bool_decide (SSHAgent_Authenticate a = None) in
  if SSHAgent_Bounded a && none
  then [mkFieldError (path +:+ ".config.unrestricted") (FieldRequired "sign or authenticate")]
  else if negb (SSHAgent_Bounded a) && negb none
  then [mkFieldError (path +:+ ".config.unrestricted") (FieldsExclusive "unrestricted")]
  else if bool_decide (SSHAgent_Sign a = Some []) then [mkFieldError (path +:+ ".config.sign") (EmptyList "sign")]
  else if bool_decide (SSHAgent_Authenticate a = Some [])
  then [mkFieldError (path +:+ ".config.authenticate") (EmptyList "authenticate")]
  else [].

Fixpoint validateSSHAgentList (path : string) (pattern : regex) (seen values : list string) : list FieldError :=
  match values with
  | [] => []
  | v :: values =>
      if placeholder_free v && negb (matches pattern v) then [mkFieldError path (ValueMalformed v)]
      else if bool_decide (v ∈ seen) then [mkFieldError path (ListedTwice v)]
      else validateSSHAgentList path pattern (v :: seen) values
  end.

Definition isAllDigitsAndDots (s : string) : bool := str_forall (one_of "0123456789.") s.

Definition address_destination (path : string) (d : string) : list FieldError :=
  report (placeholder_free d && isAllDigitsAndDots (sshDestinationHost d)) (path +:+ ".config.authenticate")
    (ValueMalformed d).

(** The first check that reports. *)
Fixpoint first_of_checks (checks : list (list FieldError)) : list FieldError :=
  match checks with [] => [] | [] :: checks => first_of_checks checks | errs :: _ => errs end.

Definition validateSSHAgentNeed (path : string) (n : Capability) : list FieldError :=
  match validateSSHAgentNulls path n with
  | [] =>
      match DecodeCapabilityConfig decode_ssh_agent zero_ssh_agent n with
      | Err e => [mkFieldError (path +:+ ".config") (ConfigUndecodable e)]
      | Ok a =>
          first_of_checks
            [validatePhases path (SSHAgent_Phase a); validateSSHAgentPresence path a;
             validateSSHAgentList (path +:+ ".config.sign") sshSignatureNamespace [] (elems (SSHAgent_Sign a));
             validateSSHAgentList (path +:+ ".config.authenticate") sshDestination [] (elems (SSHAgent_Authenticate a));
             take 1 (flat_map (address_destination path) (elems (SSHAgent_Authenticate a)))]
      end
  | errs => errs
  end.

(** *** Skills *)

Definition skill_source (path : string) : bool := negb (bool_decide (path = "/")) && canonicalAbsPath path.

Definition validateParameterizedSkillSource (field : string) (n : Capability) : list FieldError :=
  match config_get n "path" with
  | Some (VStr source) =>
      if negb (placeholder_free source) then []
      else report (negb (skill_source source)) (field +:+ ".config.path") (PathNotCanonical source)
  | _ => [mkFieldError (field +:+ ".config.path") (FieldRequired "path")]
  end.

Definition validateBundledSkill (field : string) (n : Capability) : result FieldError string :=
  match DecodeCapabilityConfig decode_agent_skill zero_skill n with
  | Err e => Err (mkFieldError (field +:+ ".config") (ConfigUndecodable e))
  | Ok s =>
      let key := AgentSkillName s in
      if bool_decide (is_Some (config_get n "name")) && bool_decide (AgentSkill_Name s = "")
      then Err (mkFieldError (field +:+ ".config.name") (FieldRequired "name"))
      else if negb (matches agentSkillName key) || (255 <? String.length key)
      then Err (mkFieldError (field +:+ ".config.name") (ValueMalformed key))
      else if negb (skill_source (AgentSkill_Path s))
      then Err (mkFieldError (field +:+ ".config.path") (PathNotCanonical (AgentSkill_Path s)))
      else Ok key
  end.

(** The published form of a skill's source is literal. *)
Fixpoint skill_source_literal (field : string) (c : Capability) : list FieldError :=
  match Group c with
  | Some g =>
      (fix members i l := match l with
        | [] => []
        | c :: l => skill_source_literal (indexed (field +:+ ".group.capabilities") i) c ++ members (S i) l
        end) 0 (Group_Capabilities g)
  | None =>
      if negb (bool_decide (Type_ c = CapabilityAgentSkill)) then []
      else
        match config_get c "path" with
        | Some (VStr source) =>
            report (negb (placeholder_free source)) (field +:+ ".config.path") (NotExpanded source)
        | _ => []
        end
  end.
Definition validatePublishedSkillPaths (items : list Capability) (prefix : string) : list FieldError :=
  each (λ i, skill_source_literal (indexed prefix i)) items.

(** *** Credentials *)

Definition validate_apikey (path : string) (k : APIKey) : list FieldError :=
  report (bool_decide (APIKey_Name k = "") && bool_decide (APIKey_Inject k = [])) (path +:+ ".config.apiKey")
    (FieldRequired "name or inject") ++
  report (negb (bool_decide (APIKey_Name k = "")) && negb (matches envVarName (APIKey_Name k)))
    (path +:+ ".config.apiKey.name") (VariableMalformed (APIKey_Name k)) ++
  each (λ j inj, report (bool_decide (Inject_Domain inj = "")) (indexed (path +:+ ".config.apiKey.inject") j)
                   (FieldRequired "domain")) (APIKey_Inject k).

(** A member of an object value. *)
Definition member_of (v : value) (key : string) : option value :=
  match v with VMap m => snd <$> List.find (λ kv, bool_decide (kv.1 = key)) m | _ => None end.

Definition validate_credential_file (path : string) (n : Capability) (f : CredentialFile) : list FieldError :=
  let at_ := path +:+ ".config.oauth.credentialFile" in
  report (bool_decide ((v ← config_get n "oauth"; v ← member_of v "credentialFile"; member_of v "format") = Some (VStr "")))
    (at_ +:+ ".format") (FieldRequired "format") ++
  report (negb (bool_decide (CredentialFile_Format f ∈ [""; "json"; "toml"]))) (at_ +:+ ".format")
    (ValueMalformed (CredentialFile_Format f)) ++
  match CredentialFile_Structure f with
  | Some m =>
      if bool_decide (CredentialFile_Format f = "toml")
      then map (λ p, mkFieldError (at_ +:+ "." +:+ p) (NullValue p)) (nullConfigPaths "structure" (VMap m) "")
      else []
  | None => []
  end.

Definition validateCredentialNeed (path : string) (n : Capability) : list FieldError :=
  match DecodeCapabilityConfig decode_credential zero_credential n with
  | Err e => [mkFieldError (path +:+ ".config") (ConfigUndecodable e)]
  | Ok c =>
      (if bool_decide (Credential_Service c = "")
       then [mkFieldError (path +:+ ".config.service") (FieldRequired "service")]
       else report (negb (matches handleName (Credential_Service c))) (path +:+ ".config.service")
              (ValueMalformed (Credential_Service c))) ++
      validatePhases path (Credential_Phase c) ++
      report (bool_decide (Credential_APIKey c = None) && bool_decide (Credential_OAuth c = None)) (path +:+ ".config")
        (FieldRequired "apiKey or oauth") ++
      map (λ p, mkFieldError (path +:+ "." +:+ p) (NullValue p))
        (nullConfigPaths "config" (VMap (default [] (Config n))) "config.oauth.credentialFile.structure") ++
      match Credential_APIKey c with Some k => validate_apikey path k | None => [] end ++
      match Credential_OAuth c with
      | Some o =>
          match OAuth_TokenEndpoint o with
          | Some t => report (bool_decide (TokenEndpoint_Host t = "")) (path +:+ ".config.oauth.tokenEndpoint")
                        (FieldRequired "host")
          | None => []
          end ++
          match OAuth_CredentialFile o with Some f => validate_credential_file path n f | None => [] end
      | None => []
      end
  end.

(** *** Lifecycle *)

Definition validate_env (path : string) (env : list string) : list FieldError :=
  each (λ k e, report (negb (matches envVarName e)) (indexed (path +:+ ".env") k) (VariableMalformed e)) env.
Definition validate_hook (path : string) (command : option (list string)) (env : list string) : list FieldError :=
  report (bool_decide (elems command = [])) path (FieldRequired "command") ++ validate_env path env.
Definition validate_mode (path mode : string) : list FieldError :=
  report (negb (bool_decide (mode = "")) && negb (matches octalMode mode)) path (ModeMalformed mode).
Definition validate_size (path size : string) : list FieldError :=
  report (negb (bool_decide (size = "")) && negb (matches sizeBytes size)) path (SizeMalformed size).

Definition validateLifecycle (base : string) (l : Lifecycle) : list FieldError :=
  each (λ j h, validate_hook (indexed (base +:+ ".config.install") j) (InstallHook_Command h) (InstallHook_Env h))
    (Lifecycle_Install l) ++
  each (λ j h, validate_hook (indexed (base +:+ ".config.startup") j) (StartupHook_Command h) (StartupHook_Env h))
    (Lifecycle_Startup l) ++
  each (λ j f,
    let p := indexed (base +:+ ".config.files") j in
    report (negb (has_prefix "/" (File_Path f))) (p +:+ ".path") (PathNotAbsolute (File_Path f)) ++
    validate_mode (p +:+ ".mode") (File_Mode f)) (Lifecycle_Files l).

(** *** Presence, which a placeholder does not hide *)

Definition validate_shapes (path : string) (p : PhasedNetworkV2) : list FieldError :=
  flat_map (λ '(phase, rules),
    let at_ field := indexed (path +:+ ".config." +:+ phase +:+ "." +:+ field) in
    each (λ j, validateNetworkEntryShape (at_ "allow" j)) (AllowV2 rules) ++
    each (λ j, validateNetworkEntryShape (at_ "deny" j)) (DenyV2 rules)) (policy_phases p).

(** The entry with a boolean in the place of its placeholder. *)
Definition presumed_unrestricted (n : Capability) : Capability :=
  match config_get n "unrestricted" with
  | Some (VStr v) =>
      if ContainsArgRef v then
        let stated key := bool_decide (is_Some (config_get n key)) in
        with_config n (Some (map_put ("unrestricted", VBool (negb (stated "sign") && negb (stated "authenticate")))
                               (default [] (Config n))))
      else n
  | _ => n
  end.

Definition validatePresenceRules (path : string) (n : Capability) : list FieldError :=
  if bool_decide (Type_ n = CapabilityCredential) then
    match credentialPhases n with
    | Err e => [mkFieldError (path +:+ ".config.phase") (ConfigUndecodable e)]
    | Ok phases => validatePhases path phases
    end
  else if bool_decide (Type_ n = CapabilityNetworkPolicyV2) then
    match DecodeCapabilityConfig decode_network_v2 zero_network_v2 n with
    | Err _ => []
    | Ok p => validate_shapes path p
    end
  else if bool_decide (Type_ n = CapabilitySSHAgent) then
    match validateSSHAgentNulls path n with
    | [] => validateSSHAgentNeed path (presumed_unrestricted n)
    | errs => errs
    end
  else if bool_decide (Type_ n = CapabilityAgentSkill) then validateParameterizedSkillSource path n
  else if bool_decide (Type_ n = CapabilityAgentContext) then
    report (bool_decide (is_Some (config_get n "contentFile")) && bool_decide (is_Some (config_get n "content")))
      (path +:+ ".config") (FieldsExclusive "contentFile")
  else [].

(** ** The requests of one block *)

Definition singletonCapabilities : list string :=
  [CapabilityGitIdentity; CapabilityNetworkPolicy; CapabilityNetworkPolicyV2; CapabilityResources;
   CapabilityPrivileged; CapabilityKitRegistry; CapabilityAgentSessions; CapabilityLifecycle;
   CapabilityAgentContext; CapabilitySbx; CapabilityLongRunning].
Definition configlessCapabilities : list string :=
  [CapabilityGitIdentity; CapabilityPrivileged; CapabilityKitRegistry; CapabilitySbx; CapabilityLongRunning].

Definition argvContains (argv : list string) (sub : string) : bool := existsb (contains sub) argv.

(** The maps of what the entries before have taken, as one map from the name of
    the Go map and its key; whether cross-entry checks are put off; the entries
    they leave out. *)
Record seen := mkSeen { taken : gmap (string * string) nat; deferred : bool; invalid : gset nat }.
Definition nothing_seen : seen := mkSeen ∅ false ∅.
Definition note (table key : string) (i : nat) (st : seen) : seen :=
  mkSeen (<[(table, key) := i]> (taken st)) (deferred st) (invalid st).
Definition defer (st : seen) : seen := mkSeen (taken st) true (invalid st).
Definition invalidate (i : nat) (st : seen) : seen := mkSeen (taken st) (deferred st) ({[i]} ∪ invalid st).

(** An entry claims a key; one that an earlier entry claimed is an error. *)
Definition claim (table key path : string) (i : nat) (st : seen) : list FieldError * seen :=
  (report (bool_decide (is_Some (taken st !! (table, key)))) path (ListedTwice key), note table key i st).
Fixpoint claim_phases (table prefix path : string) (i : nat) (phases : list string) (st : seen) :
    list FieldError * seen :=
  match phases with
  | [] => ([], st)
  | phase :: phases =>
      if negb (placeholder_free phase) then claim_phases table prefix path i phases st
      else
        let key := prefix +:+ phase in
        let errs := match taken st !! (table, key) with
                    | Some prev => report (negb (prev =? i)) path (ListedTwice key)
                    | None => []
                    end in
        let '(rest, st) := claim_phases table prefix path i phases (note table key i st) in
        (errs ++ rest, st)
  end.

Definition agent_phases (path : string) (i : nat) (n : Capability) (st : seen) : list FieldError * seen :=
  if negb (bool_decide (Type_ n = CapabilitySSHAgent)) then ([], st)
  else
    match DecodeCapabilityConfig decode_ssh_agent zero_ssh_agent (phase_config n) with
    | Err _ => ([], st)
    | Ok a => claim_phases "seenSSHAgent" "" (path +:+ ".config.phase") i (elems (SSHAgent_Phase a)) st
    end.
Definition credential_phases (path : string) (i : nat) (n : Capability) (st : seen) : list FieldError * seen :=
  if negb (bool_decide (Type_ n = CapabilityCredential)) then ([], st)
  else
    match credentialPhases n, config_get n "service" with
    | Ok phases, Some (VStr service) =>
        if negb (placeholder_free service) then ([], st)
        else claim_phases "seenCredential" (service +:+ nul) (path +:+ ".config.service") i (elems phases) st
    | _, _ => ([], st)
    end.

Section Types.
Context `{Documents}.

Definition negative (n : number) : bool :=
  match n with NInt z => bool_decide (z < 0)%Z | NFloat lit => float_negative lit end.

(** A configuration decoded and checked; one that is not is reported. *)
Definition typed {A} (path : string) (d : decoder A) (zero : A) (n : Capability)
    (check : A → seen → list FieldError * seen) (undecoded : seen → seen) (st : seen) : list FieldError * seen :=
  match DecodeCapabilityConfig d zero n with
  | Err e => ([mkFieldError (path +:+ ".config") (ConfigUndecodable e)], undecoded st)
  | Ok a => check a st
  end.

Definition volume_entry (path : string) (i : nat) (v : Volume) (st : seen) : list FieldError * seen :=
  let '(dup, st) := claim "seenVolume" (Volume_Path v) (path +:+ ".config.path") i st in
  (report (negb (has_prefix "/" (Volume_Path v))) (path +:+ ".config.path") (PathNotAbsolute (Volume_Path v)) ++
   validate_size (path +:+ ".config.size") (Volume_Size v) ++
   validate_mode (path +:+ ".config.mode") (Volume_Mode v) ++ dup, st).
Definition skills_entry (path : string) (i : nat) (s : AgentSkills) (st : seen) : list FieldError * seen :=
  let '(dup, st) := claim "seenSkills" (AgentSkills_Path s) (path +:+ ".config.path") i st in
  (report (negb (skill_source (AgentSkills_Path s))) (path +:+ ".config.path") (PathNotCanonical (AgentSkills_Path s)) ++
   report (negb (bool_decide (AgentSkills_Mode s ∈ [""; SkillsReadOnly; SkillsReadWrite]))) (path +:+ ".config.mode")
     (ValueMalformed (AgentSkills_Mode s)) ++ dup, st).
Definition port_entry (path : string) (i : nat) (p : Port) (st : seen) : list FieldError * seen :=
  let '(dup, st) := claim "seenPort" (PortKey p) (path +:+ ".config.container") i st in
  (report (bool_decide (Port_Container p < 1)%Z || bool_decide (65535 < Port_Container p)%Z)
     (path +:+ ".config.container") (PortOutOfRange (Port_Container p)) ++
   report (negb (bool_decide (Port_Transport p ∈ [""; "tcp"; "udp"]))) (path +:+ ".config.transport")
     (ValueMalformed (Port_Transport p)) ++ dup, st).
Definition usb_entry (path : string) (u : USBDevice) : list FieldError :=
  let vendor := negb (bool_decide (USBDevice_VendorID u = "")) in
  let product := negb (bool_decide (USBDevice_ProductID u = "")) in
  report (Bool.eqb (vendor || product) (negb (bool_decide (USBDevice_Class u = "")))) (path +:+ ".config")
    (FieldsExclusive "class") ++
  report (negb (Bool.eqb vendor product)) (path +:+ ".config") (FieldRequired "vendorId and productId").
Definition resources_entry (path : string) (r : Resources) : list FieldError :=
  report (negative (Resources_CPU r)) (path +:+ ".config.cpu") NegativeCPU ++
  validate_size (path +:+ ".config.memory") (Resources_Memory r).
Definition placeholder_verb (path : string) (argv : list string) (placeholder : string) : list FieldError :=
  report (negb (bool_decide (argv = [])) && negb (argvContains argv placeholder)) path (PlaceholderMissing placeholder).
Definition sessions_entry (path : string) (a : AgentSessions) : list FieldError :=
  report (bool_decide (AgentSessions_Prompt a = []) && bool_decide (AgentSessions_Resume a = []) &&
          bool_decide (AgentSessions_Continue a = []) && bool_decide (AgentSessions_List a = []))
    (path +:+ ".config") NoVerbs ++
  placeholder_verb (path +:+ ".config.prompt") (AgentSessions_Prompt a) SessionPromptPlaceholder ++
  placeholder_verb (path +:+ ".config.resume") (AgentSessions_Resume a) SessionIDPlaceholder.
Definition lifecycle_entry (path : string) (l : Lifecycle) : list FieldError :=
  report (match Lifecycle_Install l, Lifecycle_Startup l, Lifecycle_Files l, elems (Lifecycle_Interactive l) with
          | [], [], [], [] => true | _, _, _, _ => false end) (path +:+ ".config") NoHooks ++
  validateLifecycle path l.
Definition context_entry (kind path : string) (a : AgentContext) : list FieldError :=
  report (negb (bool_decide (AgentContext_Filename a = "")) && negb (bool_decide (kind = KindWorkload)) &&
          negb (bool_decide (kind = KindSet))) (path +:+ ".config.filename") (WorkloadOnly CapabilityAgentContext) ++
  report (negb (bool_decide (AgentContext_ContentFile a = "")) && negb (bool_decide (AgentContext_Content a = "")))
    (path +:+ ".config") (FieldsExclusive "contentFile").

(** A check that takes no key. *)
Definition alone {A} (check : A → list FieldError) (a : A) (st : seen) : list FieldError * seen := (check a, st).

Definition typed_entry (kind path : string) (i : nat) (n : Capability) (st : seen) : list FieldError * seen :=
  let of_type typ := bool_decide (Type_ n = typ) in
  if of_type CapabilityNetworkPolicy then typed path decode_network zero_network n (λ _ st, ([], st)) defer st
  else if of_type CapabilityNetworkPolicyV2 then
    typed path decode_network_v2 zero_network_v2 n
      (λ p st, let errs := validateNetworkEntries path p in
               (errs, if bool_decide (errs = []) then st else defer st)) defer st
  else if of_type CapabilityCredential then
    let errs := validateCredentialNeed path n in
    (errs, if bool_decide (errs = []) then st else invalidate i st)
  else if of_type CapabilitySSHAgent then (validateSSHAgentNeed path n, st)
  else if of_type CapabilityVolume then typed path decode_volume zero_volume n (volume_entry path i) id st
  else if of_type CapabilityAgentSkill then
    match validateBundledSkill path n with
    | Err e => ([e], st)
    | Ok key => claim "seenBundledSkills" key (path +:+ ".config") i st
    end
  else if of_type CapabilityAgentSkills then typed path decode_agent_skills zero_skills n (skills_entry path i) id st
  else if of_type CapabilityPort then typed path decode_port zero_port n (port_entry path i) id st
  else if of_type CapabilityUSBDevice then typed path decode_usb (mkUSBDevice "" "" "") n (alone (usb_entry path)) id st
  else if of_type CapabilityResources then
    typed path decode_resources (mkResources (NInt 0) "" "") n (alone (resources_entry path)) id st
  else if of_type CapabilityAgentSessions then
    typed path decode_agent_sessions (mkAgentSessions [] [] [] []) n (alone (sessions_entry path)) id st
  else if of_type CapabilityLifecycle then
    typed path decode_lifecycle zero_lifecycle n (alone (lifecycle_entry path)) id st
  else if of_type CapabilityAgentContext then
    typed path decode_context zero_context n (alone (context_entry kind path)) id st
  else ([], st).

(** One entry: what it takes from the tables, then the rules of its type. *)
Definition entry_syntax (path : string) (n : Capability) : list FieldError :=
  report (environmentReferences (config_value n)).2 (path +:+ ".config") EnvInKey ++
  report (match Source n with Some s => bool_decide (Source_Path s = "") | None => false end)
    (path +:+ ".source.path") SourcePathRequired.
Definition is_network_policy (typ : string) : bool :=
  bool_decide (typ = CapabilityNetworkPolicy) || bool_decide (typ = CapabilityNetworkPolicyV2).
Definition second_singleton (n : Capability) (st : seen) : bool :=
  bool_decide (Type_ n ∈ singletonCapabilities) && bool_decide (is_Some (taken st !! ("seenSingleton", Type_ n))).
Definition singleton_entry (i : nat) (n : Capability) (st : seen) : seen :=
  if second_singleton n st then (if is_network_policy (Type_ n) then defer st else st)
  else if bool_decide (Type_ n ∈ singletonCapabilities) then note "seenSingleton" (Type_ n) i st
  else st.

Definition entry_rules (kind path : string) (i : nat) (n : Capability) (st : seen) : list FieldError * seen :=
  let configless := report (bool_decide (Type_ n ∈ configlessCapabilities) && ConfigStated n) (path +:+ ".config")
                      (TakesNoConfig (Type_ n)) in
  let '(agents, st) := agent_phases path i n st in
  let '(credentials, st) := credential_phases path i n st in
  let '(rules, st) :=
    if capabilityIsParameterized n then (validatePresenceRules path n, defer st)
    else typed_entry kind path i n st in
  (configless ++ agents ++ credentials ++ rules, st).

Definition validate_entry (kind : string) (i : nat) (n : Capability) (st : seen) : list FieldError * seen :=
  let path := indexed "capabilities" i in
  let syntax := entry_syntax path n in
  if negb (matches needType (Type_ n)) then (syntax ++ [mkFieldError (path +:+ ".type") (TypeMalformed (Type_ n))], st)
  else
    let second := second_singleton n st in
    let st := singleton_entry i n st in
    let single := report second (path +:+ ".type") (ListedTwice (Type_ n)) in
    let key := capabilitySurfaceEntry n in
    if bool_decide (is_Some (taken st !! ("seenExact", key))) then
      (syntax ++ single ++ report (negb second) path (ListedTwice key),
       if bool_decide (Type_ n = CapabilityCredential) then invalidate i st else st)
    else
      let '(errs, st) := entry_rules kind path i n (note "seenExact" key i st) in
      (syntax ++ single ++ errs, st).

Fixpoint validate_entries (kind : string) (i : nat) (needs : list Capability) (st : seen) : list FieldError * seen :=
  match needs with
  | [] => ([], st)
  | n :: needs =>
      let '(errs, st) := validate_entry kind i n st in
      let '(rest, st) := validate_entries kind (S i) needs st in
      (errs ++ rest, st)
  end.

(** *** Credentials against the network policy *)

Definition phaseAllow (n : option PhasedNetworkV2) (phase : string) : list string :=
  match n with
  | None => []
  | Some n =>
      match (if bool_decide (phase = "install") then InstallV2 n else RuntimeV2 n) with
      | None => []
      | Some rules => flat_map (λ e, map stripPort (elems (Hosts e))) (AllowV2 rules)
      end
  end.
Definition domain_allowed (allow : list string) (domain : string) : bool :=
  bool_decide (stripPort domain ∈ allow) || bool_decide ("*" ∈ allow) || bool_decide ("**" ∈ allow).

Definition inject_errors (i : nat) (policy : option PhasedNetworkV2) (c : Credential) : list FieldError :=
  match Credential_APIKey c with
  | None => []
  | Some k =>
      flat_map (λ phase, each (λ j inj,
          report (negb (domain_allowed (phaseAllow policy phase) (Inject_Domain inj)))
            (indexed (indexed "capabilities" i +:+ ".config.apiKey.inject") j +:+ ".domain")
            (NotAllowed (Inject_Domain inj) phase)) (APIKey_Inject k))
        (elems (Credential_Phase c))
  end.
Definition inject_entry (policy : option PhasedNetworkV2) (skipped : gset nat) (i : nat) (n : Capability) :
    list FieldError :=
  if negb (bool_decide (Type_ n = CapabilityCredential)) || bool_decide (i ∈ skipped) then []
  else
    match DecodeCapabilityConfig decode_credential zero_credential n with
    | Err e => [mkFieldError "" (ConfigUndecodable e)]
    | Ok c => inject_errors i policy c
    end.
Definition validateInjectWithinAllow (needs : list Capability) (skipped : gset nat) : list FieldError :=
  match NetworkPolicyV2Of needs with
  | Err e => [mkFieldError "" (ConfigUndecodable e)]
  | Ok policy => each (inject_entry policy skipped) needs
  end.

Definition validateCapabilityBlock (d : Descriptor) : list FieldError :=
  let needs := Capabilities d in
  let '(errs, st) := validate_entries (Kind d) 0 needs nothing_seen in
  let versions := match taken st !! ("seenSingleton", CapabilityNetworkPolicy),
                        taken st !! ("seenSingleton", CapabilityNetworkPolicyV2) with
                  | Some _, Some two => [mkFieldError (indexed "capabilities" two +:+ ".type") TwoPolicyVersions]
                  | _, _ => []
                  end in
  report (bool_decide (Kind d = KindMixin) && HasCapability needs CapabilitySbx) "capabilities"
    (WorkloadOnly CapabilitySbx) ++ errs ++ versions ++
  (if deferred st || negb (bool_decide (versions = [])) || declarationsOnly d then []
   else validateInjectWithinAllow needs (invalid st)).
End Types.

(** ** Groups *)

(** [HasGroups]. *)
Definition HasGroups (items : list Capability) : bool :=
  existsb (λ c, bool_decide (is_Some (Group c)) || groupSet c) items.

(** Copies of a descriptor with one field set. *)
Definition set_declarations_only (d : Descriptor) : Descriptor :=
  mkDescriptor true (Descriptor_SchemaVersion d) (DisplayName d) (Author d) (Descriptor_Description d)
    (SourceURL d) (IconURL d) (Types.Version d) (Licenses d) (Kind d) (Provides d) (Requires d) (Integrates d)
    (Conflicts d) (Capabilities d) (Args d) (Build d) (Kits d) (Dockerfile d) (kitsStated d).

(** [remapCapabilityErrors]: an element of a block, where the block's entries are. *)
Fixpoint remapped (path : string) (i : nat) (paths : list string) : string :=
  match paths with
  | [] => path
  | to :: paths =>
      let from := indexed "capabilities" i in
      if bool_decide (path = from) || has_prefix (from +:+ ".") path then to +:+ trim_prefix from path
      else remapped path (S i) paths
  end.
Definition remapCapabilityErrors (errs : list FieldError) (paths : list string) : list FieldError :=
  map (λ e, mkFieldError (remapped (Path e) 0 paths) (broken e)) errs.

Section Descriptors.
Context `{Documents}.

Definition validate_member (at_ : string) (j : nat) (member : Capability) : list FieldError :=
  let path := indexed (at_ +:+ ".group.capabilities") j in
  report (bool_decide (is_Some (Group member)) || groupSet member) path (GroupMalformed "nested") ++
  report (Optional member || optionalSet member) (path +:+ ".optional") (GroupMalformed "optional member").
Definition validate_group (d : Descriptor) (at_ : string) (c : Capability) (g : CapabilityGroup) : list FieldError :=
  let members := Group_Capabilities g in
  report (negb (bool_decide (Type_ c = "")) || negb (bool_decide (Name c = "")) ||
          negb (bool_decide (Description c = "")) || Optional c || optionalSet c || ConfigStated c) at_
    (GroupMalformed "both") ++
  report (match members with [] => true | _ => false end) (at_ +:+ ".group.capabilities") (GroupMalformed "empty") ++
  each (validate_member at_) members ++
  remapCapabilityErrors (validateCapabilityBlock (set_declarations_only (with_capabilities members d)))
    (imap (λ j _, indexed (at_ +:+ ".group.capabilities") j) members).
Definition validate_item (d : Descriptor) (i : nat) (c : Capability) : list FieldError :=
  let at_ := indexed "capabilities" i in
  report (match Source c with Some s => bool_decide (Source_Path s = "") | None => false end) (at_ +:+ ".source")
    SourcePathRequired ++
  match Group c with
  | Some g => validate_group d at_ c g
  | None => report (groupSet c) (at_ +:+ ".group") (GroupMalformed "not an object")
  end.
Definition ordinary (c : Capability) : bool := negb (bool_decide (is_Some (Group c))) && negb (groupSet c).

Definition validateCapabilityEntries (d : Descriptor) : list FieldError :=
  let items := Capabilities d in
  if negb (HasGroups items) then validateCapabilityBlock d
  else
    each (validate_item d) items ++
    remapCapabilityErrors
      (validateCapabilityBlock (set_declarations_only (with_capabilities (List.filter ordinary items) d)))
      (concat (imap (λ i c, if ordinary c then [indexed "capabilities" i] else []) items)).

(** ** The descriptor *)

Definition validateIconURL (icon : string) : list FieldError :=
  if bool_decide (icon = "") then []
  else
    match url_parts icon with
    | Err _ => [mkFieldError "iconUrl" (IconMalformed icon)]
    | Ok (scheme, host) =>
        report (negb (bool_decide (scheme = "https")) || bool_decide (host = "")) "iconUrl" (IconMalformed icon)
    end.

Definition validateRecipe (d : Descriptor) : list FieldError :=
  let builds := negb (bool_decide (Build d = "")) in
  let names := negb (bool_decide (Dockerfile d = "")) in
  let lists := match Kits d with [] => false | _ => true end in
  report (builds && names) "dockerfile" TwoRecipes ++
  report (lists && builds) "build" RecipeBesideKits ++
  report (lists && names) "dockerfile" RecipeBesideKits ++
  (let cleaned := Clean (Dockerfile d) in
   report (names && (has_prefix "/" cleaned || bool_decide (cleaned = "..") || has_prefix "../" cleaned)) "dockerfile"
     (RecipeOutside (Dockerfile d))).

(** *** Kits *)

Definition contains_any (chars s : string) : bool := negb (str_forall (λ c, negb (contains_byte c chars)) s).
Definition whitespace : string := of_bytes [32; 9; 10].

Definition validateKitReference (at_ : string) (k : Kit) : list FieldError :=
  let ref := Kit_Ref k in
  if negb (bool_decide (ref = trim_space ref)) || contains_any whitespace ref || has_prefix "git+" ref ||
     has_prefix "." ref || has_prefix "/" ref
  then [mkFieldError (at_ +:+ ".ref") (RefUnresolvable ref)]
  else
    match image_reference ref with
    | Err _ => [mkFieldError (at_ +:+ ".ref") (RefUnresolvable ref)]
    | Ok (Some digest) =>
        report (negb (bool_decide (Kit_Digest k = "")) && negb (bool_decide (digest = Kit_Digest k))) (at_ +:+ ".digest")
          (TwoPins digest (Kit_Digest k))
    | Ok None => []
    end.

Definition create_reference (d : Descriptor) (at_ name : string) : list FieldError :=
  match Args d !! name with
  | Some decl => report (bool_decide (Arg_BuildArg decl = "")) (at_ +:+ ".ref") (RefResolvesAtCreate name)
  | None => []
  end.
Definition validate_kit (d : Descriptor) (refs : list string) (i : nat) (k : Kit) : list FieldError :=
  let at_ := indexed "kits" i in
  let blank := bool_decide (trim_space (Kit_Ref k) = "") in
  report blank (at_ +:+ ".ref") RefRequired ++
  report (negb (bool_decide (Kit_Digest k = "")) && negb (matches manifestDigest (Kit_Digest k))) (at_ +:+ ".digest")
    (DigestMalformed (Kit_Digest k)) ++
  (if ContainsArgRef (Kit_Ref k) then flat_map (create_reference d at_) (ReferencedArgs (Kit_Ref k))
   else if blank then [] else validateKitReference at_ k) ++
  report (bool_decide (Kit_Ref k ∈ refs)) (at_ +:+ ".ref") (ListedTwice (Kit_Ref k)) ++
  flat_map (λ name, report (negb (matches envVarName name)) (at_ +:+ ".args") (ArgNameMalformed name))
    (sort_strings (map fst (map_to_list (Kit_Args k)))).
(** The references before an entry that are not blank. *)
Fixpoint validate_kits (d : Descriptor) (refs : list string) (i : nat) (kits : list Kit) : list FieldError :=
  match kits with
  | [] => []
  | k :: kits =>
      validate_kit d refs i k ++
      validate_kits d (if bool_decide (trim_space (Kit_Ref k) = "") then refs else Kit_Ref k :: refs) (S i) kits
  end.
Definition validateKits (d : Descriptor) : list FieldError :=
  let empty := match Kits d with [] => true | _ => false end in
  report (bool_decide (Kind d = KindSet) && empty) "kits" NoKitsListed ++
  report (negb (bool_decide (Kind d = KindSet)) && kitsStated d && empty) "kits" KitsEmpty ++
  validate_kits d [] 0 (Kits d).

(** *** Names and arguments *)

(** The cause, when an entry does not parse. *)
Definition parse_problem {A} (path entry : string) (r : result parse_error A) : list FieldError :=
  match r with Ok _ => [] | Err e => [mkFieldError path (EntryMalformed entry e)] end.
Definition has_arg (s : string) : bool := has_match argRef s.

Definition validate_provide (i : nat) (s : string) : list FieldError :=
  if has_arg s then [] else parse_problem (indexed "provides" i) s (ParseProvide s).
Definition validate_require (field : string) (i : nat) (s : string) : list FieldError :=
  if has_arg s then [mkFieldError (indexed field i) (ArgsNotAllowed s)]
  else parse_problem (indexed field i) s (ParseRequire s).
Definition validate_conflict (i : nat) (s : string) : list FieldError :=
  if has_arg s then [mkFieldError (indexed "conflicts" i) (ArgsNotAllowed s)]
  else match capabilityNameError s with
       | Some e => [mkFieldError (indexed "conflicts" i) (NameMalformed s e)]
       | None => []
       end.
Definition validateCapabilityNames (d : Descriptor) : list FieldError :=
  (if negb (bool_decide (Types.Version d = "")) && negb (has_arg (Types.Version d))
   then match parseVersion (Types.Version d) with
        | Ok _ => []
        | Err e => [mkFieldError "version" (VersionMalformed e)]
        end
   else []) ++
  each validate_provide (Provides d) ++
  each (validate_require "requires") (Requires d) ++
  each (validate_require "integrates") (Integrates d) ++
  each validate_conflict (Conflicts d).

Definition validate_arg (name : string) (a : Arg) : list FieldError :=
  let path := "args." +:+ name in
  let stated s := negb (bool_decide (s = "")) in
  report (negb (matches envVarName name)) path (ArgNameMalformed name) ++
  report (Arg_Required a && bool_decide (is_Some (Arg_Default a))) path RequiredWithDefault ++
  report (negb (bool_decide (Arg_Enum a = [])) && stated (Arg_Pattern a)) path EnumWithPattern ++
  report (stated (Arg_Pattern a) && negb (regexp_compiles (Arg_Pattern a))) (path +:+ ".pattern")
    (PatternMalformed (Arg_Pattern a)) ++
  report (stated (Arg_Env a) && stated (Arg_BuildArg a)) path TwoPhases ++
  report (stated (Arg_Env a) && negb (matches envVarName (Arg_Env a))) (path +:+ ".env") (VariableMalformed (Arg_Env a)) ++
  report (stated (Arg_BuildArg a) && negb (matches envVarName (Arg_BuildArg a))) (path +:+ ".buildArg")
    (VariableMalformed (Arg_BuildArg a)).
Definition validateArgs (args : gmap string Arg) : list FieldError :=
  flat_map (λ name, match args !! name with Some a => validate_arg name a | None => [] end)
    (sort_strings (map fst (map_to_list args))).

(** [Validate] has no warnings of its own. *)
Definition Validate (d : Descriptor) : list string * list FieldError :=
  ([],
   report (negb (bool_decide (Kind d ∈ [KindWorkload; KindMixin; KindSet]))) "kind" (KindUnknown (Kind d)) ++
   validateIconURL (IconURL d) ++
   validateCapabilityNames d ++
   validateCapabilityEntries d ++
   validateArgs (Args d) ++
   validateRecipe d ++
   validateKits d).

(** ** With the bytes *)

Definition SizeWarnBytes : Z := 64 * 1024.
Definition SizeErrorBytes : Z := 512 * 1024.

(** Where an argument is referenced; the document, when nowhere in particular. *)
Definition reference_paths (raw name : string) : list string :=
  let paths := default [] (argReferencePaths raw !! name) in if bool_decide (paths = []) then [""] else paths.

Definition undeclared_reference (raw : string) (d : Descriptor) (name : string) : list FieldError :=
  if bool_decide (is_Some (Args d !! name)) then []
  else map (λ at_, mkFieldError at_ (ArgNotDeclared_ name)) (reference_paths raw name).

Definition ValidateRaw (raw : string) (d : Descriptor) : list string * list FieldError :=
  let '(warnings, errs) := Validate d in
  let n := Z.of_nat (String.length raw) in
  (warnings ++
   (if (SizeWarnBytes <? n)%Z
    then ["descriptor is " +:+ pretty n +:+ " bytes; the advisory budget is " +:+ pretty SizeWarnBytes] else []),
   errs ++ report (SizeErrorBytes <? n)%Z "" (OverBudget n) ++
   flat_map (undeclared_reference raw d) (ReferencedArgs raw)).

(** *** The published form *)

Definition unversioned (i : nat) (s : string) : list FieldError :=
  match ParseProvide s with
  | Ok p => report (bool_decide (PVersion p = "")) (indexed "provides" i) (Unversioned s)
  | Err _ => []
  end.

(** Fields whose leftover references have a report of their own. *)
Definition reported_elsewhere (at_ : string) : bool :=
  bool_decide (at_ = "version") || has_prefix "provides[" at_ || (has_prefix "kits[" at_ && has_suffix "].ref" at_).
Definition unexpanded_reference (raw : string) (d : Descriptor) (name : string) : list FieldError :=
  match Args d !! name with
  | Some decl =>
      if bool_decide (Arg_BuildArg decl = "") then []
      else map (λ at_, mkFieldError at_ (NotExpanded name))
             (List.filter (λ at_, negb (reported_elsewhere at_)) (reference_paths raw name))
  | None => []
  end.

Definition published_kit (i : nat) (k : Kit) : list FieldError :=
  report (has_arg (Kit_Ref k)) (indexed "kits" i +:+ ".ref") (NotExpanded (Kit_Ref k)) ++
  report (bool_decide (Kit_Digest k = "")) (indexed "kits" i +:+ ".digest") (NoDigest (Kit_Ref k)).

Definition ValidatePublished (raw : string) (d : Descriptor) : list string * list FieldError :=
  let '(warnings, errs) := ValidateRaw raw (set_declarations_only d) in
  (warnings,
   errs ++
   validatePublishedSkillPaths (Capabilities d) "capabilities" ++
   report (has_arg (Types.Version d)) "version" (NotExpanded (Types.Version d)) ++
   each (λ i s, report (has_arg s) (indexed "provides" i) (NotExpanded s)) (Provides d) ++
   (if bool_decide (Types.Version d = "")
    then each (λ i s, if has_arg s then [] else unversioned i s) (Provides d) else []) ++
   flat_map (unexpanded_reference raw d) (ReferencedArgs raw) ++
   report (bool_decide (Kind d = KindSet)) "kind" NeverMerged ++
   each published_kit (Kits d)).

Definition RequireVersionedProvides (d : Descriptor) : list FieldError :=
  if negb (bool_decide (Types.Version d = "")) then []
  else each (λ i s, match ParseProvide s with
                    | Err e => [mkFieldError (indexed "provides" i) (EntryMalformed s e)]
                    | Ok _ => unversioned i s
                    end) (Provides d).
Definition RequireAuthoredProvides (d : Descriptor) : list FieldError :=
  each (λ i s, match ParseProvide s with
               | Err _ => []
               | Ok p => report (IsDerivedProvide (PName p)) (indexed "provides" i) (ReservedNamespace s)
               end) (Provides d).
End Descriptors.
