(* ===== verification/ValidateFacts.v ===== *)
(** What [Validate] accepts: a block of requests exactly when each of them is
    accepted alone, no two of them claim the same thing, and the credentials they
    inject stay within the hosts the block allows. *)
From stdpp Require Import options.
From S2P Require Import Prelude Diagnostics GoStrings Regex Version VersionOrder Json Types Config Resolve ResolveFacts Marshal Surface GoPath Template Merge Validate.

(** ** Reports *)

Lemma report_nil b path r : report b path r = [] ↔ b = false.
Proof. by destruct b. Qed.

Lemma each_nil {A} (check : nat → A → list FieldError) l :
  each check l = [] ↔ ∀ i a, l !! i = Some a → check i a = [].
Proof.
  unfold each. revert check. induction l as [|a l IH]; intros check; [done|]. cbn.
  split.
  - intros [Ha Hl]%app_nil [|i] b Hb; [by injection Hb as <-|]. by apply (proj1 (IH (check ∘ S)) Hl).
  - intros H. apply app_nil. split; [by apply (H 0)|]. apply (IH (check ∘ S)). intros i b Hb. by apply (H (S i)).
Qed.

Lemma flat_map_empty {A B} (f : A → list B) l : flat_map f l = [] ↔ ∀ x, x ∈ l → f x = [].
Proof.
  induction l as [|x l IH]; cbn; [split; [intros _ y Hy; inversion Hy|done]|].
  rewrite app_nil. rewrite IH. setoid_rewrite elem_of_cons. naive_solver.
Qed.

(** ** What an entry claims *)

(** The keys an entry takes from the tables, whatever was taken before it. *)
Definition table_key : Type := string * string.
#[export] Instance table_key_eq_dec : EqDecision table_key := _.

Definition agent_claims (n : Capability) : list table_key :=
  if negb (bool_decide (Type_ n = CapabilitySSHAgent)) then []
  else
    match DecodeCapabilityConfig decode_ssh_agent zero_ssh_agent (phase_config n) with
    | Err _ => []
    | Ok a => map (pair "seenSSHAgent") (List.filter placeholder_free (elems (SSHAgent_Phase a)))
    end.
Definition credential_claims (n : Capability) : list table_key :=
  if negb (bool_decide (Type_ n = CapabilityCredential)) then []
  else
    match credentialPhases n, config_get n "service" with
    | Ok phases, Some (VStr service) =>
        if negb (placeholder_free service) then []
        else map (λ p, ("seenCredential", (service +:+ nul) +:+ p)) (List.filter placeholder_free (elems phases))
    | _, _ => []
    end.

(** The table a type's instances are told apart in, and the key. *)
Definition decoded_claim {A} (table : string) (d : decoder A) (zero : A) (key : A → string) (n : Capability) : list table_key :=
  match DecodeCapabilityConfig d zero n with Ok a => [(table, key a)] | Err _ => [] end.
Definition instance_claims (n : Capability) : list table_key :=
  let of_type typ := bool_decide (Type_ n = typ) in
  if of_type CapabilityVolume then decoded_claim "seenVolume" decode_volume zero_volume Volume_Path n
  else if of_type CapabilityAgentSkill then
    match validateBundledSkill "" n with Ok k => [("seenBundledSkills", k)] | Err _ => [] end
  else if of_type CapabilityAgentSkills then
    decoded_claim "seenSkills" decode_agent_skills zero_skills AgentSkills_Path n
  else if of_type CapabilityPort then decoded_claim "seenPort" decode_port zero_port PortKey n
  else [].
Definition claims (n : Capability) : list table_key :=
  (if bool_decide (Type_ n ∈ singletonCapabilities) then [("seenSingleton", Type_ n)] else []) ++
  [("seenExact", capabilitySurfaceEntry n)] ++ agent_claims n ++ credential_claims n ++
  (if capabilityIsParameterized n then [] else instance_claims n).

(** ** The parts of an entry's check *)

Definition fresh (t : string) (i : nat) (st : seen) : Prop := ∀ k j, taken st !! (t, k) = Some j → j < i.
Definition free (st : seen) (cl : list table_key) : Prop := ∀ c, c ∈ cl → taken st !! c = None.
Definition noted (i : nat) (cl : list table_key) (st : seen) : seen :=
  foldl (λ st c, note c.1 c.2 i st) st cl.

Lemma noted_app i cl cl' st : noted i (cl ++ cl') st = noted i cl' (noted i cl st).
Proof. unfold noted. by rewrite foldl_app. Qed.

Lemma noted_taken i cl st c :
  taken (noted i cl st) !! c = if bool_decide (c ∈ cl) then Some i else taken st !! c.
Proof.
  revert st. induction cl as [|[t k] cl IH]; intros st; [by rewrite bool_decide_eq_false_2 by set_solver|].
  change (noted i ((t, k) :: cl) st) with (noted i cl (note t k i st)). rewrite IH. cbn [note taken].
  destruct (decide (c ∈ cl)) as [Hc|Hc].
  - rewrite !bool_decide_eq_true_2 by set_solver. done.
  - rewrite (bool_decide_eq_false_2 (c ∈ cl)) by done.
    destruct (decide (c = (t, k))) as [->|Hne].
    + rewrite lookup_insert_eq, bool_decide_eq_true_2 by left. done.
    + rewrite lookup_insert_ne, bool_decide_eq_false_2 by set_solver. done.
Qed.
Lemma noted_rest i cl st : deferred (noted i cl st) = deferred st ∧ invalid (noted i cl st) = invalid st.
Proof. revert st. induction cl as [|c cl IH]; intros st; [done|]. cbn. by destruct (IH (note c.1 c.2 i st)). Qed.

Lemma noted_fresh t i cl st : (∀ c, c ∈ cl → c.1 ≠ t) → fresh t i st → fresh t i (noted i cl st).
Proof.
  intros Hcl Hf k j. rewrite noted_taken. case_bool_decide as Hc; [by apply Hcl in Hc|]. apply Hf.
Qed.
Lemma noted_free t i cl cl' st :
  (∀ c, c ∈ cl → c.1 ≠ t) → (∀ c, c ∈ cl' → c.1 = t) → free (noted i cl st) cl' ↔ free st cl'.
Proof.
  intros H1 H2. unfold free. split; intros H c Hc; specialize (H c Hc); rewrite noted_taken in *.
  - case_bool_decide; [done|done].
  - case_bool_decide as Hin; [|done]. exfalso. by apply (H1 c Hin), H2.
Qed.
Lemma fresh_nothing t i : fresh t i nothing_seen.
Proof. intros k j. cbn. by rewrite lookup_empty. Qed.
Lemma free_nothing cl : free nothing_seen cl.
Proof. intros c _. apply lookup_empty. Qed.
Lemma free_app st cl cl' : free st (cl ++ cl') ↔ free st cl ∧ free st cl'.
Proof. unfold free. set_solver. Qed.

(** A part of the check reads and writes one table: it accepts when it does with
    the tables empty and its keys are not taken, and then it takes them. *)
Definition part (i : nat) (t : string) (f : seen → list FieldError * seen) (cl : list table_key) : Prop :=
  (∀ c, c ∈ cl → c.1 = t) ∧
  ∀ st, fresh t i st →
    ((f st).1 = [] ↔ (f nothing_seen).1 = [] ∧ free st cl) ∧ ((f st).1 = [] → (f st).2 = noted i cl st).

Lemma part_constant i t errs : part i t (λ st, (errs, st)) [].
Proof. split; [set_solver|]. intros st _. cbn. unfold free. set_solver. Qed.

Lemma part_claim i t k path : part i t (claim t k path i) [(t, k)].
Proof.
  split; [by intros c ->%list_elem_of_singleton|]. intros st _. cbn. rewrite !report_nil. split; [|done].
  rewrite !bool_decide_eq_false. cbn. rewrite lookup_empty. unfold free. split.
  - intros H. split; [by intros [? ?]|]. intros c ->%list_elem_of_singleton. by apply eq_None_not_Some.
  - intros [_ H]. rewrite H by set_solver. by intros [? ?].
Qed.

(** Checks beside a part. *)
Lemma part_beside i t f cl errs :
  part i t f cl → part i t (λ st, (errs ++ (f st).1, (f st).2)) cl.
Proof.
  intros [Ht Hf]. split; [done|]. intros st Hst. cbn. destruct (Hf st Hst) as [H1 H2].
  rewrite !app_nil, H1. split; [tauto|]. intros [_ H]. by apply H2, H1.
Qed.
Lemma part_ext i t f g cl : (∀ st, f st = g st) → part i t f cl → part i t g cl.
Proof. intros E [Ht Hf]. split; [done|]. intros st. rewrite <-!E. apply Hf. Qed.

Lemma claim_phases_cases t prefix path i phases st :
  (∀ k j, taken st !! (t, k) = Some j → j ≤ i) →
  ((claim_phases t prefix path i phases st).1 = [] ↔
     ∀ p, p ∈ List.filter placeholder_free phases →
       taken st !! (t, prefix +:+ p) = None ∨ taken st !! (t, prefix +:+ p) = Some i) ∧
  (claim_phases t prefix path i phases st).2 =
    noted i (map (λ p, (t, prefix +:+ p)) (List.filter placeholder_free phases)) st.
Proof.
  revert st. induction phases as [|p phases IH]; intros st Hst; [split; [split; [set_solver|done]|done]|].
  cbn [claim_phases List.filter]. destruct (placeholder_free p); cbn [negb]; [|by apply IH].
  specialize (IH (note t (prefix +:+ p) i st)).
  destruct (claim_phases t prefix path i phases (note t (prefix +:+ p) i st)) as [rest st'] eqn:E.
  cbn [fst snd] in *. destruct IH as [IH1 IH2].
  { intros k j. cbn. destruct (decide (prefix +:+ p = k)) as [->|Hne].
    - rewrite lookup_insert_eq. intros [= <-]. done.
    - rewrite lookup_insert_ne by congruence. apply Hst. }
  split; [|done]. rewrite app_nil, IH1. cbn [note taken]. setoid_rewrite elem_of_cons. split.
  - intros [Hp Hr] q [->|Hq].
    + destruct (taken st !! _) as [prev|]; [|by left]. apply report_nil, negb_false_iff, Nat.eqb_eq in Hp. right. congruence.
    + specialize (Hr q Hq). destruct (decide (prefix +:+ p = prefix +:+ q)) as [Eq|Hne].
      * rewrite <-Eq. destruct (taken st !! _) as [prev|]; [|by left].
        apply report_nil, negb_false_iff, Nat.eqb_eq in Hp. right. congruence.
      * rewrite lookup_insert_ne in Hr by congruence. done.
  - intros H. split.
    + destruct (H p (or_introl eq_refl)) as [->| ->]; [done|]. by rewrite Nat.eqb_refl.
    + intros q Hq. destruct (decide (prefix +:+ p = prefix +:+ q)) as [Eq|Hne].
      * rewrite <-Eq, lookup_insert_eq. by right.
      * rewrite lookup_insert_ne by congruence. apply H. by right.
Qed.

Lemma part_phases t prefix path i phases :
  part i t (claim_phases t prefix path i phases) (map (λ p, (t, prefix +:+ p)) (List.filter placeholder_free phases)).
Proof.
  split; [by intros c (p & -> & _)%list_elem_of_fmap|]. intros st Hst.
  destruct (claim_phases_cases t prefix path i phases st) as [H1 H2]; [intros k j Hj; apply Hst in Hj; lia|].
  destruct (claim_phases_cases t prefix path i phases nothing_seen) as [H3 _]; [intros k j; cbn; by rewrite lookup_empty|].
  split; [|done]. rewrite H1, H3. cbn. unfold free. split.
  - intros H. split; [intros p _; left; apply lookup_empty|]. intros c (p & -> & Hp)%list_elem_of_fmap.
    destruct (H p Hp) as [|Hi]; [done|]. apply Hst in Hi. lia.
  - intros [_ H] p Hp. left. apply H. apply list_elem_of_fmap. by exists p.
Qed.

(** ** One entry *)

Lemma agent_part i path n : part i "seenSSHAgent" (agent_phases path i n) (agent_claims n).
Proof.
  unfold agent_phases, agent_claims. destruct (negb _); [apply part_constant|].
  destruct (DecodeCapabilityConfig _ _ _); [apply (part_phases "seenSSHAgent" "")|apply part_constant].
Qed.
Lemma credential_part i path n : part i "seenCredential" (credential_phases path i n) (credential_claims n).
Proof.
  unfold credential_phases, credential_claims. destruct (negb _); [apply part_constant|].
  destruct (credentialPhases n) as [ps|]; [|apply part_constant].
  destruct (config_get n "service") as [[]|]; try apply part_constant.
  destruct (negb _); [apply part_constant|apply part_phases].
Qed.

(** The table of a type's instances. *)
Definition instance_table (n : Capability) : string :=
  let of_type typ := bool_decide (Type_ n = typ) in
  if of_type CapabilityVolume then "seenVolume" else if of_type CapabilityAgentSkill then "seenBundledSkills"
  else if of_type CapabilityAgentSkills then "seenSkills" else "seenPort".

Lemma part_typed {A} i t path (d : decoder A) zero n check undecoded cl :
  (∀ c, c ∈ cl → c.1 = t) → (∀ a, DecodeCapabilityConfig d zero n = Ok a → part i t (check a) cl) →
  part i t (typed path d zero n check undecoded) cl.
Proof.
  intros Ht Hc. unfold typed. destruct (DecodeCapabilityConfig d zero n) as [a|e]; [by apply Hc|].
  split; [done|]. intros st _. cbn. split; [split; [done|by intros [? _]]|done].
Qed.
Lemma part_alone {A} i t path (d : decoder A) zero n check undecoded :
  part i t (typed path d zero n (alone check) undecoded) [].
Proof. apply part_typed; [set_solver|]. intros a _. apply part_constant. Qed.

(** Checks that may put the cross-entry ones off, or leave the entry out. *)
Lemma part_flagged i t (errs : list FieldError) (f : seen → seen) :
  part i t (λ st, (errs, if bool_decide (errs = []) then st else f st)) [].
Proof.
  split; [set_solver|]. intros st _. cbn. split; [unfold free; set_solver|].
  intros ->. done.
Qed.

Section Entry.
Context `{Documents}.

Lemma decoded_part {A} i t path (d : decoder A) zero n check key :
  (∀ a, part i t (check a) [(t, key a)]) →
  part i t (typed path d zero n check id) (decoded_claim t d zero key n).
Proof.
  intros Hc. unfold decoded_claim. apply part_typed.
  - destruct (DecodeCapabilityConfig _ _ _); [by intros c ->%list_elem_of_singleton|set_solver].
  - intros a ->. apply Hc.
Qed.

Lemma bundled_skill_key path n :
  match validateBundledSkill path n, validateBundledSkill "" n with
  | Ok k, Ok k' => k = k'
  | Err _, Err _ => True
  | _, _ => False
  end.
Proof.
  unfold validateBundledSkill. destruct (DecodeCapabilityConfig _ _ _); [|done].
  destruct (_ && _); [done|]. destruct (_ || _); [done|]. by destruct (negb _).
Qed.
Lemma skill_part path i n :
  part i "seenBundledSkills"
    (λ st, match validateBundledSkill path n with
           | Err e => ([e], st)
           | Ok key => claim "seenBundledSkills" key (path +:+ ".config") i st
           end)
    match validateBundledSkill "" n with Ok k => [("seenBundledSkills", k)] | Err _ => [] end.
Proof.
  pose proof (bundled_skill_key path n) as Hk. destruct (validateBundledSkill path n) as [k|e].
  - destruct (validateBundledSkill "" n) as [k'|]; [|done]. subst. apply part_claim.
  - destruct (validateBundledSkill "" n); [done|].
    split; [set_solver|]. intros st _. cbn. split; [split; [done|by intros [? _]]|done].
Qed.

Lemma volume_part path i v : part i "seenVolume" (volume_entry path i v) [("seenVolume", Volume_Path v)].
Proof.
  eapply part_ext; [|apply part_beside, part_claim].
  intros st. unfold volume_entry. cbn [claim fst snd]. by rewrite !(assoc_L (++)).
Qed.
Lemma skills_part path i v : part i "seenSkills" (skills_entry path i v) [("seenSkills", AgentSkills_Path v)].
Proof.
  eapply part_ext; [|apply part_beside, part_claim].
  intros st. unfold skills_entry. cbn [claim fst snd]. by rewrite !(assoc_L (++)).
Qed.
Lemma port_part path i v : part i "seenPort" (port_entry path i v) [("seenPort", PortKey v)].
Proof.
  eapply part_ext; [|apply part_beside, part_claim].
  intros st. unfold port_entry. cbn [claim fst snd]. by rewrite !(assoc_L (++)).
Qed.

Lemma instance_part kind path i n : part i (instance_table n) (typed_entry kind path i n) (instance_claims n).
Proof.
  unfold typed_entry, instance_claims, instance_table.
  destruct (bool_decide_reflect (Type_ n = CapabilityNetworkPolicy)) as [->|_].
  { rewrite !bool_decide_eq_false_2 by done. apply part_typed; [set_solver|]. intros a _. apply part_constant. }
  destruct (bool_decide_reflect (Type_ n = CapabilityNetworkPolicyV2)) as [->|_].
  { rewrite !bool_decide_eq_false_2 by done. apply part_typed; [set_solver|]. intros a _. apply part_flagged. }
  destruct (bool_decide_reflect (Type_ n = CapabilityCredential)) as [->|_].
  { rewrite !bool_decide_eq_false_2 by done. apply part_flagged. }
  destruct (bool_decide_reflect (Type_ n = CapabilitySSHAgent)) as [->|_].
  { rewrite !bool_decide_eq_false_2 by done. apply part_constant. }
  destruct (bool_decide (Type_ n = CapabilityVolume)); [apply decoded_part, volume_part|].
  destruct (bool_decide (Type_ n = CapabilityAgentSkill)); [apply skill_part|].
  destruct (bool_decide (Type_ n = CapabilityAgentSkills)); [apply decoded_part, skills_part|].
  destruct (bool_decide (Type_ n = CapabilityPort)); [apply decoded_part, port_part|].
  repeat (destruct (bool_decide _); [apply part_alone|]). apply part_constant.
Qed.
End Entry.

(** ** Parts in sequence *)

Definition mark (p : bool) (st : seen) : seen := if p then defer st else st.
Definition parts (i : nat) (ts : list string) (p : bool) (f : seen → list FieldError * seen) (cl : list table_key) : Prop :=
  (∀ c, c ∈ cl → c.1 ∈ ts) ∧
  ∀ st, (∀ t, t ∈ ts → fresh t i st) →
    ((f st).1 = [] ↔ (f nothing_seen).1 = [] ∧ free st cl) ∧ ((f st).1 = [] → (f st).2 = mark p (noted i cl st)).
Definition in_turn (f g : seen → list FieldError * seen) (st : seen) : list FieldError * seen :=
  let '(e1, st) := f st in let '(e2, st) := g st in (e1 ++ e2, st).

Lemma part_parts i t f cl : part i t f cl → parts i [t] false f cl.
Proof.
  intros [Ht Hf]. split; [intros c Hc; apply list_elem_of_singleton; by apply Ht|]. intros st Hst.
  apply Hf, Hst, list_elem_of_singleton. done.
Qed.
Lemma parts_defer i errs : parts i [] true (λ st, (errs, defer st)) [].
Proof. split; [set_solver|]. intros st _. cbn. unfold free. set_solver. Qed.
Lemma parts_weaken i ts ts' p f cl : ts ⊆ ts' → parts i ts p f cl → parts i ts' p f cl.
Proof. intros Hs [Ht Hf]. split; [set_solver|]. intros st Hst. apply Hf. set_solver. Qed.
Lemma parts_ext i ts p f g cl : (∀ st, f st = g st) → parts i ts p f cl → parts i ts p g cl.
Proof. intros E [Ht Hf]. split; [done|]. intros st. rewrite <-!E. apply Hf. Qed.

Lemma noted_frees (i : nat) (ts : list string) (cl cl' : list table_key) (st : seen) :
  (∀ c, c ∈ cl → c.1 ∉ ts) → (∀ c, c ∈ cl' → c.1 ∈ ts) → free (noted i cl st) cl' ↔ free st cl'.
Proof.
  intros H1 H2. unfold free. split; intros H c Hc; specialize (H c Hc); rewrite noted_taken in *.
  - by case_bool_decide.
  - case_bool_decide as Hin; [|done]. exfalso. by apply (H1 c Hin), H2.
Qed.

Lemma parts_in_turn (i : nat) (ts ts' : list string) p f g (cl cl' : list table_key) :
  (∀ t, t ∈ ts → t ∉ ts') → parts i ts false f cl → parts i ts' p g cl' →
  parts i (ts ++ ts') p (in_turn f g) (cl ++ cl').
Proof.
  intros Hd [Ht Hf] [Ht' Hg]. split; [set_solver|].
  assert (∀ st, (∀ t, t ∈ ts ++ ts' → fresh t i st) →
    ((in_turn f g st).1 = [] ↔ (f nothing_seen).1 = [] ∧ (g nothing_seen).1 = [] ∧ free st (cl ++ cl')) ∧
    ((in_turn f g st).1 = [] → (in_turn f g st).2 = mark p (noted i (cl ++ cl') st))) as Hall.
  { intros st Hst. destruct (Hf st) as [Hf1 Hf2]; [set_solver|]. unfold in_turn.
    destruct (f st) as [e1 st1]. cbn [fst snd] in Hf1, Hf2.
    assert (e1 = [] → ((g st1).1 = [] ↔ (g nothing_seen).1 = [] ∧ free st cl') ∧
      ((g st1).1 = [] → (g st1).2 = mark p (noted i cl' st1)) ∧ st1 = noted i cl st) as Hgs.
    { intros He. rewrite (Hf2 He). cbn [mark]. destruct (Hg (noted i cl st)) as [Hg1 Hg2].
      - intros t Hin. apply noted_fresh; [|apply Hst; set_solver]. intros c Hc <-. by apply (Hd c.1); [apply Ht|].
      - rewrite (noted_frees i ts') in Hg1; [done| |done]. intros c Hc Hc'. by apply (Hd c.1); [apply Ht|]. }
    destruct (g st1) as [e2 st2]. cbn [fst snd] in *. rewrite app_nil, free_app, noted_app. split.
    - split.
      + intros [He1 He2]. destruct (Hgs He1) as [Hg1 _]. tauto.
      + intros (H1 & H2 & H3 & H4). assert (e1 = []) as He1 by tauto. destruct (Hgs He1) as [Hg1 _]. tauto.
    - intros [He1 He2]. destruct (Hgs He1) as (_ & Hg2 & ->). by apply Hg2. }
  intros st Hst. destruct (Hall st Hst) as [H1 H2]. split; [|done]. rewrite H1.
  destruct (Hall nothing_seen) as [H3 _]; [intros; apply fresh_nothing|]. rewrite H3.
  pose proof (free_nothing (cl ++ cl')). tauto.
Qed.

(** Checks beside a sequence. *)
Lemma parts_beside i ts p f cl errs :
  parts i ts p f cl → parts i ts p (λ st, (errs ++ (f st).1, (f st).2)) cl.
Proof.
  intros [Ht Hf]. split; [done|]. intros st Hst. cbn. destruct (Hf st Hst) as [H1 H2].
  rewrite !app_nil, H1. split; [tauto|]. intros [_ H]. by apply H2, H1.
Qed.

Section Entries.
Context `{Documents}.

Definition entry_tables (n : Capability) : list string :=
  ["seenSSHAgent"] ++ ["seenCredential"] ++ [instance_table n].
Lemma instance_tables n : instance_table n ∈ ["seenVolume"; "seenBundledSkills"; "seenSkills"; "seenPort"].
Proof. unfold instance_table. repeat (destruct (bool_decide _); [set_solver|]). set_solver. Qed.

Definition entry_claims (n : Capability) : list table_key :=
  agent_claims n ++ credential_claims n ++ (if capabilityIsParameterized n then [] else instance_claims n).

Lemma rules_part kind path i n :
  parts i (entry_tables n) (capabilityIsParameterized n) (entry_rules kind path i n) (entry_claims n).
Proof.
  set (last_part := λ st, if capabilityIsParameterized n then (validatePresenceRules path n, defer st)
                          else typed_entry kind path i n st).
  assert (parts i [instance_table n] (capabilityIsParameterized n) last_part
    (if capabilityIsParameterized n then [] else instance_claims n)) as Hlast.
  { unfold last_part. destruct (capabilityIsParameterized n).
    - eapply parts_weaken; [|apply parts_defer]. set_solver.
    - apply part_parts, instance_part. }
  pose proof (instance_tables n) as Hin.
  assert (instance_table n ≠ "seenSSHAgent" ∧ instance_table n ≠ "seenCredential") as [Hn1 Hn2].
  { clear -Hin. split; intros E; rewrite E in Hin; set_solver. }
  eapply parts_ext; [|apply (parts_beside _ _ _ (in_turn (agent_phases path i n) (in_turn (credential_phases path i n) last_part)))].
  - intros st. unfold entry_rules, in_turn, last_part. destruct (agent_phases path i n st) as [e1 st1].
    destruct (credential_phases path i n st1) as [e2 st2].
    destruct (capabilityIsParameterized n); [done|]. by destruct (typed_entry kind path i n st2).
  - apply parts_in_turn; [set_solver|apply part_parts, agent_part|].
    apply parts_in_turn; [set_solver|apply part_parts, credential_part|done].
Qed.

Lemma singleton_part i n path r :
  part i "seenSingleton" (λ st, (report (second_singleton n st) path r, singleton_entry i n st))
    (if bool_decide (Type_ n ∈ singletonCapabilities) then [("seenSingleton", Type_ n)] else []).
Proof.
  unfold singleton_entry, second_singleton.
  destruct (bool_decide (Type_ n ∈ singletonCapabilities)); cbn [andb]; [|apply part_constant].
  destruct (part_claim i "seenSingleton" (Type_ n) path) as [Ht Hc]. split; [done|].
  intros st Hst. specialize (Hc st Hst). cbn [fst snd]. rewrite !report_nil in *. split.
  - cbn [claim fst] in Hc. rewrite !report_nil in Hc. apply Hc.
  - intros ->. done.
Qed.

Definition all_tables (n : Capability) : list string := ["seenSingleton"] ++ ["seenExact"] ++ entry_tables n.

(** A check that agrees with another where either accepts. *)
Lemma parts_agree i ts p (f g : seen → list FieldError * seen) cl :
  (∀ st, ((f st).1 = [] ↔ (g st).1 = []) ∧ ((g st).1 = [] → (f st).2 = (g st).2)) →
  parts i ts p g cl → parts i ts p f cl.
Proof.
  intros E [Ht Hg]. split; [done|]. intros st Hst. destruct (Hg st Hst) as [H1 H2].
  destruct (E st) as [E1 E2]. destruct (E nothing_seen) as [E3 _]. rewrite E1, E3. split; [done|].
  intros Hacc. rewrite E2 by done. by apply H2.
Qed.
Lemma parts_refused i ts p f cl :
  (∀ c, c ∈ cl → c.1 ∈ ts) → (∀ st, (f st).1 ≠ []) → parts i ts p f cl.
Proof. intros Ht Hf. split; [done|]. intros st _. pose proof (Hf st). pose proof (Hf nothing_seen). tauto. Qed.

Lemma claims_tables n c : c ∈ claims n → c.1 ∈ all_tables n.
Proof using H.
  destruct (rules_part "" "" 0 n) as [Hr _]. unfold claims, all_tables. fold (entry_claims n).
  intros Hc. apply elem_of_app in Hc as [Hc|Hc].
  { destruct (bool_decide _); [|by apply not_elem_of_nil in Hc]. apply list_elem_of_singleton in Hc as ->. by left. }
  apply elem_of_app in Hc as [->%list_elem_of_singleton|Hc]; [set_solver|]. apply Hr in Hc. set_solver.
Qed.

Lemma entry_part kind i n :
  parts i (all_tables n) (capabilityIsParameterized n) (validate_entry kind i n) (claims n).
Proof.
  destruct (matches needType (Type_ n)) eqn:Hm.
  2:{ apply parts_refused; [apply claims_tables|]. intros st. unfold validate_entry. rewrite Hm. cbn.
      by intros [_ ?]%app_nil. }
  set (path := indexed "capabilities" i).
  eapply parts_agree; [|apply (parts_beside _ _ _
    (in_turn (λ st, (report (second_singleton n st) (path +:+ ".type") (ListedTwice (Type_ n)), singleton_entry i n st))
      (in_turn (claim "seenExact" (capabilitySurfaceEntry n) path i) (entry_rules kind path i n))) _ (entry_syntax path n))].
  - intros st. unfold validate_entry, in_turn, claim. rewrite Hm. cbn [negb]. fold path.
    destruct (bool_decide (is_Some (taken (singleton_entry i n st) !! _))) eqn:Ht; cbn [report].
    + destruct (entry_rules kind path i n _) as [e3 st3]. cbn [fst snd]. rewrite !app_nil. split.
      * split; [|by intros (_ & _ & ? & _)]. intros (_ & Hs & Hd). rewrite report_nil in Hs.
        by rewrite Hs in Hd.
      * by intros (_ & _ & ? & _).
    + destruct (entry_rules kind path i n _) as [e3 st3]. done.
  - apply parts_in_turn; [unfold entry_tables; pose proof (instance_tables n) as Hin; clear -Hin; intros t ->%list_elem_of_singleton;
      cbn; intros Ht; assert ("seenSingleton" = instance_table n) as E by set_solver; rewrite <-E in Hin; set_solver
      |apply part_parts, singleton_part|].
    apply parts_in_turn; [|apply part_parts, part_claim|apply rules_part].
    unfold entry_tables; pose proof (instance_tables n) as Hin; clear -Hin; intros t ->%list_elem_of_singleton;
      cbn; intros Ht; assert ("seenExact" = instance_table n) as E by set_solver; rewrite <-E in Hin; set_solver.
Qed.

(** ** The entries of a block *)

(** An entry passes on its own: with nothing taken before it. *)
Definition accepted_alone (kind : string) (i : nat) (n : Capability) : Prop :=
  (validate_entry kind i n nothing_seen).1 = [].
(** No two entries take the same key. *)
Definition apart (needs : list Capability) : Prop :=
  ∀ j k n m c, j < k → needs !! j = Some n → needs !! k = Some m → c ∈ claims n → c ∉ claims m.
Definition below (i : nat) (st : seen) : Prop := ∀ c j, taken st !! c = Some j → j < i.

Lemma apart_cons n needs : apart (n :: needs) ↔ (∀ m c, m ∈ needs → c ∈ claims n → c ∉ claims m) ∧ apart needs.
Proof.
  split.
  - intros Ha. split.
    + intros m c [k Hk]%list_elem_of_lookup Hc. by apply (Ha 0 (S k) n m c); [lia| | |].
    + intros j k n' m c Hjk Hj Hk. by apply (Ha (S j) (S k)); [lia| |].
  - intros [Hn Ha] [|j] [|k] n' m c Hjk Hj Hk; try lia; cbn in Hj, Hk.
    + injection Hj as <-. apply Hn. by apply list_elem_of_lookup_2 in Hk.
    + apply (Ha j k); [lia|done|done].
Qed.

Lemma entry_step kind i n st :
  below i st →
  ((validate_entry kind i n st).1 = [] ↔ accepted_alone kind i n ∧ free st (claims n)) ∧
  ((validate_entry kind i n st).1 = [] →
   (validate_entry kind i n st).2 = mark (capabilityIsParameterized n) (noted i (claims n) st)).
Proof. intros Hb. apply (entry_part kind i n). intros t _ k j. apply Hb. Qed.

Lemma below_noted i p cl st : below i st → below (S i) (mark p (noted i cl st)).
Proof.
  intros Hb c j. assert (taken (mark p (noted i cl st)) = taken (noted i cl st)) as -> by by destruct p.
  rewrite noted_taken. case_bool_decide; [intros [= <-]; lia|]. intros Hj%Hb. lia.
Qed.
Lemma free_noted i p cl cl' st :
  free (mark p (noted i cl st)) cl' ↔ free st cl' ∧ ∀ c : table_key, c ∈ cl → c ∉ cl'.
Proof.
  unfold free. assert (taken (mark p (noted i cl st)) = taken (noted i cl st)) as -> by by destruct p.
  setoid_rewrite noted_taken. split.
  - intros Hf. split.
    + intros c Hc. specialize (Hf c Hc). by case_bool_decide.
    + intros c Hc Hc'. specialize (Hf c Hc'). by rewrite bool_decide_eq_true_2 in Hf.
  - intros [Hf Hd] c Hc. case_bool_decide as Hin; [by destruct (Hd c Hin)|by apply Hf].
Qed.

Lemma entries_accept kind needs : ∀ i st, below i st →
  (validate_entries kind i needs st).1 = [] ↔
    (∀ j n, needs !! j = Some n → accepted_alone kind (i + j) n) ∧
    (∀ n, n ∈ needs → free st (claims n)) ∧ apart needs.
Proof.
  induction needs as [|n needs IH]; intros i st Hb.
  - cbn. split; [|done]. intros _. split; [done|]. split; [by intros n ?%not_elem_of_nil|by intros j k ? ? ? ? ?].
  - cbn [validate_entries]. destruct (entry_step kind i n st Hb) as [H1 H2].
    destruct (validate_entry kind i n st) as [errs st'].
    specialize (IH (S i) (mark (capabilityIsParameterized n) (noted i (claims n) st)) (below_noted _ _ _ _ Hb)).
    cbn [fst snd] in H1, H2.
    assert (errs = [] → (validate_entries kind (S i) needs st').1 = [] ↔
      (∀ j n, needs !! j = Some n → accepted_alone kind (S i + j) n) ∧
      (∀ m, m ∈ needs → free st (claims m)) ∧ (∀ m c, m ∈ needs → c ∈ claims n → c ∉ claims m) ∧ apart needs) as IH'.
    { intros He. rewrite (H2 He), IH. setoid_rewrite free_noted. naive_solver. }
    destruct (validate_entries kind (S i) needs st') as [rest st'']. cbn [fst snd] in *.
    rewrite app_nil, apart_cons. setoid_rewrite elem_of_cons. split.
    + intros [He Hr]. apply H1 in He as Hn. apply (IH' He) in Hr as (Ha & Hf & Hd & Hap). split; [|split; [|done]].
      * intros [|j] m Hm; [|rewrite <-Nat.add_succ_comm; by apply Ha]. injection Hm as <-. rewrite Nat.add_0_r. tauto.
      * intros m [->|Hm]; [tauto|by apply Hf].
    + intros (Ha & Hf & Hd & Hap). assert (errs = []) as He.
      { apply H1. split; [|by apply Hf; left]. specialize (Ha 0 n eq_refl). by rewrite Nat.add_0_r in Ha. }
      split; [done|]. apply (IH' He). split; [|split; [|done]].
      * intros j m Hm. rewrite Nat.add_succ_comm. by apply Ha.
      * intros m Hm. apply Hf. by right.
Qed.

(** What accepted entries leave behind. *)
Lemma entries_state kind needs : ∀ i st, below i st → (validate_entries kind i needs st).1 = [] →
  let st' := (validate_entries kind i needs st).2 in
  invalid st' = invalid st ∧ deferred st' = deferred st || existsb capabilityIsParameterized needs ∧
  ∀ c, is_Some (taken st' !! c) ↔ is_Some (taken st !! c) ∨ ∃ n, n ∈ needs ∧ c ∈ claims n.
Proof.
  induction needs as [|n needs IH]; intros i st Hb Hacc.
  - cbn. split; [done|]. split; [by rewrite orb_false_r|]. intros c. split; [by left|].
    intros [|(n & ?%not_elem_of_nil & _)]; done.
  - cbn [validate_entries existsb] in *. destruct (entry_step kind i n st Hb) as [_ H2].
    destruct (validate_entry kind i n st) as [errs st'].
    specialize (IH (S i) st'). destruct (validate_entries kind (S i) needs st') as [rest st''].
    cbn [fst snd] in *. apply app_nil in Hacc as [He Hr]. rewrite (H2 He) in IH.
    destruct (IH (below_noted _ _ _ _ Hb) Hr) as (Hi & Hd & Ht).
    destruct (noted_rest i (claims n) st) as [Hnd Hni]. split; [|split].
    + rewrite Hi. by destruct (capabilityIsParameterized n).
    + rewrite Hd, orb_assoc. f_equal. destruct (capabilityIsParameterized n); cbn; [by rewrite orb_true_r|].
      by rewrite orb_false_r.
    + intros c. rewrite Ht. setoid_rewrite elem_of_cons.
      assert (taken (mark (capabilityIsParameterized n) (noted i (claims n) st)) = taken (noted i (claims n) st)) as ->
        by by destruct (capabilityIsParameterized n).
      rewrite noted_taken. case_bool_decide; naive_solver.
Qed.
End Entries.

(** ** A block *)

Definition mentions (typ : string) (needs : list Capability) : Prop := ∃ n, n ∈ needs ∧ Type_ n = typ.

(** Every host a credential is injected at is allowed, in the credential's phases. *)
Definition injects_within (needs : list Capability) : Prop :=
  ∃ policy, NetworkPolicyV2Of needs = Ok policy ∧
  ∀ n, n ∈ needs → Type_ n = CapabilityCredential →
  ∃ c, DecodeCapabilityConfig decode_credential zero_credential n = Ok c ∧
  ∀ k phase inj, Credential_APIKey c = Some k → phase ∈ elems (Credential_Phase c) → inj ∈ APIKey_Inject k →
  domain_allowed (phaseAllow policy phase) (Inject_Domain inj) = true.

Lemma mentions_has typ needs : mentions typ needs ↔ HasCapability needs typ = true.
Proof.
  unfold HasCapability, mentions. rewrite existsb_exists. setoid_rewrite list_elem_of_In.
  by setoid_rewrite bool_decide_eq_true.
Qed.

Lemma inject_entry_nil policy i n :
  inject_entry policy ∅ i n = [] ↔
  (Type_ n = CapabilityCredential →
   ∃ c, DecodeCapabilityConfig decode_credential zero_credential n = Ok c ∧
   ∀ k phase inj, Credential_APIKey c = Some k → phase ∈ elems (Credential_Phase c) → inj ∈ APIKey_Inject k →
   domain_allowed (phaseAllow policy phase) (Inject_Domain inj) = true).
Proof.
  unfold inject_entry. rewrite (bool_decide_eq_false_2 (i ∈ ∅)) by set_solver. rewrite orb_false_r.
  destruct (bool_decide_reflect (Type_ n = CapabilityCredential)) as [Hn|Hn]; [|by split]. cbn [negb].
  destruct (DecodeCapabilityConfig _ _ _) as [c|e]; [|by split; [|intros (? & ? & _)]].
  unfold inject_errors. split.
  - intros He _. exists c. split; [done|]. intros k phase inj Hk Hp [j Hj]%list_elem_of_lookup. rewrite Hk in He.
    rewrite flat_map_empty in He. specialize (He phase Hp). rewrite each_nil in He.
    specialize (He j inj Hj). apply report_nil, negb_false_iff in He. done.
  - intros Hall. destruct (Hall Hn) as (c' & [= <-] & Hc). destruct (Credential_APIKey c) as [k|]; [|done].
    apply flat_map_empty. intros phase Hp. apply each_nil. intros j inj Hj. apply report_nil, negb_false_iff.
    apply (Hc k); [done|done|]. by apply list_elem_of_lookup_2 in Hj.
Qed.
Lemma injects_within_exact needs : validateInjectWithinAllow needs ∅ = [] ↔ injects_within needs.
Proof.
  unfold validateInjectWithinAllow, injects_within. destruct (NetworkPolicyV2Of needs) as [policy|e]; [|by split; [|intros (? & ? & _)]].
  rewrite each_nil. setoid_rewrite inject_entry_nil. split.
  - intros Ha. exists policy. split; [done|]. intros n [i Hi]%list_elem_of_lookup. by apply (Ha i).
  - intros (p & [= <-] & Ha) i n Hi. apply Ha. by apply list_elem_of_lookup_2 in Hi.
Qed.

Section Block.
Context `{Documents}.

Lemma claims_singleton typ n :
  typ ∈ singletonCapabilities → ("seenSingleton", typ) ∈ claims n ↔ Type_ n = typ.
Proof using H.
  intros Hs. split.
  - intros Hc. unfold claims in Hc. fold (entry_claims n) in Hc. apply elem_of_app in Hc as [Hc|Hc].
    { destruct (bool_decide _); [|by apply not_elem_of_nil in Hc]. apply list_elem_of_singleton in Hc. congruence. }
    apply elem_of_app in Hc as [Hc%list_elem_of_singleton|Hc]; [done|].
    apply (proj1 (rules_part "" "" 0 n)) in Hc. unfold entry_tables in Hc. pose proof (instance_tables n) as Hin.
    cbn [fst app] in Hc. rewrite !elem_of_cons in Hc. destruct Hc as [|[|[Hc|Hc]]]; try done.
    + rewrite <-Hc in Hin. set_solver.
    + by apply not_elem_of_nil in Hc.
  - intros <-. unfold claims. rewrite bool_decide_eq_true_2 by done. by left.
Qed.

(** The two policy versions are refused together. *)
Lemma versions_nil kind needs :
  (validate_entries kind 0 needs nothing_seen).1 = [] →
  let st := (validate_entries kind 0 needs nothing_seen).2 in
  match taken st !! ("seenSingleton", CapabilityNetworkPolicy), taken st !! ("seenSingleton", CapabilityNetworkPolicyV2) with
  | Some _, Some two => [mkFieldError (indexed "capabilities" two +:+ ".type") TwoPolicyVersions]
  | _, _ => []
  end = [] ↔ ¬ (mentions CapabilityNetworkPolicy needs ∧ mentions CapabilityNetworkPolicyV2 needs).
Proof.
  intros Hacc st. destruct (entries_state kind needs 0 nothing_seen) as (_ & _ & Ht); [|done|].
  { intros c j. cbn. by rewrite lookup_empty. }
  fold st in Ht. assert (∀ typ, typ ∈ singletonCapabilities →
    is_Some (taken st !! ("seenSingleton", typ)) ↔ mentions typ needs) as Hm.
  { intros typ Hs. rewrite Ht. cbn. rewrite lookup_empty. unfold mentions.
    setoid_rewrite (claims_singleton typ _ Hs). split; [by intros [[? ?]|]|by right]. }
  rewrite <-(Hm CapabilityNetworkPolicy), <-(Hm CapabilityNetworkPolicyV2) by (vm_compute; set_solver).
  destruct (taken st !! _) as [one|], (taken st !! _) as [two|]; split; try done; intros Hn.
  - destruct Hn. by split.
  - by intros [? [? ?]].
  - by intros [[? ?] ?].
  - by intros [[? ?] ?].
Qed.

(** C14: [validateCapabilityBlock] accepts a block exactly when a mixin does not ask to be the workload's sandbox,
    every entry passes alone, no two entries claim the same thing (a singleton type, the same surface entry, a
    credential or agent phase, a volume, skill directory, bundled skill or port), the two versions of the network
    policy do not meet, and -- unless the block only declares, or a placeholder puts it off -- every host a
    credential is injected at is allowed in the credential's phases. *)
Theorem capability_block_exact (d : Descriptor) :
  validateCapabilityBlock d = [] ↔
    ¬ (Kind d = KindMixin ∧ mentions CapabilitySbx (Capabilities d)) ∧
    (∀ i n, Capabilities d !! i = Some n → accepted_alone (Kind d) i n) ∧
    apart (Capabilities d) ∧
    ¬ (mentions CapabilityNetworkPolicy (Capabilities d) ∧ mentions CapabilityNetworkPolicyV2 (Capabilities d)) ∧
    (declarationsOnly d = false → existsb capabilityIsParameterized (Capabilities d) = false →
     injects_within (Capabilities d)).
Proof.
  assert (below 0 nothing_seen) as Hb by (intros c j; cbn; by rewrite lookup_empty).
  pose proof (entries_accept (Kind d) (Capabilities d) 0 nothing_seen Hb) as Ha.
  pose proof (entries_state (Kind d) (Capabilities d) 0 nothing_seen Hb) as Hs.
  pose proof (versions_nil (Kind d) (Capabilities d)) as Hv.
  unfold validateCapabilityBlock. destruct (validate_entries (Kind d) 0 (Capabilities d) nothing_seen) as [errs st].
  cbn [fst snd] in *. set (versions := match taken st !! _ with Some _ => _ | None => _ end) in *.
  rewrite !app_nil, report_nil, andb_false_iff, bool_decide_eq_false, <-(not_true_iff_false (HasCapability _ _)), <-mentions_has, Ha.
  assert (errs = [] → versions = [] → ((if deferred st || negb (bool_decide (versions = [])) || declarationsOnly d
     then [] else validateInjectWithinAllow (Capabilities d) (invalid st)) = [] ↔
     (declarationsOnly d = false → existsb capabilityIsParameterized (Capabilities d) = false →
      injects_within (Capabilities d)))) as Hi.
  { intros He Hvs. destruct (Hs He) as (-> & -> & _). rewrite (bool_decide_eq_true_2 _ Hvs). cbn [nothing_seen deferred invalid].
    destruct (existsb _ _), (declarationsOnly d); cbn [orb negb]; rewrite ?injects_within_exact; naive_solver. }
  pose proof (λ n, free_nothing (claims n)) as Hf. cbn [plus] in *.
  split.
  - intros (Hm & He & Hvs & Hin). assert (errs = []) as Hnil by tauto. rewrite Hi in Hin by done.
    rewrite Hv in Hvs by done. split; [|tauto]. intros [? ?]. tauto.
  - intros (Hm & He & Hap & Hvs & Hin). assert (errs = []) as Hnil by by apply Ha.
    assert (versions = []) as Hver by by apply Hv. rewrite Hi by done. split; [|tauto].
    destruct (decide (Kind d = KindMixin)); [right|by left]. tauto.
Qed.
End Block.

(** ** What the resolver can count on *)

(** A kit as the frontend lets it be published. *)
Definition published_unit `{Documents} (u : Unit) : Prop :=
  ∃ d raw, Unit_Descriptor u = Some d ∧ (ValidatePublished raw d).2 = [].
(** A problem that is one kit's own mistake, not a fact of the set. *)
Definition malformed (p : problem) : bool :=
  match p with MalformedProvide _ _ | MalformedRequire _ _ => true | _ => false end.

Lemma parse_problem_nil {A} path entry (r : result parse_error A) :
  parse_problem path entry r = [] ↔ is_ok r = true.
Proof. by destruct r. Qed.
Lemma require_nil field i s : validate_require field i s = [] → is_ok (ParseRequire s) = true.
Proof. unfold validate_require. destruct (has_arg s); [done|]. apply parse_problem_nil. Qed.

Lemma workload_wellformed units partial w ps :
  checkOneWorkload units partial = (w, ps) → ∀ p, p ∈ ps → malformed p = false.
Proof.
  assert (∀ w p, p ∈ (checkOneWorkload_loop w units).2 → malformed p = false) as Hl.
  { induction units as [|u units IH]; intros w' p Hp; [by apply not_elem_of_nil in Hp|]. cbn in Hp.
    destruct (negb _); [by apply (IH w')|]. destruct w' as [w'|]; [|by apply (IH (Some u))].
    pose proof (IH (Some w') p) as IHp.
    destruct (checkOneWorkload_loop (Some w') units) as [r qs]. apply elem_of_cons in Hp as [->|Hp]; [done|by apply IHp]. }
  unfold checkOneWorkload. intros E p Hp. specialize (Hl None p).
  destruct (checkOneWorkload_loop None units) as [w' qs]. injection E as -> <-.
  apply elem_of_app in Hp as [Hp|Hp]; [by apply Hl|].
  destruct w; [by apply not_elem_of_nil in Hp|]. destruct partial; [by apply not_elem_of_nil in Hp|].
  by apply list_elem_of_singleton in Hp as ->.
Qed.
Lemma groups_wellformed units p : p ∈ flat_map checkGroups units → malformed p = false.
Proof.
  intros (u & _ & Hp)%elem_of_flat_map. unfold checkGroups in Hp.
  apply list_elem_of_In, in_concat in Hp as (l & Hl & Hp). apply list_elem_of_In, elem_of_lookup_imap in Hl as (i & c & -> & _).
  destruct (Group c); [|done]. by destruct Hp as [<-|[]].
Qed.

Section Published.
Context `{Documents}.

Lemma published_names raw d :
  (ValidatePublished raw d).2 = [] →
  (∀ s, s ∈ Provides d → ∃ p, ParseProvide s = Ok p ∧ (Types.Version d = "" → PVersion p ≠ "")) ∧
  (∀ s, s ∈ Requires d ++ Integrates d → is_ok (ParseRequire s) = true).
Proof.
  unfold ValidatePublished, ValidateRaw, Validate, validateCapabilityNames. cbn [Types.Version Provides Requires Integrates Conflicts
    Kind IconURL Args Kits set_declarations_only].
  intros Hnil. cbn [snd] in Hnil. rewrite !app_nil in Hnil. destruct Hnil as (Hraw & _ & _ & Hargs & Hver & _).
  destruct Hraw as ((_ & _ & (_ & Hp & Hr & Hi & _) & _) & _). rewrite each_nil in Hargs, Hp, Hr, Hi. split.
  - intros s Hs. apply list_elem_of_lookup in Hs as [i Hs]. specialize (Hp i s Hs). specialize (Hargs i s Hs).
    apply report_nil in Hargs. unfold validate_provide in Hp. rewrite Hargs in Hp.
    destruct (ParseProvide s) as [p|] eqn:Ep; [|done]. exists p. split; [done|]. intros Hv.
    rewrite bool_decide_eq_true_2, each_nil in Hver by done. specialize (Hver i s Hs). rewrite Hargs in Hver.
    unfold unversioned in Hver. rewrite Ep, report_nil in Hver. by apply bool_decide_eq_false in Hver.
  - intros s [Hs|Hs]%elem_of_app; apply list_elem_of_lookup in Hs as [i Hs]; eapply require_nil; [by apply Hr|by apply Hi].
Qed.

Lemma index_wellformed u fallback l st :
  (∀ s, s ∈ l → is_ok (ParseProvide s) = true) → (foldl (index_entry u fallback) st l).2 = st.2.
Proof.
  revert st. induction l as [|s l IH]; intros [ix ps] Hl; [done|]. cbn [foldl index_entry].
  pose proof (Hl s ltac:(by left)) as Hs. destruct (ParseProvide s); [|done].
  by rewrite IH by (intros; apply Hl; by right).
Qed.
Lemma effective_stated u d :
  Unit_Descriptor u = Some d → effective_version u = "" → Types.Version d = "".
Proof. intros E. unfold effective_version, EffectiveProvideVersion. rewrite E. case_bool_decide; done. Qed.

Lemma published_described units : Forall published_unit units → described units.
Proof. intros Hu. eapply Forall_impl; [exact Hu|]. intros u (d & raw & -> & _). by eexists. Qed.

Lemma published_problems units partial capabilities :
  Forall published_unit units →
  ∀ p, p ∈ (coherence units partial capabilities).2 → malformed p = false.
Proof.
  intros Hu. rewrite Forall_forall in Hu.
  assert ((providesIndex units).2 = []) as Hix.
  { unfold providesIndex. generalize (∅ : gmap string (list provider)) as ix. induction units as [|u units IH]; intros ix; [done|].
    cbn [foldl]. destruct (Hu u ltac:(by left)) as (d & raw & Hd & Hv).
    pose proof (index_wellformed u (if bool_decide (VersionFromReference (Reference u) = "") then Types.Version (descriptor u)
      else VersionFromReference (Reference u)) (Provides (descriptor u)) (ix, [])) as Hw.
    unfold index_unit at 2. destruct (foldl (index_entry u _) (ix, []) _) as [ix' ps]. cbn in Hw. rewrite Hw.
    - apply IH. intros v Hv'. apply Hu. by right.
    - intros s Hs. unfold descriptor in Hs. rewrite Hd in Hs. destruct (published_names raw d Hv) as [Hp _].
      by destruct (Hp s Hs) as (q & -> & _). }
  assert (∀ u s, u ∈ units → s ∈ Requires (descriptor u) ++ Integrates (descriptor u) → is_ok (ParseRequire s) = true) as Hreq.
  { intros u s Hin Hs. destruct (Hu u Hin) as (d & raw & Hd & Hv). unfold descriptor in Hs. rewrite Hd in Hs.
    by apply (published_names raw d Hv). }
  unfold coherence. destruct (checkOneWorkload units partial) as [w p1] eqn:Ew.
  destruct (providesIndex units) as [ix p2]. cbn in Hix. subst p2. cbn [snd]. intros p.
  rewrite !elem_of_app. intros [Hp|[Hp|[Hp|[Hp|[Hp|[Hp|Hp]]]]]].
  - by apply (workload_wellformed units partial w p1 Ew).
  - by apply not_elem_of_nil in Hp.
  - unfold checkOneProviderPerName in Hp. by apply list_elem_of_fmap in Hp as (? & -> & _).
  - destruct capabilities; [|by apply not_elem_of_nil in Hp]. apply elem_of_app in Hp as [Hp|Hp].
    + by apply (groups_wellformed units).
    + unfold checkOneCredentialOwner in Hp. by apply list_elem_of_fmap in Hp as (? & -> & _).
  - apply elem_of_flat_map in Hp as (u & Hin & (s & Hs & Hp)%elem_of_flat_map). unfold requires_problem in Hp.
    specialize (Hreq u s Hin ltac:(set_solver)). destruct (ParseRequire s); [|done].
    destruct (satisfiedBy _ _ _); [by apply not_elem_of_nil in Hp|].
    destruct (providers ix _); by apply list_elem_of_singleton in Hp as ->.
  - apply elem_of_flat_map in Hp as (u & Hin & (s & Hs & Hp)%elem_of_flat_map). unfold integrates_problem in Hp.
    specialize (Hreq u s Hin ltac:(set_solver)). destruct (ParseRequire s); [|done].
    destruct (othersProviding _ _ _); [by apply not_elem_of_nil in Hp|].
    destruct (satisfiedBy _ _ _); [by apply not_elem_of_nil in Hp|]. by apply list_elem_of_singleton in Hp as ->.
  - apply elem_of_flat_map in Hp as (u & Hin & (s & Hs & Hp)%elem_of_flat_map). unfold conflicts_problem in Hp.
    by apply list_elem_of_fmap in Hp as (? & -> & _).
Qed.
End Published.

Definition bare_documents : Documents :=
  {| yaml_value := λ _, Ok VNull; yaml_descriptor := λ _, Err ""; document_nodes := {| yaml_nodes := λ _, Err "" |};
     float_literal := λ _, None; float_negative := λ _, false; url_parts := λ _, Err "";
     regexp_compiles := λ _, true; image_reference := λ _, Ok None |}.
Definition published_zlib : Unit := sample_kit 0 "reg.io/zlib:3" KindMixin ["zlib@3"] ["libc >= 1"] [].
Definition published_libc : Unit := sample_kit 1 "reg.io/libc" KindMixin ["libc@0.9"] [] ["zlib"].

(** Of a set of kits as they may be published, the resolver reports only what is wrong with the set, never a
    provide or require of one kit it cannot read; and every offer in its index names a version, so no
    constraint fails for want of one. *)
Theorem published_kits_resolve `{Documents} (units : list Unit) (partial capabilities : bool) :
  Forall published_unit units →
  (∀ p, p ∈ (coherence units partial capabilities).2 → malformed p = false) ∧
  (∀ name p, p ∈ providers (providesIndex units).1 name → PVersion (provide p) ≠ "").
Proof.
  intros Hu. split; [by apply published_problems|]. intros name p Hp.
  rewrite providesIndex_providers in Hp by by apply published_described.
  apply list_elem_of_In, filter_In in Hp as [Hp%list_elem_of_In _]. apply elem_of_flat_map in Hp as (u & Hin & Hp).
  rewrite Forall_forall in Hu. destruct (Hu u Hin) as (d & raw & Hd & Hv).
  apply list_elem_of_omap in Hp as (s & Hs & Hp). unfold descriptor in Hs. rewrite Hd in Hs.
  destruct (published_names raw d Hv) as [Hnames _]. destruct (Hnames s Hs) as (q & Hq & Hver).
  rewrite Hq in Hp. injection Hp as <-. cbn. pose proof (effective_stated u d Hd) as Hst.
  unfold versioned. destruct (bool_decide_reflect (PVersion q = "")) as [Eq|]; [|done].
  destruct (bool_decide_reflect (effective_version u = "")) as [Ee|]; [|done]. by destruct (Hver (Hst Ee) Eq).
Qed.
Lemma published_kits_resolve_witness :
  (∀ p, p ∈ (coherence [published_zlib; published_libc] true true).2 → malformed p = false) ∧
  (∀ name p, p ∈ providers (providesIndex [published_zlib; published_libc]).1 name → PVersion (provide p) ≠ "").
Proof.
  apply (@published_kits_resolve bare_documents).
  repeat constructor; eexists _, ""; (split; [done|by vm_compute]).
Defined.

(** The set itself is refused: nothing new enough provides libc. *)
Example published_set_refused :
  (coherence [published_zlib; published_libc] true true).2 =
  [OnlyOffers "reg.io/zlib:3" "libc >= 1" ["libc@0.9 (from reg.io/libc)"]].
Proof. by vm_compute. Qed.
