(* ===== verification/Overlay.v ===== *)
(** [internal/overlayfs/fs.go]: the filesystem that extracted image layers expose
    — one tree per layer, built entry by entry the way the extractor applies an
    archive, and the trees stacked the way overlayfs presents them.

    A node of the code is shared only by hard links, and only directories are
    ever modified, which no hard link names; so a tree is a value here, and an
    update of a directory rebuilds the path to it.  The resolver's table of
    directories it has resolved answers what the walk would: the trees it
    consults do not change while it lives. *)
From stdpp Require Import options.
From S2P Require Import Prelude GoStrings GoPath.

(** ** Trees *)

Definition maxLookupSymlinks : nat := 40.
Definition maxExtractSymlinks : nat := 255.
Definition maxPathLen : nat := 4095.

(** The owner and mode of a directory; without [explicit] the unknown base
    supplies them. *)
Record dirmeta := mkDirmeta { explicit : bool; uid : Z; gid : Z; mode : Z }.
#[export] Instance dirmeta_eq_dec : EqDecision dirmeta.
Proof. solve_decision. Defined.

(** A directory lists its children by name, in order. *)
Inductive fsNode :=
  | Dir (meta : dirmeta) (opaque : bool) (children : list (string * fsNode))
  | File
  | Symlink (link : string)
  | Whiteout.

Definition no_meta : dirmeta := mkDirmeta false 0 0 0.
Definition newDir : fsNode := Dir no_meta false [].

Definition is_dir (n : fsNode) : bool := match n with Dir _ _ _ => true | _ => false end.
Definition children (n : fsNode) : list (string * fsNode) :=
  match n with Dir _ _ ch => ch | _ => [] end.
Definition dir_meta (n : fsNode) : dirmeta := match n with Dir m _ _ => m | _ => no_meta end.
Definition is_opaque (n : fsNode) : bool := match n with Dir _ o _ => o | _ => false end.

(** The children as a map: lookup, insertion in name order, deletion. *)
Fixpoint get (name : string) (l : list (string * fsNode)) : option fsNode :=
  match l with
  | [] => None
  | (k, n) :: l => if decide (k = name) then Some n else get name l
  end.
Fixpoint put (name : string) (n : fsNode) (l : list (string * fsNode)) : list (string * fsNode) :=
  match l with
  | [] => [(name, n)]
  | (k, m) :: r =>
      match str_compare name k with
      | Lt => (name, n) :: l
      | Eq => (name, n) :: r
      | Gt => (k, m) :: put name n r
      end
  end.
Fixpoint remove (name : string) (l : list (string * fsNode)) : list (string * fsNode) :=
  match l with
  | [] => []
  | (k, m) :: r => if decide (k = name) then r else (k, m) :: remove name r
  end.

Definition child (name : string) (n : fsNode) : option fsNode := get name (children n).
Definition with_children (f : list (string * fsNode) → list (string * fsNode)) (n : fsNode) : fsNode :=
  match n with Dir m o ch => Dir m o (f ch) | _ => n end.
Definition set_child (name : string) (c : fsNode) : fsNode → fsNode := with_children (put name c).

(** The directory at a path of names, updated. *)
Fixpoint alter_at (p : list string) (f : fsNode → fsNode) (t : fsNode) : fsNode :=
  match p with
  | [] => f t
  | name :: p =>
      match child name t with
      | Some c => set_child name (alter_at p f c) t
      | None => t
      end
  end.

(** ** Path lookup as the kernel does it *)

Definition components (p : string) : list string := split slash p.
Definition is_dot (seg : string) : bool := bool_decide (seg = "") || bool_decide (seg = ".").

Inductive dirResult := Found (n : fsNode) | Absent | Failed.

(** The directories from the current one up to the root. *)
Definition top (dirs : list fsNode) : fsNode := default newDir (head dirs).

(** [hostLookup]: an absolute link or a [..] above the layer's directory goes on
    at the host, where the path is taken not to exist. *)
Fixpoint host_walk (budget : nat) : list fsNode → list string → dirResult :=
  fix walk dirs pending :=
    match pending with
    | [] => Found (top dirs)
    | seg :: pending =>
        if is_dot seg then walk dirs pending
        else if bool_decide (seg = "..") then
          match dirs with
          | [] | [_] => Absent
          | _ :: up => walk up pending
          end
        else
          match child seg (top dirs) with
          | None => Absent
          | Some (Dir m o ch) => walk (Dir m o ch :: dirs) pending
          | Some (Symlink link) =>
              match budget with
              | O => Failed
              | S budget =>
                  if has_prefix "/" link then Absent
                  else host_walk budget dirs (components link ++ pending)
              end
          | Some _ => Failed
          end
    end.
Definition hostLookup (root : fsNode) (d : string) : dirResult :=
  host_walk maxLookupSymlinks [root] (components d).

(** [lookup]: within the tree, where [..] stays at the root and an absolute link
    starts there again. *)
Section Lookup.
Context (root : fsNode).

Fixpoint lookup_walk (budget : nat) : list fsNode → list string → option fsNode :=
  fix walk dirs pending :=
    match pending with
    | [] => Some (top dirs)
    | seg :: pending =>
        if is_dot seg then walk dirs pending
        else if bool_decide (seg = "..") then
          match dirs with
          | [] | [_] => walk dirs pending
          | _ :: up => walk up pending
          end
        else
          match child seg (top dirs) with
          | None => None
          | Some (Dir m o ch) => walk (Dir m o ch :: dirs) pending
          | Some (Symlink link) =>
              match budget with
              | O => None
              | S budget =>
                  lookup_walk budget (if has_prefix "/" link then [root] else dirs)
                    (components link ++ pending)
              end
          | Some File => match pending with [] => Some File | _ => None end
          | Some Whiteout => None
          end
    end.
Definition lookup (dirs : list fsNode) (target : string) (followed : nat) : option fsNode :=
  lookup_walk (maxLookupSymlinks - followed)
    (if has_prefix "/" target then [root] else dirs) (components target).
End Lookup.

(** ** The resolver *)

(** [resolver.dir], prefix by prefix. *)
Definition dir_step (t : fsNode) (st : string * dirResult) (base : string) : string * dirResult :=
  let '(parent, res) := st in
  let d := parent +:+ "/" +:+ base in
  (d, match res with
      | Found n =>
          match child base n with
          | None => Absent
          | Some (Dir m o ch) => Found (Dir m o ch)
          | Some (Symlink _) => hostLookup t d
          | Some _ => Failed
          end
      | _ => res
      end).
Definition resolver_dir (t : fsNode) (names : list string) : dirResult :=
  (foldl (dir_step t) ("", Found t) names).2.

(** [resolver.lstat]: what is there, or whether the lookup failed. *)
Definition lstat (t : fsNode) (p : string) : option fsNode * bool :=
  match rev (clean_elements ("/" +:+ p)) with
  | [] => (Some t, false)
  | base :: up =>
      match resolver_dir t (rev up) with
      | Found n => (child base n, false)
      | Absent => (None, false)
      | Failed => (None, true)
      end
  end.

(** [resolver.walkLink]: the target of the link at [p], or [p] itself; whether it
    was a link; the links expanded so far.  [None] is a refusal. *)
Definition walkLink (t : fsNode) (p : string) (walked : nat) : option (string * bool * nat) :=
  if maxExtractSymlinks <? walked then None
  else
    let p := Join "/" p in
    if bool_decide (p = "/") then Some (p, false, walked)
    else if maxPathLen <? String.length p then None
    else
      match lstat t p with
      | (_, true) => None
      | (Some (Symlink link), false) => Some (link, true, S walked)
      | (_, false) => Some (p, false, walked)
      end.

(** [resolver.walkLinks], on the components of the path from the last one: the
    directory part of [.../d/f] is walked without its trailing slash. *)
Fixpoint walkLinks (t : fsNode) (rev_components : list string) (walked : nat) : option (string * nat) :=
  match rev_components with
  | [] => None
  | [file] =>
      '(next, _, walked) ← walkLink t file walked; Some (next, walked)
  | file :: dir =>
      '(newdir, walked) ← (if bool_decide (dir = [""]) then Some ("/", walked) else walkLinks t dir walked);
      if bool_decide (file = "") then Some (newdir, walked)
      else
        '(next, isLink, walked) ← walkLink t (Join newdir file) walked;
        if negb isLink || has_prefix "/" next then Some (next, walked)
        else Some (Join newdir next, walked)
  end.

(** [crossesSymlink]: anything that is not a directory counts. *)
Fixpoint crosses (dirs : list (option fsNode)) (segs : list string) : bool :=
  match segs with
  | [] => false
  | seg :: segs =>
      if is_dot seg then crosses dirs segs
      else if bool_decide (seg = "..") then
        match dirs with
        | [] | [_] => crosses dirs segs
        | _ :: up => crosses up segs
        end
      else
        let n := match dirs with Some d :: _ => child seg d | _ => None end in
        match n with
        | Some (Dir m o ch) => crosses (Some (Dir m o ch) :: dirs) segs
        | Some _ => true
        | None => crosses (None :: dirs) segs
        end
  end.
Definition crossesSymlink (t : fsNode) (p : string) : bool := crosses [Some t] (components p).

(** [rootPath]: passes are repeated until one expands no symlink; the outer
    [None] is a lack of fuel. *)
Fixpoint root_passes (fuel : nat) (t : fsNode) (p : string) (walked : nat) : option (option string) :=
  match fuel with
  | O => None
  | S fuel =>
      match walkLinks t (rev (components p)) walked with
      | None => Some None
      | Some (next, walked') =>
          if walked' =? walked then Some (Some (Clean ("/" +:+ next)))
          else root_passes fuel t next walked'
      end
  end.
Definition rootPath (t : fsNode) (p : string) : option string :=
  if bool_decide (p = "") then Some "/"
  else if negb (crossesSymlink t p) then Some (Clean ("/" +:+ p))
  else default None (root_passes (maxExtractSymlinks + 3) t p 0).

(** ** Extraction *)

Record Header := mkHeader {
  Header_Name : string;
  Linkname : string;
  Typeflag : ascii;
  Header_Mode : Z;
  Uid : Z;
  Gid : Z;
  Devmajor : Z;
  Devminor : Z;
}.
Definition TypeLink : ascii := "1".
Definition TypeSymlink : ascii := "2".
Definition TypeChar : ascii := "3".
Definition TypeDir : ascii := "5".
Definition TypeXGlobalHeader : ascii := "g".

(** [inheritDirInfo]: the metadata the nearest lower layer that has the path
    dictates; [None] when resolving it fails.  [lowers] has the nearest first. *)
Fixpoint inheritDirInfo (lowers : list fsNode) (p : string) : option dirmeta :=
  match lowers with
  | [] => Some no_meta
  | t :: lowers =>
      resolved ← rootPath t p;
      match lstat t resolved with
      | (_, true) => None
      | (None, false) => inheritDirInfo lowers p
      | (Some (Dir m _ _), false) => Some m
      | (Some _, false) => Some (mkDirmeta true 0 0 493)
      end
  end.

(** [mkparent]: the tree afterwards, and the names of the directory reached; the
    directories made before a failure stay. *)
Fixpoint make_dirs (inherit : string → option dirmeta) (at_ : string) (segs : list string) (cur : fsNode) :
    fsNode * bool :=
  match segs with
  | [] => (cur, true)
  | seg :: segs =>
      let at_ := at_ +:+ "/" +:+ seg in
      match child seg cur with
      | None =>
          match inherit at_ with
          | None => (cur, false)
          | Some m =>
              let '(c, ok) := make_dirs inherit at_ segs (Dir m false []) in (set_child seg c cur, ok)
          end
      | Some (Dir m o ch) =>
          let '(c, ok) := make_dirs inherit at_ segs (Dir m o ch) in (set_child seg c cur, ok)
      | Some _ => (cur, false)
      end
  end.
Definition path_names (p : string) : list string :=
  List.filter (λ seg, negb (bool_decide (seg = ""))) (components p).
Definition mkparent (upper : fsNode) (lowers : list fsNode) (p : string) : fsNode * option (list string) :=
  let segs := path_names p in
  let '(t, ok) := make_dirs (inheritDirInfo (rev lowers)) "" segs upper in
  (t, if ok then Some segs else None).

Definition header_meta (hdr : Header) : dirmeta :=
  mkDirmeta true (Uid hdr) (Gid hdr) (Header_Mode hdr).

(** What an ordinary entry puts at its name, in the tree with the parent made. *)
Definition entry_node (t : fsNode) (hdr : Header) : option fsNode :=
  if bool_decide (Typeflag hdr = TypeChar) then
    Some (if bool_decide (Devmajor hdr = 0%Z) && bool_decide (Devminor hdr = 0%Z) then Whiteout else File)
  else if bool_decide (Typeflag hdr = TypeDir) then Some (Dir (header_meta hdr) false [])
  else if bool_decide (Typeflag hdr = TypeSymlink) then
    if bool_decide (Linkname hdr = "") || (maxPathLen <? String.length (Linkname hdr)) then None
    else Some (Symlink (Linkname hdr))
  else if bool_decide (Typeflag hdr = TypeLink) then
    let '(tdir, tbase) := Split (Linkname hdr) in
    tresolved ← rootPath t tdir;
    match (lstat t (Join tresolved tbase)).1 with
    | None | Some (Dir _ _ _) => None
    | Some n => Some n
    end
  else Some File.

(** An entry placed in its parent directory. *)
Definition place_entry (t : fsNode) (hdr : Header) (base : string) (parent : fsNode) : fsNode * bool :=
  if bool_decide (Typeflag hdr = TypeXGlobalHeader) then (with_children (remove base) parent, true)
  else
    match bool_decide (Typeflag hdr = TypeDir), child base parent with
    | true, Some (Dir _ o ch) => (set_child base (Dir (header_meta hdr) o ch) parent, true)
    | _, _ =>
        match entry_node t hdr with
        | None => (parent, false)
        | Some n => (set_child base n parent, true)
        end
    end.

Definition opaque_marker : string := ".wh..wh..opq".
Definition whiteout_prefix : string := ".wh.".

Definition set_opaque (n : fsNode) : fsNode := match n with Dir m _ ch => Dir m true ch | _ => n end.
Definition place_whiteout (victim : string) (parent : fsNode) : fsNode :=
  if negb (bool_decide (victim = "")) && negb (bool_decide (is_Some (child victim parent)))
  then set_child victim Whiteout parent else parent.

(** The node at a path of names. *)
Fixpoint find_at (p : list string) (t : fsNode) : option fsNode :=
  match p with
  | [] => Some t
  | name :: p => c ← child name t; find_at p c
  end.

(** The layer's tree after an entry, and whether the entry was accepted. *)
Definition extract (upper : fsNode) (lowers : list fsNode) (hdr : Header) : fsNode * bool :=
  let name := Clean (Header_Name hdr) in
  if bool_decide (name = ".") || bool_decide (name = "/") || bool_decide (Base name = "..")
  then (upper, true)
  else if maxPathLen <? String.length name then (upper, false)
  else
    let '(dir, base) := Split name in
    match rootPath upper dir with
    | None => (upper, false)
    | Some resolved =>
        match mkparent upper lowers resolved with
        | (t, None) => (t, false)
        | (t, Some p) =>
            if bool_decide (base = opaque_marker) then
              (if bool_decide (p = []) then t else alter_at p set_opaque t, true)
            else if has_prefix whiteout_prefix base then
              (alter_at p (place_whiteout (trim_prefix whiteout_prefix base)) t, true)
            else
              match find_at p t with
              | None => (t, false)
              | Some parent =>
                  let '(parent', ok) := place_entry t hdr base parent in
                  (alter_at p (λ _, parent') t, ok)
              end
        end
    end.

(** ** Stacking *)

(** [stack]: the upper layer merged onto the lower tree. *)
Fixpoint stack (lower upper : fsNode) {struct upper} : fsNode :=
  match upper with
  | Dir um uo uch =>
      let merge :=
        fix merge (lch : list (string * fsNode)) (uch : list (string * fsNode)) :=
          match uch with
          | [] => lch
          | (name, u) :: uch =>
              let n :=
                if negb (is_dir u) then u
                else
                  match get name lch with
                  | Some (Dir m o ch) => stack (Dir m o ch) u
                  | Some _ => stack (Dir no_meta true []) u
                  | None => stack newDir u
                  end in
              merge (put name n lch) uch
          end in
      Dir (if explicit um then um else dir_meta lower) (uo || is_opaque lower)
        (merge (if uo then [] else children lower) uch)
  | _ => lower
  end.

Record FS := mkFS { root : fsNode; layers : list fsNode }.
Record Layer := mkLayer { Layer_root : fsNode; lowers : list fsNode }.

Definition New : FS := mkFS newDir [].
Definition NewLayer (o : FS) : Layer := mkLayer newDir (layers o).
Definition Add (l : Layer) (hdr : Header) : Layer * bool :=
  let '(t, ok) := extract (Layer_root l) (lowers l) hdr in (mkLayer t (lowers l), ok).
Definition Apply (o : FS) (l : Layer) : FS :=
  mkFS (stack (root o) (Layer_root l)) (layers o ++ [Layer_root l]).

(** ** Queries *)

Record DirInfo := mkDirInfo { Info_Mode : Z; Info_Uid : Z; Info_Gid : Z }.

Fixpoint descend (names : list string) (n : fsNode) : option fsNode :=
  match names with
  | [] => Some n
  | name :: names =>
      match child name n with
      | Some (Dir m o ch) => descend names (Dir m o ch)
      | _ => None
      end
  end.
Definition DirStat (o : FS) (name : string) : option DirInfo :=
  n ← descend (path_names (trim_prefix "/" (Clean ("/" +:+ name)))) (root o);
  if negb (explicit (dir_meta n)) then None
  else Some (mkDirInfo (mode (dir_meta n)) (uid (dir_meta n)) (gid (dir_meta n))).

Record SymlinkAt := mkSymlinkAt { Symlink_Path : string; Symlink_Target : string }.
Definition path_le (a b : SymlinkAt) : Prop := String.le (Symlink_Path a) (Symlink_Path b).
#[export] Instance path_le_dec : RelDecision path_le.
Proof. intros a b. unfold path_le. apply _. Defined.

(** The symlinks below a directory that lead nowhere; the link itself is the
    first expansion. *)
Fixpoint dangling (r : fsNode) (above : list fsNode) (dirPath : string) (n : fsNode) : list SymlinkAt :=
  match n with
  | Dir m o ch =>
      let dirs := Dir m o ch :: above in
      flat_map (λ '(name, c),
        let p := dirPath +:+ "/" +:+ name in
        match c with
        | Dir _ _ _ => dangling r dirs p c
        | Symlink link =>
            match lookup r dirs link 1 with
            | None => [mkSymlinkAt p link]
            | Some _ => []
            end
        | _ => []
        end) ch
  | _ => []
  end.
Definition DanglingSymlinks (o : FS) : list SymlinkAt :=
  merge_sort path_le (dangling (root o) [] "" (root o)).

(** [Walk] visits these entries in order. *)
Record Entry := mkEntry {
  Entry_Name : string;
  Depth : nat;
  Directory : bool;
  Entry_Whiteout : bool;
  Entry_Opaque : bool;
}.
Fixpoint walk_entries (name : string) (depth : nat) (n : fsNode) : list Entry :=
  mkEntry name depth (is_dir n) match n with Whiteout => true | _ => false end (is_opaque n) ::
  match n with
  | Dir _ _ ch => flat_map (λ '(child, c), walk_entries child (S depth) c) ch
  | _ => []
  end.
Definition Walk (o : FS) : list Entry := walk_entries "" 0 (root o).

(** ** Samples *)

Definition entry (name : string) (typ : ascii) (link : string) : Header :=
  mkHeader name link typ 493 0 0 0 0.
Definition extracted (hdrs : list Header) (lowers : list fsNode) : fsNode :=
  foldl (λ t h, (extract t lowers h).1) newDir hdrs.

Example extract_through_link :
  extracted [entry "usr/lib" TypeDir ""; entry "lib" TypeSymlink "usr/lib"; entry "lib/a.so" "0" ""] [] =
  Dir no_meta false
    [("lib", Symlink "usr/lib");
     ("usr", Dir no_meta false [("lib", Dir (mkDirmeta true 0 0 493) false [("a.so", File)])])].
Proof. by vm_compute. Qed.
