(* ===== verification/OverlayFacts.v ===== *)
(** What the layers of [internal/overlayfs] expose: the incremental, destructive
    merge of [stack] shows at every path what overlayfs's own rule dictates, an
    entry of a layer's archive changes its own place and nothing else, and path
    resolution always ends. *)
From stdpp Require Import options.
From S2P Require Import Prelude GoStrings GoPath Overlay.

(** ** Induction on trees *)

Lemma fsNode_ind' (P : fsNode → Prop) :
  (∀ m o ch, Forall (λ nc, P nc.2) ch → P (Dir m o ch)) →
  P File → (∀ link, P (Symlink link)) → P Whiteout → ∀ n, P n.
Proof.
  intros Hd Hf Hs Hw. fix IH 1. intros [m o ch| |link|]; [|done|apply Hs|done].
  apply Hd. induction ch as [|[k c] ch IHch]; constructor; [apply IH|exact IHch].
Qed.

(** ** Children *)

Lemma str_compare_lt_trans a b c :
  str_compare a b = Lt → str_compare b c = Lt → str_compare a c = Lt.
Proof.
  revert b c. induction a as [|x a IH]; intros [|y b] [|z c]; try done. cbn.
  unfold Ascii.compare.
  destruct (N.compare_spec (N_of_ascii x) (N_of_ascii y)) as [E1|E1|E1]; try done; intros H1;
  destruct (N.compare_spec (N_of_ascii y) (N_of_ascii z)) as [E2|E2|E2]; try done; intros H2;
  destruct (N.compare_spec (N_of_ascii x) (N_of_ascii z)) as [E3|E3|E3]; try done; try lia.
  by apply IH with b.
Qed.

Lemma str_compare_gt a b : str_compare a b = Gt ↔ str_compare b a = Lt.
Proof. rewrite (String.compare_antisym b a). by destruct (str_compare a b). Qed.

(** Names in strictly increasing order. *)
Definition name_lt (a b : string) : Prop := str_compare a b = Lt.
Definition names (ch : list (string * fsNode)) : list string := ch.*1.

#[export] Instance name_lt_trans : Transitive name_lt.
Proof. intros a b c. apply str_compare_lt_trans. Qed.

Lemma name_lt_irrefl a : ¬ name_lt a a.
Proof. unfold name_lt. by rewrite str_compare_refl. Qed.

Lemma sorted_NoDup l : StronglySorted name_lt l → NoDup l.
Proof.
  induction 1 as [|x l Hl IH Hx]; constructor; [|done].
  intros H. rewrite Forall_forall in Hx. by apply (name_lt_irrefl x), Hx.
Qed.

Lemma get_put name' name n l :
  get name' (put name n l) = if decide (name' = name) then Some n else get name' l.
Proof.
  induction l as [|[k m] l IH]; cbn.
  - repeat case_decide; congruence.
  - destruct (str_compare name k) eqn:E; cbn [get].
    + apply str_compare_eq in E as ->. repeat case_decide; congruence.
    + repeat case_decide; congruence.
    + rewrite IH. assert (name ≠ k) by (intros ->; by rewrite str_compare_refl in E).
      repeat case_decide; congruence.
Qed.

Lemma names_put name n l x : x ∈ names (put name n l) ↔ x = name ∨ x ∈ names l.
Proof.
  unfold names. induction l as [|[k m] l IH]; cbn [put]; [set_solver|].
  destruct (str_compare name k) eqn:E; csimpl; rewrite ?elem_of_cons; [|set_solver|].
  - apply str_compare_eq in E as ->. set_solver.
  - rewrite IH. set_solver.
Qed.

Lemma put_sorted name n l :
  StronglySorted name_lt (names l) → StronglySorted name_lt (names (put name n l)).
Proof.
  unfold names. induction l as [|[k m] l IH]; cbn [put]; csimpl; [by repeat constructor|].
  intros H. inversion_clear H as [|? ? Hl Hk].
  destruct (str_compare name k) eqn:E; csimpl.
  - apply str_compare_eq in E as ->. by constructor.
  - constructor; [by constructor|]. constructor; [done|].
    eapply Forall_impl; [exact Hk|]. intros x. by apply name_lt_trans.
  - constructor; [by apply IH|]. apply Forall_forall. intros x Hx.
    apply (names_put name n l) in Hx as [->|Hx]; [by apply str_compare_gt|].
    rewrite Forall_forall in Hk. by apply Hk.
Qed.

Lemma get_Some_elem name n l : get name l = Some n → (name, n) ∈ l.
Proof.
  induction l as [|[k m] l IH]; cbn; [done|]. case_decide; [|set_solver].
  intros. simplify_eq. by left.
Qed.

Lemma get_None name l : get name l = None ↔ name ∉ names l.
Proof.
  unfold names. induction l as [|[k m] l IH]; cbn; [set_solver|].
  case_decide; csimpl; set_solver.
Qed.

Lemma elem_get name n l : NoDup (names l) → (name, n) ∈ l → get name l = Some n.
Proof.
  unfold names. induction l as [|[k m] l IH]; csimpl; [set_solver|].
  intros [Hk Hl]%NoDup_cons [E|E]%elem_of_cons; simplify_eq; cbn; [by rewrite decide_True|].
  rewrite decide_False; [by apply IH|]. intros ->. apply Hk.
  by apply (list_elem_of_fmap_2 fst l (name, n)).
Qed.

Lemma remove_sublist name l : remove name l `sublist_of` l.
Proof.
  induction l as [|[k m] l IH]; cbn; [constructor|]. case_decide; by constructor.
Qed.

(** ** Well-formed trees *)

Definition name_ok (name : string) : Prop := name ≠ "" ∧ contains_byte slash name = false.

Inductive wf : fsNode → Prop :=
  | wf_file : wf File
  | wf_symlink link : wf (Symlink link)
  | wf_whiteout : wf Whiteout
  | wf_dir m o ch :
      StronglySorted name_lt (names ch) →
      Forall (λ nc, name_ok nc.1 ∧ wf nc.2) ch → wf (Dir m o ch).
#[export] Hint Constructors wf : kit.

Lemma wf_children t : wf t → StronglySorted name_lt (names (children t)) ∧
  Forall (λ nc, name_ok nc.1 ∧ wf nc.2) (children t).
Proof. destruct 1; cbn; repeat constructor; done. Qed.

Lemma wf_NoDup t : wf t → NoDup (names (children t)).
Proof. intros H. by apply sorted_NoDup, wf_children. Qed.

Lemma wf_child name t c : wf t → child name t = Some c → name_ok name ∧ wf c.
Proof.
  intros [_ H]%wf_children Hc%get_Some_elem. rewrite Forall_forall in H. apply (H _ Hc).
Qed.

Lemma put_Forall (P : string * fsNode → Prop) name n l :
  P (name, n) → Forall P l → Forall P (put name n l).
Proof.
  intros Hn. induction 1 as [|[k m] l Hk Hl IH]; cbn; [by repeat constructor|].
  destruct (str_compare name k); by repeat constructor.
Qed.

Lemma wf_put m o name n ch : name_ok name → wf n → wf (Dir m o ch) → wf (Dir m o (put name n ch)).
Proof.
  intros Hn Hw H. inversion_clear H. constructor; [by apply put_sorted|by apply put_Forall].
Qed.

Lemma wf_set_child name n t : name_ok name → wf n → wf t → wf (set_child name n t).
Proof. intros Hn Hw H. destruct t; [by apply wf_put|done..]. Qed.

Lemma sublist_sorted l l' : l `sublist_of` l' → StronglySorted name_lt l' → StronglySorted name_lt l.
Proof.
  induction 1 as [|x l l' Hsub IH|x l l' _ IH]; intros H; [done| |]; inversion_clear H; auto.
  constructor; [auto|]. by apply (sublist_Forall _ _ _ Hsub).
Qed.

Lemma wf_remove name t : wf t → wf (with_children (remove name) t).
Proof.
  intros H. destruct t as [m o ch| | |]; [|done..]. inversion_clear H as [| | |? ? ? Hs Hf].
  pose proof (remove_sublist name ch) as Hsub. constructor.
  - eapply sublist_sorted; [|exact Hs]. by apply fmap_sublist.
  - by apply (sublist_Forall _ _ _ Hsub).
Qed.

(** ** What a path shows *)

(** What there is at a path, directories without their owner and mode. *)
Inductive shown := ADirectory | AFile | ALink (target : string) | ADeletion.
Definition shows (n : fsNode) : shown :=
  match n with
  | Dir _ _ _ => ADirectory
  | File => AFile
  | Symlink link => ALink link
  | Whiteout => ADeletion
  end.
Definition shown_at (t : fsNode) (p : list string) : option shown := shows <$> find_at p t.

(** Whether a tree hides what the layers below put at and under a path: a
    directory on the way is opaque, or something other than a directory is. *)
Fixpoint covers (p : list string) (t : fsNode) : bool :=
  match t with
  | Dir _ o ch =>
      o || match p with
           | [] => false
           | name :: p => match get name ch with Some c => covers p c | None => false end
           end
  | _ => true
  end.

(** What a child of the upper layer becomes over what the lower tree has there. *)
Definition over (lower : option fsNode) (u : fsNode) : fsNode :=
  if negb (is_dir u) then u
  else match lower with
       | Some (Dir m o ch) => stack (Dir m o ch) u
       | Some _ => stack (Dir no_meta true []) u
       | None => stack newDir u
       end.

Definition stack_children (lch uch : list (string * fsNode)) : list (string * fsNode) :=
  foldl (λ lch nc, put nc.1 (over (get nc.1 lch) nc.2) lch) lch uch.

Lemma stack_Dir lower um uo uch :
  stack lower (Dir um uo uch) =
  Dir (if explicit um then um else dir_meta lower) (uo || is_opaque lower)
    (stack_children (if uo then [] else children lower) uch).
Proof.
  unfold stack_children. cbn [stack]. f_equal.
  generalize (if uo then [] else children lower). induction uch as [|[k c] uch IH]; intros lch; [done|].
  cbn [foldl fst snd]. by rewrite <-IH.
Qed.

Lemma get_stack_children name lch uch :
  NoDup (names uch) →
  get name (stack_children lch uch) =
    match get name uch with Some u => Some (over (get name lch) u) | None => get name lch end.
Proof.
  unfold stack_children, names. revert lch. induction uch as [|[k u] uch IH]; intros lch; [done|].
  csimpl. intros [Hk Hn]%NoDup_cons. cbn [foldl fst snd get]. rewrite IH by done. rewrite get_put.
  destruct (decide (k = name)) as [->|]; [|by rewrite decide_False by congruence].
  rewrite decide_True by done. apply get_None in Hk. by rewrite Hk.
Qed.

Lemma stack_children_sorted lch uch :
  StronglySorted name_lt (names lch) → StronglySorted name_lt (names (stack_children lch uch)).
Proof.
  unfold stack_children. revert lch. induction uch as [|[k u] uch IH]; intros lch H; [done|].
  cbn [foldl]. by apply IH, put_sorted.
Qed.

Lemma wf_newDir : wf newDir.
Proof. repeat constructor. Qed.
Lemma wf_empty m o : wf (Dir m o []).
Proof. repeat constructor. Qed.
#[export] Hint Resolve wf_newDir wf_empty : kit.

Lemma wf_stack l u : wf l → wf u → wf (stack l u).
Proof.
  revert l. induction u as [um uo uch IH| | |] using fsNode_ind'; intros l Hl Hu; [|done..].
  rewrite stack_Dir. apply wf_children in Hl as [Hls Hlf]. apply wf_children in Hu as [Hus Huf]. cbn in *.
  constructor.
  - apply stack_children_sorted. destruct uo; [constructor|done].
  - unfold stack_children.
    assert (Forall (λ nc, name_ok nc.1 ∧ wf nc.2) (if uo then [] else children l)) as Hb by by destruct uo.
    revert Hb. generalize (if uo then [] else children l). clear Hus Hls.
    induction uch as [|[k u] uch IHu]; intros b Hb; [done|].
    inversion_clear IH as [|? ? Hu IHr]. inversion_clear Huf as [|? ? [Hk Hw] Hr]. cbn in *.
    apply IHu; [done..|]. apply put_Forall; [|done]. cbn. split; [done|].
    unfold over. destruct (is_dir u); cbn; [|done].
    destruct (get k b) as [[m o ch| | |]|] eqn:E; try by eauto with kit.
    apply Hu; [|done]. apply get_Some_elem in E. rewrite Forall_forall in Hb. apply (Hb _ E).
Qed.

Lemma shown_at_cons name p t :
  shown_at t (name :: p) = c ← child name t; shown_at c p.
Proof. unfold shown_at. cbn. by destruct (child name t). Qed.

Lemma shown_below_leaf n p : is_dir n = false → p ≠ [] → shown_at n p = None.
Proof. destruct p; [done|]. intros H _. rewrite shown_at_cons. by destruct n. Qed.

Lemma shown_below_empty m o p : p ≠ [] → shown_at (Dir m o []) p = None.
Proof. by destruct p. Qed.

(** Stacking a layer, path by path. *)
Lemma stack_at p l u :
  is_dir l = true → is_dir u = true → wf u →
  shown_at (stack l u) p =
    match shown_at u p with
    | Some k => Some k
    | None => if covers p u then None else shown_at l p
    end ∧
  covers p (stack l u) = covers p u || covers p l.
Proof.
  revert l u. induction p as [|name p IH]; intros l u Hl Hu Hw;
    destruct u as [um uo uch| | |], l as [lm lo lch| | |]; try done; rewrite stack_Dir.
  { cbn. by rewrite !orb_false_r. }
  rewrite !shown_at_cons. unfold child. cbn [children covers].
  rewrite get_stack_children by apply (wf_NoDup _ Hw).
  destruct (get name uch) as [c|] eqn:Ec; cbn [mbind option_bind].
  2: { destruct uo; cbn; done. }
  pose proof (wf_child name _ c Hw Ec) as [_ Hwc].
  unfold over. destruct (is_dir c) eqn:Hc; cbn [negb].
  2: { assert (covers p c = true) as -> by by destruct p, c.
       rewrite !orb_true_r. split; [|by destruct uo].
       destruct (shown_at c p); [done|]. done. }
  assert (shown_at c p = None → p ≠ []) as Hp by by destruct p.
  destruct uo; cbn [get orb].
  { destruct (IH newDir c) as [-> _]; [done..|]. split; [|done].
    destruct (shown_at c p) eqn:E; [done|]. unfold newDir. rewrite shown_below_empty by auto. by destruct (covers p c). }
  cbn [is_opaque].
  destruct (get name lch) as [[m o ch| | |]|] eqn:El; cbn [mbind option_bind];
    match goal with |- context [stack ?x c] => destruct (IH x c) as [-> ->]; [done..|] end.
  1: { split; [done|]. by destruct lo, (covers p c). }
  all: split; [|by destruct lo, (covers p c), p].
  all: destruct (shown_at c p) eqn:E; [done|]; specialize (Hp eq_refl).
  all: unfold newDir; rewrite shown_below_empty by done; try rewrite shown_below_leaf by done.
  all: by destruct (covers p c).
Qed.

(** ** Extraction keeps trees well formed *)

Lemma is_dir_with_children f t : is_dir (with_children f t) = is_dir t.
Proof. by destruct t. Qed.
Lemma is_dir_set_child name c t : is_dir (set_child name c t) = is_dir t.
Proof. apply is_dir_with_children. Qed.

Lemma wf_alter_at p f t :
  (∀ n, wf n → wf (f n)) → wf t → wf (alter_at p f t).
Proof.
  intros Hf. revert t. induction p as [|name p IH]; intros t Ht; cbn; [by apply Hf|].
  destruct (child name t) as [c|] eqn:E; [|done].
  pose proof (wf_child _ _ _ Ht E) as [Hn Hc]. apply wf_set_child; auto.
Qed.

Lemma is_dir_alter_at p f t :
  (∀ n, is_dir n = true → is_dir (f n) = true) → is_dir t = true → is_dir (alter_at p f t) = true.
Proof.
  intros Hf Ht. destruct p as [|name p]; cbn; [by apply Hf|].
  destruct (child name t); [by rewrite is_dir_set_child|done].
Qed.

Lemma make_dirs_wf inherit at_ segs cur t ok :
  Forall name_ok segs → wf cur → make_dirs inherit at_ segs cur = (t, ok) →
  wf t ∧ is_dir t = is_dir cur.
Proof.
  intros Hs. revert at_ cur t ok. induction Hs as [|seg segs Hn Hs IH]; intros at_ cur t ok Hw; cbn.
  { by intros [= <- _]. }
  assert (∀ at_ m o ch t ok, wf (Dir m o ch) →
    (let '(c, ok) := make_dirs inherit at_ segs (Dir m o ch) in (set_child seg c cur, ok)) = (t, ok) →
    wf t ∧ is_dir t = is_dir cur) as Hstep.
  { intros at' m o ch t' ok' Hd. destruct (make_dirs _ _ _ _) as [c k] eqn:E. intros [= <- _].
    apply IH in E as [Hc _]; [|done]. rewrite is_dir_set_child. split; [by apply wf_set_child|done]. }
  destruct (child seg cur) as [[m o ch| | |]|] eqn:E.
  - apply Hstep. by apply wf_child in E as [_ ?].
  - by intros [= <- _].
  - by intros [= <- _].
  - by intros [= <- _].
  - destruct (inherit _); [apply Hstep, wf_empty|by intros [= <- _]].
Qed.

Lemma path_names_ok p : Forall name_ok (path_names p).
Proof.
  unfold path_names. apply Forall_forall. intros x [Hx Hn]%elem_of_filter_bool.
  apply negb_true_iff, bool_decide_eq_false in Hn. split; [done|].
  pose proof (split_free slash p) as Hf. rewrite Forall_forall in Hf. by apply Hf.
Qed.

Lemma find_at_wf p t n : wf t → find_at p t = Some n → wf n.
Proof.
  revert t. induction p as [|name p IH]; intros t Ht; cbn; [by intros [= <-]|].
  destruct (child name t) as [c|] eqn:E; cbn; [|done]. apply wf_child in E as [_ ?]; [|done]. by apply IH.
Qed.

Lemma entry_node_wf t hdr n : entry_node t hdr = Some n → wf n.
Proof.
  unfold entry_node. repeat (case_match; try done); intros; simplify_eq; auto with kit.
  destruct (rootPath t _); cbn in *; [|done]. repeat case_match; by simplify_eq; constructor.
Qed.

Lemma place_entry_wf t hdr base parent r ok :
  name_ok base → wf parent → place_entry t hdr base parent = (r, ok) →
  wf r ∧ is_dir r = is_dir parent.
Proof.
  intros Hb Hp. unfold place_entry. case_bool_decide.
  { intros [= <- _]. split; [by apply wf_remove|apply is_dir_with_children]. }
  assert (∀ n, wf n → wf (set_child base n parent) ∧ is_dir (set_child base n parent) = is_dir parent) as Hset.
  { intros n Hn. split; [by apply wf_set_child|apply is_dir_set_child]. }
  assert (∀ r ok, match entry_node t hdr with
    | None => (parent, false) | Some n => (set_child base n parent, true) end = (r, ok) →
    wf r ∧ is_dir r = is_dir parent) as Hnew.
  { intros r' ok'. destruct (entry_node t hdr) eqn:E; intros [= <- _]; [|done].
    by apply Hset, (entry_node_wf t hdr). }
  case_bool_decide; [|apply Hnew].
  destruct (child base parent) as [[m o ch| | |]|] eqn:E; try apply Hnew.
  intros [= <- _]. apply Hset. apply wf_child in E as [_ E]; [|done]. by inversion_clear E; constructor.
Qed.

Lemma wf_set_opaque n : wf n → wf (set_opaque n).
Proof. by destruct 1; constructor. Qed.

Lemma trim_prefix_free c p s : contains_byte c s = false → contains_byte c (trim_prefix p s) = false.
Proof.
  intros H. unfold trim_prefix. destruct (has_prefix p s) eqn:E; [|done].
  rewrite (has_prefix_inv _ _ E), contains_byte_app in H. by apply orb_false_iff in H as [_ H].
Qed.

Lemma place_whiteout_wf victim parent :
  contains_byte slash victim = false → wf parent → wf (place_whiteout victim parent).
Proof.
  intros Hv Hp. unfold place_whiteout. case_bool_decide; [done|]. cbn.
  case_bool_decide; [done|]. apply wf_set_child; [done|constructor|done].
Qed.

Definition wf_root (t : fsNode) : Prop := wf t ∧ is_dir t = true.

Lemma extract_wf upper ls hdr : wf_root upper → wf_root (extract upper ls hdr).1.
Proof.
  intros [Hw Hd]. unfold extract. case_match eqn:Hskip; [done|].
  apply orb_false_iff in Hskip as [[_ Hslash]%orb_false_iff _]. apply bool_decide_eq_false in Hslash.
  case_match; [done|].
  pose proof (Clean_base _ Hslash) as Hne. pose proof (Split_base_free (Clean (Header_Name hdr))) as Hfree.
  destruct (Split _) as [dir base]. cbn in Hne, Hfree.
  destruct (rootPath upper dir) as [resolved|]; [|done].
  unfold mkparent. destruct (make_dirs _ _ _ _) as [t ok] eqn:Em.
  apply make_dirs_wf in Em as [Ht Htd]; [|apply path_names_ok|done]. rewrite Hd in Htd.
  destruct ok; [|done].
  assert (∀ p f, (∀ n, wf n → wf (f n)) → (∀ n, is_dir n = true → is_dir (f n) = true) →
    wf_root (alter_at p f t)) as Halter.
  { intros p f H1 H2. split; [by apply wf_alter_at|by apply is_dir_alter_at]. }
  case_bool_decide; [case_bool_decide; [done|]|].
  { apply Halter; [apply wf_set_opaque|by intros []]. }
  case_match.
  { apply Halter; [intros n; by apply place_whiteout_wf, trim_prefix_free|].
    intros n Hn. unfold place_whiteout. case_match; [by rewrite is_dir_set_child|done]. }
  destruct (find_at _ t) as [parent|] eqn:Ef; [|done].
  destruct (place_entry _ _ _ _) as [parent' ok'] eqn:Ep. cbn [fst].
  apply place_entry_wf in Ep as [Hp' Hpd]; [|done|by eapply find_at_wf].
  split; [by apply wf_alter_at|].
  destruct (path_names resolved) as [|name names']; [cbn in *; congruence|].
  cbn. destruct (child name t); [by rewrite is_dir_set_child|done].
Qed.

(** ** Images *)

(** A layer extracted from the headers of its archive, and the layers of an image
    applied in order. *)
Definition extract_layer (o : FS) (hdrs : list Header) : Layer :=
  foldl (λ l hdr, (Add l hdr).1) (NewLayer o) hdrs.
Definition apply_layer (o : FS) (hdrs : list Header) : FS := Apply o (extract_layer o hdrs).
Definition extract_image (archives : list (list Header)) : FS := foldl apply_layer New archives.

(** Overlayfs's rule for a path: the topmost layer that has anything there, of
    those that no layer above hides. *)
Fixpoint overlay_at (topmost_first : list fsNode) (p : list string) : option shown :=
  match topmost_first with
  | [] => shown_at newDir p
  | t :: below =>
      match shown_at t p with
      | Some k => Some k
      | None => if covers p t then None else overlay_at below p
      end
  end.

Definition wf_FS (o : FS) : Prop := wf_root (root o) ∧ Forall wf_root (layers o).

Lemma wf_New : wf_FS New.
Proof. repeat constructor. Qed.

Lemma extract_layer_wf o hdrs : wf_root (Layer_root (extract_layer o hdrs)).
Proof.
  unfold extract_layer. assert (wf_root (Layer_root (NewLayer o))) as H by by repeat constructor.
  revert H. generalize (NewLayer o). induction hdrs as [|hdr hdrs IH]; intros l Hl; [done|].
  cbn [foldl]. apply IH. unfold Add. pose proof (extract_wf (Layer_root l) (lowers l) hdr Hl) as H.
  by destruct (extract _ _ _).
Qed.

Lemma apply_layer_wf o hdrs : wf_FS o → wf_FS (apply_layer o hdrs).
Proof.
  intros [[Hw Hd] Hl]. pose proof (extract_layer_wf o hdrs) as [Ht Htd].
  split; cbn; [split|].
  - by apply wf_stack.
  - by destruct (Layer_root _).
  - apply Forall_app. split; [done|]. by repeat constructor.
Qed.

Lemma extract_image_snoc archives hdrs :
  extract_image (archives ++ [hdrs]) = apply_layer (extract_image archives) hdrs.
Proof. unfold extract_image. by rewrite foldl_snoc. Qed.

Lemma extract_image_wf archives : wf_FS (extract_image archives).
Proof.
  induction archives as [|hdrs archives IH] using rev_ind; [apply wf_New|].
  rewrite extract_image_snoc. by apply apply_layer_wf.
Qed.

(** ** What one entry changes *)

(** A node without what is below it. *)
Inductive head := HDir (meta : dirmeta) (opaque : bool) | HFile | HLink (target : string) | HWhiteout.
Definition head_of (n : fsNode) : head :=
  match n with
  | Dir m o _ => HDir m o
  | File => HFile
  | Symlink link => HLink link
  | Whiteout => HWhiteout
  end.
Definition head_at (t : fsNode) (q : list string) : option head := head_of <$> find_at q t.

(** Two trees that differ at one path only, and two that differ at it and below. *)
Definition agree_but (s : list string) (t t' : fsNode) : Prop := ∀ q, q ≠ s → head_at t' q = head_at t q.
Definition agree_off (s : list string) (t t' : fsNode) : Prop := ∀ q, ¬ s `prefix_of` q → head_at t' q = head_at t q.

Lemma head_at_cons name q t : head_at t (name :: q) = c ← child name t; head_at c q.
Proof. unfold head_at. cbn. by destruct (child name t). Qed.

Lemma child_set_child name name' c t :
  is_dir t = true → child name' (set_child name c t) = if decide (name' = name) then Some c else child name' t.
Proof. destruct t; try done. intros _. apply get_put. Qed.

Lemma head_at_set_child name c t q :
  is_dir t = true →
  head_at (set_child name c t) q =
    match q with
    | [] => head_at t []
    | name' :: q' => if decide (name' = name) then head_at c q' else head_at t q
    end.
Proof.
  intros Hd. destruct q as [|name' q]; [by destruct t|].
  rewrite !head_at_cons, child_set_child by done. by case_decide.
Qed.

Lemma child_dir name t c : child name t = Some c → is_dir t = true.
Proof. by destruct t. Qed.

Lemma find_at_app p q t : find_at (p ++ q) t = n ← find_at p t; find_at q n.
Proof. revert t. induction p as [|name p IH]; intros t; [done|]. cbn. destruct (child name t); [apply IH|done]. Qed.

Lemma head_at_app p q t n : find_at p t = Some n → head_at t (p ++ q) = head_at n q.
Proof. intros E. unfold head_at. by rewrite find_at_app, E. Qed.

Lemma find_at_alter_at p f t n : find_at p t = Some n → find_at p (alter_at p f t) = Some (f n).
Proof.
  revert t. induction p as [|name p IH]; intros t; cbn; [by intros [= ->]|].
  destruct (child name t) as [c|] eqn:E; cbn; [|done]. intros Hc.
  rewrite child_set_child by (by eapply child_dir). rewrite decide_True by done. cbn. by apply IH.
Qed.

Lemma alter_at_off p f t n : find_at p t = Some n → agree_off p t (alter_at p f t).
Proof.
  revert t. induction p as [|name p IH]; intros t; cbn; [by intros _ q []; apply prefix_nil|].
  destruct (child name t) as [c|] eqn:E; cbn; [|done]. intros Hc q Hq.
  rewrite head_at_set_child by (by eapply child_dir). destruct q as [|name' q]; [done|].
  case_decide as En; [|done]. subst. rewrite head_at_cons, E. cbn. apply (IH c Hc). intros Hp. by apply Hq, prefix_cons.
Qed.

(** An update that leaves what is below the directory's children alone, and one that puts
    a node at a name. *)
Lemma alter_at_but p f t n :
  find_at p t = Some n → (∀ q, q ≠ [] → head_at (f n) q = head_at n q) → agree_but p t (alter_at p f t).
Proof.
  intros Hn Hf q Hq. destruct (decide (p `prefix_of` q)) as [[r ->]|Hp]; [|by eapply alter_at_off].
  rewrite (head_at_app _ _ _ _ (find_at_alter_at _ _ _ _ Hn)), (head_at_app _ _ _ _ Hn). apply Hf.
  intros ->. by rewrite app_nil_r in Hq.
Qed.

Lemma alter_at_child p f t n name :
  find_at p t = Some n →
  (∀ q, ¬ [name] `prefix_of` q → head_at (f n) q = head_at n q) → agree_off (p ++ [name]) t (alter_at p f t).
Proof.
  intros Hn Hf q Hq. destruct (decide (p `prefix_of` q)) as [[r ->]|Hp]; [|by eapply alter_at_off].
  rewrite (head_at_app _ _ _ _ (find_at_alter_at _ _ _ _ Hn)), (head_at_app _ _ _ _ Hn). apply Hf.
  intros Hr. by apply Hq, prefix_app.
Qed.

(** *** The directories on the way *)

Definition below_root (q : list string) : string := foldr (λ seg r, "/" +:+ seg +:+ r) "" q.

(** What [mkparent] leaves: everything that was there, and the missing directories,
    as the nearest lower layer has them. *)
Definition parents_made (inherit : string → option dirmeta) (p : list string) (t t' : fsNode) : Prop :=
  ∀ q, match head_at t q with
       | Some h => head_at t' q = Some h
       | None => head_at t' q = None ∨
           q `prefix_of` p ∧ ∃ m, inherit (below_root q) = Some m ∧ head_at t' q = Some (HDir m false)
       end.
(** Something on the way is no directory, or nothing below says what it should be. *)
Definition way_blocked (inherit : string → option dirmeta) (p : list string) (t : fsNode) : Prop :=
  ∃ q, q `prefix_of` p ∧
    match head_at t q with Some (HDir _ _) => False | Some _ => True | None => inherit (below_root q) = None end.
Definition directories_to (p : list string) (t : fsNode) : Prop :=
  ∀ q, q `prefix_of` p → ∃ m o, head_at t q = Some (HDir m o).

Lemma parents_made_refl inherit p t : parents_made inherit p t t.
Proof. intros q. destruct (head_at t q); [done|by left]. Qed.

Lemma head_at_empty m o q : q ≠ [] → head_at (Dir m o []) q = None.
Proof. by destruct q. Qed.

(** One directory further down: [c0] is what the step finds there or makes. *)
Lemma parents_made_step (inherit : string → option dirmeta) seg segs cur c0 c :
  is_dir cur = true → (child seg cur = Some c0 ∨ child seg cur = None ∧ ∃ m, inherit (below_root [seg]) = Some m ∧ c0 = Dir m false []) →
  parents_made (λ d, inherit ("/" +:+ seg +:+ d)) segs c0 c → parents_made inherit (seg :: segs) cur (set_child seg c cur).
Proof.
  intros Hd Hc Hmade [|name q]; rewrite head_at_set_child by done; [by destruct cur|].
  case_decide as En; [subst name|destruct (head_at cur (name :: q)); [done|by left]].
  specialize (Hmade q). rewrite head_at_cons. destruct Hc as [->|[-> (m & Hm & ->)]]; cbn.
  - destruct (head_at c0 q); [done|]. destruct Hmade as [?|[Hq Hm]]; [by left|right]. split; [by apply prefix_cons|done].
  - destruct q as [|name q]; [right; split; [apply prefix_cons, prefix_nil|by exists m]|].
    rewrite head_at_empty in Hmade by done.
    destruct Hmade as [E|[Hq Hm']]; [by left|right; split; [by apply prefix_cons|done]].
Qed.

Lemma prefix_cases name q (l : list string) x : (x :: q) `prefix_of` (name :: l) → x = name ∧ q `prefix_of` l.
Proof. intros H. split; [by eapply prefix_cons_inv_1|by eapply prefix_cons_inv_2]. Qed.

Lemma directories_to_cons seg segs cur c :
  is_dir cur = true → directories_to segs c → directories_to (seg :: segs) (set_child seg c cur).
Proof.
  intros Hd Hc [|name q] Hq; rewrite head_at_set_child by done; [destruct cur; [cbn; eauto|done..]|].
  apply prefix_cases in Hq as [-> Hq]. rewrite decide_True by done. by apply Hc.
Qed.

Lemma blocked_step (inherit : string → option dirmeta) seg segs cur c0 :
  (child seg cur = Some c0 ∨ child seg cur = None ∧ ∃ m, c0 = Dir m false []) →
  is_dir c0 = true →
  way_blocked (λ d, inherit ("/" +:+ seg +:+ d)) segs c0 → way_blocked inherit (seg :: segs) cur.
Proof.
  intros Hc Hd (q & Hq & H). exists (seg :: q). split; [by apply prefix_cons|]. rewrite head_at_cons.
  destruct Hc as [->|[-> (m & ->)]]; cbn; [done|]. destruct q as [|name q]; [done|]. by rewrite head_at_empty in H.
Qed.

Lemma make_dirs_at (inherit : string → option dirmeta) at_ segs cur t ok :
  is_dir cur = true → make_dirs inherit at_ segs cur = (t, ok) →
  let inherit' := λ d, inherit (at_ +:+ d) in
  parents_made inherit' segs cur t ∧ (if ok then directories_to segs t else way_blocked inherit' segs cur).
Proof.
  revert at_ cur t ok. induction segs as [|seg segs IH]; intros at_ cur t ok Hd; cbn [make_dirs]; cbn zeta.
  { intros [= <- <-]. split; [apply parents_made_refl|]. intros q ->%prefix_nil_inv. destruct cur; [|done..]. cbn. eauto. }
  assert (way_blocked (λ d, inherit (at_ +:+ d)) (seg :: segs) cur → parents_made (λ d, inherit (at_ +:+ d)) (seg :: segs) cur cur ∧
    way_blocked (λ d, inherit (at_ +:+ d)) (seg :: segs) cur) as Hstop by (split; [apply parents_made_refl|done]).
  assert (∀ c0 c k, make_dirs inherit (at_ +:+ "/" +:+ seg) segs c0 = (c, k) → is_dir c0 = true →
    (child seg cur = Some c0 ∨ child seg cur = None ∧
       ∃ m, inherit (at_ +:+ below_root [seg]) = Some m ∧ c0 = Dir m false []) →
    parents_made (λ d, inherit (at_ +:+ d)) (seg :: segs) cur (set_child seg c cur) ∧
    if k : bool then directories_to (seg :: segs) (set_child seg c cur) else way_blocked (λ d, inherit (at_ +:+ d)) (seg :: segs) cur) as Hgo.
  { intros c0 c k E Hd0 Hc. apply IH in E as [Hp Hk]; [|done]. cbn zeta in *.
    assert (∀ d, (at_ +:+ "/" +:+ seg) +:+ d = at_ +:+ "/" +:+ seg +:+ d) as Ha by (intros d; by rewrite !str_app_assoc).
    split; [|destruct k].
    - apply (parents_made_step _ _ _ _ c0); [done..|]. intros q. specialize (Hp q). cbn beta in *. by rewrite Ha in Hp.
    - by apply directories_to_cons.
    - apply (blocked_step _ _ _ _ c0); [|done|].
      + destruct Hc as [?|[? (m & _ & ?)]]; [by left|right; split; [done|by exists m]].
      + destruct Hk as (q & Hq & H). exists q. split; [done|]. destruct (head_at c0 q) as [[]|]; try done. by rewrite <-Ha. }
  destruct (child seg cur) as [[m o ch| | |]|] eqn:E.
  - destruct (make_dirs _ _ _ _) as [c k] eqn:Em. intros [= <- <-]. apply (Hgo _ _ _ Em); [done|by left].
  - intros [= <- <-]. apply Hstop. exists [seg]. split; [apply prefix_cons, prefix_nil|]. by rewrite head_at_cons, E.
  - intros [= <- <-]. apply Hstop. exists [seg]. split; [apply prefix_cons, prefix_nil|]. by rewrite head_at_cons, E.
  - intros [= <- <-]. apply Hstop. exists [seg]. split; [apply prefix_cons, prefix_nil|]. by rewrite head_at_cons, E.
  - destruct (inherit (at_ +:+ "/" +:+ seg)) as [m|] eqn:Ei.
    + destruct (make_dirs _ _ _ _) as [c k] eqn:Em. intros [= <- <-]. apply (Hgo _ _ _ Em); [done|]. right. split; [done|].
      exists m. cbn. by rewrite str_app_nil_r.
    + intros [= <- <-]. apply Hstop. exists [seg]. split; [apply prefix_cons, prefix_nil|]. rewrite head_at_cons, E. cbn.
      by rewrite str_app_nil_r.
Qed.

(** *** The entry at its place *)

(** What an entry is to put at its place in a tree, [None] to clear it.  A hard link is
    the node its target names, which is no directory; a symbolic link has a target, no
    longer than a path may be. *)
Inductive entry_head (t : fsNode) (hdr : Header) : option head → Prop :=
  | head_global : Typeflag hdr = TypeXGlobalHeader → entry_head t hdr None
  | head_whiteout : Typeflag hdr = TypeChar → Devmajor hdr = 0%Z → Devminor hdr = 0%Z → entry_head t hdr (Some HWhiteout)
  | head_device : Typeflag hdr = TypeChar → Devmajor hdr ≠ 0%Z ∨ Devminor hdr ≠ 0%Z → entry_head t hdr (Some HFile)
  | head_directory : Typeflag hdr = TypeDir → entry_head t hdr (Some (HDir (header_meta hdr) false))
  | head_symlink : Typeflag hdr = TypeSymlink → Linkname hdr ≠ "" → String.length (Linkname hdr) ≤ maxPathLen →
      entry_head t hdr (Some (HLink (Linkname hdr)))
  | head_hardlink resolved n : Typeflag hdr = TypeLink → rootPath t (Split (Linkname hdr)).1 = Some resolved →
      (lstat t (Join resolved (Split (Linkname hdr)).2)).1 = Some n → is_dir n = false →
      entry_head t hdr (Some (head_of n))
  | head_other : Typeflag hdr ∉ [TypeXGlobalHeader; TypeChar; TypeDir; TypeSymlink; TypeLink] → entry_head t hdr (Some HFile).

Lemma entry_node_head t hdr :
  Typeflag hdr ≠ TypeXGlobalHeader →
  match entry_node t hdr with
  | Some n => entry_head t hdr (Some (head_of n)) ∧ ∀ q, q ≠ [] → head_at n q = None
  | None => ∀ h, ¬ entry_head t hdr h
  end.
Proof.
  intros Hg. assert (∀ n : fsNode, children n = [] → ∀ q, q ≠ [] → head_at n q = None) as Hleaf
    by (intros [m o ch| | |] E [|x q] ?; try done; cbn in E; by subst).
  unfold entry_node. case_bool_decide as E1.
  { split; [|apply Hleaf; by case_match]. repeat case_bool_decide; cbn; by constructor; auto. }
  case_bool_decide as E2; [split; [by constructor|by apply Hleaf]|].
  case_bool_decide as E3.
  { destruct (bool_decide_reflect (Linkname hdr = "")) as [El|El]; cbn [orb];
      [|destruct (Nat.ltb_spec maxPathLen (String.length (Linkname hdr)))].
    3: split; [by constructor|by apply Hleaf].
    all: intros h Hh; destruct Hh as [| | | |? Hne|? ? E|E]; try congruence; try lia;
      try (by rewrite E3 in E); destruct E; set_solver. }
  case_bool_decide as E4.
  { assert (∀ h, entry_head t hdr h → ∃ resolved n, rootPath t (Split (Linkname hdr)).1 = Some resolved ∧
      (lstat t (Join resolved (Split (Linkname hdr)).2)).1 = Some n ∧ is_dir n = false) as Hlink.
    { intros h Hh. destruct Hh as [| | | | |resolved n|E]; try congruence; [by exists resolved, n|].
      destruct E. set_solver. }
    destruct (Split (Linkname hdr)) as [tdir tbase] eqn:Es. cbn [fst snd] in Hlink.
    destruct (rootPath t tdir) as [resolved|] eqn:Er; cbn; [|intros h Hh; by destruct (Hlink h Hh) as (? & ? & ? & ?)].
    destruct (lstat t (Join resolved tbase)).1 as [n|] eqn:El;
      [|intros h Hh; destruct (Hlink h Hh) as (? & ? & [= <-] & ? & ?); congruence].
    destruct n as [m o ch| | |];
      [intros h Hh; destruct (Hlink h Hh) as (? & ? & [= <-] & ? & ?); naive_solver|..];
      (split; [|by apply Hleaf]); (eapply head_hardlink; rewrite ?Es; done). }
  split; [|by apply Hleaf]. apply head_other. set_solver.
Qed.

(** What an entry does below the directory it is placed in. *)
Definition entry_effect (mid : fsNode) (hdr : Header) (p : list string) (base : string) (t : fsNode) : Prop :=
  let place := p ++ [base] in
  if bool_decide (base = opaque_marker) then
    agree_but p mid t ∧
    ∃ m o, head_at mid p = Some (HDir m o) ∧ head_at t p = Some (HDir m (o || negb (bool_decide (p = []))))
  else if has_prefix whiteout_prefix base then
    let victim := trim_prefix whiteout_prefix base in
    agree_but (p ++ [victim]) mid t ∧
    head_at t (p ++ [victim]) =
      if bool_decide (victim = "") then head_at mid (p ++ [victim])
      else Some (default HWhiteout (head_at mid (p ++ [victim])))
  else
    match bool_decide (Typeflag hdr = TypeDir), head_at mid place with
    | true, Some (HDir _ o) => agree_but place mid t ∧ head_at t place = Some (HDir (header_meta hdr) o)
    | _, _ =>
        agree_off place mid t ∧ entry_head mid hdr (head_at t place) ∧ ∀ q, q ≠ [] → head_at t (place ++ q) = None
    end.

Lemma alter_at_same p f t n q :
  find_at p t = Some n → (∀ q, head_at (f n) q = head_at n q) → head_at (alter_at p f t) q = head_at t q.
Proof.
  intros Hn Hf. destruct (decide (p `prefix_of` q)) as [[r ->]|Hp]; [|by eapply alter_at_off].
  by rewrite (head_at_app _ _ _ _ (find_at_alter_at _ _ _ _ Hn)), (head_at_app _ _ _ _ Hn).
Qed.

(** A child put into the directory at a path. *)
Lemma alter_at_put p f t n name c :
  find_at p t = Some n → is_dir n = true → f n = set_child name c n →
  agree_off (p ++ [name]) t (alter_at p f t) ∧ ∀ q, head_at (alter_at p f t) ((p ++ [name]) ++ q) = head_at c q.
Proof.
  intros Hn Hd Hf. split.
  - apply (alter_at_child _ _ _ n); [done|]. intros q Hq. rewrite Hf, head_at_set_child by done.
    destruct q as [|name' q]; [done|]. rewrite decide_False; [done|]. intros ->. apply Hq. by exists q.
  - intros q. rewrite <-app_assoc, (head_at_app _ _ _ _ (find_at_alter_at _ _ _ _ Hn)), Hf.
    change ([name] ++ q) with (name :: q). by rewrite head_at_set_child, decide_True.
Qed.

Lemma agree_put_but s t t' :
  agree_off s t t' → (∀ q, q ≠ [] → head_at t' (s ++ q) = head_at t (s ++ q)) → agree_but s t t'.
Proof.
  intros Hoff Hs q Hq. destruct (decide (s `prefix_of` q)) as [[r ->]|?]; [|by apply Hoff].
  apply Hs. intros ->. by rewrite app_nil_r in Hq.
Qed.

Lemma directory_found p t : directories_to p t → ∃ n, find_at p t = Some n ∧ is_dir n = true.
Proof.
  intros H. destruct (H p) as (m & o & E); [done|]. unfold head_at in E.
  destruct (find_at p t) as [n|]; [|done]. exists n. by destruct n.
Qed.

(** Nothing is below what is not there. *)
Lemma head_at_below_none s q t : head_at t s = None → head_at t (s ++ q) = None.
Proof. unfold head_at. rewrite find_at_app. by destruct (find_at s t). Qed.
Lemma head_at_below_leaf s q t h :
  head_at t s = Some h → (∀ m o, h ≠ HDir m o) → q ≠ [] → head_at t (s ++ q) = None.
Proof.
  unfold head_at. rewrite find_at_app. destruct (find_at s t) as [n|]; cbn; [|done].
  intros [= <-] Hh Hq. destruct n as [m o ch| | |]; [by destruct (Hh m o)|by destruct q..].
Qed.

(** *** Each kind of entry *)

Lemma marker_effect mid hdr p :
  directories_to p mid →
  entry_effect mid hdr p opaque_marker (if bool_decide (p = []) then mid else alter_at p set_opaque mid).
Proof.
  intros Hdirs. destruct (directory_found _ _ Hdirs) as (n & Hn & Hd). unfold entry_effect.
  rewrite bool_decide_eq_true_2 by done. destruct n as [m o ch| | |]; try done.
  assert (head_at mid p = Some (HDir m o)) as Hh by (unfold head_at; by rewrite Hn).
  case_bool_decide as Ep; cbn [negb].
  - split; [by intros q _|]. exists m, o. by rewrite orb_false_r.
  - split; [eapply alter_at_but; [exact Hn|by intros []]|]. exists m, o. split; [done|].
    unfold head_at. rewrite (find_at_alter_at _ _ _ _ Hn), orb_true_r. done.
Qed.

Lemma whiteout_effect mid hdr p base :
  directories_to p mid → base ≠ opaque_marker → has_prefix whiteout_prefix base = true →
  entry_effect mid hdr p base (alter_at p (place_whiteout (trim_prefix whiteout_prefix base)) mid).
Proof.
  intros Hdirs Hb Hw. destruct (directory_found _ _ Hdirs) as (n & Hn & Hd). unfold entry_effect.
  rewrite bool_decide_eq_false_2, Hw by done. cbn zeta. set (victim := trim_prefix whiteout_prefix base).
  assert (head_at mid (p ++ [victim]) = head_of <$> child victim n) as Hv.
  { rewrite (head_at_app _ _ _ _ Hn), head_at_cons. by destruct (child victim n). }
  destruct (decide (victim = "" ∨ is_Some (child victim n))) as [Hskip|Hput].
  - assert (∀ q, head_at (alter_at p (place_whiteout victim) mid) q = head_at mid q) as Hsame.
    { intros q. eapply alter_at_same; [exact Hn|]. intros r. unfold place_whiteout.
      destruct Hskip as [->|Hs]; [done|]. by rewrite (bool_decide_eq_true_2 (is_Some _)), andb_false_r. }
    split; [by intros q _|]. rewrite Hsame. case_bool_decide; [done|].
    destruct Hskip as [?|[c Hc]]; [done|]. rewrite Hv, Hc. done.
  - assert (place_whiteout victim n = set_child victim Whiteout n) as Hp.
    { unfold place_whiteout. rewrite !bool_decide_eq_false_2 by tauto. done. }
    destruct (alter_at_put p (place_whiteout victim) mid n victim Whiteout Hn Hd Hp) as [Hoff Hat].
    rewrite (bool_decide_eq_false_2 (victim = "")) by tauto.
    assert (child victim n = None) as Hc by (destruct (child victim n); [destruct Hput; right; by eexists|done]).
    rewrite Hc in Hv. split.
    + apply agree_put_but; [done|]. intros q Hq. rewrite Hat, (head_at_below_none _ _ _ Hv). by destruct q.
    + rewrite <-(app_nil_r (p ++ [victim])), Hat, app_nil_r, Hv. done.
Qed.

Lemma get_remove name name' l :
  NoDup (names l) → get name' (remove name l) = if decide (name' = name) then None else get name' l.
Proof.
  unfold names. induction l as [|[k m] l IH]; csimpl; [by case_decide|]. intros [Hk Hl]%NoDup_cons. cbn.
  destruct (decide (k = name)) as [->|]; cbn; [|rewrite IH by done; repeat case_decide; congruence].
  destruct (decide (name' = name)) as [->|]; [by apply get_None|by rewrite decide_False by congruence].
Qed.

Lemma place_effect mid hdr p base n r ok :
  wf n → find_at p mid = Some n → is_dir n = true → base ≠ opaque_marker → has_prefix whiteout_prefix base = false →
  place_entry mid hdr base n = (r, ok) →
  if ok then entry_effect mid hdr p base (alter_at p (λ _, r) mid)
  else (∀ q, head_at (alter_at p (λ _, r) mid) q = head_at mid q) ∧ ∀ h, ¬ entry_head mid hdr h.
Proof.
  intros Hw Hn Hd Hb Hp. unfold entry_effect. rewrite bool_decide_eq_false_2, Hp by done. cbn zeta.
  assert (head_at mid (p ++ [base]) = head_of <$> child base n) as Hv.
  { rewrite (head_at_app _ _ _ _ Hn), head_at_cons. by destruct (child base n). }
  assert (∀ c, ok = true → r = set_child base c n → let t := alter_at p (λ _, r) mid in
    agree_off (p ++ [base]) mid t ∧ ∀ q, head_at t ((p ++ [base]) ++ q) = head_at c q) as Hput
    by (intros c _ ->; by apply (alter_at_put p _ mid n)).
  assert (∀ c, ok = true → r = set_child base c n → entry_head mid hdr (Some (head_of c)) →
    (∀ q, q ≠ [] → head_at c q = None) → let t := alter_at p (λ _, r) mid in
    agree_off (p ++ [base]) mid t ∧ entry_head mid hdr (head_at t (p ++ [base])) ∧
    ∀ q, q ≠ [] → head_at t ((p ++ [base]) ++ q) = None) as Hnew.
  { intros c Hok Hr Hc Hq t. destruct (Hput c Hok Hr) as [Hoff Hat]. split; [done|].
    split; [|intros q ?; rewrite Hat; by apply Hq]. rewrite <-(app_nil_r (p ++ [base])). subst t. by rewrite Hat. }
  unfold place_entry. case_bool_decide as Eg.
  { intros [= <- <-]. assert (Typeflag hdr ≠ TypeDir) as Ed by by rewrite Eg.
    rewrite bool_decide_eq_false_2 by done. apply wf_NoDup in Hw.
    assert (∀ q, head_at (with_children (remove base) n) q =
      match q with name :: _ => if decide (name = base) then None else head_at n q | [] => head_at n [] end) as Hrem.
    { intros [|name q]; [by destruct n|]. destruct n as [m o ch| | |]; try done. rewrite !head_at_cons. unfold child.
      cbn [with_children children]. rewrite get_remove by done. by case_decide. }
    assert (∀ q, head_at (alter_at p (λ _, with_children (remove base) n) mid) ((p ++ [base]) ++ q) = None) as Hat.
    { intros q. rewrite <-app_assoc, (head_at_app _ _ _ _ (find_at_alter_at _ _ _ _ Hn)), Hrem. cbn. by rewrite decide_True. }
    split; [|split; [|intros; apply Hat]].
    - apply (alter_at_child _ _ _ n); [done|]. intros q Hq. rewrite Hrem. destruct q as [|name q]; [done|].
      rewrite decide_False; [done|]. intros ->. apply Hq. by exists q.
    - rewrite <-(app_nil_r (p ++ [base])), Hat. by constructor. }
  pose proof (entry_node_head mid hdr Eg) as Hnode.
  assert (match entry_node mid hdr with None => (n, false) | Some c => (set_child base c n, true) end = (r, ok) →
    if ok then let t := alter_at p (λ _, r) mid in agree_off (p ++ [base]) mid t ∧
      entry_head mid hdr (head_at t (p ++ [base])) ∧ ∀ q, q ≠ [] → head_at t ((p ++ [base]) ++ q) = None
    else (∀ q, head_at (alter_at p (λ _, r) mid) q = head_at mid q) ∧ ∀ h, ¬ entry_head mid hdr h) as Hplace.
  { destruct (entry_node mid hdr) as [c|]; intros [= <- <-]; [destruct Hnode; by apply (Hnew c)|].
    split; [|done]. intros q. by eapply alter_at_same. }
  rewrite Hv. case_bool_decide as Ed; [|by intros H%Hplace; destruct ok].
  destruct (child base n) as [[m o ch| | |]|] eqn:Ec; cbn [fmap option_fmap option_map head_of];
    try (by intros H%Hplace; destruct ok).
  intros [= <- <-]. destruct (Hput (Dir (header_meta hdr) o ch) eq_refl eq_refl) as [Hoff Hat]. split.
  - apply agree_put_but; [done|]. intros q Hq. rewrite Hat. unfold head_at. rewrite find_at_app, find_at_app, Hn. cbn.
    rewrite Ec. cbn. by destruct q.
  - rewrite <-(app_nil_r (p ++ [base])), Hat. done.
Qed.

(** *** A refused entry *)

Lemma put_same name n l : StronglySorted name_lt (names l) → get name l = Some n → put name n l = l.
Proof.
  unfold names. induction l as [|[k m] l IH]; csimpl; [done|]. intros H. inversion_clear H as [|? ? Hl Hk].
  case_decide as E; [intros [= ->]; by rewrite E, str_compare_refl|]. intros Hg.
  assert (name_lt k name) as Hlt.
  { rewrite Forall_forall in Hk. apply Hk. apply get_Some_elem in Hg. by apply (list_elem_of_fmap_2 fst l (name, n)). }
  apply str_compare_gt in Hlt as ->. by rewrite IH.
Qed.

Lemma alter_at_nothing p t n : wf t → find_at p t = Some n → alter_at p (λ _, n) t = t.
Proof.
  revert t. induction p as [|name p IH]; intros t Hw; cbn; [by intros [= ->]|].
  destruct (child name t) as [c|] eqn:E; cbn; [|done]. intros Hc.
  destruct (wf_child _ _ _ Hw E) as [_ Hwc]. rewrite (IH c Hwc Hc). apply wf_children in Hw as [Hs _].
  destruct t as [m o ch| | |]; try done. unfold set_child, child in *. cbn in *. by rewrite put_same.
Qed.

Lemma place_entry_refused t hdr base parent r : place_entry t hdr base parent = (r, false) → r = parent.
Proof.
  unfold place_entry. case_bool_decide; [done|].
  case_bool_decide; [destruct (child base parent) as [[]|]; try done|]; destruct (entry_node t hdr); by intros [= <-].
Qed.

(** *** Every entry *)

(** What becomes of a layer's tree when an entry comes: a name that is the root's is passed over;
    an entry that is accepted has its parents made and its effect at its own place; one
    that is refused leaves what was there, with no more than some of its parents made. *)
Definition entry_applied (upper : fsNode) (lowers : list fsNode) (hdr : Header) (t : fsNode) (accepted : bool) : Prop :=
  let name := Clean (Header_Name hdr) in
  let inherit := inheritDirInfo (rev lowers) in
  if bool_decide (name = ".") || bool_decide (name = "/") || bool_decide (Base name = "..")
  then t = upper ∧ accepted = true
  else match decide (String.length name ≤ maxPathLen), rootPath upper (Split name).1 with
       | left _, Some resolved =>
           let p := path_names resolved in
           if accepted
           then ∃ mid, parents_made inherit p upper mid ∧ directories_to p mid ∧ entry_effect mid hdr p (Split name).2 t
           else parents_made inherit p upper t ∧
                (way_blocked inherit p upper ∨ directories_to p t ∧ ∀ h, ¬ entry_head t hdr h)
       | _, _ => t = upper ∧ accepted = false
       end.

Lemma extract_applied upper ls hdr :
  wf_root upper → entry_applied upper ls hdr (extract upper ls hdr).1 (extract upper ls hdr).2.
Proof.
  intros [Hw Hd]. unfold entry_applied, extract. cbn zeta. destruct (_ || _); [done|].
  destruct (Nat.ltb_spec maxPathLen (String.length (Clean (Header_Name hdr)))) as [Hl|Hl];
    (destruct (decide _) as [Hl'|Hl']; [try lia|try lia]); [done|].
  destruct (Split _) as [dir base]. cbn [fst snd]. destruct (rootPath upper dir) as [resolved|]; [|done].
  unfold mkparent. destruct (make_dirs _ _ _ _) as [mid ok] eqn:Em.
  pose proof (make_dirs_wf _ _ _ _ _ _ (path_names_ok resolved) Hw Em) as [Hwm _].
  apply make_dirs_at in Em as [Hmade Hok]; [|done]. cbn zeta in *.
  destruct ok; [|by split; [|left]]. set (p := path_names resolved) in *.
  case_bool_decide as Eb; [subst base; exists mid; split_and!; [done..|by apply marker_effect]|].
  destruct (has_prefix whiteout_prefix base) eqn:Ewh; [exists mid; split_and!; [done..|by apply whiteout_effect]|].
  destruct (directory_found _ _ Hok) as (n & Hn & Hdn). rewrite Hn.
  destruct (place_entry mid hdr base n) as [r ok] eqn:Ep. cbn [fst snd].
  pose proof (place_effect _ _ _ _ _ _ _ (find_at_wf _ _ _ Hwm Hn) Hn Hdn Eb Ewh Ep) as He.
  destruct ok; [by exists mid|]. apply place_entry_refused in Ep as ->. destruct He as [_ He].
  rewrite (alter_at_nothing p mid n) in * by done. split; [done|by right].
Qed.

(** ** Resolving a path *)

(** The passes of [rootPath]: what they end with, and the links expanded. *)
Inductive resolves (t : fsNode) : string → nat → option (string * nat) → Prop :=
  | resolves_refused p w : walkLinks t (rev (components p)) w = None → resolves t p w None
  | resolves_done p w next :
      walkLinks t (rev (components p)) w = Some (next, w) →
      resolves t p w (Some (Clean ("/" +:+ next), w))
  | resolves_again p w next w' r :
      walkLinks t (rev (components p)) w = Some (next, w') → w' ≠ w →
      resolves t next w' r → resolves t p w r.

Lemma resolves_functional t p w r r' : resolves t p w r → resolves t p w r' → r = r'.
Proof.
  intros H. revert r'. induction H; intros r'; inversion_clear 1; try congruence.
  apply IHresolves. by simplify_eq.
Qed.

(** A walk expands links one at a time and stops at the bound. *)
Lemma walkLink_bound t p w next isLink w' :
  walkLink t p w = Some (next, isLink, w') → w ≤ w' ≤ S maxExtractSymlinks.
Proof.
  unfold walkLink. destruct (_ <? _) eqn:E; [done|]. apply Nat.ltb_ge in E.
  repeat (case_match; try done); intros; simplify_eq; lia.
Qed.

Lemma walkLinks_bound t l w next w' :
  w ≤ S maxExtractSymlinks → walkLinks t l w = Some (next, w') → w ≤ w' ≤ S maxExtractSymlinks.
Proof.
  revert w next w'. induction l as [|file dir IH]; intros w next w' Hw; [done|]. cbn [walkLinks].
  destruct dir as [|d dir].
  { destruct (walkLink t file w) as [[[n i] w1]|] eqn:E; cbn; [|done].
    intros [= <- <-]. by eapply walkLink_bound. }
  destruct (if bool_decide _ then _ else _) as [[newdir w1]|] eqn:E; cbn [mbind option_bind]; [|done].
  assert (w ≤ w1 ≤ S maxExtractSymlinks) as H1.
  { case_bool_decide; [simplify_eq; lia|by eapply IH]. }
  clear E. case_bool_decide; [intros; simplify_eq; lia|].
  destruct (walkLink t _ w1) as [[[n i] w2]|] eqn:E2; cbn [mbind option_bind]; [|done].
  apply walkLink_bound in E2. case_match; intros; simplify_eq; lia.
Qed.

Lemma root_passes_resolves t fuel p w :
  w ≤ S maxExtractSymlinks → S maxExtractSymlinks - w < fuel →
  ∃ r, root_passes fuel t p w = Some (fst <$> r) ∧ resolves t p w r ∧
       (∀ q n, r = Some (q, n) → n ≤ S maxExtractSymlinks).
Proof.
  revert p w. induction fuel as [|fuel IH]; intros p w Hw Hf; [lia|]. cbn [root_passes].
  destruct (walkLinks t _ w) as [[next w']|] eqn:E.
  - pose proof (walkLinks_bound _ _ _ _ _ Hw E).
    destruct (Nat.eqb_spec w' w) as [->|Hne].
    + eexists (Some (_, w)). split; [done|]. split; [by constructor|]. intros; simplify_eq. lia.
    + destruct (IH next w') as (r & H1 & H2 & H3); [lia..|]. exists r. split; [done|].
      split; [by eapply resolves_again|done].
  - exists None. repeat split; by constructor.
Qed.

Lemma rooted_abs p : is_abs ("/" +:+ p) = true.
Proof. apply (has_prefix_app "/"). Qed.

Lemma resolves_canonical t p w r : resolves t p w r → ∀ q n, r = Some (q, n) → canonicalAbsPath q = true.
Proof.
  induction 1 as [| |? ? ? ? ? ? ? ? IH]; intros q n E; [done| |by eapply IH].
  injection E as <- <-. apply canonicalAbsPath_Clean, rooted_abs.
Qed.

(** ** Properties *)

(** C12: whatever archives an image is made of, what the incrementally merged
    tree shows at every path is what overlayfs's rule picks from the separate
    layer trees: the topmost layer that has the path, unless a layer above it
    hides it by an opaque directory or a non-directory on the way. *)
Theorem image_shows_topmost archives p :
  let o := extract_image archives in
  shown_at (root o) p = overlay_at (rev (layers o)) p.
Proof.
  cbn zeta. induction archives as [|hdrs archives IH] using rev_ind; [done|].
  rewrite extract_image_snoc. unfold apply_layer, Apply. cbn [root layers].
  pose proof (extract_image_wf archives) as [[_ Hd] _].
  pose proof (extract_layer_wf (extract_image archives) hdrs) as [Hw Hld].
  rewrite rev_app_distr. cbn [rev app overlay_at].
  destruct (stack_at p (root (extract_image archives)) _ Hd Hld Hw) as [-> _]. by rewrite IH.
Qed.

(** C27: each entry of an archive changes its own place in its layer and nothing else.
    At every other path there is afterwards what there was, owners, modes and opaque marks
    included, but for the missing directories on the way, made as the nearest lower layer
    has them; nothing is placed through a non-directory.
    At the place itself: a whiteout only where nothing was; an opaque mark on the directory
    alone, the root's apart; a directory over a directory only its metadata; anything else
    replaces what was there and all below it.  A refused entry replaces nothing, and an
    entry is refused only for a name too long, a parent that cannot be resolved or made, a
    symbolic link without a usable target, or a hard link to nothing or to a directory. *)
Theorem add_exact archives hdrs hdr :
  let l := extract_layer (extract_image archives) hdrs in
  let '(l', accepted) := Add l hdr in
  lowers l' = lowers l ∧ entry_applied (Layer_root l) (lowers l) hdr (Layer_root l') accepted.
Proof.
  intros l. unfold Add. pose proof (extract_applied (Layer_root l) (lowers l) hdr (extract_layer_wf _ _)) as H.
  by destruct (extract _ _ _).
Qed.

(** Stacking is associative in what it shows and in what it hides: layers
    may be flattened into one overlay first and put over another filesystem
    later, which is why a directory stays opaque once its hidden children are
    gone.  (Owners and modes are not associative: a directory over a file
    starts without any.) *)
Theorem stack_associative a b c p :
  wf_root a → wf_root b → wf_root c →
  shown_at (stack (stack a b) c) p = shown_at (stack a (stack b c)) p ∧
  covers p (stack (stack a b) c) = covers p (stack a (stack b c)).
Proof.
  intros [Ha Hda] [Hb Hdb] [Hc Hdc].
  assert (is_dir (stack a b) = true) as Hab by by destruct b.
  assert (is_dir (stack b c) = true) as Hbc by by destruct c.
  destruct (stack_at p (stack a b) c) as [-> ->]; [done..|].
  destruct (stack_at p a b) as [-> ->]; [done..|].
  destruct (stack_at p a (stack b c)) as [-> ->]; [done|done|by apply wf_stack|].
  destruct (stack_at p b c) as [-> ->]; [done..|]. rewrite orb_assoc. split; [|done].
  destruct (shown_at c p); [done|]. destruct (covers p c); cbn; [done|].
  destruct (shown_at b p); [done|]. by destruct (covers p b).
Qed.

Lemma wf_root_extracted hdrs ls : wf_root (extracted hdrs ls).
Proof.
  unfold extracted. assert (wf_root newDir) as H by by repeat constructor. revert H.
  generalize newDir. induction hdrs as [|hdr hdrs IH]; intros t Ht; [done|]. cbn. by apply IH, extract_wf.
Qed.

Lemma stack_associative_witness :
  let a := extracted [entry "d/x" "0" ""] [] in
  let b := extracted [entry "d" "0" ""] [] in
  let c := extracted [entry "d/y" "0" ""] [] in
  shown_at (stack (stack a b) c) ["d"; "x"] = None ∧
  shown_at (stack (stack a b) c) ["d"; "x"] = shown_at (stack a (stack b c)) ["d"; "x"] ∧
  covers ["d"; "x"] (stack (stack a b) c) = covers ["d"; "x"] (stack a (stack b c)).
Proof.
  cbn zeta. split; [by vm_compute|]. apply stack_associative; apply wf_root_extracted.
Defined.

(** C28: resolving a path against any tree, a cyclic one included, ends: the
    passes have exactly one outcome, it comes after at most 256 expansions, and
    [rootPath] computes it; what it answers is a canonical absolute path. *)
Theorem rootPath_ends t p :
  (∃ r, resolves t p 0 r ∧ (∀ r', resolves t p 0 r' → r' = r) ∧
     (∀ q n, r = Some (q, n) → n ≤ S maxExtractSymlinks) ∧
     rootPath t p =
       if bool_decide (p = "") then Some "/"
       else if negb (crossesSymlink t p) then Some (Clean ("/" +:+ p)) else fst <$> r) ∧
  ∀ q, rootPath t p = Some q → canonicalAbsPath q = true.
Proof.
  destruct (root_passes_resolves t (maxExtractSymlinks + 3) p 0) as (r & Hp & Hr & Hn); [lia..|].
  assert (rootPath t p = if bool_decide (p = "") then Some "/"
    else if negb (crossesSymlink t p) then Some (Clean ("/" +:+ p)) else fst <$> r) as E.
  { unfold rootPath. rewrite Hp. by destruct r. }
  split.
  - exists r. repeat split; try done. intros r' Hr'. by eapply resolves_functional.
  - intros q. rewrite E. case_bool_decide; [by intros [= <-]|].
    case_match; [intros [= <-]; apply canonicalAbsPath_Clean, rooted_abs|].
    destruct r as [[q' n]|]; [|done]. intros [= <-]. by eapply resolves_canonical.
Qed.

Definition link_loop : fsNode :=
  extracted [entry "a" TypeSymlink "b"; entry "b" TypeSymlink "a"; entry "lib" TypeSymlink "usr/lib"] [].

Lemma rootPath_ends_witness :
  rootPath link_loop "a/x" = None ∧ rootPath link_loop "lib/x" = Some "/usr/lib/x" ∧
  canonicalAbsPath "/usr/lib/x" = true.
Proof.
  split; [by vm_compute|]. split; [by vm_compute|].
  apply (rootPath_ends link_loop "lib/x"). by vm_compute.
Defined.
