(* ===== verification/Context.v ===== *)
(** Cancellation and progress in [package fetch]: the calls that poll a context,
    report the stages of their work and may fail, as a state monad over the polls
    made and the events reported; and [progressStep], the bracket every stage runs
    in ([fetch/assemble.go]). *)
From stdpp Require Import options.
From S2P Require Import Prelude GoStrings.

(** ** Progress events *)

Inductive Stage := StageLoad | StageResolve | StageCompose | StageInventory | StageCollisions.
Inductive ProgressState := ProgressStarted | ProgressCompleted | ProgressFailed.
#[export] Instance Stage_eq_dec : EqDecision Stage.
Proof. solve_decision. Defined.
#[export] Instance ProgressState_eq_dec : EqDecision ProgressState.
Proof. solve_decision. Defined.

Record Progress := mkProgress {
  Progress_Stage : Stage;
  State : ProgressState;
  Progress_Reference : string;
  Progress_Layer : string;
}.
#[export] Instance Progress_eq_dec : EqDecision Progress.
Proof. solve_decision. Defined.

(** ** The monad

    [done n] is what the context's [n]th poll finds: a context may be done at any
    moment, and a deadline or a cancellation is not taken back. *)

Record world := mkWorld { polls : nat; events : list Progress }.

Section Monad.
Context {E : Type}.

Definition M (A : Type) : Type := world → result E A * world.

Definition ok {A} (a : A) : M A := λ w, (Ok a, w).
Definition fail {A} (e : E) : M A := λ w, (Err e, w).
Definition bind {A B} (m : M A) (f : A → M B) : M B := λ w,
  match m w with
  | (Ok a, w) => f a w
  | (Err e, w) => (Err e, w)
  end.
(** A call that neither polls nor reports. *)
Definition lift {A} (r : result E A) : M A := λ w, (r, w).

(** [for _, x := range l] with an accumulator, until the first failure. *)
Fixpoint for_range {A S} (f : S → A → M S) (s : S) (l : list A) : M S :=
  match l with
  | [] => ok s
  | x :: l => bind (f s x) (λ s, for_range f s l)
  end.
End Monad.
Arguments M : clear implicits.

(** A call of another package, its error wrapped. *)
Definition embed {E F A} (f : E → F) (m : M E A) : M F A := λ w, let '(r, w) := m w in (map_err f r, w).

Declare Scope step_scope.
Delimit Scope step_scope with step.
Notation "x ⇠ m ; k" := (bind m (λ x, k))
  (at level 100, m at next level, k at level 200, right associativity) : step_scope.
Notation "m ;; k" := (bind m (λ _, k)) (at level 100, k at level 200, right associativity) : step_scope.
Open Scope step_scope.

(** ** The context and the reporter *)

Section Steps.
Context {E : Type} (cancelled : E) (done : nat → bool) (reports : bool).

(** [ctx.Err()]. *)
Definition poll : M E unit := λ w,
  (if done (polls w) then Err cancelled else Ok tt, mkWorld (S (polls w)) (events w)).

(** [if report != nil { report(event) }]. *)
Definition report (event : Progress) (state : ProgressState) : M E unit := λ w,
  (Ok tt, mkWorld (polls w)
     (if reports
      then events w ++ [mkProgress (Progress_Stage event) state (Progress_Reference event) (Progress_Layer event)]
      else events w)).

(** [ctx.Err() != nil] as a condition. *)
Definition polled_done : M E bool := λ w, (Ok (done (polls w)), mkWorld (S (polls w)) (events w)).

(** What follows once the error so far is held in a variable. *)
Definition attempt {A} (m : M E A) : M E (result E A) := λ w,
  let '(r, w) := m w in (Ok r, w).

Definition progressStep {A} (event : Progress) (run : M E A) : M E A :=
  poll;;
  report event ProgressStarted;;
  err ⇠ attempt (poll;; a ⇠ run; poll;; ok a);
  report event (match err with Ok _ => ProgressCompleted | Err _ => ProgressFailed end);;
  a ⇠ lift err;
  poll;; ok a.
End Steps.

(** ** The protocol of the events

    What a call reports is a sequence of steps, each closed before the next one
    starts; all of them completed, but for a failed one that ends the call. *)

Definition with_state (e : Progress) (s : ProgressState) : Progress :=
  mkProgress (Progress_Stage e) s (Progress_Reference e) (Progress_Layer e).

Inductive steps : bool → list Progress → Prop :=
  | steps_none ok : steps ok []
  | steps_completed ok e l :
      steps ok l → steps ok (with_state e ProgressStarted :: with_state e ProgressCompleted :: l)
  | steps_failed e : steps false [with_state e ProgressStarted; with_state e ProgressFailed].
#[export] Hint Constructors steps : kit.

(** A call that follows the protocol. *)
Definition follows {E A} (m : M E A) : Prop :=
  ∀ w, ∃ l, events (m w).2 = events w ++ l ∧ steps (is_ok (m w).1) l ∧ polls w ≤ polls (m w).2.
(** A call that reports nothing. *)
Definition silent {E A} (m : M E A) : Prop :=
  ∀ w, events (m w).2 = events w ∧ polls w ≤ polls (m w).2.

Section Facts.
Context {E : Type}.

Lemma steps_weaken l : steps true l → ∀ ok, steps ok l.
Proof. intros H. remember true as b eqn:Hb. induction H; intros; try done; constructor; auto. Qed.

Lemma steps_app ok l l' : steps true l → steps ok l' → steps ok (l ++ l').
Proof.
  intros H H'. remember true as b eqn:Hb. induction H; cbn; [done|constructor; auto|done].
Qed.

Lemma silent_follows {A} (m : M E A) : silent m → follows m.
Proof.
  intros H w. destruct (H w) as [He Hp]. exists []. rewrite app_nil_r. repeat split; [done|constructor|done].
Qed.

Lemma silent_ok {A} (a : A) : silent (E:=E) (ok a).
Proof. by intros w. Qed.
Lemma silent_fail {A} e : silent (A:=A) (fail (E:=E) e).
Proof. by intros w. Qed.
Lemma silent_lift {A} (r : result E A) : silent (lift r).
Proof. by intros w. Qed.
Lemma silent_poll c d : silent (E:=E) (poll c d).
Proof. intros w. split; cbn; [done|lia]. Qed.

Lemma silent_polled_done d : silent (E:=E) (polled_done d).
Proof. intros w. split; cbn; [done|lia]. Qed.
Lemma silent_embed {F A} (f : E → F) (m : M E A) : silent m → silent (embed f m).
Proof. intros H w. unfold embed. destruct (H w). by destruct (m w) as [[a|e] w']. Qed.
Lemma silent_attempt {A} (m : M E A) : silent m → silent (attempt m).
Proof. intros H w. unfold attempt. destruct (H w). by destruct (m w). Qed.
Lemma follows_embed {F A} (f : E → F) (m : M E A) : follows m → follows (embed f m).
Proof. intros H w. unfold embed. specialize (H w). by destruct (m w) as [[a|e] w']. Qed.
Lemma silent_bind {A B} (m : M E A) (f : A → M E B) :
  silent m → (∀ a, silent (f a)) → silent (bind m f).
Proof.
  intros Hm Hf w. unfold bind. destruct (Hm w) as [He Hp]. destruct (m w) as [[a|e] w']; cbn in *; [|done].
  destruct (Hf a w') as [He' Hp']. split; [congruence|lia].
Qed.

Lemma follows_bind {A B} (m : M E A) (f : A → M E B) :
  follows m → (∀ a, follows (f a)) → follows (bind m f).
Proof.
  intros Hm Hf w. unfold bind. destruct (Hm w) as (l & He & Hs & Hp). destruct (m w) as [[a|e] w']; cbn in *.
  - destruct (Hf a w') as (l' & He' & Hs' & Hp'). exists (l ++ l').
    rewrite He', He, app_assoc. split; [done|]. split; [by apply steps_app|lia].
  - by exists l.
Qed.

(** A failure that is wrapped and passed on. *)
Lemma follows_wrapped {A B} (f : E → E) (m : M E A) (k : A → M E B) :
  follows m → (∀ a, follows (k a)) → follows (bind (attempt m) (λ r, bind (lift (map_err f r)) k)).
Proof.
  intros Hm Hk w. unfold bind, attempt, lift. destruct (Hm w) as (l & He & Hs & Hp).
  destruct (m w) as [[a|e] w']; cbn in *; [|by exists l].
  destruct (Hk a w') as (l' & He' & Hs' & Hp'). exists (l ++ l').
  rewrite He', He, app_assoc. split; [done|]. split; [by apply steps_app|lia].
Qed.

Lemma follows_ok {A} (a : A) : follows (E:=E) (ok a).
Proof. apply silent_follows, silent_ok. Qed.

Lemma follows_for_range {A S} (f : S → A → M E S) s l :
  (∀ s x, x ∈ l → follows (f s x)) → follows (for_range f s l).
Proof.
  revert s. induction l as [|x l IH]; intros s Hf; [apply follows_ok|].
  cbn. apply follows_bind; [apply Hf; by left|]. intros s'. apply IH. intros. apply Hf. by right.
Qed.

Lemma silent_for_range {A S} (f : S → A → M E S) s l :
  (∀ s x, silent (f s x)) → silent (for_range f s l).
Proof.
  intros Hf. revert s. induction l as [|x l IH]; intros s; [apply silent_ok|].
  cbn. apply silent_bind; [apply Hf|apply IH].
Qed.

(** A step of silent work follows the protocol. *)
Lemma follows_progressStep {A} c d reports event (run : M E A) :
  silent run → follows (progressStep c d reports event run).
Proof.
  intros Hrun w. unfold progressStep.
  set (body := bind (poll c d) (λ _, bind run (λ a, bind (poll c d) (λ _, ok a)))).
  assert (silent body) as Hb.
  { apply silent_bind; [apply silent_poll|]. intros _. apply silent_bind; [done|]. intros a.
    apply silent_bind; [apply silent_poll|]. intros _. apply silent_ok. }
  clearbody body.
  match goal with |- ∃ l, events (?m w).2 = _ ∧ _ => remember (m w) as rw eqn:Erw end.
  unfold bind at 1, poll at 1 in Erw. destruct (d (polls w)); cbn -[attempt poll bind report lift] in Erw.
  { subst rw. exists []. cbn. rewrite app_nil_r. repeat split; [constructor|lia]. }
  unfold bind at 1, report at 1 in Erw. cbn -[attempt poll bind report lift] in Erw.
  unfold bind at 1, attempt in Erw.
  match type of Erw with context [body ?w'] => destruct (Hb w') as [He Hp]; destruct (body w') as [r w2] end.
  cbn in He, Hp. unfold bind at 1, report in Erw. rewrite He in Erw. clear He.
  assert (∀ ok st, (ok = true → st = ProgressCompleted) → st ≠ ProgressStarted →
    steps ok (if reports then [with_state event ProgressStarted; with_state event st] else [])) as Hs.
  { intros o st Ho Hst. destruct reports; [|constructor].
    destruct o; [rewrite Ho by done; repeat constructor|]. destruct st; [done|repeat constructor..]. }
  assert (∀ st, (if reports
     then (if reports then events w ++ [with_state event ProgressStarted] else events w) ++ [with_state event st]
     else (if reports then events w ++ [with_state event ProgressStarted] else events w)) =
     events w ++ (if reports then [with_state event ProgressStarted; with_state event st] else [])) as He.
  { intros st. destruct reports; [by rewrite <-(assoc_L (++))|by rewrite app_nil_r]. }
  unfold with_state in *. destruct r as [a|e].
  - unfold bind, lift, poll, ok in Erw. cbn in Erw. rewrite He in Erw.
    destruct (d (polls w2)); subst rw; cbn; eexists; (split; [reflexivity|]); (split; [by apply Hs|lia]).
  - unfold bind, lift in Erw. cbn in Erw. rewrite He in Erw. subst rw. cbn.
    eexists; (split; [reflexivity|]); (split; [by apply Hs|lia]).
Qed.
End Facts.
(** ** What successful calls yield *)

Definition yields {E A} (m : M E A) (P : A → Prop) : Prop := ∀ w a w', m w = (Ok a, w') → P a.

(** A successful sequence is two successful calls. *)
Lemma bind_Ok {E A B} (m : M E A) (f : A → M E B) w b w' :
  bind m f w = (Ok b, w') ↔ ∃ a w1, m w = (Ok a, w1) ∧ f a w1 = (Ok b, w').
Proof. unfold bind. destruct (m w) as [[a|e] w1]; naive_solver. Qed.

Lemma lift_Ok {E A} (r : result E A) w a w' : lift r w = (Ok a, w') ↔ r = Ok a ∧ w' = w.
Proof. unfold lift. naive_solver. Qed.

(** Opens the sequence of successful calls behind a successful one. *)
Ltac inv_step :=
  repeat match goal with
  | H : bind _ _ _ = (Ok _, _) |- _ => apply bind_Ok in H as (? & ? & ? & H)
  | H : lift _ _ = (Ok _, _) |- _ => apply lift_Ok in H as [H ?]
  | H : ok _ _ = (Ok _, _) |- _ => injection H as H ?
  | H : fail _ _ = (Ok _, _) |- _ => discriminate H
  end; subst.

(** The events of a step that succeeded. *)
Definition completed (e : Progress) : list Progress :=
  [with_state e ProgressStarted; with_state e ProgressCompleted].

Lemma progressStep_Ok {E A} c d event (run : M E A) w a w' :
  silent run → progressStep c d true event run w = (Ok a, w') → events w' = events w ++ completed event.
Proof.
  intros Hrun. unfold progressStep, attempt, report, poll, lift, bind, ok, completed, with_state.
  destruct (d (polls w)); [done|]. cbn. destruct (d (S (polls w))); [done|].
  match goal with |- context [run ?w0] => destruct (Hrun w0) as [He _]; destruct (run w0) as [[b|e] w1] end; [|done].
  cbn in *. destruct (d (polls w1)); [done|]. cbn. destruct (d (S (polls w1))); [done|].
  intros [= _ <-]. cbn. by rewrite He, <-(assoc_L (++)).
Qed.

Lemma for_range_pure {E A S} (f : S → A → M E S) (g : S → A → S) s l w :
  (∀ s x w, f s x w = (Ok (g s x), w)) → for_range f s l w = (Ok (foldl g s l), w).
Proof.
  intros Hf. revert s. induction l as [|x l IH]; intros s; [done|]. cbn. unfold bind. by rewrite Hf, IH.
Qed.

(** What a step yields is what its work yielded. *)
Lemma progressStep_run {E A} c d reports event (run : M E A) w a w' :
  progressStep c d reports event run w = (Ok a, w') → ∃ w1 w2, run w1 = (Ok a, w2).
Proof.
  unfold progressStep, attempt, report, poll, lift, bind, ok. destruct (d (polls w)); [done|]. cbn.
  destruct (d _); [done|]. match goal with |- context [run ?w0] => destruct (run w0) as [[b|e] w1] eqn:Er end; [|done].
  destruct (d (polls w1)); [done|]. cbn. destruct (d _); [done|]. intros [= -> _]. eauto.
Qed.

Lemma for_range_events {E A S} (f : S → A → M E S) (ev : A → list Progress) s l w s' w' :
  (∀ s x w s' w', f s x w = (Ok s', w') → events w' = events w ++ ev x) →
  for_range f s l w = (Ok s', w') → events w' = events w ++ flat_map ev l.
Proof.
  intros Hf. revert s w. induction l as [|x l IH]; intros s w; cbn.
  - intros [= _ <-]. by rewrite app_nil_r.
  - intros (s1 & w1 & Hx & Hl)%bind_Ok. apply Hf in Hx. apply IH in Hl. by rewrite Hl, Hx, <-(assoc_L (++)).
Qed.

(** A successful call that follows the protocol closed every step it started. *)
Lemma follows_Ok {E A} (m : M E A) w a w' :
  follows m → m w = (Ok a, w') → ∃ l, events w' = events w ++ l ∧ steps true l.
Proof. intros Hm Ha. destruct (Hm w) as (l & He & Hs & _). rewrite Ha in *. by exists l. Qed.

Lemma silent_Ok {E A} (m : M E A) w a w' : silent m → m w = (Ok a, w') → events w' = events w.
Proof. intros Hm Ha. destruct (Hm w) as [He _]. by rewrite Ha in He. Qed.

Section Yields.
Context {E : Type}.

Lemma yields_ok {A} (a : A) (P : A → Prop) : P a → yields (E:=E) (ok a) P.
Proof. by intros Ha w a' w' [= <- _]. Qed.
Lemma yields_fail {A} (e : E) (P : A → Prop) : yields (fail e) P.
Proof. by intros w a w'. Qed.
Lemma yields_lift {A} (r : result E A) (P : A → Prop) : (∀ a, r = Ok a → P a) → yields (lift r) P.
Proof. intros H w a w' [= -> _]. by apply H. Qed.
Lemma yields_any {A} (m : M E A) : yields m (λ _, True).
Proof. done. Qed.

Lemma yields_run {A} (m : M E A) : yields m (λ a, ∃ w w', m w = (Ok a, w')).
Proof. intros w a w' Hm. by exists w, w'. Qed.

Lemma yields_bind {A B} (m : M E A) (f : A → M E B) (P : A → Prop) (Q : B → Prop) :
  yields m P → (∀ a, P a → yields (f a) Q) → yields (bind m f) Q.
Proof.
  intros Hm Hf w b w'. unfold bind. destruct (m w) as [[a|e] w1] eqn:Em; [|done].
  apply Hf. by eapply Hm.
Qed.

Lemma yields_impl {A} (m : M E A) (P Q : A → Prop) : yields m P → (∀ a, P a → Q a) → yields m Q.
Proof. intros H HPQ w a w' Hm. by eapply HPQ, H. Qed.

(** A loop keeps an invariant of the elements it has passed. *)
Lemma yields_for_range {A S} (f : S → A → M E S) (I : list A → S → Prop) s l :
  I [] s → (∀ pre x s, pre ++ [x] `prefix_of` l → I pre s → yields (f s x) (I (pre ++ [x]))) →
  yields (for_range f s l) (I l).
Proof.
  intros H0 Hf. cut (∀ pre l' s, l = pre ++ l' → I pre s → yields (for_range f s l') (I l)).
  { intros H. by apply (H []). }
  clear s H0. intros pre l'. revert pre. induction l' as [|x l' IH]; intros pre s El Hs.
  { rewrite app_nil_r in El. subst. by apply yields_ok. }
  cbn. rewrite (cons_middle x), app_assoc in El. eapply yields_bind; [apply Hf; [|done]|].
  - subst. by apply prefix_app_r.
  - intros s' Hs'. by apply IH with (pre ++ [x]).
Qed.

Lemma yields_attempt {A} (m : M E A) (P : A → Prop) :
  yields m P → yields (attempt m) (λ r, ∀ a, r = Ok a → P a).
Proof.
  intros Hm w r w'. unfold attempt. destruct (m w) as [r1 w1] eqn:E1. intros [= <- _] a ->. by eapply Hm.
Qed.

Lemma yields_progressStep {A} c d reports event (run : M E A) (P : A → Prop) :
  yields run P → yields (progressStep c d reports event run) P.
Proof.
  intros Hr. unfold progressStep.
  eapply yields_bind; [apply yields_any|]. intros _ _.
  eapply yields_bind; [apply yields_any|]. intros _ _.
  eapply yields_bind; [apply yields_attempt|].
  { eapply yields_bind; [apply yields_any|]. intros _ _. eapply yields_bind; [exact Hr|]. intros a Ha.
    eapply yields_bind; [apply yields_any|]. intros _ _. by apply yields_ok, Ha. }
  intros r Hp. eapply yields_bind; [apply yields_any|]. intros _ _.
  eapply yields_bind; [apply yields_lift, Hp|]. intros a Ha.
  eapply yields_bind; [apply yields_any|]. intros _ _. by apply yields_ok.
Qed.
End Yields.

#[export] Hint Resolve silent_ok silent_fail silent_lift silent_poll silent_polled_done silent_embed silent_attempt
  silent_bind silent_for_range follows_ok follows_embed follows_bind follows_for_range : kit.
