(* ===== verification/LayerTar.v ===== *)
(** [assemble/inventory.go]: reading a layer blob — its compression sniffed by
    magic bytes, its headers walked, one path's final entry looked up — and the
    file collisions between kits.

    The decompressors and the tar reader are the standard library's and zstd's;
    they are parameters, functions from what a reader delivers to what the next
    one does. *)
From stdpp Require Import options.
From S2P Require Import Prelude GoStrings Overlay.

(** ** Streams *)

(** What a reader delivers: bytes, and whether an error rather than the end of
    the data follows them. *)
Record stream := mkStream { delivered : string; broken : bool }.

(** An archive: its headers with what each body delivers, and whether an error
    rather than the end of the archive follows. *)
Record tar_entry := mkTarEntry { hdr : Header; body : stream }.
Record archive := mkArchive { entries : list tar_entry; torn : bool }.

Inductive layer_error :=
  | OpenLayer                       (** open layer: ... *)
  | ReadLayer                       (** read layer: ... *)
  | ReadBody (path : string)        (** read <path>: ... *)
  | FileTooLarge (path : string)    (** <path> exceeds ... bytes *)
  | IsALink (path target : string)  (** <path> is a link to <target>, ... *)
  | DiffIDInvalid
  | ReadUncompressed
  | DiffIDMismatch (diffID : string)
  | Visit.                          (** the visitor's own error *)

Record FileEntry := mkFileEntry {
  Body : string;
  Linked : bool;
  Link : string;
  Hard : bool;
  Index : nat;
  Entry_Mode : Z;
  Entry_Uid : Z;
  Entry_Gid : Z;
  Regular : bool;
  OK : bool;
}.
Definition zero_entry : FileEntry := mkFileEntry "" false "" false 0 0 0 0 false false.

Definition maxFileEntryBytes : Z := Z.shiftl 16 20.

Definition TypeReg : ascii := "0".
Definition regular (typeflag : ascii) : bool := bool_decide (typeflag = TypeReg).
Definition is_link (typeflag : ascii) : bool :=
  bool_decide (typeflag = TypeSymlink) || bool_decide (typeflag = TypeLink).

Definition normalizePath (p : string) : string := trim_prefix "/" (trim_prefix "./" p).
Definition entry_name (p : string) : string := trim_suffix "/" (normalizePath p).

(** ** [readEntry] *)

Definition link_entry (idx : nat) (h : Header) : FileEntry :=
  mkFileEntry "" true (Linkname h) (bool_decide (Typeflag h = TypeLink)) idx
    (Header_Mode h) (Uid h) (Gid h) false true.
Definition file_entry (idx : nat) (h : Header) (body : string) : FileEntry :=
  mkFileEntry body false "" false idx (Header_Mode h) (Uid h) (Gid h) (regular (Typeflag h)) true.

(** [io.ReadAll(io.LimitReader(tr, limit))]: an error past the limit is not met. *)
Definition size (s : string) : Z := Z.of_nat (String.length s).
Definition limited (limit : Z) (s : stream) : stream :=
  if (size (delivered s) <? limit)%Z then s
  else mkStream (str_take (Z.to_nat limit) (delivered s)) false.

(** What a matching header leaves as the entry. *)
Definition match_entry (path : string) (withBody : bool) (idx : nat) (e : tar_entry) :
    result layer_error FileEntry :=
  let h := hdr e in
  if bool_decide (Typeflag h = TypeDir) then Ok zero_entry
  else if is_link (Typeflag h) then Ok (link_entry idx h)
  else if negb withBody then Ok (file_entry idx h "")
  else
    let read := limited (maxFileEntryBytes + 1) (body e) in
    if broken read then Err (ReadBody path)
    else if (maxFileEntryBytes <? size (delivered read))%Z then Err (FileTooLarge path)
    else Ok (file_entry idx h (delivered read)).

Fixpoint read_loop (path : string) (withBody : bool) (before : Z) (tear : bool)
    (entry : FileEntry) (idx : nat) (es : list tar_entry) : result layer_error FileEntry :=
  let cut := (0 <=? before)%Z && (before <=? Z.of_nat idx)%Z in
  match es with
  | [] => if tear && negb cut then Err ReadLayer else Ok entry
  | e :: es =>
      if cut then Ok entry
      else if negb (bool_decide (entry_name (Header_Name (hdr e)) = trim_suffix "/" (normalizePath path)))
      then read_loop path withBody before tear entry (S idx) es
      else
        entry ← match_entry path withBody idx e;
        read_loop path withBody before tear entry (S idx) es
  end.
Definition readEntry (a : archive) (path : string) (withBody : bool) (before : Z) :
    result layer_error FileEntry :=
  read_loop path withBody before (torn a) zero_entry 0 (entries a).

(** ** Layers *)

Section Layers.
Context (gunzip unzstd : stream → option stream) (tar_reader : stream → archive).

(** [openLayerStream]. *)
Definition openLayerStream (r : stream) : result layer_error stream :=
  let opened o := match o with Some s => Ok s | None => Err OpenLayer end in
  if has_prefix (of_bytes [31; 139]) (delivered r) then opened (gunzip r)
  else if has_prefix (of_bytes [40; 181; 47; 253]) (delivered r) then opened (unzstd r)
  else Ok r.
Definition openLayer (r : stream) : result layer_error archive :=
  s ← openLayerStream r; Ok (tar_reader s).

Record LayerLink := mkLayerLink { Target : string; Link_Hard : bool }.

Inductive entry_kind := kindFile | kindDir | kindLink (link : LayerLink).
Definition kind_of (h : Header) : entry_kind :=
  if bool_decide (Typeflag h = TypeDir) then kindDir
  else if is_link (Typeflag h) then
    kindLink (mkLayerLink (Linkname h) (bool_decide (Typeflag h = TypeLink)))
  else kindFile.

(** The names in first-seen order, and what each was last. *)
Definition note_entry (st : list string * gmap string entry_kind) (e : tar_entry) :
    list string * gmap string entry_kind :=
  let '(order, kind) := st in
  let name := entry_name (Header_Name (hdr e)) in
  (match kind !! name with Some _ => order | None => order ++ [name] end, <[name := kind_of (hdr e)]> kind).

Definition ReadLayerEntries (r : stream) :
    result layer_error (list string * list string * gmap string LayerLink) :=
  a ← openLayer r;
  if torn a then Err ReadLayer
  else
    let '(order, kind) := foldl note_entry ([], ∅) (entries a) in
    Ok (List.filter (λ n, match kind !! n with Some kindDir => false | _ => true end) order,
        List.filter (λ n, match kind !! n with Some kindDir => true | _ => false end) order,
        omap (λ k, match k with kindLink l => Some l | _ => None end) kind).

Definition ReadInventory (r : stream) : result layer_error (list string) :=
  a ← openLayer r;
  if torn a then Err ReadLayer
  else Ok (flat_map (λ e, if bool_decide (Typeflag (hdr e) = TypeDir) then []
                          else [normalizePath (Header_Name (hdr e))]) (entries a)).

(** [None] is a path the layer does not carry. *)
Definition ReadFile (r : stream) (path : string) : result layer_error (option string) :=
  a ← openLayer r;
  entry ← readEntry a path true (-1);
  if Linked entry then Err (IsALink path (Link entry))
  else Ok (if OK entry then Some (Body entry) else None).
Definition ReadFileEntry (r : stream) (path : string) : result layer_error FileEntry :=
  a ← openLayer r; readEntry a path true (-1).
Definition StatFileEntryBefore (r : stream) (path : string) (before : Z) : result layer_error FileEntry :=
  a ← openLayer r; readEntry a path false before.
Definition ReadFileEntryBefore (r : stream) (path : string) (before : Z) : result layer_error FileEntry :=
  a ← openLayer r; readEntry a path true before.
Definition StatFileEntry (r : stream) (path : string) : result layer_error FileEntry :=
  a ← openLayer r; readEntry a path false (-1).

(** *** Walking a layer *)

Section Walk.
Context {E S : Type} (wrap : layer_error → E) (visit : S → Header → result E S).

Fixpoint walk_headers (s : S) (es : list tar_entry) : result E S :=
  match es with
  | [] => Ok s
  | e :: es => s ← visit s (hdr e); walk_headers s es
  end.
Definition walkTar (s : S) (a : archive) : result E S :=
  s ← walk_headers s (entries a);
  if torn a then Err (wrap ReadLayer) else Ok s.
Definition WalkLayer (r : stream) (s : S) : result E S :=
  a ← map_err wrap (openLayer r); walkTar s a.

(** [digest.Digest.Validate] and [Verifier]. *)
Context (valid_digest : string → bool) (verifies : string → string → bool).

Definition WalkLayerVerified (r : stream) (diffID : string) (s : S) : result E S :=
  if negb (valid_digest diffID) then Err (wrap DiffIDInvalid)
  else
    st ← map_err wrap (openLayerStream r);
    s ← walkTar s (tar_reader st);
    if broken st then Err (wrap ReadUncompressed)
    else if negb (verifies diffID (delivered st)) then Err (wrap (DiffIDMismatch diffID))
    else Ok s.
End Walk.
End Layers.

(** ** [CheckCollisions] *)

Record Inventory := mkInventory { Inv_Kit : string; Files : list string }.

Definition claim_file (kit : string) (st : gmap string string * gmap string (list string)) (f : string) :
    gmap string string * gmap string (list string) :=
  let '(owner, collisions) := st in
  match owner !! f with
  | None => (<[f := kit]> owner, collisions)
  | Some prev =>
      if bool_decide (prev = kit) then (owner, collisions)
      else
        let listed := default [] (collisions !! f) in
        let listed := if bool_decide (listed = []) then [prev] else listed in
        (owner, <[f := listed ++ [kit]]> collisions)
  end.
Definition claim_inventory (st : gmap string string * gmap string (list string)) (inv : Inventory) :=
  foldl (claim_file (Inv_Kit inv)) st (Files inv).

Definition CheckCollisions (inventories : list Inventory) : option string :=
  let '(_, collisions) := foldl claim_inventory (∅, ∅) inventories in
  if bool_decide (collisions = ∅) then None
  else Some (foldl (λ b p, b +:+ String "010" ("  /" +:+ p +:+ ": contributed by " +:+
                             join " and " (default [] (collisions !! p))))
               "kit file collisions:"
               (sort_strings (map_to_list collisions).*1)).

Example check_collisions_sample :
  CheckCollisions [mkInventory "a" ["bin/x"; "lib/y"]; mkInventory "b" ["bin/z"; "lib/y"]; mkInventory "c" ["lib/y"]] =
  Some ("kit file collisions:" +:+ String "010" "  /lib/y: contributed by a and b and c").
Proof. by vm_compute. Qed.

(** ** The last entry decides *)

(** The entries at a path among those before a position, with their indices. *)
Definition before_position (before : Z) (es : list tar_entry) : list tar_entry :=
  if (0 <=? before)%Z then take (Z.to_nat before) es else es.
Definition matches (path : string) (ie : nat * tar_entry) : bool :=
  bool_decide (entry_name (Header_Name (hdr ie.2)) = entry_name path).
Fixpoint indexed (idx : nat) (es : list tar_entry) : list (nat * tar_entry) :=
  match es with [] => [] | e :: es => (idx, e) :: indexed (S idx) es end.
Definition matching (path : string) (before : Z) (es : list tar_entry) : list (nat * tar_entry) :=
  List.filter (matches path) (indexed 0 (before_position before es)).

Definition still (before : Z) (idx : nat) (es : list tar_entry) : list tar_entry :=
  if (0 <=? before)%Z then take (Z.to_nat before - idx) es else es.

Lemma still_cons before idx e es :
  still before idx (e :: es) =
  if (0 <=? before)%Z && (before <=? Z.of_nat idx)%Z then [] else e :: still before (S idx) es.
Proof.
  unfold still. destruct (0 <=? before)%Z eqn:E0; cbn; [|done].
  destruct (before <=? Z.of_nat idx)%Z eqn:E1.
  - by replace (Z.to_nat before - idx) with 0 by lia.
  - by replace (Z.to_nat before - idx) with (S (Z.to_nat before - S idx)) by lia.
Qed.

(** The entry after the archive: what the last match leaves, or what there was. *)
Lemma read_loop_last path wb before tear entry idx es e :
  read_loop path wb before tear entry idx es = Ok e →
  match last (List.filter (matches path) (indexed idx (still before idx es))) with
  | None => e = entry
  | Some (i, t) => match_entry path wb i t = Ok e
  end.
Proof.
  revert entry idx. induction es as [|t es IH]; intros entry idx; cbn [read_loop].
  { unfold still. rewrite take_nil, Tauto.if_same. cbn. case_match; [done|]. by intros [= ->]. }
  rewrite still_cons. case_match; [by intros [= ->]|].
  cbn [indexed List.filter]. unfold matches at 1. cbn [snd].
  change (trim_suffix "/" (normalizePath path)) with (entry_name path).
  case_bool_decide; cbn [negb]; [|apply IH].
  intros (entry' & Hm & H')%result_bind_Ok. specialize (IH _ _ H'). rewrite last_cons.
  destruct (last _) as [[i t']|]; [done|]. by subst.
Qed.

Lemma match_entry_stat path idx t : ∃ e, match_entry path false idx t = Ok e.
Proof. unfold match_entry. repeat case_match; eauto; done. Qed.

Lemma read_loop_stat path before entry idx es :
  ∃ e, read_loop path false before false entry idx es = Ok e.
Proof.
  revert entry idx. induction es as [|t es IH]; intros entry idx; cbn; [eauto|].
  repeat case_match; eauto. destruct (match_entry_stat path idx t) as [e ->]. apply IH.
Qed.

Lemma str_take_length n s : String.length (str_take n s) ≤ n.
Proof. revert s. induction n as [|n IH]; intros [|c s]; cbn; [lia..|]. specialize (IH s). lia. Qed.

Lemma match_entry_size path wb idx t e :
  match_entry path wb idx t = Ok e → (size (Body e) ≤ maxFileEntryBytes)%Z.
Proof.
  unfold match_entry. repeat (case_match; try done); intros; simplify_eq; cbn; try done.
  by apply Z.ltb_ge.
Qed.

(** ** Properties *)

(** Reading a path in a layer gives what the last entry at the path (before
    the position, when one is given) says, as the filesystem extracted from it
    would: nothing when there is none or it is a directory.  An existence check on
    an intact archive always answers, and no answer holds more than the bound. *)
Theorem read_entry_last a path wb before :
  (∀ e, readEntry a path wb before = Ok e →
     match last (matching path before (entries a)) with
     | None => e = zero_entry
     | Some (i, t) => match_entry path wb i t = Ok e
     end ∧ (size (Body e) ≤ maxFileEntryBytes)%Z) ∧
  (wb = false → torn a = false → ∃ e, readEntry a path wb before = Ok e).
Proof.
  split.
  - intros e H%read_loop_last.
    assert (still before 0 (entries a) = before_position before (entries a)) as E.
    { unfold still, before_position. by rewrite Nat.sub_0_r. }
    rewrite E in H. fold (matching path before (entries a)) in H. split; [done|].
    destruct (last _) as [[i t]|]; [by eapply match_entry_size|by subst].
  - intros -> Ht. unfold readEntry. rewrite Ht. apply read_loop_stat.
Qed.

Definition sample_archive : archive :=
  mkArchive [mkTarEntry (Overlay.entry "./etc/motd" TypeReg "") (mkStream "old" false);
             mkTarEntry (Overlay.entry "etc/motd" TypeSymlink "issue") (mkStream "" false)] false.

Lemma read_entry_last_witness :
  ∃ e, readEntry sample_archive "/etc/motd" true (-1) = Ok e ∧ Link e = "issue" ∧
       readEntry sample_archive "/etc/motd" true 1 = Ok (file_entry 0 (Overlay.entry "./etc/motd" TypeReg "") "old") ∧
       (size (Body e) ≤ maxFileEntryBytes)%Z.
Proof.
  eexists. split; [by vm_compute|]. split; [done|]. split; [by vm_compute|].
  apply (read_entry_last sample_archive "/etc/motd" true (-1)). by vm_compute.
Defined.

(** ** [CheckCollisions] is exact *)

Definition contributions (l : list Inventory) : list (string * string) :=
  flat_map (λ inv, map (pair (Inv_Kit inv)) (Files inv)) l.
Definition claim_pair (st : gmap string string * gmap string (list string)) (kf : string * string) :=
  claim_file kf.1 st kf.2.

Lemma claims_pairs l st : foldl claim_inventory st l = foldl claim_pair st (contributions l).
Proof.
  revert st. induction l as [|inv l IH]; intros st; [done|]. cbn [foldl contributions flat_map].
  rewrite foldl_app, IH. f_equal. unfold claim_inventory. generalize (Files inv), st.
  intros fs. induction fs as [|f fs IHf]; intros st'; [done|]. cbn. apply IHf.
Qed.

(** What the two maps hold of the pairs seen. *)
Definition claims_of (st : gmap string string * gmap string (list string)) (seen : list (string * string)) : Prop :=
  ∀ f, match st.1 !! f with
       | None => ∀ k, (k, f) ∉ seen
       | Some k => (k, f) ∈ seen ∧ (st.2 !! f = None → ∀ k', (k', f) ∈ seen → k' = k)
       end ∧
       ∀ ks, st.2 !! f = Some ks → ∃ k k', k ≠ k' ∧ (k, f) ∈ seen ∧ (k', f) ∈ seen.

Lemma claim_pair_of st seen kf : claims_of st seen → claims_of (claim_pair st kf) (seen ++ [kf]).
Proof.
  destruct kf as [k f], st as [owner collisions]. intros H g. unfold claim_pair, claim_file. cbn [fst snd].
  pose proof (H f) as [Hf _]. specialize (H g) as [Hg Hcg]. cbn [fst snd] in *.
  assert (∀ ks : list string, collisions !! g = Some ks → ∃ k1 k2, k1 ≠ k2 ∧
    (k1, g) ∈ seen ++ [(k, f)] ∧ (k2, g) ∈ seen ++ [(k, f)]) as Hc.
  { intros ks (k1 & k2 & ? & ? & ?)%Hcg. exists k1, k2. set_solver. }
  destruct (owner !! f) as [prev|] eqn:Ef; [case_bool_decide as Hp|]; cbn [fst snd].
  - subst prev. split; [|done]. destruct (owner !! g) as [kg|] eqn:Eg; [|set_solver].
    split; [set_solver|]. intros Hn k'. rewrite elem_of_app, list_elem_of_singleton.
    intros [Hk|[= -> ->]]; [by apply Hg|congruence].
  - destruct (decide (f = g)) as [->|Hne].
    + rewrite Ef, lookup_insert_eq. split; [split; [set_solver|done]|].
      intros _ _. exists prev, k. set_solver.
    + rewrite lookup_insert_ne by done. split; [|done].
      destruct (owner !! g); [|set_solver]. split; [set_solver|]. intros Hn k' Hk'. apply Hg; set_solver.
  - destruct (decide (f = g)) as [->|Hne].
    + rewrite lookup_insert_eq. split; [|done]. split; [set_solver|].
      intros _ k'. rewrite elem_of_app, list_elem_of_singleton. intros [Hk|[= ->]]; [|done].
      rewrite Ef in Hg. by apply Hg in Hk.
    + rewrite lookup_insert_ne by done. split; [|done].
      destruct (owner !! g); [|set_solver]. split; [set_solver|]. intros Hn k' Hk'. apply Hg; set_solver.
Qed.

Lemma claims_all l st seen :
  claims_of st seen → claims_of (foldl claim_pair st l) (seen ++ l).
Proof.
  revert st seen. induction l as [|kf l IH]; intros st seen H; [by rewrite app_nil_r|].
  cbn. rewrite (cons_middle kf), app_assoc. apply IH. by apply claim_pair_of.
Qed.

Lemma elem_of_contributions k f l :
  (k, f) ∈ contributions l ↔ ∃ inv, inv ∈ l ∧ Inv_Kit inv = k ∧ f ∈ Files inv.
Proof.
  unfold contributions. rewrite elem_of_flat_map. split.
  - intros (inv & Hi & Hf). apply list_elem_of_fmap in Hf as (f' & [= -> ->] & Hf). eauto.
  - intros (inv & Hi & <- & Hf). exists inv. split; [done|]. apply list_elem_of_fmap. eauto.
Qed.

(** The check is silent exactly when no two kits contribute one file; a kit's
    own layers may repeat a path. *)
Theorem check_collisions_exact l :
  CheckCollisions l = None ↔
  ∀ a b f, a ∈ l → b ∈ l → f ∈ Files a → f ∈ Files b → Inv_Kit a = Inv_Kit b.
Proof.
  unfold CheckCollisions. rewrite claims_pairs.
  assert (claims_of (∅, ∅) []) as H0 by by intros f; cbn; rewrite lookup_empty; set_solver.
  pose proof (claims_all (contributions l) _ _ H0) as H. cbn [app] in H.
  destruct (foldl claim_pair (∅, ∅) (contributions l)) as [owner collisions]. split.
  - case_bool_decide as Hc; [|done]. intros _ a b f Ha Hb Hfa Hfb. subst collisions.
    specialize (H f) as [H _]. cbn [fst snd] in H. rewrite lookup_empty in H.
    assert ((Inv_Kit a, f) ∈ contributions l) as Ca by (apply elem_of_contributions; eauto).
    assert ((Inv_Kit b, f) ∈ contributions l) as Cb by (apply elem_of_contributions; eauto).
    destruct (owner !! f) as [k|]; [|by apply H in Ca].
    destruct H as [_ H]. rewrite (H eq_refl _ Ca). by rewrite (H eq_refl _ Cb).
  - intros Hl. case_bool_decide as Hc; [done|]. exfalso. apply Hc, map_eq. intros f.
    rewrite lookup_empty. destruct (collisions !! f) as [ks|] eqn:E; [|done].
    destruct (H f) as [_ H']. destruct (H' ks E) as (k & k' & Hne & Hk & Hk').
    apply elem_of_contributions in Hk as (a & Ha & <- & Hfa).
    apply elem_of_contributions in Hk' as (b & Hb & <- & Hfb). by destruct Hne; eauto.
Qed.
