(* ===== verification/Oci.v ===== *)
(** The OCI image-spec types as [package assemble] and [package fetch] use them:
    the fields the sources read or write.  A nil map and an empty one serialize
    alike and are one value here. *)
From stdpp Require Import options.
From S2P Require Import Prelude GoStrings.

Record Platform := mkPlatform {
  Architecture : string;
  OS : string;
  OSVersion : string;
  OSFeatures : list string;
  Variant : string;
}.
#[export] Instance Platform_eq_dec : EqDecision Platform.
Proof. solve_decision. Defined.

(** A content descriptor. *)
Record Blob := mkBlob {
  MediaType : string;
  Blob_Digest : string;
  Size : Z;
  Blob_Platform : option Platform;
}.
#[export] Instance Blob_eq_dec : EqDecision Blob.
Proof. solve_decision. Defined.

Record Manifest := mkManifest {
  SchemaVersion_ : Z;
  Manifest_MediaType : string;
  ArtifactType : string;
  Config_ : Blob;
  Layers : list Blob;
  Annotations_ : gmap string string;
}.

Record ImageIndex := mkImageIndex {
  Index_SchemaVersion : Z;
  Index_ArtifactType : string;
  Manifests : list Blob;
  Index_Annotations : gmap string string;
}.

(** The execution parameters a container is created with. *)
Record ImageConfig := mkImageConfig {
  User : string;
  ExposedPorts : gset string;
  Env : list string;
  Entrypoint : list string;
  Cmd : list string;
  Volumes : gset string;
  WorkingDir : string;
  Labels : gmap string string;
  StopSignal : string;
}.

Record History := mkHistory { CreatedBy : string; Comment : string; EmptyLayer : bool }.

Record OciImage := mkOciImage {
  Image_Platform : Platform;
  Image_Config : ImageConfig;
  RootFS_Type : string;
  DiffIDs : list string;
  Image_History : list History;
}.

Definition MediaTypeImageManifest : string := "application/vnd.oci.image.manifest.v1+json".
Definition MediaTypeImageIndex : string := "application/vnd.oci.image.index.v1+json".
Definition MediaTypeImageConfig : string := "application/vnd.oci.image.config.v1+json".
