(* ===== verification/Assemble.v ===== *)
(** [assemble/assemble.go], [assemble/resolve.go] and [assemble/image.go]: the
    image composed of a workload and its mixins, and its manifest.

    The serialization of an OCI image configuration, the strict platform match
    and the content store are the libraries'; they are parameters. *)
From stdpp Require Import options.
From S2P Require Import Prelude GoStrings Marshal Oci Types Resolve Context.

Record Input := mkInput { Name : string; Input_Manifest : Manifest; Input_Config : OciImage }.
Record AssembledImage := mkAssembled { Config : OciImage; Image_Layers : list Blob }.

Record valueOwner := mkOwner { owner_value : string; owner_kit : string }.
Record configOwners := mkOwners { owned_env : gmap string valueOwner; owned_labels : gmap string valueOwner }.

Inductive assemble_error :=
  | Canceled
  | LayerCount (kit : string) (layers diffIDs : nat)
  | EnvConflict (name owner kit : string)
  | KitWithoutDescriptor
  | KitWithoutImage (reference : string)
  | Incoherent (cause : resolve_error)
  | LoadFailed (reference cause : string)
  | PlatformMismatch (reference workload : string)
  | NotMarshaled (cause : string)
  | NotWritten (what cause : string).

(** ** Updating the configuration *)

Definition set_env (c : ImageConfig) (env : list string) : ImageConfig :=
  mkImageConfig (User c) (ExposedPorts c) env (Entrypoint c) (Cmd c) (Volumes c) (WorkingDir c) (Labels c) (StopSignal c).
Definition set_sets (c : ImageConfig) (ports volumes : gset string) (labels : gmap string string) : ImageConfig :=
  mkImageConfig (User c) ports (Env c) (Entrypoint c) (Cmd c) volumes (WorkingDir c) labels (StopSignal c).

Definition newConfigOwners (sandbox : Input) : configOwners :=
  let c := Image_Config (Input_Config sandbox) in
  mkOwners
    (foldl (λ env kv,
       match cut "=" kv with
       | (k, v, true) => <[k := mkOwner v (Name sandbox)]> env
       | _ => env
       end) ∅ (Env c))
    ((λ v, mkOwner v (Name sandbox)) <$> Labels c).

(** *** [mergePath] *)

Definition add_element (st : list string * string) (e : string) : list string * string :=
  let '(have, merged) := st in
  if bool_decide (e = "") || bool_decide (e ∈ have) then st
  else (e :: have, if bool_decide (merged = "") then e else merged +:+ ":" +:+ e).
Definition merged_path (current addition : string) : string :=
  (foldl add_element (split ":" current, current) (split ":" addition)).2.

(** The first [PATH] entry is replaced, or one is appended. *)
Fixpoint replace_path (entry : string) (env : list string) : list string :=
  match env with
  | [] => [entry]
  | kv :: env => if has_prefix "PATH=" kv then entry :: env else kv :: replace_path entry env
  end.

Definition mergePath (env : list string) (o : gmap string valueOwner) (kit addition : string) :
    list string * gmap string valueOwner :=
  let current := match o !! "PATH" with Some prev => owner_value prev | None => "" end in
  let merged := merged_path current addition in
  if bool_decide (merged = current) && negb (bool_decide (current = "")) then (env, o)
  else (replace_path ("PATH=" +:+ merged) env, <["PATH" := mkOwner merged kit]> o).

(** *** [mergeConfig] *)

Definition merge_env_entry (kit : string) (st : list string * gmap string valueOwner) (kv : string) :
    result assemble_error (list string * gmap string valueOwner) :=
  let '(env, o) := st in
  match cut "=" kv with
  | (k, v, true) =>
      if bool_decide (k = "PATH") then Ok (mergePath env o kit v)
      else
        match o !! k with
        | Some prev =>
            if bool_decide (owner_value prev = v) then Ok (env, o)
            else Err (EnvConflict k (owner_kit prev) kit)
        | None => Ok (env ++ [kv], <[k := mkOwner v kit]> o)
        end
  | _ => Ok (env, o)
  end.
Fixpoint merge_env (kit : string) (st : list string * gmap string valueOwner) (entries : list string) :
    result assemble_error (list string * gmap string valueOwner) :=
  match entries with
  | [] => Ok st
  | kv :: entries => st ← merge_env_entry kit st kv; merge_env kit st entries
  end.

(** The labels a kit states that no earlier one did. *)
Definition new_labels (o : configOwners) (labels : gmap string string) : gmap string string :=
  filter (λ kv, owned_labels o !! kv.1 = None) labels.

Definition mergeConfig (o : configOwners) (config : ImageConfig) (m : Input) :
    result assemble_error (configOwners * ImageConfig) :=
  let c := Image_Config (Input_Config m) in
  '(env, owned) ← merge_env (Name m) (Env config, owned_env o) (Env c);
  let added := new_labels o (Labels c) in
  Ok (mkOwners owned (owned_labels o ∪ ((λ v, mkOwner v (Name m)) <$> added)),
      set_sets (set_env config env) (ExposedPorts config ∪ ExposedPorts c) (Volumes config ∪ Volumes c)
        (Labels config ∪ added)).

(** ** [Merge] *)

Definition overlay_history (m : Input) : History :=
  mkHistory ("sandbox-kit assemble " +:+ Name m) "kit overlay layer" false.

Definition merge_mixin (st : configOwners * AssembledImage) (m : Input) :
    result assemble_error (configOwners * AssembledImage) :=
  let '(o, image) := st in
  let c := Config image in
  let layers := Layers (Input_Manifest m) in
  if negb (bool_decide (length layers = length (DiffIDs (Input_Config m))))
  then Err (LayerCount (Name m) (length layers) (length (DiffIDs (Input_Config m))))
  else
    '(o, config) ← mergeConfig o (Image_Config c) m;
    Ok (o, mkAssembled
             (mkOciImage (Image_Platform c) config (RootFS_Type c) (DiffIDs c ++ DiffIDs (Input_Config m))
                (Image_History c ++ map (λ _, overlay_history m) layers))
             (Image_Layers image ++ layers)).
Fixpoint merge_mixins (st : configOwners * AssembledImage) (mixins : list Input) :
    result assemble_error (configOwners * AssembledImage) :=
  match mixins with
  | [] => Ok st
  | m :: mixins => st ← merge_mixin st m; merge_mixins st mixins
  end.

Definition Merge (sandbox : Input) (mixins : list Input) : result assemble_error AssembledImage :=
  let layers := Layers (Input_Manifest sandbox) in
  if negb (bool_decide (length layers = length (DiffIDs (Input_Config sandbox))))
  then Err (LayerCount (Name sandbox) (length layers) (length (DiffIDs (Input_Config sandbox))))
  else
    st ← merge_mixins (newConfigOwners sandbox, mkAssembled (Input_Config sandbox) layers) mixins;
    Ok st.2.

(** ** [Tag] *)

Definition TagRepository : string := "sandbox-kit-assembled".
Definition Tag (lockJSON : string) : string :=
  TagRepository +:+ ":" +:+ str_take 16 (hex (Sum256 lockJSON)).

(** ** [Assemble] *)

Section Assemble.
Context `{ReadySort} (OnlyStrict : Platform → Platform → bool) (done : nat → bool)
  (load : string → result string Input).

(** One kit of the ordered set: polled, loaded, its platform held to the first's. *)
Definition load_kit (inputs : list Input) (u : Unit) : M assemble_error (list Input) :=
  poll Canceled done;;
  input ⇠ lift (map_err (LoadFailed (Reference u)) (load (Image u)));
  let input := mkInput (Reference u) (Input_Manifest input) (Input_Config input) in
  match inputs with
  | first :: _ =>
      if negb (OnlyStrict (Image_Platform (Input_Config first)) (Image_Platform (Input_Config input)))
      then fail (PlatformMismatch (Reference u) (Name first))
      else ok (inputs ++ [input])
  | [] => ok (inputs ++ [input])
  end.

Fixpoint check_kits (kits : list Unit) : result assemble_error () :=
  match kits with
  | [] => Ok ()
  | u :: kits =>
      if negb (bool_decide (is_Some (Unit_Descriptor u))) then Err KitWithoutDescriptor
      else if bool_decide (Image u = "") then Err (KitWithoutImage (Reference u))
      else check_kits kits
  end.

(** A resolved set is not empty, so there is a first input. *)
Definition Assemble (kits : list Unit) : M assemble_error AssembledImage :=
  lift (check_kits kits);;
  resolution ⇠ lift (map_err Incoherent (Resolve kits));
  inputs ⇠ for_range load_kit [] (Ordered resolution);
  match inputs with
  | sandbox :: mixins => lift (Merge sandbox mixins)
  | [] => fail KitWithoutDescriptor
  end.
End Assemble.

(** ** The manifest *)

Section Image.
Context (marshal_image : OciImage → result string string) (marshal_manifest : Manifest → result string string).

Definition from_bytes (raw : string) : string := "sha256:" +:+ hex (Sum256 raw).

Definition finalize (image : AssembledImage) : result assemble_error (Manifest * string) :=
  if negb (bool_decide (length (Image_Layers image) = length (DiffIDs (Config image))))
  then Err (LayerCount "" (length (Image_Layers image)) (length (DiffIDs (Config image))))
  else
    raw ← map_err NotMarshaled (marshal_image (Config image));
    Ok (mkManifest 2 MediaTypeImageManifest ""
          (mkBlob MediaTypeImageConfig (from_bytes raw) (Z.of_nat (String.length raw)) None)
          (Image_Layers image) ∅, raw).
Definition Image_Manifest (image : AssembledImage) : result assemble_error Manifest :=
  fst <$> finalize image.

(** [content.Pusher]: a store either takes a blob, has it already, or fails. *)
Inductive pushed := Pushed | AlreadyExists | PushFailed (cause : string).
Context {Store : Type} (push : Store → Blob → string → Store * pushed).

Definition push_blob (s : Store) (what : string) (d : Blob) (raw : string) : Store * result assemble_error () :=
  match push s d raw with
  | (s, PushFailed cause) => (s, Err (NotWritten what cause))
  | (s, _) => (s, Ok ())
  end.

Definition WriteMetadata (s : Store) (image : AssembledImage) : Store * result assemble_error Blob :=
  match finalize image with
  | Err e => (s, Err e)
  | Ok (manifest, config) =>
      match marshal_manifest manifest with
      | Err e => (s, Err (NotMarshaled e))
      | Ok raw =>
          let desc := mkBlob (Manifest_MediaType manifest) (from_bytes raw) (Z.of_nat (String.length raw)) None in
          match push_blob s "config" (Config_ manifest) config with
          | (s, Err e) => (s, Err e)
          | (s, Ok _) =>
              match push_blob s "manifest" desc raw with
              | (s, Err e) => (s, Err e)
              | (s, Ok _) => (s, Ok desc)
              end
          end
      end
  end.
End Image.
