(* ===== verification/AssembleFacts.v ===== *)
(** What [assemble.Merge] composes: the runtime contract is the workload's, layers
    concatenate, environment variables are stated once or agree, [PATH] gathers
    elements, labels keep their first writer. *)
From stdpp Require Import options.
From S2P Require Import Prelude GoStrings Oci Assemble.

(** ** What the entries state *)

Definition statement (kv : string) : option (string * string) :=
  match cut "=" kv with (k, v, true) => Some (k, v) | _ => None end.
Definition stated (env : list string) : list (string * string) := omap statement env.
Definition state_last (m : gmap string string) (kv : string) : gmap string string :=
  match statement kv with Some (k, v) => <[k := v]> m | None => m end.
(** A container's environment: a later entry replaces an earlier one. *)
Definition env_map (env : list string) : gmap string string := foldl state_last ∅ env.

Definition image_env (i : Input) : list string := Env (Image_Config (Input_Config i)).
Definition stated_by (m : Input) : list (string * string) := stated (image_env m).

(** The composition of statements: [None] is a conflict. *)
Definition state_step (a : gmap string string) (kv : string * string) : option (gmap string string) :=
  let '(k, v) := kv in
  if bool_decide (k = "PATH") then Some (<["PATH" := merged_path (default "" (a !! "PATH")) v]> a)
  else
    match a !! k with
    | Some v' => if bool_decide (v' = v) then Some a else None
    | None => Some (<[k := v]> a)
    end.
Fixpoint state_all (a : gmap string string) (l : list (string * string)) : option (gmap string string) :=
  match l with
  | [] => Some a
  | kv :: l => a ← state_step a kv; state_all a l
  end.

Lemma state_all_app a l l' : state_all a (l ++ l') = (a ← state_all a l; state_all a l').
Proof.
  revert a. induction l as [|kv l IH]; intros a; [done|]. cbn. destruct (state_step a kv); cbn; [apply IH|done].
Qed.

Lemma state_step_sound a kv a' k v :
  state_step a kv = Some a' → k ≠ "PATH" →
  (a' !! k = Some v ↔ a !! k = Some v ∨ (a !! k = None ∧ kv = (k, v))) ∧
  (kv = (k, v) → a' !! k = Some v).
Proof.
  destruct kv as [k1 v1]. cbn. intros H Hk. case_bool_decide as Hp.
  { simplify_eq. rewrite lookup_insert_ne by done. split; [|intros; simplify_eq].
    split; [by left|]. intros [?|[_ [= <- _]]]; done. }
  destruct (decide (k1 = k)) as [->|Hne].
  - destruct (a !! k) as [v'|] eqn:E; [case_bool_decide; [|done]|]; simplify_eq.
    + rewrite E. naive_solver.
    + rewrite lookup_insert_eq. naive_solver.
  - assert (a' !! k = a !! k) as ->.
    { destruct (a !! k1); [case_bool_decide; [|done]|]; simplify_eq; [done|by rewrite lookup_insert_ne]. }
    naive_solver.
Qed.

(** Every statement is in the composition, and nothing else. *)
Lemma state_all_sound a l a' k v :
  state_all a l = Some a' → k ≠ "PATH" →
  (a' !! k = Some v ↔ a !! k = Some v ∨ (k, v) ∈ l).
Proof.
  intros H Hk. revert a H. induction l as [|kv l IH]; intros a; cbn.
  { intros [= ->]. set_solver. }
  destruct (state_step a kv) as [a1|] eqn:E; cbn; [|done]. intros H. rewrite (IH a1 H).
  destruct (state_step_sound a kv a1 k v E Hk) as [H1 H2]. rewrite H1, elem_of_cons.
  split; [naive_solver|]. intros [?|[<-|?]]; [naive_solver| |naive_solver].
  left. apply H1. by apply H2.
Qed.

(** A conflict is two values for one variable. *)
Definition agreeing (a : gmap string string) (l : list (string * string)) : Prop :=
  ∀ k v v', k ≠ "PATH" → a !! k = Some v ∨ (k, v) ∈ l → a !! k = Some v' ∨ (k, v') ∈ l → v = v'.

Lemma state_all_exact a l : is_Some (state_all a l) ↔ agreeing a l.
Proof.
  split.
  - intros [a' H] k v v' Hk H1 H2. apply (state_all_sound a l a' k) in H1, H2; [|done..]. congruence.
  - revert a. induction l as [|[k1 v1] l IH]; intros a Ha; [by eexists|]. cbn [state_all].
    destruct (state_step a (k1, v1)) as [a1|] eqn:E; cbn [mbind option_bind].
    + apply IH. intros k v v' Hk H1 H2. apply (Ha k v v' Hk).
      * destruct H1 as [H1|H1]; [|set_solver]. apply (state_step_sound _ _ _ k v E Hk) in H1. set_solver.
      * destruct H2 as [H2|H2]; [|set_solver]. apply (state_step_sound _ _ _ k v' E Hk) in H2. set_solver.
    + exfalso. cbn in E. case_bool_decide; [done|]. destruct (a !! k1) as [v'|] eqn:Ek; [|done].
      case_bool_decide as Hv; [done|]. apply Hv, (Ha k1 v' v1); [done|by left|set_solver].
Qed.

(** ** The owners and the entries *)

Definition owned (o : gmap string valueOwner) : gmap string string := owner_value <$> o.

Lemma env_map_snoc env kv : env_map (env ++ [kv]) = state_last (env_map env) kv.
Proof. unfold env_map. by rewrite foldl_snoc. Qed.

Lemma new_owners_env s : owned (owned_env (newConfigOwners s)) = env_map (image_env s).
Proof.
  unfold owned, newConfigOwners, env_map, image_env. cbn.
  rewrite <-(fmap_empty owner_value (M:=gmap string)).
  generalize (∅ : gmap string valueOwner). induction (Env _) as [|kv l IH]; intros m; [done|].
  cbn [foldl]. rewrite IH. f_equal. unfold state_last, statement.
  destruct (cut "=" kv) as [[k v] []]; [|done]. by rewrite fmap_insert.
Qed.

Lemma merge_env_entry_state kit env o kv :
  match merge_env_entry kit (env, o) kv with
  | Ok (env', o') => (match statement kv with Some s => state_step (owned o) s | None => Some (owned o) end) = Some (owned o')
  | Err _ => ∃ s, statement kv = Some s ∧ state_step (owned o) s = None
  end.
Proof.
  unfold merge_env_entry, statement. destruct (cut "=" kv) as [[k v] []]; [|done]. cbn [state_step].
  case_bool_decide.
  - unfold mergePath, owned. rewrite lookup_fmap. destruct (o !! "PATH") as [prev|] eqn:E; cbn [fmap option_fmap option_map default].
    + destruct (_ && _) eqn:Em; [|by rewrite fmap_insert].
      apply andb_true_iff in Em as [Em _]. apply bool_decide_eq_true in Em. f_equal. cbn. rewrite Em.
      apply insert_id. by rewrite lookup_fmap, E.
    + destruct (_ && _) eqn:Em; [|by rewrite fmap_insert]. by rewrite andb_false_r in Em.
  - unfold owned. rewrite lookup_fmap. destruct (o !! k) as [prev|] eqn:E; cbn.
    + case_bool_decide; [done|]. eexists. split; [done|]. cbn [state_step]. rewrite bool_decide_eq_false_2 by done.
      rewrite lookup_fmap, E. cbn. by rewrite bool_decide_eq_false_2.
    + by rewrite fmap_insert.
Qed.

Lemma merge_env_state kit env o entries :
  match merge_env kit (env, o) entries with
  | Ok (env', o') => state_all (owned o) (stated entries) = Some (owned o')
  | Err _ => state_all (owned o) (stated entries) = None
  end.
Proof.
  revert env o. induction entries as [|kv entries IH]; intros env o; [done|]. cbn [merge_env].
  pose proof (merge_env_entry_state kit env o kv) as Hs.
  destruct (merge_env_entry kit (env, o) kv) as [[env1 o1]|e]; cbn [mbind result_bind].
  - specialize (IH env1 o1). unfold stated. cbn [omap list_omap]. fold (stated entries).
    destruct (statement kv) as [s|]; cbn [state_all]; [|simplify_eq; by rewrite Hs].
    rewrite Hs. cbn [mbind option_bind]. done.
  - destruct Hs as (s & Hst & Hn). unfold stated. cbn [omap list_omap]. rewrite Hst. cbn [state_all].
    by rewrite Hn.
Qed.

(** The values an environment states for a name, in order. *)
Definition value_of (k : string) (kv : string) : option string :=
  '(k', v) ← statement kv; if bool_decide (k' = k) then Some v else None.
Definition values (k : string) (env : list string) : list string := omap (value_of k) env.

Lemma state_last_lookup m kv k :
  state_last m kv !! k = match value_of k kv with Some v => Some v | None => m !! k end.
Proof.
  unfold state_last, value_of. destruct (statement kv) as [[k' v]|]; cbn; [|done].
  case_bool_decide; [subst; apply lookup_insert_eq|by apply lookup_insert_ne].
Qed.

Lemma env_map_values env k : env_map env !! k = last (values k env).
Proof.
  unfold env_map, values. induction env as [|kv env IH] using rev_ind; [done|].
  rewrite foldl_snoc, state_last_lookup, omap_app. cbn. destruct (value_of k kv); cbn.
  - by rewrite last_snoc.
  - by rewrite app_nil_r.
Qed.

Lemma path_entry kv : has_prefix "PATH=" kv = true ↔ is_Some (value_of "PATH" kv).
Proof.
  unfold value_of, statement. split.
  - intros H%has_prefix_inv. rewrite H.
    change ("PATH=" +:+ ?r) with ("PATH" +:+ String "=" r). rewrite cut_app by done. cbn. eauto.
  - destruct (cut "=" kv) as [[k v] []] eqn:E; [|by intros [? ?]]. cbn. case_bool_decide as Hk; [|by intros [? ?]].
    intros _. apply cut_found in E as [-> _]. rewrite Hk. apply (has_prefix_app "PATH=").
Qed.

Lemma value_of_path v : value_of "PATH" ("PATH=" +:+ v) = Some v.
Proof. unfold value_of, statement. change ("PATH=" +:+ v) with ("PATH" +:+ String "=" v). by rewrite cut_app. Qed.
Lemma value_of_other k v : k ≠ "PATH" → value_of k ("PATH=" +:+ v) = None.
Proof.
  intros Hk. unfold value_of, statement. change ("PATH=" +:+ v) with ("PATH" +:+ String "=" v).
  rewrite cut_app by done. cbn. by rewrite bool_decide_eq_false_2.
Qed.

Lemma value_of_path_only k kv : has_prefix "PATH=" kv = true → k ≠ "PATH" → value_of k kv = None.
Proof. intros ->%has_prefix_inv. apply value_of_other. Qed.

Lemma values_replace k v env :
  k ≠ "PATH" → values k (replace_path ("PATH=" +:+ v) env) = values k env.
Proof.
  intros Hk. unfold values. induction env as [|kv env IH]; cbn; [by rewrite value_of_other|].
  destruct (has_prefix "PATH=" kv) eqn:E; cbn; [|by rewrite IH].
  by rewrite value_of_other, (value_of_path_only k kv).
Qed.

Lemma values_replace_path v env :
  length (values "PATH" env) ≤ 1 → values "PATH" (replace_path ("PATH=" +:+ v) env) = [v].
Proof.
  unfold values. induction env as [|kv env IH]; cbn; [by rewrite value_of_path|].
  destruct (has_prefix "PATH=" kv) eqn:E.
  - apply path_entry in E as [v' E]. rewrite E. cbn. rewrite value_of_path.
    destruct (omap _ env); cbn; [done|lia].
  - cbn. destruct (value_of "PATH" kv) eqn:Ev; [|exact IH].
    assert (is_Some (value_of "PATH" kv)) as H by eauto. apply path_entry in H. congruence.
Qed.

(** The entries say what the owners record; of [PATH], when one entry states it. *)
Definition recorded (env : list string) (o : gmap string valueOwner) : Prop :=
  (∀ k, k ≠ "PATH" → env_map env !! k = owned o !! k) ∧
  (length (values "PATH" env) ≤ 1 → env_map env !! "PATH" = owned o !! "PATH").

Lemma merge_env_entry_recorded kit env o kv env' o' :
  recorded env o → merge_env_entry kit (env, o) kv = Ok (env', o') →
  recorded env' o' ∧ (length (values "PATH" env) ≤ 1 → length (values "PATH" env') ≤ 1).
Proof.
  intros [Hr Hp]. unfold merge_env_entry. destruct (cut "=" kv) as [[k v] []] eqn:E; [|by intros [= <- <-]].
  case_bool_decide as Hk.
  - unfold mergePath. destruct (_ && _); [by intros [= <- <-]|]. intros [= <- <-]. split; [split|].
    + intros k' Hk'. rewrite env_map_values, values_replace, <-env_map_values by done.
      unfold owned. rewrite fmap_insert, lookup_insert_ne by done. by apply Hr.
    + intros Hl. rewrite env_map_values.
      destruct (decide (length (values "PATH" env) ≤ 1)) as [Hl'|Hl'].
      * rewrite values_replace_path by done. unfold owned. by rewrite fmap_insert, lookup_insert_eq.
      * exfalso. revert Hl Hl'. clear. unfold values. induction env as [|kv env IH]; cbn; [lia|].
        destruct (has_prefix "PATH=" kv) eqn:E; cbn.
        -- apply path_entry in E as [v' ->]. rewrite value_of_path. cbn. lia.
        -- destruct (value_of "PATH" kv) eqn:Ev; [|exact IH].
           assert (is_Some (value_of "PATH" kv)) as H by eauto. apply path_entry in H. congruence.
    + intros Hl. by rewrite values_replace_path.
  - destruct (o !! k) as [prev|] eqn:Eo; [case_bool_decide; [by intros [= <- <-]|done]|].
    intros [= <- <-].
    assert (value_of "PATH" kv = None) as Hn.
    { unfold value_of, statement. rewrite E. cbn. by rewrite bool_decide_eq_false_2. }
    assert (values "PATH" (env ++ [kv]) = values "PATH" env) as Hv.
    { unfold values. rewrite omap_app. cbn. by rewrite Hn, app_nil_r. }
    unfold recorded. rewrite Hv. split; [split|done].
    + intros k' Hk'. rewrite env_map_snoc. unfold state_last, statement. rewrite E.
      unfold owned. rewrite fmap_insert. destruct (decide (k = k')) as [->|]; [by rewrite !lookup_insert_eq|].
      rewrite !lookup_insert_ne by done. by apply Hr.
    + intros Hl. rewrite env_map_values, Hv, <-env_map_values. unfold owned.
      rewrite fmap_insert, lookup_insert_ne by done. by apply Hp.
Qed.

Lemma merge_env_recorded kit entries env o env' o' :
  recorded env o → merge_env kit (env, o) entries = Ok (env', o') →
  recorded env' o' ∧ (length (values "PATH" env) ≤ 1 → length (values "PATH" env') ≤ 1).
Proof.
  revert env o. induction entries as [|kv entries IH]; intros env o Hr; cbn [merge_env].
  { by intros [= <- <-]. }
  intros ([env1 o1] & H1 & H2)%result_bind_Ok.
  apply merge_env_entry_recorded in H1 as [Hr1 Hl1]; [|done].
  apply IH in H2 as [Hr2 Hl2]; [|done]. auto.
Qed.

Lemma recorded_sandbox s : recorded (image_env s) (owned_env (newConfigOwners s)).
Proof. split; intros; by rewrite new_owners_env. Qed.

(** ** [PATH] *)

Definition nonempty (e : string) : bool := negb (bool_decide (e = "")).
Definition elements (p : string) : list string := if bool_decide (p = "") then [] else split ":" p.

(** A path with the new elements among some additions, in order. *)
Definition gather (p : string) (additions : list string) : list string :=
  elements p ++ dedupe_from id (split ":" p) (List.filter nonempty additions).

Lemma join_cons_nonempty sep e l : e ≠ "" → join sep (e :: l) ≠ "".
Proof. intros He. destruct e; [done|]. by destruct l. Qed.

Lemma join_snoc sep l e : l ≠ [] → join sep (l ++ [e]) = join sep l +:+ sep +:+ e.
Proof.
  induction l as [|x l IH]; [done|]. intros _. destruct l as [|y l]; [done|].
  change ((x :: y :: l) ++ [e]) with (x :: (y :: l) ++ [e]).
  destruct ((y :: l) ++ [e]) as [|z r] eqn:Er; [done|]. rewrite join_cons2, IH by done.
  by rewrite join_cons2, !str_app_assoc.
Qed.

Lemma add_elements adds have els :
  (join ":" els = "" → els = []) →
  (foldl add_element (have, join ":" els) adds).2 =
  join ":" (els ++ dedupe_from id have (List.filter nonempty adds)).
Proof.
  revert have els. induction adds as [|e adds IH]; intros have els Hj; [by rewrite app_nil_r|].
  cbn [foldl]. unfold add_element at 2, nonempty at 1. cbn [List.filter].
  destruct (decide (e = "")) as [->|He].
  { rewrite bool_decide_eq_true_2 by done. cbn [orb negb]. by apply IH. }
  rewrite (bool_decide_eq_false_2 _ He). cbn [orb negb dedupe_from].
  change (id e) with e. case_bool_decide as Hh; [rewrite decide_True by done; by apply IH|].
  rewrite decide_False by done.
  assert ((if bool_decide (join ":" els = "") then e else join ":" els +:+ ":" +:+ e) = join ":" (els ++ [e])) as ->.
  { case_bool_decide as Hje; [by rewrite (Hj Hje)|]. rewrite join_snoc; [done|]. by intros ->. }
  rewrite IH; [by rewrite <-app_assoc|]. intros Hn. exfalso.
  destruct els as [|x els]; [by apply He|].
  rewrite join_snoc in Hn by done. destruct (join ":" (x :: els)); done.
Qed.

Lemma merged_path_gather p a : merged_path p a = join ":" (gather p (split ":" a)).
Proof.
  unfold merged_path, gather.
  assert (join ":" (elements p) = p) as E.
  { unfold elements. case_bool_decide; [by subst|apply join_split]. }
  rewrite <-E at 2. apply add_elements. rewrite E. unfold elements. intros ->. done.
Qed.

Lemma dedupe_from_ext_in (seen seen' l : list string) :
  (∀ k, k ∈ l → k ∈ seen ↔ k ∈ seen') → dedupe_from id seen l = dedupe_from id seen' l.
Proof.
  revert seen seen'. induction l as [|x l IH]; intros seen seen' E; [done|]. cbn.
  destruct (decide (x ∈ seen)) as [H|H]; destruct (decide (x ∈ seen')) as [H'|H'];
    try (exfalso; specialize (E x); set_solver).
  - apply IH. set_solver.
  - f_equal. apply IH. intros k Hk. rewrite !elem_of_cons. rewrite E by set_solver. done.
Qed.

Lemma dedupe_from_app (seen l l' : list string) :
  dedupe_from id seen (l ++ l') =
  dedupe_from id seen l ++ dedupe_from id (dedupe_from id seen l ++ seen) l'.
Proof.
  revert seen. induction l as [|x l IH]; intros seen; [done|]. cbn. case_decide; [apply IH|].
  cbn. f_equal. rewrite IH. f_equal. apply dedupe_from_ext. set_solver.
Qed.

Definition colon_free (l : list string) : Prop := Forall (λ e, contains_byte ":" e = false) l.

Lemma gather_app p a b :
  colon_free a → gather (join ":" (gather p a)) b = gather p (a ++ b).
Proof.
  intros Ha. unfold gather at 1 3. set (g := gather p a).
  assert (colon_free g) as Hg.
  { unfold g, gather. apply Forall_app. split.
    - unfold elements. case_bool_decide; [constructor|apply split_free].
    - eapply sublist_Forall; [apply dedupe_from_sublist|].
      apply Forall_forall. intros e [He _]%elem_of_filter_bool.
      unfold colon_free in Ha. rewrite Forall_forall in Ha. auto. }
  assert (∀ seen l k, k ∈ dedupe_from id seen (List.filter nonempty l) → k ≠ "") as Hd.
  { intros seen l k Hk. eapply elem_of_sublist in Hk; [|apply dedupe_from_sublist].
    apply elem_of_filter_bool in Hk as [_ Hk]. by apply negb_true_iff, bool_decide_eq_false in Hk. }
  assert (g = [] ∨ join ":" g ≠ "" ∧ g ≠ []) as Hj.
  { destruct g as [|x r] eqn:Eg; [by left|]. right. split; [|done]. intros H.
    assert (x = "" ∧ r = []) as [-> ->].
    { destruct r; [by destruct x|]. rewrite join_cons2 in H. by destruct x. }
    unfold g, gather, elements in Eg. case_bool_decide as Hp; cbn in Eg.
    - apply (Hd (split ":" p) a ""); [|done]. rewrite Eg. by left.
    - pose proof (split_nonempty ":" p). destruct (split ":" p) as [|x r] eqn:Es; [done|]. injection Eg as -> Hr.
      apply app_nil in Hr as [-> _]. apply Hp. by rewrite <-(join_split ":" p), Es. }
  rewrite List.filter_app, dedupe_from_app, app_assoc. fold (gather p a). fold g.
  assert (elements (join ":" g) = g) as ->.
  { unfold elements. destruct Hj as [->|[Hj Hne]]; [done|].
    rewrite bool_decide_eq_false_2 by done. by apply split_join. }
  f_equal. apply dedupe_from_ext_in. intros k [_ Hk]%elem_of_filter_bool.
  apply negb_true_iff, bool_decide_eq_false in Hk.
  assert (k ∈ elements p ↔ k ∈ split ":" p) as Hp.
  { unfold elements. case_bool_decide as Hp; [|done]. subst p. cbn. set_solver. }
  assert (k ∈ g ↔ k ∈ dedupe_from id (split ":" p) (List.filter nonempty a) ++ split ":" p) as <-.
  { unfold g, gather. rewrite !elem_of_app, Hp. tauto. }
  destruct Hj as [->|[Hj Hne]]; [cbn; set_solver|]. by rewrite (split_join ":" g).
Qed.

(** The elements the statements add to [PATH]. *)
Definition path_additions (l : list (string * string)) : list string :=
  flat_map (λ kv, if bool_decide (kv.1 = "PATH") then split ":" kv.2 else []) l.

Lemma path_additions_free l : colon_free (path_additions l).
Proof.
  apply Forall_forall. intros e (kv & _ & He)%elem_of_flat_map. case_bool_decide; [|by inversion He].
  pose proof (split_free ":" kv.2) as H'. rewrite Forall_forall in H'. auto.
Qed.

Lemma state_all_path a l a' :
  state_all a l = Some a' →
  a' !! "PATH" = if decide ("PATH" ∈ l.*1)
                 then Some (join ":" (gather (default "" (a !! "PATH")) (path_additions l)))
                 else a !! "PATH".
Proof.
  revert a' . induction l as [|[k v] l IH] using rev_ind; intros a'; [by intros [= ->]|].
  rewrite state_all_app. destruct (state_all a l) as [a1|]; [|done]. specialize (IH a1 eq_refl).
  cbn [mbind option_bind state_all state_step]. unfold path_additions. rewrite flat_map_app. fold (path_additions l).
  rewrite fmap_app. cbn [flat_map fst snd fmap list_fmap]. rewrite app_nil_r.
  case_bool_decide as Hk; cbn [mbind option_bind].
  - intros [= <-]. rewrite lookup_insert_eq, decide_True by set_solver. f_equal.
    rewrite merged_path_gather. f_equal. rewrite IH. case_decide as Hl; cbn [default].
    + unfold default. cbn. apply gather_app, path_additions_free.
    + assert (path_additions l = []) as ->; [|done].
      clear -Hl. induction l as [|[k' v'] l IHl]; [done|]. cbn in *.
      rewrite bool_decide_eq_false_2 by set_solver. apply IHl. set_solver.
  - rewrite app_nil_r. intros H.
    assert (a' !! "PATH" = a1 !! "PATH") as ->.
    { destruct (a1 !! k); [case_bool_decide; [|done]|]; cbn in H; simplify_eq; [done|by rewrite lookup_insert_ne]. }
    rewrite IH. destruct (decide ("PATH" ∈ l.*1)), (decide ("PATH" ∈ l.*1 ++ [k])); set_solver.
Qed.

(** ** The composed image *)

Definition counts (i : Input) : Prop := length (Layers (Input_Manifest i)) = length (DiffIDs (Input_Config i)).
Definition image_labels (i : Input) : gmap string string := Labels (Image_Config (Input_Config i)).

(** What runs the container: never a mixin's. *)
Definition contract (i : OciImage) :=
  (User (Image_Config i), Entrypoint (Image_Config i), Cmd (Image_Config i), WorkingDir (Image_Config i),
   StopSignal (Image_Config i), Image_Platform i, RootFS_Type i).

(** The parts that only gather: layers, diff ids, history, ports, volumes, labels. *)
Record gathered (image : AssembledImage) (ms : list Input) (image' : AssembledImage) : Prop := {
  gathered_layers : Image_Layers image' = Image_Layers image ++ flat_map (λ m, Layers (Input_Manifest m)) ms;
  gathered_diffIDs : DiffIDs (Config image') = DiffIDs (Config image) ++ flat_map (λ m, DiffIDs (Input_Config m)) ms;
  gathered_history : Image_History (Config image') =
    Image_History (Config image) ++ flat_map (λ m, map (λ _, overlay_history m) (Layers (Input_Manifest m))) ms;
  gathered_ports : ExposedPorts (Image_Config (Config image')) =
    ExposedPorts (Image_Config (Config image)) ∪ ⋃ map (λ m, ExposedPorts (Image_Config (Input_Config m))) ms;
  gathered_volumes : Volumes (Image_Config (Config image')) =
    Volumes (Image_Config (Config image)) ∪ ⋃ map (λ m, Volumes (Image_Config (Input_Config m))) ms;
  gathered_labels : Labels (Image_Config (Config image')) =
    Labels (Image_Config (Config image)) ∪ ⋃ map image_labels ms;
  gathered_contract : contract (Config image') = contract (Config image);
}.

Definition tracks (o : configOwners) (image : AssembledImage) : Prop :=
  recorded (Env (Image_Config (Config image))) (owned_env o) ∧
  (∀ k, is_Some (owned_labels o !! k) ↔ is_Some (Labels (Image_Config (Config image)) !! k)).

Lemma new_labels_union o (l m : gmap string string) :
  (∀ k, is_Some (owned_labels o !! k) ↔ is_Some (l !! k)) → l ∪ new_labels o m = l ∪ m.
Proof.
  intros H. apply map_eq. intros k. rewrite !lookup_union. specialize (H k).
  destruct (l !! k) eqn:E; [by rewrite !union_Some_l|]. unfold new_labels. f_equal.
  apply option_eq. intros x. rewrite map_lookup_filter_Some. cbn.
  destruct (owned_labels o !! k); [exfalso; destruct H as [[? H] _]; [eauto|done]|naive_solver].
Qed.

Lemma merge_mixin_spec o image m :
  tracks o image →
  match merge_mixin (o, image) m with
  | Ok (o', image') =>
      counts m ∧ state_all (owned (owned_env o)) (stated_by m) = Some (owned (owned_env o')) ∧
      tracks o' image' ∧ gathered image [m] image' ∧
      (length (values "PATH" (Env (Image_Config (Config image)))) ≤ 1 →
       length (values "PATH" (Env (Image_Config (Config image')))) ≤ 1)
  | Err _ => ¬ (counts m ∧ is_Some (state_all (owned (owned_env o)) (stated_by m)))
  end.
Proof.
  intros [Hr Hl]. unfold merge_mixin. case_bool_decide as Hc; cbn [negb]; [|by intros [? _]].
  unfold mergeConfig, stated_by, image_env.
  pose proof (merge_env_state (Name m) (Env (Image_Config (Config image))) (owned_env o)
    (Env (Image_Config (Input_Config m)))) as Hs.
  destruct (merge_env _ _ _) as [[env o1]|e] eqn:E; cbn [mbind result_bind].
  2: { rewrite Hs. by intros [_ [? ?]]. }
  apply merge_env_recorded in E as [Hr' Hn]; [|done].
  split; [done|]. split; [done|]. split; [split|]; cbn [Image_Config Config Env set_sets set_env owned_env owned_labels Labels].
  - done.
  - intros k. rewrite !lookup_union, lookup_fmap. specialize (Hl k).
    destruct (owned_labels o !! k), (Labels (Image_Config (Config image)) !! k);
      destruct (new_labels o _ !! k); cbn; split; intros [? ?]; try done; eauto;
      try (exfalso; destruct Hl as [Hl1 Hl2]; first [by destruct (Hl1 ltac:(eauto)) | by destruct (Hl2 ltac:(eauto))]).
  - split; [|done]. constructor; cbn; rewrite ?app_nil_r; try done.
    + f_equal. by rewrite (right_id_L ∅ (∪)).
    + f_equal. by rewrite (right_id_L ∅ (∪)).
    + rewrite (right_id_L ∅ (∪)). by apply new_labels_union.
Qed.

Lemma gathered_trans image m ms i1 i2 :
  gathered image [m] i1 → gathered i1 ms i2 → gathered image (m :: ms) i2.
Proof.
  intros [A1 A2 A3 A4 A5 A6 A7] [B1 B2 B3 B4 B5 B6 B7]. cbn in *. rewrite ?app_nil_r in *.
  constructor; cbn.
  - by rewrite B1, A1, app_assoc.
  - by rewrite B2, A2, app_assoc.
  - by rewrite B3, A3, app_assoc.
  - rewrite B4, A4. set_solver.
  - rewrite B5, A5. set_solver.
  - rewrite B6, A6, (right_id_L ∅ (∪)), (assoc_L (∪)). done.
  - by rewrite B7, A7.
Qed.

Lemma merge_mixins_spec ms o image :
  tracks o image →
  match merge_mixins (o, image) ms with
  | Ok (o', image') =>
      Forall counts ms ∧ state_all (owned (owned_env o)) (flat_map stated_by ms) = Some (owned (owned_env o')) ∧
      tracks o' image' ∧ gathered image ms image' ∧
      (length (values "PATH" (Env (Image_Config (Config image)))) ≤ 1 →
       length (values "PATH" (Env (Image_Config (Config image')))) ≤ 1)
  | Err _ => ¬ (Forall counts ms ∧ is_Some (state_all (owned (owned_env o)) (flat_map stated_by ms)))
  end.
Proof.
  revert o image. induction ms as [|m ms IH]; intros o image Ht.
  { cbn. split; [constructor|]. split; [done|]. split; [done|]. split; [|done].
    constructor; cbn; rewrite ?app_nil_r, ?(right_id_L ∅ (∪)); done. }
  cbn [merge_mixins flat_map]. pose proof (merge_mixin_spec o image m Ht) as Hm.
  rewrite state_all_app. destruct (merge_mixin (o, image) m) as [[o1 i1]|e]; cbn [mbind result_bind].
  - destruct Hm as (Hc & Hs & Ht1 & Hg & Hn). rewrite Hs. cbn [mbind option_bind].
    specialize (IH o1 i1 Ht1). destruct (merge_mixins (o1, i1) ms) as [[o2 i2]|e].
    + destruct IH as (Hcs & Hss & Ht2 & Hgs & Hns). split; [by constructor|]. split; [done|]. split; [done|].
      split; [by eapply gathered_trans|auto].
    + intros [Hf Hs']. apply IH. inversion_clear Hf. done.
  - intros [Hf Hs]. apply Hm. inversion_clear Hf. split; [done|].
    destruct (state_all (owned (owned_env o)) (stated_by m)); [eauto|by destruct Hs].
Qed.

Lemma tracks_sandbox s :
  tracks (newConfigOwners s) (mkAssembled (Input_Config s) (Layers (Input_Manifest s))).
Proof.
  split; [apply recorded_sandbox|]. intros k. cbn. rewrite lookup_fmap.
  by destruct (Labels (Image_Config (Input_Config s)) !! k); cbn; split; intros [? ?]; eauto.
Qed.

(** ** Properties *)

(** C34: composing succeeds exactly when every input's layers match its diff ids and
    no two inputs give one environment variable different values; the image then
    has the workload's runtime contract, the layers, diff ids and history in
    order, the union of ports and volumes, every label from its first writer,
    exactly the variables stated, and a [PATH] with the workload's elements
    followed by the new ones of the mixins in order. *)
Theorem merge_exact sandbox mixins :
  let base := env_map (image_env sandbox) in
  let statements := flat_map stated_by mixins in
  (is_ok (Merge sandbox mixins) = true ↔ Forall counts (sandbox :: mixins) ∧ agreeing base statements) ∧
  ∀ image, Merge sandbox mixins = Ok image →
    let env := env_map (Env (Image_Config (Config image))) in
    gathered (mkAssembled (Input_Config sandbox) (Layers (Input_Manifest sandbox))) mixins image ∧
    (∀ k v, k ≠ "PATH" → env !! k = Some v ↔ base !! k = Some v ∨ (k, v) ∈ statements) ∧
    (length (values "PATH" (image_env sandbox)) ≤ 1 →
     env !! "PATH" = if decide ("PATH" ∈ statements.*1)
                     then Some (join ":" (gather (default "" (base !! "PATH")) (path_additions statements)))
                     else base !! "PATH").
Proof.
  cbn zeta. rewrite Forall_cons, <-state_all_exact. unfold Merge, counts at 1.
  pose proof (merge_mixins_spec mixins _ _ (tracks_sandbox sandbox)) as H. rewrite new_owners_env in H.
  case_bool_decide as Hc; cbn [negb]; [|split; [by split; [|intros [[? _] _]]|done]].
  destruct (merge_mixins _ _) as [[o image]|e]; cbn [mbind result_bind is_ok snd].
  - destruct H as (Hcs & Hs & [Ht _] & Hg & Hn). split; [by rewrite Hs; split; eauto|].
    intros image' [= <-]. cbn in Hn. split; [done|]. destruct Ht as [Hr Hp]. split.
    + intros k v Hk. rewrite Hr by done. by apply state_all_sound.
    + intros Hl. rewrite (Hp (Hn Hl)). by apply state_all_path.
  - split; [|done]. split; [done|]. by intros [[_ Hf] Hs]; destruct H.
Qed.

Definition sample_input (name : string) (env : list string) (digest : string) : Input :=
  mkInput name
    (mkManifest 2 MediaTypeImageManifest "" (mkBlob MediaTypeImageConfig "" 0 None) [mkBlob "layer" digest 3 None] ∅)
    (mkOciImage (mkPlatform "amd64" "linux" "" [] "")
       (mkImageConfig "root" ∅ env ["/bin/sh"] [] ∅ "/" ∅ "") "layers" [digest] []).

Lemma merge_exact_witness :
  let sandbox := sample_input "base" ["PATH=/bin:/usr/bin"; "LANG=C"] "d0" in
  let mixins := [sample_input "git" ["PATH=/opt/git:/bin"; "EDITOR=vi"] "d1"; sample_input "vim" ["EDITOR=vi"] "d2"] in
  ∃ image, Merge sandbox mixins = Ok image ∧
    Env (Image_Config (Config image)) = ["PATH=/bin:/usr/bin:/opt/git"; "LANG=C"; "EDITOR=vi"] ∧
    env_map (Env (Image_Config (Config image))) !! "EDITOR" = Some "vi".
Proof.
  eexists. split; [by vm_compute|]. split; [done|].
  apply (merge_exact (sample_input "base" ["PATH=/bin:/usr/bin"; "LANG=C"] "d0")
    [sample_input "git" ["PATH=/opt/git:/bin"; "EDITOR=vi"] "d1"; sample_input "vim" ["EDITOR=vi"] "d2"]).
  - by vm_compute.
  - done.
  - right. by vm_compute; repeat constructor.
Defined.
