(* ===== verification/Inventory.v ===== *)
(** [fetch/assemble_inventory.go]: listing what the layers of a resolved set of
    kits contain, within limits that hold for the whole operation.

    The decompressors, the tar reader and the digest algorithms are libraries; a
    layer loader is the caller's.  What its stream delivers is what the code's
    context-polling reader passes on: an error there, a cancellation included, is
    the stream's own. *)
From stdpp Require Import options.
From S2P Require Import Prelude GoStrings Overlay Oci LayerTar Types Resolve Context.

(** ** Errors of [package fetch] *)

Inductive fetch_error :=
  | Canceled
  | TooManyLayers
  | TooManyEntries
  | TooManyPathBytes
  | TooManyComponents
  | NotResolved (cause : resolve_error)
  | MissingKit (reference : string)
  | MissingLayerLoader (reference : string)
  | RootfsMismatch (reference : string)
  | LayerFailed (reference digest : string) (cause : fetch_error)
  | LayerTooLarge
  | NotOpened (cause : string)
  | NoStream
  | BadLayer (cause : layer_error)
  | NotDrained
  | NotClosed
  | SizeMismatch
  | DigestMismatch
  | CannotExtract (reference name : string)
  | FileCollision (path lower upper : string).

(** ** The budget *)

Definition maxInventoryLayers : Z := 4096.
Definition maxInventoryEntries : Z := 250000.
Definition maxInventoryPathBytes : Z := Z.shiftl 32 20.
Definition maxInventoryComponents : Z := 250000.

Record inventoryBudget := mkBudget {
  layersLeft : Z;
  entriesLeft : Z;
  pathBytesLeft : Z;
  componentsLeft : Z;
}.

Definition consumeLayer (b : inventoryBudget) : result fetch_error inventoryBudget :=
  if bool_decide (layersLeft b = 0)%Z then Err TooManyLayers
  else Ok (mkBudget (layersLeft b - 1) (entriesLeft b) (pathBytesLeft b) (componentsLeft b)).

(** [pathComponents]: [inComponent] is whether the last byte was part of one. *)
Fixpoint count_components (inComponent : bool) (name : string) : Z :=
  match name with
  | "" => 0
  | String c name =>
      if bool_decide (c = "/"%char) then count_components false name
      else if inComponent then count_components true name
      else 1 + count_components true name
  end%Z.
Definition pathComponents (name : string) : Z := count_components false name.

(** [Name], [Linkname] and the other fields of an [inventoryEntry] are those of
    the header it came from. *)
Definition inventoryEntry := Header.
Definition header (e : inventoryEntry) : Header := e.

Definition consume (b : inventoryBudget) (h : Header) : result fetch_error inventoryBudget :=
  let n := size (Header_Name h) in
  let l := size (Linkname h) in
  let components := (pathComponents (Header_Name h) + pathComponents (Linkname h))%Z in
  if bool_decide (entriesLeft b = 0)%Z then Err TooManyEntries
  else if (pathBytesLeft b <? n)%Z || (pathBytesLeft b - n <? l)%Z then Err TooManyPathBytes
  else if (componentsLeft b <? components)%Z then Err TooManyComponents
  else Ok (mkBudget (layersLeft b) (entriesLeft b - 1) (pathBytesLeft b - (n + l)) (componentsLeft b - components)).

(** ** Reading a layer *)

(** What a [LoadedKit] holds; [None] is a nil pointer or function.  A loader opens
    a stream that closes or not, answers nil, or fails. *)
Inductive opened := Opened (s : stream) (closes : bool) | NilStream | NotOpen (cause : string).
Record LoadedKit := mkLoadedKit {
  Loaded_Digest : string;
  Loaded_Manifest : Manifest;
  Loaded_Config : OciImage;
  Loaded_Image : string;
  Loaded_Descriptor : string;
  LayerLoader : option (Blob → opened);
}.

Record kitInventory := mkKitInventory { inventory_reference : string; inventory_layers : list (list inventoryEntry) }.

(** Listings by digest, size and diff id. *)
Notation blobKey := (string * Z * string)%type (only parsing).
Notation inventory_cache := (gmap (string * Z * string) (list inventoryEntry)) (only parsing).

Section Inventory.
Context (gunzip unzstd : stream → option stream) (tar_reader : stream → archive).
Context (valid_digest : string → bool) (verifies : string → string → bool).
Context `{ReadySort} (done : nat → bool) (reports : bool).

Definition MaxInt64 : Z := 2 ^ 63 - 1.

(** The visitor of [readLayerInventory]: charge the header, keep it. *)
Definition keep_entry (st : inventoryBudget * list inventoryEntry) (h : Header) :
    result fetch_error (inventoryBudget * list inventoryEntry) :=
  b ← consume st.1 h; Ok (b, st.2 ++ [h]).

(** [io.LimitedReader] with one byte more than the layer is said to have. *)
Definition readLayerInventory (load : Blob → opened) (layer : Blob) (diffID : string) (b : inventoryBudget) :
    result fetch_error (inventoryBudget * list inventoryEntry) :=
  if bool_decide (Size layer = MaxInt64) then Err LayerTooLarge
  else
    match load layer with
    | NotOpen cause => Err (NotOpened cause)
    | NilStream => Err NoStream
    | Opened s closes =>
        let read := limited (Size layer + 1) s in
        st ← WalkLayerVerified gunzip unzstd tar_reader BadLayer keep_entry valid_digest verifies
               read diffID (b, []);
        if broken read then Err NotDrained
        else if negb (bool_decide (size (delivered read) = Size layer)) then Err SizeMismatch
        else if negb (verifies (Blob_Digest layer) (delivered read)) then Err DigestMismatch
        else if negb closes then Err NotClosed
        else Ok st
    end.


(** A replay of a cached layer: polled and charged entry by entry. *)
Definition replay_entry (b : inventoryBudget) (e : inventoryEntry) : M fetch_error inventoryBudget :=
  poll Canceled done;; lift (consume b (header e)).

Definition inventory_step (input : LoadedKit) (load : Blob → opened) (layer : Blob) (diffID : string)
    (cached : option (list inventoryEntry)) (b : inventoryBudget) :
    M fetch_error (inventoryBudget * list inventoryEntry) :=
  b ⇠ lift (consumeLayer b);
  match cached with
  | Some files => b ⇠ for_range replay_entry b files; ok (b, files)
  | None => lift (readLayerInventory load layer diffID b)
  end.

Definition inventory_state : Type := inventory_cache * inventoryBudget * list (list inventoryEntry).

Definition wrap_layer (reference digest : string) {A} (r : result fetch_error A) : result fetch_error A :=
  map_err (LayerFailed reference digest) r.

(** One layer of one kit. *)
Definition inventory_layer (reference : string) (input : LoadedKit) (load : Blob → opened)
    (st : inventory_state) (layer_diff : Blob * string) : M fetch_error inventory_state :=
  let '(cache, b, layers) := st in
  let '(layer, diffID) := layer_diff in
  poll Canceled done;;
  let key := (Blob_Digest layer, Size layer, diffID) in
  r ⇠ attempt (progressStep Canceled done reports
        (mkProgress StageInventory ProgressStarted reference (Blob_Digest layer))
        (inventory_step input load layer diffID (cache !! key) b));
  bf ⇠ lift (wrap_layer reference (Blob_Digest layer) r);
  ok (<[key := bf.2]> cache, bf.1, layers ++ [bf.2]).

Definition inventory_kit (loaded : gmap string LoadedKit)
    (st : inventory_cache * inventoryBudget * list kitInventory) (kit : Unit) :
    M fetch_error (inventory_cache * inventoryBudget * list kitInventory) :=
  let '(cache, b, inventories) := st in
  match loaded !! Reference kit with
  | None => fail (MissingKit (Reference kit))
  | Some input =>
      match LayerLoader input with
      | None => fail (MissingLayerLoader (Reference kit))
      | Some load =>
          let layers := Layers (Loaded_Manifest input) in
          let diffIDs := DiffIDs (Loaded_Config input) in
          if negb (bool_decide (length diffIDs = length layers)) then fail (RootfsMismatch (Reference kit))
          else
            st ⇠ for_range (inventory_layer (Reference kit) input load) (cache, b, []) (zip layers diffIDs);
            ok (st.1, inventories ++ [mkKitInventory (Reference kit) st.2])
      end
  end.

Definition full_budget : inventoryBudget :=
  mkBudget maxInventoryLayers maxInventoryEntries maxInventoryPathBytes maxInventoryComponents.

Definition inventoryKits (kits : list Unit) (loaded : gmap string LoadedKit) :
    M fetch_error (list kitInventory) :=
  resolution ⇠ lift (map_err NotResolved (Resolve kits));
  st ⇠ for_range (inventory_kit loaded) (∅, full_budget, []) (Ordered resolution);
  ok st.2.
End Inventory.
