(* ===== verification/InventoryFacts.v ===== *)
(** The limits of [fetch/assemble_inventory.go] hold for the whole operation, cache
    replays included, and what is listed was verified. *)
From stdpp Require Import options.
From S2P Require Import Prelude GoStrings GoPath Overlay Oci LayerTar Types Resolve ResolveFacts Context Inventory.

(** ** Components *)

Lemma count_components_split s b :
  count_components b s =
  (Z.of_nat (length (List.filter (λ e, negb (bool_decide (e = ""))) (split slash s)))
   - (if b && negb (bool_decide (hd "" (split slash s) = "")) then 1 else 0))%Z.
Proof.
  revert b. induction s as [|c s IH]; intros b; cbn [count_components split].
  { cbn. by rewrite andb_false_r. }
  unfold slash in *. destruct (decide (c = "/"%char)) as [->|Hc].
  - rewrite bool_decide_eq_true_2 by done. rewrite IH. cbn. by rewrite andb_false_r, !Z.sub_0_r.
  - rewrite bool_decide_eq_false_2 by done. pose proof (split_nonempty "/" s) as Hne.
    destruct (split "/" s) as [|x l]; [done|]. cbn in *.
    rewrite (bool_decide_eq_false_2 (String c x = "")) by done.
    destruct b; rewrite IH; destruct (bool_decide (x = "")); cbn; lia.
Qed.

(** The components counted are the names of the path: the directories it implies. *)
Lemma pathComponents_names s : pathComponents s = Z.of_nat (length (path_names s)).
Proof.
  unfold pathComponents. rewrite count_components_split. cbn [andb]. rewrite Z.sub_0_r. done.
Qed.

(** ** The account *)

Definition path_bytes (h : Header) : Z := size (Header_Name h) + size (Linkname h).
Definition path_components (h : Header) : Z :=
  Z.of_nat (length (path_names (Header_Name h)) + length (path_names (Linkname h))).
Definition total (f : Header → Z) (es : list Header) : Z := foldr (λ h n, (f h + n)%Z) 0%Z es.

Lemma total_app f l l' : total f (l ++ l') = (total f l + total f l')%Z.
Proof. unfold total. induction l as [|h l IH]; [done|]. cbn [app foldr]. rewrite IH. lia. Qed.

(** A budget after some layers and the entries of some. *)
Record spent (b : inventoryBudget) (layers : nat) (es : list Header) : Prop := {
  spent_layers : (layersLeft b + Z.of_nat layers = maxInventoryLayers ∧ 0 ≤ layersLeft b)%Z;
  spent_entries : (entriesLeft b + Z.of_nat (length es) = maxInventoryEntries ∧ 0 ≤ entriesLeft b)%Z;
  spent_bytes : (pathBytesLeft b + total path_bytes es = maxInventoryPathBytes ∧ 0 ≤ pathBytesLeft b)%Z;
  spent_components : (componentsLeft b + total path_components es = maxInventoryComponents ∧ 0 ≤ componentsLeft b)%Z;
}.

Lemma full_budget_spent : spent full_budget 0 [].
Proof. by split. Qed.

Lemma consumeLayer_spent b n es b' :
  spent b n es → consumeLayer b = Ok b' → spent b' (S n) es.
Proof.
  intros [Hl He Hb Hc]. unfold consumeLayer. case_bool_decide; [done|]. intros [= <-].
  split; cbn; [lia|done..].
Qed.

Lemma consume_spent b n es h b' :
  spent b n es → consume b h = Ok b' → spent b' n (es ++ [h]).
Proof.
  intros [Hl He Hb Hc]. unfold consume. rewrite !pathComponents_names. case_bool_decide; [done|].
  destruct (_ || _) eqn:E1; [done|]. apply orb_false_iff in E1 as [E1 E2].
  destruct (componentsLeft b <? _)%Z eqn:E3; [done|]. intros E. injection E as <-.
  split; cbn; rewrite ?total_app, ?length_app; cbn; unfold path_bytes, path_components in *; try done; lia.
Qed.

(** ** What a listing is *)

Section Facts.
Context (gunzip unzstd : stream → option stream) (tar_reader : stream → archive).
Context (valid_digest : string → bool) (verifies : string → string → bool).
Context `{ReadySort} (done : nat → bool) (reports : bool).

(** The entries of a blob of a size and digest whose uncompressed bytes have the
    diff id. *)
Definition verified_listing (key : blobKey) (files : list Header) : Prop :=
  let '(digest, sz, diffID) := key in
  ∃ blob st, size (delivered blob) = sz ∧ broken blob = false ∧ verifies digest (delivered blob) = true ∧
    valid_digest diffID = true ∧ openLayerStream gunzip unzstd blob = Ok st ∧ broken st = false ∧
    verifies diffID (delivered st) = true ∧ torn (tar_reader st) = false ∧
    files = map hdr (entries (tar_reader st)).

Lemma keep_entries es b files b' files' n pre :
  walk_headers keep_entry (b, files) es = Ok (b', files') → spent b n (pre ++ files) →
  spent b' n (pre ++ files') ∧ files' = files ++ map hdr es.
Proof.
  revert b files. induction es as [|e es IH]; intros b files; cbn.
  { intros [= <- <-]. by rewrite app_nil_r. }
  intros (st & H1 & H2)%result_bind_Ok Hs. unfold keep_entry in H1.
  apply result_bind_Ok in H1 as (b1 & H1 & [= <-]). cbn [fst snd] in *.
  apply IH in H2 as [H2 ->].
  - split; [done|]. by rewrite <-app_assoc.
  - rewrite app_assoc. by eapply consume_spent.
Qed.

Lemma readLayerInventory_verified load layer diffID b b' files n pre :
  readLayerInventory gunzip unzstd tar_reader valid_digest verifies load layer diffID b = Ok (b', files) →
  spent b n pre →
  spent b' n (pre ++ files) ∧ verified_listing (Blob_Digest layer, Size layer, diffID) files.
Proof.
  unfold readLayerInventory. case_bool_decide; [done|].
  destruct (load layer) as [s closes| |]; [|done..]. unfold WalkLayerVerified.
  destruct (valid_digest diffID) eqn:Hv; cbn [negb]; [|done].
  set (blob := limited _ s). intros (st & Hw & Hrest)%result_bind_Ok Hs.
  apply result_bind_Ok in Hw as (u & Hu & Hw). apply map_err_Ok in Hu.
  apply result_bind_Ok in Hw as (st1 & Hw & Hend). unfold walkTar in Hw.
  apply result_bind_Ok in Hw as ([b1 files1] & Hw & Ht).
  destruct (torn (tar_reader u)) eqn:Htorn; [done|]. injection Ht as <-.
  destruct (broken u) eqn:Hbu; [done|]. destruct (verifies diffID (delivered u)) eqn:Hvu; [|done].
  cbn in Hend. injection Hend as <-.
  destruct (broken blob) eqn:Hbb; [done|]. case_bool_decide as Hsz; cbn [negb] in Hrest; [|done].
  destruct (verifies (Blob_Digest layer) (delivered blob)) eqn:Hvb; cbn [negb] in Hrest; [|done].
  destruct closes; [|done]. injection Hrest as <- <-.
  eapply (keep_entries _ _ _ _ _ n pre) in Hw as [Hw ->]; [|by rewrite app_nil_r].
  split; [done|]. by exists blob, u.
Qed.

(** ** The invariant of the operation *)

Definition cache_verified (c : inventory_cache) : Prop := ∀ key files, c !! key = Some files → verified_listing key files.

Lemma replay_spent files b n pre :
  spent b n pre → yields (for_range (replay_entry done) b files) (λ b', spent b' n (pre ++ files)).
Proof.
  intros Hs. eapply yields_impl.
  - apply (yields_for_range _ (λ seen b, spent b n (pre ++ seen))); [by rewrite app_nil_r|].
    intros seen e b1 _ Hb. eapply yields_bind; [apply yields_any|]. intros _ _.
    apply yields_lift. intros b2 H2. rewrite app_assoc. by eapply consume_spent.
  - done.
Qed.

Lemma inventory_step_verified input load layer diffID cached b n pre :
  spent b n pre →
  (∀ files, cached = Some files → verified_listing (Blob_Digest layer, Size layer, diffID) files) →
  yields (inventory_step gunzip unzstd tar_reader valid_digest verifies done input load layer diffID cached b)
    (λ bf, spent bf.1 (S n) (pre ++ bf.2) ∧ verified_listing (Blob_Digest layer, Size layer, diffID) bf.2).
Proof.
  intros Hs Hc. unfold inventory_step.
  eapply (yields_bind _ _ (λ b, spent b (S n) pre)).
  { apply yields_lift. intros b1. by apply consumeLayer_spent. }
  intros b1 Hb1. destruct cached as [files|].
  - eapply yields_bind; [by apply replay_spent|]. intros b2 Hb2. apply yields_ok. split; [done|by apply Hc].
  - apply yields_lift. intros [b2 files] Hr. by eapply readLayerInventory_verified.
Qed.

Definition layer_key (ld : Blob * string) : blobKey := (Blob_Digest ld.1, Size ld.1, ld.2).

Record inventory_invariant (n0 : nat) (pre0 : list Header) (lds : list (Blob * string)) (st : inventory_state) : Prop := {
  inv_cache : cache_verified st.1.1;
  inv_spent : spent st.1.2 (n0 + length st.2) (pre0 ++ concat st.2);
  inv_listed : Forall2 (λ ld files, verified_listing (layer_key ld) files) lds st.2;
}.

Lemma inventory_layer_invariant reference input load n0 pre0 lds st ld :
  inventory_invariant n0 pre0 lds st →
  yields (inventory_layer gunzip unzstd tar_reader valid_digest verifies done reports reference input load st ld)
    (inventory_invariant n0 pre0 (lds ++ [ld])).
Proof.
  destruct st as [[cache b] layers], ld as [layer diffID]. intros [Hc Hs Hl]. cbn [fst snd] in *.
  unfold inventory_layer. eapply yields_bind; [apply yields_any|]. intros _ _.
  eapply yields_bind.
  { apply yields_attempt, yields_progressStep, inventory_step_verified; [exact Hs|]. intros files. apply Hc. }
  intros r Hr. eapply yields_bind; [apply yields_lift; intros bf Hbf; apply map_err_Ok in Hbf; exact (Hr bf Hbf)|].
  intros [b' files] [Hs' Hv]. apply yields_ok. split; cbn [fst snd] in *.
  - intros key files'. destruct (decide (key = (Blob_Digest layer, Size layer, diffID))) as [->|Hne].
    + rewrite lookup_insert_eq. by intros [= <-].
    + rewrite lookup_insert_ne by done. apply Hc.
  - rewrite length_app, Nat.add_1_r, concat_app. cbn. by rewrite app_nil_r, app_assoc, Nat.add_succ_r.
  - apply Forall2_app; [done|]. by constructor.
Qed.

(** A kit's inventory lists its layers in order. *)
Definition kit_listed (loaded : gmap string LoadedKit) (kit : Unit) (inv : kitInventory) : Prop :=
  inventory_reference inv = Reference kit ∧
  ∃ input, loaded !! Reference kit = Some input ∧
    Forall2 (λ ld files, verified_listing (layer_key ld) files)
      (zip (Layers (Loaded_Manifest input)) (DiffIDs (Loaded_Config input))) (inventory_layers inv) ∧
    length (inventory_layers inv) = length (Layers (Loaded_Manifest input)).

Definition all_layers (invs : list kitInventory) : list (list Header) := flat_map inventory_layers invs.

Record kits_invariant (loaded : gmap string LoadedKit) (kits : list Unit)
    (st : inventory_cache * inventoryBudget * list kitInventory) : Prop := {
  kits_cache : cache_verified st.1.1;
  kits_spent : spent st.1.2 (length (all_layers st.2)) (concat (all_layers st.2));
  kits_listed : Forall2 (kit_listed loaded) kits st.2;
}.

Lemma inventory_kit_invariant loaded kits st kit :
  kits_invariant loaded kits st →
  yields (inventory_kit gunzip unzstd tar_reader valid_digest verifies done reports loaded st kit)
    (kits_invariant loaded (kits ++ [kit])).
Proof.
  destruct st as [[cache b] invs]. intros [Hc Hs Hl]. cbn [fst snd] in *. unfold inventory_kit.
  destruct (loaded !! Reference kit) as [input|] eqn:Ei; [|apply yields_fail].
  destruct (LayerLoader input) as [load|]; [|apply yields_fail].
  case_bool_decide as Hlen; cbn [negb]; [|apply yields_fail].
  eapply yields_bind.
  { apply (yields_for_range _ (inventory_invariant (length (all_layers invs)) (concat (all_layers invs)))).
    - split; cbn; [done| |constructor]. by rewrite Nat.add_0_r, app_nil_r.
    - intros pre ld st _ Hst. by apply inventory_layer_invariant. }
  intros [[cache' b'] layers] [Hc' Hs' Hl']. apply yields_ok. cbn [fst snd] in *.
  assert (all_layers (invs ++ [mkKitInventory (Reference kit) layers]) = all_layers invs ++ layers) as E.
  { unfold all_layers. rewrite flat_map_app. cbn. by rewrite app_nil_r. }
  split; cbn [fst snd]; [done|by rewrite E, length_app, concat_app|].
  apply Forall2_app; [done|]. constructor; [|constructor]. split; [done|]. exists input.
  split; [done|]. split; [done|]. cbn. apply Forall2_length in Hl'. etrans; [symmetry; exact Hl'|]. rewrite length_zip. lia.
Qed.

Lemma inventoryKits_invariant kits loaded :
  yields (inventoryKits gunzip unzstd tar_reader valid_digest verifies done reports kits loaded)
    (λ invs, ∃ resolution b, Resolve kits = Ok resolution ∧
       spent b (length (all_layers invs)) (concat (all_layers invs)) ∧
       Forall2 (kit_listed loaded) (Ordered resolution) invs).
Proof.
  unfold inventoryKits. eapply yields_bind.
  { apply yields_lift. intros r Hr. apply map_err_Ok in Hr. exact Hr. }
  intros resolution Hr. eapply yields_bind.
  { apply (yields_for_range _ (kits_invariant loaded)).
    - split; cbn; [by intros key files; rewrite lookup_empty|apply full_budget_spent|constructor].
    - intros pre kit st _ Hst. by apply inventory_kit_invariant. }
  intros [[cache b] invs] [_ Hs Hl]. apply yields_ok. by exists resolution, b.
Qed.

Lemma total_nonneg f l : (∀ h, (0 ≤ f h)%Z) → (0 ≤ total f l)%Z.
Proof. intros Hf. unfold total. induction l as [|h l IH]; cbn; [done|]. specialize (Hf h). lia. Qed.

(** ** Properties *)

(** C32: however layers repeat and whatever the archives hold, an inventory that is
    answered charged every layer and entry, replays included, and stays within the
    limits on layers, entries, name bytes and implied directories together. *)
Theorem inventory_bounded kits loaded w invs w' :
  inventoryKits gunzip unzstd tar_reader valid_digest verifies done reports kits loaded w = (Ok invs, w') →
  let listed := concat (all_layers invs) in
  (Z.of_nat (length (all_layers invs)) ≤ maxInventoryLayers ∧
   Z.of_nat (length listed) ≤ maxInventoryEntries ∧
   total path_bytes listed ≤ maxInventoryPathBytes ∧
   total path_components listed ≤ maxInventoryComponents)%Z.
Proof.
  intros H0%inventoryKits_invariant. destruct H0 as (resolution & b & _ & [Hl He Hb Hc] & _). cbn zeta. lia.
Qed.

(** C31: the kits listed are those of the resolution in composition order, each with
    every layer of its manifest in order, and each listing has exactly the headers
    of a blob of the layer's size and digest whose uncompressed bytes have its diff
    id and form a whole archive; a cached listing is no exception. *)
Theorem inventory_verified kits loaded w invs w' :
  inventoryKits gunzip unzstd tar_reader valid_digest verifies done reports kits loaded w = (Ok invs, w') →
  ∃ resolution, Resolve kits = Ok resolution ∧ Forall2 (kit_listed loaded) (Ordered resolution) invs.
Proof.
  intros H0%inventoryKits_invariant. destruct H0 as (resolution & b & Hr & _ & Hl). eauto.
Qed.
End Facts.

(** ** A set of kits

    Blobs here are their own digests, and an archive holds one file named after
    its bytes. *)

Definition toy_tar (s : stream) : archive :=
  mkArchive [mkTarEntry (Overlay.entry (delivered s) TypeReg "") (mkStream "" false)] (broken s).
Definition toy_verifies (digest bytes : string) : bool := bool_decide (digest = bytes).

Definition toy_loaded (blobs : list string) : LoadedKit :=
  mkLoadedKit "sha256:0"
    (mkManifest 2 MediaTypeImageManifest "" (mkBlob MediaTypeImageConfig "" 0 None)
       (map (λ b, mkBlob "layer" b (size b) None) blobs) ∅)
    (mkOciImage (mkPlatform "amd64" "linux" "" [] "") (mkImageConfig "" ∅ [] [] [] ∅ "" ∅ "") "layers" blobs [])
    "" "" (Some (λ d, Opened (mkStream (Blob_Digest d) false) true)).
Definition toy_set : gmap string LoadedKit :=
  {[ Reference sample_app := toy_loaded ["bin/app"; "etc/app"];
     Reference sample_tool := toy_loaded ["bin/tool"];
     Reference sample_zlib := toy_loaded ["lib/z"] ]}.

Definition toy_inventory (loaded : gmap string LoadedKit) : result fetch_error (list kitInventory) * world :=
  inventoryKits (H:=merge_ready) (λ _, None) (λ _, None) toy_tar (λ _, true) toy_verifies (λ _, false) true
    sample_set loaded (mkWorld 0 []).

Definition toy_inventories : list kitInventory :=
  [mkKitInventory "reg.io/app:2.1" [[Overlay.entry "bin/app" TypeReg ""]; [Overlay.entry "etc/app" TypeReg ""]];
   mkKitInventory "reg.io/zlib:3" [[Overlay.entry "lib/z" TypeReg ""]];
   mkKitInventory "reg.io/tool:1.2" [[Overlay.entry "bin/tool" TypeReg ""]]].

Lemma inventory_bounded_witness :
  length (events (toy_inventory toy_set).2) = 8 ∧
  (total path_components (concat (all_layers toy_inventories)) ≤ maxInventoryComponents)%Z.
Proof.
  split; [by vm_compute|].
  destruct (toy_inventory toy_set) as [r w'] eqn:E.
  assert (r = Ok toy_inventories) as Hr.
  { change r with (r, w').1. rewrite <-E. by vm_compute. }
  rewrite Hr in E. unfold toy_inventory in E.
  by apply (inventory_bounded _ _ _ _ _ _ _ _ _ _ _ _ E).
Defined.

Lemma inventory_verified_witness :
  ∃ resolution, Resolve (H:=merge_ready) sample_set = Ok resolution ∧ length (Ordered resolution) = 3.
Proof.
  destruct (toy_inventory toy_set) as [r w'] eqn:E.
  assert (r = Ok toy_inventories) as Hr.
  { change r with (r, w').1. rewrite <-E. by vm_compute. }
  rewrite Hr in E. unfold toy_inventory in E.
  destruct (inventory_verified _ _ _ _ _ _ _ _ _ _ _ _ E) as (resolution & H1 & H2).
  exists resolution. split; [done|]. by apply Forall2_length in H2.
Defined.
