(* ===== verification/Collisions.v ===== *)
(** [fetch/assemble_collisions.go]: no kit of a composition replaces, hides or
    deletes what an earlier one put in the filesystem.

    An ownership node is reached by a pointer; the nodes are kept here in a store
    under their chain of names, the innermost first, which is what the parent
    links spell. *)
From stdpp Require Import options.
From S2P Require Import Prelude GoStrings Overlay Oci LayerTar Types Resolve Context Inventory.

(** ** The ownership index *)

Notation pointer := (list string) (only parsing).
Record ownershipNode := mkNode { node_kit : string; node_directory : bool; descendant : option pointer }.
Notation ownership := (gmap (list string) ownershipNode) (only parsing).

Definition empty_node : ownershipNode := mkNode "" false None.
Definition new_owners : ownership := {[ [] := empty_node ]}.

(** [ownershipNode.path]. *)
Definition node_path (p : pointer) : string := "/" +:+ join "/" (rev p).

(** A child by name: its pointer, when there is such a node. *)
Definition child_of (owners : ownership) (p : pointer) (name : string) : option pointer :=
  if bool_decide (is_Some (owners !! (name :: p))) then Some (name :: p) else None.

(** ** One kit against the lower ones *)

Definition fileCollision (path lower upper : string) : fetch_error := FileCollision path lower upper.

Definition check_node (owners : ownership) (reference : string) (entry : Entry) (node : pointer) :
    result fetch_error () :=
  let n := default empty_node (owners !! node) in
  if negb (bool_decide (node_kit n = "")) && (negb (Directory entry) || negb (node_directory n))
  then Err (fileCollision (node_path node) (node_kit n) reference)
  else
    match descendant n with
    | Some previous =>
        if negb (Directory entry) || Entry_Opaque entry
        then Err (fileCollision (node_path previous)
                    (node_kit (default empty_node (owners !! previous))) reference)
        else Ok ()
    | None => Ok ()
    end.

(** The visitor of the first walk; [stack] has the nodes on the way to the entry,
    [None] where the lower kits have nothing. *)
Definition check_entry (owners : ownership) (reference : string) (stack : list (option pointer)) (entry : Entry) :
    result fetch_error (list (option pointer)) :=
  let '(node, stack) :=
    match Depth entry with
    | O => (Some [], stack)
    | S d =>
        let parent := default None (stack !! d) in
        let node := p ← parent; child_of owners p (Entry_Name entry) in
        (node, take (S d) stack ++ [node])
    end in
  match node with
  | None => Ok stack
  | Some p => _ ← check_node owners reference entry p; Ok stack
  end.

(** ** Claiming its paths *)

Definition set_descendant (owners : ownership) (parent node : pointer) : ownership :=
  match owners !! parent with
  | Some n =>
      match descendant n with
      | None => <[parent := mkNode (node_kit n) (node_directory n) (Some node)]> owners
      | Some _ => owners
      end
  | None => owners
  end.

Definition claim_entry (reference : string) (st : ownership * list pointer) (entry : Entry) :
    ownership * list pointer :=
  let '(owners, stack) := st in
  match Depth entry with
  | O => st
  | S d =>
      let stack := take (S d) stack in
      if Entry_Whiteout entry then (owners, stack)
      else
        let parent := default [] (stack !! d) in
        let node := Entry_Name entry :: parent in
        let owners :=
          match owners !! node with
          | Some _ => owners
          | None => <[node := mkNode reference (Directory entry) None]> owners
          end in
        (set_descendant owners parent node, stack ++ [node])
  end.

(** ** [checkFileCollisions] *)

Section Collisions.
Context (done : nat → bool).

Definition add_header (reference : string) (layer : Layer) (e : inventoryEntry) : M fetch_error Layer :=
  poll Canceled done;;
  let '(layer, added) := Add layer (header e) in
  if added then ok layer else fail (CannotExtract reference (Header_Name (header e))).

Definition add_layer (reference : string) (model : FS) (headers : list inventoryEntry) : M fetch_error FS :=
  layer ⇠ for_range (add_header reference) (NewLayer model) headers;
  ok (Apply model layer).

Definition collide_kit (owners : ownership) (inventory : kitInventory) : M fetch_error ownership :=
  let reference := inventory_reference inventory in
  poll Canceled done;;
  model ⇠ for_range (add_layer reference) New (inventory_layers inventory);
  _ ⇠ for_range (λ stack entry, poll Canceled done;; lift (check_entry owners reference stack entry))
        [Some []] (Walk model);
  st ⇠ for_range (λ st entry, poll Canceled done;; ok (claim_entry reference st entry))
        (owners, [[]]) (Walk model);
  ok st.1.

Definition checkFileCollisions (inventories : list kitInventory) : M fetch_error () :=
  _ ⇠ for_range collide_kit new_owners inventories;
  ok tt.
End Collisions.

(** ** The layer validator ([fetch/layer_validator.go]) *)

Section Validator.
Context (gunzip unzstd : stream → option stream) (tar_reader : stream → archive).
Context (valid_digest : string → bool) (verifies : string → string → bool).
Context `{ReadySort} (done : nat → bool) (reports : bool).

Definition DefaultLayerValidator (kits : list Unit) (loaded : gmap string LoadedKit) : M fetch_error () :=
  inventories ⇠ inventoryKits gunzip unzstd tar_reader valid_digest verifies done reports kits loaded;
  progressStep Canceled done reports (mkProgress StageCollisions ProgressStarted "" "")
    (checkFileCollisions done inventories).
End Validator.

(** ** Samples *)

Definition collisions_of (kits : list (string * list Header)) : result fetch_error () :=
  (checkFileCollisions (λ _, false) (map (λ kh, mkKitInventory kh.1 [kh.2]) kits) (mkWorld 0 [])).1.
Definition a_file (name : string) : Header := Overlay.entry name "0" "".

Example collisions_samples :
  map collisions_of
    [ [("a", [a_file "bin/x"]); ("b", [a_file "bin/y"; a_file "etc/z"])];
      [("a", [a_file "bin/x"]); ("b", [a_file "bin/x"])];
      [("a", [a_file "bin/x"]); ("b", [a_file "bin/.wh.x"])];
      [("a", [a_file "bin/x"]); ("b", [a_file "bin/.wh..wh..opq"])];
      [("a", [a_file "opt/d/x"]); ("b", [a_file "opt/y"]); ("c", [a_file "opt"])] ] =
  [Ok tt; Err (FileCollision "/bin/x" "a" "b"); Err (FileCollision "/bin/x" "a" "b");
   Err (FileCollision "/bin/x" "a" "b"); Err (FileCollision "/opt" "a" "c")].
Proof. by vm_compute. Qed.
