(* ===== verification/CollisionsFacts.v ===== *)
(** The collision check of [fetch/assemble_collisions.go] is exact, and a
    composition it accepts shows every kit's files as the kit put them. *)
From stdpp Require Import options.
From S2P Require Import Prelude GoStrings Overlay OverlayFacts Context Inventory Collisions.

(** ** What the check promises *)

(** What a kit puts in the filesystem; the paths it deletes are not claimed. *)
Definition claims (t : fsNode) (p : list string) (k : shown) : Prop :=
  shown_at t p = Some k ∧ k ≠ ADeletion.

(** An upper kit leaves a lower one alone: it hides no path the lower one claims,
    and both have something at a path only when both have directories there. *)
Definition compatible (lower upper : fsNode) : Prop :=
  ∀ p k, p ≠ [] → claims lower p k →
    covers (removelast p) upper = false ∧
    ∀ k', shown_at upper p = Some k' → k = ADirectory ∧ k' = ADirectory.

(** ** Walking with pointers *)

Definition is_whiteout (n : fsNode) : bool := match n with Whiteout => true | _ => false end.
Definition entry_of (name : string) (depth : nat) (n : fsNode) : Entry :=
  mkEntry name depth (is_dir n) (is_whiteout n) (is_opaque n).

(** The nodes of a tree with their pointers, in the order of the walk. *)
Fixpoint nodes (q : list string) (n : fsNode) : list (list string * fsNode) :=
  (q, n) :: match n with
            | Dir _ _ ch => flat_map (λ '(name, c), nodes (name :: q) c) ch
            | _ => []
            end.

Lemma nodes_find q n p m :
  wf n → (p, m) ∈ nodes q n ↔ ∃ r, p = rev r ++ q ∧ find_at r n = Some m.
Proof.
  revert q p m. induction n as [mt o ch IH| | |] using fsNode_ind'; intros q p m Hw; cbn [nodes];
    rewrite elem_of_cons.
  2-4: split; [intros [[= -> ->]|H]; [by exists []|by inversion H]|];
       intros ([|x r] & -> & Hr); cbn in Hr; [injection Hr as <-; by left|done].
  split.
  - intros [[= -> ->]|H]; [by exists []|]. apply elem_of_flat_map in H as ([name c] & Hc & H).
    rewrite Forall_forall in IH. pose proof (IH _ Hc) as IHc. cbn in IHc.
    pose proof (elem_get _ _ _ (wf_NoDup _ Hw) Hc) as Hg.
    apply IHc in H as (r & -> & Hr); [|by apply (wf_child _ _ _ Hw Hg)].
    exists (name :: r). cbn. rewrite <-app_assoc. split; [done|]. unfold child. cbn [children] in *. by rewrite Hg.
  - intros ([|x r] & -> & Hr); [injection Hr as <-; by left|]. right. cbn in Hr.
    destruct (get x ch) as [c|] eqn:Ec; cbn in Hr; [|done].
    change (child x (Dir mt o ch) = Some c) in Ec.
    pose proof (wf_child _ _ _ Hw Ec) as [_ Hwc]. apply get_Some_elem in Ec.
    apply elem_of_flat_map. exists (x, c). split; [done|]. rewrite Forall_forall in IH.
    apply (IH _ Ec); [done|]. exists r. cbn. by rewrite <-app_assoc.
Qed.

(** ** Folds that may fail *)

Fixpoint fold_result {E A S} (f : S → A → result E S) (s : S) (l : list A) : result E S :=
  match l with
  | [] => Ok s
  | x :: l => s ← f s x; fold_result f s l
  end.

Lemma fold_result_app {E A S} (f : S → A → result E S) s l l' :
  fold_result f s (l ++ l') = (s ← fold_result f s l; fold_result f s l').
Proof. revert s. induction l as [|x l IH]; intros s; [done|]. cbn. destruct (f s x); cbn; [apply IH|done]. Qed.

Section Polling.
Context (done : nat → bool).

(** A computation that answers as a pure one does unless it is cancelled. *)
Definition runs {A} (m : M fetch_error A) (r : result fetch_error A) : Prop :=
  ∀ w, (m w).1 = r ∨ ((m w).1 = Err Canceled ∧ ∃ n, done n = true).

Lemma runs_ok {A} (a : A) : runs (ok a) (Ok a).
Proof. by left. Qed.
Lemma runs_lift {A} (r : result fetch_error A) : runs (lift r) r.
Proof. by left. Qed.
Lemma runs_bind {A B} (m : M fetch_error A) r (f : A → M fetch_error B) (g : A → result fetch_error B) :
  runs m r → (∀ a, r = Ok a → runs (f a) (g a)) → runs (bind m f) (a ← r; g a).
Proof.
  intros Hm Hf w. unfold bind. specialize (Hm w). destruct (m w) as [r' w']. cbn in Hm.
  destruct Hm as [->|[-> Hd]]; [|by right]. destruct r as [a|e]; cbn; [by apply Hf|by left].
Qed.
Lemma runs_poll {A} (m : M fetch_error A) r : runs m r → runs (poll Canceled done;; m) r.
Proof.
  intros Hm w. unfold bind, poll. destruct (done (polls w)) eqn:E; cbn; [right; eauto|]. apply Hm.
Qed.
Lemma runs_for_range {A S} (f : S → A → M fetch_error S) g s l :
  (∀ s x, runs (f s x) (g s x)) → runs (for_range f s l) (fold_result g s l).
Proof.
  intros Hf. revert s. induction l as [|x l IH]; intros s; [apply runs_ok|].
  cbn. apply runs_bind; [apply Hf|]. intros. apply IH.
Qed.
End Polling.

(** ** The walk as a list of nodes *)

Definition entry_at (pm : list string * fsNode) : Entry := entry_of (hd "" pm.1) (length pm.1) pm.2.

Lemma walk_nodes q n : walk_entries (hd "" q) (length q) n = map entry_at (nodes q n).
Proof.
  revert q. induction n as [m o ch IH| | |] using fsNode_ind'; intros q; [|done..].
  cbn [walk_entries nodes map]. f_equal. induction IH as [|[name c] ch Hc _ IHch]; [done|].
  cbn [flat_map]. rewrite map_app, <-IHch. f_equal. apply (Hc (name :: q)).
Qed.

Lemma Walk_nodes o : Walk o = map entry_at (nodes [] (root o)).
Proof. apply (walk_nodes []). Qed.

(** ** The first walk *)

Definition closed (owners : gmap (list string) ownershipNode) : Prop :=
  is_Some (owners !! []) ∧ ∀ x p, is_Some (owners !! (x :: p)) → is_Some (owners !! p).
Definition known (owners : gmap (list string) ownershipNode) (p : list string) : option (list string) :=
  if bool_decide (is_Some (owners !! p)) then Some p else None.

(** The stack while the walk is under a node. *)
Fixpoint frames {A} (f : list string → A) (q : list string) : list A :=
  match q with [] => [f []] | x :: q => frames f q ++ [f (x :: q)] end.

Lemma frames_length {A} (f : list string → A) q : length (frames f q) = S (length q).
Proof. induction q as [|x q IH]; [done|]. cbn. rewrite length_app, IH. cbn. lia. Qed.

Lemma frames_last {A} (f : list string → A) q : frames f q !! length q = Some (f q).
Proof.
  destruct q as [|x q]; [done|]. cbn [frames length].
  by rewrite lookup_app_r, frames_length, Nat.sub_diag by (rewrite frames_length; lia).
Qed.

Lemma frames_take {A} (f : list string → A) x q stack :
  take (S (length (x :: q))) stack = frames f (x :: q) → take (S (length q)) stack = frames f q.
Proof.
  intros H. cbn [length frames] in H. apply (f_equal (take (S (length q)))) in H.
  rewrite take_take, Nat.min_l in H by lia. rewrite H, take_app_le by (rewrite frames_length; lia).
  apply take_ge. by rewrite frames_length.
Qed.

Lemma take_frame {A} (f : list string → A) q stack :
  take (S (length q)) stack = frames f q → stack !! length q = Some (f q).
Proof. intros H. rewrite <-(lookup_take_lt _ (S (length q))) by lia. rewrite H. apply frames_last. Qed.

(** The stack a walk expects on coming to a node, and leaves behind. *)
Definition arrives {A} (f : list string → A) (stack : list A) (q : list string) : Prop :=
  match q with [] => take 1 stack = frames f [] | _ :: q => take (S (length q)) stack = frames f q end.
Definition leaves {A} (f : list string → A) (stack : list A) (q : list string) : Prop :=
  take (S (length q)) stack = frames f q.

Lemma leaves_arrives {A} (f : list string → A) stack x q : leaves f stack q → arrives f stack (x :: q).
Proof. done. Qed.
Lemma leaves_up {A} (f : list string → A) stack x q : leaves f stack (x :: q) → leaves f stack q.
Proof. apply frames_take. Qed.

Section Check.
Context (owners : gmap (list string) ownershipNode) (reference : string).

Definition fine (pm : list string * fsNode) : Prop :=
  is_Some (owners !! pm.1) → check_node owners reference (entry_at pm) pm.1 = Ok tt.

Lemma check_entry_at stack p m :
  closed owners → arrives (known owners) stack p →
  match check_entry owners reference stack (entry_at (p, m)) with
  | Ok stack' => leaves (known owners) stack' p ∧ fine (p, m)
  | Err _ => ¬ fine (p, m)
  end.
Proof.
  intros Hclosed Ha. unfold check_entry, entry_at. cbn [Depth entry_of fst snd].
  destruct p as [|x p]; cbn [length].
  - change (entry_of (hd "" []) 0 m) with (entry_at ([], m)). unfold fine. cbn [fst].
    destruct (check_node owners reference (entry_at ([], m)) []) as [[]|e] eqn:E; cbn; [split; [exact Ha|done]|].
    intros Hf. specialize (Hf (proj1 Hclosed)). congruence.
  - cbn in Ha. rewrite (take_frame _ _ _ Ha).
    change (default None (Some (known owners p))) with (known owners p).
    change (Entry_Name (entry_of (hd "" (x :: p)) (S (length p)) m)) with x.
    assert (known owners p ≫= (λ q, child_of owners q x) = known owners (x :: p)) as Hk.
    { unfold known at 1. case_bool_decide as Hp; [done|]. cbn. unfold known.
      rewrite bool_decide_eq_false_2; [done|]. intros Hx. by apply Hp, (proj2 Hclosed x). }
    assert (take (S (length p)) stack ++ [known owners (x :: p)] = frames (known owners) (x :: p)) as Hs
      by by rewrite Ha.
    assert (∀ st, st = frames (known owners) (x :: p) → leaves (known owners) st (x :: p)) as Hleave.
    { intros st ->. unfold leaves. apply take_ge. by rewrite frames_length. }
    rewrite Hk.
    unfold known at 1. case_bool_decide as Hx.
    + change (entry_of (hd "" (x :: p)) (S (length p)) m) with (entry_at (x :: p, m)).
      destruct (check_node owners reference (entry_at (x :: p, m)) (x :: p)) as [[]|e] eqn:E; cbn.
      * split; [by apply Hleave|]. by intros _.
      * intros Hf. specialize (Hf Hx). cbn in Hf. congruence.
    + split; [by apply Hleave|]. intros Hs'. by destruct Hx.
Qed.

Lemma check_nodes n q stack :
  closed owners → arrives (known owners) stack q →
  match fold_result (check_entry owners reference) stack (map entry_at (nodes q n)) with
  | Ok stack' => leaves (known owners) stack' q ∧ Forall fine (nodes q n)
  | Err _ => ¬ Forall fine (nodes q n)
  end.
Proof.
  intros Hclosed. revert q stack.
  induction n as [m o ch IH| |link|] using fsNode_ind'; intros q stack Ha; cbn [nodes map fold_result].
  all: match goal with
       | Hc : closed _, H : arrives _ ?st ?p |- context [entry_at (?p, ?n)] =>
           pose proof (check_entry_at st p n Hc H) as Hq
       end.
  2-4: destruct (check_entry _ _ _ _); cbn; [split; [tauto|by constructor; [tauto|]]|].
  2-4: by intros Hf; apply Hq; inversion Hf.
  destruct (check_entry _ _ _ _) as [stack1|e]; cbn [mbind result_bind].
  2: { intros Hf. apply Hq. by inversion Hf. }
  destruct Hq as [Hl Hfine].
  cut (match fold_result (check_entry owners reference) stack1
         (map entry_at (flat_map (λ '(name, c), nodes (name :: q) c) ch)) with
       | Ok stack' => leaves (known owners) stack' q ∧ Forall fine (flat_map (λ '(name, c), nodes (name :: q) c) ch)
       | Err _ => ¬ Forall fine (flat_map (λ '(name, c), nodes (name :: q) c) ch)
       end).
  { destruct (fold_result _ _ _); [intros [? ?]; split; [done|by constructor]|].
    intros Hn Hf. apply Hn. by inversion Hf. }
  clear Hfine Ha. revert stack1 Hl. induction IH as [|[name c] ch Hc _ IHch]; intros stack1 Hl; [by cbn; split|].
  cbn [flat_map]. rewrite map_app, fold_result_app.
  specialize (Hc (name :: q) stack1 (leaves_arrives _ _ name _ Hl)). cbn [snd] in Hc.
  destruct (fold_result _ stack1 _) as [stack2|e]; cbn [mbind result_bind].
  - destruct Hc as [Hl2 Hf2]. specialize (IHch stack2 (leaves_up _ _ _ _ Hl2)).
    destruct (fold_result _ stack2 _); [destruct IHch; split; [done|by apply Forall_app]|].
    rewrite Forall_app. tauto.
  - rewrite Forall_app. tauto.
Qed.
End Check.

(** ** The second walk *)

Section Claim.
Context (reference : string).

(** A node claimed through its pointer. *)
Definition claim_at (owners : gmap (list string) ownershipNode) (pm : list string * fsNode) :
    gmap (list string) ownershipNode :=
  match pm.1 with
  | [] => owners
  | _ :: parent =>
      if is_whiteout pm.2 then owners
      else
        set_descendant
          match owners !! pm.1 with
          | Some _ => owners
          | None => <[pm.1 := mkNode reference (is_dir pm.2) None]> owners
          end parent pm.1
  end.

Lemma claim_entry_at owners stack p m :
  arrives id stack p →
  ∃ stack', claim_entry reference (owners, stack) (entry_at (p, m)) = (claim_at owners (p, m), stack') ∧
    (is_whiteout m = false → leaves id stack' p) ∧ (p ≠ [] → leaves id stack' (tl p)).
Proof.
  intros Ha. unfold claim_entry, entry_at. cbn [Depth entry_of fst snd].
  destruct p as [|x p]; cbn [length].
  { exists stack. repeat split; [|done]. by intros _. }
  cbn in Ha. unfold claim_at. cbn [Entry_Whiteout entry_of fst snd].
  destruct (is_whiteout m).
  { eexists. split; [done|]. split; [done|]. intros _. cbn [tl]. unfold leaves.
    by rewrite take_take, Nat.min_id. }
  rewrite lookup_take_lt, (take_frame _ _ _ Ha) by lia.
  eexists. split; [done|]. rewrite Ha. split.
  - intros _. unfold leaves. cbn [frames default]. apply take_ge.
    rewrite length_app, frames_length. cbn. lia.
  - intros _. cbn [tl]. unfold leaves. rewrite take_app_le by (rewrite frames_length; lia).
    apply take_ge. by rewrite frames_length.
Qed.

Lemma claim_nodes n q owners stack :
  arrives id stack q →
  ∃ stack', foldl (claim_entry reference) (owners, stack) (map entry_at (nodes q n)) =
              (foldl claim_at owners (nodes q n), stack') ∧
    (is_whiteout n = false → leaves id stack' q) ∧ (q ≠ [] → leaves id stack' (tl q)).
Proof.
  revert q owners stack. induction n as [m o ch IH| |link|] using fsNode_ind'; intros q owners stack Ha;
    cbn [nodes map foldl].
  2-4: match goal with |- context [entry_at (?p, ?n)] =>
         destruct (claim_entry_at owners stack p n Ha) as (stack1 & -> & H1 & H2) end; eauto.
  destruct (claim_entry_at owners stack q (Dir m o ch) Ha) as (stack1 & -> & H1 & _).
  specialize (H1 eq_refl). generalize (claim_at owners (q, Dir m o ch)). clear owners stack Ha. intros owners.
  cut (∃ stack', foldl (claim_entry reference) (owners, stack1)
      (map entry_at (flat_map (λ '(name, c), nodes (name :: q) c) ch)) =
      (foldl claim_at owners (flat_map (λ '(name, c), nodes (name :: q) c) ch), stack') ∧ leaves id stack' q).
  { intros (stack' & E & Hl). exists stack'. split; [done|]. split; [done|].
    intros Hq. destruct q as [|x q]; [done|]. by apply (leaves_up _ _ x). }
  revert owners stack1 H1. induction IH as [|[name c] ch Hc _ IHch]; intros owners stack1 H1; [by exists stack1|].
  cbn [flat_map]. rewrite map_app, !foldl_app.
  destruct (Hc (name :: q) owners stack1 (leaves_arrives _ _ name _ H1)) as (stack2 & E2 & _ & H2).
  cbn [snd] in E2. rewrite E2. apply IHch. by apply H2.
Qed.

(** *** What claiming keeps *)

(** A node records a descendant exactly when it has a child. *)
Definition described (owners : gmap (list string) ownershipNode) : Prop :=
  ∀ p n, owners !! p = Some n → (is_Some (descendant n) ↔ ∃ x, is_Some (owners !! (x :: p))).

Lemma set_descendant_lookup owners parent node p :
  set_descendant owners parent node !! p =
  (λ n, if decide (p = parent)
        then match descendant n with None => mkNode (node_kit n) (node_directory n) (Some node) | Some _ => n end
        else n) <$> owners !! p.
Proof.
  unfold set_descendant. destruct (owners !! parent) as [n|] eqn:E.
  - destruct (descendant n) eqn:Ed.
    + destruct (decide (p = parent)) as [->|]; [rewrite E; cbn; by rewrite Ed|]. by destruct (owners !! p).
    + destruct (decide (p = parent)) as [->|]; [rewrite lookup_insert_eq, E; cbn; by rewrite Ed|].
      rewrite lookup_insert_ne by done. by destruct (owners !! p).
  - destruct (decide (p = parent)) as [->|]; [by rewrite E|]. by destruct (owners !! p).
Qed.

Lemma claim_at_dom owners p m q :
  is_Some (claim_at owners (p, m) !! q) ↔
  is_Some (owners !! q) ∨ (p ≠ [] ∧ is_whiteout m = false ∧ q = p).
Proof.
  unfold claim_at. cbn [fst snd]. destruct p as [|x p]; [naive_solver|].
  destruct (is_whiteout m); [naive_solver|]. rewrite set_descendant_lookup, fmap_is_Some.
  destruct (owners !! (x :: p)) as [n|] eqn:E.
  - split; [by left|]. intros [?|(_ & _ & ->)]; [done|by rewrite E].
  - destruct (decide (q = x :: p)) as [->|]; [rewrite lookup_insert_eq; naive_solver|].
    rewrite lookup_insert_ne by done. naive_solver.
Qed.

Lemma claim_at_kept owners pm q n :
  owners !! q = Some n →
  ∃ n', claim_at owners pm !! q = Some n' ∧ node_kit n' = node_kit n ∧ node_directory n' = node_directory n.
Proof.
  intros Hq. unfold claim_at. destruct pm as [p m]. cbn [fst snd].
  destruct p as [|x p]; [eauto|]. destruct (is_whiteout m); [eauto|].
  rewrite set_descendant_lookup.
  assert (match owners !! (x :: p) with
    | Some _ => owners | None => <[x :: p:=mkNode reference (is_dir m) None]> owners end !! q = Some n) as ->.
  { destruct (owners !! (x :: p)) eqn:E; [done|]. by rewrite lookup_insert_ne by congruence. }
  eexists. split; [done|]. case_decide; [|done]. by destruct (descendant n).
Qed.

Lemma claim_at_new owners p m :
  owners !! p = None → p ≠ [] → is_whiteout m = false →
  ∃ n', claim_at owners (p, m) !! p = Some n' ∧ node_kit n' = reference ∧ node_directory n' = is_dir m.
Proof.
  intros Hn Hp Hw. unfold claim_at. cbn [fst snd]. destruct p as [|x p]; [done|]. rewrite Hw, Hn.
  rewrite set_descendant_lookup, lookup_insert_eq. eexists. split; [done|].
  rewrite decide_False; [done|]. intros E. apply (f_equal length) in E. cbn in E. lia.
Qed.

Lemma claim_at_described owners p m :
  closed owners → described owners → (p ≠ [] → is_Some (owners !! tl p)) →
  closed (claim_at owners (p, m)) ∧ described (claim_at owners (p, m)).
Proof.
  intros [Hr Hc] Hd Hp. split.
  - split; [apply claim_at_dom; by left|]. intros x q. rewrite !claim_at_dom. intros [H|(_ & _ & <-)].
    + left. by eapply Hc.
    + left. by apply Hp.
  - intros q n' Hq. setoid_rewrite claim_at_dom. unfold claim_at in Hq. cbn [fst snd] in Hq.
    destruct p as [|x p]; [rewrite (Hd q n' Hq); naive_solver|]. cbn [tl] in Hp. specialize (Hp ltac:(done)).
    destruct (is_whiteout m); [rewrite (Hd q n' Hq); naive_solver|].
    rewrite set_descendant_lookup in Hq. apply fmap_Some in Hq as (n & Hq & ->).
    assert (owners !! q = Some n ∨ owners !! (x :: p) = None ∧ q = x :: p ∧ n = mkNode reference (is_dir m) None) as Hn.
    { destruct (owners !! (x :: p)) eqn:E; [by left|].
      destruct (decide (q = x :: p)) as [->|]; [rewrite lookup_insert_eq in Hq; naive_solver|].
      rewrite lookup_insert_ne in Hq by done. by left. }
    destruct (decide (q = p)) as [->|Hne].
    + split; [intros _; exists x; by right|]. intros _. destruct (descendant n) eqn:Ed; cbn; rewrite ?Ed; eauto.
    + destruct Hn as [Hn|(Hnone & -> & ->)].
      * rewrite (Hd q n Hn). split; [naive_solver|]. intros [y [?|(_ & _ & [= _ ->])]]; [eauto|done].
      * cbn. split; [by intros [? ?]|]. intros [y [Hy|(_ & _ & E)]].
        -- apply Hc in Hy. rewrite Hnone in Hy. by destruct Hy.
        -- apply (f_equal length) in E. cbn in E. lia.
Qed.

Lemma claims_described n q owners :
  closed owners → described owners → (q ≠ [] → is_Some (owners !! tl q)) →
  closed (foldl claim_at owners (nodes q n)) ∧ described (foldl claim_at owners (nodes q n)) ∧
  ∀ p, is_Some (owners !! p) → is_Some (foldl claim_at owners (nodes q n) !! p).
Proof.
  revert q owners. induction n as [m o ch IH| |link|] using fsNode_ind'; intros q owners Hc Hd Hq; cbn [nodes foldl].
  2-4: match goal with Hq : ?p ≠ [] → _, Hc : closed ?ow, Hd : described ?ow |- context [(?p, ?n)] =>
    destruct (claim_at_described ow p n Hc Hd Hq) as [H1 H2] end;
    (split; [done|]); (split; [done|]); intros p Hp; apply claim_at_dom; by left.
  destruct (claim_at_described owners q (Dir m o ch) Hc Hd Hq) as [H1 H2].
  assert (is_Some (claim_at owners (q, Dir m o ch) !! q)) as Hk.
  { apply claim_at_dom. destruct q as [|x q]; [left; apply Hc|by right]. }
  assert (∀ p, is_Some (owners !! p) → is_Some (claim_at owners (q, Dir m o ch) !! p)) as Hm.
  { intros p Hp. apply claim_at_dom. by left. }
  revert H1 H2 Hk Hm. generalize (claim_at owners (q, Dir m o ch)). intros o1 H1 H2 Hk Hm.
  cut (closed (foldl claim_at o1 (flat_map (λ '(name, c), nodes (name :: q) c) ch)) ∧
    described (foldl claim_at o1 (flat_map (λ '(name, c), nodes (name :: q) c) ch)) ∧
    ∀ p, is_Some (o1 !! p) → is_Some (foldl claim_at o1 (flat_map (λ '(name, c), nodes (name :: q) c) ch) !! p)).
  { intros (? & ? & H3). split; [done|]. split; [done|]. intros p Hp. by apply H3, Hm. }
  clear Hm Hc Hd Hq. revert o1 H1 H2 Hk. induction IH as [|[name c] ch Hc _ IHch]; intros o1 H1 H2 Hk; [done|].
  cbn [flat_map]. rewrite foldl_app.
  destruct (Hc (name :: q) o1 H1 H2) as (H3 & H4 & H5); [done|]. cbn [snd] in *.
  destruct (IHch (foldl claim_at o1 (nodes (name :: q) c)) H3 H4) as (H6 & H7 & H8); [by apply H5|].
  split; [done|]. split; [done|]. intros p Hp. by apply H8, H5.
Qed.
End Claim.

(** ** Claims and covers *)

Lemma claims_find t p k : claims t p k ↔ ∃ m, find_at p t = Some m ∧ is_whiteout m = false ∧ k = shows m.
Proof.
  unfold claims, shown_at. destruct (find_at p t) as [m|]; cbn; [|naive_solver].
  split; [intros [[= <-] Hk]; exists m; by destruct m|].
  intros (m' & [= ->] & Hw & ->). by destruct m'.
Qed.

(** Above what a tree shows there are directories. *)
Lemma claims_above t q r k : shown_at t (q ++ r) = Some k → r ≠ [] → claims t q ADirectory.
Proof.
  unfold shown_at. rewrite find_at_app. intros H Hr. apply claims_find.
  destruct (find_at q t) as [n|]; [|done]. exists n. cbn in H.
  destruct r as [|x r]; [done|]. cbn in H. unfold child in H. by destruct n.
Qed.

Lemma covers_spec p t :
  covers p t = true ↔
  ∃ q m, q `prefix_of` p ∧ find_at q t = Some m ∧ (is_dir m = false ∨ is_opaque m = true).
Proof.
  revert t. induction p as [|x p IH]; intros t.
  - destruct t as [m o ch| | |]; cbn; rewrite ?orb_false_r.
    2-4: split; [intros _; exists []|done]; eexists; (split; [apply prefix_nil|]); (split; [done|]); by left.
    split.
    + intros ->. exists [], (Dir m true ch). split; [apply prefix_nil|]. split; [done|by right].
    + intros (q & n & Hq & Hn & H). apply prefix_nil_inv in Hq as ->. injection Hn as <-. naive_solver.
  - destruct t as [m o ch| | |]; cbn.
    2-4: split; [intros _; exists []|done]; eexists; (split; [apply prefix_nil|]); (split; [done|]); by left.
    rewrite orb_true_iff. split.
    + intros [->|H]; [exists [], (Dir m true ch); split; [apply prefix_nil|]; split; [done|by right]|].
      destruct (get x ch) as [c|] eqn:E; [|done]. apply IH in H as (q & n & Hq & Hn & H).
      exists (x :: q), n. split; [by apply prefix_cons|]. split; [|done]. cbn. unfold child. cbn. by rewrite E.
    + intros (q & n & Hq & Hn & H). destruct q as [|y q].
      { injection Hn as <-. left. naive_solver. }
      pose proof (prefix_cons_inv_1 _ _ _ _ Hq) as ->. apply prefix_cons_inv_2 in Hq.
      cbn in Hn. unfold child in Hn. cbn in Hn. destruct (get x ch) as [c|]; [|done].
      right. apply IH. by exists q, n.
Qed.

Lemma removelast_snoc {A} (l : list A) x : removelast (l ++ [x]) = l.
Proof. apply removelast_last. Qed.

Lemma prefix_snoc_inv {A} (q p : list A) x : q `prefix_of` p ++ [x] → q = p ++ [x] ∨ q `prefix_of` p.
Proof.
  intros [r Hr]. destruct r as [|y r _] using rev_ind; [left; by rewrite app_nil_r in Hr|].
  right. rewrite app_assoc in Hr. apply app_inj_tail in Hr as [-> _]. by exists r.
Qed.

Lemma covers_removelast p t : shown_at t p = None → covers p t = covers (removelast p) t.
Proof.
  intros Hp. destruct p as [|x p _] using rev_ind; [done|]. rewrite removelast_snoc.
  apply eq_bool_prop_intro. rewrite !Is_true_true, !covers_spec. split.
  - intros (q & m & Hq & Hm & H). exists q, m. split; [|done].
    destruct (decide (q = p ++ [x])) as [->|Hne]; [unfold shown_at in Hp; by rewrite Hm in Hp|].
    by destruct (prefix_snoc_inv q p x Hq).
  - intros (q & m & Hq & Hm & H). exists q, m. split; [by apply prefix_app_r|done].
Qed.

(** ** The index of the kits accepted so far *)

Record indexes (owners : gmap (list string) ownershipNode) (ts : list fsNode) : Prop := {
  ix_closed : closed owners;
  ix_described : described owners;
  ix_dom p : p ≠ [] → is_Some (owners !! rev p) ↔ ∃ t k, t ∈ ts ∧ claims t p k;
  ix_root n : owners !! [] = Some n → node_kit n = "";
  ix_node p n t k : p ≠ [] → owners !! rev p = Some n → t ∈ ts → claims t p k →
    node_kit n ≠ "" ∧ (node_directory n = true ↔ k = ADirectory);
}.

Lemma rev_nil_iff {A} (l : list A) : rev l = [] ↔ l = [].
Proof. split; [|by intros ->]. intros H. by rewrite <-(rev_involutive l), H. Qed.

Lemma indexes_new : indexes new_owners [].
Proof.
  unfold new_owners. split.
  - split; [by rewrite lookup_singleton_eq|]. intros x p. by rewrite lookup_singleton_ne by done; intros [? ?].
  - intros p n H. destruct (decide (p = [])) as [->|Hp].
    + rewrite lookup_singleton_eq in H. injection H as <-. cbn. split; [by intros [? ?]|].
      intros [x Hx]. rewrite lookup_singleton_ne in Hx by done. by destruct Hx.
    + by rewrite lookup_singleton_ne in H by done.
  - intros p Hp. rewrite lookup_singleton_ne by (intros E; by apply Hp, rev_nil_iff).
    split; [by intros [? ?]|]. set_solver.
  - intros n. rewrite lookup_singleton_eq. by intros [= <-].
  - set_solver.
Qed.

Lemma nodes_root t p m : wf t → (rev p, m) ∈ nodes [] t ↔ find_at p t = Some m.
Proof.
  intros Hw. rewrite nodes_find by done. setoid_rewrite app_nil_r. split.
  - intros (r & Hr & Hf). apply (f_equal (@rev string)) in Hr. by rewrite !rev_involutive in Hr; subst.
  - intros Hf. by exists p.
Qed.

Lemma nodes_root_all t (P : list string * fsNode → Prop) :
  wf t → Forall P (nodes [] t) ↔ ∀ p m, find_at p t = Some m → P (rev p, m).
Proof.
  intros Hw. rewrite Forall_forall. split.
  - intros H p m Hf. by apply H, nodes_root.
  - intros H [q m] Hq. rewrite <-(rev_involutive q) in Hq |- *. by apply H, nodes_root.
Qed.

Section Index.
Context (owners : gmap (list string) ownershipNode) (ts : list fsNode) (reference : string).

(** When a node of the upper kit is in order. *)
Lemma check_node_ok p m n :
  owners !! rev p = Some n →
  check_node owners reference (entry_at (rev p, m)) (rev p) = Ok tt ↔
  (node_kit n ≠ "" → is_dir m = true ∧ node_directory n = true) ∧
  (is_Some (descendant n) → is_dir m = true ∧ is_opaque m = false).
Proof.
  intros Hn. unfold check_node. rewrite Hn. cbn [default from_option entry_at Directory Entry_Opaque entry_of fst snd].
  unfold default. cbn [id].
  destruct (decide (node_kit n = "")) as [E|E];
    [rewrite (bool_decide_eq_true_2 _ E)|rewrite (bool_decide_eq_false_2 _ E)]; cbn [negb andb];
    destruct (is_dir m), (node_directory n), (descendant n), (is_opaque m); cbn; split; try done;
    intros H; try (split; intros; naive_solver); exfalso; naive_solver.
Qed.

(** The first walk accepts a kit exactly when it leaves every indexed one alone. *)
Lemma check_exact u :
  indexes owners ts → wf_root u →
  Forall (fine owners reference) (nodes [] u) ↔ ∀ t, t ∈ ts → compatible t u.
Proof.
  intros [Hc Hd Hdom Hroot Hnode] [Hw Hdir]. rewrite nodes_root_all by done. unfold fine. cbn [fst]. split.
  - intros H t Ht p k Hp Hk. split.
    + apply not_true_iff_false. rewrite covers_spec. intros (q & m & Hq & Hm & Hbad).
      destruct p as [|x p _] using rev_ind; [done|]. rewrite removelast_snoc in Hq. destruct Hq as [r ->].
      assert (is_Some (owners !! rev q)) as [n Hn].
      { destruct q as [|y q]; [apply Hc|]. apply Hdom; [done|]. exists t, ADirectory. split; [done|].
        rewrite <-app_assoc in Hk. apply (claims_above t (y :: q) (r ++ [x]) k); [apply Hk|by destruct r]. }
      specialize (H q m Hm). rewrite (check_node_ok q m n Hn) in H.
      destruct H as [_ Hdesc]; [by rewrite Hn|]. destruct Hdesc as [? ?]; [|by destruct Hbad; congruence].
      apply (Hd (rev q) n Hn). destruct (r ++ [x]) as [|z rr] eqn:E; [by destruct r|].
      exists z. change (z :: rev q) with (rev [z] ++ rev q). rewrite <-rev_app_distr.
      apply Hdom; [by destruct q|]. rewrite <-app_assoc, E in Hk. destruct rr as [|z' rr].
      * exists t, k. done.
      * exists t, ADirectory. split; [done|]. change (z :: z' :: rr) with ([z] ++ z' :: rr) in Hk.
        rewrite app_assoc in Hk. exact (claims_above _ _ _ _ (proj1 Hk) ltac:(discriminate)).
    + intros k' Hk'. unfold shown_at in Hk'. destruct (find_at p u) as [m|] eqn:Hm; [|done]. injection Hk' as <-.
      assert (is_Some (owners !! rev p)) as [n Hn] by (apply Hdom; eauto).
      specialize (H p m Hm). rewrite (check_node_ok p m n Hn) in H.
      destruct H as [H _]; [by rewrite Hn|]. destruct (Hnode p n t k Hp Hn Ht Hk) as [Hne Hkd].
      destruct (H Hne) as [Hmd Hnd]. split; [by apply Hkd|by destruct m].
  - intros H p m Hm [n Hn]. apply (check_node_ok p m n Hn). split.
    + intros Hne. destruct (decide (p = [])) as [->|Hp]; [by rewrite (Hroot n Hn) in Hne|].
      assert (is_Some (owners !! rev p)) as Hs by eauto. apply Hdom in Hs as (t & k & Ht & Hk); [|done].
      destruct (H t Ht p k Hp Hk) as [_ Hboth].
      destruct (Hboth (shows m)) as [-> Hm']; [unfold shown_at; by rewrite Hm|].
      split; [by destruct m|]. by apply (Hnode p n t ADirectory Hp Hn Ht Hk).
    + intros Hs. apply (Hd _ n Hn) in Hs as [x Hx].
      change (x :: rev p) with (rev [x] ++ rev p) in Hx. rewrite <-rev_app_distr in Hx.
      apply Hdom in Hx as (t & k & Ht & Hk); [|by destruct p].
      destruct (H t Ht (p ++ [x]) k) as [Hcov _]; [by destruct p|done|]. rewrite removelast_snoc in Hcov.
      apply not_true_iff_false in Hcov. rewrite covers_spec in Hcov.
      destruct (is_dir m) eqn:E1, (is_opaque m) eqn:E2; [|done|..]; destruct Hcov; exists p, m; auto.
Qed.
End Index.

(** ** Claiming extends the index *)

Section Extend.
Context (reference : string).

Lemma claim_all_dom owners l q :
  is_Some (foldl (claim_at reference) owners l !! q) ↔
  is_Some (owners !! q) ∨ (q ≠ [] ∧ ∃ m, (q, m) ∈ l ∧ is_whiteout m = false).
Proof.
  revert owners. induction l as [|[p m] l IH]; intros owners; cbn [foldl].
  { split; [by left|]. intros [?|(_ & m & Hm & _)]; [done|by inversion Hm]. }
  rewrite IH, claim_at_dom. setoid_rewrite elem_of_cons. split.
  - intros [[?|(Hp & Hm & ->)]|(Hq & m' & Hm' & Hw)]; [by left| |]; right; (split; [done|]); eauto.
  - intros [?|(Hq & m' & [[= -> ->]|Hm'] & Hw)]; [by left; left|left; by right|right; eauto].
Qed.

Lemma claim_all_kept owners l q n :
  owners !! q = Some n →
  ∃ n', foldl (claim_at reference) owners l !! q = Some n' ∧ node_kit n' = node_kit n ∧
        node_directory n' = node_directory n.
Proof.
  revert owners n. induction l as [|pm l IH]; intros owners n Hq; [by exists n|]. cbn [foldl].
  destruct (claim_at_kept reference owners pm q n Hq) as (n1 & H1 & E1 & E2).
  destruct (IH _ _ H1) as (n2 & H2 & E3 & E4). exists n2. split; [done|]. split; congruence.
Qed.

Lemma claim_all_new owners l q m n :
  owners !! q = None → q ≠ [] → (∀ m', (q, m') ∈ l → m' = m) →
  foldl (claim_at reference) owners l !! q = Some n →
  node_kit n = reference ∧ node_directory n = is_dir m.
Proof.
  revert owners. induction l as [|[p m'] l IH]; intros owners Hn Hq Hl; cbn [foldl]; [congruence|].
  intros Hf. destruct (claim_at reference owners (p, m') !! q) as [n1|] eqn:E1.
  - assert (is_Some (claim_at reference owners (p, m') !! q)) as Hs by eauto.
    apply claim_at_dom in Hs as [Hs|(Hp & Hw & ->)]; [rewrite Hn in Hs; by destruct Hs|].
    destruct (claim_at_new reference owners p m' Hn Hp Hw) as (n' & H' & Ek & Ed).
    rewrite (Hl m') in Ed by by left.
    destruct (claim_all_kept _ l _ _ H') as (n2 & H2 & E3 & E4).
    rewrite Hf in H2. injection H2 as ->. split; congruence.
  - eapply IH; [exact E1|done| |exact Hf]. intros m2 Hm2. apply Hl. by right.
Qed.

Lemma claims_index owners ts u :
  indexes owners ts → wf_root u → reference ≠ "" → (∀ t, t ∈ ts → compatible t u) →
  indexes (foldl (claim_at reference) owners (nodes [] u)) (ts ++ [u]).
Proof.
  intros [Hc Hd Hdom Hroot Hnode] [Hw _] Href Hcomp.
  destruct (claims_described reference u [] owners Hc Hd) as (Hc' & Hd' & _); [done|].
  split; [done|done| | |].
  - intros p Hp. rewrite claim_all_dom, Hdom by done. setoid_rewrite nodes_root; [|done].
    setoid_rewrite elem_of_app. setoid_rewrite list_elem_of_singleton. split.
    + intros [(t & k & Ht & Hk)|(_ & m & Hm & Hwm)]; [eauto 6|].
      exists u, (shows m). split; [by right|]. apply claims_find. eauto.
    + intros (t & k & [Ht| ->] & Hk); [left; eauto|]. right. split; [by rewrite rev_nil_iff|].
      apply claims_find in Hk as (m & ? & ? & _). eauto.
  - intros n Hn. destruct (proj1 Hc) as [n0 Hn0]. destruct (claim_all_kept _ (nodes [] u) _ _ Hn0) as (n' & E & Ek & _).
    rewrite Hn in E. injection E as ->. rewrite Ek. by apply Hroot.
  - intros p n t k Hp Hn Ht Hk. apply elem_of_app in Ht.
    destruct (owners !! rev p) as [n0|] eqn:E0.
    + destruct (claim_all_kept _ (nodes [] u) _ _ E0) as (n' & E & Ek & Ed). rewrite Hn in E. injection E as ->.
      rewrite Ek, Ed. destruct Ht as [Ht|Ht]; [by eapply Hnode|].
      apply list_elem_of_singleton in Ht as ->.
      assert (is_Some (owners !! rev p)) as Hs by eauto. apply Hdom in Hs as (t0 & k0 & Ht0 & Hk0); [|done].
      destruct (Hnode p n0 t0 k0 Hp E0 Ht0 Hk0) as [Hne Hdk]. split; [done|].
      destruct (Hcomp t0 Ht0 p k0 Hp Hk0) as [_ Hb]. destruct (Hb k (proj1 Hk)) as [-> ->]. done.
    + destruct Ht as [Ht|Ht].
      { exfalso. assert (is_Some (owners !! rev p)) as Hs by (apply Hdom; eauto). rewrite E0 in Hs. by destruct Hs. }
      apply list_elem_of_singleton in Ht as ->. apply claims_find in Hk as (m & Hm & Hwm & ->).
      destruct (claim_all_new owners (nodes [] u) (rev p) m n E0) as [-> ->]; [by rewrite rev_nil_iff| |done|].
      * intros m' Hm'. apply nodes_root in Hm'; [congruence|done].
      * split; [done|]. by destruct m.
Qed.
End Extend.

(** ** The whole check *)

Definition add_pure (reference : string) (layer : Layer) (e : inventoryEntry) : result fetch_error Layer :=
  let '(layer, added) := Add layer (header e) in
  if added then Ok layer else Err (CannotExtract reference (Header_Name (header e))).
Definition layer_pure (reference : string) (model : FS) (headers : list inventoryEntry) : result fetch_error FS :=
  layer ← fold_result (add_pure reference) (NewLayer model) headers; Ok (Apply model layer).
Definition model_pure (inv : kitInventory) : result fetch_error FS :=
  fold_result (layer_pure (inventory_reference inv)) New (inventory_layers inv).
Definition kit_pure (owners : gmap (list string) ownershipNode) (inv : kitInventory) :
    result fetch_error (gmap (list string) ownershipNode) :=
  model ← model_pure inv;
  _ ← fold_result (check_entry owners (inventory_reference inv)) [Some []] (Walk model);
  Ok (foldl (claim_entry (inventory_reference inv)) (owners, [[]]) (Walk model)).1.

Lemma fold_result_Ok {E A S} (f : S → A → S) s l :
  fold_result (E:=E) (λ s x, Ok (f s x)) s l = Ok (foldl f s l).
Proof. revert s. induction l as [|x l IH]; intros s; [done|]. apply IH. Qed.

Lemma check_runs done invs :
  runs done (checkFileCollisions done invs) (_ ← fold_result kit_pure new_owners invs; Ok tt).
Proof.
  apply runs_bind; [|intros; apply runs_ok]. apply runs_for_range. intros owners inv.
  unfold collide_kit. apply runs_poll. apply runs_bind.
  - apply runs_for_range. intros model hdrs. apply runs_bind; [|intros; apply runs_ok].
    apply runs_for_range. intros layer e. apply runs_poll. unfold add_pure.
    destruct (Add layer (header e)) as [l []]; [apply runs_ok|apply (runs_lift _ (Err _))].
  - intros model _. apply runs_bind.
    + apply runs_for_range. intros. apply runs_poll, runs_lift.
    + intros stack _. set (l := Walk model).
      pose proof (fold_result_Ok (E:=fetch_error) (claim_entry (inventory_reference inv)) (owners, [[]]) l) as E.
      change (Ok (foldl ?f ?s l).1) with (st ← Ok (E:=fetch_error) (foldl f s l); Ok st.1). rewrite <-E.
      apply runs_bind; [|intros; apply runs_ok]. apply runs_for_range. intros. apply runs_poll, runs_ok.
Qed.

(** The kit's own tree, and whether the extractor takes every entry of it. *)
Definition kit_tree (inv : kitInventory) : fsNode := root (extract_image (inventory_layers inv)).
Definition extracts (inv : kitInventory) : Prop := is_ok (model_pure inv) = true.

Lemma layer_pure_Ok reference model hdrs o :
  layer_pure reference model hdrs = Ok o → o = apply_layer model hdrs.
Proof.
  unfold layer_pure, apply_layer, extract_layer. generalize (NewLayer model).
  induction hdrs as [|h hdrs IH]; intros l; cbn [fold_result foldl]; [by intros [= <-]|].
  assert (add_pure reference l h = if (Add l h).2 then Ok (Add l h).1 else Err (CannotExtract reference (Header_Name h))) as ->
    by by unfold add_pure, header; destruct (Add l h) as [? []].
  destruct (Add l h) as [l' []]; cbn [fst snd mbind result_bind]; [apply IH|done].
Qed.

Lemma model_pure_Ok inv o : model_pure inv = Ok o → root o = kit_tree inv.
Proof.
  unfold model_pure, kit_tree, extract_image. intros H. f_equal. revert H. generalize New.
  induction (inventory_layers inv) as [|hdrs ls IH]; intros m; cbn [fold_result foldl]; [by intros [= <-]|].
  intros (m' & ->%layer_pure_Ok & H)%result_bind_Ok. by apply IH.
Qed.

Lemma kit_tree_wf inv : wf_root (kit_tree inv).
Proof. apply (extract_image_wf (inventory_layers inv)). Qed.

Lemma kit_pure_spec owners ts inv :
  indexes owners ts → inventory_reference inv ≠ "" →
  match kit_pure owners inv with
  | Ok owners' => extracts inv ∧ (∀ t, t ∈ ts → compatible t (kit_tree inv)) ∧ indexes owners' (ts ++ [kit_tree inv])
  | Err _ => ¬ (extracts inv ∧ ∀ t, t ∈ ts → compatible t (kit_tree inv))
  end.
Proof.
  intros Hi Href. unfold kit_pure, extracts.
  destruct (model_pure inv) as [model|e] eqn:Em; cbn [mbind result_bind]; [|by intros [? _]].
  apply model_pure_Ok in Em. rewrite !Walk_nodes, Em. pose proof (kit_tree_wf inv) as Hw.
  pose proof (check_exact owners ts (inventory_reference inv) (kit_tree inv) Hi Hw) as Hx.
  pose proof (check_nodes owners (inventory_reference inv) (kit_tree inv) [] [Some []] (ix_closed _ _ Hi)) as Hn.
  assert (arrives (known owners) [Some []] []) as Ha.
  { unfold arrives. cbn [take frames]. unfold known. by rewrite bool_decide_eq_true_2 by apply (ix_closed _ _ Hi). }
  specialize (Hn Ha). destruct (fold_result _ _ _) as [stack|e]; cbn [mbind result_bind is_ok].
  - destruct Hn as [_ Hf]. pose proof (proj1 Hx Hf) as Hcomp. split; [done|]. split; [done|].
    destruct (claim_nodes (inventory_reference inv) (kit_tree inv) [] owners [[]]) as (st & -> & _); [done|].
    by apply claims_index.
  - intros [_ Hf]. by apply Hn, (proj2 Hx).
Qed.

Lemma fold_kits_spec invs owners ts :
  indexes owners ts → Forall (λ inv, inventory_reference inv ≠ "") invs →
  is_ok (fold_result kit_pure owners invs) = true ↔
  Forall extracts invs ∧ (∀ t, t ∈ ts → Forall (λ inv, compatible t (kit_tree inv)) invs) ∧
  ForallOrdPairs compatible (map kit_tree invs).
Proof.
  revert owners ts. induction invs as [|inv invs IH]; intros owners ts Hi Href.
  { split; [|done]. intros _. repeat constructor. }
  inversion_clear Href as [|? ? Hr Hrs]. cbn [fold_result map]. pose proof (kit_pure_spec owners ts inv Hi Hr) as Hk.
  destruct (kit_pure owners inv) as [owners'|e]; cbn [mbind result_bind].
  - destruct Hk as (He & Hc & Hi'). rewrite (IH owners' _ Hi' Hrs). split.
    + intros (H1 & H2 & H3). split; [by constructor|]. split.
      * intros t Ht. constructor; [by apply Hc|]. apply H2. set_solver.
      * constructor; [|done]. apply Forall_fmap, H2. set_solver.
    + intros (H1 & H2 & H3). inversion_clear H1 as [|? ? _ H1']. inversion_clear H3 as [|? ? H3' H3''].
      split; [done|]. split; [|done]. intros t [Ht|Ht]%elem_of_app.
      * specialize (H2 t Ht). by inversion_clear H2.
      * apply list_elem_of_singleton in Ht as ->. exact (proj1 (Forall_fmap kit_tree _ invs) H3').
  - split; [done|]. intros (H1 & H2 & _). destruct Hk. inversion_clear H1. split; [done|].
    intros t Ht. specialize (H2 t Ht). by inversion_clear H2.
Qed.

(** ** Properties *)

(** C30: an uncancelled check accepts exactly the sets whose every archive entry can
    be extracted and in which no kit replaces, hides or deletes what a kit before
    it put there — neither by a file, a whiteout or an opaque directory, nor by a
    directory in a file's place; a cancelled one only accepts such sets. *)
Theorem collisions_exact done w invs :
  Forall (λ inv, inventory_reference inv ≠ "") invs →
  let accepted := (checkFileCollisions done invs w).1 = Ok tt in
  let separate := Forall extracts invs ∧ ForallOrdPairs compatible (map kit_tree invs) in
  (accepted → separate) ∧ ((∀ n, done n = false) → separate → accepted).
Proof.
  intros Href. cbn zeta.
  pose proof (fold_kits_spec invs new_owners [] indexes_new Href) as Hs.
  destruct (check_runs done invs w) as [->|[-> [n Hn]]].
  - destruct (fold_result kit_pure new_owners invs) as [o|e]; cbn [mbind result_bind is_ok] in *.
    + split; [intros _|done]. destruct Hs as [Hs _]. destruct (Hs eq_refl) as (H1 & _ & H3). done.
    + split; [done|]. intros _ [H1 H3]. destruct Hs as [_ Hs]. assert (false = true) as E; [|done].
      apply Hs. split; [done|]. split; [|done]. intros t Ht. by inversion Ht.
  - split; [done|]. intros Hd. by rewrite Hd in Hn.
Qed.

(** The filesystem of the composition: the kits' trees stacked in order. *)
Definition composition (invs : list kitInventory) : fsNode := foldl stack newDir (map kit_tree invs).

Lemma composition_wf invs : wf_root (composition invs).
Proof.
  unfold composition. assert (wf_root newDir) as H by by repeat constructor. revert H. generalize newDir.
  induction invs as [|inv invs IH]; intros t [Hw Hd]; [done|]. cbn. apply IH.
  pose proof (kit_tree_wf inv) as [Hw' Hd']. split; [by apply wf_stack|]. by destruct (kit_tree inv).
Qed.

Lemma composition_snoc invs inv : composition (invs ++ [inv]) = stack (composition invs) (kit_tree inv).
Proof. unfold composition. by rewrite map_app, foldl_app. Qed.

Lemma separate_snoc (l : list fsNode) u :
  ForallOrdPairs compatible (l ++ [u]) → ForallOrdPairs compatible l ∧ ∀ t, t ∈ l → compatible t u.
Proof.
  induction l as [|t l IH]; cbn.
  { intros _. split; [constructor|]. intros t Ht. by inversion Ht. }
  intros H. inversion_clear H as [|? ? H1 H2]. apply Forall_app in H1 as [H1 H1'].
  destruct (IH H2) as [H3 H4]. split; [by constructor|].
  intros t' [->|Ht']%elem_of_cons; [by inversion H1'|by apply H4].
Qed.

Lemma composition_keeps invs :
  ForallOrdPairs compatible (map kit_tree invs) →
  ∀ p k, p ≠ [] → claims (composition invs) p k ↔ ∃ inv, inv ∈ invs ∧ claims (kit_tree inv) p k.
Proof.
  induction invs as [|inv invs IH] using rev_ind; intros Hs p k Hp.
  { cbn. split; [|intros (inv & Hinv & _); by inversion Hinv].
    intros [H _]. by destruct p. }
  rewrite map_app in Hs. apply separate_snoc in Hs as [Hs Hu]. specialize (IH Hs p k Hp).
  rewrite composition_snoc. setoid_rewrite elem_of_app. setoid_rewrite list_elem_of_singleton.
  unfold claims at 1. pose proof (composition_wf invs) as [_ Hcd]. pose proof (kit_tree_wf inv) as [Hw Hd].
  destruct (stack_at p (composition invs) (kit_tree inv) Hcd Hd Hw) as [-> _].
  assert (∀ inv0, inv0 ∈ invs → claims (kit_tree inv0) p k →
    covers (removelast p) (kit_tree inv) = false ∧
    ∀ k', shown_at (kit_tree inv) p = Some k' → k = ADirectory ∧ k' = ADirectory) as Hcomp.
  { intros inv0 H0 Hk. apply (Hu (kit_tree inv0)); [by apply list_elem_of_fmap_2|done|done]. }
  split.
  - destruct (shown_at (kit_tree inv) p) as [k'|] eqn:Es.
    + intros [[= ->] Hk]. exists inv. by split; [right|].
    + destruct (covers p (kit_tree inv)); [by intros [? _]|].
      intros Hk. destruct (proj1 IH Hk) as (inv0 & H0 & Hk0). exists inv0. by split; [left|].
  - intros (inv0 & [H0| ->] & Hk).
    + destruct (Hcomp inv0 H0 Hk) as [Hcov Hb]. destruct (shown_at (kit_tree inv) p) as [k'|] eqn:Es.
      * destruct (Hb k' eq_refl) as [-> ->]. by split.
      * rewrite covers_removelast, Hcov by done. apply IH. eauto.
    + destruct Hk as [-> Hk]. by split.
Qed.

(** C29: in the composition of a set the check accepts, every path shows what the
    kit that put something there put there, whichever kits are above and below it,
    and nothing else shows anything. *)
Theorem composition_keeps_every_kit done w invs :
  Forall (λ inv, inventory_reference inv ≠ "") invs →
  (checkFileCollisions done invs w).1 = Ok tt →
  ∀ p k, p ≠ [] → claims (composition invs) p k ↔ ∃ inv, inv ∈ invs ∧ claims (kit_tree inv) p k.
Proof.
  intros Href Hok. apply composition_keeps.
  pose proof (fold_kits_spec invs new_owners [] indexes_new Href) as Hs.
  destruct (check_runs done invs w) as [E|[E _]]; rewrite E in Hok; [|done].
  destruct (fold_result kit_pure new_owners invs); [|done]. by apply Hs.
Qed.

Definition sample_kits : list kitInventory :=
  [mkKitInventory "base" [[a_file "bin/sh"]; [a_file "bin/.wh.sh"; a_file "bin/ls"]]; mkKitInventory "git" [[a_file "bin/git"]]].

Lemma sample_references : Forall (λ inv, inventory_reference inv ≠ "") sample_kits.
Proof. by repeat constructor. Qed.

Lemma collisions_exact_witness :
  ForallOrdPairs compatible (map kit_tree sample_kits) ∧
  ¬ ForallOrdPairs compatible (map kit_tree (sample_kits ++ [mkKitInventory "vim" [[a_file "bin/.wh.git"]]])).
Proof.
  split.
  - apply (collisions_exact (λ _, false) (mkWorld 0 []) sample_kits sample_references). by vm_compute.
  - intros H.
    assert (Forall (λ inv, inventory_reference inv ≠ "")
      (sample_kits ++ [mkKitInventory "vim" [[a_file "bin/.wh.git"]]])) as Href by by repeat constructor.
    destruct (collisions_exact (λ _, false) (mkWorld 0 []) _ Href) as [_ Hx].
    assert (∀ n : nat, false = false) as Hn by done. specialize (Hx Hn). assert (Err (FileCollision "/bin/git" "git" "vim") = Ok tt) as E; [|done].
    rewrite <-Hx; [by vm_compute|]. split; [by repeat constructor|done].
Defined.

Lemma composition_keeps_every_kit_witness :
  claims (composition sample_kits) ["bin"; "ls"] AFile ∧ ¬ claims (composition sample_kits) ["bin"; "sh"] AFile.
Proof.
  pose proof (composition_keeps_every_kit (λ _, false) (mkWorld 0 []) sample_kits sample_references) as H.
  assert ((checkFileCollisions (λ _, false) sample_kits (mkWorld 0 [])).1 = Ok tt) as Hok by by vm_compute.
  specialize (H Hok). split.
  - apply H; [done|]. eexists. split; [by left|]. by split; [vm_compute|].
  - rewrite H by done. intros (inv & Hinv & [Hk _]). unfold sample_kits in Hinv.
    apply elem_of_cons in Hinv as [->|Hinv]; [by vm_compute in Hk|].
    apply list_elem_of_singleton in Hinv as ->. by vm_compute in Hk.
Defined.
