(* ===== verification/Registry.v ===== *)
(** [fetch/registry.go], [fetch/image.go] and [fetch/load_kit.go]: reading a
    reference's manifests through a bounded walk of its indexes.

    The registry, the JSON decoders of the OCI types, the reference grammar, the
    digest algorithms and the platform order are libraries or services.  The
    registry answers each request in its own time: its answers take the number of
    requests made before, so a tag may move between two of them. *)
From stdpp Require Import options.
From S2P Require Import Prelude GoStrings Oci LayerTar.

Definition maxIndexDepth : nat := 4.
Definition maxManifestFetches : nat := 32.
Definition maxMetadataBytes : Z := Z.shiftl 8 20.

Inductive registry_error :=
  | BadReference (ref cause : string)
  | NoTagOrDigest (ref : string)
  | BadRepository (cause : string)
  | TooManyManifests
  | RegistryFailed (cause : string)
  | ReadFailed (name : string)
  | MetadataTooLarge (name : string)
  | MetadataSize (digest : string) (expected got : Z)
  | MetadataDigestInvalid
  | MetadataDigestMismatch (digest : string)
  | NotAnImageManifest (mediaType : string)
  | MalformedManifest
  | ManifestSchema (version : Z)
  | HasArtifactType (artifactType : string)
  | NotAnImageConfig (mediaType : string)
  | IndexTooDeep
  | MalformedIndex
  | IndexSchema (version : Z)
  | NoManifestForPlatform
  | ConfigSize (size : Z)
  | MalformedConfig
  | ConfigPlatform
  | RootfsMismatch_
  | NotAKit
  | DescriptorRejected (cause : string)
  | BadDigest (digest cause : string).

(** ** Media types *)

Definition DockerManifestList : string := "application/vnd.docker.distribution.manifest.list.v2+json".
Definition DockerManifest : string := "application/vnd.docker.distribution.manifest.v2+json".
Definition DockerConfig : string := "application/vnd.docker.container.image.v1+json".
Definition AnnotationDescriptor : string := "vnd.docker.sandbox.kit.descriptor".

Definition isIndex (mediaType : string) : bool :=
  bool_decide (mediaType = MediaTypeImageIndex) || bool_decide (mediaType = DockerManifestList).
Definition isImageManifest (mediaType : string) : bool :=
  bool_decide (mediaType = MediaTypeImageManifest) || bool_decide (mediaType = DockerManifest).

Definition requirePlainImageManifest (desc : Blob) (m : Manifest) : result registry_error () :=
  let mediaType := if bool_decide (MediaType desc = "") then Manifest_MediaType m else MediaType desc in
  if negb (bool_decide (SchemaVersion_ m = 2%Z)) then Err (ManifestSchema (SchemaVersion_ m))
  else if negb (isImageManifest mediaType) then Err (NotAnImageManifest mediaType)
  else if negb (bool_decide (ArtifactType m = "")) then Err (HasArtifactType (ArtifactType m))
  else if negb (bool_decide (MediaType (Config_ m) = MediaTypeImageConfig)) &&
          negb (bool_decide (MediaType (Config_ m) = DockerConfig))
  then Err (NotAnImageConfig (MediaType (Config_ m)))
  else Ok tt.

Definition annotation (m : gmap string string) : string := default "" (m !! AnnotationDescriptor).

(** ** The libraries *)

(** The reference grammar: a parsed name with the tag or digest it carries. *)
Class References := {
  Named : Type;
  ParseNormalizedNamed : string → result string Named;
  TagNameOnly : Named → Named;
  Canonical : Named → option string;
  Tagged : Named → option string;
  TrimNamed : Named → Named;
  WithDigest : Named → string → result string Named;
  named_string : Named → string;
}.

(** Digests: their grammar, and the digest an algorithm gives some bytes. *)
Class Digests := {
  digest_parse : string → result string string;
  digest_valid : string → bool;
  digest_of : string → string → string;
}.

(** The platform order of a client: what matches, and what is closer. *)
Class Platforms := {
  client_platform : Platform;
  Match : Platform → bool;
  Less : Platform → Platform → bool;
  OnlyStrict : Platform → Platform → bool;
}.

Class Decoders := {
  parse_manifest : string → option Manifest;
  parse_index : string → option ImageIndex;
  parse_image : string → option OciImage;
}.

(** A repository, by the number of requests it has answered. *)
Record Repository := mkRepository {
  FetchReference : nat → string → result string (Blob * stream);
  Fetch : nat → Blob → result string stream;
}.

Section Registry.
Context `{References, Digests, Platforms, Decoders}.

(** ** References *)

Definition parseNamed (ref : string) : result registry_error Named :=
  TagNameOnly <$> map_err (BadReference ref) (ParseNormalizedNamed ref).

(** The repository, and the digest or tag to ask it for. *)
Definition splitRef (ref : string) : result registry_error (string * string) :=
  named ← parseNamed ref;
  match Canonical named, Tagged named with
  | Some digest, _ => Ok (named_string (TrimNamed named), digest)
  | None, Some tag => Ok (named_string (TrimNamed named), tag)
  | None, None => Err (NoTagOrDigest ref)
  end.

Definition withDigest (named : Named) (digest : string) : result registry_error string :=
  named_string <$> map_err (BadReference digest) (WithDigest (TrimNamed named) digest).

Definition pinnedImage (ref dgst : string) : result registry_error string :=
  named ← parseNamed ref;
  parsed ← map_err (BadDigest dgst) (digest_parse dgst);
  withDigest named parsed.

(** ** Verified reads *)

Definition readLimited (s : stream) (name : string) : result registry_error string :=
  let body := limited (maxMetadataBytes + 1) s in
  if broken body then Err (ReadFailed name)
  else if (maxMetadataBytes <? size (delivered body))%Z then Err (MetadataTooLarge name)
  else Ok (delivered body).

Definition readVerified (s : stream) (desc : Blob) : result registry_error string :=
  body ← readLimited s (Blob_Digest desc);
  if negb (bool_decide (size body = Size desc)) then
    Err (MetadataSize (Blob_Digest desc) (Size desc) (size body))
  else if negb (digest_valid (Blob_Digest desc)) then Err MetadataDigestInvalid
  else if negb (bool_decide (digest_of (Blob_Digest desc) body = Blob_Digest desc))
  then Err (MetadataDigestMismatch (Blob_Digest desc))
  else Ok body.

(** [manifestBudget.consume]: the count is also the requests made so far. *)
Definition consume_manifest (n : nat) : result registry_error nat :=
  if maxManifestFetches <=? n then Err TooManyManifests else Ok (S n).

(** A result with the manifests counted when it was reached. *)
Definition counted (A : Type) : Type := result registry_error A * nat.

Definition fetchManifest (repo : Repository) (referenceName : string) (n : nat) : counted (Blob * string) :=
  match consume_manifest n with
  | Err e => (Err e, n)
  | Ok n' =>
      ('(desc, s) ← map_err RegistryFailed (FetchReference repo n referenceName);
       body ← readVerified s desc;
       Ok (desc, body), n')
  end.

Definition fetchDescriptor (repo : Repository) (desc : Blob) (n : nat) : counted string :=
  match consume_manifest n with
  | Err e => (Err e, n)
  | Ok n' => (s ← map_err RegistryFailed (Fetch repo n desc); readVerified s desc, n')
  end.

(** ** Choosing a manifest *)

Definition platform_unknown (m : Blob) : bool :=
  match Blob_Platform m with Some p => bool_decide (OS p = "unknown") | None => false end.
Definition runnable (m : Blob) : bool :=
  negb (isIndex (MediaType m)) && negb (platform_unknown m) &&
  (bool_decide (MediaType m = "") || isImageManifest (MediaType m)).

(** The closer of the match so far and a manifest; the first of equals stays. *)
Definition closer_match (matched : option Blob) (m : Blob) : option Blob :=
  match Blob_Platform m with
  | Some p =>
      if Match p then
        match matched with
        | Some b => if Less p (default (mkPlatform "" "" "" [] "") (Blob_Platform b)) then Some m else matched
        | None => Some m
        end
      else matched
  | None => matched
  end.

Definition exact (p : option Platform) : bool :=
  match p with Some p => negb (Less client_platform p) | None => false end.

Definition chooseManifest (index : ImageIndex) : option Blob * list Blob :=
  let nested := List.filter (λ m, isIndex (MediaType m)) (Manifests index) in
  let manifests := List.filter runnable (Manifests index) in
  match foldl closer_match None manifests with
  | Some matched =>
      if bool_decide (nested = []) || exact (Blob_Platform matched) then (Some matched, []) else (Some matched, nested)
  | None =>
      match manifests with
      | [only] => if bool_decide (Blob_Platform only = None) then (Some only, nested) else (None, nested)
      | _ => (None, nested)
      end
  end.

Definition betterPlatform (a b : option Platform) : bool :=
  match a, b with
  | None, _ => false
  | Some _, None => true
  | Some a, Some b => Less a b
  end.

(** ** The walk *)

Definition found : Type := option (string * option Platform).

(** [consider]: a named platform that is closer, or the first one found. *)
Definition consider (best : found) (ann : string) (plat : option Platform) : found :=
  match best with
  | None => Some (ann, plat)
  | Some (_, bestPlat) =>
      match plat with
      | Some p =>
          if match bestPlat with None => true | Some b => Less p b end then Some (ann, plat) else best
      | None => best
      end
  end.

(** The children in turn, up to one that is exactly the platform asked for; the
    flag says whether that one ended the search. *)
Fixpoint search (read : Blob → nat → counted found) (best : found) (children : list Blob) (n : nat) :
    counted (found * bool) :=
  match children with
  | [] => (Ok (best, false), n)
  | d :: children =>
      match read d n with
      | (Err e, n) => (Err e, n)
      | (Ok None, n) => search read best children n
      | (Ok (Some (ann, plat)), n) =>
          if exact plat then (Ok (Some (ann, plat), true), n)
          else search read (consider best ann plat) children n
      end
  end.

(** The fallback of a level, once its nested indexes have been searched. *)
Definition try_fallback (read : Blob → nat → counted found) (best : found) (fallback : Blob) (n : nat) :
    counted found :=
  match read fallback n with
  | (Err e, n) =>
      match best with
      | Some (_, bestPlat) =>
          if negb (betterPlatform (Blob_Platform fallback) bestPlat) then (Ok best, n) else (Err e, n)
      | None => (Err e, n)
      end
  | (Ok None, n) => (Ok best, n)
  | (Ok (Some (ann, plat)), n) =>
      match best with
      | Some (_, bestPlat) =>
          if negb (betterPlatform bestPlat plat) then (Ok (Some (ann, plat)), n) else (Ok best, n)
      | None => (Ok (Some (ann, plat)), n)
      end
  end.

(** One level of indexes. *)
Definition walk_index (read : Blob → nat → counted found) (index : ImageIndex) (n : nat) : counted found :=
  let '(child, nested) := chooseManifest index in
  let '(now, fallback) :=
    match child with
    | Some c => if exact (Blob_Platform c) || bool_decide (nested = []) then ([c], None) else ([], Some c)
    | None => ([], None)
    end in
  match search read None (now ++ nested) n with
  | (Err e, n) => (Err e, n)
  | (Ok (best, true), n) => (Ok best, n)
  | (Ok (best, false), n) =>
      match fallback with
      | Some c => try_fallback read best c n
      | None => (Ok best, n)
      end
  end.

(** [metadata]; [levels] is the index depth still allowed, [maxIndexDepth + 1] at
    the reference itself. *)
Fixpoint metadata (levels : nat) (repo : Repository) (annotationOnly : bool) (desc : Blob) (body : string) (n : nat) :
    counted found :=
  if negb (isIndex (MediaType desc)) then
    (if negb (isImageManifest (MediaType desc)) then Err (NotAnImageManifest (MediaType desc))
     else
       match parse_manifest body with
       | None => Err MalformedManifest
       | Some manifest =>
           _ ← requirePlainImageManifest desc manifest;
           Ok (Some (if annotationOnly then annotation (Annotations_ manifest) else body, Blob_Platform desc))
       end, n)
  else
    match levels with
    | O => (Err IndexTooDeep, n)
    | S levels' =>
        match parse_index body with
        | None => (Err MalformedIndex, n)
        | Some index =>
            if negb (bool_decide (Index_SchemaVersion index = 2%Z))
            then (Err (IndexSchema (Index_SchemaVersion index)), n)
            else if negb (bool_decide (Index_ArtifactType index = ""))
            then (Err (HasArtifactType (Index_ArtifactType index)), n)
            else
              let raw := annotation (Index_Annotations index) in
              if bool_decide (levels' = maxIndexDepth) && annotationOnly && negb (bool_decide (raw = ""))
              then (Ok (Some (raw, None)), n)
              else
                walk_index
                  (λ d n,
                     match fetchDescriptor repo d n with
                     | (Err e, n) => (Err e, n)
                     | (Ok body, n) => metadata levels' repo annotationOnly d body n
                     end) index n
        end
    end.

Definition readDescriptor (repo : Repository) (referenceName : string) : counted (string * string) :=
  match fetchManifest repo referenceName 0 with
  | (Err e, n) => (Err e, n)
  | (Ok (desc, body), n) =>
      match metadata (S maxIndexDepth) repo true desc body n with
      | (Err e, n) => (Err e, n)
      | (Ok None, n) => (Err NoManifestForPlatform, n)
      | (Ok (Some (raw, _)), n) => (Ok (raw, Blob_Digest desc), n)
      end
  end.

(** ** Images ([fetch/image.go]) *)

Definition loadImage (repository : string → result registry_error Repository) (ref : string) :
    result registry_error (Manifest * OciImage) :=
  '(repoName, name) ← splitRef ref;
  repo ← repository repoName;
  let '(fetched, n) := fetchManifest repo name 0 in
  '(desc, body) ← fetched;
  let '(selected, n) := metadata (S maxIndexDepth) repo false desc body n in
  selected ← selected;
  match selected with
  | None => Err NoManifestForPlatform
  | Some (raw, selectedPlatform) =>
      match parse_manifest raw with
      | None => Err MalformedManifest
      | Some manifest =>
          let config := Config_ manifest in
          if (Size config <? 0)%Z || (maxMetadataBytes <? Size config)%Z then Err (ConfigSize (Size config))
          else
            s ← map_err RegistryFailed (Fetch repo n config);
            configRaw ← readVerified s config;
            match parse_image configRaw with
            | None => Err MalformedConfig
            | Some image =>
                if match selectedPlatform with
                   | Some p => negb (OnlyStrict p (Image_Platform image))
                   | None => false
                   end then Err ConfigPlatform
                else if negb (Match (Image_Platform image)) then Err ConfigPlatform
                else if negb (bool_decide (RootFS_Type image = "layers")) ||
                        negb (bool_decide (length (DiffIDs image) = length (Layers manifest)))
                then Err RootfsMismatch_
                else Ok (manifest, image)
            end
      end
  end.
End Registry.

(** ** The walk is bounded *)

Section Bounds.
Context `{References, Digests, Platforms, Decoders}.

Definition within {A} (n : nat) (c : counted A) : Prop := n ≤ c.2 ≤ maxManifestFetches ∨ c.2 = n.

Lemma within_read read (Hread : ∀ d n, n ≤ maxManifestFetches → n ≤ (read d n).2 ≤ maxManifestFetches) best l n :
  n ≤ maxManifestFetches → n ≤ (search read best l n).2 ≤ maxManifestFetches.
Proof.
  revert best n. induction l as [|d l IH]; intros best n Hn; cbn [search]; [cbn; lia|].
  specialize (Hread d n Hn). destruct (read d n) as [[[[ann plat]|]|e] n']; cbn in *; [|specialize (IH best n')|]; try lia.
  destruct (exact plat); cbn; [lia|]. specialize (IH (consider best ann plat) n'). lia.
Qed.

Lemma walk_index_bound read index n :
  (∀ d n, n ≤ maxManifestFetches → n ≤ (read d n).2 ≤ maxManifestFetches) →
  n ≤ maxManifestFetches → n ≤ (walk_index read index n).2 ≤ maxManifestFetches.
Proof.
  intros Hread Hn. unfold walk_index. destruct (chooseManifest index) as [child nested].
  destruct (match child with Some c => _ | None => _ end) as [now fallback].
  pose proof (within_read read Hread None (now ++ nested) n Hn) as Hs.
  destruct (search read None (now ++ nested) n) as [[[best []]|e] n']; cbn in *; [done| |done].
  destruct fallback as [c|]; [|done]. specialize (Hread c n' ltac:(lia)). unfold try_fallback.
  destruct (read c n') as [[[[ann plat]|]|e] n2]; cbn in *; destruct best as [[b bp]|]; cbn; try lia.
  - destruct (betterPlatform bp plat); cbn; lia.
  - destruct (betterPlatform (Blob_Platform c) bp); cbn; lia.
Qed.

Lemma consume_manifest_bound n n' : consume_manifest n = Ok n' → n' = S n ∧ n' ≤ maxManifestFetches.
Proof.
  unfold consume_manifest. destruct (maxManifestFetches <=? n) eqn:E; [done|]. apply Nat.leb_gt in E.
  intros [= <-]. lia.
Qed.

Lemma metadata_bound levels repo ao desc body n :
  n ≤ maxManifestFetches → n ≤ (metadata levels repo ao desc body n).2 ≤ maxManifestFetches.
Proof.
  revert desc body n. induction levels as [|levels IH]; intros desc body n Hn; cbn [metadata];
    (destruct (isIndex (MediaType desc)); cbn [negb]; [|cbn; lia]); [cbn; lia|].
  destruct (parse_index body) as [index|]; [|cbn; lia].
  case_match; [cbn; lia|]. case_match; [cbn; lia|]. case_match; [cbn; lia|].
  apply walk_index_bound; [|done]. clear Hn. intros d n' Hn. unfold fetchDescriptor.
  destruct (consume_manifest n') as [n2|e] eqn:Ec; [|cbn; lia]. apply consume_manifest_bound in Ec as [-> Hc].
  destruct (s ← _; _) as [body'|e]; [|cbn; lia]. specialize (IH d body' (S n') Hc). lia.
Qed.
End Bounds.

(** ** What the walk returns is attested by the reference's digest *)

Section Attested.
Context `{References, Digests, Platforms, Decoders}.

Definition verified (d : Blob) (body : string) : Prop :=
  size body = Size d ∧ (size body ≤ maxMetadataBytes)%Z ∧ digest_of (Blob_Digest d) body = Blob_Digest d.

Lemma readVerified_verified s d body : readVerified s d = Ok body → verified d body.
Proof.
  unfold readVerified, readLimited. intros (b & Hb & Hrest)%result_bind_Ok.
  destruct (broken _); [done|]. destruct (_ <? _)%Z eqn:E; [done|]. injection Hb as <-.
  apply Z.ltb_ge in E. case_bool_decide as Hs; cbn [negb] in Hrest; [|done].
  destruct (digest_valid _); cbn [negb] in Hrest; [|done]. case_bool_decide as Hd; cbn [negb] in Hrest; [|done].
  injection Hrest as <-. by split.
Qed.

(** A chain of indexes from a root, each listing the next by size and digest. *)
Inductive under (root : Blob) (rbody : string) : nat → Blob → string → Prop :=
  | under_root : verified root rbody → under root rbody 0 root rbody
  | under_child k d body index c cbody :
      under root rbody k d body → isIndex (MediaType d) = true → parse_index body = Some index →
      c ∈ Manifests index → verified c cbody → under root rbody (S k) c cbody.

(** A plain image manifest the chain reaches, and the index annotation shortcut. *)
Definition from_manifest (root : Blob) (rbody : string) (ao : bool) (raw : string) (plat : option Platform) : Prop :=
  ∃ k d body m, k ≤ S maxIndexDepth ∧ under root rbody k d body ∧ isImageManifest (MediaType d) = true ∧
    parse_manifest body = Some m ∧ requirePlainImageManifest d m = Ok tt ∧ plat = Blob_Platform d ∧
    raw = if ao then annotation (Annotations_ m) else body.
Definition from_index (root : Blob) (rbody : string) (ao : bool) (raw : string) : Prop :=
  ao = true ∧ raw ≠ "" ∧ isIndex (MediaType root) = true ∧
  ∃ index, parse_index rbody = Some index ∧ raw = annotation (Index_Annotations index).

Lemma closer_match_elem matched l b :
  foldl closer_match matched l = Some b → matched = Some b ∨ b ∈ l.
Proof.
  revert matched. induction l as [|m l IH]; intros matched; [by left|]. cbn. intros [E|Hb]%IH; [|by right; right].
  unfold closer_match in E. repeat (case_match; simplify_eq; try by left); right; by left.
Qed.

Lemma chooseManifest_elem index child nested :
  chooseManifest index = (child, nested) →
  (∀ c, child = Some c → c ∈ Manifests index) ∧ ∀ c, c ∈ nested → c ∈ Manifests index.
Proof.
  unfold chooseManifest.
  assert (∀ f c, c ∈ List.filter f (Manifests index) → c ∈ Manifests index) as Hf
    by by intros f c [? _]%elem_of_filter_bool.
  destruct (foldl closer_match None _) as [m|] eqn:E.
  - apply closer_match_elem in E as [E|E]; [done|].
    case_match; intros [= <- <-]; (split; [intros c [= <-]; by eapply Hf|]); [intros c Hc; by inversion Hc|apply Hf].
  - destruct (List.filter runnable (Manifests index)) as [|o [|o' l]] eqn:El; try (intros [= <- <-]; split; [done|apply Hf]).
    case_match; intros [= <- <-]; (split; [|apply Hf]); [|done].
    intros c [= <-]. apply (Hf runnable). rewrite El. by left.
Qed.

Section Walk.
Context (read : Blob → nat → counted found) (P : string → option Platform → Prop).

Definition reads_to (children : list Blob) : Prop :=
  ∀ c n ann plat n', c ∈ children → read c n = (Ok (Some (ann, plat)), n') → P ann plat.
Definition holds (f : found) : Prop := ∀ ann plat, f = Some (ann, plat) → P ann plat.

Lemma holds_none : holds None.
Proof. by intros ann plat. Qed.

Lemma consider_holds best ann plat : holds best → P ann plat → holds (consider best ann plat).
Proof.
  intros Hb Hp a p. unfold consider. destruct best as [[ba bp]|]; [|by intros [= <- <-]].
  destruct plat; [|by apply Hb]. case_match; [by intros [= <- <-]|apply Hb].
Qed.

Lemma search_holds children best n f b n' :
  reads_to children → holds best → search read best children n = (Ok (f, b), n') → holds f.
Proof.
  revert best n. induction children as [|c children IH]; intros best n Hr Hb; cbn [search]; [by intros [= <- _ _]|].
  destruct (read c n) as [[[[ann plat]|]|e] n1] eqn:E; [| |done].
  - assert (P ann plat) as Hp by (eapply Hr; [by left|done]).
    assert (holds (Some (ann, plat))) as Hs by (intros a p E'; by injection E' as <- <-).
    destruct (exact plat); [by intros [= <- _ _]|].
    apply IH; [|by apply consider_holds]. intros c' m a p m' Hc'. apply Hr. by right.
  - apply IH; [|done]. intros c' m a p m' Hc'. apply Hr. by right.
Qed.

Lemma walk_index_holds index n f n' :
  reads_to (Manifests index) → walk_index read index n = (Ok f, n') → holds f.
Proof.
  intros Hr. unfold walk_index. destruct (chooseManifest index) as [child nested] eqn:Ec.
  apply chooseManifest_elem in Ec as [Hc Hn].
  destruct (match child with Some c => _ | None => _ end) as [now fallback] eqn:En.
  assert ((∀ c, c ∈ now → c ∈ Manifests index) ∧ ∀ c, fallback = Some c → c ∈ Manifests index) as [Hnow Hfb].
  { destruct child as [c0|]; [|injection En as <- <-; split; [intros c Hx; by inversion Hx|done]].
    case_match; injection En as <- <-.
    - split; [|done]. intros c ->%list_elem_of_singleton. by apply Hc.
    - split; [intros c Hx; by inversion Hx|]. intros c [= <-]. by apply Hc. }
  destruct (search _ _ _ _) as [[[best []]|e] n1] eqn:Es; [| |done].
  - intros [= <- _]. eapply search_holds; [|apply holds_none|exact Es]. intros c m a p m' [?|?]%elem_of_app; eapply Hr; auto.
  - assert (holds best) as Hb.
    { eapply search_holds; [|apply holds_none|exact Es]. intros c m a p m' [?|?]%elem_of_app; eapply Hr; auto. }
    destruct fallback as [c|]; [|by intros [= <- _]]. unfold try_fallback.
    destruct (read c n1) as [[[[ann plat]|]|e] n2] eqn:Er.
    + assert (P ann plat) as Hp by (eapply Hr; [by apply Hfb|done]).
      assert (holds (Some (ann, plat))) as Hs by (intros a p E; by injection E as <- <-).
      destruct best as [[ba bp]|]; [destruct (negb (betterPlatform bp plat))|]; intros E; by injection E as <- _.
    + by intros [= <- _].
    + destruct best as [[ba bp]|]; [destruct (negb (betterPlatform (Blob_Platform c) bp))|done]; [|done].
      intros E; by injection E as <- _.
Qed.
End Walk.

Lemma metadata_attested root rbody levels repo ao k desc body n raw plat n' :
  under root rbody k desc body → k + levels = S maxIndexDepth →
  metadata levels repo ao desc body n = (Ok (Some (raw, plat)), n') →
  from_manifest root rbody ao raw plat ∨ (plat = None ∧ from_index root rbody ao raw).
Proof.
  revert k desc body n raw plat n'. induction levels as [|levels IH]; intros k desc body n raw plat n' Hu Hk.
  all: cbn [metadata]; destruct (isIndex (MediaType desc)) eqn:Ei; cbn [negb].
  2,4: destruct (isImageManifest (MediaType desc)) eqn:Em; cbn [negb]; [|done];
    destruct (parse_manifest body) as [m|] eqn:Ep; [|done]; intros [= Hr _];
    apply result_bind_Ok in Hr as ([] & Hreq & Hr); injection Hr as <- <-; left;
    exists k, desc, body, m; repeat split; try done; lia.
  1: done.
  destruct (parse_index body) as [index|] eqn:Ep; [|done].
  case_match; [done|]. case_match; [done|].
  destruct (bool_decide _ && _ && _) eqn:Es.
  - apply andb_true_iff in Es as [[Hl Hao]%andb_true_iff Hne]. apply bool_decide_eq_true in Hl.
    apply negb_true_iff, bool_decide_eq_false in Hne. intros [= <- <- _]. right. split; [done|].
    assert (k = 0) as -> by lia. inversion Hu; subst. split; [done|]. eauto.
  - intros Hw. eapply (walk_index_holds _ (λ raw plat, from_manifest root rbody ao raw plat ∨ (plat = None ∧ from_index root rbody ao raw)))
      in Hw; [by apply Hw|].
    intros c m a p m' Hc. unfold fetchDescriptor. destruct (consume_manifest m) as [m1|e]; [|done].
    destruct (s ← _; _) as [cbody|e] eqn:Ef; [|done]. apply result_bind_Ok in Ef as (s & _ & Hv).
    apply readVerified_verified in Hv. apply (IH (S k)); [by eapply under_child|lia].
Qed.
End Attested.

(** ** Properties *)

(** C33: however a registry answers, reading a reference fetches at most 32
    manifests, and the descriptor returned is under the digest returned: it is the
    annotation of a plain image manifest that a chain of at most five indexes
    reaches from the blob of that digest, each blob checked against the size and
    digest its parent lists it by — or the annotation of that blob itself, an
    index. *)
Theorem descriptor_attested `{References, Digests, Platforms, Decoders} repo name :
  (readDescriptor repo name).2 ≤ maxManifestFetches ∧
  ∀ raw digest, (readDescriptor repo name).1 = Ok (raw, digest) →
    ∃ root rbody, Blob_Digest root = digest ∧ verified root rbody ∧
      ((∃ plat, from_manifest root rbody true raw plat) ∨ from_index root rbody true raw).
Proof.
  unfold readDescriptor, fetchManifest. cbn [consume_manifest Nat.leb maxManifestFetches].
  destruct (consume_manifest 0) as [n|e] eqn:Ec; [|by vm_compute in Ec].
  apply consume_manifest_bound in Ec as [-> Hb].
  destruct ('(desc, s) ← _; _) as [[desc body]|e] eqn:Er; [|done].
  apply result_bind_Ok in Er as ([desc' s] & _ & Er). apply result_bind_Ok in Er as (body' & Hv & [= <- <-]).
  apply readVerified_verified in Hv.
  pose proof (metadata_bound (S maxIndexDepth) repo true desc' body' 1 Hb) as Hm.
  destruct (metadata _ _ _ _ _ _) as [[[[raw plat]|]|e] n'] eqn:Em; cbn in *; [|split; [lia|done]..].
  split; [lia|]. intros raw' digest [= <- <-]. exists desc', body'. split; [done|]. split; [done|].
  apply (metadata_attested desc' body' (S maxIndexDepth) repo true 0) in Em as [?|[_ ?]]; [by left; eauto|by right|by constructor|done].
Qed.

(** *** A registry with one index

    A blob is its own digest; the index lists a manifest for another platform, a
    nested index and a manifest without a platform. *)

Definition amd64 : Platform := mkPlatform "amd64" "linux" "" [] "".
Definition arm64 : Platform := mkPlatform "arm64" "linux" "" [] "".

Definition toy_references : References :=
  {| Named := string; ParseNormalizedNamed := Ok; TagNameOnly := id; Canonical := λ _, None; Tagged := Some;
     TrimNamed := id; WithDigest := λ n d, Ok (n +:+ "@" +:+ d); named_string := id |}.
Definition toy_digests : Digests :=
  {| digest_parse := Ok; digest_valid := λ _, true; digest_of := λ _ body, body |}.
Definition toy_platforms : Platforms :=
  {| client_platform := amd64; Match := λ p, bool_decide (p = amd64);
     Less := λ a b, bool_decide (a = amd64) && negb (bool_decide (b = amd64));
     OnlyStrict := λ a b, bool_decide (a = b) |}.
Definition toy_manifest (raw : string) : Manifest :=
  mkManifest 2 MediaTypeImageManifest "" (mkBlob MediaTypeImageConfig "config" 6 None) []
    {[ AnnotationDescriptor := raw ]}.
Definition toy_decoders : Decoders :=
  {| parse_manifest := λ body,
       if bool_decide (body = "mine") then Some (toy_manifest "kit: mine")
       else if bool_decide (body = "other") then Some (toy_manifest "kit: other") else None;
     parse_index := λ body,
       if bool_decide (body = "index") then
         Some (mkImageIndex 2 ""
                 [mkBlob MediaTypeImageManifest "other" 5 (Some arm64); mkBlob MediaTypeImageIndex "nested" 6 None] ∅)
       else if bool_decide (body = "nested") then
         Some (mkImageIndex 2 "" [mkBlob MediaTypeImageManifest "mine" 4 (Some amd64)] ∅)
       else None;
     parse_image := λ _, None |}.
Definition toy_repository : Repository :=
  {| FetchReference := λ _ _, Ok (mkBlob MediaTypeImageIndex "index" 5 None, mkStream "index" false);
     Fetch := λ _ d, Ok (mkStream (Blob_Digest d) false) |}.

Lemma descriptor_attested_witness :
  @readDescriptor toy_digests toy_platforms toy_decoders toy_repository "1.0" = (Ok ("kit: mine", "index"), 3) ∧
  ∃ root rbody, Blob_Digest root = "index" ∧ @verified toy_digests root rbody.
Proof.
  assert (@readDescriptor toy_digests toy_platforms toy_decoders toy_repository "1.0" = (Ok ("kit: mine", "index"), 3)) as E
    by by vm_compute.
  split; [exact E|].
  destruct (@descriptor_attested toy_references toy_digests toy_platforms toy_decoders toy_repository "1.0") as [_ Ha].
  destruct (Ha "kit: mine" "index") as (root & rbody & H1 & H2 & _); [by rewrite E|]. by exists root, rbody.
Defined.
