(* ===== verification/Expand.v ===== *)
(** Whole-document expansion: [ExpandCreateArgs] and the validators of expanded
    forms ([spec/expand.go], [spec/groups.go]), [ExpandEnvironment]
    ([spec/environment.go]), the arguments of a listed kit ([spec/merge.go]), and
    the JSON and YAML forms of a descriptor.

    The YAML library is the class [Documents] of [Validate]. *)
From stdpp Require Import options.
From S2P Require Import Prelude GoStrings Regex Version VersionOrder Json Types Config Marshal Template Merge Validate.

(** ** A descriptor's JSON form *)

(** Struct fields in the order of the struct, the entries of a map by key. *)
Definition encode_string_map (m : gmap string string) : value :=
  VMap (map (λ k, (k, VStr (default "" (m !! k)))) (sort_strings (map fst (map_to_list m)))).

Definition encode_source (s : CapabilitySource) : value :=
  VMap [("kit", VStr (Source_Kit s)); ("path", VStr (Source_Path s))].

Fixpoint encode_capability (c : Capability) : value :=
  VMap (concat [
    match Group c with
    | Some g => [("group", VMap (concat [
          omit_string "name" (Group_Name g);
          omit_string "description" (Group_Description g);
          omit_bool "optional" (Group_Optional g);
          [("capabilities", VList (map encode_capability (Group_Capabilities g)))]]))]
    | None => []
    end;
    omit_some "source" encode_source (Source c);
    omit_string "type" (Type_ c);
    omit_string "name" (Name c);
    omit_bool "optional" (Optional c);
    match Config c with Some (_ :: _ as m) => [("config", VMap m)] | _ => [] end;
    omit_string "description" (Description c)]).

Definition encode_arg (a : Arg) : value :=
  VMap (concat [
    omit_some "default" VStr (Arg_Default a);
    omit_bool "required" (Arg_Required a);
    omit_string "description" (Arg_Description a);
    omit_strings "enum" (Arg_Enum a);
    omit_string "pattern" (Arg_Pattern a);
    omit_string "env" (Arg_Env a);
    omit_string "buildArg" (Arg_BuildArg a)]).
Definition encode_args (m : gmap string Arg) : fields :=
  match sort_strings (map fst (map_to_list m)) with
  | [] => []
  | keys => [("args", VMap (omap (λ k, (λ a, (k, encode_arg a)) <$> m !! k) keys))]
  end.

Definition encode_kit (k : Kit) : value :=
  VMap (concat [
    [("ref", VStr (Kit_Ref k))];
    omit_string "digest" (Kit_Digest k);
    if bool_decide (Kit_Args k = ∅) then [] else [("args", encode_string_map (Kit_Args k))]]).

Definition encode_descriptor (d : Descriptor) : value :=
  VMap (concat [
    [("schemaVersion", VStr (Descriptor_SchemaVersion d))];
    omit_string "displayName" (DisplayName d);
    omit_string "author" (Author d);
    omit_string "description" (Descriptor_Description d);
    omit_string "sourceUrl" (SourceURL d);
    omit_string "iconUrl" (IconURL d);
    omit_string "version" (Version d);
    omit_strings "licenses" (Licenses d);
    [("kind", VStr (Kind d))];
    omit_strings "provides" (Provides d);
    omit_strings "requires" (Requires d);
    omit_strings "integrates" (Integrates d);
    omit_strings "conflicts" (Conflicts d);
    omit_list "capabilities" encode_capability (Capabilities d);
    encode_args (Args d);
    omit_string "build" (Build d);
    omit_list "kits" encode_kit (Kits d);
    omit_string "dockerfile" (Dockerfile d)]).

(** [json.Marshal]. *)
Definition json_marshal (v : value) : option string := if marshals v then Some (marshal v) else None.

(** Copies of a descriptor with one field set. *)
Definition set_args (args : gmap string Arg) (d : Descriptor) : Descriptor :=
  mkDescriptor (declarationsOnly d) (Descriptor_SchemaVersion d) (DisplayName d) (Author d)
    (Descriptor_Description d) (SourceURL d) (IconURL d) (Version d) (Licenses d) (Kind d) (Provides d)
    (Requires d) (Integrates d) (Conflicts d) (Capabilities d) args (Build d) (Kits d) (Dockerfile d) (kitsStated d).
Definition set_version (version : string) (d : Descriptor) : Descriptor :=
  mkDescriptor (declarationsOnly d) (Descriptor_SchemaVersion d) (DisplayName d) (Author d)
    (Descriptor_Description d) (SourceURL d) (IconURL d) version (Licenses d) (Kind d) (Provides d)
    (Requires d) (Integrates d) (Conflicts d) (Capabilities d) (Args d) (Build d) (Kits d) (Dockerfile d) (kitsStated d).

(** ** Documents *)

Section Documents.
Context `{Documents}.

Inductive decode_error := NotYaml (cause : string) | SchemaUnsupported (version : string).

Definition Decode (data : string) : result decode_error Descriptor :=
  d ← map_err NotYaml (yaml_descriptor data);
  if bool_decide (Descriptor_SchemaVersion d = SchemaVersion) then Ok d
  else Err (SchemaUnsupported (Descriptor_SchemaVersion d)).

(** ** Validating what was expanded *)

Definition ValidateEffective (raw : string) (d : Descriptor) : list string * list FieldError :=
  let '(warnings, errs) := ValidateRaw raw d in
  let refs := ReferencedArgs raw in
  (warnings,
   report (negb (declarationsOnly d) && HasGroups (Capabilities d)) "capabilities" GroupsLeft ++
   report (negb (bool_decide (refs = []))) "" (ArgsLeft refs) ++
   report (HasEnvReferences (Capabilities d)) "capabilities" EnvLeft ++
   errs).

Definition ValidateDeclarations (raw : string) (d : Descriptor) : list string * list FieldError :=
  ValidateRaw raw (set_declarations_only d).
Definition ValidateExpandedDeclarations (raw : string) (d : Descriptor) : list string * list FieldError :=
  ValidateEffective raw (set_declarations_only d).

(** ** Create-phase expansion *)

Inductive expand_error :=
  | NotParsed (cause : string)
  | NotEncoded
  | NoResolvedValue (name : string)
  | KeysCollapse (key : string)
  | IntroducesEnv.

(** [resolveRef] of the create phase: [None] for an argument of the build's. *)
Definition resolveRef (decls : gmap string Arg) (values : gmap string string) (name : string) :
    result expand_error (option string) :=
  if match decls !! name with Some a => negb (bool_decide (Arg_BuildArg a = "")) | None => false end then Ok None
  else
    match values !! name with
    | Some v => Ok (Some v)
    | None => Err (NoResolvedValue name)
    end.

(** The expanded text, the spans of it copied from the literal one, and whether
    anything was replaced. *)
Record expansion := mkExpansion { text : string; literals : list (nat * nat); changed : bool }.
Definition write_literal (e : expansion) (t : string) : expansion :=
  let start := String.length (text e) in
  mkExpansion (text e +:+ t) (literals e ++ [(start, start + String.length t)]) (changed e).
Fixpoint expand_matches (decls : gmap string Arg) (values : gmap string string) (e : expansion) (ps : list piece) :
    result expand_error expansion :=
  match ps with
  | [] => Ok e
  | Text t :: ps => expand_matches decls values (write_literal e t) ps
  | Match m :: ps =>
      v ← resolveRef decls values (ref_name "kit.args." m);
      expand_matches decls values
        match v with
        | Some v => mkExpansion (text e +:+ v) (literals e) true
        | None => write_literal e m
        end ps
  end.

(** The places where an environment reference opens, with what opens there. *)
Fixpoint env_openings (n : nat) (s : string) : list (nat * string) :=
  (if opens_at "kit.env" s then [(n, s)] else []) ++
  match s with "" => [] | String _ s => env_openings (S n) s end.
(** A whole reference inside one literal span. *)
Definition original (spans : list (nat * nat)) (opening : nat * string) : bool :=
  match longest_prefix envRef opening.2 with
  | None => false
  | Some m =>
      existsb (λ span, (span.1 <=? opening.1) && (opening.1 + String.length m <=? span.2)) spans
  end.

Definition expandString (decls : gmap string Arg) (values : gmap string string) (s : string) :
    result expand_error string :=
  e ← expand_matches decls values (mkExpansion "" [] false) (pieces argRef 0 s);
  if changed e && negb (forallb (original (literals e)) (env_openings 0 (text e))) then Err IntroducesEnv
  else Ok (text e).

(** A decimal integer [strconv] prints the way it is spelled. *)
Definition signed_digits (v : string) : string := trim_prefix "-" v.
Definition int_literal (v : string) : option Z :=
  let digits := signed_digits v in
  if bool_decide (digits = "") || negb (allDigits digits) then None
  else
    let n := Z.of_N (digits_value 0 digits) in
    let z := if has_prefix "-" v then (- n)%Z else n in
    if in_int64 z && bool_decide (pretty z = v) then Some z else None.

Definition typedScalar (v : string) : value :=
  if bool_decide (v = "true") || bool_decide (v = "false") then VBool (bool_decide (v = "true"))
  else
    match int_literal v with
    | Some z => VNum (NInt z)
    | None => match float_literal v with Some lit => VNum (NFloat lit) | None => VStr v end
    end.

Definition expandScalar (decls : gmap string Arg) (values : gmap string string) (s : string) :
    result expand_error value :=
  match pieces argRef 0 s with
  | [Match m] =>
      v ← resolveRef decls values (ref_name "kit.args." m);
      match v with
      | Some v => if ContainsEnvRef v then Err IntroducesEnv else Ok (typedScalar v)
      | None => Ok (VStr s)
      end
  | _ => VStr <$> expandString decls values s
  end.

(** Go's map order decides only which of several errors is reported. *)
Fixpoint expandNode (decls : gmap string Arg) (values : gmap string string) (n : value) :
    result expand_error value :=
  match n with
  | VMap m =>
      VMap <$> (fix entries (m : list (string * value)) (out : list (string * value)) :=
        match m with
        | [] => Ok out
        | (key, child) :: m =>
            k ← expandString decls values key;
            if existsb (λ kv, bool_decide (kv.1 = k)) out then Err (KeysCollapse k)
            else c ← expandNode decls values child; entries m (map_put (k, c) out)
        end) m []
  | VList l =>
      VList <$> (fix elements (l : list value) :=
        match l with
        | [] => Ok []
        | child :: l => c ← expandNode decls values child; r ← elements l; Ok (c :: r)
        end) l
  | VStr s => expandScalar decls values s
  | _ => Ok n
  end.

Definition ExpandCreateArgs (raw : string) (decls : gmap string Arg) (values : gmap string string) :
    result expand_error string :=
  doc ← map_err NotParsed (yaml_value raw);
  expanded ← expandNode decls values doc;
  match json_marshal expanded with Some out => Ok out | None => Err NotEncoded end.

(** ** Environment expansion *)

Inductive env_error :=
  | DescriptorUnencodable
  | DescriptorUndecodable
  | EnvKey (at_ : string)
  | EnvBudget (at_ : string)
  | EnvMalformed (at_ : string)
  | EnvMissing (at_ name : string)
  | EnvUnsafe (at_ name : string).

(** A string cut at its environment references; an opener that starts none. *)
Inductive env_piece := EnvText (s : string) | EnvName (name : string) | EnvBroken.
Fixpoint env_pieces (skip : nat) (s : string) : list env_piece :=
  match skip, s with
  | S skip, String _ s => env_pieces skip s
  | _, "" => []
  | O, String c s' =>
      if opens_at "kit.env" s then
        match longest_prefix envRef s with
        | Some m => EnvName (ref_name "kit.env." m) :: env_pieces (String.length m - 1) s'
        | None => [EnvBroken]
        end
      else
        match env_pieces 0 s' with
        | EnvText t :: ps => EnvText (String c t) :: ps
        | ps => EnvText (String c "") :: ps
        end
  end.

(** A value being built, and the bytes the descriptor may still grow by. *)
Definition appendText (at_ t : string) (st : string * Z) : result env_error (string * Z) :=
  let '(out, remaining) := st in
  let n := Z.of_nat (String.length t) in
  if (remaining <? n)%Z then Err (EnvBudget at_) else Ok (out +:+ t, (remaining - n)%Z).

Fixpoint expand_env_pieces (environment : gmap string string) (at_ before : string) (ps : list env_piece)
    (st : string * Z) : result env_error (string * Z) :=
  match ps with
  | [] => appendText at_ before st
  | EnvText t :: ps => expand_env_pieces environment at_ (before +:+ t) ps st
  | EnvBroken :: _ => Err (EnvMalformed at_)
  | EnvName name :: ps =>
      match environment !! name with
      | None => Err (EnvMissing at_ name)
      | Some replacement =>
          if contains_byte "000" replacement || ContainsKitPlaceholder replacement then Err (EnvUnsafe at_ name)
          else
            st ← appendText at_ before st;
            st ← appendText at_ replacement st;
            expand_env_pieces environment at_ "" ps st
      end
  end.

Definition indexed (at_ : string) (i : nat) : string := at_ +:+ "[" +:+ pretty i +:+ "]".

Fixpoint expand_env (environment : gmap string string) (at_ : string) (v : value) (remaining : Z) :
    result env_error (value * Z) :=
  match v with
  | VMap m =>
      '(m, remaining) ← (fix entries (m : list (string * value)) (remaining : Z) :=
        match m with
        | [] => Ok ([], remaining)
        | (key, child) :: m =>
            if ContainsEnvRef key then Err (EnvKey at_)
            else
              '(c, remaining) ← expand_env environment (at_ +:+ "." +:+ key) child remaining;
              '(m, remaining) ← entries m remaining;
              Ok ((key, c) :: m, remaining)
        end) m remaining;
      Ok (VMap m, remaining)
  | VList l =>
      '(l, remaining) ← (fix elements (i : nat) (l : list value) (remaining : Z) :=
        match l with
        | [] => Ok ([], remaining)
        | child :: l =>
            '(c, remaining) ← expand_env environment (indexed at_ i) child remaining;
            '(l, remaining) ← elements (S i) l remaining;
            Ok (c :: l, remaining)
        end) O l remaining;
      Ok (VList l, remaining)
  | VStr s =>
      '(s, remaining) ← expand_env_pieces environment at_ "" (env_pieces 0 s) ("", remaining);
      Ok (VStr s, remaining)
  | _ => Ok (v, remaining)
  end.

Definition set_group (g : CapabilityGroup) (c : Capability) : Capability :=
  mkCapability (Some g) (Source c) (optionalSet c) (groupSet c) (Type_ c) (Name c) (Optional c) (Config c)
    (configSet c) (Description c).
Definition with_members (l : list Capability) (g : CapabilityGroup) : CapabilityGroup :=
  mkCapabilityGroup (Group_Name g) (Group_Description g) (Group_Optional g) l.

Fixpoint expand_item (environment : gmap string string) (field : string) (item : Capability) (remaining : Z) :
    result env_error (Capability * Z) :=
  match Group item with
  | Some g =>
      '(l, remaining) ← (fix members (i : nat) (l : list Capability) (remaining : Z) :=
        match l with
        | [] => Ok ([], remaining)
        | c :: l =>
            '(c, remaining) ← expand_item environment (indexed (field +:+ ".group.capabilities") i) c remaining;
            '(l, remaining) ← members (S i) l remaining;
            Ok (c :: l, remaining)
        end) O (Group_Capabilities g) remaining;
      Ok (set_group (with_members l g) item, remaining)
  | None =>
      match Config item with
      | None => Ok (item, remaining)
      | Some m =>
          '(v, remaining) ← expand_env environment (field +:+ ".config") (VMap m) remaining;
          Ok (with_config item (toConfigMap v), remaining)
      end
  end.
Fixpoint expand_items (environment : gmap string string) (i : nat) (items : list Capability) (remaining : Z) :
    result env_error (list Capability * Z) :=
  match items with
  | [] => Ok ([], remaining)
  | c :: items =>
      '(c, remaining) ← expand_item environment (indexed "capabilities" i) c remaining;
      '(items, remaining) ← expand_items environment (S i) items remaining;
      Ok (c :: items, remaining)
  end.

Definition ExpandEnvironment (d : Descriptor) (environment : gmap string string) :
    result env_error Descriptor :=
  match json_marshal (encode_descriptor d) with
  | None => Err DescriptorUnencodable
  | Some raw =>
      if (SizeErrorBytes <? Z.of_nat (String.length raw))%Z then Err DescriptorUnencodable
      else
        out ← map_err (λ _, DescriptorUndecodable) (Decode raw);
        '(items, _) ← expand_items environment 0 (Capabilities out) SizeErrorBytes;
        Ok (with_capabilities items out)
  end.
End Documents.

(** ** The arguments of a listed kit ([spec/merge.go]) *)

Section KitArgs.
Context (compile : string → option (string → bool)).

Definition create_args (decls : gmap string Arg) : gmap string Arg :=
  filter (λ kv, Arg_BuildArg kv.2 = "") decls.

(** The supplied values: literal ones, and references deferred to the set. *)
Fixpoint split_supplied (decls : gmap string Arg) (literal deferred : gmap string string)
    (supplied : list (string * string)) : result arg_error (gmap string string * gmap string string) :=
  match supplied with
  | [] => Ok (literal, deferred)
  | (name, v) :: supplied =>
      match create_args decls !! name with
      | None => Err (if bool_decide (is_Some (decls !! name)) then ArgBakedIn name else ArgNotDeclared name)
      | Some _ =>
          if IsWholeArgRef v then split_supplied decls literal (<[name := v]> deferred) supplied
          else if ContainsArgRef v then Err (ArgEmbedded name v)
          else split_supplied decls (<[name := v]> literal) deferred supplied
      end
  end.

Definition KitArgValues (decls : gmap string Arg) (supplied : gmap string string) :
    result arg_error (gmap string string) :=
  '(literal, deferred) ← split_supplied decls ∅ ∅ (map_to_list supplied);
  values ← ResolveArgs compile (filter (λ kv, deferred !! kv.1 = None) (create_args decls)) literal;
  Ok (deferred ∪ values).
End KitArgs.
