(* ===== verification/ExpandFacts.v ===== *)
(** Properties of document expansion ([spec/expand.go], [spec/environment.go]):
    arguments cannot bring environment references into a document. *)
From stdpp Require Import options.
From S2P Require Import Prelude Diagnostics GoStrings Regex Version Json Types Config Marshal Template Merge Validate Expand.

(** ** The references of a text and of a document *)

(** The names at the openings that are whole references. *)
Definition env_references (s : string) : list string :=
  omap (λ o, ref_name "kit.env." <$> longest_prefix envRef o.2) (env_openings 0 s).

(** Those of all the strings and keys of a document. *)
Fixpoint doc_references (v : value) : list string :=
  match v with
  | VStr s => env_references s
  | VList l => flat_map doc_references l
  | VMap m => flat_map (λ kv, env_references kv.1 ++ doc_references kv.2) m
  | _ => []
  end.

(** ** One way to match *)

Lemma re_match_cat r1 r2 s :
  re_match (RCat r1 r2) s → ∃ s1 s2, s = s1 +:+ s2 ∧ re_match r1 s1 ∧ re_match r2 s2.
Proof. inversion 1; subst. eauto. Qed.

Lemma str_forall_free f c s : f c = false → str_forall f s = true → contains_byte c s = false.
Proof. intros Hf Hs. by apply (str_forall_contains f). Qed.

(** A reference opens, names a variable and ends at its first closing brace. *)
Lemma envRef_ends m : re_match envRef m →
  ∃ a sp rest, m = a +:+ String "}" "}" ∧ contains_byte "}" a = false ∧
    a = "${{" +:+ sp +:+ "kit.env" +:+ String "." rest ∧ str_forall is_space sp = true.
Proof.
  unfold envRef, reference_to, opening. intros (m1 & m2 & -> & Hm1 & Hm2)%re_match_cat.
  apply re_match_cat in Hm1 as (o & m1' & -> & ->%re_match_lit & Hm1).
  apply re_match_cat in Hm1 as (sp & k & -> & Hsp%re_match_star_set & ->%re_match_lit).
  apply re_match_cat in Hm2 as (name & m2' & -> & Hname & Hm2).
  apply re_match_cat in Hm2 as (sp' & e & -> & Hsp'%re_match_star_set & ->%re_match_lit).
  apply (re_match_within is_word) in Hname; [|by vm_compute].
  exists ("${{" +:+ sp +:+ "kit.env" +:+ String "." (name +:+ sp')), sp, (name +:+ sp').
  split; [|split; [|done]].
  - assert ("kit.env." = "kit.env" +:+ String "." "") as -> by done.
    by rewrite !str_app_assoc, !str_app_cons, !str_app_assoc.
  - rewrite !contains_byte_app, !contains_byte_cons, !contains_byte_app, !orb_false_iff. split_and!; try done.
    all: eapply str_forall_free; [|eassumption]; done.
Qed.

Lemma cut_unique c a b s t :
  a +:+ String c s = b +:+ String c t → contains_byte c a = false → contains_byte c b = false → a = b ∧ s = t.
Proof.
  intros E Ha Hb. apply (cut_app c _ s) in Ha. apply (cut_app c _ t) in Hb. rewrite E, Hb in Ha. by simplify_eq.
Qed.

Lemma longest_envRef m q : re_match envRef m → longest_prefix envRef (m +:+ q) = Some m.
Proof.
  intros Hm. destruct (longest_prefix_Some envRef m q Hm) as [p Hp]. rewrite Hp. f_equal.
  apply longest_prefix_match in Hp as [Hp [q' E]].
  apply envRef_ends in Hm as (a & _ & _ & -> & Hf & _). apply envRef_ends in Hp as (a' & _ & _ & -> & Hf' & _).
  rewrite !str_app_assoc, !str_app_cons in E. by apply cut_unique in E as [-> _].
Qed.

Lemma opening_shape p : re_match (opening "kit.env") p → ∃ sp, p = "${{" +:+ sp +:+ "kit.env" ∧ str_forall is_space sp = true.
Proof.
  intros (o & p' & -> & ->%re_match_lit & Hp)%re_match_cat.
  apply re_match_cat in Hp as (sp & k & -> & Hsp%re_match_star_set & ->%re_match_lit). by exists sp.
Qed.
Lemma shape_opening sp : str_forall is_space sp = true → re_match (opening "kit.env") ("${{" +:+ sp +:+ "kit.env").
Proof.
  intros Hs. unfold opening. constructor; [by apply re_match_lit|]. constructor; [by apply re_match_star_set|by apply re_match_lit].
Qed.

Lemma envRef_opens m q : re_match envRef m → opens_at "kit.env" (m +:+ q) = true.
Proof.
  intros Hm. apply envRef_ends in Hm as (a & sp & rest & -> & _ & -> & Hsp).
  assert (∃ tail, (("${{" +:+ sp +:+ "kit.env" +:+ String "." rest) +:+ String "}" "}") +:+ q =
                  ("${{" +:+ sp +:+ "kit.env") +:+ String "." tail) as [tail ->].
  { exists (rest +:+ String "}" "}" +:+ q). by rewrite !str_app_assoc, !str_app_cons. }
  unfold opens_at. destruct (longest_prefix_Some _ _ (String "." tail) (shape_opening sp Hsp)) as [p Hp].
  rewrite Hp. apply longest_prefix_match in Hp as [Hp [q' E]].
  apply opening_shape in Hp as (sp' & -> & Hsp').
  assert (sp = sp' ∧ q' = String "." tail) as [-> ->].
  { rewrite !str_app_assoc in E. apply (inj (String.app "${{")) in E.
    apply (cut_unique "k" sp sp') in E as [-> E]; [| |].
    - split; [done|]. by injection E as ->.
    - by eapply str_forall_free; [|exact Hsp].
    - by eapply str_forall_free; [|exact Hsp']. }
  by rewrite str_drop_app.
Qed.

(** ** Where references are *)

Lemma env_openings_app n p r :
  opens_at "kit.env" r = true → (n + String.length p, r) ∈ env_openings n (p +:+ r).
Proof.
  intros Hr. revert n. induction p as [|c p IH]; intros n.
  - rewrite str_app_nil_l, Nat.add_0_r. destruct r as [|d r]; cbn [env_openings]; rewrite Hr; by left.
  - rewrite str_app_cons. cbn [env_openings String.length]. apply elem_of_app. right.
    replace (n + S (String.length p)) with (S n + String.length p) by lia. apply IH.
Qed.

Lemma env_openings_drop n s k r : (k, r) ∈ env_openings n s → n ≤ k ∧ r = str_drop (k - n) s ∧ k - n ≤ String.length s.
Proof.
  revert n. induction s as [|c s IH]; intros n; cbn [env_openings]; rewrite elem_of_app.
  - intros [H|H]; [|by inversion H]. destruct (opens_at _ _); [|by inversion H].
    apply list_elem_of_singleton in H as [= -> ->]. by rewrite Nat.sub_diag.
  - intros [H|(Hk & -> & Hl)%IH].
    + destruct (opens_at _ _); [|by inversion H]. apply list_elem_of_singleton in H as [= -> ->].
      rewrite Nat.sub_diag. split; [done|]. split; [done|cbn; lia].
    + split; [lia|]. replace (k - n) with (S (k - S n)) by lia. split; [done|cbn; lia].
Qed.

(** A whole reference in the middle of a text is one of the text's. *)
Lemma env_references_in p m q :
  re_match envRef m → ref_name "kit.env." m ∈ env_references (p +:+ m +:+ q).
Proof.
  intros Hm. unfold env_references. apply list_elem_of_omap. exists (0 + String.length p, m +:+ q).
  split; [apply env_openings_app; by apply envRef_opens|]. cbn. by rewrite longest_envRef.
Qed.

Lemma ContainsEnvRef_none s : ContainsEnvRef s = false → env_references s = [].
Proof.
  unfold ContainsEnvRef, env_references. intros Hs.
  assert (∀ n, env_openings n s = []) as ->; [|done].
  induction s as [|c s IH]; intros n; cbn [opener_in env_openings] in *; apply orb_false_iff in Hs as [-> Hs]; [done|].
  by rewrite IH.
Qed.

(** ** The literal spans of an expansion *)

Record spans_of (done : string) (e : expansion) : Prop := {
  literal_text a b : (a, b) ∈ literals e → ∃ pre t post sp sq,
    text e = pre +:+ t +:+ post ∧ String.length pre = a ∧ b = a + String.length t ∧ done = sp +:+ t +:+ sq;
  unchanged_text : changed e = false → text e = done;
}.

Lemma spans_start : spans_of "" (mkExpansion "" [] false).
Proof. split; [intros a b H; by inversion H|done]. Qed.

Lemma spans_literal done e t : spans_of done e → spans_of (done +:+ t) (write_literal e t).
Proof.
  intros [Hl Hc]. split; cbn.
  - intros a b [(pre & u & post & sp & sq & He & Ha & Hb & Hd)%Hl|[= -> ->]%list_elem_of_singleton]%elem_of_app.
    + exists pre, u, (post +:+ t), sp, (sq +:+ t). by rewrite He, Hd, !str_app_assoc.
    + exists (text e), t, "", done, "". by rewrite !str_app_nil_r.
  - intros Hch. by rewrite Hc.
Qed.

Lemma spans_value done e m v : spans_of done e → spans_of (done +:+ m) (mkExpansion (text e +:+ v) (literals e) true).
Proof.
  intros [Hl _]. split; cbn; [|done].
  intros a b (pre & u & post & sp & sq & He & Ha & Hb & Hd)%Hl.
  exists pre, u, (post +:+ v), sp, (sq +:+ m). by rewrite He, Hd, !str_app_assoc.
Qed.

Lemma expand_matches_spans decls values ps done e e' :
  expand_matches decls values e ps = Ok e' → spans_of done e → spans_of (done +:+ unpiece ps) e'.
Proof.
  revert done e. induction ps as [|[t|m] ps IH]; intros dn e; cbn [expand_matches].
  - intros [= <-]. cbn. by rewrite str_app_nil_r.
  - intros Hm Hs. cbn. fold (unpiece ps). rewrite <-str_app_assoc. by eapply IH, spans_literal.
  - intros (v & _ & Hm)%result_bind_Ok Hs. cbn. fold (unpiece ps). rewrite <-str_app_assoc.
    eapply IH; [exact Hm|]. destruct v; [by apply spans_value|by apply spans_literal].
Qed.

Lemma str_drop_app_le n s t : n ≤ String.length s → str_drop n (s +:+ t) = str_drop n s +:+ t.
Proof.
  revert n. induction s as [|c s IH]; intros n Hn; cbn in Hn; [by replace n with 0 by lia|].
  destruct n; [done|]. rewrite str_app_cons. cbn. apply IH. lia.
Qed.
Lemma str_drop_past n s t : str_drop (String.length s + n) (s +:+ t) = str_drop n t.
Proof. induction s as [|c s IH]; [done|]. rewrite str_app_cons. cbn. apply IH. Qed.

Lemma prefix_within m q t post :
  m +:+ q = t +:+ post → String.length m ≤ String.length t → ∃ t', t = m +:+ t'.
Proof.
  revert t. induction m as [|c m IH]; intros t E Hl; [by exists t; rewrite str_app_nil_l|].
  destruct t as [|d t]; cbn in Hl; [lia|]. rewrite !str_app_cons in E. injection E as -> E.
  destruct (IH t E) as [t' ->]; [lia|]. exists t'. by rewrite str_app_cons.
Qed.

Lemma expandString_references decls values s out x :
  expandString decls values s = Ok out → x ∈ env_references out → x ∈ env_references s.
Proof.
  unfold expandString. intros (e & He & Hout)%result_bind_Ok.
  apply (expand_matches_spans _ _ _ "") in He as [Hlit Hun]; [|apply spans_start].
  rewrite str_app_nil_l, unpiece_pieces in Hlit, Hun. cbn [str_drop] in Hlit, Hun.
  destruct (changed e) eqn:Hch; cbn [andb] in Hout; [|injection Hout as <-; by rewrite Hun].
  destruct (forallb _ _) eqn:Hall; cbn [negb] in Hout; [|done]. injection Hout as <-.
  rewrite forallb_Forall, Forall_forall in Hall.
  intros ([k rest] & Hin & Hx)%list_elem_of_omap. cbn in Hx. apply Hall in Hin as Horig. unfold original in Horig.
  cbn [fst snd] in Horig. destruct (longest_prefix envRef rest) as [m|] eqn:Hm; [|done]. injection Hx as <-.
  apply existsb_exists in Horig as ([a b] & Hab%list_elem_of_In & Hle). cbn in Hle.
  apply andb_true_iff in Hle as [Ha%Nat.leb_le Hb%Nat.leb_le].
  apply longest_prefix_match in Hm as [Hm [q Hq]]. apply env_openings_drop in Hin as (_ & Hr & _).
  rewrite Nat.sub_0_r in Hr. destruct (Hlit a b Hab) as (pre & t & post & sp & sq & Ht & <- & -> & Hs).
  assert (rest = str_drop (k - String.length pre) t +:+ post) as Hr'.
  { rewrite Hr, Ht. replace k with (String.length pre + (k - String.length pre)) at 1 by lia.
    rewrite str_drop_past. apply str_drop_app_le. lia. }
  destruct (prefix_within m q (str_drop (k - String.length pre) t) post) as [t' Ht'].
  { by rewrite <-Hq, <-Hr'. }
  { rewrite str_drop_length. lia. }
  rewrite Hs, <-(str_take_drop (k - String.length pre) t), Ht', !str_app_assoc, <-(str_app_assoc sp).
  by apply env_references_in.
Qed.

(** ** Documents *)

Section ValueInd.
Context (P : value → Prop).
Context (Pnull : P VNull) (Pbool : ∀ b, P (VBool b)) (Pnum : ∀ n, P (VNum n)) (Pstr : ∀ s, P (VStr s)) (Pother : P VOther).
Context (Plist : ∀ l, Forall P l → P (VList l)) (Pmap : ∀ m, Forall (λ kv, P kv.2) m → P (VMap m)).

Fixpoint value_nested_ind (v : value) : P v :=
  match v with
  | VNull => Pnull
  | VBool b => Pbool b
  | VNum n => Pnum n
  | VStr s => Pstr s
  | VOther => Pother
  | VList l => Plist l ((fix go l : Forall P l :=
      match l with [] => Forall_nil_2 P | v :: l => Forall_cons_2 P v l (value_nested_ind v) (go l) end) l)
  | VMap m => Pmap m ((fix go m : Forall (λ kv, P kv.2) m :=
      match m with
      | [] => Forall_nil_2 _
      | kv :: m => Forall_cons_2 (λ kv, P kv.2) kv m (value_nested_ind kv.2) (go m)
      end) m)
  end.
End ValueInd.

Definition entry_references (kv : string * value) : list string := env_references kv.1 ++ doc_references kv.2.

Lemma map_put_elem kv kv' m : kv' ∈ map_put kv m → kv' = kv ∨ kv' ∈ m.
Proof.
  induction m as [|e m IH]; cbn; [by intros ->%list_elem_of_singleton; left|].
  destruct (str_compare kv.1 e.1); rewrite ?elem_of_cons; naive_solver.
Qed.

Section Document.
Context `{Documents} (decls : gmap string Arg) (values : gmap string string).

Lemma typedScalar_references v x : ContainsEnvRef v = false → x ∉ doc_references (typedScalar v).
Proof.
  intros Hv. unfold typedScalar. destruct (_ || _); [by intros ?%elem_of_nil|].
  destruct (int_literal v); [by intros ?%elem_of_nil|]. destruct (float_literal v); [by intros ?%elem_of_nil|].
  cbn. rewrite ContainsEnvRef_none by done. by intros ?%elem_of_nil.
Qed.

Lemma expandScalar_references s out x :
  expandScalar decls values s = Ok out → x ∈ doc_references out → x ∈ env_references s.
Proof.
  assert (∀ out, VStr <$> expandString decls values s = Ok out → x ∈ doc_references out → x ∈ env_references s) as Htext.
  { intros o. destruct (expandString decls values s) as [t|] eqn:E; [|done]. intros [= <-].
    by apply expandString_references with decls values. }
  unfold expandScalar. destruct (pieces argRef 0 s) as [|[t|m] [|p ps]]; try by apply Htext.
  intros (v & _ & Hv)%result_bind_Ok. destruct v as [v|]; [|by injection Hv as <-].
  destruct (ContainsEnvRef v) eqn:Ev; [done|]. injection Hv as <-. intros Hx. by apply typedScalar_references in Hx.
Qed.

Lemma expandNode_references doc : ∀ out x,
  expandNode decls values doc = Ok out → x ∈ doc_references out → x ∈ doc_references doc.
Proof.
  induction doc as [|b|n|s| |l IH|m IH] using value_nested_ind; intros out x; cbn [expandNode];
    try by intros [= <-].
  - apply expandScalar_references.
  - match goal with |- VList <$> ?r = _ → _ => destruct r as [l'|] eqn:El; [|done] end. intros [= <-]. cbn [doc_references].
    revert l' El. induction IH as [|v l Hv _ IHl]; intros l'; [by intros [= <-]|].
    intros (c & Hc & Hr)%result_bind_Ok. apply result_bind_Ok in Hr as (r & Hr & [= <-]).
    cbn. rewrite !elem_of_app. intros [Hx|Hx]; [left; by eapply Hv|right; by eapply IHl].
  - match goal with |- VMap <$> ?r = _ → _ => destruct r as [m'|] eqn:Em; [|done] end. intros [= <-]. cbn [doc_references].
    change (flat_map _ ?m) with (flat_map entry_references m).
    assert (x ∈ flat_map entry_references m' → x ∈ flat_map entry_references [] ∨ x ∈ flat_map entry_references m) as Hgo;
      [|intros Hx; by destruct (Hgo Hx) as [Hn|]; [inversion Hn|]].
    revert Em. generalize (@nil (string * value)) as acc.
    induction IH as [|[key child] m Hchild _ IHm]; intros acc; [by intros [= <-]; left|].
    intros (k & Hk & Hr)%result_bind_Ok. destruct (existsb _ acc); [done|].
    apply result_bind_Ok in Hr as (c & Hc & Hr). intros Hx. destruct (IHm _ Hr Hx) as [Hin|Hin]; [|by right; apply elem_of_app; right].
    apply elem_of_flat_map in Hin as (kv & Hkv & Hin). apply map_put_elem in Hkv as [->|Hkv].
    + right. apply elem_of_app. left. unfold entry_references in *. cbn [fst snd] in *. rewrite elem_of_app in *.
      destruct Hin as [Hin|Hin]; [left; by eapply expandString_references|right; by eapply Hchild].
    + left. apply elem_of_flat_map. by exists kv.
Qed.
End Document.

(** ** Properties *)

(** C25: arguments cannot reach into the container's environment.  Every
    environment reference of a document whose create-phase arguments have been
    expanded, in any of its strings and keys, was there before: no argument value
    states, completes or renames one. *)
Theorem arguments_add_no_environment `{Documents} raw decls values doc expanded :
  yaml_value raw = Ok doc → expandNode decls values doc = Ok expanded →
  (ExpandCreateArgs raw decls values = Ok (marshal expanded) ∨ ExpandCreateArgs raw decls values = Err NotEncoded) ∧
  ∀ x, x ∈ doc_references expanded → x ∈ doc_references doc.
Proof.
  intros Hd He. split; [|by intros x; apply (expandNode_references decls values)].
  unfold ExpandCreateArgs. rewrite Hd. cbn. rewrite He. cbn. unfold json_marshal.
  destruct (marshals expanded); [by left|by right].
Qed.

(** An argument within a text beside a reference, one that states a reference, and
    one that would complete an opener. *)
Definition text_documents (doc : value) : Documents :=
  {| yaml_value := λ _, Ok doc; yaml_descriptor := λ _, Err ""; document_nodes := {| yaml_nodes := λ _, Err "" |};
     float_literal := λ _, None; float_negative := has_prefix "-"; url_parts := λ _, Err "";
     regexp_compiles := λ _, true; image_reference := λ _, Ok None |}.
Definition dir_document : value :=
  VMap [("path", VStr "${{ kit.env.HOME }}/${{ kit.args.dir }}"); ("port", VStr "${{ kit.args.port }}")].
Definition an_arg : Arg := mkArg None false "" [] "" "" "".

Example create_expansion_samples :
  let decls : gmap string Arg := <["dir" := an_arg]> (<["port" := an_arg]> ∅) in
  let expand doc dir := @ExpandCreateArgs (text_documents doc) "" decls (<["port" := "8080"]> {[ "dir" := dir ]}) in
  expand dir_document "src" =
    Ok (marshal (VMap [("path", VStr "${{ kit.env.HOME }}/src"); ("port", VNum (NInt 8080))])) ∧
  expand dir_document "${{ kit.env.TOKEN }}" = Err IntroducesEnv ∧
  expand (VStr "${{ kit.${{ kit.args.dir }}") "env.TOKEN }}" = Err IntroducesEnv.
Proof. by vm_compute. Qed.

Lemma arguments_add_no_environment_witness :
  let decls : gmap string Arg := <["dir" := an_arg]> (<["port" := an_arg]> ∅) in
  let expanded := VMap [("path", VStr "${{ kit.env.HOME }}/src"); ("port", VNum (NInt 8080))] in
  doc_references expanded = ["HOME"] ∧ "HOME" ∈ doc_references dir_document.
Proof.
  intros decls expanded. split; [by vm_compute|].
  apply (@arguments_add_no_environment (text_documents dir_document) "" decls (<["port" := "8080"]> {[ "dir" := "src" ]})
    dir_document expanded); [done|by vm_compute|]. by left.
Defined.
