(* ===== verification/Selection.v ===== *)
(** [spec/groups.go]: the runtime's choice among the requests of a descriptor,
    with groups of requests kept whole, and what it guarantees. *)
From stdpp Require Import options.
From S2P Require Import Prelude Diagnostics GoStrings Json Types Config Marshal Template Merge Validate Context Expand.

Definition KnownCapabilities : list string :=
  [CapabilityNetworkPolicy; CapabilityNetworkPolicyV2; CapabilityCredential; CapabilitySSHAgent;
   CapabilityVolume; CapabilityPort; CapabilityUSBDevice; CapabilityResources;
   CapabilityPrivileged; CapabilityLifecycle; CapabilityAgentContext; CapabilityAgentSessions;
   CapabilityAgentSkills; CapabilityAgentSkill; CapabilitySbx; CapabilityLongRunning; CapabilityGitIdentity;
   CapabilityKitRegistry].

Definition Supported (types : list string) (c : Capability) : bool := bool_decide (Type_ c ∈ types).

Record SelectionRecord := mkSelectionRecord {
  Record_Path : string;
  Record_Name : string;
  Record_Source : option CapabilitySource;
  Members : list string;
  MemberSources : list CapabilitySource;
  Rejected : list string;
}.
Record Selection := mkSelection {
  Selection_Capabilities : list Capability;
  Selected : list SelectionRecord;
  Skipped : list SelectionRecord;
}.
Definition no_selection : Selection := mkSelection [] [] [].

(** [MapCapabilities]: a function over the requests, under the groups. *)
Section Map.
Context {E : Type} (fn : Capability → result E Capability).

Fixpoint map_capability (c : Capability) : result E Capability :=
  match Group c with
  | None => fn c
  | Some g =>
      l ← (fix members (l : list Capability) :=
        match l with
        | [] => Ok []
        | c :: l => c ← map_capability c; l ← members l; Ok (c :: l)
        end) (Group_Capabilities g);
      Ok (set_group (with_members l g) c)
  end.
Definition MapCapabilities (items : list Capability) : result E (list Capability) := mapM map_capability items.
End Map.

(** ** Selecting *)

Inductive select_error :=
  | NoSelector
  | NoDescriptorToSelect
  | SelectInvalid (errs : list FieldError)
  | SelectUnencodable (i : nat)
  | SelectArguments (i : nat)
  | SelectEnvironment
  | SelectRejected (errs : list FieldError).

Section Select.
Context {E : Type}.

(** The runtime's answer, which may look at the clock. *)
Notation selector := (Capability → M E bool) (only parsing).

Definition item_path (i : nat) : string := "capabilities[" +:+ pretty i +:+ "]".
(** The members of an item with their paths, its name and whether it is optional. *)
Definition item_members (at_ : string) (item : Capability) : list (string * Capability) * string * bool :=
  match Group item with
  | Some g =>
      (imap (λ j c, (at_ +:+ ".group.capabilities[" +:+ pretty j +:+ "]", c)) (Group_Capabilities g),
       Group_Name g, Group_Optional g)
  | None => ([(at_, item)], Name item, Optional item)
  end.

Definition origin_of (memberPath : string) (c : Capability) : CapabilitySource :=
  default (mkCapabilitySource "" memberPath) (Source c).
Definition rejection (at_ memberPath : string) (origin : CapabilitySource) : FieldError :=
  mkFieldError memberPath
    (SelectionRejected at_
       (if negb (bool_decide (Source_Kit origin = "")) || negb (bool_decide (Source_Path origin = memberPath))
        then Some origin else None)).

Record item_state := mkItemState {
  record : SelectionRecord;
  chosen : list Capability;
  refusals : list FieldError;
}.

Definition select_member (selectCapability : selector) (at_ : string) (optional : bool) (st : item_state) (member : string * Capability) :
    M E item_state :=
  let '(memberPath, c) := member in
  let r := record st in
  let origin := origin_of memberPath c in
  yes ⇠ selectCapability c;
  let rejected := if yes : bool then [] else [memberPath] in
  ok (mkItemState
        (mkSelectionRecord (Record_Path r) (Record_Name r) (Record_Source r) (Members r ++ [memberPath])
           (MemberSources r ++ [origin]) (Rejected r ++ rejected))
        (chosen st ++ [match Source c with Some _ => c | None => set_source (Some origin) c end])
        (refusals st ++ (if yes || optional then [] else [rejection at_ memberPath origin]))).

Definition select_item (selectCapability : selector) (st : Selection * list FieldError) (indexed : nat * Capability) :
    M E (Selection * list FieldError) :=
  let '(selection, errs) := st in
  let '(i, item) := indexed in
  let at_ := item_path i in
  let '(members, name, optional) := item_members at_ item in
  one ⇠ for_range (select_member selectCapability at_ optional)
          (mkItemState (mkSelectionRecord at_ name (Source item) [] [] []) [] errs) members;
  ok (if bool_decide (Rejected (record one) = [])
      then mkSelection (Selection_Capabilities selection ++ chosen one) (Selected selection ++ [record one])
             (Skipped selection)
      else mkSelection (Selection_Capabilities selection) (Selected selection)
             (Skipped selection ++ [record one]),
      refusals one).

(** What must hold before the runtime is asked: valid declarations, nothing left
    to expand. *)
Definition unexpanded (indexed : nat * Capability) : option select_error :=
  match json_marshal (encode_capability indexed.2) with
  | None => Some (SelectUnencodable indexed.1)
  | Some raw => if has_match argRef raw then Some (SelectArguments indexed.1) else None
  end.
Definition selectable `{Documents} (d : Descriptor) : option select_error :=
  let errs := (Validate (set_declarations_only d)).2 in
  if negb (bool_decide (errs = [])) then Some (SelectInvalid errs)
  else
    match omap unexpanded (imap pair (Capabilities d)) with
    | e :: _ => Some e
    | [] => if HasEnvReferences (Capabilities d) then Some SelectEnvironment else None
    end.

(** The records are returned beside a refusal. *)
Definition SelectCapabilities `{Documents} (d : option Descriptor) (selectCapability : option selector) :
    M E (Selection * option select_error) :=
  match selectCapability, d with
  | None, _ => ok (no_selection, Some NoSelector)
  | Some _, None => ok (no_selection, Some NoDescriptorToSelect)
  | Some selectCapability, Some d =>
      match selectable d with
      | Some e => ok (no_selection, Some e)
      | None =>
          st ⇠ for_range (select_item selectCapability) (no_selection, []) (imap pair (Capabilities d));
          ok (st.1, if bool_decide (st.2 = []) then None else Some (SelectRejected st.2))
      end
  end.
End Select.

(** ** What a selection is *)

Section Facts.
Context {E : Type} (s : Capability → bool).

Notation select := (λ c, ok (E:=E) (s c)).

(** The requests an item stands for, with their paths. *)
Definition members_of (indexed : nat * Capability) : list (string * Capability) :=
  (item_members (item_path indexed.1) indexed.2).1.1.
Definition item_optional (indexed : nat * Capability) : bool :=
  (item_members (item_path indexed.1) indexed.2).2.
(** A request with its source stated. *)
Definition sourced (member : string * Capability) : Capability :=
  match Source member.2 with
  | Some _ => member.2
  | None => set_source (Some (origin_of member.1 member.2)) member.2
  end.
Definition wholly_accepted (indexed : nat * Capability) : bool := forallb (λ m, s m.2) (members_of indexed).

Definition member_step (at_ : string) (optional : bool) (st : item_state) (m : string * Capability) : item_state :=
  let r := record st in
  mkItemState
    (mkSelectionRecord (Record_Path r) (Record_Name r) (Record_Source r) (Members r ++ [m.1])
       (MemberSources r ++ [origin_of m.1 m.2]) (Rejected r ++ if s m.2 then [] else [m.1]))
    (chosen st ++ [sourced m])
    (refusals st ++ if s m.2 || optional then [] else [rejection at_ m.1 (origin_of m.1 m.2)]).

Lemma select_member_pure at_ optional st m w :
  select_member select at_ optional st m w = (Ok (member_step at_ optional st m), w).
Proof. destruct m as [p c]. unfold select_member, member_step, sourced, bind, ok. cbn. by destruct (s c), (Source c). Qed.

Lemma member_steps at_ optional l st :
  foldl (member_step at_ optional) st l =
  mkItemState
    (mkSelectionRecord (Record_Path (record st)) (Record_Name (record st)) (Record_Source (record st))
       (Members (record st) ++ map fst l) (MemberSources (record st) ++ map (λ m, origin_of m.1 m.2) l)
       (Rejected (record st) ++ map fst (List.filter (λ m, negb (s m.2)) l)))
    (chosen st ++ map sourced l)
    (refusals st ++ map (λ m, rejection at_ m.1 (origin_of m.1 m.2))
                      (List.filter (λ m, negb (s m.2 || optional)) l)).
Proof.
  revert st. induction l as [|m l IH]; intros [[]]; cbn [foldl]; [by rewrite !app_nil_r|].
  rewrite IH. unfold member_step. cbn. rewrite <-!(assoc_L (++)). cbn. by destruct (s m.2), optional.
Qed.

(** The record of an item, and what one refused item adds to the error. *)
Definition item_record (indexed : nat * Capability) : SelectionRecord :=
  mkSelectionRecord (item_path indexed.1) (item_members (item_path indexed.1) indexed.2).1.2 (Source indexed.2)
    (map fst (members_of indexed)) (map (λ m, origin_of m.1 m.2) (members_of indexed))
    (map fst (List.filter (λ m, negb (s m.2)) (members_of indexed))).
Definition item_refusals (indexed : nat * Capability) : list FieldError :=
  map (λ m, rejection (item_path indexed.1) m.1 (origin_of m.1 m.2))
    (List.filter (λ m, negb (s m.2 || item_optional indexed)) (members_of indexed)).
Definition item_step (st : Selection * list FieldError) (indexed : nat * Capability) : Selection * list FieldError :=
  (if wholly_accepted indexed
   then mkSelection (Selection_Capabilities st.1 ++ map sourced (members_of indexed))
          (Selected st.1 ++ [item_record indexed]) (Skipped st.1)
   else mkSelection (Selection_Capabilities st.1) (Selected st.1) (Skipped st.1 ++ [item_record indexed]),
   st.2 ++ item_refusals indexed).

Lemma rejected_nil {A} (f : A → bool) (g : A → string) l :
  bool_decide (map g (List.filter (λ m, negb (f m)) l) = []) = forallb f l.
Proof.
  induction l as [|m l IH]; [done|]. cbn. destruct (f m); cbn; [apply IH|done].
Qed.

Lemma select_item_pure st indexed w : select_item select st indexed w = (Ok (item_step st indexed), w).
Proof.
  destruct st as [selection errs], indexed as [i item]. unfold select_item, item_step, wholly_accepted, members_of,
    item_record, item_refusals, item_optional, members_of. cbn [fst snd].
  destruct (item_members (item_path i) item) as [[members name] optional] eqn:Em. cbn [fst snd].
  unfold bind. rewrite (for_range_pure _ (member_step (item_path i) optional)) by apply select_member_pure.
  rewrite member_steps. cbn [record chosen refusals Record_Path Record_Name Record_Source Members MemberSources Rejected app].
  unfold ok. rewrite (rejected_nil (λ m, s m.2)). by destruct (forallb _ members).
Qed.

Lemma item_steps l st :
  foldl item_step st l =
  (mkSelection (Selection_Capabilities st.1 ++ flat_map (λ x, map sourced (members_of x)) (List.filter wholly_accepted l))
     (Selected st.1 ++ map item_record (List.filter wholly_accepted l))
     (Skipped st.1 ++ map item_record (List.filter (λ x, negb (wholly_accepted x)) l)),
   st.2 ++ flat_map item_refusals l).
Proof.
  revert st. induction l as [|x l IH]; intros [[] errs]; cbn [foldl]; [cbn; by rewrite !app_nil_r|].
  rewrite IH. unfold item_step. cbn. destruct (wholly_accepted x); cbn; by rewrite <-!(assoc_L (++)).
Qed.

Lemma item_refusals_nil x : item_refusals x = [] ↔ item_optional x = true ∨ wholly_accepted x = true.
Proof.
  unfold item_refusals, wholly_accepted. destruct (item_optional x).
  - split; [by left|]. intros _. induction (members_of x) as [|m l IH]; [done|]. cbn. by rewrite orb_true_r.
  - induction (members_of x) as [|m l IH]; cbn; [naive_solver|]. rewrite orb_false_r.
    destruct (s m.2); cbn; [apply IH|naive_solver].
Qed.

(** The requests of the items the runtime accepts whole. *)
Definition accepted_requests (d : Descriptor) : list Capability :=
  flat_map (λ x, map sourced (members_of x)) (List.filter wholly_accepted (imap pair (Capabilities d))).

Lemma SelectCapabilities_pure `{Documents} d w :
  SelectCapabilities (Some d) (Some select) w =
  (Ok match selectable d with
      | Some e => (no_selection, Some e)
      | None =>
          let items := imap pair (Capabilities d) in
          let errs := flat_map item_refusals items in
          (mkSelection (accepted_requests d) (map item_record (List.filter wholly_accepted items))
             (map item_record (List.filter (λ x, negb (wholly_accepted x)) items)),
           if bool_decide (errs = []) then None else Some (SelectRejected errs))
      end, w).
Proof.
  unfold SelectCapabilities. destruct (selectable d) as [e|]; [done|].
  unfold bind. rewrite (for_range_pure _ item_step) by apply select_item_pure. by rewrite item_steps.
Qed.

Lemma refusals_none items :
  flat_map item_refusals items = [] ↔ ∀ x, x ∈ items → item_optional x = false → wholly_accepted x = true.
Proof.
  split.
  - intros Hn x Hx Ho. assert (item_refusals x = []) as [?|?]%item_refusals_nil; [|congruence|done].
    apply elem_of_nil_inv. intros y Hy. assert (y ∈ flat_map item_refusals items) as Hy'; [|rewrite Hn in Hy'; by inversion Hy'].
    apply elem_of_flat_map. by exists x.
  - intros Hall. apply elem_of_nil_inv. intros y (x & Hx & Hy)%elem_of_flat_map.
    assert (item_refusals x = []) as Hn; [|rewrite Hn in Hy; by inversion Hy]. apply item_refusals_nil.
    destruct (item_optional x) eqn:Eo; [by left|right; by apply Hall].
Qed.
End Facts.

(** ** Properties *)

(** C26: selection is atomic.  Nothing is asked of the runtime unless the
    declarations are valid and wholly expanded.  Then the selected requests are, in
    order and each with its source, the members of exactly those items all of whose
    members the runtime accepts; the records of the other items are kept as
    skipped; and there is an error exactly when one of those is not optional. *)
Theorem selection_atomic {E : Type} `{Documents} (s : Capability → bool) d w :
  let items := imap pair (Capabilities d) in
  let accepted := List.filter (wholly_accepted s) items in
  match SelectCapabilities (E:=E) (Some d) (Some (λ c, ok (s c))) w with
  | (Ok (selection, err), w') =>
      w' = w ∧
      match selectable d with
      | Some e => selection = no_selection ∧ err = Some e
      | None =>
          Selection_Capabilities selection = flat_map (λ x, map sourced (members_of x)) accepted ∧
          Selected selection = map (item_record s) accepted ∧
          Skipped selection = map (item_record s) (List.filter (λ x, negb (wholly_accepted s x)) items) ∧
          (err = None ↔ ∀ x, x ∈ items → item_optional x = false → wholly_accepted s x = true)
      end
  | (Err _, _) => False
  end.
Proof.
  intros items accepted. rewrite SelectCapabilities_pure. destruct (selectable d) as [e|]; [done|]. cbn zeta.
  split; [done|]. split; [done|]. split; [done|]. split; [done|]. rewrite <-refusals_none. fold items.
  case_bool_decide; naive_solver.
Qed.
