(* ===== verification/Fetch.v ===== *)
(** [fetch/fetch.go] with the fetching half of [fetch/registry.go] and
    [fetch/load_kit.go]: a client and its options, published kits, and the
    resolution of a set of requests into one effective descriptor.

    Registry transport, credential stores and reference grammar are libraries'. *)
From stdpp Require Import options.
From S2P Require Import Prelude Diagnostics GoStrings Assemble Oci LayerTar Regex Version Json Types Config Marshal Template Merge Context Resolve Validate Expand Selection Inventory Registry.

(** ** Clients *)

Section Client.
Context {Credential Transport : Type} (DockerCredential : result string Credential) (defaultPlatform : Platform).

Record config := mkConfig {
  credential : option Credential;
  transport : option Transport;
  plainHTTP : bool;
  platform : Platform;
}.
Definition Option : Type := config → result string config.
Definition WithCredential (fn : option Credential) : Option := λ c,
  Ok (mkConfig fn (transport c) (plainHTTP c) (platform c)).
Definition WithDockerCredentials : Option := λ c,
  fn ← DockerCredential; Ok (mkConfig (Some fn) (transport c) (plainHTTP c) (platform c)).
Definition WithTransport (rt : option Transport) : Option := λ c,
  Ok (mkConfig (credential c) rt (plainHTTP c) (platform c)).
Definition WithPlainHTTP : Option := λ c, Ok (mkConfig (credential c) (transport c) true (platform c)).
Definition WithPlatform (p : Platform) : Option := λ c, Ok (mkConfig (credential c) (transport c) (plainHTTP c) p).

Fixpoint apply_options (c : config) (opts : list (option Option)) : result string config :=
  match opts with
  | [] => Ok c
  | None :: opts => apply_options c opts
  | Some opt :: opts => c ← opt c; apply_options c opts
  end.
(** [New]: a client is its configuration with an authentication cache. *)
Definition New (opts : list (option Option)) : result string config :=
  apply_options (mkConfig None None false defaultPlatform) opts.
End Client.

(** ** Published kits *)

Record PublishedKit := mkPublishedKit {
  PKit_Reference : string;
  PKit_Digest : string;
  PKit_Image : string;
  PKit_Descriptor : option Descriptor;
  Raw : string;
}.
Record Request := mkRequest { Request_Reference : string; Request_Args : gmap string string }.

Record KitSelection := mkKitSelection {
  KitSelection_Reference : string;
  PublishedDescriptor : option Descriptor;
  PublishedBytes : string;
  KitSelection_Selection : Selection;
}.
Record Resolved := mkResolved {
  Selections : list KitSelection;
  Resolved_Descriptor : Descriptor;
  Resolved_Kits : list Unit;
  ContainerEnv : gmap string string;
  Warnings : list string;
}.

Inductive client_error :=
  | ContextDone
  | EmptyKitSet
  | FetchFailed (ref : string) (cause : client_error)
  | RegistryError (cause : registry_error)
  | Undecodable (source : string) (cause : decode_error)
  | Unpublishable (source : string) (errs : list FieldError)
  | KitNoDescriptor (ref : string)
  | ImageUnpinned (ref : string) (cause : registry_error)
  | ArgsRefused (ref : string) (cause : arg_error)
  | ArgNotLiteral (ref name : string)
  | ExportsDiffer (ref variable : string)
  | KitsExportDiffer (owner ref variable : string)
  | NotExpanded (ref : string) (cause : expand_error)
  | EnvironmentRefused (ref : string) (cause : env_error)
  | EnvironmentUnencodable (ref : string)
  | ExpandedInvalid (ref raw : string) (errs : list FieldError)
  | ExpandedInvalidRedacted (ref at_ : string)
  | DependenciesRefused (cause : resolve_error)
  | SelectionRefused (ref : string) (cause : select_error)
  | CompositionRefused (cause : merge_error)
  | CompositionRedacted
  | MergedUnencodable
  | MergedInvalid (raw : string) (errs : list FieldError)
  | MergedInvalidRedacted
  | BadEnvironmentOverride
  | BadWorkingDirOverride
  | NoDefaultLoader (cause : string)
  | DuplicateReference (ref : string)
  | LoadKitFailed (ref : string) (cause : client_error)
  | LoaderError (cause : string)
  | LoaderReturnedNoKit
  | InvalidDigest (what digest : string)
  | NoLayers
  | NegativeSize (what : string)
  | MalformedEnvironmentAt (i : nat)
  | LoadedRootfsMismatch
  | NotLinux
  | NoAnnotation
  | ImageNotAssembled (cause : Assemble.assemble_error)
  | MalformedImageEnvironment
  | LayersRefused (cause : fetch_error).

Definition refOf (k : option PublishedKit) : string :=
  match k with
  | Some k => if bool_decide (PKit_Reference k = "") then "(none)" else PKit_Reference k
  | None => "(none)"
  end.

(** The kit and its descriptor, when there are both. *)
Definition described (k : option PublishedKit) : result client_error (PublishedKit * Descriptor) :=
  match k with
  | Some kit =>
      match PKit_Descriptor kit with
      | Some d => Ok (kit, d)
      | None => Err (KitNoDescriptor (refOf k))
      end
  | None => Err (KitNoDescriptor (refOf k))
  end.

(** ** Argument exports *)

(** What one declaration binds. *)
Definition export_of (values : gmap string string) (name : string) (decl : Arg) : option (string * string) :=
  if negb (bool_decide (Arg_BuildArg decl = "")) || bool_decide (Arg_Env decl = "") then None
  else (λ v, (Arg_Env decl, v)) <$> values !! name.

(** Go's map order decides only which of several disagreements is reported. *)
Fixpoint argExports_loop (values : gmap string string) (decls : list (string * Arg)) (env : gmap string string) :
    result string (gmap string string) :=
  match decls with
  | [] => Ok env
  | (name, decl) :: decls =>
      match export_of values name decl with
      | None => argExports_loop values decls env
      | Some (variable, v) =>
          if match env !! variable with Some held => negb (bool_decide (held = v)) | None => false end
          then Err variable
          else argExports_loop values decls (<[variable := v]> env)
      end
  end.
Definition argExports (decls : gmap string Arg) (values : gmap string string) :
    result string (option (gmap string string)) :=
  env ← argExports_loop values (map_to_list decls) ∅;
  Ok (if bool_decide (env = ∅) then None else Some env).

Record binding := mkBinding { bound_value : string; bound_owner : string }.
Fixpoint combine_kit (reference : string) (env : list (string * string)) (bound : gmap string binding) :
    result client_error (gmap string binding) :=
  match env with
  | [] => Ok bound
  | (name, v) :: env =>
      match bound !! name with
      | Some held =>
          if negb (bool_decide (bound_value held = v)) then Err (KitsExportDiffer (bound_owner held) reference name)
          else combine_kit reference env bound
      | None => combine_kit reference env (<[name := mkBinding v reference]> bound)
      end
  end.
Fixpoint combine_kits (exports : list (string * option (gmap string string))) (bound : gmap string binding) :
    result client_error (gmap string binding) :=
  match exports with
  | [] => Ok bound
  | (reference, env) :: exports =>
      bound ← combine_kit reference (map_to_list (default ∅ env)) bound;
      combine_kits exports bound
  end.
Definition bound_values (m : gmap string binding) : gmap string string := bound_value <$> m.
(** A nil result and an empty one are one value here. *)
Definition combineExports (exports : list (string * option (gmap string string))) :
    result client_error (gmap string string) :=
  b ← combine_kits exports ∅; Ok (bound_values b).

(** ** Completing sources *)

Fixpoint copy_item (reference path : string) (c : Capability) : Capability :=
  let source := default (mkCapabilitySource "" path) (Source c) in
  let source := if bool_decide (Source_Kit source = "") then mkCapabilitySource reference (Source_Path source) else source in
  let c := set_source (Some source) c in
  match Group c with
  | None => c
  | Some g =>
      set_group
        (with_members
           ((fix members (i : nat) (l : list Capability) : list Capability :=
              match l with
              | [] => []
              | m :: l => copy_item reference (indexed (path +:+ ".group.capabilities") i) m :: members (S i) l
              end) O (Group_Capabilities g)) g) c
  end.
Definition withSelectionSources (d : Descriptor) (reference : string) : Descriptor :=
  with_capabilities (imap (λ i c, copy_item reference (indexed "capabilities" i) c) (Capabilities d)) d.

(** ** Expanding one kit *)

Record expandedKit := mkExpandedKit {
  expanded_descriptor : Descriptor;
  expanded_raw : string;
  expanded_args : gmap string string;
  expanded_env : option (gmap string string);
  hadEnvironment : bool;
}.

Definition digits : regex := RPlus (RSet is_digit).
Definition expandedCapabilityPath : regex :=
  RCat (RLit "capabilities[") (RCat digits (RCat (RLit "]")
    (ROpt (RCat (RLit ".group.capabilities[") (RCat digits (RLit "]")))))).

(** The declaration an error is about: its indices and nothing of its content. *)
Definition declaration_index (errs : list FieldError) : string :=
  match errs with
  | field :: _ =>
      match longest_prefix expandedCapabilityPath (Path field) with
      | Some "" | None => ""
      | Some member => member +:+ ": "
      end
  | [] => ""
  end.

Section Fetch.
Context `{References, Digests, Platforms, Decoders, Documents, ReadySort}.
Context (compile : string → option (string → bool)).

Definition resolveKitArgs (k : option PublishedKit) (args : gmap string string) :
    result client_error (gmap string string * option (gmap string string)) :=
  '(kit, d) ← described k;
  let ref := PKit_Reference kit in
  let errs := (ValidatePublished (Raw kit) d).2 in
  if negb (bool_decide (errs = [])) then Err (Unpublishable (ref +:+ " (published descriptor)") errs)
  else
    values ← map_err (ArgsRefused ref) (KitArgValues compile (Args d) args);
    match List.find (λ kv, ContainsKitPlaceholder kv.2) (map_to_list values) with
    | Some kv => Err (ArgNotLiteral ref kv.1)
    | None =>
        env ← map_err (ExportsDiffer ref) (argExports (Args d) values);
        Ok (values, env)
    end.

Definition expandResolvedKit (kit : PublishedKit) (d : Descriptor) (values : gmap string string)
    (exports : option (gmap string string)) (environment : gmap string string) : result client_error expandedKit :=
  let ref := PKit_Reference kit in
  raw ← map_err (NotExpanded ref) (ExpandCreateArgs (Raw kit) (Args d) values);
  decoded ← map_err (Undecodable (ref +:+ " (expanded descriptor)")) (Decode raw);
  let had := HasEnvReferences (Capabilities decoded) in
  '(final, raw) ←
    (if had then
       final ← map_err (EnvironmentRefused ref) (ExpandEnvironment decoded environment);
       match json_marshal (encode_descriptor final) with
       | Some raw => Ok (final, raw)
       | None => Err (EnvironmentUnencodable ref)
       end
     else Ok (decoded, raw));
  match (ValidateExpandedDeclarations raw final).2 with
  | [] => Ok (mkExpandedKit (set_args ∅ final) raw values exports had)
  | errs => if had then Err (ExpandedInvalidRedacted ref (declaration_index errs)) else Err (ExpandedInvalid ref raw errs)
  end.

Definition expandKit (k : option PublishedKit) (args : gmap string string) : result client_error expandedKit :=
  '(values, env) ← resolveKitArgs k args;
  '(kit, d) ← described k;
  expandResolvedKit kit d values env (default ∅ env).

(** ** [Units] *)

(** The [i]th kit's unit: units are told apart by their place in the list. *)
Definition unit_of (i : nat) (k : option PublishedKit) : result client_error Unit :=
  '(kit, d) ← described k;
  image ← (if bool_decide (PKit_Image kit = "")
           then map_err (ImageUnpinned (PKit_Reference kit)) (pinnedImage (PKit_Reference kit) (PKit_Digest kit))
           else Ok (PKit_Image kit));
  Ok (mkUnit i (PKit_Reference kit) (PKit_Digest kit) image
        (Some (set_version (EffectiveProvideVersion (PKit_Reference kit) (Some d)) d)) ∅ None).
Fixpoint units_from (i : nat) (kits : list (option PublishedKit)) : result client_error (list Unit) :=
  match kits with
  | [] => Ok []
  | k :: kits => u ← unit_of i k; units ← units_from (S i) kits; Ok (u :: units)
  end.
Definition Units (kits : list (option PublishedKit)) : result client_error (list Unit) := units_from 0 kits.

(** ** Options of a resolution *)

Notation selector := (Capability → M client_error bool) (only parsing).
Record resolveOptions := mkResolveOptions {
  option_selector : option selector;
  option_environment : gmap string string;
  envOverrides : gmap string string;
}.
Definition ResolveOption : Type := resolveOptions → resolveOptions.
Definition WithCapabilitySelector (s : option selector) : ResolveOption := λ o,
  mkResolveOptions s (option_environment o) (envOverrides o).
Definition WithEnvironment (defaults overrides : gmap string string) : ResolveOption := λ o,
  mkResolveOptions (option_selector o) defaults overrides.
Definition apply_resolve_option (o : resolveOptions) (opt : option ResolveOption) : resolveOptions :=
  match opt with Some opt => opt o | None => o end.
(** A selector that does not look at the clock. *)
Definition pure_selector (s : Capability → bool) : selector := λ c, ok (s c).
Definition default_options : resolveOptions :=
  mkResolveOptions (Some (pure_selector (Supported KnownCapabilities))) ∅ ∅.

(** ** [mergeKits] *)

(** A kit with its arguments, before and after they are resolved. *)
Record prepared := mkPrepared {
  prepared_kit : PublishedKit;
  prepared_published : Descriptor;
  prepared_values : gmap string string;
  prepared_exports : option (gmap string string);
}.
Definition prepare (ka : PublishedKit * gmap string string) : result client_error prepared :=
  '(values, exports) ← resolveKitArgs (Some ka.1) ka.2;
  '(kit, d) ← described (Some ka.1);
  Ok (mkPrepared kit d values exports).

Definition final_environment (defaults exports overrides : gmap string string) : gmap string string :=
  overrides ∪ (exports ∪ defaults).

Definition expand_prepared (environment : gmap string string) (p : prepared) : result client_error expandedKit :=
  expandResolvedKit (prepared_kit p) (prepared_published p) (prepared_values p) (prepared_exports p) environment.
Definition with_descriptor (d : Descriptor) (k : PublishedKit) : PublishedKit :=
  mkPublishedKit (PKit_Reference k) (PKit_Digest k) (PKit_Image k) (Some d) (Raw k).
Definition set_unit_args (u : Unit) (p : prepared) : Unit :=
  mkUnit (uid u) (Reference u) (Digest u) (Image u) (Unit_Descriptor u) (prepared_values p) (prepared_exports p).
Definition set_unit_descriptor (d : Descriptor) (u : Unit) : Unit :=
  mkUnit (uid u) (Reference u) (Digest u) (Image u) (Some d) (Unit_Args u) (Unit_Env u).

Definition by_reference (kits : list PublishedKit) : gmap string PublishedKit :=
  foldl (λ m k, <[PKit_Reference k := k]> m) ∅ kits.

(** One unit of the composition order: select, record, contribute. *)
Definition select_unit (select : option selector) (published : gmap string PublishedKit)
    (st : list KitSelection * list Unit) (u : Unit) : M client_error (list KitSelection * list Unit) :=
  let '(selections, ordered) := st in
  let source := published !! Reference u in
  se ⇠ SelectCapabilities (Some (withSelectionSources (descriptor u) (Reference u))) select;
  let '(selection, err) := se in
  match err with
  | Some e => fail (SelectionRefused (Reference u) e)
  | None =>
      ok (selections ++ [mkKitSelection (Reference u) (k ← source; PKit_Descriptor k)
                           (match source with Some k => Raw k | None => "" end) selection],
          ordered ++ [set_unit_descriptor (with_capabilities (Selection_Capabilities selection) (descriptor u)) u])
  end.

Definition contribution_of (u : Unit) : Contribution := mkContribution (Reference u) (Unit_Descriptor u).

(** The merged descriptor, held to its own serialized form. *)
Definition compose_units (had : bool) (env : gmap string string) (selections : list KitSelection) (ordered : list Unit) :
    result client_error Resolved :=
  match Compose (map contribution_of ordered) with
  | Err e => Err (if had then CompositionRedacted else CompositionRefused e)
  | Ok merged =>
      match json_marshal (encode_descriptor merged) with
      | None => Err MergedUnencodable
      | Some raw =>
          match ValidateEffective raw merged with
          | (warnings, []) => Ok (mkResolved selections merged ordered env warnings)
          | (_, errs) => Err (if had then MergedInvalidRedacted else MergedInvalid raw errs)
          end
      end
  end.

Definition mergeKits (kits : list PublishedKit) (args : list (gmap string string)) (partial : bool)
    (opts : list (option ResolveOption)) : M client_error Resolved :=
  let options := foldl apply_resolve_option default_options opts in
  ps ⇠ lift (mapM prepare (zip kits args));
  env ⇠ lift (combineExports (map (λ p, (PKit_Reference (prepared_kit p), prepared_exports p)) ps));
  let environment := final_environment (option_environment options) env (envOverrides options) in
  expanded ⇠ lift (mapM (expand_prepared environment) ps);
  let had := existsb hadEnvironment expanded in
  units ⇠ lift (Units (zip_with (λ p e, Some (with_descriptor (expanded_descriptor e) (prepared_kit p))) ps expanded));
  let units := zip_with set_unit_args units ps in
  resolution ⇠ lift (map_err DependenciesRefused (Dependencies units partial));
  st ⇠ for_range (select_unit (option_selector options) (by_reference kits)) ([], []) (Topological resolution);
  lift (compose_units had env st.1 st.2).

(** ** The client's operations

    The registry may answer differently each time it is asked: [repository n] is
    what the [n]th call that opens a repository finds. *)
Context (repository : nat → string → result registry_error Repository).

Definition fetchKit (n : nat) (ref : string) : result client_error PublishedKit :=
  '(repoName, referenceName) ← map_err RegistryError (splitRef ref);
  repo ← map_err RegistryError (repository n repoName);
  '(raw, dgst) ← map_err RegistryError (readDescriptor repo referenceName).1;
  if bool_decide (raw = "") then Err NoAnnotation
  else
    d ← map_err (Undecodable (ref +:+ " (published descriptor)")) (Decode raw);
    let errs := (ValidatePublished raw d).2 in
    if negb (bool_decide (errs = [])) then Err (Unpublishable (ref +:+ " (published descriptor)") errs)
    else Ok (mkPublishedKit ref dgst "" (Some d) raw).
Definition FetchKit (n : nat) (ref : string) : result client_error PublishedKit :=
  map_err (FetchFailed ref) (fetchKit n ref).

Fixpoint fetch_all (n : nat) (reqs : list Request) : result client_error (list PublishedKit) :=
  match reqs with
  | [] => Ok []
  | req :: reqs =>
      k ← FetchKit n (Request_Reference req); kits ← fetch_all (S n) reqs; Ok (k :: kits)
  end.
Definition client_resolve (reqs : list Request) (partial : bool) (opts : list (option ResolveOption)) :
    M client_error Resolved :=
  if bool_decide (reqs = []) then fail EmptyKitSet
  else
    kits ⇠ lift (fetch_all 0 reqs);
    mergeKits kits (map Request_Args reqs) partial opts.
Definition Resolve (reqs : list Request) (opts : list (option ResolveOption)) := client_resolve reqs false opts.
Definition ResolvePartial (reqs : list Request) (opts : list (option ResolveOption)) := client_resolve reqs true opts.

(** [LoadKit]: the image and the layers are read by the digest the descriptor
    resolved to, whatever the tag names by then. *)
Context (open_layer : Repository → Blob → opened).

Definition LoadKit (n : nat) (ref : string) : result client_error LoadedKit :=
  kit ← FetchKit n ref;
  pinned ← map_err RegistryError (pinnedImage ref (PKit_Digest kit));
  '(manifest, image) ← map_err RegistryError (loadImage (repository (S n)) pinned);
  '(repoName, _) ← map_err RegistryError (splitRef pinned);
  repo ← map_err RegistryError (repository (S (S n)) repoName);
  Ok (mkLoadedKit (PKit_Digest kit) manifest image pinned (Raw kit) (Some (open_layer repo))).
End Fetch.
