(* ===== verification/Bindings.v ===== *)
(** Bindings of variables that must agree: the loops of [fetch/fetch.go] and
    [cmd/frontend/set.go] that refuse two values for one variable, as one function
    on association lists. *)
From stdpp Require Import options.
From S2P Require Import Prelude.

Fixpoint bind_all (l : list (string * string)) (m : gmap string string) : option (gmap string string) :=
  match l with
  | [] => Some m
  | (x, v) :: l =>
      match m !! x with
      | Some held => if bool_decide (held = v) then bind_all l m else None
      | None => bind_all l (<[x := v]> m)
      end
  end.

Lemma bind_all_spec l m :
  match bind_all l m with
  | Some out => ∀ x v, out !! x = Some v ↔ m !! x = Some v ∨ (x, v) ∈ l
  | None => ∃ x v w, v ≠ w ∧ (m !! x = Some v ∨ (x, v) ∈ l) ∧ (x, w) ∈ l
  end.
Proof.
  revert m. induction l as [|[y w] l IH]; intros m; cbn [bind_all]; [set_solver|].
  destruct (m !! y) as [held|] eqn:Ey.
  - case_bool_decide as Hh.
    + subst. specialize (IH m). destruct (bind_all l m).
      * intros x v. rewrite IH, elem_of_cons. naive_solver.
      * destruct IH as (x & v & w' & ? & ? & ?). exists x, v, w'. set_solver.
    + exists y, held, w. set_solver.
  - specialize (IH (<[y := w]> m)). destruct (bind_all l _).
    + intros x v. rewrite IH, lookup_insert_Some, elem_of_cons. naive_solver.
    + destruct IH as (x & v & w' & ? & Hv & ?). rewrite lookup_insert_Some in Hv.
      exists x, v, w'. set_solver.
Qed.

Definition agree (l : list (string * string)) : Prop := ∀ x v w, (x, v) ∈ l → (x, w) ∈ l → v = w.

Lemma bind_all_agree l : is_Some (bind_all l ∅) ↔ agree l.
Proof.
  pose proof (bind_all_spec l ∅) as H. destruct (bind_all l ∅) as [out|]; split; try done.
  - intros _ x v w Hv Hw.
    assert (out !! x = Some v) as E by (apply H; auto). assert (out !! x = Some w) as E' by (apply H; auto).
    congruence.
  - destruct H as (x & v & w & Hne & [Hv|Hv] & Hw); [by rewrite lookup_empty in Hv|].
    intros Ha. by destruct Hne; eapply Ha.
Qed.

Definition to_option {E A} (r : result E A) : option A := match r with Ok a => Some a | Err _ => None end.

Lemma bind_all_concat l l' m : bind_all (l ++ l') m = bind_all l m ≫= bind_all l'.
Proof.
  revert m. induction l as [|[x v] l IH]; intros m; [done|]. cbn.
  destruct (m !! x); [case_bool_decide; [apply IH|done]|apply IH].
Qed.

Lemma bind_all_Some l out :
  bind_all l ∅ = Some out → ∀ x v, out !! x = Some v ↔ (x, v) ∈ l.
Proof.
  intros H x v. pose proof (bind_all_spec l ∅) as Hs. rewrite H in Hs.
  rewrite Hs, lookup_empty. naive_solver.
Qed.
