(* ===== verification/FetchFacts.v ===== *)
(** Properties of the resolution of published kits ([fetch/fetch.go]): what the
    arguments export, which kits a resolution has and in which order, and what an
    error may say once environment values have been substituted. *)
From stdpp Require Import options.
From S2P Require Import Prelude Diagnostics GoStrings Oci LayerTar Regex Version Json Types Config Marshal Template Merge Context Resolve TopSort ResolveFacts Validate Expand Selection Inventory Registry Fetch Bindings.

(** ** Exports that must agree *)

(** *** The exports of one kit *)

Definition exported (decls : gmap string Arg) (values : gmap string string) (x v : string) : Prop :=
  ∃ n a, decls !! n = Some a ∧ Arg_BuildArg a = "" ∧ Arg_Env a = x ∧ x ≠ "" ∧ values !! n = Some v.

Lemma argExports_gather values decls env :
  to_option (argExports_loop values decls env) = bind_all (omap (λ nd, export_of values nd.1 nd.2) decls) env.
Proof.
  revert env. induction decls as [|[n a] decls IH]; intros env; [done|].
  cbn [argExports_loop omap list_omap fst snd].
  destruct (export_of values n a) as [[x v]|]; [|apply IH]. cbn [bind_all].
  destruct (env !! x) as [held|] eqn:Ex; [|apply IH].
  case_bool_decide as Hh; cbn [negb]; [|done]. rewrite IH. subst. by rewrite insert_id.
Qed.

Lemma export_elem decls values x v :
  (x, v) ∈ omap (λ nd, export_of values nd.1 nd.2) (map_to_list decls) ↔ exported decls values x v.
Proof.
  rewrite list_elem_of_omap. split.
  - intros ([n a] & Hn%elem_of_map_to_list & E). cbn in E. unfold export_of in E.
    case_bool_decide; [|done]. case_bool_decide; [done|]. cbn in E.
    destruct (values !! n) as [u|] eqn:Eu; [|done]. injection E as <- <-. by exists n, a.
  - intros (n & a & Hn & Hb & <- & He & Hv). exists (n, a). split; [by apply elem_of_map_to_list|].
    cbn. unfold export_of. rewrite bool_decide_eq_true_2, bool_decide_eq_false_2, Hv by done. done.
Qed.

Lemma argExports_Ok decls values env x v :
  argExports decls values = Ok env → default ∅ env !! x = Some v ↔ exported decls values x v.
Proof.
  unfold argExports. intros (m & Hm & He)%result_bind_Ok.
  assert (bind_all (omap (λ nd, export_of values nd.1 nd.2) (map_to_list decls)) ∅ = Some m) as Hg
    by by rewrite <-argExports_gather, Hm.
  pose proof (bind_all_spec (omap (λ nd, export_of values nd.1 nd.2) (map_to_list decls)) ∅) as Hs.
  rewrite Hg in Hs. rewrite <-export_elem. specialize (Hs x v). rewrite lookup_empty in Hs.
  case_bool_decide as E; injection He as <-; [subst m|]; cbn; naive_solver.
Qed.

(** *** The exports of the set *)

Lemma combine_kit_gather r l b :
  bound_values <$> to_option (combine_kit r l b) = bind_all l (bound_values b).
Proof.
  revert b. induction l as [|[x v] l IH]; intros b; [done|]. cbn [combine_kit bind_all].
  unfold bound_values at 2. rewrite lookup_fmap. destruct (b !! x) as [held|]; cbn [fmap option_fmap option_map].
  - case_bool_decide; cbn [negb]; [apply IH|done].
  - rewrite IH. unfold bound_values. by rewrite fmap_insert.
Qed.

Definition all_exports (exports : list (string * option (gmap string string))) : list (string * string) :=
  flat_map (λ e, map_to_list (default ∅ e.2)) exports.

Lemma combine_kits_gather exports b :
  bound_values <$> to_option (combine_kits exports b) = bind_all (all_exports exports) (bound_values b).
Proof.
  revert b. induction exports as [|[r env] exports IH]; intros b; [done|].
  unfold all_exports. cbn [combine_kits flat_map fst snd]. rewrite bind_all_concat, <-(combine_kit_gather r).
  destruct (combine_kit r _ b) as [b'|e]; cbn; [apply IH|done].
Qed.

Lemma combineExports_gather exports : to_option (combineExports exports) = bind_all (all_exports exports) ∅.
Proof.
  pose proof (combine_kits_gather exports ∅) as H. unfold combineExports. unfold bound_values at 2 in H.
  rewrite fmap_empty in H. rewrite <-H. by destruct (combine_kits exports ∅).
Qed.

Lemma all_exports_elem exports x v :
  (x, v) ∈ all_exports exports ↔ ∃ r env, (r, env) ∈ exports ∧ default ∅ env !! x = Some v.
Proof.
  unfold all_exports. rewrite elem_of_flat_map. split.
  - intros ([r env] & He & Hx%elem_of_map_to_list). eauto.
  - intros (r & env & He & Hx). exists (r, env). split; [done|]. by apply elem_of_map_to_list.
Qed.

(** ** The steps of a resolution *)

Section Merging.
Context `{References, Digests, Platforms, Decoders, Documents, ReadySort}.
Context (compile : string → option (string → bool)).

Notation environment_of opts env :=
  (let o := foldl apply_resolve_option default_options opts in
   final_environment (option_environment o) env (envOverrides o)) (only parsing).

(** What a successful resolution computed. *)
Record merge_run (kits : list PublishedKit) (args : list (gmap string string)) (partial : bool)
    (opts : list (option ResolveOption)) (r : Resolved) := {
  run_prepared : list prepared;
  run_expanded : list expandedKit;
  run_units : list Unit;
  run_resolution : Resolution;
  run_prepare : mapM (prepare compile) (zip kits args) = Ok run_prepared;
  run_exports : combineExports (map (λ p, (PKit_Reference (prepared_kit p), prepared_exports p)) run_prepared) =
                Ok (ContainerEnv r);
  run_expand : mapM (expand_prepared (environment_of opts (ContainerEnv r))) run_prepared = Ok run_expanded;
  run_made : Units (zip_with (λ p e, Some (with_descriptor (expanded_descriptor e) (prepared_kit p)))
                      run_prepared run_expanded) = Ok run_units;
  run_resolve : Dependencies (zip_with set_unit_args run_units run_prepared) partial = Ok run_resolution;
  run_select : ∃ w w', for_range (select_unit (option_selector (foldl apply_resolve_option default_options opts))
                                   (by_reference kits)) ([], []) (Topological run_resolution) w =
                       (Ok (Selections r, Resolved_Kits r), w');
  run_compose : compose_units (existsb hadEnvironment run_expanded) (ContainerEnv r) (Selections r) (Resolved_Kits r) = Ok r;
}.

Lemma compose_units_Ok had env selections ordered r :
  compose_units had env selections ordered = Ok r →
  r = mkResolved selections (Resolved_Descriptor r) ordered env (Warnings r) ∧
  Compose (map contribution_of ordered) = Ok (Resolved_Descriptor r) ∧
  ∃ raw, json_marshal (encode_descriptor (Resolved_Descriptor r)) = Some raw ∧
         ValidateEffective raw (Resolved_Descriptor r) = (Warnings r, []).
Proof.
  unfold compose_units. destruct (Compose _) as [merged|] eqn:Ec; [|by destruct had].
  destruct (json_marshal _) as [raw|] eqn:Ej; [|done].
  destruct (ValidateEffective raw merged) as [warnings [|? ?]] eqn:Ev; [|by destruct had].
  intros [= <-]. cbn. eauto.
Qed.

Lemma mergeKits_run kits args partial opts w r w' :
  mergeKits compile kits args partial opts w = (Ok r, w') → merge_run kits args partial opts r.
Proof.
  unfold mergeKits. destruct (bind _ _ w) as [res w1] eqn:E. intros [= -> ->].
  destruct (mapM (prepare compile) (zip kits args)) as [ps|] eqn:Eps; [|done]. cbn in E.
  destruct (combineExports _) as [env|] eqn:Eenv; [|done]. cbn in E.
  destruct (mapM (expand_prepared _) ps) as [expanded|] eqn:Eex; [|done]. cbn in E.
  destruct (Units _) as [units|] eqn:Eu; [|done]. cbn in E.
  destruct (Dependencies _ _) as [resolution|] eqn:Ed; [|done]. cbn in E.
  unfold bind at 1, lift in E. cbn in E. unfold bind in E. cbn in E.
  destruct (for_range _ _ _ _) as [[[selections ordered]|] w2] eqn:Ef; [|done].
  unfold lift in E. injection E as E <-. pose proof E as Ec. apply compose_units_Ok in Ec as [Hr _].
  refine (Build_merge_run kits args partial opts r ps expanded units resolution Eps _ _ Eu Ed _ _);
    rewrite Hr; cbn; [done|done|by eexists _, _|rewrite <-Hr; done].
Qed.

(** *** The units of the set *)

Lemma described_Ok k kit d : described k = Ok (kit, d) ↔ k = Some kit ∧ PKit_Descriptor kit = Some d.
Proof.
  unfold Fetch.described. destruct k as [k|]; [|naive_solver]. destruct (PKit_Descriptor k) eqn:E; [|naive_solver].
  split; [intros [= <- <-]; done|]. intros [[= <-] E']. by simplify_eq.
Qed.

Lemma unit_of_Ok i kit u :
  unit_of i (Some kit) = Ok u → uid u = i ∧ Reference u = PKit_Reference kit ∧ is_Some (Unit_Descriptor u).
Proof.
  unfold unit_of. intros ([kit' d] & [[= <-] Hd]%described_Ok & Hu)%result_bind_Ok.
  apply result_bind_Ok in Hu as (image & _ & [= <-]). cbn. eauto.
Qed.

Lemma units_from_Ok n kits units :
  units_from n (map Some kits) = Ok units →
  map uid units = seq n (length kits) ∧ map Reference units = map PKit_Reference kits.
Proof.
  revert n units. induction kits as [|kit kits IH]; intros n units; cbn [map units_from]; [by intros [= <-]|].
  intros (u & Hu & Hr)%result_bind_Ok. apply result_bind_Ok in Hr as (us & Hus & [= <-]).
  apply unit_of_Ok in Hu as (Hi & Hr & _). apply IH in Hus as [IH1 IH2]. cbn. by rewrite Hi, Hr, IH1, IH2.
Qed.

Lemma mapM_prepare_kits kits args ps :
  length args = length kits → mapM (prepare compile) (zip kits args) = Ok ps → map prepared_kit ps = kits.
Proof.
  revert args ps. induction kits as [|k kits IH]; intros [|a args] ps Hl; try done; [by intros [= <-]|].
  cbn. intros (p & Hp & Hr)%result_bind_Ok. apply result_bind_Ok in Hr as (ps' & Hps & [= <-]).
  cbn. erewrite IH; [|naive_solver|exact Hps]. f_equal.
  unfold prepare in Hp. apply result_bind_Ok in Hp as ([values exports] & _ & Hp). cbn in Hp.
  destruct (PKit_Descriptor k); [|done]. by injection Hp as <-.
Qed.

Lemma prepare_Ok k a p :
  prepare compile (k, a) = Ok p →
  prepared_kit p = k ∧ PKit_Descriptor k = Some (prepared_published p) ∧
  KitArgValues compile (Args (prepared_published p)) a = Ok (prepared_values p) ∧
  (∀ n v, prepared_values p !! n = Some v → ContainsKitPlaceholder v = false) ∧
  (ValidatePublished (Raw k) (prepared_published p)).2 = [] ∧
  argExports (Args (prepared_published p)) (prepared_values p) = Ok (prepared_exports p).
Proof.
  unfold prepare, resolveKitArgs. cbn [fst snd]. intros ([values exports] & Hr & Hp)%result_bind_Ok.
  apply result_bind_Ok in Hp as ([kit d] & [[= <-] Hd]%described_Ok & [= <-]). cbn.
  apply result_bind_Ok in Hr as ([kit d'] & [[= <-] Hd']%described_Ok & Hr). rewrite Hd in Hd'. injection Hd' as <-.
  case_bool_decide as Hv; cbn [negb] in Hr; [|done].
  apply result_bind_Ok in Hr as (values' & Hvals%map_err_Ok & Hr).
  destruct (List.find _ _) as [kv|] eqn:Ef; [done|].
  apply result_bind_Ok in Hr as (env & Henv%map_err_Ok & [= <- <-]). split_and!; try done.
  intros n v Hn%elem_of_map_to_list. apply (List.find_none _ _ Ef (n, v)), list_elem_of_In. exact Hn.
Qed.

Lemma mapM_length {E A B} (f : A → result E B) l l' : mapM f l = Ok l' → length l' = length l.
Proof.
  revert l'. induction l as [|a l IH]; intros l'; [by intros [= <-]|].
  cbn. intros (b & _ & Hr)%result_bind_Ok. apply result_bind_Ok in Hr as (l'' & Hl & [= <-]). cbn. by rewrite (IH l'').
Qed.

Lemma mapM_elem {E A B} (f : A → result E B) l l' b : mapM f l = Ok l' → b ∈ l' → ∃ a, a ∈ l ∧ f a = Ok b.
Proof.
  revert l'. induction l as [|a l IH]; intros l'; [intros [= <-]; set_solver|].
  cbn. intros (b' & Hb & Hr)%result_bind_Ok. apply result_bind_Ok in Hr as (l'' & Hl & [= <-]).
  intros [->|Hin]%elem_of_cons; [eexists; split; [by left|done]|].
  destruct (IH l'' Hl Hin) as (a' & ? & ?). eexists; split; [by right|done].
Qed.

Lemma run_refs kits args partial opts r (run : merge_run kits args partial opts r) :
  length args = length kits →
  map Reference (zip_with set_unit_args (run_units _ _ _ _ _ run) (run_prepared _ _ _ _ _ run)) = map PKit_Reference kits ∧
  NoDup (ids (zip_with set_unit_args (run_units _ _ _ _ _ run) (run_prepared _ _ _ _ _ run))).
Proof.
  intros Hl. destruct run as [ps expanded units resolution Hp Hx He Hu Hd Hs Hc]. cbn [run_units run_prepared].
  pose proof (mapM_prepare_kits _ _ _ Hl Hp) as Hk. apply mapM_length in He as Hle.
  assert (zip_with (λ p e, Some (with_descriptor (expanded_descriptor e) (prepared_kit p))) ps expanded =
          map Some (zip_with (λ p e, with_descriptor (expanded_descriptor e) (prepared_kit p)) ps expanded)) as Hz.
  { clear. revert expanded. induction ps as [|p ps IH]; intros [|e expanded]; try done. cbn. by rewrite IH. }
  unfold Units in Hu. rewrite Hz in Hu. apply units_from_Ok in Hu as [Hid Hr].
  assert (map PKit_Reference (zip_with (λ p e, with_descriptor (expanded_descriptor e) (prepared_kit p)) ps expanded)
          = map PKit_Reference kits) as Hkr.
  { rewrite <-Hk, map_map. clear -Hle. revert expanded Hle.
    induction ps as [|p ps IH]; intros [|e expanded] Hle; try done. cbn. by rewrite IH by (cbn in Hle; lia). }
  assert (length units = length ps) as Hlu.
  { apply (f_equal length) in Hr. rewrite Hkr, !length_map in Hr. rewrite <-Hk, length_map in Hr. done. }
  assert (∀ A (f : Unit → A), (∀ u p, f (set_unit_args u p) = f u) → map f (zip_with set_unit_args units ps) = map f units) as Hmap.
  { intros A f Hf. clear -Hf Hlu. revert ps Hlu. induction units as [|u units IH]; intros [|p ps] Hlu; try done.
    cbn. rewrite Hf, IH by (cbn in Hlu; lia). done. }
  split; [by rewrite Hmap, Hr, Hkr|]. unfold ids. change (fmap uid ?l) with (map uid l). rewrite Hmap by done.
  rewrite Hid. apply NoDup_seq.
Qed.

(** *** What a kit stands for in the set *)

(** The environment put into a descriptor that refers to it, and the bytes it is
    then judged by. *)
Definition environment_put (environment : gmap string string) (decoded : Descriptor) (raw : string)
    (final : Descriptor) (raw' : string) : Prop :=
  if HasEnvReferences (Capabilities decoded)
  then ExpandEnvironment decoded environment = Ok final ∧ json_marshal (encode_descriptor final) = Some raw'
  else final = decoded ∧ raw' = raw.

(** What the set is ordered by: the kit pinned, under the declarations its published
    bytes come to once its own arguments and then the environment are put in. *)
Record stands_for (environment : gmap string string) (kit : PublishedKit) (args : gmap string string) (u : Unit) : Prop := {
  stands_reference : Reference u = PKit_Reference kit;
  stands_digest : Digest u = PKit_Digest kit;
  stands_image : if bool_decide (PKit_Image kit = "")
                 then pinnedImage (PKit_Reference kit) (PKit_Digest kit) = Ok (Image u)
                 else Image u = PKit_Image kit;
  stands_declares : ∃ d raw decoded final raw',
    PKit_Descriptor kit = Some d ∧ (ValidatePublished (Raw kit) d).2 = [] ∧
    KitArgValues compile (Args d) args = Ok (Unit_Args u) ∧
    (∀ n v, Unit_Args u !! n = Some v → ContainsKitPlaceholder v = false) ∧
    (∀ x v, default ∅ (Unit_Env u) !! x = Some v ↔ exported (Args d) (Unit_Args u) x v) ∧
    ExpandCreateArgs (Raw kit) (Args d) (Unit_Args u) = Ok raw ∧ Decode raw = Ok decoded ∧
    environment_put environment decoded raw final raw' ∧ (ValidateExpandedDeclarations raw' final).2 = [] ∧
    Unit_Descriptor u = Some (set_version (EffectiveProvideVersion (PKit_Reference kit) (Some (set_args ∅ final)))
                                (set_args ∅ final));
}.

Lemma expandResolvedKit_Ok kit d values exports environment e :
  expandResolvedKit kit d values exports environment = Ok e →
  ∃ raw decoded final raw',
    ExpandCreateArgs (Raw kit) (Args d) values = Ok raw ∧ Decode raw = Ok decoded ∧
    environment_put environment decoded raw final raw' ∧ (ValidateExpandedDeclarations raw' final).2 = [] ∧
    expanded_descriptor e = set_args ∅ final.
Proof.
  unfold expandResolvedKit, environment_put. intros (raw & Hraw%map_err_Ok & He)%result_bind_Ok.
  apply result_bind_Ok in He as (decoded & Hdec%map_err_Ok & He).
  apply result_bind_Ok in He as ([final raw'] & Hput & He).
  exists raw, decoded, final, raw'. split; [done|]. split; [done|]. split.
  - destruct (HasEnvReferences (Capabilities decoded)); [|by injection Hput].
    apply result_bind_Ok in Hput as (f & Hf%map_err_Ok & Hput).
    destruct (json_marshal (encode_descriptor f)) eqn:Ej; [|done]. by injection Hput as <- <-.
  - destruct (ValidateExpandedDeclarations raw' final).2 eqn:Ev; [|by destruct (HasEnvReferences _)]. by injection He as <-.
Qed.

Lemma unit_of_stands environment i ka p e u :
  prepare compile ka = Ok p → expand_prepared environment p = Ok e →
  unit_of i (Some (with_descriptor (expanded_descriptor e) (prepared_kit p))) = Ok u →
  stands_for environment ka.1 ka.2 (set_unit_args u p).
Proof.
  destruct ka as [k a]. intros (Hk & Hd & Hvals & Hlit & Hpub & Hexp)%prepare_Ok He.
  apply expandResolvedKit_Ok in He as (raw & decoded & final & raw' & Hraw & Hdec & Hput & Hv & Ee).
  unfold unit_of. intros ([kit' d'] & [[= <-] Hd']%described_Ok & Hu)%result_bind_Ok. cbn [PKit_Descriptor with_descriptor] in Hd'.
  injection Hd' as <-. apply result_bind_Ok in Hu as (image & Hi & [= <-]). rewrite Hk in *. cbn in *. split; cbn; [done..| |].
  - case_bool_decide; [by apply map_err_Ok in Hi|by injection Hi].
  - exists (prepared_published p), raw, decoded, final, raw'. rewrite Ee. split_and!; try done. intros x v. by apply argExports_Ok.
Qed.

Lemma units_stand environment kas ps expanded n units :
  mapM (prepare compile) kas = Ok ps → mapM (expand_prepared environment) ps = Ok expanded →
  units_from n (zip_with (λ p e, Some (with_descriptor (expanded_descriptor e) (prepared_kit p))) ps expanded) = Ok units →
  Forall2 (λ ka u, stands_for environment ka.1 ka.2 u) kas (zip_with set_unit_args units ps).
Proof.
  revert ps expanded n units. induction kas as [|ka kas IH]; intros ps expanded n units.
  - intros [= <-] [= <-] [= <-]. constructor.
  - cbn [mapM]. intros (p & Hp & Hr)%result_bind_Ok. apply result_bind_Ok in Hr as (ps' & Hps & [= <-]).
    cbn [mapM]. intros (e & He & Hr)%result_bind_Ok. apply result_bind_Ok in Hr as (es & Hes & [= <-]).
    cbn [zip_with units_from]. intros (u & Hu & Hr)%result_bind_Ok. apply result_bind_Ok in Hr as (us & Hus & [= <-]).
    cbn [zip_with]. constructor; [by eapply unit_of_stands|by eapply IH].
Qed.

(** *** What is selected of it *)

(** The record of a kit's selection and the kit it is composed as: the declarations of the unit,
    their sources completed, are what the runtime is asked about, and those it accepts
    replace them. *)
Record selects (select : option (Capability → M client_error bool)) (kits : list PublishedKit)
    (u : Unit) (record : KitSelection) (v : Unit) : Prop := {
  selects_reference : KitSelection_Reference record = Reference u;
  selects_published : ∃ kit, kit ∈ kits ∧ PKit_Reference kit = Reference u ∧
    PublishedDescriptor record = PKit_Descriptor kit ∧ PublishedBytes record = Raw kit;
  selects_asked : ∃ w w', SelectCapabilities (Some (withSelectionSources (descriptor u) (Reference u))) select w =
    (Ok (KitSelection_Selection record, None), w');
  selects_unit : v = set_unit_descriptor
    (with_capabilities (Selection_Capabilities (KitSelection_Selection record)) (descriptor u)) u;
  selects_accepted : ∀ s, select = Some (pure_selector s) →
    let d := withSelectionSources (descriptor u) (Reference u) in
    Capabilities (descriptor v) = accepted_requests s d ∧
    ∀ x, x ∈ imap pair (Capabilities d) → item_optional x = false → wholly_accepted s x = true;
}.

Lemma by_reference_lookup (kits : list PublishedKit) ref :
  ref ∈ map PKit_Reference kits →
  ∃ kit, by_reference kits !! ref = Some kit ∧ kit ∈ kits ∧ PKit_Reference kit = ref.
Proof.
  unfold by_reference. induction kits as [|k kits IH] using rev_ind; [by intros ?%elem_of_nil|].
  rewrite foldl_snoc, map_app. intros [Hr|Hr%list_elem_of_singleton]%elem_of_app.
  - destruct (IH Hr) as (kit & Hl & Hin & E). destruct (decide (PKit_Reference k = ref)) as [Ek|Ek].
    + exists k. rewrite <-Ek, lookup_insert_eq. split; [done|]. split; [set_solver|done].
    + exists kit. rewrite lookup_insert_ne by done. split; [done|]. split; [set_solver|done].
  - exists k. cbn in Hr. rewrite Hr, lookup_insert_eq. split; [done|]. split; [set_solver|done].
Qed.

Lemma selected_accepted s d w selection w' :
  SelectCapabilities (Some d) (Some (pure_selector s)) w = (Ok (selection, None), w') →
  Selection_Capabilities selection = accepted_requests s d ∧
  ∀ x, x ∈ imap pair (Capabilities d) → item_optional x = false → wholly_accepted s x = true.
Proof.
  unfold pure_selector. rewrite SelectCapabilities_pure. destruct (selectable d); [done|]. cbn zeta.
  case_bool_decide as E; [|done]. rewrite <-refusals_none. by intros [= <- <-].
Qed.

Lemma select_all select kits l w selections ordered w' :
  (∀ u, u ∈ l → Reference u ∈ map PKit_Reference kits) →
  for_range (select_unit select (by_reference kits)) ([], []) l w = (Ok (selections, ordered), w') →
  Forall3 (selects select kits) l selections ordered.
Proof.
  intros Hrefs Hf.
  refine (yields_for_range (select_unit select (by_reference kits)) (λ pre st,
    Forall3 (selects select kits) pre st.1 st.2) ([], []) l _ _ w (selections, ordered) w' Hf); [constructor|].
  intros pre u [sel ord] Hpre IH. assert (u ∈ l) as Hu.
  { destruct Hpre as [post ->]. set_solver. }
  destruct (by_reference_lookup kits (Reference u) (Hrefs u Hu)) as (kit & Hkit & Hin & Hr).
  unfold select_unit. rewrite Hkit. eapply yields_bind; [apply yields_run|].
  intros [selection [e|]] (w2 & w3 & Hs); [apply yields_fail|]. apply yields_ok. cbn [fst snd] in *.
  apply Forall3_app; [done|]. constructor; [|constructor].
  split; cbn; [done|by exists kit|by exists w2, w3|done|]. intros s ->. by apply selected_accepted in Hs.
Qed.

Lemma selects_refs select kits l selections ordered :
  Forall3 (selects select kits) l selections ordered → map Reference ordered = map Reference l.
Proof. induction 1 as [|u record v l records ordered [_ _ _ -> _] _ IH]; [done|]. cbn. by rewrite IH. Qed.

(** *** The container environment *)

Lemma run_container_env kits args partial opts r (run : merge_run kits args partial opts r) x v :
  ContainerEnv r !! x = Some v ↔
  ∃ p, p ∈ run_prepared _ _ _ _ _ run ∧ exported (Args (prepared_published p)) (prepared_values p) x v.
Proof.
  destruct run as [ps expanded units resolution Hp Hx He Hu Hd Hs Hc]. cbn [run_prepared].
  pose proof (bind_all_spec (all_exports (map (λ p, (PKit_Reference (prepared_kit p), prepared_exports p)) ps)) ∅) as Hg.
  rewrite <-combineExports_gather, Hx in Hg. cbn in Hg. rewrite (Hg x v), lookup_empty, all_exports_elem.
  assert (∀ p, p ∈ ps → default ∅ (prepared_exports p) !! x = Some v ↔
                        exported (Args (prepared_published p)) (prepared_values p) x v) as Hex.
  { intros p Hin. destruct (mapM_elem _ _ _ _ Hp Hin) as ([k a] & _ & Hprep).
    apply prepare_Ok in Hprep as (_ & _ & _ & _ & _ & Hexp). by apply argExports_Ok. }
  split.
  - intros [?|(ref & env & (p & [= -> ->] & Hin)%list_elem_of_fmap & Hv')]; [done|].
    exists p. split; [done|]. by apply Hex.
  - intros (p & Hin & Hv'). right. exists (PKit_Reference (prepared_kit p)), (prepared_exports p).
    split; [|by apply Hex]. apply list_elem_of_fmap. by exists p.
Qed.

Lemma exported_units kas ps (units : list Unit) x v :
  mapM (prepare compile) kas = Ok ps → length kas = length (zip_with set_unit_args units ps) →
  (∃ p, p ∈ ps ∧ exported (Args (prepared_published p)) (prepared_values p) x v) ↔
  ∃ ka u d, (ka, u) ∈ zip kas (zip_with set_unit_args units ps) ∧ PKit_Descriptor ka.1 = Some d ∧
            exported (Args d) (Unit_Args u) x v.
Proof.
  intros Hps Hlu. assert (length ps ≤ length units) as Hle.
  { rewrite length_zip_with, <-(mapM_length _ _ _ Hps) in Hlu. lia. }
  assert (Forall2 (λ ka p, prepare compile ka = Ok p) kas ps) as Hall.
  { clear -Hps. revert ps Hps. induction kas as [|ka kas IH]; intros ps; [intros [= <-]; constructor|].
    cbn. intros (p & Hp & Hr)%result_bind_Ok. apply result_bind_Ok in Hr as (ps' & Hps & [= <-]). constructor; auto. }
  clear Hlu Hps. revert units Hle.
  induction Hall as [|[k a] p kas ps Hp _ IH]; intros units Hle; [destruct units; set_solver|].
  destruct units as [|u units]; cbn in Hle; [lia|].
  apply prepare_Ok in Hp as (_ & Hd & _). specialize (IH units ltac:(lia)). cbn [zip zip_with].
  setoid_rewrite elem_of_cons. split.
  - intros (p' & [->|Hin] & He); [by exists (k, a), (set_unit_args u p), (prepared_published p); split; [left|]|].
    destruct (proj1 IH) as (ka & u' & d & ? & ? & ?); [by exists p'|]. exists ka, u', d. split; [by right|done].
  - intros (ka & u' & d & [[= ? ?]|Hin] & Hd' & He); [subst ka u'|].
    + cbn in Hd'. rewrite Hd in Hd'. injection Hd' as <-. by exists p; split; [left|].
    + destruct (proj2 IH) as (p' & ? & ?); [by exists ka, u', d|]. exists p'. by split; [right|].
Qed.

(** *** The effective descriptor *)

Lemma Compose_not_declarations cs d : Compose cs = Ok d → declarationsOnly d = false.
Proof.
  unfold Compose, mergeDeclarations. case_bool_decide; [done|]. destruct (List.find _ _); [done|].
  destruct (derivedKind cs); [|done]. cbn. destruct (mergeCapabilities cs) as [[? ?]|]; [|done]. by intros [= <-].
Qed.

Lemma ValidateEffective_clean raw d warnings :
  declarationsOnly d = false → ValidateEffective raw d = (warnings, []) →
  HasGroups (Capabilities d) = false ∧ ReferencedArgs raw = [] ∧ HasEnvReferences (Capabilities d) = false ∧
  (Z.of_nat (String.length raw) ≤ SizeErrorBytes)%Z ∧ (Validate d).2 = [].
Proof.
  intros Hd. unfold ValidateEffective, ValidateRaw. rewrite Hd. destruct (Validate d) as [ws errs].
  intros [= _ He]. repeat (apply app_nil in He as [? He]). cbn in *.
  destruct (HasGroups _); [done|]. destruct (HasEnvReferences _); [done|]. case_bool_decide; [|done].
  destruct (_ <? _)%Z eqn:E; [done|]. apply Z.ltb_ge in E. done.
Qed.
End Merging.

(** ** Properties *)

(** C21: a resolution is of the kits requested, each as its request makes it.  Every
    kit stands in the set for what its published bytes declare once its own arguments
    and then the environment (the overrides before the set's exports before the
    defaults) are put in; those units are ordered by their dependencies; and each is
    composed, in that order, with exactly the declarations the runtime selects of it (a selector
    that only looks at the request: the members of the items it accepts whole, none of
    the others required), recorded beside the kit as published.  The container
    environment binds a variable to a value exactly when some kit
    has a create-phase argument exporting that value under that name.  The descriptor
    is the composition of the kits so selected, passes
    validation as the bytes it serializes to, within the size budget, and has no
    group, argument reference or environment reference left. *)
Theorem resolve_refines `{References, Digests, Platforms, Decoders, Documents, ReadySort}
    compile kits args partial opts w r w' :
  length args = length kits → mergeKits compile kits args partial opts w = (Ok r, w') →
  let o := foldl apply_resolve_option default_options opts in
  let environment := final_environment (option_environment o) (ContainerEnv r) (envOverrides o) in
  (∃ units resolution,
    Forall2 (λ ka u, stands_for compile environment ka.1 ka.2 u) (zip kits args) units ∧ NoDup (ids units) ∧
    Dependencies units partial = Ok resolution ∧
    Forall3 (selects (option_selector o) kits) (Topological resolution) (Selections r) (Resolved_Kits r) ∧
    ∀ x v, ContainerEnv r !! x = Some v ↔
           ∃ ka u d, (ka, u) ∈ zip (zip kits args) units ∧ PKit_Descriptor ka.1 = Some d ∧
                     exported (Args d) (Unit_Args u) x v) ∧
  map Reference (Resolved_Kits r) ≡ₚ map PKit_Reference kits ∧
  Compose (map contribution_of (Resolved_Kits r)) = Ok (Resolved_Descriptor r) ∧
  HasGroups (Capabilities (Resolved_Descriptor r)) = false ∧
  HasEnvReferences (Capabilities (Resolved_Descriptor r)) = false ∧
  ∃ raw, json_marshal (encode_descriptor (Resolved_Descriptor r)) = Some raw ∧
    (Z.of_nat (String.length raw) ≤ SizeErrorBytes)%Z ∧ ReferencedArgs raw = [] ∧
    (Validate (Resolved_Descriptor r)).2 = [].
Proof.
  intros Hl Hm. apply mergeKits_run in Hm as run. destruct (run_refs compile _ _ _ _ _ run Hl) as [Hrefs Hnd].
  pose proof (run_container_env compile _ _ _ _ _ run) as Hcont.
  destruct run as [ps expanded units resolution Hp Hx He Hu Hd (w0 & w1 & Hs) Hc]. cbn in Hrefs, Hnd, Hcont.
  pose proof (topological_units _ partial false resolution Hnd Hd) as Htop.
  pose proof (units_stand compile _ _ _ _ _ _ Hp He Hu) as Hstand.
  apply select_all in Hs; [|intros u; unfold Topological; rewrite <-Hrefs, Htop; apply list_elem_of_fmap_2].
  apply compose_units_Ok in Hc as (_ & Hc & raw & Hj & Hv).
  pose proof (Compose_not_declarations _ _ Hc) as Hdecl.
  destruct (ValidateEffective_clean _ _ _ Hdecl Hv) as (Hg & Ha & Henv & Hsz & Hval).
  intros o environment. split.
  { exists (zip_with set_unit_args units ps), resolution. split_and!; try done.
    intros x v. rewrite Hcont. apply (exported_units compile _ _ _ _ _ Hp). by apply Forall2_length in Hstand. }
  split; [by rewrite (selects_refs _ _ _ _ _ Hs), <-Hrefs, <-Htop|].
  split; [done|]. split; [done|]. split; [done|]. by exists raw.
Qed.

(** *** A workload and a mixin

    The mixin mounts a volume at a path it takes from the environment, and exports
    an argument into it. *)
Definition base_descriptor : Descriptor :=
  mkDescriptor false SchemaVersion "base" "" "" "" "" "" [] KindWorkload ["base@1"] [] [] [] [] ∅ "" [] "" false.
Definition tools_volume (path : string) : Capability :=
  capability_of CapabilityVolume (Some [("path", VStr path)]).
Definition tools_args : gmap string Arg := {[ "mode" := mkArg (Some "dev") false "" [] "" "MODE" "" ]}.
Definition tools_descriptor : Descriptor :=
  mkDescriptor false SchemaVersion "tools" "" "" "" "" "1" [] KindMixin ["tools"] ["base"] [] []
    [tools_volume "/var/${{ kit.env.MODE }}"] tools_args "" [] "" false.

Definition toy_documents : Documents :=
  {| yaml_value := λ raw, Ok (VStr raw);
     yaml_descriptor := λ raw, if contains "tools" raw then Ok tools_descriptor
                               else if contains "base" raw then Ok base_descriptor else Err "not a descriptor";
     document_nodes := {| yaml_nodes := λ _, Err "" |};
     float_literal := λ _, None;
     float_negative := has_prefix "-";
     url_parts := λ _, Err "";
     regexp_compiles := λ _, true;
     image_reference := λ _, Ok None |}.

Definition base_kit : PublishedKit := mkPublishedKit "base:1" "d0" "base@d0" (Some base_descriptor) "base".
Definition tools_kit : PublishedKit := mkPublishedKit "tools:1" "d1" "tools@d1" (Some tools_descriptor) "tools".

Definition toy_resolution : result client_error Resolved :=
  (@mergeKits toy_references toy_digests toy_documents merge_ready (λ _, None) [tools_kit; base_kit]
     [{[ "mode" := "prod" ]}; ∅] false [] (mkWorld 0 [])).1.
Definition toy_resolved : Resolved := 
  match toy_resolution with Ok r => r | Err _ => mkResolved [] zero_descriptor [] ∅ [] end.

Example toy_resolution_sample :
  toy_resolution = Ok toy_resolved ∧
  map Reference (Resolved_Kits toy_resolved) = ["base:1"; "tools:1"] ∧
  map_to_list (ContainerEnv toy_resolved) = [("MODE", "prod")] ∧
  map Config (Capabilities (Resolved_Descriptor toy_resolved)) = [Some [("path", VStr "/var/prod")]].
Proof. by vm_compute. Qed.

Lemma resolve_refines_witness :
  map Reference (Resolved_Kits toy_resolved) ≡ₚ ["tools:1"; "base:1"] ∧
  HasEnvReferences (Capabilities (Resolved_Descriptor toy_resolved)) = false.
Proof.
  destruct (@resolve_refines toy_references toy_digests toy_platforms toy_decoders toy_documents merge_ready
    (λ _, None) [tools_kit; base_kit] [{[ "mode" := "prod" ]}; ∅] false [] (mkWorld 0 []) toy_resolved (mkWorld 0 []))
    as (_ & Hp & _ & _ & He & _); [done| |by split].
  vm_compute. reflexivity.
Defined.
