(* ===== verification/Composition.v ===== *)
(** [fetch/assemble.go]: assembling a set of kit references — loading each, composing
    the image, resolving the declarations against its environment, validating the
    layers — with every stage reported and the context polled throughout. *)
From stdpp Require Import options.
From S2P Require Import Prelude GoStrings GoPath Assemble Oci LayerTar Json Types Template Merge Context Resolve Validate Expand Selection Inventory Registry Fetch.

Record Overrides := mkOverrides { Overrides_Env : gmap string string; Overrides_WorkingDir : option string }.

Record Result_ := mkResult {
  Result_Image : AssembledImage;
  Result_Resolved : Resolved;
  Environment : gmap string string;
  Result_WorkingDir : string;
}.

Definition bad_override (kv : string * string) : bool :=
  bool_decide (kv.1 = "") || contains_byte "=" kv.1 || contains_byte "000" kv.1 || contains_byte "000" kv.2.
Definition validateOverrides (o : Overrides) : result client_error () :=
  if existsb bad_override (map_to_list (Overrides_Env o)) then Err BadEnvironmentOverride
  else
    match Overrides_WorkingDir o with
    | Some dir => if negb (is_abs dir) || contains_byte "000" dir then Err BadWorkingDirOverride else Ok ()
    | None => Ok ()
    end.

(** ** Checking what a loader returned *)

(** An entry of an image's environment: a name that is not empty, [=], no NUL. *)
Definition well_formed_env (entry : string) : bool :=
  let '(name, _, found) := cut "=" entry in
  found && negb (bool_decide (name = "")) && negb (contains_byte "000" entry).

Fixpoint check_env (i : nat) (entries : list string) : result client_error () :=
  match entries with
  | [] => Ok ()
  | entry :: entries => if well_formed_env entry then check_env (S i) entries else Err (MalformedEnvironmentAt i)
  end.

Section Loaded.
Context `{Digests, Documents}.

Definition check_digest (what digest : string) : result client_error () :=
  if digest_valid digest then Ok () else Err (InvalidDigest what digest).
Fixpoint check_diffIDs (l : list string) : result client_error () :=
  match l with
  | [] => Ok ()
  | diffID :: l => _ ← check_digest "layer diff ID" diffID; check_diffIDs l
  end.
Fixpoint check_layers (l : list Blob) : result client_error () :=
  match l with
  | [] => Ok ()
  | layer :: l =>
      _ ← check_digest "layer digest" (Blob_Digest layer);
      if (Size layer <? 0)%Z then Err (NegativeSize (Blob_Digest layer)) else check_layers l
  end.

(** OCI permits an embedded media type to be left out. *)
Definition hinted_media_type (m : Manifest) : string :=
  if bool_decide (Manifest_MediaType m = "") then MediaTypeImageManifest else Manifest_MediaType m.

Definition published_bytes (input : LoadedKit) : string :=
  if bool_decide (Loaded_Descriptor input = "") then annotation (Annotations_ (Loaded_Manifest input))
  else Loaded_Descriptor input.

Definition validateLoadedKit (ref : string) (input : option LoadedKit) : result client_error PublishedKit :=
  match input with
  | None => Err LoaderReturnedNoKit
  | Some input =>
      let manifest := Loaded_Manifest input in
      let config := Loaded_Config input in
      _ ← check_digest "kit digest" (Loaded_Digest input);
      _ ← map_err RegistryError
            (requirePlainImageManifest (mkBlob (hinted_media_type manifest) "" 0 None) manifest);
      if bool_decide (Layers manifest = []) then Err NoLayers
      else
        _ ← check_digest "config digest" (Blob_Digest (Config_ manifest));
        if (Size (Config_ manifest) <? 0)%Z then Err (NegativeSize "image config")
        else
          _ ← check_env 0 (Env (Image_Config config));
          _ ← check_diffIDs (DiffIDs config);
          if negb (bool_decide (RootFS_Type config = "layers")) ||
             negb (bool_decide (length (DiffIDs config) = length (Layers manifest)))
          then Err LoadedRootfsMismatch
          else if negb (bool_decide (OS (Image_Platform config) = "linux")) ||
                  bool_decide (Architecture (Image_Platform config) = "")
          then Err NotLinux
          else
            _ ← check_layers (Layers manifest);
            let raw := published_bytes input in
            if bool_decide (raw = "") then Err NoAnnotation
            else
              d ← map_err (Undecodable ref) (Decode raw);
              let errs := (ValidatePublished raw d).2 in
              if negb (bool_decide (errs = [])) then Err (Unpublishable ref errs)
              else Ok (mkPublishedKit ref (Loaded_Digest input) (Loaded_Image input) (Some d) raw)
  end.
End Loaded.

(** ** [Assemble] *)

Section Compose.
Context `{References, Digests, Platforms, Decoders, Documents, ReadySort}.
Context (compile : string → option (string → bool)) (done : nat → bool).

(** A loader answers a reference, with nothing, or not at all. *)
Notation loader := (string → result string (option LoadedKit)) (only parsing).
(** A validator of the layers of the composed set. *)
Notation validator := (list Unit → gmap string LoadedKit → M fetch_error ()) (only parsing).

Record Options := mkOptions {
  Loader : option loader;
  CapabilitySelector : option (Capability → bool);
  Options_Overrides : Overrides;
  LayerValidator : option validator;
  reports : bool;
}.

Context (default_loader : result string loader).

Definition step {A} (o : Options) (event : Progress) (run : M client_error A) : M client_error A :=
  progressStep ContextDone done (reports o) event run.

(** One request: a new reference, loaded and checked in a step of its own. *)
Definition load_request (o : Options) (load : loader)
    (st : gmap string LoadedKit * list PublishedKit * list (gmap string string)) (request : Request) :
    M client_error (gmap string LoadedKit * list PublishedKit * list (gmap string string)) :=
  let '(loaded, kits, args) := st in
  let ref := Request_Reference request in
  if bool_decide (is_Some (loaded !! ref)) then fail (DuplicateReference ref)
  else
    r ⇠ attempt (step o (mkProgress StageLoad ProgressStarted ref "")
          (lift (input ← map_err LoaderError (load ref);
                 kit ← validateLoadedKit ref input;
                 Ok (input, kit))));
    ik ⇠ lift (map_err (LoadKitFailed ref) r);
    ok (match ik.1 with Some input => <[ref := input]> loaded | None => loaded end,
        kits ++ [ik.2], args ++ [Request_Args request]).

(** Composition depends on the kits' relationships, not on their requests. *)
Definition without_capabilities (u : Unit) : Unit := set_unit_descriptor (with_capabilities [] (descriptor u)) u.
Definition inputs_of (loaded : gmap string LoadedKit) (units : list Unit) : gmap string Input :=
  foldl (λ m u,
    match loaded !! Reference u with
    | Some input => <[Image u := mkInput "" (Loaded_Manifest input) (Loaded_Config input)]> m
    | None => m
    end) ∅ units.
Definition compose_image (loaded : gmap string LoadedKit) (kits : list PublishedKit) :
    M client_error AssembledImage :=
  units ⇠ lift (Units (map Some kits));
  let units := map without_capabilities units in
  let inputs := inputs_of loaded units in
  embed ImageNotAssembled
    (Assemble.Assemble OnlyStrict done
       (λ ref, match inputs !! ref with Some i => Ok i | None => Err ("image " +:+ ref +:+ " was not loaded") end)
       units).

(** The image's own environment. *)
Fixpoint image_environment (entries : list string) (environment : gmap string string) :
    result client_error (gmap string string) :=
  match entries with
  | [] => Ok environment
  | entry :: entries =>
      if well_formed_env entry
      then image_environment entries (let '(key, v, _) := cut "=" entry in <[key := v]> environment)
      else Err MalformedImageEnvironment
  end.

Definition polled_selector (s : Capability → bool) : Capability → M client_error bool :=
  λ c, stop ⇠ polled_done done; ok (if stop : bool then false else s c).
Definition resolve_declarations (o : Options) (kits : list PublishedKit) (args : list (gmap string string))
    (environment : gmap string string) : M client_error Resolved :=
  let s := default (Supported KnownCapabilities) (CapabilitySelector o) in
  r ⇠ attempt (mergeKits compile kits args false
        [Some (WithCapabilitySelector (Some (polled_selector s)));
         Some (WithEnvironment environment (Overrides_Env (Options_Overrides o)))]);
  stop ⇠ polled_done done;
  if stop : bool then poll ContextDone done;; fail ContextDone else lift r.

Definition Assemble (requests : list Request) (o : Options) : M client_error Result_ :=
  poll ContextDone done;;
  if bool_decide (requests = []) then fail EmptyKitSet
  else
    lift (validateOverrides (Options_Overrides o));;
    load ⇠ lift (match Loader o with Some load => Ok load | None => map_err NoDefaultLoader default_loader end);
    lka ⇠ for_range (load_request o load) (∅, [], []) requests;
    let '(loaded, kits, args) := lka in
    image ⇠ step o (mkProgress StageCompose ProgressStarted "" "") (compose_image loaded kits);
    environment ⇠ lift (image_environment (Env (Image_Config (Assemble.Config image))) ∅);
    resolved ⇠ step o (mkProgress StageResolve ProgressStarted "" "") (resolve_declarations o kits args environment);
    match LayerValidator o with
    | Some validate => embed LayersRefused (validate (Resolved_Kits resolved) loaded)
    | None => ok tt
    end;;
    poll ContextDone done;;
    ok (mkResult image resolved
          (final_environment environment (ContainerEnv resolved) (Overrides_Env (Options_Overrides o)))
          (default (WorkingDir (Image_Config (Assemble.Config image))) (Overrides_WorkingDir (Options_Overrides o)))).
End Compose.
