(* ===== verification/CompositionFacts.v ===== *)
(** Properties of the assembly pipeline ([fetch/assemble.go]): the protocol of its
    progress events, what it checks of a loaded kit, and the environment it
    composes. *)
From stdpp Require Import options.
From S2P Require Import Prelude GoStrings GoPath Assemble Oci LayerTar Json Types Template Merge Context Resolve Validate Expand Selection Inventory Collisions Registry Fetch FetchFacts Composition.

(** ** What is silent, and what follows the protocol *)

Section Protocol.
Context `{References, Digests, Platforms, Decoders, Documents, ReadySort}.
Context (compile : string → option (string → bool)) (done : nat → bool).

Lemma silent_select_item {E} (s : Capability → M E bool) st i :
  (∀ c, silent (s c)) → silent (select_item s st i).
Proof.
  intros Hs. unfold select_item. destruct st as [selection errs], i as [i item].
  destruct (item_members _ _) as [[members name] optional].
  apply silent_bind; [|auto with kit]. apply silent_for_range. intros st [p c].
  unfold select_member. auto with kit.
Qed.

Lemma silent_SelectCapabilities {E} (s : Capability → M E bool) d :
  (∀ c, silent (s c)) → silent (SelectCapabilities d (Some s)).
Proof.
  intros Hs. unfold SelectCapabilities. destruct d as [d|]; [|auto with kit].
  destruct (selectable d); [auto with kit|]. apply silent_bind; [|auto with kit].
  apply silent_for_range. intros. by apply silent_select_item.
Qed.

Lemma silent_mergeKits kits args partial s defaults overrides :
  (∀ c, silent (s c)) →
  silent (mergeKits compile kits args partial
    [Some (WithCapabilitySelector (Some s)); Some (WithEnvironment defaults overrides)]).
Proof.
  intros Hs. unfold mergeKits.
  repeat (apply silent_bind; [solve [auto with kit]|intros ?]).
  apply silent_bind; [|auto with kit]. apply silent_for_range. intros [selections ordered] u.
  unfold select_unit. apply silent_bind; [by apply silent_SelectCapabilities|].
  intros [selection [e|]]; auto with kit.
Qed.

Lemma silent_resolve_declarations o kits args environment :
  silent (resolve_declarations compile done o kits args environment).
Proof.
  unfold resolve_declarations. apply silent_bind.
  - apply silent_attempt, silent_mergeKits. intros c. unfold polled_selector. auto with kit.
  - intros r. apply silent_bind; [auto with kit|]. intros []; auto with kit.
Qed.

Lemma silent_compose_image loaded kits : silent (compose_image done loaded kits).
Proof.
  unfold compose_image. apply silent_bind; [auto with kit|]. intros units. apply silent_embed.
  unfold Assemble.Assemble. repeat (apply silent_bind; [solve [auto with kit]|intros ?]).
  apply silent_bind; [|intros []; auto with kit]. apply silent_for_range. intros inputs u.
  unfold load_kit. repeat (apply silent_bind; [solve [auto with kit]|intros ?]).
  destruct inputs; [auto with kit|]. case_match; auto with kit.
Qed.

Lemma follows_load_request o load st request : follows (load_request done o load st request).
Proof.
  unfold load_request. destruct st as [[loaded kits] args]. case_bool_decide; [apply silent_follows, silent_fail|].
  apply (follows_wrapped (LoadKitFailed (Request_Reference request))); [|auto with kit].
  apply follows_progressStep. auto with kit.
Qed.
End Protocol.

Section Layers.
Context (gunzip unzstd : stream → option stream) (tar_reader : stream → archive).
Context (valid_digest : string → bool) (verifies : string → string → bool).
Context `{ReadySort} (done : nat → bool) (reported : bool).

Lemma follows_inventoryKits kits loaded :
  follows (inventoryKits gunzip unzstd tar_reader valid_digest verifies done reported kits loaded).
Proof.
  unfold inventoryKits. apply follows_bind; [apply silent_follows; auto with kit|]. intros resolution.
  apply follows_bind; [|auto with kit]. apply follows_for_range. intros [[cache b] inventories] kit _.
  unfold inventory_kit. destruct (loaded !! _) as [input|]; [|apply silent_follows; auto with kit].
  destruct (LayerLoader input) as [load|]; [|apply silent_follows; auto with kit].
  case_match; [apply silent_follows; auto with kit|]. apply follows_bind; [|auto with kit].
  apply follows_for_range. intros [[c' b'] layers] [layer diffID] _. unfold inventory_layer, wrap_layer.
  apply follows_bind; [apply silent_follows; auto with kit|]. intros _.
  apply (follows_wrapped (LayerFailed (Reference kit) (Blob_Digest layer))); [|auto with kit].
  apply follows_progressStep. unfold inventory_step. destruct (c' !! _); [|auto with kit].
  apply silent_bind; [auto with kit|]. intros b1. apply silent_bind; [|auto with kit].
  apply silent_for_range. intros. unfold replay_entry. auto with kit.
Qed.

Lemma silent_checkFileCollisions inventories : silent (checkFileCollisions done inventories).
Proof.
  unfold checkFileCollisions. apply silent_bind; [|auto with kit]. apply silent_for_range. intros owners inv.
  unfold collide_kit. apply silent_bind; [auto with kit|]. intros _.
  apply silent_bind; [|intros model; apply silent_bind; [auto with kit|]; intros _; auto 8 with kit].
  apply silent_for_range. intros model headers. unfold add_layer. apply silent_bind; [|auto with kit].
  apply silent_for_range. intros layer e. unfold add_header. apply silent_bind; [auto with kit|]. intros _.
  destruct (Overlay.Add layer (header e)) as [l []]; auto with kit.
Qed.

Lemma follows_DefaultLayerValidator kits loaded :
  follows (DefaultLayerValidator gunzip unzstd tar_reader valid_digest verifies done reported kits loaded).
Proof.
  unfold DefaultLayerValidator. apply follows_bind; [apply follows_inventoryKits|]. intros inventories.
  apply follows_progressStep, silent_checkFileCollisions.
Qed.
End Layers.

(** ** The whole run *)

Definition load_event (request : Request) : Progress :=
  mkProgress StageLoad ProgressStarted (Request_Reference request) "".
Definition compose_event : Progress := mkProgress StageCompose ProgressStarted "" "".
Definition resolve_event : Progress := mkProgress StageResolve ProgressStarted "" "".

Section Run.
Context `{References, Digests, Platforms, Decoders, Documents, ReadySort}.
Context (compile : string → option (string → bool)) (done : nat → bool).
Context (default_loader : result string (string → result string (option LoadedKit))).

Lemma load_request_events o load st request w st' w' :
  reports o = true → load_request done o load st request w = (Ok st', w') →
  events w' = events w ++ completed (load_event request).
Proof.
  intros Hr. destruct st as [[loaded kits] args]. unfold load_request. case_bool_decide; [done|].
  intros Hl. inv_step. unfold attempt in *. destruct (step _ _ _ _ _) as [r w1] eqn:Es.
  simplify_eq. destruct x as [ik|e]; [|done]. unfold step in Es. rewrite Hr in Es.
  by apply progressStep_Ok in Es; [|auto with kit].
Qed.

Lemma Assemble_follows requests o :
  (∀ validate, LayerValidator o = Some validate → ∀ kits loaded, follows (validate kits loaded)) →
  follows (Assemble compile done default_loader requests o).
Proof.
  intros Hv. unfold Assemble. apply follows_bind; [apply silent_follows; auto with kit|]. intros _.
  case_bool_decide; [apply silent_follows; auto with kit|].
  apply follows_bind; [apply silent_follows; auto with kit|]. intros _.
  apply follows_bind; [apply silent_follows; auto with kit|]. intros load.
  apply follows_bind; [apply follows_for_range; intros; apply follows_load_request|].
  intros [[loaded kits] args].
  apply follows_bind; [apply follows_progressStep, silent_compose_image|]. intros image.
  apply follows_bind; [apply silent_follows; auto with kit|]. intros environment.
  apply follows_bind; [apply follows_progressStep, silent_resolve_declarations|]. intros resolved.
  apply follows_bind; [|intros _; apply silent_follows; auto with kit].
  destruct (LayerValidator o) as [validate|]; [|auto with kit]. by apply follows_embed, Hv.
Qed.

(** The stages of a run that succeeds, in order. *)
Lemma Assemble_stages requests o w r w' :
  (∀ validate, LayerValidator o = Some validate → ∀ kits loaded, follows (validate kits loaded)) →
  reports o = true → Assemble compile done default_loader requests o w = (Ok r, w') →
  (∃ l, events w' = events w ++ flat_map (λ request, completed (load_event request)) requests ++
                    completed compose_event ++ completed resolve_event ++ l ∧ steps true l) ∧
  ∃ n, polls w' = S n ∧ done n = false.
Proof.
  intros Hv Hr. unfold Assemble. intros ([] & w1 & Hp & Ha)%bind_Ok. case_bool_decide; [done|].
  apply (silent_Ok _ _ _ _ (silent_poll _ _)) in Hp.
  apply bind_Ok in Ha as ([] & w2 & [_ ->]%lift_Ok & Ha). apply bind_Ok in Ha as (load & w3 & [_ ->]%lift_Ok & Ha).
  apply bind_Ok in Ha as ([[loaded kits] args] & w4 & Hl & Ha).
  apply (for_range_events _ (λ request, completed (load_event request))) in Hl; [|by intros; eapply load_request_events].
  apply bind_Ok in Ha as (image & w5 & Hc & Ha). unfold step in Hc, Ha. rewrite Hr in Hc, Ha.
  apply progressStep_Ok in Hc; [|apply silent_compose_image].
  apply bind_Ok in Ha as (environment & w6 & [_ ->]%lift_Ok & Ha).
  apply bind_Ok in Ha as (resolved & w7 & Hres & Ha). apply progressStep_Ok in Hres; [|apply silent_resolve_declarations].
  apply bind_Ok in Ha as ([] & w8 & Hval & Ha). apply bind_Ok in Ha as ([] & w9 & Hlast & [= _ <-]).
  split.
  - assert (∃ l, events w8 = events w7 ++ l ∧ steps true l) as (l & He & Hs).
    { destruct (LayerValidator o) as [validate|]; eapply follows_Ok; [|exact Hval| |exact Hval]; [|apply follows_ok].
      by apply follows_embed, Hv. }
    exists l. split; [|done]. apply (silent_Ok _ _ _ _ (silent_poll _ _)) in Hlast.
    by rewrite Hlast, He, Hres, Hc, Hl, Hp, <-!(assoc_L (++)).
  - unfold poll in Hlast. destruct (done (polls w8)) eqn:Ed; [done|]. injection Hlast as <-. by exists (polls w8).
Qed.
End Run.

(** ** What a loaded kit is held to *)

Section Loaded.
Context `{Digests, Documents}.

(** A loaded kit that can be published and composed: an image manifest of at least
    one layer with its diff ids, valid digests and sizes, a Linux platform, an
    environment of named values, and a descriptor that may be published. *)
Record composable (ref : string) (input : LoadedKit) (d : Descriptor) : Prop := {
  kit_digest : digest_valid (Loaded_Digest input) = true;
  plain_manifest : requirePlainImageManifest (mkBlob (hinted_media_type (Loaded_Manifest input)) "" 0 None)
                     (Loaded_Manifest input) = Ok tt;
  some_layer : Layers (Loaded_Manifest input) ≠ [];
  config_blob : digest_valid (Blob_Digest (Config_ (Loaded_Manifest input))) = true ∧
                (0 ≤ Size (Config_ (Loaded_Manifest input)))%Z;
  named_values : Forall (λ entry, ∃ name v, entry = name +:+ "=" +:+ v ∧ name ≠ "" ∧ contains_byte "=" name = false ∧
                                            contains_byte "000" entry = false) (Env (Image_Config (Loaded_Config input)));
  layer_blobs : Forall (λ layer, digest_valid (Blob_Digest layer) = true ∧ (0 ≤ Size layer)%Z)
                  (Layers (Loaded_Manifest input));
  diff_ids : Forall (λ diffID, digest_valid diffID = true) (DiffIDs (Loaded_Config input)) ∧
             length (DiffIDs (Loaded_Config input)) = length (Layers (Loaded_Manifest input)) ∧
             RootFS_Type (Loaded_Config input) = "layers";
  linux : OS (Image_Platform (Loaded_Config input)) = "linux" ∧ Architecture (Image_Platform (Loaded_Config input)) ≠ "";
  publishable : published_bytes input ≠ "" ∧ Decode (published_bytes input) = Ok d ∧
                (ValidatePublished (published_bytes input) d).2 = [];
}.

Lemma well_formed_env_spec entry :
  well_formed_env entry = true ↔
  ∃ name v, entry = name +:+ "=" +:+ v ∧ name ≠ "" ∧ contains_byte "=" name = false ∧ contains_byte "000" entry = false.
Proof.
  assert (∀ v, "=" +:+ v = String "=" v) as Heq by by intros v; rewrite str_app_cons.
  unfold well_formed_env. split.
  - destruct (cut "=" entry) as [[name v] []] eqn:Ec; [|done]. apply cut_found in Ec as [He Hn].
    cbn [andb]. intros [Hne%negb_true_iff Hnul%negb_true_iff]%andb_true_iff. apply bool_decide_eq_false in Hne.
    exists name, v. by rewrite Heq.
  - intros (name & v & He & Hne & Hfree & Hnul). rewrite Hnul, He, Heq, cut_app by done. cbn [andb negb].
    by rewrite bool_decide_eq_false_2.
Qed.

Lemma check_env_Ok i entries : check_env i entries = Ok () ↔ Forall (λ e, well_formed_env e = true) entries.
Proof.
  revert i. induction entries as [|e entries IH]; intros i; cbn; [done|]. rewrite Forall_cons.
  destruct (well_formed_env e); [rewrite IH|]; naive_solver.
Qed.

Lemma check_digest_Ok what digest : check_digest what digest = Ok () ↔ digest_valid digest = true.
Proof. unfold check_digest. destruct (digest_valid digest); naive_solver. Qed.

Lemma check_diffIDs_Ok l : check_diffIDs l = Ok () ↔ Forall (λ d, digest_valid d = true) l.
Proof.
  induction l as [|d l IH]; cbn; [done|]. rewrite Forall_cons, result_bind_Ok. setoid_rewrite IH.
  rewrite <-(check_digest_Ok "layer diff ID"). split; [by intros ([] & ? & ?)|intros [? ?]; by exists ()].
Qed.

Lemma check_layers_Ok l :
  check_layers l = Ok () ↔ Forall (λ layer, digest_valid (Blob_Digest layer) = true ∧ (0 ≤ Size layer)%Z) l.
Proof.
  induction l as [|layer l IH]; cbn; [done|]. rewrite Forall_cons, result_bind_Ok.
  rewrite <-(check_digest_Ok "layer digest"). destruct (Size layer <? 0)%Z eqn:E.
  - apply Z.ltb_lt in E. split; [by intros (? & ? & ?)|]. intros [[_ ?] _]. lia.
  - apply Z.ltb_ge in E. setoid_rewrite IH. split; [by intros ([] & ? & ?)|]. intros [[? _] ?]. by exists ().
Qed.

Lemma validateLoadedKit_Ok ref input k :
  validateLoadedKit ref (Some input) = Ok k ↔
  ∃ d, composable ref input d ∧
       k = mkPublishedKit ref (Loaded_Digest input) (Loaded_Image input) (Some d) (published_bytes input).
Proof.
  assert (∀ l, Forall (λ e, well_formed_env e = true) l ↔
    Forall (λ entry, ∃ name v, entry = name +:+ "=" +:+ v ∧ name ≠ "" ∧ contains_byte "=" name = false ∧
                               contains_byte "000" entry = false) l) as Henv.
  { intros l. apply Forall_iff. intros e. apply well_formed_env_spec. }
  unfold validateLoadedKit. split.
  - intros ([] & Hd%check_digest_Ok & Hr)%result_bind_Ok. apply result_bind_Ok in Hr as ([] & Hm%map_err_Ok & Hr).
    case_bool_decide as Hl; [done|]. apply result_bind_Ok in Hr as ([] & Hc%check_digest_Ok & Hr).
    destruct (_ <? 0)%Z eqn:Es; [done|]. apply Z.ltb_ge in Es.
    apply result_bind_Ok in Hr as ([] & He%check_env_Ok & Hr). apply result_bind_Ok in Hr as ([] & Hf%check_diffIDs_Ok & Hr).
    destruct (_ || _) eqn:Er; [done|]. apply orb_false_iff in Er as [Er1%negb_false_iff Er2%negb_false_iff].
    apply bool_decide_eq_true in Er1, Er2. destruct (_ || _) eqn:Ep; [done|].
    apply orb_false_iff in Ep as [Ep1%negb_false_iff Ep2]. apply bool_decide_eq_true in Ep1.
    apply bool_decide_eq_false in Ep2. apply result_bind_Ok in Hr as ([] & Hb%check_layers_Ok & Hr).
    case_bool_decide as Hraw; [done|]. apply result_bind_Ok in Hr as (d & Hdec%map_err_Ok & Hr).
    case_bool_decide as Hv; [|done]. injection Hr as <-. exists d. split; [|done].
    by constructor; try done; apply Henv.
  - intros (d & [Hd Hm Hl [Hc Es] He%Henv Hb (Hf & Hlen & Ht) [Ho Ha] (Hraw & Hdec & Hv)] & ->).
    rewrite (proj2 (check_digest_Ok _ _) Hd). cbn. rewrite Hm. cbn. rewrite bool_decide_eq_false_2 by done.
    rewrite (proj2 (check_digest_Ok _ _) Hc). cbn. rewrite (proj2 (Z.ltb_ge _ _) Es).
    rewrite (proj2 (check_env_Ok _ _) He). cbn. rewrite (proj2 (check_diffIDs_Ok _) Hf). cbn.
    rewrite (bool_decide_eq_true_2 (RootFS_Type _ = _)), (bool_decide_eq_true_2 (length _ = _)) by done. cbn.
    rewrite (bool_decide_eq_true_2 (OS _ = _)), (bool_decide_eq_false_2 (Architecture _ = _)) by done. cbn.
    rewrite (proj2 (check_layers_Ok _) Hb). cbn. rewrite bool_decide_eq_false_2, Hdec by done. cbn.
    by rewrite bool_decide_eq_true_2.
Qed.
End Loaded.

(** ** The inputs and the environment of a run *)

Section Environment.
Context `{References, Digests, Platforms, Decoders, Documents, ReadySort}.
Context (done : nat → bool).

(** What the loop over the requests has loaded. *)
Definition loaded_so_far (load : string → result string (option LoadedKit)) (requests : list Request)
    (st : gmap string LoadedKit * list PublishedKit * list (gmap string string)) : Prop :=
  let '(loaded, kits, args) := st in
  args = map Request_Args requests ∧ NoDup (map Request_Reference requests) ∧
  (∀ ref, is_Some (loaded !! ref) ↔ ref ∈ map Request_Reference requests) ∧
  Forall2 (λ request kit, ∃ input, load (Request_Reference request) = Ok (Some input) ∧
             loaded !! Request_Reference request = Some input ∧
             validateLoadedKit (Request_Reference request) (Some input) = Ok kit) requests kits.

Lemma load_requests_yield o load requests :
  yields (for_range (load_request done o load) (∅, [], []) requests) (loaded_so_far load requests).
Proof.
  apply (yields_for_range _ (loaded_so_far load)).
  { cbn. split_and!; [done|constructor| |constructor]. intros ref. rewrite lookup_empty. split; [by intros []|by intros ?%elem_of_nil]. }
  intros pre request [[loaded kits] args] _ (Ha & Hnd & Hdom & Hf) w st' w'. unfold load_request.
  case_bool_decide as Hnew; [done|]. intros Hl. inv_step. unfold attempt in *.
  destruct (step _ _ _ _ _) as [r w1] eqn:Es. simplify_eq. destruct x as [[input kit]|e]; [|done].
  match goal with H : map_err _ _ = Ok _ |- _ => injection H as <- end.
  apply progressStep_run in Es as (w2 & w3 & [Hrun _]%lift_Ok).
  apply result_bind_Ok in Hrun as (input' & Hload%map_err_Ok & Hrun).
  apply result_bind_Ok in Hrun as (kit' & Hvalid & [= -> ->]). cbn [fst snd].
  destruct input as [input|]; [|done].
  assert (Request_Reference request ∉ map Request_Reference pre) as Hfresh by by rewrite <-Hdom.
  cbn. split_and!.
  - by rewrite map_app.
  - rewrite map_app. apply NoDup_app. split; [done|]. split; [|apply NoDup_singleton].
    intros ref Hr ->%list_elem_of_singleton. done.
  - intros ref. rewrite map_app, elem_of_app, <-Hdom. cbn. rewrite list_elem_of_singleton.
    destruct (decide (ref = Request_Reference request)) as [->|Hne].
    + rewrite lookup_insert_eq. split; [by right|by eexists].
    + rewrite lookup_insert_ne by done. naive_solver.
  - apply Forall2_app; [|constructor; [|constructor]].
    + eapply Forall2_impl; [exact Hf|]. intros q k (i & ? & Hi & ?). exists i. split; [done|]. split; [|done].
      rewrite lookup_insert_ne; [done|]. intros E. apply Hnew. rewrite E. by eexists.
    + exists input. by rewrite lookup_insert_eq.
Qed.

Lemma loaded_references load requests loaded kits args :
  loaded_so_far load requests (loaded, kits, args) → map PKit_Reference kits = map Request_Reference requests.
Proof.
  intros (_ & _ & _ & Hf). induction Hf as [|q k qs ks (i & _ & _ & Hv) _ IH]; [done|]. cbn. rewrite IH. f_equal.
  by apply validateLoadedKit_Ok in Hv as (d & _ & ->).
Qed.

(** The value an image's environment gives a name: its last entry's. *)
Fixpoint last_value (x : string) (entries : list string) : option string :=
  match entries with
  | [] => None
  | entry :: entries =>
      match last_value x entries with
      | Some v => Some v
      | None => let '(name, v, found) := cut "=" entry in if found && bool_decide (name = x) then Some v else None
      end
  end.

Lemma image_environment_lookup entries m m' x :
  image_environment entries m = Ok m' →
  m' !! x = match last_value x entries with Some v => Some v | None => m !! x end.
Proof.
  revert m. induction entries as [|entry entries IH]; intros m; cbn; [by intros [= <-]|].
  destruct (well_formed_env entry) eqn:Ew; [|done]. intros Hm. rewrite (IH _ Hm).
  destruct (last_value x entries); [done|]. unfold well_formed_env in Ew.
  destruct (cut "=" entry) as [[name v] []]; [|done]. clear Ew. cbn. case_bool_decide as E.
  - subst. by rewrite lookup_insert_eq.
  - by rewrite lookup_insert_ne.
Qed.

Lemma final_environment_lookup defaults exports overrides x :
  final_environment defaults exports overrides !! x =
  match overrides !! x with
  | Some v => Some v
  | None => match exports !! x with Some v => Some v | None => defaults !! x end
  end.
Proof.
  unfold final_environment. rewrite !lookup_union. destruct (overrides !! x), (exports !! x), (defaults !! x); done.
Qed.
End Environment.

(** ** Properties *)

(** C24: whatever the registry, the kits and the clock do, the progress of an
    assembly is a sequence of steps, each reported as started and then, before
    anything else starts, as completed or failed, and nothing follows a failed
    step; this holds for any layer validator that keeps to it, the built-in one
    does.  An assembly that succeeds has reported every load in the order of the
    requests, the composition and the resolution, all completed, before the
    validator's steps, and its context was not done when it returned. *)
Theorem assemble_protocol `{References, Digests, Platforms, Decoders, Documents, ReadySort}
    compile done default_loader requests o :
  (∀ validate, LayerValidator o = Some validate → ∀ kits loaded, follows (validate kits loaded)) →
  follows (Assemble compile done default_loader requests o) ∧
  (∀ gunzip unzstd tar_reader valid_digest verifies kits loaded,
    follows (DefaultLayerValidator gunzip unzstd tar_reader valid_digest verifies done (reports o) kits loaded)) ∧
  ∀ w r w', reports o = true → Assemble compile done default_loader requests o w = (Ok r, w') →
    (∃ l, events w' = events w ++ flat_map (λ request, completed (load_event request)) requests ++
                      completed compose_event ++ completed resolve_event ++ l ∧ steps true l) ∧
    ∃ n, polls w' = S n ∧ done n = false.
Proof.
  intros Hv. split; [by apply Assemble_follows|]. split.
  - intros. apply follows_DefaultLayerValidator.
  - intros w r w' Hr Ha. by eapply Assemble_stages.
Qed.

(** A loaded kit is accepted exactly when it is composable — an image manifest
    with at least one layer, a diff id for each, valid digests and sizes, a Linux
    platform, an environment of named values and a descriptor that may be
    published — and then it is the kit of that descriptor under the reference and
    the digest it was loaded by; anything else, and no kit at all, is an error. *)
Theorem loaded_kit_exact `{Digests, Documents} ref input :
  match validateLoadedKit ref input with
  | Ok kit => ∃ loaded d, input = Some loaded ∧ composable ref loaded d ∧
      kit = mkPublishedKit ref (Loaded_Digest loaded) (Loaded_Image loaded) (Some d) (published_bytes loaded)
  | Err _ => ∀ loaded d, input = Some loaded → ~ composable ref loaded d
  end.
Proof.
  destruct input as [loaded|]; [|by intros loaded d]. destruct (validateLoadedKit ref (Some loaded)) as [kit|e] eqn:E.
  - apply validateLoadedKit_Ok in E as (d & Hc & ->). by exists loaded, d.
  - intros loaded' d [= <-] Hc. assert (∃ kit, validateLoadedKit ref (Some loaded) = Ok kit) as [kit Hk]; [|congruence].
    eexists. apply validateLoadedKit_Ok. by exists d.
Qed.

(** C22: the environment of a successful assembly is the one its declarations were
    expanded in.  It gives a name the caller's override, else the value a kit's
    argument exports under it, else the last value the composed image's own
    environment gives it; and the requested kits, under their distinct references
    and with their own arguments, were expanded in exactly that environment. *)
Theorem assemble_environment `{References, Digests, Platforms, Decoders, Documents, ReadySort}
    compile done default_loader requests o w r w' :
  Assemble compile done default_loader requests o w = (Ok r, w') →
  NoDup (map Request_Reference requests) ∧
  ∃ kits ps expanded,
    map PKit_Reference kits = map Request_Reference requests ∧
    mapM (prepare compile) (zip kits (map Request_Args requests)) = Ok ps ∧
    mapM (expand_prepared (Environment r)) ps = Ok expanded ∧
    (∀ x v, ContainerEnv (Result_Resolved r) !! x = Some v ↔
            ∃ p, p ∈ ps ∧ exported (Args (prepared_published p)) (prepared_values p) x v) ∧
    (∀ x, Environment r !! x =
       match Overrides_Env (Options_Overrides o) !! x with
       | Some v => Some v
       | None =>
           match ContainerEnv (Result_Resolved r) !! x with
           | Some v => Some v
           | None => last_value x (Env (Image_Config (Assemble.Config (Result_Image r))))
           end
       end) ∧
    Result_WorkingDir r = default (WorkingDir (Image_Config (Assemble.Config (Result_Image r))))
                            (Overrides_WorkingDir (Options_Overrides o)).
Proof.
  unfold Assemble. intros ([] & w1 & _ & Ha)%bind_Ok. case_bool_decide; [done|].
  apply bind_Ok in Ha as ([] & w2 & _ & Ha). apply bind_Ok in Ha as (load & w3 & _ & Ha).
  apply bind_Ok in Ha as ([[loaded kits] args] & w4 & Hl & Ha). apply load_requests_yield in Hl as Hloaded.
  apply loaded_references in Hloaded as Hrefs. destruct Hloaded as (-> & Hnd & _).
  apply bind_Ok in Ha as (image & w5 & _ & Ha). apply bind_Ok in Ha as (environment & w6 & [Henv _]%lift_Ok & Ha).
  apply bind_Ok in Ha as (resolved & w7 & Hres & Ha). apply bind_Ok in Ha as ([] & w8 & _ & Ha).
  apply bind_Ok in Ha as ([] & w9 & _ & [= <- _]). split; [done|].
  apply progressStep_run in Hres as (w10 & w11 & Hres). unfold resolve_declarations in Hres.
  apply bind_Ok in Hres as (res & w12 & Hm & Hres). apply bind_Ok in Hres as ([] & w13 & _ & Hres); [by inv_step|].
  apply lift_Ok in Hres as [-> _]. unfold attempt in Hm.
  destruct (mergeKits _ _ _ _ _ _) as [res' w14] eqn:Em. injection Hm as -> ->.
  apply mergeKits_run in Em as run. pose proof (run_container_env compile _ _ _ _ _ run) as Hcont.
  destruct run as [ps expanded units resolution Hp Hx He Hu Hd Hs Hc]. cbn in Hcont, He.
  exists kits, ps, expanded. cbn. split; [done|]. split; [done|]. split; [done|]. split; [done|].
  split; [|done]. intros x. rewrite final_environment_lookup, (image_environment_lookup _ _ _ _ Henv), lookup_empty.
  by destruct (last_value x _).
Qed.

(** *** Assembling a workload and a mixin *)

Definition toy_loaded (digest image raw : string) (env : list string) : LoadedKit :=
  mkLoadedKit digest
    (mkManifest 2 "" "" (mkBlob MediaTypeImageConfig "c" 1 None) [mkBlob "layer" digest 1 None] ∅)
    (mkOciImage amd64 (mkImageConfig "" ∅ env [] [] ∅ "/" ∅ "") "layers" [digest] []) image raw None.
Definition toy_loader (ref : string) : result string (option LoadedKit) :=
  if bool_decide (ref = "base:1") then Ok (Some (toy_loaded "d0" "base@d0" "base" ["PATH=/bin"; "MODE=image"; "A=b"]))
  else if bool_decide (ref = "tools:1") then Ok (Some (toy_loaded "d1" "tools@d1" "tools" []))
  else Ok None.
Definition toy_requests : list Request :=
  [mkRequest "tools:1" {[ "mode" := "prod" ]}; mkRequest "base:1" ∅].
Definition toy_options : Composition.Options :=
  mkOptions (Some toy_loader) None (mkOverrides {[ "A" := "c" ]} None) None true.
Definition toy_assembly : result client_error Result_ * world :=
  @Assemble toy_references toy_digests toy_platforms toy_documents merge_ready (λ _, None) (λ _, false)
    (Err "no credentials") toy_requests toy_options (mkWorld 0 []).

Definition toy_kit (input : option LoadedKit) : result client_error PublishedKit :=
  @validateLoadedKit toy_digests toy_documents "base:1" input.
Example loaded_kit_samples :
  toy_kit (Some (toy_loaded "d0" "" "base" ["A="])) = Ok (mkPublishedKit "base:1" "d0" "" (Some base_descriptor) "base") ∧
  toy_kit (Some (toy_loaded "d0" "" "base" ["A=b"; "=b"])) = Err (MalformedEnvironmentAt 1) ∧
  toy_kit (Some (toy_loaded "d0" "" "" [])) = Err NoAnnotation ∧ toy_kit None = Err LoaderReturnedNoKit.
Proof. by vm_compute. Qed.

Definition toy_result : Result_ :=
  match toy_assembly with
  | (Ok r, _) => r
  | _ => mkResult (mkAssembled (mkOciImage amd64 (mkImageConfig "" ∅ [] [] [] ∅ "" ∅ "") "" [] []) []) toy_resolved ∅ ""
  end.

Lemma assemble_environment_witness :
  Environment toy_result !! "MODE" = Some "prod" ∧ Environment toy_result !! "A" = Some "c" ∧
  Environment toy_result !! "PATH" = Some "/bin".
Proof.
  destruct (@assemble_environment toy_references toy_digests toy_platforms toy_decoders toy_documents merge_ready
    (λ _, None) (λ _, false) (Err "no credentials") toy_requests toy_options (mkWorld 0 []) toy_result toy_assembly.2)
    as (_ & kits & ps & expanded & _ & _ & _ & _ & He & _); [by vm_compute|].
  rewrite !He. by vm_compute.
Defined.

Lemma assemble_protocol_witness :
  ∃ l, events toy_assembly.2 = flat_map (λ request, completed (load_event request)) toy_requests ++
         completed compose_event ++ completed resolve_event ++ l ∧ steps true l.
Proof.
  destruct (@assemble_protocol toy_references toy_digests toy_platforms toy_decoders toy_documents merge_ready
    (λ _, None) (λ _, false) (Err "no credentials") toy_requests toy_options) as (_ & _ & Hs); [done|].
  by destruct (Hs (mkWorld 0 []) toy_result toy_assembly.2) as [H _]; [done|by vm_compute|].
Defined.
