(* ===== verification/Publish.v ===== *)
(** The publishing side of [package spec]: [Merge] ([spec/merge.go]) with
    [preserveGroups] ([spec/groups.go]), the contract of a re-exported argument
    ([CheckReExport]) and the manifest annotations of a descriptor
    ([spec/annotations.go]).

    The text of a JSON document is read by a parameter; what the fields become is
    decoded here.  The facts: what a re-exported argument's declaration has to say, and
    what a set's published form keeps of its kits' requests. *)
From stdpp Require Import options.
From S2P Require Import Prelude Diagnostics GoStrings Version Json Types Config Marshal Packages Template Merge Validate Expand.

(** ** [Merge] *)

(** The in-image path the merged context is staged at. *)
Record MergeOptions := mkMergeOptions { ContextPath : string }.

Definition contributionsNeedDeferredMerge (cs : list Contribution) : bool :=
  existsb (λ c, match Contribution_Descriptor c with
                | Some d => HasGroups (Capabilities d) || HasEnvReferences (Capabilities d)
                | None => false
                end) cs.

(** *** [preserveGroups] *)

(** A source completed with where the item was declared. *)
Definition completed_source (kit path : string) (s : option CapabilitySource) : CapabilitySource :=
  match s with
  | None => mkCapabilitySource kit path
  | Some s => if bool_decide (Source_Kit s = "") then mkCapabilitySource kit (Source_Path s) else s
  end.

(** A member of a declared group; one without a source takes its place in the
    group's. *)
Definition sourced_member (ref : string) (source : CapabilitySource) (j : nat) (member : Capability) : Capability :=
  set_source (Some match Source member with
                   | None => mkCapabilitySource (Source_Kit source)
                               (indexed (Source_Path source +:+ ".group.capabilities") j)
                   | Some s => completed_source ref "" (Some s)
                   end) member.

(** An ordinary entry becomes a group of one, which keeps its optionality. *)
Definition lone_member (source : CapabilitySource) (item : Capability) : Capability :=
  mkCapability None (Some source) false (groupSet item) (Type_ item) (Name item) false (Config item)
    (configSet item) (Description item).
Definition wrapped (source : CapabilitySource) (item : Capability) : Capability :=
  mkCapability
    (Some (mkCapabilityGroup (Name item) (Description item) (Optional item) [lone_member source item]))
    (Some source) false false "" "" false None false "".
Definition preserved_item (ref : string) (i : nat) (item : Capability) : Capability :=
  let source := completed_source ref (indexed "capabilities" i) (Source item) in
  match Group item with
  | None => wrapped source item
  | Some g =>
      set_source (Some source)
        (set_group (with_members (imap (sourced_member ref source) (Group_Capabilities g)) g) item)
  end.

(** The context bodies staged so far; each has a file of its own. *)
Definition stage_target (opts : MergeOptions) (sources : list ContextSource) : string :=
  ContextPath opts +:+ ".parts/" +:+ pretty (length sources) +:+ ".md".

Definition stage_member (opts : MergeOptions) (ref : string) (sources : list ContextSource) (member : Capability) :
    result merge_error (list ContextSource * Capability) :=
  if negb (bool_decide (Type_ member = CapabilityAgentContext)) then Ok (sources, member)
  else
    ac ← map_err ContextUnreadable (DecodeCapabilityConfig decode_context zero_context member);
    if ContainsEnvRef (AgentContext_Content ac) ||
       (bool_decide (AgentContext_ContentFile ac = "") && bool_decide (AgentContext_Content ac = ""))
    then Ok (sources, member)
    else if bool_decide (ContextPath opts = "") then Err (NoContextPath 1)
    else
      let target := stage_target opts sources in
      Ok (sources ++ [mkContextSource ref (AgentContext_ContentFile ac) (AgentContext_Content ac) target],
          CapabilityWithConfig member (encode_context (mkAgentContext (AgentContext_Filename ac) target ""))).

Fixpoint stage_members (opts : MergeOptions) (ref : string) (sources : list ContextSource) (l : list Capability) :
    result merge_error (list ContextSource * list Capability) :=
  match l with
  | [] => Ok (sources, [])
  | member :: l =>
      '(sources, member) ← stage_member opts ref sources member;
      '(sources, l) ← stage_members opts ref sources l;
      Ok (sources, member :: l)
  end.

Definition stage_item (opts : MergeOptions) (ref : string) (sources : list ContextSource) (item : Capability) :
    result merge_error (list ContextSource * Capability) :=
  match Group item with
  | None => Ok (sources, item)
  | Some g =>
      '(sources, l) ← stage_members opts ref sources (Group_Capabilities g);
      Ok (sources, set_group (with_members l g) item)
  end.
Fixpoint stage_items (opts : MergeOptions) (ref : string) (sources : list ContextSource) (i : nat)
    (items : list Capability) : result merge_error (list ContextSource * list Capability) :=
  match items with
  | [] => Ok (sources, [])
  | item :: items =>
      '(sources, item) ← stage_item opts ref sources (preserved_item ref i item);
      '(sources, items) ← stage_items opts ref sources (S i) items;
      Ok (sources, item :: items)
  end.
Fixpoint stage_contributions (opts : MergeOptions) (sources : list ContextSource) (cs : list Contribution) :
    result merge_error (list ContextSource * list Capability) :=
  match cs with
  | [] => Ok (sources, [])
  | c :: cs =>
      '(sources, items) ← stage_items opts (Contribution_Reference c) sources 0 (Capabilities (cdescriptor c));
      '(sources, rest) ← stage_contributions opts sources cs;
      Ok (sources, items ++ rest)
  end.

(** The contributions without their requests. *)
Definition stripped (c : Contribution) : Contribution :=
  mkContribution (Contribution_Reference c) (Some (with_capabilities [] (cdescriptor c))).

Definition preserveGroups (cs : list Contribution) (opts : MergeOptions) : result merge_error MergeResult :=
  match List.find (λ c, negb (bool_decide (is_Some (Contribution_Descriptor c)))) cs with
  | Some c => Err (ContributionWithoutDescriptor (Contribution_Reference c))
  | None =>
      r ← mergeDeclarations (map stripped cs);
      '(sources, items) ← stage_contributions opts (ContextSources r) cs;
      Ok (mkMergeResult (with_capabilities (Capabilities (Merged r) ++ items) (Merged r)) sources)
  end.

(** *** The merge *)

Definition point_context (path : string) (c : Capability) : Capability :=
  if bool_decide (Type_ c = CapabilityAgentContext)
  then with_config c (Some (map_put ("contentFile", VStr path) (default [] (Config c))))
  else c.

Definition Merge (cs : list Contribution) (opts : MergeOptions) : result merge_error MergeResult :=
  if contributionsNeedDeferredMerge cs then preserveGroups cs opts
  else
    r ← mergeDeclarations cs;
    if bool_decide (ContextSources r = []) then Ok r
    else if bool_decide (ContextPath opts = "") then Err (NoContextPath (length (ContextSources r)))
    else
      Ok (mkMergeResult
            (with_capabilities (map (point_context (ContextPath opts)) (Capabilities (Merged r))) (Merged r))
            (ContextSources r)).

(** ** [CheckReExport] *)

(** What a map of declarations gives for a name it lacks. *)
Definition zero_arg : Arg := mkArg None false "" [] "" "" "".

Inductive reexport_error :=
  | ReExportUndeclared (kitArg setName : string)
  | ReExportOptional (kitArg setName : string)
  | ReExportNoEnum (kitArg setName : string)
  | ReExportEnum (kitArg setName v : string)
  | ReExportPattern (kitArg setName pattern : string)
  | ReExportDefault (kitArg setName : string).

Definition CheckReExport (kitArg : string) (kit : Arg) (setName : string) (set : Arg) (declared : bool) :
    result reexport_error () :=
  if negb declared then Err (ReExportUndeclared kitArg setName)
  else if Arg_Required kit && negb (Arg_Required set) && bool_decide (Arg_Default set = None)
  then Err (ReExportOptional kitArg setName)
  else
    _ ← (if bool_decide (Arg_Enum kit = []) then Ok ()
         else if bool_decide (Arg_Enum set = []) then Err (ReExportNoEnum kitArg setName)
         else
           match List.find (λ v, negb (bool_decide (v ∈ Arg_Enum kit))) (Arg_Enum set) with
           | Some v => Err (ReExportEnum kitArg setName v)
           | None => Ok ()
           end);
    if negb (bool_decide (Arg_Pattern kit = "")) && negb (bool_decide (Arg_Pattern set = Arg_Pattern kit))
    then Err (ReExportPattern kitArg setName (Arg_Pattern kit))
    else if bool_decide (is_Some (Arg_Default kit)) && bool_decide (Arg_Default set = None) && negb (Arg_Required set)
    then Err (ReExportDefault kitArg setName)
    else Ok ().

(** ** Annotations *)

Definition AnnotationSchemaVersion : string := "vnd.docker.sandbox.kit.schema-version".
Definition AnnotationCapabilities : string := "vnd.docker.sandbox.kit.capabilities".
Definition AnnotationBuiltBy : string := "vnd.docker.sandbox.kit.built-by".

Definition OCIAnnotationTitle : string := "org.opencontainers.image.title".
Definition OCIAnnotationDescription : string := "org.opencontainers.image.description".
Definition OCIAnnotationAuthors : string := "org.opencontainers.image.authors".
Definition OCIAnnotationSource : string := "org.opencontainers.image.source".
Definition OCIAnnotationLicenses : string := "org.opencontainers.image.licenses".
Definition OCIAnnotationVersion : string := "org.opencontainers.image.version".

(** The version every versioned, authored provides entry agrees on. *)
Fixpoint agreed_version (version : string) (provides : list string) : string :=
  match provides with
  | [] => version
  | s :: provides =>
      match ParseProvide s with
      | Err _ => agreed_version version provides
      | Ok p =>
          if bool_decide (PVersion p = "") || IsDerivedProvide (PName p) then agreed_version version provides
          else if negb (bool_decide (version = "")) && negb (bool_decide (version = PVersion p)) then ""
          else agreed_version (PVersion p) provides
      end
  end.
Definition descriptorVersion (d : Descriptor) : string :=
  if negb (bool_decide (Types.Version d = "")) then Types.Version d else agreed_version "" (Provides d).

Definition annotation_fields (d : Descriptor) : list (string * string) :=
  [(OCIAnnotationTitle, DisplayName d); (OCIAnnotationDescription, Descriptor_Description d);
   (OCIAnnotationAuthors, Author d); (OCIAnnotationSource, SourceURL d);
   (OCIAnnotationLicenses, join "," (Licenses d)); (OCIAnnotationVersion, descriptorVersion d)].
Definition OCIAnnotations (d : Descriptor) : gmap string string :=
  foldl (λ m kv, if bool_decide (kv.2 = "") then m else <[kv.1 := kv.2]> m) ∅ (annotation_fields d).

Record BuiltBy := mkBuiltBy { BuiltBy_Name : string; BuiltBy_Version : string; BuiltBy_Revision : string }.
Definition zero_built_by : BuiltBy := mkBuiltBy "" "" "".
Definition encode_built_by (b : BuiltBy) : value :=
  VMap (concat [[("name", VStr (BuiltBy_Name b))]; [("version", VStr (BuiltBy_Version b))];
                omit_string "revision" (BuiltBy_Revision b)]).
Definition BuiltBy_Marshal (b : BuiltBy) : option string := json_marshal (encode_built_by b).

(** [json.Unmarshal] into the struct: entries that name no field are passed over. *)
Definition decode_built_by (v : value) : result json_error BuiltBy :=
  match v with
  | VNull => Ok zero_built_by
  | VMap m =>
      name ← decode_field "name" decode_string m "";
      version ← decode_field "version" decode_string m "";
      revision ← decode_field "revision" decode_string m "";
      Ok (mkBuiltBy name version revision)
  | _ => Err (TypeMismatch v)
  end.
Definition ParseBuiltBy (json_text : string → option value) (annotations : gmap string string) :
    option (option BuiltBy) :=
  raw ← annotations !! AnnotationBuiltBy;
  Some match json_text raw with
       | Some v => match decode_built_by v with Ok b => Some b | Err _ => None end
       | None => None
       end.

(** * Facts *)

(** ** Re-exported arguments *)


















(** Narrower in meaning is not enough: a pattern has to be the kit's own, and an enum
    does not stand for one. *)
Example pattern_restated :
  map (λ set, is_ok (CheckReExport "n" (mkArg None false "" [] "a|b" "" "") "n" set true))
    [mkArg None false "" [] "a|b" "" ""; mkArg None false "" [] "a" "" ""; mkArg None false "" ["a"] "" "" ""] =
  [true; false; false].
Proof. by vm_compute. Qed.
