(* ===== verification/SetBuild.v ===== *)
(** [cmd/frontend/set.go]: building a set — the kits it lists resolved, ordered with
    the set's own declarations, judged against each other and merged into one
    kit's declarations and image configuration.

    BuildKit is the class [Gateway]: image configurations resolved, filesystem
    states merged and solved, files of solved states read.  YAML rendering and the
    JSON form of an image are parameters, and so are the reference grammar and the
    regular expressions of argument patterns. *)
From stdpp Require Import options.
From S2P Require Import Prelude GoStrings Version Json Types Config Marshal GoPath Template Merge Context Resolve Oci Assemble Validate Expand Selection LayerTar Registry Publish.

(** ** What a build may ask of BuildKit *)

Class Gateway := {
  State : Type;
  Solved : Type;
  ResolveImageConfig : string → Platform → result string (string * string * string);
  image_state : string → Platform → State;
  merge_states : list State → State;
  Solve : State → Platform → result string Solved;
  ReadDir : Solved → string → result string (list (string * bool));
  ReadFile : Solved → string → result string string;
  stage_file : Solved → Platform → string → string → result string Solved;
  readContextFile : string → result string string;
}.

Definition stagedKitRoot : string := "/usr/share/sandbox/kit".
Definition stagedDescriptorName : string := "kit.yaml".
Definition stagedRecipeName : string := "kit.dockerfile".
Definition setContextName : string := "context.md".
Definition stagedSetContextPath (stem : string) : string :=
  Join (Join stagedKitRoot stem) setContextName.
Definition set_reference : string := "the set descriptor".

Inductive set_error :=
  | GatewayFailed (cause : string)
  | BadKitReference (ref cause : string)
  | TwoPins (ref pinned digest : string)
  | ConfigUnparsed (ref : string)
  | NoStagedSources
  | ManyStagedSources (stems : list string)
  | StagedUndecodable (cause : decode_error)
  | StagedUnpublishable (errs : list FieldError)
  | KitArgsRefused (cause : arg_error)
  | ReExportRefused (cause : reexport_error)
  | ReExportedEnv (name variable : string)
  | EnvDiffers (variable held value : string)
  | DeclarationsUnencodable
  | ArgsNotExpanded (cause : expand_error)
  | ExpandedUndecodable (cause : decode_error)
  | DeclarationsInvalid (errs : list FieldError)
  | ForKit (ref : string) (cause : set_error)
  | OwnContext (cause : config_error)
  | OwnContextUnread (file cause : string)
  | KitsIncoherent (cause : resolve_error)
  | StemTaken (ref stem : string)
  | ProvidesTaken (entry owner : string)
  | RelationUnmet (who entry : string) (offered : list string)
  | SetConflicts (name owner : string)
  | SelfRequirement (entry name : string)
  | KitConflictsSet (ref name : string)
  | Circular (refs : list string)
  | NotMerged (cause : merge_error)
  | KindMismatch (authored derived : string)
  | NotResolved (ref : string)
  | ContextNoFilesystem (ref : string)
  | ContextUnread (ref cause : string)
  | ContextReferences (ref : string) (names : list string)
  | StemsCollide (first second stem : string)
  | ImagesNotMerged (cause : assemble_error)
  | ExportsDisagree (first second variable : string)
  | ImageUnencodable (cause : string)
  | PlatformsDiffer (first second : string)
  | MergedNotPublishable (errs : list FieldError)
  | NotRendered.

(** ** The set's own declarations *)

Definition set_kits (kits : list Kit) (d : Descriptor) : Descriptor :=
  mkDescriptor (declarationsOnly d) (Descriptor_SchemaVersion d) (DisplayName d) (Author d)
    (Descriptor_Description d) (SourceURL d) (IconURL d) (Types.Version d) (Licenses d) (Kind d) (Provides d)
    (Requires d) (Integrates d) (Conflicts d) (Capabilities d) (Args d) (Build d) kits (Dockerfile d)
    match kits with [] => false | _ => true end.
Definition set_kind (kind : string) (d : Descriptor) : Descriptor :=
  mkDescriptor (declarationsOnly d) (Descriptor_SchemaVersion d) (DisplayName d) (Author d)
    (Descriptor_Description d) (SourceURL d) (IconURL d) (Types.Version d) (Licenses d) kind (Provides d)
    (Requires d) (Integrates d) (Conflicts d) (Capabilities d) (Args d) (Build d) (Kits d) (Dockerfile d) (kitsStated d).

(** ** Relations between the set and its kits *)

(** What a side offers, and who offers each name first. *)
Definition provide_owner (ref : string) (owner : gmap string string) (s : string) : gmap string string :=
  match ParseProvide s with
  | Err _ => owner
  | Ok p => if bool_decide (is_Some (owner !! PName p)) then owner else <[PName p := ref]> owner
  end.
Definition provide_owners (cs : list Contribution) : gmap string string :=
  foldl (λ owner c, foldl (provide_owner (Contribution_Reference c)) owner (Provides (cdescriptor c))) ∅ cs.
Definition providersOf (cs : list Contribution) : gmap string (list Provide) * gmap string string :=
  (ProvidesIndex cs, provide_owners cs).

Definition describeOffers (offers : list Provide) : list string :=
  map (λ p, DisplayCapabilityName (PName p) +:+ "@" +:+ PVersion p) offers.

(** An entry about a name the other side offers has to be met by it. *)
Definition relation_problem (provided : gmap string (list Provide)) (who s : string) : option set_error :=
  match ParseRequire s with
  | Err _ => None
  | Ok r =>
      match provided !! RName r with
      | None => None
      | Some offers => if SatisfiedBy provided r then None else Some (RelationUnmet who s (describeOffers offers))
      end
  end.
Definition first_problem {A E} (f : A → option E) (l : list A) : result E () :=
  match omap f l with e :: _ => Err e | [] => Ok () end.

Definition checkRelationsAgainst (d : Descriptor) (provided : gmap string (list Provide)) (who : string) :
    result set_error () :=
  first_problem (relation_problem provided who) (Requires d ++ Integrates d).

Definition taken_provide (owner : gmap string string) (s : string) : option set_error :=
  match ParseProvide s with
  | Err _ => None
  | Ok p => ProvidesTaken s <$> owner !! PName p
  end.
Definition self_requirement (kits own : gmap string string) (s : string) : option set_error :=
  match ParseRequire s with
  | Err _ => None
  | Ok r =>
      match own !! RName r, kits !! RName r with
      | Some _, None => Some (SelfRequirement s (DisplayCapabilityName (RName r)))
      | _, _ => None
      end
  end.
Definition kit_against_set (bySet : gmap string (list Provide)) (setOwner : gmap string string) (c : Contribution) :
    result set_error () :=
  _ ← checkRelationsAgainst (cdescriptor c) bySet (Contribution_Reference c);
  first_problem (λ name, (λ _, KitConflictsSet (Contribution_Reference c) name) <$>
                           setOwner !! NormalizeCapabilityName name) (Conflicts (cdescriptor c)).
Fixpoint each_kit {A} (f : A → result set_error ()) (l : list A) : result set_error () :=
  match l with [] => Ok () | a :: l => _ ← f a; each_kit f l end.

Definition checkSetRelations (own : Descriptor) (kits : list Contribution) : result set_error () :=
  let '(byKits, kitOwner) := providersOf kits in
  let '(bySet, setOwner) := providersOf [mkContribution set_reference (Some own)] in
  _ ← first_problem (taken_provide kitOwner) (Provides own);
  _ ← checkRelationsAgainst own byKits "the set";
  _ ← first_problem (λ name, SetConflicts name <$> kitOwner !! NormalizeCapabilityName name) (Conflicts own);
  _ ← first_problem (self_requirement kitOwner setOwner) (Requires own);
  each_kit (kit_against_set bySet setOwner) kits.

(** ** The order of the contributions *)

(** Contributions by position: how many providers each waits for, and which wait
    for it. *)
Record waiting := mkWaiting { indegree : gmap nat Z; dependsOn : gmap nat (list nat) }.
Definition waits (w : waiting) (i : nat) : Z := default 0%Z (indegree w !! i).
Definition waiters (w : waiting) (j : nat) : list nat := default [] (dependsOn w !! j).
Definition add_wait (j i : nat) (w : waiting) : waiting :=
  mkWaiting (<[i := (waits w i + 1)%Z]> (indegree w)) (<[j := waiters w j ++ [i]]> (dependsOn w)).

Definition positions (cs : list Contribution) : gmap string nat :=
  foldl (λ m ic, <[Contribution_Reference ic.2 := ic.1]> m) ∅ (imap pair cs).

(** The providers one contribution has been given an edge to, and the graph. *)
Definition provider_step (index : gmap string nat) (ref : string) (i : nat) (r : Require_)
    (st : gset nat * waiting) (o : OwnedProvide) : gset nat * waiting :=
  if bool_decide (Owner o = ref) || negb (Satisfies (Owned o) r) then st
  else
    let j := default 0 (index !! Owner o) in
    if bool_decide (j ∈ st.1) then st else ({[j]} ∪ st.1, add_wait j i st.2).
Definition entry_step (owned : gmap string (list OwnedProvide)) (index : gmap string nat) (ref : string) (i : nat)
    (st : gset nat * waiting) (entry : string) : gset nat * waiting :=
  match ParseRequire entry with
  | Err _ => st
  | Ok r => foldl (provider_step index ref i r) st (default [] (owned !! RName r))
  end.
Definition contribution_step (owned : gmap string (list OwnedProvide)) (index : gmap string nat)
    (w : waiting) (ic : nat * Contribution) : waiting :=
  let d := cdescriptor ic.2 in
  (foldl (entry_step owned index (Contribution_Reference ic.2) ic.1) (∅, w) (Requires d ++ Integrates d)).2.
Definition wait_graph (all : list Contribution) : waiting :=
  foldl (contribution_step (OwnedProvides all) (positions all)) (mkWaiting ∅ ∅) (imap pair all).

Definition release_one (st : gmap nat Z * list nat) (i : nat) : gmap nat Z * list nat :=
  let n := (default 0 (st.1 !! i) - 1)%Z in
  (<[i := n]> st.1, if bool_decide (n = 0%Z) then st.2 ++ [i] else st.2).
Definition sort_ints (l : list nat) : list nat := merge_sort le l.

(** The loop that takes the smallest ready position, and what it leaves waiting. *)
Fixpoint take_ready (fuel : nat) (w : waiting) (degrees : gmap nat Z) (ready out : list nat) :
    option (gmap nat Z * list nat) :=
  match ready with
  | [] => Some (degrees, out)
  | _ =>
      match fuel, sort_ints ready with
      | S fuel, next :: ready =>
          let '(degrees, ready) := foldl release_one (degrees, ready) (waiters w next) in
          take_ready fuel w degrees ready (out ++ [next])
      | _, _ => None
      end
  end.

Definition orderContributions (own : Descriptor) (kits : list Contribution) :
    result set_error (list Contribution) :=
  let all := kits ++ [mkContribution set_reference (Some own)] in
  let w := wait_graph all in
  let ready := List.filter (λ i, bool_decide (waits w i = 0%Z)) (seq 0 (length all)) in
  match take_ready (length all) w (indegree w) ready [] with
  | None => Err (Circular [])
  | Some (degrees, out) =>
      if bool_decide (length out = length all) then Ok (omap (λ i, all !! i) out)
      else
        Err (Circular (sort_strings (map Contribution_Reference
          (omap (λ i, if bool_decide (0 < default 0 (degrees !! i))%Z then all !! i else None)
             (seq 0 (length all))))))
  end.

(** ** Kinds and metadata *)

Definition checkAuthoredKind (authored derived : string) : result set_error () :=
  if bool_decide (authored = KindSet) || bool_decide (authored = derived) then Ok ()
  else Err (KindMismatch authored derived).

(** The set author's fields on the merged descriptor, and the record of its kits. *)
Definition with_metadata (d merged : Descriptor) (kits : list Kit) : Descriptor :=
  mkDescriptor (declarationsOnly merged) (Descriptor_SchemaVersion merged) (DisplayName d) (Author d)
    (Descriptor_Description d) (SourceURL d) (IconURL d) (Types.Version d) (Licenses merged) (Kind merged)
    (Provides merged) (Requires merged) (Integrates merged) (Conflicts merged) (Capabilities merged)
    (Args d) (Build merged) (Kits merged ++ kits) (Dockerfile merged) (kitsStated merged).

(** ** One listed kit *)

Definition zero_platform : Platform := mkPlatform "" "" "" [] "".
Definition zero_image_config : ImageConfig := mkImageConfig "" ∅ [] [] [] ∅ "" ∅ "".
Definition zero_image : OciImage := mkOciImage zero_platform zero_image_config "" [] [].

(** A re-exported value is held to the contract of the argument it answers. *)
Definition reexport_problem (decls setArgs : gmap string Arg) (nv : string * string) : option reexport_error :=
  let '(name, v) := nv in
  if negb (IsWholeArgRef v) then None
  else
    match ReferencedArgs v with
    | [referenced] =>
        match CheckReExport name (default zero_arg (decls !! name)) referenced
                (default zero_arg (setArgs !! referenced)) (bool_decide (is_Some (setArgs !! referenced))) with
        | Ok _ => None
        | Err e => Some e
        end
    | _ => None
    end.

(** The variables a kit's arguments export; Go's map order decides only which of
    several problems is reported. *)
Fixpoint kit_exports (values : gmap string string) (decls : list (string * Arg)) (env : gmap string string) :
    result set_error (gmap string string) :=
  match decls with
  | [] => Ok env
  | (name, decl) :: decls =>
      if negb (bool_decide (Arg_BuildArg decl = "")) || bool_decide (Arg_Env decl = "")
      then kit_exports values decls env
      else
        match values !! name with
        | None => kit_exports values decls env
        | Some v =>
            if ContainsArgRef v then Err (ReExportedEnv name (Arg_Env decl))
            else
              match env !! Arg_Env decl with
              | Some held =>
                  if bool_decide (held = v) then kit_exports values decls env
                  else Err (EnvDiffers (Arg_Env decl) held v)
              | None => kit_exports values decls (<[Arg_Env decl := v]> env)
              end
        end
  end.

(** A path names one of several staged roots. *)
Definition staged_path (stem name : string) : string := Join (Join stagedKitRoot stem) name.

Section Kits.
Context `{References, Decoders, Documents, ReadySort, Gateway}.
Context (compile : string → option (string → bool)).

Record resolvedKit := mkResolvedKit {
  reference : string;
  pinned : string;
  digest : string;
  kit_descriptor : Descriptor;
  state : State;
  config : OciImage;
  stem : string;
  env : gmap string string;
}.

Definition kitDeclarations (published : Descriptor) (k : Kit) (setArgs : gmap string Arg) :
    result set_error (Descriptor * gmap string string) :=
  values ← map_err KitArgsRefused (KitArgValues compile (Args published) (Kit_Args k));
  _ ← map_err ReExportRefused (first_problem (reexport_problem (Args published) setArgs) (map_to_list values));
  env ← kit_exports values (map_to_list (Args published)) ∅;
  match json_marshal (encode_descriptor published) with
  | None => Err DeclarationsUnencodable
  | Some raw =>
      expanded ← map_err ArgsNotExpanded (ExpandCreateArgs raw (Args published) values);
      d ← map_err ExpandedUndecodable (Decode expanded);
      let errs :=
        if bool_decide (ReferencedArgs expanded = []) && negb (HasEnvReferences (Capabilities d))
        then (ValidateExpandedDeclarations expanded d).2 else (Validate d).2 in
      if bool_decide (errs = []) then Ok (set_args ∅ d, env) else Err (DeclarationsInvalid errs)
  end.

(** The stems whose staged descriptor can be read, with its bytes. *)
Definition staged_body (ref : Solved) (candidate : string) : option (string * string) :=
  match ReadFile ref (staged_path candidate stagedDescriptorName) with
  | Ok body => Some (candidate, body)
  | Err _ => None
  end.
Definition readKitDescriptor (s : State) (p : Platform) : result set_error (Descriptor * string) :=
  ref ← map_err GatewayFailed (Solve s p);
  entries ← map_err GatewayFailed (ReadDir ref stagedKitRoot);
  let stems := map (λ e, Base e.1) (List.filter snd entries) in
  match omap (staged_body ref) stems with
  | [] => Err NoStagedSources
  | [(stem, raw)] =>
      d ← map_err StagedUndecodable (Decode raw);
      let errs := (ValidatePublished raw d).2 in
      if bool_decide (errs = []) then Ok (d, stem) else Err (StagedUnpublishable errs)
  | found => Err (ManyStagedSources (map fst found))
  end.

Definition with_pin (ref digest : string) : string :=
  if negb (bool_decide (digest = "")) && negb (contains "@" ref) then ref +:+ "@" +:+ digest else ref.

Definition resolveKit (k : Kit) (p : Platform) (setArgs : gmap string Arg) : result set_error resolvedKit :=
  named ← map_err (BadKitReference (Kit_Ref k)) (ParseNormalizedNamed (Kit_Ref k));
  let pin := Kit_Digest k in
  _ ← match Canonical named with
      | Some d => if negb (bool_decide (pin = "")) && negb (bool_decide (d = pin))
                  then Err (TwoPins (Kit_Ref k) d pin) else Ok ()
      | None => Ok ()
      end;
  let ref := with_pin (named_string (TagNameOnly named)) pin in
  '(pinned, dgst, raw) ← map_err GatewayFailed (ResolveImageConfig ref p);
  let pinned := with_pin (if bool_decide (pinned = "") then ref else pinned) dgst in
  image ← (if bool_decide (raw = "") then Ok zero_image
           else match parse_image raw with Some i => Ok i | None => Err (ConfigUnparsed (Kit_Ref k)) end);
  let s := image_state pinned p in
  '(published, stem) ← readKitDescriptor s p;
  '(d, env) ← kitDeclarations published k setArgs;
  let d := Expand.set_version (EffectiveProvideVersion (Kit_Ref k) (Some d)) d in
  Ok (mkResolvedKit (Kit_Ref k) pinned dgst d s image stem env).

Fixpoint resolve_kits (p : Platform) (setArgs : gmap string Arg) (kits : list Kit) :
    result set_error (list resolvedKit) :=
  match kits with
  | [] => Ok []
  | k :: kits =>
      r ← map_err (ForKit (Kit_Ref k)) (resolveKit k p setArgs);
      rest ← resolve_kits p setArgs kits; Ok (r :: rest)
  end.
Definition resolveKits (d : Descriptor) (p : Platform) : result set_error (list resolvedKit) :=
  resolve_kits p (Args d) (Kits d).

Definition inline_context (n : Capability) : result set_error Capability :=
  if negb (bool_decide (Type_ n = CapabilityAgentContext)) then Ok n
  else
    ac ← map_err OwnContext (DecodeCapabilityConfig decode_context zero_context n);
    let file := AgentContext_ContentFile ac in
    if bool_decide (file = "") then Ok n
    else
      body ← map_err (OwnContextUnread file) (readContextFile (trim_prefix "./" file));
      Ok (CapabilityWithConfig n (encode_context (mkAgentContext (AgentContext_Filename ac) "" body))).
Definition setOwnDescriptor (d : Descriptor) : result set_error Descriptor :=
  let own := set_kind KindMixin (set_kits [] d) in
  l ← MapCapabilities inline_context (Capabilities own);
  Ok (with_capabilities l own).

(** ** Judging and ordering the kits *)

Definition kit_unit (i : nat) (k : resolvedKit) : Unit :=
  mkUnit i (reference k) (digest k) (pinned k) (Some (kit_descriptor k)) ∅ None.
(** What the set provides answers its kits; the rest of it is judged later. *)
Definition set_unit (i : nat) (own : Descriptor) : Unit :=
  mkUnit i set_reference "" ""
    (Some (mkDescriptor false (Descriptor_SchemaVersion own) "" "" "" "" "" (Types.Version own) [] KindMixin
             (Provides own) [] [] [] [] ∅ "" [] "" false)) ∅ None.
Definition orderKits (kits : list resolvedKit) (own : Descriptor) : result set_error (list resolvedKit) :=
  let units := imap kit_unit kits ++ [set_unit (length kits) own] in
  resolution ← map_err KitsIncoherent (Dependencies units true);
  Ok (omap (λ u, kits !! uid u) (Topological resolution)).

Fixpoint checkStemCollision (s : string) (kits : list resolvedKit) : result set_error () :=
  match kits with
  | [] => Ok ()
  | k :: kits => if bool_decide (stem k = s) then Err (StemTaken (reference k) s) else checkStemCollision s kits
  end.

Definition kits_by_reference (kits : list resolvedKit) : gmap string resolvedKit :=
  foldl (λ m k, <[reference k := k]> m) ∅ kits.
Definition kitsInContributionOrder (cs : list Contribution) (kits : list resolvedKit) : list resolvedKit :=
  omap (λ c, kits_by_reference kits !! Contribution_Reference c) cs.

Fixpoint kit_record (resolved : gmap string resolvedKit) (kits : list Kit) : result set_error (list Kit) :=
  match kits with
  | [] => Ok []
  | k :: kits =>
      match resolved !! Kit_Ref k with
      | None => Err (NotResolved (Kit_Ref k))
      | Some r => rest ← kit_record resolved kits; Ok (mkKit (Kit_Ref k) (digest r) (Kit_Args k) :: rest)
      end
  end.
Definition carryOverSetMetadata (d merged : Descriptor) (kits : list resolvedKit) : result set_error Descriptor :=
  l ← kit_record (kits_by_reference kits) (Kits d); Ok (with_metadata d merged l).

(** ** Content *)

Fixpoint stem_collisions (owners : gmap string string) (kits : list resolvedKit) : result set_error () :=
  match kits with
  | [] => Ok ()
  | k :: kits =>
      if bool_decide (stem k = "") then stem_collisions owners kits
      else
        match owners !! stem k with
        | Some prev => Err (StemsCollide prev (reference k) (stem k))
        | None => stem_collisions (<[stem k := reference k]> owners) kits
        end
  end.
Definition checkKitCollisions (kits : list resolvedKit) : result set_error () := stem_collisions ∅ kits.

(** The workload's filesystem is the base, whatever its place in the order. *)
Definition is_workload_kit (k : resolvedKit) : bool := bool_decide (Kind (kit_descriptor k) = KindWorkload).
Definition layered_states (kits : list resolvedKit) : list State :=
  map state (List.filter is_workload_kit kits) ++ map state (List.filter (λ k, negb (is_workload_kit k)) kits).

(** *** Exports *)

Record env_binding := mkEnvBinding { env_value : string; env_owner : string }.
Fixpoint bind_kit (ref : string) (env : list (string * string)) (bound : gmap string env_binding) :
    result set_error (gmap string env_binding) :=
  match env with
  | [] => Ok bound
  | (name, v) :: env =>
      match bound !! name with
      | Some held =>
          if bool_decide (env_value held = v) then bind_kit ref env bound
          else Err (ExportsDisagree (env_owner held) ref name)
      | None => bind_kit ref env (<[name := mkEnvBinding v ref]> bound)
      end
  end.
Fixpoint bind_kits (kits : list resolvedKit) (bound : gmap string env_binding) :
    result set_error (gmap string env_binding) :=
  match kits with
  | [] => Ok bound
  | k :: kits => bound ← bind_kit (reference k) (map_to_list (env k)) bound; bind_kits kits bound
  end.

(** The first entry of an overridden name takes the value, the others go. *)
Definition override_entry (bound : gmap string env_binding) (st : gset string * list string) (existing : string) :
    gset string * list string :=
  let '(written, out) := st in
  let '(name, _, found) := cut "=" existing in
  match bound !! name with
  | Some b =>
      if negb found then (written, out ++ [existing])
      else if bool_decide (name ∈ written) then st
      else ({[name]} ∪ written, out ++ [name +:+ "=" +:+ env_value b])
  | None => (written, out ++ [existing])
  end.
Definition override_env (bound : gmap string env_binding) (env : list string) : list string :=
  let '(written, out) := foldl (override_entry bound) (∅, []) env in
  out ++ omap (λ name, if bool_decide (name ∈ written) then None
                       else (λ b, name +:+ "=" +:+ env_value b) <$> bound !! name)
           (sort_strings (map fst (map_to_list bound))).
Definition applyArgExports (c : ImageConfig) (kits : list resolvedKit) : result set_error ImageConfig :=
  bound ← bind_kits kits ∅; Ok (set_env c (override_env bound (Env c))).

(** *** The image configuration *)

Definition states_contract (c : ImageConfig) : bool :=
  negb (bool_decide (Entrypoint c = []) && bool_decide (Cmd c = []) && bool_decide (User c = "") &&
        bool_decide (WorkingDir c = "")).
Definition contract_of (c : ImageConfig) : ImageConfig :=
  mkImageConfig (User c) ∅ [] (Entrypoint c) (Cmd c) ∅ (WorkingDir c) ∅ "".
Definition soleContract (kits : list resolvedKit) : ImageConfig :=
  match List.filter states_contract (map (λ k, Image_Config (config k)) kits) with
  | [c] => contract_of c
  | _ => zero_image_config
  end.

Definition bare_platform (p : Platform) : Platform := mkPlatform (Architecture p) (OS p) "" [] (Variant p).
Definition zero_manifest : Manifest := mkManifest 0 "" "" (mkBlob "" "" 0 None) [] ∅.
Definition kit_input (p : Platform) (k : resolvedKit) : Input :=
  mkInput (reference k) zero_manifest (mkOciImage p (Image_Config (config k)) "" [] []).
Definition empty_input (name : string) (p : Platform) : Input :=
  mkInput name zero_manifest (mkOciImage p zero_image_config "" [] []).
Definition with_contract (contract c : ImageConfig) : ImageConfig :=
  mkImageConfig (User contract) (ExposedPorts c) (Env c) (Entrypoint contract) (Cmd contract) (Volumes c)
    (WorkingDir contract) (Labels c) (StopSignal c).

(** The workload anchors the contract and the others are its overlays; without one
    all of them are. *)
Definition image_inputs (p : Platform) (kits : list resolvedKit) (kind : string) : Input * list Input :=
  if bool_decide (kind = KindWorkload)
  then (default (empty_input "" zero_platform) (last (map (kit_input p) (List.filter is_workload_kit kits))),
        map (kit_input p) (List.filter (λ k, negb (is_workload_kit k)) kits))
  else (empty_input "the merged overlay" p, map (kit_input p) kits).

(** [mergedImageConfig], before it is marshaled. *)
Definition merged_image (kits : list resolvedKit) (merged : Descriptor) (plat : Platform) :
    result set_error OciImage :=
  let p := bare_platform plat in
  let '(base, overlays) := image_inputs p kits (Kind merged) in
  r ← map_err ImagesNotMerged (Assemble.Merge base overlays);
  c ← applyArgExports (Image_Config (Assemble.Config r)) kits;
  Ok (mkOciImage p
        (if bool_decide (Kind merged = KindWorkload) then c else with_contract (soleContract kits) c)
        "" [] []).

Context (marshal_image : OciImage → result string string).

Definition mergedImageConfig (kits : list resolvedKit) (merged : Descriptor) (plat : Platform) :
    result set_error string :=
  image ← merged_image kits merged plat; map_err ImageUnencodable (marshal_image image).

Definition mergeKitContent (kits : list resolvedKit) (merged : Descriptor) (plat : Platform) :
    result set_error (Solved * string) :=
  _ ← checkKitCollisions kits;
  let st := match layered_states kits with [s] => s | states => merge_states states end in
  ref ← map_err GatewayFailed (Solve st plat);
  raw ← mergedImageConfig kits merged plat;
  Ok (ref, raw).

(** *** Context bodies *)

Definition newline : string := of_bytes [10].

Definition read_source (kits : list resolvedKit) (plat : Platform) (source : ContextSource) :
    result set_error ContextSource :=
  let ref := ContextSource_Reference source in
  if bool_decide (ContextSource_Path source = "") then Ok source
  else
    match kits_by_reference kits !! ref with
    | None => Err (ContextNoFilesystem ref)
    | Some k =>
        solved ← map_err (ContextUnread ref) (Solve (state k) plat);
        body ← map_err (ContextUnread ref) (ReadFile solved (ContextSource_Path source));
        Ok (mkContextSource ref "" body (ContextSource_Target source))
    end.
Definition readContextSources (kits : list resolvedKit) (plat : Platform) (sources : list ContextSource) :
    result set_error (list ContextSource) := mapM (read_source kits plat) sources.

Definition append_body (body : string) (source : ContextSource) : string :=
  let content := ContextSource_Content source in
  if bool_decide (trim_space content = "") then body
  else
    (if bool_decide (body = "") then "" else body +:+ newline) +:+
    "<!-- from " +:+ ContextSource_Reference source +:+ " -->" +:+ newline +:+ content +:+
    (if has_suffix newline content then "" else newline).
Definition context_body (sources : list ContextSource) : string := foldl append_body "" sources.

Definition context_references (source : ContextSource) : option set_error :=
  match ReferencedArgs (ContextSource_Content source) with
  | [] => None
  | names => Some (ContextReferences (ContextSource_Reference source) names)
  end.
Definition stageGuidance (ref : Solved) (plat : Platform) (staged body : string) : result set_error Solved :=
  map_err GatewayFailed (stage_file ref plat staged body).
Fixpoint stage_separately (ref : Solved) (plat : Platform) (sources : list ContextSource) : result set_error Solved :=
  match sources with
  | [] => Ok ref
  | s :: sources =>
      ref ← stageGuidance ref plat (ContextSource_Target s) (ContextSource_Content s);
      stage_separately ref plat sources
  end.
Definition stageSetContext (ref : Solved) (plat : Platform) (staged : string) (sources : list ContextSource) :
    result set_error Solved :=
  _ ← first_problem context_references sources;
  match sources with
  | [] => Ok ref
  | s :: _ =>
      if negb (bool_decide (ContextSource_Target s = "")) then stage_separately ref plat sources
      else stageGuidance ref plat staged (context_body sources)
  end.

(** ** One platform's set *)

Record setBuild := mkSetBuild {
  build_ref : Solved;
  build_config : string;
  build_merged : Descriptor;
  build_context : list ContextSource;
  build_kits : list resolvedKit;
}.

Definition kit_contribution (k : resolvedKit) : Contribution :=
  mkContribution (reference k) (Some (kit_descriptor k)).

Definition buildSet (d : Descriptor) (plat : Platform) (stem : string) : result set_error setBuild :=
  kits ← resolveKits d plat;
  own ← setOwnDescriptor d;
  ordered ← orderKits kits own;
  _ ← checkStemCollision stem ordered;
  let kitContributions := map kit_contribution ordered in
  _ ← checkSetRelations own kitContributions;
  contributions ← orderContributions own kitContributions;
  let ordered := kitsInContributionOrder contributions ordered in
  r ← map_err NotMerged (Merge contributions (mkMergeOptions (stagedSetContextPath stem)));
  _ ← checkAuthoredKind (Kind d) (Kind (Merged r));
  merged ← carryOverSetMetadata d (Merged r) ordered;
  sources ← readContextSources ordered plat (ContextSources r);
  '(ref, raw) ← mergeKitContent ordered merged plat;
  Ok (mkSetBuild ref raw merged sources ordered).

(** ** Every platform *)

Context (render_yaml : value → option string) (FormatAll : Platform → string).

Record setPlan := mkSetPlan { plan_published : string; builds : gmap string setBuild }.

(** [None] when either does not marshal. *)
Definition sameDeclarations (a b : Descriptor) : option bool :=
  left ← json_marshal (encode_descriptor a);
  right ← json_marshal (encode_descriptor b);
  Some (bool_decide (left = right)).

Definition publishedSetDescriptor (d : Descriptor) : result set_error string :=
  if negb (marshals (encode_descriptor d)) then Err NotRendered
  else
    match render_yaml (encode_descriptor d) with
    | None => Err NotRendered
    | Some published =>
        let errs := (ValidatePublished published d).2 in
        if bool_decide (errs = []) then Ok published else Err (MergedNotPublishable errs)
    end.

Definition plan_step (d : Descriptor) (stem : string)
    (st : option (setBuild * string) * gmap string setBuild) (plat : Platform) :
    result set_error (option (setBuild * string) * gmap string setBuild) :=
  build ← buildSet d plat stem;
  let id := FormatAll plat in
  let m := <[id := build]> st.2 in
  match st.1 with
  | None => Ok (Some (build, id), m)
  | Some (first, firstID) =>
      if bool_decide (sameDeclarations (build_merged first) (build_merged build) = Some true)
      then Ok (st.1, m) else Err (PlatformsDiffer firstID id)
  end.
Fixpoint plan_steps (d : Descriptor) (stem : string) (platforms : list Platform)
    (st : option (setBuild * string) * gmap string setBuild) :
    result set_error (option (setBuild * string) * gmap string setBuild) :=
  match platforms with
  | [] => Ok st
  | p :: platforms => st ← plan_step d stem st p; plan_steps d stem platforms st
  end.

(** The requested platforms, the default standing in for none, are never empty. *)
Definition planSet (d : Descriptor) (platforms : list Platform) (stem : string) : result set_error setPlan :=
  '(first, m) ← plan_steps d stem platforms (None, ∅);
  match first with
  | None => Err (NotResolved stem)
  | Some (first, _) => published ← publishedSetDescriptor (build_merged first); Ok (mkSetPlan published m)
  end.
End Kits.
