(* ===== verification/SetOrder.v ===== *)
(** The order [orderContributions] ([cmd/frontend/set.go]) gives the set's own
    declarations and its kits: the graph it builds, the invariant of its loop, and
    what it says of contributions that wait for each other. *)
From stdpp Require Import options.
From S2P Require Import Prelude GoStrings Version Types Merge MergeRelations Resolve TopSort SetBuild.

(** ** The graph *)

(** The graph of a list of edges, provider first. *)
Definition add_edges (w : waiting) (es : list (nat * nat)) : waiting :=
  foldl (λ w e, add_wait e.1 e.2 w) w es.
Definition no_edges : waiting := mkWaiting ∅ ∅.

Lemma waiters_add_edges w es p :
  waiters (add_edges w es) p = waiters w p ++ (snd <$> List.filter (λ e, bool_decide (e.1 = p)) es).
Proof.
  revert w. induction es as [|[q v] es IH]; intros w; cbn; [by rewrite app_nil_r|].
  rewrite IH. unfold waiters at 1, add_wait. cbn. case_bool_decide as E.
  - subst. rewrite lookup_insert_eq. cbn. by rewrite <-(assoc_L (++)).
  - by rewrite lookup_insert_ne.
Qed.

Lemma waits_add_edges w es i :
  waits (add_edges w es) i =
  (waits w i + Z.of_nat (length (List.filter (λ e, bool_decide (e.2 = i)) es)))%Z.
Proof.
  revert w. induction es as [|[q v] es IH]; intros w; cbn; [lia|].
  rewrite IH. unfold waits at 1, add_wait. cbn. case_bool_decide as E.
  - subst. rewrite lookup_insert_eq. cbn [default from_option length]. unfold id. lia.
  - by rewrite lookup_insert_ne.
Qed.

(** The positions one contribution looks for a provider at, in order. *)
Definition offering (index : gmap string nat) (ref : string) (r : Require_) (o : OwnedProvide) : option nat :=
  if bool_decide (Owner o = ref) || negb (Satisfies (Owned o) r) then None
  else Some (default 0 (index !! Owner o)).
Definition offering_entry (owned : gmap string (list OwnedProvide)) (index : gmap string nat) (ref entry : string) :
    list nat :=
  match ParseRequire entry with
  | Err _ => []
  | Ok r => omap (offering index ref r) (default [] (owned !! RName r))
  end.
Definition offering_positions (owned : gmap string (list OwnedProvide)) (index : gmap string nat) (c : Contribution) :
    list nat :=
  let d := cdescriptor c in
  flat_map (offering_entry owned index (Contribution_Reference c)) (Requires d ++ Integrates d).

Definition visit (i : nat) (st : gset nat * waiting) (j : nat) : gset nat * waiting :=
  if bool_decide (j ∈ st.1) then st else ({[j]} ∪ st.1, add_wait j i st.2).

Lemma provider_steps index ref i r os st :
  foldl (provider_step index ref i r) st os = foldl (visit i) st (omap (offering index ref r) os).
Proof.
  revert st. induction os as [|o os IH]; intros st; [done|]. cbn. rewrite IH.
  unfold provider_step, offering. by destruct (_ || _).
Qed.

Lemma entry_steps owned index ref i entries st :
  foldl (entry_step owned index ref i) st entries =
  foldl (visit i) st (flat_map (offering_entry owned index ref) entries).
Proof.
  revert st. induction entries as [|s entries IH]; intros st; [done|]. cbn. rewrite IH, foldl_app. f_equal.
  unfold entry_step, offering_entry. destruct (ParseRequire s) as [r|]; [|done]. apply provider_steps.
Qed.

Lemma visit_all i l seen S w :
  (∀ j, j ∈ S ↔ j ∈ seen) →
  (foldl (visit i) (S, w) l).2 = add_edges w ((λ j, (j, i)) <$> dedupe_from id seen l).
Proof.
  revert seen S w. induction l as [|j l IH]; intros seen S w E; [done|].
  cbn [foldl dedupe_from]. unfold visit at 2. cbn [fst snd].
  destruct (decide (id j ∈ seen)) as [Hj|Hj].
  - rewrite bool_decide_eq_true_2 by by apply E. by apply IH.
  - rewrite bool_decide_eq_false_2 by (rewrite E; done). rewrite (IH (j :: seen)); [done|].
    intros k. rewrite elem_of_union, elem_of_singleton, elem_of_cons. by rewrite E.
Qed.

(** Every edge of the graph, in the order it is added. *)
Definition edges_to (all : list Contribution) (ic : nat * Contribution) : list (nat * nat) :=
  (λ j, (j, ic.1)) <$> dedupe id (offering_positions (OwnedProvides all) (positions all) ic.2).
Definition edges (all : list Contribution) : list (nat * nat) :=
  flat_map (edges_to all) (imap pair all).

Lemma add_waits_app w es es' : add_edges w (es ++ es') = add_edges (add_edges w es) es'.
Proof. apply foldl_app. Qed.

Lemma wait_graph_edges all : wait_graph all = add_edges no_edges (edges all).
Proof.
  unfold wait_graph, edges, no_edges. generalize (mkWaiting ∅ ∅) as w.
  induction (imap pair all) as [|ic l IH]; intros w; [done|]. cbn [foldl flat_map].
  rewrite IH, add_waits_app. f_equal. unfold contribution_step, edges_to, offering_positions.
  rewrite entry_steps. unfold dedupe. apply visit_all. set_solver.
Qed.

Lemma imap_pair_elem {A} (l : list A) i x : (i, x) ∈ imap pair l ↔ l !! i = Some x.
Proof. rewrite elem_of_lookup_imap. naive_solver. Qed.

Lemma set_edges_elem all j i :
  (j, i) ∈ edges all ↔
  ∃ c, all !! i = Some c ∧ j ∈ offering_positions (OwnedProvides all) (positions all) c.
Proof.
  unfold edges, edges_to. rewrite elem_of_flat_map. split.
  - intros ([i' c] & Hc & (j' & [= -> ->] & Hj)%list_elem_of_fmap).
    rewrite dedupe_id_elem_of in Hj. exists c. by rewrite <-imap_pair_elem.
  - intros (c & Hc & Hj). exists (i, c). rewrite imap_pair_elem. split; [done|].
    apply list_elem_of_fmap. exists j. by rewrite dedupe_id_elem_of.
Qed.

Lemma NoDup_flat_map_key {A B K} (f : A → list B) (g : A → K) (key : B → K) l :
  NoDup (g <$> l) → (∀ x y, y ∈ f x → key y = g x) → (∀ x, NoDup (f x)) → NoDup (flat_map f l).
Proof.
  intros Hl Hk Hf. induction l as [|x l IH]; [constructor|].
  cbn in Hl. apply NoDup_cons in Hl as [Hx Hl]. cbn. apply NoDup_app. split_and!; [done| |by apply IH].
  intros y Hy (x' & Hx' & Hy')%elem_of_flat_map. apply Hx.
  rewrite <-(Hk x y Hy), (Hk x' y Hy'). by apply list_elem_of_fmap_2.
Qed.

Lemma positions_seq {A} (l : list A) n : fst <$> imap (λ i x, (n + i, x)) l = seq n (length l).
Proof.
  revert n. induction l as [|x l IH]; intros n; [done|]. cbn. f_equal; [lia|].
  rewrite <-(IH (S n)). f_equal. apply imap_ext. intros i y _. cbn. f_equal. lia.
Qed.

Lemma set_edges_nodup all : NoDup (edges all).
Proof.
  apply (NoDup_flat_map_key _ fst snd).
  - rewrite (positions_seq all 0 : fst <$> imap pair all = _). apply NoDup_seq.
  - by intros [i c] [j i'] (? & [= -> ->] & _)%list_elem_of_fmap.
  - intros [i c]. apply NoDup_fmap; [by intros ? ? [= ->]|]. apply dedupe_id_NoDup.
Qed.

(** ** The loop *)

Section Loop.
Context (n : nat) (es : list (nat * nat)).
Context (es_range : ∀ j i, (j, i) ∈ es → j < n ∧ i < n) (es_distinct : NoDup es).

Notation w := (add_edges no_edges es).

(** The providers of [i] that are still to come. *)
Definition awaits (done : list nat) (i : nat) (e : nat * nat) : bool :=
  bool_decide (e.2 = i) && negb (bool_decide (e.1 ∈ done)).
Definition awaited (done : list nat) (i : nat) : nat := length (List.filter (awaits done i) es).

#[local] Set Default Proof Using "Type*".

Lemma waiters_elem j i : i ∈ waiters w j ↔ (j, i) ∈ es.
Proof.
  rewrite waiters_add_edges. unfold waiters at 1. cbn [no_edges dependsOn].
  rewrite lookup_empty. cbn [default app]. rewrite list_elem_of_fmap. split.
  - intros ([j' i'] & -> & [E%bool_decide_eq_true He]%filter_elem_of). cbn in *. by subst.
  - intros He. exists (j, i). rewrite filter_elem_of. by rewrite bool_decide_eq_true.
Qed.

Lemma waiters_nodup j : NoDup (waiters w j).
Proof.
  rewrite waiters_add_edges. unfold waiters at 1. cbn [no_edges dependsOn].
  rewrite lookup_empty. cbn [default app]. apply NoDup_fmap_2_strong.
  - intros [j1 i1] [j2 i2] [E1%bool_decide_eq_true _]%filter_elem_of [E2%bool_decide_eq_true _]%filter_elem_of.
    cbn in *. congruence.
  - apply NoDup_ListNoDup, List.NoDup_filter, NoDup_ListNoDup, es_distinct.
Qed.

Lemma waits_start i : waits w i = Z.of_nat (awaited [] i).
Proof.
  rewrite waits_add_edges. unfold waits at 1. cbn [no_edges indegree]. rewrite lookup_empty. cbn [default].
  rewrite Z.add_0_l. unfold awaited. f_equal. apply filter_ext_length. intros e _. unfold awaits.
  rewrite (bool_decide_eq_false_2 (e.1 ∈ [])) by apply not_elem_of_nil. by rewrite andb_true_r.
Qed.

(** Placing a provider leaves its waiters one less to await. *)
Lemma awaited_snoc placed next i :
  next ∉ placed →
  awaited placed i = awaited (placed ++ [next]) i + if bool_decide (i ∈ waiters w next) then 1 else 0.
Proof.
  intros Hn. unfold awaited. rewrite (filter_split _ (λ e, bool_decide (e.1 = next))). f_equal.
  - apply filter_ext_length. intros e _. unfold awaits. rewrite <-andb_assoc, <-negb_orb. do 2 f_equal.
    apply eq_iff_eq_true. rewrite orb_true_iff, !bool_decide_eq_true, elem_of_app, list_elem_of_singleton. tauto.
  - rewrite (filter_ext_length _ (λ e, bool_decide (id e = (next, i)))).
    + rewrite filter_key_length by (by rewrite list_fmap_id). rewrite list_fmap_id.
      erewrite bool_decide_ext; [done|]. symmetry. apply waiters_elem.
    + intros [a b] _. apply eq_iff_eq_true. unfold awaits, id. cbn.
      rewrite !andb_true_iff, negb_true_iff, !bool_decide_eq_true, bool_decide_eq_false. naive_solver.
Qed.

(** The state of the loop: the degrees count what is awaited, the ready positions
    are those that await nothing, and what is placed awaited nothing then. *)
Record order_inv (degrees : gmap nat Z) (ready out : list nat) : Prop := {
  inv_distinct : NoDup (out ++ ready);
  inv_range i : i ∈ out ++ ready → i < n;
  inv_awaited i : i < n → default 0%Z (degrees !! i) = Z.of_nat (awaited out i);
  inv_ready i : i < n → awaited out i = 0 ↔ i ∈ out ++ ready;
  inv_placed o1 i o2 : out = o1 ++ i :: o2 → awaited o1 i = 0;
}.

Lemma release_waiters l (degrees : gmap nat Z) ready :
  NoDup l →
  foldl release_one (degrees, ready) l =
  (foldl (λ m i, <[i := (default 0 (m !! i) - 1)%Z]> m) degrees l,
   ready ++ List.filter (λ i, bool_decide (default 0 (degrees !! i) - 1 = 0)%Z) l).
Proof.
  clear. revert degrees ready. induction l as [|i l IH]; intros degrees ready Hl; [by rewrite app_nil_r|].
  apply NoDup_cons in Hl as [Hi Hl]. cbn [foldl List.filter]. unfold release_one at 2. cbn [fst snd].
  rewrite IH by done. f_equal.
  rewrite (List.filter_ext_in _ (λ i, bool_decide (default 0 (degrees !! i) - 1 = 0)%Z)).
  - case_bool_decide; [by rewrite <-app_assoc|done].
  - intros k Hk%list_elem_of_In. rewrite lookup_insert_ne; [done|]. by intros ->.
Qed.

Lemma degree_released l (degrees : gmap nat Z) i :
  NoDup l →
  default 0%Z (foldl (λ (m : gmap nat Z) i, <[i := (default 0 (m !! i) - 1)%Z]> m) degrees l !! i) =
  (default 0 (degrees !! i) - if bool_decide (i ∈ l) then 1 else 0)%Z.
Proof.
  clear. revert degrees. induction l as [|k l IH]; intros degrees Hl.
  { rewrite (bool_decide_eq_false_2 (i ∈ [])) by apply not_elem_of_nil. cbn. lia. }
  apply NoDup_cons in Hl as [Hk Hl]. cbn [foldl]. rewrite IH by done.
  destruct (decide (i = k)) as [->|Hi].
  - rewrite lookup_insert_eq, (bool_decide_eq_false_2 (k ∈ l)) by done.
    rewrite bool_decide_eq_true_2 by by left. cbn. unfold id. lia.
  - rewrite lookup_insert_ne by done. f_equal.
    rewrite (bool_decide_ext (i ∈ k :: l) (i ∈ l)); [done|]. rewrite elem_of_cons. tauto.
Qed.

Lemma order_step degrees ready next rest out degrees' ready' :
  order_inv degrees ready out → next :: rest ≡ₚ ready →
  foldl release_one (degrees, rest) (waiters w next) = (degrees', ready') →
  order_inv degrees' ready' (out ++ [next]).
Proof.
  intros [Hnd Hrange Hdeg Hready Hplaced] Hp. rewrite <-Hp in Hnd.
  assert (∀ x, x ∈ ready ↔ x ∈ next :: rest) as Hr by (intros; by rewrite Hp).
  assert (next ∉ out) as Hno.
  { rewrite NoDup_app in Hnd. intros Hx. apply (proj1 (proj2 Hnd) _ Hx). left. }
  rewrite release_waiters by apply waiters_nodup. intros [= <- <-].
  pose proof (λ i, awaited_snoc out next i Hno) as Hstep.
  assert (∀ i, i ∈ List.filter (λ i, bool_decide (default 0 (degrees !! i) - 1 = 0)%Z) (waiters w next) ↔
    i ∈ waiters w next ∧ awaited (out ++ [next]) i = 0) as Hnew.
  { intros i. rewrite filter_elem_of, bool_decide_eq_true. specialize (Hstep i).
    destruct (decide (i ∈ waiters w next)) as [Hi|Hi]; [|tauto].
    assert (i < n) as Hin by (apply waiters_elem, es_range in Hi; lia).
    rewrite bool_decide_eq_true_2 in Hstep by done. rewrite Hdeg by done. split; [intros [? _]|intros [_ ?]]; (split; [done || lia|lia || done]). }
  set (new := List.filter _ (waiters w next)) in *.
  assert (∀ i, i ∈ new → i < n) as Hnewn by (intros i [Hi _]%Hnew; apply waiters_elem, es_range in Hi; lia).
  split.
  - rewrite <-app_assoc. change ([next] ++ rest ++ new) with ((next :: rest) ++ new).
    rewrite app_assoc. apply NoDup_app. split_and!; [done| |].
    + intros i Hi Hni. pose proof (Hnewn i Hni). apply Hnew in Hni as [Hw _].
      rewrite elem_of_app, <-Hr, <-elem_of_app, <-Hready in Hi by done.
      specialize (Hstep i). rewrite bool_decide_eq_true_2 in Hstep by done. lia.
    + apply NoDup_ListNoDup, List.NoDup_filter, NoDup_ListNoDup, waiters_nodup.
  - intros i. rewrite !elem_of_app, list_elem_of_singleton. specialize (Hrange i).
    rewrite elem_of_app, Hr, elem_of_cons in Hrange. specialize (Hnewn i). tauto.
  - intros i Hi. rewrite degree_released by apply waiters_nodup. rewrite Hdeg, (Hstep i) by done.
    destruct (bool_decide _); lia.
  - intros i Hi. rewrite !elem_of_app, list_elem_of_singleton, Hnew. specialize (Hstep i).
    specialize (Hready i Hi). rewrite elem_of_app, Hr, elem_of_cons in Hready.
    case_bool_decide as Hw; [|assert (awaited out i = awaited (out ++ [next]) i) as Heq by lia]; split; intros Ha; [tauto| | |].
    2: rewrite <-Heq in Ha; tauto. 2: rewrite <-Heq; tauto.
    destruct Ha as [[Ho| ->]|[Ho|[_ Ho]]]; [| | |done]; destruct Hready as [_ Hf]; specialize (Hf ltac:(tauto)); lia.
  - intros o1 i o2 E. destruct o2 as [|y o2 _] using rev_ind.
    + apply app_inj_tail in E as [<- <-]. apply Hready; [|rewrite elem_of_app, Hr; right; left].
      apply Hrange. rewrite elem_of_app, Hr. right. left.
    + rewrite app_comm_cons, app_assoc in E. apply app_inj_tail in E as [-> _]. by eapply Hplaced.
Qed.

Lemma order_inv_length degrees ready out : order_inv degrees ready out → length out + length ready ≤ n.
Proof.
  intros [Hnd Hrange _ _ _]. rewrite <-length_app, <-(length_seq n 0).
  apply submseteq_length, NoDup_submseteq; [done|]. intros i Hi. apply elem_of_seq. specialize (Hrange i Hi). lia.
Qed.

Lemma take_ready_inv fuel degrees ready out :
  order_inv degrees ready out → n ≤ fuel + length out →
  ∃ degrees' out', take_ready fuel w degrees ready out = Some (degrees', out') ∧ order_inv degrees' [] out'.
Proof.
  revert degrees ready out. induction fuel as [|fuel IH]; intros degrees ready out Hinv Hf.
  - pose proof (order_inv_length _ _ _ Hinv). destruct ready; cbn in *; [eauto|lia].
  - destruct ready as [|x ready]; [cbn; eauto|]. cbn [take_ready].
    pose proof (merge_sort_Permutation le (x :: ready) : sort_ints _ ≡ₚ _) as Hp.
    destruct (sort_ints (x :: ready)) as [|next rest]; [by apply Permutation_nil_cons in Hp|].
    destruct (foldl release_one _ _) as [degrees' ready'] eqn:E.
    apply (IH _ _ _ (order_step _ _ _ _ _ _ _ Hinv Hp E)). rewrite length_app. cbn. lia.
Qed.

Lemma order_inv_start :
  order_inv (indegree w) (List.filter (λ i, bool_decide (waits w i = 0%Z)) (seq 0 n)) [].
Proof.
  split; cbn [app].
  - apply NoDup_ListNoDup, List.NoDup_filter, NoDup_ListNoDup, NoDup_seq.
  - intros i [_ Hi]%filter_elem_of. apply elem_of_seq in Hi. lia.
  - intros i _. apply (waits_start i).
  - intros i Hi. rewrite filter_elem_of, bool_decide_eq_true, waits_start, elem_of_seq. lia.
  - intros o1 i o2 E. by destruct o1.
Qed.

(** What is placed before a position are all its providers. *)
Lemma placed_providers degrees ready out o1 i o2 j :
  order_inv degrees ready out → out = o1 ++ i :: o2 → (j, i) ∈ es → j ∈ o1.
Proof.
  intros Hinv E He. pose proof (inv_placed _ _ _ Hinv _ _ _ E) as H0. unfold awaited in H0.
  rewrite filter_empty in H0. specialize (H0 _ He). unfold awaits in H0. cbn in H0.
  rewrite bool_decide_eq_true_2 in H0 by done. cbn in H0. by apply negb_false_iff, bool_decide_eq_true in H0.
Qed.

(** What is not placed awaits something that is not. *)
Lemma unplaced_awaits degrees out i :
  order_inv degrees [] out → i < n → i ∉ out → ∃ j, (j, i) ∈ es ∧ j < n ∧ j ∉ out.
Proof.
  intros Hinv Hi Hn. pose proof (inv_ready _ _ _ Hinv i Hi) as Hr. rewrite app_nil_r in Hr.
  destruct (List.filter (awaits out i) es) as [|[j k] l] eqn:El.
  - destruct Hn. apply Hr. unfold awaited. by rewrite El.
  - assert ((j, k) ∈ List.filter (awaits out i) es) as [Hw He]%filter_elem_of by (rewrite El; left).
    unfold awaits in Hw. apply andb_true_iff in Hw as [Hk%bool_decide_eq_true Hj]. cbn in Hk. subst k.
    apply negb_true_iff, bool_decide_eq_false in Hj. exists j. split; [done|].
    split; [by apply es_range in He as [? _]|done].
Qed.

Lemma unplaced_degree degrees out i :
  order_inv degrees [] out → i < n → (0 < default 0 (degrees !! i))%Z ↔ i ∉ out.
Proof.
  intros Hinv Hi. rewrite (inv_awaited _ _ _ Hinv) by done.
  pose proof (inv_ready _ _ _ Hinv i Hi) as Hr. rewrite app_nil_r in Hr. rewrite <-Hr. lia.
Qed.

Lemma all_placed degrees out :
  order_inv degrees [] out → length out = n ↔ out ≡ₚ seq 0 n.
Proof.
  intros [Hnd Hrange _ _ _]. rewrite app_nil_r in Hnd, Hrange.
  split; [|intros ->; apply length_seq]. intros E. apply submseteq_length_Permutation; [|rewrite length_seq; lia].
  apply NoDup_submseteq; [done|]. intros i Hi. apply elem_of_seq. specialize (Hrange i Hi). lia.
Qed.
End Loop.

(** ** Contributions *)

(** [c'] offers what an entry of [c] asks for. *)
Definition served_by (c c' : Contribution) : Prop :=
  Contribution_Reference c' ≠ Contribution_Reference c ∧
  ∃ entry r p, entry ∈ Requires (cdescriptor c) ++ Integrates (cdescriptor c) ∧ ParseRequire entry = Ok r ∧
    p ∈ offers (cdescriptor c') ∧ PName p = RName r ∧ Satisfies p r = true.

Section Contributions.
Context (all : list Contribution).
Context (described : Forall (λ c, is_Some (Contribution_Descriptor c)) all).
Context (distinct : NoDup (Contribution_Reference <$> all)).

#[local] Set Default Proof Using "Type*".

Lemma same_reference i j c c' :
  all !! i = Some c → all !! j = Some c' → Contribution_Reference c = Contribution_Reference c' → i = j.
Proof.
  intros Hi Hj E. apply (NoDup_lookup (Contribution_Reference <$> all) _ _ (Contribution_Reference c)); [done| |].
  - by rewrite list_lookup_fmap, Hi.
  - by rewrite list_lookup_fmap, Hj, E.
Qed.

Lemma positions_lookup j c : all !! j = Some c → positions all !! Contribution_Reference c = Some j.
Proof.
  intros Hj. unfold positions.
  assert (∀ l, (∀ i c, (i, c) ∈ l → all !! i = Some c) → (j, c) ∈ l →
    ∀ m : gmap string nat, foldl (λ m ic, <[Contribution_Reference ic.2 := ic.1]> m) m l !! Contribution_Reference c = Some j) as H.
  { intros l. induction l as [|[i c'] l IH] using rev_ind; intros Hl Hin m; [by inversion Hin|].
    rewrite foldl_app. cbn. destruct (decide (Contribution_Reference c' = Contribution_Reference c)) as [E|E].
    - rewrite E, lookup_insert_eq. f_equal. apply (same_reference _ _ c' c); [|done|done]. apply Hl. set_solver.
    - rewrite lookup_insert_ne by done. apply IH; [intros; apply Hl; set_solver|].
      apply elem_of_app in Hin as [?|[= -> ->]%list_elem_of_singleton]; done. }
  apply H; [by intros i c'; rewrite imap_pair_elem|by rewrite imap_pair_elem].
Qed.

Lemma offering_positions_elem i c j :
  all !! i = Some c →
  j ∈ offering_positions (OwnedProvides all) (positions all) c ↔ ∃ c', all !! j = Some c' ∧ served_by c c'.
Proof.
  intros Hi. unfold offering_positions, offering_entry. rewrite elem_of_flat_map. split.
  - intros (entry & He & Hj). destruct (ParseRequire entry) as [r|] eqn:Er; [|by inversion Hj].
    rewrite OwnedProvides_lookup in Hj. apply list_elem_of_omap in Hj as (o & Ho & Hj).
    apply elem_of_filter_bool in Ho as [Ho Hn]. apply all_offers_elem in Ho as (c' & Hc' & Eo & Hp); [|done].
    apply bool_decide_eq_true in Hn. unfold offering in Hj.
    destruct (bool_decide _) eqn:Eb; [done|]. apply bool_decide_eq_false in Eb. cbn in Hj.
    destruct (Satisfies _ _) eqn:Es; [|done]. injection Hj as <-.
    apply list_elem_of_lookup in Hc' as [k Hk]. rewrite Eo, (positions_lookup _ _ Hk). cbn.
    exists c'. split; [done|]. split; [congruence|]. by exists entry, r, (Owned o).
  - intros (c' & Hj & Href & entry & r & p & He & Er & Hp & Hn & Hs). exists entry. split; [done|].
    rewrite Er, OwnedProvides_lookup. apply list_elem_of_omap.
    exists (mkOwnedProvide p (Contribution_Reference c')). rewrite elem_of_filter_bool, all_offers_elem by done.
    split; [split; [|by apply bool_decide_eq_true]|].
    + exists c'. split; [by eapply list_elem_of_lookup_2|done].
    + unfold offering. cbn. rewrite bool_decide_eq_false_2, Hs by done. cbn. by rewrite (positions_lookup _ _ Hj).
Qed.

Lemma edges_served j i : (j, i) ∈ edges all ↔
  ∃ c c', all !! i = Some c ∧ all !! j = Some c' ∧ served_by c c'.
Proof.
  rewrite set_edges_elem. split.
  - intros (c & Hi & Hj). apply (offering_positions_elem i) in Hj as (c' & ? & ?); [|done]. eauto.
  - intros (c & c' & Hi & Hj & Hs). exists c. split; [done|]. apply (offering_positions_elem i); eauto.
Qed.

Lemma edges_range j i : (j, i) ∈ edges all → j < length all ∧ i < length all.
Proof.
  intros (c & c' & Hi & Hj & _)%edges_served. by split; eapply lookup_lt_Some.
Qed.

Lemma wait_loop :
  ∃ degrees out,
    take_ready (length all) (wait_graph all) (indegree (wait_graph all))
      (List.filter (λ i, bool_decide (waits (wait_graph all) i = 0%Z)) (seq 0 (length all))) [] = Some (degrees, out) ∧
    order_inv (length all) (edges all) degrees [] out.
Proof.
  rewrite wait_graph_edges.
  apply (take_ready_inv (length all) (edges all) edges_range (set_edges_nodup all)); [|cbn; lia].
  apply order_inv_start; [apply edges_range|apply set_edges_nodup].
Qed.

(** Positions and the contributions there. *)
Lemma placed_contributions out :
  (∀ i, i ∈ out → i < length all) → Forall2 (λ i c, all !! i = Some c) out (omap (λ i, all !! i) out).
Proof.
  induction out as [|i out IH]; intros Hr; [constructor|]. cbn.
  destruct (lookup_lt_is_Some_2 all i) as [c Hc]; [apply Hr; left|]. rewrite Hc.
  constructor; [done|]. apply IH. intros k Hk. apply Hr. by right.
Qed.

Lemma omap_all_positions : omap (λ i, all !! i) (seq 0 (length all)) = all.
Proof.
  clear. assert (∀ (l : list Contribution) n, omap (λ i, (l !! (i - n))) (seq n (length l)) = l) as H.
  { induction l as [|c l IH]; intros n; [done|]. cbn. rewrite Nat.sub_diag. cbn. f_equal.
    rewrite <-(IH (S n)) at 2. apply list_omap_ext. apply Forall_Forall2_diag, Forall_forall.
    intros i Hi%elem_of_seq. replace (i - n) with (S (i - S n)) by lia. done. }
  specialize (H all 0). etransitivity; [|exact H]. apply list_omap_ext, Forall_Forall2_diag, Forall_forall.
  intros i _. by rewrite Nat.sub_0_r.
Qed.

Lemma placed_order degrees out o1 c o2 c' :
  order_inv (length all) (edges all) degrees [] out →
  omap (λ i, all !! i) out = o1 ++ c :: o2 → c' ∈ all → served_by c c' → c' ∈ o1.
Proof.
  intros Hinv E Hc' Hs.
  assert (∀ i, i ∈ out → i < length all) as Hr by (intros i Hi; apply (inv_range _ _ _ _ _ Hinv); by rewrite app_nil_r).
  pose proof (placed_contributions out Hr) as Hf. rewrite E in Hf.
  apply Forall2_app_inv_r in Hf as (p1 & p2 & Hf1 & Hf2 & ->).
  apply Forall2_cons_inv_r in Hf2 as (i & p2' & Hi & Hf2 & ->).
  apply list_elem_of_lookup in Hc' as [j Hj].
  assert (j ∈ p1) as Hjp.
  { eapply (placed_providers (length all) (edges all) edges_range (set_edges_nodup all)); [exact Hinv|done|].
    apply edges_served. eauto. }
  apply list_elem_of_lookup in Hjp as [k Hk]. eapply Forall2_lookup_l in Hf1 as (c2 & Hk2 & Hc2); [|exact Hk].
  assert (c2 = c') as -> by congruence. by eapply list_elem_of_lookup_2.
Qed.
End Contributions.

(** Contributions each of which waits for another of them. *)
Definition circle (all l : list Contribution) : Prop :=
  l ≠ [] ∧ l ⊆ all ∧ ∀ c, c ∈ l → ∃ c', c' ∈ l ∧ served_by c c'.

(** What an order contains. *)
Lemma orderContributions_perm own kits out :
  let all := kits ++ [mkContribution set_reference (Some own)] in
  NoDup (Contribution_Reference <$> all) →
  Forall (λ c, is_Some (Contribution_Descriptor c)) kits →
  orderContributions own kits = Ok out → out ≡ₚ all.
Proof.
  intros all Hnd Hd. assert (Forall (λ c, is_Some (Contribution_Descriptor c)) all) as Hall.
  { apply Forall_app. split; [done|]. by repeat constructor. }
  unfold orderContributions. fold all. destruct (wait_loop all Hall Hnd) as (degrees & o & -> & Hinv).
  case_bool_decide as El; [|done]. intros [= <-].
  apply (all_placed (length all) (edges all) (edges_range all Hall Hnd) (set_edges_nodup all) _ _ Hinv) in El.
  transitivity (omap (λ i, all !! i) (seq 0 (length all))); [by rewrite El|by rewrite omap_all_positions].
Qed.

(** [orderContributions] always answers.  Either it puts the set's own
    declarations and its kits in an order in which whatever serves a contribution
    comes before it, or it names contributions each of which waits for another of
    them, which no order could place. *)
Theorem set_order_exact own kits :
  let all := kits ++ [mkContribution set_reference (Some own)] in
  NoDup (Contribution_Reference <$> all) →
  Forall (λ c, is_Some (Contribution_Descriptor c)) kits →
  (∃ out, orderContributions own kits = Ok out ∧ out ≡ₚ all ∧
     ∀ o1 c o2 c', out = o1 ++ c :: o2 → c' ∈ all → served_by c c' → c' ∈ o1) ∨
  (∃ l, orderContributions own kits = Err (Circular (sort_strings (map Contribution_Reference l))) ∧ circle all l).
Proof.
  intros all Hnd Hd. pose proof (orderContributions_perm own kits) as Hperm. fold all in Hperm.
  assert (Forall (λ c, is_Some (Contribution_Descriptor c)) all) as Hall.
  { apply Forall_app. split; [done|]. by repeat constructor. }
  revert Hperm. unfold orderContributions. fold all.
  destruct (wait_loop all Hall Hnd) as (degrees & out & -> & Hinv). intros Hperm.
  pose proof (edges_range all Hall Hnd) as Hr. pose proof (set_edges_nodup all) as He.
  case_bool_decide as El.
  - left. eexists. split; [done|]. split.
    + by apply Hperm.
    + intros o1 c o2 c'. by eapply placed_order.
  - right. eexists. split; [done|]. unfold circle.
    assert (∀ i, i < length all → i ∉ out → ∃ c, all !! i = Some c ∧
      c ∈ omap (λ i, if bool_decide (0 < default 0 (degrees !! i))%Z then all !! i else None) (seq 0 (length all))) as Hleft.
    { intros i Hi Hn. destruct (lookup_lt_is_Some_2 all i Hi) as [c Hc]. exists c. split; [done|].
      apply list_elem_of_omap. exists i. rewrite elem_of_seq, bool_decide_eq_true_2; [split; [lia|done]|].
      by apply (unplaced_degree (length all) (edges all) Hr He _ _ i Hinv). }
    split_and!.
    + intros Hnil. apply El. apply (all_placed (length all) (edges all) Hr He _ _ Hinv).
      apply NoDup_Permutation; [pose proof (inv_distinct _ _ _ _ _ Hinv) as H; by rewrite app_nil_r in H|apply NoDup_seq|].
      intros i. rewrite elem_of_seq. split.
      * intros Hi. pose proof (inv_range _ _ _ _ _ Hinv i) as H. rewrite app_nil_r in H. specialize (H Hi). lia.
      * intros [_ Hi]. destruct (decide (i ∈ out)) as [|Hn]; [done|].
        destruct (Hleft i Hi Hn) as (c & _ & Hc). rewrite Hnil in Hc. by inversion Hc.
    + intros c (i & _ & Hc)%list_elem_of_omap. destruct (bool_decide _); [|done]. by eapply list_elem_of_lookup_2.
    + intros c (i & Hi%elem_of_seq & Hc)%list_elem_of_omap. case_bool_decide as Hdeg; [|done].
      apply (unplaced_degree (length all) (edges all) Hr He _ out i Hinv) in Hdeg; [|lia].
      destruct (unplaced_awaits _ _ Hr He _ _ i Hinv) as (j & Hji & Hj & Hjn); [lia|done|].
      apply (edges_served all Hall Hnd) in Hji as (c1 & c' & Hc1 & Hc' & Hs).
      assert (c1 = c) as -> by congruence. destruct (Hleft j Hj Hjn) as (c2 & Hc2 & Hin).
      exists c'. split; [congruence|done].
Qed.

Lemma set_order_exact_witness :
  let kit p r := mkDescriptor false "3" "" "" "" "" "" "" [] KindMixin p r [] [] [] ∅ "" [] "" false in
  let all := [mkContribution "tool" (Some (kit ["tool@1"] ["team"]))] ++
             [mkContribution set_reference (Some (kit ["team@2"] []))] in
  (∃ out, orderContributions (kit ["team@2"] []) [mkContribution "tool" (Some (kit ["tool@1"] ["team"]))] = Ok out ∧
     out ≡ₚ all ∧ ∀ o1 c o2 c', out = o1 ++ c :: o2 → c' ∈ all → served_by c c' → c' ∈ o1) ∨
  (∃ l, orderContributions (kit ["team@2"] []) [mkContribution "tool" (Some (kit ["tool@1"] ["team"]))] =
          Err (Circular (sort_strings (map Contribution_Reference l))) ∧ circle all l).
Proof.
  intros kit all. apply (set_order_exact (kit ["team@2"] []) [mkContribution "tool" (Some (kit ["tool@1"] ["team"]))]).
  - apply NoDup_cons. split; [by intros H%list_elem_of_singleton|apply NoDup_singleton].
  - repeat constructor. eexists. reflexivity.
Defined.

Example set_before_its_kit :
  let kit p r := mkDescriptor false "3" "" "" "" "" "" "" [] KindMixin p r [] [] [] ∅ "" [] "" false in
  map Contribution_Reference <$>
    orderContributions (kit ["team@2"] []) [mkContribution "tool" (Some (kit ["tool@1"] ["team"]))] =
  Ok [set_reference; "tool"].
Proof. by vm_compute. Qed.
