(* ===== verification/SetFacts.v ===== *)
(** Properties of a set's build ([cmd/frontend/set.go]): the environment its image
    is given, what its kits' re-exports and relations may say, and the runtime
    contract of its image. *)
From stdpp Require Import options.
From S2P Require Import Prelude GoStrings Version Json Types Config Marshal GoPath Template Merge MergeRelations Context Resolve TopSort ResolveFacts Oci Assemble AssembleFacts Validate Expand Selection LayerTar Registry Bindings Fetch FetchFacts Publish SetBuild SetOrder.

(** ** The exports of the kits' arguments *)

Definition bound_env (m : gmap string env_binding) : gmap string string := env_value <$> m.

Lemma bind_kit_all r l b : bound_env <$> to_option (bind_kit r l b) = bind_all l (bound_env b).
Proof.
  revert b. induction l as [|[x v] l IH]; intros b; [done|]. cbn [bind_kit bind_all].
  unfold bound_env at 2. rewrite lookup_fmap. destruct (b !! x) as [held|]; cbn [fmap option_fmap option_map].
  - case_bool_decide; [apply IH|done].
  - rewrite IH. unfold bound_env. by rewrite fmap_insert.
Qed.

(** The entry an override writes states its value for its name alone. *)
Lemma value_of_entry x name v :
  contains_byte "=" name = false →
  value_of x (name +:+ "=" +:+ v) = if bool_decide (name = x) then Some v else None.
Proof.
  intros H. unfold value_of, statement. change ("=" +:+ v) with (String "=" v). by rewrite cut_app.
Qed.

Definition overridden (bound : gmap string env_binding) (kv : string) : bool :=
  match statement kv with Some (name, _) => bool_decide (is_Some (bound !! name)) | None => false end.
Definition untouched (bound : gmap string env_binding) (env : list string) : list string :=
  List.filter (λ kv, negb (overridden bound kv)) env.

Section Override.
Context (bound : gmap string env_binding).
(** Names of environment variables have no [=] in them. *)
Context (plain : ∀ x, is_Some (bound !! x) → contains_byte "=" x = false).

#[local] Set Default Proof Using "Type*".

Lemma overridden_entry x v : is_Some (bound !! x) → overridden bound (x +:+ "=" +:+ v) = true.
Proof.
  intros Hx. unfold overridden, statement. change ("=" +:+ v) with (String "=" v).
  rewrite cut_app by by apply plain. by apply bool_decide_eq_true.
Qed.

(** One entry: kept as it is, dropped, or rewritten. *)
Lemma override_entry_cases st kv :
  (overridden bound kv = false ∧ override_entry bound st kv = (st.1, st.2 ++ [kv])) ∨
  ∃ x v b, value_of x kv = Some v ∧ bound !! x = Some b ∧ overridden bound kv = true ∧
    override_entry bound st kv =
      if bool_decide (x ∈ st.1) then st else ({[x]} ∪ st.1, st.2 ++ [x +:+ "=" +:+ env_value b]).
Proof.
  destruct st as [written out]. unfold override_entry, overridden, statement. cbn.
  destruct (cut "=" kv) as [[x v] []] eqn:E.
  - destruct (bound !! x) as [b|] eqn:Eb; [right|by left].
    exists x, v, b. unfold value_of, statement. rewrite E. cbn. by rewrite bool_decide_eq_true_2.
  - left. split; [done|]. by destruct (bound !! x).
Qed.

Lemma untouched_app env env' : untouched bound (env ++ env') = untouched bound env ++ untouched bound env'.
Proof using Type. apply List.filter_app. Qed.
Lemma untouched_entries l :
  (∀ kv, kv ∈ l → overridden bound kv = true) → untouched bound l = [].
Proof using Type.
  intros H. unfold untouched. induction l as [|kv l IH]; [done|]. cbn.
  rewrite (H kv) by by left. apply IH. intros kv' ?. apply H. by right.
Qed.

Lemma values_app x env env' : values x (env ++ env') = values x env ++ values x env'.
Proof using Type. apply omap_app. Qed.

(** What has been written so far: each name once, with its value. *)
Definition written_once (written : gset string) (out : list string) : Prop :=
  ∀ x b, bound !! x = Some b → values x out = if bool_decide (x ∈ written) then [env_value b] else [].

Lemma override_loop env written out :
  foldl (override_entry bound) (∅, []) env = (written, out) →
  written_once written out ∧ untouched bound out = untouched bound env.
Proof.
  revert written out. induction env as [|kv env IH] using rev_ind; intros written out.
  - intros [= <- <-]. split; [|done]. intros x b _. by rewrite bool_decide_eq_false_2 by set_solver.
  - rewrite foldl_snoc. destruct (foldl _ _ env) as [w o] eqn:E. destruct (IH _ _ eq_refl) as [Hw Hu].
    destruct (override_entry_cases (w, o) kv) as [[Ho ->]|(y & v & b & Hv & Hb & Ho & ->)]; cbn [fst snd].
    + intros [= <- <-]. rewrite !untouched_app, Hu. split; [|done]. intros x b' Hx.
      rewrite values_app, (Hw x b' Hx). unfold values. cbn. destruct (value_of x kv) eqn:Ev; [|by rewrite app_nil_r].
      unfold overridden, value_of in *. destruct (statement kv) as [[z ?]|]; [|done]. cbn in Ev.
      case_bool_decide as Hz; [|done]. subst. apply bool_decide_eq_false in Ho. by destruct Ho.
    + rewrite untouched_app. rewrite (untouched_entries [kv]) by (by intros ? ->%list_elem_of_singleton).
      rewrite app_nil_r. case_bool_decide as Hy; intros [= <- <-]; [done|]. rewrite untouched_app.
      rewrite (untouched_entries [_]), app_nil_r by (intros ? ->%list_elem_of_singleton; apply overridden_entry; eauto).
      split; [|done]. intros x b' Hx. rewrite values_app, (Hw x b' Hx). unfold values. cbn.
      rewrite value_of_entry by (apply plain; eauto).
      destruct (decide (y = x)) as [->|Hne].
      * rewrite (bool_decide_eq_true_2 (x = x)), bool_decide_eq_false_2, bool_decide_eq_true_2 by set_solver.
        cbn. congruence.
      * rewrite (bool_decide_eq_false_2 (y = x)) by done. rewrite app_nil_r.
        rewrite (bool_decide_ext (x ∈ {[y]} ∪ w) (x ∈ w)) by set_solver. done.
Qed.
End Override.

(** The entries appended for the names no entry stated. *)
Lemma appended_values (bound : gmap string env_binding) (written : gset string) l x b :
  (∀ y, y ∈ l → contains_byte "=" y = false ∧ is_Some (bound !! y)) → NoDup l → bound !! x = Some b →
  values x (omap (λ name, if bool_decide (name ∈ written) then None
                          else (λ b, name +:+ "=" +:+ env_value b) <$> bound !! name) l) =
  if bool_decide (x ∈ l) && negb (bool_decide (x ∈ written)) then [env_value b] else [].
Proof.
  intros Hl Hnd Hb. induction l as [|y l IH]; [done|]. apply NoDup_cons in Hnd as [Hy Hnd].
  specialize (IH (λ z Hz, Hl z (list_elem_of_further _ _ _ Hz)) Hnd).
  destruct (Hl y) as [Hp [b' Hb']]; [left|]. cbn [omap list_omap]. rewrite Hb'. cbn [fmap option_fmap option_map].
  destruct (decide (x = y)) as [->|Hne].
  - rewrite (bool_decide_eq_true_2 (y ∈ y :: l)) by left. rewrite (bool_decide_eq_false_2 (y ∈ l)) in IH by done.
    cbn in IH. case_bool_decide; cbn [negb andb]; [done|].
    unfold values in *. cbn [omap list_omap]. rewrite value_of_entry, bool_decide_eq_true_2, IH by done. congruence.
  - rewrite (bool_decide_ext (x ∈ y :: l) (x ∈ l)) by (rewrite elem_of_cons; tauto). rewrite <-IH. clear IH.
    destruct (bool_decide (y ∈ written)); [done|]. unfold values. cbn [omap list_omap].
    by rewrite value_of_entry, bool_decide_eq_false_2 by (done || congruence).
Qed.

Lemma override_env_exact (bound : gmap string env_binding) env :
  (∀ x, is_Some (bound !! x) → contains_byte "=" x = false) →
  (∀ x b, bound !! x = Some b → values x (override_env bound env) = [env_value b]) ∧
  untouched bound (override_env bound env) = untouched bound env.
Proof.
  intros Hp. unfold override_env. destruct (foldl _ _ env) as [written out] eqn:E.
  destruct (override_loop bound Hp _ _ _ E) as [Hw Hu].
  assert (∀ y, y ∈ sort_strings (map fst (map_to_list bound)) ↔ is_Some (bound !! y)) as Hn.
  { intros y. rewrite sort_strings_elem_of. split.
    - intros ([z b] & -> & Hz%elem_of_map_to_list)%list_elem_of_fmap. eauto.
    - intros [b Hb]. apply list_elem_of_fmap. exists (y, b). by rewrite elem_of_map_to_list. }
  split.
  - intros x b Hb. rewrite values_app, (Hw x b Hb), (appended_values bound written _ x b); [| | |done].
    + rewrite (bool_decide_eq_true_2 (x ∈ sort_strings _)) by (apply Hn; eauto).
      cbn [andb]. by case_bool_decide; cbn [negb]; [rewrite app_nil_r|].
    + intros y Hy%Hn. split; [by apply Hp|done].
    + rewrite sort_strings_perm. apply NoDup_fst_map_to_list.
  - rewrite untouched_app, Hu. rewrite <-(app_nil_r (untouched bound env)) at 2. f_equal.
    apply untouched_entries.
    intros kv (y & Hy%Hn & Hk)%list_elem_of_omap. destruct (bool_decide _); [done|].
    destruct Hy as [b Hb]. rewrite Hb in Hk. injection Hk as <-. apply overridden_entry; eauto.
Qed.

Section Exports.
Context `{Gateway}.

Definition all_exports (kits : list resolvedKit) : list (string * string) :=
  flat_map (λ k, map_to_list (env k)) kits.
(** Some kit's arguments bind the variable to the value. *)
Definition exported_by (kits : list resolvedKit) (x v : string) : Prop :=
  ∃ k, k ∈ kits ∧ env k !! x = Some v.

Lemma kit_exports_elem kits x v : (x, v) ∈ all_exports kits ↔ exported_by kits x v.
Proof.
  unfold all_exports, exported_by. rewrite elem_of_flat_map. by setoid_rewrite elem_of_map_to_list.
Qed.

Lemma bind_kits_all kits b : bound_env <$> to_option (bind_kits kits b) = bind_all (all_exports kits) (bound_env b).
Proof.
  revert b. induction kits as [|k kits IH]; intros b; [done|].
  unfold all_exports. cbn [bind_kits flat_map]. rewrite bind_all_concat, <-(bind_kit_all (reference k)).
  destruct (bind_kit _ _ b) as [b'|e]; cbn; [apply IH|done].
Qed.

(** An entry of an environment that states no exported variable. *)
Definition unexported (kits : list resolvedKit) (kv : string) : bool :=
  match statement kv with
  | Some (x, _) => negb (existsb (λ k, bool_decide (is_Some (env k !! x))) kits)
  | None => true
  end.

Lemma unexported_bound kits bound :
  bind_kits kits ∅ = Ok bound → ∀ kv, unexported kits kv = negb (overridden bound kv).
Proof.
  intros Hb kv. pose proof (bind_kits_all kits ∅) as Ha. rewrite Hb in Ha. cbn in Ha.
  unfold bound_env at 2 in Ha. rewrite fmap_empty in Ha. symmetry in Ha.
  unfold unexported, overridden. destruct (statement kv) as [[x ?]|]; [|done]. f_equal.
  apply eq_iff_eq_true. rewrite existsb_Exists, bool_decide_eq_true. setoid_rewrite bool_decide_eq_true.
  pose proof (λ v, bind_all_Some _ _ Ha x v) as Hx. setoid_rewrite kit_exports_elem in Hx.
  unfold bound_env in Hx. setoid_rewrite lookup_fmap in Hx. split.
  - intros (k & Hk & v & Hv). assert (env_value <$> bound !! x = Some v) as E by (apply Hx; by exists k).
    destruct (bound !! x); [eauto|done].
  - intros [b Eb]. destruct (proj1 (Hx (env_value b))) as (k & Hk & Hv); [by rewrite Eb|]. eauto.
Qed.

(** [applyArgExports] succeeds exactly when no two kits bind one variable to
    different values; the image then states every bound variable once, at that
    value, whatever it said of it before, and every other entry stays as and where
    it was among the others. *)
Theorem arg_exports_exact c kits :
  (∀ x v, exported_by kits x v → contains_byte "=" x = false) →
  (is_ok (applyArgExports c kits) = true ↔
     ∀ x v v', exported_by kits x v → exported_by kits x v' → v = v') ∧
  ∀ c', applyArgExports c kits = Ok c' →
    c' = set_env c (Env c') ∧
    (∀ x v, exported_by kits x v → values x (Env c') = [v]) ∧
    List.filter (unexported kits) (Env c') = List.filter (unexported kits) (Env c).
Proof.
  intros Hp. pose proof (bind_kits_all kits ∅) as Ha. unfold bound_env at 2 in Ha. rewrite fmap_empty in Ha.
  unfold applyArgExports. split.
  - setoid_rewrite <-kit_exports_elem. change (∀ x v v', _ → _ → v = v') with (agree (all_exports kits)).
    rewrite <-bind_all_agree, <-Ha. destruct (bind_kits kits ∅); cbn; [split; eauto|split; [done|by intros [? ?]]].
  - intros c' (bound & Hb & [= <-])%result_bind_Ok. pose proof (unexported_bound _ _ Hb) as Hu.
    rewrite Hb in Ha. cbn in Ha. symmetry in Ha.
    assert (∀ x v, env_value <$> bound !! x = Some v ↔ exported_by kits x v) as Hx.
    { intros x v. rewrite <-kit_exports_elem, <-(bind_all_Some _ _ Ha). unfold bound_env. by rewrite lookup_fmap. }
    destruct (override_env_exact bound (Env c)) as [Hv Huu].
    { intros x [b Eb]. apply (Hp x (env_value b)), Hx. by rewrite Eb. }
    split; [done|]. cbn [Env set_env]. split.
    + intros x v Hxv. apply Hx in Hxv. destruct (bound !! x) as [b|] eqn:Eb; [|done].
      injection Hxv as <-. by apply Hv.
    + unfold untouched in Huu. by rewrite !(List.filter_ext _ _ Hu).
Qed.
End Exports.

(** *** A gateway without a registry

    A reference names an image whose filesystem is the reference itself. *)
Definition toy_gateway : Gateway :=
  {| State := string; Solved := string;
     ResolveImageConfig := λ ref _, Ok (ref, "", "");
     image_state := λ ref _, ref;
     merge_states := λ l, join "+" l;
     Solve := λ s _, Ok s;
     ReadDir := λ s _, Ok [(if contains "tools" s then "tools" else "base", true)];
     ReadFile := λ s _, Ok s;
     stage_file := λ s _ _ _, Ok s;
     readContextFile := λ _, Err "" |}.

Definition toy_export (ref : string) (env : gmap string string) : @resolvedKit toy_gateway :=
  @mkResolvedKit toy_gateway ref "" "" zero_descriptor ref zero_image ref env.
Definition toy_exports : list (@resolvedKit toy_gateway) :=
  [toy_export "base" {[ "MODE" := "prod" ]}; toy_export "tools" (<["MODE" := "prod"]> {[ "HOME" := "/kit" ]})].
Definition toy_config : ImageConfig := set_env zero_image_config ["PATH=/bin"; "MODE=dev"; "MODE=test"].

Lemma arg_exports_exact_witness :
  Env <$> @applyArgExports toy_gateway toy_config toy_exports = Ok ["PATH=/bin"; "MODE=prod"; "HOME=/kit"] ∧
  (∀ x v v', @exported_by toy_gateway toy_exports x v → exported_by toy_exports x v' → v = v').
Proof.
  split; [by vm_compute|]. destruct (@arg_exports_exact toy_gateway toy_config toy_exports) as [Hok _].
  - intros x v (k & [->|[->|Hk]%elem_of_cons]%elem_of_cons & Hv); [..|by inversion Hk]; cbn in Hv.
    + by apply lookup_singleton_Some in Hv as [<- _].
    + apply lookup_insert_Some in Hv as [[<- _]|[_ [<- _]%lookup_singleton_Some]]; done.
  - apply Hok. by vm_compute.
Defined.
