(* ===== verification/SetRelations.v ===== *)
(** What an accepted set ([cmd/frontend/set.go]) leaves of the relations between
    the set's declarations and its kits: the resolver and [checkSetRelations]
    together let nothing survive that names what the merged kit itself provides. *)
From stdpp Require Import options.
From S2P Require Import Prelude GoStrings Version Json Types Config Marshal GoPath Template Merge MergeRelations Context Resolve TopSort ResolveFacts Oci Assemble Validate Expand Selection LayerTar Registry Fetch FetchFacts Publish SetBuild SetOrder SetFacts.

(** ** The relations of a merged descriptor *)

Notation described_all cs := (Forall (λ c, is_Some (Contribution_Descriptor c)) cs).

Lemma mergeDeclarations_relations cs r :
  mergeDeclarations cs = Ok r →
  described_all cs ∧ Requires (Merged r) = unanswered cs Requires ∧
  Integrates (Merged r) = unanswered cs Integrates ∧
  Conflicts (Merged r) = dedupe id (flat_map (λ c, Conflicts (cdescriptor c)) cs).
Proof.
  unfold mergeDeclarations. case_bool_decide; [done|]. destruct (List.find _ cs) as [c|] eqn:Ef; [done|].
  intros (kind & _ & Hr)%result_bind_Ok. apply result_bind_Ok in Hr as ([caps sources] & _ & [= <-]).
  split; [|done]. apply Forall_forall. intros c Hc. pose proof (List.find_none _ _ Ef c) as Hn.
  rewrite <-list_elem_of_In in Hn. specialize (Hn Hc). by apply negb_false_iff, bool_decide_eq_true in Hn.
Qed.

Lemma stripped_descriptor c : cdescriptor (stripped c) = with_capabilities [] (cdescriptor c).
Proof. done. Qed.

Lemma stripped_answered cs s by_ :
  answered_by_other (map stripped cs) s by_ ↔ answered_by_other cs s by_.
Proof.
  unfold answered_by_other. split.
  - intros (r & c' & p & Hr & (c & -> & Hc)%list_elem_of_fmap & Hb & Hp & ? & ?). by exists r, c, p.
  - intros (r & c & p & Hr & Hc & Hb & Hp & ? & ?). exists r, (stripped c), p.
    split_and!; try done. by apply list_elem_of_fmap_2.
Qed.

(** The relations [Merge] leaves, whichever way it merges the requests. *)
Definition relations_left (cs : list Contribution) (d : Descriptor) : Prop :=
  (∀ s, s ∈ Requires d → ∃ c, c ∈ cs ∧ s ∈ Requires (cdescriptor c) ∧
     ¬ answered_by_other cs s (Contribution_Reference c)) ∧
  (∀ s, s ∈ Integrates d → ∃ c, c ∈ cs ∧ s ∈ Integrates (cdescriptor c) ∧
     ¬ answered_by_other cs s (Contribution_Reference c)) ∧
  (∀ s, s ∈ Conflicts d → ∃ c, c ∈ cs ∧ s ∈ Conflicts (cdescriptor c)).

Lemma Merge_relations cs opts r : Merge cs opts = Ok r → relations_left cs (Merged r).
Proof.
  assert (∀ r, mergeDeclarations cs = Ok r → relations_left cs (Merged r)) as Hplain.
  { intros r' (Hd & Hr & Hi & Hc)%mergeDeclarations_relations. unfold relations_left. rewrite Hr, Hi, Hc.
    split_and!; intros s; [by rewrite unanswered_elem|by rewrite unanswered_elem|].
    by rewrite dedupe_id_elem_of, elem_of_flat_map. }
  unfold Merge. destruct (contributionsNeedDeferredMerge cs).
  - unfold preserveGroups. destruct (List.find _ cs); [done|].
    intros (r' & (Hd & Hr & Hi & Hc)%mergeDeclarations_relations & Hm)%result_bind_Ok.
    apply result_bind_Ok in Hm as ([sources items] & _ & [= <-]). unfold relations_left. cbn [Merged with_capabilities
      Requires Integrates Conflicts]. rewrite Hr, Hi, Hc. split_and!; intros s.
    + intros (c' & (c & -> & Hc')%list_elem_of_fmap & Hs & Hn)%unanswered_elem; [|done].
      rewrite stripped_answered in Hn. by exists c.
    + intros (c' & (c & -> & Hc')%list_elem_of_fmap & Hs & Hn)%unanswered_elem; [|done].
      rewrite stripped_answered in Hn. by exists c.
    + rewrite dedupe_id_elem_of, elem_of_flat_map. intros (c' & (c & -> & Hc')%list_elem_of_fmap & Hs). by exists c.
  - intros (r' & Hm & Hr)%result_bind_Ok. apply Hplain in Hm.
    case_bool_decide; [by injection Hr as <-|]. case_bool_decide; [done|]. by injection Hr as <-.
Qed.

(** ** What each side offers *)

Lemma first_problem_Ok {A E} (f : A → option E) l : first_problem f l = Ok () ↔ ∀ x, x ∈ l → f x = None.
Proof.
  unfold first_problem. split.
  - intros H x Hx. destruct (f x) as [e|] eqn:E0; [|done].
    assert (e ∈ omap f l) as He by (apply list_elem_of_omap; eauto).
    destruct (omap f l); [by inversion He|done].
  - intros H. destruct (omap f l) as [|e l'] eqn:E0; [done|].
    assert (e ∈ omap f l) as (x & Hx & Hf)%list_elem_of_omap by (rewrite E0; left). by rewrite H in Hf.
Qed.

Lemma each_kit_Ok {A} (f : A → result set_error ()) l : each_kit f l = Ok () ↔ ∀ x, x ∈ l → f x = Ok ().
Proof.
  induction l as [|a l IH]; [split; [intros _ x Hx; inversion Hx|done]|]. cbn. rewrite result_bind_Ok.
  setoid_rewrite elem_of_cons. split.
  - intros ([] & Ha & Hl) x [->|Hx]; [done|]. by apply IH.
  - intros H. exists (). split; [apply H; by left|]. apply IH. intros x Hx. apply H. by right.
Qed.

Lemma index_offers_Some (m : gmap string (list Provide)) l k :
  is_Some (foldl (index_offer PName) m l !! k) ↔ is_Some (m !! k) ∨ ∃ p, p ∈ l ∧ PName p = k.
Proof.
  revert m. induction l as [|p l IH]; intros m; cbn [foldl]; [set_solver|]. rewrite IH.
  unfold index_offer. rewrite lookup_insert_is_Some'. setoid_rewrite elem_of_cons. naive_solver.
Qed.

(** Some contribution offers the name. *)
Definition offered (cs : list Contribution) (name : string) : Prop :=
  ∃ c p, c ∈ cs ∧ p ∈ offers (cdescriptor c) ∧ PName p = name.

Lemma ProvidesIndex_Some cs k : described_all cs → is_Some (ProvidesIndex cs !! k) ↔ offered cs k.
Proof.
  intros Hd. unfold ProvidesIndex, offered.
  assert (∀ m : gmap string (list Provide), is_Some (foldl (λ m c, match Contribution_Descriptor c with
      | None => m | Some d => foldl (index_offer PName) m (offers d) end) m cs !! k) ↔
    is_Some (m !! k) ∨ ∃ c p, c ∈ cs ∧ p ∈ offers (cdescriptor c) ∧ PName p = k) as H.
  { induction Hd as [|c cs [d Hc] _ IH]; intros m; cbn [foldl]; [set_solver|]. rewrite IH.
    rewrite Hc, index_offers_Some. unfold cdescriptor in *. setoid_rewrite elem_of_cons.
    assert (default zero_descriptor (Contribution_Descriptor c) = d) as E by by rewrite Hc.
    clear -E. naive_solver. }
  rewrite H, lookup_empty. split; [by intros [[? ?]|?]|by right].
Qed.

Lemma ProvidesIndex_satisfied cs r :
  described_all cs → SatisfiedBy (ProvidesIndex cs) r = true →
  ∃ c p, c ∈ cs ∧ p ∈ offers (cdescriptor c) ∧ PName p = RName r ∧ Satisfies p r = true.
Proof.
  intros Hd. unfold SatisfiedBy. rewrite existsb_Exists. intros (p & Hp & Hs).
  assert (∀ m : gmap string (list Provide), default [] (foldl (λ m c, match Contribution_Descriptor c with
      | None => m | Some d => foldl (index_offer PName) m (offers d) end) m cs !! RName r) =
    default [] (m !! RName r) ++ List.filter (λ p, bool_decide (PName p = RName r))
      (flat_map (λ c, offers (cdescriptor c)) cs)) as H.
  { clear Hp. induction Hd as [|c cs [d Hc] _ IH]; intros m; cbn [foldl flat_map]; [by rewrite app_nil_r|].
    rewrite IH, Hc, index_offer_lookup, List.filter_app. unfold cdescriptor at 2. rewrite Hc.
    cbn [default from_option id]. by rewrite (assoc_L (++)). }
  unfold ProvidesIndex in Hp. rewrite H, lookup_empty in Hp. cbn [default app] in Hp.
  apply elem_of_filter_bool in Hp as [Hp Hn]. apply bool_decide_eq_true in Hn.
  apply elem_of_flat_map in Hp as (c & Hc & Hp). by exists c, p.
Qed.

Lemma offers_parsed d s p : s ∈ Provides d → ParseProvide s = Ok p → ∃ p', p' ∈ offers d ∧ PName p' = PName p.
Proof.
  intros Hs Hp. exists (materialized d p). split.
  - unfold offers. apply list_elem_of_omap. exists s. by rewrite Hp.
  - unfold materialized. by destruct (_ && _).
Qed.
Lemma offers_entry d p : p ∈ offers d → ∃ s q, s ∈ Provides d ∧ ParseProvide s = Ok q ∧ PName q = PName p.
Proof.
  unfold offers. intros (s & Hs & E)%list_elem_of_omap. destruct (ParseProvide s) as [q|] eqn:Eq; [|done].
  injection E as <-. exists s, q. split_and!; [done..|]. unfold materialized. by destruct (_ && _).
Qed.

Lemma provide_owners_Some cs k : is_Some (provide_owners cs !! k) ↔ offered cs k.
Proof.
  unfold provide_owners, offered.
  assert (∀ ref l (m : gmap string string), is_Some (foldl (provide_owner ref) m l !! k) ↔
    is_Some (m !! k) ∨ ∃ s p, s ∈ l ∧ ParseProvide s = Ok p ∧ PName p = k) as Hl.
  { intros ref l. induction l as [|s l IH]; intros m; cbn [foldl]; [set_solver|]. rewrite IH.
    assert (is_Some (provide_owner ref m s !! k) ↔
      is_Some (m !! k) ∨ ∃ p, ParseProvide s = Ok p ∧ PName p = k) as ->.
    { unfold provide_owner. destruct (ParseProvide s) as [p|e].
      - case_bool_decide as Hp.
        + split; [by left|]. intros [?|(q & [= <-] & <-)]; done.
        + rewrite lookup_insert_is_Some'. split; [intros [<-|?]; [right; by exists p|by left]|].
          intros [?|(q & [= <-] & <-)]; [by right|by left].
      - split; [by left|]. by intros [?|(q & ? & _)]. }
    split.
    - intros [[?|(p & ? & ?)]|(s' & p & ? & ? & ?)]; [by left|right|right].
      + exists s, p. split_and!; [left|..]; done.
      + exists s', p. split_and!; [right|..]; done.
    - intros [?|(s' & p & [->|?]%elem_of_cons & ? & ?)]; [by left; left| |].
      + left. right. by exists p.
      + right. by exists s', p. }
  assert (∀ m : gmap string string, is_Some (foldl (λ m c, foldl (provide_owner (Contribution_Reference c)) m
      (Provides (cdescriptor c))) m cs !! k) ↔
    is_Some (m !! k) ∨ ∃ c p, c ∈ cs ∧ p ∈ offers (cdescriptor c) ∧ PName p = k) as H.
  { induction cs as [|c cs IH]; intros m; cbn [foldl]; [set_solver|]. rewrite IH, Hl.
    setoid_rewrite elem_of_cons. split.
    - intros [[?|(s & p & Hs & Hp & E)]|(c' & p & ? & ? & ?)]; [by left| |right; exists c', p; split_and!; auto].
      right. destruct (offers_parsed _ _ _ Hs Hp) as (p' & ? & ?). exists c, p'. split; [by left|]. split; [done|congruence].
    - intros [?|(c' & p & [->|Hc'] & Hp & E)]; [by left; left| |right; by exists c', p].
      left. right. destruct (offers_entry _ _ Hp) as (s & q & ? & ? & ?). exists s, q. split_and!; [done..|congruence]. }
  rewrite H, lookup_empty. split; [by intros [[? ?]|?]|by right].
Qed.

(** ** The resolver's units and the contributions *)

Section KitsAndSet.
Context `{RS : ReadySort, GW : Gateway}.
Context (kits : list resolvedKit) (own : Descriptor).

Definition set_units : list Unit := imap kit_unit kits ++ [set_unit (length kits) own].
Definition set_contributions : list Contribution :=
  map kit_contribution kits ++ [mkContribution set_reference (Some own)].

Context (distinct : NoDup (Contribution_Reference <$> set_contributions)).
Context (versioned_kits : Forall (λ k, Types.Version (kit_descriptor k) =
  EffectiveProvideVersion (reference k) (Some (kit_descriptor k))) kits).
#[local] Set Default Proof Using "Type".

Lemma set_units_elem u :
  u ∈ set_units ↔ (∃ i k, kits !! i = Some k ∧ u = kit_unit i k) ∨ u = set_unit (length kits) own.
Proof.
  unfold set_units. rewrite elem_of_app, elem_of_lookup_imap, list_elem_of_singleton. naive_solver.
Qed.

Lemma set_units_ids : ids set_units = seq 0 (S (length kits)).
Proof.
  unfold set_units, ids. rewrite seq_S, fmap_app. f_equal.
  rewrite fmap_imap. apply list_eq. intros i. rewrite list_lookup_imap.
  destruct (kits !! i) as [k|] eqn:E; cbn.
  - apply lookup_lt_Some in E. by rewrite lookup_seq_lt.
  - apply lookup_ge_None in E. by rewrite lookup_seq_ge.
Qed.

Lemma set_units_references : map Reference set_units = Contribution_Reference <$> set_contributions.
Proof.
  unfold set_units, set_contributions. rewrite map_app, fmap_app. f_equal.
  rewrite <-list_fmap_compose. apply list_eq. intros i.
  rewrite (list_lookup_fmap Reference), list_lookup_imap, list_lookup_fmap. by destruct (kits !! i).
Qed.

Lemma set_units_described : ResolveFacts.described set_units.
Proof.
  apply Forall_forall. intros u [(i & k & _ & ->)| ->]%set_units_elem; by eexists.
Qed.

(** A unit and a contribution stand for the same member of the set. *)
Definition stands_for (u : Unit) (c : Contribution) : Prop :=
  Reference u = Contribution_Reference c ∧
  ∀ e, e ∈ unit_provides u ↔ ∃ p, p ∈ offers (cdescriptor c) ∧ e = mkProvider u p.

Lemma offers_provided u c :
  Reference u = Contribution_Reference c → Provides (descriptor u) = Provides (cdescriptor c) →
  effective_version u = Types.Version (cdescriptor c) → stands_for u c.
Proof.
  intros Hr Hp Hv. split; [done|]. intros e. unfold unit_provides, offers. rewrite Hp, Hv.
  setoid_rewrite list_elem_of_omap. split.
  - intros (s & Hs & E). destruct (ParseProvide s) as [p|] eqn:Ep; [|done]. injection E as <-.
    exists (materialized (cdescriptor c) p). split; [|done]. exists s. by rewrite Ep.
  - intros (p & (s & Hs & E) & ->). destruct (ParseProvide s) as [q|] eqn:Eq; [|done]. injection E as <-.
    exists s. by rewrite Eq.
Qed.

Lemma kit_stands i k : kits !! i = Some k → stands_for (kit_unit i k) (kit_contribution k).
Proof using versioned_kits.
  intros Hk. apply offers_provided; [done..|]. rewrite Forall_lookup in versioned_kits.
  symmetry. exact (versioned_kits i k Hk).
Qed.
Lemma own_stands : stands_for (set_unit (length kits) own) (mkContribution set_reference (Some own)).
Proof. by apply offers_provided. Qed.

Lemma unit_contributes u : u ∈ set_units → ∃ c, c ∈ set_contributions ∧ stands_for u c.
Proof using versioned_kits.
  unfold set_contributions. intros [(i & k & Hk & ->)| ->]%set_units_elem.
  - exists (kit_contribution k). split; [|by apply kit_stands]. apply elem_of_app. left.
    apply list_elem_of_fmap_2. by eapply list_elem_of_lookup_2.
  - eexists. split; [|apply own_stands]. apply elem_of_app. right. by apply list_elem_of_singleton.
Qed.
Lemma contribution_unit c : c ∈ set_contributions → ∃ u, u ∈ set_units ∧ stands_for u c.
Proof using versioned_kits.
  unfold set_contributions. intros [(k & -> & [i Hi]%list_elem_of_lookup)%list_elem_of_fmap|
    ->%list_elem_of_singleton]%elem_of_app.
  - exists (kit_unit i k). split; [|by apply kit_stands]. apply set_units_elem. left. by exists i, k.
  - eexists. split; [|apply own_stands]. apply set_units_elem. by right.
Qed.

Lemma unit_reference u v :
  u ∈ set_units → v ∈ set_units → uid u = uid v ↔ Reference u = Reference v.
Proof using distinct.
  intros Hu Hv. split; intros E.
  - f_equal. apply (uid_unique set_units); [|done..]. rewrite set_units_ids. apply NoDup_seq.
  - f_equal. apply (nodup_refs_inj set_units); [|done..]. by rewrite set_units_references.
Qed.

(** Nothing other than the named member offers the name. *)
Definition unoffered (cs : list Contribution) (ref name : string) : Prop :=
  ∀ c p, c ∈ cs → Contribution_Reference c ≠ ref → p ∈ offers (cdescriptor c) → PName p ≠ name.

(** *** The resolver's verdict, of the contributions *)

Context (capabilities : bool) (r : Resolution).
Context (accepted : resolve set_units true capabilities = Ok r).

Lemma set_units_nodup : NoDup (ids set_units).
Proof. rewrite set_units_ids. apply NoDup_seq. Qed.

Lemma kit_unit_elem i k : kits !! i = Some k → kit_unit i k ∈ set_units.
Proof. intros Hi. apply set_units_elem. left. by exists i, k. Qed.

(** A unit's satisfied entry is answered by another contribution. *)
Lemma met_answered i k s :
  kits !! i = Some k → is_Some (met (providesIndex set_units).1 (kit_unit i k) s) →
  answered_by_other set_contributions s (reference k).
Proof using distinct versioned_kits.
  intros Hi [u Hm]. unfold met in Hm. destruct (ParseRequire s) as [req|] eqn:Es; [|done].
  apply satisfiedBy_Some in Hm as (Hu & Hne & e & He & Hs); [|apply set_units_described].
  destruct (unit_contributes u Hu) as (c & Hc & Hr & Hp). apply Hp in He as (p & Hp' & ->).
  exists req, c, p. split_and!; [done..| |done| |done].
  - rewrite <-Hr. intros E. apply Hne, (unit_reference u _ Hu (kit_unit_elem i k Hi)). done.
  - unfold Satisfies in Hs. cbn in Hs. by destruct (bool_decide_reflect (PName p = RName req)).
Qed.

Lemma unprovided i k name :
  kits !! i = Some k → othersProviding name (providesIndex set_units).1 (kit_unit i k) = [] →
  unoffered set_contributions (reference k) name.
Proof using distinct versioned_kits.
  intros Hi Ho c p Hc Href Hp. destruct (contribution_unit c Hc) as (u & Hu & Hr & Hps).
  change (PName (provide (mkProvider u p)) ≠ name).
  eapply (others_none _ _ _ u); [apply set_units_described|exact Ho|done| |apply Hps; by exists p|done].
  intros E. apply (unit_reference u _ Hu (kit_unit_elem i k Hi)) in E. apply Href. by rewrite <-Hr.
Qed.

Lemma kit_requires_met i k s :
  kits !! i = Some k → s ∈ Requires (kit_descriptor k) → answered_by_other set_contributions s (reference k).
Proof using All.
  intros Hi Hs. apply (met_answered i); [done|].
  destruct (require_met set_units true capabilities r set_units_nodup accepted (kit_unit i k) s)
    as (req & p & Er & Ep); [by apply kit_unit_elem|done|]. unfold met. rewrite Er, Ep. by eexists.
Qed.
Lemma kit_integrates_met i k s :
  kits !! i = Some k → s ∈ Integrates (kit_descriptor k) →
  answered_by_other set_contributions s (reference k) ∨
  ∀ req, ParseRequire s = Ok req → unoffered set_contributions (reference k) (RName req).
Proof using All.
  intros Hi Hs.
  destruct (integration_met set_units true capabilities r (kit_unit i k) s) as (req & Er & [[p Hp]|Ho]);
    [apply set_units_nodup|done|by apply kit_unit_elem|done| |].
  - left. apply (met_answered i); [done|by eexists].
  - right. intros req' E. assert (req' = req) as -> by congruence. by eapply unprovided.
Qed.
Lemma kit_conflicts_absent i k name :
  kits !! i = Some k → name ∈ Conflicts (kit_descriptor k) →
  unoffered set_contributions (reference k) (NormalizeCapabilityName name).
Proof using All.
  intros Hi Hn. apply (unprovided i); [done|].
  destruct (accepted_checks set_units true capabilities r set_units_nodup accepted) as (_ & _ & _ & _ & _ & Hc).
  specialize (Hc (kit_unit i k) name (kit_unit_elem i k Hi) Hn). unfold conflicts_problem in Hc.
  by apply map_eq_nil in Hc.
Qed.
End KitsAndSet.

(** ** The set's own declarations *)

Section Own.
Context (own : Descriptor) (cs : list Contribution).
Context (described : described_all cs).
Context (accepted : checkSetRelations own cs = Ok ()).
#[local] Set Default Proof Using "All".

Lemma own_relations_met s r :
  s ∈ Requires own ++ Integrates own → ParseRequire s = Ok r → offered cs (RName r) →
  ∃ c p, c ∈ cs ∧ p ∈ offers (cdescriptor c) ∧ PName p = RName r ∧ Satisfies p r = true.
Proof.
  intros Hs Er Ho. apply ProvidesIndex_satisfied; [done|]. revert accepted. unfold checkSetRelations. cbn.
  intros ([] & _ & ([] & Hr & _)%result_bind_Ok)%result_bind_Ok.
  unfold checkRelationsAgainst in Hr. rewrite first_problem_Ok in Hr. specialize (Hr s Hs).
  unfold relation_problem in Hr. rewrite Er in Hr.
  apply ProvidesIndex_Some in Ho as [l Hl]; [|done]. rewrite Hl in Hr. by destruct (SatisfiedBy _ r).
Qed.

Lemma own_requires_foreign s r :
  s ∈ Requires own → ParseRequire s = Ok r → ¬ offered cs (RName r) →
  ∀ p, p ∈ offers own → PName p ≠ RName r.
Proof.
  intros Hs Er Ho p Hp En. apply Ho, provide_owners_Some. revert accepted. unfold checkSetRelations. cbn.
  intros ([] & _ & ([] & _ & ([] & _ & ([] & Hr & _)%result_bind_Ok)%result_bind_Ok)%result_bind_Ok)%result_bind_Ok.
  rewrite first_problem_Ok in Hr. specialize (Hr s Hs). unfold self_requirement in Hr. rewrite Er in Hr.
  assert (is_Some (provide_owners [mkContribution set_reference (Some own)] !! RName r)) as [o Ho'].
  { apply provide_owners_Some. exists (mkContribution set_reference (Some own)), p. split; [left|done]. }
  unfold provide_owners in Ho'. cbn in Ho'. unfold cdescriptor in Hr. cbn in Hr. rewrite Ho' in Hr.
  destruct (provide_owners cs !! RName r); [by eexists|done].
Qed.

Lemma own_conflicts_absent name :
  name ∈ Conflicts own → ¬ offered cs (NormalizeCapabilityName name).
Proof.
  intros Hn Ho%provide_owners_Some. revert accepted. unfold checkSetRelations. cbn.
  intros ([] & _ & ([] & _ & ([] & Hr & _)%result_bind_Ok)%result_bind_Ok)%result_bind_Ok.
  rewrite first_problem_Ok in Hr. specialize (Hr name Hn). destruct Ho as [o Ho].
  by rewrite Ho in Hr.
Qed.
End Own.

(** ** The whole build *)

Section Built.
Context `{References, Decoders, Documents, RS : ReadySort, GW : Gateway}.
Context (compile : string → option (string → bool)) (marshal_image : OciImage → result string string).

Lemma resolveKit_kit k plat setArgs rk :
  resolveKit compile k plat setArgs = Ok rk →
  reference rk = Kit_Ref k ∧
  Types.Version (kit_descriptor rk) = EffectiveProvideVersion (reference rk) (Some (kit_descriptor rk)).
Proof.
  unfold resolveKit. intros (named & _ & Hr)%result_bind_Ok. apply result_bind_Ok in Hr as (u & _ & Hr).
  apply result_bind_Ok in Hr as ([[pinned dgst] raw] & _ & Hr). apply result_bind_Ok in Hr as (image & _ & Hr).
  apply result_bind_Ok in Hr as ([published st] & _ & Hr). apply result_bind_Ok in Hr as ([d env] & _ & [= <-]).
  split; [done|]. cbn [kit_descriptor reference]. unfold EffectiveProvideVersion at 2.
  destruct (bool_decide _) eqn:E; [done|]. cbn. unfold EffectiveProvideVersion. by rewrite E.
Qed.

Lemma resolve_kits_all plat setArgs ks rks :
  resolve_kits compile plat setArgs ks = Ok rks →
  reference <$> rks = Kit_Ref <$> ks ∧
  Forall (λ k, Types.Version (kit_descriptor k) =
    EffectiveProvideVersion (reference k) (Some (kit_descriptor k))) rks.
Proof.
  revert rks. induction ks as [|k ks IH]; intros rks; cbn; [by intros [= <-]|].
  intros (rk & Hk%map_err_Ok & (rest & Hrest & [= <-])%result_bind_Ok)%result_bind_Ok.
  apply resolveKit_kit in Hk as [Hr Hv]. apply IH in Hrest as [Hrs Hvs]. split; [|by constructor].
  cbn. by rewrite Hr, Hrs.
Qed.

Lemma setOwnDescriptor_relations d own :
  setOwnDescriptor d = Ok own →
  Requires own = Requires d ∧ Integrates own = Integrates d ∧ Conflicts own = Conflicts d ∧ Provides own = Provides d.
Proof. unfold setOwnDescriptor. by intros (l & _ & [= <-])%result_bind_Ok. Qed.

(** The order the resolver gives keeps every kit. *)
Lemma orderKits_perm kits own ordered :
  orderKits kits own = Ok ordered →
  ∃ r, resolve (set_units kits own) true false = Ok r ∧ ordered ≡ₚ kits.
Proof.
  unfold orderKits. intros (r & Hr%map_err_Ok & [= <-])%result_bind_Ok. exists r. split; [done|].
  assert (topological r ≡ₚ set_units kits own) as Hp.
  { apply (topological_units _ true false); [by apply set_units_nodup|done]. }
  unfold Topological. rewrite Hp. unfold set_units. rewrite omap_app. cbn [omap list_omap].
  change (uid (set_unit (length kits) own)) with (length kits).
  rewrite (proj2 (lookup_ge_None kits (length kits))) by lia. rewrite app_nil_r.
  apply reflexive_eq. clear. assert (∀ l n, (∀ i k, l !! i = Some k → kits !! (n + i) = Some k) →
    omap (λ u, kits !! uid u) (imap (λ i, kit_unit (n + i)) l) = l) as Hall.
  { induction l as [|k l IH]; intros n Hl; [done|]. cbn. rewrite (Hl 0 k) by done. f_equal.
    rewrite <-(IH (S n)) at 2; [|intros i x Hx; rewrite <-(Hl (S i)) by done; f_equal; lia].
    f_equal. apply imap_ext. intros i x _. cbn. f_equal; lia. }
  by apply (Hall kits 0).
Qed.

Lemma kits_by_reference_lookup kits k :
  NoDup (reference <$> kits) → k ∈ kits → kits_by_reference kits !! reference k = Some k.
Proof.
  unfold kits_by_reference. generalize (∅ : gmap string resolvedKit). induction kits as [|x l IH] using rev_ind;
    intros m Hnd Hk; [by inversion Hk|]. rewrite foldl_app. cbn.
  rewrite fmap_app in Hnd. apply NoDup_app in Hnd as (Hnd & Hx & _).
  apply elem_of_app in Hk as [Hk| ->%list_elem_of_singleton]; [|by rewrite lookup_insert_eq].
  rewrite lookup_insert_ne; [by apply IH|]. intros E. apply (Hx (reference k)); [by apply list_elem_of_fmap_2|].
  rewrite <-E. by apply list_elem_of_singleton.
Qed.
Lemma kits_by_reference_None kits ref : ref ∉ reference <$> kits → kits_by_reference kits !! ref = None.
Proof.
  unfold kits_by_reference. intros Hn.
  assert (∀ m : gmap string resolvedKit, m !! ref = None → foldl (λ m k, <[reference k := k]> m) m kits !! ref = None) as Hall;
    [|by apply Hall].
  induction kits as [|k l IH]; intros m Hm; [done|]. cbn in *. apply not_elem_of_cons in Hn as [Hk Hl].
  apply IH; [done|]. by rewrite lookup_insert_ne.
Qed.

Lemma kitsInContributionOrder_perm kits own cs :
  NoDup (Contribution_Reference <$> set_contributions kits own) →
  cs ≡ₚ set_contributions kits own → kitsInContributionOrder cs kits ≡ₚ kits.
Proof.
  intros Hnd Hp. unfold kitsInContributionOrder. rewrite Hp. unfold set_contributions in *.
  rewrite fmap_app, <-list_fmap_compose in Hnd. apply NoDup_app in Hnd as (Hnd & Hown & _).
  rewrite omap_app. cbn [omap list_omap Contribution_Reference].
  rewrite kits_by_reference_None; [|intros Hin; apply (Hown _ Hin); by apply list_elem_of_singleton].
  rewrite app_nil_r. apply reflexive_eq.
  assert (∀ l, l ⊆ kits → omap (λ c, kits_by_reference kits !! Contribution_Reference c) (map kit_contribution l) = l) as Hall;
    [|by apply Hall].
  induction l as [|k l IH]; intros Hl; [done|]. cbn.
  rewrite kits_by_reference_lookup; [|done|apply Hl; by left]. f_equal. apply IH. set_solver.
Qed.

(** The checks a built set has passed. *)
Lemma buildSet_inv d own plat stem b :
  setOwnDescriptor d = Ok own → buildSet compile marshal_image d plat stem = Ok b →
  ∃ kits ordered contributions m,
    resolve_kits compile plat (Args d) (Kits d) = Ok kits ∧ orderKits kits own = Ok ordered ∧
    checkSetRelations own (map kit_contribution ordered) = Ok () ∧
    orderContributions own (map kit_contribution ordered) = Ok contributions ∧
    Merge contributions (mkMergeOptions (stagedSetContextPath stem)) = Ok m ∧
    carryOverSetMetadata d (Merged m) (kitsInContributionOrder contributions ordered) = Ok (build_merged b) ∧
    build_kits b = kitsInContributionOrder contributions ordered.
Proof.
  intros Ho. unfold buildSet, resolveKits. intros (kits & Hk & Hb)%result_bind_Ok.
  apply result_bind_Ok in Hb as (own' & Ho' & Hb). assert (own' = own) as -> by congruence.
  apply result_bind_Ok in Hb as (ordered & Hord & Hb). apply result_bind_Ok in Hb as ([] & _ & Hb).
  apply result_bind_Ok in Hb as ([] & Hchk & Hb). apply result_bind_Ok in Hb as (contributions & Hcs & Hb).
  apply result_bind_Ok in Hb as (m & Hm%map_err_Ok & Hb). apply result_bind_Ok in Hb as ([] & _ & Hb).
  apply result_bind_Ok in Hb as (merged & Hmeta & Hb). apply result_bind_Ok in Hb as (sources & _ & Hb).
  apply result_bind_Ok in Hb as ([ref raw] & _ & [= <-]). by exists kits, ordered, contributions, m.
Qed.

End Built.

#[export] Instance set_contributions_perm `{Gateway} : Proper ((≡ₚ) ==> (=) ==> (≡ₚ)) set_contributions.
Proof. intros kits kits' Hp own ? <-. unfold set_contributions. by rewrite Hp. Qed.

(** ** What [Merge] leaves of the relations, once both checks have passed *)

Section Checked.
Context `{RS : ReadySort, GW : Gateway}.
Context (kits : list resolvedKit) (own : Descriptor) (r : Resolution) (cs checked : list Contribution).
Context (merged : Descriptor).
Context (distinct : NoDup (Contribution_Reference <$> set_contributions kits own)).
Context (versioned_kits : Forall (λ k, Types.Version (kit_descriptor k) =
  EffectiveProvideVersion (reference k) (Some (kit_descriptor k))) kits).
Context (accepted : resolve (set_units kits own) true false = Ok r).
Context (checked_kits : checked ≡ₚ map kit_contribution kits).
Context (own_accepted : checkSetRelations own checked = Ok ()).
Context (all_merged : cs ≡ₚ set_contributions kits own).
Context (left_over : relations_left cs merged).
#[local] Set Default Proof Using "All".

Lemma member c :
  c ∈ cs ↔ (∃ i k, kits !! i = Some k ∧ c = kit_contribution k) ∨ c = mkContribution set_reference (Some own).
Proof.
  rewrite all_merged. unfold set_contributions. rewrite elem_of_app, list_elem_of_singleton, list_elem_of_fmap.
  setoid_rewrite list_elem_of_lookup. naive_solver.
Qed.

Lemma checked_member c :
  c ∈ checked → c ∈ cs ∧ Contribution_Reference c ≠ set_reference.
Proof.
  intros Hc. rewrite checked_kits in Hc. rewrite all_merged. unfold set_contributions in *. split; [set_solver|].
  revert distinct. rewrite fmap_app. intros (_ & Hown & _)%NoDup_app E.
  apply (Hown (Contribution_Reference c)); [by apply list_elem_of_fmap_2|]. rewrite E. by apply list_elem_of_singleton.
Qed.
Lemma foreign_member c : c ∈ cs → Contribution_Reference c ≠ set_reference → c ∈ checked.
Proof.
  rewrite member, checked_kits. intros [(i & k & Hi & ->)| ->]; [|done]. intros _.
  apply list_elem_of_fmap_2. by eapply list_elem_of_lookup_2.
Qed.

Lemma checked_described : described_all checked.
Proof. rewrite checked_kits. apply Forall_fmap, Forall_true. intros k. by eexists. Qed.

Lemma answered_all s ref : answered_by_other (set_contributions kits own) s ref ↔ answered_by_other cs s ref.
Proof. unfold answered_by_other. by setoid_rewrite all_merged. Qed.
Lemma unoffered_all ref name : unoffered (set_contributions kits own) ref name ↔ unoffered cs ref name.
Proof. unfold unoffered. by setoid_rewrite all_merged. Qed.

(** An entry of the set itself that nothing answers names nothing a kit offers. *)
Lemma own_unanswered s q :
  s ∈ Requires own ++ Integrates own → ¬ answered_by_other cs s set_reference → ParseRequire s = Ok q →
  ¬ offered checked (RName q).
Proof.
  intros Hs Hn Eq Ho.
  destruct (own_relations_met own checked checked_described own_accepted s q Hs Eq Ho) as (c & p & Hc & Hp & En & Hsat).
  apply checked_member in Hc as [Hc Hne]. apply Hn. by exists q, c, p.
Qed.

Lemma requires_left s :
  s ∈ Requires merged → s ∈ Requires own ∧ ∀ q, ParseRequire s = Ok q → ¬ offered cs (RName q).
Proof.
  intros Hs. destruct left_over as (Hreq & _). apply Hreq in Hs as (c & Hc & Hs & Hn).
  apply member in Hc as [(i & k & Hi & ->)| ->].
  - exfalso. apply Hn, answered_all. by eapply (kit_requires_met kits own distinct versioned_kits false r accepted).
  - split; [done|]. intros q Eq (c & p & Hc & Hp & En).
    assert (¬ offered checked (RName q)) as Hno by (eapply own_unanswered; [by apply elem_of_app; left|done..]).
    destruct (decide (Contribution_Reference c = set_reference)) as [E|E].
    + apply member in Hc as [(i & k & Hi & ->)| ->].
      * assert (kit_contribution k ∈ checked) as Hc; [|by apply checked_member in Hc as []].
        rewrite checked_kits. apply list_elem_of_fmap_2. by eapply list_elem_of_lookup_2.
      * by eapply (own_requires_foreign own checked checked_described own_accepted s q).
    + apply Hno. exists c, p. split; [by apply foreign_member|done].
Qed.

Lemma own_unoffered name : ¬ offered checked name → unoffered cs set_reference name.
Proof. intros Hn c p Hc Hr Hp En. apply Hn. exists c, p. split; [by apply foreign_member|done]. Qed.

Lemma integrates_left s :
  s ∈ Integrates merged → ∃ c, c ∈ cs ∧ s ∈ Integrates (cdescriptor c) ∧
    ∀ q, ParseRequire s = Ok q → unoffered cs (Contribution_Reference c) (RName q).
Proof.
  intros Hs. destruct left_over as (_ & Hint & _). apply Hint in Hs as (c & Hc & Hs & Hn).
  exists c. split; [done|]. split; [done|]. intros q Eq. apply member in Hc as [(i & k & Hi & ->)| ->].
  - apply unoffered_all. destruct (kit_integrates_met kits own distinct versioned_kits false r accepted i k s)
      as [Ha|Hu]; [done..| |by apply Hu]. by apply answered_all in Ha.
  - apply own_unoffered. eapply own_unanswered; [by apply elem_of_app; right|done..].
Qed.

Lemma conflicts_left name :
  name ∈ Conflicts merged → ∃ c, c ∈ cs ∧ name ∈ Conflicts (cdescriptor c) ∧
    unoffered cs (Contribution_Reference c) (NormalizeCapabilityName name).
Proof.
  intros Hs. destruct left_over as (_ & _ & Hcon). apply Hcon in Hs as (c & Hc & Hs).
  exists c. split; [done|]. split; [done|]. apply member in Hc as [(i & k & Hi & ->)| ->].
  - apply unoffered_all. by eapply (kit_conflicts_absent kits own distinct versioned_kits false r accepted).
  - apply own_unoffered. by apply (own_conflicts_absent own checked checked_described own_accepted).
Qed.
End Checked.

(** What a built set is made of, and what it leaves of the relations. *)
Lemma buildSet_relations `{References, Decoders, Documents, ReadySort, Gateway}
    compile marshal_image d own plat stem b :
  buildSet compile marshal_image d plat stem = Ok b → setOwnDescriptor d = Ok own →
  NoDup (set_reference :: (Kit_Ref <$> Kits d)) →
  let cs := set_contributions (build_kits b) own in
  (∃ kits contributions m, resolve_kits compile plat (Args d) (Kits d) = Ok kits ∧ build_kits b ≡ₚ kits ∧
     contributions ≡ₚ cs ∧ Merge contributions (mkMergeOptions (stagedSetContextPath stem)) = Ok m ∧
     carryOverSetMetadata d (Merged m) (build_kits b) = Ok (build_merged b)) ∧
  (∀ s, s ∈ Requires (build_merged b) → s ∈ Requires d ∧ ∀ r, ParseRequire s = Ok r → ¬ offered cs (RName r)) ∧
  (∀ s, s ∈ Integrates (build_merged b) → ∃ c, c ∈ cs ∧ s ∈ Integrates (cdescriptor c) ∧
     ∀ r, ParseRequire s = Ok r → unoffered cs (Contribution_Reference c) (RName r)) ∧
  (∀ name, name ∈ Conflicts (build_merged b) → ∃ c, c ∈ cs ∧ name ∈ Conflicts (cdescriptor c) ∧
     unoffered cs (Contribution_Reference c) (NormalizeCapabilityName name)).
Proof.
  intros Hb Ho Hnd. apply (buildSet_inv _ _ _ _ _ _ _ Ho) in Hb as
    (kits & ordered & contributions & m & Hk & Hord & Hchk & Hcs & Hm & Hmeta & Ekits).
  rewrite Ekits. assert (Hmeta' := Hmeta).
  destruct (resolve_kits_all _ _ _ _ _ Hk) as [Hrefs Hv]. apply orderKits_perm in Hord as (r & Hr & Hperm).
  assert (Hm' := Hm). apply Merge_relations in Hm. unfold carryOverSetMetadata in Hmeta.
  apply result_bind_Ok in Hmeta as (l & _ & [= E]). rewrite <-E in *. clear E.
  assert (NoDup (Contribution_Reference <$> set_contributions kits own)) as Hnd'.
  { unfold set_contributions. rewrite fmap_app, <-list_fmap_compose.
    change (Contribution_Reference ∘ kit_contribution) with (@reference _).
    rewrite Hrefs. cbn. by rewrite <-(Permutation_middle _ []), app_nil_r. }
  assert (set_contributions ordered own ≡ₚ set_contributions kits own) as Hso.
  { by rewrite Hperm. }
  apply orderContributions_perm in Hcs; [|by rewrite Hso|].
  2: { apply Forall_fmap, Forall_true. intros k. by eexists. }
  assert (set_contributions (kitsInContributionOrder contributions ordered) own ≡ₚ contributions) as Hfin.
  { rewrite (kitsInContributionOrder_perm ordered own); [done|by rewrite Hso|exact Hcs]. }
  destruct (setOwnDescriptor_relations _ _ Ho) as (<- & _).
  assert (relations_left (set_contributions (kitsInContributionOrder contributions ordered) own)
    (with_metadata d (Merged m) l)) as Hleft.
  { unfold relations_left, answered_by_other in *. by setoid_rewrite Hfin. }
  assert (set_contributions (kitsInContributionOrder contributions ordered) own ≡ₚ set_contributions kits own) as Hall.
  { rewrite Hfin, Hcs. exact Hso. }
  intros cs. split.
  { exists kits, contributions, m. split; [done|]. split; [|by unfold cs; rewrite Hfin].
    rewrite (kitsInContributionOrder_perm ordered own); [done|by rewrite Hso|exact Hcs]. }
  split_and!; intros s Hs.
  - eapply (requires_left kits own r _ (map kit_contribution ordered)); try done; by rewrite Hperm.
  - eapply (integrates_left kits own r _ (map kit_contribution ordered)); try done; by rewrite Hperm.
  - eapply (conflicts_left kits own r _ (map kit_contribution ordered)); try done; by rewrite Hperm.
Qed.

(** ** Properties *)

(** C13: What a built set still requires, only the set's own document requires, and
    neither the set nor any of its kits provides it in any version: a kit's own
    requirements are all met inside.  What it still integrates with, and what it
    still conflicts with, is named by one of its contributions and provided by no
    other. *)
Theorem set_requires_external `{References, Decoders, Documents, ReadySort, Gateway}
    compile marshal_image d own plat stem b :
  buildSet compile marshal_image d plat stem = Ok b → setOwnDescriptor d = Ok own →
  NoDup (set_reference :: (Kit_Ref <$> Kits d)) →
  let cs := set_contributions (build_kits b) own in
  (∀ s, s ∈ Requires (build_merged b) → s ∈ Requires d ∧ ∀ r, ParseRequire s = Ok r → ¬ offered cs (RName r)) ∧
  (∀ s, s ∈ Integrates (build_merged b) → ∃ c, c ∈ cs ∧ s ∈ Integrates (cdescriptor c) ∧
     ∀ r, ParseRequire s = Ok r → unoffered cs (Contribution_Reference c) (RName r)) ∧
  (∀ name, name ∈ Conflicts (build_merged b) → ∃ c, c ∈ cs ∧ name ∈ Conflicts (cdescriptor c) ∧
     unoffered cs (Contribution_Reference c) (NormalizeCapabilityName name)).
Proof. intros Hb Ho Hnd. by destruct (buildSet_relations _ _ _ _ _ _ _ Hb Ho Hnd) as (_ & Hleft). Qed.

(** A set of two kits with relations of its own. *)
Definition toy_set : Descriptor :=
  mkDescriptor false SchemaVersion "team" "" "" "" "" "3" [] KindSet ["team"] ["libc >= 2"; "base"] ["tools >= 1"; "shell"]
    ["legacy"] [] ∅ "" [mkKit "tools:1" "" ∅; mkKit "base:1" "" ∅] "" false.
Definition toy_set_build : result set_error (@setBuild toy_gateway) :=
  @buildSet toy_references toy_decoders toy_documents merge_ready toy_gateway (λ _, None) (λ _, Ok "") toy_set
    amd64 "team".

Example toy_set_relations :
  (λ b, (Requires (build_merged b), Integrates (build_merged b), Conflicts (build_merged b))) <$> toy_set_build =
    Ok (["libc >= 2"], ["shell"], ["legacy"]) ∧
  map reference <$> (build_kits <$> toy_set_build) = Ok ["base:1"; "tools:1"].
Proof. by vm_compute. Qed.

Lemma set_requires_external_witness :
  ∃ b own, toy_set_build = Ok b ∧ @setOwnDescriptor toy_gateway toy_set = Ok own ∧
    ∀ s, s ∈ Requires (build_merged b) → s ∈ Requires toy_set.
Proof.
  destruct toy_set_build as [b|] eqn:Eb; [|by vm_compute in Eb].
  destruct (@setOwnDescriptor toy_gateway toy_set) as [own|] eqn:Eo; [|by vm_compute in Eo].
  exists b, own. split; [done|]. split; [done|].
  destruct (@set_requires_external _ _ _ _ _ _ _ _ _ _ _ _ Eb Eo) as [Hr _].
  - repeat (apply NoDup_cons; split; [by intros H; repeat (apply elem_of_cons in H as [H|H]; [done|]); inversion H|]).
    apply NoDup_nil_2.
  - intros s Hs. by apply Hr.
Defined.
