(* ===== verification/Delta.v ===== *)
(** The configuration a mixin contributes ([cmd/frontend/diff.go]): what its recipe
    stated over its base, and the image configurations the frontend exports.
    A mixin's configuration loses nothing by the reduction: over the base it was built on,
    the delta composes as the whole configuration would. *)
From stdpp Require Import options.
From S2P Require Import Prelude GoStrings Oci Assemble AssembleFacts SetBuild.

Definition envMap (env : list string) : gmap string string :=
  foldl (λ m kv, match cut "=" kv with (k, v, true) => <[k := v]> m | _ => m end) ∅ env.

(** The elements of a path that another lacks, each once. *)
Definition missing_element (st : list string * list string) (e : string) : list string * list string :=
  let '(have, added) := st in
  if negb (bool_decide (e = "")) && negb (bool_decide (e ∈ have)) then (e :: have, added ++ [e]) else st.
Definition pathElementsNotIn (upperPath lowerPath : string) : list string :=
  (foldl missing_element (split ":" lowerPath, []) (split ":" upperPath)).2.

Definition delta_entry (lowerEnv : gmap string string) (kv : string) : list string :=
  match cut "=" kv with
  | (k, v, true) =>
      if bool_decide (k = "PATH") then
        match pathElementsNotIn v (default "" (lowerEnv !! "PATH")) with
        | [] => []
        | added => ["PATH=" +:+ join ":" added]
        end
      else if bool_decide (lowerEnv !! k = Some v) then [] else [kv]
  | _ => []
  end.

Definition changed {A} `{EqDecision A} (zero lower upper : A) : A := if bool_decide (upper = lower) then zero else upper.

Definition configDelta (lower upper : ImageConfig) : ImageConfig :=
  mkImageConfig
    (changed "" (User lower) (User upper))
    (ExposedPorts upper ∖ ExposedPorts lower)
    (flat_map (delta_entry (envMap (Env lower))) (Env upper))
    (changed [] (Entrypoint lower) (Entrypoint upper))
    (changed [] (Cmd lower) (Cmd upper))
    (Volumes upper ∖ Volumes lower)
    (changed "" (WorkingDir lower) (WorkingDir upper))
    (filter (λ kv, Labels lower !! kv.1 ≠ Some kv.2) (Labels upper))
    (changed "" (StopSignal lower) (StopSignal upper)).

(** ** Exported configurations, before they are marshaled *)

Definition platformOrDefault (DefaultSpec : Platform) (p : option Platform) : Platform := default DefaultSpec p.

Definition mixinImage (p : Platform) (delta : ImageConfig) : OciImage := mkOciImage (bare_platform p) delta "" [] [].
Definition minimalImage (p : Platform) : OciImage := mkOciImage (bare_platform p) zero_image_config "" [] [].

Example delta_sample :
  Env (configDelta
    (mkImageConfig "root" ∅ ["PATH=/bin:/usr/bin"; "LANG=C"] ["/sh"] [] ∅ "/" ∅ "")
    (mkImageConfig "root" ∅ ["PATH=/opt/x:/bin:/usr/bin:/opt/x"; "LANG=C"; "EDITOR=vi"] ["/sh"] ["-l"] ∅ "/" ∅ "")) =
  ["PATH=/opt/x"; "EDITOR=vi"].
Proof. by vm_compute. Qed.

(** * Facts *)

Lemma envMap_env_map env : envMap env = env_map env.
Proof.
  unfold envMap, env_map. generalize (∅ : gmap string string).
  induction env as [|kv env IH]; intros m; [done|]. cbn [foldl]. rewrite IH. f_equal.
  unfold state_last, statement. by destruct (cut "=" kv) as [[k v] []].
Qed.

(** ** The elements a path adds *)

Lemma missing_elements adds have added :
  (foldl missing_element (have, added) adds).2 = added ++ dedupe_from id have (List.filter nonempty adds).
Proof.
  revert have added. induction adds as [|e adds IH]; intros have added; [by rewrite app_nil_r|].
  cbn [foldl List.filter]. unfold missing_element at 2, nonempty at 1.
  destruct (bool_decide_reflect (e = "")) as [He|He]; cbn [negb andb]; [by rewrite IH|].
  cbn [dedupe_from]. change (id e) with e. destruct (decide (e ∈ have)) as [Hin|Hin].
  - rewrite bool_decide_eq_true_2 by done. cbn. by rewrite IH.
  - rewrite bool_decide_eq_false_2 by done. cbn. by rewrite IH, <-app_assoc.
Qed.
Lemma path_elements_not_in u l : pathElementsNotIn u l = dedupe_from id (split ":" l) (List.filter nonempty (split ":" u)).
Proof. apply missing_elements. Qed.

Lemma dedupe_from_twice (seen seen' l : list string) :
  (∀ e, e ∈ l → e ∈ seen' → e ∈ seen) → dedupe_from id seen (dedupe_from id seen' l) = dedupe_from id seen l.
Proof.
  revert seen seen'. induction l as [|x l IH]; intros seen seen' Hs; [done|]. cbn [dedupe_from]. change (id x) with x.
  destruct (decide (x ∈ seen')) as [H'|H'].
  - rewrite decide_True by (apply Hs; [by left|done]). apply IH. intros e He. apply Hs. by right.
  - cbn [dedupe_from]. change (id x) with x. destruct (decide (x ∈ seen)) as [H|H].
    + apply IH. intros e He [->|He']%elem_of_cons; [done|]. apply Hs; [by right|done].
    + f_equal. apply IH. intros e He [->|He']%elem_of_cons; [by left|]. right. apply Hs; [by right|done].
Qed.

Lemma dedupe_from_id_elem (seen l : list string) e : e ∈ dedupe_from id seen l ↔ e ∈ l ∧ e ∉ seen.
Proof. pose proof (dedupe_from_key id seen l e) as H. by rewrite !list_fmap_id in H. Qed.

(** A path's elements are kept by what is added to it. *)
Definition has_elements (p q : string) : Prop := ∀ e, e ≠ "" → e ∈ split ":" p → e ∈ split ":" q.

Lemma nonempty_elem e : nonempty e = true ↔ e ≠ "".
Proof. unfold nonempty. by rewrite negb_true_iff, bool_decide_eq_false. Qed.
Lemma elements_split p e : e ≠ "" → e ∈ split ":" p ↔ e ∈ elements p.
Proof.
  intros He. unfold elements. case_bool_decide as Hp; [|done]. subst. cbn. rewrite elem_of_nil, list_elem_of_singleton. naive_solver.
Qed.
Lemma gather_free p l : colon_free l → colon_free (gather p l).
Proof.
  intros Hl. unfold gather. apply Forall_app. split.
  - unfold elements. case_bool_decide; [constructor|apply split_free].
  - eapply sublist_Forall; [apply dedupe_from_sublist|]. apply Forall_forall. intros e [He _]%elem_of_filter_bool.
    unfold colon_free in Hl. rewrite Forall_forall in Hl. by apply Hl.
Qed.
Lemma merged_path_keeps p a : has_elements p (merged_path p a).
Proof.
  intros e He Hin. rewrite merged_path_gather. apply (elements_split _ _ He) in Hin.
  rewrite split_join; [unfold gather; apply elem_of_app; by left| |].
  - unfold gather. intros Hn. apply app_nil in Hn as [Hn _]. rewrite Hn in Hin. by apply elem_of_nil in Hin.
  - apply gather_free, split_free.
Qed.

Lemma merged_path_adds p a : has_elements a (merged_path p a).
Proof.
  intros e He Hin. rewrite merged_path_gather.
  assert (e ∈ gather p (split ":" a)) as Hg.
  { unfold gather. apply elem_of_app. destruct (decide (e ∈ split ":" p)) as [Hp|Hp]; [left; by apply elements_split|right].
    apply dedupe_from_id_elem. split; [|done]. apply elem_of_filter_bool. rewrite nonempty_elem. done. }
  rewrite split_join; [done|intros E; rewrite E in Hg; by apply elem_of_nil in Hg|apply gather_free, split_free].
Qed.

Lemma added_elements lower p v :
  has_elements lower p →
  dedupe_from id (split ":" p) (pathElementsNotIn v lower) = dedupe_from id (split ":" p) (List.filter nonempty (split ":" v)).
Proof.
  intros Hp. rewrite path_elements_not_in. apply dedupe_from_twice.
  intros e [_ He%nonempty_elem]%elem_of_filter_bool Hl. by apply Hp.
Qed.
Lemma path_nothing_added lower p v : has_elements lower p → pathElementsNotIn v lower = [] → merged_path p v = p.
Proof.
  intros Hp Hv. rewrite merged_path_gather. unfold gather. rewrite <-(added_elements lower), Hv by done. cbn [dedupe_from].
  rewrite app_nil_r. unfold elements. case_bool_decide; [by subst|apply join_split].
Qed.
Lemma path_elements_free v lower : colon_free (pathElementsNotIn v lower).
Proof.
  rewrite path_elements_not_in. eapply sublist_Forall; [apply dedupe_from_sublist|].
  apply Forall_forall. intros e [He _]%elem_of_filter_bool. pose proof (split_free ":" v) as Hf.
  rewrite Forall_forall in Hf. by apply Hf.
Qed.
Lemma path_added lower p v :
  has_elements lower p → pathElementsNotIn v lower ≠ [] → merged_path p (join ":" (pathElementsNotIn v lower)) = merged_path p v.
Proof.
  intros Hp Hne. rewrite !merged_path_gather. f_equal. unfold gather. f_equal. rewrite <-(added_elements lower p v) by done.
  rewrite split_join; [|done|apply path_elements_free].
  f_equal. rewrite path_elements_not_in. assert (∀ l seen, List.filter nonempty (dedupe_from id seen (List.filter nonempty l)) =
      dedupe_from id seen (List.filter nonempty l)) as H; [|by apply H].
    intros l seen. assert (Forall (λ e, nonempty e = true) (dedupe_from id seen (List.filter nonempty l))) as Hall.
    { eapply sublist_Forall; [apply dedupe_from_sublist|]. apply Forall_forall. by intros e [_ ?]%elem_of_filter_bool. }
    induction Hall as [|e l' He _ IH]; [done|]. cbn. by rewrite He, IH.
Qed.

(** ** Composing statements *)

(** The same variables, an empty path and none being one. *)
Definition same_env (a b : gmap string string) : Prop :=
  (∀ k, k ≠ "PATH" → a !! k = b !! k) ∧ default "" (a !! "PATH") = default "" (b !! "PATH").

(** What a base states is stated, and its path elements are there. *)
Definition states_base (base a : gmap string string) : Prop :=
  (∀ k v, k ≠ "PATH" → base !! k = Some v → a !! k = Some v) ∧
  has_elements (default "" (base !! "PATH")) (default "" (a !! "PATH")).

Lemma same_env_refl a : same_env a a.
Proof. done. Qed.

Lemma state_step_base base a kv a' : states_base base a → state_step a kv = Some a' → states_base base a'.
Proof.
  destruct kv as [k v]. intros [Hb Hp]. cbn. case_bool_decide as Hk.
  - intros [= <-]. split; [intros x w Hx Hw; rewrite lookup_insert_ne by done; by apply Hb|].
    rewrite lookup_insert_eq. cbn [default from_option id]. intros e He Hin. apply merged_path_keeps; [done|]. by apply Hp.
  - destruct (a !! k) as [w|] eqn:E; [case_bool_decide; [|done]; by intros [= <-]|]. intros [= <-]. split.
    + intros x w Hx Hw. destruct (decide (x = k)) as [->|]; [|rewrite lookup_insert_ne by done; by apply Hb].
      specialize (Hb k w Hx Hw). congruence.
    + by rewrite lookup_insert_ne.
Qed.

(** Every statement a composition accepts is kept by it. *)
Lemma state_all_base base a l b : states_base base a → state_all a l = Some b → states_base base b.
Proof.
  revert a. induction l as [|kv l IH]; intros a Hb; [by intros [= <-]|]. cbn.
  destruct (state_step a kv) as [a'|] eqn:E; [|done]. cbn. apply IH. by eapply state_step_base.
Qed.
Lemma state_step_stated a k v a' : state_step a (k, v) = Some a' → states_base {[k := v]} a'.
Proof.
  cbn. case_bool_decide as Hk; [subst; intros [= <-]|intros H].
  - split; [intros x w Hx; by rewrite lookup_singleton_ne|]. rewrite lookup_singleton_eq, lookup_insert_eq. apply merged_path_adds.
  - split; [|by rewrite lookup_singleton_ne by done; intros e He ->%list_elem_of_singleton].
    intros x w Hx [<- <-]%lookup_singleton_Some. destruct (a !! k) as [u|] eqn:E.
    + case_bool_decide; [|done]. injection H as <-. by subst.
    + injection H as <-. apply lookup_insert_eq.
Qed.
Lemma state_all_stated a l b k v : state_all a l = Some b → (k, v) ∈ l → states_base {[k := v]} b.
Proof.
  revert a. induction l as [|kv l IH]; intros a; cbn; [by intros _ ?%elem_of_nil|].
  destruct (state_step a kv) as [a'|] eqn:E; [|done]. cbn. intros Hl [<-|Hin]%elem_of_cons; [|by eapply IH].
  eapply state_all_base; [by eapply state_step_stated|done].
Qed.

Definition option_same (x y : option (gmap string string)) : Prop :=
  match x, y with Some a, Some b => same_env a b | None, None => True | _, _ => False end.

Lemma state_step_same a b kv : same_env a b → option_same (state_step a kv) (state_step b kv).
Proof.
  destruct kv as [k v]. intros [Hs Hp]. cbn. case_bool_decide as Hk.
  - cbn. split; [intros x Hx; rewrite !lookup_insert_ne by done; by apply Hs|]. rewrite !lookup_insert_eq. cbn. by rewrite Hp.
  - rewrite <-Hs by done. destruct (a !! k) as [w|]; [by case_bool_decide|]. cbn. split.
    + intros x Hx. destruct (decide (x = k)) as [->|]; [by rewrite !lookup_insert_eq|rewrite !lookup_insert_ne by done; by apply Hs].
    + by rewrite !lookup_insert_ne.
Qed.

(** One entry and what the delta keeps of it do the same to an environment that states the base. *)
Lemma delta_entry_step base a b kv :
  states_base base a → same_env a b →
  option_same (match statement kv with Some s => state_step a s | None => Some a end) (state_all b (stated (delta_entry base kv))).
Proof.
  intros [Hb Hp] Hs. unfold delta_entry, statement. destruct (cut "=" kv) as [[k v] []] eqn:Ec; [|done].
  case_bool_decide as Hk; [subst k|].
  - destruct (pathElementsNotIn v _) as [|e added] eqn:Ea.
    + cbn. destruct Hs as [Hs Hd]. split; [intros x Hx; rewrite lookup_insert_ne by done; by apply Hs|].
      rewrite lookup_insert_eq. cbn [default from_option id]. rewrite <-Hd. by eapply path_nothing_added.
    + rewrite <-Ea. change ("PATH=" +:+ ?r) with ("PATH" +:+ String "=" r). unfold stated. cbn [omap list_omap].
      unfold statement. rewrite cut_app by done. cbn [state_all]. destruct Hs as [Hs Hd].
      cbn. split; [intros x Hx; rewrite !lookup_insert_ne by done; by apply Hs|]. rewrite !lookup_insert_eq. cbn [default from_option id].
      rewrite <-Hd. symmetry. eapply path_added; [done|]. by rewrite Ea.
  - destruct (bool_decide_reflect (base !! k = Some v)) as [E|E].
    + cbn. rewrite bool_decide_eq_false_2 by done. rewrite (Hb k v) by done. by rewrite bool_decide_eq_true_2.
    + unfold stated. cbn [omap list_omap]. unfold statement. rewrite Ec. cbn [state_all].
      pose proof (state_step_same a b (k, v) Hs) as H. by destruct (state_step a (k, v)), (state_step b (k, v)).
Qed.

Lemma delta_entries base env : ∀ a b,
  states_base base a → same_env a b →
  option_same (state_all a (stated env)) (state_all b (stated (flat_map (delta_entry base) env))).
Proof.
  induction env as [|kv env IH]; intros a b Hb Hs; [done|].
  cbn [flat_map]. unfold stated at 2. rewrite omap_app. fold (stated (delta_entry base kv)) (stated (flat_map (delta_entry base) env)).
  rewrite state_all_app. pose proof (delta_entry_step base a b kv Hb Hs) as H.
  assert (state_all a (stated (kv :: env)) = (a' ← (match statement kv with Some s => state_step a s | None => Some a end); state_all a' (stated env))) as ->.
  { unfold stated. cbn. by destruct (statement kv). }
  destruct (match statement kv with Some s => state_step a s | None => Some a end) as [a'|] eqn:Ea;
    destruct (state_all b (stated (delta_entry base kv))) as [b'|]; try done. cbn [mbind option_bind].
  apply IH; [|done]. destruct (statement kv) as [s|]; [by eapply state_step_base|by injection Ea as <-].
Qed.

(** ** Composition over the base *)

(** One mixin over a workload. *)
Lemma merge_one s m :
  match Merge s [m] with
  | Ok image => counts s ∧ counts m ∧
      gathered (mkAssembled (Input_Config s) (Layers (Input_Manifest s))) [m] image ∧
      ∃ a, state_all (env_map (image_env s)) (stated_by m) = Some a ∧
      (∀ k, k ≠ "PATH" → env_map (Env (Image_Config (Config image))) !! k = a !! k) ∧
      (length (values "PATH" (image_env s)) ≤ 1 → env_map (Env (Image_Config (Config image))) !! "PATH" = a !! "PATH")
  | Err _ => ¬ (counts s ∧ counts m ∧ is_Some (state_all (env_map (image_env s)) (stated_by m)))
  end.
Proof.
  unfold Merge, counts at 1 3. case_bool_decide as Hc; cbn [negb]; [|by intros [? _]].
  pose proof (merge_mixins_spec [m] _ _ (tracks_sandbox s)) as H. rewrite new_owners_env in H.
  cbn [flat_map] in H. rewrite app_nil_r in H.
  destruct (merge_mixins _ _) as [[o image]|e]; cbn [mbind result_bind snd].
  - destruct H as (Hcs & Hs & [[Hr Hp] _] & Hg & Hn). apply Forall_cons in Hcs as [Hm _].
    split; [done|]. split; [done|]. split; [done|]. exists (owned (owned_env o)). split; [done|]. split; [done|].
    intros Hl. by apply Hp, Hn.
  - intros (_ & Hm & Hs). apply H. split; [|done]. by repeat constructor.
Qed.

Definition with_image_config (c : ImageConfig) (m : Input) : Input :=
  mkInput (Name m) (Input_Manifest m)
    (mkOciImage (Image_Platform (Input_Config m)) c (RootFS_Type (Input_Config m)) (DiffIDs (Input_Config m))
       (Image_History (Input_Config m))).

Lemma state_all_delta s m upper :
  let lower := Image_Config (Input_Config s) in
  option_same (state_all (env_map (image_env s)) (stated_by (with_image_config upper m)))
    (state_all (env_map (image_env s)) (stated_by (with_image_config (configDelta lower upper) m))).
Proof.
  cbn zeta. unfold stated_by, image_env at 2 4. cbn [with_image_config Input_Config Image_Config configDelta Env].
  rewrite envMap_env_map. apply delta_entries; [|done]. split; [done|]. by intros e.
Qed.

Lemma labels_delta (lower upper : gmap string string) :
  lower ∪ filter (λ kv, lower !! kv.1 ≠ Some kv.2) upper = lower ∪ upper.
Proof.
  apply map_eq. intros k. rewrite !lookup_union. destruct (lower !! k) as [v|] eqn:E; [by rewrite !union_Some_l|].
  f_equal. apply option_eq. intros x. rewrite map_lookup_filter_Some. cbn. rewrite E. naive_solver.
Qed.
Lemma union_delta (lower upper : gset string) : lower ∪ ⋃ [upper ∖ lower] = lower ∪ ⋃ [upper].
Proof. apply set_eq. intros x. cbn. destruct (decide (x ∈ lower)); set_solver. Qed.

(** *** What the delta states *)

(** The path elements some statements add up to. *)
Definition path_element (env : list string) (e : string) : Prop :=
  e ≠ "" ∧ ∃ v, ("PATH", v) ∈ stated env ∧ e ∈ split ":" v.

(** A setting of its own, where it is not the base's. *)
Definition changed_setting {A} (zero lower upper delta : A) : Prop :=
  (upper = lower → delta = zero) ∧ (upper ≠ lower → delta = upper).
Lemma changed_spec {A} `{EqDecision A} (zero lower upper : A) : changed_setting zero lower upper (changed zero lower upper).
Proof. unfold changed. split; intros H; by case_bool_decide. Qed.

(** The delta states what the recipe's result states and its base does not. *)
Record only_changes (lower upper delta : ImageConfig) : Prop := {
  changed_variables : ∀ k v, k ≠ "PATH" →
    (k, v) ∈ stated (Env delta) ↔ (k, v) ∈ stated (Env upper) ∧ env_map (Env lower) !! k ≠ Some v;
  changed_path : ∀ e, path_element (Env delta) e ↔
    path_element (Env upper) e ∧ e ∉ split ":" (default "" (env_map (Env lower) !! "PATH"));
  changed_ports : ∀ p, p ∈ ExposedPorts delta ↔ p ∈ ExposedPorts upper ∧ p ∉ ExposedPorts lower;
  changed_volumes : ∀ p, p ∈ Volumes delta ↔ p ∈ Volumes upper ∧ p ∉ Volumes lower;
  changed_labels : ∀ k v, Labels delta !! k = Some v ↔ Labels upper !! k = Some v ∧ Labels lower !! k ≠ Some v;
  changed_user : changed_setting "" (User lower) (User upper) (User delta);
  changed_entrypoint : changed_setting [] (Entrypoint lower) (Entrypoint upper) (Entrypoint delta);
  changed_cmd : changed_setting [] (Cmd lower) (Cmd upper) (Cmd delta);
  changed_directory : changed_setting "" (WorkingDir lower) (WorkingDir upper) (WorkingDir delta);
  changed_signal : changed_setting "" (StopSignal lower) (StopSignal upper) (StopSignal delta);
}.

Lemma stated_elem env k v : (k, v) ∈ stated env ↔ ∃ kv, kv ∈ env ∧ cut "=" kv = (k, v, true).
Proof.
  unfold stated. rewrite list_elem_of_omap. split; intros (kv & Hin & H); exists kv; (split; [done|]); unfold statement in *.
  - destruct (cut "=" kv) as [[k' v'] []]; [by injection H as <- <-|done].
  - by rewrite H.
Qed.

Lemma delta_variables base env k v :
  k ≠ "PATH" → (k, v) ∈ stated (flat_map (delta_entry base) env) ↔ (k, v) ∈ stated env ∧ base !! k ≠ Some v.
Proof.
  intros Hk. rewrite !stated_elem. setoid_rewrite elem_of_flat_map. split.
  - intros (kv & (kv' & Hin & Hd) & Hc). unfold delta_entry in Hd. destruct (cut "=" kv') as [[k' v'] []] eqn:Ec; [|by apply elem_of_nil in Hd].
    case_bool_decide as Hp.
    + destruct (pathElementsNotIn _ _) as [|e l]; [by apply elem_of_nil in Hd|]. apply list_elem_of_singleton in Hd as ->.
      revert Hc. change ("PATH=" +:+ ?r) with ("PATH" +:+ String "=" r). rewrite cut_app by done. by intros [= <- _].
    + case_bool_decide; [by apply elem_of_nil in Hd|]. apply list_elem_of_singleton in Hd as ->.
      rewrite Ec in Hc. injection Hc as <- <-. split; [by exists kv'|done].
  - intros [(kv & Hin & Hc) Hb]. exists kv. split; [|done]. exists kv. split; [done|]. unfold delta_entry. rewrite Hc.
    rewrite !bool_decide_eq_false_2 by done. by left.
Qed.

Lemma path_elements_elem v lower e :
  e ∈ pathElementsNotIn v lower ↔ e ≠ "" ∧ e ∈ split ":" v ∧ e ∉ split ":" lower.
Proof. rewrite path_elements_not_in, dedupe_from_id_elem, elem_of_filter_bool, nonempty_elem. tauto. Qed.

Lemma delta_path base env e :
  path_element (flat_map (delta_entry base) env) e ↔
  path_element env e ∧ e ∉ split ":" (default "" (base !! "PATH")).
Proof.
  unfold path_element. setoid_rewrite stated_elem. setoid_rewrite elem_of_flat_map. split.
  - intros (He & v & (kv & (kv' & Hin & Hd) & Hc) & Hv). unfold delta_entry in Hd.
    destruct (cut "=" kv') as [[k' v'] []] eqn:Ec; [|by apply elem_of_nil in Hd]. case_bool_decide as Hp.
    + destruct (pathElementsNotIn _ _) as [|e' l] eqn:Ep; [by apply elem_of_nil in Hd|]. apply list_elem_of_singleton in Hd as ->.
      revert Hc. change ("PATH=" +:+ ?r) with ("PATH" +:+ String "=" r). rewrite cut_app by done. rewrite <-Ep. intros [= <-].
      rewrite split_join in Hv; [|by rewrite Ep|apply path_elements_free].
      apply path_elements_elem in Hv as (_ & Hv & Hn). split; [split; [done|]|done]. exists v'. subst. split; [by exists kv'|done].
    + case_bool_decide; [by apply elem_of_nil in Hd|]. apply list_elem_of_singleton in Hd as ->. congruence.
  - intros [(He & v & (kv & Hin & Hc) & Hv) Hn]. split; [done|].
    assert (e ∈ pathElementsNotIn v (default "" (base !! "PATH"))) as Ha by by apply path_elements_elem.
    exists (join ":" (pathElementsNotIn v (default "" (base !! "PATH")))). split.
    + exists ("PATH" +:+ String "=" (join ":" (pathElementsNotIn v (default "" (base !! "PATH"))))).
      split; [|by apply cut_app]. exists kv. split; [done|]. unfold delta_entry. rewrite Hc, bool_decide_eq_true_2 by done.
      destruct (pathElementsNotIn _ _); [by apply elem_of_nil in Ha|by left].
    + rewrite split_join; [done|intros E; rewrite E in Ha; by apply elem_of_nil in Ha|apply path_elements_free].
Qed.

Lemma configDelta_changes lower upper : only_changes lower upper (configDelta lower upper).
Proof.
  split; cbn [configDelta Env User ExposedPorts Entrypoint Cmd Volumes WorkingDir Labels StopSignal]; rewrite ?envMap_env_map;
    try apply changed_spec.
  - intros k v. apply delta_variables.
  - apply delta_path.
  - intros p. by rewrite elem_of_difference.
  - intros p. by rewrite elem_of_difference.
  - intros k v. by rewrite map_lookup_filter_Some.
Qed.

(** ** Properties *)

(** C36: A mixin's configuration is reduced to exactly what its recipe's result states
    and the base does not: the variables the base does not have at that value, the path elements
    it lacks, its own ports, volumes and labels, and a user, entrypoint, command, directory or stop
    signal where it changed.  Over the recipe's own base the reduced configuration composes as
    the whole would: it is refused in the same cases (an overridden variable), and the image has
    the same layers, contract, ports, volumes and labels, every variable the
    result states at its value, and, where the base states no more than one path, the same
    environment, its path holding every element the result's has. *)
Theorem delta_composes (s m : Input) (upper : ImageConfig) :
  let lower := Image_Config (Input_Config s) in
  let delta := configDelta lower upper in
  let whole := Merge s [with_image_config upper m] in
  let reduced := Merge s [with_image_config delta m] in
  only_changes lower upper delta ∧
  is_ok whole = is_ok reduced ∧
  ∀ w r, whole = Ok w → reduced = Ok r →
    Image_Layers w = Image_Layers r ∧ DiffIDs (Config w) = DiffIDs (Config r) ∧ contract (Config w) = contract (Config r) ∧
    ExposedPorts (Image_Config (Config w)) = ExposedPorts (Image_Config (Config r)) ∧
    Volumes (Image_Config (Config w)) = Volumes (Image_Config (Config r)) ∧
    Labels (Image_Config (Config w)) = Labels (Image_Config (Config r)) ∧
    (∀ k v, (k, v) ∈ stated (Env upper) → k ≠ "PATH" → env_map (Env (Image_Config (Config r))) !! k = Some v) ∧
    (length (values "PATH" (Env lower)) ≤ 1 →
     same_env (env_map (Env (Image_Config (Config w)))) (env_map (Env (Image_Config (Config r)))) ∧
     ∀ e, path_element (Env upper) e → e ∈ split ":" (default "" (env_map (Env (Image_Config (Config r))) !! "PATH"))).
Proof.
  cbn zeta. set (lower := Image_Config (Input_Config s)). set (delta := configDelta lower upper).
  pose proof (merge_one s (with_image_config upper m)) as Hw. pose proof (merge_one s (with_image_config delta m)) as Hr.
  pose proof (state_all_delta s m upper) as Hs. cbn zeta in Hs. fold lower delta in Hs.
  split; [apply configDelta_changes|]. split.
  - destruct (Merge s [with_image_config upper m]) as [w|]; destruct (Merge s [with_image_config delta m]) as [r|]; try done.
    + destruct Hw as (Hcs & Hcm & _ & a & Ha & _). exfalso. apply Hr. split; [done|]. split; [done|].
      rewrite Ha in Hs. destruct (state_all _ (stated_by (with_image_config delta m))); [by eexists|done].
    + destruct Hr as (Hcs & Hcm & _ & a & Ha & _). exfalso. apply Hw. split; [done|]. split; [done|].
      rewrite Ha in Hs. destruct (state_all _ (stated_by (with_image_config upper m))); [by eexists|done].
  - intros w r Ew Er. rewrite Ew in Hw. rewrite Er in Hr.
    destruct Hw as (_ & _ & Gw & a & Ha & Hwe & Hwp). destruct Hr as (_ & _ & Gr & b & Hb & Hre & Hrp).
    rewrite Ha, Hb in Hs. destruct Hs as [Hsame Hpath].
    rewrite (gathered_layers _ _ _ Gw), (gathered_layers _ _ _ Gr), (gathered_diffIDs _ _ _ Gw), (gathered_diffIDs _ _ _ Gr),
      (gathered_contract _ _ _ Gw), (gathered_contract _ _ _ Gr), (gathered_ports _ _ _ Gw), (gathered_ports _ _ _ Gr),
      (gathered_volumes _ _ _ Gw), (gathered_volumes _ _ _ Gr), (gathered_labels _ _ _ Gw), (gathered_labels _ _ _ Gr).
    cbn [map image_labels with_image_config Input_Config Image_Config Config delta configDelta ExposedPorts Volumes Labels]. fold lower.
    split_and!; try done.
    + symmetry. apply union_delta.
    + symmetry. apply union_delta.
    + cbn [union_list foldr]. rewrite !(right_id_L ∅ (∪)). symmetry. apply labels_delta.
    + intros k v Hin Hk. rewrite Hre, <-Hsame by done.
      destruct (state_all_stated _ _ _ _ _ Ha Hin) as [Hst _]. apply Hst; [done|]. apply lookup_singleton_eq.
    + intros Hl. split; [split; [intros k Hk; by rewrite Hwe, Hre, Hsame|by rewrite Hwp, Hrp]|].
      intros e (He & v & Hin & Hv). rewrite Hrp, <-Hpath by done.
      destruct (state_all_stated _ _ _ _ _ Ha Hin) as [_ Hst]. rewrite lookup_singleton_eq in Hst. by apply Hst.
Qed.

Definition recipe_result : ImageConfig :=
  mkImageConfig "root" ∅ ["PATH=/opt/git:/bin:/usr/bin"; "LANG=C"; "EDITOR=vi"] ["/bin/sh"] ["-l"] ∅ "/" {[ "title" := "git" ]} "".
Lemma delta_composes_witness :
  let s := sample_input "base" ["PATH=/bin:/usr/bin"; "LANG=C"] "d0" in
  let m := sample_input "git" [] "d1" in
  let delta := configDelta (Image_Config (Input_Config s)) recipe_result in
  Env delta = ["PATH=/opt/git"; "EDITOR=vi"] ∧
  ∃ w r, Merge s [with_image_config recipe_result m] = Ok w ∧ Merge s [with_image_config delta m] = Ok r ∧
    Env (Image_Config (Config r)) = ["PATH=/bin:/usr/bin:/opt/git"; "LANG=C"; "EDITOR=vi"] ∧
    same_env (env_map (Env (Image_Config (Config w)))) (env_map (Env (Image_Config (Config r)))).
Proof.
  cbv zeta. split; [by vm_compute|]. eexists _, _. split; [by vm_compute|]. split; [by vm_compute|]. split; [by vm_compute|].
  destruct (delta_composes (sample_input "base" ["PATH=/bin:/usr/bin"; "LANG=C"] "d0") (sample_input "git" [] "d1") recipe_result)
    as (_ & _ & H).
  eapply H; [by vm_compute..|by vm_compute; repeat constructor].
Defined.
