(* ===== verification/GoNet.v ===== *)
(** Go's [net] package as [tck/kit] calls it: [SplitHostPort], and whether what
    [ParseIP] reads is a loopback address. *)
From stdpp Require Import options.
From S2P Require Import Prelude GoStrings Version VersionOrder.

Definition colon : ascii := ":".

Fixpoint index_byte (c : ascii) (s : string) : option nat :=
  match s with
  | "" => None
  | String d s => if bool_decide (c = d) then Some 0 else S <$> index_byte c s
  end.

(** The host; [None] where the library answers an error. *)
Definition SplitHostPort (hostport : string) : option string :=
  match last_index colon hostport with
  | None => None
  | Some i =>
      if has_prefix "[" hostport then
        match index_byte "]" hostport with
        | None => None
        | Some e =>
            if negb (S e =? i) then None
            else if contains_byte "[" (str_drop 1 hostport) || contains_byte "]" (str_drop (S e) hostport) then None
            else Some (str_take (e - 1) (str_drop 1 hostport))
        end
      else
        let host := str_take i hostport in
        if contains_byte colon host || contains_byte "[" hostport || contains_byte "]" hostport then None else Some host
  end.

(** ** Addresses, as their eight groups *)

Definition octet (s : string) : option N :=
  if bool_decide (s = "") || negb (str_forall is_digit s) || (1 <? String.length s) && has_prefix "0" s then None
  else let v := digits_value 0 s in if (v <? 256)%N then Some v else None.
Definition parseIPv4 (s : string) : option (list N) :=
  match mapM octet (split "." s) with
  | Some [a; b; c; d] => Some [a * 256 + b; c * 256 + d]%N
  | _ => None
  end.

Definition hex_digit (c : ascii) : option N :=
  let n := N_of_ascii c in
  if is_digit c then Some (n - 48)%N
  else if byte_in "a" "f" c then Some (n - 87)%N
  else if byte_in "A" "F" c then Some (n - 55)%N
  else None.
(** The digits before anything else, their value, and what follows. *)
Fixpoint hex_span (acc : N) (s : string) : nat * N * string :=
  match s with
  | String c s' =>
      match hex_digit c with
      | Some d => let '(n, v, rest) := hex_span (acc * 16 + d) s' in (S n, v, rest)
      | None => (0, acc, s)
      end
  | "" => (0, acc, "")
  end.

(** [left] groups may follow the [i] read; the ellipsis stands before group [e]. *)
Fixpoint v6_groups (left_ i : nat) (groups : list N) (e : option nat) (s : string) : option (list N * option nat * string) :=
  match left_ with
  | O => Some (groups, e, s)
  | S left_ =>
      let '(n, v, rest) := hex_span 0 s in
      if (n =? 0) || (4 <? n) then None
      else if has_prefix "." rest then
        if negb (i =? 6) && (bool_decide (e = None) || (6 <? i)) then None
        else match parseIPv4 s with Some v4 => Some (groups ++ v4, e, "") | None => None end
      else
        let groups := groups ++ [v] in
        match rest with
        | "" => Some (groups, e, "")
        | String c rest =>
            if negb (bool_decide (c = colon)) || bool_decide (rest = "") then None
            else if has_prefix ":" rest then
              if bool_decide (is_Some e) then None
              else
                let rest := str_drop 1 rest in
                if bool_decide (rest = "") then Some (groups, Some (S i), "") else v6_groups left_ (S i) groups (Some (S i)) rest
            else v6_groups left_ (S i) groups e rest
        end
  end.
Definition parseIPv6 (s : string) : option (list N) :=
  let '(e, s) := if has_prefix "::" s then (Some 0, str_drop 2 s) else (None, s) in
  if bool_decide (e = Some 0) && bool_decide (s = "") then Some (replicate 8 0%N)
  else
    '(groups, e, rest) ← v6_groups 8 0 [] e s;
    if negb (bool_decide (rest = "")) then None
    else
      match e with
      | None => if length groups =? 8 then Some groups else None
      | Some at_ =>
          if length groups =? 8 then None
          else Some (take at_ groups ++ replicate (8 - length groups) 0%N ++ drop at_ groups)
      end.

(** The first separator decides the family; a zone is no address here. *)
Definition ParseIP (s : string) : option (list N) :=
  match List.find (λ c, bool_decide (c = "."%char) || bool_decide (c = colon) || bool_decide (c = "%"%char)) (String.list_ascii_of_string s) with
  | Some c =>
      if bool_decide (c = "."%char) then option_map (app [0; 0; 0; 0; 0; 65535]%N) (parseIPv4 s)
      else if bool_decide (c = colon) then parseIPv6 s else None
  | None => None
  end.
Definition IsLoopback (ip : list N) : bool :=
  bool_decide (take 6 ip = [0; 0; 0; 0; 0; 65535]%N) && (List.nth 6%nat ip 0 / 256 =? 127)%N ||
  bool_decide (ip = [0; 0; 0; 0; 0; 0; 0; 1]%N).

Example loopback_samples :
  map (λ s, IsLoopback <$> ParseIP s) ["127.0.0.1"; "127.1.2.3"; "::1"; "::ffff:127.0.0.1"; "0:0:0:0:0:0:0:1"; "10.0.0.1"; "::2"] =
  [Some true; Some true; Some true; Some true; Some true; Some false; Some false].
Proof. by vm_compute. Qed.
Example addresses_refused :
  map ParseIP ["127.0.0"; "127.0.0.01"; "1::2::3"; "::1%lo"; "12345::"; "1:2:3:4:5:6:7:8:9"; "localhost"; ""] = replicate 8 None.
Proof. by vm_compute. Qed.
Example host_ports :
  map SplitHostPort ["localhost:5000"; "[::1]:5000"; "::1:5000"; "localhost"; "[::1]"; "a:b]:1"] =
  [Some "localhost"; Some "::1"; None; None; None; None].
Proof. by vm_compute. Qed.
