(* ===== verification/Yaml.v ===== *)
(** Documents as the YAML library's node trees, and the sources that rewrite them in
    place to keep the author's comments and order: [ExpandBuildArgs]
    ([spec/expand.go]), [withDerivedProvides] and [rewriteContentFile]
    ([cmd/frontend/build.go]).

    A node's [node_id] stands for its address; an alias holds its target's. *)
From stdpp Require Import options.
From S2P Require Import Prelude Diagnostics GoStrings Version VersionOrder Json Types Config Marshal Template Merge Validate Expand.

Inductive node := mkNode {
  node_id : nat;
  node_kind_ : node_kind;
  node_style : Z;
  node_tag : string;
  node_value : string;
  node_anchor : string;
  HeadComment : string;
  LineComment : string;
  FootComment : string;
  node_content : list node;
  node_alias : option nat;
}.

Definition set_scalar (style : Z) (tag value : string) (n : node) : node :=
  mkNode (node_id n) (node_kind_ n) style tag value (node_anchor n) (HeadComment n) (LineComment n) (FootComment n)
    (node_content n) (node_alias n).
Definition set_content (content : list node) (n : node) : node :=
  mkNode (node_id n) (node_kind_ n) (node_style n) (node_tag n) (node_value n) (node_anchor n) (HeadComment n)
    (LineComment n) (FootComment n) content (node_alias n).
Definition set_comments (h l f : string) (n : node) : node :=
  mkNode (node_id n) (node_kind_ n) (node_style n) (node_tag n) (node_value n) (node_anchor n) h l f
    (node_content n) (node_alias n).
Definition set_anchor (anchor : string) (n : node) : node :=
  mkNode (node_id n) (node_kind_ n) (node_style n) (node_tag n) (node_value n) anchor (HeadComment n) (LineComment n)
    (FootComment n) (node_content n) (node_alias n).
(** [*n = m] at the address of [n]. *)
Definition placed (n m : node) : node :=
  mkNode (node_id n) (node_kind_ m) (node_style m) (node_tag m) (node_value m) (node_anchor m) (HeadComment m)
    (LineComment m) (FootComment m) (node_content m) (node_alias m).

(** The library: parsing and rendering of trees, what a scalar decodes to, and what
    a value is encoded as. *)
Class YamlNodes := {
  parse_node : string → result string node;
  render_node : node → result string string;
  DoubleQuotedStyle : Z;
  (** [Some] where the scalar decodes to a string. *)
  decode_text : node → result string (option string);
  (** A key's text. *)
  decode_key : node → result string string;
  (** [Node.SetString]: the tag and value, and the style from the one before. *)
  string_scalar : string → string * string;
  string_style : string → Z → Z;
}.

(** Every node of a tree. *)
Fixpoint nodes_of (n : node) : list node := n :: flat_map nodes_of (node_content n).
Definition find_node (root : node) (target : nat) : option node :=
  List.find (λ n, bool_decide (node_id n = target)) (nodes_of root).

(** The value of a mapping's first entry with the key. *)
Fixpoint first_value (key : string) (content : list node) : option node :=
  match content with
  | k :: v :: content => if bool_decide (node_value k = key) then Some v else first_value key content
  | _ => None
  end.
Definition mappingValue (n : node) (key : string) : option node :=
  if bool_decide (node_kind_ n = MappingNode) then first_value key (node_content n) else None.

Section Build.
Context `{Documents} `{YamlNodes}.

(** ** [ExpandBuildArgs] *)

Inductive build_expand_error :=
  | BuildNotParsed (cause : string)
  | BuildNotRendered (cause : string)
  | BuildUndecodable (cause : string)
  | BuildUnresolved (name : string)
  | BuildKeysCollapse (name : string).

(** [resolveRef] of the build phase: [None] for an argument of the other phase. *)
Definition resolve_build (decls : gmap string Arg) (values : gmap string string) (name : string) :
    result build_expand_error (option string) :=
  if match decls !! name with Some a => negb (bool_decide (Arg_BuildArg a = "")) | None => false end then
    match values !! name with Some v => Ok (Some v) | None => Err (BuildUnresolved name) end
  else Ok None.

Fixpoint expand_build_pieces (decls : gmap string Arg) (values : gmap string string) (ps : list piece) :
    result build_expand_error string :=
  match ps with
  | [] => Ok ""
  | Text t :: ps => rest ← expand_build_pieces decls values ps; Ok (t +:+ rest)
  | Match m :: ps =>
      v ← resolve_build decls values (ref_name "kit.args." m);
      rest ← expand_build_pieces decls values ps;
      Ok (default m v +:+ rest)
  end.
Definition expand_build_string (decls : gmap string Arg) (values : gmap string string) (s : string) :
    result build_expand_error string := expand_build_pieces decls values (pieces argRef 0 s).
Definition expand_build_scalar (decls : gmap string Arg) (values : gmap string string) (s : string) :
    result build_expand_error value :=
  match pieces argRef 0 s with
  | [Match m] =>
      v ← resolve_build decls values (ref_name "kit.args." m);
      Ok match v with Some v => typedScalar v | None => VStr s end
  | _ => VStr <$> expand_build_string decls values s
  end.

(** The tag and value a node is given for an expanded value. *)
Definition unsigned_literal (lit : string) : bool :=
  negb (bool_decide (lit = "")) && allDigits lit && (digits_value 0 lit <? 18446744073709551616)%N.
Definition encode_scalar (v : value) : string * string :=
  match v with
  | VBool b => ("!!bool", if b then "true" else "false")
  | VNum (NInt z) => ("!!int", pretty z)
  | VNum (NFloat lit) => (if unsigned_literal lit then "!!int" else "!!float", lit)
  | VStr s => string_scalar s
  | _ => ("!!null", "null")
  end.

(** The scalars with an anchor as they were, and what they became. *)
Record build_state := mkBuildState { originals : gmap nat node; became : gmap nat (string * string) }.

Definition expand_comments (decls : gmap string Arg) (values : gmap string string) (n : node) :
    result build_expand_error node :=
  h ← expand_build_string decls values (HeadComment n);
  l ← expand_build_string decls values (LineComment n);
  f ← expand_build_string decls values (FootComment n);
  Ok (set_comments h l f n).

Definition expand_text (decls : gmap string Arg) (values : gmap string string) (key : bool) (t : string) :
    result build_expand_error value :=
  if key then VStr <$> expand_build_string decls values t else expand_build_scalar decls values t.
(** The style a node keeps: what is not a string is written plain. *)
Definition scalar_style (n : node) (v : value) (tag : string) : Z :=
  if bool_decide (tag = "!!str")
  then (if bool_decide (v = VStr "<<") then Z.lor (node_style n) DoubleQuotedStyle else node_style n) else 0.

(** A node's comments and, of a scalar, its value. *)
Definition expand_leaf (decls : gmap string Arg) (values : gmap string string) (key : bool) (n : node) (st : build_state) :
    result build_expand_error (node * build_state) :=
  n ← expand_comments decls values n;
  if negb (bool_decide (node_kind_ n = ScalarNode)) then Ok (n, st)
  else
    decoded ← map_err BuildUndecodable (decode_text n);
    match decoded with
    | Some t =>
        if negb (ContainsArgRef t) then Ok (n, st)
        else
          v ← expand_text decls values key t;
          let '(tag, val) := encode_scalar v in
          Ok (set_scalar (scalar_style n v tag) tag val n,
              if bool_decide (node_anchor n = "") then st
              else mkBuildState (<[node_id n := n]> (originals st)) (<[node_id n := (tag, val)]> (became st)))
    | None => Ok (n, st)
    end.

(** An alias of an expanded scalar is detached where its use reads differently. *)
Definition expand_alias (decls : gmap string Arg) (values : gmap string string) (key : bool) (n o : node)
    (now : string * string) (st : build_state) : result build_expand_error (node * build_state) :=
  let o := set_comments (HeadComment n) (LineComment n) (FootComment n) (set_anchor "" o) in
  '(o, st) ← expand_leaf decls values key o st;
  Ok (if bool_decide ((node_tag o, node_value o) = now)
      then set_comments (HeadComment o) (LineComment o) (FootComment o) n else placed n o, st).

(** What a key reads as: an alias as its target now is. *)
Definition key_text (root : node) (st : build_state) (child : node) : result build_expand_error string :=
  map_err BuildUndecodable
    (decode_key
       match node_alias child with
       | Some target =>
           match find_node root target with
           | Some t => match became st !! target with Some (tag, val) => set_scalar (node_style t) tag val t | None => t end
           | None => child
           end
       | None => child
       end).
Definition note_key (root : node) (st : build_state) (is_key : bool) (child : node) (keys : list string) :
    result build_expand_error (list string) :=
  if is_key && negb (bool_decide (node_tag child = "!!merge")) then
    name ← key_text root st child;
    if bool_decide (name ∈ keys) then Err (BuildKeysCollapse name) else Ok (name :: keys)
  else Ok keys.

Fixpoint expand_build (decls : gmap string Arg) (values : gmap string string) (root : node) (key : bool) (n : node)
    (st : build_state) : result build_expand_error (node * build_state) :=
  match match node_alias n with
        | Some target =>
            if bool_decide (node_kind_ n = AliasNode)
            then match originals st !! target, became st !! target with Some o, Some now => Some (o, now) | _, _ => None end
            else None
        | None => None
        end with
  | Some (o, now) => expand_alias decls values key n o now st
  | None =>
      '(m, st) ← expand_leaf decls values key n st;
      let mapping := bool_decide (node_kind_ n = MappingNode) in
      '(content, st) ←
        (fix children (is_key : bool) (l : list node) (st : build_state) (keys : list string) :
            result build_expand_error (list node * build_state) :=
          match l with
          | [] => Ok ([], st)
          | child :: l =>
              '(child, st) ← expand_build decls values root (mapping && is_key) child st;
              keys ← note_key root st (mapping && is_key) child keys;
              '(l, st) ← children (negb is_key) l st keys;
              Ok (child :: l, st)
          end) true (node_content n) st [];
      Ok (set_content content m, st)
  end.

Definition ExpandBuildArgs (raw : string) (decls : gmap string Arg) (values : gmap string string) :
    result build_expand_error string :=
  doc ← map_err BuildNotParsed (parse_node raw);
  '(doc, _) ← expand_build decls values doc false doc (mkBuildState ∅ ∅);
  map_err BuildNotRendered (render_node doc).

(** ** [withDerivedProvides] *)

Inductive amend_error :=
  | AmendNotParsed (cause : string)
  | AmendNotRendered (cause : string)
  | AmendUndecodable (cause : decode_error)
  | NotAMapping
  | ProvidesShared (anchor : string)
  | ProvidesNotAList
  | AmendedInvalid (derived : nat) (errs : list FieldError)
  | ContentFileAbsent (contentFile : string).

(** Something other than the target and what is under it aliases the target. *)
Fixpoint aliasedElsewhere (n target : node) : bool :=
  if bool_decide (node_id n = node_id target) then false
  else if bool_decide (node_kind_ n = AliasNode) then bool_decide (node_alias n = Some (node_id target))
  else existsb (λ child, aliasedElsewhere child target) (node_content n).

(** A node the code allocates: no document's node has its address. *)
Definition fresh_id (root : node) : nat := S (foldr (λ n, Nat.max (node_id n)) 0 (nodes_of root)).
Definition new_scalar (id : nat) (v : string) : node := mkNode id ScalarNode 0 "!!str" v "" "" "" "" [] None.
Definition new_scalars (id : nat) (l : list string) : list node := imap (λ i v, new_scalar (id + i) v) l.

(** Where the derived entries go: the list node the field now is. *)
Definition provides_list (root provides : node) : result amend_error node :=
  match node_kind_ provides with
  | ScalarNode =>
      if bool_decide (node_tag provides = "!!null")
      then Ok (mkNode (node_id provides) SequenceNode (node_style provides) "!!seq" "" (node_anchor provides)
                 (HeadComment provides) (LineComment provides) (FootComment provides) (node_content provides)
                 (node_alias provides))
      else Err ProvidesNotAList
  | AliasNode =>
      match node_alias provides with
      | Some target =>
          match find_node root target with
          | Some t =>
              if bool_decide (node_kind_ t = SequenceNode) then Ok (placed provides (set_anchor "" t))
              else Err ProvidesNotAList
          | None => Err ProvidesNotAList
          end
      | None => Err ProvidesNotAList
      end
  | SequenceNode =>
      if negb (bool_decide (node_anchor provides = "")) && aliasedElsewhere root provides
      then Err (ProvidesShared (node_anchor provides)) else Ok provides
  | _ => Err ProvidesNotAList
  end.

(** The value of the first entry with the key replaced. *)
Fixpoint replace_value (key : string) (v : node) (content : list node) : list node :=
  match content with
  | k :: v' :: content =>
      if bool_decide (node_value k = key) then k :: v :: content else k :: v' :: replace_value key v content
  | content => content
  end.

Definition amend_root (derived : list string) (root : node) : result amend_error node :=
  if negb (bool_decide (node_kind_ root = MappingNode)) then Err NotAMapping
  else
    let id := fresh_id root in
    match mappingValue root "provides" with
    | None =>
        Ok (set_content
              (node_content root ++
               [new_scalar id "provides";
                mkNode (S id) SequenceNode 0 "!!seq" "" "" "" "" "" (new_scalars (S (S id)) derived) None]) root)
    | Some provides =>
        field ← provides_list root provides;
        Ok (set_content
              (replace_value "provides"
                 (set_content (node_content field ++ new_scalars id derived) field) (node_content root)) root)
    end.
(** The root of a document is the document node's content. *)
Definition at_root {E} (f : node → result E node) (doc : node) : result E node :=
  match node_kind_ doc, node_content doc with
  | DocumentNode, root :: rest => root ← f root; Ok (set_content (root :: rest) doc)
  | _, _ => f doc
  end.

Definition withDerivedProvides (published : string) (derived : list string) : result amend_error (string * Descriptor) :=
  doc ← map_err AmendNotParsed (parse_node published);
  doc ← at_root (amend_root derived) doc;
  out ← map_err AmendNotRendered (render_node doc);
  pd ← map_err AmendUndecodable (Decode out);
  match (ValidatePublished out pd).2 with
  | [] => Ok (out, pd)
  | errs => Err (AmendedInvalid (length derived) errs)
  end.

(** ** [rewriteContentFile] *)

(** What a field reads as: through an alias its target. *)
Definition resolved_value (root field : node) : string :=
  match node_kind_ field, node_alias field with
  | AliasNode, Some target => match find_node root target with Some t => node_value t | None => node_value field end
  | _, _ => node_value field
  end.
(** [SetString], and no longer an alias. *)
Definition repointed (staged : string) (field : node) : node :=
  mkNode (node_id field) ScalarNode (string_style staged (node_style field)) (string_scalar staged).1 (string_scalar staged).2
    (node_anchor field) (HeadComment field) (LineComment field) (FootComment field) (node_content field) None.

(** An entry's own contentFile, when it is the one meant. *)
Definition rewrite_entry (root : node) (contentFile staged : string) (entry : node) : option node :=
  typ ← mappingValue entry "type";
  if negb (bool_decide (node_value typ = CapabilityAgentContext)) then None
  else
    config ← mappingValue entry "config";
    field ← mappingValue config "contentFile";
    if bool_decide (resolved_value root field = contentFile)
    then Some (set_content
                 (replace_value "config"
                    (set_content (replace_value "contentFile" (repointed staged field) (node_content config)) config)
                    (node_content entry)) entry)
    else None.

(** The first entry, in a group or of its own, that is the one meant; the tree's depth bounds the groups. *)
Fixpoint rewrite_first (f : node → option node) (l : list node) : option (list node) :=
  match l with
  | [] => None
  | x :: l => match f x with Some y => Some (y :: l) | None => cons x <$> rewrite_first f l end
  end.
Fixpoint rewriteContentFileNode (fuel : nat) (root : node) (contentFile staged : string) (n : node) : option node :=
  match fuel with
  | O => None
  | S fuel =>
      capabilities ← mappingValue n "capabilities";
      if negb (bool_decide (node_kind_ capabilities = SequenceNode)) then None
      else
        content ← rewrite_first (λ entry,
          match g ← mappingValue entry "group"; rewriteContentFileNode fuel root contentFile staged g with
          | Some g => Some (set_content (replace_value "group" g (node_content entry)) entry)
          | None => rewrite_entry root contentFile staged entry
          end) (node_content capabilities);
        Some (set_content (replace_value "capabilities" (set_content content capabilities) (node_content n)) n)
  end.

Definition rewriteContentFile (published contentFile staged : string) : result amend_error string :=
  doc ← map_err AmendNotParsed (parse_node published);
  doc ← at_root (λ root,
          match rewriteContentFileNode (length (nodes_of doc)) doc contentFile staged root with
          | Some root => Ok root
          | None => Err (ContentFileAbsent contentFile)
          end) doc;
  map_err AmendNotRendered (render_node doc).
End Build.
