(* ===== verification/YamlFacts.v ===== *)
(** Documents amended in place: derived entries land in the provides list and nowhere
    else, and a context file's rewrite touches one field. *)
From stdpp Require Import options.
From S2P Require Import Prelude Diagnostics GoStrings Json Types Config Validate Yaml.

(** ** Trees *)

Lemma nodes_of_self n : n ∈ nodes_of n.
Proof. destruct n. by left. Qed.
Lemma nodes_of_inv n m : m ∈ nodes_of n ↔ m = n ∨ ∃ c, c ∈ node_content n ∧ m ∈ nodes_of c.
Proof. destruct n. cbn [nodes_of]. rewrite elem_of_cons, elem_of_flat_map. cbn. naive_solver. Qed.

(** A document as the library parses it: every node at an address of its own, a mapping's
    entries in pairs, scalars and aliases without content; an alias names an anchored node
    that does not contain it (one that does is refused when the document is decoded). *)
Record wf_tree (root : node) : Prop := {
  wf_addresses : NoDup (map node_id (nodes_of root));
  wf_pairs n : n ∈ nodes_of root → node_kind_ n = MappingNode → Nat.Even (length (node_content n));
  wf_leaf n : n ∈ nodes_of root → node_kind_ n = AliasNode ∨ node_kind_ n = ScalarNode → node_content n = [];
  wf_target n : n ∈ nodes_of root → node_kind_ n = AliasNode →
    ∃ t, node_alias n = Some (node_id t) ∧ t ∈ nodes_of root ∧ node_anchor t ≠ "" ∧ node_kind_ t ≠ AliasNode ∧ n ∉ nodes_of t;
}.

Lemma wf_ids root n m : wf_tree root → n ∈ nodes_of root → m ∈ nodes_of root → node_id n = node_id m → n = m.
Proof. intros Hwf. apply (NoDup_fmap_elem node_id), (wf_addresses _ Hwf). Qed.
Lemma wf_alias root n : wf_tree root → n ∈ nodes_of root → node_kind_ n = AliasNode → node_content n = [].
Proof. intros Hwf Hn Hk. apply (wf_leaf _ Hwf); auto. Qed.

Lemma find_node_In root id m : find_node root id = Some m → m ∈ nodes_of root ∧ node_id m = id.
Proof.
  unfold find_node. intros [Hin Hid%bool_decide_eq_true]%List.find_some. by rewrite list_elem_of_In.
Qed.
Lemma find_node_unique root m :
  m ∈ nodes_of root → (∀ n, n ∈ nodes_of root → node_id n = node_id m → n = m) → find_node root (node_id m) = Some m.
Proof.
  intros Hin Huniq. destruct (find_node root (node_id m)) as [n|] eqn:E.
  - apply find_node_In in E as [Hn Hid]. by rewrite (Huniq n Hn Hid).
  - unfold find_node in E. rewrite list_elem_of_In in Hin. apply (List.find_none _ _ E) in Hin. by rewrite bool_decide_eq_true_2 in Hin.
Qed.

Lemma fresh_id_above root n : n ∈ nodes_of root → node_id n < fresh_id root.
Proof.
  unfold fresh_id. induction (nodes_of root) as [|m l IH]; [by intros ?%not_elem_of_nil|].
  intros [->|Hn]%elem_of_cons; cbn; [lia|]. specialize (IH Hn). lia.
Qed.
Lemma new_scalars_ids id l n : n ∈ new_scalars id l → id <= node_id n ∧ node_content n = [].
Proof.
  unfold new_scalars. intros (i & v & -> & _)%elem_of_lookup_imap. cbn. split; [lia|done].
Qed.

(** *** Mappings *)

(** Contents are walked in pairs. *)
Lemma pairs_ind {A} (P : list A → Prop) :
  P [] → (∀ a, P [a]) → (∀ a b l, P l → P (a :: b :: l)) → ∀ l, P l.
Proof. intros H0 H1 H2. fix IH 1. intros [|a [|b l]]; [done|apply H1|apply H2, IH]. Qed.

Lemma first_value_replace key key' v content :
  first_value key (replace_value key' v content) =
  if bool_decide (key = key') then (λ _, v) <$> first_value key content else first_value key content.
Proof.
  induction content as [|a|k w content IH] using pairs_ind; [by destruct (bool_decide _)..|].
  cbn [replace_value first_value]. destruct (bool_decide_reflect (node_value k = key')) as [E'|E']; cbn [first_value];
    destruct (bool_decide_reflect (node_value k = key)) as [E|E].
  - by rewrite bool_decide_eq_true_2 by congruence.
  - by rewrite bool_decide_eq_false_2 by congruence.
  - by rewrite bool_decide_eq_false_2 by congruence.
  - done.
Qed.
Lemma first_value_app key content k v :
  Nat.Even (length content) →
  first_value key (content ++ [k; v]) =
  match first_value key content with Some w => Some w | None => if bool_decide (node_value k = key) then Some v else None end.
Proof.
  induction content as [|a|a b content IH] using pairs_ind; [done|by intros [m Hm]; cbn in Hm; lia|].
  intros [m Hm]. cbn [app first_value]. destruct (bool_decide (node_value a = key)); [done|]. apply IH. exists (m - 1).
  cbn in Hm. lia.
Qed.
Lemma first_value_elem key content v : first_value key content = Some v → v ∈ content.
Proof.
  induction content as [|a|k w content IH] using pairs_ind; [done..|]. cbn [first_value].
  destruct (bool_decide _); [intros [= ->]; right; by left|]. intros Hv%IH. by do 2 right.
Qed.
Lemma replace_value_elem key v content m : m ∈ replace_value key v content → m = v ∨ m ∈ content.
Proof.
  induction content as [|a|k w content IH] using pairs_ind; [by auto..|]. cbn [replace_value].
  destruct (bool_decide _); rewrite !elem_of_cons; naive_solver.
Qed.
Lemma replace_value_kept key v content w m :
  first_value key content = Some w → m ∈ content → m ≠ w → m ∈ replace_value key v content.
Proof.
  induction content as [|a|k u content IH] using pairs_ind; [done..|]. cbn [replace_value first_value].
  destruct (bool_decide _); [intros [= ->]|intros Hf]; rewrite !elem_of_cons; naive_solver.
Qed.
Lemma replace_value_self key v content w : first_value key content = Some w → v ∈ replace_value key v content.
Proof.
  induction content as [|a|k u content IH] using pairs_ind; [done..|]. cbn [replace_value first_value].
  destruct (bool_decide _); [intros _; right; by left|]. intros Hv%IH. by do 2 right.
Qed.

Lemma first_value_split key v' content v :
  first_value key content = Some v → ∃ l l', content = l ++ v :: l' ∧ replace_value key v' content = l ++ v' :: l'.
Proof.
  induction content as [|a|k w content IH] using pairs_ind; [done..|]. cbn [replace_value first_value].
  destruct (bool_decide _); [intros [= ->]; by exists [k], content|].
  intros (l & l' & -> & ->)%IH. by exists (k :: w :: l), l'.
Qed.

(** ** Derived entries *)

(** The entries of the provides field, read through an alias; none where it is absent or null. *)
Definition listed (root : node) : list node :=
  match mappingValue root "provides" with
  | None => []
  | Some p =>
      match node_kind_ p, node_alias p with
      | AliasNode, Some target => match find_node root target with Some t => node_content t | None => [] end
      | _, _ => node_content p
      end
  end.

(** The field the entries are appended to: its list, and what of the tree it is. *)
Lemma provides_list_Ok root p field :
  provides_list root p = Ok field →
  node_kind_ field = SequenceNode ∧ node_id field = node_id p ∧
  (node_content field = node_content p ∨
   node_kind_ p = AliasNode ∧ ∃ target t, node_alias p = Some target ∧ find_node root target = Some t ∧ node_content field = node_content t).
Proof.
  unfold provides_list. destruct (node_kind_ p) eqn:Ek; [done| |done| |].
  - destruct (negb _ && _); [done|]. intros [= <-]. auto.
  - destruct (bool_decide (node_tag p = "!!null")); [|done]. intros [= <-]. cbn. auto.
  - destruct (node_alias p) as [target|]; [|done]. destruct (find_node root target) as [t|] eqn:Et; [|done].
    destruct (bool_decide_reflect (node_kind_ t = SequenceNode)) as [Es|]; [|done]. intros [= <-]. cbn.
    split; [done|]. split; [done|]. right. split; [done|]. by exists target, t.
Qed.

Lemma node_ind' (P : node → Prop) : (∀ n, Forall P (node_content n) → P n) → ∀ n, P n.
Proof.
  intros Hstep. fix IH 1. intros n. apply Hstep. destruct n as [id k st tg v an h l f content al]. cbn.
  induction content as [|c content IHc]; [apply Forall_nil_2|apply Forall_cons_2; [apply IH|apply IHc]].
Qed.
Lemma nodes_of_trans a b c : a ∈ nodes_of b → b ∈ nodes_of c → a ∈ nodes_of c.
Proof.
  intros Hab. induction c as [c IH] using node_ind'. rewrite Forall_forall in IH. rewrite !nodes_of_inv with (n := c).
  intros [->|(d & Hd & Hb)]; [by apply nodes_of_inv|]. right. exists d. auto.
Qed.
Lemma mappingValue_node root key p : mappingValue root key = Some p → node_kind_ root = MappingNode ∧ p ∈ node_content root.
Proof. unfold mappingValue. destruct (bool_decide_reflect (node_kind_ root = MappingNode)); [|done]. intros Hp. split; [done|by eapply first_value_elem]. Qed.
Lemma child_nodes root c m : c ∈ node_content root → m ∈ nodes_of c → m ∈ nodes_of root.
Proof. intros Hc Hm. rewrite nodes_of_inv. eauto. Qed.

(** What an amended mapping is. *)
Inductive amended (derived : list string) (root : node) : list node → Prop :=
  | amended_new fresh :
      mappingValue root "provides" = None → fresh = fresh_id root →
      amended derived root
        (node_content root ++ [new_scalar fresh "provides";
           mkNode (S fresh) SequenceNode 0 "!!seq" "" "" "" "" "" (new_scalars (S (S fresh)) derived) None])
  | amended_in p field :
      mappingValue root "provides" = Some p → provides_list root p = Ok field →
      amended derived root
        (replace_value "provides" (set_content (node_content field ++ new_scalars (fresh_id root) derived) field) (node_content root)).
Lemma amend_root_Ok derived root root' :
  amend_root derived root = Ok root' →
  node_kind_ root = MappingNode ∧ ∃ content, amended derived root content ∧ root' = set_content content root.
Proof.
  unfold amend_root. destruct (bool_decide_reflect (node_kind_ root = MappingNode)) as [Hk|]; [|done]. cbn [negb].
  split; [done|]. destruct (mappingValue root "provides") as [p|] eqn:Ep.
  - apply result_bind_Ok in H as (field & Hf & [= <-]). eexists. split; [by eapply amended_in|done].
  - injection H as <-. eexists. split; [by eapply amended_new|done].
Qed.

(** What is in it: what was, the field's list, and what is new. *)
Lemma amended_nodes derived root content n :
  amended derived root content → wf_tree root → (∃ c, c ∈ content ∧ n ∈ nodes_of c) →
  n ∈ nodes_of root ∨ fresh_id root <= node_id n ∨ ∃ p, mappingValue root "provides" = Some p ∧ node_id n = node_id p.
Proof.
  intros Ha Hwf (c & Hc & Hn). destruct Ha as [fresh Hnone ->|p field Hp Hf].
  - apply elem_of_app in Hc as [Hc|Hc]; [left; by eapply child_nodes|]. right. left.
    apply elem_of_cons in Hc as [->|[->|[]%not_elem_of_nil]%elem_of_cons]; apply nodes_of_inv in Hn as [->|(d & Hd & Hn)]; cbn in *; try lia;
      [by apply not_elem_of_nil in Hd|]. apply new_scalars_ids in Hd as [Hid He]. apply nodes_of_inv in Hn as [->|(x & Hx & _)]; [lia|].
    rewrite He in Hx. by apply not_elem_of_nil in Hx.
  - apply replace_value_elem in Hc as [->|Hc]; [|left; by eapply child_nodes].
    destruct (provides_list_Ok _ _ _ Hf) as (_ & Hid & Hcont). apply nodes_of_inv in Hn as [->|(d & Hd & Hn)]; [right; right; by exists p|].
    cbn in Hd. apply elem_of_app in Hd as [Hd|Hd].
    + left. destruct (mappingValue_node _ _ _ Hp) as [_ Hpc]. destruct Hcont as [E|(_ & target & t & _ & Ht & E)]; rewrite E in Hd.
      * eapply child_nodes; [exact Hpc|]. by eapply child_nodes.
      * apply find_node_In in Ht as [Ht _]. eapply nodes_of_trans; [|exact Ht]. by eapply child_nodes.
    + right. left. apply new_scalars_ids in Hd as [Hi He]. apply nodes_of_inv in Hn as [->|(x & Hx & _)]; [done|].
      rewrite He in Hx. by apply not_elem_of_nil in Hx.
Qed.
(** Every node stays, the root and the field apart. *)
Lemma amended_kept derived root content m :
  amended derived root content → wf_tree root → m ∈ nodes_of root → m ≠ root → mappingValue root "provides" ≠ Some m →
  ∃ c, c ∈ content ∧ m ∈ nodes_of c.
Proof.
  intros Ha Hwf Hm Hr Hp. apply nodes_of_inv in Hm as [->|(c & Hc & Hm)]; [done|].
  destruct Ha as [fresh Hnone ->|p field Hv Hf]; [exists c; split; [apply elem_of_app; by left|done]|].
  destruct (mappingValue_node _ _ _ Hv) as [Hk Hpc]. assert (first_value "provides" (node_content root) = Some p) as Hfv.
  { unfold mappingValue in Hv. by rewrite bool_decide_eq_true_2 in Hv. }
  destruct (decide (node_id c = node_id p)) as [Eid|Eid].
  - assert (c = p) as -> by (eapply wf_ids; [done|by eapply child_nodes, nodes_of_self..|done]). apply nodes_of_inv in Hm as [->|(d & Hd & Hmd)]; [done|]. eexists. split; [by eapply replace_value_self|].
    apply nodes_of_inv. right. exists d. split; [|done]. cbn. apply elem_of_app. left.
    destruct (provides_list_Ok _ _ _ Hf) as (_ & _ & [E|(Hal & _)]); [by rewrite E|].
    rewrite (wf_alias root p Hwf) in Hd; [by apply not_elem_of_nil in Hd| |done]. by eapply child_nodes, nodes_of_self.
  - exists c. split; [|done]. eapply replace_value_kept; [done..|]. by intros ->.
Qed.

(** *** What a node reads as *)

(** A document without its spelling: an alias is what its target is. *)
Inductive tree := Tree (kind : node_kind) (tag text : string) (content : list tree).

Inductive reads (root : node) : node → tree → Prop :=
  | reads_alias n target t v :
      node_kind_ n = AliasNode → node_alias n = Some target → find_node root target = Some t →
      reads root t v → reads root n v
  | reads_own n l :
      node_kind_ n ≠ AliasNode → reads_list root (node_content n) l →
      reads root n (Tree (node_kind_ n) (node_tag n) (node_value n) l)
with reads_list (root : node) : list node → list tree → Prop :=
  | reads_nil : reads_list root [] []
  | reads_cons n l v vs : reads root n v → reads_list root l vs → reads_list root (n :: l) (v :: vs).
Scheme reads_mut := Minimality for reads Sort Prop with reads_list_mut := Minimality for reads_list Sort Prop.

(** Two trees in which the same nodes are found from some of them on read alike there. *)
Lemma reads_transfer (root root' : node) (good : node → Prop) :
  (∀ n c, good n → node_kind_ n ≠ AliasNode → c ∈ node_content n → good c) →
  (∀ n target t, good n → node_kind_ n = AliasNode → node_alias n = Some target → find_node root target = Some t →
     good t ∧ find_node root' target = Some t) →
  ∀ n v, reads root n v → good n → reads root' n v.
Proof.
  intros Hc Ha n v Hr. induction Hr using reads_mut with (P0 := λ l vs, Forall good l → reads_list root' l vs).
  - intros Hg. destruct (Ha n target t) as [Hgt Hf]; [done..|]. eapply reads_alias; [done..|]. by apply IHHr.
  - intros Hg. apply reads_own; [done|]. apply IHHr. apply Forall_forall. intros c Hin. by eapply Hc.
  - constructor.
  - intros [Hg Hl]%Forall_cons. constructor; auto.
Qed.

(** *** Places in the tree *)

Lemma nodes_of_content n : nodes_of n = n :: flat_map nodes_of (node_content n).
Proof. by destruct n. Qed.

Lemma distinct_children (l : list node) c d n :
  NoDup (map node_id (flat_map nodes_of l)) → c ∈ l → d ∈ l → n ∈ nodes_of c → n ∈ nodes_of d → c = d.
Proof.
  induction l as [|x l IH]; [by intros _ ?%elem_of_nil|]. cbn [flat_map]. rewrite map_app.
  intros (Hx & Hd & Hl)%NoDup_app.
  assert (∀ c, c ∈ l → n ∈ nodes_of x → n ∈ nodes_of c → False) as Hno.
  { intros e He Hnx Hne. apply (Hd (node_id n)); [by apply list_elem_of_fmap_2|]. apply list_elem_of_fmap_2.
    apply elem_of_flat_map. by exists e. }
  intros [->|Hc]%elem_of_cons [->|Hd']%elem_of_cons Hnc Hnd; [done| | |by apply IH]; exfalso; [by apply (Hno d)|by apply (Hno c)].
Qed.

Lemma length_child n c : c ∈ node_content n → length (nodes_of c) < length (nodes_of n).
Proof.
  rewrite (nodes_of_content n). cbn. induction (node_content n) as [|x l IH]; [by intros ?%elem_of_nil|].
  cbn. rewrite length_app. intros [->|Hc]%elem_of_cons; [lia|]. specialize (IH Hc). lia.
Qed.
Lemma length_under n m : m ∈ nodes_of n → length (nodes_of m) ≤ length (nodes_of n).
Proof.
  induction n as [n IH] using node_ind'. rewrite Forall_forall in IH. intros [->|(c & Hc & Hm)]%nodes_of_inv; [done|].
  specialize (IH c Hc Hm). pose proof (length_child n c Hc). lia.
Qed.

Section Tree.
Context (root p : node) (Hwf : wf_tree root) (Hp : p ∈ node_content root).

Lemma child_in : p ∈ nodes_of root.
Proof using Hp. by eapply child_nodes, nodes_of_self. Qed.

(** The root is in nothing, and a child of the root in nothing but the root. *)
Lemma root_in_nothing n : n ∈ nodes_of root → root ∉ node_content n.
Proof. intros Hn Hr. apply length_child in Hr. apply length_under in Hn. lia. Qed.
Lemma child_of_root n : n ∈ nodes_of root → p ∈ node_content n → n = root.
Proof using Hwf Hp.
  intros [->|(c & Hc & Hn)]%nodes_of_inv Hin; [done|]. exfalso.
  pose proof (wf_addresses _ Hwf) as Hnd. rewrite nodes_of_content in Hnd. apply NoDup_cons in Hnd as [_ Hnd].
  assert (p ∈ nodes_of c) as Hpc by (eapply nodes_of_trans; [by eapply child_nodes, nodes_of_self|done]).
  assert (c = p) as -> by (eapply distinct_children; [exact Hnd|done|done|exact Hpc|apply nodes_of_self]).
  apply length_child in Hin. apply length_under in Hn. lia.
Qed.

(** An alias of the child is what [aliasedElsewhere] looks for. *)
Lemma aliased_under n a :
  (∀ b, b ∈ nodes_of n → node_kind_ b = AliasNode → node_content b = []) →
  a ∈ nodes_of n → node_kind_ a = AliasNode → node_alias a = Some (node_id p) →
  (∀ b, b ∈ nodes_of n → a ∈ nodes_of b → node_id b ≠ node_id p) → aliasedElsewhere n p = true.
Proof.
  induction n as [n IH] using node_ind'. rewrite Forall_forall in IH. intros Hleaf Hin Ha Hal Hno.
  assert (aliasedElsewhere n p = if bool_decide (node_id n = node_id p) then false
    else if bool_decide (node_kind_ n = AliasNode) then bool_decide (node_alias n = Some (node_id p))
    else existsb (λ c, aliasedElsewhere c p) (node_content n)) as -> by by destruct n.
  rewrite bool_decide_eq_false_2 by (apply Hno; [apply nodes_of_self|done]).
  apply nodes_of_inv in Hin as [->|(c & Hc & Hin)]; [by rewrite !bool_decide_eq_true_2|].
  destruct (bool_decide_reflect (node_kind_ n = AliasNode)) as [Hk|Hk].
  { rewrite (Hleaf n) in Hc by (done || apply nodes_of_self). by apply not_elem_of_nil in Hc. }
  apply existsb_Exists. exists c. split; [done|]. apply IH; [done| |done..|].
  - intros b Hb. apply Hleaf. by eapply child_nodes.
  - intros b Hb. apply Hno. by eapply child_nodes.
Qed.
Lemma aliased_inv n : aliasedElsewhere n p = true → ∃ a, a ∈ nodes_of n ∧ node_kind_ a = AliasNode ∧ node_alias a = Some (node_id p).
Proof.
  induction n as [n IH] using node_ind'. rewrite Forall_forall in IH.
  assert (aliasedElsewhere n p = if bool_decide (node_id n = node_id p) then false
    else if bool_decide (node_kind_ n = AliasNode) then bool_decide (node_alias n = Some (node_id p))
    else existsb (λ c, aliasedElsewhere c p) (node_content n)) as -> by by destruct n.
  case_bool_decide; [done|]. case_bool_decide as Hk; [intros Ha%bool_decide_eq_true; exists n; split; [apply nodes_of_self|done]|].
  intros (c & Hc & Ha)%existsb_Exists. destruct (IH c Hc Ha) as (a & Hin & ?). exists a. split; [by eapply child_nodes|done].
Qed.
Lemma aliased_exact a :
  a ∈ nodes_of root → node_kind_ a = AliasNode → node_alias a = Some (node_id p) → aliasedElsewhere root p = true.
Proof using Hwf Hp.
  intros Hin Hk Ha. apply (aliased_under root a); [intros b Hb; by apply (wf_alias root)|done..|].
  intros b Hb Hab Hid. assert (b = p) as -> by (apply (wf_ids root); [done|done|apply child_in|done]).
  destruct (wf_target _ Hwf a Hin Hk) as (t & Ht & Htn & _ & _ & Hout). rewrite Ha in Ht. injection Ht as Ht.
  assert (t = p) as -> by (apply (wf_ids root); [done|done|apply child_in|done]). done.
Qed.
End Tree.

(** *** What an amended document reads as *)

(** The list put in the field's place is found at the field's address. *)
Lemma list_found root p list_ :
  wf_tree root →
  mappingValue root "provides" = Some p → node_id list_ = node_id p →
  (∀ c n, c ∈ node_content list_ → n ∈ nodes_of c → fresh_id root ≤ node_id n) →
  find_node (set_content (replace_value "provides" list_ (node_content root)) root) (node_id p) = Some list_.
Proof.
  intros Hwf Hp Hid Hnew. rewrite <-Hid. pose proof (mappingValue_node _ _ _ Hp) as [Hkr Hpc].
  unfold mappingValue in Hp. rewrite bool_decide_eq_true_2 in Hp by done.
  destruct (first_value_split _ list_ _ _ Hp) as (l & l' & Hl & ->).
  assert (p ∈ nodes_of root) as Hpin by by apply child_in.
  assert (∀ c n, c ∈ l ++ l' → n ∈ nodes_of c → node_id n ≠ node_id p) as Hout.
  { intros c n Hc Hn En. assert (c ∈ node_content root) as Hcr by (rewrite Hl; set_solver).
    assert (n = p) as -> by (apply (wf_ids root); [done|by eapply child_nodes|done|done]).
    assert (NoDup (map node_id (flat_map nodes_of (l ++ p :: l')))) as Hnd.
    { pose proof (wf_addresses _ Hwf) as Hnd. rewrite nodes_of_content, Hl in Hnd. by apply NoDup_cons in Hnd as [_ Hnd]. }
    rewrite flat_map_app, map_app in Hnd. cbn [flat_map] in Hnd. rewrite map_app in Hnd.
    apply NoDup_app in Hnd as (_ & Hd & Hnd). apply NoDup_app in Hnd as (_ & Hd' & _).
    assert (node_id p ∈ map node_id (nodes_of p)) as Hpp by apply list_elem_of_fmap_2, nodes_of_self.
    apply elem_of_app in Hc as [Hc|Hc].
    - apply (Hd (node_id p)); [apply list_elem_of_fmap_2, elem_of_flat_map; by exists c|]. apply elem_of_app. by left.
    - apply (Hd' (node_id p)); [done|]. apply list_elem_of_fmap_2, elem_of_flat_map. by exists c. }
  apply find_node_unique.
  - apply nodes_of_inv. right. exists list_. split; [cbn; set_solver|apply nodes_of_self].
  - intros n Hn En. rewrite Hid in En. apply nodes_of_inv in Hn as [->|(c & Hc & Hn)].
    + exfalso. cbn in En. apply (root_in_nothing root root); [apply nodes_of_self|].
      rewrite (wf_ids root root p) at 1; [done|done|apply nodes_of_self|done|done].
    + cbn in Hc. apply elem_of_app in Hc as [Hc|[->|Hc]%elem_of_cons].
      * destruct (Hout c n); [set_solver|done..].
      * apply nodes_of_inv in Hn as [->|(d & Hd & Hn)]; [done|]. specialize (Hnew d n Hd Hn).
        pose proof (fresh_id_above root p Hpin). lia.
      * destruct (Hout c n); [set_solver|done..].
Qed.

Section Amended.
Context (derived : list string) (root root' : node) (Hwf : wf_tree root) (Hr : amend_root derived root = Ok root').

(** Every node but the root and the field is still what its address names. *)
Lemma amended_found m :
  m ∈ nodes_of root → m ≠ root → mappingValue root "provides" ≠ Some m → find_node root' (node_id m) = Some m.
Proof using Hwf Hr.
  destruct (amend_root_Ok _ _ _ Hr) as (Hk & content & Ha & ->). intros Hm Hne Hp. apply find_node_unique.
  - rewrite nodes_of_inv. right. cbn. by eapply amended_kept.
  - intros n Hn Hid. rewrite nodes_of_inv in Hn. destruct Hn as [->|Hn].
    { destruct Hne. eapply wf_ids; [done|done|apply nodes_of_self|done]. }
    cbn in Hn. destruct (amended_nodes _ _ _ _ Ha Hwf Hn) as [Hin|[Hfresh|(p & Hv & Hip)]].
    + by eapply wf_ids.
    + pose proof (fresh_id_above root m Hm). lia.
    + destruct Hp. rewrite Hv. f_equal. eapply wf_ids; [done| |done|congruence].
      eapply child_nodes; [by eapply mappingValue_node|apply nodes_of_self].
Qed.

Definition untouched (m : node) : Prop := m ∈ nodes_of root ∧ m ≠ root ∧ mappingValue root "provides" ≠ Some m.

Lemma untouched_child n c : untouched n → c ∈ node_content n → untouched c.
Proof using Hwf.
  intros (Hin & Hne & Hnp) Hc. split; [eapply nodes_of_trans; [by eapply child_nodes, nodes_of_self|done]|]. split.
  - intros ->. by apply (root_in_nothing root n).
  - intros Hp%mappingValue_node. destruct Hp as [_ Hp]. apply Hne. by apply (child_of_root root c).
Qed.
Lemma untouched_target n target :
  (∀ p, mappingValue root "provides" = Some p → aliasedElsewhere root p = false) →
  untouched n → node_kind_ n = AliasNode → node_alias n = Some target →
  ∃ t, untouched t ∧ find_node root target = Some t ∧ find_node root' target = Some t.
Proof using Hwf Hr.
  intros Hfree (Hin & Hne & Hnp) Hk Ha. destruct (wf_target _ Hwf n Hin Hk) as (t & Ht & Htn & _ & _ & Hout).
  assert (untouched t) as Hu.
  { split; [done|]. split; [by intros ->|]. intros Hp. pose proof (Hfree t Hp) as Hf.
    apply mappingValue_node in Hp as [_ Hp]. by rewrite (aliased_exact root t Hwf Hp n) in Hf. }
  exists t. rewrite Ha in Ht. injection Ht as ->. split; [done|]. split.
  - apply find_node_unique; [done|]. intros m Hm Hid. by apply (wf_ids root).
  - destruct Hu as (? & ? & ?). by apply amended_found.
Qed.

(** Where nothing else is an alias of the field, everything else reads as it did. *)
Lemma amended_reads m v :
  (∀ p, mappingValue root "provides" = Some p → aliasedElsewhere root p = false) →
  untouched m → reads root m v ↔ reads root' m v.
Proof using Hwf Hr.
  intros Hfree Hm. split; intros Hv.
  - apply (reads_transfer root root' untouched); [intros n c Hn _; by apply untouched_child| |done..].
    intros n target t Hn Hk Ha Ht. destruct (untouched_target n target Hfree Hn Hk Ha) as (t' & ? & Ht' & ?).
    rewrite Ht in Ht'. by injection Ht' as ->.
  - apply (reads_transfer root' root untouched); [intros n c Hn _; by apply untouched_child| |done..].
    intros n target t Hn Hk Ha Ht. destruct (untouched_target n target Hfree Hn Hk Ha) as (t' & ? & ? & Ht').
    rewrite Ht in Ht'. by injection Ht' as ->.
Qed.

(** The derived list, as it reads. *)
Definition derived_list : tree := Tree SequenceNode "!!seq" "" (map (λ s, Tree ScalarNode "!!str" s []) derived).

Lemma reads_scalars r (f : nat → string → node) l vs :
  (∀ i s, node_kind_ (f i s) = ScalarNode ∧ node_tag (f i s) = "!!str" ∧ node_value (f i s) = s ∧ node_content (f i s) = []) →
  reads_list r (imap f l) vs ↔ vs = map (λ s, Tree ScalarNode "!!str" s []) l.
Proof.
  revert f vs. induction l as [|x l IH]; intros f vs Hf; cbn.
  - split; [by inversion 1|intros ->; constructor].
  - destruct (Hf 0 x) as (Hk & Ht & Hv & Hc). split.
    + inversion 1 as [|? ? v vs' Hx Hl]; subst. f_equal; [|apply (IH (f ∘ S)) in Hl; [done|intros; apply Hf]].
      inversion Hx as [? ? ? ? Hka|? ? ? Hlc]; subst; [congruence|]. rewrite Hc in Hlc. inversion Hlc. congruence.
    + intros ->. constructor; [|apply (IH (f ∘ S)); [intros; apply Hf|done]].
      pose proof (reads_own r (f 0 x) []) as Hx. rewrite Hk, Ht, Hv, Hc in Hx. apply Hx; [done|constructor].
Qed.

(** An anchored null that something else is an alias of becomes the list there too. *)
Lemma shared_null p :
  mappingValue root "provides" = Some p → aliasedElsewhere root p = true →
  node_kind_ p = ScalarNode ∧ node_tag p = "!!null" ∧ node_anchor p ≠ "" ∧
  ∀ a v, node_kind_ a = AliasNode → node_alias a = Some (node_id p) → reads root' a v ↔ v = derived_list.
Proof using Hwf Hr.
  intros Hp Hal. pose proof (mappingValue_node _ _ _ Hp) as [Hkr Hpc]. assert (p ∈ nodes_of root) as Hpin by by apply child_in.
  destruct (aliased_inv p root Hal) as (a0 & Ha0 & Hk0 & Hal0). destruct (wf_target _ Hwf a0 Ha0 Hk0) as (t & Ht & Htn & Hanchor & Hkt & _).
  assert (t = p) as -> by (apply (wf_ids root); [done|done|done|congruence]). clear a0 Ha0 Hk0 Hal0 Ht Htn.
  unfold amend_root in Hr. rewrite bool_decide_eq_true_2, Hp in Hr by done. cbn [negb] in Hr.
  apply result_bind_Ok in Hr as (field & Hf & [= Hroot]). unfold provides_list in Hf.
  destruct (node_kind_ p) eqn:Ek; try done; [by rewrite bool_decide_eq_false_2, Hal in Hf|].
  destruct (bool_decide_reflect (node_tag p = "!!null")) as [Et|]; [|done]. split; [done|]. split; [done|]. split; [done|].
  injection Hf as Ef. assert (node_content p = []) as Hleaf by (apply (wf_leaf _ Hwf); auto). rewrite Hleaf in Ef. rewrite <-Ef in Hroot.
  match type of Hroot with set_content (replace_value _ ?x _) _ = _ => set (list_ := x) in Hroot end.
  assert (find_node root' (node_id p) = Some list_) as Hfound.
  { rewrite <-Hroot. apply (list_found root p list_); [done..|]. intros c n Hc Hn. cbn in Hc.
    apply new_scalars_ids in Hc as [Hid He]. apply nodes_of_inv in Hn as [->|(x & Hx & _)]; [done|].
    rewrite He in Hx. by apply not_elem_of_nil in Hx. }
  assert (∀ vs, reads_list root' (node_content list_) vs ↔ vs = map (λ s, Tree ScalarNode "!!str" s []) derived) as Hlist
    by (intros vs; by apply (reads_scalars root' (λ i, new_scalar (fresh_id root + i)))).
  intros a v Hk Ha. split.
  - inversion 1 as [? target t ? _ Ha' Ht Hv|? ? Hk']; subst; [|done]. rewrite Ha in Ha'. injection Ha' as <-.
    rewrite Hfound in Ht. injection Ht as <-. inversion Hv as [|? l _ Hl]; subst; [done|]. unfold derived_list. cbn. f_equal.
    by apply Hlist.
  - intros ->. eapply reads_alias; [done..|]. apply (reads_own root' list_); [done|]. by apply Hlist.
Qed.
End Amended.

(** C38: Entries derived from the image land in the provides list once.  The amended mapping has the same node under every
    other key; its provides is a list, the entries it had - through an alias too - and the derived ones after them;
    every other node is still what its address names.  A list that
    another field shares is refused rather than extended there: where nothing else is an alias of the provides node, every
    other node of the document reads, through its aliases, as it did.  The one thing
    accepted that something else can be an alias of is an anchored null, and an alias of it then reads the derived list. *)
Theorem derived_entries_land_once derived root root' :
  wf_tree root → amend_root derived root = Ok root' →
  (∀ key, key ≠ "provides" → mappingValue root' key = mappingValue root key) ∧
  (∃ field id, mappingValue root' "provides" = Some field ∧ node_kind_ field = SequenceNode ∧
     node_content field = listed root ++ new_scalars id derived) ∧
  (∀ m, untouched root m → find_node root' (node_id m) = Some m) ∧
  ((∀ p, mappingValue root "provides" = Some p → aliasedElsewhere root p = false) →
   ∀ m v, untouched root m → reads root m v ↔ reads root' m v) ∧
  (∀ p, mappingValue root "provides" = Some p → aliasedElsewhere root p = true →
   node_kind_ p = ScalarNode ∧ node_tag p = "!!null" ∧ node_anchor p ≠ "" ∧
   ∀ a v, node_kind_ a = AliasNode → node_alias a = Some (node_id p) → reads root' a v ↔ v = derived_list derived).
Proof.
  intros Hwf Hr. destruct (amend_root_Ok _ _ _ Hr) as (Hk & content & Ha & E).
  assert (∀ key, mappingValue root key = first_value key (node_content root)) as Hold
    by (intros; unfold mappingValue; by rewrite bool_decide_eq_true_2).
  assert (∀ key, mappingValue root' key = first_value key content) as Hnew
    by (intros; rewrite E; unfold mappingValue; cbn; by rewrite bool_decide_eq_true_2).
  assert (Nat.Even (length (node_content root))) as Heven by (apply (wf_pairs _ Hwf); [apply nodes_of_self|done]).
  split; [|split; [|split; [|split]]].
  - intros key Hkey. rewrite Hold, Hnew. destruct Ha as [fresh Hnone ->|p field Hp Hf].
    + rewrite first_value_app by done. destruct (first_value _ _); [done|]. cbn. by rewrite bool_decide_eq_false_2 by congruence.
    + rewrite first_value_replace. by rewrite bool_decide_eq_false_2.
  - unfold listed. rewrite Hnew. destruct Ha as [fresh Hnone Hfresh|p field Hp Hf].
    + rewrite Hnone. rewrite Hold in Hnone. rewrite first_value_app, Hnone by done. cbn. eauto 6.
    + rewrite Hp. rewrite Hold in Hp. rewrite first_value_replace, Hp, bool_decide_eq_true_2 by done. cbn [fmap option_fmap option_map].
      destruct (provides_list_Ok _ _ _ Hf) as (Hs & _ & Hc). eexists _, _. split; [done|]. split; [done|]. cbn [node_content set_content].
      f_equal. destruct Hc as [E'|(Hal & target & t & -> & -> & E')]; [|by rewrite Hal].
      rewrite E'. unfold provides_list in Hf. destruct (node_kind_ p) eqn:Ek; try done.
      destruct (node_alias p) as [target|]; [|done]. destruct (find_node root target) as [t|]; [|done].
      destruct (bool_decide _); [|done]. injection Hf as <-. done.
  - intros m (Hm & Hne & Hp). by apply (amended_found derived root).
  - intros Hfree m v Hm. by apply (amended_reads derived).
  - intros p Hp Hal. by apply (shared_null derived root).
Qed.

(** ** The context file's field *)

(** A tree with one node put in another's place. *)
Inductive swapped (a b : node) : node → node → Prop :=
  | swapped_here : swapped a b a b
  | swapped_in n l c c' l' :
      node_content n = l ++ c :: l' → swapped a b c c' → swapped a b n (set_content (l ++ c' :: l') n).

(** The contentFile fields of a descriptor's context entries, grouped ones included. *)
Inductive context_field : node → node → Prop :=
  | context_entry n capabilities entry typ config field :
      mappingValue n "capabilities" = Some capabilities → node_kind_ capabilities = SequenceNode →
      entry ∈ node_content capabilities → mappingValue entry "type" = Some typ → node_value typ = CapabilityAgentContext →
      mappingValue entry "config" = Some config → mappingValue config "contentFile" = Some field → context_field n field
  | context_group n capabilities entry g field :
      mappingValue n "capabilities" = Some capabilities → node_kind_ capabilities = SequenceNode →
      entry ∈ node_content capabilities → mappingValue entry "group" = Some g → context_field g field → context_field n field.

Lemma swapped_value a b n key v v' :
  mappingValue n key = Some v → swapped a b v v' → swapped a b n (set_content (replace_value key v' (node_content n)) n).
Proof.
  unfold mappingValue. destruct (bool_decide _); [|done]. intros (l & l' & E & ->)%(first_value_split _ v') Hs. by eapply swapped_in.
Qed.
Lemma rewrite_first_spec (f : node → option node) l :
  match rewrite_first f l with
  | Some l' => ∃ before x y after, l = before ++ x :: after ∧ f x = Some y ∧ l' = before ++ y :: after
  | None => ∀ x, x ∈ l → f x = None
  end.
Proof.
  induction l as [|x l IH]; cbn [rewrite_first]; [by intros x ?%not_elem_of_nil|].
  destruct (f x) as [y|] eqn:E; [by exists [], x, y, l|]. destruct (rewrite_first f l) as [l'|]; cbn.
  - destruct IH as (before & z & y & after & -> & Hy & ->). by exists (x :: before), z, y, after.
  - intros z [->|Hz]%elem_of_cons; auto.
Qed.

(** The number of a tree's nodes bounds its depth. *)
Definition size (n : node) : nat := length (nodes_of n).
Lemma size_child n c : c ∈ node_content n → size c < size n.
Proof.
  intros Hc. unfold size. destruct n as [id k st tg v an h l f content al]. cbn in *.
  induction content as [|d content IH]; [by apply not_elem_of_nil in Hc|]. cbn. rewrite length_app.
  apply elem_of_cons in Hc as [->|Hc]; [lia|]. specialize (IH Hc). lia.
Qed.
Lemma size_value n key v : mappingValue n key = Some v → size v < size n.
Proof. intros [_ Hv]%mappingValue_node. by apply size_child. Qed.

Lemma rewrite_entry_spec `{YamlNodes} root file staged entry :
  match rewrite_entry root file staged entry with
  | Some entry' => ∃ typ config field, mappingValue entry "type" = Some typ ∧ node_value typ = CapabilityAgentContext ∧
      mappingValue entry "config" = Some config ∧ mappingValue config "contentFile" = Some field ∧
      resolved_value root field = file ∧ swapped field (repointed staged field) entry entry'
  | None => ∀ typ config field, mappingValue entry "type" = Some typ → node_value typ = CapabilityAgentContext →
      mappingValue entry "config" = Some config → mappingValue config "contentFile" = Some field → resolved_value root field ≠ file
  end.
Proof.
  unfold rewrite_entry. destruct (mappingValue entry "type") as [typ|] eqn:Et; cbn [mbind option_bind]; [|done].
  destruct (bool_decide_reflect (node_value typ = CapabilityAgentContext)); cbn [negb]; [|naive_solver].
  destruct (mappingValue entry "config") as [config|] eqn:Ec; cbn [mbind option_bind]; [|done].
  destruct (mappingValue config "contentFile") as [field|] eqn:Ef; cbn [mbind option_bind]; [|naive_solver].
  destruct (bool_decide_reflect (resolved_value root field = file)); [|naive_solver].
  exists typ, config, field. do 5 (split; [done|]). eapply swapped_value; [done|]. eapply swapped_value; [done|]. apply swapped_here.
Qed.

(** The rewrite of a context file touches one field: it succeeds exactly when some context entry, in a group or
    of its own, names the file, and then the tree is the old one with one such field repointed; the node count of
    the document is depth enough for any nesting of groups. *)
Theorem content_file_rewritten_once `{YamlNodes} fuel root file staged n :
  size n <= fuel →
  match rewriteContentFileNode fuel root file staged n with
  | Some n' => ∃ field, context_field n field ∧ resolved_value root field = file ∧ swapped field (repointed staged field) n n'
  | None => ∀ field, context_field n field → resolved_value root field ≠ file
  end.
Proof.
  revert n. induction fuel as [|fuel IH]; intros n Hn; [unfold size in Hn; destruct n; cbn in Hn; lia|].
  cbn [rewriteContentFileNode]. destruct (mappingValue n "capabilities") as [caps|] eqn:Ec; cbn [mbind option_bind].
  2:{ intros field Hf. by destruct Hf; congruence. }
  destruct (bool_decide_reflect (node_kind_ caps = SequenceNode)) as [Hk|Hk]; cbn [negb].
  2:{ intros field Hf. destruct Hf; congruence. }
  set (step := λ entry, match (g ← mappingValue entry "group"; rewriteContentFileNode fuel root file staged g) with
                        | Some g => Some (set_content (replace_value "group" g (node_content entry)) entry)
                        | None => rewrite_entry root file staged entry
                        end).
  assert (∀ entry g, entry ∈ node_content caps → mappingValue entry "group" = Some g → size g <= fuel) as Hsize.
  { intros entry g He Hg. apply size_value in Ec, Hg. apply size_child in He. lia. }
  pose proof (rewrite_first_spec step (node_content caps)) as Hfirst. fold step.
  destruct (rewrite_first step (node_content caps)) as [content|]; cbn [mbind option_bind].
  - destruct Hfirst as (before & entry & entry' & after & Hl & Hs & ->).
    assert (entry ∈ node_content caps) as He by (rewrite Hl; apply elem_of_app; right; by left).
    assert (∃ field, context_field n field ∧ resolved_value root field = file ∧ swapped field (repointed staged field) entry entry')
      as (field & Hf & Hr & Hsw).
    { unfold step in Hs. pose proof (rewrite_entry_spec root file staged entry) as Hown.
      destruct (mappingValue entry "group") as [g|] eqn:Eg; cbn [mbind option_bind] in Hs;
        [specialize (IH g (Hsize _ _ He Eg)); destruct (rewriteContentFileNode fuel root file staged g) as [g'|]|].
      - injection Hs as <-. destruct IH as (field & Hf & Hr & Hsw). exists field. split; [by eapply context_group|]. split; [done|].
        by eapply swapped_value.
      - rewrite Hs in Hown. destruct Hown as (typ & config & field & ? & ? & ? & ? & ? & ?). exists field.
        split; [by eapply context_entry|done].
      - rewrite Hs in Hown. destruct Hown as (typ & config & field & ? & ? & ? & ? & ? & ?). exists field.
        split; [by eapply context_entry|done]. }
    exists field. split; [done|]. split; [done|]. eapply swapped_value; [done|]. by eapply swapped_in.
  - assert (∀ entry, entry ∈ node_content caps → rewrite_entry root file staged entry = None ∧
      ∀ g, mappingValue entry "group" = Some g → rewriteContentFileNode fuel root file staged g = None) as Hnone.
    { intros entry He. specialize (Hfirst entry He). unfold step in Hfirst.
      destruct (mappingValue entry "group") as [g|]; cbn [mbind option_bind] in Hfirst; [|done].
      destruct (rewriteContentFileNode fuel root file staged g) eqn:E; [done|]. split; [done|]. by intros ? [= <-]. }
    intros field Hf. destruct Hf as [n caps' entry typ config field Hc _ He Ht Hty Hcf Hff|n caps' entry g field Hc _ He Hg Hf].
    + assert (caps' = caps) as -> by congruence. destruct (Hnone entry He) as [Hown _].
      pose proof (rewrite_entry_spec root file staged entry) as Hspec. rewrite Hown in Hspec. by eapply Hspec.
    + assert (caps' = caps) as -> by congruence. destruct (Hnone entry He) as [_ Hg'].
      specialize (IH g (Hsize _ _ He Hg)). rewrite (Hg' g Hg) in IH. by apply IH.
Qed.

(** ** Two documents *)

Definition sample_nodes : YamlNodes :=
  {| parse_node := λ raw, Ok (mkNode 0 ScalarNode 0 "!!str" raw "" "" "" "" [] None); render_node := λ n, Ok (node_value n);
     DoubleQuotedStyle := 1; decode_text := λ n, Ok (Some (node_value n)); decode_key := λ n, Ok (node_value n);
     string_scalar := λ s, ("!!str", s); string_style := λ _ s, s |}.
Definition text (id : nat) (s : string) : node := mkNode id ScalarNode 0 "!!str" s "" "" "" "" [] None.
Definition alias_of (id target : nat) : node := mkNode id AliasNode 0 "" "" "" "" "" "" [] (Some target).
Definition mapping (id : nat) (content : list node) : node := mkNode id MappingNode 0 "!!map" "" "" "" "" "" content None.
Definition sequence (id : nat) (anchor : string) (content : list node) : node :=
  mkNode id SequenceNode 0 "!!seq" "" anchor "" "" "" content None.

(** [requires: &shared [libc]] and [provides: *shared]. *)
Definition shared_list : node :=
  mapping 0 [text 1 "requires"; sequence 2 "shared" [text 3 "libc"]; text 4 "provides"; alias_of 5 2].
Definition shared_amended : node :=
  mapping 0 [text 1 "requires"; sequence 2 "shared" [text 3 "libc"]; text 4 "provides";
             mkNode 5 SequenceNode 0 "!!seq" "" "" "" "" "" [text 3 "libc"; text 6 "deb/bash@5.2"] None].

Lemma shared_list_wf : wf_tree shared_list.
Proof.
  split.
  - by apply (bool_decide_unpack _).
  - intros n Hn. cbn in Hn. repeat (apply elem_of_cons in Hn as [->|Hn]; [by intros; exists 2|]). by apply not_elem_of_nil in Hn.
  - intros n Hn. cbn in Hn. repeat (apply elem_of_cons in Hn as [->|Hn]; [by intros []|]). by apply not_elem_of_nil in Hn.
  - intros n Hn Hk. cbn in Hn. repeat (apply elem_of_cons in Hn as [->|Hn]; [try done|]); [|by apply not_elem_of_nil in Hn].
    exists (sequence 2 "shared" [text 3 "libc"]). split; [done|]. split; [cbn; set_solver|]. repeat split; [done..|].
    cbn. intros H. repeat (apply elem_of_cons in H as [H|H]; [done|]). by apply not_elem_of_nil in H.
Qed.

Lemma derived_entries_land_once_witness :
  amend_root ["deb/bash@5.2"] shared_list = Ok shared_amended ∧
  mappingValue shared_amended "requires" = mappingValue shared_list "requires" ∧
  (let libc := sequence 2 "shared" [text 3 "libc"] in ∀ v, reads shared_list libc v ↔ reads shared_amended libc v).
Proof.
  assert (amend_root ["deb/bash@5.2"] shared_list = Ok shared_amended) as E by reflexivity. split; [exact E|].
  destruct (derived_entries_land_once ["deb/bash@5.2"] shared_list shared_amended shared_list_wf E)
    as (Hkeys & _ & _ & Hreads & _).
  split; [by apply Hkeys|]. intros libc v. apply Hreads; [by intros p [= <-]|].
  split; [cbn; set_solver|]. by split.
Defined.

(** A null with an anchor becomes the list in place, so what else aliases it gains the entries too. *)
Example anchored_null_shared :
  let none := mkNode 2 ScalarNode 0 "!!null" "" "none" "" "" "" [] None in
  match amend_root ["deb/bash@5.2"] (mapping 0 [text 1 "provides"; none; text 3 "requires"; alias_of 4 2]) with
  | Ok root => (map node_value ∘ node_content) <$> find_node root 2
  | Err _ => None
  end = Some ["deb/bash@5.2"].
Proof. by vm_compute. Qed.

(** Two context entries over one file, the second an alias of the first. *)
Definition context_of (id : nat) (field : node) : node :=
  mapping id [text (id + 1) "type"; text (id + 2) CapabilityAgentContext; text (id + 3) "config";
              mapping (id + 4) [text (id + 5) "contentFile"; field]].
Definition two_contexts : node :=
  mapping 0 [text 1 "capabilities"; sequence 2 ""
    [context_of 10 (mkNode 20 ScalarNode 0 "!!str" "./a.md" "file" "" "" "" [] None); context_of 30 (alias_of 40 20)]].

Lemma content_file_rewritten_once_witness :
  size two_contexts <= 50 ∧
  match @rewriteContentFileNode sample_nodes 50 two_contexts "./a.md" "/a.md" two_contexts with
  | Some n' => ∃ field, context_field two_contexts field ∧ resolved_value two_contexts field = "./a.md" ∧
                 swapped field (@repointed sample_nodes "/a.md" field) two_contexts n'
  | None => ∀ field, context_field two_contexts field → resolved_value two_contexts field ≠ "./a.md"
  end.
Proof.
  assert (size two_contexts <= 50) as Hs by (vm_compute; lia). split; [exact Hs|].
  exact (@content_file_rewritten_once sample_nodes 50 two_contexts "./a.md" "/a.md" two_contexts Hs).
Defined.

(** The first rewrite changes what the alias reads, and the entry behind it is not found any more. *)
Example shared_content_file :
  match @rewriteContentFileNode sample_nodes 50 two_contexts "./a.md" "/a.md" two_contexts with
  | Some n => match @rewriteContentFileNode sample_nodes 50 n "./a.md" "/b.md" n with Some _ => true | None => false end
  | None => true
  end = false.
Proof. by vm_compute. Qed.
