(* ===== verification/Recipe.v ===== *)
(** The content recipe of a kit ([cmd/frontend]): the descriptor a Dockerfile carries
    in its comments ([comment_descriptor.go]), which recipe a kit has and the options
    its build is given ([build.go]), and what its final stage is built from
    ([diff.go]).

    The Dockerfile parser, its shell words and the platform strings are libraries. *)
From stdpp Require Import options.
From S2P Require Import Prelude GoStrings Json Types Config GoPath Template Merge Packages Validate Expand Oci SetBuild Yaml.

(** ** The descriptor in a comment block *)

Definition kitCommentMarker : string := "# kit:".
Definition syntaxMarker : string := "# syntax=".

(** [strings.TrimRight] with a set of bytes. *)
Fixpoint trim_left_set (cs : list ascii) (s : string) : string :=
  match s with
  | String c s' => if bool_decide (c ∈ cs) then trim_left_set cs s' else s
  | "" => ""
  end.
Definition trim_right_set (cs : list ascii) (s : string) : string := String.rev (trim_left_set cs (String.rev s)).
Definition cr : ascii := byte 13.
Definition tab : ascii := byte 9.

Fixpoint comment_block (lines : list string) : string :=
  match lines with
  | [] => ""
  | line :: lines =>
      let line := trim_right_set [cr] line in
      if negb (has_prefix "#" line) then ""
      else
        let text := trim_prefix " " (trim_prefix "#" line) in
        if bool_decide (text = "") then newline +:+ comment_block lines
        else if negb (has_prefix "  " text) then ""
        else str_drop 2 text +:+ newline +:+ comment_block lines
  end.
Definition is_marker (line : string) : bool := bool_decide (trim_right_set [" "%char; tab; cr] line = kitCommentMarker).
(** The lines after the first marker. *)
Fixpoint after_marker (lines : list string) : option (list string) :=
  match lines with
  | [] => None
  | line :: lines => if is_marker line then Some lines else after_marker lines
  end.
Definition extractCommentDescriptor (src : string) : option string :=
  comment_block <$> after_marker (split newline_byte src).

Definition neutralizeSyntaxLine (src : string) : string :=
  let '(first, rest, found) := cut newline_byte src in
  if negb (has_prefix syntaxMarker (trim_space first)) then src
  else
    let neutral := "# (syntax directive consumed by the kit frontend)" in
    if found then neutral +:+ newline +:+ rest else neutral.

(** The lines from a second syntax stanza on, above the first instruction. *)
Fixpoint syntax_stanza (line : nat) (lines : list string) : option (list string) :=
  match lines with
  | [] => None
  | l :: rest =>
      let text := trim_space (trim_right_set [cr] l) in
      if (0 <? line) && has_prefix syntaxMarker text then Some lines
      else if (0 <? line) && negb (bool_decide (text = "")) && negb (has_prefix "#" text) then None
      else syntax_stanza (S line) rest
  end.
Definition contentRecipe (src : string) : string :=
  match syntax_stanza 0 (split newline_byte src) with
  | Some lines => join newline lines
  | None => neutralizeSyntaxLine src
  end.

(** ** Options *)

Definition keyFilename : string := "filename".
Definition keyTarget : string := "target".
Definition keyPlatform : string := "platform".
Definition keyImageResolveMode : string := "image-resolve-mode".
Definition keyMultiPlatform : string := "multi-platform".
Definition keyNoCache : string := "no-cache".
Definition keyCmdline : string := "cmdline".
Definition keySource : string := "source".
Definition keyFrontendCaps : string := "frontend.caps".
Definition keyRequestID : string := "requestid".
Definition keyDockerfileKey : string := "dockerfilekey".
Definition buildArgPrefix : string := "build-arg:".
Definition attestPrefix : string := "attest:".

Definition reservedSubSolveOpt (k : string) : bool :=
  bool_decide (k ∈ [buildArgPrefix +:+ "BUILDKIT_SYNTAX"; keyMultiPlatform; buildArgPrefix +:+ "BUILDKIT_MULTI_PLATFORM";
                    keyCmdline; keySource; keyFrontendCaps; keyRequestID; keyDockerfileKey]) ||
  has_prefix attestPrefix k || has_prefix (buildArgPrefix +:+ "BUILDKIT_ATTEST_") k.

(** The value a declared build argument forwards. *)
Definition forwarded_arg (opts : gmap string string) (name : string) (decl : Arg) : option (string * string) :=
  if bool_decide (Arg_BuildArg decl = "") then None
  else
    let dst := buildArgPrefix +:+ Arg_BuildArg decl in
    if reservedSubSolveOpt dst then None
    else pair dst <$> match opts !! (buildArgPrefix +:+ name) with Some v => Some v | None => Arg_Default decl end.

(** [declared] is the descriptor's arguments in the order Go ranges over them, which
    decides between two that map onto one destination. *)
Definition dockerfileFrontendOpts (FormatAll : Platform → string) (declared : list (string * Arg))
    (opts : gmap string string) (companion : string) (plat : option Platform) : gmap string string :=
  let kept := filter (λ kv, reservedSubSolveOpt kv.1 = false ∧ kv.1 ≠ keyFilename ∧ kv.1 ≠ keyPlatform) opts in
  let fo := <[keyFilename := companion]> kept in
  let fo := match plat with Some p => <[keyPlatform := FormatAll p]> fo | None => fo end in
  foldl (λ fo nd, match forwarded_arg opts nd.1 nd.2 with Some (dst, v) => <[dst := v]> fo | None => fo end) fo declared.

(** [attestations.Parse] is the library's. *)
Definition attestationsRequested (parse_attestations : gmap string string → result string (gmap string (gmap string string)))
    (opts : gmap string string) : bool :=
  match parse_attestations opts with
  | Err _ => false
  | Ok parsed =>
      existsb (λ ka, negb (bool_decide (ka.2 !! "disabled" = Some "true") || bool_decide (ka.2 !! "inline-only" = Some "true")))
        (map_to_list parsed)
  end.

(** ** Which recipe *)

Record companionSource := mkCompanion { recipe_name : string; recipe_bytes : string; inline : bool }.
Record sources := mkSources { source_descriptor : string; source_companion : option string }.

Inductive recipe_error :=
  | TwoRecipes (filename : string)
  | CompanionBeside (filename companion : string)
  | RecipeUnreadable (dockerfile cause : string).

(** The path of [b] beside [a]. *)
Definition Dir (p : string) : string := Clean (Split p).1.
Definition Ext (p : string) : string :=
  let file := (Split p).2 in match last_index "." file with Some i => str_drop i file | None => "" end.

Definition explicitCompanion (read_file : string → result string string) (d : Descriptor) (src : sources)
    (filename conventional : string) : result recipe_error companionSource :=
  if negb (bool_decide (Build d = "")) then Err (TwoRecipes filename)
  else
    let name := Join (Dir filename) (Clean (Dockerfile d)) in
    match (if bool_decide (name = conventional) then source_companion src else None) with
    | Some body => Ok (mkCompanion name body false)
    | None => body ← map_err (RecipeUnreadable (Dockerfile d)) (read_file name); Ok (mkCompanion name body false)
    end.

Definition companionSourceFor (d : Descriptor) (src : sources) (stem filename companion : string) :
    result recipe_error (option companionSource) :=
  match source_companion src with
  | Some body =>
      if negb (bool_decide (Build d = "")) then Err (CompanionBeside filename companion)
      else Ok (Some (mkCompanion companion body false))
  | None =>
      if negb (bool_decide (Build d = "")) then Ok (Some (mkCompanion (stem +:+ ".build.dockerfile") (Build d) true))
      else Ok None
  end.

(** ** Platforms and the final stage *)

Record Stage := mkStage { Stage_Name : string; BaseName : string; Stage_Platform : string }.

Class Dockerfiles := {
  Ast : Type;
  parse_file : string → result string Ast;
  EscapeToken : Ast → ascii;
  (** The stages, and each ARG instruction above the first with its keys and defaults. *)
  parse_stages : Ast → result string (list Stage * list (list (string * option string)));
  ProcessWord : ascii → string → gmap string string → result string string;
  platform_Parse : string → result string Platform;
  platform_Normalize : Platform → Platform;
  platform_Format : Platform → string;
  platform_FormatAll : Platform → string;
  DefaultSpec : Platform;
}.

(** [strings.EqualFold], of strings one of which is ASCII: the runes outside ASCII that
    fold into it are the Kelvin sign and the long s. *)
Definition lower_byte (c : ascii) : ascii := if is_upper c then ascii_of_N (N_of_ascii c + 32) else c.
Definition kelvin : string := of_bytes [226; 132; 170].
Definition long_s : string := of_bytes [197; 191].
Fixpoint fold_key (skip : nat) (s : string) : string :=
  match skip, s with
  | S skip, String _ s => fold_key skip s
  | _, "" => ""
  | O, String c s' =>
      if has_prefix kelvin s then String "k" (fold_key 2 s')
      else if has_prefix long_s s then String "s" (fold_key 1 s')
      else String (lower_byte c) (fold_key 0 s')
  end.
Definition EqualFold (s t : string) : bool := bool_decide (fold_key 0 s = fold_key 0 t).

Inductive stage_error :=
  | FileUnparsed (cause : string)
  | StagesUnparsed (cause : string)
  | NoStages
  | ArgUnexpanded (key cause : string)
  | TargetMissing (target : string)
  | BaseUnexpanded (word cause : string)
  | BaseEmpty (word : string)
  | PlatformUnexpanded (word cause : string)
  | PlatformEmpty (word : string)
  | PlatformUnparsed (word cause : string).

Record stageBase := mkStageBase { base : string; isStage : bool; alias : string; explicit : option Platform }.

Section Stages.
Context `{Dockerfiles}.

Fixpoint parse_platforms (seen : list string) (parts : list string) : result string (list (option Platform)) :=
  match parts with
  | [] => Ok []
  | part :: parts =>
      p ← platform_Parse (trim_space part);
      let p := platform_Normalize p in
      let id := platform_FormatAll p in
      if bool_decide (id ∈ seen) then parse_platforms seen parts
      else rest ← parse_platforms (id :: seen) parts; Ok (Some p :: rest)
  end.
Definition parsePlatforms (opt : string) : result string (list (option Platform)) :=
  if bool_decide (opt = "") then Ok [None] else parse_platforms [] (split "," opt).

Definition builtinPlatformArgs (target build : Platform) : list (string * string) :=
  [("BUILDPLATFORM", platform_Format build); ("BUILDOS", OS build); ("BUILDOSVERSION", OSVersion build);
   ("BUILDARCH", Architecture build); ("BUILDVARIANT", Variant build); ("TARGETPLATFORM", platform_FormatAll target);
   ("TARGETOS", OS target); ("TARGETOSVERSION", OSVersion target); ("TARGETARCH", Architecture target);
   ("TARGETVARIANT", Variant target)].

(** The target a caller named: one that is empty names none. *)
Definition requested_target (opts : gmap string string) : option string :=
  match opts !! keyTarget with Some t => if bool_decide (t = "") then None else Some t | None => None end.

Definition automatic_args (opts : gmap string string) (target build : Platform) : gmap string string :=
  list_to_map (map (λ kv, (kv.1, default kv.2 (opts !! (buildArgPrefix +:+ kv.1))))
    (builtinPlatformArgs target build ++ [("TARGETSTAGE", default "default" (requested_target opts))])).

Fixpoint bind_args (opts : gmap string string) (escape : ascii) (env : gmap string string)
    (args : list (string * option string)) : result stage_error (gmap string string) :=
  match args with
  | [] => Ok env
  | (key, preset) :: args =>
      match opts !! (buildArgPrefix +:+ key), preset with
      | Some v, _ => bind_args opts escape (<[key := v]> env) args
      | None, Some word =>
          v ← map_err (ArgUnexpanded key) (ProcessWord escape word env);
          bind_args opts escape (<[key := v]> env) args
      | None, None => bind_args opts escape env args
      end
  end.

Fixpoint find_target (t : string) (i : nat) (stages : list Stage) : option nat :=
  match stages with
  | [] => None
  | s :: stages => if EqualFold (Stage_Name s) t then Some i else find_target t (S i) stages
  end.
Definition analyzed_stage (opts : gmap string string) (stages : list Stage) : result stage_error nat :=
  match requested_target opts with
  | Some t => match find_target t 0 stages with Some i => Ok i | None => Err (TargetMissing t) end
  | None => Ok (length stages - 1)
  end.

Definition stage_platform (escape : ascii) (env : gmap string string) (s : Stage) : result stage_error (option Platform) :=
  let word := Stage_Platform s in
  if bool_decide (word = "") then Ok None
  else
    pstr ← map_err (PlatformUnexpanded word) (ProcessWord escape word env);
    if bool_decide (pstr = "") then Err (PlatformEmpty word)
    else p ← map_err (PlatformUnparsed pstr) (platform_Parse pstr); Ok (Some (platform_Normalize p)).

Definition earlier_stage (base : string) (s : Stage) : bool :=
  negb (bool_decide (Stage_Name s = "")) && EqualFold (Stage_Name s) base.

Definition zero_stage : Stage := mkStage "" "" "".
Definition finalStage (companion : string) (opts : gmap string string) (target build : Platform) :
    result stage_error stageBase :=
  ast ← map_err FileUnparsed (parse_file companion);
  '(stages, metaArgs) ← map_err StagesUnparsed (parse_stages ast);
  if bool_decide (stages = []) then Err NoStages
  else
    let escape := EscapeToken ast in
    env ← bind_args opts escape (automatic_args opts target build) (concat metaArgs);
    i ← analyzed_stage opts stages;
    let last := nth i stages zero_stage in
    name ← map_err (BaseUnexpanded (BaseName last)) (ProcessWord escape (BaseName last) env);
    if bool_decide (name = "") then Err (BaseEmpty (BaseName last))
    else
      explicit ← stage_platform escape env last;
      Ok match List.find (earlier_stage name) (take i stages) with
         | Some s => mkStageBase (Stage_Name s) true (Stage_Name last) explicit
         | None => mkStageBase name false (Stage_Name last) explicit
         end.

Definition lowerPlatform (final : stageBase) (target : Platform) : Platform := default target (explicit final).

(** [workers] are the platforms of the builder's workers. *)
Definition buildPlatformOf (workers : list (list Platform)) : Platform :=
  match workers with (p :: _) :: _ => p | _ => platform_Normalize DefaultSpec end.
Definition effectiveTargetPlatform (workers : list (list Platform)) (plat : option Platform) : Platform :=
  default (buildPlatformOf workers) plat.
End Stages.
