(* ===== verification/RecipeFacts.v ===== *)
(** The content recipe's properties: what of a build's options reaches the recipe's
    solve, and that a descriptor carried in comments is read back. *)
From stdpp Require Import options.
From S2P Require Import Prelude GoStrings Json Types GoPath Packages Oci SetBuild Yaml Recipe.

(** ** Options *)

Section Options.
Context (FormatAll : Platform → string) (opts : gmap string string) (companion : string) (plat : option Platform).
Implicit Types (declared : list (string * Arg)).

(** What an argument forwards to a key. *)
Definition forwards declared (k v : string) : Prop :=
  ∃ name decl, (name, decl) ∈ declared ∧ forwarded_arg opts name decl = Some (k, v).

Lemma forwarded_arg_dst name decl k v :
  forwarded_arg opts name decl = Some (k, v) → has_prefix buildArgPrefix k = true ∧ reservedSubSolveOpt k = false.
Proof.
  unfold forwarded_arg. destruct (bool_decide (Arg_BuildArg decl = "")); [done|]. cbn zeta.
  destruct (reservedSubSolveOpt _) eqn:E; [done|].
  destruct (match opts !! _ with Some w => Some w | None => _ end); [|done]. intros [= <- <-].
  split; [apply has_prefix_app|done].
Qed.

(** Arguments forwarded in turn: the last to a key is what it has. *)
Lemma forwarded_fold declared (fo : gmap string string) :
  foldl (λ fo nd, match forwarded_arg opts nd.1 nd.2 with Some (dst, v) => <[dst := v]> fo | None => fo end) fo declared =
  list_to_map (reverse (omap (λ nd, forwarded_arg opts nd.1 nd.2) declared)) ∪ fo.
Proof.
  revert fo. induction declared as [|nd declared IH]; intros fo; cbn [foldl omap list_omap].
  { by rewrite reverse_nil, list_to_map_nil, (left_id_L ∅ (∪)). }
  rewrite IH. cbn. destruct (forwarded_arg opts nd.1 nd.2) as [[dst v]|]; [|done].
  rewrite reverse_cons, list_to_map_app, list_to_map_cons, list_to_map_nil, <-(assoc_L (∪)), insert_empty.
  by rewrite insert_union_singleton_l.
Qed.
Lemma forwards_elem declared k v : (k, v) ∈ omap (λ nd, forwarded_arg opts nd.1 nd.2) declared ↔ forwards declared k v.
Proof.
  rewrite list_elem_of_omap. split.
  - intros ([name decl] & ? & ?). by exists name, decl.
  - intros (name & decl & ? & ?). by exists (name, decl).
Qed.

(** What reaches the recipe's solve: no option its solve reserves, the recipe as its file and the one platform
    it is solved for; under any other key what a declared argument forwards to it - the value given for the
    argument's own name, or its default - and, where none does, what the build was given. *)
Theorem sub_solve_options_exact declared k :
  let out := dockerfileFrontendOpts FormatAll declared opts companion plat in
  if reservedSubSolveOpt k then out !! k = None
  else if bool_decide (k = keyFilename) then out !! k = Some companion
  else if bool_decide (k = keyPlatform) then out !! k = match plat with Some p => Some (FormatAll p) | None => None end
  else (∃ v, forwards declared k v ∧ out !! k = Some v) ∨ ((∀ v, ¬ forwards declared k v) ∧ out !! k = opts !! k).
Proof.
  cbn zeta. unfold dockerfileFrontendOpts. rewrite forwarded_fold.
  set (sent := omap _ declared). set (kept := filter _ opts).
  set (own := match plat with Some p => <[keyPlatform := FormatAll p]> (<[keyFilename := companion]> kept) | None => <[keyFilename := companion]> kept end).
  assert (∀ v, (k, v) ∈ sent → has_prefix buildArgPrefix k = true ∧ reservedSubSolveOpt k = false) as Hsent.
  { intros v (name & decl & _ & Hf)%forwards_elem. by eapply forwarded_arg_dst. }
  assert (k ∉ sent.*1 → (list_to_map (reverse sent) ∪ own) !! k = own !! k) as Hout.
  { intros Hk. rewrite lookup_union_r; [done|]. apply not_elem_of_list_to_map_1. by rewrite fmap_reverse, elem_of_reverse. }
  assert (has_prefix buildArgPrefix k = false ∨ reservedSubSolveOpt k = true → k ∉ sent.*1) as Hnot.
  { intros Hk ([k' v] & E & Hin)%list_elem_of_fmap. cbn [fst] in E. subst k'. apply Hsent in Hin as [? ?]. destruct Hk; congruence. }
  assert (k ≠ keyFilename → k ≠ keyPlatform → own !! k = kept !! k) as Hown.
  { intros Hf Hp. unfold own. destruct plat; by rewrite ?lookup_insert_ne. }
  destruct (reservedSubSolveOpt k) eqn:Er.
  { rewrite Hout by auto. rewrite Hown by (by intros ->). apply map_lookup_filter_None_2. right. intros v _ [? _]. cbn in *. congruence. }
  destruct (bool_decide_reflect (k = keyFilename)) as [->|Hf].
  { rewrite Hout by auto. unfold own. destruct plat; [rewrite lookup_insert_ne by done|]; apply lookup_insert_eq. }
  destruct (bool_decide_reflect (k = keyPlatform)) as [->|Hp].
  { rewrite Hout by auto. unfold own. destruct plat as [p|]; [apply lookup_insert_eq|]. rewrite lookup_insert_ne by done.
    apply map_lookup_filter_None_2. right. by intros v _ (_ & _ & []). }
  destruct ((list_to_map (reverse sent) : gmap string string) !! k) as [v|] eqn:Ek; [left|right].
  - exists v. split; [|by apply lookup_union_Some_l]. by apply forwards_elem, elem_of_reverse, elem_of_list_to_map_2.
  - apply not_elem_of_list_to_map_2 in Ek. rewrite fmap_reverse, elem_of_reverse in Ek.
    split; [intros v Hv%forwards_elem; apply Ek, list_elem_of_fmap; by exists (k, v)|].
    rewrite Hout, Hown by done. unfold kept. rewrite map_lookup_filter. destruct (opts !! k) as [v|]; [cbn|done].
    by rewrite option_guard_True.
Qed.
End Options.

(** ** The comment descriptor *)

Lemma rev_app_app s t u : String.rev_app (s +:+ t) u = String.rev_app t (String.rev_app s u).
Proof. revert u. induction s as [|c s IH]; intros u; [done|]. rewrite str_app_cons. cbn. by rewrite IH. Qed.
Lemma rev_snoc s c : String.rev (s +:+ String c "") = String c (String.rev s).
Proof. unfold String.rev. by rewrite rev_app_app. Qed.
Lemma rev_app_rev s t u : String.rev_app (String.rev_app s t) u = String.rev_app t (s +:+ u).
Proof. revert t. induction s as [|c s IH]; intros t; [done|]. cbn. by rewrite IH, str_app_cons. Qed.
Lemma rev_rev s : String.rev (String.rev s) = s.
Proof. unfold String.rev. rewrite rev_app_rev. cbn. apply str_app_nil_r. Qed.
Lemma str_snoc_cases s : s = "" ∨ ∃ s' c, s = s' +:+ String c "".
Proof.
  induction s as [|d s [->|(s' & c & ->)]]; [by left|right..]; [by exists "", d|]. exists (String d s'), c. by rewrite str_app_cons.
Qed.

Lemma trim_right_snoc cs s c :
  trim_right_set cs (s +:+ String c "") = if bool_decide (c ∈ cs) then trim_right_set cs s else s +:+ String c "".
Proof.
  unfold trim_right_set. rewrite rev_snoc. cbn [trim_left_set]. destruct (bool_decide _); [done|].
  by rewrite <-rev_snoc, rev_rev.
Qed.
Lemma trim_right_length cs s : String.length (trim_right_set cs s) <= String.length s.
Proof.
  assert (∀ n s, String.length s = n → String.length (trim_right_set cs s) <= n) as Hn; [|by apply Hn].
  clear s. induction n as [|n IH]; intros s Hs; destruct (str_snoc_cases s) as [->|(s' & c & ->)]; try done.
  - rewrite str_length_app in Hs. cbn in Hs. lia.
  - rewrite trim_right_snoc. rewrite str_length_app in Hs. cbn in Hs. assert (String.length s' = n) as Hs' by lia.
    specialize (IH s' Hs'). destruct (bool_decide _); [lia|rewrite str_length_app; cbn; lia].
Qed.
(** Text that is trimmed stays so behind anything. *)
Lemma trim_right_app cs p s : s ≠ "" → trim_right_set cs s = s → trim_right_set cs (p +:+ s) = p +:+ s.
Proof.
  destruct (str_snoc_cases s) as [->|(s' & c & ->)]; [done|]. intros _. rewrite <-str_app_assoc, !trim_right_snoc.
  destruct (bool_decide _); [|done]. intros E. pose proof (trim_right_length cs s') as Hl. rewrite E, str_length_app in Hl.
  cbn in Hl. lia.
Qed.

(** A document's line as the comment block holds it, and a line as a file may end it. *)
Definition comment_of (line : string) : string := if bool_decide (line = "") then "#" else "#   " +:+ line.
Definition CR : string := String cr "".
Definition ended (line written : string) : Prop := written = line ∨ written = line +:+ CR.
(** A line the block stops at. *)
Definition ends_block (line : string) : bool :=
  let line := trim_right_set [cr] line in
  let text := trim_prefix " " (trim_prefix "#" line) in
  negb (has_prefix "#" line) || negb (bool_decide (text = "")) && negb (has_prefix "  " text).

Lemma ended_trim line written : ended line written → trim_right_set [cr] line = line → trim_right_set [cr] written = line.
Proof. intros [->| ->] E; [done|]. unfold CR. by rewrite trim_right_snoc, bool_decide_eq_true_2 by (by left). Qed.

Lemma comment_block_app body : ∀ written after,
  Forall2 (λ line w, ended (comment_of line) w) body written → Forall (λ line, trim_right_set [cr] line = line) body →
  match after with [] => True | line :: _ => ends_block line = true end →
  comment_block (written ++ after) = foldr (λ line out, line +:+ newline +:+ out) "" body.
Proof.
  induction body as [|line body IH]; intros written after Hw Htrim Hafter.
  - apply Forall2_nil_inv_l in Hw as ->. cbn [app foldr]. destruct after as [|line after]; [done|]. cbn [comment_block].
    unfold ends_block in Hafter. cbn zeta in *. destruct (has_prefix "#" _); [|done]. cbn [negb orb] in *.
    destruct (bool_decide _); [done|]. by destruct (has_prefix "  " _).
  - apply Forall2_cons_inv_l in Hw as (w & written' & Hw & Hws & ->). apply Forall_cons in Htrim as [Hl Htrim].
    cbn [app comment_block foldr]. unfold comment_of in Hw. destruct (bool_decide_reflect (line = "")) as [->|Hne].
    + rewrite (ended_trim "#" w) by done. cbn. by rewrite (IH written' after).
    + rewrite (ended_trim ("#   " +:+ line) w) by (done || by apply trim_right_app).
      change ("#   " +:+ line) with ("#" +:+ (" " +:+ ("  " +:+ line))). cbn zeta.
      rewrite has_prefix_app, !trim_prefix_app, has_prefix_app. cbn [negb].
      rewrite bool_decide_eq_false_2 by done. rewrite (IH written' after) by done.
      change 2 with (String.length "  "). by rewrite str_drop_app.
Qed.

Lemma after_marker_app before marker rest :
  Forall (λ line, is_marker line = false) before → is_marker marker = true →
  after_marker (before ++ marker :: rest) = Some rest.
Proof. intros Hb Hm. induction Hb as [|line before Hl Hb IH]; cbn; [by rewrite Hm|by rewrite Hl]. Qed.

(** C37: A descriptor put into a Dockerfile's comments is read back as it was: of a file whose first marker line is
    followed by the document's lines, each in a comment under the marker and however ended, up to a line that
    is not part of the block, the extraction is the document, whatever comes before and after. *)
Theorem comment_descriptor_roundtrip (before : list string) (marker : string) (body written after : list string) :
  Forall (λ line, contains_byte newline_byte line = false) (before ++ marker :: written ++ after) →
  Forall (λ line, is_marker line = false) before → is_marker marker = true →
  Forall2 (λ line w, ended (comment_of line) w) body written → Forall (λ line, trim_right_set [cr] line = line) body →
  match after with [] => True | line :: _ => ends_block line = true end →
  extractCommentDescriptor (join newline (before ++ marker :: written ++ after)) =
  Some (foldr (λ line doc, line +:+ newline +:+ doc) "" body).
Proof.
  intros Hfree Hb Hm Hw Ht Ha. unfold extractCommentDescriptor. change newline with (String newline_byte "").
  rewrite split_join by (done || by destruct before). rewrite after_marker_app by done. cbn.
  by rewrite (comment_block_app body).
Qed.

Lemma comment_descriptor_roundtrip_witness :
  extractCommentDescriptor
    (join newline (["# syntax=docker/sandbox-kit:3"] ++ "# kit: " ::
       ["#   kind: mixin"; "#"; "#     # note" +:+ CR] ++ ["# built from source"; "FROM scratch"])) =
  Some (foldr (λ line doc, line +:+ newline +:+ doc) "" ["kind: mixin"; ""; "  # note"]).
Proof.
  apply (comment_descriptor_roundtrip ["# syntax=docker/sandbox-kit:3"] "# kit: " ["kind: mixin"; ""; "  # note"]
           ["#   kind: mixin"; "#"; "#     # note" +:+ CR]).
  - repeat (constructor; [by vm_compute|]). constructor.
  - by repeat constructor.
  - by vm_compute.
  - constructor; [by left|]. constructor; [by left|]. constructor; [by right|constructor].
  - by repeat (constructor; [by vm_compute|]).
  - by vm_compute.
Defined.
