(* ===== verification/Report.v ===== *)
(** [tck/report/report.go]: what a conformance run judged and found.

    The detail of a finding is a value here, of a type of its own for each suite;
    the wording the code gives it is [detail_text], which only rendering reads. *)
From stdpp Require Import options.
From S2P Require Import Prelude GoStrings.

Inductive Severity := Fail_ | Warn | Skip.
#[export] Instance Severity_eq_dec : EqDecision Severity.
Proof. solve_decision. Defined.

(** The constants' values: the worst is the least. *)
Definition severity_value (s : Severity) : nat := match s with Fail_ => 0 | Warn => 1 | Skip => 2 end.
Definition Severity_String (s : Severity) : string :=
  match s with Fail_ => "FAIL" | Warn => "WARN" | Skip => "SKIP" end.

Record Finding (D : Type) := mkFinding {
  Finding_Check : string;
  Finding_Requirement : string;
  Finding_Severity : Severity;
  Detail : D;
}.
Arguments mkFinding {D} _ _ _ _.
Arguments Finding_Check {D} _.
Arguments Finding_Requirement {D} _.
Arguments Finding_Severity {D} _.
Arguments Detail {D} _.

Record Check_ := mkCheck { Check_Name : string; Check_Requirement : string }.

Record Report (D : Type) := mkReport { Findings : list (Finding D); Checks : list Check_ }.
Arguments mkReport {D} _ _.
Arguments Findings {D} _.
Arguments Checks {D} _.

Definition zero_report {D} : Report D := mkReport [] [].

Definition Failf {D} (d : D) : Finding D := mkFinding "" "" Fail_ d.
Definition Warnf {D} (d : D) : Finding D := mkFinding "" "" Warn d.
Definition Skipf {D} (d : D) : Finding D := mkFinding "" "" Skip d.

Record Summary := mkSummary {
  Summary_Checks : nat;
  Summary_Failed : nat;
  Summary_Warned : nat;
  Summary_Skipped : nat;
  Summary_Passed : nat;
}.

(** What the run says of a check: nothing, or the worst severity found. *)
Inductive verdict := Passed | Judged (s : Severity).
#[export] Instance verdict_eq_dec : EqDecision verdict.
Proof. solve_decision. Defined.

Section Report.
Context {D : Type}.
Implicit Types (r : Report D) (f : Finding D).

(** ** Recording *)

(** A check is recorded once. *)
Definition ran (r : Report D) (c : Check_) : Report D :=
  if existsb (λ seen, bool_decide (Check_Name seen = Check_Name c)) (Checks r) then r
  else mkReport (Findings r) (Checks r ++ [c]).

(** The check and requirement a rule did not set for itself. *)
Definition attributed (check requirement : string) (f : Finding D) : Finding D :=
  mkFinding (if bool_decide (Finding_Check f = "") then check else Finding_Check f)
    (if bool_decide (Finding_Requirement f = "") then requirement else Finding_Requirement f)
    (Finding_Severity f) (Detail f).

Definition Add (r : Report D) (check requirement : string) (findings : list (Finding D)) : Report D :=
  let r := ran r (mkCheck check requirement) in
  mkReport (Findings r ++ map (attributed check requirement) findings) (Checks r).

(** ** The tally *)

Definition worsen (worst : gmap string Severity) (f : Finding D) : gmap string Severity :=
  match worst !! Finding_Check f with
  | Some s => if severity_value (Finding_Severity f) <? severity_value s
              then <[Finding_Check f := Finding_Severity f]> worst else worst
  | None => <[Finding_Check f := Finding_Severity f]> worst
  end.
Definition worst_findings (r : Report D) : gmap string Severity := foldl worsen ∅ (Findings r).

Definition tally_check (worst : gmap string Severity) (s : Summary) (c : Check_) : Summary :=
  let '(mkSummary n failed warned skipped passed) := s in
  match worst !! Check_Name c with
  | None => mkSummary n failed warned skipped (S passed)
  | Some Fail_ => mkSummary n (S failed) warned skipped passed
  | Some Warn => mkSummary n failed (S warned) skipped passed
  | Some Skip => mkSummary n failed warned (S skipped) passed
  end.
Definition Summary_ (r : Report D) : Summary :=
  foldl (tally_check (worst_findings r)) (mkSummary (length (Checks r)) 0 0 0 0) (Checks r).

(** ** The verdict *)

Definition is_failure (f : Finding D) : bool := bool_decide (Finding_Severity f = Fail_).
Definition Failed (r : Report D) : bool := existsb is_failure (Findings r).

(** [Err], whose error lists the failures. *)
Definition Err_ (r : Report D) : option (list (Finding D)) :=
  match List.filter is_failure (Findings r) with [] => None | failures => Some failures end.

(** [passing] ([tck/report/render.go]). *)
Definition passing (r : Report D) : list Check_ :=
  List.filter (λ c, negb (bool_decide (Check_Name c ∈ map Finding_Check (Findings r)))) (Checks r).
End Report.

(** ** Facts *)

(** Reports as a suite makes them: a check's findings are about that check. *)
Inductive reported {D} : Report D → Prop :=
  | reported_zero : reported zero_report
  | reported_add r check requirement findings :
      reported r → Forall (λ f, Finding_Check f = "" ∨ Finding_Check f = check) findings →
      reported (Add r check requirement findings).

Section Facts.
Context {D : Type}.
Implicit Types (r : Report D) (f : Finding D).

Definition names (r : Report D) : list string := map Check_Name (Checks r).

Lemma ran_names r c :
  names (ran r c) = if bool_decide (Check_Name c ∈ names r) then names r else names r ++ [Check_Name c].
Proof.
  unfold ran, names. destruct (existsb _ (Checks r)) eqn:E.
  - apply existsb_exists in E as (x & Hx & Hn%bool_decide_eq_true). rewrite bool_decide_eq_true_2; [done|].
    apply list_elem_of_fmap. exists x. split; [done|]. by apply list_elem_of_In.
  - rewrite bool_decide_eq_false_2; [cbn; by rewrite map_app|]. intros (x & Hc & Hx)%list_elem_of_fmap.
    apply not_true_iff_false in E. apply E, existsb_exists. exists x. split; [by apply list_elem_of_In|].
    by apply bool_decide_eq_true.
Qed.
Lemma ran_findings r c : Findings (ran r c) = Findings r.
Proof. unfold ran. by destruct (existsb _ _). Qed.

(** The roster has each name once, and every finding is about a name of it. *)
Lemma reported_roster r :
  reported r → NoDup (names r) ∧ ∀ f, f ∈ Findings r → Finding_Check f ∈ names r.
Proof.
  induction 1 as [|r check req fs _ [IH1 IH2] Hfs]; [by split; [constructor|intros f ?%not_elem_of_nil]|].
  change (names (Add r check req fs)) with (names (ran r (mkCheck check req))). rewrite ran_names. cbn [Check_Name].
  assert (∀ f, f ∈ Findings (Add r check req fs) → f ∈ Findings r ∨ Finding_Check f = check) as Hf.
  { intros f. cbn. rewrite ran_findings. intros [|Hin]%elem_of_app; [by left|right].
    apply list_elem_of_fmap in Hin as (g & -> & Hg). rewrite Forall_forall in Hfs. cbn.
    destruct (Hfs g Hg) as [->| ->]; by case_bool_decide. }
  case_bool_decide as Hc.
  - split; [done|]. intros f [Hin| ->]%Hf; [by apply IH2|done].
  - split; [apply NoDup_app; split; [done|]; split; [set_solver|apply NoDup_singleton]|].
    intros f [Hin| ->]%Hf; apply elem_of_app; [left; by apply IH2|right; by left].
Qed.

(** The worst severity found under a name. *)
Definition verdict_of (fs : list (Finding D)) (name : string) : option Severity :=
  foldl worsen ∅ fs !! name.
Lemma worst_step m f name :
  worsen m f !! name =
  if bool_decide (Finding_Check f = name) then
    Some match m !! name with
         | Some s => if severity_value (Finding_Severity f) <? severity_value s then Finding_Severity f else s
         | None => Finding_Severity f
         end
  else m !! name.
Proof.
  unfold worsen. case_bool_decide as Hn.
  - rewrite Hn. destruct (m !! name) as [s|] eqn:E; [|by rewrite lookup_insert_eq].
    destruct (_ <? _); [by rewrite lookup_insert_eq|done].
  - destruct (m !! Finding_Check f); [|by rewrite lookup_insert_ne]. destruct (_ <? _); [by rewrite lookup_insert_ne|done].
Qed.
Lemma verdict_fail_none fs name :
  (verdict_of fs name = Some Fail_ ↔ ∃ f, f ∈ fs ∧ Finding_Check f = name ∧ Finding_Severity f = Fail_) ∧
  (verdict_of fs name = None ↔ name ∉ map Finding_Check fs).
Proof.
  unfold verdict_of. induction fs as [|f fs [IH1 IH2]] using rev_ind.
  { cbn. rewrite lookup_empty. split; [split; [done|by intros (f & ?%not_elem_of_nil & _)]|].
    split; [intros _ ?%not_elem_of_nil; done|done]. }
  rewrite foldl_app, map_app. cbn [foldl map]. rewrite worst_step. rewrite not_elem_of_app.
  setoid_rewrite elem_of_app. setoid_rewrite list_elem_of_singleton. case_bool_decide as Hn.
  - split.
    + split.
      * intros [= E]. destruct (foldl worsen ∅ fs !! name) as [s|]; [|by exists f; eauto].
        destruct (_ <? _); [by exists f; eauto|]. subst s. destruct (proj1 IH1 eq_refl) as (g & ? & ? & ?). by exists g; eauto.
      * intros (g & [Hg| ->] & Hgn & Hgs).
        -- rewrite (proj2 IH1) by eauto. by destruct (Finding_Severity f).
        -- rewrite Hgs. by destruct (foldl worsen ∅ fs !! name) as [[]|].
    + split; [done|]. intros [_ Hf]. by destruct Hf.
  - rewrite IH1, IH2. split.
    + split; [intros (g & ? & ?); exists g; eauto|]. intros (g & [Hg| ->] & ?); [exists g; eauto|naive_solver].
    + split; [intros ?; split; congruence|tauto].
Qed.

(** The tally is four counts over the roster. *)
Definition counted (fs : list (Finding D)) (v : option Severity) (cs : list Check_) : nat :=
  length (List.filter (λ c, bool_decide (verdict_of fs (Check_Name c) = v)) cs).
Lemma tally_counts (fs : list (Finding D)) (cs : list Check_) (n a w s p : nat) :
  foldl (tally_check (foldl worsen ∅ fs)) (mkSummary n a w s p) cs =
  mkSummary n (a + counted fs (Some Fail_) cs) (w + counted fs (Some Warn) cs) (s + counted fs (Some Skip) cs)
    (p + counted fs None cs).
Proof.
  revert a w s p. induction cs as [|c cs IH]; intros a w s p; [cbn; f_equal; lia|].
  cbn [foldl]. unfold tally_check at 2, counted. cbn [List.filter].
  change (foldl worsen ∅ fs !! Check_Name c) with (verdict_of fs (Check_Name c)).
  destruct (verdict_of fs (Check_Name c)) as [[]|]; rewrite IH; unfold counted; f_equal;
    case_bool_decide; try done; cbn [length]; lia.
Qed.
Lemma counted_total fs cs :
  counted fs (Some Fail_) cs + counted fs (Some Warn) cs + counted fs (Some Skip) cs + counted fs None cs = length cs.
Proof.
  unfold counted. induction cs as [|c cs IH]; [done|]. cbn [List.filter].
  destruct (verdict_of fs (Check_Name c)) as [[]|]; repeat case_bool_decide; try done; cbn [length]; lia.
Qed.
Lemma Err_Failed r : is_Some (Err_ r) ↔ Failed r = true.
Proof.
  unfold Err_, Failed. induction (Findings r) as [|f fs IH]; cbn; [by split; [intros [? ?]|]|].
  destruct (is_failure f); [cbn; split; [done|by eexists]|]. done.
Qed.
End Facts.

(** The tally accounts for every check once: the categories add up to the checks that ran, a check counts as
    failed exactly when the run failed under it, and those that passed are the ones nothing was found about. *)
Theorem summary_exact {D} (r : Report D) :
  reported r →
  let s := Summary_ r in
  Summary_Failed s + Summary_Warned s + Summary_Skipped s + Summary_Passed s = length (Checks r) ∧
  Summary_Checks s = length (Checks r) ∧
  (0 < Summary_Failed s ↔ Failed r = true) ∧ (is_Some (Err_ r) ↔ Failed r = true) ∧
  Summary_Passed s = length (passing r).
Proof.
  intros [_ Hroster]%reported_roster. unfold Summary_, worst_findings. rewrite tally_counts. cbn.
  split; [apply counted_total|]. split; [done|]. split; [|split; [apply Err_Failed|]].
  - unfold counted, Failed. rewrite existsb_exists. split.
    + destruct (List.filter _ (Checks r)) as [|c l] eqn:E; cbn; [lia|]. intros _.
      assert (In c (c :: l)) as Hc by by left. rewrite <-E in Hc. apply filter_In in Hc as [_ Hv%bool_decide_eq_true].
      apply verdict_fail_none in Hv as (f & Hf & _ & Hs). exists f. split; [by apply list_elem_of_In|].
      by apply bool_decide_eq_true.
    + intros (f & Hf & Hs%bool_decide_eq_true). apply list_elem_of_In in Hf.
      specialize (Hroster f Hf) as Hc. apply list_elem_of_fmap in Hc as (c & Hn & Hc).
      assert (In c (List.filter (λ c, bool_decide (verdict_of (Findings r) (Check_Name c) = Some Fail_)) (Checks r))) as Hin.
      { apply filter_In. split; [by apply list_elem_of_In|]. apply bool_decide_eq_true, verdict_fail_none. eauto. }
      destruct (List.filter _ _); [done|cbn; lia].
  - unfold counted, passing. f_equal. apply List.filter_ext. intros c.
    apply Bool.eq_true_iff_eq. rewrite negb_true_iff, bool_decide_eq_true, bool_decide_eq_false.
    apply verdict_fail_none.
Qed.
Definition sample_report : Report nat :=
  Add (Add (Add zero_report "layers" "§10" []) "floor" "sbx@1" [Warnf 1; Failf 2]) "links" "§10" [Skipf 3].
Lemma summary_exact_witness :
  Summary_ sample_report = mkSummary 3 1 0 1 1 ∧
  let s := Summary_ sample_report in
  Summary_Failed s + Summary_Warned s + Summary_Skipped s + Summary_Passed s = length (Checks sample_report) ∧
  Summary_Checks s = length (Checks sample_report) ∧
  (0 < Summary_Failed s ↔ Failed sample_report = true) ∧ (is_Some (Err_ sample_report) ↔ Failed sample_report = true) ∧
  Summary_Passed s = length (passing sample_report).
Proof.
  split; [by vm_compute|]. apply summary_exact. unfold sample_report.
  repeat (apply reported_add; [|by repeat constructor]). apply reported_zero.
Defined.
