(* ===== verification/SpecLink.v ===== *)
(** [tck/speclink]: where the specification states a requirement.  The pages are embedded
    in the binary; what walking them hands over is a list of [visited] entries. *)
From stdpp Require Import options.
From S2P Require Import Prelude GoStrings GoPath GoUnicode.

Definition repository : string := "https://github.com/docker/sandbox-kit-spec".

Record Reference := mkReference {
  Reference_Requirement : string;
  Reference_Page : string;
  Reference_Anchor : string;
  Reference_URL : string;
}.
(** The resolver with its index, which [once] fills before the first use. *)
Record Resolver := mkResolver {
  resolver_ref : string;
  statements : gmap string Reference;
  sections : gmap string Reference;
  pages : gset string;
}.

(** [New]: a version that was published is linked at its tag, another build at main. *)
Definition New (version : string) : Resolver :=
  mkResolver
    (if bool_decide (version = "") || bool_decide (version = "dev") then "main"
     else if has_prefix "v" version then version else "v" +:+ version) ∅ ∅ ∅.

(** ** Lines of a page *)

(** [strings.Cut]. *)
Fixpoint cut_str (sep s : string) : string * string * bool :=
  if has_prefix sep s then ("", str_drop (String.length sep) s, true)
  else
    match s with
    | "" => ("", "", false)
    | String c s => let '(before, after, found) := cut_str sep s in (String c before, after, found)
    end.

Definition headingTitle (line : string) : option string :=
  let trimmed := trim_left "#" line in
  if (String.length trimmed =? String.length line) || negb (has_prefix " " trimmed) then None
  else Some (trim_space trimmed).

Definition statementID (line : string) : option string :=
  let '(_, rest, ok) := cut_str "<!-- tck: " line in
  if negb ok then None
  else
    let '(id, _, ok) := cut_str " -->" rest in
    if negb ok then None else Some (trim_space id).

Section Speclink.
Context `{Unicode}.

Definition sectionNumber (title : string) : option string :=
  let number := trim_suffix "." (cut " " title).1.1 in
  if bool_decide (number = "") then None
  else if forallb (λ c, IsDigit c || (c =? 46)%N) (runes number) then Some number
  else None.

Definition slug_rune (c : N) : string :=
  if IsLetter c || IsDigit c || (c =? 45)%N || (c =? 95)%N then encode_rune c
  else if (c =? 32)%N then "-"
  else "".
Definition slug (title : string) : string := String.concat "" (map slug_rune (runes (ToLower title))).

(** ** The index *)

Definition reference (r : Resolver) (requirement page anchor : string) : Reference :=
  let url := repository +:+ "/blob/" +:+ resolver_ref r +:+ "/docs/spec/" +:+ page in
  mkReference requirement ("docs/spec/" +:+ page) anchor
    (if negb (bool_decide (anchor = "")) then url +:+ "#" +:+ anchor else url).

Definition section_sign : string := of_bytes [32; 194; 167].
Definition add_section (r : Resolver) (page title heading : string) : Resolver :=
  match sectionNumber title with
  | Some number =>
      let id := page +:+ section_sign +:+ number in
      mkResolver (resolver_ref r) (statements r) (<[id := reference r id page heading]> (sections r)) (pages r)
  | None => r
  end.
Definition add_statement (r : Resolver) (page id heading : string) : Resolver :=
  mkResolver (resolver_ref r) (<[id := reference r id page heading]> (statements r)) (sections r) (pages r).

(** A line of a page, with the fragment of the heading it is under. *)
Definition index_line (page : string) (st : string * Resolver) (line : string) : string * Resolver :=
  let '(heading, r) := st in
  match headingTitle line with
  | Some title => (slug title, add_section r page title (slug title))
  | None =>
      match statementID line with
      | Some id => (heading, add_statement r page id heading)
      | None => (heading, r)
      end
  end.
Definition indexPage (r : Resolver) (page body : string) : Resolver :=
  (foldl (index_line page) ("", r) (split newline_byte body)).2.

(** An entry of the walk: its name, whether it could be read as an entry, whether it is a
    directory, and its bytes where they could be read. *)
Record visited := mkVisited {
  visited_name : string;
  visited_err : bool;
  visited_dir : bool;
  visited_body : option string;
}.
Definition index_visited (r : Resolver) (v : visited) : Resolver :=
  if visited_err v || visited_dir v || negb (has_suffix ".md" (visited_name v)) then r
  else
    match visited_body v with
    | None => r
    | Some body =>
        indexPage (mkResolver (resolver_ref r) (statements r) (sections r) ({[ visited_name v ]} ∪ pages r))
          (visited_name v) body
    end.
Definition index (r : Resolver) (walk : list visited) : Resolver :=
  foldl index_visited (mkResolver (resolver_ref r) ∅ ∅ ∅) walk.

(** ** Resolving *)

Definition splitRequirement (requirement : string) : string * string :=
  match cut_str section_sign requirement with
  | (doc, section, true) =>
      let doc := trim_space doc in
      (if has_suffix ".md" doc then doc else doc +:+ ".md", section)
  | _ =>
      let '(capability, statement, _) := cut "/" requirement in
      if negb (contains_byte "@" capability) then ("", "")
      else (Join "capabilities/com.docker.sandbox" (capability +:+ ".md"), statement)
  end.

Definition Resolve (r : Resolver) (requirement : string) : option Reference :=
  let requirement := trim_space requirement in
  if bool_decide (requirement = "") then None
  else
    match statements r !! requirement with
    | Some ref => Some ref
    | None =>
        let '(page, rest) := splitRequirement requirement in
        if bool_decide (page = "") || negb (bool_decide (page ∈ pages r)) then None
        else
          let section := (cut "/" rest).1.1 in
          match (if bool_decide (section = "") then None else sections r !! (page +:+ section_sign +:+ section)) with
          | Some ref =>
              Some (mkReference requirement (Reference_Page ref) (Reference_Anchor ref) (Reference_URL ref))
          | None => Some (reference r requirement page "")
          end
    end.
Definition URL (r : Resolver) (requirement : string) : string :=
  match Resolve r requirement with Some ref => Reference_URL ref | None => "" end.

(** ** Facts *)

(** A link as the resolver writes it, to a page it has. *)
Definition links (r : Resolver) (ref : Reference) : Prop :=
  ∃ page anchor, page ∈ pages r ∧ ref = reference r (Reference_Requirement ref) page anchor.
Definition named_link (r : Resolver) (id : string) (ref : Reference) : Prop :=
  Reference_Requirement ref = id ∧ links r ref.
Definition indexed (r : Resolver) : Prop :=
  map_Forall (named_link r) (statements r) ∧ map_Forall (named_link r) (sections r).

(** What a step adds is on the page it reads. *)
Lemma links_more r r' ref :
  resolver_ref r = resolver_ref r' → pages r ⊆ pages r' → links r ref → links r' ref.
Proof.
  intros E Hp (page & anchor & Hin & Hr). exists page, anchor. split; [set_solver|].
  unfold reference in *. by rewrite <-E.
Qed.
Lemma links_reference r id page anchor : page ∈ pages r → links r (reference r id page anchor).
Proof. intros Hp. by exists page, anchor. Qed.
Lemma named_more r r' (m : gmap string Reference) :
  resolver_ref r = resolver_ref r' → pages r ⊆ pages r' → map_Forall (named_link r) m → map_Forall (named_link r') m.
Proof.
  intros E Hp Hm. eapply map_Forall_impl; [exact Hm|]. intros id ref [Hid Hl]. split; [done|]. by eapply links_more.
Qed.
Lemma links_add r id page heading (m : gmap string Reference) :
  page ∈ pages r → map_Forall (named_link r) m →
  map_Forall (named_link r) (<[id := reference r id page heading]> m).
Proof. intros Hp Hm. apply map_Forall_insert_2; [|done]. split; [done|]. by apply links_reference. Qed.

Lemma index_line_indexed page st line :
  page ∈ pages st.2 → indexed st.2 →
  let st' := index_line page st line in indexed st'.2 ∧ pages st'.2 = pages st.2 ∧ resolver_ref st'.2 = resolver_ref st.2.
Proof.
  destruct st as [heading r]. cbn. intros Hp [Hs Ht]. unfold index_line, add_section.
  destruct (headingTitle line) as [title|]; cbn.
  - destruct (sectionNumber title); [|done]. split; [|done]. split; [exact Hs|]. by apply (links_add r).
  - destruct (statementID line) as [id|]; [|done]. split; [|done]. split; [by apply (links_add r)|exact Ht].
Qed.
Lemma indexPage_indexed r page body :
  page ∈ pages r → indexed r →
  indexed (indexPage r page body) ∧ pages (indexPage r page body) = pages r ∧
  resolver_ref (indexPage r page body) = resolver_ref r.
Proof.
  intros Hp Hr. unfold indexPage. generalize (split newline_byte body). intros lines.
  assert (∀ st, page ∈ pages st.2 → indexed st.2 →
    indexed (foldl (index_line page) st lines).2 ∧ pages (foldl (index_line page) st lines).2 = pages st.2 ∧
    resolver_ref (foldl (index_line page) st lines).2 = resolver_ref st.2) as Hall; [|by apply (Hall ("", r))].
  clear. induction lines as [|line lines IH]; intros st Hp Hr; [done|].
  destruct (index_line_indexed page st line Hp Hr) as (Hr' & Ep & Er).
  destruct (IH (index_line page st line)) as (? & E1 & E2); [by rewrite Ep|done|].
  cbn [foldl]. by rewrite E1, E2.
Qed.
Lemma index_visited_indexed r v :
  indexed r → indexed (index_visited r v) ∧ resolver_ref (index_visited r v) = resolver_ref r.
Proof.
  intros [Hs Ht]. unfold index_visited. destruct (_ || _); [done|]. destruct (visited_body v) as [body|]; [|done].
  destruct (indexPage_indexed (mkResolver (resolver_ref r) (statements r) (sections r) ({[ visited_name v ]} ∪ pages r))
    (visited_name v) body) as (? & _ & ?); [cbn; set_solver| |done].
  split; apply (named_more r); (done || cbn; set_solver).
Qed.
Lemma index_indexed r walk : indexed (index r walk) ∧ resolver_ref (index r walk) = resolver_ref r.
Proof.
  unfold index. assert (∀ q, indexed q → indexed (foldl index_visited q walk) ∧ resolver_ref (foldl index_visited q walk) = resolver_ref q)
    as Hall; [|by apply (Hall (mkResolver (resolver_ref r) ∅ ∅ ∅))].
  induction walk as [|v walk IH]; intros q Hq; [done|].
  destruct (index_visited_indexed q v Hq) as [Hq' E]. destruct (IH _ Hq') as [? E']. by rewrite <-E.
Qed.

(** *** The pages that were read *)

Definition readable (v : visited) : option string :=
  if visited_err v || visited_dir v || negb (has_suffix ".md" (visited_name v)) then None else visited_body v.
Definition read_page (page : string) (v : visited) : Prop := visited_name v = page ∧ is_Some (readable v).

Lemma index_visited_readable r v :
  index_visited r v =
  match readable v with
  | Some body =>
      indexPage (mkResolver (resolver_ref r) (statements r) (sections r) ({[ visited_name v ]} ∪ pages r)) (visited_name v) body
  | None => r
  end.
Proof. unfold index_visited, readable. by destruct (_ || _), (visited_body v). Qed.
Lemma index_line_pages page st line : pages (index_line page st line).2 = pages st.2.
Proof. destruct st as [heading r]. cbn. unfold add_section. by repeat case_match. Qed.
Lemma foldl_index_line_pages page lines st : pages (foldl (index_line page) st lines).2 = pages st.2.
Proof. revert st. induction lines as [|line lines IH]; intros st; cbn; [done|]. by rewrite IH, index_line_pages. Qed.
Lemma index_visited_pages r v page : page ∈ pages (index_visited r v) ↔ page ∈ pages r ∨ read_page page v.
Proof.
  rewrite index_visited_readable. unfold read_page. destruct (readable v) as [body|] eqn:E.
  - unfold indexPage. rewrite foldl_index_line_pages. cbn. rewrite elem_of_union, elem_of_singleton.
    split; [intros [->|]; eauto|]. intros [|[<- _]]; eauto.
  - split; [by left|]. by intros [|[_ [? ?]]].
Qed.
Lemma index_pages r walk page : page ∈ pages (index r walk) ↔ ∃ v, v ∈ walk ∧ read_page page v.
Proof.
  unfold index. assert (∀ q, page ∈ pages (foldl index_visited q walk) ↔ page ∈ pages q ∨ ∃ v, v ∈ walk ∧ read_page page v) as Hall.
  - induction walk as [|v walk IH]; intros q; cbn [foldl].
    + split; [by left|]. intros [?|(v & []%not_elem_of_nil & _)]. done.
    + rewrite IH, index_visited_pages. setoid_rewrite elem_of_cons. naive_solver.
  - rewrite Hall. set_solver.
Qed.

(** *** What a line declares *)

Definition declares (id : string) (line : string) : Prop := headingTitle line = None ∧ statementID line = Some id.
Definition declared_in (id : string) (v : visited) : Prop :=
  ∃ body line, readable v = Some body ∧ line ∈ split newline_byte body ∧ declares id line.

(** The fragment of the heading the line after these lines is under. *)
Definition heading_after (lines : list string) : string := default "" (slug <$> last (omap headingTitle lines)).

Lemma index_line_heading page lines st :
  (foldl (index_line page) st lines).1 = default st.1 (slug <$> last (omap headingTitle lines)).
Proof.
  revert st. induction lines as [|line lines IH]; intros [heading r]; [done|]. cbn [foldl omap list_omap]. rewrite IH.
  unfold index_line. destruct (headingTitle line) as [title|]; cbn; [|destruct (statementID line); reflexivity].
  destruct (omap headingTitle lines) as [|t ts]; [done|]. rewrite last_cons_cons.
  destruct (last (t :: ts)) eqn:E; [done|]. by apply last_None in E.
Qed.
Lemma index_line_keeps page id st line :
  ¬ declares id line → statements (index_line page st line).2 !! id = statements st.2 !! id.
Proof.
  destruct st as [heading r]. unfold declares, index_line, add_section, add_statement. intros Hd.
  destruct (headingTitle line) as [title|]; cbn; [by destruct (sectionNumber title)|].
  destruct (statementID line) as [id'|]; cbn; [|done]. apply lookup_insert_ne. intros <-. by apply Hd.
Qed.
Lemma index_lines_keep page id lines st :
  (∀ line, line ∈ lines → ¬ declares id line) →
  statements (foldl (index_line page) st lines).2 !! id = statements st.2 !! id.
Proof.
  revert st. induction lines as [|line lines IH]; intros st Hl; cbn; [done|].
  rewrite IH by (intros; apply Hl; set_solver). apply index_line_keeps, Hl. set_solver.
Qed.
Lemma index_keeps id walk r :
  (∀ v, v ∈ walk → ¬ declared_in id v) →
  statements (foldl index_visited r walk) !! id = statements r !! id.
Proof.
  revert r. induction walk as [|v walk IH]; intros r Hw; cbn [foldl]; [done|].
  rewrite IH by (intros; apply Hw; set_solver). rewrite index_visited_readable.
  destruct (readable v) as [body|] eqn:E; [|done]. unfold indexPage. rewrite index_lines_keep; [done|].
  intros line Hin Hd. apply (Hw v); [set_solver|]. by exists body, line.
Qed.
Lemma foldl_index_line_ref page lines st : resolver_ref (foldl (index_line page) st lines).2 = resolver_ref st.2.
Proof.
  revert st. induction lines as [|line lines IH]; intros [heading r]; cbn [foldl]; [done|]. rewrite IH.
  unfold index_line, add_section. by repeat case_match.
Qed.
Lemma statementID_trimmed line id : statementID line = Some id → trim_space id = id.
Proof.
  unfold statementID. destruct (cut_str _ line) as [[? rest] []]; cbn; [|done].
  destruct (cut_str _ rest) as [[? ?] []]; cbn; [|done]. intros [= <-]. apply trim_space_idemp.
Qed.

(** The index has a statement at the line that declares it, under the heading above it. *)
Lemma index_statement r walk v walk' body before line after id :
  readable v = Some body → split newline_byte body = before ++ line :: after → declares id line →
  (∀ l, l ∈ after → ¬ declares id l) → (∀ v', v' ∈ walk' → ¬ declared_in id v') →
  statements (index r (walk ++ v :: walk')) !! id = Some (reference r id (visited_name v) (heading_after before)).
Proof.
  intros Hv Hbody [Hh Hid] Hafter Hwalk. unfold index. rewrite foldl_app. cbn [foldl].
  destruct (index_indexed r walk) as [_ Eref]. unfold index in Eref. set (q := foldl index_visited _ walk) in *.
  rewrite index_keeps by done. rewrite index_visited_readable, Hv. unfold indexPage. rewrite Hbody, foldl_app.
  cbn [foldl]. rewrite index_lines_keep by done. set (q' := mkResolver _ _ _ _).
  pose proof (index_line_heading (visited_name v) before ("", q')) as Hd.
  pose proof (foldl_index_line_ref (visited_name v) before ("", q')) as Hr.
  destruct (foldl (index_line (visited_name v)) ("", q') before) as [heading q''].
  unfold index_line. rewrite Hh, Hid. cbn in *. rewrite lookup_insert_eq. unfold reference. by rewrite Hr, Eref, Hd.
Qed.
End Speclink.

(** ** What a requirement resolves to *)

(** A statement the pages declare resolves to the page it is on and the heading it is
    under: the last declaration of the id, in the order the pages are read, decides. *)
Theorem statement_resolves `{Unicode} version walk v walk' body before line after id :
  readable v = Some body → split newline_byte body = before ++ line :: after →
  declares id line → id ≠ "" →
  (∀ l, l ∈ after → ¬ declares id l) → (∀ v', v' ∈ walk' → ¬ declared_in id v') →
  Resolve (index (New version) (walk ++ v :: walk')) id =
    Some (reference (New version) id (visited_name v) (heading_after before)).
Proof.
  intros Hv Hbody Hd Hne Hafter Hwalk. unfold Resolve. rewrite (statementID_trimmed line id) by apply Hd.
  rewrite bool_decide_eq_false_2 by done. by erewrite index_statement.
Qed.

(** A resolved requirement is the one asked for, and its link is to a page the binary
    carries, at the version's own text. *)
Theorem links_land `{Unicode} version walk requirement ref :
  Resolve (index (New version) walk) requirement = Some ref →
  Reference_Requirement ref = trim_space requirement ∧
  ∃ v page anchor, v ∈ walk ∧ read_page page v ∧ ref = reference (New version) (trim_space requirement) page anchor.
Proof.
  destruct (index_indexed (New version) walk) as [[Hs Ht] Er]. unfold Resolve. set (r := index _ walk) in *.
  set (q := trim_space requirement). intros E.
  assert (Reference_Requirement ref = q ∧ links r ref) as [Hq (page & anchor & Hp & ->)].
  { destruct (bool_decide (q = "")); [done|]. destruct (statements r !! q) as [ref'|] eqn:Es.
    { simplify_eq. by apply (Hs q). }
    destruct (splitRequirement q) as [page rest]. destruct (_ || _) eqn:Ep in E; [done|].
    apply orb_false_iff in Ep as [_ Ep]. apply negb_false_iff, bool_decide_eq_true_1 in Ep.
    revert E. case_match eqn:Eo; intros [= <-]; [|split; [done|]; by apply links_reference].
    split; [done|]. revert Eo. case_bool_decide; [done|]. intros Eo. destruct (Ht _ _ Eo) as [_ (pg & anchor & Hpg & ->)].
    exists pg, anchor. by split. }
  apply index_pages in Hp as (v & Hv & Hread). rewrite <-Hq. split; [done|]. exists v, page, anchor.
  split; [done|]. split; [done|]. cbn. unfold reference. by rewrite Er.
Qed.

(** ** The pages' own lines *)

Module Pages.
#[local] Existing Instance ascii_tables.

(** Of docs/spec/SPEC-v3.md: section 3.4, and section 5.3 after it. *)
Definition lines_before : list string :=
  ["### 3.4 Kit set"; ""; "```yaml"; "# syntax=docker/sandbox-kit:3"; "schemaVersion: '3'"; "```"].
Definition at_least_one : string :=
  "- A `kind: set` descriptor **MUST** list at least one kit. <!-- tck: SPEC-v3" +:+ section_sign +:+ "3.4/set-has-kits -->".
Definition lines_after : list string := [""; "### 5.3 Resolution semantics (consumer contract)"; ""].
Definition body : string := join (String newline_byte "") (lines_before ++ at_least_one :: lines_after).
Definition spec_page : visited := mkVisited "SPEC-v3.md" false false (Some body).
Definition has_kits : string := "SPEC-v3" +:+ section_sign +:+ "3.4/set-has-kits".

Lemma statement_resolves_witness :
  Resolve (index (New "v3.1.0") ([] ++ spec_page :: [])) has_kits =
    Some (reference (New "v3.1.0") has_kits "SPEC-v3.md" (heading_after lines_before)).
Proof.
  apply (statement_resolves "v3.1.0" [] spec_page [] body lines_before at_least_one lines_after has_kits).
  - reflexivity.
  - by vm_compute.
  - split; by vm_compute.
  - by vm_compute.
  - intros l Hl [_ Hd]. unfold lines_after in Hl. rewrite !elem_of_cons in Hl.
    destruct Hl as [->|[->|[->|[]%not_elem_of_nil]]]; by vm_compute in Hd.
  - intros v []%not_elem_of_nil.
Defined.

(** A section is found by its number. *)
Example section_link :
  URL (index (New "dev") [spec_page]) ("SPEC-v3" +:+ section_sign +:+ "5.3") =
  "https://github.com/docker/sandbox-kit-spec/blob/main/docs/spec/SPEC-v3.md#53-resolution-semantics-consumer-contract".
Proof. by vm_compute. Qed.

(** A comment inside a fenced example is taken for a heading: the statement under it is
    linked at a fragment the page does not have, where its section's is
    [34-kit-set]. *)
Example fenced_comment_is_heading :
  URL (index (New "v3.1.0") [spec_page]) has_kits =
    "https://github.com/docker/sandbox-kit-spec/blob/v3.1.0/docs/spec/SPEC-v3.md#syntaxdockersandbox-kit3" ∧
  slug "3.4 Kit set" = "34-kit-set".
Proof. by vm_compute. Qed.
End Pages.
