(* ===== verification/KitSuite.v ===== *)
(** [tck/kit/kit.go] with [agent_skill.go] and [inspect.go]: the conformance checks
    of a published kit, and reading what one says about itself.

    The kit under test is the record [Artifact], as the code's interface; a source
    that does not implement one of the optional interfaces leaves its field
    [None].  The details of the findings are the constructors of [detail]. *)
From stdpp Require Import options.
From S2P Require Import Prelude GoStrings Version VersionOrder Json Types Config GoPath Template Merge Packages Overlay Resolve Oci Validate Expand Registry Publish Report.

(** ** The kit under test *)

Definition StagedKitRoot : string := "/usr/share/sandbox/kit".
Definition stagedDescriptorName : string := "kit.yaml".
Definition stagedRecipeName : string := "kit.dockerfile".

Inductive read_error := TooLarge | ReadFailed (cause : string).

Record FileStat := mkFileStat { Stat_Mode : Z; Stat_Uid : Z; Stat_Gid : Z; Regular : bool }.

Record overlayWalker := mkWalker {
  walker_DirStat : string → result read_error (option FileStat);
  walker_DanglingSymlinks : result read_error (list SymlinkAt);
}.

(** A path with nothing there is [None]; layers a build has not assembled too. *)
Record Artifact := mkArtifact {
  Annotations : gmap string string;
  Artifact_Config : result string OciImage;
  Artifact_Layers : result string (option (list Blob));
  ReadFile : string → result read_error (option string);
  StagedStems : result string (list string);
  IndexAnnotations : option (gmap string string);
  fileChecker : option (string → result read_error bool);
  statChecker : option (string → result read_error (option FileStat));
  walker : option overlayWalker;
  kitResolver : option (string → string → result string (gmap string string));
}.

Definition annotation (a : gmap string string) (key : string) : string := default "" (a !! key).

Definition hasFile (a : Artifact) (name : string) : result read_error bool :=
  match fileChecker a with
  | Some has => has name
  | None => body ← ReadFile a name; Ok (bool_decide (is_Some body))
  end.

(** ** Accounts *)

Record passwdEntry := mkPasswdEntry { account_name : string; account_home : string; account_uid : Z; account_gid : Z }.

Definition all_digits (s : string) : bool := negb (bool_decide (s = "")) && str_forall is_digit s.

Definition MaxUint32 : Z := 4294967295.
(** A value that does not fit [ParseInt]'s 64 bits is out of range here too. *)
Definition parseID (s : string) : option Z :=
  if negb (all_digits s) then None
  else
    let id := Z.of_N (digits_value 0 s) in
    if (MaxUint32 <=? id)%Z then None else Some id.

Definition explicitGroup (user : string) : option string :=
  let '(_, group, ok) := cut ":" user in
  if ok && negb (bool_decide (group = "")) then Some group else None.

(** The fields of a line of an account database that is a record. *)
Definition record_fields (n : nat) (line : string) : option (list string) :=
  let line := trim_suffix (of_bytes [13]) line in
  if has_prefix "#" line then None
  else
    let fields := split ":" line in
    if length fields =? n then Some fields else None.
Definition nth_field (i : nat) (fields : list string) : string := default "" (fields !! i).

Definition group_row (want line : string) : option Z :=
  match record_fields 4 line with
  | Some fields => if bool_decide (nth_field 0 fields = want) then parseID (nth_field 2 fields) else None
  | None => None
  end.
Definition lookupGroup (groupFile want : string) : option Z :=
  if all_digits want then parseID want
  else head (omap (group_row want) (split newline_byte groupFile)).

(** The account a row of the database is, when it is the one wanted. *)
Definition row_matches (want : string) (fields : list string) : bool :=
  if all_digits want then
    match parseID (nth_field 2 fields) with
    | Some row => bool_decide (Some row = parseID want)
    | None => false
    end
  else bool_decide (nth_field 0 fields = want).
Definition row_entry (fields : list string) : option passwdEntry :=
  match parseID (nth_field 2 fields), parseID (nth_field 3 fields) with
  | Some uid, Some gid =>
      if bool_decide (nth_field 0 fields = "") || negb (has_prefix "/" (nth_field 5 fields)) then None
      else Some (mkPasswdEntry (nth_field 0 fields) (nth_field 5 fields) uid gid)
  | _, _ => None
  end.
Definition passwd_row (want line : string) : option passwdEntry :=
  match record_fields 7 line with
  | Some fields => if row_matches want fields then row_entry fields else None
  | None => None
  end.
Definition set_gid (e : passwdEntry) (gid : Z) : passwdEntry :=
  mkPasswdEntry (account_name e) (account_home e) (account_uid e) gid.

Definition lookupPasswd (passwd group user : string) : option passwdEntry :=
  let '(want, _, _) := cut ":" user in
  if all_digits want && negb (bool_decide (is_Some (parseID want))) then None
  else
    e ← head (omap (passwd_row want) (split newline_byte passwd));
    match explicitGroup user with
    | None => Some e
    | Some wantGroup => gid ← lookupGroup group wantGroup; Some (set_gid e gid)
    end.

(** ** Findings *)

(** Why a listed kit has no effective form. *)
Inductive effective_error :=
  | ArgsRefused (cause : arg_error)
  | Unencodable
  | Unexpanded (cause : expand_error)
  | Undecodable (cause : decode_error).

Inductive detail :=
  | NoAnnotation
  | AnnotationUndecodable (cause : decode_error)
  | DescriptorInvalid (errs : list FieldError)
  | AnnotationDiffers (key got want : string)
  | AnnotationUnfounded (key got : string)
  | BuiltByUndecodable
  | BuiltByIncomplete (field : string)
  | MustNotEmit (key : string)
  | LayersUnread (cause : string)
  | LayersUnassembled
  | NoLayers
  | NothingStaged
  | ReadRefused (path : string) (cause : read_error)
  | StagedMissing (path : string)
  | StagedMalformed (cause : decode_error)
  | StagedDiffers
  | NoStem
  | RecipeMissing
  | ConfigurationUnread (cause : config_error)
  | ContextElsewhere (path : string)
  | ContextReserved (path : string)
  | ContextMissing (path : string)
  | SkillMissing (name path : string)
  | SkillIrregular (path : string)
  | ImageConfigUnread (cause : string)
  | NotRunnable
  | HomeOwner (path : string) (uid : Z) (owner : string)
  | LinkDangles (path target : string)
  | WalkUnsupported
  | FloorOnMixin
  | NoUser
  | AccountsTooLarge (path user : string)
  | AccountsUnread (path cause : string)
  | NoAccounts (user : string)
  | UserUnresolved (user : string)
  | ShellMissing (path : string)
  | ShellNotExecutable (path user : string)
  | NoPersistentEnv
  | PersistentEnvRelative (path : string)
  | PersistentEnvMissing (path : string)
  | DerivedOnMixin (entries : list string)
  | DerivedCarried
  | DatabaseTooLarge (path namespace : string)
  | DatabaseMissing (path namespace : string) (entries : nat)
  | DatabaseUnread (path : string)
  | NotInstalled (entry path : string)
  | VersionDiffers (entry version path raw want : string)
  | SetWithRecipe
  | StemsUnlisted (cause : string)
  | StemsMissing (kits : nat) (stems : list string)
  | KitsUnreachable
  | KitUnreachable (ref cause : string)
  | KitWithoutAnnotation (ref : string)
  | KitUndecodable (ref : string) (cause : decode_error)
  | KitInvalid (ref : string) (errs : list FieldError)
  | KitNotExpanded (ref : string) (cause : effective_error)
  | KitNotStaged (ref : string) (staged : nat)
  | ReExportBroken (ref : string) (cause : reexport_error)
  | ProvideDropped (ref name version : string)
  | LicenseDropped (ref license : string)
  | RelationKept (relation entry : string)
  | IndexUnfounded (key : string)
  | IndexLacks (key : string)
  | IndexDiffers (key : string).

Notation findings := (list (Finding detail)).
Definition fail_ (d : detail) : findings := [Failf d].
Definition skip (d : detail) : findings := [Skipf d].
Definition warn (d : detail) : findings := [Warnf d].

(** What the checks share. *)
Record state := mkState { artifact : Artifact; sdescriptor : Descriptor; stem : string }.
Record check := mkSuiteCheck { check_name : string; requirement : string; run : state → findings }.

(** The image config user's identity: resolved, or findings; an account database
    that cannot be read is an error. *)
Definition resolveImageUser (a : Artifact) (user : string) :
    result (string * string) (option passwdEntry * findings) :=
  match ReadFile a "/etc/passwd" with
  | Err TooLarge => Ok (None, warn (AccountsTooLarge "/etc/passwd" user))
  | Err (ReadFailed e) => Err ("/etc/passwd", e)
  | Ok None => Ok (None, fail_ (NoAccounts user))
  | Ok (Some passwd) =>
      let resolved groupFile :=
        match lookupPasswd passwd groupFile user with
        | Some who => Ok (Some who, [])
        | None => Ok (None, fail_ (UserUnresolved user))
        end in
      match explicitGroup user with
      | None => resolved ""
      | Some group =>
          if all_digits group then resolved ""
          else
            match ReadFile a "/etc/group" with
            | Err TooLarge => Ok (None, warn (AccountsTooLarge "/etc/group" user))
            | Err (ReadFailed e) => Err ("/etc/group", e)
            | Ok groupFile => resolved (default "" groupFile)
            end
      end
  end.

(** Whether the identity can execute the path; [None] when the source cannot tell. *)
Definition has_bit (mode bit : Z) : bool := negb (bool_decide (Z.land mode bit = 0%Z)).
Definition executableBy (a : Artifact) (name : string) (who : passwdEntry) : result read_error (option bool) :=
  match statChecker a with
  | None => Ok None
  | Some file_stat =>
      st ← file_stat name;
      match st with
      | None => Ok None
      | Some st =>
          Ok (Some
            (if negb (Regular st) then false
             else if bool_decide (account_uid who = 0%Z) then has_bit (Stat_Mode st) 73
             else if bool_decide (Stat_Uid st = account_uid who) then has_bit (Stat_Mode st) 64
             else if bool_decide (Stat_Gid st = account_gid who) then has_bit (Stat_Mode st) 8
             else has_bit (Stat_Mode st) 1))
      end
  end.

(** ** The checks *)

Definition managedOCIKeys : list string :=
  [OCIAnnotationTitle; OCIAnnotationDescription; OCIAnnotationAuthors; OCIAnnotationSource; OCIAnnotationLicenses;
   OCIAnnotationVersion].
Definition never_emitted : list string :=
  ["org.opencontainers.image.created"; "org.opencontainers.image.revision"; "org.opencontainers.image.base.name";
   "org.opencontainers.image.base.digest"].

(** *** Staged content *)

Definition read_bundled_skill (a : Artifact) (file : string) : findings :=
  match statChecker a with
  | None => []
  | Some file_stat =>
      match file_stat file with
      | Err e => fail_ (ReadRefused file e)
      | Ok (Some stat) => if Regular stat then [] else fail_ (SkillIrregular file)
      | Ok None => fail_ (SkillIrregular file)
      end
  end.
Definition check_skill (a : Artifact) (skill : AgentSkill) : findings :=
  let file := Join (AgentSkill_Path skill) "SKILL.md" in
  match hasFile a file with
  | Err e => fail_ (ReadRefused file e)
  | Ok false => fail_ (SkillMissing (AgentSkillName skill) file)
  | Ok true => read_bundled_skill a file
  end.
(** The first finding ends the check. *)
Fixpoint first_finding {A} (f : A → findings) (l : list A) : findings :=
  match l with [] => [] | x :: l => match f x with [] => first_finding f l | found => found end end.
Definition AgentSkillRequestsOf (needs : list Capability) : result config_error (list (decoded AgentSkill)) :=
  selected_of CapabilityAgentSkill (decode_request decode_agent_skill zero_skill) needs.
Definition checkAgentSkillContent (s : state) : findings :=
  match AgentSkillRequestsOf (DeclaredCapabilities (Capabilities (sdescriptor s))) with
  | Err e => fail_ (ConfigurationUnread e)
  | Ok skills => first_finding (λ skill, check_skill (artifact s) (request skill)) skills
  end.

Definition staged_root (s : state) : string := Join StagedKitRoot (stem s).

Definition check_recipe (s : state) : findings :=
  if bool_decide (stem s = "") then skip NoStem
  else
    let file := Join (staged_root s) stagedRecipeName in
    match hasFile (artifact s) file with
    | Err e => fail_ (ReadRefused file e)
    | Ok present =>
        let hasRecipe := negb (bool_decide (Build (sdescriptor s) = "")) ||
                         negb (bool_decide (Dockerfile (sdescriptor s) = "")) in
        if hasRecipe && negb present then fail_ RecipeMissing else []
    end.

Definition check_context_file (s : state) (file : string) : findings :=
  if bool_decide (stem s = "") then skip NoStem
  else
    let own := staged_root s +:+ "/" in
    let clean := Clean file in
    if negb (has_prefix own clean) || negb (bool_decide (clean = file)) then fail_ (ContextElsewhere file)
    else if bool_decide (clean = own +:+ stagedDescriptorName) || bool_decide (clean = own +:+ stagedRecipeName)
    then fail_ (ContextReserved clean)
    else
      match hasFile (artifact s) file with
      | Err e => fail_ (ReadRefused file e)
      | Ok false => fail_ (ContextMissing file)
      | Ok true => []
      end.
Definition check_context_entry (s : state) (entry : Capability) : option findings :=
  match AgentContextOf [entry] with
  | Err e => Some (fail_ (ConfigurationUnread e))
  | Ok (Some ac) =>
      if bool_decide (AgentContext_ContentFile ac = "") then None
      else match check_context_file s (AgentContext_ContentFile ac) with [] => None | found => Some found end
  | Ok None => None
  end.
Definition check_context (s : state) : findings :=
  default [] (head (omap (check_context_entry s) (DeclaredCapabilities (Capabilities (sdescriptor s))))).

(** *** Annotations *)

Definition check_schema_version (s : state) : findings :=
  let got := annotation (Annotations (artifact s)) AnnotationSchemaVersion in
  let want := Descriptor_SchemaVersion (sdescriptor s) in
  if bool_decide (got = want) then [] else fail_ (AnnotationDiffers AnnotationSchemaVersion got want).
Definition check_capabilities (s : state) : findings :=
  let got := Annotations (artifact s) !! AnnotationCapabilities in
  let want := CapabilityTypes (Capabilities (sdescriptor s)) in
  if bool_decide (want = "") then
    match got with Some got => fail_ (AnnotationUnfounded AnnotationCapabilities got) | None => [] end
  else if bool_decide (default "" got = want) then []
  else fail_ (AnnotationDiffers AnnotationCapabilities (default "" got) want).
Definition check_oci_key (ann derived : gmap string string) (key : string) : findings :=
  match derived !! key, ann !! key with
  | Some want, got =>
      if bool_decide (default "" got = want) then [] else fail_ (AnnotationDiffers key (default "" got) want)
  | None, Some got => fail_ (AnnotationUnfounded key got)
  | None, None => []
  end.
Definition check_oci (s : state) : findings :=
  let ann := Annotations (artifact s) in
  flat_map (check_oci_key ann (OCIAnnotations (sdescriptor s))) managedOCIKeys ++
  flat_map (λ key, match ann !! key with Some _ => fail_ (MustNotEmit key) | None => [] end) never_emitted.

Definition promoted : list string :=
  [AnnotationDescriptor; AnnotationSchemaVersion; AnnotationCapabilities; AnnotationBuiltBy].
Definition check_index_key (manifest index : gmap string string) (key : string) : findings :=
  match index !! key, manifest !! key with
  | Some _, None => fail_ (IndexUnfounded key)
  | None, Some _ => warn (IndexLacks key)
  | Some value, Some manifestValue =>
      if bool_decide (value = manifestValue) then [] else fail_ (IndexDiffers key)
  | None, None => []
  end.
Definition check_index (s : state) : findings :=
  match IndexAnnotations (artifact s) with
  | None => []
  | Some index => flat_map (check_index_key (Annotations (artifact s)) index) promoted
  end.

(** *** Layers and the image configuration *)

Definition check_layers (s : state) : findings :=
  match Artifact_Layers (artifact s) with
  | Err e => fail_ (LayersUnread e)
  | Ok None => skip LayersUnassembled
  | Ok (Some []) => fail_ NoLayers
  | Ok (Some _) => []
  end.
Definition check_image_config (s : state) : findings :=
  match Artifact_Config (artifact s) with
  | Err e => fail_ (ImageConfigUnread e)
  | Ok cfg =>
      if negb (bool_decide (Kind (sdescriptor s) = KindWorkload)) then []
      else
        match Entrypoint (Image_Config cfg) ++ Cmd (Image_Config cfg) with
        | [] => fail_ NotRunnable
        | arg :: _ => if bool_decide (arg = "") then fail_ NotRunnable else []
        end
  end.

(** The overlay's own entries, when the check applies. *)
Definition overlayWalkerFor (s : state) : result findings overlayWalker :=
  if negb (bool_decide (Kind (sdescriptor s) = KindMixin)) then Err []
  else
    match Artifact_Layers (artifact s) with
    | Err e => Err (fail_ (LayersUnread e))
    | Ok None => Err (skip LayersUnassembled)
    | Ok (Some _) => match walker (artifact s) with None => Err (skip WalkUnsupported) | Some w => Ok w end
    end.
Definition homeLevels : list (string * Z * string) :=
  [("/home", 0%Z, "root"); ("/home/agent", 1000%Z, "the agent user (uid 1000)")].
Fixpoint check_homes (w : overlayWalker) (levels : list (string * Z * string)) : findings :=
  match levels with
  | [] => []
  | (path, uid, owner) :: levels =>
      match walker_DirStat w path with
      | Err e => fail_ (ReadRefused path e)
      | Ok (Some st) =>
          (if bool_decide (Stat_Uid st = uid) then [] else fail_ (HomeOwner path (Stat_Uid st) owner)) ++
          check_homes w levels
      | Ok None => check_homes w levels
      end
  end.
Definition check_home_ownership (s : state) : findings :=
  match overlayWalkerFor s with Err found => found | Ok w => check_homes w homeLevels end.
Definition check_links (s : state) : findings :=
  match overlayWalkerFor s with
  | Err found => found
  | Ok w =>
      match walker_DanglingSymlinks w with
      | Err e => fail_ (ReadRefused "symlinks" e)
      | Ok links => flat_map (λ l, warn (LinkDangles (Symlink_Path l) (Symlink_Target l))) links
      end
  end.

(** *** The platform floor *)

Definition asks_sbx (s : state) : bool := HasCapability (DeclaredCapabilities (Capabilities (sdescriptor s))) CapabilitySbx.

(** An error while reading ends the check. *)
Fixpoint check_shells (a : Artifact) (user : string) (who : option passwdEntry) (shells : list string) : findings :=
  match shells with
  | [] => []
  | shell :: shells =>
      match hasFile a shell with
      | Err e => fail_ (ReadRefused shell e)
      | Ok false => fail_ (ShellMissing shell) ++ check_shells a user who shells
      | Ok true =>
          match who with
          | None => check_shells a user who shells
          | Some w =>
              match executableBy a shell w with
              | Err e => fail_ (ReadRefused shell e)
              | Ok (Some false) => fail_ (ShellNotExecutable shell user) ++ check_shells a user who shells
              | Ok _ => check_shells a user who shells
              end
          end
      end
  end.
Definition floor_shells : list string := ["/bin/sh"; "/bin/bash"].
Definition check_floor (s : state) : findings :=
  if negb (asks_sbx s) then []
  else if negb (bool_decide (Kind (sdescriptor s) = KindWorkload)) then fail_ FloorOnMixin
  else
    match Artifact_Config (artifact s) with
    | Err e => fail_ (ImageConfigUnread e)
    | Ok cfg =>
        let user := User (Image_Config cfg) in
        if bool_decide (trim_space user = "") then
          fail_ NoUser ++ check_shells (artifact s) user None floor_shells
        else
          match resolveImageUser (artifact s) user with
          | Err (path, e) => fail_ (AccountsUnread path e)
          | Ok (who, found) => found ++ check_shells (artifact s) user who floor_shells
          end
    end.

Definition bash_env_key : string := "BASH_ENV=".
Definition bash_env (env : list string) : string :=
  foldl (λ file e, if has_prefix bash_env_key e then trim_prefix bash_env_key e else file) "" env.
Definition check_persistent_env (s : state) : findings :=
  if negb (asks_sbx s) || negb (bool_decide (Kind (sdescriptor s) = KindWorkload)) then []
  else
    match Artifact_Config (artifact s) with
    | Err e => fail_ (ImageConfigUnread e)
    | Ok cfg =>
        let file := bash_env (Env (Image_Config cfg)) in
        if bool_decide (file = "") then warn NoPersistentEnv
        else if negb (is_abs file) then warn (PersistentEnvRelative file)
        else
          match hasFile (artifact s) file with
          | Err e => fail_ (ReadRefused file e)
          | Ok false => warn (PersistentEnvMissing file)
          | Ok true => []
          end
    end.

(** *** Derived provides *)

Record derivedEntry := mkDerivedEntry { spelling : string; entry_name : string; entry_version : string }.

Definition derived_entry (s : string) : option (string * derivedEntry) :=
  match ParseProvide s with
  | Err _ => None
  | Ok p =>
      if negb (IsDerivedProvide (PName p)) then None
      else
        let '(namespace, name, _) := cut "/" (PName p) in
        Some (namespace, mkDerivedEntry (trim_space s) name (PVersion p))
  end.
Definition add_derived (m : gmap string (list derivedEntry)) (ne : string * derivedEntry) :
    gmap string (list derivedEntry) :=
  <[ne.1 := default [] (m !! ne.1) ++ [ne.2]]> m.
Definition derivedByNamespace (provides : list string) : gmap string (list derivedEntry) :=
  foldl add_derived ∅ (omap derived_entry provides).
Definition flattenDerived (byNamespace : gmap string (list derivedEntry)) : list string :=
  sort_strings (flat_map (λ ne, map spelling ne.2) (map_to_list byNamespace)).

Definition check_derived_entry (path : string) (recorded : gmap string (list string)) (e : derivedEntry) : findings :=
  match recorded !! entry_name e with
  | None => fail_ (NotInstalled (spelling e) path)
  | Some raws =>
      flat_map (λ raw,
        if bool_decide (PackageVersion raw = entry_version e) then []
        else fail_ (VersionDiffers (spelling e) (entry_version e) path raw (PackageVersion raw))) raws
  end.
Definition record_package (m : gmap string (list string)) (p : Package) : gmap string (list string) :=
  <[Package_Name p := default [] (m !! Package_Name p) ++ [Package_Version p]]> m.
(** An unreadable database ends the check. *)
Fixpoint check_databases (a : Artifact) (byNamespace : gmap string (list derivedEntry)) (dbs : list PackageDatabase) :
    findings :=
  match dbs with
  | [] => []
  | db :: dbs =>
      let rest := check_databases a byNamespace dbs in
      match default [] (byNamespace !! Namespace db) with
      | [] => rest
      | entries =>
          match ReadFile a (Database_Path db) with
          | Err TooLarge => warn (DatabaseTooLarge (Database_Path db) (Namespace db)) ++ rest
          | Err e => fail_ (ReadRefused (Database_Path db) e)
          | Ok None => fail_ (DatabaseMissing (Database_Path db) (Namespace db) (length entries)) ++ rest
          | Ok (Some body) =>
              let '(installed, ok) := Read db body in
              if negb ok then fail_ (DatabaseUnread (Database_Path db))
              else
                let recorded := foldl record_package ∅ installed in
                flat_map (check_derived_entry (Database_Path db) recorded) entries ++ rest
          end
      end
  end.
Definition check_derived (s : state) : findings :=
  let byNamespace := derivedByNamespace (Provides (sdescriptor s)) in
  if bool_decide (byNamespace = ∅) then []
  else if negb (bool_decide (Kind (sdescriptor s) = KindWorkload)) then fail_ (DerivedOnMixin (flattenDerived byNamespace))
  else match Kits (sdescriptor s) with
       | _ :: _ => skip DerivedCarried
       | [] => check_databases (artifact s) byNamespace PackageDatabases
       end.

(** *** A merged set *)

Definition check_merged_set (s : state) : findings :=
  let d := sdescriptor s in
  match Kits d with
  | [] => []
  | kits =>
      (if negb (bool_decide (Build d = "")) || negb (bool_decide (Dockerfile d = "")) then fail_ SetWithRecipe else []) ++
      match StagedStems (artifact s) with
      | Err e => fail_ (StemsUnlisted e)
      | Ok stems =>
          if length stems <? length kits + 1 then fail_ (StemsMissing (length kits) stems) else []
      end
  end.

(** A listed kit's argument that stands for one of the set's. *)
Definition judge_argument (merged : Descriptor) (ref : string) (d : Descriptor) (args : gmap string string) (name : string) :
    findings :=
  match args !! name with
  | None => []
  | Some value =>
      if negb (IsWholeArgRef value) then []
      else
        match ReferencedArgs value with
        | [setName] =>
            match CheckReExport name (default zero_arg (Args d !! name)) setName
                    (default zero_arg (Args merged !! setName)) (bool_decide (is_Some (Args merged !! setName))) with
            | Err e => fail_ (ReExportBroken ref e)
            | Ok _ => []
            end
        | _ => []
        end
  end.
Definition by_reference (kits : list Contribution) : gmap string Descriptor :=
  foldl (λ m c, <[Contribution_Reference c := cdescriptor c]> m) ∅ kits.
Definition judgeReExports (merged : Descriptor) (kits : list Contribution) : findings :=
  flat_map (λ k,
    match by_reference kits !! Kit_Ref k with
    | None => []
    | Some d => flat_map (judge_argument merged (Kit_Ref k) d (Kit_Args k)) (sort_strings (map fst (map_to_list (Kit_Args k))))
    end) (Kits merged).

(** Names the merge carries, with their versions. *)
Definition carried_key (version : string) (s : string) : option string :=
  match ParseProvide s with
  | Err _ => None
  | Ok p => Some (PName p +:+ "@" +:+ (if bool_decide (PVersion p = "") then version else PVersion p))
  end.
Definition judge_provide (carried : gset string) (c : Contribution) (s : string) : findings :=
  match ParseProvide s with
  | Err _ => []
  | Ok p =>
      let version := if bool_decide (PVersion p = "")
                     then EffectiveProvideVersion (Contribution_Reference c) (Contribution_Descriptor c) else PVersion p in
      if bool_decide (PName p +:+ "@" +:+ version ∈ carried) then []
      else fail_ (ProvideDropped (Contribution_Reference c) (DisplayCapabilityName (PName p)) version)
  end.
Definition stated_requires (entries : list string) : gset string :=
  list_to_set (omap (λ s, match ParseRequire s with Ok r => Some (CanonicalRequire r) | Err _ => None end) entries).
Definition judge_relation (relation : string) (stated : gset string) (owned : gmap string (list OwnedProvide))
    (ref s : string) : findings :=
  match ParseRequire s with
  | Err _ => []
  | Ok r =>
      if SatisfiedByOther owned r ref && bool_decide (CanonicalRequire r ∈ stated) then fail_ (RelationKept relation s)
      else []
  end.
Definition judge_relations (relation : string) (of_ : Descriptor → list string) (merged : Descriptor)
    (kits : list Contribution) : findings :=
  let stated := stated_requires (of_ merged) in
  flat_map (λ c, flat_map (judge_relation relation stated (OwnedProvides kits) (Contribution_Reference c))
                   (of_ (cdescriptor c))) kits.
Definition judgeMergedDeclarations (merged : Descriptor) (kits : list Contribution) : findings :=
  let carried : gset string := list_to_set (omap (carried_key (Types.Version merged)) (Provides merged)) in
  flat_map (λ c, flat_map (judge_provide carried c) (Provides (cdescriptor c))) kits ++
  flat_map (λ c, flat_map (λ l, if bool_decide (l ∈ Licenses merged) then []
                                else fail_ (LicenseDropped (Contribution_Reference c) l)) (Licenses (cdescriptor c))) kits ++
  judge_relations "requires" Requires merged kits ++ judge_relations "integrates" Integrates merged kits.

(** ** With the documents' decoders *)

Section Suite.
Context `{Documents} (compile : string → option (string → bool)) (json_text : string → option value).

(** Compared as documents, re-encoded. *)
Definition descriptorsAgree (a b : Descriptor) : bool :=
  match json_marshal (encode_descriptor a), json_marshal (encode_descriptor b) with
  | Some one, Some other => bool_decide (one = other)
  | _, _ => false
  end.

Definition staged_descriptor (a : Artifact) (stem : string) : option Descriptor :=
  match ReadFile a (Join (Join StagedKitRoot stem) stagedDescriptorName) with
  | Ok (Some raw) => match Decode raw with Ok d => Some d | Err _ => None end
  | _ => None
  end.
Definition ownStem (a : Artifact) (d : Descriptor) (stems : list string) : string :=
  match stems with
  | [stem] => stem
  | _ => default "" (List.find (λ stem, match staged_descriptor a stem with
                                        | Some staged => descriptorsAgree staged d
                                        | None => false
                                        end) stems)
  end.

Definition check_descriptor (s : state) : findings :=
  match (ValidatePublished (annotation (Annotations (artifact s)) AnnotationDescriptor) (sdescriptor s)).2 with
  | [] => []
  | errs => fail_ (DescriptorInvalid errs)
  end.
Definition check_built_by (s : state) : findings :=
  match ParseBuiltBy json_text (Annotations (artifact s)) with
  | None => []
  | Some None => fail_ BuiltByUndecodable
  | Some (Some b) =>
      if bool_decide (BuiltBy_Name b = "") then fail_ (BuiltByIncomplete "name")
      else if bool_decide (BuiltBy_Version b = "") then fail_ (BuiltByIncomplete "version")
      else []
  end.
Definition check_staged (s : state) : findings :=
  if bool_decide (stem s = "") then fail_ NothingStaged
  else
    let file := Join (staged_root s) stagedDescriptorName in
    match ReadFile (artifact s) file with
    | Err e => fail_ (ReadRefused file e)
    | Ok None => fail_ (StagedMissing file)
    | Ok (Some raw) =>
        match Decode raw with
        | Err e => fail_ (StagedMalformed e)
        | Ok staged => if descriptorsAgree staged (sdescriptor s) then [] else fail_ StagedDiffers
        end
    end.

(** Each kit a staged root of its own: roots are used up as they match. *)
Fixpoint take_staged (d : Descriptor) (staged : list Descriptor) : option (list Descriptor) :=
  match staged with
  | [] => None
  | s :: staged => if descriptorsAgree s d then Some staged else cons s <$> take_staged d staged
  end.
Fixpoint judge_staged (total : nat) (staged : list Descriptor) (kits : list Contribution) : findings :=
  match kits with
  | [] => []
  | c :: kits =>
      match take_staged (cdescriptor c) staged with
      | Some staged => judge_staged total staged kits
      | None => fail_ (KitNotStaged (Contribution_Reference c) total) ++ judge_staged total staged kits
      end
  end.
Definition judgeStagedSources (a : Artifact) (kits : list Contribution) : findings :=
  match StagedStems a with
  | Err e => fail_ (StemsUnlisted e)
  | Ok stems =>
      let staged := omap (staged_descriptor a) stems in judge_staged (length staged) staged kits
  end.

Definition effectiveContribution (k : Kit) (d : Descriptor) : result effective_error Descriptor :=
  values ← map_err ArgsRefused (KitArgValues compile (Args d) (Kit_Args k));
  match json_marshal (encode_descriptor d) with
  | None => Err Unencodable
  | Some raw =>
      expanded ← map_err Unexpanded (ExpandCreateArgs raw (Args d) values);
      out ← map_err Undecodable (Decode expanded);
      Ok (set_args ∅ (set_version (EffectiveProvideVersion (Kit_Ref k) (Some out)) out))
  end.

(** A listed kit, as published and as merged; a finding ends the check. *)
Definition read_listed (resolve_kit : string → string → result string (gmap string string)) (k : Kit) :
    result findings (Contribution * Contribution) :=
  match resolve_kit (Kit_Ref k) (Kit_Digest k) with
  | Err e => Err (skip (KitUnreachable (Kit_Ref k) e))
  | Ok listed =>
      let raw := annotation listed AnnotationDescriptor in
      if bool_decide (raw = "") then Err (fail_ (KitWithoutAnnotation (Kit_Ref k)))
      else
        d ← map_err (λ e, fail_ (KitUndecodable (Kit_Ref k) e)) (Decode raw);
        match (ValidatePublished raw d).2 with
        | [] =>
            effective ← map_err (λ e, fail_ (KitNotExpanded (Kit_Ref k) e)) (effectiveContribution k d);
            Ok (mkContribution (Kit_Ref k) (Some d), mkContribution (Kit_Ref k) (Some effective))
        | errs => Err (fail_ (KitInvalid (Kit_Ref k) errs))
        end
  end.
Fixpoint read_all_listed (resolve_kit : string → string → result string (gmap string string)) (kits : list Kit) :
    result findings (list (Contribution * Contribution)) :=
  match kits with
  | [] => Ok []
  | k :: kits => c ← read_listed resolve_kit k; rest ← read_all_listed resolve_kit kits; Ok (c :: rest)
  end.
Definition check_merged_declarations (s : state) : findings :=
  match Kits (sdescriptor s) with
  | [] => []
  | kits =>
      match kitResolver (artifact s) with
      | None => skip KitsUnreachable
      | Some resolve_kit =>
          match read_all_listed resolve_kit kits with
          | Err found => found
          | Ok listed =>
              judgeStagedSources (artifact s) listed.*1 ++ judgeReExports (sdescriptor s) listed.*1 ++
              judgeMergedDeclarations (sdescriptor s) listed.*2
          end
      end
  end.

(** ** The suite *)

Definition checks : list check :=
  [mkSuiteCheck "agent-skill-content" "agent-skill@1/content-present" checkAgentSkillContent;
   mkSuiteCheck "descriptor-valid" "SPEC-v3 §9.3" check_descriptor;
   mkSuiteCheck "schema-version-annotation" "SPEC-v3 §9.3" check_schema_version;
   mkSuiteCheck "capabilities-annotation" "SPEC-v3 §9.3" check_capabilities;
   mkSuiteCheck "built-by-annotation" "SPEC-v3 §9.3" check_built_by;
   mkSuiteCheck "oci-annotations" "SPEC-v3 §9.3" check_oci;
   mkSuiteCheck "at-least-one-layer" "SPEC-v3 §10" check_layers;
   mkSuiteCheck "staged-sources" "SPEC-v3 §10" check_staged;
   mkSuiteCheck "staged-recipe" "SPEC-v3 §10" check_recipe;
   mkSuiteCheck "agent-context-staged" "agent-context@1" check_context;
   mkSuiteCheck "image-config" "SPEC-v3 §10" check_image_config;
   mkSuiteCheck "overlay-home-ownership" "SPEC-v3 §10" check_home_ownership;
   mkSuiteCheck "overlay-links-resolve" "SPEC-v3 §10" check_links;
   mkSuiteCheck "sbx-platform-floor" "sbx@1" check_floor;
   mkSuiteCheck "sbx-persistent-env" "sbx@1" check_persistent_env;
   mkSuiteCheck "derived-provides" "SPEC-v3 §9.6" check_derived;
   mkSuiteCheck "merged-set" "SPEC-v3 §9.5" check_merged_set;
   mkSuiteCheck "merged-set-declarations" "SPEC-v3 §9.5" check_merged_declarations;
   mkSuiteCheck "index-annotations" "SPEC-v3 §9.3" check_index].
Definition Requirements : list string := map requirement checks.
Definition CheckNames : list string := map check_name checks.

Definition run_check (s : state) (rep : Report detail) (c : check) : Report detail :=
  Add rep (check_name c) (requirement c) (run c s).

(** [Run]; only the staged roots failing to list is an error. *)
Definition Run (a : Artifact) : result string (Report detail) :=
  let raw := annotation (Annotations a) AnnotationDescriptor in
  let alone d := Ok (Add zero_report "descriptor-annotation" "SPEC-v3 §9.3" (fail_ d)) in
  if bool_decide (raw = "") then alone NoAnnotation
  else
    match Decode raw with
    | Err e => alone (AnnotationUndecodable e)
    | Ok d =>
        stems ← StagedStems a;
        let s := mkState a d (ownStem a d stems) in
        Ok (foldl (run_check s) zero_report checks)
    end.

(** ** Inspection *)

Record Inspection := mkInspection {
  Inspection_Descriptor : string;
  Stem : string;
  Recipe : option string;
}.
Definition RecipePath (i : Inspection) : string :=
  if bool_decide (Stem i = "") then "" else Join (Join StagedKitRoot (Stem i)) stagedRecipeName.
Definition DescriptorPath (i : Inspection) : string :=
  if bool_decide (Stem i = "") then "" else Join (Join StagedKitRoot (Stem i)) stagedDescriptorName.

Inductive inspect_error :=
  | NotAKit
  | NotYamlDocument (cause : string)
  | RootsUnlisted (cause : string)
  | RecipeUnread (path : string) (cause : read_error).

Definition inspectDescriptor (a : Artifact) : result inspect_error (Inspection * value) :=
  let raw := annotation (Annotations a) AnnotationDescriptor in
  if bool_decide (raw = "") then Err NotAKit
  else doc ← map_err NotYamlDocument (yaml_value raw); Ok (mkInspection raw "" None, doc).
Definition InspectDescriptor (a : Artifact) : result inspect_error Inspection := fst <$> inspectDescriptor a.

Definition staged_document (a : Artifact) (stem : string) : option string :=
  match ReadFile a (Join (Join StagedKitRoot stem) stagedDescriptorName) with
  | Ok (Some raw) => match yaml_value raw with Ok doc => json_marshal doc | Err _ => None end
  | _ => None
  end.
Definition ownStemAsDocument (a : Artifact) (doc : value) (stems : list string) : string :=
  match stems with
  | [stem] => stem
  | _ =>
      match json_marshal doc with
      | None => ""
      | Some want => default "" (List.find (λ stem, bool_decide (staged_document a stem = Some want)) stems)
      end
  end.
Definition Inspect (a : Artifact) : result inspect_error Inspection :=
  '(i, doc) ← inspectDescriptor a;
  stems ← map_err RootsUnlisted (StagedStems a);
  let own := match Decode (Inspection_Descriptor i) with
             | Ok d => ownStem a d stems
             | Err _ => ownStemAsDocument a doc stems
             end in
  let i := mkInspection (Inspection_Descriptor i) own None in
  if bool_decide (own = "") then Ok i
  else
    recipe ← map_err (RecipeUnread (RecipePath i)) (ReadFile a (RecipePath i));
    Ok (mkInspection (Inspection_Descriptor i) own recipe).
End Suite.
