(* ===== verification/KitFacts.v ===== *)
(** What the conformance suite accepts: a run without failures is one of a kit whose
    annotations, staged sources, image configuration and content keep the
    specification's promises, and the identity it reads out of an image is one a
    host can hold. *)
From stdpp Require Import options.
From S2P Require Import Prelude Diagnostics GoStrings Version VersionOrder Json Types Config GoPath Template Merge Packages Overlay Resolve Oci Validate Expand Registry Publish Report KitSuite.

(** ** Findings without a failure *)

Definition clean (fs : findings) : Prop := existsb is_failure fs = false.

Lemma clean_nil : clean [].
Proof. done. Qed.
Lemma clean_app fs gs : clean (fs ++ gs) ↔ clean fs ∧ clean gs.
Proof. unfold clean. by rewrite existsb_app, orb_false_iff. Qed.
Lemma clean_fail d : clean (fail_ d) ↔ False.
Proof. done. Qed.
Lemma clean_skip d : clean (skip d).
Proof. done. Qed.
Lemma clean_warn d : clean (warn d).
Proof. done. Qed.
Lemma clean_flat_map {A} (f : A → findings) l : clean (flat_map f l) ↔ ∀ x, x ∈ l → clean (f x).
Proof.
  induction l as [|x l IH]; cbn; [split; [intros _ x ?%not_elem_of_nil; done|done]|].
  rewrite clean_app, IH. setoid_rewrite elem_of_cons. naive_solver.
Qed.
Lemma clean_if (b : bool) d : clean (if b then [] else fail_ d) ↔ b = true.
Proof. by destruct b. Qed.

Lemma failed_add {D} (r : Report D) check req fs : Failed (Add r check req fs) = Failed r || existsb is_failure fs.
Proof.
  unfold Failed, Add. cbn [Findings]. rewrite ran_findings, existsb_app. f_equal.
  induction fs as [|f fs IH]; [done|]. cbn [map existsb]. by rewrite IH.
Qed.
Lemma run_all_clean s cs r :
  Failed (foldl (run_check s) r cs) = false ↔ Failed r = false ∧ ∀ c, c ∈ cs → clean (run c s).
Proof.
  revert r. induction cs as [|c cs IH]; intros r; cbn [foldl].
  { split; [|tauto]. intros Hr. split; [done|]. by intros c ?%not_elem_of_nil. }
  rewrite IH. unfold run_check at 1. rewrite failed_add, orb_false_iff. setoid_rewrite elem_of_cons.
  unfold clean. naive_solver.
Qed.

(** ** Annotations *)

Lemma check_capabilities_clean s :
  clean (check_capabilities s) ↔
  Annotations (artifact s) !! AnnotationCapabilities =
    (let types := CapabilityTypes (Capabilities (sdescriptor s)) in if bool_decide (types = "") then None else Some types).
Proof.
  unfold check_capabilities. cbn zeta. set (types := CapabilityTypes _).
  destruct (bool_decide_reflect (types = "")) as [_|Hn]; destruct (Annotations _ !! _) as [got|]; cbn; rewrite ?clean_fail.
  - done.
  - by split.
  - rewrite clean_if, bool_decide_eq_true. naive_solver.
  - rewrite clean_if, bool_decide_eq_true. naive_solver.
Qed.

Lemma oci_annotations_stated d key v : OCIAnnotations d !! key = Some v → v ≠ "".
Proof.
  unfold OCIAnnotations. assert (∀ l (m : gmap string string), (∀ v, m !! key = Some v → v ≠ "") →
    ∀ v, foldl (λ m kv, if bool_decide (kv.2 = "") then m else <[kv.1 := kv.2]> m) m l !! key = Some v → v ≠ "") as Hl.
  { induction l as [|[k w] l IH]; intros m Hm; [done|]. cbn. apply IH. intros x. case_bool_decide; [apply Hm|].
    destruct (decide (k = key)) as [->|]; [rewrite lookup_insert_eq; by intros [= <-]|].
    rewrite lookup_insert_ne by done. apply Hm. }
  apply Hl. intros w. by rewrite lookup_empty.
Qed.
Lemma check_oci_key_clean d ann key :
  clean (check_oci_key ann (OCIAnnotations d) key) ↔ ann !! key = OCIAnnotations d !! key.
Proof.
  unfold check_oci_key. destruct (OCIAnnotations d !! key) as [want|] eqn:E.
  - rewrite clean_if, bool_decide_eq_true. apply oci_annotations_stated in E.
    destruct (ann !! key); cbn; naive_solver.
  - destruct (ann !! key); [|by split]. by rewrite clean_fail.
Qed.
Lemma check_oci_clean s :
  clean (check_oci s) ↔
  (∀ key, key ∈ managedOCIKeys → Annotations (artifact s) !! key = OCIAnnotations (sdescriptor s) !! key) ∧
  (∀ key, key ∈ never_emitted → Annotations (artifact s) !! key = None).
Proof.
  unfold check_oci. rewrite clean_app, !clean_flat_map. setoid_rewrite check_oci_key_clean.
  split; intros [? Hn]; (split; [done|]); intros key Hk; specialize (Hn key Hk); by destruct (Annotations _ !! _).
Qed.
Lemma check_index_clean s :
  clean (check_index s) ↔
  ∀ index key v, IndexAnnotations (artifact s) = Some index → key ∈ promoted → index !! key = Some v →
    Annotations (artifact s) !! key = Some v.
Proof.
  unfold check_index. destruct (IndexAnnotations (artifact s)) as [index|]; [|by split].
  rewrite clean_flat_map. unfold check_index_key. split.
  - intros Hc i key v [= <-] Hk Hv. specialize (Hc key Hk). rewrite Hv in Hc. destruct (Annotations _ !! _) as [w|]; [|done].
    rewrite clean_if, bool_decide_eq_true in Hc. by subst.
  - intros Hc key Hk. destruct (index !! key) as [v|] eqn:E.
    + rewrite (Hc index key v) by done. by rewrite bool_decide_eq_true_2.
    + by destruct (Annotations _ !! _).
Qed.

(** ** Content *)

Lemma first_finding_clean {A} (f : A → findings) l :
  (∀ x, clean (f x) → f x = []) → clean (first_finding f l) ↔ ∀ x, x ∈ l → clean (f x).
Proof.
  intros Hf. induction l as [|x l IH]; cbn; [split; [intros _ x ?%not_elem_of_nil; done|done]|].
  setoid_rewrite elem_of_cons. destruct (f x) as [|d ds] eqn:E.
  - rewrite IH. split; [|by intros Hl y Hy; apply Hl; right]. intros Hl y [->|Hy]; [by rewrite E|by apply Hl].
  - split; [|by intros Hl; rewrite <-E; apply Hl; left]. intros Hc. rewrite <-E in Hc. apply Hf in Hc. by rewrite E in Hc.
Qed.

Definition present (a : Artifact) (name : string) : Prop := hasFile a name = Ok true.

(** A skill's document is in the image, a regular file where the source can tell. *)
Definition skill_present (a : Artifact) (skill : AgentSkill) : Prop :=
  let file := Join (AgentSkill_Path skill) "SKILL.md" in
  present a file ∧
  ∀ file_stat, statChecker a = Some file_stat → ∃ st, file_stat file = Ok (Some st) ∧ Regular st = true.
Lemma check_skill_clean a skill : (clean (check_skill a skill) → check_skill a skill = []) ∧
  (clean (check_skill a skill) ↔ skill_present a skill).
Proof.
  unfold check_skill, skill_present, present, read_bundled_skill. destruct (hasFile a _) as [[]|e]; cbn.
  - destruct (statChecker a) as [file_stat|]; [|split; [done|]; split; [intros _; by split|done]].
    destruct (file_stat _) as [[st|]|e] eqn:E; cbn.
    + destruct (Regular st) eqn:Er; (split; [done|]; split).
      * intros _. split; [done|]. intros ? [= <-]. by exists st.
      * done.
      * done.
      * intros [_ Hs]. destruct (Hs _ eq_refl) as (st' & [= <-]%(eq_trans (eq_sym E)) & Hr). congruence.
    + split; [done|]. split; [done|]. intros [_ Hs]. destruct (Hs _ eq_refl) as (st' & ? & _). congruence.
    + split; [done|]. split; [done|]. intros [_ Hs]. destruct (Hs _ eq_refl) as (st' & ? & _). congruence.
  - split; [done|]. split; [done|]. by intros [? _].
  - split; [done|]. split; [done|]. by intros [? _].
Qed.
Definition skills_present (s : state) : Prop :=
  ∃ skills, AgentSkillRequestsOf (DeclaredCapabilities (Capabilities (sdescriptor s))) = Ok skills ∧
  ∀ skill, skill ∈ skills → skill_present (artifact s) (request skill).
Lemma check_skills_clean s : clean (checkAgentSkillContent s) ↔ skills_present s.
Proof.
  unfold checkAgentSkillContent, skills_present. destruct (AgentSkillRequestsOf _) as [skills|e].
  - rewrite first_finding_clean by (intros x; apply (check_skill_clean (artifact s) (request x))). split.
    + intros Hc. exists skills. split; [done|]. intros x Hx. by apply check_skill_clean, Hc.
    + intros (? & [= <-] & Hc) x Hx. by apply check_skill_clean, Hc.
  - rewrite clean_fail. split; [done|]. by intros (? & ? & _).
Qed.

Definition declares_recipe (d : Descriptor) : bool :=
  negb (bool_decide (Build d = "")) || negb (bool_decide (Dockerfile d = "")).
(** Where a staged root is known the recipe can be looked for, and is there when one is declared. *)
Definition recipe_staged (s : state) : Prop :=
  stem s ≠ "" → ∃ there, hasFile (artifact s) (Join (staged_root s) stagedRecipeName) = Ok there ∧
                         (declares_recipe (sdescriptor s) = true → there = true).
Lemma check_recipe_clean s : clean (check_recipe s) ↔ recipe_staged s.
Proof.
  unfold check_recipe, recipe_staged. destruct (bool_decide_reflect (stem s = "")) as [E|E]; [by split|].
  fold (declares_recipe (sdescriptor s)). destruct (hasFile _ _) as [there|e]; cbn.
  - destruct (declares_recipe _), there; cbn; split; try done; intros H; try (by eexists).
    destruct (H E) as (? & [= <-] & Ht). by specialize (Ht eq_refl).
  - split; [done|]. intros H. by destruct (H E) as (? & ? & _).
Qed.

(** A context body is a file of the kit's own staged root, beside its sources. *)
Definition context_file_staged (s : state) (file : string) : Prop :=
  let own := staged_root s +:+ "/" in
  stem s ≠ "" → has_prefix own file = true ∧ Clean file = file ∧
    file ≠ own +:+ stagedDescriptorName ∧ file ≠ own +:+ stagedRecipeName ∧ present (artifact s) file.
Lemma check_context_file_clean s file : clean (check_context_file s file) ↔ context_file_staged s file.
Proof.
  unfold check_context_file, context_file_staged, present. cbn zeta. set (own := staged_root s +:+ "/").
  destruct (bool_decide_reflect (stem s = "")) as [E|E]; [by split|].
  destruct (bool_decide_reflect (Clean file = file)) as [Ec|Ec]; [|rewrite orb_true_r, clean_fail; naive_solver].
  rewrite Ec, orb_false_r. destruct (has_prefix own file); cbn [negb]; [|rewrite clean_fail; naive_solver].
  destruct (bool_decide_reflect (file = own +:+ stagedDescriptorName)); cbn [orb]; [rewrite clean_fail; naive_solver|].
  destruct (bool_decide_reflect (file = own +:+ stagedRecipeName)); cbn [orb]; [rewrite clean_fail; naive_solver|].
  destruct (hasFile _ _) as [[]|]; rewrite ?clean_fail; naive_solver.
Qed.
Definition contexts_staged (s : state) : Prop :=
  ∀ entry, entry ∈ DeclaredCapabilities (Capabilities (sdescriptor s)) →
  ∃ ac, AgentContextOf [entry] = Ok ac ∧
  ∀ c, ac = Some c → AgentContext_ContentFile c ≠ "" → context_file_staged s (AgentContext_ContentFile c).
Lemma check_context_entry_clean s entry found :
  check_context_entry s entry = Some found → found ≠ [].
Proof.
  unfold check_context_entry. destruct (AgentContextOf [entry]) as [[ac|]|e]; [|done|by intros [= <-]].
  case_bool_decide; [done|]. destruct (check_context_file _ _); [done|by intros [= <-]].
Qed.

Lemma head_omap_clean {A} (f : A → option findings) l :
  (∀ x found, f x = Some found → ¬ clean found) →
  clean (default [] (head (omap f l))) ↔ ∀ x, x ∈ l → f x = None.
Proof.
  intros Hf. induction l as [|x l IH]; [split; [intros _ x ?%not_elem_of_nil; done|done]|].
  change (omap f (x :: l)) with (match f x with Some y => y :: omap f l | None => omap f l end).
  setoid_rewrite elem_of_cons. destruct (f x) as [found|] eqn:E; cbn.
  - apply Hf in E as Hn. split; [done|]. intros Hl. specialize (Hl x (or_introl eq_refl)). congruence.
  - rewrite IH. naive_solver.
Qed.
Lemma check_context_clean s : stem s ≠ "" → clean (check_context s) ↔ contexts_staged s.
Proof.
  intros Hs. assert (∀ file, clean (check_context_file s file) → check_context_file s file = []) as Hfile.
  { intros file. unfold check_context_file. rewrite bool_decide_eq_false_2 by done.
    destruct (negb _ || _); [done|]. destruct (_ || _); [done|]. by destruct (hasFile _ _) as [[]|]. }
  unfold check_context, contexts_staged. rewrite head_omap_clean.
  - unfold check_context_entry. split; intros Hc entry Hin; specialize (Hc entry Hin).
    + destruct (AgentContextOf [entry]) as [ac|e]; [|done]. exists ac. split; [done|]. intros c -> Hne.
      rewrite bool_decide_eq_false_2 in Hc by done. apply check_context_file_clean.
      by destruct (check_context_file s _).
    + destruct Hc as (ac & -> & Hc). destruct ac as [c|]; [|done]. case_bool_decide; [done|].
      rewrite Hfile; [done|]. apply check_context_file_clean. by apply Hc.
  - intros entry found. unfold check_context_entry. destruct (AgentContextOf [entry]) as [[ac|]|e]; [|done|by intros [= <-]].
    case_bool_decide; [done|]. specialize (Hfile (AgentContext_ContentFile ac)).
    destruct (check_context_file s _) as [|d ds]; [done|]. intros [= <-] Hc. by specialize (Hfile Hc).
Qed.

(** ** The image configuration *)

Definition image_config_read (s : state) : Prop :=
  ∃ cfg, Artifact_Config (artifact s) = Ok cfg ∧
  (Kind (sdescriptor s) = KindWorkload →
   ∃ arg args, Entrypoint (Image_Config cfg) ++ Cmd (Image_Config cfg) = arg :: args ∧ arg ≠ "").
Lemma check_image_config_clean s : clean (check_image_config s) ↔ image_config_read s.
Proof.
  unfold check_image_config, image_config_read. destruct (Artifact_Config _) as [cfg|e].
  2:{ rewrite clean_fail. split; [done|]. by intros (? & ? & _). }
  destruct (bool_decide_reflect (Kind (sdescriptor s) = KindWorkload)) as [Hk|Hk]; cbn [negb].
  2:{ split; [|done]. intros _. by exists cfg. }
  destruct (_ ++ _) as [|arg args] eqn:E.
  { rewrite clean_fail. split; [done|]. intros (? & [= <-] & Hr). destruct (Hr Hk) as (? & ? & ? & _). congruence. }
  destruct (bool_decide_reflect (arg = "")) as [->|Ha]; rewrite ?clean_fail; split; try done.
  - intros (? & [= <-] & Hr). destruct (Hr Hk) as (? & ? & Ee & Hne). congruence.
  - intros _. exists cfg. split; [done|]. intros _. by exists arg, args.
Qed.

(** ** The overlay's own entries *)

Definition overlay_checked (s : state) (Q : overlayWalker → Prop) : Prop :=
  Kind (sdescriptor s) = KindMixin →
  ∃ layers, Artifact_Layers (artifact s) = Ok layers ∧
  ∀ w, is_Some layers → walker (artifact s) = Some w → Q w.
Lemma overlay_clean s (f : overlayWalker → findings) Q :
  (∀ w, clean (f w) ↔ Q w) →
  clean (match overlayWalkerFor s with Err found => found | Ok w => f w end) ↔ overlay_checked s Q.
Proof.
  intros Hf. unfold overlayWalkerFor, overlay_checked.
  destruct (bool_decide_reflect (Kind (sdescriptor s) = KindMixin)) as [Hk|Hk]; cbn [negb]; [|by split].
  destruct (Artifact_Layers _) as [layers|e].
  2:{ rewrite clean_fail. split; [done|]. intros H. by destruct (H Hk) as (? & ? & _). }
  destruct layers as [l|]; [|split; [|done]; intros _ _; exists None; split; [done|]; by intros w [? ?]].
  destruct (walker _) as [w|]; [rewrite Hf|]; split.
  - intros Hw _. exists (Some l). split; [done|]. by intros w' _ [= <-].
  - intros H. destruct (H Hk) as (? & [= <-] & Hw). apply Hw; [by eexists|done].
  - intros _ _. by exists (Some l).
  - done.
Qed.

(** The home directories an overlay ships keep their owners. *)
Definition homes_kept (w : overlayWalker) : Prop :=
  ∀ path uid owner, (path, uid, owner) ∈ homeLevels →
  ∃ st, walker_DirStat w path = Ok st ∧ ∀ x, st = Some x → Stat_Uid x = uid.
Lemma check_homes_clean w levels :
  clean (check_homes w levels) ↔ ∀ path uid owner, (path, uid, owner) ∈ levels →
  ∃ st, walker_DirStat w path = Ok st ∧ ∀ x, st = Some x → Stat_Uid x = uid.
Proof.
  induction levels as [|[[path uid] owner] levels IH]; cbn [check_homes].
  { split; [intros _ ??? ?%not_elem_of_nil; done|done]. }
  setoid_rewrite elem_of_cons. destruct (walker_DirStat w path) as [[x|]|e] eqn:E.
  - rewrite clean_app, clean_if, bool_decide_eq_true, IH. split.
    + intros [Hu Hl] p u o [[= -> -> ->]|Hin]; [|by apply (Hl p u o)]. exists (Some x). split; [done|]. by intros ? [= <-].
    + intros Hl. split; [|intros p u o Hin; apply (Hl p u o); by right].
      destruct (Hl path uid owner) as (st & [= <-]%(eq_trans (eq_sym E)) & Hst); [by left|]. by apply Hst.
  - rewrite IH. split.
    + intros Hl p u o [[= -> -> ->]|Hin]; [by exists None|by apply (Hl p u o)].
    + intros Hl p u o Hin. apply (Hl p u o). by right.
  - rewrite clean_fail. split; [done|]. intros Hl. destruct (Hl path uid owner) as (st & Hst & _); [by left|]. congruence.
Qed.
Lemma check_home_clean s : clean (check_home_ownership s) ↔ overlay_checked s homes_kept.
Proof. apply overlay_clean. intros w. apply check_homes_clean. Qed.
Lemma check_links_clean s :
  clean (check_links s) ↔ overlay_checked s (λ w, is_ok (walker_DanglingSymlinks w) = true).
Proof.
  apply (overlay_clean s (λ w, match walker_DanglingSymlinks w with
    | Err e => _ | Ok links => _ end)). intros w. destruct (walker_DanglingSymlinks w); [|by rewrite clean_fail].
  rewrite clean_flat_map. by split.
Qed.

(** ** The platform floor *)

(** A shell is there and, where both the identity and the file's permissions are
    known, the identity can run it. *)
Definition shell_ready (a : Artifact) (who : option passwdEntry) (shell : string) : Prop :=
  present a shell ∧
  ∀ w, who = Some w → ∃ exec, executableBy a shell w = Ok exec ∧ exec ≠ Some false.
Lemma check_shells_clean a user who shells :
  clean (check_shells a user who shells) ↔ ∀ shell, shell ∈ shells → shell_ready a who shell.
Proof.
  induction shells as [|shell shells IH]; cbn [check_shells]; [split; [intros _ ? ?%not_elem_of_nil; done|done]|].
  setoid_rewrite elem_of_cons. unfold shell_ready at 1, present.
  destruct (hasFile a shell) as [[]|e] eqn:E.
  - destruct who as [w|]; cycle 1.
    { rewrite IH. split; [intros Hl x [->|Hx]; [by split|by apply Hl]|intros Hl x Hx; apply Hl; by right]. }
    destruct (executableBy a shell w) as [exec|e] eqn:Ee.
    + assert (clean (match Ok exec : result read_error (option bool) with
        | Ok (Some false) => fail_ (ShellNotExecutable shell user) ++ check_shells a user (Some w) shells
        | Ok _ => check_shells a user (Some w) shells | Err e => fail_ (ReadRefused shell e) end) ↔
        exec ≠ Some false ∧ clean (check_shells a user (Some w) shells)) as ->.
      { destruct exec as [[]|]; rewrite ?clean_app, ?clean_fail; split; try tauto; try (by intros [? ?]);
          intros Hc; by split. }
      rewrite IH. split.
      * intros [Hx Hl] x [->|Hin]; [|by apply Hl]. split; [done|]. intros ? [= <-]. by exists exec.
      * intros Hl. split; [|intros x Hin; apply Hl; by right].
        destruct (Hl shell) as [_ Hw]; [by left|]. destruct (Hw w eq_refl) as (? & ? & ?). congruence.
    + rewrite clean_fail. split; [done|]. intros Hl. destruct (Hl shell) as [_ Hw]; [by left|].
      destruct (Hw w eq_refl) as (? & ? & _). congruence.
  - rewrite clean_app, clean_fail. split; [tauto|]. intros Hl. destruct (Hl shell) as [Hp _]; [by left|]. congruence.
  - rewrite clean_fail. split; [done|]. intros Hl. destruct (Hl shell) as [Hp _]; [by left|]. congruence.
Qed.

(** The identity a host has to honor, or that the account databases are too large to say. *)
Inductive identity_found (a : Artifact) (user : string) : option passwdEntry → Prop :=
  | identity_resolved who : resolveImageUser a user = Ok (Some who, []) → identity_found a user (Some who)
  | identity_unjudged path : resolveImageUser a user = Ok (None, warn (AccountsTooLarge path user)) → identity_found a user None.

Lemma resolve_user_cases a user :
  match resolveImageUser a user with
  | Ok (Some who, found) => found = []
  | Ok (None, found) => clean found → ∃ path, found = warn (AccountsTooLarge path user)
  | Err _ => True
  end.
Proof.
  unfold resolveImageUser. destruct (ReadFile a "/etc/passwd") as [[passwd|]|[|e]]; [|done|by eexists|done].
  assert (∀ groupFile, match (match lookupPasswd passwd groupFile user with
      | Some who => Ok (Some who, []) | None => Ok (None, fail_ (UserUnresolved user)) end
      : result (string * string) (option passwdEntry * findings)) with
    | Ok (Some who, found) => found = []
    | Ok (None, found) => clean found → ∃ path, found = warn (AccountsTooLarge path user)
    | Err _ => True end) as Hr by (intros; by destruct (lookupPasswd _ _ _)).
  cbn zeta. destruct (explicitGroup user) as [g|]; [|apply Hr]. destruct (all_digits g); [apply Hr|].
  destruct (ReadFile a "/etc/group") as [file|[|e]]; [apply Hr|by eexists|done].
Qed.

Definition floor_kept (s : state) : Prop :=
  asks_sbx s = true →
  Kind (sdescriptor s) = KindWorkload ∧
  ∃ cfg who, Artifact_Config (artifact s) = Ok cfg ∧ trim_space (User (Image_Config cfg)) ≠ "" ∧
  identity_found (artifact s) (User (Image_Config cfg)) who ∧
  ∀ shell, shell ∈ floor_shells → shell_ready (artifact s) who shell.
Lemma check_floor_clean s : clean (check_floor s) ↔ floor_kept s.
Proof.
  unfold check_floor, floor_kept. destruct (asks_sbx s); cbn [negb]; [|by split].
  destruct (bool_decide_reflect (Kind (sdescriptor s) = KindWorkload)) as [Hk|Hk]; cbn [negb]; [|rewrite clean_fail; naive_solver].
  destruct (Artifact_Config _) as [cfg|e]; [|rewrite clean_fail; naive_solver]. cbn zeta.
  set (user := User _). destruct (bool_decide_reflect (trim_space user = "")) as [Eu|Eu].
  { rewrite clean_app, clean_fail. split; [tauto|]. intros Hf. destruct (Hf eq_refl) as (_ & ? & ? & [= <-] & Hn & _). done. }
  pose proof (resolve_user_cases (artifact s) user) as Hcases.
  destruct (resolveImageUser (artifact s) user) as [[who found]|[path e]] eqn:Er.
  2:{ rewrite clean_fail. split; [done|]. intros Hf. destruct (Hf eq_refl) as (_ & ? & ? & [= <-] & _ & Hid & _).
      inversion Hid as [? Hr|? Hr]; fold user in Hr; congruence. }
  rewrite clean_app, check_shells_clean. split.
  - intros [Hc Hs] _. split; [done|]. exists cfg, who. split; [done|]. split; [done|]. split; [|done].
    fold user. destruct who as [w|]; [subst found; by constructor|].
    destruct (Hcases Hc) as [p ->]. by apply (identity_unjudged _ _ p).
  - intros Hf. destruct (Hf eq_refl) as (_ & ? & who' & [= <-] & _ & Hid & Hs). fold user in Hid.
    inversion Hid as [w Hr|p Hr]; subst; rewrite Hr in Er; injection Er as <- <-; by split.
Qed.

(** Only what cannot be read fails here; a missing file is a warning. *)
Definition persistent_env_read (s : state) : Prop :=
  asks_sbx s = true → Kind (sdescriptor s) = KindWorkload →
  ∃ cfg, Artifact_Config (artifact s) = Ok cfg ∧
  let file := bash_env (Env (Image_Config cfg)) in
  is_abs file = true → is_ok (hasFile (artifact s) file) = true.
Lemma check_persistent_env_clean s : clean (check_persistent_env s) ↔ persistent_env_read s.
Proof.
  unfold check_persistent_env, persistent_env_read. destruct (asks_sbx s); cbn [negb orb]; [|by split].
  destruct (bool_decide_reflect (Kind (sdescriptor s) = KindWorkload)) as [Hk|Hk]; cbn [negb]; [|by split].
  destruct (Artifact_Config _) as [cfg|e]; [|rewrite clean_fail; naive_solver]. cbn zeta. set (file := bash_env _).
  destruct (bool_decide_reflect (file = "")) as [Ef|Ef].
  { split; [|done]. intros _ _ _. exists cfg. split; [done|]. fold file. by rewrite Ef. }
  destruct (is_abs file) eqn:Ea; cbn [negb].
  - destruct (hasFile _ file) as [[]|e] eqn:Eh; (split; [|try done]).
    1,2: by intros _ _ _; exists cfg; split; [|fold file; rewrite Eh].
    + done.
    + intros Hp. destruct (Hp eq_refl Hk) as (? & [= <-] & Hf). fold file in Hf. rewrite Eh in Hf. by specialize (Hf Ea).
  - split; [|done]. intros _ _ _. exists cfg. split; [done|]. fold file. by rewrite Ea.
Qed.

(** ** Derived provides *)

Definition records (installed : list Package) (name : string) : list string :=
  map Package_Version (List.filter (λ p, bool_decide (Package_Name p = name)) installed).
Lemma record_packages installed m name :
  default [] (foldl record_package m installed !! name) = default [] (m !! name) ++ records installed name ∧
  (is_Some (foldl record_package m installed !! name) ↔ is_Some (m !! name) ∨ records installed name ≠ []).
Proof.
  revert m. unfold records. induction installed as [|p installed IH]; intros m; cbn [foldl List.filter map].
  { rewrite app_nil_r. split; [done|]. naive_solver. }
  destruct (IH (record_package m p)) as [IH1 IH2]. rewrite IH1, IH2. unfold record_package.
  destruct (bool_decide_reflect (Package_Name p = name)) as [->|Hn].
  - rewrite lookup_insert_eq. cbn [default map]. unfold id. split; [by rewrite <-app_assoc|].
    split; [intros _; by right|]. intros _. left. by eexists.
  - rewrite lookup_insert_ne by done. done.
Qed.

(** The database records the entry's package, always at the entry's version. *)
Definition entry_recorded (installed : list Package) (e : derivedEntry) : Prop :=
  records installed (entry_name e) ≠ [] ∧
  ∀ raw, raw ∈ records installed (entry_name e) → PackageVersion raw = entry_version e.
Lemma check_derived_entry_clean path installed e :
  clean (check_derived_entry path (foldl record_package ∅ installed) e) ↔ entry_recorded installed e.
Proof.
  destruct (record_packages installed ∅ (entry_name e)) as [H1 H2]. rewrite lookup_empty in H1, H2. cbn in H1.
  unfold check_derived_entry, entry_recorded. destruct (_ !! _) as [raws|]; cbn in H1.
  - subst raws. rewrite clean_flat_map. setoid_rewrite clean_if. setoid_rewrite bool_decide_eq_true.
    split; [|tauto]. intros Hl. split; [|done]. destruct H2 as [H2 _]. destruct H2 as [[? ?]|]; [by eexists|done|done].
  - rewrite clean_fail, <-H1. split; [done|tauto].
Qed.

(** What a database says of its entries; one too large to read says nothing. *)
Definition database_agrees (a : Artifact) (byNamespace : gmap string (list derivedEntry)) (db : PackageDatabase) : Prop :=
  default [] (byNamespace !! Namespace db) ≠ [] →
  ReadFile a (Database_Path db) = Err TooLarge ∨
  ∃ body installed, ReadFile a (Database_Path db) = Ok (Some body) ∧ Read db body = (installed, true) ∧
  ∀ e, e ∈ default [] (byNamespace !! Namespace db) → entry_recorded installed e.
Lemma check_databases_clean a byNamespace dbs :
  clean (check_databases a byNamespace dbs) ↔ ∀ db, db ∈ dbs → database_agrees a byNamespace db.
Proof.
  induction dbs as [|db dbs IH]; cbn [check_databases]; [split; [intros _ ? ?%not_elem_of_nil; done|done]|].
  setoid_rewrite elem_of_cons. cbn zeta.
  assert (∀ Q : Prop, (Q ↔ database_agrees a byNamespace db) →
    (Q ∧ clean (check_databases a byNamespace dbs) ↔ ∀ x, x = db ∨ x ∈ dbs → database_agrees a byNamespace x)) as Hstep.
  { intros Q HQ. rewrite HQ, IH. naive_solver. }
  destruct (default [] (byNamespace !! Namespace db)) as [|e es] eqn:Ee.
  { rewrite <-(Hstep True); [tauto|]. unfold database_agrees. rewrite Ee. by split. }
  destruct (ReadFile a (Database_Path db)) as [[body|]|[|cause]] eqn:Er.
  - destruct (Read db body) as [installed ok] eqn:Eb. destruct ok; cbn [negb].
    + rewrite clean_app, clean_flat_map. apply Hstep. setoid_rewrite check_derived_entry_clean.
      unfold database_agrees. rewrite Ee, Er. split; [intros Hl _; right; by exists body, installed|].
      intros Hd. destruct Hd as [|(? & ? & [= <-] & Hb & Hl)]; [done|done|]. rewrite Eb in Hb. by injection Hb as <-.
    + rewrite clean_fail. rewrite <-(Hstep False); [tauto|]. unfold database_agrees. rewrite Ee, Er. split; [done|].
      intros Hd. destruct Hd as [|(? & ? & [= <-] & Hb & Hl)]; [done|done|]. congruence.
  - rewrite clean_app, clean_fail. apply Hstep. unfold database_agrees. rewrite Ee, Er. split; [done|].
    intros Hd. by destruct Hd as [|(? & ? & ? & _)].
  - rewrite clean_app. apply Hstep. unfold database_agrees. rewrite Er. split; [intros _ _; by left|done].
  - rewrite clean_fail, <-(Hstep False); [tauto|]. unfold database_agrees. rewrite Ee, Er. split; [done|].
    intros Hd. by destruct Hd as [|(? & ? & ? & _)].
Qed.

Definition derived_recorded (s : state) : Prop :=
  let byNamespace := derivedByNamespace (Provides (sdescriptor s)) in
  byNamespace ≠ ∅ →
  Kind (sdescriptor s) = KindWorkload ∧
  (Kits (sdescriptor s) = [] → ∀ db, db ∈ PackageDatabases → database_agrees (artifact s) byNamespace db).
Lemma check_derived_clean s : clean (check_derived s) ↔ derived_recorded s.
Proof.
  unfold check_derived, derived_recorded. cbn zeta. destruct (bool_decide_reflect (derivedByNamespace (Provides (sdescriptor s)) = ∅)) as [E|E]; [by split|].
  destruct (bool_decide_reflect (Kind (sdescriptor s) = KindWorkload)) as [Hk|Hk]; cbn [negb]; [|rewrite clean_fail; naive_solver].
  destruct (Kits (sdescriptor s)); [rewrite check_databases_clean; naive_solver|by split].
Qed.

(** ** A merged set *)

Definition set_carried (s : state) : Prop :=
  Kits (sdescriptor s) ≠ [] →
  declares_recipe (sdescriptor s) = false ∧
  ∃ stems, StagedStems (artifact s) = Ok stems ∧ length (Kits (sdescriptor s)) < length stems.
Lemma check_merged_set_clean s : clean (check_merged_set s) ↔ set_carried s.
Proof.
  unfold check_merged_set, set_carried. cbn zeta. destruct (Kits (sdescriptor s)) as [|k kits]; [by split|].
  fold (declares_recipe (sdescriptor s)). rewrite clean_app.
  assert (clean (if declares_recipe (sdescriptor s) then fail_ SetWithRecipe else []) ↔ declares_recipe (sdescriptor s) = false) as ->
    by by destruct (declares_recipe _).
  destruct (StagedStems (artifact s)) as [stems|e]; [|rewrite clean_fail; naive_solver].
  assert (clean (if length stems <? length (k :: kits) + 1 then fail_ (StemsMissing (length (k :: kits)) stems) else []) ↔
    length (k :: kits) < length stems) as ->.
  { destruct (Nat.ltb_spec (length stems) (length (k :: kits) + 1)); rewrite ?clean_fail; split; try done; lia. }
  split; [intros [? ?] _; eauto|]. intros Hs. destruct Hs as (? & ? & [= <-] & ?); [done|]. done.
Qed.

(** A re-exported argument keeps the contract of the kit's. *)
Definition reexports_kept (merged : Descriptor) (kits : list Contribution) : Prop :=
  ∀ k d name value setName,
  k ∈ Kits merged → by_reference kits !! Kit_Ref k = Some d → Kit_Args k !! name = Some value →
  IsWholeArgRef value = true → ReferencedArgs value = [setName] →
  CheckReExport name (default zero_arg (Args d !! name)) setName (default zero_arg (Args merged !! setName))
    (bool_decide (is_Some (Args merged !! setName))) = Ok ().
Lemma judge_reexports_clean merged kits : clean (judgeReExports merged kits) ↔ reexports_kept merged kits.
Proof.
  unfold judgeReExports, reexports_kept. rewrite clean_flat_map. split.
  - intros Hc k d name value setName Hk Hd Hv Hw Hr. specialize (Hc k Hk). rewrite Hd, clean_flat_map in Hc.
    specialize (Hc name). unfold judge_argument in Hc. rewrite Hv, Hw, Hr in Hc. cbn [negb] in Hc.
    destruct (CheckReExport _ _ _ _ _) as [[]|e]; [done|]. exfalso. apply (clean_fail (ReExportBroken (Kit_Ref k) e)), Hc.
    apply sort_strings_elem_of, list_elem_of_fmap. exists (name, value). split; [done|]. by apply elem_of_map_to_list.
  - intros Hc k Hk. destruct (by_reference kits !! Kit_Ref k) as [d|] eqn:Hd; [|done]. apply clean_flat_map.
    intros name _. unfold judge_argument. destruct (Kit_Args k !! name) as [value|] eqn:Hv; [|done].
    destruct (IsWholeArgRef value) eqn:Hw; [|done]. cbn [negb]. destruct (ReferencedArgs value) as [|setName [|]] eqn:Hr; try done.
    by rewrite (Hc k d name value setName).
Qed.

(** What a merge has to keep of its kits: names at their versions, licenses, and of
    their relations none that another kit answers. *)
Definition provides_carried (merged : Descriptor) (kits : list Contribution) : Prop :=
  ∀ c s p, c ∈ kits → s ∈ Provides (cdescriptor c) → ParseProvide s = Ok p →
  let version := if bool_decide (PVersion p = "")
                 then EffectiveProvideVersion (Contribution_Reference c) (Contribution_Descriptor c) else PVersion p in
  ∃ s', s' ∈ Provides merged ∧ carried_key (Types.Version merged) s' = Some (PName p +:+ "@" +:+ version).
Definition relations_dropped (of_ : Descriptor → list string) (merged : Descriptor) (kits : list Contribution) : Prop :=
  ∀ c s r s' r', c ∈ kits → s ∈ of_ (cdescriptor c) → ParseRequire s = Ok r →
  SatisfiedByOther (OwnedProvides kits) r (Contribution_Reference c) = true →
  s' ∈ of_ merged → ParseRequire s' = Ok r' → CanonicalRequire r' ≠ CanonicalRequire r.
Record declarations_kept (merged : Descriptor) (kits : list Contribution) : Prop := {
  keeps_provides : provides_carried merged kits;
  keeps_licenses : ∀ c l, c ∈ kits → l ∈ Licenses (cdescriptor c) → l ∈ Licenses merged;
  drops_requires : relations_dropped Requires merged kits;
  drops_integrates : relations_dropped Integrates merged kits;
}.

Lemma judge_relations_clean relation of_ merged kits :
  clean (judge_relations relation of_ merged kits) ↔ relations_dropped of_ merged kits.
Proof.
  unfold judge_relations, relations_dropped. cbn zeta. rewrite clean_flat_map. setoid_rewrite clean_flat_map.
  unfold judge_relation, stated_requires.
  assert (∀ r, CanonicalRequire r ∈ (list_to_set (omap (λ s, match ParseRequire s with
    | Ok r => Some (CanonicalRequire r) | Err _ => None end) (of_ merged)) : gset string) ↔
    ∃ s' r', s' ∈ of_ merged ∧ ParseRequire s' = Ok r' ∧ CanonicalRequire r' = CanonicalRequire r) as Hst.
  { intros r. rewrite elem_of_list_to_set, list_elem_of_omap. split.
    - intros (s & Hs & E). destruct (ParseRequire s) as [r'|] eqn:Er; [|done]. injection E as E. by exists s, r'.
    - intros (s & r' & Hs & Er & E). exists s. by rewrite Er, E. }
  split.
  - intros Hc c s r s' r' Hin Hs Er Hsat Hs' Er' Ec. specialize (Hc c Hin s Hs). rewrite Er, Hsat in Hc.
    rewrite bool_decide_eq_true_2 in Hc; [done|]. apply Hst. by exists s', r'.
  - intros Hc c Hin s Hs. destruct (ParseRequire s) as [r|] eqn:Er; [|done].
    destruct (SatisfiedByOther _ r _) eqn:Esat; [|done]. cbn [andb].
    rewrite bool_decide_eq_false_2; [done|]. intros (s' & r' & Hs' & Er' & Ec)%Hst. by apply (Hc c s r s' r').
Qed.
Lemma judge_merged_clean merged kits : clean (judgeMergedDeclarations merged kits) ↔ declarations_kept merged kits.
Proof.
  unfold judgeMergedDeclarations. rewrite !clean_app, !judge_relations_clean, !clean_flat_map. setoid_rewrite clean_flat_map.
  assert ((∀ c, c ∈ kits → ∀ s, s ∈ Provides (cdescriptor c) →
    clean (judge_provide (list_to_set (omap (carried_key (Types.Version merged)) (Provides merged))) c s)) ↔
    provides_carried merged kits) as ->.
  { unfold judge_provide, provides_carried. split.
    - intros Hc c s p Hin Hs Ep. specialize (Hc c Hin s Hs). rewrite Ep in Hc. cbn zeta in *.
      rewrite clean_if, bool_decide_eq_true, elem_of_list_to_set, list_elem_of_omap in Hc.
      destruct Hc as (s' & Hs' & E). by exists s'.
    - intros Hc c Hin s Hs. destruct (ParseProvide s) as [p|] eqn:Ep; [|done]. cbn zeta.
      rewrite clean_if, bool_decide_eq_true, elem_of_list_to_set, list_elem_of_omap.
      destruct (Hc c s p Hin Hs Ep) as (s' & Hs' & E). by exists s'. }
  setoid_rewrite clean_if. setoid_rewrite bool_decide_eq_true. split.
  - intros (? & Hl & ? & ?). split; try done. intros c l Hc Hin. by apply (Hl c Hc).
  - intros [? Hl ? ?]. split; [done|]. split; [|done]. intros c Hc l Hin. by apply (Hl c l).
Qed.

(** ** Documents *)

Definition descriptor_text (d : Descriptor) : option string := json_marshal (encode_descriptor d).
Lemma agree_text a b : descriptorsAgree a b = true ↔ ∃ t, descriptor_text a = Some t ∧ descriptor_text b = Some t.
Proof.
  unfold descriptorsAgree, descriptor_text. destruct (json_marshal _) as [t|], (json_marshal _) as [t'|].
  - rewrite bool_decide_eq_true. naive_solver.
  - split; [done|]. by intros (? & _ & ?).
  - split; [done|]. by intros (? & ? & _).
  - split; [done|]. by intros (? & ? & _).
Qed.

Lemma take_staged_cases d staged :
  match take_staged d staged with
  | Some rest => ∃ t, descriptor_text d = Some t ∧ omap descriptor_text staged ≡ₚ t :: omap descriptor_text rest
  | None => ∀ t, descriptor_text d = Some t → t ∉ omap descriptor_text staged
  end.
Proof.
  induction staged as [|s staged IH]; [intros t _; apply not_elem_of_nil|]. cbn [take_staged].
  change (omap descriptor_text (s :: staged)) with
    (match descriptor_text s with Some y => y :: omap descriptor_text staged | None => omap descriptor_text staged end).
  destruct (descriptorsAgree s d) eqn:E.
  - apply agree_text in E as (t & -> & Hd). by exists t.
  - destruct (take_staged d staged) as [rest|]; cbn.
    + destruct IH as (t & Hd & Hp). exists t. split; [done|].
      change (omap descriptor_text (s :: rest)) with
        (match descriptor_text s with Some y => y :: omap descriptor_text rest | None => omap descriptor_text rest end).
      destruct (descriptor_text s) as [t'|]; rewrite Hp; [|done]. apply Permutation_swap.
    + intros t Hd Hin. apply not_true_iff_false in E. destruct (descriptor_text s) as [t'|] eqn:Es; [|by apply (IH t)].
      apply elem_of_cons in Hin as [->|Hin]; [|by apply (IH t)]. apply E, agree_text. eauto.
Qed.

(** Every kit's declarations have a staged root of their own. *)
Definition each_staged (staged : list Descriptor) (kits : list Contribution) : Prop :=
  (∀ c, c ∈ kits → is_Some (descriptor_text (cdescriptor c))) ∧
  omap (descriptor_text ∘ cdescriptor) kits ⊆+ omap descriptor_text staged.
Lemma judge_staged_clean total kits : ∀ staged, clean (judge_staged total staged kits) ↔ each_staged staged kits.
Proof.
  unfold each_staged. induction kits as [|c kits IH]; intros staged; cbn [judge_staged].
  { split; [|done]. intros _. split; [by intros c ?%not_elem_of_nil|apply submseteq_nil_l]. }
  change (omap (descriptor_text ∘ cdescriptor) (c :: kits)) with
    (match descriptor_text (cdescriptor c) with
     | Some y => y :: omap (descriptor_text ∘ cdescriptor) kits | None => omap (descriptor_text ∘ cdescriptor) kits end).
  setoid_rewrite elem_of_cons. pose proof (take_staged_cases (cdescriptor c) staged) as Ht.
  destruct (take_staged (cdescriptor c) staged) as [rest|].
  - destruct Ht as (t & Hd & Hp). rewrite Hd, IH, Hp. split.
    + intros [Hs Hk]. split; [|by apply submseteq_skip]. intros x [->|Hx]; [by eexists|by apply Hs].
    + intros [Hs Hk]. split; [intros x Hx; apply Hs; by right|].
      apply submseteq_cons_l in Hk as (k & Hk & Hsub). apply Permutation_cons_inv in Hk. by rewrite Hk.
  - rewrite clean_app, clean_fail. split; [tauto|]. intros [Hs Hk].
    destruct (Hs c (or_introl eq_refl)) as [t Hd]. rewrite Hd in Hk. destruct (Ht t Hd).
    apply submseteq_cons_l in Hk as (k & Hk & _). rewrite Hk. by left.
Qed.

Lemma check_layers_clean s :
  clean (check_layers s) ↔ ∃ layers, Artifact_Layers (artifact s) = Ok layers ∧ layers ≠ Some [].
Proof. unfold check_layers. destruct (Artifact_Layers _) as [[[|]|]|e]; rewrite ?clean_fail; naive_solver. Qed.
Lemma check_schema_clean s :
  clean (check_schema_version s) ↔
  annotation (Annotations (artifact s)) AnnotationSchemaVersion = Descriptor_SchemaVersion (sdescriptor s).
Proof. unfold check_schema_version. cbn zeta. by rewrite clean_if, bool_decide_eq_true. Qed.

Section Suite.
Context `{Documents}.

(** The kit's own staged root holds the descriptor of its annotation. *)
Definition sources_staged (s : state) : Prop :=
  stem s ≠ "" ∧ ∃ staged, staged_descriptor (artifact s) (stem s) = Some staged ∧ descriptorsAgree staged (sdescriptor s) = true.
Lemma check_staged_clean s : clean (check_staged s) ↔ sources_staged s.
Proof.
  unfold check_staged, sources_staged, staged_descriptor, staged_root.
  destruct (bool_decide_reflect (stem s = "")) as [E|E]; [rewrite clean_fail; tauto|]. cbn zeta.
  destruct (ReadFile _ _) as [[raw|]|e]; [|rewrite clean_fail; naive_solver..].
  destruct (Decode raw) as [staged|e]; [|rewrite clean_fail; naive_solver]. rewrite clean_if. naive_solver.
Qed.

Lemma check_descriptor_clean s :
  clean (check_descriptor s) ↔
  (ValidatePublished (annotation (Annotations (artifact s)) AnnotationDescriptor) (sdescriptor s)).2 = [].
Proof. unfold check_descriptor. by destruct (ValidatePublished _ _).2. Qed.

Context (compile : string → option (string → bool)).

(** What a merged set is held to, where the kits it lists can be read. *)
Definition merge_kept (s : state) : Prop :=
  Kits (sdescriptor s) ≠ [] → ∀ resolve_kit, kitResolver (artifact s) = Some resolve_kit →
  match read_all_listed compile resolve_kit (Kits (sdescriptor s)) with
  | Err found => clean found
  | Ok listed =>
      (∃ stems, StagedStems (artifact s) = Ok stems ∧
                each_staged (omap (staged_descriptor (artifact s)) stems) listed.*1) ∧
      reexports_kept (sdescriptor s) listed.*1 ∧ declarations_kept (sdescriptor s) listed.*2
  end.
Lemma check_merged_declarations_clean s : clean (check_merged_declarations compile s) ↔ merge_kept s.
Proof.
  unfold check_merged_declarations, merge_kept. destruct (Kits (sdescriptor s)) as [|k kits]; [by split|].
  destruct (kitResolver (artifact s)) as [resolve_kit|]; [|by split].
  destruct (read_all_listed compile resolve_kit (k :: kits)) as [listed|found] eqn:E.
  2:{ split; [intros Hc _ ? [= <-]; by rewrite E|]. intros Hc. specialize (Hc ltac:(done) _ eq_refl). by rewrite E in Hc. }
  rewrite !clean_app, judge_reexports_clean, judge_merged_clean.
  assert (clean (judgeStagedSources (artifact s) listed.*1) ↔ ∃ stems, StagedStems (artifact s) = Ok stems ∧
    each_staged (omap (staged_descriptor (artifact s)) stems) listed.*1) as ->.
  { unfold judgeStagedSources. destruct (StagedStems (artifact s)) as [stems|e]; [|rewrite clean_fail; naive_solver].
    cbn zeta. rewrite judge_staged_clean. split; [eauto|]. by intros (? & [= <-] & ?). }
  split; [intros Hc _ ? [= <-]; by rewrite E|]. intros Hc. specialize (Hc ltac:(done) _ eq_refl). by rewrite E in Hc.
Qed.

Context (json_text : string → option value).

(** A build stamp that is present names a frontend and a version. *)
Definition stamp_readable (a : Artifact) : Prop :=
  ∀ stamp, ParseBuiltBy json_text (Annotations a) = Some stamp →
  ∃ b, stamp = Some b ∧ BuiltBy_Name b ≠ "" ∧ BuiltBy_Version b ≠ "".
Lemma check_built_by_clean s : clean (check_built_by json_text s) ↔ stamp_readable (artifact s).
Proof.
  unfold check_built_by, stamp_readable. destruct (ParseBuiltBy _ _) as [[b|]|]; [|rewrite clean_fail; naive_solver|by split].
  destruct (bool_decide_reflect (BuiltBy_Name b = "")); [rewrite clean_fail; naive_solver|].
  destruct (bool_decide_reflect (BuiltBy_Version b = "")); [rewrite clean_fail; naive_solver|]. naive_solver.
Qed.

(** ** The suite *)

(** What a kit keeps that passes the suite. *)
Record conforming (s : state) : Prop := {
  kept_valid : (ValidatePublished (annotation (Annotations (artifact s)) AnnotationDescriptor) (sdescriptor s)).2 = [];
  kept_schema : annotation (Annotations (artifact s)) AnnotationSchemaVersion = Descriptor_SchemaVersion (sdescriptor s);
  kept_types : Annotations (artifact s) !! AnnotationCapabilities =
    (let types := CapabilityTypes (Capabilities (sdescriptor s)) in if bool_decide (types = "") then None else Some types);
  kept_stamp : stamp_readable (artifact s);
  kept_oci : ∀ key, key ∈ managedOCIKeys → Annotations (artifact s) !! key = OCIAnnotations (sdescriptor s) !! key;
  kept_silent : ∀ key, key ∈ never_emitted → Annotations (artifact s) !! key = None;
  kept_index : ∀ index key v, IndexAnnotations (artifact s) = Some index → key ∈ promoted → index !! key = Some v →
    Annotations (artifact s) !! key = Some v;
  kept_layers : ∃ layers, Artifact_Layers (artifact s) = Ok layers ∧ layers ≠ Some [];
  kept_sources : sources_staged s;
  kept_recipe : recipe_staged s;
  kept_contexts : contexts_staged s;
  kept_skills : skills_present s;
  kept_config : image_config_read s;
  kept_homes : overlay_checked s homes_kept;
  kept_links : overlay_checked s (λ w, is_ok (walker_DanglingSymlinks w) = true);
  kept_floor : floor_kept s;
  kept_env : persistent_env_read s;
  kept_derived : derived_recorded s;
  kept_set : set_carried s;
  kept_merge : merge_kept s;
}.

Lemma suite_clean s : (∀ c, c ∈ checks compile json_text → clean (run c s)) ↔ conforming s.
Proof.
  unfold checks. rewrite <-Forall_forall, !Forall_cons, Forall_nil. cbn [run].
  rewrite check_skills_clean, check_descriptor_clean, check_schema_clean, check_capabilities_clean, check_built_by_clean,
    check_oci_clean, check_layers_clean, check_staged_clean, check_recipe_clean, check_image_config_clean, check_home_clean,
    check_links_clean, check_floor_clean, check_persistent_env_clean, check_derived_clean, check_merged_set_clean,
    check_merged_declarations_clean, check_index_clean.
  assert (sources_staged s → clean (check_context s) ↔ contexts_staged s) as Hctx
    by (intros [Hs _]; by apply check_context_clean).
  split; [intros (? & ? & ? & ? & ? & [? ?] & ? & Hsrc & ? & Hc & ?)|intros []].
  - apply Hctx in Hc; [|done]. by split; try tauto.
  - rewrite Hctx by done. tauto.
Qed.

Lemma Ok_inj {E A} (a b : A) : @Ok E A a = Ok b → a = b.
Proof. by intros [= ->]. Qed.
(** A report without failures is of a kit that conforms. *)
Lemma Run_passed (a : Artifact) rep :
  Run compile json_text a = Ok rep → Failed rep = false →
  ∃ stems d, StagedStems a = Ok stems ∧ Decode (annotation (Annotations a) AnnotationDescriptor) = Ok d ∧
    annotation (Annotations a) AnnotationDescriptor ≠ "" ∧ conforming (mkState a d (ownStem a d stems)).
Proof.
  unfold Run. cbn zeta. set (raw := annotation _ _). destruct (bool_decide_reflect (raw = "")) as [E|E]; [by intros [= <-]|].
  destruct (Decode raw) as [d|e]; [|by intros [= <-]].
  intros (stems & Hstems & <-%Ok_inj)%result_bind_Ok. rewrite run_all_clean, suite_clean. intros [_ Hc]. by exists stems, d.
Qed.

(** C16: a run of the suite answers unless the staged roots cannot be listed, and it reports no failure exactly when
    the annotation decodes to a descriptor whose kit keeps every promise of [conforming]: a valid published form,
    annotations that say what the descriptor does, its sources and content staged, an image config a host can run
    and an identity it can hold, derived entries its databases record, and as a set the declarations of its kits. *)
Theorem run_conforms (a : Artifact) (stems : list string) :
  StagedStems a = Ok stems →
  ∃ rep, Run compile json_text a = Ok rep ∧
  (Failed rep = false ↔
   ∃ d, Decode (annotation (Annotations a) AnnotationDescriptor) = Ok d ∧
        annotation (Annotations a) AnnotationDescriptor ≠ "" ∧ conforming (mkState a d (ownStem a d stems))).
Proof.
  intros Hstems. unfold Run. cbn zeta. set (raw := annotation _ _).
  destruct (bool_decide_reflect (raw = "")) as [E|E].
  { eexists. split; [done|]. split; [done|]. by intros (? & _ & ? & _). }
  destruct (Decode raw) as [d|e].
  2:{ eexists. split; [done|]. split; [done|]. by intros (? & ? & _). }
  rewrite Hstems. cbn [mbind result_bind]. eexists. split; [done|]. rewrite run_all_clean, suite_clean. split.
  - intros [_ Hc]. by exists d.
  - by intros (? & [= <-] & _ & Hc).
Qed.
End Suite.

(** ** A kit that conforms *)

Definition sbx_request : Capability := mkCapability None None false false CapabilitySbx "" false None false "".
Definition shell_kit : Descriptor :=
  mkDescriptor false SchemaVersion "Shell" "" "" "" "" "1.2" ["MIT"] KindWorkload ["shell"] [] [] [] [sbx_request] ∅ "" [] ""
    false.
Definition shell_documents : Documents :=
  {| yaml_value := λ _, Ok VNull; yaml_descriptor := λ raw, if bool_decide (raw = "shell") then Ok shell_kit else Err "";
     document_nodes := {| yaml_nodes := λ _, Err "" |}; float_literal := λ _, None; float_negative := λ _, false;
     url_parts := λ _, Err ""; regexp_compiles := λ _, true; image_reference := λ _, Ok None |}.
Definition shell_annotations : gmap string string :=
  list_to_map [(AnnotationDescriptor, "shell"); (AnnotationSchemaVersion, SchemaVersion); (AnnotationCapabilities, CapabilitySbx);
    (OCIAnnotationTitle, "Shell"); (OCIAnnotationLicenses, "MIT"); (OCIAnnotationVersion, "1.2")].
Definition shell_config : OciImage :=
  mkOciImage (mkPlatform "amd64" "linux" "" [] "")
    (mkImageConfig "agent" ∅ ["BASH_ENV=/etc/sandbox-env"] [] ["/bin/bash"] ∅ "/" ∅ "") "layers" [] [].
Definition shell_file (name : string) : option string :=
  list_to_map (M := gmap string string)
    [("/usr/share/sandbox/kit/shell/kit.yaml", "shell"); ("/etc/passwd", "agent:x:1000:1000::/home/agent:/bin/bash");
     ("/bin/sh", ""); ("/bin/bash", ""); ("/etc/sandbox-env", "")] !! name.
(** An image whose shells have the given mode, owned by root. *)
Definition shell_artifact (mode : Z) : Artifact :=
  mkArtifact shell_annotations (Ok shell_config) (Ok None) (λ name, Ok (shell_file name)) (Ok ["shell"]) None None
    (Some (λ name, Ok ((λ _, mkFileStat mode 0 0 true) <$> shell_file name))) None None.

Lemma run_conforms_witness :
  ∃ rep, @Run shell_documents (λ _, None) (λ _, None) (shell_artifact 493) = Ok rep ∧
  (Failed rep = false ↔
   ∃ d, @Decode shell_documents (annotation (Annotations (shell_artifact 493)) AnnotationDescriptor) = Ok d ∧
        annotation (Annotations (shell_artifact 493)) AnnotationDescriptor ≠ "" ∧
        @conforming shell_documents (λ _, None) (λ _, None)
          (mkState (shell_artifact 493) d (@ownStem shell_documents (shell_artifact 493) d ["shell"]))).
Proof. apply (@run_conforms shell_documents). reflexivity. Defined.

(** It passes all the checks but the one it skips; with shells its user cannot run it fails the floor. *)
Example shell_kit_conforms :
  (Summary_ <$> @Run shell_documents (λ _, None) (λ _, None) (shell_artifact 493)) = Ok (mkSummary 19 0 0 1 18).
Proof. by vm_compute. Qed.
Example shell_kit_unrunnable :
  (Err_ <$> @Run shell_documents (λ _, None) (λ _, None) (shell_artifact 488)) =
  Ok (Some [mkFinding "sbx-platform-floor" "sbx@1" Fail_ (ShellNotExecutable "/bin/sh" "agent");
            mkFinding "sbx-platform-floor" "sbx@1" Fail_ (ShellNotExecutable "/bin/bash" "agent")]).
Proof. by vm_compute. Qed.
