(* ===== verification/AccountFacts.v ===== *)
(** The identity the conformance suite reads out of an image ([lookupPasswd]): one a
    host can hold, found by its name and by its uid in any file of account records. *)
From stdpp Require Import options.
From S2P Require Import Prelude GoStrings VersionOrder Packages KitSuite.

(** ** Identifiers *)

Lemma pretty_digits n : all_digits (pretty n) = true ∧ digits_value 0 (pretty n) = n.
Proof.
  destruct (pretty_value n) as [H1 H2]. split; [|done]. unfold all_digits. rewrite H1, andb_true_r.
  apply negb_true_iff, bool_decide_eq_false. intros E. rewrite E in H2. cbn in H2. subst n. discriminate.
Qed.


Lemma parseID_Some s id :
  parseID s = Some id ↔ all_digits s = true ∧ id = Z.of_N (digits_value 0 s) ∧ (0 ≤ id < MaxUint32)%Z.
Proof.
  unfold parseID. destruct (all_digits s); cbn; [|naive_solver]. destruct (Z.leb_spec MaxUint32 (Z.of_N (digits_value 0 s))).
  - split; [done|]. intros (_ & -> & ?). lia.
  - split; [intros [= <-]; lia|]. by intros (_ & -> & _).
Qed.
Lemma parseID_pretty (id : Z) : (0 ≤ id < MaxUint32)%Z → parseID (pretty (Z.to_N id)) = Some id.
Proof. intros Hid. destruct (pretty_digits (Z.to_N id)) as [Hd Hv]. apply parseID_Some. split; [done|]. rewrite Hv. lia. Qed.

Lemma lookupGroup_bounds file want gid : lookupGroup file want = Some gid → (0 ≤ gid < MaxUint32)%Z.
Proof.
  unfold lookupGroup. destruct (all_digits want); [by intros (_ & _ & ?)%parseID_Some|].
  intros Hg. assert (gid ∈ omap (group_row want) (split newline_byte file)) as Hin.
  { destruct (omap _ _) as [|g l]; [done|]. injection Hg as <-. by left. }
  apply list_elem_of_omap in Hin as (line & _ & Hrow). unfold group_row in Hrow.
  destruct (record_fields 4 line); [|done]. case_bool_decide; [|done]. by apply parseID_Some in Hrow as (_ & _ & ?).
Qed.

(** ** Rows *)

Lemma passwd_row_Some want line e :
  passwd_row want line = Some e →
  account_name e ≠ "" ∧ has_prefix "/" (account_home e) = true ∧
  (0 ≤ account_uid e < MaxUint32)%Z ∧ (0 ≤ account_gid e < MaxUint32)%Z ∧
  if all_digits want then parseID want = Some (account_uid e) else account_name e = want.
Proof.
  unfold passwd_row. destruct (record_fields 7 line) as [fields|]; [|done].
  destruct (row_matches want fields) eqn:Hm; [|done]. unfold row_entry.
  destruct (parseID (nth_field 2 fields)) as [uid|] eqn:Eu; [|done].
  destruct (parseID (nth_field 3 fields)) as [gid|] eqn:Eg; [|done].
  destruct (bool_decide_reflect (nth_field 0 fields = "")) as [|Hn]; [done|].
  destruct (has_prefix "/" (nth_field 5 fields)) eqn:Eh; [|done]. intros [= <-]. cbn.
  apply parseID_Some in Eg as (_ & _ & Hg). apply parseID_Some in Eu as Hu. destruct Hu as (_ & _ & Hu).
  split; [done|]. split; [done|]. split; [done|]. split; [done|]. unfold row_matches in Hm. rewrite Eu in Hm.
  destruct (all_digits want); apply bool_decide_eq_true in Hm; done.
Qed.

(** ** A file of accounts *)

Definition passwd_fields (e : passwdEntry) : list string :=
  [account_name e; "x"; pretty (Z.to_N (account_uid e)); pretty (Z.to_N (account_gid e)); ""; account_home e; "/bin/sh"].
Definition passwd_line (e : passwdEntry) : string := join ":" (passwd_fields e).
Definition passwd_file (entries : list passwdEntry) : string := join (String newline_byte "") (map passwd_line entries).

Definition one_field (s : string) : Prop := contains_byte ":" s = false ∧ contains_byte newline_byte s = false.
(** An account whose fields a record can hold and whose name is not a number. *)
Record account_wf (e : passwdEntry) : Prop := {
  wf_name : one_field (account_name e);
  wf_named : account_name e ≠ "";
  wf_word : all_digits (account_name e) = false;
  wf_uncommented : has_prefix "#" (account_name e) = false;
  wf_home : one_field (account_home e);
  wf_absolute : has_prefix "/" (account_home e) = true;
  wf_uid : (0 ≤ account_uid e < MaxUint32)%Z;
  wf_gid : (0 ≤ account_gid e < MaxUint32)%Z;
}.

Lemma digits_one_field s : all_digits s = true → one_field s.
Proof.
  unfold all_digits, one_field. rewrite andb_true_iff. intros [_ Hs]. split; by apply (str_forall_contains is_digit).
Qed.
Lemma passwd_fields_one e : account_wf e → Forall one_field (passwd_fields e).
Proof.
  intros []. unfold passwd_fields. repeat constructor; try done; try apply wf_name0; try apply wf_home0;
    apply digits_one_field, pretty_digits.
Qed.
Lemma contains_join c sep l :
  contains_byte c sep = false → Forall (λ s, contains_byte c s = false) l → contains_byte c (join sep l) = false.
Proof.
  intros Hs. induction 1 as [|x l Hx Hl IH]; [done|]. destruct l as [|y l]; [done|].
  by rewrite join_cons2, !contains_byte_app, Hx, Hs, IH.
Qed.

Lemma has_suffix_last (c d : ascii) s : c ≠ d → has_suffix (String c "") (s +:+ String d "") = false.
Proof.
  intros Hc. unfold has_suffix. rewrite str_length_app. cbn [String.length].
  replace (String.length s + 1 - 1) with (String.length s) by lia. rewrite str_drop_app.
  rewrite bool_decide_eq_false_2 by congruence. apply andb_false_r.
Qed.
Lemma has_prefix_head c d s t : has_prefix (String c "") (String d s) = has_prefix (String c "") (String d t).
Proof. cbn [String.prefix]. destruct (ascii_dec c d); [by destruct s, t|done]. Qed.
Lemma passwd_line_fields e : account_wf e → record_fields 7 (passwd_line e) = Some (passwd_fields e).
Proof.
  intros He. unfold record_fields. assert (∃ t, passwd_line e = t +:+ String "h" "") as [t Et].
  { exists (account_name e +:+ ":x:" +:+ pretty (Z.to_N (account_uid e)) +:+ ":" +:+ pretty (Z.to_N (account_gid e)) +:+ "::" +:+
      account_home e +:+ ":/bin/s"). unfold passwd_line, passwd_fields. rewrite !join_cons2. cbn [join].
    by rewrite !str_app_assoc. }
  assert (trim_suffix (of_bytes [13]) (passwd_line e) = passwd_line e) as ->.
  { unfold trim_suffix. rewrite Et at 1. change (of_bytes [13]) with (String "013" ""). by rewrite has_suffix_last. }
  assert (has_prefix "#" (passwd_line e) = false) as ->.
  { unfold passwd_line, passwd_fields. rewrite join_cons2. pose proof (wf_uncommented e He) as Hn. pose proof (wf_named e He) as Hne.
    destruct (account_name e) as [|c s]; [done|]. rewrite str_app_cons. etrans; [apply (has_prefix_head _ c _ s)|done]. }
  assert (split ":" (passwd_line e) = passwd_fields e) as ->; [|done].
  apply (split_join ":"); [done|]. eapply Forall_impl; [by apply passwd_fields_one|]. by intros s [? _].
Qed.

(** Whether the account is the one a spelling names. *)
Definition is_account (want : string) (e : passwdEntry) : bool :=
  if all_digits want then bool_decide (parseID want = Some (account_uid e)) else bool_decide (account_name e = want).
Lemma passwd_row_line want e :
  account_wf e → passwd_row want (passwd_line e) = if is_account want e then Some e else None.
Proof.
  intros He. unfold passwd_row. rewrite passwd_line_fields by done. unfold row_matches, row_entry.
  change (nth_field 0 (passwd_fields e)) with (account_name e). change (nth_field 5 (passwd_fields e)) with (account_home e).
  change (nth_field 2 (passwd_fields e)) with (pretty (Z.to_N (account_uid e))).
  change (nth_field 3 (passwd_fields e)) with (pretty (Z.to_N (account_gid e))).
  rewrite !parseID_pretty by (apply wf_uid || apply wf_gid; done).
  rewrite (bool_decide_eq_false_2 (account_name e = "")) by by apply wf_named. rewrite wf_absolute by done. cbn [orb negb].
  destruct e as [name home uid gid]. cbn [account_name account_home account_uid account_gid].
  unfold is_account. cbn [account_uid account_name]. destruct (all_digits want); [|by case_bool_decide].
  rewrite (bool_decide_ext (Some uid = parseID want) (parseID want = Some uid)) by naive_solver. done.
Qed.

Lemma passwd_file_lines entries :
  entries ≠ [] → Forall account_wf entries → split newline_byte (passwd_file entries) = map passwd_line entries.
Proof.
  intros Hne Hwf. unfold passwd_file. apply split_join; [by destruct entries|]. rewrite Forall_fmap.
  eapply Forall_impl; [exact Hwf|]. intros e He. unfold compose, passwd_line. apply contains_join; [done|].
  eapply Forall_impl; [by apply passwd_fields_one|]. by intros s [_ ?].
Qed.

Lemma first_account want entries e :
  Forall account_wf entries → e ∈ entries →
  (∀ x, x ∈ entries → is_account want x = true → x = e) → is_account want e = true →
  head (omap (passwd_row want) (map passwd_line entries)) = Some e.
Proof.
  intros Hwf Hin Honly He. induction Hwf as [|x entries Hx Hwf IH]; [by apply not_elem_of_nil in Hin|].
  cbn [map omap list_omap]. rewrite passwd_row_line by done. destruct (is_account want x) eqn:Hm.
  - by rewrite (Honly x ltac:(by left) Hm).
  - apply elem_of_cons in Hin as [->|Hin]; [congruence|]. apply IH; [done|]. intros y Hy. apply Honly. by right.
Qed.

Lemma cut_one_field s : one_field s → cut ":" s = (s, "", false).
Proof. intros [Hs _]. by apply cut_none. Qed.
Lemma lookup_account passwd group want e :
  one_field want → (all_digits want = true → is_Some (parseID want)) →
  head (omap (passwd_row want) (split newline_byte passwd)) = Some e → lookupPasswd passwd group want = Some e.
Proof.
  intros Hw Hid Hh. unfold lookupPasswd, explicitGroup. rewrite cut_one_field by done. cbn [andb].
  destruct (all_digits want && _) eqn:E.
  - apply andb_true_iff in E as [Ed En]. rewrite bool_decide_eq_true_2 in En by by apply Hid. done.
  - by rewrite Hh.
Qed.

(** ** Properties *)

(** In a file of well-formed account records with distinct names and uids, every account is found by its name and
    by its uid, whatever else the file holds. *)
Theorem accounts_roundtrip (entries : list passwdEntry) (group : string) (e : passwdEntry) :
  Forall account_wf entries → NoDup (map account_name entries) → NoDup (map account_uid entries) → e ∈ entries →
  lookupPasswd (passwd_file entries) group (account_name e) = Some e ∧
  lookupPasswd (passwd_file entries) group (pretty (Z.to_N (account_uid e))) = Some e.
Proof.
  intros Hwf Hnames Huids Hin. rewrite Forall_forall in Hwf. pose proof (Hwf e Hin) as He.
  assert (∀ {B} (f : passwdEntry → B) x, NoDup (map f entries) → x ∈ entries → f x = f e → x = e) as Hinj.
  { intros B f x Hnd Hx Hf. by eapply (NoDup_fmap_elem f). }
  rewrite <-Forall_forall in Hwf. assert (entries ≠ []) as Hne by by destruct entries; [apply not_elem_of_nil in Hin|].
  split; apply lookup_account; rewrite ?passwd_file_lines by done.
  - by apply wf_name.
  - by rewrite wf_word.
  - apply first_account; unfold is_account; rewrite ?wf_word; try done; [|by apply bool_decide_eq_true].
    intros x Hx Hn%bool_decide_eq_true. by apply (Hinj _ account_name).
  - apply digits_one_field, pretty_digits.
  - intros _. rewrite parseID_pretty by by apply wf_uid. by eexists.
  - destruct (pretty_digits (Z.to_N (account_uid e))) as [Hd _].
    apply first_account; unfold is_account; rewrite ?Hd, ?parseID_pretty by (by apply wf_uid); try done;
      [|by apply bool_decide_eq_true].
    intros x Hx [= Hn]%bool_decide_eq_true. by apply (Hinj _ account_uid).
Qed.
Definition sample_accounts : list passwdEntry :=
  [mkPasswdEntry "root" "/root" 0 0; mkPasswdEntry "agent" "/home/agent" 1000 1000; mkPasswdEntry "nobody" "/" 65534 65534].
Lemma accounts_roundtrip_witness :
  lookupPasswd (passwd_file sample_accounts) "" "agent" = Some (mkPasswdEntry "agent" "/home/agent" 1000 1000) ∧
  lookupPasswd (passwd_file sample_accounts) "" "1000" = Some (mkPasswdEntry "agent" "/home/agent" 1000 1000).
Proof.
  apply (accounts_roundtrip sample_accounts "" (mkPasswdEntry "agent" "/home/agent" 1000 1000)).
  - by repeat constructor.
  - by apply (bool_decide_unpack _).
  - by apply (bool_decide_unpack _).
  - unfold sample_accounts. set_solver.
Defined.

(** An identity the suite resolves is one a host can hold: a login name, an absolute home, a uid and a gid below
    the sentinel that leaves an id alone; a numeric user is taken by value, a name as it is written, and a numeric
    group overrides the account's. *)
Theorem resolved_identity_usable (passwd group user : string) (e : passwdEntry) :
  lookupPasswd passwd group user = Some e →
  account_name e ≠ "" ∧ has_prefix "/" (account_home e) = true ∧
  (0 ≤ account_uid e < MaxUint32)%Z ∧ (0 ≤ account_gid e < MaxUint32)%Z ∧
  (let want := (cut ":" user).1.1 in
   if all_digits want then account_uid e = Z.of_N (digits_value 0 want) else account_name e = want) ∧
  (∀ g, explicitGroup user = Some g → all_digits g = true → account_gid e = Z.of_N (digits_value 0 g)).
Proof.
  unfold lookupPasswd. destruct (cut ":" user) as [[want rest] found]. cbn [fst].
  destruct (all_digits want && _); [done|]. cbn zeta.
  destruct (head _) as [row|] eqn:Eh; [|done]. cbn [mbind option_bind].
  assert (∃ line, passwd_row want line = Some row) as [line Hrow].
  { assert (row ∈ omap (passwd_row want) (split newline_byte passwd)) as Hin by (destruct (omap _ _); [done|injection Eh as <-; by left]).
    apply list_elem_of_omap in Hin as (line & _ & ?). by exists line. }
  apply passwd_row_Some in Hrow as (Hn & Hh & Hu & Hg & Hw).
  assert (if all_digits want then account_uid row = Z.of_N (digits_value 0 want) else account_name row = want) as Hw'.
  { destruct (all_digits want); [|done]. by apply parseID_Some in Hw as (_ & ? & _). }
  destruct (explicitGroup user) as [wantGroup|]; [|intros [= <-]; repeat (split; [done|]); done].
  destruct (lookupGroup group wantGroup) as [gid|] eqn:Eg; [|done]. intros [= <-]. cbn.
  repeat (split; [done|]). split; [by eapply lookupGroup_bounds|]. split; [done|]. intros g [= <-] Hd.
  unfold lookupGroup in Eg. rewrite Hd in Eg. by apply parseID_Some in Eg as (_ & ? & _).
Qed.
Lemma resolved_identity_usable_witness :
  let e := mkPasswdEntry "agent" "/home/agent" 1000 20 in
  account_name e ≠ "" ∧ has_prefix "/" (account_home e) = true ∧
  (0 ≤ account_uid e < MaxUint32)%Z ∧ (0 ≤ account_gid e < MaxUint32)%Z ∧
  (let want := (cut ":" "001000:20").1.1 in
   if all_digits want then account_uid e = Z.of_N (digits_value 0 want) else account_name e = want) ∧
  (∀ g, explicitGroup "001000:20" = Some g → all_digits g = true → account_gid e = Z.of_N (digits_value 0 g)).
Proof. apply (resolved_identity_usable (passwd_file sample_accounts) ""). by vm_compute. Defined.

(** The top of the range is no identity, spelled as a user or as a group, and does not become a name. *)
Example no_sentinel_identity :
  lookupPasswd (passwd_file sample_accounts) "4294967295:x:7:" "4294967295" = None ∧
  lookupPasswd (passwd_file sample_accounts) "4294967295:x:7:" "agent:4294967295" = None ∧
  lookupPasswd (passwd_file sample_accounts) "staff:x:7:" "agent:staff" = Some (mkPasswdEntry "agent" "/home/agent" 1000 7).
Proof. by vm_compute. Qed.
