(* ===== verification/Render.v ===== *)
(** [tck/report/render.go]: a report as text — findings grouped by severity, their detail
    wrapped beside or under the check's name, and the tally. *)
From stdpp Require Import options.
From S2P Require Import Prelude GoStrings GoUnicode Packages Report AccountFacts.

(** ** Text *)

Definition esc : ascii := byte 27.
Fixpoint spaces (n : nat) : string := match n with O => "" | S n => String " " (spaces n) end.
(** [strings.Repeat(" ", n)]: what the renderer asks for is never negative. *)
Definition blank (n : Z) : string := spaces (Z.to_nat n).
(** [strings.TrimRight(s, "c")] for a one-byte cutset. *)
Definition trim_right (c : ascii) (s : string) : string := String.rev (trim_left c (String.rev s)).

(** The width a string prints at: a column a rune. *)
Definition columns (s : string) : Z := Z.of_nat (RuneCount s).

Fixpoint wrap_words (width : Z) (line : string) (words : list string) : list string :=
  match words with
  | [] => [line]
  | word :: words =>
      if bool_decide (line = "") then wrap_words width word words
      else if (columns line + 1 + columns word <=? width)%Z
      then wrap_words width (line +:+ " " +:+ word) words
      else line :: wrap_words width word words
  end.
Definition wrap (text : string) (width : Z) : list string :=
  if contains_byte newline_byte text then split newline_byte text
  else if bool_decide (text = "") then []
  else wrap_words width "" (Fields text).

Definition plural (n : nat) (noun : string) : string :=
  if n =? 1 then pretty n +:+ " " +:+ noun else pretty n +:+ " " +:+ noun +:+ "s".

(** The tally as a line. *)
Definition middle_dot : string := of_bytes [32; 194; 183; 32].
Definition Summary_String (s : Summary) : string :=
  join middle_dot (plural (Summary_Checks s) "check" ::
    omap (λ part : nat * string, if 0 <? part.1 then Some (pretty part.1 +:+ " " +:+ part.2) else None)
      [(Summary_Failed s, "failed"); (Summary_Warned s, "warned"); (Summary_Skipped s, "skipped");
       (Summary_Passed s, "passed")]).

(** ** Styles *)

Record Options := mkOptions {
  Verbose : bool;
  Color : bool;
  Hyperlinks : bool;
  Width : Z;
  Link : option (string → string);
}.
Definition defaultWidth : Z := 100.
Definition rowIndent : Z := 4.
Definition minNameWidth : Z := 20.
Definition minTextWidth : Z := 28.

Record palette := mkPalette { color : bool; hyperlinks : bool; link : option (string → string) }.
Definition red : string := "31".
Definition yellow : string := "33".
Definition green : string := "32".
Definition dim : string := "2".

Section Palette.
Context (p : palette).

Definition paint (code s : string) : string :=
  if negb (color p) || bool_decide (s = "") then s
  else String esc "[" +:+ code +:+ "m" +:+ s +:+ String esc "[0m".
Definition painted_dim (s : string) : string := paint dim s.
(** A check that passed is a row too, of a severity only the renderer knows. *)
Definition symbol (s : verdict) : string :=
  match s with
  | Judged Fail_ => paint red (of_bytes [226; 156; 151])
  | Judged Warn => paint yellow "!"
  | Judged Skip => paint dim (of_bytes [226; 128; 147])
  | Passed => paint green (of_bytes [226; 156; 147])
  end.
Definition name (s : verdict) (n : string) : string :=
  match s with
  | Judged Fail_ => paint red n
  | Judged Warn => paint yellow n
  | _ => paint dim n
  end.
Definition linked (requirement text : string) : string :=
  match link p with
  | None => text
  | Some link =>
      if negb (hyperlinks p) || bool_decide (requirement = "") then text
      else
        let url := link requirement in
        if bool_decide (url = "") then text
        else String esc "]8;;" +:+ url +:+ String esc "\" +:+ text +:+ String esc "]8;;" +:+ String esc "\"
  end.
End Palette.

(** A styled string as wide as a column, measured on the text it paints. *)
Definition pad (styled plain : string) (width : Z) : string :=
  if (width <=? columns plain)%Z then styled else styled +:+ blank (width - columns plain).

(** ** Rows *)

Record row := mkRow {
  row_severity : verdict;
  row_name : string;
  row_detail : string;
  row_requirement : string;
}.
Record layout := mkLayout { width : Z; nameWidth : Z; stacked : bool }.

Definition widest (rows : list row) : Z := foldl (λ out r, Z.max out (columns (row_name r))) 0%Z rows.

(** The last line extended, where there is one that takes it. *)
Fixpoint tag_lines (fits : string → bool) (extend : string → string) (own : string) (lines : list string) : list string :=
  match lines with
  | [] => [own]
  | [line] => if fits line then [extend line] else [line; own]
  | line :: lines => line :: tag_lines fits extend own lines
  end.

Definition row_tag (f : row) : string :=
  if bool_decide (row_requirement f = row_name f) then "" else row_requirement f.
Definition row_long (shape : layout) (f : row) : bool :=
  stacked shape || (nameWidth shape <? columns (row_name f))%Z || contains_byte newline_byte (row_detail f).
Definition row_column (shape : layout) (f : row) : Z :=
  if row_long shape f then (rowIndent + 2)%Z else (rowIndent + 2 + nameWidth shape + 1)%Z.

(** The lines of a row's detail, the requirement trailing. *)
Definition detail_lines (style : palette) (shape : layout) (f : row) : list string :=
  let text := Z.max (width shape - row_column shape f) minTextWidth in
  let lines := wrap (row_detail f) text in
  if bool_decide (row_tag f = "") then lines
  else
    let tag := "[" +:+ row_tag f +:+ "]" in
    let styled := painted_dim style (linked style (row_requirement f) tag) in
    tag_lines (λ last, (columns last + 1 + columns tag <=? text)%Z) (λ last, last +:+ " " +:+ styled) styled lines.

(** [row.render], as the lines it writes. *)
Definition row_lines (style : palette) (shape : layout) (f : row) : list string :=
  let named := name style (row_severity f) (row_name f) in
  let named := if bool_decide (row_tag f = "") then linked style (row_requirement f) named else named in
  let indent := blank (row_column shape f) in
  let lines := detail_lines style shape f in
  let head := blank rowIndent +:+ symbol style (row_severity f) +:+ " " in
  if row_long shape f then (head +:+ named) :: map (λ line, indent +:+ line) lines
  else
    let head := head +:+ pad named (row_name f) (nameWidth shape) in
    match lines with
    | [] => [trim_right " " head]
    | first :: rest => (head +:+ " " +:+ first) :: map (λ line, indent +:+ line) rest
    end.

(** ** The report *)

Definition finding_row (f : Finding string) : row :=
  mkRow (Judged (Finding_Severity f)) (Finding_Check f) (Detail f) (Finding_Requirement f).
Definition severity_rows (r : Report string) (s : Severity) : list row :=
  map finding_row (List.filter (λ f, bool_decide (Finding_Severity f = s)) (Findings r)).
Definition passed_rows (r : Report string) (o : Options) : list row :=
  if Verbose o then map (λ c, mkRow Passed (Check_Name c) "" (Check_Requirement c)) (passing r) else [].
Definition row_groups (r : Report string) (o : Options) : list (string * list row) :=
  [("failed", severity_rows r Fail_); ("warned", severity_rows r Warn); ("skipped", severity_rows r Skip);
   ("passed", passed_rows r o)].

Definition options_style (o : Options) : palette := mkPalette (Color o) (Hyperlinks o) (Link o).
Definition report_layout (r : Report string) (o : Options) : layout :=
  let w := if (Width o <=? 0)%Z then defaultWidth else Width o in
  let longest := foldl (λ longest g, Z.max longest (widest g.2)) 0%Z (row_groups r o) in
  mkLayout w (Z.max longest minNameWidth) (Z.quot (w * 2) 5 <? longest)%Z.

Definition group_lines (style : palette) (shape : layout) (g : string * list row) : list string :=
  match g.2 with
  | [] => []
  | rows => ("  " +:+ painted_dim style g.1) :: mjoin (map (row_lines style shape) rows)
  end.
Definition report_lines (r : Report string) (o : Options) : list string :=
  let style := options_style o in
  mjoin (map (group_lines style (report_layout r o)) (row_groups r o)) ++
  ["  " +:+ painted_dim style (Summary_String (Summary_ r))].

(** *** Writing *)

Section Writer.
Context {W Err : Type} (WriteString : string → W → option Err * W).

Record errWriter := mkErrWriter { w : W; err : option Err }.
(** The first error ends the writing. *)
Definition line (e : errWriter) (s : string) : errWriter :=
  match err e with
  | Some _ => e
  | None =>
      let '(err, w) := WriteString (s +:+ String newline_byte "") (w e) in mkErrWriter w err
  end.
Definition Render (r : Report string) (w0 : W) (o : Options) : option Err * W :=
  let out := foldl line (mkErrWriter w0 None) (report_lines r o) in (err out, w out).
End Writer.

(** [Report.String]: into a builder, which takes what it is given. *)
Definition no_options : Options := mkOptions false false false 0 None.
Definition Report_String (r : Report string) : string :=
  trim_right newline_byte
    (Render (Err:=Empty_set) (λ s b, (None, b +:+ s)) r "" no_options).2.

(** * Facts *)

(** ** Wrapping *)

Definition space : ascii := " ".

Lemma fields_nonempty skip cur s : Forall (λ x, x ≠ "") (fields_from skip cur s).
Proof.
  assert (∀ cur rest, Forall (λ x, x ≠ "") rest → Forall (λ x, x ≠ "") (add_word cur rest)) as Hadd.
  { intros c rest Hr. unfold add_word. case_bool_decide; [done|]. by constructor. }
  revert skip cur. induction s as [|c s IH]; intros skip cur; cbn [fields_from]; [by apply Hadd|].
  destruct skip; [|done]. destruct (space_at _); auto.
Qed.

(** Lines filled greedily: each line is the words of its group; it fits, or is one word;
    and the first word of the next line would not have fit on it. *)
Definition fits (width : Z) (group : list string) : Prop :=
  (columns (join " " group) <= width)%Z ∨ length group = 1.
Inductive filled (width : Z) : list (list string) → Prop :=
  | filled_last group : group ≠ [] → fits width group → filled width [group]
  | filled_next group word next groups :
      group ≠ [] → fits width group → (width < columns (join " " group) + 1 + columns word)%Z →
      filled width ((word :: next) :: groups) → filled width (group :: (word :: next) :: groups).

Lemma columns_app s t : columns (s +:+ " " +:+ t) = (columns s + 1 + columns t)%Z.
Proof. unfold columns. rewrite (str_app_cons " " ""), str_app_nil_l, RuneCount_app by done. lia. Qed.
Lemma join_words_snoc l word : l ≠ [] → join " " (l ++ [word]) = join " " l +:+ " " +:+ word.
Proof.
  induction l as [|x [|y l] IH]; intros Hl; [done|done|]. cbn [app]. rewrite !join_cons2. cbn [app] in IH.
  by rewrite IH, !str_app_assoc.
Qed.
Lemma wrap_words_filled width group words :
  group ≠ [] → join " " group ≠ "" → fits width group → Forall (λ x, x ≠ "") words →
  ∃ next groups, wrap_words width (join " " group) words = map (join " ") ((group ++ next) :: groups) ∧
    (group ++ next) ++ mjoin groups = group ++ words ∧ filled width ((group ++ next) :: groups).
Proof.
  revert group. induction words as [|word words IH]; intros group Hg Hj Hf Hw.
  - exists [], []. rewrite !app_nil_r. split; [done|]. split; [done|]. by constructor.
  - apply Forall_cons in Hw as [Hne Hw]. cbn [wrap_words]. rewrite bool_decide_eq_false_2 by done.
    destruct (columns (join " " group) + 1 + columns word <=? width)%Z eqn:E.
    + apply Z.leb_le in E. rewrite <-join_words_snoc by done.
      destruct (IH (group ++ [word])) as (next & groups & Hwrap & Hflat & Hfill); [by destruct group| | |done|].
      { rewrite join_words_snoc by done. by destruct (join " " group). }
      { left. by rewrite join_words_snoc, columns_app by done. }
      exists (word :: next), groups. replace (group ++ word :: next) with ((group ++ [word]) ++ next) by by rewrite <-app_assoc.
      split; [done|]. split; [|done]. rewrite Hflat. by rewrite <-app_assoc.
    + apply Z.leb_gt in E. destruct (IH [word]) as (next & groups & Hwrap & Hflat & Hfill); [done|done|by right|done|].
      exists [], ((word :: next) :: groups). rewrite app_nil_r. cbn [join] in Hwrap. rewrite Hwrap.
      split; [done|]. split; [|by constructor]. cbn [mjoin list_join]. f_equal. exact Hflat.
Qed.
(** Wrapped detail has the words of the text in order, on lines filled greedily: a line
    fits or is one word that is left whole, and the next word did not fit on it. *)
Theorem wrap_fills text width :
  contains_byte newline_byte text = false → Fields text ≠ [] →
  ∃ groups, wrap text width = map (join " ") groups ∧ mjoin groups = Fields text ∧ filled width groups.
Proof.
  intros Hn Hf. unfold wrap. rewrite Hn. pose proof (fields_nonempty 0 "" text) as Hw. fold (Fields text) in Hw.
  rewrite bool_decide_eq_false_2 by by intros ->. destruct (Fields text) as [|word words]; [done|].
  apply Forall_cons in Hw as [Hne Hw]. cbn [wrap_words].
  destruct (wrap_words_filled width [word] words) as (next & groups & Hwrap & Hflat & Hfill); [done..|by right|done|].
  exists ((word :: next) :: groups). split; [exact Hwrap|]. by split.
Qed.

(** ** What a terminal shows *)

(** A styled string without its escapes: [CSI … m], and [OSC 8 ; ; url ST] around a link. *)
Inductive mode := Text | Escape | Csi | Osc | OscEnd.
Fixpoint unstyled (m : mode) (s : string) : string :=
  match s with
  | "" => ""
  | String c s =>
      match m with
      | Text => if bool_decide (c = esc) then unstyled Escape s else String c (unstyled Text s)
      | Escape => unstyled (if bool_decide (c = "["%char) then Csi else if bool_decide (c = "]"%char) then Osc else Text) s
      | Csi => unstyled (if bool_decide (c = "m"%char) then Text else Csi) s
      | Osc => unstyled (if bool_decide (c = esc) then OscEnd else Osc) s
      | OscEnd => unstyled Text s
      end
  end.
Definition displays (x y : string) : Prop := ∀ t, unstyled Text (x +:+ t) = y +:+ unstyled Text t.
Definition free (c : ascii) (s : string) : Prop := str_forall (λ d, negb (bool_decide (d = c))) s = true.
Notation esc_free := (free esc).

Lemma displays_eq x y : displays x y → unstyled Text x = y.
Proof. intros Hx. rewrite <-(str_app_nil_r x), Hx. apply str_app_nil_r. Qed.
Lemma displays_app x y x' y' : displays x y → displays x' y' → displays (x +:+ x') (y +:+ y').
Proof. intros Hx Hx' t. by rewrite !str_app_assoc, Hx, Hx'. Qed.
Lemma displays_free s : esc_free s → displays s s.
Proof.
  intros Hs t. induction s as [|c s IH]; [done|]. unfold free in *. cbn in Hs. apply andb_true_iff in Hs as [Hc Hs].
  apply negb_true_iff in Hc. rewrite !str_app_cons. cbn [unstyled]. by rewrite Hc, IH.
Qed.
Lemma unstyled_csi code t : free "m" code → unstyled Csi (code +:+ "m" +:+ t) = unstyled Text t.
Proof.
  intros Hs. induction code as [|c s IH]; [done|]. unfold free in *. cbn in Hs. apply andb_true_iff in Hs as [Hc Hs].
  apply negb_true_iff in Hc. rewrite str_app_cons. cbn [unstyled]. by rewrite Hc, IH.
Qed.
Lemma unstyled_osc url t : esc_free url → unstyled Osc (url +:+ String esc "\" +:+ t) = unstyled Text t.
Proof.
  intros Hs. induction url as [|c s IH]; [done|]. unfold free in *. cbn in Hs. apply andb_true_iff in Hs as [Hc Hs].
  apply negb_true_iff in Hc. rewrite str_app_cons. cbn [unstyled]. by rewrite Hc, IH.
Qed.
Lemma displays_paint p code x y : free "m" code → displays x y → displays (paint p code x) y.
Proof.
  intros Hc Hx t. unfold paint. destruct (_ || _); [apply Hx|]. rewrite !str_app_assoc.
  change (unstyled Text (String esc "[" +:+ code +:+ "m" +:+ x +:+ String esc "[0m" +:+ t))
    with (unstyled Csi (code +:+ "m" +:+ x +:+ String esc "[0m" +:+ t)).
  by rewrite unstyled_csi, Hx by done.
Qed.
Definition clean_links (p : palette) : Prop := ∀ l requirement, link p = Some l → esc_free requirement → esc_free (l requirement).
Lemma displays_linked p requirement x y : 
  clean_links p → esc_free requirement → displays x y → displays (linked p requirement x) y.
Proof.
  intros Hl Hr Hx t. unfold linked. destruct (link p) as [l|] eqn:E; [|apply Hx]. destruct (_ || _); [apply Hx|].
  case_bool_decide; [apply Hx|]. rewrite !str_app_assoc.
  transitivity (unstyled Osc (l requirement +:+ String esc "\" +:+ x +:+ String esc "]8;;" +:+ String esc "\" +:+ t)); [done|].
  rewrite unstyled_osc by by apply Hl. by rewrite Hx.
Qed.

(** *** Strings that end off a space *)

Definition ends_off (s : string) : Prop := ∃ r c, s = r +:+ String c "" ∧ c ≠ space.

Lemma ends_off_app s t : ends_off t → ends_off (s +:+ t).
Proof. intros (r & c & -> & Hc). exists (s +:+ r), c. by rewrite str_app_assoc. Qed.
Lemma trim_right_ends_off s n : ends_off s → trim_right " " (s +:+ spaces n) = s.
Proof.
  intros (r & c & -> & Hc). unfold trim_right. rewrite !str_rev_app_distr.
  assert (String.rev (spaces n) = spaces n) as ->.
  { induction n as [|n IH]; [done|]. change (spaces (S n)) with (String " " "" +:+ spaces n) at 1.
    rewrite str_rev_app_distr, IH. clear IH. induction n as [|n IH]; [done|]. cbn [spaces]. by rewrite str_app_cons, IH. }
  induction n as [|n IH]; [|cbn [spaces]; by rewrite str_app_cons].
  cbn [spaces]. rewrite str_app_nil_l. change (String.rev (String c "")) with (String c "").
  rewrite str_app_cons, str_app_nil_l. cbn [trim_left]. rewrite decide_False by done.
  change (String c (String.rev r)) with (String c "" +:+ String.rev r). by rewrite str_rev_app_distr, str_rev_involutive.
Qed.
Lemma trim_left_length c s : String.length (trim_left c s) ≤ String.length s.
Proof. induction s as [|d s IH]; cbn; [lia|]. destruct (decide _); cbn; lia. Qed.
Lemma trimmed_ends_off s : s ≠ "" → trim_right " " s = s → ends_off s.
Proof.
  intros Hs Ht. rewrite <-(str_rev_involutive s). unfold trim_right in Ht. apply (f_equal String.rev) in Ht.
  rewrite str_rev_involutive in Ht. destruct (String.rev s) as [|c r] eqn:E.
  { apply (f_equal String.rev) in E. by rewrite str_rev_involutive in E. }
  change (String c r) with (String c "" +:+ r). rewrite str_rev_app_distr. exists (String.rev r), c. split; [done|].
  intros ->. cbn [trim_left] in Ht. rewrite decide_True in Ht by done.
  apply (f_equal String.length) in Ht. pose proof (trim_left_length " " r). cbn in Ht. lia.
Qed.
Lemma paint_ends_off p code s : ends_off s → ends_off (paint p code s).
Proof.
  intros Hs. unfold paint. destruct (_ || _); [done|]. do 4 apply ends_off_app. by exists (String esc "[0"), "m"%char.
Qed.
Lemma linked_ends_off p requirement s : ends_off s → ends_off (linked p requirement s).
Proof.
  intros Hs. unfold linked. destruct (link p); [|done]. destruct (_ || _); [done|]. case_bool_decide; [done|].
  do 5 apply ends_off_app. by exists (String esc ""), "\"%char.
Qed.
Lemma name_ends_off p s n : ends_off n → ends_off (name p s n).
Proof. intros Hn. destruct s as [|[]]; by apply paint_ends_off. Qed.
Lemma symbol_ends_off p s : ends_off (symbol p s).
Proof.
  destruct s as [|[]]; apply paint_ends_off.
  - by exists (of_bytes [226; 156]), (byte 147).
  - by exists (of_bytes [226; 156]), (byte 151).
  - by exists "", "!"%char.
  - by exists (of_bytes [226; 128]), (byte 147).
Qed.
Lemma pad_spaces styled plain n : pad styled plain n = styled +:+ blank (n - columns plain).
Proof.
  unfold pad. destruct (_ <=? _)%Z eqn:E; [|done]. apply Z.leb_le in E. unfold blank.
  replace (Z.to_nat _) with 0 by lia. by rewrite str_app_nil_r.
Qed.

(** *** Rows *)

Definition plain_style (p : palette) : palette := mkPalette false false (link p).
Lemma paint_plain p code s : paint (plain_style p) code s = s.
Proof. done. Qed.
Lemma linked_plain p requirement s : linked (plain_style p) requirement s = s.
Proof. unfold linked. cbn. by destruct (link p). Qed.

Lemma byte_free_app c s t : free c s → free c t → free c (s +:+ t).
Proof. unfold free. rewrite str_forall_app. by intros -> ->. Qed.
Lemma blank_free n : esc_free (blank n).
Proof. unfold blank. induction (Z.to_nat n) as [|k IH]; [done|exact IH]. Qed.
Lemma displays_name p s n : esc_free n → displays (name p s n) (name (plain_style p) s n).
Proof. intros Hn. destruct s as [|[]]; (apply displays_paint; [done|by apply displays_free]). Qed.
Lemma displays_symbol p s : displays (symbol p s) (symbol (plain_style p) s).
Proof. destruct s as [|[]]; (apply displays_paint; [done|by apply displays_free]). Qed.
Lemma displays_dim p x y : displays x y → displays (painted_dim p x) y.
Proof. by apply displays_paint. Qed.

Lemma fields_free skip cur s : esc_free cur → esc_free s → Forall esc_free (fields_from skip cur s).
Proof.
  assert (∀ cur rest, esc_free cur → Forall esc_free rest → Forall esc_free (add_word cur rest)) as Hadd.
  { intros c rest Hc Hr. unfold add_word. case_bool_decide; [done|]. by constructor. }
  revert skip cur. induction s as [|c s IH]; intros skip cur Hcur Hs; cbn [fields_from]; [by apply Hadd|].
  unfold free in Hs. cbn in Hs. apply andb_true_iff in Hs as [Hc Hs]. destruct skip; [|by apply IH].
  destruct (space_at _); [apply Hadd; [done|by apply IH]|]. apply IH; [|done]. apply byte_free_app; [done|]. unfold free. cbn. by rewrite Hc.
Qed.
Lemma wrap_words_free width line words :
  esc_free line → Forall esc_free words → Forall esc_free (wrap_words width line words).
Proof.
  revert line. induction words as [|word words IH]; intros line Hl Hw; cbn [wrap_words]; [by constructor|].
  apply Forall_cons in Hw as [Hword Hw]. case_bool_decide; [by apply IH|]. destruct (_ <=? _)%Z.
  - apply IH; [|done]. by apply byte_free_app, (byte_free_app _ " ").
  - constructor; [done|]. by apply IH.
Qed.
Lemma wrap_free text width : esc_free text → Forall esc_free (wrap text width).
Proof.
  intros Ht. unfold wrap. destruct (contains_byte _ _); [by apply split_forall|]. case_bool_decide; [by constructor|].
  apply wrap_words_free; [done|]. by apply fields_free.
Qed.
Lemma tag_lines_displays fits ext ext' own own' lines :
  Forall esc_free lines → (∀ l, esc_free l → displays (ext l) (ext' l)) → displays own own' →
  Forall2 displays (tag_lines fits ext own lines) (tag_lines fits ext' own' lines).
Proof.
  intros Hl He Ho. induction Hl as [|line lines Hline Hl IH]; [by repeat constructor|].
  destruct lines as [|line' lines]; cbn [tag_lines].
  - destruct (fits line); repeat constructor; eauto using displays_free.
  - constructor; [by apply displays_free|exact IH].
Qed.

Definition clean_text (name detail requirement : string) : Prop :=
  esc_free name ∧ esc_free detail ∧ esc_free requirement ∧ trim_right " " name = name.
Definition clean_row (f : row) : Prop := clean_text (row_name f) (row_detail f) (row_requirement f).

Lemma row_tag_free f : clean_row f → esc_free (row_tag f).
Proof. intros (_ & _ & Hr & _). unfold row_tag. by case_bool_decide. Qed.
Lemma detail_lines_displays p shape f :
  clean_links p → clean_row f → Forall2 displays (detail_lines p shape f) (detail_lines (plain_style p) shape f).
Proof.
  intros Hl Hf. unfold detail_lines. assert (Forall esc_free (wrap (row_detail f) (Z.max (width shape - row_column shape f) minTextWidth)))
    as Hw by by apply wrap_free, Hf. case_bool_decide.
  - clear -Hw. induction Hw; constructor; auto using displays_free.
  - assert (displays (painted_dim p (linked p (row_requirement f) ("[" +:+ row_tag f +:+ "]")))
        (painted_dim (plain_style p) (linked (plain_style p) (row_requirement f) ("[" +:+ row_tag f +:+ "]")))) as Ht.
    { unfold painted_dim at 2. rewrite paint_plain, linked_plain. apply displays_dim, displays_linked, displays_free; [done|apply Hf|].
      apply (byte_free_app _ "["); [done|]. by apply byte_free_app; [apply row_tag_free|]. }
    apply tag_lines_displays; [done| |exact Ht]. intros l Hfree. apply displays_app; [by apply displays_free|].
    by apply (displays_app " " " "); [apply displays_free|].
Qed.
Lemma indent_displays n ls ls' :
  Forall2 displays ls ls' → Forall2 displays (map (λ line, blank n +:+ line) ls) (map (λ line, blank n +:+ line) ls').
Proof. induction 1; constructor; [|done]. apply displays_app; [apply displays_free, blank_free|done]. Qed.

(** The name of a row with its link, and the head of a row without detail. *)
Definition row_named (p : palette) (f : row) : string :=
  let named := name p (row_severity f) (row_name f) in
  if bool_decide (row_tag f = "") then linked p (row_requirement f) named else named.
Lemma row_named_displays p f : clean_links p → clean_row f → displays (row_named p f) (row_named (plain_style p) f).
Proof.
  intros Hl Hf. unfold row_named. case_bool_decide; [rewrite linked_plain; apply displays_linked; [done|apply Hf|]|]; apply displays_name, Hf.
Qed.
Lemma row_head_trimmed p shape f :
  clean_row f → row_tag f = "" →
  trim_right " " ((blank rowIndent +:+ symbol p (row_severity f) +:+ " ") +:+ pad (row_named p f) (row_name f) (nameWidth shape)) =
  if bool_decide (row_name f = "") then blank rowIndent +:+ symbol p (row_severity f)
  else (blank rowIndent +:+ symbol p (row_severity f) +:+ " ") +:+ row_named p f.
Proof.
  intros (_ & _ & _ & Ht) Htag. rewrite pad_spaces. unfold blank at 2. case_bool_decide as Hn.
  - assert (row_named p f = "") as ->.
    { unfold row_named. rewrite Htag, bool_decide_eq_true_2 by done. unfold row_tag in Htag. rewrite Hn in *.
      assert (name p (row_severity f) "" = "") as ->.
      { destruct (row_severity f) as [|[]]; cbn; unfold paint; by rewrite orb_true_r. }
      unfold linked. destruct (link p); [|done]. assert (row_requirement f = "") as -> by (revert Htag; by case_bool_decide).
      by rewrite orb_true_r. }
    rewrite str_app_nil_l, !str_app_assoc. change (" " +:+ spaces ?k) with (spaces (S k)).
    rewrite <-str_app_assoc. apply trim_right_ends_off, ends_off_app, symbol_ends_off.
  - rewrite <-str_app_assoc. apply trim_right_ends_off, ends_off_app. unfold row_named.
    destruct (bool_decide _); [apply linked_ends_off|]; apply name_ends_off, trimmed_ends_off; done.
Qed.
Lemma row_lines_displays p shape f :
  clean_links p → clean_row f → Forall2 displays (row_lines p shape f) (row_lines (plain_style p) shape f).
Proof.
  intros Hl Hf. pose proof (detail_lines_displays p shape f Hl Hf) as Hd. pose proof (row_named_displays p f Hl Hf) as Hn.
  assert (∀ x x', displays x x' → displays ((blank rowIndent +:+ symbol p (row_severity f) +:+ " ") +:+ x)
    ((blank rowIndent +:+ symbol (plain_style p) (row_severity f) +:+ " ") +:+ x')) as Hhead.
  { intros x x' Hx. apply displays_app; [|done]. apply displays_app; [apply displays_free, blank_free|].
    apply displays_app; [apply displays_symbol|by apply displays_free]. }
  unfold row_lines. fold (row_named p f) (row_named (plain_style p) f). destruct (row_long shape f).
  { constructor; [by apply Hhead|by apply indent_displays]. }
  destruct (detail_lines p shape f) as [|first rest] eqn:E, (detail_lines (plain_style p) shape f) as [|first' rest'];
    [|by inversion Hd..|apply Forall2_cons in Hd as [Hfirst Hrest]].
  - constructor; [|done]. assert (row_tag f = "") as Htag.
    { unfold detail_lines in E. case_bool_decide as Ht; [exact Ht|]. revert E.
      generalize (wrap (row_detail f) (Z.max (width shape - row_column shape f) minTextWidth)). clear.
      intros ls. destruct ls as [|l ls]; [done|]. cbn [tag_lines]. destruct ls; [|done]. by case_match. }
    rewrite !row_head_trimmed by done. case_bool_decide; [|by apply Hhead].
    apply displays_app; [apply displays_free, blank_free|apply displays_symbol].
  - constructor; [|by apply indent_displays]. apply displays_app.
    + apply Hhead. rewrite !pad_spaces. apply displays_app; [done|apply displays_free, blank_free].
    + by apply (displays_app " " " "); [apply displays_free|].
Qed.

(** *** The report *)

Definition clean_report (r : Report string) : Prop :=
  Forall (λ f, clean_text (Finding_Check f) (Detail f) (Finding_Requirement f)) (Findings r) ∧
  Forall (λ c, clean_text (Check_Name c) "" (Check_Requirement c)) (Checks r).
Definition plain_options (o : Options) : Options := mkOptions (Verbose o) false false (Width o) (Link o).

Lemma row_groups_clean r o : clean_report r → Forall (λ g, Forall clean_row g.2) (row_groups r o).
Proof.
  intros [Hf Hc]. assert (∀ s, Forall clean_row (severity_rows r s)) as Hs.
  { intros s. unfold severity_rows. rewrite Forall_map. apply Forall_forall. intros f Hin.
    apply list_elem_of_In, List.filter_In in Hin as [Hin%list_elem_of_In _]. rewrite Forall_forall in Hf. by apply Hf. }
  unfold row_groups. repeat (apply Forall_cons; split); [apply Hs..| |by constructor].
  cbn. unfold passed_rows. destruct (Verbose o); [|by constructor]. rewrite Forall_map. apply Forall_forall. intros c Hin.
  unfold passing in Hin. apply list_elem_of_In, List.filter_In in Hin as [Hin%list_elem_of_In _]. rewrite Forall_forall in Hc. by apply Hc.
Qed.
Lemma group_lines_displays p shape g :
  clean_links p → esc_free g.1 → Forall clean_row g.2 →
  Forall2 displays (group_lines p shape g) (group_lines (plain_style p) shape g).
Proof.
  intros Hl Hg Hr. unfold group_lines. destruct g.2 as [|f rows]; [by constructor|]. constructor.
  - apply (displays_app "  " "  "); [by apply displays_free|]. by apply displays_dim, displays_free.
  - revert Hr. generalize (f :: rows). intros l Hr. induction Hr as [|f' rows' Hf Hr IH]; [by constructor|].
    cbn. apply Forall2_app; [by apply row_lines_displays|exact IH].
Qed.
Lemma pretty_free (n : nat) : esc_free (pretty n).
Proof.
  destruct (pretty_digits (N.of_nat n)) as [[_ Hd]%andb_true_iff _]. change (pretty n) with (pretty (N.of_nat n)).
  eapply str_forall_impl; [|exact Hd]. intros c Hc. apply negb_true_iff, bool_decide_eq_false. by intros ->.
Qed.
Lemma join_free sep l : esc_free sep → Forall esc_free l → esc_free (join sep l).
Proof.
  intros Hs Hl. induction Hl as [|x [|y l] Hx Hl IH]; [done|done|]. rewrite join_cons2. by repeat apply byte_free_app.
Qed.
Lemma Summary_String_free s : esc_free (Summary_String s).
Proof.
  assert (∀ n noun, esc_free noun → esc_free (plural n noun)) as Hp.
  { intros n noun Hn. unfold plural. destruct (n =? 1); repeat apply byte_free_app; try done; try apply pretty_free. all: by apply (byte_free_app _ " "). }
  unfold Summary_String. apply join_free; [done|]. constructor; [by apply Hp|].
  cbn [omap list_omap fst snd]. repeat case_match; simplify_eq; repeat constructor; (apply byte_free_app; [apply pretty_free|done]).
Qed.
Lemma report_lines_displays r o :
  clean_links (options_style o) → clean_report r →
  Forall2 displays (report_lines r o) (report_lines r (plain_options o)).
Proof.
  intros Hl Hr. unfold report_lines. change (options_style (plain_options o)) with (plain_style (options_style o)).
  change (report_layout r (plain_options o)) with (report_layout r o).
  change (row_groups r (plain_options o)) with (row_groups r o).
  apply Forall2_app.
  - pose proof (row_groups_clean r o Hr) as Hg. assert (Forall (λ g : string * list row, esc_free g.1) (row_groups r o)) as Hn
      by by repeat constructor.
    induction Hg as [|g groups Hg Hgs IH]; [by constructor|]. apply Forall_cons in Hn as [Hn Hns]. cbn.
    apply Forall2_app; [by apply group_lines_displays|by apply IH].
  - constructor; [|by constructor]. apply (displays_app "  " "  "); [by apply displays_free|].
    by apply displays_dim, displays_free, Summary_String_free.
Qed.

(** ** What rendering guarantees *)

(** Colours and links are decoration: of a report whose texts hold no escapes, what a
    terminal displays of the styled rendering is, line for line, the plain one. *)
Theorem plain_is_unstyled r o :
  clean_links (options_style o) → clean_report r →
  map (unstyled Text) (report_lines r o) = report_lines r (plain_options o).
Proof. intros Hl Hr. induction (report_lines_displays r o Hl Hr) as [|x y l l' Hx _ IH]; [done|]. cbn. by rewrite (displays_eq x y), IH. Qed.

(** What is written is a prefix of the lines, up to the first that the writer refuses,
    whose error is the result; all of them where there is none. *)
Theorem render_writes {W Err} (WriteString : string → W → option Err * W) r (w0 : W) o :
  let written lines := foldl (λ w s, (WriteString (s +:+ String newline_byte "") w).2) w0 lines in
  match Render WriteString r w0 o with
  | (None, w) => w = written (report_lines r o)
  | (Some e, w) =>
      ∃ before s after, report_lines r o = before ++ s :: after ∧
        WriteString (s +:+ String newline_byte "") (written before) = (Some e, w)
  end.
Proof.
  cbn zeta. unfold Render.
  assert (∀ l w0, let e := foldl (line WriteString) (mkErrWriter w0 None) l in
    match err e with
    | None => w e = foldl (λ w s, (WriteString (s +:+ String newline_byte "") w).2) w0 l
    | Some x => ∃ before s after, l = before ++ s :: after ∧
        WriteString (s +:+ String newline_byte "")
          (foldl (λ w s, (WriteString (s +:+ String newline_byte "") w).2) w0 before) = (Some x, w e)
    end) as Hall; [|exact (Hall (report_lines r o) w0)].
  clear. induction l as [|s l IH]; intros w0; [done|]. cbn [foldl]. unfold line at 2 4 6. cbn [err w].
  destruct (WriteString _ w0) as [[x|] w1] eqn:E; cbn [fst snd].
  - assert (∀ e : errWriter, err e = Some x → foldl (line WriteString) e l = e) as Hstop.
    { clear. induction l as [|s l IH]; intros e He; [done|]. cbn. unfold line at 2. rewrite He. by apply IH. }
    rewrite Hstop by done. cbn. exists [], s, l. by split.
  - specialize (IH w1). cbn in IH. destruct (err _).
    + destruct IH as (before & s' & after & -> & Hw). exists (s :: before), s', after. split; [done|]. cbn. by rewrite E.
    + by rewrite IH.
Qed.

(** ** A report *)

Module Sample.
Definition report : Report string :=
  Add (Add (Add zero_report "annotations" "SPEC-v3" [Failf "the version annotation is missing from the manifest of this kit"])
    "sources" "SPEC-v3" []) "floor" "sbx@1" [Warnf "no shell"].
Definition options : Options := mkOptions true true true 60 (Some (λ r, "https://spec/" +:+ r)).

Lemma plain_is_unstyled_witness : map (unstyled Text) (report_lines report options) = report_lines report (plain_options options).
Proof.
  apply (plain_is_unstyled report options).
  - intros l requirement [= <-] Hr. by apply byte_free_app.
  - split; repeat constructor.
Defined.
Example sample_text :
  report_lines report (plain_options options) =
  ["  failed";
   "    " +:+ of_bytes [226; 156; 151] +:+ " annotations          the version annotation is missing";
   "                           from the manifest of this kit";
   "                           [SPEC-v3]";
   "  warned";
   "    ! floor                no shell [sbx@1]";
   "  passed";
   "    " +:+ of_bytes [226; 156; 147] +:+ " sources              [SPEC-v3]";
   "  3 checks" +:+ middle_dot +:+ "1 failed" +:+ middle_dot +:+ "1 warned" +:+ middle_dot +:+ "1 passed"].
Proof. by vm_compute. Qed.
End Sample.
