(* ===== verification/KitMerge.v ===== *)
(** The frontend against the conformance suite: the declarations a set build
    publishes ([cmd/frontend/set.go], [spec/merge.go]) pass the judgement the suite
    ([tck/kit/kit.go]) makes of them from the published artifact. *)
From stdpp Require Import options.
From S2P Require Import Prelude GoStrings Version VersionFacts Json Types Config Marshal GoPath Template Merge MergeFacts MergeRelations Context Resolve Oci Validate Expand Registry Fetch FetchFacts Publish Report KitSuite KitFacts SetBuild SetOrder SetFacts SetRelations.

(** ** The provides of a merge *)

(** A provide that names no version has the contribution's, and that one is well formed. *)
Definition versioned (c : Contribution) : Prop :=
  ∀ s p, s ∈ Provides (cdescriptor c) → ParseProvide s = Ok p → PVersion p = "" →
  wfVersion (Types.Version (cdescriptor c)) = true.

Definition versionedb (c : Contribution) : bool :=
  forallb (λ s, match ParseProvide s with
                | Ok p => negb (bool_decide (PVersion p = "")) || wfVersion (Types.Version (cdescriptor c))
                | Err _ => true
                end) (Provides (cdescriptor c)).
Lemma versionedb_spec cs : forallb versionedb cs = true → Forall versioned cs.
Proof.
  rewrite forallb_Forall. intros Hall. eapply Forall_impl; [exact Hall|]. intros c. unfold versionedb. rewrite forallb_Forall, Forall_forall.
  intros Hc s p Hs Hp Hb. specialize (Hc s Hs). rewrite Hp, Hb in Hc. done.
Qed.

(** An entry with a version attached reads as the name at that version. *)
Lemma attached_version s p v :
  ParseProvide s = Ok p → PVersion p = "" → wfVersion v = true →
  ParseProvide (trim_space s +:+ "@" +:+ v) = Ok (mkProvide (PName p) v).
Proof.
  unfold ParseProvide. intros Hp Hb Hv.
  destruct (cut "@" (trim_space s)) as [[name version] found] eqn:Ec.
  destruct (capabilityNameError name) as [e|] eqn:Hn; [done|].
  assert (version = "" ∧ PName p = NormalizeCapabilityName name) as [-> Hname].
  { destruct found; [destruct (parseVersion version); [|done]|]; by injection Hp as <-. }
  destruct found.
  { destruct (parseVersion "") as [w|e] eqn:Ep; [|done]. apply parseVersion_Ok in Ep as [-> Hw]. by vm_compute in Hw. }
  apply cut_not_found in Ec as (-> & _ & Hat). pose proof (capabilityName_graphic _ Hn) as Hg.
  rewrite (trim_space_graphic (trim_space s +:+ "@" +:+ v)).
  2:{ rewrite !str_forall_app, Hg, (wfVersion_graphic v) by done. done. }
  change ("@" +:+ v) with (String "@" v). rewrite cut_app by done. rewrite Hn, Hname.
  assert (parseVersion v = Ok v) as ->; [|done]. apply parseVersion_Ok. split; [|done]. symmetry. by apply wfVersion_trim.
Qed.

(** What a contribution emits reads, in the merged descriptor, as the key it is emitted under. *)
Lemma emitted_carried version c s key s' :
  versioned c → s ∈ Provides (cdescriptor c) → emitted_provide (cdescriptor c) s = Some (key, s') →
  carried_key version s' = Some key.
Proof.
  intros Hv Hs. unfold emitted_provide, carried_key. destruct (ParseProvide s) as [p|e] eqn:Ep; [|done]. cbn zeta.
  unfold materialized. intros [= <- <-]. destruct (bool_decide_reflect (PVersion p = "")) as [Eb|Eb]; cbn [andb].
  - specialize (Hv s p Hs Ep Eb). rewrite bool_decide_eq_false_2 by (by apply wfVersion_nonempty). cbn [negb PName PVersion].
    rewrite (attached_version s p) by done. cbn [PName PVersion]. rewrite bool_decide_eq_false_2; [done|].
    by apply wfVersion_nonempty.
  - rewrite Ep. by rewrite bool_decide_eq_false_2.
Qed.

Lemma merged_provides_carried version cs c s p :
  Forall versioned cs → c ∈ cs → s ∈ Provides (cdescriptor c) → ParseProvide s = Ok p →
  ∃ s', s' ∈ merged_provides cs ∧
    carried_key version s' = Some (PName (materialized (cdescriptor c) p) +:+ "@" +:+ PVersion (materialized (cdescriptor c) p)).
Proof.
  intros Hv Hc Hs Ep. rewrite Forall_forall in Hv. unfold merged_provides.
  set (emitted := flat_map _ cs). set (key := PName _ +:+ _).
  assert (key ∈ fst <$> emitted) as Hk.
  { apply list_elem_of_fmap. unfold emitted_provide in emitted. eexists (key, _). split; [done|].
    apply elem_of_flat_map. exists c. split; [done|]. apply list_elem_of_omap. exists s. by rewrite Ep. }
  rewrite <-dedupe_key in Hk. apply list_elem_of_fmap in Hk as ([k s'] & Ek & Hin). cbn in Ek. subst k.
  exists s'. split; [apply list_elem_of_fmap; by exists (key, s')|].
  apply dedupe_elem_of, elem_of_flat_map in Hin as (c' & Hc' & (s'' & Hs'' & E)%list_elem_of_omap).
  by apply (emitted_carried version c' s'' key s'); [apply Hv|..].
Qed.

(** ** What [Merge] keeps besides the relations *)

Lemma merged_provides_stripped cs : merged_provides (map stripped cs) = merged_provides cs.
Proof. unfold merged_provides. do 2 f_equal. induction cs as [|c cs IH]; [done|]. cbn. by rewrite IH. Qed.
Lemma licenses_stripped cs :
  flat_map (λ c, Licenses (cdescriptor c)) (map stripped cs) = flat_map (λ c, Licenses (cdescriptor c)) cs.
Proof. induction cs as [|c cs IH]; [done|]. cbn. by rewrite IH. Qed.

Definition declared_by (cs : list Contribution) (d : Descriptor) : Prop :=
  Provides d = merged_provides cs ∧ (∀ l, l ∈ Licenses d ↔ ∃ c, c ∈ cs ∧ l ∈ Licenses (cdescriptor c)) ∧ Kits d = [].
Lemma mergeDeclarations_declared cs r : mergeDeclarations cs = Ok r → declared_by cs (Merged r).
Proof.
  unfold mergeDeclarations. case_bool_decide; [done|]. destruct (List.find _ cs) as [c|]; [done|].
  intros (kind & _ & Hr)%result_bind_Ok. apply result_bind_Ok in Hr as ([caps sources] & _ & [= <-]).
  split_and!; [done| |done]. intros l. cbn [Merged with_capabilities mergeLicenses Licenses].
  by rewrite sort_strings_elem_of, dedupe_id_elem_of, elem_of_flat_map.
Qed.
Lemma Merge_declared cs opts r : Merge cs opts = Ok r → declared_by cs (Merged r).
Proof.
  unfold Merge. destruct (contributionsNeedDeferredMerge cs).
  - unfold preserveGroups. destruct (List.find _ cs); [done|].
    intros (r' & (Hp & Hl & Hk)%mergeDeclarations_declared & Hm)%result_bind_Ok.
    apply result_bind_Ok in Hm as ([sources items] & _ & [= <-]). unfold declared_by. cbn [Merged with_capabilities
      Provides Licenses Kits]. rewrite Hp, merged_provides_stripped. split_and!; [done| |done].
    intros l. rewrite Hl. rewrite <-!elem_of_flat_map. by rewrite licenses_stripped.
  - intros (r' & Hm%mergeDeclarations_declared & Hr)%result_bind_Ok.
    case_bool_decide; [by injection Hr as <-|]. case_bool_decide; [done|]. by injection Hr as <-.
Qed.

(** ** What the suite reads of a listed kit *)

(** A deferred value is bound as it was supplied. *)
Lemma split_supplied_deferred decls supplied : ∀ literal deferred literal' deferred' name v,
  split_supplied decls literal deferred supplied = Ok (literal', deferred') → NoDup supplied.*1 →
  (name, v) ∈ supplied ∧ IsWholeArgRef v = true ∨ deferred !! name = Some v ∧ name ∉ supplied.*1 →
  deferred' !! name = Some v.
Proof.
  induction supplied as [|[n w] supplied IH]; intros literal deferred literal' deferred' name v; cbn [split_supplied].
  { intros [= _ <-] _ [[?%not_elem_of_nil _]|[? _]]; done. }
  destruct (create_args decls !! n); [|done]. rewrite fmap_cons, NoDup_cons. cbn [fst]. intros Hs [Hn Hnd] H.
  assert (n = name ∨ n ≠ name ∧ ((name, v) ∈ supplied ∧ IsWholeArgRef v = true ∨
    deferred !! name = Some v ∧ name ∉ supplied.*1)) as Hcases.
  { destruct (decide (n = name)); [by left|right]. split; [done|]. rewrite elem_of_cons, not_elem_of_cons in H.
    destruct H as [[[[= ? ?]|?] ?]|[? [? ?]]]; [congruence|by left|by right]. }
  destruct (IsWholeArgRef w) eqn:Ew; [|destruct (ContainsArgRef w); [done|]].
  - eapply IH; [done|done|]. destruct Hcases as [->|[Hne [?|[? ?]]]]; [|by left|right].
    + right. rewrite elem_of_cons, not_elem_of_cons in H. destruct H as [[[[= ->]|Hin] _]|[_ [? _]]]; [| |done].
      * split; [by rewrite lookup_insert_eq|done].
      * exfalso. apply Hn. apply list_elem_of_fmap. by exists (name, v).
    + split; [by rewrite lookup_insert_ne|done].
  - eapply IH; [done|done|]. destruct Hcases as [->|[_ ?]]; [|done].
    rewrite elem_of_cons, not_elem_of_cons in H. destruct H as [[[[= ->]|Hin] ?]|[_ [? _]]]; [congruence| |done].
    exfalso. apply Hn. apply list_elem_of_fmap. by exists (name, v).
Qed.

Lemma kit_record_refs `{Gateway} (resolved : gmap string resolvedKit) ks l : kit_record resolved ks = Ok l → Kit_Ref <$> l = Kit_Ref <$> ks.
Proof.
  revert l. induction ks as [|k ks IH]; intros l; cbn [kit_record]; [by intros [= <-]|].
  destruct (resolved !! Kit_Ref k); [|done]. intros (rest & Hrest & [= <-])%result_bind_Ok.
  cbn. by rewrite (IH rest).
Qed.

Section Listed.
Context `{References, Decoders, Documents, Gateway}.
Context (compile : string → option (string → bool)) (plat : Platform) (setArgs : gmap string Arg).

Lemma KitArgValues_deferred decls supplied values name v :
  KitArgValues compile decls supplied = Ok values → supplied !! name = Some v → IsWholeArgRef v = true →
  values !! name = Some v.
Proof.
  unfold KitArgValues. intros ([literal deferred] & Hs & Hr)%result_bind_Ok Hv Hw.
  apply result_bind_Ok in Hr as (vs & _ & [= <-]). apply lookup_union_Some_l.
  eapply split_supplied_deferred; [done|apply NoDup_fst_map_to_list|]. left. split; [by apply elem_of_map_to_list|done].
Qed.

(** The contract of every re-exported argument of a listed kit. *)
Definition kit_reexports (k : Kit) (published : Descriptor) : Prop :=
  ∀ name value setName, Kit_Args k !! name = Some value → IsWholeArgRef value = true → ReferencedArgs value = [setName] →
  CheckReExport name (default zero_arg (Args published !! name)) setName (default zero_arg (setArgs !! setName))
    (bool_decide (is_Some (setArgs !! setName))) = Ok ().

(** The suite rebuilds from the published descriptor what the frontend merged. *)
Lemma declarations_rebuilt k digest published d exported :
  kitDeclarations compile published k setArgs = Ok (d, exported) →
  effectiveContribution compile (mkKit (Kit_Ref k) digest (Kit_Args k)) published =
    Ok (Expand.set_version (EffectiveProvideVersion (Kit_Ref k) (Some d)) d) ∧ kit_reexports k published.
Proof.
  unfold kitDeclarations, effectiveContribution. intros (values & Hv%map_err_Ok & Hd)%result_bind_Ok.
  apply result_bind_Ok in Hd as ([] & Hre%map_err_Ok & Hd). apply result_bind_Ok in Hd as (e & _ & Hd). cbn [Kit_Ref Kit_Args].
  rewrite Hv. cbn [map_err mbind result_bind]. destruct (json_marshal _) as [raw|]; [|done].
  apply result_bind_Ok in Hd as (expanded & Hx%map_err_Ok & Hd). apply result_bind_Ok in Hd as (out & Ho%map_err_Ok & Hd).
  rewrite Hx. cbn. rewrite Ho. cbn. cbn zeta in Hd. case_bool_decide; [|done]. injection Hd as <- <-. split; [done|].
  intros name value setName Hs Hw Hr. rewrite first_problem_Ok in Hre.
  specialize (Hre (name, value)). unfold reexport_problem in Hre. rewrite Hw, Hr in Hre. cbn [negb] in Hre.
  destruct (CheckReExport _ _ _ _ _) as [[]|e']; [done|]. discriminate Hre.
  apply elem_of_map_to_list. by eapply KitArgValues_deferred.
Qed.

Lemma resolveKit_declared k rk :
  resolveKit compile k plat setArgs = Ok rk →
  reference rk = Kit_Ref k ∧ ∃ published d exported,
    readKitDescriptor (SetBuild.state rk) plat = Ok (published, SetBuild.stem rk) ∧
    kitDeclarations compile published k setArgs = Ok (d, exported) ∧
    kit_descriptor rk = Expand.set_version (EffectiveProvideVersion (Kit_Ref k) (Some d)) d.
Proof.
  unfold resolveKit. intros (named & _ & Hr)%result_bind_Ok. apply result_bind_Ok in Hr as (u & _ & Hr).
  apply result_bind_Ok in Hr as ([[pinned dgst] raw] & _ & Hr). apply result_bind_Ok in Hr as (image & _ & Hr).
  apply result_bind_Ok in Hr as ([published st] & Hp & Hr). apply result_bind_Ok in Hr as ([d exported] & Hd & [= <-]).
  split; [done|]. by exists published, d, exported.
Qed.

(** The registry serves, at the digest the frontend resolved, a manifest whose
    descriptor is the one staged in the kit's image. *)
Definition served (resolve_kit : string → string → result string (gmap string string)) (rk : resolvedKit) : Prop :=
  ∀ published, readKitDescriptor (SetBuild.state rk) plat = Ok (published, SetBuild.stem rk) →
  ∃ listed, resolve_kit (reference rk) (SetBuild.digest rk) = Ok listed ∧
    annotation listed AnnotationDescriptor ≠ "" ∧ Decode (annotation listed AnnotationDescriptor) = Ok published ∧
    (ValidatePublished (annotation listed AnnotationDescriptor) published).2 = [].

(** A recorded kit, and it as published with it as merged. *)
Definition read_as (k : Kit) (pe : Contribution * Contribution) : Prop :=
  ∃ published, pe.1 = mkContribution (Kit_Ref k) (Some published) ∧ kit_reexports k published.

Lemma listed_all resolve_kit resolved ks : ∀ rks l,
  resolve_kits compile plat setArgs ks = Ok rks → (∀ rk, rk ∈ rks → resolved !! reference rk = Some rk) →
  kit_record resolved ks = Ok l → Forall (served resolve_kit) rks →
  ∃ listed, read_all_listed compile resolve_kit l = Ok listed ∧ listed.*2 = map kit_contribution rks ∧
    Forall2 read_as l listed.
Proof.
  induction ks as [|k ks IH]; intros rks l; cbn [resolve_kits kit_record].
  { intros [= <-] _ [= <-] _. by exists []. }
  intros (rk & Hk%map_err_Ok & (rest & Hrest & [= <-])%result_bind_Ok)%result_bind_Ok Hres Hl Hserved.
  apply resolveKit_declared in Hk as (Href & published & d & exported & Hpub & Hd & Hdesc).
  assert (resolved !! Kit_Ref k = Some rk) as Hrk by (rewrite <-Href; apply Hres; by left). rewrite Hrk in Hl.
  apply result_bind_Ok in Hl as (l' & Hl' & [= <-]). apply Forall_cons in Hserved as [Hs Hserved].
  destruct (IH rest l' Hrest) as (listed & Hlist & Hsnd & Hall); [intros; apply Hres; by right|done..|].
  destruct (Hs published Hpub) as (ann & Hann & Hne & Hdec & Hval).
  destruct (declarations_rebuilt _ (SetBuild.digest rk) _ _ _ Hd) as [Heff Hre].
  exists ((mkContribution (Kit_Ref k) (Some published), kit_contribution rk) :: listed).
  cbn [read_all_listed]. unfold read_listed. cbn [Kit_Ref Kit_Digest]. rewrite <-Href, Hann. cbn zeta.
  rewrite bool_decide_eq_false_2 by done. rewrite Hdec. cbn [map_err mbind result_bind]. rewrite Hval.
  rewrite Href, Heff. cbn. rewrite Hlist. cbn. unfold kit_contribution at 1. rewrite Href, Hdesc.
  split; [done|]. split; [cbn; by rewrite <-Hsnd|]. constructor; [|done]. by exists published.
Qed.

Lemma by_reference_elem (kits : list Contribution) ref d :
  KitSuite.by_reference kits !! ref = Some d → ∃ c, c ∈ kits ∧ Contribution_Reference c = ref ∧ cdescriptor c = d.
Proof.
  unfold KitSuite.by_reference.
  assert (∀ m : gmap string Descriptor, foldl (λ m c, <[Contribution_Reference c := cdescriptor c]> m) m kits !! ref = Some d →
    m !! ref = Some d ∨ ∃ c, c ∈ kits ∧ Contribution_Reference c = ref ∧ cdescriptor c = d) as Hall.
  { induction kits as [|c kits IH]; intros m; cbn [foldl]; [by left|]. intros [Hm|(c' & ? & ?)]%IH.
    - destruct (decide (Contribution_Reference c = ref)) as [E|E].
      + rewrite E, lookup_insert_eq in Hm. injection Hm as <-. right. exists c. split; [by left|done].
      + rewrite lookup_insert_ne in Hm by done. by left.
    - right. exists c'. split; [by right|done]. }
  intros [Hm|?]%Hall; [by rewrite lookup_empty in Hm|done].
Qed.

Lemma listed_reexports merged listed :
  Args merged = setArgs → NoDup (Kit_Ref <$> Kits merged) → Forall2 read_as (Kits merged) listed →
  reexports_kept merged listed.*1.
Proof.
  intros Hargs Hnd Hall k d name value setName Hk (c & Hc & Hr & <-)%by_reference_elem. rewrite Hargs.
  apply list_elem_of_fmap in Hc as ([c' e] & -> & Hin). apply list_elem_of_lookup in Hin as [i Hi].
  destruct (Forall2_lookup_r _ _ _ _ _ Hall Hi) as (k' & Hk' & published & Hc' & Hre). cbn in Hc'. subst c'.
  cbn in Hr. assert (k' = k) as -> by (by eapply NoDup_fmap_elem; [exact Hnd|by eapply list_elem_of_lookup_2|..]).
  apply Hre.
Qed.
End Listed.

(** ** What the merge leaves of the relations *)

Lemma answered_entry (kits : list Contribution) s r ref :
  described_all kits → ParseRequire s = Ok r → SatisfiedByOther (OwnedProvides kits) r ref = true →
  ∃ c p, c ∈ kits ∧ Contribution_Reference c ≠ ref ∧ p ∈ offers (cdescriptor c) ∧ PName p = RName r.
Proof.
  intros Hd Hr Hs. assert (satisfied (OwnedProvides kits) s ref = true) as Hsat by (unfold satisfied; by rewrite Hr).
  apply satisfied_spec in Hsat as (r' & c & p & Hr' & ? & ? & ? & ? & _); [|done].
  assert (r' = r) as -> by congruence. by exists c, p.
Qed.
Lemma canonical_name s s' r r' :
  ParseRequire s = Ok r → ParseRequire s' = Ok r' → CanonicalRequire r = CanonicalRequire r' → RName r = RName r'.
Proof. intros (Hn & Hc & _)%ParseRequire_Ok (Hn' & Hc' & _)%ParseRequire_Ok E. by apply CanonicalRequire_inj in E as [? _]. Qed.

(** A contribution offers nothing it integrates with itself. *)
Definition integrates_others (c : Contribution) : Prop :=
  ∀ s r p, s ∈ Integrates (cdescriptor c) → ParseRequire s = Ok r → p ∈ offers (cdescriptor c) → PName p ≠ RName r.

Definition integrates_othersb (c : Contribution) : bool :=
  forallb (λ s, match ParseRequire s with
                | Ok r => forallb (λ p, negb (bool_decide (PName p = RName r))) (offers (cdescriptor c))
                | Err _ => true
                end) (Integrates (cdescriptor c)).
Lemma integrates_othersb_spec cs : forallb integrates_othersb cs = true → Forall integrates_others cs.
Proof.
  rewrite forallb_Forall. intros Hall. eapply Forall_impl; [exact Hall|]. intros c. unfold integrates_othersb. rewrite forallb_Forall, Forall_forall.
  intros Hc s r p Hs Hr Hp E. specialize (Hc s Hs). rewrite Hr, forallb_Forall, Forall_forall in Hc.
  specialize (Hc p Hp). by rewrite bool_decide_eq_true_2 in Hc.
Qed.

Lemma requires_dropped (merged : Descriptor) (kits cs : list Contribution) :
  described_all kits → kits ⊆ cs →
  (∀ s r, s ∈ Requires merged → ParseRequire s = Ok r → ¬ offered cs (RName r)) →
  relations_dropped Requires merged kits.
Proof.
  intros Hd Hsub Hleft c s r s' r' Hc Hs Hr Hsat Hs' Hr' E.
  destruct (answered_entry _ _ _ _ Hd Hr Hsat) as (c2 & p & Hc2 & _ & Hp & Hn).
  apply (Hleft s' r'); [done..|]. exists c2, p. split; [by apply Hsub|]. split; [done|].
  by rewrite Hn, (canonical_name _ _ _ _ Hr Hr').
Qed.
Lemma integrates_dropped (merged : Descriptor) (kits cs : list Contribution) :
  described_all kits → kits ⊆ cs → NoDup (Contribution_Reference <$> cs) → Forall integrates_others cs →
  (∀ s, s ∈ Integrates merged → ∃ c, c ∈ cs ∧ s ∈ Integrates (cdescriptor c) ∧
     ∀ r, ParseRequire s = Ok r → unoffered cs (Contribution_Reference c) (RName r)) →
  relations_dropped Integrates merged kits.
Proof.
  intros Hd Hsub Hnd Hself Hleft c s r s' r' Hc Hs Hr Hsat Hs' Hr' E.
  destruct (answered_entry _ _ _ _ Hd Hr Hsat) as (c2 & p & Hc2 & _ & Hp & Hn).
  destruct (Hleft s' Hs') as (c' & Hc' & Hin & Hun). apply (canonical_name _ _ _ _ Hr Hr') in E || (symmetry in E; apply (canonical_name _ _ _ _ Hr Hr') in E).
  destruct (decide (Contribution_Reference c2 = Contribution_Reference c')) as [Er|Er].
  - assert (c2 = c') as -> by (eapply NoDup_fmap_elem; [exact Hnd|by apply Hsub|done..]).
    rewrite Forall_forall in Hself. apply (Hself c' Hc' s' r' p); [done..|congruence].
  - apply (Hun r' Hr' c2 p); [by apply Hsub|done..|congruence].
Qed.

(** Who answers an entry does not depend on the order of the kits. *)
Lemma relations_dropped_perm of_ merged (kits kits' : list Contribution) :
  kits ≡ₚ kits' → relations_dropped of_ merged kits ↔ relations_dropped of_ merged kits'.
Proof.
  assert (∀ l l' r ref, l ≡ₚ l' → SatisfiedByOther (OwnedProvides l) r ref = true → SatisfiedByOther (OwnedProvides l') r ref = true) as Hs.
  { intros l l' r ref Hp. unfold SatisfiedByOther. rewrite !existsb_Exists, !OwnedProvides_lookup.
    setoid_rewrite elem_of_filter_bool. intros (o & [Ho Hn] & H). exists o. split; [split; [|done]|done].
    unfold all_offers in *. rewrite elem_of_flat_map in *. destruct Ho as (c & Hc & Ho). exists c. by rewrite <-Hp. }
  intros Hp. unfold relations_dropped. split; intros H c s r s' r' Hc Hin Hr Hsat; (eapply H; [|exact Hin|exact Hr|]);
    [by rewrite Hp|by eapply Hs; [symmetry; exact Hp|]|by rewrite <-Hp|by eapply Hs].
Qed.

(** A merge names what its kits offer, at their versions, and reports their licenses. *)
Lemma kits_declared `{Gateway} (merged out : Descriptor) (cs : list Contribution) (kits : list resolvedKit) :
  declared_by cs out → Provides merged = Provides out → Licenses merged = Licenses out →
  map kit_contribution kits ⊆ cs → Forall versioned cs →
  Forall (λ k, Types.Version (kit_descriptor k) = EffectiveProvideVersion (reference k) (Some (kit_descriptor k))) kits →
  provides_carried merged (map kit_contribution kits) ∧
  ∀ c l, c ∈ map kit_contribution kits → l ∈ Licenses (cdescriptor c) → l ∈ Licenses merged.
Proof.
  intros (Hp & Hl & _) Ep El Hsub Hver Hv. split.
  2:{ intros c l Hc Hin. rewrite El. apply Hl. exists c. split; [by apply Hsub|done]. }
  intros c s p Hc Hs Hparse. rewrite Ep, Hp.
  destruct (merged_provides_carried (Types.Version merged) cs c s p) as (s' & Hs' & E); [done|by apply Hsub|done..|].
  exists s'. split; [done|]. rewrite E. do 2 f_equal; [by unfold materialized; destruct (_ && _)|]. f_equal. unfold materialized.
  apply list_elem_of_fmap in Hc as (k & -> & Hk). rewrite Forall_forall in Hv; rewrite Forall_forall in Hver. specialize (Hv k Hk).
  cbn [Contribution_Reference Contribution_Descriptor kit_contribution] in *. rewrite <-Hv.
  destruct (bool_decide_reflect (PVersion p = "")) as [Eb|Eb]; [|done]. cbn [andb].
  assert (kit_contribution k ∈ cs) as Hin by (apply Hsub; by apply list_elem_of_fmap_2).
  specialize (Hver _ Hin s p Hs Hparse Eb). rewrite bool_decide_eq_false_2; [done|]. by apply wfVersion_nonempty.
Qed.

(** ** Properties *)

(** C15: The suite's judgement of a set the frontend built, of kits with distinct references,
    comes down to the staged sources and one relation: where the registry serves at the digests the set records the
    descriptors the frontend read, and every provide without a version has a well-formed one from
    its contribution, every listed kit is rebuilt as
    it was merged, its re-exported arguments keep their contracts, and the merged
    descriptor keeps what the kits offer and are licensed under and no requirement they
    answer among themselves.  The suite is then clean exactly when the staged sources are and
    no integration one listed kit answers for another is kept; and none is, unless a
    contribution integrates with what it offers itself. *)
Theorem built_set_judged `{References, Decoders, Documents, ReadySort, Gateway}
    compile marshal_image d own plat stem b a resolve_kit own_stem :
  buildSet compile marshal_image d plat stem = Ok b → setOwnDescriptor d = Ok own →
  NoDup (set_reference :: (Kit_Ref <$> Kits d)) → Kits d ≠ [] →
  Forall versioned (set_contributions (build_kits b) own) →
  kitResolver a = Some resolve_kit → Forall (served plat resolve_kit) (build_kits b) →
  ∃ listed, read_all_listed compile resolve_kit (Kits (build_merged b)) = Ok listed ∧
    listed.*2 ≡ₚ map kit_contribution (build_kits b) ∧
    (clean (check_merged_declarations compile (mkState a (build_merged b) own_stem)) ↔
     clean (judgeStagedSources a listed.*1) ∧
     relations_dropped Integrates (build_merged b) (map kit_contribution (build_kits b))) ∧
    (Forall integrates_others (set_contributions (build_kits b) own) →
     relations_dropped Integrates (build_merged b) (map kit_contribution (build_kits b))).
Proof.
  intros Hb Ho Hnd Hne Hver Hres Hserved.
  destruct (buildSet_relations _ _ _ _ _ _ _ Hb Ho Hnd) as ((kits & contributions & m & Hk & Hperm & Hcs & Hm & Hmeta) & Hreq & Hint & _).
  set (cs := set_contributions (build_kits b) own) in *.
  destruct (resolve_kits_all _ _ _ _ _ Hk) as [Hrefs Hversions]. apply NoDup_cons in Hnd as [Hown Hnd].
  unfold carryOverSetMetadata in Hmeta. apply result_bind_Ok in Hmeta as (l & Hl & [= Em]).
  destruct (Merge_declared _ _ _ Hm) as (Hp & Hlic & Hnokits).
  assert (NoDup (reference <$> build_kits b)) as Hndb by by rewrite Hperm, Hrefs.
  destruct (listed_all compile plat (Args d) resolve_kit (kits_by_reference (build_kits b)) _ kits l Hk) as (listed & Hlist & Hsnd & Hall).
  { intros rk Hrk. apply kits_by_reference_lookup; [done|]. by rewrite Hperm. }
  { done. }
  { by rewrite <-Hperm. }
  assert (Kits (build_merged b) = l) as HKits by (rewrite <-Em; cbn; by rewrite Hnokits).
  exists listed. rewrite HKits. split; [done|]. split; [by rewrite Hsnd, Hperm|].
  assert (map kit_contribution kits ⊆ cs) as Hsub.
  { intros c Hc. unfold cs, set_contributions. rewrite elem_of_app, Hperm. by left. }
  assert (described_all (map kit_contribution kits)) as Hdesc by (apply Forall_fmap, Forall_true; by eexists).
  assert (NoDup (Contribution_Reference <$> cs)) as Hndc.
  { unfold cs, set_contributions. rewrite fmap_app, <-list_fmap_compose. apply NoDup_app. split; [done|].
    split; [|apply NoDup_singleton]. intros r Hr ->%list_elem_of_singleton. apply Hown. by rewrite <-Hrefs, <-Hperm. }
  assert (Forall integrates_others cs → relations_dropped Integrates (build_merged b) (map kit_contribution kits)) as Hdrop
    by (intros Hself; by apply (integrates_dropped _ _ cs)).
  assert (declarations_kept (build_merged b) listed.*2 ↔
    relations_dropped Integrates (build_merged b) (map kit_contribution kits)) as Hkept.
  { rewrite Hsnd. split; [by intros []|]. intros Hi.
    destruct (kits_declared (build_merged b) (Merged m) contributions kits) as [Hpc Hlc]; try done.
    - by rewrite <-Em.
    - by rewrite <-Em.
    - by rewrite Hcs.
    - by rewrite Hcs.
    - split; [done|done| |done]. apply (requires_dropped _ _ cs); [done..|]. intros s r Hs. by apply Hreq. }
  assert (reexports_kept (build_merged b) listed.*1) as Hre.
  { apply (listed_reexports (Args d)); rewrite ?HKits; [by rewrite <-Em| |done].
    by rewrite (kit_record_refs (kits_by_reference (build_kits b)) _ _ Hl). }
  rewrite (relations_dropped_perm Integrates (build_merged b) _ (map kit_contribution kits)) by by rewrite Hperm.
  split; [|exact Hdrop].
  unfold check_merged_declarations. cbn [sdescriptor artifact]. rewrite HKits, Hres.
  assert (l ≠ []) as Hl0 by (intros ->; apply Hne, (fmap_nil_inv Kit_Ref); by rewrite <-(kit_record_refs (kits_by_reference (build_kits b)) _ _ Hl)).
  destruct l as [|k l]; [done|]. rewrite Hlist, !clean_app, judge_reexports_clean, judge_merged_clean. tauto.
Qed.

(** The set of [toy_set], its kits served and staged as they were read. *)
Definition toy_registry (ref _ : string) : result string (gmap string string) := Ok {[ AnnotationDescriptor := ref ]}.
Definition toy_staged (stems : list string) : Artifact :=
  mkArtifact ∅ (Err "") (Ok None) (λ path, Ok (Some path)) (Ok stems) None None None None (Some toy_registry).

Lemma built_set_judged_witness :
  ∃ b own listed, toy_set_build = Ok b ∧ @setOwnDescriptor toy_gateway toy_set = Ok own ∧
    @read_all_listed toy_documents (λ _, None) toy_registry (Kits (build_merged b)) = Ok listed ∧
    (clean (@check_merged_declarations toy_documents (λ _, None) (mkState (toy_staged ["base"; "tools"]) (build_merged b) "team")) ↔
     clean (@judgeStagedSources toy_documents (toy_staged ["base"; "tools"]) listed.*1) ∧
     relations_dropped Integrates (build_merged b) (map kit_contribution (build_kits b))) ∧
    relations_dropped Integrates (build_merged b) (map kit_contribution (build_kits b)).
Proof.
  destruct toy_set_build as [b|] eqn:Eb; [|by vm_compute in Eb].
  destruct (@setOwnDescriptor toy_gateway toy_set) as [own|] eqn:Eo; [|by vm_compute in Eo].
  destruct (@built_set_judged _ _ _ _ _ _ _ _ _ _ _ _ (toy_staged ["base"; "tools"]) toy_registry "team" Eb Eo)
    as (listed & Hl & _ & Hc & Hi);
    [| | | | |exists b, own, listed; refine (conj eq_refl (conj eq_refl (conj Hl (conj Hc (Hi _)))))].
  - repeat (apply NoDup_cons; split; [by intros H; repeat (apply elem_of_cons in H as [H|H]; [done|]); inversion H|]).
    apply NoDup_nil_2.
  - done.
  - vm_compute in Eo. injection Eo as <-. vm_compute in Eb. injection Eb as <-.
    apply versionedb_spec. by vm_compute.
  - done.
  - vm_compute in Eb. injection Eb as <-. apply Forall_cons_2; [|apply Forall_cons_2; [|apply Forall_nil_2]];
      intros published Hp; vm_compute in Hp; injection Hp as <-; (eexists; split; [reflexivity|]);
      (split; [by vm_compute|]); (split; [vm_compute; reflexivity|vm_compute; reflexivity]).
  - vm_compute in Eo. injection Eo as <-. vm_compute in Eb. injection Eb as <-.
    apply integrates_othersb_spec. by vm_compute.
Defined.

(** Staged whole, the set passes; without the sources of one kit it does not. *)
Example toy_set_passes :
  (λ b, map (λ stems, existsb is_failure (@check_merged_declarations toy_documents (λ _, None)
          (mkState (toy_staged stems) (build_merged b) "team"))) [["base"; "tools"]; ["base"]]) <$> toy_set_build =
  Ok [false; true].
Proof. by vm_compute. Qed.

(** Where a kit integrates with what it offers itself, the merge keeps the entry for
    its sake while another kit's copy of it counts as answered: the suite refuses a
    set merged as the specification says. *)
Example own_integration_refused :
  let kit ref provides := mkContribution ref (Some (mkDescriptor false SchemaVersion "" "" "" "" "" "" [] KindMixin
    provides [] ["tool >= 1"] [] [] ∅ "" [] "" false)) in
  let kits := [kit "a" ["tool@2"]; kit "b" []] in
  (λ r, Findings (Add zero_report "merged-set-declarations" "" (judgeMergedDeclarations (Merged r) kits))) <$>
    Publish.Merge kits (mkMergeOptions "") =
  Ok [mkFinding "merged-set-declarations" "" Fail_ (RelationKept "integrates" "tool >= 1")].
Proof. by vm_compute. Qed.
