(* ===== verification/KitSource.v ===== *)
(** [tck/kit/source_oci.go] and [overlay_fs.go]: a published kit read from a registry or
    an image layout, as the conformance suite's [Artifact].

    A registry client or a layout store is the record [fetcher]; what it answers is a
    function of what it is asked, so the caches of an artifact hold what asking again
    would give.  A bound the code counts up to is a number counting down here: links
    left to follow, index levels left to descend.  The cancellation a walk polls for is
    left out. *)
From stdpp Require Import options.
From S2P Require Import Prelude GoStrings GoPath GoNet Overlay Oci LayerTar Registry KitSuite Recipe.

Definition maxIndexDepth : nat := 4.
Definition maxMetadataBytes : Z := Z.shiftl 8 20.
Definition maxLinkDepth : nat := 8.

Record fetcher := mkFetcher {
  Resolve : string → result string Blob;
  fetch_blob : Blob → result string stream;
}.

Inductive source_error :=
  | RefUnparsed (ref cause : string)
  | RefUntagged (ref : string)
  | Unreachable (cause : string)
  | Unresolved (tag cause : string)
  | MetadataDeclaredLarge (digest : string) (size : Z)
  | BlobUnfetched (digest cause : string)
  | MetadataUnread (digest : string)
  | MetadataLarge (digest : string)
  | ManifestUnparsed
  | IndexUnparsed
  | ConfigUnparsed
  | SourceManifestSchema (version : Z)
  | NotPlainManifest (mediaType : string)
  | SourceArtifactType (artifactType : string)
  | NotImageConfig (mediaType : string)
  | SourceIndexSchema (tag : string) (version : Z)
  | IndexesTooDeep (tag : string)
  | NothingRunnable (tag : string)
  | PlatformMissing (tag os architecture : string)
  | LinksTooDeep (name : string)
  | LayerUnread (cause : layer_error)
  | NoRegistry.

(** How registries are reached: [None] of an artifact's is a source without one. *)
Record ociArtifact := mkOciArtifact {
  art_fetcher : fetcher;
  reach : option bool;
  origin : string;
  manifest : Manifest;
  indexAnnotations : option (gmap string string);
  art_platform : option Platform;
}.

(** ** Metadata *)

Definition fetchAll (f : fetcher) (desc : Blob) : result source_error string :=
  if (maxMetadataBytes <? Size desc)%Z then Err (MetadataDeclaredLarge (Blob_Digest desc) (Size desc))
  else
    s ← map_err (BlobUnfetched (Blob_Digest desc)) (fetch_blob f desc);
    let read := limited (maxMetadataBytes + 1) s in
    if broken read then Err (MetadataUnread (Blob_Digest desc))
    else if (maxMetadataBytes <? LayerTar.size (delivered read))%Z then Err (MetadataLarge (Blob_Digest desc))
    else Ok (delivered read).

Definition isIndex (mediaType : string) : bool :=
  bool_decide (mediaType = MediaTypeImageIndex) ||
  bool_decide (mediaType = "application/vnd.docker.distribution.manifest.list.v2+json").

Definition requirePlainImageManifest (desc : Blob) (m : Manifest) : result source_error () :=
  let mediaType := if bool_decide (MediaType desc = "") then Manifest_MediaType m else MediaType desc in
  if negb (bool_decide (SchemaVersion_ m = 2%Z)) then Err (SourceManifestSchema (SchemaVersion_ m))
  else if negb (bool_decide (mediaType = MediaTypeImageManifest)) &&
          negb (bool_decide (mediaType = "application/vnd.docker.distribution.manifest.v2+json"))
  then Err (NotPlainManifest mediaType)
  else if negb (bool_decide (ArtifactType m = "")) then Err (SourceArtifactType (ArtifactType m))
  else if negb (bool_decide (MediaType (Config_ m) = MediaTypeImageConfig)) &&
          negb (bool_decide (MediaType (Config_ m) = "application/vnd.docker.container.image.v1+json"))
  then Err (NotImageConfig (MediaType (Config_ m)))
  else Ok ().

Definition os_unknown (m : Blob) : bool :=
  match Blob_Platform m with Some p => bool_decide (OS p = "unknown") | None => false end.

(** ** Paths in layers *)

(** The names a layer's whiteouts delete. *)
Definition opaque_name : string := ".wh..wh..opq".
Definition deletion (p : string) : option string :=
  let base := Base p in
  if has_prefix ".wh." base && negb (bool_decide (base = opaque_name)) then Some (Join (Dir p) (trim_prefix ".wh." base))
  else None.
Definition opaque_over (target p : string) : bool :=
  bool_decide (Base p = opaque_name) && (bool_decide (Dir p = ".") || has_prefix (Dir p +:+ "/") target).

(** A path and the directories above it; every step up is shorter. *)
Fixpoint ancestry (fuel : nat) (p : string) : list string :=
  match fuel with
  | O => []
  | S fuel => if bool_decide (p = ".") || bool_decide (p = "/") then [] else p :: ancestry fuel (Dir p)
  end.
Definition whitesOut (paths : list string) (name : string) : bool :=
  let target := trim_prefix "/" name in
  existsb (opaque_over target) paths ||
  existsb (λ a, bool_decide (a ∈ omap deletion paths)) (ancestry (S (String.length target)) target).

Inductive pathKind := kindAbsent | kindDir_ | kindFile_ | kindSymlink (target : string).

(** A hard link names its target from the archive root, a symlink against its directory. *)
Definition resolveLinkTarget (name link : string) (hard : bool) : string :=
  if hard then Clean ("/" +:+ trim_prefix "/" link)
  else if negb (has_prefix "/" link) then Join (Dir ("/" +:+ trim_prefix "/" name)) link
  else Clean link.

(** The directories above a path, each with what follows it. *)
Definition ancestors_of (target : string) : list (string * string) :=
  let segments := split slash target in
  map (λ i, (join "/" (take i segments), join "/" (drop i segments))) (seq 1 (length segments - 1)).

(** The first ancestor that is not a directory of the filesystem: what it is. *)
Inductive blocked := Open | Behind (ancestor rest link : string) | Hidden.

Section Source.
Context `{References, Decoders} (gunzip unzstd : stream → option stream) (tar_reader : stream → archive).
Context (Normalize : Platform → Platform) (goarch : string).

(** ** Layers *)

Section Artifact.
Context (a : ociArtifact).
Let f := art_fetcher a.
Let layers := Layers (manifest a).

Definition fetch_layer (layer : Blob) : result source_error stream :=
  map_err (BlobUnfetched (Blob_Digest layer)) (fetch_blob f layer).
Definition layerEntries (layer : Blob) : result source_error (list string * list string * gmap string LayerLink) :=
  s ← fetch_layer layer; map_err LayerUnread (ReadLayerEntries gunzip unzstd tar_reader s).

(** The layer that has a path, and its place; what the next layer leaves of it. *)
Definition winner_step (name : string) (i : nat) (layer : Blob) (winner : option (nat * Blob)) (paths dirs : list string) :
    option (nat * Blob) :=
  let target := trim_prefix "/" name in
  let winner := if whitesOut paths name then None else winner in
  let winner := if bool_decide (target ∈ dirs) then None else winner in
  if bool_decide (target ∈ paths) then Some (i, layer) else winner.
Fixpoint winner_loop (name : string) (i : nat) (winner : option (nat * Blob)) (ls : list Blob) :
    result source_error (option (nat * Blob)) :=
  match ls with
  | [] => Ok winner
  | layer :: ls =>
      '(paths, dirs, _) ← layerEntries layer;
      winner_loop name (S i) (winner_step name i layer winner paths dirs) ls
  end.
(** [upto] layers are looked at. *)
Definition winningLayer (name : string) (upto : nat) : result source_error (option (nat * Blob)) :=
  winner_loop name 0 None (take upto layers).

Definition kind_step (name : string) (kind : pathKind) (paths dirs : list string) (links : gmap string LayerLink) : pathKind :=
  let target := trim_prefix "/" name in
  let kind := if whitesOut paths name then kindAbsent else kind in
  let kind := if bool_decide (target ∈ dirs) then kindDir_ else kind in
  let kind := if bool_decide (target ∈ paths) then kindFile_ else kind in
  match links !! target with
  | Some l => if Link_Hard l then kind else kindSymlink (Target l)
  | None => kind
  end.
Fixpoint kind_loop (name : string) (kind : pathKind) (ls : list Blob) : result source_error pathKind :=
  match ls with
  | [] => Ok kind
  | layer :: ls =>
      '(paths, dirs, links) ← layerEntries layer;
      kind_loop name (kind_step name kind paths dirs links) ls
  end.
Definition composedKind (name : string) (upto : nat) : result source_error pathKind :=
  kind_loop name kindAbsent (take upto layers).

Fixpoint first_blocked (upto : nat) (l : list (string * string)) : result source_error blocked :=
  match l with
  | [] => Ok Open
  | (ancestor, rest) :: l =>
      kind ← composedKind ancestor upto;
      match kind with
      | kindSymlink link => Ok (if bool_decide (link = "") then Hidden else Behind ancestor rest link)
      | kindFile_ => Ok Hidden
      | _ => first_blocked upto l
      end
  end.
(** [None] is a path that is hidden. *)
Fixpoint resolveAncestors (links : nat) (name : string) (upto : nat) : result source_error (option string) :=
  match links with
  | O => Err (LinksTooDeep name)
  | S links =>
      let target := trim_prefix "/" name in
      block ← first_blocked upto (ancestors_of target);
      match block with
      | Open => Ok (Some ("/" +:+ target))
      | Hidden => Ok None
      | Behind ancestor rest link =>
          resolveAncestors links (Join (resolveLinkTarget ("/" +:+ ancestor) link false) rest) upto
      end
  end.

(** Where a path is: the layer that has it and its place, the name it has there and the
    name links are resolved against. *)
Record location := mkLocation { at_layer : nat; in_layer : Blob; found_name : string; link_base : string }.
Definition locate (links : nat) (name alias : string) (find : nat) : result source_error (option location) :=
  resolved ← resolveAncestors links name find;
  match resolved with
  | None => Ok None
  | Some name =>
      winner ← winningLayer name find;
      Ok match winner with
         | Some (i, layer) => Some (mkLocation i layer name (if bool_decide (alias = "") then name else alias))
         | None => None
         end
  end.

(** ** Reading through links

    A link found in a layer is followed across the layers up to [upto]; a hard link
    to what its own layer held before it, or else to what was below. *)

Definition link_target (link : string) : string := "/" +:+ trim_prefix "/" link.

Fixpoint readFileFrom (links : nat) (name alias : string) (find upto : nat) : result source_error (option string) :=
  match links with
  | O => Err (LinksTooDeep name)
  | S deeper =>
      place ← locate links name alias find;
      match place with
      | None => Ok None
      | Some l =>
          s ← fetch_layer (in_layer l);
          entry ← map_err LayerUnread (ReadFileEntry gunzip unzstd tar_reader s (found_name l));
          if Linked entry then
            if bool_decide (Link entry = "") then Ok None
            else if Hard entry
            then resolveHardLink deeper (at_layer l) (in_layer l) upto (link_base l) (link_target (Link entry)) (Index entry)
            else readFileFrom deeper (resolveLinkTarget (link_base l) (Link entry) false) "" upto upto
          else Ok (if OK entry then Some (Body entry) else None)
      end
  end
with resolveHardLink (links winner : nat) (layer : Blob) (upto : nat) (alias target : string) (before : nat) :
    result source_error (option string) :=
  match links with
  | O => Err (LinksTooDeep target)
  | S deeper =>
      s ← fetch_layer layer;
      prior ← map_err LayerUnread (ReadFileEntryBefore gunzip unzstd tar_reader s target (Z.of_nat before));
      if negb (OK prior) then readFileFrom deeper target alias winner upto
      else if negb (Linked prior) then Ok (Some (Body prior))
      else if bool_decide (Link prior = "") then Ok None
      else if Hard prior then resolveHardLink deeper winner layer upto alias (link_target (Link prior)) (Index prior)
      else readFileFrom deeper (resolveLinkTarget alias (Link prior) false) "" upto upto
  end.

Fixpoint hasFileFrom (links : nat) (name alias : string) (find upto : nat) : result source_error bool :=
  match links with
  | O => Err (LinksTooDeep name)
  | S deeper =>
      place ← locate links name alias find;
      match place with
      | None => Ok false
      | Some l =>
          s ← fetch_layer (in_layer l);
          entry ← map_err LayerUnread (StatFileEntry gunzip unzstd tar_reader s (found_name l));
          if Linked entry then
            if bool_decide (Link entry = "") then Ok false
            else if Hard entry
            then hasHardLink deeper (at_layer l) (in_layer l) upto (link_base l) (link_target (Link entry)) (Index entry)
            else hasFileFrom deeper (resolveLinkTarget (link_base l) (Link entry) false) "" upto upto
          else Ok (OK entry)
      end
  end
with hasHardLink (links winner : nat) (layer : Blob) (upto : nat) (alias target : string) (before : nat) :
    result source_error bool :=
  match links with
  | O => Err (LinksTooDeep target)
  | S deeper =>
      s ← fetch_layer layer;
      prior ← map_err LayerUnread (StatFileEntryBefore gunzip unzstd tar_reader s target (Z.of_nat before));
      if negb (OK prior) then hasFileFrom deeper target alias winner upto
      else if negb (Linked prior) then Ok true
      else if bool_decide (Link prior = "") then Ok false
      else if Hard prior then hasHardLink deeper winner layer upto alias (link_target (Link prior)) (Index prior)
      else hasFileFrom deeper (resolveLinkTarget alias (Link prior) false) "" upto upto
  end.

Definition entry_stat (e : FileEntry) : FileStat := mkFileStat (Entry_Mode e) (Entry_Uid e) (Entry_Gid e) (LayerTar.Regular e).
Fixpoint fileStatFrom (links : nat) (name alias : string) (find upto : nat) : result source_error (option FileStat) :=
  match links with
  | O => Err (LinksTooDeep name)
  | S deeper =>
      place ← locate links name alias find;
      match place with
      | None => Ok None
      | Some l =>
          s ← fetch_layer (in_layer l);
          entry ← map_err LayerUnread (StatFileEntry gunzip unzstd tar_reader s (found_name l));
          if Linked entry then
            if bool_decide (Link entry = "") then Ok None
            else if Hard entry
            then hardLinkStat deeper (at_layer l) (in_layer l) upto (link_base l) (link_target (Link entry)) (Index entry)
            else fileStatFrom deeper (resolveLinkTarget (link_base l) (Link entry) false) "" upto upto
          else Ok (if OK entry then Some (entry_stat entry) else None)
      end
  end
with hardLinkStat (links winner : nat) (layer : Blob) (upto : nat) (alias target : string) (before : nat) :
    result source_error (option FileStat) :=
  match links with
  | O => Err (LinksTooDeep target)
  | S deeper =>
      s ← fetch_layer layer;
      prior ← map_err LayerUnread (StatFileEntryBefore gunzip unzstd tar_reader s target (Z.of_nat before));
      if negb (OK prior) then fileStatFrom deeper target alias winner upto
      else if negb (Linked prior) then Ok (Some (entry_stat prior))
      else if bool_decide (Link prior = "") then Ok None
      else if Hard prior then hardLinkStat deeper winner layer upto alias (link_target (Link prior)) (Index prior)
      else fileStatFrom deeper (resolveLinkTarget alias (Link prior) false) "" upto upto
  end.

Definition source_ReadFile (name : string) : result source_error (option string) :=
  readFileFrom (S maxLinkDepth) name "" (length layers) (length layers).
Definition source_HasFile (name : string) : result source_error bool :=
  hasFileFrom (S maxLinkDepth) name "" (length layers) (length layers).
Definition source_FileStat (name : string) : result source_error (option FileStat) :=
  fileStatFrom (S maxLinkDepth) name "" (length layers) (length layers).

(** ** The other answers *)

Definition source_Config : result source_error OciImage :=
  body ← fetchAll f (Config_ (manifest a));
  match parse_image body with Some img => Ok img | None => Err ConfigUnparsed end.

(** The stem a path of a layer stages a descriptor under, or may behind a link. *)
Definition candidate_stem (prefix : string) (links : gmap string LayerLink) (p : string) : list string :=
  if negb (has_prefix prefix p) then []
  else
    let rest := trim_prefix prefix p in
    let '(dir, file) := Split rest in
    (if bool_decide (file = KitSuite.stagedDescriptorName) && negb (bool_decide (dir = "")) &&
        negb (contains_byte slash (trim_suffix "/" dir)) then [trim_suffix "/" dir] else []) ++
    match links !! p with
    | Some l => if negb (Link_Hard l) && negb (bool_decide (rest = "")) && negb (contains_byte slash rest) then [rest] else []
    | None => []
    end.
Fixpoint candidate_stems (prefix : string) (ls : list Blob) : result source_error (gset string) :=
  match ls with
  | [] => Ok ∅
  | layer :: ls =>
      '(paths, _, links) ← layerEntries layer;
      rest ← candidate_stems prefix ls;
      Ok (list_to_set (flat_map (candidate_stem prefix links) paths) ∪ rest)
  end.

Definition canonical_root : string := trim_prefix "/" StagedKitRoot +:+ "/".
Definition descriptor_path (stem : string) : string := canonical_root +:+ stem +:+ "/" +:+ KitSuite.stagedDescriptorName.
Fixpoint alive (candidates : list string) : result source_error (list string) :=
  match candidates with
  | [] => Ok []
  | c :: candidates =>
      present ← source_HasFile ("/" +:+ c);
      rest ← alive candidates;
      Ok (if present : bool then c :: rest else rest)
  end.

(** The kit roots of descriptor paths, each once. *)
Definition stem_of (p : string) : option string :=
  if negb (has_prefix canonical_root p) then None
  else
    let '(dir, file) := Split (trim_prefix canonical_root p) in
    let stem := trim_suffix "/" dir in
    if bool_decide (stem = "") || contains_byte slash stem || negb (bool_decide (file = KitSuite.stagedDescriptorName))
    then None else Some stem.
Definition stemsFromPaths (paths : list string) : list string :=
  foldl (λ stems p, match stem_of p with
                    | Some stem => if bool_decide (stem ∈ stems) then stems else stems ++ [stem]
                    | None => stems
                    end) [] paths.

(** Where the staged root really is; [None] behind a link that leads nowhere. *)
Definition effective_root : result source_error (option string) :=
  let last := length layers in
  resolved ← resolveAncestors (S maxLinkDepth) (StagedKitRoot +:+ "/" +:+ KitSuite.stagedDescriptorName) last;
  let root := match resolved with Some p => Dir p | None => StagedKitRoot end in
  kind ← composedKind root last;
  Ok match kind with
     | kindSymlink link => if bool_decide (link = "") then None else Some (resolveLinkTarget root link false)
     | _ => Some root
     end.
Definition source_StagedStems : result source_error (list string) :=
  root ← effective_root;
  match root with
  | None => Ok (stemsFromPaths [])
  | Some root =>
      stems ← candidate_stems (trim_prefix "/" root +:+ "/") layers;
      inventory ← alive (sort_strings (map descriptor_path (elements stems)));
      Ok (stemsFromPaths inventory)
  end.

Definition source_Platform : string :=
  match art_platform a with
  | None => ""
  | Some p =>
      OS p +:+ "/" +:+ Architecture p +:+ (if bool_decide (Variant p = "") then "" else "/" +:+ Variant p)
  end.

Definition judgedPlatform : option Platform :=
  match art_platform a with
  | Some p => Some p
  | None =>
      match source_Config with
      | Ok img =>
          let p := Image_Platform img in
          if bool_decide (OS p = "") || bool_decide (Architecture p = "") then None
          else Some (mkPlatform (Architecture p) (OS p) "" [] (Variant p))
      | Err _ => None
      end
  end.

(** *** The layers as an extractor stacks them *)

(** A layer up to the entry that could not be applied. *)
Definition extract_entry (st : Layer * bool) (h : Header) : result source_error (Layer * bool) :=
  let '(upper, failed) := st in
  if failed then Ok st else let '(upper, ok) := Overlay.Add upper h in Ok (upper, negb ok).
Fixpoint overlay_loop (o : FS) (ls : list Blob) : result source_error FS :=
  match ls with
  | [] => Ok o
  | layer :: ls =>
      s ← fetch_layer layer;
      '(upper, _) ← WalkLayer gunzip unzstd tar_reader LayerUnread extract_entry s (NewLayer o, false);
      overlay_loop (Apply o upper) ls
  end.
Definition overlayModel : result source_error FS := overlay_loop New layers.

Definition source_DirStat (name : string) : result source_error (option FileStat) :=
  o ← overlayModel;
  Ok (option_map (λ i, mkFileStat (Info_Mode i) (Info_Uid i) (Info_Gid i) false) (DirStat o name)).
Definition source_DanglingSymlinks : result source_error (list SymlinkAt) := o ← overlayModel; Ok (DanglingSymlinks o).
End Artifact.

(** ** Resolution *)

Definition read_manifest (f : fetcher) (desc : Blob) (body : string) : result source_error Manifest :=
  match parse_manifest body with
  | Some m => _ ← requirePlainImageManifest desc m; Ok m
  | None => Err ManifestUnparsed
  end.
Definition read_index (tag body : string) : result source_error ImageIndex :=
  match parse_index body with
  | Some index =>
      if negb (bool_decide (Index_SchemaVersion index = 2%Z)) then Err (SourceIndexSchema tag (Index_SchemaVersion index))
      else Ok index
  | None => Err IndexUnparsed
  end.

(** Every platform manifest below a descriptor, with the outermost index's annotations:
    [outer] is [None] at the reference itself. *)
Fixpoint resolveFrom (levels : nat) (f : fetcher) (desc : Blob) (tag : string) (outer : option (gmap string string))
    (reach : option bool) (origin : string) : result source_error (list ociArtifact) :=
  match levels with
  | O => Err (IndexesTooDeep tag)
  | S levels =>
      body ← fetchAll f desc;
      if negb (isIndex (MediaType desc)) then
        m ← read_manifest f desc body; Ok [mkOciArtifact f reach origin m None None]
      else
        index ← read_index tag body;
        let outer := default (Index_Annotations index) outer in
        out ← (fix children (l : list Blob) : result source_error (list ociArtifact) :=
                 match l with
                 | [] => Ok []
                 | child :: l =>
                     if os_unknown child then children l
                     else
                       found ← (if isIndex (MediaType child) then resolveFrom levels f child tag (Some outer) reach origin
                                else
                                  body ← fetchAll f child;
                                  m ← read_manifest f child body;
                                  Ok [mkOciArtifact f reach origin m (Some outer) (Blob_Platform child)]);
                       rest ← children l;
                       Ok (found ++ rest)
                 end) (Manifests index);
        if bool_decide (length out = 0) then Err (NothingRunnable tag) else Ok out
  end.
Definition resolveAll (f : fetcher) (tag : string) (reach : option bool) (origin : string) :
    result source_error (list ociArtifact) :=
  desc ← map_err (Unresolved tag) (Resolve f tag);
  resolveFrom (S maxIndexDepth) f desc tag None reach origin.

Definition samePlatform (p q : Platform) : bool :=
  let p := Normalize p in
  let q := Normalize q in
  bool_decide (OS p = OS q) && bool_decide (Architecture p = Architecture q) && bool_decide (Variant p = Variant q).

Definition states_platform (want : Platform) (m : Blob) : bool :=
  match Blob_Platform m with Some p => samePlatform p want | None => false end.
Definition branch (m : Blob) : bool := (bool_decide (Blob_Platform m = None) || os_unknown m) && isIndex (MediaType m).
Fixpoint findPlatformManifest (levels : nat) (f : fetcher) (index : ImageIndex) (want : Platform) :
    result source_error (option Blob) :=
  match levels with
  | O => Err (IndexesTooDeep "")
  | S levels =>
      match List.find (states_platform want) (Manifests index) with
      | Some m => Ok (Some m)
      | None =>
          (fix search (l : list Blob) : result source_error (option Blob) :=
             match l with
             | [] => Ok None
             | child :: l =>
                 body ← fetchAll f child;
                 match parse_index body with
                 | None => Err IndexUnparsed
                 | Some inner =>
                     found ← findPlatformManifest levels f inner want;
                     if bool_decide (is_Some found) then Ok (Some child) else search l
                 end
             end) (List.filter branch (Manifests index))
      end
  end.

Definition host_platform (m : Blob) : bool :=
  match Blob_Platform m with
  | Some p => negb (os_unknown m) && bool_decide (OS p = "linux") && bool_decide (Architecture p = goarch)
  | None => false
  end.
Definition selectPlatformManifest (index : ImageIndex) : option Blob :=
  match List.find host_platform (Manifests index) with
  | Some m => Some m
  | None => List.find (λ m, negb (os_unknown m)) (Manifests index)
  end.

(** The manifest an index leads to: the wanted platform's, or this host's. *)
Definition next_manifest (levels : nat) (f : fetcher) (tag : string) (index : ImageIndex) (want : option Platform) :
    result source_error Blob :=
  match want with
  | Some p =>
      child ← findPlatformManifest levels f index p;
      match child with Some c => Ok c | None => Err (PlatformMissing tag (OS p) (Architecture p)) end
  | None => match selectPlatformManifest index with Some c => Ok c | None => Err (NothingRunnable tag) end
  end.
Fixpoint descend_to (levels : nat) (f : fetcher) (tag : string) (reach : option bool) (origin : string) (want : option Platform)
    (desc : Blob) (outer : option (gmap string string)) (p : option Platform) : result source_error ociArtifact :=
  body ← fetchAll f desc;
  if negb (isIndex (MediaType desc)) then m ← read_manifest f desc body; Ok (mkOciArtifact f reach origin m outer p)
  else
    match levels with
    | O => Err (IndexesTooDeep tag)
    | S below =>
        index ← read_index tag body;
        child ← next_manifest levels f tag index want;
        descend_to below f tag reach origin want child (Some (default (Index_Annotations index) outer)) (Blob_Platform child)
    end.
Definition resolveArtifactFor (f : fetcher) (tag : string) (reach : option bool) (origin : string) (want : option Platform) :
    result source_error ociArtifact :=
  desc ← map_err (Unresolved tag) (Resolve f tag);
  descend_to (S maxIndexDepth) f tag reach origin want desc None None.
Definition resolveArtifact (f : fetcher) (tag : string) (reach : option bool) (origin : string) : result source_error ociArtifact :=
  resolveArtifactFor f tag reach origin None.

(** ** Registries *)

Definition splitRef (ref : string) : result source_error (string * string) :=
  named ← map_err (RefUnparsed ref) (ParseNormalizedNamed ref);
  let named := TagNameOnly named in
  let repo := named_string (TrimNamed named) in
  match Canonical named, Tagged named with
  | Some digest, _ => Ok (repo, digest)
  | None, Some tag => Ok (repo, tag)
  | None, None => Err (RefUntagged ref)
  end.

Definition isLoopbackRegistry (host : string) : bool :=
  let name := default host (SplitHostPort host) in
  if bool_decide (name = "localhost") then true
  else
    match ParseIP (trim_suffix "]" (trim_prefix "[" name)) with
    | Some ip => IsLoopback ip
    | None => false
    end.

(** The registry client: a repository's registry, the credential store, a client of a
    repository with or without TLS, and an image layout's store; [reference.Domain]. *)
Context (new_repository : string → result string string) (credential_store : result string ())
  (client : string → bool → fetcher) (open_layout : string → result string fetcher) (Domain : Named → string).

Definition remoteRepository (repo : string) (plainHTTP : bool) : result source_error (fetcher * string) :=
  registry ← map_err Unreachable (new_repository repo);
  _ ← map_err Unreachable credential_store;
  Ok (client repo (plainHTTP || isLoopbackRegistry registry), registry).

Definition FromRegistry (ref : string) (plainHTTP : bool) : result source_error ociArtifact :=
  '(repo, tag) ← splitRef ref;
  '(f, registry) ← remoteRepository repo plainHTTP;
  resolveArtifact f tag (Some plainHTTP) registry.
Definition FromRegistryAll (ref : string) (plainHTTP : bool) : result source_error (list ociArtifact) :=
  '(repo, tag) ← splitRef ref;
  '(f, registry) ← remoteRepository repo plainHTTP;
  resolveAll f tag (Some plainHTTP) registry.
Definition FromLayout (dir tag : string) : result source_error ociArtifact :=
  f ← map_err Unreachable (open_layout dir); resolveArtifact f tag None "".
Definition FromLayoutAll (dir tag : string) : result source_error (list ociArtifact) :=
  f ← map_err Unreachable (open_layout dir); resolveAll f tag None "".

Definition sameRegistry (listed : Named) (origin : string) : bool :=
  negb (bool_decide (origin = "")) && bool_decide (Domain listed = origin).
Definition ResolveKit (a : ociArtifact) (ref digest : string) : result source_error ociArtifact :=
  match reach a with
  | None => Err NoRegistry
  | Some plainHTTP =>
      named ← map_err (RefUnparsed ref) (ParseNormalizedNamed ref);
      let reach := plainHTTP && sameRegistry named (origin a) in
      '(f, _) ← remoteRepository (named_string (TrimNamed named)) reach;
      resolveArtifactFor f digest (Some reach) (Domain named) (judgedPlatform a)
  end.

(** ** The suite's view *)

Definition suite_error (e : source_error) : KitSuite.read_error :=
  match e with LayerUnread (FileTooLarge _) => KitSuite.TooLarge | _ => KitSuite.ReadFailed "" end.
Definition suite_artifact (a : ociArtifact) : Artifact :=
  mkArtifact (Annotations_ (manifest a)) (map_err (λ _, "") (source_Config a)) (Ok (Some (Layers (manifest a))))
    (λ name, map_err suite_error (source_ReadFile a name)) (map_err (λ _, "") (source_StagedStems a)) (indexAnnotations a)
    (Some (λ name, map_err suite_error (source_HasFile a name))) (Some (λ name, map_err suite_error (source_FileStat a name)))
    (Some (mkWalker (λ name, map_err suite_error (source_DirStat a name)) (map_err suite_error (source_DanglingSymlinks a))))
    (Some (λ ref digest, map_err (λ _, "") (k ← ResolveKit a ref digest; Ok (Annotations_ (manifest k))))).
End Source.
