(* ===== verification/KitSourceFacts.v ===== *)
(** Reading a published kit: its three ways of looking at a path agree, the stems it
    reports are staged, and no request leaves without TLS that the caller did not
    ask for. *)
From stdpp Require Import options.
From S2P Require Import Prelude GoStrings GoPath GoNet Overlay Oci LayerTar Registry KitSuite KitSource.

(** ** An entry read without its body *)

Definition without_body (e : FileEntry) : FileEntry :=
  mkFileEntry "" (Linked e) (Link e) (Hard e) (Index e) (Entry_Mode e) (Entry_Uid e) (Entry_Gid e) (LayerTar.Regular e) (OK e).

Lemma match_entry_bodiless path idx t e :
  match_entry path true idx t = Ok e → match_entry path false idx t = Ok (without_body e).
Proof.
  unfold match_entry. cbn [negb]. destruct (bool_decide (Typeflag (hdr t) = TypeDir)); [by intros [= <-]|].
  destruct (is_link _); [by intros [= <-]|]. destruct (broken _); [done|]. destruct (_ <? _)%Z; [done|]. by intros [= <-].
Qed.
Lemma read_loop_bodiless path before tear es : ∀ entry idx e,
  read_loop path true before tear entry idx es = Ok e →
  read_loop path false before tear (without_body entry) idx es = Ok (without_body e).
Proof.
  induction es as [|t es IH]; intros entry idx e; cbn [read_loop]; [destruct (tear && _); [done|]; by intros [= <-]|].
  destruct (_ && _); [by intros [= <-]|]. destruct (negb _); [apply IH|].
  intros (entry' & Hm%match_entry_bodiless & Hr)%result_bind_Ok. rewrite Hm. by apply IH.
Qed.
Lemma readEntry_bodiless a path before e :
  readEntry a path true before = Ok e → readEntry a path false before = Ok (without_body e).
Proof. apply (read_loop_bodiless path before (torn a) (entries a) zero_entry 0 e). Qed.

Section Source.
Context `{References, Decoders} (gunzip unzstd : stream → option stream) (tar_reader : stream → archive).
Context (Normalize : Platform → Platform) (goarch : string).

Lemma ReadFileEntry_bodiless s path e :
  ReadFileEntry gunzip unzstd tar_reader s path = Ok e → StatFileEntry gunzip unzstd tar_reader s path = Ok (without_body e).
Proof. intros (a & Ha & Hr%readEntry_bodiless)%result_bind_Ok. unfold StatFileEntry. by rewrite Ha. Qed.
Lemma ReadFileEntryBefore_bodiless s path before e :
  ReadFileEntryBefore gunzip unzstd tar_reader s path before = Ok e →
  StatFileEntryBefore gunzip unzstd tar_reader s path before = Ok (without_body e).
Proof. intros (a & Ha & Hr%readEntry_bodiless)%result_bind_Ok. unfold StatFileEntryBefore. by rewrite Ha. Qed.

(** ** The three lookups *)

Notation has := (hasFileFrom gunzip unzstd tar_reader).
Notation has_hard := (hasHardLink gunzip unzstd tar_reader).
Notation stat := (fileStatFrom gunzip unzstd tar_reader).
Notation stat_hard := (hardLinkStat gunzip unzstd tar_reader).
Notation reads := (readFileFrom gunzip unzstd tar_reader).
Notation reads_hard := (resolveHardLink gunzip unzstd tar_reader).
Definition there {A} (o : option A) : bool := bool_decide (is_Some o).

Lemma has_is_stat a links :
  (∀ name alias find upto, has a links name alias find upto = there <$> stat a links name alias find upto) ∧
  (∀ winner layer upto alias target before,
     has_hard a links winner layer upto alias target before = there <$> stat_hard a links winner layer upto alias target before).
Proof.
  induction links as [|links [IHf IHh]]; [done|]. split; intros.
  - cbn [hasFileFrom fileStatFrom]. destruct (locate _ _ _ _ _ _ _ _) as [[l|]|]; [|done..]. cbn [mbind result_bind].
    destruct (fetch_layer _ _) as [s|]; [|done]. cbn [mbind result_bind].
    destruct (map_err LayerUnread _) as [entry|]; [|done]. cbn [mbind result_bind].
    destruct (Linked entry); [|by destruct (OK entry)]. destruct (bool_decide (Link entry = "")); [done|].
    by destruct (Hard entry).
  - cbn [hasHardLink hardLinkStat]. destruct (fetch_layer _ _) as [s|]; [|done]. cbn [mbind result_bind].
    destruct (map_err LayerUnread _) as [prior|]; [|done]. cbn [mbind result_bind].
    destruct (OK prior); cbn [negb]; [|done]. destruct (Linked prior); cbn [negb]; [|done].
    destruct (bool_decide (Link prior = "")); [done|]. by destruct (Hard prior).
Qed.

Lemma read_is_has a links :
  (∀ name alias find upto o, reads a links name alias find upto = Ok o → has a links name alias find upto = Ok (there o)) ∧
  (∀ winner layer upto alias target before o,
     reads_hard a links winner layer upto alias target before = Ok o →
     has_hard a links winner layer upto alias target before = Ok (there o)).
Proof.
  induction links as [|links [IHf IHh]]; [done|]. split; intros *.
  - cbn [hasFileFrom readFileFrom]. destruct (locate _ _ _ _ _ _ _ _) as [[l|]|]; [|by intros [= <-]|done]. cbn [mbind result_bind].
    destruct (fetch_layer _ _) as [s|]; [|done]. cbn [mbind result_bind].
    intros (entry & He%map_err_Ok%ReadFileEntry_bodiless & Hr)%result_bind_Ok. rewrite He. cbn [map_err mbind result_bind].
    destruct entry as [body linked link hard idx mode uid gid reg ok]. cbn in *.
    destruct linked; [|injection Hr as <-; by destruct ok]. destruct (bool_decide (link = "")); [by injection Hr as <-|].
    destruct hard; auto.
  - cbn [hasHardLink resolveHardLink]. destruct (fetch_layer _ _) as [s|]; [|done]. cbn [mbind result_bind].
    intros (prior & He%map_err_Ok%ReadFileEntryBefore_bodiless & Hr)%result_bind_Ok. rewrite He. cbn [map_err mbind result_bind].
    destruct prior as [body linked link hard idx mode uid gid reg ok]. cbn in *.
    destruct ok; cbn [negb] in *; [|auto]. destruct linked; cbn [negb] in *; [|by injection Hr as <-].
    destruct (bool_decide (link = "")); [by injection Hr as <-|]. destruct hard; auto.
Qed.

(** C39: The three ways the suite looks at a path agree: a file is present exactly where its metadata is, errors
    included, and wherever reading the content answers, presence answers the same. *)
Theorem lookups_agree a name :
  source_HasFile gunzip unzstd tar_reader a name = there <$> source_FileStat gunzip unzstd tar_reader a name ∧
  (∀ o, source_ReadFile gunzip unzstd tar_reader a name = Ok o →
        source_HasFile gunzip unzstd tar_reader a name = Ok (there o)).
Proof. split; [apply has_is_stat|apply read_is_has]. Qed.

(** ** Staged stems *)

Lemma alive_present a candidates : ∀ l,
  alive gunzip unzstd tar_reader a candidates = Ok l →
  ∀ c, c ∈ l → source_HasFile gunzip unzstd tar_reader a ("/" +:+ c) = Ok true.
Proof.
  induction candidates as [|c candidates IH]; intros l; cbn [alive]; [by intros [= <-] c ?%not_elem_of_nil|].
  intros (present & Hp & (rest & Hrest & [= <-])%result_bind_Ok)%result_bind_Ok x Hx.
  destruct present; [apply elem_of_cons in Hx as [->|Hx]; [done|]|]; by eapply IH.
Qed.
End Source.

Lemma last_index_take c s : ∀ i, last_index c s = Some i → str_take (S i) s = str_take i s +:+ String c "".
Proof.
  induction s as [|d s IH]; intros i; cbn [last_index]; [done|]. destruct (last_index c s) as [j|].
  - intros [= <-]. cbn [str_take]. rewrite str_app_cons. f_equal. by apply IH.
  - destruct (decide (d = c)) as [->|]; [|done]. by intros [= <-].
Qed.
Lemma Split_parts p dir file : Split p = (dir, file) → p = dir +:+ file ∧ (dir = "" ∨ ∃ d, dir = d +:+ "/").
Proof.
  unfold Split. destruct (last_index slash p) as [i|] eqn:E; intros [= <- <-]; [|by auto].
  split; [symmetry; exact (str_take_drop (S i) p)|]. right. exists (str_take i p). exact (last_index_take slash p i E).
Qed.
(** A path counted under a stem is that stem's descriptor. *)
Lemma stem_of_path p stem :
  stem_of p = Some stem → p = descriptor_path stem ∧ stem ≠ "" ∧ contains_byte slash stem = false.
Proof.
  unfold stem_of. destruct (has_prefix canonical_root p) eqn:Ep; [|done]. cbn [negb].
  apply has_prefix_inv in Ep. set (rest := str_drop _ p) in Ep.
  assert (trim_prefix canonical_root p = rest) as -> by (by rewrite Ep, trim_prefix_app).
  destruct (Split rest) as [dir file] eqn:Es. apply Split_parts in Es as [Er Hdir].
  destruct (bool_decide_reflect (trim_suffix "/" dir = "")) as [|Hne]; [done|].
  destruct (contains_byte slash (trim_suffix "/" dir)) eqn:Ec; [done|].
  destruct (bool_decide_reflect (file = KitSuite.stagedDescriptorName)) as [->|]; [|done]. intros [= <-].
  split; [|done]. destruct Hdir as [->|[d ->]]; [done|]. rewrite trim_suffix_app. unfold descriptor_path. rewrite Ep, Er at 1. clear. by rewrite <-!str_app_assoc.
Qed.
Lemma stemsFromPaths_spec paths :
  NoDup (stemsFromPaths paths) ∧ ∀ stem, stem ∈ stemsFromPaths paths → ∃ p, p ∈ paths ∧ stem_of p = Some stem.
Proof.
  unfold stemsFromPaths. induction paths as [|p paths IH] using rev_ind; [split; [constructor|by intros stem ?%not_elem_of_nil]|].
  rewrite foldl_app. cbn [foldl]. destruct IH as [Hnd Hin]. set (stems := foldl _ [] paths) in *.
  assert (∀ stem, stem ∈ stems → ∃ q, q ∈ paths ++ [p] ∧ stem_of q = Some stem) as Hold.
  { intros stem (q & ? & ?)%Hin. exists q. split; [apply elem_of_app; by left|done]. }
  destruct (stem_of p) as [stem|] eqn:E; [|done]. destruct (bool_decide_reflect (stem ∈ stems)) as [|Hnot]; [done|]. split.
  - apply NoDup_app. split; [done|]. split; [|apply NoDup_singleton]. by intros x Hx ->%list_elem_of_singleton.
  - intros x [Hx|Hx%list_elem_of_singleton]%elem_of_app; [by apply Hold|]. subst x. exists p. split; [|done].
    apply elem_of_app. right. by left.
Qed.

(** Every stem the suite is given is staged: the stems are distinct single names, and under each of them the
    composed filesystem holds a descriptor, as reading it resolves. *)
Theorem staged_stems_present `{Decoders} gunzip unzstd tar_reader (a : ociArtifact) (stems : list string) :
  source_StagedStems gunzip unzstd tar_reader a = Ok stems →
  NoDup stems ∧
  ∀ stem, stem ∈ stems → stem ≠ "" ∧ contains_byte slash stem = false ∧
    source_HasFile gunzip unzstd tar_reader a (StagedKitRoot +:+ "/" +:+ stem +:+ "/kit.yaml") = Ok true.
Proof.
  unfold source_StagedStems. intros ([root|] & _ & Hs)%result_bind_Ok.
  2:{ injection Hs as <-. split; [apply NoDup_nil_2|]. by intros stem ?%not_elem_of_nil. }
  apply result_bind_Ok in Hs as (candidates & _ & (inventory & Halive & [= <-])%result_bind_Ok).
  destruct (stemsFromPaths_spec inventory) as [Hnd Hin]. split; [done|]. intros stem (p & Hp & (-> & ? & ?)%stem_of_path)%Hin.
  split; [done|]. split; [done|]. by apply (alive_present _ _ _ _ _ _ Halive).
Qed.

(** ** How registries are reached *)

Section Transport.
Context `{References, Decoders} (Normalize : Platform → Platform) (goarch : string)
  (new_repository : string → result string string) (credential_store : result string ())
  (client : string → bool → fetcher) (Domain : Named → string).

Lemma descend_to_reached levels f tag reached_by host want : ∀ desc outer p a,
  descend_to Normalize goarch levels f tag reached_by host want desc outer p = Ok a →
  art_fetcher a = f ∧ reach a = reached_by ∧ origin a = host.
Proof.
  induction levels as [|levels IH]; intros desc outer p a; cbn [descend_to]; intros (body & _ & Ha)%result_bind_Ok;
    (destruct (negb _); [by apply result_bind_Ok in Ha as (m & _ & [= <-])|]); [done|].
  apply result_bind_Ok in Ha as (index & _ & (child & _ & Ha)%result_bind_Ok). by eapply IH.
Qed.
Lemma resolveArtifactFor_reached f tag reached_by host want a :
  resolveArtifactFor Normalize goarch f tag reached_by host want = Ok a →
  art_fetcher a = f ∧ reach a = reached_by ∧ origin a = host.
Proof. intros (desc & _ & Ha)%result_bind_Ok. by eapply descend_to_reached. Qed.

Lemma resolveFrom_reached f tag reached_by host levels : ∀ desc outer l,
  resolveFrom levels f desc tag outer reached_by host = Ok l →
  Forall (λ a, art_fetcher a = f ∧ reach a = reached_by ∧ origin a = host) l.
Proof.
  induction levels as [|levels IH]; intros desc outer l; cbn [resolveFrom]; [done|].
  intros (body & _ & Hl)%result_bind_Ok. destruct (negb _).
  { apply result_bind_Ok in Hl as (m & _ & [= <-]). by repeat constructor. }
  apply result_bind_Ok in Hl as (index & _ & Hl). cbn zeta in Hl. apply result_bind_Ok in Hl as (out & Hout & Hl).
  destruct (bool_decide _); [done|]. injection Hl as <-. revert out Hout.
  induction (Manifests index) as [|child children IHc]; intros out; [by intros [= <-]|]. destruct (os_unknown child); [apply IHc|].
  intros (found & Hfound & (rest & Hrest & [= <-])%result_bind_Ok)%result_bind_Ok. apply Forall_app. split; [|by apply IHc].
  destruct (isIndex (MediaType child)); [by eapply IH|].
  apply result_bind_Ok in Hfound as (b & _ & (m & _ & [= <-])%result_bind_Ok). by repeat constructor.
Qed.

(** The artifacts a run over a reference gets to see: the one it names, and the kits
    listed by any of them. *)
Inductive reached (plainHTTP : bool) (host : string) : ociArtifact → Prop :=
  | reached_named ref a :
      FromRegistry Normalize goarch new_repository credential_store client ref plainHTTP = Ok a → origin a = host →
      reached plainHTTP host a
  | reached_platform ref l a :
      FromRegistryAll new_repository credential_store client ref plainHTTP = Ok l → a ∈ l → origin a = host →
      reached plainHTTP host a
  | reached_listed a ref digest k :
      reached plainHTTP host a →
      ResolveKit Normalize goarch new_repository credential_store client Domain a ref digest = Ok k →
      reached plainHTTP host k.

(** A client without TLS is of a loopback registry, or of the registry the caller named. *)
Definition contained (plainHTTP : bool) (host : string) (a : ociArtifact) : Prop :=
  ∃ repo registry plain, new_repository repo = Ok registry ∧ art_fetcher a = client repo plain ∧
    (plain = true → isLoopbackRegistry registry = true ∨
       plainHTTP = true ∧ origin a = host ∧ (registry = host ∨ ∃ named, repo = named_string (TrimNamed named) ∧ Domain named = host)).

Lemma named_tracked plainHTTP host repo f registry a :
  remoteRepository new_repository credential_store client repo plainHTTP = Ok (f, registry) →
  art_fetcher a = f ∧ reach a = Some plainHTTP ∧ origin a = registry → origin a = host →
  (reach a = Some true → plainHTTP = true ∧ origin a = host) ∧ contained plainHTTP host a.
Proof.
  intros (registry' & Hnew%map_err_Ok & (u & _ & [= <- <-])%result_bind_Ok)%result_bind_Ok (Hf & Hreach & Horigin) Ho.
  split; [rewrite Hreach; by intros [= ->]|]. exists repo, registry', (plainHTTP || isLoopbackRegistry registry').
  split; [done|]. split; [done|]. rewrite orb_true_iff. intros [->|?]; [right|by left]. split; [done|]. split; [done|].
  left. congruence.
Qed.
Lemma reached_tracked plainHTTP host a :
  reached plainHTTP host a → (reach a = Some true → plainHTTP = true ∧ origin a = host) ∧ contained plainHTTP host a.
Proof.
  induction 1 as [ref a Ha Ho|ref l a Hl Ha Ho|a ref digest k Hr [IH _] Hk].
  - apply result_bind_Ok in Ha as ([repo tag] & _ & ([f registry] & Hrepo & Ha)%result_bind_Ok).
    apply resolveArtifactFor_reached in Ha. by eapply named_tracked.
  - apply result_bind_Ok in Hl as ([repo tag] & _ & ([f registry] & Hrepo & (desc & _ & Hl)%result_bind_Ok)%result_bind_Ok).
    apply resolveFrom_reached in Hl. rewrite Forall_forall in Hl. eapply named_tracked; [done|by apply Hl|done].
  - unfold ResolveKit in Hk. destruct (reach a) as [plain|] eqn:Ereach; [|done].
    apply result_bind_Ok in Hk as (named & _ & ([f registry] & Hrepo & Hk)%result_bind_Ok).
    apply resolveArtifactFor_reached in Hk as (Hf & Hreach & Horigin).
    apply result_bind_Ok in Hrepo as (registry' & Hnew%map_err_Ok & (u & _ & [= <- <-])%result_bind_Ok).
    assert (plain && sameRegistry Domain named (origin a) = true → plainHTTP = true ∧ Domain named = host) as Hplain.
    { intros [-> Hsame]%andb_true_iff. destruct (IH eq_refl) as [-> <-]. split; [done|].
      unfold sameRegistry in Hsame. apply andb_true_iff in Hsame as [_ Hsame]. by apply bool_decide_eq_true in Hsame. }
    split; [rewrite Hreach, Horigin; by intros [= Hp]; apply Hplain|].
    eexists _, registry', _. split; [done|]. split; [exact Hf|]. rewrite orb_true_iff. intros [Hp|?]; [right|by left].
    destruct (Hplain Hp) as [-> <-]. split; [done|]. split; [done|]. right. by exists named.
Qed.

(** C40: A request leaves without TLS only for a loopback registry, or for the registry the caller asked to reach
    so: whatever kits a set lists, and whatever those list in turn, each is read by a client without TLS only
    under one of the two. *)
Theorem plain_http_contained plainHTTP host a : reached plainHTTP host a → contained plainHTTP host a.
Proof.
  intros Hr. apply (reached_tracked _ _ _ Hr).
Qed.
End Transport.

(** ** The platforms of a reference *)

(** The shape the specification names. *)
Definition plain_manifest (m : Manifest) : Prop :=
  SchemaVersion_ m = 2%Z ∧ ArtifactType m = "" ∧
  (MediaType (Config_ m) = MediaTypeImageConfig ∨ MediaType (Config_ m) = "application/vnd.docker.container.image.v1+json").

Lemma read_manifest_plain `{Decoders} f desc body m : read_manifest f desc body = Ok m → plain_manifest m.
Proof.
  unfold read_manifest. destruct (parse_manifest body) as [m'|]; [|done]. intros (u & Hp & [= <-])%result_bind_Ok.
  unfold requirePlainImageManifest in Hp. cbn zeta in Hp. unfold plain_manifest.
  destruct (bool_decide_reflect (SchemaVersion_ m' = 2%Z)); [|done]. cbn [negb] in Hp. destruct (negb _ && negb _); [done|].
  destruct (bool_decide_reflect (ArtifactType m' = "")); [|done]. cbn [negb] in Hp.
  destruct (bool_decide_reflect (MediaType (Config_ m') = MediaTypeImageConfig)); [by auto|]. cbn [negb andb] in Hp.
  destruct (bool_decide_reflect (MediaType (Config_ m') = "application/vnd.docker.container.image.v1+json")); [by auto|done].
Qed.

(** A list of platforms, under the annotations of one index. *)
Definition shares (index : gmap string string) (a : ociArtifact) : Prop :=
  plain_manifest (manifest a) ∧ indexAnnotations a = Some index.
Lemma resolveFrom_platforms `{Decoders} f tag reached_by host levels : ∀ desc outer l,
  resolveFrom levels f desc tag outer reached_by host = Ok l →
  l ≠ [] ∧
  if isIndex (MediaType desc) then ∃ index, (∀ o, outer = Some o → index = o) ∧ Forall (shares index) l
  else ∃ a, l = [a] ∧ plain_manifest (manifest a) ∧ indexAnnotations a = None.
Proof.
  induction levels as [|levels IH]; intros desc outer l; cbn [resolveFrom]; [done|].
  intros (body & _ & Hl)%result_bind_Ok. destruct (isIndex (MediaType desc)); cbn [negb] in Hl.
  2:{ apply result_bind_Ok in Hl as (m & Hm%read_manifest_plain & [= <-]). split; [done|]. by eexists. }
  apply result_bind_Ok in Hl as (index & _ & Hl). cbn zeta in Hl. apply result_bind_Ok in Hl as (out & Hout & Hl).
  destruct (bool_decide_reflect (length out = 0)) as [|Hne]; [done|]. injection Hl as <-.
  split; [by intros ->|]. exists (default (Index_Annotations index) outer). split; [by intros o ->|]. clear Hne.
  revert out Hout. induction (Manifests index) as [|child children IHc]; intros out; [by intros [= <-]|].
  destruct (os_unknown child); [apply IHc|].
  intros (found & Hfound & (rest & Hrest & [= <-])%result_bind_Ok)%result_bind_Ok. apply Forall_app. split; [|by apply IHc].
  destruct (isIndex (MediaType child)) eqn:Ei.
  - apply IH in Hfound as [_ Hf]. rewrite Ei in Hf. destruct Hf as (o & Ho & Hall). specialize (Ho _ eq_refl). by subst o.
  - apply result_bind_Ok in Hfound as (b & _ & (m & Hm%read_manifest_plain & [= <-])%result_bind_Ok). by apply Forall_singleton.
Qed.

(** Judging every platform of a reference judges at least one image, each a plain image manifest, and all of them
    under the annotations of the index that was tagged, nested indexes notwithstanding. *)
Theorem platforms_share_index `{Decoders} f tag reached_by host l :
  resolveAll f tag reached_by host = Ok l →
  l ≠ [] ∧ ((∃ a, l = [a] ∧ plain_manifest (manifest a) ∧ indexAnnotations a = None) ∨ ∃ index, Forall (shares index) l).
Proof.
  intros (desc & _ & [Hne Hl]%resolveFrom_platforms)%result_bind_Ok. split; [done|].
  destruct (isIndex (MediaType desc)); [right; destruct Hl as (index & _ & Hl); by exists index|by left].
Qed.

(** ** A published kit *)

Definition file_header (name : string) (typeflag : ascii) (link : string) : tar_entry :=
  mkTarEntry (Overlay.entry name typeflag link) (mkStream ("body of " +:+ name) false).
(** Two staged kits, the second of them deleted by the layer above; a link to the first. *)
Definition sample_tar (s : stream) : archive :=
  if bool_decide (delivered s = "lower") then
    mkArchive [file_header "usr/share/sandbox/kit/tools/kit.yaml" TypeReg ""; file_header "usr/share/sandbox/kit/old/kit.yaml" TypeReg "";
               file_header "etc/kit" TypeSymlink "/usr/share/sandbox/kit/tools"] false
  else mkArchive [file_header "usr/share/sandbox/kit/.wh.old" TypeReg ""; file_header "etc/same" TypeLink "etc/kit/kit.yaml"] false.
Definition sample_fetcher : fetcher :=
  mkFetcher (λ _, Err "") (λ b, Ok (mkStream (Blob_Digest b) false)).
Definition sample_layer (digest : string) : Blob := mkBlob "" digest 0 None.
Definition sample_artifact : ociArtifact :=
  mkOciArtifact sample_fetcher None "" (mkManifest 2 "" "" (sample_layer "config") [sample_layer "lower"; sample_layer "upper"] ∅) None None.
Definition identity (s : stream) : option stream := Some s.

Example sample_read :
  map (source_ReadFile identity identity sample_tar sample_artifact)
    ["/etc/kit/kit.yaml"; "/usr/share/sandbox/kit/old/kit.yaml"; "/etc/same"] =
  [Ok (Some "body of usr/share/sandbox/kit/tools/kit.yaml"); Ok None; Ok (Some "body of usr/share/sandbox/kit/tools/kit.yaml")].
Proof. by vm_compute. Qed.

Lemma lookups_agree_witness :
  source_ReadFile identity identity sample_tar sample_artifact "/etc/kit/kit.yaml" = Ok (Some "body of usr/share/sandbox/kit/tools/kit.yaml") ∧
  source_HasFile identity identity sample_tar sample_artifact "/etc/kit/kit.yaml" = Ok true.
Proof.
  assert (source_ReadFile identity identity sample_tar sample_artifact "/etc/kit/kit.yaml" =
          Ok (Some "body of usr/share/sandbox/kit/tools/kit.yaml")) as E by (vm_compute; reflexivity).
  split; [exact E|]. destruct (lookups_agree identity identity sample_tar sample_artifact "/etc/kit/kit.yaml") as [_ Hread].
  exact (Hread _ E).
Defined.

Definition no_decoders : Decoders := {| parse_manifest := λ _, None; parse_index := λ _, None; parse_image := λ _, None |}.
Lemma staged_stems_present_witness :
  source_StagedStems identity identity sample_tar sample_artifact = Ok ["tools"] ∧ NoDup ["tools"] ∧
  source_HasFile identity identity sample_tar sample_artifact "/usr/share/sandbox/kit/tools/kit.yaml" = Ok true.
Proof.
  assert (source_StagedStems identity identity sample_tar sample_artifact = Ok ["tools"]) as E by (vm_compute; reflexivity).
  destruct (@staged_stems_present no_decoders identity identity sample_tar sample_artifact ["tools"] E) as [Hnd Hall].
  split; [exact E|]. split; [exact Hnd|]. destruct (Hall "tools") as (_ & _ & Hhas); [by left|exact Hhas].
Defined.

(** A set of a registry without TLS, and kits it lists there and elsewhere. *)
Definition plain_image : Manifest := mkManifest 2 "" "" (mkBlob MediaTypeImageConfig "config" 0 None) [] ∅.
Definition image_decoders : Decoders :=
  {| parse_manifest := λ _, Some plain_image; parse_index := λ _, None; parse_image := λ _, None |}.
Definition registry_client (repo : string) (plain : bool) : fetcher :=
  mkFetcher (λ tag, Ok (mkBlob MediaTypeImageManifest (repo +:+ (if plain then " in the clear" else "")) 0 None))
    (λ b, Ok (mkStream (Blob_Digest b) false)).
Definition host_of (name : string) : string := (cut slash name).1.1.
Definition listed_kit (plainHTTP : bool) (ref : string) : result source_error ociArtifact :=
  a ← @FromRegistry toy_references image_decoders id "amd64" (λ repo, Ok (host_of repo)) (Ok ()) registry_client "mirror.test/set" plainHTTP;
  @ResolveKit toy_references image_decoders id "amd64" (λ repo, Ok (host_of repo)) (Ok ()) registry_client host_of a ref "sha256:1".
Definition in_the_clear (a : ociArtifact) : bool :=
  match Resolve (art_fetcher a) "" with Ok b => contains "clear" (Blob_Digest b) | Err _ => false end.

Example clear_only_where_asked :
  map (λ '(flag, ref), in_the_clear <$> listed_kit flag ref)
    [(true, "mirror.test/kit"); (true, "elsewhere.test/kit"); (false, "mirror.test/kit"); (false, "127.0.0.1:5000/kit")] =
  [Ok true; Ok false; Ok false; Ok true].
Proof. by vm_compute. Qed.

Lemma plain_http_contained_witness :
  ∃ a, listed_kit true "mirror.test/kit" = Ok a ∧
    @contained toy_references (λ repo, Ok (host_of repo)) registry_client host_of true "mirror.test" a.
Proof.
  unfold listed_kit.
  destruct (@FromRegistry toy_references image_decoders id "amd64" (λ repo, Ok (host_of repo)) (Ok ()) registry_client "mirror.test/set" true)
    as [s|] eqn:Es; [|by vm_compute in Es]. cbn [mbind result_bind].
  destruct (@ResolveKit toy_references image_decoders id "amd64" (λ repo, Ok (host_of repo)) (Ok ()) registry_client host_of s "mirror.test/kit" "sha256:1")
    as [a|] eqn:Ea; [|vm_compute in Es; injection Es as <-; by vm_compute in Ea].
  exists a. split; [exact eq_refl|]. apply (@plain_http_contained toy_references image_decoders id "amd64" _ (Ok ()) _ _ true "mirror.test" a).
  eapply reached_listed; [|exact Ea]. eapply reached_named; [exact Es|]. vm_compute in Es. by injection Es as <-.
Defined.
