(* ===== verification/Adapter.v ===== *)
(** [tck/adapter]: driving a candidate runtime through its adapter, an executable whose
    verbs create sandboxes, act on them and report on them.

    The machine the suite runs on is the class [Host]: an operation may change its
    state, so every verb threads it.  Beside the machine's state the model keeps the
    history of the adapter's answers, which no definition reads: it is what the
    theorems about the suite are stated over. *)
From stdpp Require Import options.
From S2P Require Import Prelude GoStrings Json Types Config GoPath Marshal Surface Selection.

(** ** Contexts

    A context ends with the one it was derived from, unless it was detached
    ([context.WithoutCancel]), and at its own deadline. *)

Inductive ctx_error := Canceled | DeadlineExceeded.
Record context := mkContext { inherits : bool; deadline : option Z }.

Definition Background : context := mkContext true None.
Definition WithoutCancel (ctx : context) : context := mkContext false None.
Definition WithTimeout (t : Z) (ctx : context) (timeout : Z) : context :=
  mkContext (inherits ctx)
    (Some (match deadline ctx with Some d => Z.min d (t + timeout) | None => t + timeout end))%Z.

(** ** The machine *)

(** A process: its executable, arguments, working directory and environment. *)
Record command := mkCommand {
  Cmd_Path : string;
  Cmd_Args : list string;
  Cmd_Dir : string;
  Cmd_Env : list string;
}.
(** What [Run] returns: an exit status that is not success, or no process at all. *)
Inductive run_error := ExitError (code : Z) | StartError (cause : string).
Record completed := mkCompleted {
  Completed_Stdout : string;
  Completed_Stderr : string;
  Completed_Err : option run_error;
}.

Class Host := {
  World : Type;
  (** [exec.CommandContext] and [Cmd.Run]. *)
  run_command : context → command → World → completed * World;
  (** The environment of a process started in a directory ([Cmd.Environ]). *)
  Environ : string → list string;
  Getwd : option string;
  Getenv : string → string;
  (** Nanoseconds of the clock; whether the caller's context is over. *)
  now : World → Z;
  caller_err : World → option ctx_error;
  (** [<-ctx.Done()] or [time.After]: [true] when the context ended the wait. *)
  select_done : context → Z → World → bool * World;
  UserHomeDir : result string string;
  MkdirTemp : string → string → World → result string string * World;
  Symlink : string → string → World → result string () * World;
  WriteFile : string → string → World → result string () * World;
  ReadFile : string → World → result string string;
  RemoveAll : string → World → World;
  (** JSON as a tree, and the decoder of a request ([spec/types.go]). *)
  json_text : string → option value;
  decode_capability : decoder Capability;
}.

Section Host.
Context `{Host}.

(** [ctx.Err()]. *)
Definition ctx_Err (ctx : context) (w : World) : option ctx_error :=
  match (if inherits ctx then caller_err w else None) with
  | Some e => Some e
  | None =>
      match deadline ctx with
      | Some d => if (d <=? now w)%Z then Some DeadlineExceeded else None
      | None => None
      end
  end.

(** [filepath.Abs]. *)
Definition Abs (p : string) : option string :=
  if is_abs p then Some (Clean p) else option_map (λ wd, Join wd p) Getwd.

End Host.

(** ** The adapter *)

Record Adapter := mkAdapter {
  Path : string;
  Env_ : list string;
  Dir : string;
}.
Record Result := mkResult { Stdout : string; Stderr : string; ExitCode : Z }.

Inductive run_failure := Interrupted (cause : ctx_error) | NotStarted (cause : string).
Inductive adapter_error :=
  | NotRun (path verb : string) (cause : run_failure)
  | VerbFailed (verb : string) (code : Z) (stderr : string)
  | RefusedError (Refused_Detail : string)
  | NoSandboxID
  | UnknownState (state : string)
  | SelectionUnparsed
  | SelectionUndecodable (cause : json_error).

(** [errors.As(err, &refused)]. *)
Definition refusal (e : adapter_error) : option string :=
  match e with RefusedError d => Some d | _ => None end.

Definition ExitRefused : Z := 2.

(** What an adapter was asked, and what came of it. *)
Record invocation := mkInvocation { asked : list string; answered : result adapter_error Result }.

Section Adapter.
Context `{Host} (a : Adapter).

Definition state : Type := World * list invocation.
Definition M (A : Type) : Type := state → A * state.
Definition bind {A B} (m : M A) (f : A → M B) : M B := λ s, let '(x, s) := m s in f x s.
(** A call that returns early with its error. *)
Definition try {A B} (m : M (result adapter_error A)) (f : A → M (result adapter_error B)) :
    M (result adapter_error B) :=
  bind m (λ r, match r with Ok x => f x | Err e => λ s, (Err e, s) end).
Definition ret {A} (x : A) : M A := λ s, (x, s).

(** [run]: a relative executable is the caller's; a status is an answer, unless the
    context's end produced it. *)
Definition executable : string :=
  if negb (bool_decide (Dir a = "")) && negb (is_abs (Path a)) && contains_byte slash (Path a)
  then default (Path a) (Abs (Path a)) else Path a.
Definition outcome (ctx : context) (verb : string) (c : completed) (w : World) :
    result adapter_error Result :=
  match Completed_Err c with
  | None => Ok (mkResult (Completed_Stdout c) (Completed_Stderr c) 0)
  | Some (ExitError code) =>
      match ctx_Err ctx w with
      | Some e => Err (NotRun (Path a) verb (Interrupted e))
      | None => Ok (mkResult (Completed_Stdout c) (Completed_Stderr c) code)
      end
  | Some (StartError cause) => Err (NotRun (Path a) verb (NotStarted cause))
  end.
Definition run (ctx : context) (argv : list string) : M (result adapter_error Result) := λ '(w, history),
  let '(c, w) := run_command ctx (mkCommand executable argv (Dir a) (Environ (Dir a) ++ Env_ a)) w in
  let r := outcome ctx (default "" (head argv)) c w in
  (r, (w, history ++ [mkInvocation argv r])).

Definition mustRun (ctx : context) (argv : list string) : M (result adapter_error ()) :=
  try (run ctx argv) (λ res, ret (
    if negb (ExitCode res =? 0)%Z
    then Err (VerbFailed (default "" (head argv)) (ExitCode res) (trim_space (Stderr res)))
    else Ok ())).

(** ** The verbs *)

Definition Capabilities (ctx : context) : M (result adapter_error (list string)) :=
  try (run ctx ["capabilities"]) (λ res, ret (
    if negb (ExitCode res =? 0)%Z then Err (VerbFailed "capabilities" (ExitCode res) (Stderr res))
    else Ok (sort_strings (List.filter (λ line, negb (bool_decide (line = "")))
                             (map trim_space (split (byte 10) (Stdout res))))))).

Record CreateOptions := mkCreateOptions {
  GitIdentityConfig : string;
  RejectCapabilities_ : list string;
  Args : gmap string string;
  CreateEnv : gmap string string;
  SkillsHostMode : string;
  SkillsHostStore : string;
  SSHAgent_ : string;
  SSHKnownHosts : string;
}.
Definition no_options : CreateOptions := mkCreateOptions "" [] ∅ ∅ "" "" "" "".

Definition sortedKeys (m : gmap string string) : list string := sort_strings (map fst (map_to_list m)).

Definition flag_if (flag value : string) : list string :=
  if bool_decide (value = "") then [] else [flag; value].
Definition flag_each (flag : string) (m : gmap string string) : list string :=
  flat_map (λ name, [flag; name +:+ "=" +:+ default "" (m !! name)]) (sortedKeys m).
Definition create_argv (kits : list string) (opts : CreateOptions) : list string :=
  ["create"] ++ kits ++ flag_if "--git-identity-config" (GitIdentityConfig opts) ++
  flat_map (λ typ, ["--reject-capability"; typ]) (RejectCapabilities_ opts) ++
  flag_if "--skills-host-mode" (SkillsHostMode opts) ++
  flag_if "--skills-host-store" (SkillsHostStore opts) ++
  flag_if "--ssh-agent" (SSHAgent_ opts) ++
  flag_if "--ssh-known-hosts" (SSHKnownHosts opts) ++
  flag_each "--arg" (Args opts) ++ flag_each "--env" (CreateEnv opts).

(** The sandbox a create's answer names. *)
Definition created (res : Result) : result adapter_error string :=
  if (ExitCode res =? 0)%Z then
    let id := trim_space (Stdout res) in
    if bool_decide (id = "") then Err NoSandboxID else Ok id
  else if (ExitCode res =? ExitRefused)%Z then Err (RefusedError (trim_space (Stderr res)))
  else Err (VerbFailed "create" (ExitCode res) (trim_space (Stderr res))).
Definition Create (ctx : context) (kits : list string) (opts : CreateOptions) : M (result adapter_error string) :=
  try (run ctx (create_argv kits opts)) (λ res, ret (created res)).

Definition Exec (ctx : context) (id : string) (argv : list string) : M (result adapter_error Result) :=
  run ctx (["exec"; id; "--"] ++ argv).
Definition WaitIdle (ctx : context) (id : string) : M (result adapter_error ()) := mustRun ctx ["wait-idle"; id].
Definition Status (ctx : context) (id : string) : M (result adapter_error string) :=
  try (run ctx ["status"; id]) (λ res, ret (
    if negb (ExitCode res =? 0)%Z then Err (VerbFailed "status" (ExitCode res) (trim_space (Stderr res)))
    else
      let state := trim_space (Stdout res) in
      if negb (bool_decide (state = "running")) && negb (bool_decide (state = "stopped"))
      then Err (UnknownState state) else Ok state)).
Definition Recreate (ctx : context) (id : string) : M (result adapter_error ()) := mustRun ctx ["recreate"; id].
Definition Stop (ctx : context) (id : string) : M (result adapter_error ()) := mustRun ctx ["stop"; id].
Definition Start (ctx : context) (id : string) : M (result adapter_error ()) := mustRun ctx ["start"; id].
Definition Remove (ctx : context) (id : string) : M (result adapter_error ()) := mustRun ctx ["rm"; id].

(** ** What a runtime recorded of its choice ([selection.go]) *)

Record SelectionState := mkSelectionState {
  State_Selection : Selection;
  State_Surface : Surface;
}.

(** A struct without [DisallowUnknownFields]. *)
Definition decode_open {A} (fields : A → list (string * value) → result json_error A) : decoder A := λ cur v,
  match v with VNull => Ok cur | VMap m => fields cur m | _ => Err (TypeMismatch v) end.

Definition zero_source : CapabilitySource := mkCapabilitySource "" "".
(** [CapabilitySource.UnmarshalJSON]: strict, and an explicit [null] is no string; the
    last entry of a key is the one in the map. *)
Definition null_entry (key : string) (m : list (string * value)) : bool :=
  match last (List.filter (λ kv, bool_decide (kv.1 = key)) m) with
  | Some (_, VNull) => true
  | _ => false
  end.
Definition decode_source : decoder CapabilitySource := λ cur v,
  s ← decode_struct ["kit"; "path"] (λ s m,
    kit ← decode_field "kit" decode_string m (Source_Kit s);
    path ← decode_field "path" decode_string m (Source_Path s);
    Ok (mkCapabilitySource kit path)) cur v;
  match v with
  | VMap m => if null_entry "kit" m || null_entry "path" m then Err (TypeMismatch VNull) else Ok s
  | _ => Ok s
  end.

Definition zero_record : SelectionRecord := mkSelectionRecord "" "" None [] [] [].
Definition decode_record : decoder SelectionRecord :=
  decode_open (λ r m,
    path ← decode_field "path" decode_string m (Record_Path r);
    name ← decode_field "name" decode_string m (Record_Name r);
    source ← decode_field "source" (decode_ptr decode_source zero_source) m (Record_Source r);
    members ← decode_field "members" decode_strings m (Members r);
    memberSources ← decode_field "memberSources" (decode_slice decode_source zero_source) m (MemberSources r);
    rejected ← decode_field "rejected" decode_strings m (Rejected r);
    Ok (mkSelectionRecord path name source members memberSources rejected)).
Definition zero_capability : Capability := capability_of "" None.
Definition decode_selection : decoder Selection :=
  decode_open (λ s m,
    caps ← decode_field "capabilities" (decode_slice decode_capability zero_capability) m (Selection_Capabilities s);
    selected ← decode_field "selected" (decode_slice decode_record zero_record) m (Selected s);
    skipped ← decode_field "skipped" (decode_slice decode_record zero_record) m (Skipped s);
    Ok (mkSelection caps selected skipped)).

Definition decode_surface : decoder Surface :=
  decode_open (λ s m,
    networkInstallAllow ← decode_field "networkInstallAllow" decode_strings m (NetworkInstallAllow s);
    networkInstallDeny ← decode_field "networkInstallDeny" decode_strings m (NetworkInstallDeny s);
    networkRuntimeAllow ← decode_field "networkRuntimeAllow" decode_strings m (NetworkRuntimeAllow s);
    networkRuntimeDeny ← decode_field "networkRuntimeDeny" decode_strings m (NetworkRuntimeDeny s);
    installHTTPAllow ← decode_field "networkInstallHTTPAllow" decode_strings m (NetworkInstallHTTPAllow s);
    installHTTPDeny ← decode_field "networkInstallHTTPDeny" decode_strings m (NetworkInstallHTTPDeny s);
    runtimeHTTPAllow ← decode_field "networkRuntimeHTTPAllow" decode_strings m (NetworkRuntimeHTTPAllow s);
    runtimeHTTPDeny ← decode_field "networkRuntimeHTTPDeny" decode_strings m (NetworkRuntimeHTTPDeny s);
    credentialsInstall ← decode_field "credentialsInstall" decode_strings m (CredentialsInstall s);
    credentialsRuntime ← decode_field "credentialsRuntime" decode_strings m (CredentialsRuntime s);
    sshAgent ← decode_field "sshAgent" decode_strings m (SSHAgentGrants s);
    storagePaths ← decode_field "storagePaths" decode_strings m (StoragePaths s);
    skillsPaths ← decode_field "skillsPaths" decode_strings m (SkillsPaths s);
    skillsWritePaths ← decode_field "skillsWritePaths" decode_strings m (SkillsWritePaths s);
    ports ← decode_field "ports" decode_strings m (Ports s);
    usb ← decode_field "usb" decode_strings m (USB s);
    privileged ← decode_field "privileged" decode_bool m (Privileged s);
    services ← decode_field "services" decode_strings m (Services s);
    Ok (mkSurface networkInstallAllow networkInstallDeny networkRuntimeAllow networkRuntimeDeny
          installHTTPAllow installHTTPDeny runtimeHTTPAllow runtimeHTTPDeny credentialsInstall
          credentialsRuntime sshAgent storagePaths skillsPaths skillsWritePaths ports usb privileged services)).

Definition decode_state (text : string) : result adapter_error SelectionState :=
  match json_text text with
  | None => Err SelectionUnparsed
  | Some v =>
      map_err SelectionUndecodable (decode_open (λ st m,
        selection ← decode_field "selection" decode_selection m (State_Selection st);
        surface ← decode_field "surface" decode_surface m (State_Surface st);
        Ok (mkSelectionState selection surface)) (mkSelectionState no_selection zero_surface) v)
  end.

Definition Selection_ (ctx : context) (id : string) : M (result adapter_error SelectionState) :=
  try (run ctx ["selection"; id]) (λ res, ret (
    if negb (ExitCode res =? 0)%Z then Err (VerbFailed "selection" (ExitCode res) (Stderr res))
    else decode_state (Stdout res))).

Definition RejectCapabilities (ctx : context) (id : string) (types : list string) : M (result adapter_error ()) :=
  mustRun ctx (["selection-policy"; id] ++ flat_map (λ typ, ["--reject-capability"; typ]) types).
End Adapter.
