(* ===== verification/Backing.v ===== *)
(** The pure half of [tck/sandbox/ssh_agent_backing.go] and [ssh_agent_server.go]: what
    the suite's own SSH agent counts and records of the requests that reach it.

    The agent's counters are read off the bytes of its connections as they come, so they
    are functions of the reads of each connection; the signature log is a function of
    the data it was asked to sign.  The key and signature operations of
    [golang.org/x/crypto/ssh] are the class [SSH]. *)
From stdpp Require Import options.
From S2P Require Import Prelude GoStrings Marshal Json Types Config GoPath Surface Selection Adapter.

(** ** The SSH library and the agent's connections *)

Class SSH `{Host} := {
  Signer : Type;
  (** [ssh.PublicKey.Marshal] of a signer's key, and [ssh.MarshalAuthorizedKey]. *)
  public_key : Signer → string;
  MarshalAuthorizedKey : string → string;
  (** [ed25519.GenerateKey] with [ssh.NewSignerFromKey]. *)
  GenerateKey : World → result string Signer * World;
  (** [ssh.Signer.Sign], its signature marshalled. *)
  Sign : Signer → string → World → result string string * World;
  (** The verification of a marshalled signature over data by a key: [None] for a valid
      one. *)
  verify_signature : string → string → string → option string;
  (** [ssh.Marshal] of a session binding's four fields. *)
  marshal_binding : string → string → string → bool → string;
  rand_Read : nat → World → string * World;
  (** [agent.NewKeyring] holding a key, behind a listener on a socket. *)
  serve_agent : string → Signer → World → result string () * World;
  close_agent : string → World → World;
  (** What the agent's keyring lists: marshalled keys. *)
  agent_keys : string → World → result string (list string);
  (** The reads of each connection accepted so far, and the data of each signature
      asked for, in order. *)
  agent_reads : string → World → list (list string);
  agent_signs : string → World → list string;
}.

(** ** Hexadecimal *)

Definition hex_value (c : ascii) : option nat :=
  let n := nat_of_ascii c in
  if is_digit c then Some (n - 48)
  else if byte_in "a" "f" c then Some (n - 87)
  else if byte_in "A" "F" c then Some (n - 55)
  else None.
Fixpoint hex_DecodeString (s : string) : option string :=
  match s with
  | EmptyString => Some ""
  | String a (String b s) =>
      x ← hex_value a; y ← hex_value b; r ← hex_DecodeString s;
      Some (String (ascii_of_nat (16 * x + y)) r)
  | String _ EmptyString => None
  end.
Definition hex_EncodeToString (s : string) : string := hex (bytes_of s).

(** ** The wire format *)

Definition byte_value (c : ascii) : N := N_of_ascii c.
(** [binary.BigEndian.Uint32] of the first four bytes. *)
Definition uint32 (b : string) : N :=
  match b with
  | String a (String b (String c (String d _))) =>
      (byte_value a * 16777216 + byte_value b * 65536 + byte_value c * 256 + byte_value d)%N
  | _ => 0%N
  end.

(** [sshString]: the value and what follows it. *)
Definition sshString (b : string) : option (string * string) :=
  if String.length b <? 4 then None
  else
    let n := uint32 b in
    if (N.of_nat (String.length b - 4) <? n)%N then None
    else Some (str_take (N.to_nat n) (str_drop 4 b), str_drop (4 + N.to_nat n) b).

(** What data to be signed is for, as the log writes it. *)
Definition classifySignature (data : string) : string :=
  if has_prefix "SSHSIG" data then
    match sshString (trim_prefix "SSHSIG" data) with
    | Some (ns, _) => "sshsig " +:+ ns
    | None => "other"
    end
  else
    match sshString data with
    | None => "other"
    | Some (_, EmptyString) => "other"
    | Some (_, String kind rest) =>
        if negb (byte_value kind =? 50)%N then "other"
        else
          match sshString rest with
          | Some (user, _) => "login " +:+ user
          | None => "other"
          end
    end.

(** ** Counting frames *)

(** The counters shared by an agent's connections: frames, and frames by type. *)
Record counters := mkCounters { requests : N; requestTypes : gmap N N }.
Definition no_requests : counters := mkCounters 0 ∅.
Definition type_count (c : counters) (kind : N) : N := default 0%N (requestTypes c !! kind).
Definition count_type (kind : N) (c : counters) : counters :=
  mkCounters (requests c) (<[kind := (type_count c kind + 1)%N]> (requestTypes c)).
Definition count_frame (c : counters) : counters := mkCounters (requests c + 1) (requestTypes c).

(** [header] holds the [have] bytes seen of the current frame's header. *)
Record frameCounter := mkFrameCounter {
  firstBody : bool;
  header : string;
  left_ : N;
}.
Definition new_counter : frameCounter := mkFrameCounter false "" 0.

(** The loop of [Read] over the bytes a read returned, a stretch of body or one byte of
    header at a time; each turn takes one byte at least, so the bytes bound it. *)
Fixpoint count_loop (fuel : nat) (b : string) (st : frameCounter * counters) : frameCounter * counters :=
  let '(f, c) := st in
  match fuel, b with
  | S fuel, String b0 rest =>
      if (0 <? left_ f)%N then
        let c := if firstBody f then count_type (byte_value b0) c else c in
        let step := N.min (N.of_nat (String.length b)) (left_ f) in
        count_loop fuel (str_drop (N.to_nat step) b) (mkFrameCounter false (header f) (left_ f - step), c)
      else
        let header' := header f +:+ String b0 "" in
        if String.length header' =? 4
        then count_loop fuel rest (mkFrameCounter true "" (uint32 header'), count_frame c)
        else count_loop fuel rest (mkFrameCounter (firstBody f) header' (left_ f), c)
  | _, _ => (f, c)
  end.
Definition Read (b : string) (st : frameCounter * counters) : frameCounter * counters :=
  count_loop (String.length b) b st.

(** The counters once every connection's reads were counted, each by a counter of its
    own ([serve]). *)
Definition count_connection (c : counters) (reads : list string) : counters :=
  (foldl (λ st b, Read b st) (new_counter, c) reads).2.
Definition count_connections (conns : list (list string)) : counters :=
  foldl count_connection no_requests conns.

(** ** Facts *)

(** *** Frames, a byte at a time *)

Definition count_byte (st : frameCounter * counters) (b : ascii) : frameCounter * counters :=
  let '(f, c) := st in
  if (0 <? left_ f)%N
  then (mkFrameCounter false (header f) (left_ f - 1), if firstBody f then count_type (byte_value b) c else c)
  else
    let header' := header f +:+ String b "" in
    if String.length header' =? 4 then (mkFrameCounter true "" (uint32 header'), count_frame c)
    else (mkFrameCounter (firstBody f) header' (left_ f), c).
Fixpoint count_bytes (st : frameCounter * counters) (s : string) : frameCounter * counters :=
  match s with EmptyString => st | String b s => count_bytes (count_byte st b) s end.

Lemma count_bytes_app st s s' : count_bytes st (s +:+ s') = count_bytes (count_bytes st s) s'.
Proof. revert st. induction s as [|b s IH]; intros st; cbn; [done|]. apply IH. Qed.
(** A stretch of body past its first byte. *)
Lemma count_body n s h l c :
  n ≤ String.length s → (N.of_nat n ≤ l)%N →
  count_bytes (mkFrameCounter false h l, c) s = count_bytes (mkFrameCounter false h (l - N.of_nat n), c) (str_drop n s).
Proof.
  revert s l. induction n as [|n IH]; intros s l Hs Hl; [by rewrite N.sub_0_r; destruct s|].
  destruct s as [|b s]; cbn in Hs; [lia|]. cbn [str_drop count_bytes count_byte left_ firstBody header].
  rewrite (proj2 (N.ltb_lt 0 l)) by lia. rewrite (IH s (l - 1)%N) by lia. do 3 f_equal. lia.
Qed.
Lemma count_loop_bytes fuel b st : String.length b ≤ fuel → count_loop fuel b st = count_bytes st b.
Proof.
  revert b st. induction fuel as [|fuel IH]; intros b [f c] Hb; destruct b as [|b0 rest]; cbn in Hb; try done; [lia|].
  cbn [count_loop]. cbn [count_bytes count_byte]. destruct (0 <? left_ f)%N eqn:El.
  - apply N.ltb_lt in El. set (step := N.min _ _).
    assert (∃ k, N.to_nat step = S k ∧ k ≤ String.length rest ∧ (N.of_nat k ≤ left_ f - 1)%N ∧
      (left_ f - step = left_ f - 1 - N.of_nat k)%N) as (k & Hk & Hlen & Hle & Hleft).
    { exists (N.to_nat step - 1). unfold step. cbn [String.length]. lia. }
    rewrite Hk. cbn [str_drop]. rewrite Hleft, (count_body k rest _ _ _ Hlen Hle).
    rewrite IH; [done|]. rewrite str_drop_length. lia.
  - destruct (String.length (header f +:+ String b0 "") =? 4); apply IH; lia.
Qed.
Lemma Read_bytes b st : Read b st = count_bytes st b.
Proof. by apply count_loop_bytes. Qed.
Lemma reads_bytes reads st : foldl (λ st b, Read b st) st reads = count_bytes st (String.concat "" reads).
Proof.
  revert st. induction reads as [|b reads IH]; intros st; cbn [foldl]; [done|]. rewrite IH, Read_bytes, <-count_bytes_app.
  f_equal. destruct reads; [|done]. cbn. by rewrite str_app_nil_r.
Qed.

(** *** What the wire carries *)

(** The length in front of a frame or a string, and a string of the wire. *)
Definition put_uint32 (n : N) : string :=
  String (ascii_of_N (n / 16777216)) (String (ascii_of_N (n / 65536 mod 256))
    (String (ascii_of_N (n / 256 mod 256)) (String (ascii_of_N (n mod 256)) ""))).
Definition wire (body : string) : string := put_uint32 (N.of_nat (String.length body)) +:+ body.
Definition fits (body : string) : Prop := (N.of_nat (String.length body) < 4294967296)%N.

Lemma uint32_put n rest : (n < 4294967296)%N → uint32 (put_uint32 n +:+ rest) = n.
Proof.
  intros Hn. unfold put_uint32. rewrite !str_app_cons, str_app_nil_l. cbn [uint32]. unfold byte_value.
  assert (n / 16777216 < 256)%N by (apply N.Div0.div_lt_upper_bound; lia).
  pose proof (N.mod_lt (n / 65536) 256 ltac:(done)). pose proof (N.mod_lt (n / 256) 256 ltac:(done)).
  pose proof (N.mod_lt n 256 ltac:(done)).
  rewrite !N_ascii_embedding by done.
  pose proof (N.div_mod n 256 ltac:(done)). pose proof (N.div_mod (n / 256) 256 ltac:(done)).
  pose proof (N.div_mod (n / 65536) 256 ltac:(done)).
  rewrite (N.Div0.div_div n 256 256) in *. rewrite (N.Div0.div_div n 65536 256) in *.
  change (256 * 256)%N with 65536%N in *. change (65536 * 256)%N with 16777216%N in *. lia.
Qed.

Lemma sshString_wire v rest : fits v → sshString (wire v +:+ rest) = Some (v, rest).
Proof.
  intros Hv. unfold sshString, wire. rewrite str_app_assoc, !str_length_app, uint32_put by done.
  change (String.length (put_uint32 _)) with 4. rewrite (proj2 (Nat.ltb_ge _ _)) by lia.
  rewrite (proj2 (N.ltb_ge _ _)) by lia. rewrite Nat2N.id.
  unfold put_uint32. rewrite !str_app_cons, str_app_nil_l. cbn [str_drop].
  f_equal. f_equal; [apply str_take_app|apply str_drop_app].
Qed.

(** What a signature is for, of the data the two protocols sign. *)
Lemma signatures_classified ns user rest sid :
  fits ns → fits user → fits sid → has_prefix "SSHSIG" (wire sid +:+ String "050" (wire user +:+ rest)) = false →
  classifySignature ("SSHSIG" +:+ wire ns +:+ rest) = "sshsig " +:+ ns ∧
  classifySignature (wire sid +:+ String "050" (wire user +:+ rest)) = "login " +:+ user.
Proof.
  intros Hns Huser Hsid Hp. unfold classifySignature. split.
  - by rewrite has_prefix_app, trim_prefix_app, sshString_wire.
  - rewrite Hp, sshString_wire by done. cbn. by rewrite sshString_wire.
Qed.

(** The bodies of a kind: the frames whose first byte it is. *)
Definition of_kind (kind : N) (body : string) : bool :=
  match body with String b _ => (byte_value b =? kind)%N | EmptyString => false end.
Lemma count_frame_bytes fb c body : fits body →
  ∃ c', count_bytes (mkFrameCounter fb "" 0, c) (wire body) = (mkFrameCounter (negb (bool_decide (body ≠ ""))) "" 0, c') ∧
    requests c' = (requests c + 1)%N ∧
    ∀ kind, type_count c' kind = (type_count c kind + if of_kind kind body then 1 else 0)%N.
Proof.
  intros Hb. unfold wire. rewrite count_bytes_app.
  assert (count_bytes (mkFrameCounter fb "" 0, c) (put_uint32 (N.of_nat (String.length body))) =
          (mkFrameCounter true "" (N.of_nat (String.length body)), count_frame c)) as ->.
  { rewrite <-(uint32_put (N.of_nat (String.length body)) "") at 2 by done. rewrite str_app_nil_r. reflexivity. }
  destruct body as [|b rest].
  { exists (count_frame c). split; [done|]. split; [done|]. intros kind. by rewrite N.add_0_r. }
  cbn [count_bytes count_byte left_ firstBody header]. rewrite (proj2 (N.ltb_lt 0 _)) by (cbn; lia).
  rewrite (count_body (String.length rest) rest) by (cbn; lia).
  exists (count_type (byte_value b) (count_frame c)). split; [|split; [done|]].
  - assert (str_drop (String.length rest) rest = "") as ->.
    { rewrite <-(str_app_nil_r rest) at 2. apply str_drop_app. }
    cbn [count_bytes]. do 2 f_equal. cbn [String.length]. lia.
  - intros kind. unfold type_count at 1, count_type. cbn [requestTypes of_kind].
    destruct (N.eqb_spec (byte_value b) kind) as [->|Hne]; [by rewrite lookup_insert_eq|].
    rewrite lookup_insert_ne by done. unfold type_count, count_frame. cbn. lia.
Qed.
Lemma count_frames_bytes fb c bodies : Forall fits bodies →
  let c' := (count_bytes (mkFrameCounter fb "" 0, c) (String.concat "" (map wire bodies))).2 in
  requests c' = (requests c + N.of_nat (length bodies))%N ∧
  ∀ kind, type_count c' kind = (type_count c kind + N.of_nat (length (List.filter (of_kind kind) bodies)))%N.
Proof.
  revert fb c. induction bodies as [|body bodies IH]; intros fb c Hb; cbn zeta.
  { cbn. split; [lia|]. intros. lia. }
  apply Forall_cons in Hb as [Hb Hbs].
  assert (String.concat "" (map wire (body :: bodies)) = wire body +:+ String.concat "" (map wire bodies)) as ->.
  { cbn [map]. destruct bodies; [by rewrite str_app_nil_r|done]. }
  rewrite count_bytes_app. destruct (count_frame_bytes fb c body Hb) as (c' & -> & Hr & Hk).
  destruct (IH (negb (bool_decide (body ≠ ""))) c' Hbs) as [Hrs Hks]. split; [cbn [length]; lia|].
  intros kind. rewrite Hks, Hk. cbn [List.filter]. destruct (of_kind kind body); cbn [length]; lia.
Qed.

(** C19: The suite's agent counts the requests that reach it as they are framed on the
    wire: however a connection's bytes are split into reads, it counts the frames they
    carry, and of each type the frames whose first byte is that type. *)
Theorem frames_counted c reads bodies :
  Forall fits bodies → String.concat "" reads = String.concat "" (map wire bodies) →
  requests (count_connection c reads) = (requests c + N.of_nat (length bodies))%N ∧
  ∀ kind, type_count (count_connection c reads) kind =
    (type_count c kind + N.of_nat (length (List.filter (of_kind kind) bodies)))%N.
Proof. intros Hb E. unfold count_connection. rewrite reads_bytes, E. by apply count_frames_bytes. Qed.

Lemma frames_counted_witness :
  let list := String "011" "" in
  let lock := String "022" "pass" in
  let c := count_connection no_requests
    [str_take 3 (wire list); str_drop 3 (wire list) +:+ str_take 7 (wire lock); str_drop 7 (wire lock) +:+ wire ""] in
  requests c = 3%N ∧ ∀ kind, type_count c kind =
    N.of_nat (length (List.filter (of_kind kind) [list; lock; ""])).
Proof.
  apply (frames_counted no_requests _ [String "011" ""; String "022" "pass"; ""]).
  - by repeat constructor.
  - reflexivity.
Defined.
