(* ===== verification/Suite.v ===== *)
(** [tck/sandbox/sandbox.go]: the runtime conformance suite — the steps a check is made
    of, what taking them does, and the run over the checks — and the names and probes
    that the checks share.

    A check is a tree of the calls it makes, each followed by what the check does with
    the answer; early returns are leaves.  [defer] is explicit: a function of the
    sources is [function], whose deferred calls run when it returns. *)
From stdpp Require Import options.
From S2P Require Import Prelude GoStrings Json Types Config Marshal Surface GoPath Selection Report Adapter Backing.

(** ** Findings *)

(** The detail of a finding is its format and the values formatted. *)
Inductive detail :=
  | Msg (format : string) (args : list arg)
with arg :=
  | Astr (s : string)
  | Astrs (l : list string)
  | Anum (z : Z)
  | Abool (b : bool)
  | Aerr (e : adapter_error)
  | Aerrs (cause : string)
  | Aopt (e : option adapter_error)
  | Adetail (d : detail)
  | Arecord (r : SelectionRecord)
  | Asource (s : option CapabilitySource)
  | Astate (s : SelectionState).
Notation finding := (Finding detail).
Definition failf (format : string) (args : list arg) : finding := Failf (Msg format args).
Definition warnf (format : string) (args : list arg) : finding := Warnf (Msg format args).
Definition skipf (format : string) (args : list arg) : finding := Skipf (Msg format args).

(** The error of a result, which a message may show where there was none. *)
Definition error_of {E A} (r : result E A) : option E := match r with Ok _ => None | Err e => Some e end.

(** ** Calls *)

(** The backing agent's handle; [public] is its marshalled key. *)
Record backingAgent := mkBackingAgent { socket : string; agent_dir : string; public : string }.

(** What is deferred: nothing, removing a sandbox or a directory, closing an agent. *)
Inductive cleanup :=
  | NoCleanup
  | Removes (id : string)
  | RemovesDir (dir : string)
  | Closes (a : backingAgent).

Inductive act := DoWaitIdle | DoStop | DoStart | DoRecreate.

Inductive call `{SSH} : Type :=
  | Enter
  | Leave
  | Defer (c : cleanup)
  | Clean (c : cleanup)
  | CallCreate (kits : list string) (opts : CreateOptions)
  | CallExec (ctx : context) (id : string) (argv : list string)
  | CallAct (a : act) (id : string)
  | CallStatus (id : string)
  | CallSelection (id : string)
  | CallReject (id : string) (types : list string)
  | CallWithTimeout (timeout : Z)
  | CallSelect (ctx : context) (wait : Z)
  | CallMkdirTemp (parent pattern : string)
  | CallWriteFile (name body : string)
  | CallReadFile (name : string)
  | CallGenerateKey
  | CallServe (socket : string) (key : Signer)
  | CallSign (key : Signer) (data : string)
  | CallRandom (n : nat)
  | CallAgentKeys (a : backingAgent)
  | CallCounters (a : backingAgent)
  | CallSigned (a : backingAgent).

Definition reply `{SSH} (c : call) : Type :=
  match c with
  | Enter | Leave | Defer _ | Clean _ => ()
  | CallCreate _ _ => result adapter_error string
  | CallExec _ _ _ => result adapter_error Result
  | CallAct _ _ | CallReject _ _ => result adapter_error ()
  | CallStatus _ => result adapter_error string
  | CallSelection _ => result adapter_error SelectionState
  | CallWithTimeout _ => context
  | CallSelect _ _ => bool
  | CallMkdirTemp _ _ | CallReadFile _ => result string string
  | CallWriteFile _ _ | CallServe _ _ => result string ()
  | CallGenerateKey => result string Signer
  | CallSign _ _ => result string string
  | CallRandom _ => string
  | CallAgentKeys _ => result string (list string)
  | CallCounters _ => counters
  | CallSigned _ => list string
  end.

Inductive prog `{SSH} (A : Type) : Type :=
  | Ret (x : A)
  | Do (c : call) (k : reply c → prog A).
Arguments Ret {H H0 A} x : rename.
Arguments Do {H H0 A} c k : rename.

Fixpoint pbind `{SSH} {A B} (p : prog A) (f : A → prog B) : prog B :=
  match p with
  | Ret x => f x
  | Do c k => Do c (λ r, pbind (k r) f)
  end.
Definition call_ `{SSH} (c : call) : prog (reply c) := Do c Ret.

Declare Scope prog_scope.
Delimit Scope prog_scope with prog.
Notation "'let!' x ':=' p 'in' k" := (pbind p (λ x, k))
  (at level 200, x pattern, p at level 100, k at level 200, right associativity) : prog_scope.
Notation "'do!' c ';' k" := (Do c (λ _, k)) (at level 200, c at level 100, k at level 200, right associativity) : prog_scope.
Notation "'call!' x ':=' c 'in' k" := (Do c (λ x, k))
  (at level 200, x pattern, c at level 100, k at level 200, right associativity) : prog_scope.
(** [if err != nil { return ... }]. *)
Notation "'ok!' x ':=' r 'else' e '=>' f 'in' k" := (match r with Ok x => k | Err e => Ret f end)
  (at level 200, x pattern, r at level 100, e name, f at level 100, k at level 200, right associativity) : prog_scope.
(** [if f != nil { return []report.Finding{*f} }]. *)
Notation "'some!' x ':=' r 'in' k" := (match r with Ok x => k | Err f => Ret [f] end)
  (at level 200, x pattern, r at level 100, k at level 200, right associativity) : prog_scope.
Open Scope prog_scope.

Section Programs.
Context `{SSH}.

(** A function with deferred calls. *)
Definition function {A} (body : prog A) : prog A :=
  Do Enter (λ _, let! x := body in Do Leave (λ _, Ret x)).

(** ** What the checks read of the environment *)

Record subject := mkSubject {
  Fixtures : string → string;
  Claimed : gset string;
  Secret : string;
}.
Definition claims (e : subject) (capabilityType : string) : bool := bool_decide (capabilityType ∈ Claimed e).

Definition sandboxWith (e : subject) (kits : list string) (opts : CreateOptions) :
    prog (result adapter_error string * cleanup) :=
  call! r := CallCreate (map (Fixtures e) kits) opts in
  match r with
  | Err err => Ret (Err err, NoCleanup)
  | Ok id => Ret (Ok id, Removes id)
  end.
Definition with_args (args : gmap string string) : CreateOptions := mkCreateOptions "" [] args ∅ "" "" "" "".
Definition sandbox (e : subject) (kits : list string) (args : gmap string string) :
    prog (result adapter_error string * cleanup) :=
  sandboxWith e kits (with_args args).

Definition exec (id : string) (argv : list string) : prog (result adapter_error Result) :=
  call_ (CallExec Background id argv).

(** ** Probes *)

Definition failing := failf.

Definition httpAllowed (id method url : string) : prog (option finding) :=
  let! res := exec id ["kit-tck-http-probe"; method; url] in
  match res with
  | Err err => Ret (Some (failing "probe allowed request: %v" [Aerr err]))
  | Ok res =>
      if negb (ExitCode res =? 0)%Z
      then Ret (Some (failing "%s %s matches an http allow rule but was refused: %s"
                        [Astr method; Astr url; Astr (trim_space (Stderr res))]))
      else Ret None
  end.

Definition httpRefused (id method url whenAccepted : string) : prog (list finding) :=
  let! res := exec id ["kit-tck-http-probe"; method; url] in
  ok! res := res else err => [failing "probe refused request: %v" [Aerr err]] in
  if (ExitCode res =? 0)%Z then Ret [failing "%s: %s %s" [Astr whenAccepted; Astr method; Astr url]]
  else if (ExitCode res =? 7)%Z then Ret []
  else Ret [failing "%s %s was not answered with 403; the probe exited %d, so the refusal was neither observed nor conforming: %s"
              [Astr method; Astr url; Anum (ExitCode res); Astr (trim_space (Stderr res))]].

Definition execOutputWithin (ctx : context) (id : string) (argv : list string) : prog (result finding string) :=
  call! res := CallExec ctx id argv in
  Ret (match res with
       | Err err => Err (failf "exec %s: %v" [Astr (join " " argv); Aerr err])
       | Ok res =>
           if negb (ExitCode res =? 0)%Z
           then Err (failf "exec %s: exit %d: %s"
                       [Astr (join " " argv); Anum (ExitCode res); Astr (trim_space (Stderr res))])
           else Ok (Stdout res)
       end).
Definition execOutput : string → list string → prog (result finding string) := execOutputWithin Background.

(** ** Checks *)

Record check := mkCheckOf {
  requirement : string;
  capability : string;
  needs : list string;
  check_run : subject → prog (list finding);
}.
Definition firstUnclaimed (c : check) (e : subject) : option string :=
  if negb (bool_decide (capability c = "")) && negb (claims e (capability c)) then Some (capability c)
  else match List.find (λ n, negb (claims e n)) (needs c) with Some EmptyString => None | found => found end.
End Programs.

(** ** Taking the steps *)

Section Run.
Context `{SSH}.

(** The machine with the history of the adapter, the sandboxes cleanup could not
    remove, and the deferred calls of the functions running. *)
Record suite := mkSuite {
  machine : state;
  leaked : list (string * adapter_error);
  frames : list (list cleanup);
}.
Definition on_machine {A} (m : M A) (s : suite) : A * suite :=
  let '(x, st) := m (machine s) in (x, mkSuite st (leaked s) (frames s)).
Definition on_world {A} (m : World → A * World) : M A := λ '(w, history),
  let '(x, w) := m w in (x, (w, history)).
Definition change (f : World → World) : M () := on_world (λ w, ((), f w)).
Definition read {A} (f : World → A) : M A := on_world (λ w, (f w, w)).

Definition cleanupTimeout : Z := 2 * 60 * 1000000000.

Context (a : Adapter).

(** The cleanup of a sandbox outlives the check's context, within its own timeout. *)
Definition clean (c : cleanup) (s : suite) : suite :=
  match c with
  | NoCleanup => s
  | Removes id =>
      let rmCtx := WithTimeout (now (machine s).1) (WithoutCancel Background) cleanupTimeout in
      let '(r, s) := on_machine (Remove a rmCtx id) s in
      match r with
      | Ok _ => s
      | Err err => mkSuite (machine s) (leaked s ++ [(id, err)]) (frames s)
      end
  | RemovesDir dir => (on_machine (change (RemoveAll dir)) s).2
  | Closes b => (on_machine (change (λ w, RemoveAll (agent_dir b) (close_agent (socket b) w))) s).2
  end.

Definition enter (s : suite) : suite := mkSuite (machine s) (leaked s) ([] :: frames s).
Definition push (c : cleanup) (s : suite) : suite :=
  mkSuite (machine s) (leaked s)
    (match frames s with [] => [[c]] | frame :: outer => (c :: frame) :: outer end).
(** The last deferred call runs first. *)
Definition leave (s : suite) : suite :=
  match frames s with
  | [] => s
  | frame :: outer => foldl (λ s c, clean c s) (mkSuite (machine s) (leaked s) outer) frame
  end.

Definition act_run (x : act) : string → M (result adapter_error ()) :=
  match x with
  | DoWaitIdle => WaitIdle a Background
  | DoStop => Stop a Background
  | DoStart => Start a Background
  | DoRecreate => Recreate a Background
  end.

Definition perform (c : call) : suite → reply c * suite :=
  match c return suite → reply c * suite with
  | Enter => λ s, ((), enter s)
  | Leave => λ s, ((), leave s)
  | Defer c => λ s, ((), push c s)
  | Clean c => λ s, ((), clean c s)
  | CallCreate kits opts => on_machine (Create a Background kits opts)
  | CallExec ctx id argv => on_machine (Exec a ctx id argv)
  | CallAct x id => on_machine (act_run x id)
  | CallStatus id => on_machine (Status a Background id)
  | CallSelection id => on_machine (Selection_ a Background id)
  | CallReject id types => on_machine (RejectCapabilities a Background id types)
  | CallWithTimeout timeout => on_machine (read (λ w, WithTimeout (now w) Background timeout))
  | CallSelect ctx wait => on_machine (on_world (select_done ctx wait))
  | CallMkdirTemp parent pattern => on_machine (on_world (MkdirTemp parent pattern))
  | CallWriteFile name body => on_machine (on_world (WriteFile name body))
  | CallReadFile name => on_machine (read (ReadFile name))
  | CallGenerateKey => on_machine (on_world GenerateKey)
  | CallServe sock key => on_machine (on_world (serve_agent sock key))
  | CallSign key data => on_machine (on_world (Sign key data))
  | CallRandom n => on_machine (on_world (rand_Read n))
  | CallAgentKeys b => on_machine (read (agent_keys (socket b)))
  | CallCounters b => on_machine (read (λ w, count_connections (agent_reads (socket b) w)))
  | CallSigned b => on_machine (read (λ w, map classifySignature (agent_signs (socket b) w)))
  end.

Fixpoint exec_prog {A} (p : prog A) (s : suite) : A * suite :=
  match p with
  | Ret x => (x, s)
  | Do c k => let '(r, s) := perform c s in exec_prog (k r) s
  end.

(** ** Over the checks *)

(** One check of [runChecks]: skipped where its claims are not made, run otherwise. *)
Definition findings_of (e : subject) (c : check) (s : suite) : list finding * suite :=
  match firstUnclaimed c e with
  | Some unclaimed => ([skipf "runtime does not claim %s" [Astr unclaimed]], s)
  | None => exec_prog (check_run c e) s
  end.
Definition unclaimed (e : subject) (c : check) : bool := bool_decide (is_Some (firstUnclaimed c e)).

(** The run ends with the context's error after the check it interrupted. *)
Fixpoint checks_loop (e : subject) (selected : list check) (rep : Report detail) (s : suite) :
    Report detail * option ctx_error * suite :=
  match selected with
  | [] => (rep, None, s)
  | c :: selected =>
      let '(findings, s) := findings_of e c s in
      let rep := Add rep (requirement c) (requirement c) findings in
      if unclaimed e c then checks_loop e selected rep s
      else
        match ctx_Err Background (machine s).1 with
        | Some err => (rep, Some err, s)
        | None => checks_loop e selected rep s
        end
  end.

Definition report_leak (rep : Report detail) (leak : string * adapter_error) : Report detail :=
  Add rep "cleanup" "conformance.md §2.4"
    [failf "a sandbox could not be removed: %s" [Astr leak.1; Aerr leak.2]].
End Run.

(** ** [runChecks] *)

Section RunChecks.
Context `{SSH}.

(** The caller's [Env]: an absent adapter, resolver or claim is [None]. *)
Record Env := mkEnv {
  Env_Adapter : option Adapter;
  Env_Fixtures : option (string → string);
  Env_Claimed : option (gset string);
  Env_Secret : string;
  Env_leaked : list (string * adapter_error);
}.

Inductive suite_error :=
  | NoAdapter
  | NoFixtures
  | NoSentinel (cause : string)
  | NoCapabilities (cause : adapter_error)
  | ContextEnded (cause : ctx_error).

Definition HostSentinelName : string := "KIT_TCK_HOST_SENTINEL".
Definition HostSentinelValue : string := "kit-tck-host-sentinel-must-not-leak".
Definition SecretName : string := "KIT_TCK_BOUND_SECRET".
Definition SecretValue : string := "kit-tck-bound-secret-must-not-reach-the-sandbox".
Definition StagedKitRoot : string := "/usr/share/sandbox/kit".
Definition SkillNameVar : string := "KIT_TCK_SKILL_NAME".
Definition SkillName : string := "kit-tck-marker-skill".
Definition ProfilePath : string := "/home/agent/AGENTS.md".
Definition ContextBody : string := "Conformance fixture context body." +:+ String "010" "".

(** [sentinelHome]: the link, and the directory to remove. *)
Definition sentinelHome (w : World) : result string (string * string) * World :=
  match UserHomeDir with
  | Err err => (Err err, w)
  | Ok real =>
      let '(dir, w) := MkdirTemp "" "kit-tck-*" w in
      match dir with
      | Err err => (Err err, w)
      | Ok dir =>
          let link := Join dir HostSentinelValue in
          let '(r, w) := Symlink real link w in
          match r with
          | Err err => (Err err, RemoveAll dir w)
          | Ok _ => (Ok (link, dir), w)
          end
      end
  end.

Definition marked_environment (secret markedHome : string) : list string :=
  [HostSentinelName +:+ "=" +:+ HostSentinelValue;
   SecretName +:+ "=" +:+ secret;
   SkillNameVar +:+ "=" +:+ SkillName;
   "TERM=" +:+ HostSentinelValue;
   "HOSTNAME=" +:+ HostSentinelValue;
   "OLDPWD=/" +:+ HostSentinelValue;
   "SHLVL=" +:+ HostSentinelValue;
   "_=/" +:+ HostSentinelValue;
   "HOME=" +:+ markedHome;
   "PWD=" +:+ markedHome;
   "PATH=" +:+ Getenv "PATH" +:+ ":" +:+ "/" +:+ HostSentinelValue].

(** The claims, asked for once: an environment that has them keeps them. *)
Definition claimed (a : Adapter) (known : option (gset string)) : M (result adapter_error (gset string)) :=
  match known with
  | Some types => ret (Ok types)
  | None => try (Capabilities a Background) (λ types, ret (Ok (list_to_set types)))
  end.

(** The report, the error beside it, and the environment and machine left: the adapter
    is the caller's again, and the secret, the claims and the leaks stay. *)
Definition runChecks (e : Env) (selected : list check) (st : state) :
    Report detail * option suite_error * Env * state :=
  match Env_Adapter e, Env_Fixtures e with
  | None, _ => (zero_report, Some NoAdapter, e, st)
  | Some _, None => (zero_report, Some NoFixtures, e, st)
  | Some a, Some fixtures =>
      let secret := if bool_decide (Env_Secret e = "") then SecretValue else Env_Secret e in
      let e := mkEnv (Some a) (Some fixtures) (Env_Claimed e) secret (Env_leaked e) in
      let '(home, st) := on_world sentinelHome st in
      match home with
      | Err err => (zero_report, Some (NoSentinel err), e, st)
      | Ok (markedHome, dir) =>
          let marked := mkAdapter (Path a) (Env_ a ++ marked_environment secret markedHome) markedHome in
          let '(types, st) := claimed marked (Env_Claimed e) st in
          match types with
          | Err err => (zero_report, Some (NoCapabilities err), e, (change (RemoveAll dir) st).2)
          | Ok types =>
              let '(rep, err, s) :=
                checks_loop marked (mkSubject fixtures types secret) selected zero_report
                  (mkSuite st (Env_leaked e) []) in
              (foldl report_leak rep (leaked s), option_map ContextEnded err,
               mkEnv (Some a) (Some fixtures) (Some types) secret (leaked s),
               (change (RemoveAll dir) (machine s)).2)
          end
      end
  end.

(** [Requirements]. *)
Definition Requirements (checks : list check) : list string := map requirement checks.

(** [Fixtures]: the resolver of fixture names under a root. *)
Definition FixtureDir : string := "testdata/fixtures".
Definition Fixtures_ (root : string) : string → string :=
  let root := default root (Abs root) in λ name, Join root name.
End RunChecks.

(** ** Names and probes shared by the checks *)

(** ** Capability types *)

Definition capLifecycle : string := "com.docker.sandbox/lifecycle@1".
Definition capNetworkPolicy : string := "com.docker.sandbox/network-policy@1".
Definition capNetworkPolicyV2 : string := "com.docker.sandbox/network-policy@2".
Definition capCredential : string := "com.docker.sandbox/credential@1".
Definition capSbx : string := "com.docker.sandbox/sbx@1".
Definition capAgentContext : string := "com.docker.sandbox/agent-context@1".
Definition capVolume : string := "com.docker.sandbox/volume@1".
Definition capResources : string := "com.docker.sandbox/resources@1".
Definition capPrivileged : string := "com.docker.sandbox/privileged@1".
Definition capAgentSkills : string := "com.docker.sandbox/agent-skills@1".
Definition capAgentSkill : string := CapabilityAgentSkill.
Definition capPort : string := "com.docker.sandbox/port@1".
Definition capUSBDevice : string := "com.docker.sandbox/usb-device@1".
Definition capAgentSessions : string := "com.docker.sandbox/agent-sessions@1".
Definition capKitRegistry : string := "com.docker.sandbox/kit-registry@1".
Definition capSSHAgent : string := "com.docker.sandbox/ssh-agent@1".
Definition capGitIdentity : string := "com.docker.sandbox/git-identity@1".
Definition capLongRunning : string := "com.docker.sandbox/long-running@1".
Definition groupVolume : string := "com.docker.sandbox/volume@1".

(** ** Fixture kits *)

Definition fixtureWorkload : string := "workload".
Definition fixtureSbxWorkload : string := "sbx-workload".
Definition fixtureHooks : string := "hooks".
Definition fixtureFiles : string := "files".
Definition fixtureScopedEgress : string := "scoped-egress".
Definition fixtureCredentialInjectOnly : string := "credential-inject-only".
Definition fixtureCredentialInjectOnlyPlain : string := "credential-inject-only-plain".
Definition fixtureInjectOnlyControl : string := "inject-only-control".
Definition fixtureInjectOnlyControlB : string := "inject-only-control-b".
Definition fixtureCredentialInjectOnlyInstall : string := "credential-inject-only-install".
Definition fixtureScopedEgressV2 : string := "scoped-egress-v2".
Definition fixtureUnknownNeed : string := "unknown-required-capability".
Definition fixtureRestrictedEnv : string := "restricted-env".
Definition fixtureEgress : string := "egress".
Definition fixtureHTTPEgress : string := "http-egress".
Definition fixtureCredential : string := "credential".
Definition fixturePort : string := "port".
Definition fixtureUSBDevice : string := "usb-device".
Definition fixtureAgentSessions : string := "agent-sessions".
Definition fixtureKitRegistry : string := "kit-registry".
Definition fixtureContext : string := "context".
Definition fixtureVolume : string := "volume".
Definition fixtureResources : string := "resources".
Definition fixturePrivileged : string := "privileged".
Definition fixtureSkills : string := "skills".
Definition fixtureSkillsRW : string := "skills-writable".
Definition fixtureSkillsShared : string := "skills-shared".
Definition fixtureSkillsOptional : string := "skills-optional".
Definition fixtureBundledSkill : string := "bundled-skill".
Definition fixtureBundledOptional : string := "bundled-optional".
Definition fixtureBundledReader : string := "bundled-reader".
Definition fixtureBundledExisting : string := "bundled-existing".
Definition fixtureGitIdentity : string := "git-identity".
Definition fixtureGitIdentityOptional : string := "git-identity-optional".
Definition fixtureGitIdentityHooks : string := "git-identity-hooks".
Definition fixtureLongRunning : string := "long-running".
Definition fixtureLongRunningWorkload : string := "long-running-workload".
Definition fixtureSSHAgent : string := "ssh-agent".
Definition fixtureSSHAgentOptional : string := "ssh-agent-optional".
Definition fixtureSSHAgentInstall : string := "ssh-agent-install".
Definition fixtureSSHAgentBounded : string := "ssh-agent-bounded".

Definition skillsComposition : list string := [fixtureWorkload; fixtureSkills; fixtureSkillsRW].
Definition skillsReadOnlyPath : string := "/home/agent/.kit-tck/skills".
Definition skillsWritablePath : string := "/home/agent/.kit-tck/skills-rw".

(** ** Options of a create *)

Definition with_reject (types : list string) : CreateOptions := mkCreateOptions "" types ∅ ∅ "" "" "" "".
Definition with_identity (config : string) : CreateOptions := mkCreateOptions config [] ∅ ∅ "" "" "" "".
Definition with_host_mode (mode : string) : CreateOptions := mkCreateOptions "" [] ∅ ∅ mode "" "" "".
Definition with_host_store (store : string) : CreateOptions := mkCreateOptions "" [] ∅ ∅ "" store "" "".
Definition with_ssh (agent known : string) : CreateOptions := mkCreateOptions "" [] ∅ ∅ "" "" agent known.

(** ** Reading what a probe printed *)

Definition lines (s : string) : list string := split (byte 10) s.

(** [env] output as a map, the last line of a name its value. *)
Definition env_line (vars : gmap string string) (line : string) : gmap string string :=
  let '(name, value, ok) := cut "=" line in
  if ok && negb (bool_decide (name = "")) then <[name := value]> vars else vars.
Definition envVars (environ : string) : gmap string string := foldl env_line ∅ (lines environ).

(** An entry of a listing, whole. *)
Definition listsExactly (listing name : string) : bool :=
  existsb (λ line, bool_decide (trim_space line = name)) (lines listing).

(** The order a [range] over a map happens to take. *)
Class MapOrder := {
  map_range : gmap string string → list (string * string);
  map_range_perm m : map_range m ≡ₚ map_to_list m;
}.

(** [json.Marshal] of a surface, whose fields it leaves out where they are empty. *)
Definition encode_surface (s : Surface) : value := VMap
  (omit_strings "networkInstallAllow" (NetworkInstallAllow s) ++
   omit_strings "networkInstallDeny" (NetworkInstallDeny s) ++
   omit_strings "networkRuntimeAllow" (NetworkRuntimeAllow s) ++
   omit_strings "networkRuntimeDeny" (NetworkRuntimeDeny s) ++
   omit_strings "networkInstallHTTPAllow" (NetworkInstallHTTPAllow s) ++
   omit_strings "networkInstallHTTPDeny" (NetworkInstallHTTPDeny s) ++
   omit_strings "networkRuntimeHTTPAllow" (NetworkRuntimeHTTPAllow s) ++
   omit_strings "networkRuntimeHTTPDeny" (NetworkRuntimeHTTPDeny s) ++
   omit_strings "credentialsInstall" (CredentialsInstall s) ++
   omit_strings "credentialsRuntime" (CredentialsRuntime s) ++
   omit_strings "sshAgent" (SSHAgentGrants s) ++
   omit_strings "storagePaths" (StoragePaths s) ++
   omit_strings "skillsPaths" (SkillsPaths s) ++
   omit_strings "skillsWritePaths" (SkillsWritePaths s) ++
   omit_strings "ports" (Ports s) ++
   omit_strings "usb" (USB s) ++
   omit_bool "privileged" (Privileged s) ++
   omit_strings "services" (Services s)).
Definition surface_json (s : Surface) : string := marshal (encode_surface s).

(** ** Steps several checks take *)

Section Probes.
Context `{SSH}.

Definition run_act (x : act) (id : string) : prog (result adapter_error ()) := call_ (CallAct x id).

(** A loop over cases that returns with the first findings. *)
Fixpoint first_findings {A} (f : A → prog (list finding)) (l : list A) : prog (list finding) :=
  match l with
  | [] => Ret []
  | x :: l =>
      let! found := f x in
      match found with [] => first_findings f l | _ => Ret found end
  end.
(** A loop over cases that gathers their findings. *)
Fixpoint all_findings {A} (f : A → prog (list finding)) (l : list A) : prog (list finding) :=
  match l with
  | [] => Ret []
  | x :: l =>
      let! found := f x in
      let! rest := all_findings f l in
      Ret (found ++ rest)
  end.

(** Why a path is not the host's shared skills store. *)
Definition storeMountedAt (id path : string) : prog (list finding) :=
  let! listing := execOutput id ["ls"; path] in
  match listing with
  | Err f => Ret [failf "the kit declared skills at %s and the runtime did not mount it: %s"
                    [Astr path; Adetail (Report.Detail f)]]
  | Ok listing =>
      if listsExactly listing SkillName then Ret []
      else Ret [failf "%s is mounted but does not hold %s, so it is not the shared store" [Astr path; Astr SkillName]]
  end.

(** The wait for a record a fixture's entrypoint renames into place: until [accept]
    takes it, or the context is over.  [None] is the fuel's end; the waits the
    code's own five seconds admit are fewer ([SuiteFacts]). *)
Fixpoint poll_record (fuel : nat) (ctx : context) (id path : string) (accept : string → option finding) :
    prog (option (result finding string)) :=
  match fuel with
  | O => Ret None
  | S fuel =>
      let! record := execOutputWithin ctx id ["cat"; path] in
      match (match record with
             | Ok value => match accept value with None => Ok value | Some f => Err f end
             | Err f => Err f
             end) with
      | Ok value => Ret (Some (Ok value))
      | Err f =>
          call! done := CallSelect ctx 50000000 in
          if done then Ret (Some (Err f)) else poll_record fuel ctx id path accept
      end
  end.
Definition poll_timeout : Z := 5 * 1000000000.
Definition poll_fuel : nat := 102.
Definition poll_file (id path : string) (accept : string → option finding) (gave_up : finding → finding) :
    prog (result finding string) :=
  call! ctx := CallWithTimeout poll_timeout in
  let! polled := poll_record poll_fuel ctx id path accept in
  Ret (match polled with
       | Some (Ok value) => Ok value
       | Some (Err f) => Err (gave_up f)
       | None => Err (failf "" [])
       end).
End Probes.
