(* ===== verification/SuiteGroups.v ===== *)
(** [tck/sandbox/groups.go]: the checks of capability groups. *)
From stdpp Require Import options.
From S2P Require Import Prelude GoStrings Json Types Config Marshal Surface GoPath Selection Report Adapter Backing Suite.

Section Groups.
Context `{SSH}.
Implicit Types (e : subject) (record r : SelectionRecord).

Definition kit_of r : string := match Record_Source r with Some s => Source_Kit s | None => "" end.
Definition source_path r : string := match Record_Source r with Some s => Source_Path s | None => "" end.
Definition sourced r : bool := bool_decide (is_Some (Record_Source r)).

(** The last record that is the one looked for decides; [false] where there is none. *)
Definition last_record (is_it judge : SelectionRecord → bool) (records : list SelectionRecord) : bool :=
  foldl (λ found r, if is_it r then judge r else found) false records.

(** [!errors.As(err, &refused) || !strings.Contains(refused.Detail, ...)]. *)
Definition refused_naming (r : result adapter_error string) (names : list string) : bool :=
  match r with
  | Err err =>
      match Adapter.refusal err with
      | Some d => forallb (λ name, contains name d) names
      | None => false
      end
  | Ok _ => false
  end.

Definition empty_surface : string := "{}".

(** ** Ordinary requests *)

Definition ordinarySelection_case e (reject : bool) : prog (list finding) :=
  let opts := if reject then with_reject [capLifecycle] else no_options in
  let! (created, cleanup) := sandboxWith e [fixtureWorkload; "ordinary-optional"] opts in
  do! Defer cleanup;
  ok! id := created else err => [failf "ordinary optional create: %v" [Aerr err]] in
  let! file := exec id ["cat"; "/var/tmp/ordinary-feature"] in
  if match file with Err _ => true | Ok f => eqb (ExitCode f =? 0)%Z reject end
  then Ret [failf "ordinary optional lifecycle file presence is wrong: %v" [Aopt (error_of file)]]
  else
    call! st := CallSelection id in
    ok! st := st else err => [failf "ordinary selection records: %v" [Aerr err]] in
    let records := if reject then Skipped (State_Selection st) else Selected (State_Selection st) in
    let found := last_record
      (λ r, bool_decide (Record_Path r = "capabilities[0]") && sourced r && contains "ordinary-optional" (kit_of r))
      (λ r, bool_decide (source_path r = "capabilities[0]") && bool_decide (Members r = ["capabilities[0]"]) &&
            (if reject then bool_decide (Rejected r = ["capabilities[0]"]) else bool_decide (Rejected r = [])))
      records in
    if negb found then Ret [failf "ordinary optional selection/skip record missing or incomplete" []]
    else Ret [].
Definition ordinarySelection e : prog (list finding) := function (
  let! found := first_findings (ordinarySelection_case e) [false; true] in
  match found with
  | [] =>
      let! (created, cleanup) := sandboxWith e [fixtureWorkload; "ordinary-required"] (with_reject [capLifecycle]) in
      do! Defer cleanup;
      if negb (refused_naming created ["ordinary-required"; "capabilities[0]"])
      then Ret [failf "required ordinary rejection must refuse and identify its source: %v" [Aopt (error_of created)]]
      else Ret []
  | _ => Ret found
  end).

(** ** Groups kept through publication *)

Definition republished_sources : list CapabilitySource :=
  [mkCapabilitySource "registry.example/feature:1.0.0" "capabilities[0].group.capabilities[0]";
   mkCapabilitySource "registry.example/feature:1.0.0" "capabilities[0].group.capabilities[1]"].
#[export] Instance CapabilitySource_eq_dec : EqDecision CapabilitySource.
Proof. solve_decision. Defined.
Definition group_members : list string :=
  ["capabilities[1].group.capabilities[0]"; "capabilities[1].group.capabilities[1]"].

(** The records of the republished group, the first bad one a finding. *)
Fixpoint republished_records (rejected : list string) (found : bool) (records : list SelectionRecord) : list finding :=
  match records with
  | [] => if found then [] else [failf "republished group record missing" []]
  | r :: records =>
      if negb (bool_decide (Record_Path r = "capabilities[1]")) || negb (sourced r) ||
         negb (bool_decide (kit_of r = "registry.example/feature:1.0.0"))
      then republished_records rejected found records
      else if negb (bool_decide (source_path r = "capabilities[0]")) ||
              negb (bool_decide (MemberSources r = republished_sources)) ||
              negb (bool_decide (Members r = group_members)) || negb (bool_decide (Rejected r = rejected))
      then [failf "republished group lost original member provenance: %+v" [Arecord r]]
      else republished_records rejected true records
  end.
Definition republished_case e (reject : bool) : prog (list finding) :=
  let opts := if reject then with_reject [groupVolume] else no_options in
  let! (created, cleanup) := sandboxWith e [fixtureWorkload; "groups-republished"] opts in
  do! Defer cleanup;
  ok! id := created else err => [failf "republished group create: %v" [Aerr err]] in
  call! st := CallSelection id in
  ok! st := st else err => [failf "republished group selection: %v" [Aerr err]] in
  let records := if reject then Skipped (State_Selection st) else Selected (State_Selection st) in
  let rejected := if reject then ["capabilities[1].group.capabilities[0]"] else [] in
  Ret (republished_records rejected false records).
Definition republishedGroupSelection e : prog (list finding) :=
  function (first_findings (republished_case e) [false; true]).

(** ** A group a lifecycle entry is rejected from *)

Definition groupedLifecycleRejection e : prog (list finding) := function (
  let! (created, cleanup) := sandboxWith e [fixtureWorkload; "groups-partial"] (with_reject [capLifecycle]) in
  do! Defer cleanup;
  ok! id := created else err => [failf "optional grouped lifecycle rejection: %v" [Aerr err]] in
  call! st := CallSelection id in
  ok! st := st else err => [failf "grouped lifecycle selection records: %v" [Aerr err]] in
  let found := last_record
    (λ r, bool_decide (Record_Path r = "capabilities[0]") && sourced r && contains "groups-partial" (kit_of r))
    (λ r, bool_decide (Rejected r = ["capabilities[0].group.capabilities[1]"])) (Skipped (State_Selection st)) in
  if negb found || negb (bool_decide (surface_json (State_Surface st) = empty_surface))
  then Ret [failf "grouped lifecycle rejection lost skip attribution or leaked grants: %+v" [Astate st]]
  else
    let! file := exec id ["cat"; "/var/tmp/group-feature"] in
    if match file with Err _ => true | Ok f => (ExitCode f =? 0)%Z end
    then Ret [failf "grouped lifecycle rejection applied a skipped file: %v" [Aopt (error_of file)]]
    else Ret []).

(** ** Selection of whole groups *)

(** The records of the group, in the loop's order: a bad one is a finding; the kit of
    the last good one and whether there was one otherwise. *)
Fixpoint group_records e (reject : bool) (acc : bool * string) (records : list SelectionRecord) :
    result finding (bool * string) :=
  match records with
  | [] => Ok acc
  | r :: records =>
      if negb (bool_decide (Record_Path r = "capabilities[1]")) then group_records e reject acc records
      else if negb (bool_decide (Members r = group_members))
      then Err (failf "group record lost ordered member locations: got %v, want %v" [Astrs (Members r); Astrs group_members])
      else if negb (sourced r) || negb (bool_decide (source_path r = "capabilities[1]")) ||
              (negb (bool_decide (kit_of r = "groups")) && negb (bool_decide (kit_of r = Fixtures e "groups")))
      then Err (failf "group record has incorrect source identity: %v" [Asource (Record_Source r)])
      else
        let rejected := if reject then ["capabilities[1].group.capabilities[0]"] else [] in
        if negb (bool_decide (Rejected r = rejected))
        then Err (failf "incorrect rejected members: got %v, want %v" [Astrs (Rejected r); Astrs rejected])
        else group_records e reject (true, kit_of r) records
  end.
Definition required_record (sourceKit : string) (st : SelectionState) (expected : string * string) : bool :=
  let '(path, member) := expected in
  last_record
    (λ r, bool_decide (Record_Path r = path) && sourced r && bool_decide (kit_of r = sourceKit))
    (λ r, bool_decide (source_path r = path) && bool_decide (Members r = [member]) && bool_decide (Rejected r = []))
    (Selected (State_Selection st)).
Definition required_records : list (string * string) :=
  [("capabilities[0]", "capabilities[0]"); ("capabilities[2]", "capabilities[2].group.capabilities[0]")].

Definition groups_surface (reject : bool) : Surface :=
  if reject then zero_surface
  else mkSurface [] [] [] [] [] [] [] [] [] [] [] ["/var/tmp/group-volume"] [] [] [] [] false [].

(** What is read of a sandbox whose groups were selected or rejected. *)
Definition group_observed e (reject : bool) (id : string) : prog (list finding) :=
  let! order := execOutput id ["cat"; "/var/tmp/group-order"] in
  some! order := order in
  let want := if reject then "base,independent" else "base,feature,independent" in
  if negb (bool_decide (trim_space order = want))
  then Ret [failf "group hook order: got %q, want %q" [Astr order; Astr want]]
  else
    let! file := exec id ["cat"; "/var/tmp/group-feature"] in
    ok! file := file else err => [failf "read group file: %v" [Aerr err]] in
    if eqb (ExitCode file =? 0)%Z reject then Ret [failf "selected/skipped group file presence is wrong" []]
    else
      call! st := CallSelection id in
      ok! st := st else err => [failf "selection records: %v" [Aerr err]] in
      let actual := surface_json (State_Surface st) in
      let expected := surface_json (groups_surface reject) in
      if negb (bool_decide (actual = expected))
      then Ret [failf "selected permission surface: got %s, want %s" [Astr actual; Astr expected]]
      else
        let records := if reject then Skipped (State_Selection st) else Selected (State_Selection st) in
        Ret (match group_records e reject (false, "") records with
             | Err f => [f]
             | Ok (false, _) => [failf "group selection record missing" []]
             | Ok (true, sourceKit) =>
                 match List.find (λ x, negb (required_record sourceKit st x)) required_records with
                 | Some (path, _) => [failf "required selection record %s missing or incomplete" [Astr path]]
                 | None => []
                 end
             end).
Definition group_case e (reject : bool) : prog (list finding) :=
  let opts := if reject then with_reject [groupVolume] else no_options in
  let! (created, cleanup) := sandboxWith e [fixtureWorkload; "groups"] opts in
  match created with
  | Err err => do! Clean cleanup; Ret [failf "group create: %v" [Aerr err]]
  | Ok id => do! Defer cleanup; group_observed e reject id
  end.
Definition required_group_case e (case : nat * string) : prog (list finding) :=
  let '(i, rejected) := case in
  let! (created, cleanup) := sandboxWith e [fixtureWorkload; "groups-required"] (with_reject [rejected]) in
  do! Clean cleanup;
  let path := "capabilities[0].group.capabilities[" +:+ pretty i +:+ "]" in
  if negb (refused_naming created ["groups-required"; path])
  then Ret [failf "required group must refuse and identify rejected member %s: %v" [Astr path; Aopt (error_of created)]]
  else Ret [].
Definition groupSelection e : prog (list finding) := function (
  let! found := first_findings (group_case e) [false; true] in
  match found with
  | [] => first_findings id
      [first_findings (required_group_case e) [(0, groupVolume); (1, capLifecycle)];
       groupedLifecycleRejection e; ordinarySelection e; republishedGroupSelection e]
  | _ => Ret found
  end).

(** ** A runtime that claims one member's type and not the other's *)

Definition partial_group e (lifecycle : bool) : prog (list finding) :=
  let rejectedMember := if lifecycle then "capabilities[0].group.capabilities[0]"
                        else "capabilities[0].group.capabilities[1]" in
  let! (required, requiredCleanup) := sandbox e [fixtureWorkload; "groups-required"] ∅ in
  do! Clean requiredCleanup;
  if negb (refused_naming required ["groups-required"; rejectedMember])
  then Ret [failf "partially supported required group must refuse and identify %s: %v"
              [Astr rejectedMember; Aopt (error_of required)]]
  else
    let! (created, cleanup) := sandbox e [fixtureWorkload; "groups-partial"] ∅ in
    do! Defer cleanup;
    ok! id := created else err => [failf "partial group create: %v" [Aerr err]] in
    call! st := CallSelection id in
    ok! st := st else err => [failf "partial group selection: %v" [Aerr err]] in
    let surface := surface_json (State_Surface st) in
    if negb (bool_decide (surface = empty_surface))
    then Ret [failf "partial group leaked grants: %s (%v)" [Astr surface; Aopt None]]
    else
      let found := last_record
        (λ r, sourced r && contains "groups-partial" (kit_of r) && bool_decide (Record_Path r = "capabilities[0]"))
        (λ r, bool_decide (Rejected r = [rejectedMember]) &&
              bool_decide (Members r = ["capabilities[0].group.capabilities[0]"; "capabilities[0].group.capabilities[1]"]))
        (Skipped (State_Selection st)) in
      if negb found then Ret [failf "partial group rejection record missing or incorrect" []]
      else
        let! file := exec id ["cat"; "/var/tmp/group-feature"] in
        if match file with Err _ => true | Ok f => (ExitCode f =? 0)%Z end
        then Ret [failf "partial group applied a skipped lifecycle file: %v" [Aopt (error_of file)]]
        else Ret [].
Definition atomicSelection e : prog (list finding) := function (
  let lifecycle := claims e capLifecycle in
  let volume := claims e groupVolume in
  if lifecycle && volume then groupSelection e
  else if negb lifecycle && negb volume
  then Ret [skipf "runtime claims neither lifecycle nor volume" []]
  else
    let! found := (if lifecycle then ordinarySelection e else Ret []) in
    match found with [] => partial_group e lifecycle | _ => Ret found end).

(** ** Conflicts, lifetime and execution *)

Definition groupConflicts_case e (fixture : string) : prog (list finding) :=
  let! (created, cleanup) := sandbox e [fixtureWorkload; fixture] ∅ in
  do! Clean cleanup;
  match created with
  | Err (RefusedError d) =>
      if negb (contains fixture d) || negb (contains "capabilities[0]" d) || negb (contains "capabilities[1]" d)
      then Ret [failf "%s: composition conflict must identify both sources: %s" [Astr fixture; Astr d]]
      else Ret []
  | _ => Ret [failf "%s: selected conflicting groups must refuse: %v" [Astr fixture; Aopt (error_of created)]]
  end.
Definition groupConflicts e : prog (list finding) :=
  first_findings (groupConflicts_case e) ["groups-conflict"; "groups-interactive-conflict"].

(** [reflect.DeepEqual] of two states.  It tells nil slices and maps from empty ones,
    which a decoded state does not, so it is a variable. *)
Context (DeepEqual : SelectionState → SelectionState → bool).

(** What a recreated sandbox shows of its fresh selection. *)
Definition fresh_selection (initiallyRejected : bool) (id freshOrder : string) : prog (list finding) :=
  call! fresh := CallSelection id in
  match fresh with
  | Err err => Ret [failf "recreate did not select afresh: %v" [Aerr err]]
  | Ok fresh =>
      if negb (eqb (bool_decide ("/var/tmp/group-volume" ∈ StoragePaths (State_Surface fresh))) initiallyRejected)
      then Ret [failf "recreate did not select afresh: %v" [Aopt None]]
      else
        let skipped := Skipped (State_Selection fresh) in
        let selected := Selected (State_Selection fresh) in
        let '(expected, unexpected) := if initiallyRejected then (selected, skipped) else (skipped, selected) in
        let wantRejected := if initiallyRejected then [] else ["capabilities[1].group.capabilities[0]"] in
        let is_group := λ r, bool_decide (Record_Path r = "capabilities[1]") in
        if existsb is_group unexpected then Ret [failf "recreate retained the previous group decision" []]
        else if negb (last_record is_group (λ r, bool_decide (Rejected r = wantRejected)) expected)
        then Ret [failf "recreate did not record the fresh group decision" []]
        else
          let! order := execOutput id ["cat"; "/var/tmp/group-order"] in
          some! order := order in
          if negb (bool_decide (trim_space order = freshOrder))
          then Ret [failf "recreate applied stale group hooks: %q" [Astr order]]
          else Ret []
  end.
Definition groupLifetimeFrom e (initiallyRejected : bool) : prog (list finding) := function (
  let opts := if initiallyRejected then with_reject [groupVolume] else no_options in
  let futureRejections := if initiallyRejected then [] else [groupVolume] in
  let '(initialOrder, freshOrder) :=
    if initiallyRejected then ("base,independent", "base,feature,independent")
    else ("base,feature,independent", "base,independent") in
  let! (created, cleanup) := sandboxWith e [fixtureWorkload; "groups"] opts in
  do! Defer cleanup;
  ok! id := created else err => [failf "create: %v" [Aerr err]] in
  call! before := CallSelection id in
  ok! before := before else err => [failf "selection: %v" [Aerr err]] in
  call! changed := CallReject id futureRejections in
  ok! _ := changed else err => [failf "change future selection: %v" [Aerr err]] in
  let! stopped := run_act DoStop id in
  ok! _ := stopped else err => [failf "stop: %v" [Aerr err]] in
  let! started := run_act DoStart id in
  ok! _ := started else err => [failf "start: %v" [Aerr err]] in
  call! after := CallSelection id in
  if match after with Err _ => true | Ok after => negb (DeepEqual before after) end
  then Ret [failf "restart changed retained selection: %v" [Aopt (error_of after)]]
  else
    let! order := execOutput id ["cat"; "/var/tmp/group-order"] in
    some! order := order in
    if negb (bool_decide (trim_space order = initialOrder))
    then Ret [failf "restart did not apply the retained group" []]
    else
      let! recreated := run_act DoRecreate id in
      ok! _ := recreated else err => [failf "recreate: %v" [Aerr err]] in
      fresh_selection initiallyRejected id freshOrder).
Definition groupLifetime e : prog (list finding) := first_findings (groupLifetimeFrom e) [false; true].

Definition groupExecution e : prog (list finding) := function (
  let! (created, cleanup) := sandbox e [fixtureWorkload; "groups-failure"] ∅ in
  do! Defer cleanup;
  match created with
  | Ok _ => Ret [failf "selected hook failure must remain an execution error, not skip/refusal: %v" [Aopt None]]
  | Err err =>
      match Adapter.refusal err with
      | Some _ => Ret [failf "selected hook failure must remain an execution error, not skip/refusal: %v" [Aerr err]]
      | None => Ret []
      end
  end).

(** A path that validation accepts only before expansion. *)
Definition expanded_case e (argument : string) (reject : bool) (path : string) : prog (list finding) :=
  let opts := mkCreateOptions "" (if reject then [capLifecycle] else []) {[argument := path]} ∅ "" "" "" "" in
  let! (created, cleanup) := sandboxWith e [fixtureWorkload; "groups-expanded"] opts in
  do! Clean cleanup;
  if negb (bool_decide (path = "relative")) then
    match created with
    | Err err => Ret [failf "valid expanded group rejected (%s): %v" [Astr argument; Aerr err]]
    | Ok _ => Ret []
    end
  else if negb (refused_naming created ["capabilities[0].group.capabilities[0]"])
  then Ret [failf "invalid expanded group must refuse and identify its member (%s, reject=%t): %v"
              [Astr argument; Abool reject; Aopt (error_of created)]]
  else Ret [].
Definition groupExpandedValidation e : prog (list finding) :=
  first_findings (λ argument,
    first_findings (λ reject,
      first_findings (expanded_case e argument reject) ["/var/tmp/" +:+ argument +:+ "-valid"; "relative"])
    [false; true])
  ["group_path"; "env_group_path"].
End Groups.
