(* ===== verification/SuiteIdentity.v ===== *)
(** The checks of [tck/sandbox/git_identity.go], and those of [agent_skill.go]: bundled
    skills, and the shared store where the host has none. *)
From stdpp Require Import options.
From S2P Require Import Prelude GoStrings Json Types Config Marshal Surface GoPath Selection Report Adapter Backing Suite SuiteGroups.

Definition dquote : string := String "034" "".
Definition gitIdentityName : string := "Kit TCK " +:+ dquote +:+ "Author" +:+ dquote +:+ "; $(false)".
Definition gitIdentityEmail : string := "kit-tck-author@example.invalid".
Definition gitIdentityProbe : string := "kit-tck-git-identity".

(** Git's quoted syntax: backslashes and quotes escaped. *)
Fixpoint escape_config (value : string) : string :=
  match value with
  | EmptyString => ""
  | String c value =>
      (if bool_decide (c = "\"%char) then "\\"
       else if bool_decide (c = "034"%char) then "\" +:+ dquote
       else String c "") +:+ escape_config value
  end.
Definition quote_config (value : string) : string := dquote +:+ escape_config value +:+ dquote.

Definition nl : string := String "010" "".
Definition gitIdentityConfig (name email : string) : string :=
  "[user]" +:+ nl +:+ " name = " +:+ quote_config name +:+ nl +:+ " email = " +:+ quote_config email +:+ nl +:+
  join nl [" signingKey = kit-tck-source-signing-key"; "[alias]"; " kit-tck-source = !false";
           "[credential]"; " helper = kit-tck-source-helper"; "[http]";
           " extraHeader = X-Kit-TCK: source-only"; "[core]"; " hooksPath = /kit-tck-source-hooks";
           "[include]"; " path = /kit-tck-source-include";
           "[filter " +:+ dquote +:+ "kit-tck-source" +:+ dquote +:+ "]";
           " clean = kit-tck-source-filter"; "[gpg]"; " program = kit-tck-source-signing-program"; ""].

(** The lines both probes of an identity print. *)
Definition identity_lines (name email : string) : string := name +:+ nl +:+ email +:+ nl.
Definition known_identity : string := identity_lines gitIdentityName gitIdentityEmail.

Section Identity.
Context `{SSH}.
Implicit Types (e : subject) (r : SelectionRecord).

Definition withGitIdentity (run : string → string → prog (list finding)) : prog (list finding) := function (
  call! dir := CallMkdirTemp "" "kit-tck-git-identity-*" in
  ok! dir := dir else err => [failf "prepare runtime identity: %v" [Aerrs err]] in
  do! Defer (RemovesDir dir);
  let file := Join dir "config" in
  let original := gitIdentityConfig gitIdentityName gitIdentityEmail in
  call! written := CallWriteFile file original in
  ok! _ := written else err => [failf "write runtime identity: %v" [Aerrs err]] in
  run file original).

Definition gitIdentityOutput (id mode want : string) : prog (list finding) :=
  let! res := exec id [gitIdentityProbe; mode] in
  ok! res := res else err => [failf "probe %s: %v" [Astr mode; Aerr err]] in
  if negb (ExitCode res =? 0)%Z || negb (bool_decide (Stdout res = want))
  then Ret [failf "probe %s: exit %d, stdout %q, stderr %q; want %q"
              [Astr mode; Anum (ExitCode res); Astr (Stdout res); Astr (Stderr res); Astr want]]
  else Ret [].

(** A loop whose failed create discards what the earlier cases found. *)
Fixpoint identity_defaults e (file : string) (findings : list finding) (fixtures : list string) : prog (list finding) :=
  match fixtures with
  | [] => Ret findings
  | fixture :: fixtures =>
      let! (created, cleanup) := sandboxWith e [fixtureWorkload; fixture] (with_identity file) in
      ok! id := created else err => [failf "create %s: %v" [Astr fixture; Aerr err]] in
      let! defaults := gitIdentityOutput id "defaults" known_identity in
      let! workload := gitIdentityOutput id "workload-identity" known_identity in
      do! Clean cleanup;
      identity_defaults e file (findings ++ defaults ++ workload) fixtures
  end.
Definition gitIdentityDefaults e : prog (list finding) :=
  withGitIdentity (λ file _, identity_defaults e file [] [fixtureGitIdentity; fixtureGitIdentityOptional]).

Definition gitIdentityObservation (mode want : string) (fixtures : list string) e : prog (list finding) :=
  withGitIdentity (λ file _, function (
    let! (created, cleanup) := sandboxWith e (fixtureWorkload :: fixtures) (with_identity file) in
    ok! id := created else err => [failf "create: %v" [Aerr err]] in
    do! Defer cleanup;
    gitIdentityOutput id mode want)).

(** ** What is recorded of an identity that is not available *)

(** A record of the workload's own request, which is the composition's only other. *)
Definition workload_record e r : bool :=
  match Record_Source r with
  | None => false
  | Some s =>
      (bool_decide (Source_Kit s = fixtureWorkload) || bool_decide (Source_Kit s = Fixtures e fixtureWorkload)) &&
      bool_decide (Source_Path s = "capabilities[0]") && bool_decide (Record_Path r = "capabilities[0]") &&
      bool_decide (Members r = ["capabilities[0]"]) && bool_decide (MemberSources r = [s]) &&
      bool_decide (Rejected r = [])
  end.
Definition of_kit e (fixture : string) r : bool :=
  match Record_Source r with
  | None => false
  | Some s => bool_decide (Source_Kit s = fixture) || bool_decide (Source_Kit s = Fixtures e fixture)
  end.
(** A whole record of an entry skipped for itself. *)
Definition skipped_alone r : bool :=
  match Record_Source r with
  | None => false
  | Some s =>
      bool_decide (Source_Path s = "capabilities[0]") && bool_decide (Record_Path r = "capabilities[0]") &&
      bool_decide (Members r = ["capabilities[0]"]) && bool_decide (Rejected r = ["capabilities[0]"]) &&
      bool_decide (MemberSources r = [s])
  end.
Fixpoint identity_selected e (selected : list SelectionRecord) : list finding :=
  match selected with
  | [] => []
  | r :: selected =>
      if of_kit e fixtureGitIdentityOptional r
      then [failf "unavailable optional identity recorded as selected: %+v" [Arecord r]]
      else if negb (workload_record e r) then [failf "unexpected or malformed selected record: %+v" [Arecord r]]
      else identity_selected e selected
  end.
(** How many records of the fixture there are, once each is whole. *)
Fixpoint count_skipped e (fixture : string) (incomplete : SelectionRecord → finding) (found : nat)
    (skipped : list SelectionRecord) : result finding nat :=
  match skipped with
  | [] => Ok found
  | r :: skipped =>
      if negb (of_kit e fixture r) then count_skipped e fixture incomplete found skipped
      else if negb (skipped_alone r) then Err (incomplete r)
      else count_skipped e fixture incomplete (S found) skipped
  end.
Definition identity_skips e (st : SelectionState) : list finding :=
  match identity_selected e (Selected (State_Selection st)) with
  | [] =>
      match count_skipped e fixtureGitIdentityOptional
              (λ r, failf "optional identity skip record incomplete: %+v" [Arecord r]) 0
              (Skipped (State_Selection st)) with
      | Err f => [f]
      | Ok found =>
          if negb (found =? 1)
          then [failf "optional identity skip record: got %d, want 1" [Anum (Z.of_nat found)]] else []
      end
  | fs => fs
  end.
Definition gitIdentitySkipped e (id : string) : prog (list finding) :=
  call! st := CallSelection id in
  ok! st := st else err => [failf "optional identity selection records: %v" [Aerr err]] in
  Ret (identity_skips e st).

Definition unavailable_from e (missing source : string) : prog (list finding) :=
  let opts := with_identity source in
  let! (created, cleanup) := sandboxWith e [fixtureWorkload; fixtureGitIdentity] opts in
  do! Clean cleanup;
  if negb (refused_naming created [])
  then Ret [failf "required identity with %s missing: id=%q err=%v; want refusal"
              [Astr missing; Astr (match created with Ok id => id | Err _ => "" end); Aopt (error_of created)]]
  else
    let! (created, cleanup) := sandboxWith e [fixtureWorkload; fixtureGitIdentityOptional] opts in
    ok! id := created else err => [failf "optional identity with %s missing: %v" [Astr missing; Aerr err]] in
    let! output := gitIdentityOutput id "absent" ("absent" +:+ nl) in
    let! skipped := gitIdentitySkipped e id in
    do! Clean cleanup;
    Ret (output ++ skipped).
Definition unavailable_case e (file missing : string) : prog (list finding) :=
  if bool_decide (missing = "off") then unavailable_from e missing "off"
  else
    let name := if bool_decide (missing = "name") then "" else gitIdentityName in
    let email := if bool_decide (missing = "name") then gitIdentityEmail else "" in
    call! written := CallWriteFile file (gitIdentityConfig name email) in
    ok! _ := written else err => [failf "prepare missing %s: %v" [Astr missing; Aerrs err]] in
    unavailable_from e missing file.
Definition gitIdentityUnavailable e : prog (list finding) :=
  withGitIdentity (λ file _, first_findings (unavailable_case e file) ["off"; "name"; "email"]).

(** ** Hooks, persistence and the source *)

(** A finding's detail under the operation that showed it. *)
Definition under (operation : string) (f : finding) : finding :=
  mkFinding (Finding_Check f) (Finding_Requirement f) (Finding_Severity f)
    (Msg "%s: %s" [Astr operation; Adetail (Report.Detail f)]).
Definition restart (id : string) : prog (result adapter_error ()) :=
  let! stopped := run_act DoStop id in
  match stopped with Err err => Ret (Err err) | Ok _ => run_act DoStart id end.
Definition hooks_case (id : string) (operation : string * (string → prog (result adapter_error ()))) :
    prog (list finding) :=
  let '(name, op) := operation in
  let! cleared := gitIdentityOutput id "clear-hooks" "" in
  match cleared with
  | [] =>
      let! done := op id in
      ok! _ := done else err => [failf "%s: %v" [Astr name; Aerr err]] in
      let! findings := gitIdentityOutput id "startup-hook" known_identity in
      Ret (map (under name) findings)
  | _ => Ret cleared
  end.
Definition gitIdentityBeforeHooks e : prog (list finding) :=
  withGitIdentity (λ file _, function (
    let! (created, cleanup) :=
      sandboxWith e [fixtureWorkload; fixtureGitIdentity; fixtureGitIdentityHooks] (with_identity file) in
    ok! id := created else err => [failf "create: %v" [Aerr err]] in
    do! Defer cleanup;
    let! hooks := gitIdentityOutput id "hooks" (known_identity +:+ known_identity) in
    match hooks with
    | [] =>
        call! written := CallWriteFile file (gitIdentityConfig "Changed Identity" "changed@example.invalid") in
        ok! _ := written else err => [failf "change runtime identity: %v" [Aerrs err]] in
        first_findings (hooks_case id) [("restart", restart); ("recreate", run_act DoRecreate)]
    | _ => Ret hooks
    end)).

Definition persistence_case (id : string) (operation : string * act) : prog (list finding) :=
  let '(name, op) := operation in
  let! cleared := (if negb (bool_decide (name = "start")) then gitIdentityOutput id "clear-workload" "" else Ret []) in
  match cleared with
  | [] =>
      let! done := run_act op id in
      ok! _ := done else err => [failf "%s: %v" [Astr name; Aerr err]] in
      if negb (bool_decide (name = "stop"))
      then first_findings (λ mode, gitIdentityOutput id mode known_identity) ["defaults"; "workload-identity"]
      else Ret []
  | _ => Ret cleared
  end.
Definition gitIdentityPersistence e : prog (list finding) :=
  withGitIdentity (λ file _, function (
    let! (created, cleanup) := sandboxWith e [fixtureWorkload; fixtureGitIdentity] (with_identity file) in
    ok! id := created else err => [failf "create: %v" [Aerr err]] in
    do! Defer cleanup;
    call! written := CallWriteFile file (gitIdentityConfig "Changed Identity" "changed@example.invalid") in
    ok! _ := written else err => [failf "change runtime identity: %v" [Aerrs err]] in
    let! (created, removeFresh) := sandboxWith e [fixtureWorkload; fixtureGitIdentity] (with_identity file) in
    ok! fresh := created else err => [failf "create with changed binding: %v" [Aerr err]] in
    do! Defer removeFresh;
    let! changed := gitIdentityOutput fresh "defaults" (identity_lines "Changed Identity" "changed@example.invalid") in
    match changed with
    | [] => first_findings (persistence_case id) [("stop", DoStop); ("start", DoStart); ("recreate", DoRecreate)]
    | _ => Ret changed
    end)).

Definition gitIdentitySourceUnchanged e : prog (list finding) :=
  withGitIdentity (λ file original, function (
    let! (created, cleanup) := sandboxWith e [fixtureWorkload; fixtureGitIdentity] (with_identity file) in
    ok! id := created else err => [failf "create: %v" [Aerr err]] in
    do! Defer cleanup;
    let! defaults := gitIdentityOutput id "defaults" known_identity in
    let! edit := gitIdentityOutput id "edit" ("attempted" +:+ nl) in
    call! raw := CallReadFile file in
    Ret (defaults ++ edit ++
         match raw with
         | Err err => [failf "read identity source after guest edit: %v" [Aerrs err]]
         | Ok raw =>
             if negb (bool_decide (raw = original))
             then [failf "identity source changed after guest edit: got %q, want %q" [Astr raw; Astr original]]
             else []
         end))).

Definition gitIdentityChecks : list check :=
  [mkCheckOf "git-identity@1/global-defaults" capGitIdentity [] gitIdentityDefaults;
   mkCheckOf "git-identity@1/before-hooks" capGitIdentity [capLifecycle] gitIdentityBeforeHooks;
   mkCheckOf "git-identity@1/local-precedence" capGitIdentity []
     (gitIdentityObservation "local" ("local" +:+ nl) [fixtureGitIdentity]);
   mkCheckOf "git-identity@1/identity-only" capGitIdentity []
     (gitIdentityObservation "only" ("only" +:+ nl) [fixtureGitIdentity]);
   mkCheckOf "git-identity@1/source-unchanged" capGitIdentity [] gitIdentitySourceUnchanged;
   mkCheckOf "git-identity@1/pinned-selection" capGitIdentity [] gitIdentityPersistence;
   mkCheckOf "git-identity@1/absent-without-grant" capGitIdentity []
     (gitIdentityObservation "absent" ("absent" +:+ nl) []);
   mkCheckOf "git-identity@1/unavailable-refuses-required" capGitIdentity [] gitIdentityUnavailable].
End Identity.

(** ** Bundled skills ([agent_skill.go]) *)

Section Skills.
Context `{SSH}.
Implicit Types (e : subject) (r : SelectionRecord).

Definition bundledProbe (id mode want : string) : prog (list finding) :=
  let! res := exec id ["kit-tck-bundled"; mode] in
  ok! res := res else err => [failf "%s: %v" [Astr mode; Aerr err]] in
  if negb (ExitCode res =? 0)%Z || negb (bool_decide (Stdout res = want))
  then Ret [failf "%s: exit %d, stdout %q, stderr %q; want %q"
              [Astr mode; Anum (ExitCode res); Astr (Stdout res); Astr (Stderr res); Astr want]]
  else Ret [].

Definition ready : string := "ready" +:+ nl.
Definition bundledObservation (mode want : string) (shared : bool) e : prog (list finding) := function (
  let! (created, cleanup) := sandboxWith e [fixtureBundledReader; fixtureBundledSkill]
    (with_host_mode (if shared then "readonly" else "off")) in
  ok! id := created else err => [failf "create: %v" [Aerr err]] in
  do! Defer cleanup;
  let! findings := bundledProbe id mode want in
  let! mounts := (if shared then all_findings (storeMountedAt id) [skillsReadOnlyPath; skillsWritablePath] else Ret []) in
  Ret (findings ++ mounts)).

(** The records of a skipped skill: each whole, and one of them. *)
Definition skill_skips e (st : SelectionState) : list finding :=
  if existsb (of_kit e fixtureBundledOptional) (Selected (State_Selection st))
  then [failf "unavailable skill recorded as selected" []]
  else
    match count_skipped e fixtureBundledOptional
            (λ r, failf "incomplete skipped skill record: %+v" [Arecord r]) 0 (Skipped (State_Selection st)) with
    | Err f => [f]
    | Ok found =>
        if negb (found =? 1) then [failf "got %d skipped skill records, want one" [Anum (Z.of_nat found)]] else []
    end.
Definition bundledUnavailable e : prog (list finding) := function (
  let! (created, cleanup) := sandbox e [fixtureWorkload; fixtureBundledSkill] ∅ in
  do! Clean cleanup;
  if negb (refused_naming created [])
  then Ret [failf "required skill without a discovery directory: id=%q err=%v; want refusal"
              [Astr (match created with Ok id => id | Err _ => "" end); Aopt (error_of created)]]
  else
    let! (created, cleanup) := sandbox e [fixtureWorkload; fixtureBundledOptional] ∅ in
    ok! id := created else err => [failf "optional skill without a discovery directory: %v" [Aerr err]] in
    do! Defer cleanup;
    call! st := CallSelection id in
    ok! st := st else err => [failf "read skipped skill: %v" [Aerr err]] in
    Ret (skill_skips e st)).

(** A composition the runtime must refuse. *)
Definition conflict (format : string) (created : result adapter_error string) : list finding :=
  if negb (refused_naming created [])
  then [failf format [Astr (match created with Ok id => id | Err _ => "" end); Aopt (error_of created)]]
  else [].
Definition bundledHostConflict e : prog (list finding) :=
  let! (created, cleanup) :=
    sandboxWith e [fixtureBundledReader; "bundled-host-conflict"] (with_host_mode "readonly") in
  do! Clean cleanup;
  Ret (conflict "host skill conflict: id=%q err=%v; want refusal" created).
Definition bundledConflict e : prog (list finding) :=
  let! (created, cleanup) := sandbox e [fixtureBundledReader; fixtureBundledSkill; fixtureBundledExisting] ∅ in
  do! Clean cleanup;
  Ret (conflict "existing skill conflict: id=%q err=%v; want refusal" created).

(** The destination is selected whatever the host has to share. *)
Definition destination e (fixture : string) r : bool :=
  of_kit e fixture r &&
  match Record_Source r with Some s => bool_decide (Source_Path s = "capabilities[0]") | None => false end.
Definition skillsWithoutHost (fixture path : string) (opts : CreateOptions) e : prog (list finding) := function (
  let! (created, cleanup) := sandboxWith e [fixtureWorkload; fixture] opts in
  ok! id := created else err =>
    [failf "host skills are unavailable, but the skills destination must remain available: %v" [Aerr err]] in
  do! Defer cleanup;
  let! res := exec id ["ls"; path] in
  ok! res := res else err => [failf "probe host store: %v" [Aerr err]] in
  if (ExitCode res =? 0)%Z && listsExactly (Stdout res) SkillName
  then Ret [failf "host skills are unavailable, but shared skills are visible at %s" [Astr path]]
  else
    call! st := CallSelection id in
    ok! st := st else err => [failf "read skills selection: %v" [Aerr err]] in
    if existsb (destination e fixture) (Skipped (State_Selection st))
    then Ret [failf "host skills are unavailable, but the skills destination must not be skipped" []]
    else if existsb (destination e fixture) (Selected (State_Selection st)) then Ret []
    else Ret [failf "skills destination missing from selected capabilities" []]).
Definition skillsOptionalPath : string := "/home/agent/.kit-tck/skills-opt".
Definition skillsWithoutStore (store : string) e : prog (list finding) :=
  let opts := with_host_store store in
  let! findings := skillsWithoutHost fixtureSkills skillsReadOnlyPath opts e in
  let! optional := skillsWithoutHost fixtureSkillsOptional skillsOptionalPath opts e in
  Ret (findings ++ optional).
Definition bundledWithoutStore (store : string) e : prog (list finding) := function (
  let! (created, cleanup) := sandboxWith e [fixtureBundledReader; fixtureBundledSkill] (with_host_store store) in
  ok! id := created else err => [failf "create with %s host store: %v" [Astr store; Aerr err]] in
  do! Defer cleanup;
  let! exposed := bundledProbe id "exposed" ready in
  let! launch := bundledProbe id "launch" ready in
  Ret (exposed ++ launch)).

Definition bundledSkillChecks : list check :=
  [mkCheckOf "agent-skills@1/host-store-missing" capAgentSkills [] (skillsWithoutStore "missing");
   mkCheckOf "agent-skills@1/host-store-empty" capAgentSkills [] (skillsWithoutStore "empty");
   mkCheckOf "agent-skills@1/bundled-with-missing-store" capAgentSkills [capAgentSkill] (bundledWithoutStore "missing");
   mkCheckOf "agent-skills@1/bundled-with-empty-store" capAgentSkills [capAgentSkill] (bundledWithoutStore "empty");
   mkCheckOf "agent-skill@1/host-conflict" capAgentSkill [capAgentSkills] bundledHostConflict;
   mkCheckOf "agent-skill@1/exposed" capAgentSkill [capAgentSkills] (bundledObservation "exposed" ready false);
   mkCheckOf "agent-skill@1/before-launch" capAgentSkill [capAgentSkills] (bundledObservation "launch" ready false);
   mkCheckOf "agent-skill@1/no-execution" capAgentSkill [capAgentSkills]
     (bundledObservation "no-execution" ("clean" +:+ nl) false);
   mkCheckOf "agent-skill@1/unavailable" capAgentSkill [] bundledUnavailable;
   mkCheckOf "agent-skill@1/existing-conflict" capAgentSkill [capAgentSkills] bundledConflict;
   mkCheckOf "agent-skills@1/destination" capAgentSkills [capAgentSkill] (bundledObservation "exposed" ready true)].
End Skills.
