(* ===== verification/SuiteSSH.v ===== *)
(** [tck/sandbox/ssh_agent.go], with the halves of [ssh_agent_backing.go] and
    [ssh_agent_server.go] that act: the suite's agent, the probes of it and the checks of
    the SSH agent capability. *)
From stdpp Require Import options.
From S2P Require Import Prelude GoStrings Json Types Config Marshal Surface GoPath Selection Report Adapter Backing Suite.

Definition sshAgentProbe : string := "kit-tck-ssh-agent".
Definition sshAgentMutatingRequests : list N := [17; 18; 19; 20; 21; 22; 23; 24; 25; 26]%N.
Definition sshTestServer : string := "kit-tck.example".
Definition sshAnyUserServer : string := "any-user.kit-tck.example".
Definition sshTestUser : string := "git".

Section SSHChecks.
Context `{SSH, MapOrder}.
Implicit Types (e : subject).

(** ** The suite's agent *)

(** [startBackingAgent]: a directory is left behind by no failure. *)
Definition startBackingAgent : prog (result string backingAgent) :=
  call! key := CallGenerateKey in
  match key with
  | Err err => Ret (Err err)
  | Ok key =>
      call! dir := CallMkdirTemp "/tmp" "kit-tck-agent-" in
      match dir with
      | Err err => Ret (Err err)
      | Ok dir =>
          let sock := Join dir "agent.sock" in
          call! served := CallServe sock key in
          match served with
          | Err err => do! Clean (RemovesDir dir); Ret (Err err)
          | Ok _ => Ret (Ok (mkBackingAgent sock dir (public_key key)))
          end
      end
  end.
Definition withBackingAgent (run : backingAgent → prog (list finding)) : prog (list finding) := function (
  let! a := startBackingAgent in
  ok! a := a else err => [failf "start the suite's SSH agent: %v" [Aerrs err]] in
  do! Defer (Closes a);
  run a).

Definition PublicKey a : string := trim_space (MarshalAuthorizedKey (public a)).
Definition Requests a : prog N := call! c := CallCounters a in Ret (requests c).
Definition RequestsOfType a (kind : N) : prog N := call! c := CallCounters a in Ret (type_count c kind).
Definition Signed a : prog (list string) := call_ (CallSigned a).
Definition Holds a : prog (result string bool) :=
  call! keys := CallAgentKeys a in
  Ret (match keys with
       | Err err => Err err
       | Ok keys => Ok (existsb (λ k, bool_decide (k = public a)) keys)
       end).

Inductive verify_error := DataNotHex | SignatureNotHex | SignatureInvalid (cause : string).
Definition Verify a (dataHex signatureHex : string) : result verify_error () :=
  match hex_DecodeString dataHex with
  | None => Err DataNotHex
  | Some data =>
      match hex_DecodeString signatureHex with
      | None => Err SignatureNotHex
      | Some raw =>
          match verify_signature (public a) data raw with
          | Some cause => Err (SignatureInvalid cause)
          | None => Ok ()
          end
      end
  end.
Definition verify_text (err : verify_error) : arg :=
  match err with
  | DataNotHex => Aerrs "signed data is not hex"
  | SignatureNotHex => Aerrs "signature is not hex"
  | SignatureInvalid cause => Aerrs cause
  end.

(** ** Probes of an agent in the sandbox *)

Definition probe_field (fields : gmap string string) (line : string) : gmap string string :=
  let '(k, v, ok) := cut " " (trim_space line) in if ok then <[k := v]> fields else fields.
Definition agentProbeFields (output : string) : gmap string string := foldl probe_field ∅ (lines output).
Definition field (fields : gmap string string) (key : string) : string := default "" (fields !! key).
Definition verifyAgentSignature a (output : string) : result verify_error () :=
  let fields := agentProbeFields output in Verify a (field fields "data") (field fields "signature").

Inductive signOutcome := signed | refused.
#[export] Instance signOutcome_eq_dec : EqDecision signOutcome.
Proof. solve_decision. Defined.

Definition probeSign (id : string) a (args : list string) : prog (signOutcome * option finding) :=
  let op := default "" (head args) in
  let! res := exec id (sshAgentProbe :: args) in
  Ret (match res with
       | Err err => (refused, Some (failing "exec %s %s: %v" [Astr sshAgentProbe; Astr op; Aerr err]))
       | Ok res =>
           if (ExitCode res =? 1)%Z then (refused, None)
           else if (ExitCode res =? 2)%Z
           then (refused, Some (failing "%s %s: no agent was reachable in the sandbox" [Astr sshAgentProbe; Astr op]))
           else if negb (ExitCode res =? 0)%Z
           then (refused, Some (failing "%s %s: exit %d: %s"
                   [Astr sshAgentProbe; Astr op; Anum (ExitCode res); Astr (trim_space (Stderr res))]))
           else
             match verifyAgentSignature a (Stdout res) with
             | Err err =>
                 (signed, Some (failing "%s %s returned a signature the backing agent's key did not make: %v"
                    [Astr sshAgentProbe; Astr op; verify_text err]))
             | Ok _ => (signed, None)
             end
       end).

Definition expectSigned (id : string) a (want : string) (args : list string) : prog (option finding) :=
  let! (outcome, f) := probeSign id a args in
  match f with
  | Some f => Ret (Some f)
  | None =>
      if negb (bool_decide (outcome = signed))
      then Ret (Some (failing "the relay refused %s, which the entry admits" [Astr want]))
      else
        let! got := Signed a in
        if negb (bool_decide (last got = Some want))
        then Ret (Some (failing "the backing agent did not see %s; it saw %q" [Astr want; Astrs got]))
        else Ret None
  end.

Definition expectRefused (id : string) a (what : string) (args : list string) : prog (option finding) :=
  let! before := Signed a in
  let! (outcome, f) := probeSign id a args in
  match f with
  | Some f => Ret (Some f)
  | None =>
      let! after := Signed a in
      if bool_decide (outcome = signed)
      then Ret (Some (failing "the relay signed %s, which the entry does not admit" [Astr what]))
      else if negb (length after =? length before)
      then Ret (Some (failing "the relay refused %s, but passed it to the backing agent first (it saw %q)"
                        [Astr what; Astrs (drop (length before) after)]))
      else Ret None
  end.

Definition agentServes (id : string) a : prog (option finding) :=
  let! listed := execOutput id [sshAgentProbe; "list"] in
  match listed with
  | Err f => Ret (Some (failing "the granted agent was not reachable: %s" [Adetail (Report.Detail f)]))
  | Ok listed =>
      if negb (contains (PublicKey a) listed)
      then Ret (Some (failing "the agent in the sandbox does not offer the backing agent's key; it listed %q"
                        [Astr (trim_space listed)]))
      else expectSigned id a "other" ["sign"; PublicKey a]
  end.

(** [if f := ...; f != nil { return []report.Finding{*f} }]. *)
Definition unless (p : prog (option finding)) (k : prog (list finding)) : prog (list finding) :=
  let! f := p in match f with Some f => Ret [f] | None => k end.
Definition as_list (f : option finding) : list finding := match f with Some f => [f] | None => [] end.

(** ** What the initial processes recorded *)

Definition proof_finding (path : string) (f : finding) : finding :=
  failing "read initial agent proof from %s: %s" [Astr path; Adetail (Report.Detail f)].
Definition initialAgentProof (id path previous : string) : prog (result finding string) :=
  poll_file id path
    (λ proof, if bool_decide (previous = "") || negb (bool_decide (proof = previous)) then None
              else Some (failing "the proof from the previous boot was not replaced" []))
    (proof_finding path).

Definition agentUnreachable (id : string) a (when_ : string) : prog (list finding) :=
  let! before := Requests a in
  let! proof := initialAgentProof id "/var/tmp/kit-tck-workload-ssh-sock-proof" "" in
  some! proof := proof in
  let! initial := execOutput id ["cat"; "/var/tmp/kit-tck-workload-ssh-sock"] in
  some! initial := initial in
  let recorded :=
    if negb (bool_decide (trim_space initial = "")) || contains "data " proof || contains (PublicKey a) proof
    then [failf "%s, yet the initial workload recorded socket %q or agent access" [Astr when_; Astr (trim_space initial)]]
    else [] in
  let! sock := execOutput id [sshAgentProbe; "socket"] in
  some! sock := sock in
  let announced :=
    if negb (bool_decide (trim_space sock = ""))
    then [failf "%s, yet SSH_AUTH_SOCK is %q" [Astr when_; Astr (trim_space sock)]] else [] in
  let! res := exec id [sshAgentProbe; "list"] in
  match res with
  | Err err => Ret (recorded ++ announced ++ [failf "exec %s list: %v" [Astr sshAgentProbe; Aerr err]])
  | Ok res =>
      let listed :=
        if (ExitCode res =? 0)%Z && contains (PublicKey a) (Stdout res)
        then [failf "%s, yet the sandbox listed the backing agent's key" [Astr when_]] else [] in
      let! after := Requests a in
      Ret (recorded ++ announced ++ listed ++
           if negb (after =? before)%N
           then [failf "%s, yet %d request(s) reached the backing agent" [Astr when_; Anum (Z.of_N after - Z.of_N before)%Z]]
           else [])
  end.

Definition initial_paths e : list string :=
  "/var/tmp/kit-tck-workload-ssh-sock" ::
  (if claims e capLifecycle then ["/var/tmp/kit-tck-startup-ssh-sock"] else []).
Definition initial_serves (id : string) a (previous : gmap string string) (path : string) :
    prog (result finding string) :=
  let! proof := initialAgentProof id (path +:+ "-proof") (default "" (previous !! path)) in
  match proof with
  | Err f => Ret (Err f)
  | Ok proof =>
      let! sock := execOutput id ["cat"; path] in
      Ret (match sock with
           | Err f => Err (failing "read initial SSH_AUTH_SOCK from %s: %s" [Astr path; Adetail (Report.Detail f)])
           | Ok sock =>
               if bool_decide (trim_space sock = "") then Err (failing "SSH_AUTH_SOCK was absent from %s" [Astr path])
               else if negb (contains (PublicKey a) proof)
               then Err (failing "the initial process at %s did not list the backing agent's key" [Astr path])
               else
                 match verifyAgentSignature a proof with
                 | Err err => Err (failing "the initial process at %s did not obtain a valid backing-agent signature: %v"
                                     [Astr path; verify_text err])
                 | Ok _ => Ok proof
                 end
           end)
  end.
Fixpoint initial_loop (id : string) a (previous proofs : gmap string string) (paths : list string) :
    prog (result finding (gmap string string)) :=
  match paths with
  | [] => Ret (Ok proofs)
  | path :: paths =>
      let! proof := initial_serves id a previous path in
      match proof with
      | Err f => Ret (Err f)
      | Ok proof => initial_loop id a previous (<[path := proof]> proofs) paths
      end
  end.
Definition initialAgentsServe e (id : string) a (previous : gmap string string) :
    prog (result finding (gmap string string)) :=
  initial_loop id a previous ∅ (initial_paths e).

(** ** The restrictions a probe's record shows *)

Definition decimal (n : N) : string := pretty n.
Fixpoint not_forwarded a (kinds : list N) : prog (option finding) :=
  match kinds with
  | [] => Ret None
  | kind :: kinds =>
      let! count := RequestsOfType a kind in
      if negb (count =? 0)%N
      then Ret (Some (failing "initial processes forwarded %d request(s) of type %d" [Anum (Z.of_N count); Anum (Z.of_N kind)]))
      else not_forwarded a kinds
  end.
Definition proof_fields (fields : gmap string string) (bounded : bool) : option finding :=
  match List.find (λ kind, negb (bool_decide (field fields ("raw-" +:+ decimal kind) = "1"))) sshAgentMutatingRequests with
  | Some kind => Some (failing "agent probe did not refuse operation %d" [Anum (Z.of_N kind)])
  | None =>
      match List.find (λ ext, negb (bool_decide (field fields ("extension-" +:+ ext) = "1")))
              ["query"; "kit-tck-unknown@example.com"] with
      | Some ext => Some (failing "agent probe did not refuse extension %s" [Astr ext])
      | None =>
          let want := if bounded then "1" else "0" in
          match List.find (λ probe, negb (bool_decide (field fields ("probe-" +:+ probe) = want))) ["other"; "file"; "login"] with
          | Some probe => Some (failing "agent probe: signing probe %s returned %q, want %s"
                                  [Astr probe; Astr (field fields ("probe-" +:+ probe)); Astr want])
          | None => None
          end
      end
  end.
Definition agentProofRestrictions a (proof : string) (bounded : bool) : prog (option finding) :=
  match proof_fields (agentProbeFields proof) bounded with
  | Some f => Ret (Some f)
  | None =>
      let! forwarded := not_forwarded a (sshAgentMutatingRequests ++ [27%N]) in
      match forwarded with
      | Some f => Ret (Some f)
      | None =>
          if bounded then
            let! got := Signed a in
            Ret (match List.find (λ request, negb (bool_decide (request = "sshsig git"))) got with
                 | Some request => Some (failing "initial processes forwarded forbidden signing request %s" [Astr request])
                 | None => None
                 end)
          else Ret None
      end
  end.

Fixpoint proofs_restricted a (bounded : bool) (boot : nat) (proofs : list (string * string)) : prog (option finding) :=
  match proofs with
  | [] => Ret None
  | (path, proof) :: proofs =>
      let! f := agentProofRestrictions a proof bounded in
      match f with
      | Some f => Ret (Some (failing "%s on boot %d: %s" [Astr path; Anum (Z.of_nat (S boot)); Adetail (Report.Detail f)]))
      | None => proofs_restricted a bounded boot proofs
      end
  end.
(** One boot: the records of its initial processes, replaced since the last boot. *)
Definition boot_restrictions e (id : string) a (bounded : bool) (boot : nat) (previous : gmap string string) :
    prog (result finding (gmap string string)) :=
  let! proofs := initialAgentsServe e id a previous in
  match proofs with
  | Err f => Ret (Err f)
  | Ok proofs =>
      let! f := proofs_restricted a bounded boot (map_range proofs) in
      Ret (match f with Some f => Err f | None => Ok proofs end)
  end.
Definition initialProcessRestrictions e (id : string) a (bounded : bool) : prog (option finding) :=
  let! first := boot_restrictions e id a bounded 0 ∅ in
  match first with
  | Err f => Ret (Some f)
  | Ok previous =>
      let! stopped := run_act DoStop id in
      match stopped with
      | Err err => Ret (Some (failing "stop: %v" [Aerr err]))
      | Ok _ =>
          let! started := run_act DoStart id in
          match started with
          | Err err => Ret (Some (failing "start: %v" [Aerr err]))
          | Ok _ =>
              let! second := boot_restrictions e id a bounded 1 previous in
              Ret (error_of second)
          end
      end
  end.
End SSHChecks.

(** ** The checks, and the server identities logins are bound to *)

Section Logins.
Context `{SSH, MapOrder}.
Implicit Types (e : subject).

(** ** Server identities *)

Record sshServer := mkServer { server_name : string; signer : Signer }.
Definition server_key (s : sshServer) : string := public_key (signer s).

Definition newSSHServer (name : string) : prog (result string sshServer) :=
  call! key := CallGenerateKey in
  Ret (match key with Ok key => Ok (mkServer name key) | Err err => Err err end).

Definition known_host (s : sshServer) : string :=
  server_name s +:+ " " +:+ trim_space (MarshalAuthorizedKey (server_key s)) +:+ String "010" "".
Definition knownHosts (dir : string) (servers : list sshServer) : prog (result string string) :=
  let path := Join dir "known_hosts" in
  call! written := CallWriteFile path (String.concat "" (map known_host servers)) in
  Ret (match written with Ok _ => Ok path | Err err => Err err end).

Definition newSessionID : prog string := call_ (CallRandom 32).

(** The key a binding names may differ from the one that signs it. *)
Definition bindingSignedBy (hostKey : string) (by_ : Signer) (sid : string) (forwarding : bool) :
    prog (result string string) :=
  call! sig := CallSign by_ sid in
  Ret (match sig with
       | Ok sig => Ok (hex_EncodeToString (marshal_binding hostKey sid sig forwarding))
       | Err err => Err err
       end).
Definition binding (s : sshServer) (sid : string) (forwarding : bool) : prog (result string string) :=
  bindingSignedBy (server_key s) (signer s) sid forwarding.

(** ** Logins *)

Record loginCase := mkLogin {
  what : string;
  user : string;
  sid : string;
  login_binding : string;
  hostKey : string;
}.
Definition login_args (c : loginCase) (key : string) : list string :=
  (if bool_decide (hostKey c = "") then "login" else "hostbound") ::
  [user c; key; hex_EncodeToString (sid c)] ++
  (if bool_decide (login_binding c = "") then [] else [login_binding c]) ++
  (if bool_decide (hostKey c = "") then [] else [hostKey c]).

Definition withBoundedSandbox e
    (run : string → backingAgent → sshServer → sshServer → sshServer → prog (list finding)) : prog (list finding) :=
  withBackingAgent (λ a, function (
    let! server := newSSHServer sshTestServer in
    ok! server := server else err => [failf "generate the test server's host key: %v" [Aerrs err]] in
    let! impostor := newSSHServer ("impostor." +:+ sshTestServer) in
    ok! impostor := impostor else err => [failf "generate the impostor's host key: %v" [Aerrs err]] in
    let! hostOnly := newSSHServer sshAnyUserServer in
    ok! hostOnly := hostOnly else err => [failf "generate the host-only server key: %v" [Aerrs err]] in
    let! known := knownHosts (agent_dir a) [server; hostOnly] in
    ok! known := known else err => [failf "write the known hosts: %v" [Aerrs err]] in
    let! (created, cleanup) := sandboxWith e [fixtureWorkload; fixtureSSHAgentBounded] (with_ssh (socket a) known) in
    ok! id := created else err => [failf "create: %v" [Aerr err]] in
    do! Defer cleanup;
    run id a server hostOnly impostor)).

Definition refuse_login (id : string) (a : backingAgent) (c : loginCase) : prog (list finding) :=
  let! f := expectRefused id a (what c) (login_args c (PublicKey a)) in Ret (as_list f).
Definition judgeLogins (id : string) (a : backingAgent) (admitted : loginCase) (cases : list loginCase) :
    prog (list finding) :=
  let! f := expectSigned id a ("login " +:+ user admitted) (login_args admitted (PublicKey a)) in
  match f with
  | Some f => Ret [failf "%s: %s" [Astr (what admitted); Adetail (Report.Detail f)]]
  | None => all_findings (refuse_login id a) cases
  end.

Definition bound_session (s : sshServer) (sid : string) : prog (result finding string) :=
  let! b := binding s sid false in
  Ret (match b with
       | Ok b => Ok b
       | Err err => Err (failing "bind a session to %s: %v" [Astr (server_name s); Aerrs err])
       end).

(** The logins that must be signed before any refusal means something. *)
Definition admitted_logins (id : string) (a : backingAgent) (sid toServer toHostOnly serverKey : string)
    (k : prog (list finding)) : prog (list finding) :=
  let key := PublicKey a in
  unless (expectSigned id a "login root" (login_args (mkLogin "a host-only login" "root" sid toHostOnly "") key))
  (unless (expectSigned id a "login deploy" (login_args (mkLogin "a host-only login" "deploy" sid toHostOnly "") key))
  (unless (expectSigned id a ("login " +:+ sshTestUser)
             (login_args (mkLogin "a hostbound login" sshTestUser sid toServer serverKey) key)) k)).
(** Requests whose embedded key is not the agent's. *)
Definition mismatched_logins (a : backingAgent) (sid toServer impostorKey : string) : list (string * list string) :=
  let common := ["login"; sshTestUser; PublicKey a; hex_EncodeToString sid; toServer] in
  [("a login naming another public key", common ++ [impostorKey]);
   ("a login with an invalid embedded public key", common ++ ["00"]);
   ("a login with a mismatched key algorithm", common ++ [hex_EncodeToString (public a); "ssh-rsa"])].
Definition refused_logins (sid other toServer toImpostor impostorKey : string) : list loginCase :=
  [mkLogin "a login with no session binding" sshTestUser sid "" "";
   mkLogin "a login as root to the allowed server" "root" sid toServer "";
   mkLogin "a login for a session other than the bound one" sshTestUser other toServer "";
   mkLogin "a login to a server whose host key the runtime does not trust" sshTestUser sid toImpostor "";
   mkLogin "a hostbound login with a different host key" sshTestUser sid toServer impostorKey].
Definition sshAgentLoginsBounded e : prog (list finding) :=
  withBoundedSandbox e (λ id a server hostOnly impostor,
    let! sid := newSessionID in
    let! other := newSessionID in
    let! toServer := bound_session server sid in
    some! toServer := toServer in
    let! toImpostor := bound_session impostor sid in
    some! toImpostor := toImpostor in
    let! toHostOnly := bound_session hostOnly sid in
    some! toHostOnly := toHostOnly in
    let serverKey := hex_EncodeToString (server_key server) in
    let impostorKey := hex_EncodeToString (server_key impostor) in
    admitted_logins id a sid toServer toHostOnly serverKey (
      let! found := first_findings (λ probe, let! f := expectRefused id a probe.1 probe.2 in Ret (as_list f))
                      (mismatched_logins a sid toServer impostorKey) in
      match found with
      | [] => judgeLogins id a (mkLogin "a login as git to the allowed server" sshTestUser sid toServer "")
                (refused_logins sid other toServer toImpostor impostorKey)
      | _ => Ret found
      end)).

Definition sshAgentBindingVerified e : prog (list finding) :=
  withBoundedSandbox e (λ id a server hostOnly impostor,
    let! sid := newSessionID in
    let! valid := binding server sid false in
    ok! valid := valid else err => [failf "bind a session: %v" [Aerrs err]] in
    let! forged := bindingSignedBy (server_key server) (signer impostor) sid false in
    ok! forged := forged else err => [failf "forge a binding: %v" [Aerrs err]] in
    let! forwarding := binding server sid true in
    ok! forwarding := forwarding else err => [failf "bind a forwarding session: %v" [Aerrs err]] in
    judgeLogins id a (mkLogin "a login after a verified binding" sshTestUser sid valid "")
      [mkLogin "a login after a binding whose signature the named host key did not make" sshTestUser sid forged "";
       mkLogin "a login after a binding marked as forwarding" sshTestUser sid forwarding ""]).

Definition sshAgentDestinationKeys e : prog (list finding) :=
  withBoundedSandbox e (λ id a server _ impostor,
    let key := trim_space (MarshalAuthorizedKey (server_key impostor)) in
    let! planted := execOutput id [sshAgentProbe; "plant-known-host"; sshTestServer; key] in
    some! _ := planted in
    let! sid := newSessionID in
    let! trusted := binding server sid false in
    ok! trusted := trusted else err => [failf "bind trusted server: %v" [Aerrs err]] in
    let! untrusted := binding impostor sid false in
    ok! untrusted := untrusted else err => [failf "bind sandbox-presented server: %v" [Aerrs err]] in
    judgeLogins id a (mkLogin "externally trusted host key" sshTestUser sid trusted "")
      [mkLogin "host key trusted only by sandbox known_hosts" sshTestUser sid untrusted ""]).

(** ** Grants *)

(** A sandbox of the workload and kits with the suite's agent behind it. *)
Definition with_agent_sandbox e (kits : list string) (failed : string)
    (run : string → backingAgent → prog (list finding)) : prog (list finding) :=
  withBackingAgent (λ a, function (
    let! (created, cleanup) := sandboxWith e (fixtureWorkload :: kits) (with_ssh (socket a) "") in
    ok! id := created else err => [failf failed [Aerr err]] in
    do! Defer cleanup;
    run id a)).

Definition sshAgentReachable e : prog (list finding) :=
  with_agent_sandbox e [fixtureSSHAgent] "create: %v" (λ id a,
    unless (agentServes id a) (
      let! served := initialAgentsServe e id a ∅ in
      some! _ := served in
      Ret [])).

(** Requests only the relay may answer, each of which must fail with status one. *)
Definition restricted_probes : list (list string) :=
  ["extension"; "query"] :: ["extension"; "kit-tck-unknown@example.com"] ::
  map (λ t, ["raw"; decimal t]) sshAgentMutatingRequests.
Fixpoint probe_restricted (id : string) (findings : list finding) (probes : list (list string)) :
    prog (result (list finding) (list finding)) :=
  match probes with
  | [] => Ret (Ok findings)
  | probe :: probes =>
      let! res := exec id (sshAgentProbe :: probe) in
      match res with
      | Err err => Ret (Err (findings ++ [failf "exec %s %s: %v" [Astr sshAgentProbe; Astr (join " " probe); Aerr err]]))
      | Ok res =>
          probe_restricted id (findings ++
            if (ExitCode res =? 0)%Z
            then [failf "the agent in the sandbox answered %s with success" [Astr (join " " probe)]]
            else if negb (ExitCode res =? 1)%Z
            then [failf "%s %s: exit %d: %s"
                    [Astr sshAgentProbe; Astr (join " " probe); Anum (ExitCode res); Astr (trim_space (Stderr res))]]
            else []) probes
      end
  end.
Definition restricted_agent (id : string) (a : backingAgent) : prog (list finding) :=
  let! before := Requests a in
  let! probed := probe_restricted id [] restricted_probes in
  match probed with
  | Err findings => Ret findings
  | Ok findings =>
      let! after := Requests a in
      let passed :=
        if negb (after =? before)%N
        then [failf "the relay passed requests it must answer itself: %d request(s) reached the backing agent"
                [Anum (Z.of_N after - Z.of_N before)%Z]] else [] in
      let! holds := Holds a in
      Ret (findings ++ passed ++
           match holds with
           | Err err => [failf "read the backing agent's keys: %v" [Aerrs err]]
           | Ok false => [failf "requests from the sandbox removed the backing agent's key or locked the agent" []]
           | Ok true => []
           end)
  end.
Definition sshAgentRestrictedRuntime e : prog (list finding) :=
  with_agent_sandbox e [fixtureSSHAgent] "create: %v" (λ id a,
    unless (initialProcessRestrictions e id a false) (unless (agentServes id a) (restricted_agent id a))).

Definition sshAgentSignaturesBoundedRuntime e : prog (list finding) :=
  with_agent_sandbox e [fixtureSSHAgentBounded] "create: %v" (λ id a,
    unless (initialProcessRestrictions e id a true)
    (unless (expectSigned id a "sshsig git" ["sshsig"; "git"; PublicKey a])
    (all_findings (λ probe, let! f := expectRefused id a probe.1 probe.2 in Ret (as_list f))
       [("a namespaced signature in namespace file", ["sshsig"; "file"; PublicKey a]);
        ("a signature for no protocol", ["sign"; PublicKey a])]))).

Definition install_restricted e (bounded : bool) (id : string) (a : backingAgent) : prog (list finding) :=
  let! proof := execOutput id ["cat"; "/var/tmp/ssh-agent-at-install"] in
  some! proof := proof in
  if negb (contains (PublicKey a) proof) || negb (is_ok (verifyAgentSignature a proof))
  then Ret [failf "install hook did not list and sign with the backing agent" []]
  else
    unless (agentProofRestrictions a proof bounded) (
      if bounded then
        unless (initialProcessRestrictions e id a true)
        (unless (expectSigned id a "sshsig git" ["sshsig"; "git"; PublicKey a])
        (unless (expectRefused id a "dual-phase out-of-bound signature" ["sign"; PublicKey a]) (Ret [])))
      else Ret []).
Definition sshAgentInstallRestrictions e (bounded : bool) : prog (list finding) :=
  with_agent_sandbox e [if bounded then "ssh-agent-dual" else fixtureSSHAgentInstall] "create install probe: %v"
    (install_restricted e bounded).

Definition sshAgentRestricted e : prog (list finding) :=
  let! findings := sshAgentRestrictedRuntime e in
  let! install := (if claims e capLifecycle then sshAgentInstallRestrictions e false else Ret []) in
  Ret (findings ++ install).
Definition sshAgentSignaturesBounded e : prog (list finding) :=
  let! findings := sshAgentSignaturesBoundedRuntime e in
  let! install := (if claims e capLifecycle then sshAgentInstallRestrictions e true else Ret []) in
  Ret (findings ++ install).

Definition sshAgentAbsentWithoutGrant e : prog (list finding) :=
  with_agent_sandbox e [] "create: %v" (λ id a,
    let! findings := agentUnreachable id a "no kit asked for the SSH agent" in
    let! requests := Requests a in
    Ret (findings ++
         if negb (requests =? 0)%N
         then [failf "without a grant, %d requests reached the backing agent" [Anum (Z.of_N requests)]] else [])).

Definition phase_scoped (id : string) (a : backingAgent) : prog (list finding) :=
  let! seen := execOutput id ["cat"; "/var/tmp/ssh-agent-at-install"] in
  some! seen := seen in
  if negb (contains (PublicKey a) seen)
  then Ret [failf "the install hook did not reach the agent its phase was granted; it recorded %q" [Astr (trim_space seen)]]
  else
    let! entrypoint := execOutput id ["cat"; "/var/tmp/kit-tck-workload-ssh-sock"] in
    ok! entrypoint := entrypoint else f =>
      [failf "read workload entrypoint's SSH_AUTH_SOCK: %s" [Adetail (Report.Detail f)]] in
    if negb (bool_decide (trim_space entrypoint = ""))
    then Ret [failf "install-only SSH agent leaked into the workload entrypoint as SSH_AUTH_SOCK=%q" [Astr (trim_space entrypoint)]]
    else
      let! saved := execOutput id ["cat"; "/var/tmp/ssh-agent-install-sock"] in
      some! saved := saved in
      if bool_decide (trim_space saved = "") then Ret [failf "the install hook did not record its socket path" []]
      else
        let! before := Requests a in
        let! res := exec id [sshAgentProbe; "saved"; "/var/tmp/ssh-agent-install-sock"] in
        let! after := Requests a in
        if match res with Err _ => true | Ok res => negb (ExitCode res =? 2)%Z end || negb (after =? before)%N
        then Ret [failf "the saved install socket %q did not close: exit %d, error %v, %d backing requests"
                    [Astr (trim_space saved); Anum (match res with Ok res => ExitCode res | Err _ => 0%Z end);
                     Aopt (error_of res); Anum (Z.of_N after - Z.of_N before)%Z]]
        else agentUnreachable id a "the install-phase grant should have ended before the workload started".
Definition sshAgentPhaseScoped e : prog (list finding) :=
  with_agent_sandbox e [fixtureSSHAgentInstall] "create: %v" phase_scoped.

Definition every_boot e (id : string) (a : backingAgent) : prog (list finding) :=
  unless (agentServes id a) (
    let! previous := initialAgentsServe e id a ∅ in
    some! previous := previous in
    let! stopped := run_act DoStop id in
    ok! _ := stopped else err => [failf "stop: %v" [Aerr err]] in
    let! started := run_act DoStart id in
    ok! _ := started else err => [failf "start: %v" [Aerr err]] in
    let! served := agentServes id a in
    match served with
    | Some f => Ret [failf "after stop and start: %s" [Adetail (Report.Detail f)]]
    | None =>
        let! again := initialAgentsServe e id a previous in
        ok! _ := again else f => [failf "after stop and start: %s" [Adetail (Report.Detail f)]] in
        Ret []
    end).
Definition sshAgentEveryBoot e : prog (list finding) :=
  with_agent_sandbox e [fixtureSSHAgent] "create: %v" (every_boot e).

Definition sshAgentRequiredRefused e : prog (list finding) := function (
  let! (created, cleanup) := sandbox e [fixtureWorkload; fixtureSSHAgent] ∅ in
  do! Defer cleanup;
  Ret (match created with
       | Err (RefusedError d) =>
           if negb (contains capSSHAgent d) then [failf "refusal did not name %s: %s" [Astr capSSHAgent; Astr d]] else []
       | Err err => [failf "create failed for a reason other than refusal: %v" [Aerr err]]
       | Ok id => [failf "a kit requiring the SSH agent was accepted as sandbox %s with no backing agent available" [Astr id]]
       end)).

Definition sshAgentOptionalSkipped e : prog (list finding) :=
  withBackingAgent (λ a, function (
    let! (created, cleanup) := sandbox e [fixtureWorkload; fixtureSSHAgentOptional] ∅ in
    ok! id := created else err =>
      [failf "an optional SSH agent entry prevented create with no backing agent available: %v" [Aerr err]] in
    do! Defer cleanup;
    agentUnreachable id a "no backing agent was available")).
End Logins.
