(* ===== verification/SuiteChecks.v ===== *)
(** The checks of [tck/sandbox/checks.go], [environment.go], [credential_phases.go] and
    [long_running.go], and [checks], the suite in the order it is run. *)
From stdpp Require Import options.
From S2P Require Import Prelude GoStrings Json Types Config Marshal Surface GoPath Selection Report Adapter Backing Suite SuiteGroups SuiteIdentity SuiteSSH.

Section Checks.
Context `{SSH, MapOrder}.
Implicit Types (e : subject).

(** A sandbox of the kits, removed when the check returns. *)
Definition in_sandbox e (kits : list string) (run : string → prog (list finding)) : prog (list finding) := function (
  let! (created, cleanup) := sandbox e kits ∅ in
  ok! id := created else err => [failf "create: %v" [Aerr err]] in
  do! Defer cleanup;
  run id).

(** ** Network policies *)

(** A probe of a host the policy must deny: 7 is the denial observed. *)
Definition denied_probe (reachable unobserved : string) (res : Result) : list finding :=
  if (ExitCode res =? 0)%Z then [failf reachable []]
  else if (ExitCode res =? 7)%Z then []
  else [failf unobserved [Anum (ExitCode res); Astr (trim_space (Stderr res))]].
Definition denyByDefault (fixture : string) e : prog (list finding) :=
  in_sandbox e [fixtureWorkload; fixture] (λ id,
    let! allowed := exec id ["kit-tck-probe"; "https://example.com"] in
    ok! allowed := allowed else err => [failf "probe allowed host: %v" [Aerr err]] in
    if negb (ExitCode allowed =? 0)%Z
    then Ret [failf "an allowed host was refused: %s" [Astr (trim_space (Stderr allowed))]]
    else
      let! denied := exec id ["kit-tck-probe"; "https://example.org"] in
      ok! denied := denied else err => [failf "probe denied host: %v" [Aerr err]] in
      Ret (denied_probe "a host outside the allow list was reachable"
             "probing the denied host failed with status %d, which is not a policy observation: %s" denied)).

Definition installPhaseScoped (fixture : string) e : prog (list finding) :=
  in_sandbox e [fixtureWorkload; fixture] (λ id,
    let! during := execOutput id ["cat"; "/var/tmp/install-egress"] in
    some! during := during in
    let during := trim_space during in
    if negb (bool_decide (during = "reachable"))
    then Ret [failf "install-only domain was %s during install; the install phase should have opened it" [Astr during]]
    else
      let! after := exec id ["kit-tck-probe"; "https://example.net"] in
      ok! after := after else err => [failf "probe install-only host: %v" [Aerr err]] in
      Ret (denied_probe "an install-only domain is still reachable after the install phase closed"
             "probing the closed install-only host failed with status %d, which is not a policy observation: %s" after)).

Fixpoint all_allowed (id : string) (requests : list (string * string)) (k : prog (list finding)) : prog (list finding) :=
  match requests with
  | [] => k
  | (method, url) :: requests =>
      let! f := httpAllowed id method url in
      match f with Some f => Ret [f] | None => all_allowed id requests k end
  end.
Definition http_enforced (allowed : list (string * string)) (method url whenAccepted : string) e : prog (list finding) :=
  in_sandbox e [fixtureWorkload; fixtureHTTPEgress] (λ id,
    all_allowed id allowed (httpRefused id method url whenAccepted)).
Definition httpMethodEnforced : subject → prog (list finding) :=
  http_enforced [("GET", "https://example.com/allowed/thing"); ("POST", "https://example.org/")]
    "POST" "https://example.com/allowed/thing" "a method outside the http allow rules was accepted".
Definition httpPathEnforced : subject → prog (list finding) :=
  http_enforced [("GET", "https://example.com/allowed/thing")]
    "GET" "https://example.com/elsewhere" "a path outside the http allow rules was accepted".
Definition httpDenyPrecedence : subject → prog (list finding) :=
  http_enforced [("GET", "https://example.com/allowed/thing")]
    "GET" "https://example.com/allowed/secret/thing" "a request matching both an allow and a deny rule was accepted".

(** ** Refusals *)

Definition unknownRequiredRefused e : prog (list finding) := function (
  let! (created, cleanup) := sandbox e [fixtureWorkload; fixtureUnknownNeed] ∅ in
  do! Defer cleanup;
  Ret (match created with
       | Err (RefusedError _) => []
       | Err err => [failf "create failed for a reason other than refusal: %v" [Aerr err]]
       | Ok id => [failf "a kit requiring an unimplemented capability was accepted as sandbox %s" [Astr id]]
       end)).

Definition baselineCreateSucceeds e : prog (list finding) := function (
  let! (created, cleanup) := sandbox e [fixtureWorkload] ∅ in
  ok! _ := created else err =>
    [failf "a workload-only sandbox must be creatable before any refusal means anything: %v" [Aerr err]] in
  do! Defer cleanup;
  Ret []).

Definition unclaimed_probes : list (string * string * bool) :=
  [(capSbx, fixtureSbxWorkload, true); (capLongRunning, fixtureLongRunning, false);
   (capGitIdentity, fixtureGitIdentity, false); (capLifecycle, fixtureHooks, false);
   (capNetworkPolicy, fixtureEgress, false); (capNetworkPolicyV2, fixtureHTTPEgress, false);
   (capCredential, fixtureCredential, false); (capSSHAgent, fixtureSSHAgent, false);
   (capAgentContext, fixtureContext, false); (capVolume, fixtureVolume, false);
   (capResources, fixtureResources, false); (capPrivileged, fixturePrivileged, false);
   (capAgentSkills, fixtureSkills, false); (capAgentSkill, fixtureBundledSkill, false);
   (capPort, fixturePort, false); (capUSBDevice, fixtureUSBDevice, false);
   (capAgentSessions, fixtureAgentSessions, false); (capKitRegistry, fixtureKitRegistry, false)].
Definition refusal_probe e (typ : string) (compose : list string) : prog (list finding) :=
  let! (created, cleanup) := sandbox e compose ∅ in
  match created with
  | Err (RefusedError _) => Ret []
  | Err err => Ret [failf "%s: create failed for a reason other than refusal: %v" [Astr typ; Aerr err]]
  | Ok id =>
      do! Clean cleanup;
      Ret [failf "a kit requiring unclaimed %s was accepted as sandbox %s" [Astr typ; Astr id]]
  end.
Definition unclaimed_case e (probe : string * string * bool) : prog (list finding) :=
  let '(typ, fixture, alone) := probe in
  if claims e typ then Ret []
  else if bool_decide (typ = capAgentSkill) then
    if negb (claims e capAgentSkills)
    then Ret [skipf "%s: refusal probe needs claimed %s" [Astr capAgentSkill; Astr capAgentSkills]]
    else refusal_probe e typ [fixtureBundledReader; fixture]
  else refusal_probe e typ (if alone then [fixture] else [fixtureWorkload; fixture]).
Definition requiredUnclaimedRefused e : prog (list finding) := all_findings (unclaimed_case e) unclaimed_probes.

(** ** Lifecycle *)

Definition reboot (id : string) (k : prog (list finding)) : prog (list finding) :=
  let! stopped := run_act DoStop id in
  ok! _ := stopped else err => [failf "stop: %v" [Aerr err]] in
  let! started := run_act DoStart id in
  ok! _ := started else err => [failf "start: %v" [Aerr err]] in
  k.
(** A counter a hook keeps, and how often it ran on a boot. *)
Definition counted (id path want format : string) (k : prog (list finding)) : prog (list finding) :=
  let! count := execOutput id ["cat"; path] in
  some! count := count in
  let count := trim_space count in
  if negb (bool_decide (count = want)) then Ret [failf format [Astr count]] else k.
Definition installOnce e : prog (list finding) :=
  in_sandbox e [fixtureWorkload; fixtureHooks] (λ id,
    counted id "/var/tmp/install.count" "1" "install hook ran %s times at create, expected once" (
    reboot id (
    counted id "/var/tmp/install.count" "1" "install hook ran again on reboot (count %s)" (Ret [])))).
Definition startupEveryBoot e : prog (list finding) :=
  in_sandbox e [fixtureWorkload; fixtureHooks] (λ id,
    counted id "/var/tmp/startup.count" "1" "startup hook ran %s times during create, expected once" (
    reboot id (
    counted id "/var/tmp/startup.count" "2" "startup hook ran %s times across create and one reboot, expected twice" (
    Ret [])))).

Definition baseline_names : list string := ["PATH"; "HOME"; "HOSTNAME"; "TERM"; "PWD"; "OLDPWD"; "SHLVL"; "_"].
(** A line of the hook's environment: whether it declares, and what it should not hold. *)
Definition hook_line (acc : list finding * bool) (line : string) : list finding * bool :=
  let '(name, _, isAssignment) := cut "=" (trim_space line) in
  if negb isAssignment || bool_decide (name = "") then acc
  else if bool_decide (name = "DECLARED") then (acc.1, true)
  else if negb (bool_decide (name ∈ baseline_names))
  then (acc.1 ++ [failf "the hook's environment contains %q, which the kit never declared" [Astr name]], acc.2)
  else acc.
Definition hook_env_findings (leaked : string) : list finding :=
  if contains HostSentinelValue leaked
  then [failf "a value from the host environment reached the hook, which sees only its declared env" []]
  else
    let '(findings, declared) := foldl hook_line ([], false) (lines leaked) in
    findings ++ if declared then [] else [failf "the hook's declared env name is missing from its environment" []].
Definition hookEnvRestricted e : prog (list finding) :=
  in_sandbox e [fixtureWorkload; fixtureRestrictedEnv] (λ id,
    let! leaked := execOutput id ["cat"; "/var/tmp/hook.env"] in
    some! leaked := leaked in
    Ret (hook_env_findings leaked)).

(** The declared file is the agent's, and it can be written. *)
Definition file_owned (id path : string) : prog (list finding) :=
  let! owner := execOutput id ["stat"; "-c"; "%u"; path] in
  some! owner := owner in
  let! agent := execOutput id ["id"; "-u"] in
  some! agent := agent in
  if negb (bool_decide (trim_space owner = trim_space agent))
  then Ret [failf "the declared file belongs to uid %s while the agent is uid %s; whichever user writes it, a file entry ends up the agent's — a path only root can own is an install hook's job"
              [Astr (trim_space owner); Astr (trim_space agent)]]
  else
    let! res := exec id ["test"; "-w"; path] in
    ok! res := res else err => [failf "probe the declared file: %v" [Aerr err]] in
    if negb (ExitCode res =? 0)%Z
    then Ret [failf "the declared file is not writable by the agent, and its entry declares no mode asking for that" []]
    else Ret [].
Definition filesWritten e : prog (list finding) := function (
  let! (created, cleanup) := sandbox e [fixtureWorkload; fixtureFiles] {["greeting" := "hello"]} in
  ok! id := created else err => [failf "create: %v" [Aerr err]] in
  do! Defer cleanup;
  let! body := execOutput id ["cat"; "/home/agent/.config/kit-written"] in
  some! body := body in
  if negb (bool_decide (body = "hello"))
  then Ret [failf "declared file holds %q; the arg reference should have expanded to %q" [Astr body; Astr "hello"]]
  else
    let! body := execOutput id ["cat"; "/home/agent/.config/env-written"] in
    some! body := body in
    if negb (bool_decide (body = "hello"))
    then Ret [failf "final environment references did not expand in the declared file" []]
    else file_owned id "/home/agent/.config/kit-written").

(** [environment.go]: each case's sandbox is removed before the next one. *)
Definition env_case e (case : string * string * CreateOptions * string) : prog (list finding) :=
  let '(name, fixture, opts, want) := case in
  let! (created, cleanup) := sandboxWith e [fixtureWorkload; fixture] opts in
  match created with
  | Err err => do! Clean cleanup; Ret [failf "create for %s: %v" [Astr name; Aerr err]]
  | Ok id =>
      let! body := execOutput id ["cat"; "/home/agent/.config/env-written"] in
      do! Clean cleanup;
      some! body := body in
      if negb (bool_decide (body = want))
      then Ret [failf "%s: kit.env expansion did not use the final container environment" [Astr name]]
      else Ret []
  end.
Definition env_cases : list (string * string * CreateOptions * string) :=
  let args : gmap string string := {["greeting" := "arg-greeting"]} in
  [("image default", "files-image-env", no_options, "image-greeting");
   ("argument export", fixtureFiles, with_args args, "arg-greeting");
   ("runtime override", fixtureFiles,
    mkCreateOptions "" [] args {["KIT_GREETING" := "runtime-greeting"]} "" "" "" "", "runtime-greeting");
   ("empty override", fixtureFiles, mkCreateOptions "" [] args {["KIT_GREETING" := ""]} "" "" "" "", "")].
Definition finalEnvironmentPrecedence e : prog (list finding) := first_findings (env_case e) env_cases.

(** ** Credentials *)

Definition secretAbsentInSandbox e : prog (list finding) :=
  in_sandbox e [fixtureWorkload; fixtureScopedEgress] (λ id,
    let! value := execOutput id ["printenv"; "KIT_TCK_TOKEN"] in
    ok! value := value else _f =>
      [failf "the kit declares a credential and the suite bound one, but %s is not set in the sandbox" [Astr "KIT_TCK_TOKEN"]] in
    let value := trim_space value in
    if bool_decide (value = "") then Ret [failf "declared credential produced no value in the container" []]
    else if contains (Secret e) value
    then Ret [failf "the bound secret reached the container; a proxy-managed credential must present a sentinel" []]
    else
      let! environ := execOutput id ["env"] in
      some! environ := environ in
      if contains (Secret e) environ
      then Ret [failf "the bound secret is in the container environment under a name other than the declared one" []]
      else Ret []).

(** A baseline's environment, its sandbox removed when the check returns. *)
Definition baseline e (kits : list string) (format : string) (argv : list string) :
    prog (result finding (gmap string string)) :=
  let! (created, cleanup) := sandbox e kits ∅ in
  match created with
  | Err err => Ret (Err (failf format [Aerr err]))
  | Ok id =>
      do! Defer cleanup;
      let! env := execOutput id argv in
      Ret (match env with Ok env => Ok (envVars env) | Err f => Err f end)
  end.
(** The value a variable has whatever is composed. *)
Definition stable (a b : gmap string string) (name : string) : option string :=
  match a !! name, b !! name with
  | Some x, Some y => if bool_decide (x = y) then Some x else None
  | _, _ => None
  end.
Definition added_names (a b composed : gmap string string) : list string :=
  sort_strings (List.filter
    (λ name, negb (bool_decide (is_Some (a !! name))) && negb (bool_decide (is_Some (b !! name))))
    (map fst (map_range composed))).
Definition repurposed (b composed : gmap string string) (kv : string * string) : option (string * string * string) :=
  let '(name, value) := kv in
  match b !! name with
  | Some other =>
      if negb (bool_decide (other = value)) then None
      else
        match composed !! name with
        | Some got => if negb (bool_decide (got = value)) then Some (name, value, got) else None
        | None => None
        end
  | None => None
  end.
Definition composed_findings e (fixture : string) (a b : gmap string string) (composedEnv : string) : list finding :=
  let composed := envVars composedEnv in
  match added_names a b composed with
  | _ :: _ =>
      [failf "composing %s added environment variables %v; an inject-only credential must add none, sentinel or otherwise"
         [Astr fixture; Astrs (added_names a b composed)]]
  | [] =>
      match head (omap (repurposed b composed) (map_range a)) with
      | Some (name, value, got) =>
          [failf "composing %s changed %s from %q to %q; an inject-only credential must not repurpose existing variables"
             [Astr fixture; Astr name; Astr value; Astr got]]
      | None =>
          if contains (Secret e) composedEnv
          then [failf "the bound secret of an inject-only credential is in the container environment (%s)" [Astr fixture]]
          else []
      end
  end.
Definition inject_case e (a b : gmap string string) (fixture : string) : prog (list finding) :=
  let! (created, cleanup) := sandbox e [fixtureWorkload; fixture] ∅ in
  ok! id := created else err => [failf "create %s: %v" [Astr fixture; Aerr err]] in
  do! Defer cleanup;
  let! composedEnv := execOutput id ["env"] in
  some! composedEnv := composedEnv in
  Ret (composed_findings e fixture a b composedEnv).

(** A variable of the install hook's environment, against the two baselines. *)
Definition hook_variable (a b : gmap string string) (kv : string * string) : option finding :=
  let '(name, got) := kv in
  if negb (bool_decide (name ∈ "DECLARED" :: baseline_names))
  then Some (failf "an install-phase inject-only credential surfaced %q in a hook's environment; it must add no variable in any phase" [Astr name])
  else
    match stable a b name with
    | Some value =>
        if negb (bool_decide (got = value))
        then Some (failf "an install-phase inject-only credential changed hook variable %q from %q to %q; it must not repurpose existing variables"
                     [Astr name; Astr value; Astr got])
        else None
    | None => None
    end.
Definition inject_hooks e : prog (list finding) :=
  let hook_baseline := baseline e [fixtureWorkload; fixtureRestrictedEnv] "create hook baseline: %v" ["cat"; "/var/tmp/hook.env"] in
  let! a := hook_baseline in
  some! a := a in
  let! b := hook_baseline in
  some! b := b in
  let! (created, cleanup) := sandbox e [fixtureWorkload; fixtureCredentialInjectOnlyInstall] ∅ in
  ok! id := created else err => [failf "create %s: %v" [Astr fixtureCredentialInjectOnlyInstall; Aerr err]] in
  do! Defer cleanup;
  let! hookEnv := execOutput id ["cat"; "/var/tmp/hook.env"] in
  some! hookEnv := hookEnv in
  if contains (Secret e) hookEnv
  then Ret [failf "the bound secret of an install-phase inject-only credential reached an install hook" []]
  else Ret (as_list (head (omap (hook_variable a b) (map_range (envVars hookEnv))))).
Definition injectOnlyNoEnv e : prog (list finding) := function (
  let control := λ fixture, baseline e [fixtureWorkload; fixture] "create baseline: %v" ["env"] in
  let! a := control fixtureInjectOnlyControl in
  some! a := a in
  let! b := control fixtureInjectOnlyControlB in
  some! b := b in
  let! found := first_findings (inject_case e a b)
    [fixtureCredentialInjectOnly; fixtureCredentialInjectOnlyPlain; fixtureCredentialInjectOnlyInstall] in
  match found with
  | [] => if claims e capLifecycle then inject_hooks e else Ret []
  | _ => Ret found
  end).

(** [credential_phases.go]. *)
Definition credentialEntrypoint (id : string) : prog (result finding string) :=
  poll_file id "/var/tmp/kit-tck-workload-credential" (λ _, None)
    (λ f, failing "read workload entrypoint's credential record: %s" [Adetail (Report.Detail f)]).
Definition phase_finding e (fixture : string) (phase : string * string * bool) : option finding :=
  let '(name, value, granted) := phase in
  let value := trim_space value in
  if negb (eqb (negb (bool_decide (value = ""))) granted)
  then Some (failf "%s: credential presence during %s does not match its phase grant" [Astr fixture; Astr name])
  else if contains (Secret e) value
  then Some (failf "%s: real secret reached the %s phase instead of a sentinel" [Astr fixture; Astr name])
  else None.
Definition phase_case e (case : string * bool * bool) : prog (list finding) :=
  let '(fixture, in_install, in_runtime) := case in
  function (
    let! (created, cleanup) := sandbox e [fixtureWorkload; fixture] ∅ in
    ok! id := created else err => [failf "create %s: %v" [Astr fixture; Aerr err]] in
    do! Defer cleanup;
    let! install := execOutput id ["cat"; "/var/tmp/credential-at-install"] in
    some! install := install in
    let! entrypoint := credentialEntrypoint id in
    some! entrypoint := entrypoint in
    let! runtime := exec id ["printenv"; "KIT_TCK_PHASE_TOKEN"] in
    ok! runtime := runtime else err => [failf "read runtime credential: %v" [Aerr err]] in
    if negb (ExitCode runtime =? 0)%Z && (in_runtime || negb (ExitCode runtime =? 1)%Z)
    then Ret [failf "%s: runtime credential probe exited %d" [Astr fixture; Anum (ExitCode runtime)]]
    else Ret (as_list (head (omap (phase_finding e fixture)
           [("install", install, in_install); ("workload entrypoint", entrypoint, in_runtime);
            ("runtime exec", Stdout runtime, in_runtime)])))).
Definition credentialSentinelPhaseScoped e : prog (list finding) :=
  first_findings (phase_case e)
    [("credential-phases-install", true, false); ("credential-phases-runtime", false, true);
     ("credential-phases-both", true, true)].
End Checks.

(** ** The image, context, volumes, privilege and shared skills *)

Section Roster.
Context `{SSH, MapOrder}.
Implicit Types (e : subject).

(** ** Long-running sandboxes *)

Definition optionalLongRunning e : prog (list finding) := function (
  let! (created, cleanup) := sandbox e ["long-running-optional"] ∅ in
  do! Defer cleanup;
  Ret (match created with
       | Err err => [failf "an optional long-running entry prevented create: %v" [Aerr err]]
       | Ok _ => []
       end)).

Definition survivesSessionDisconnect e : prog (list finding) :=
  in_sandbox e [fixtureLongRunningWorkload; fixtureLongRunning] (λ id,
    let! before := execOutput id ["kit-tck-background"; "start"] in
    some! before := before in
    if bool_decide (trim_space before = "") then Ret [failf "background process returned no identity" []]
    else
      let! idle := run_act DoWaitIdle id in
      ok! _ := idle else err => [failf "wait for final-session disconnection: %v" [Aerr err]] in
      call! state := CallStatus id in
      ok! state := state else err => [failf "status after disconnection: %v" [Aerr err]] in
      if negb (bool_decide (state = "running"))
      then Ret [failf "sandbox stopped after its last session disconnected" []]
      else
        let! after := execOutput id ["kit-tck-background"; "probe"] in
        some! after := after in
        if negb (bool_decide (after = before))
        then Ret [failf "background process changed across session disconnection" []]
        else Ret []).

Definition longRunningStop e : prog (list finding) :=
  in_sandbox e [fixtureLongRunningWorkload; fixtureLongRunning] (λ id,
    call! state := CallStatus id in
    if match state with Ok s => negb (bool_decide (s = "running")) | Err _ => true end
    then Ret [failf "sandbox must be running before stop: state %q, error %v"
                [Astr (match state with Ok s => s | Err _ => "" end); Aopt (error_of state)]]
    else
      let! stopped := run_act DoStop id in
      ok! _ := stopped else err => [failf "stop: %v" [Aerr err]] in
      call! state := CallStatus id in
      ok! state := state else err => [failf "status after stop: %v" [Aerr err]] in
      if negb (bool_decide (state = "stopped"))
      then Ret [failf "explicit stop left a long-running sandbox %s" [Astr state]]
      else Ret []).

(** ** The image's identity *)

Definition image_identity : list (list string * string * string) :=
  [(["id"; "-u"], "1234", "uid"); (["id"; "-g"], "1234", "gid");
   (["id"; "-un"], "sbxagent", "login name"); (["printenv"; "HOME"], "/home/sbxagent", "home")].
Fixpoint identity_findings (id : string) (findings : list finding) (wants : list (list string * string * string)) :
    prog (result (list finding) (list finding)) :=
  match wants with
  | [] => Ret (Ok findings)
  | (argv, expect, what) :: wants =>
      let! got := execOutput id argv in
      match got with
      | Err f => Ret (Err (findings ++ [f]))
      | Ok got =>
          identity_findings id (findings ++
            if negb (bool_decide (trim_space got = expect))
            then [failf "the image declares %s %s, but commands see %q; the identity is read from the image, not assumed"
                    [Astr what; Astr expect; Astr (trim_space got)]]
            else []) wants
      end
  end.
Definition hook_identity e (findings : list finding) : prog (list finding) :=
  let! (created, hookCleanup) := sandbox e [fixtureSbxWorkload; fixtureRestrictedEnv] ∅ in
  ok! hookID := created else err => findings ++ [failf "create with hooks: %v" [Aerr err]] in
  do! Defer hookCleanup;
  let! hookEnv := execOutput hookID ["cat"; "/var/tmp/hook.env"] in
  ok! hookEnv := hookEnv else f => findings ++ [f] in
  let got := default "" (envVars hookEnv !! "HOME") in
  Ret (findings ++
       if negb (bool_decide (got = "/home/sbxagent"))
       then [failf "the image declares home /home/sbxagent, but hooks ran with HOME %q; the identity is read from the image, not assumed" [Astr got]]
       else []).
Definition honorsImageUser e : prog (list finding) :=
  in_sandbox e [fixtureSbxWorkload] (λ id,
    let! judged := identity_findings id [] image_identity in
    ok! findings := judged else findings => findings in
    if claims e capLifecycle then hook_identity e findings else Ret findings).

Definition workspaceAtWorkdir e : prog (list finding) :=
  in_sandbox e [fixtureSbxWorkload] (λ id,
    let profile := "/home/sbxagent/AGENTS.md" in
    let! res := exec id ["cat"; profile] in
    ok! res := res else err => [failf "read profile: %v" [Aerr err]] in
    if negb (ExitCode res =? 0)%Z
    then Ret [failf "the image declares its working directory as /home/sbxagent/workspace, but nothing is at %s beside it; the workspace goes where the image says, not at a fixed path" [Astr profile]]
    else Ret []).

Definition entrypointNotPidOne e : prog (list finding) :=
  in_sandbox e [fixtureSbxWorkload] (λ id,
    let! res := exec id ["cat"; "/var/tmp/sbx-entrypoint-ran"] in
    ok! res := res else err => [failf "probe entrypoint marker: %v" [Aerr err]] in
    if (ExitCode res =? 0)%Z
    then Ret [failf "the image's entrypoint ran as PID 1; the host launches the agent itself and owns PID 1" []]
    else Ret []).

(** ** Context, volumes, resources and privilege *)

Definition bodyReadable e : prog (list finding) :=
  in_sandbox e [fixtureWorkload; fixtureContext] (λ id,
    let! profile := execOutput id ["cat"; ProfilePath] in
    ok! profile := profile else _f =>
      [failf "the workload declares a profile file at %s, which the runtime did not write" [Astr ProfilePath]] in
    let staged := Join (Join StagedKitRoot fixtureContext) (fixtureContext +:+ ".md") in
    if negb (contains staged profile)
    then Ret [failf "the profile at %s does not reference %s, so the %s kit's context is not surfaced"
                [Astr ProfilePath; Astr staged; Astr fixtureContext]]
    else
      let! body := execOutput id ["cat"; staged] in
      ok! body := body else f =>
        [failf "the profile references %s but the staged body is not readable: %s" [Astr staged; Adetail (Report.Detail f)]] in
      if negb (bool_decide (body = ContextBody))
      then Ret [failf "the staged body at %s reads %q, not the fixture's content" [Astr staged; Astr body]]
      else Ret []).

Definition recreated_volume (id : string) : prog (list finding) :=
  let! recreated := run_act DoRecreate id in
  ok! _ := recreated else err => [failf "recreate: %v" [Aerr err]] in
  let! scratch := exec id ["cat"; "/var/tmp/kit-tck-scratch"] in
  ok! scratch := scratch else err => [failf "probe scratch: %v" [Aerr err]] in
  if (ExitCode scratch =? 0)%Z
  then Ret [failf "the writable layer survived recreate, so nothing this check observes is attributable to the volume" []]
  else
    let! body := execOutput id ["cat"; "/data/marker"] in
    some! body := body in
    if negb (bool_decide (body = "persisted"))
    then Ret [failf "declared volume lost its contents across recreate" []] else Ret [].
Definition persistsAcrossRecreate e : prog (list finding) :=
  in_sandbox e [fixtureWorkload; fixtureVolume] (λ id,
    let! marker := execOutput id ["kit-tck-write"; "/data/marker"; "persisted"] in
    some! _ := marker in
    let! scratch := execOutput id ["kit-tck-write"; "/var/tmp/kit-tck-scratch"; "ephemeral"] in
    some! _ := scratch in
    reboot id (
      let! restarted := execOutput id ["cat"; "/data/marker"] in
      some! restarted := restarted in
      if negb (bool_decide (restarted = "persisted"))
      then Ret [failf "declared volume lost its contents across a restart" []]
      else recreated_volume id)).

Definition declaredMemoryLimit : string := "2147483648".
Definition limitApplied e : prog (list finding) := function (
  let! (created, cleanup) := sandbox e [fixtureWorkload; fixtureResources] ∅ in
  match created with
  | Err (RefusedError d) => Ret [skipf "runtime refused the resource request: %s" [Astr d]]
  | Err err => Ret [failf "create: %v" [Aerr err]]
  | Ok id =>
      do! Defer cleanup;
      let! limit := execOutput id ["kit-tck-memory-limit"] in
      some! limit := limit in
      let limit := trim_space limit in
      if negb (bool_decide (limit = declaredMemoryLimit))
      then Ret [warnf "the kit declared a %s-byte memory limit; the sandbox reports %q"
                  [Astr declaredMemoryLimit; Astr limit]]
      else Ret []
  end).

Definition elevationGranted e : prog (list finding) := function (
  let! (created, cleanup) := sandbox e [fixtureWorkload; fixturePrivileged] ∅ in
  do! Defer cleanup;
  match created with
  | Err (RefusedError d) => Ret [skipf "runtime refused the privilege request: %s" [Astr d]]
  | Err err => Ret [failf "create: %v" [Aerr err]]
  | Ok id =>
      let! got := execOutput id ["kit-tck-privileged"] in
      some! got := got in
      let got := trim_space got in
      if negb (bool_decide (got = "yes"))
      then Ret [failf "the kit requested privilege; the sandbox reports %q" [Astr got]]
      else Ret []
  end).

(** ** Shared skills *)

Definition storeMountedAtDeclaredPath e : prog (list finding) :=
  in_sandbox e skillsComposition (λ id, all_findings (storeMountedAt id) [skillsReadOnlyPath; skillsWritablePath]).

Definition write_probe (id path : string) (judge : Result → list finding) : prog (list finding) :=
  let! res := exec id ["kit-tck-write"; path; "written"] in
  ok! res := res else err => [failf "probe write: %v" [Aerr err]] in
  Ret (judge res).
Definition must_fail (format : string) (res : Result) : list finding :=
  if (ExitCode res =? 0)%Z then [failf format []] else [].
Definition must_write (format : string) (res : Result) : list finding :=
  if negb (ExitCode res =? 0)%Z then [failf format [Astr (trim_space (Stderr res))]] else [].

Definition readonlyDefaultHonored e : prog (list finding) :=
  in_sandbox e skillsComposition (λ id,
    write_probe id (skillsReadOnlyPath +:+ "/intruder")
      (must_fail "the kit declared no mode, which means read-only, but the mount accepted a write")).

Definition recorded_mount (id : string) (recorded : string * string) : prog (list finding) :=
  let '(path, record) := recorded in
  let! seen := execOutput id ["cat"; record] in
  some! seen := seen in
  if negb (listsExactly seen SkillName)
  then Ret [failf "the install hook did not see %s at %s, so that mount arrived after hooks ran: %q"
              [Astr SkillName; Astr path; Astr (trim_space seen)]]
  else Ret [].
Definition mountedBeforeHooks e : prog (list finding) :=
  in_sandbox e skillsComposition (λ id,
    all_findings (recorded_mount id)
      [(skillsReadOnlyPath, "/var/tmp/skills-at-install"); (skillsWritablePath, "/var/tmp/skills-rw-at-install")]).

(** [if f := storeMountedAt(...); f != nil { return f }]. *)
Definition mounted (id path : string) (k : prog (list finding)) : prog (list finding) :=
  let! found := storeMountedAt id path in match found with [] => k | _ => Ret found end.
Definition sharedPathWidestMode e : prog (list finding) :=
  in_sandbox e [fixtureWorkload; fixtureSkills; fixtureSkillsShared] (λ id,
    mounted id skillsReadOnlyPath (
      write_probe id (skillsReadOnlyPath +:+ "/merged")
        (must_write "a co-composed kit declared this path readwrite, but the merged mount refused a write: %s"))).
Definition hostReadonlyNarrows e : prog (list finding) := function (
  let! (created, cleanup) := sandboxWith e skillsComposition (with_host_mode "readonly") in
  ok! id := created else err => [failf "create: %v" [Aerr err]] in
  do! Defer cleanup;
  mounted id skillsWritablePath (
    write_probe id (skillsWritablePath +:+ "/intruder")
      (must_fail "the host offers read-only, but the kit's readwrite request was granted anyway"))).
Definition sameStoreAtEveryPath e : prog (list finding) :=
  in_sandbox e skillsComposition (λ id,
    let probe := "kit-tck-cross-path-probe" in
    let! res := exec id ["kit-tck-write"; skillsWritablePath +:+ "/" +:+ probe; "written"] in
    ok! res := res else err => [failf "probe write: %v" [Aerr err]] in
    if negb (ExitCode res =? 0)%Z
    then Ret [failf "the writable mount refused the probe write: %s" [Astr (trim_space (Stderr res))]]
    else
      let! listing := execOutput id ["ls"; skillsReadOnlyPath] in
      some! listing := listing in
      if negb (listsExactly listing probe)
      then Ret [failf "a write through %s is invisible through %s, so the declared paths are backed by separate copies rather than the one shared store"
                  [Astr skillsWritablePath; Astr skillsReadOnlyPath]]
      else Ret []).
Definition readwriteGrantedWhenBothAllow e : prog (list finding) :=
  in_sandbox e skillsComposition (λ id,
    mounted id skillsWritablePath (
      write_probe id (skillsWritablePath +:+ "/added") (must_write "both sides allow write, but the mount refused it: %s"))).

(** ** The suite *)

Context (DeepEqual : SelectionState → SelectionState → bool).

Definition declared_checks : list check :=
  gitIdentityChecks ++
  [mkCheckOf "credential@1/sentinel-phase-scoped" capCredential [capLifecycle] credentialSentinelPhaseScoped;
   mkCheckOf "SPEC-v3 §6/env-expanded" capLifecycle [] finalEnvironmentPrecedence;
   mkCheckOf "ssh-agent@1/destination-keys-outside-sandbox" capSSHAgent [] sshAgentDestinationKeys;
   mkCheckOf "ssh-agent@1/agent-reachable" capSSHAgent [] sshAgentReachable;
   mkCheckOf "ssh-agent@1/operations-restricted" capSSHAgent [] sshAgentRestricted;
   mkCheckOf "ssh-agent@1/signatures-bounded" capSSHAgent [] sshAgentSignaturesBounded;
   mkCheckOf "ssh-agent@1/logins-bounded" capSSHAgent [] sshAgentLoginsBounded;
   mkCheckOf "ssh-agent@1/binding-verified" capSSHAgent [] sshAgentBindingVerified;
   mkCheckOf "ssh-agent@1/absent-without-grant" capSSHAgent [] sshAgentAbsentWithoutGrant;
   mkCheckOf "ssh-agent@1/phase-scoped" capSSHAgent [capLifecycle] sshAgentPhaseScoped;
   mkCheckOf "ssh-agent@1/every-boot" capSSHAgent [] sshAgentEveryBoot;
   mkCheckOf "ssh-agent@1/unavailable-refuses-required" capSSHAgent [] sshAgentRequiredRefused;
   mkCheckOf "ssh-agent@1/unavailable-skips-optional" capSSHAgent [] sshAgentOptionalSkipped;
   mkCheckOf "SPEC-v3 §7.1.1/validate-expanded-declarations" capLifecycle [] groupExpandedValidation;
   mkCheckOf "SPEC-v3 §7.1.1/atomic-selection" "" [] atomicSelection;
   mkCheckOf "SPEC-v3 §7.1.1/conflicts" capLifecycle [] groupConflicts;
   mkCheckOf "SPEC-v3 §7.1.1/lifetime" capLifecycle [groupVolume] (groupLifetime DeepEqual);
   mkCheckOf "SPEC-v3 §7.1.1/execution" capLifecycle [] groupExecution;
   mkCheckOf "long-running@1/survives-session-disconnect" capLongRunning [] survivesSessionDisconnect;
   mkCheckOf "long-running@1/explicit-stop-honored" capLongRunning [] longRunningStop;
   mkCheckOf "conformance.md §2.2/optional-long-running-accepted" "" [] optionalLongRunning;
   mkCheckOf "SPEC-v3 §7.3/unknown-required-refused" "" [] unknownRequiredRefused;
   mkCheckOf "conformance.md §2.1/baseline-create-succeeds" "" [] baselineCreateSucceeds;
   mkCheckOf "conformance.md §2.2/required-unclaimed-refused" "" [] requiredUnclaimedRefused;
   mkCheckOf "lifecycle@1/install-once" capLifecycle [] installOnce;
   mkCheckOf "lifecycle@1/startup-every-boot" capLifecycle [] startupEveryBoot;
   mkCheckOf "lifecycle@1/hook-env-restricted" capLifecycle [] hookEnvRestricted;
   mkCheckOf "lifecycle@1/files-written" capLifecycle [] filesWritten;
   mkCheckOf "network-policy@1/deny-by-default" capNetworkPolicy [] (denyByDefault fixtureScopedEgress);
   mkCheckOf "network-policy@2/deny-by-default" capNetworkPolicyV2 [] (denyByDefault fixtureScopedEgressV2);
   mkCheckOf "network-policy@1/install-phase-scoped" capNetworkPolicy [capLifecycle] (installPhaseScoped fixtureScopedEgress);
   mkCheckOf "network-policy@2/install-phase-scoped" capNetworkPolicyV2 [capLifecycle] (installPhaseScoped fixtureScopedEgressV2);
   mkCheckOf "network-policy@2/http-method-enforced" capNetworkPolicyV2 [] httpMethodEnforced;
   mkCheckOf "network-policy@2/http-path-enforced" capNetworkPolicyV2 [] httpPathEnforced;
   mkCheckOf "network-policy@2/http-deny-precedence" capNetworkPolicyV2 [] httpDenyPrecedence;
   mkCheckOf "credential@1/secret-absent-in-sandbox" capCredential [] secretAbsentInSandbox;
   mkCheckOf "credential@1/inject-only-no-env" capCredential [] injectOnlyNoEnv;
   mkCheckOf "sbx@1/honors-image-user" capSbx [] honorsImageUser;
   mkCheckOf "sbx@1/workspace-at-workdir" capSbx [capAgentContext] workspaceAtWorkdir;
   mkCheckOf "sbx@1/entrypoint-not-pid-one" capSbx [] entrypointNotPidOne].

Definition runtime_checks : list check :=
  [mkCheckOf "agent-context@1/body-readable" capAgentContext [] bodyReadable;
   mkCheckOf "volume@1/persists-across-recreate" capVolume [] persistsAcrossRecreate;
   mkCheckOf "resources@1/limit-applied" capResources [] limitApplied;
   mkCheckOf "privileged@1/elevation-granted" capPrivileged [] elevationGranted;
   mkCheckOf "agent-skills@1/store-mounted-at-declared-path" capAgentSkills [] storeMountedAtDeclaredPath;
   mkCheckOf "agent-skills@1/readonly-default-honored" capAgentSkills [] readonlyDefaultHonored;
   mkCheckOf "agent-skills@1/mounted-before-hooks" capAgentSkills [capLifecycle] mountedBeforeHooks;
   mkCheckOf "agent-skills@1/shared-path-widest-mode" capAgentSkills [] sharedPathWidestMode;
   mkCheckOf "agent-skills@1/host-readonly-narrows" capAgentSkills [] hostReadonlyNarrows;
   mkCheckOf "agent-skills@1/host-store-optional" capAgentSkills []
     (skillsWithoutHost fixtureSkills skillsReadOnlyPath (with_host_mode "off"));
   mkCheckOf "agent-skills@1/host-off-keeps-optional" capAgentSkills []
     (skillsWithoutHost fixtureSkillsOptional skillsOptionalPath (with_host_mode "off"));
   mkCheckOf "agent-skills@1/same-store-at-every-path" capAgentSkills [] sameStoreAtEveryPath;
   mkCheckOf "agent-skills@1/readwrite-granted-when-both-allow" capAgentSkills [] readwriteGrantedWhenBothAllow].

(** [checks] once the package is initialised: its variable, then what the files' [init]
    functions append, in the order of the files. *)
Definition checks : list check := declared_checks ++ bundledSkillChecks ++ runtime_checks.

(** [Run]. *)
Definition Run (e : Env) (st : state) : Report detail * option suite_error * Env * state := runChecks e checks st.
End Roster.
