(* ===== verification/SuiteTidy.v ===== *)
(** The discipline of the checks: a sandbox a check creates is removed, once, before
    the check returns, and a verb is only ever about a sandbox that is there.

    [wp] is the weakest precondition of a program over the sandboxes that exist and the
    calls deferred; [tidy] is what a part of a check has to satisfy, in the function
    whose frame it defers to ([Framed]) or apart from one ([Plain]).  Every check of the
    suite satisfies it ([checks_keep]). *)
From stdpp Require Import gmultiset options.
From S2P Require Import Prelude GoStrings Json Types Config Marshal Surface GoPath Selection Report Adapter Backing Suite SuiteGroups SuiteIdentity SuiteSSH SuiteChecks.

Notation sandboxes := (gmultiset string).

(** ** What a cleanup takes *)

Definition spend (c : cleanup) (live : sandboxes) : option sandboxes :=
  match c with
  | Removes id => if decide (id ∈ live) then Some (live ∖ {[+ id +]}) else None
  | _ => Some live
  end.
Fixpoint spend_all (cs : list cleanup) (live : sandboxes) : option sandboxes :=
  match cs with
  | [] => Some live
  | c :: cs => match spend c live with Some live => spend_all cs live | None => None end
  end.

Lemma held_none (live : sandboxes) : ∅ ⊎ live = live.
Proof. multiset_solver. Qed.

Section Tidy.
Context `{SSH}.
Implicit Types (live held : sandboxes) (outer : list (list cleanup)).

(** ** Weakest preconditions *)

Definition call_wp (c : call) live outer (post : reply c → sandboxes → list (list cleanup) → Prop) : Prop :=
  match c return (reply c → sandboxes → list (list cleanup) → Prop) → Prop with
  | Enter => λ post, post () live ([] :: outer)
  | Leave => λ post, ∃ frame rest live', outer = frame :: rest ∧ spend_all frame live = Some live' ∧ post () live' rest
  | Defer c => λ post, ∃ frame rest, outer = frame :: rest ∧ post () live ((c :: frame) :: rest)
  | Clean c => λ post, ∃ live', spend c live = Some live' ∧ post () live' outer
  | CallCreate _ _ => λ post, (∀ err, post (Err err) live outer) ∧ ∀ id, post (Ok id) ({[+ id +]} ⊎ live) outer
  | CallExec _ id _ => λ post, id ∈ live ∧ ∀ r, post r live outer
  | CallAct _ id => λ post, id ∈ live ∧ ∀ r, post r live outer
  | CallStatus id => λ post, id ∈ live ∧ ∀ r, post r live outer
  | CallSelection id => λ post, id ∈ live ∧ ∀ r, post r live outer
  | CallReject id _ => λ post, id ∈ live ∧ ∀ r, post r live outer
  | CallWithTimeout _ => λ post, ∀ r, post r live outer
  | CallSelect _ _ => λ post, ∀ r, post r live outer
  | CallMkdirTemp _ _ => λ post, ∀ r, post r live outer
  | CallWriteFile _ _ => λ post, ∀ r, post r live outer
  | CallReadFile _ => λ post, ∀ r, post r live outer
  | CallGenerateKey => λ post, ∀ r, post r live outer
  | CallServe _ _ => λ post, ∀ r, post r live outer
  | CallSign _ _ => λ post, ∀ r, post r live outer
  | CallRandom _ => λ post, ∀ r, post r live outer
  | CallAgentKeys _ => λ post, ∀ r, post r live outer
  | CallCounters _ => λ post, ∀ r, post r live outer
  | CallSigned _ => λ post, ∀ r, post r live outer
  end post.

Fixpoint wp {A} (p : prog A) live outer (post : A → sandboxes → list (list cleanup) → Prop) : Prop :=
  match p with
  | Ret x => post x live outer
  | Do c k => call_wp c live outer (λ r live outer, wp (k r) live outer post)
  end.

Lemma call_wp_mono (c : call) live outer (P Q : reply c → sandboxes → list (list cleanup) → Prop) :
  (∀ r l o, P r l o → Q r l o) → call_wp c live outer P → call_wp c live outer Q.
Proof. intros HPQ. destruct c; cbn; naive_solver. Qed.
Lemma wp_mono {A} (p : prog A) (P Q : A → sandboxes → list (list cleanup) → Prop) live outer :
  (∀ x l o, P x l o → Q x l o) → wp p live outer P → wp p live outer Q.
Proof.
  intros HPQ. revert live outer. induction p as [x|c k IH]; intros live outer; cbn; [apply HPQ|].
  apply call_wp_mono. intros r l o. apply IH.
Qed.
Lemma wp_bind {A B} (p : prog A) (f : A → prog B) Q live outer :
  wp p live outer (λ x l o, wp (f x) l o Q) → wp (pbind p f) live outer Q.
Proof.
  revert live outer. induction p as [x|c k IH]; intros live outer; cbn; [done|].
  apply call_wp_mono. intros r l o. apply IH.
Qed.

(** ** The discipline *)

Inductive mode := Plain | Framed.
(** What the sandboxes and frames have become since a part of a check began: nothing
    new, or what the running function's deferred calls take back. *)
Definition settled (m : mode) (live0 : sandboxes) (outer0 : list (list cleanup)) live outer : Prop :=
  match m with
  | Plain => live = live0 ∧ outer = outer0
  | Framed => ∃ frame, outer = frame :: outer0 ∧ spend_all frame live = Some live0
  end.
Definition tidy (m : mode) (ids : list string) held {A} (p : prog A) : Prop :=
  ∀ live0 outer0 live outer,
    settled m live0 outer0 live outer → (∀ id, id ∈ ids → id ∈ live) →
    wp p (held ⊎ live) outer (λ _ live' outer', settled m live0 outer0 live' outer' ∧ ∀ id, id ∈ ids → id ∈ live').
(** A part that leaves the sandboxes and frames as they are. *)
Notation keeps ids p := (tidy Plain ids ∅ p).

Lemma keeps_wp {A} ids (p : prog A) live outer :
  keeps ids p → (∀ id, id ∈ ids → id ∈ live) →
  wp p live outer (λ _ live' outer', live' = live ∧ outer' = outer).
Proof.
  intros Hp Hids. specialize (Hp live outer live outer (conj eq_refl eq_refl) Hids).
  rewrite held_none in Hp. revert Hp. apply wp_mono. by intros x l o [[-> ->] _].
Qed.

Lemma tidy_ret {A} m ids (x : A) : tidy m ids ∅ (Ret x).
Proof. intros live0 outer0 live outer Hs Hids. cbn [wp call_wp function sandboxWith pbind]. rewrite held_none. by split. Qed.
Lemma tidy_bind_keeps {A B} m ids ids' held (p : prog A) (k : A → prog B) :
  keeps ids' p → (∀ id, id ∈ ids' → id ∈ ids ∨ id ∈ held) → (∀ x, tidy m ids held (k x)) →
  tidy m ids held (pbind p k).
Proof.
  intros Hp Hin Hk live0 outer0 live outer Hs Hids. apply wp_bind.
  eapply wp_mono; [|apply (keeps_wp ids' p _ _ Hp)].
  - intros x l o [-> ->]. by apply Hk.
  - intros id [Hid|Hid]%Hin; [|multiset_solver]. specialize (Hids _ Hid). multiset_solver.
Qed.
Lemma tidy_bind {A B} m ids (p : prog A) (k : A → prog B) :
  tidy m ids ∅ p → (∀ x, tidy m ids ∅ (k x)) → tidy m ids ∅ (pbind p k).
Proof.
  intros Hp Hk live0 outer0 live outer Hs Hids. apply wp_bind.
  eapply wp_mono; [|apply (Hp live0 outer0 live outer Hs Hids)].
  intros x l o [Hs' Hids']. specialize (Hk x live0 outer0 l o Hs' Hids').
  by rewrite held_none in Hk.
Qed.
Lemma tidy_call {A} m ids held (c : call) (k : reply c → prog A) :
  (∀ live outer post, (∀ id, id ∈ ids → id ∈ live) → (∀ id, id ∈ held → id ∈ live) →
    (∀ r, post r live outer) → call_wp c live outer post) →
  (∀ r, tidy m ids held (k r)) → tidy m ids held (Do c k).
Proof.
  intros Hc Hk live0 outer0 live outer Hs Hids. cbn [wp call_wp function sandboxWith pbind]. apply Hc; [multiset_solver|multiset_solver|].
  intros r. by apply Hk.
Qed.
Lemma tidy_function {A} ids (body : prog A) : tidy Framed ids ∅ body → keeps ids (function body).
Proof.
  intros Hb live0 outer0 live outer [-> ->] Hids. cbn [wp call_wp function sandboxWith pbind]. rewrite held_none. apply wp_bind.
  specialize (Hb live0 outer0 live0 ([] :: outer0)). rewrite held_none in Hb.
  eapply wp_mono; [|apply Hb; [by exists []|done]].
  intros x l o [(frame & -> & Hspend) _]. cbn [wp call_wp function sandboxWith pbind]. exists frame, outer0, live0. repeat split; auto.
Qed.
Lemma tidy_plain {A} m ids (p : prog A) : keeps ids p → tidy m ids ∅ p.
Proof.
  intros Hp live0 outer0 live outer Hs Hids. rewrite held_none.
  eapply wp_mono; [|apply (keeps_wp ids p _ _ Hp Hids)]. by intros x l o [-> ->].
Qed.
Lemma tidy_weaken {A} m ids ids' (p : prog A) : keeps ids' p → (∀ id, id ∈ ids' → id ∈ ids) → tidy m ids ∅ p.
Proof.
  intros Hp Hin live0 outer0 live outer Hs Hids. rewrite held_none.
  eapply wp_mono; [|apply (keeps_wp ids' p _ _ Hp); auto]. by intros x l o [-> ->].
Qed.

(** A sandbox that was created is held until its removal is deferred or done. *)
Lemma tidy_sandboxWith {A} m ids e kits opts (k : result adapter_error string * cleanup → prog A) :
  (∀ err, tidy m ids ∅ (k (Err err, NoCleanup))) →
  (∀ id, tidy m ids {[+ id +]} (k (Ok id, Removes id))) → tidy m ids ∅ (pbind (sandboxWith e kits opts) k).
Proof.
  intros Herr Hok live0 outer0 live outer Hs Hids. cbn [wp call_wp function sandboxWith pbind]. rewrite held_none. split.
  - intros err. specialize (Herr err live0 outer0 live outer Hs Hids). by rewrite held_none in Herr.
  - intros id. by apply Hok.
Qed.
Lemma spend_held id live : spend (Removes id) ({[+ id +]} ⊎ live) = Some live.
Proof. cbn [spend]. rewrite decide_True by multiset_solver. f_equal. multiset_solver. Qed.
Lemma tidy_defer {A} ids id (k : () → prog A) :
  tidy Framed (id :: ids) ∅ (k ()) → tidy Framed ids {[+ id +]} (Do (Defer (Removes id)) k).
Proof.
  intros Hk live0 outer0 live outer (frame & -> & Hspend) Hids. cbn [wp call_wp function sandboxWith pbind]. exists frame, outer0. split; [done|].
  specialize (Hk live0 outer0 ({[+ id +]} ⊎ live) ((Removes id :: frame) :: outer0)).
  rewrite held_none in Hk. eapply wp_mono; [|apply Hk].
  - intros x l o [Hs Hids']. split; [done|]. intros i Hi. apply Hids'. by right.
  - exists (Removes id :: frame). split; [done|]. cbn [spend_all]. by rewrite spend_held.
  - intros i [->|Hi]%elem_of_cons; [multiset_solver|]. specialize (Hids _ Hi). multiset_solver.
Qed.
Lemma tidy_clean {A} m ids id (k : () → prog A) :
  tidy m ids ∅ (k ()) → tidy m ids {[+ id +]} (Do (Clean (Removes id)) k).
Proof.
  intros Hk live0 outer0 live outer Hs Hids. cbn [wp call_wp]. exists live. rewrite spend_held. split; [done|].
  specialize (Hk live0 outer0 live outer Hs Hids). by rewrite held_none in Hk.
Qed.
(** A cleanup that is not of a sandbox. *)
Definition other_cleanup (c : cleanup) : bool := match c with Removes _ => false | _ => true end.
Lemma tidy_defer_other {A} ids c (k : () → prog A) :
  other_cleanup c = true → tidy Framed ids ∅ (k ()) → tidy Framed ids ∅ (Do (Defer c) k).
Proof.
  intros Hc Hk live0 outer0 live outer (frame & -> & Hspend) Hids. cbn [wp call_wp function sandboxWith pbind]. exists frame, outer0. split; [done|].
  apply (Hk live0 outer0 live ((c :: frame) :: outer0)); [|done].
  exists (c :: frame). split; [done|]. by destruct c.
Qed.
Lemma tidy_clean_other {A} m ids c (k : () → prog A) :
  other_cleanup c = true → tidy m ids ∅ (k ()) → tidy m ids ∅ (Do (Clean c) k).
Proof.
  intros Hc Hk live0 outer0 live outer Hs Hids. cbn [wp call_wp function sandboxWith pbind]. exists (∅ ⊎ live).
  split; [by destruct c|]. by apply Hk.
Qed.
End Tidy.
Notation keeps ids p := (tidy Plain ids ∅ p).

(** ** The checks keep it *)

Create HintDb tidy.
Create HintDb suite discriminated.
#[export] Hint Constants Opaque : suite.

(** Membership of a list of sandboxes in the ones that are there. *)
Ltac member :=
  let i := fresh "i" in let Hi := fresh "Hi" in
  intros i Hi;
  repeat (apply elem_of_cons in Hi as [->|Hi]; [first [left; by repeat constructor|right; multiset_solver]|]);
  by apply not_elem_of_nil in Hi.
Ltac present :=
  let Hids := fresh "Hids" in let Hheld := fresh "Hheld" in let Hp := fresh "Hp" in
  intros ??? Hids Hheld Hp;
  first [exact Hp
        |split; [first [apply Hids; by repeat constructor|apply Hheld; multiset_solver]|exact Hp]].

(** One step of a program's discipline. *)
Ltac tidy_step :=
  cbn beta iota zeta;
  match goal with
  | |- tidy _ _ _ (Ret _) => apply tidy_ret
  | |- tidy Plain _ _ (function _) => apply tidy_function
  | |- tidy Framed _ _ (function _) => apply tidy_plain
  | |- tidy _ _ _ (pbind (sandbox _ _ _) _) => unfold sandbox at 1
  | |- tidy _ _ _ (pbind (sandboxWith _ _ _) _) => apply tidy_sandboxWith; intros
  | |- tidy _ _ _ (Do (Defer (Removes _)) _) => apply tidy_defer
  | |- tidy _ _ _ (Do (Clean (Removes _)) _) => apply tidy_clean
  | |- tidy _ _ _ (Do (Defer _) _) => apply tidy_defer_other; [reflexivity|]
  | |- tidy _ _ _ (Do (Clean _) _) => apply tidy_clean_other; [reflexivity|]
  | |- tidy _ _ _ (Do _ _) => apply tidy_call; [present|intros]
  | |- tidy _ _ _ (pbind ?p _) =>
      first [eapply tidy_bind_keeps; [solve [eauto with tidy]|member|intros]
            |apply tidy_bind; [solve [eauto with tidy]|intros]
            |match p with match _ with _ => _ end => apply tidy_bind; [|intros] end]
  | |- tidy _ _ _ (unless _ _) => unfold unless at 1
  | |- tidy _ _ _ (match ?x with _ => _ end) => destruct x
  | |- tidy _ _ _ _ => solve [eauto with tidy|eapply tidy_weaken; [solve [eauto with tidy]|set_solver]]
  end.
Ltac tidy_program := repeat tidy_step.

Section Discipline.
Context `{SSH, MapOrder}.
Implicit Types (e : subject).

(** ** Probes *)

Lemma keeps_exec id argv : keeps [id] (exec id argv).
Proof. unfold exec, call_. tidy_program. Qed.
Hint Resolve keeps_exec : tidy.
Lemma keeps_execOutputWithin ctx id argv : keeps [id] (execOutputWithin ctx id argv).
Proof. unfold execOutputWithin. tidy_program. Qed.
Hint Resolve keeps_execOutputWithin : tidy.
Lemma keeps_execOutput id argv : keeps [id] (execOutput id argv).
Proof. apply keeps_execOutputWithin. Qed.
Hint Resolve keeps_execOutput : tidy.
Lemma keeps_run_act x id : keeps [id] (run_act x id).
Proof. unfold run_act, call_. tidy_program. Qed.
Hint Resolve keeps_run_act : tidy.
Lemma keeps_httpAllowed id method url : keeps [id] (httpAllowed id method url).
Proof. unfold httpAllowed. tidy_program. Qed.
Hint Resolve keeps_httpAllowed : tidy.
Lemma keeps_httpRefused id method url accepted : keeps [id] (httpRefused id method url accepted).
Proof. unfold httpRefused. tidy_program. Qed.
Hint Resolve keeps_httpRefused : tidy.
Lemma keeps_storeMountedAt id path : keeps [id] (storeMountedAt id path).
Proof. unfold storeMountedAt. tidy_program. Qed.
Hint Resolve keeps_storeMountedAt : tidy.
Lemma keeps_poll_record fuel ctx id path accept : keeps [id] (poll_record fuel ctx id path accept).
Proof. induction fuel as [|fuel IH]; cbn [poll_record]; tidy_program. Qed.
Hint Resolve keeps_poll_record : tidy.
Lemma keeps_poll id path accept gave_up : keeps [id] (poll_file id path accept gave_up).
Proof. unfold poll_file. tidy_program. Qed.
Hint Resolve keeps_poll : tidy.

Lemma tidy_first_findings {A} m ids (f : A → prog (list finding)) l :
  (∀ x, x ∈ l → tidy m ids ∅ (f x)) → tidy m ids ∅ (first_findings f l).
Proof.
  induction l as [|x l IH]; cbn [first_findings]; intros Hf; [apply tidy_ret|].
  apply tidy_bind; [apply Hf; by left|]. intros found. destruct found; [|apply tidy_ret].
  apply IH. intros y Hy. apply Hf. by right.
Qed.
Lemma tidy_all_findings {A} m ids (f : A → prog (list finding)) l :
  (∀ x, x ∈ l → tidy m ids ∅ (f x)) → tidy m ids ∅ (all_findings f l).
Proof.
  induction l as [|x l IH]; cbn [all_findings]; intros Hf; [apply tidy_ret|].
  apply tidy_bind; [apply Hf; by left|]. intros found. apply tidy_bind; [|intros; apply tidy_ret].
  apply IH. intros y Hy. apply Hf. by right.
Qed.

(** ** Groups *)

Lemma tidy_ordinarySelection_case e reject : tidy Framed [] ∅ (ordinarySelection_case e reject).
Proof. unfold ordinarySelection_case. tidy_program. Qed.
Lemma keeps_ordinarySelection e : keeps [] (ordinarySelection e).
Proof.
  unfold ordinarySelection. tidy_step. apply tidy_bind; [|intros found; tidy_program].
  apply tidy_first_findings. intros ? _. apply tidy_ordinarySelection_case.
Qed.
Hint Resolve keeps_ordinarySelection : tidy.
Lemma keeps_republishedGroupSelection e : keeps [] (republishedGroupSelection e).
Proof.
  unfold republishedGroupSelection. tidy_step. apply tidy_first_findings. intros ? _.
  unfold republished_case. tidy_program.
Qed.
Hint Resolve keeps_republishedGroupSelection : tidy.
Lemma keeps_groupedLifecycleRejection e : keeps [] (groupedLifecycleRejection e).
Proof. unfold groupedLifecycleRejection. tidy_program. Qed.
Hint Resolve keeps_groupedLifecycleRejection : tidy.
Lemma keeps_group_observed e reject id : keeps [id] (group_observed e reject id).
Proof. unfold group_observed. tidy_program. Qed.
Hint Resolve keeps_group_observed : tidy.
Lemma tidy_group_case e reject : tidy Framed [] ∅ (group_case e reject).
Proof. unfold group_case. tidy_program. Qed.
Lemma keeps_required_group_case e case : keeps [] (required_group_case e case).
Proof. unfold required_group_case. destruct case. tidy_program. Qed.
Lemma keeps_groupSelection e : keeps [] (groupSelection e).
Proof.
  unfold groupSelection. tidy_step. apply tidy_bind.
  { apply tidy_first_findings. intros ? _. apply tidy_group_case. }
  intros found. destruct found; [|apply tidy_ret]. apply tidy_plain, tidy_first_findings. intros p Hp.
  repeat (apply elem_of_cons in Hp as [->|Hp]; [|]); last by apply not_elem_of_nil in Hp.
  1: apply tidy_first_findings; intros ? _; apply keeps_required_group_case.
  all: cbn [id]; auto with tidy.
Qed.
Hint Resolve keeps_groupSelection : tidy.
Lemma tidy_partial_group e lifecycle : tidy Framed [] ∅ (partial_group e lifecycle).
Proof. unfold partial_group. tidy_program. Qed.
Hint Resolve tidy_partial_group : tidy.
Lemma keeps_atomicSelection e : keeps [] (atomicSelection e).
Proof. unfold atomicSelection. tidy_program. Qed.
Lemma keeps_groupConflicts e : keeps [] (groupConflicts e).
Proof. apply tidy_first_findings. intros ? _. unfold groupConflicts_case. tidy_program. Qed.
Lemma keeps_fresh_selection rejected id order : keeps [id] (fresh_selection rejected id order).
Proof. unfold fresh_selection. tidy_program. Qed.
Hint Resolve keeps_fresh_selection : tidy.
Lemma keeps_groupLifetime DeepEqual e : keeps [] (groupLifetime DeepEqual e).
Proof. apply tidy_first_findings. intros rejected _. unfold groupLifetimeFrom. destruct rejected; tidy_program. Qed.
Lemma keeps_groupExecution e : keeps [] (groupExecution e).
Proof. unfold groupExecution. tidy_program. Qed.
Lemma keeps_groupExpandedValidation e : keeps [] (groupExpandedValidation e).
Proof.
  do 3 (apply tidy_first_findings; intros ? _). unfold expanded_case. tidy_program.
Qed.

(** ** The Git identity *)

Lemma keeps_withGitIdentity run :
  (∀ file original, tidy Framed [] ∅ (run file original)) → keeps [] (withGitIdentity run).
Proof.
  intros Hrun. unfold withGitIdentity. tidy_program. all: apply Hrun.
Qed.
Lemma keeps_gitIdentityOutput id mode want : keeps [id] (gitIdentityOutput id mode want).
Proof. unfold gitIdentityOutput. tidy_program. Qed.
Hint Resolve keeps_gitIdentityOutput : tidy.
Lemma keeps_identity_defaults e file findings fixtures : keeps [] (identity_defaults e file findings fixtures).
Proof.
  revert findings. induction fixtures as [|fixture fixtures IH]; intros findings; cbn [identity_defaults]; tidy_program.
Qed.
Lemma keeps_gitIdentityDefaults e : keeps [] (gitIdentityDefaults e).
Proof. apply keeps_withGitIdentity. intros file ?. apply tidy_plain, keeps_identity_defaults. Qed.
Lemma keeps_gitIdentityObservation mode want fixtures e : keeps [] (gitIdentityObservation mode want fixtures e).
Proof. apply keeps_withGitIdentity. intros file ?. tidy_program. Qed.
Lemma keeps_gitIdentitySkipped e id : keeps [id] (gitIdentitySkipped e id).
Proof. unfold gitIdentitySkipped. tidy_program. Qed.
Hint Resolve keeps_gitIdentitySkipped : tidy.
Lemma keeps_unavailable_from e missing source : keeps [] (unavailable_from e missing source).
Proof. unfold unavailable_from. tidy_program. Qed.
Hint Resolve keeps_unavailable_from : tidy.
Lemma keeps_gitIdentityUnavailable e : keeps [] (gitIdentityUnavailable e).
Proof.
  apply keeps_withGitIdentity. intros file ?. apply tidy_first_findings. intros missing _.
  unfold unavailable_case. tidy_program.
Qed.
Lemma keeps_hooks_case id name op : (∀ id, keeps [id] (op id)) → keeps [id] (hooks_case id (name, op)).
Proof. intros Hop. unfold hooks_case. tidy_program. Qed.
Lemma keeps_restart id : keeps [id] (restart id).
Proof. unfold restart. tidy_program. Qed.
Lemma keeps_gitIdentityBeforeHooks e : keeps [] (gitIdentityBeforeHooks e).
Proof.
  apply keeps_withGitIdentity. intros file ?. tidy_program.
  apply tidy_plain, tidy_first_findings. intros op Hop.
  repeat (apply elem_of_cons in Hop as [->|Hop]; [|]); last by apply not_elem_of_nil in Hop.
  all: apply keeps_hooks_case; intros; auto using keeps_restart, keeps_run_act.
Qed.
Lemma keeps_persistence_case id operation : keeps [id] (persistence_case id operation).
Proof.
  unfold persistence_case. destruct operation as [name op]. tidy_program.
  apply tidy_first_findings. intros ? _. apply keeps_gitIdentityOutput.
Qed.
Lemma keeps_gitIdentityPersistence e : keeps [] (gitIdentityPersistence e).
Proof.
  apply keeps_withGitIdentity. intros file ?. tidy_program.
  eapply tidy_weaken; [apply tidy_first_findings; intros ? _; apply keeps_persistence_case|]. set_solver.
Qed.
Lemma keeps_gitIdentitySourceUnchanged e : keeps [] (gitIdentitySourceUnchanged e).
Proof. apply keeps_withGitIdentity. intros file ?. tidy_program. Qed.

(** ** Skills *)

Lemma keeps_bundledProbe id mode want : keeps [id] (bundledProbe id mode want).
Proof. unfold bundledProbe. tidy_program. Qed.
Hint Resolve keeps_bundledProbe : tidy.
Lemma keeps_mounts id paths : keeps [id] (all_findings (storeMountedAt id) paths).
Proof. apply tidy_all_findings. intros ? _. apply keeps_storeMountedAt. Qed.
Hint Resolve keeps_mounts : tidy.
Lemma keeps_bundledObservation mode want shared e : keeps [] (bundledObservation mode want shared e).
Proof. unfold bundledObservation. tidy_program. Qed.
Lemma keeps_bundledUnavailable e : keeps [] (bundledUnavailable e).
Proof. unfold bundledUnavailable. tidy_program. Qed.
Lemma keeps_bundledHostConflict e : keeps [] (bundledHostConflict e).
Proof. unfold bundledHostConflict. tidy_program. Qed.
Lemma keeps_bundledConflict e : keeps [] (bundledConflict e).
Proof. unfold bundledConflict. tidy_program. Qed.
Lemma keeps_skillsWithoutHost fixture path opts e : keeps [] (skillsWithoutHost fixture path opts e).
Proof. unfold skillsWithoutHost. tidy_program. Qed.
Hint Resolve keeps_skillsWithoutHost : tidy.
Lemma keeps_skillsWithoutStore store e : keeps [] (skillsWithoutStore store e).
Proof. unfold skillsWithoutStore. tidy_program. Qed.
Lemma keeps_bundledWithoutStore store e : keeps [] (bundledWithoutStore store e).
Proof. unfold bundledWithoutStore. tidy_program. Qed.

(** ** The SSH agent *)

Lemma keeps_startBackingAgent : keeps [] startBackingAgent.
Proof. unfold startBackingAgent. tidy_program. Qed.
Hint Resolve keeps_startBackingAgent : tidy.
Lemma keeps_withBackingAgent run : (∀ a, tidy Framed [] ∅ (run a)) → keeps [] (withBackingAgent run).
Proof. intros Hrun. unfold withBackingAgent. tidy_program. all: apply Hrun. Qed.
Lemma keeps_Requests a : keeps [] (Requests a).
Proof. unfold Requests. tidy_program. Qed.
Lemma keeps_RequestsOfType a kind : keeps [] (RequestsOfType a kind).
Proof. unfold RequestsOfType. tidy_program. Qed.
Lemma keeps_Signed a : keeps [] (Signed a).
Proof. unfold Signed, call_. tidy_program. Qed.
Lemma keeps_Holds a : keeps [] (Holds a).
Proof. unfold Holds. tidy_program. Qed.
Hint Resolve keeps_Requests keeps_RequestsOfType keeps_Signed keeps_Holds : tidy.
Lemma keeps_probeSign id a args : keeps [id] (probeSign id a args).
Proof. unfold probeSign. tidy_program. Qed.
Hint Resolve keeps_probeSign : tidy.
Lemma keeps_expectSigned id a want args : keeps [id] (expectSigned id a want args).
Proof. unfold expectSigned. tidy_program. Qed.
Lemma keeps_expectRefused id a what args : keeps [id] (expectRefused id a what args).
Proof. unfold expectRefused. tidy_program. Qed.
Hint Resolve keeps_expectSigned keeps_expectRefused : tidy.
Lemma keeps_agentServes id a : keeps [id] (agentServes id a).
Proof. unfold agentServes. tidy_program. Qed.
Lemma keeps_initialAgentProof id path previous : keeps [id] (initialAgentProof id path previous).
Proof. apply keeps_poll. Qed.
Hint Resolve keeps_agentServes keeps_initialAgentProof : tidy.
Lemma keeps_agentUnreachable id a when_ : keeps [id] (agentUnreachable id a when_).
Proof. unfold agentUnreachable. tidy_program. Qed.
Lemma keeps_initial_serves id a previous path : keeps [id] (initial_serves id a previous path).
Proof. unfold initial_serves. tidy_program. Qed.
Hint Resolve keeps_agentUnreachable keeps_initial_serves : tidy.
Lemma keeps_initial_loop id a previous proofs paths : keeps [id] (initial_loop id a previous proofs paths).
Proof. revert proofs. induction paths as [|path paths IH]; intros proofs; cbn [initial_loop]; tidy_program. Qed.
Lemma keeps_initialAgentsServe e id a previous : keeps [id] (initialAgentsServe e id a previous).
Proof. apply keeps_initial_loop. Qed.
Hint Resolve keeps_initialAgentsServe : tidy.
Lemma keeps_not_forwarded a kinds : keeps [] (not_forwarded a kinds).
Proof. induction kinds as [|kind kinds IH]; cbn [not_forwarded]; tidy_program. Qed.
Hint Resolve keeps_not_forwarded : tidy.
Lemma keeps_agentProofRestrictions a proof bounded : keeps [] (agentProofRestrictions a proof bounded).
Proof. unfold agentProofRestrictions. tidy_program. Qed.
Hint Resolve keeps_agentProofRestrictions : tidy.
Lemma keeps_proofs_restricted a bounded boot proofs : keeps [] (proofs_restricted a bounded boot proofs).
Proof. induction proofs as [|[path proof] proofs IH]; cbn [proofs_restricted]; tidy_program. Qed.
Hint Resolve keeps_proofs_restricted : tidy.
Lemma keeps_boot_restrictions e id a bounded boot previous : keeps [id] (boot_restrictions e id a bounded boot previous).
Proof. unfold boot_restrictions. tidy_program. Qed.
Hint Resolve keeps_boot_restrictions : tidy.
Lemma keeps_initialProcessRestrictions e id a bounded : keeps [id] (initialProcessRestrictions e id a bounded).
Proof. unfold initialProcessRestrictions. tidy_program. Qed.
Hint Resolve keeps_initialProcessRestrictions : tidy.

(** ** Logins *)

Lemma keeps_newSSHServer name : keeps [] (newSSHServer name).
Proof. unfold newSSHServer. tidy_program. Qed.
Lemma keeps_knownHosts dir servers : keeps [] (knownHosts dir servers).
Proof. unfold knownHosts. tidy_program. Qed.
Lemma keeps_newSessionID : keeps [] newSessionID.
Proof. unfold newSessionID, call_. tidy_program. Qed.
Lemma keeps_bindingSignedBy key by_ sid forwarding : keeps [] (bindingSignedBy key by_ sid forwarding).
Proof. unfold bindingSignedBy. tidy_program. Qed.
Lemma keeps_binding s sid forwarding : keeps [] (binding s sid forwarding).
Proof. apply keeps_bindingSignedBy. Qed.
Hint Resolve keeps_newSSHServer keeps_knownHosts keeps_newSessionID keeps_bindingSignedBy keeps_binding : tidy.
Lemma keeps_bound s sid : keeps [] (bound_session s sid).
Proof. unfold bound_session. tidy_program. Qed.
Hint Resolve keeps_bound : tidy.
Lemma keeps_withBoundedSandbox e run :
  (∀ id a server hostOnly impostor, tidy Framed [id] ∅ (run id a server hostOnly impostor)) →
  keeps [] (withBoundedSandbox e run).
Proof. intros Hrun. apply keeps_withBackingAgent. intros a. tidy_program. all: apply Hrun. Qed.
Lemma keeps_expect_all id a probes :
  keeps [id] (all_findings (λ probe, let! f := expectRefused id a probe.1 probe.2 in Ret (as_list f)) probes).
Proof. apply tidy_all_findings. intros ? _. tidy_program. Qed.
Lemma keeps_expect_first id a probes :
  keeps [id] (first_findings (λ probe, let! f := expectRefused id a probe.1 probe.2 in Ret (as_list f)) probes).
Proof. apply tidy_first_findings. intros ? _. tidy_program. Qed.
Lemma keeps_refuse_logins id a cases : keeps [id] (all_findings (refuse_login id a) cases).
Proof. apply tidy_all_findings. intros ? _. unfold refuse_login. tidy_program. Qed.
Hint Resolve keeps_expect_all keeps_expect_first keeps_refuse_logins : tidy.
Lemma keeps_judgeLogins id a admitted cases : keeps [id] (judgeLogins id a admitted cases).
Proof. unfold judgeLogins. tidy_program. Qed.
Hint Resolve keeps_judgeLogins : tidy.
Lemma keeps_sshAgentLoginsBounded e : keeps [] (sshAgentLoginsBounded e).
Proof. apply keeps_withBoundedSandbox. intros id a server hostOnly impostor. unfold admitted_logins. tidy_program. Qed.
Lemma keeps_sshAgentBindingVerified e : keeps [] (sshAgentBindingVerified e).
Proof. apply keeps_withBoundedSandbox. intros id a server hostOnly impostor. tidy_program. Qed.
Lemma keeps_sshAgentDestinationKeys e : keeps [] (sshAgentDestinationKeys e).
Proof. apply keeps_withBoundedSandbox. intros id a server hostOnly impostor. tidy_program. Qed.

Lemma keeps_with_agent_sandbox e kits failed run :
  (∀ id a, tidy Framed [id] ∅ (run id a)) → keeps [] (with_agent_sandbox e kits failed run).
Proof. intros Hrun. apply keeps_withBackingAgent. intros a. tidy_program. all: apply Hrun. Qed.
Lemma keeps_sshAgentReachable e : keeps [] (sshAgentReachable e).
Proof. apply keeps_with_agent_sandbox. intros id a. tidy_program. Qed.
Lemma keeps_probe_restricted id findings probes : keeps [id] (probe_restricted id findings probes).
Proof. revert findings. induction probes as [|probe probes IH]; intros findings; cbn [probe_restricted]; tidy_program. Qed.
Hint Resolve keeps_probe_restricted : tidy.
Lemma keeps_restricted_agent id a : keeps [id] (restricted_agent id a).
Proof. unfold restricted_agent. tidy_program. Qed.
Hint Resolve keeps_restricted_agent : tidy.
Lemma keeps_sshAgentRestrictedRuntime e : keeps [] (sshAgentRestrictedRuntime e).
Proof. apply keeps_with_agent_sandbox. intros id a. tidy_program. Qed.
Lemma keeps_sshAgentSignaturesBoundedRuntime e : keeps [] (sshAgentSignaturesBoundedRuntime e).
Proof. apply keeps_with_agent_sandbox. intros id a. tidy_program. Qed.
Lemma keeps_install_restricted e bounded id a : keeps [id] (install_restricted e bounded id a).
Proof. unfold install_restricted. tidy_program. Qed.
Hint Resolve keeps_install_restricted : tidy.
Lemma keeps_sshAgentInstallRestrictions e bounded : keeps [] (sshAgentInstallRestrictions e bounded).
Proof. apply keeps_with_agent_sandbox. intros id a. tidy_program. Qed.
Hint Resolve keeps_sshAgentRestrictedRuntime keeps_sshAgentSignaturesBoundedRuntime keeps_sshAgentInstallRestrictions : tidy.
Lemma keeps_sshAgentRestricted e : keeps [] (sshAgentRestricted e).
Proof. unfold sshAgentRestricted. tidy_program. Qed.
Lemma keeps_sshAgentSignaturesBounded e : keeps [] (sshAgentSignaturesBounded e).
Proof. unfold sshAgentSignaturesBounded. tidy_program. Qed.
Lemma keeps_sshAgentAbsentWithoutGrant e : keeps [] (sshAgentAbsentWithoutGrant e).
Proof. apply keeps_with_agent_sandbox. intros id a. tidy_program. Qed.
Lemma keeps_phase_scoped id a : keeps [id] (phase_scoped id a).
Proof. unfold phase_scoped. tidy_program. Qed.
Hint Resolve keeps_phase_scoped : tidy.
Lemma keeps_sshAgentPhaseScoped e : keeps [] (sshAgentPhaseScoped e).
Proof. apply keeps_with_agent_sandbox. intros id a. tidy_program. Qed.
Lemma keeps_every_boot e id a : keeps [id] (every_boot e id a).
Proof. unfold every_boot. tidy_program. Qed.
Hint Resolve keeps_every_boot : tidy.
Lemma keeps_sshAgentEveryBoot e : keeps [] (sshAgentEveryBoot e).
Proof. apply keeps_with_agent_sandbox. intros id a. tidy_program. Qed.
Lemma keeps_sshAgentRequiredRefused e : keeps [] (sshAgentRequiredRefused e).
Proof. unfold sshAgentRequiredRefused. tidy_program. Qed.
Lemma keeps_sshAgentOptionalSkipped e : keeps [] (sshAgentOptionalSkipped e).
Proof. apply keeps_withBackingAgent. intros a. tidy_program. Qed.

(** ** Policies, lifecycle and credentials *)

Lemma keeps_in_sandbox e kits run : (∀ id, tidy Framed [id] ∅ (run id)) → keeps [] (in_sandbox e kits run).
Proof. intros Hrun. unfold in_sandbox. tidy_program. all: apply Hrun. Qed.
Lemma keeps_denyByDefault fixture e : keeps [] (denyByDefault fixture e).
Proof. apply keeps_in_sandbox. intros id. tidy_program. Qed.
Lemma keeps_installPhaseScoped fixture e : keeps [] (installPhaseScoped fixture e).
Proof. apply keeps_in_sandbox. intros id. tidy_program. Qed.
Lemma keeps_http_enforced allowed method url accepted e : keeps [] (http_enforced allowed method url accepted e).
Proof.
  apply keeps_in_sandbox. intros id. induction allowed as [|[m u] allowed IH]; cbn [all_allowed]; tidy_program.
Qed.
Lemma keeps_unknownRequiredRefused e : keeps [] (unknownRequiredRefused e).
Proof. unfold unknownRequiredRefused. tidy_program. Qed.
Lemma keeps_baselineCreateSucceeds e : keeps [] (baselineCreateSucceeds e).
Proof. unfold baselineCreateSucceeds. tidy_program. Qed.
Lemma keeps_refusal_probe e typ compose : keeps [] (refusal_probe e typ compose).
Proof. unfold refusal_probe. tidy_program. Qed.
Hint Resolve keeps_refusal_probe : tidy.
Lemma keeps_requiredUnclaimedRefused e : keeps [] (requiredUnclaimedRefused e).
Proof. apply tidy_all_findings. intros [[typ fixture] alone] _. unfold unclaimed_case. tidy_program. Qed.
Lemma keeps_installOnce e : keeps [] (installOnce e).
Proof. apply keeps_in_sandbox. intros id. unfold counted, reboot. tidy_program. Qed.
Lemma keeps_startupEveryBoot e : keeps [] (startupEveryBoot e).
Proof. apply keeps_in_sandbox. intros id. unfold counted, reboot. tidy_program. Qed.
Lemma keeps_hookEnvRestricted e : keeps [] (hookEnvRestricted e).
Proof. apply keeps_in_sandbox. intros id. tidy_program. Qed.
Lemma keeps_file_owned id path : keeps [id] (file_owned id path).
Proof. unfold file_owned. tidy_program. Qed.
Hint Resolve keeps_file_owned : tidy.
Lemma keeps_filesWritten e : keeps [] (filesWritten e).
Proof. unfold filesWritten. tidy_program. Qed.
Lemma keeps_finalEnvironmentPrecedence e : keeps [] (finalEnvironmentPrecedence e).
Proof. apply tidy_first_findings. intros [[[name fixture] opts] want] _. unfold env_case. tidy_program. Qed.
Lemma keeps_secretAbsentInSandbox e : keeps [] (secretAbsentInSandbox e).
Proof. apply keeps_in_sandbox. intros id. tidy_program. Qed.
Lemma tidy_baseline e kits format argv : tidy Framed [] ∅ (baseline e kits format argv).
Proof. unfold baseline. tidy_program. Qed.
Hint Resolve tidy_baseline : tidy.
Lemma tidy_inject_hooks e : tidy Framed [] ∅ (inject_hooks e).
Proof. unfold inject_hooks. tidy_program. Qed.
Lemma keeps_injectOnlyNoEnv e : keeps [] (injectOnlyNoEnv e).
Proof.
  unfold injectOnlyNoEnv. tidy_program.
  apply tidy_bind.
  { apply tidy_first_findings. intros fixture _. unfold inject_case. tidy_program. }
  intros found. tidy_program. apply tidy_inject_hooks.
Qed.
Lemma keeps_credentialEntrypoint id : keeps [id] (credentialEntrypoint id).
Proof. apply keeps_poll. Qed.
Hint Resolve keeps_credentialEntrypoint : tidy.
Lemma keeps_credentialSentinelPhaseScoped e : keeps [] (credentialSentinelPhaseScoped e).
Proof. apply tidy_first_findings. intros [[fixture in_install] in_runtime] _. unfold phase_case. tidy_program. Qed.

(** ** The rest *)

Lemma keeps_optionalLongRunning e : keeps [] (optionalLongRunning e).
Proof. unfold optionalLongRunning. tidy_program. Qed.
Lemma keeps_survivesSessionDisconnect e : keeps [] (survivesSessionDisconnect e).
Proof. apply keeps_in_sandbox. intros id. tidy_program. Qed.
Lemma keeps_longRunningStop e : keeps [] (longRunningStop e).
Proof. apply keeps_in_sandbox. intros id. tidy_program. Qed.
Lemma keeps_identity_findings id findings wants : keeps [id] (identity_findings id findings wants).
Proof. revert findings. induction wants as [|[[argv expect] what] wants IH]; intros findings; cbn [identity_findings]; tidy_program. Qed.
Hint Resolve keeps_identity_findings : tidy.
Lemma keeps_honorsImageUser e : keeps [] (honorsImageUser e).
Proof. apply keeps_in_sandbox. intros id. unfold hook_identity. tidy_program. Qed.
Lemma keeps_workspaceAtWorkdir e : keeps [] (workspaceAtWorkdir e).
Proof. apply keeps_in_sandbox. intros id. tidy_program. Qed.
Lemma keeps_entrypointNotPidOne e : keeps [] (entrypointNotPidOne e).
Proof. apply keeps_in_sandbox. intros id. tidy_program. Qed.
Lemma keeps_bodyReadable e : keeps [] (bodyReadable e).
Proof. apply keeps_in_sandbox. intros id. tidy_program. Qed.
Lemma keeps_persistsAcrossRecreate e : keeps [] (persistsAcrossRecreate e).
Proof. apply keeps_in_sandbox. intros id. unfold reboot, recreated_volume. tidy_program. Qed.
Lemma keeps_limitApplied e : keeps [] (limitApplied e).
Proof. unfold limitApplied. tidy_program. Qed.
Lemma keeps_elevationGranted e : keeps [] (elevationGranted e).
Proof. unfold elevationGranted. tidy_program. Qed.
Lemma keeps_storeMountedAtDeclaredPath e : keeps [] (storeMountedAtDeclaredPath e).
Proof. apply keeps_in_sandbox. intros id. tidy_program. Qed.
Lemma keeps_write_probe id path judge : keeps [id] (write_probe id path judge).
Proof. unfold write_probe. tidy_program. Qed.
Hint Resolve keeps_write_probe : tidy.
Lemma keeps_mountedBeforeHooks e : keeps [] (mountedBeforeHooks e).
Proof.
  apply keeps_in_sandbox. intros id. apply tidy_all_findings. intros [path record] _.
  unfold recorded_mount. tidy_program.
Qed.
Lemma keeps_readonlyDefaultHonored e : keeps [] (readonlyDefaultHonored e).
Proof. apply keeps_in_sandbox. intros id. tidy_program. Qed.
Lemma keeps_sharedPathWidestMode e : keeps [] (sharedPathWidestMode e).
Proof. apply keeps_in_sandbox. intros id. unfold mounted. tidy_program. Qed.
Lemma keeps_hostReadonlyNarrows e : keeps [] (hostReadonlyNarrows e).
Proof. unfold hostReadonlyNarrows, mounted. tidy_program. Qed.
Lemma keeps_sameStoreAtEveryPath e : keeps [] (sameStoreAtEveryPath e).
Proof. apply keeps_in_sandbox. intros id. tidy_program. Qed.
Lemma keeps_readwriteGrantedWhenBothAllow e : keeps [] (readwriteGrantedWhenBothAllow e).
Proof. apply keeps_in_sandbox. intros id. unfold mounted. tidy_program. Qed.

(** ** The suite *)

Hint Resolve
  keeps_gitIdentityDefaults keeps_gitIdentityBeforeHooks keeps_gitIdentityObservation
  keeps_gitIdentitySourceUnchanged keeps_gitIdentityPersistence keeps_gitIdentityUnavailable
  keeps_credentialSentinelPhaseScoped keeps_finalEnvironmentPrecedence keeps_sshAgentDestinationKeys
  keeps_sshAgentReachable keeps_sshAgentRestricted keeps_sshAgentSignaturesBounded keeps_sshAgentLoginsBounded
  keeps_sshAgentBindingVerified keeps_sshAgentAbsentWithoutGrant keeps_sshAgentPhaseScoped
  keeps_sshAgentEveryBoot keeps_sshAgentRequiredRefused keeps_sshAgentOptionalSkipped
  keeps_groupExpandedValidation keeps_atomicSelection keeps_groupConflicts keeps_groupLifetime
  keeps_groupExecution keeps_survivesSessionDisconnect keeps_longRunningStop keeps_optionalLongRunning
  keeps_unknownRequiredRefused keeps_baselineCreateSucceeds keeps_requiredUnclaimedRefused keeps_installOnce
  keeps_startupEveryBoot keeps_hookEnvRestricted keeps_filesWritten keeps_denyByDefault
  keeps_installPhaseScoped keeps_http_enforced keeps_secretAbsentInSandbox keeps_injectOnlyNoEnv
  keeps_honorsImageUser keeps_workspaceAtWorkdir keeps_entrypointNotPidOne keeps_skillsWithoutStore
  keeps_bundledWithoutStore keeps_bundledHostConflict keeps_bundledObservation keeps_bundledUnavailable
  keeps_bundledConflict keeps_bodyReadable keeps_persistsAcrossRecreate keeps_limitApplied
  keeps_elevationGranted keeps_storeMountedAtDeclaredPath keeps_readonlyDefaultHonored
  keeps_mountedBeforeHooks keeps_sharedPathWidestMode keeps_hostReadonlyNarrows keeps_skillsWithoutHost
  keeps_sameStoreAtEveryPath keeps_readwriteGrantedWhenBothAllow : suite.

Lemma checks_keep DeepEqual e : Forall (λ c, keeps [] (check_run c e)) (checks DeepEqual).
Proof.
  unfold checks, declared_checks, gitIdentityChecks, bundledSkillChecks, runtime_checks, httpMethodEnforced,
    httpPathEnforced, httpDenyPrecedence. cbn [app].
  repeat apply Forall_cons_2; [..|apply Forall_nil_2]; cbn [check_run]; auto with suite nocore.
Qed.
End Discipline.
