(* ===== verification/SuiteFacts.v ===== *)
(** What the runtime suite guarantees of its own conduct ([SuiteTidy] carried over
    to the runs of the checks), and what its verdict depends on. *)
From stdpp Require Import gmultiset options.
From S2P Require Import Prelude GoStrings Json Types Config Marshal Surface GoPath Selection Report Adapter Backing Suite SuiteChecks SuiteTidy.

(** ** The sandboxes a history accounts for *)

(** What an invocation does to the sandboxes that exist; [None] when it is about one
    that does not. *)
Definition account (live : sandboxes) (i : invocation) : option sandboxes :=
  match asked i with
  | verb :: rest =>
      if bool_decide (verb = "create") then
        match answered i with
        | Ok res => match created res with Ok id => Some ({[+ id +]} ⊎ live) | Err _ => Some live end
        | Err _ => Some live
        end
      else
        match rest with
        | id :: _ =>
            if decide (id ∈ live)
            then Some (if bool_decide (verb = "rm") then live ∖ {[+ id +]} else live) else None
        | [] => Some live
        end
  | [] => Some live
  end.
Fixpoint replay (live : sandboxes) (h : list invocation) : option sandboxes :=
  match h with
  | [] => Some live
  | i :: h => match account live i with Some live => replay live h | None => None end
  end.

(** The removals that failed, with their errors. *)
Definition failed_removal (i : invocation) : option (string * adapter_error) :=
  match asked i with
  | [verb; id] =>
      if bool_decide (verb = "rm") then
        match answered i with
        | Err err => Some (id, err)
        | Ok res =>
            if negb (ExitCode res =? 0)%Z then Some (id, VerbFailed verb (ExitCode res) (trim_space (Stderr res)))
            else None
        end
      else None
  | _ => None
  end.
Definition failed_removals (h : list invocation) : list (string * adapter_error) := omap failed_removal h.

Lemma create_no_removal rest r : failed_removal (mkInvocation ("create" :: rest) r) = None.
Proof. by destruct rest as [|x [|y l]]. Qed.

Lemma replay_app live h h' :
  replay live (h ++ h') = match replay live h with Some live => replay live h' | None => None end.
Proof. revert live. induction h as [|i h IH]; intros live; cbn; [done|]. by destruct (account live i). Qed.
Lemma replay_snoc live h i : replay live (h ++ [i]) = match replay live h with Some live => account live i | None => None end.
Proof. rewrite replay_app. destruct (replay live h); cbn; [|done]. by destruct (account _ i). Qed.

Section Runs.
Context `{SSH} (a : Adapter).
Implicit Types (live : sandboxes) (s : suite) (old : list (string * adapter_error)).

(** The history accounts for the sandboxes, and the leaks are its failed removals. *)
Definition accounted old live s : Prop :=
  replay ∅ (machine s).2 = Some live ∧ leaked s = old ++ failed_removals (machine s).2.

(** One invocation of a verb about a sandbox that is there and stays. *)
Definition observes (id : string) (argv : list string) : Prop :=
  ∃ verb rest, argv = verb :: id :: rest ∧ verb ≠ "create" ∧ verb ≠ "rm".
Lemma observed old live s id argv r w :
  observes id argv → id ∈ live → accounted old live s →
  accounted old live (mkSuite (w, (machine s).2 ++ [mkInvocation argv r]) (leaked s) (frames s)).
Proof.
  intros (verb & rest & -> & Hc & Hr) Hid [Hreplay Hleaks]. split; cbn [machine leaked snd].
  - rewrite replay_snoc, Hreplay. unfold account. cbn [asked]. rewrite bool_decide_eq_false_2 by done.
    rewrite decide_True by done. by rewrite bool_decide_eq_false_2.
  - rewrite Hleaks. f_equal. unfold failed_removals. rewrite omap_app. cbn.
    destruct rest; cbn; [|by rewrite app_nil_r]. rewrite bool_decide_eq_false_2 by done. by rewrite app_nil_r.
Qed.
Lemma on_machine_run {A} ctx argv (f : result adapter_error Result → A) s :
  ∃ w r, on_machine (bind (run a ctx argv) (λ r, ret (f r))) s =
    (f r, mkSuite (w, (machine s).2 ++ [mkInvocation argv r]) (leaked s) (frames s)).
Proof.
  unfold on_machine, bind, run, ret. destruct (machine s) as [w h]. cbn.
  destruct (run_command _ _ w) as [c w']. eauto.
Qed.
Lemma try_as_bind {A} (m : M (result adapter_error Result)) (f : Result → result adapter_error A) st :
  try m (λ res, ret (f res)) st =
  bind m (λ r, ret (match r with Ok res => f res | Err e => Err e end)) st.
Proof. unfold try, bind, ret. destruct (m st) as [[res|e] st']; done. Qed.
Lemma run_as_bind ctx argv st : run a ctx argv st = bind (run a ctx argv) (λ r, ret r) st.
Proof. unfold bind, ret. by destruct (run a ctx argv st). Qed.

(** A verb's call is one invocation. *)
Definition one_invocation {A} (m : M A) (argv : list string) (f : result adapter_error Result → A) : Prop :=
  ∀ s, ∃ w r, on_machine m s = (f r, mkSuite (w, (machine s).2 ++ [mkInvocation argv r]) (leaked s) (frames s)).
Lemma try_one {A} ctx argv (f : Result → result adapter_error A) :
  one_invocation (try (run a ctx argv) (λ res, ret (f res))) argv
    (λ r, match r with Ok res => f res | Err e => Err e end).
Proof.
  intros s. destruct (on_machine_run ctx argv (λ r, match r with Ok res => f res | Err e => Err e end) s) as (w & r & E).
  exists w, r. rewrite <-E. unfold on_machine. by rewrite try_as_bind.
Qed.
Lemma run_one ctx argv : one_invocation (run a ctx argv) argv id.
Proof.
  intros s. destruct (on_machine_run ctx argv id s) as (w & r & E). exists w, r. rewrite <-E.
  unfold on_machine. by rewrite run_as_bind.
Qed.

(** ** Calls are as their preconditions say *)

Lemma observe_sound {A} old live s id argv (m : M A) f (post : A → sandboxes → list (list cleanup) → Prop) :
  one_invocation m argv f → observes id argv → accounted old live s → id ∈ live → (∀ r, post r live (frames s)) →
  ∃ live', accounted old live' (on_machine m s).2 ∧
    post (on_machine m s).1 live' (frames (on_machine m s).2).
Proof.
  intros Hm Hobs Hacc Hid Hpost. destruct (Hm s) as (w & r & ->). exists live. split; [by apply (observed old live s id)|].
  apply Hpost.
Qed.
Lemma clean_sound old live live' s c :
  accounted old live s → spend c live = Some live' →
  accounted old live' (clean a c s) ∧ frames (clean a c s) = frames s.
Proof.
  intros [Hreplay Hleaks]. destruct c as [|id|dir|b]; cbn [spend clean].
  - intros [= <-]. done.
  - case_decide as Hid; [|done]. intros [= <-].
    match goal with |- context [Remove a ?ctx id] => set (rm := ctx) end.
    destruct (try_one rm ["rm"; id] (λ res,
      if negb (ExitCode res =? 0)%Z then Err (VerbFailed "rm" (ExitCode res) (trim_space (Stderr res))) else Ok ()) s)
      as (w & r & E).
    change (on_machine (Remove a rm id) s) with
      (on_machine (try (run a rm ["rm"; id]) (λ res, ret (
        if negb (ExitCode res =? 0)%Z then Err (VerbFailed "rm" (ExitCode res) (trim_space (Stderr res))) else Ok ()))) s).
    rewrite E. clear E.
    assert (replay ∅ ((machine s).2 ++ [mkInvocation ["rm"; id] r]) = Some (live ∖ {[+ id +]})) as Hrp.
    { rewrite replay_snoc, Hreplay. cbn. by rewrite decide_True. }
    assert (failed_removals ((machine s).2 ++ [mkInvocation ["rm"; id] r]) =
            failed_removals (machine s).2 ++ failed_removals [mkInvocation ["rm"; id] r]) as Hfl.
    { unfold failed_removals. by rewrite omap_app. }
    destruct r as [res|err]; cbn [machine leaked frames].
    + destruct (negb (ExitCode res =? 0)%Z) eqn:En; cbn [machine leaked frames];
        (split; [split; cbn [machine leaked snd]|done]); [done| |done|].
      * rewrite Hfl, Hleaks, <-app_assoc. cbn. by rewrite En.
      * rewrite Hfl, Hleaks. cbn. by rewrite En, app_nil_r.
    + split; [split; cbn [machine leaked snd]|done]; [done|]. by rewrite Hfl, Hleaks, <-app_assoc.
  - intros [= <-]. unfold on_machine, change, on_world. destruct s as [[w h] l f]. by split.
  - intros [= <-]. unfold on_machine, change, on_world. destruct s as [[w h] l f]. by split.
Qed.
Lemma clean_all_sound old cs live live' s :
  accounted old live s → spend_all cs live = Some live' →
  accounted old live' (foldl (λ s c, clean a c s) s cs) ∧ frames (foldl (λ s c, clean a c s) s cs) = frames s.
Proof.
  revert live s. induction cs as [|c cs IH]; intros live s Hacc; cbn; [by intros [= <-]|].
  destruct (spend c live) as [live1|] eqn:E; [|done]. intros Hcs.
  destruct (clean_sound old live live1 s c Hacc E) as [Hacc1 Hf].
  destruct (IH live1 (clean a c s) Hacc1 Hcs) as [? Hfs]. split; [done|congruence].
Qed.
Lemma world_sound {A} old live s (m : World → A * World) (post : A → sandboxes → list (list cleanup) → Prop) :
  accounted old live s → (∀ r, post r live (frames s)) →
  ∃ live', accounted old live' (on_machine (on_world m) s).2 ∧
    post (on_machine (on_world m) s).1 live' (frames (on_machine (on_world m) s).2).
Proof.
  intros Hacc Hpost. exists live. unfold on_machine, on_world. destruct s as [[w h] l f]. cbn in *.
  destruct (m w) as [x w']. by split.
Qed.
Lemma create_sound old live s kits opts (post : result adapter_error string → sandboxes → list (list cleanup) → Prop) :
  accounted old live s → (∀ err, post (Err err) live (frames s)) →
  (∀ id, post (Ok id) ({[+ id +]} ⊎ live) (frames s)) →
  ∃ live', accounted old live' (on_machine (Create a Background kits opts) s).2 ∧
    post (on_machine (Create a Background kits opts) s).1 live' (frames (on_machine (Create a Background kits opts) s).2).
Proof.
  intros [Hreplay Hleaks] Herr Hok. unfold Create.
  destruct (try_one Background (create_argv kits opts) created s) as (w & r & ->). cbn [fst snd machine leaked frames].
  assert (failed_removal (mkInvocation (create_argv kits opts) r) = None) as Hfr.
  { apply create_no_removal. }
  assert (∀ live', account live (mkInvocation (create_argv kits opts) r) = Some live' →
    accounted old live' (mkSuite (w, (machine s).2 ++ [mkInvocation (create_argv kits opts) r]) (leaked s) (frames s))) as Hacc.
  { intros live' E. split; cbn [machine leaked snd].
    - by rewrite replay_snoc, Hreplay.
    - rewrite Hleaks. f_equal. unfold failed_removals. rewrite omap_app.
      cbn -[failed_removal create_argv]. by rewrite Hfr, app_nil_r. }
  unfold account in Hacc. cbn [asked answered create_argv app] in Hacc. rewrite bool_decide_eq_true_2 in Hacc by done.
  destruct r as [res|err]; [destruct (created res) as [id|err] eqn:E|]; cbn [fst]; rewrite ?E; eauto.
Qed.

Lemma perform_sound old live s c (post : reply c → sandboxes → list (list cleanup) → Prop) :
  accounted old live s → call_wp c live (frames s) post →
  ∃ live', accounted old live' (perform a c s).2 ∧ post (perform a c s).1 live' (frames (perform a c s).2).
Proof.
  intros Hacc. destruct c; cbn [call_wp perform].
  { intros Hpost. exists live. split; [exact Hacc|exact Hpost]. }
  { intros (frame & rest & live' & Hf & Hspend & Hpost). unfold leave. rewrite Hf.
    destruct (clean_all_sound old frame live live' (mkSuite (machine s) (leaked s) rest) Hacc Hspend) as [Hacc' Hfr].
    exists live'. split; [exact Hacc'|]. cbn [fst snd]. rewrite Hfr. exact Hpost. }
  { intros (frame & rest & Hf & Hpost). exists live. split; [exact Hacc|]. cbn [fst snd push frames]. rewrite Hf. exact Hpost. }
  { intros (live' & Hspend & Hpost). destruct (clean_sound old live live' s c Hacc Hspend) as [Hacc' Hf].
    exists live'. split; [exact Hacc'|]. cbn [fst snd]. rewrite Hf. exact Hpost. }
  { intros [Herr Hok]. by eapply create_sound. }
  2: intros [Hid Hpost]; destruct a0.
  1-8: try intros [Hid Hpost];
    eapply observe_sound; [first [apply run_one|apply try_one]|repeat eexists|exact Hacc|exact Hid|exact Hpost]; done.
  all: by apply (world_sound old live).
Qed.

Lemma exec_prog_sound {A} old (p : prog A) live s (post : A → sandboxes → list (list cleanup) → Prop) :
  accounted old live s → wp p live (frames s) post →
  ∃ live', accounted old live' (exec_prog a p s).2 ∧ post (exec_prog a p s).1 live' (frames (exec_prog a p s).2).
Proof.
  revert live s. induction p as [x|c k IH]; intros live s Hacc; cbn [wp exec_prog]; [intros; by exists live|].
  intros (live' & Hacc' & Hwp)%(perform_sound old live); [|done].
  destruct (perform a c s) as [r s']. cbn [fst snd] in *. by apply (IH r live').
Qed.

(** A tidy check starts and ends without sandboxes of its own. *)
Lemma keeps_sound {A} old (p : prog A) s :
  keeps [] p → accounted old ∅ s →
  accounted old ∅ (exec_prog a p s).2 ∧ frames (exec_prog a p s).2 = frames s.
Proof.
  intros Hp Hacc. destruct (exec_prog_sound old p ∅ s (λ _ l o, l = ∅ ∧ o = frames s) Hacc) as (live' & Hacc' & -> & Hf).
  - apply (keeps_wp []); [done|]. by intros id ?%not_elem_of_nil.
  - done.
Qed.
Lemma findings_of_sound old e c s :
  keeps [] (check_run c e) → accounted old ∅ s →
  accounted old ∅ (findings_of a e c s).2 ∧ frames (findings_of a e c s).2 = frames s.
Proof. intros Hc Hacc. unfold findings_of. destruct (firstUnclaimed c e); [done|]. by apply keeps_sound. Qed.
Lemma checks_loop_sound old e selected rep s :
  Forall (λ c, keeps [] (check_run c e)) selected → accounted old ∅ s →
  accounted old ∅ (checks_loop a e selected rep s).2.
Proof.
  revert rep s. induction selected as [|c selected IH]; intros rep s Hkeep Hacc; cbn [checks_loop]; [done|].
  apply Forall_cons in Hkeep as [Hc Hkeep]. destruct (findings_of_sound old e c s Hc Hacc) as [Hacc' _].
  destruct (findings_of a e c s) as [findings s']. cbn [snd] in Hacc'.
  destruct (unclaimed e c); [by apply IH|]. destruct (ctx_Err Background _); [done|by apply IH].
Qed.
End Runs.

(** ** The report of what was left behind *)

Definition leak_finding (leak : string * adapter_error) : finding :=
  mkFinding "cleanup" "conformance.md §2.4" Fail_ (Msg "a sandbox could not be removed: %s" [Astr leak.1; Aerr leak.2]).

Lemma Add_findings {D} (r : Report D) c q fs f :
  f ∈ Findings (Add r c q fs) ↔ f ∈ Findings r ∨ f ∈ map (attributed c q) fs.
Proof. unfold Add. cbn. by rewrite ran_findings, elem_of_app. Qed.
Lemma report_leaks_findings leaks rep f :
  f ∈ Findings (foldl report_leak rep leaks) ↔ f ∈ Findings rep ∨ f ∈ map leak_finding leaks.
Proof.
  revert rep. induction leaks as [|leak leaks IH]; intros rep; cbn; [set_solver|].
  rewrite IH. unfold report_leak. rewrite Add_findings. cbn. set_solver.
Qed.

(** The end of a run that reached the checks, by parts. *)
Lemma runChecks_swept `{SSH} e selected w :
  (∀ sub, Forall (λ c, keeps [] (check_run c sub)) selected) →
  let '(rep, err, e', (w', h)) := runChecks e selected (w, []) in
  replay ∅ h = Some ∅ ∧ ∀ leak, leak ∈ failed_removals h → leak_finding leak ∈ Findings rep.
Proof.
  intros Hkeep. unfold runChecks.
  destruct (Env_Adapter e) as [a|]; [|by split; [|intros ? ?%not_elem_of_nil]].
  destruct (Env_Fixtures e) as [fixtures|]; [|by split; [|intros ? ?%not_elem_of_nil]].
  set (secret := if bool_decide _ then SecretValue else _). cbn zeta. unfold on_world.
  destruct (sentinelHome w) as [[[markedHome dir]|err] w1]; [|by split; [|intros ? ?%not_elem_of_nil]].
  set (marked := mkAdapter _ _ _).
  assert (∃ types w2 h, claimed marked (Env_Claimed e) (w1, []) = (types, (w2, h)) ∧ replay ∅ h = Some ∅ ∧ failed_removals h = [])
    as (types & w2 & h & E & Hreplay & Hfailed).
  { unfold claimed. cbn [Env_Claimed]. destruct (Env_Claimed e) as [known|]; [by eexists _, _, _|].
    unfold Capabilities, try, bind, run, ret. cbn [fst snd]. destruct (run_command _ _ w1) as [c w2]. cbn.
    destruct (outcome marked Background "capabilities" c w2) as [res|err] eqn:Eo; cbn; [|by eexists _, _, _].
    destruct (ExitCode res =? 0)%Z; cbn; by eexists _, _, _. }
  cbn [Env_Claimed] in *. rewrite E. destruct types as [types|err]; [|cbn; rewrite Hfailed; split; [done|by intros ? ?%not_elem_of_nil]].
  set (sub := mkSubject fixtures types secret).
  pose proof (checks_loop_sound marked (Env_leaked e) sub selected zero_report (mkSuite (w2, h) (Env_leaked e) [])
    (Hkeep sub)) as Hloop.
  destruct (checks_loop marked sub selected zero_report _) as [[rep err] s]. cbn [snd] in Hloop.
  destruct Hloop as [Hrp Hl]; [split; cbn [machine leaked snd]; [done|by rewrite Hfailed, app_nil_r]|].
  unfold change, on_world. destruct (machine s) as [w3 h3] eqn:Em. cbn [snd] in *. split; [done|].
  intros leak Hleak. apply report_leaks_findings. right. apply list_elem_of_fmap. exists leak. split; [done|].
  cbn [Env_leaked]. rewrite Hl. apply elem_of_app. by right.
Qed.

(** ** Claims *)

(** A check the runtime does not claim asks nothing of it and fails nothing: the run
    without those checks ends in the same state, with the same failures. *)
Definition failures (rep : Report detail) : list finding := List.filter is_failure (Findings rep).

Lemma Add_failures (rep : Report detail) c q fs :
  failures (Add rep c q fs) = failures rep ++ List.filter is_failure (map (attributed c q) fs).
Proof. unfold failures, Add. cbn. by rewrite ran_findings, List.filter_app. Qed.

Lemma unclaimed_step `{SSH} a e c s :
  unclaimed e c = true → ∃ t, findings_of a e c s = ([skipf "runtime does not claim %s" [Astr t]], s).
Proof.
  unfold unclaimed, findings_of. intros Hu%bool_decide_eq_true. destruct Hu as [t ->]. by exists t.
Qed.

Lemma checks_loop_claimed `{SSH} a e selected rep rep' s :
  failures rep = failures rep' →
  let '(r, err, s1) := checks_loop a e selected rep s in
  let '(r', err', s1') := checks_loop a e (List.filter (λ c, negb (unclaimed e c)) selected) rep' s in
  s1 = s1' ∧ err = err' ∧ failures r = failures r'.
Proof.
  revert rep rep' s. induction selected as [|c selected IH]; intros rep rep' s Hf; cbn [checks_loop List.filter]; [done|].
  destruct (unclaimed e c) eqn:Eu; cbn [negb checks_loop].
  - destruct (unclaimed_step a e c s Eu) as [t ->]. cbn [fst snd]. apply IH. by rewrite Add_failures, app_nil_r.
  - rewrite Eu. destruct (findings_of a e c s) as [findings s'].
    destruct (ctx_Err Background (machine s').1); [|apply IH]; by rewrite !Add_failures, Hf.
Qed.

(** ** Waiting for a record *)

(** What the machine's clock and waits are relied on for. *)
Class HostLaws `{Host} : Prop := {
  run_later ctx c w : (now w ≤ now (run_command ctx c w).2)%Z;
  wait_over ctx d w w' : select_done ctx d w = (false, w') → (now w + d ≤ now w')%Z;
  wait_done ctx d w : is_Some (ctx_Err ctx w) → (select_done ctx d w).1 = true;
}.

Lemma on_machine_one `{SSH} {A} (m : M A) argv f s :
  one_invocation m argv f → ∃ w r, on_machine m s = (f r, mkSuite (w, (machine s).2 ++ [mkInvocation argv r]) (leaked s) (frames s)).
Proof. intros Hm. apply Hm. Qed.
Lemma exec_later `{SSH} `{!HostLaws} a ctx id argv s :
  (now (machine s).1 ≤ now (machine (on_machine (Exec a ctx id argv) s).2).1)%Z.
Proof.
  unfold on_machine, Exec, run. destruct s as [[w h] l f]. cbn [machine fst].
  pose proof (run_later ctx (mkCommand (executable a) (["exec"; id; "--"] ++ argv) (Dir a) (Environ (Dir a) ++ Env_ a)) w) as Hl.
  destruct (run_command _ _ w) as [c w']. exact Hl.
Qed.

Lemma exec_prog_bind `{SSH} a {A B} (p : prog A) (k : A → prog B) s :
  exec_prog a (pbind p k) s = let '(x, s) := exec_prog a p s in exec_prog a (k x) s.
Proof.
  revert s. induction p as [x|c k' IH]; intros s; cbn [pbind exec_prog]; [done|].
  destruct (perform a c s) as [r s']. apply IH.
Qed.

(** One turn of the wait answers, or the context was not over and the clock moved. *)
Lemma poll_turn `{SSH} `{!HostLaws} a n ctx id path accept d s :
  deadline ctx = Some d →
  is_Some (exec_prog a (poll_record (S n) ctx id path accept) s).1 ∨
  (now (machine s).1 < d)%Z ∧
  ∃ s', (now (machine s).1 + 50000000 ≤ now (machine s').1)%Z ∧
    exec_prog a (poll_record (S n) ctx id path accept) s = exec_prog a (poll_record n ctx id path accept) s'.
Proof.
  intros Hd. cbn [poll_record]. rewrite exec_prog_bind. unfold execOutputWithin. cbn [exec_prog perform].
  pose proof (exec_later a ctx id ["cat"; path] s) as Hlater.
  destruct (on_machine (Exec a ctx id ["cat"; path]) s) as [r s1]. cbn [fst snd exec_prog] in *.
  match goal with |- context [match ?m with Ok value => Ret _ | Err f => Do _ _ end] => destruct m as [value|f] end;
    [by left|]. cbn [exec_prog perform]. unfold on_machine, on_world.
  destruct (machine s1) as [w1 h1] eqn:E1. cbn [fst] in Hlater.
  destruct (select_done ctx 50000000 w1) as [b w2] eqn:Es. destruct b; cbn [exec_prog]; [by left|]. right.
  pose proof (wait_over ctx 50000000 w1 w2 Es) as Hover. split; [|eexists; split; [|reflexivity]; cbn; lia].
  destruct (decide (now w1 < d)%Z); [lia|]. pose proof (wait_done ctx 50000000 w1) as Hdone. rewrite Es in Hdone.
  assert (is_Some (ctx_Err ctx w1)) as Hc; [|by specialize (Hdone Hc)].
  unfold ctx_Err. destruct (if inherits ctx then _ else _); [by eexists|]. rewrite Hd.
  rewrite (proj2 (Z.leb_le _ _)) by lia. by eexists.
Qed.
Lemma poll_record_ends `{SSH} `{!HostLaws} a n ctx id path accept d s :
  deadline ctx = Some d → (d ≤ now (machine s).1 + 50000000 * Z.of_nat n)%Z →
  is_Some (exec_prog a (poll_record (S n) ctx id path accept) s).1.
Proof.
  intros Hd. revert s. induction n as [|n IH]; intros s Hnow.
  - destruct (poll_turn a 0 ctx id path accept d s Hd) as [?|(Hearly & _)]; [done|lia].
  - destruct (poll_turn a (S n) ctx id path accept d s Hd) as [?|(_ & s' & Hlater & ->)]; [done|].
    apply IH. lia.
Qed.

(** ** What a passing check observed *)

Section Passing.
Context `{SSH} (a : Adapter).

(** An invocation answered with a status, and a create answered with a sandbox. *)
Definition exited (argv : list string) (code : Z) (i : invocation) : Prop :=
  asked i = argv ∧ ∃ res, answered i = Ok res ∧ ExitCode res = code.
Definition created_box (kits : list string) (opts : CreateOptions) (id : string) (i : invocation) : Prop :=
  asked i = create_argv kits opts ∧ ∃ res, answered i = Ok res ∧ created res = Ok id.

Definition appended (s s' : suite) (t : list invocation) : Prop := (machine s').2 = (machine s).2 ++ t.

Lemma exec_create kits opts (k : result adapter_error string → prog (list finding)) s :
  ∃ i s1, asked i = create_argv kits opts ∧ appended s s1 [i] ∧ frames s1 = frames s ∧
    exec_prog a (Do (CallCreate kits opts) k) s =
    exec_prog a (k (match answered i with Ok res => created res | Err err => Err err end)) s1.
Proof.
  destruct (try_one a Background (create_argv kits opts) created s) as (w & r & E).
  exists (mkInvocation (create_argv kits opts) r).
  exists (mkSuite (w, (machine s).2 ++ [mkInvocation (create_argv kits opts) r]) (leaked s) (frames s)). split; [done|].
  cbn [exec_prog perform]. unfold Create. rewrite E. cbn [answered]. by repeat split.
Qed.
Lemma exec_exec id argv (k : result adapter_error Result → prog (list finding)) s :
  ∃ i s1, asked i = ["exec"; id; "--"] ++ argv ∧ appended s s1 [i] ∧ frames s1 = frames s ∧
    exec_prog a (pbind (exec id argv) k) s = exec_prog a (k (answered i)) s1.
Proof.
  destruct (run_one a Background (["exec"; id; "--"] ++ argv) s) as (w & r & E).
  exists (mkInvocation (["exec"; id; "--"] ++ argv) r).
  exists (mkSuite (w, (machine s).2 ++ [mkInvocation (["exec"; id; "--"] ++ argv) r]) (leaked s) (frames s)). split; [done|].
  unfold exec, call_. cbn [exec_prog perform pbind]. unfold Exec. rewrite E. cbn [answered]. by repeat split.
Qed.
Lemma clean_appends id s : ∃ i, asked i = ["rm"; id] ∧ appended s (clean a (Removes id) s) [i].
Proof.
  cbn [clean].
  match goal with |- context [Remove a ?ctx id] => set (rm := ctx) end. unfold Remove, mustRun.
  match goal with |- context [try (run a rm ?argv) (λ res, ret (@?f res))] =>
    destruct (try_one a rm argv f s) as (w & r & E) end.
  exists (mkInvocation ["rm"; id] r). split; [done|]. rewrite E.
  by destruct (match r with Ok _ => _ | Err _ => _ end).
Qed.

Lemma exec_function {A} (body : prog A) s :
  exec_prog a (function body) s = let '(x, s1) := exec_prog a body (enter s) in (x, leave a s1).
Proof. unfold function. cbn [exec_prog perform]. rewrite exec_prog_bind. by destruct (exec_prog a body (enter s)). Qed.

(** A function whose body creates a sandbox and defers its removal: the create's
    failure, or the removal after what is run on it, which keeps the frames. *)
Lemma in_sandbox_steps e kits (run : string → prog (list finding)) s :
  (∀ id s, frames (exec_prog a (run id) s).2 = frames s) →
  ∃ i s1, asked i = create_argv (map (Fixtures e) kits) (with_args ∅) ∧ appended s s1 [i] ∧
    match (match answered i with Ok res => created res | Err err => Err err end) with
    | Err err => (exec_prog a (in_sandbox e kits run) s).1 = [failf "create: %v" [Aerr err]] ∧
        appended s1 (exec_prog a (in_sandbox e kits run) s).2 []
    | Ok id => ∃ j, asked j = ["rm"; id] ∧
        (exec_prog a (in_sandbox e kits run) s).1 = (exec_prog a (run id) s1).1 ∧
        appended (exec_prog a (run id) s1).2 (exec_prog a (in_sandbox e kits run) s).2 [j]
    end.
Proof.
  intros Hframes. unfold in_sandbox. rewrite exec_function. unfold sandbox, sandboxWith. cbn [pbind].
  match goal with |- context [exec_prog a (Do (CallCreate ?kits ?opts) ?k) ?s0] =>
    destruct (exec_create kits opts k s0) as (i & s1 & Hi & Happ & Hf & ->) end.
  cbn [enter frames machine] in *.
  exists i. destruct (match answered i with Ok res => created res | Err err => Err err end) as [id|err].
  - exists (push (Removes id) s1). split; [done|]. split; [exact Happ|].
    cbn [pbind exec_prog perform]. specialize (Hframes id (push (Removes id) s1)).
    destruct (exec_prog a (run id) (push (Removes id) s1)) as [x s2]. cbn [fst snd] in *.
    destruct (clean_appends id (mkSuite (machine s2) (leaked s2) (frames s))) as (j & Hj & Happ2).
    exists j. split; [done|]. split; [done|]. unfold leave. rewrite Hframes. unfold push. cbn [frames]. rewrite Hf. exact Happ2.
  - exists s1. split; [done|]. split; [exact Happ|]. cbn [pbind exec_prog perform fst snd].
    split; [done|]. unfold leave. rewrite Hf. cbn [foldl]. unfold appended. by rewrite app_nil_r.
Qed.

(** Two probes in a sandbox, the second made where the first is let through. *)
Lemma two_probes id (first second : list string) (f g : result adapter_error Result → list finding) s :
  let p := let! x := exec id first in
           match f x with [] => let! y := exec id second in Ret (g y) | fs => Ret fs end in
  frames (exec_prog a p s).2 = frames s ∧
  ∃ i, asked i = ["exec"; id; "--"] ++ first ∧
    ((f (answered i) ≠ [] ∧ (exec_prog a p s).1 = f (answered i) ∧ appended s (exec_prog a p s).2 [i]) ∨
     (f (answered i) = [] ∧ ∃ j, asked j = ["exec"; id; "--"] ++ second ∧
        (exec_prog a p s).1 = g (answered j) ∧ appended s (exec_prog a p s).2 [i; j])).
Proof.
  cbn zeta. destruct (exec_exec id first (λ x,
    match f x with [] => let! y := exec id second in Ret (g y) | fs => Ret fs end) s) as (i & s1 & Hi & Happ & Hf & ->).
  destruct (f (answered i)) as [|x fs] eqn:E.
  - destruct (exec_exec id second (λ y, Ret (g y)) s1) as (j & s2 & Hj & Happ2 & Hf2 & ->). cbn [exec_prog fst snd].
    split; [congruence|]. exists i. split; [done|]. right. split; [done|]. exists j. split; [done|]. split; [done|].
    unfold appended in *. rewrite Happ2, Happ, <-app_assoc. done.
  - cbn [exec_prog fst snd]. split; [done|]. exists i. split; [done|]. left. by rewrite E.
Qed.

Lemma exec_prog_ext {A B} (p : prog A) (k k' : A → prog B) s :
  (∀ x s, exec_prog a (k x) s = exec_prog a (k' x) s) → exec_prog a (pbind p k) s = exec_prog a (pbind p k') s.
Proof. intros Hk. rewrite !exec_prog_bind. destruct (exec_prog a p s). apply Hk. Qed.

Lemma in_sandbox_ext e kits run run' s :
  (∀ id s, exec_prog a (run id) s = exec_prog a (run' id) s) →
  exec_prog a (in_sandbox e kits run) s = exec_prog a (in_sandbox e kits run') s.
Proof.
  intros Hrun. unfold in_sandbox. rewrite !exec_function.
  erewrite exec_prog_ext; [reflexivity|]. intros [[id|err] c] s'; [|done]. cbn [exec_prog].
  destruct (perform a (Defer c) s') as [x s2]. apply Hrun.
Qed.

(** The two probes of [denyByDefault] and what they find. *)
Definition allowed_findings (r : result adapter_error Result) : list finding :=
  match r with
  | Err err => [failf "probe allowed host: %v" [Aerr err]]
  | Ok res => if negb (ExitCode res =? 0)%Z then [failf "an allowed host was refused: %s" [Astr (trim_space (Stderr res))]] else []
  end.
Definition denied_findings (r : result adapter_error Result) : list finding :=
  match r with
  | Err err => [failf "probe denied host: %v" [Aerr err]]
  | Ok res => denied_probe "a host outside the allow list was reachable"
                "probing the denied host failed with status %d, which is not a policy observation: %s" res
  end.
Lemma allowed_exited id argv i : asked i = ["exec"; id; "--"] ++ argv →
  allowed_findings (answered i) = [] ↔ exited (["exec"; id; "--"] ++ argv) 0 i.
Proof.
  intros Hi. unfold exited, allowed_findings. split.
  - destruct (answered i) as [res|err]; [|done]. destruct (Z.eqb_spec (ExitCode res) 0); cbn; [|done]. eauto.
  - intros (_ & res & -> & ->). done.
Qed.
Lemma denied_exited id argv i : asked i = ["exec"; id; "--"] ++ argv →
  denied_findings (answered i) = [] ↔ exited (["exec"; id; "--"] ++ argv) 7 i.
Proof.
  intros Hi. unfold exited, denied_findings, denied_probe. split.
  - destruct (answered i) as [res|err]; [|done].
    destruct (Z.eqb_spec (ExitCode res) 0), (Z.eqb_spec (ExitCode res) 7); try done. eauto.
  - intros (_ & res & -> & ->). done.
Qed.
Definition deny_probes (id : string) : prog (list finding) :=
  let! x := exec id ["kit-tck-probe"; "https://example.com"] in
  match allowed_findings x with
  | [] => let! y := exec id ["kit-tck-probe"; "https://example.org"] in Ret (denied_findings y)
  | fs => Ret fs
  end.
Lemma denyByDefault_probes fixture e s :
  exec_prog a (denyByDefault fixture e) s = exec_prog a (in_sandbox e [fixtureWorkload; fixture] deny_probes) s.
Proof.
  apply in_sandbox_ext. intros id s'. apply exec_prog_ext. intros [res|err] s2; [|done]. cbn [allowed_findings].
  destruct (negb (ExitCode res =? 0)%Z); [done|]. apply exec_prog_ext. by intros [].
Qed.
End Passing.

(** ** Properties *)

(** C17: Every sandbox the suite creates is removed, once, whatever its checks find and
    however they end, and no verb is about a sandbox that is not there; a removal that
    fails is a failure of the report. *)
Theorem suite_removes_what_it_creates `{SSH, MapOrder} DeepEqual e w :
  let '(rep, err, e', (w', h)) := Run DeepEqual e (w, []) in
  replay ∅ h = Some ∅ ∧ ∀ leak, leak ∈ failed_removals h → leak_finding leak ∈ Findings rep.
Proof. unfold Run. apply runChecks_swept. intros sub. apply checks_keep. Qed.

(** A check the runtime does not claim asks nothing of the runtime and fails nothing:
    without those checks the run ends in the same state, as soon, with the same failures. *)
Theorem unclaimed_checks_invisible `{SSH} a e selected rep s :
  let '(r, err, s1) := checks_loop a e selected rep s in
  let '(r', err', s1') := checks_loop a e (List.filter (λ c, negb (unclaimed e c)) selected) rep s in
  s1 = s1' ∧ err = err' ∧ failures r = failures r'.
Proof. by apply checks_loop_claimed. Qed.

(** The wait for a record ends with an answer within the five seconds the code gives
    it, whatever the runtime does: the turns it may take are never used up. *)
Theorem poll_answers `{SSH} `{!HostLaws} a id path accept s :
  let ctx := WithTimeout (now (machine s).1) Background poll_timeout in
  is_Some (exec_prog a (poll_record poll_fuel ctx id path accept) s).1.
Proof.
  intros ctx. apply (poll_record_ends a 101 ctx id path accept (now (machine s).1 + poll_timeout)%Z); [done|].
  unfold poll_timeout. lia.
Qed.

(** C18: The check that egress is denied by default passes exactly for the runs where a
    sandbox of the fixture was created, the allowed host was reached from it, the denial
    of the other host was observed as such, and the sandbox was then removed. *)
Theorem deny_by_default_exact `{SSH} a fixture e s :
  (exec_prog a (denyByDefault fixture e) s).1 = [] ↔
  ∃ id i1 i2 i3 i4,
    appended s (exec_prog a (denyByDefault fixture e) s).2 [i1; i2; i3; i4] ∧
    created_box (map (Fixtures e) [fixtureWorkload; fixture]) (with_args ∅) id i1 ∧
    exited ["exec"; id; "--"; "kit-tck-probe"; "https://example.com"] 0 i2 ∧
    exited ["exec"; id; "--"; "kit-tck-probe"; "https://example.org"] 7 i3 ∧
    asked i4 = ["rm"; id].
Proof.
  rewrite denyByDefault_probes.
  destruct (in_sandbox_steps a e [fixtureWorkload; fixture] deny_probes s) as (i1 & s1 & Hi1 & Happ1 & Hrest).
  { intros id s'. apply two_probes. }
  destruct (match answered i1 with Ok res => created res | Err err => Err err end) as [id|err] eqn:Ec; cycle 1.
  { destruct Hrest as [-> Happ]. split; [done|]. intros (id & i & i2 & i3 & i4 & Hall & _).
    unfold appended in *. rewrite Happ, Happ1, app_nil_r in Hall. by apply app_inv_head in Hall. }
  destruct Hrest as (i4 & Hi4 & Hres & Happ4). rewrite Hres.
  destruct (two_probes a id ["kit-tck-probe"; "https://example.com"] ["kit-tck-probe"; "https://example.org"]
    allowed_findings denied_findings s1) as (_ & i2 & Hi2 & [(Hne & Hf & Happ2)|(Hnil & i3 & Hi3 & Hf & Happ2)]);
    fold (deny_probes id) in Hf, Happ2; rewrite Hf; unfold appended in *; rewrite Happ4, Happ2, Happ1, <-!app_assoc; cbn [app].
  - split; [done|]. intros (id' & j1 & j2 & j3 & j4 & Hall & _). by apply app_inv_head in Hall.
  - rewrite (denied_exited id _ i3 Hi3). split.
    + intros Hd. exists id, i1, i2, i3, i4. split; [done|].
      split; [|split; [|by split]].
      * split; [done|]. destruct (answered i1) as [res|]; [|done]. eauto.
      * by apply (allowed_exited id ["kit-tck-probe"; "https://example.com"] i2 Hi2).
    + intros (id' & j1 & j2 & j3 & j4 & Hall & Hc & _ & Hd & _). apply app_inv_head in Hall as [= <- <- <- <-].
      destruct Hc as (_ & res & Hres' & Hc). rewrite Hres', Hc in Ec. by injection Ec as <-.
Qed.

(** ** A machine to run on *)

(** A runtime that claims a network policy, creates every sandbox under one name, answers
    the policy's probes and cannot remove a sandbox; its clock counts its processes. *)
Module Sample.
Definition answer (argv : list string) : completed :=
  match argv with
  | "capabilities" :: _ => mkCompleted ("com.docker.sandbox/network-policy@1" +:+ String "010" "") "" None
  | "create" :: _ => mkCompleted ("box" +:+ String "010" "") "" None
  | "rm" :: _ => mkCompleted "" "busy" (Some (ExitError 1))
  | ["exec"; _; _; _; "https://example.org"] => mkCompleted "" "" (Some (ExitError 7))
  | _ => mkCompleted "" "" None
  end.
Definition host : Host := {|
  World := Z;
  run_command ctx c w := (answer (Cmd_Args c), (w + 1)%Z);
  Environ dir := ["PWD=" +:+ dir];
  Getwd := Some "/work";
  Getenv _ := "/bin";
  now w := w;
  caller_err _ := None;
  select_done ctx d w := (match deadline ctx with Some t => (t <=? w)%Z | None => false end, (w + d)%Z);
  UserHomeDir := Ok "/root";
  MkdirTemp parent pattern w := (Ok "/tmp/dir", w);
  Symlink _ _ w := (Ok (), w);
  WriteFile _ _ w := (Ok (), w);
  ReadFile _ _ := Ok "";
  RemoveAll _ w := w;
  json_text _ := None;
  decode_capability := λ cur _, Ok cur;
|}.
#[local] Existing Instance host.
Lemma laws : HostLaws.
Proof.
  split; cbn.
  - intros. lia.
  - intros ctx d w w' [= _ <-]. lia.
  - intros ctx d w [e He]. unfold ctx_Err in He. cbn in He. destruct (inherits ctx), (deadline ctx); cbn in He; try done;
      by destruct (_ <=? w)%Z.
Qed.
Definition ssh : SSH := {|
  Signer := ();
  public_key _ := "key";
  MarshalAuthorizedKey k := k;
  GenerateKey w := (Ok (), w);
  Sign _ data w := (Ok data, w);
  verify_signature _ _ _ := None;
  marshal_binding _ _ sig _ := sig;
  rand_Read _ w := ("", w);
  serve_agent _ _ w := (Ok (), w);
  close_agent _ w := w;
  agent_keys _ _ := Ok ["key"];
  agent_reads _ _ := [];
  agent_signs _ _ := [];
|}.
#[local] Existing Instance ssh.
Definition map_order : MapOrder := {| map_range m := map_to_list m; map_range_perm m := reflexivity _ |}.
#[local] Existing Instance map_order.
Definition adapter : Adapter := mkAdapter "./adapter" [] "".
Definition env : Env := mkEnv (Some adapter) (Some (λ name, name)) None "" [].
Definition start : suite := mkSuite (0%Z, []) [] [].
End Sample.

Section Samples.
#[local] Existing Instances Sample.host Sample.ssh Sample.map_order.

(** The policy's check passes on it; the suite reports every sandbox it left. *)
Example deny_by_default_sample :
  (exec_prog Sample.adapter (denyByDefault "egress" (mkSubject id ∅ "s")) Sample.start).1 = [].
Proof. by vm_compute. Qed.
Example suite_sample :
  let '(rep, err, e', (w, h)) := Run (λ _ _, true) Sample.env (0%Z, []) in
  err = None ∧ replay ∅ h = Some ∅ ∧ length (failed_removals h) = 20%nat ∧
  length (List.filter (λ f, bool_decide (Finding_Check f = "cleanup")) (Findings rep)) = 20%nat ∧
  length (Report.Checks rep) = 73%nat.
Proof. by vm_compute. Qed.
(** An environment used again reports what an earlier run could not remove once more:
    its second report has the failures of both runs. *)
Example leaks_reported_again :
  let '(rep, err, e', st) := Run (λ _ _, true) Sample.env (0%Z, []) in
  let '(rep', _, _, _) := Run (λ _ _, true) e' st in
  let cleanups r := length (List.filter (λ f, bool_decide (Finding_Check f = "cleanup")) (Findings r)) in
  cleanups rep = 20%nat ∧ cleanups rep' = 40%nat.
Proof. by vm_compute. Qed.

Lemma poll_answers_witness :
  is_Some (exec_prog Sample.adapter
    (poll_record poll_fuel (WithTimeout (now (machine Sample.start).1) Background poll_timeout) "box" "/record"
       (λ _, Some (failf "never" []))) Sample.start).1.
Proof. apply (@poll_answers Sample.host Sample.ssh Sample.laws Sample.adapter "box" "/record"). Defined.
End Samples.
