(* ===== verification/BuildStamp.v ===== *)
(** [internal/version/version.go]: what a frontend binary says it is. *)
From stdpp Require Import options.
From S2P Require Import Prelude GoStrings.

(** The published image of the frontend. *)
Definition version_Name : string := "docker/sandbox-kit".

Record stamp := mkStamp { version : string; revision : string }.

(** A linker stamp wins, field by field. *)
Definition fill (linked recorded : stamp) : stamp :=
  mkStamp (if bool_decide (version linked = "") then version recorded else version linked)
          (if bool_decide (revision linked = "") then revision recorded else revision linked).

Definition isHex (c : ascii) : bool := is_digit c || byte_in "a" "f" c.
Definition isAll (s : string) (class : ascii → bool) : bool := str_forall class s.

(** [strings.LastIndexAny(s, chars) + 1]: what follows the last of the bytes. *)
Definition after_last_any (chars s : string) : string :=
  foldl (λ best c,
    match last_index c s with
    | Some i => if String.length s - S i <=? String.length best then str_drop (S i) s else best
    | None => best
    end) s (String.list_ascii_of_string chars).

Definition isPseudoVersion (version : string) : bool :=
  match last_index "-" version with
  | None => false
  | Some dash =>
      let revision := str_drop (S dash) version in
      if negb (String.length revision =? 12) || negb (isAll revision isHex) then false
      else
        let timestamp := after_last_any ".-" (str_take dash version) in
        (String.length timestamp =? 14) && isAll timestamp is_digit
  end.

Definition releaseTag (version : string) : string :=
  let version := trim_prefix "v" version in
  if bool_decide (version = "") || bool_decide (version = "(devel)") || contains "+" version then ""
  else if isPseudoVersion version then "" else version.

(** What Go recorded in the binary: the main module's version and the VCS
    settings, in their order. *)
Definition recorded_revision (settings : list (string * string)) : string * bool :=
  foldl (λ st kv,
    if bool_decide (kv.1 = "vcs.revision") then (kv.2, st.2)
    else if bool_decide (kv.1 = "vcs.modified") then (st.1, bool_decide (kv.2 = "true"))
    else st) ("", false) settings.
Definition recorded (info : option (string * list (string * string))) : stamp :=
  match info with
  | None => mkStamp "" ""
  | Some (mainVersion, settings) =>
      let '(rev, modified) := recorded_revision settings in
      mkStamp (releaseTag mainVersion)
        (if modified && negb (bool_decide (rev = "")) then rev +:+ "-dirty" else rev)
  end.

Definition development : string := "dev".
Definition short : nat := 8.

Definition abbreviate (revision : string) : string :=
  let '(sha, suffix, found) := cut "-" revision in
  let sha := if short <? String.length sha then str_take short sha else sha in
  if found then sha +:+ "-" +:+ suffix else sha.

Definition display (version revision : string) : string :=
  if bool_decide (revision = "") then version
  else version +:+ " (" +:+ abbreviate revision +:+ ")".

Definition Tag (s : stamp) : string :=
  if negb (bool_decide (version s = "")) then version s else development.
Definition Rev (s : stamp) : string := revision s.
Definition stamp_String (s : stamp) : string := display (Tag s) (Rev s).

(** [compute]: the linker's variables completed by Go's record. *)
Definition compute (linked : stamp) (info : option (string * list (string * string))) : stamp :=
  fill linked (recorded info).

(** ** Facts *)

Lemma last_index_app_none c a b :
  contains_byte c b = false → last_index c (a +:+ String c b) = Some (String.length a).
Proof.
  intros Hb. assert (last_index c b = None) as H0.
  { clear a. induction b as [|d b IH]; [done|]. rewrite contains_byte_cons in Hb.
    apply orb_false_iff in Hb as [Hd Hb]. cbn. rewrite IH by done.
    apply bool_decide_eq_false in Hd. by case_decide. }
  induction a as [|d a IH].
  - rewrite str_app_nil_l. cbn. rewrite H0. by case_decide.
  - rewrite str_app_cons. cbn [last_index String.length]. by rewrite IH.
Qed.

Lemma isAll_no_byte f c s : isAll s f = true → f c = false → contains_byte c s = false.
Proof. intros Hs Hc. by apply (str_forall_contains f). Qed.

(** The forms Go gives a version it derives from a commit: the timestamp after a
    dash or a dot, the abbreviated revision after a dash. *)
Definition pseudo_version (base : string) (sep : ascii) (timestamp revision : string) : string :=
  (base +:+ String sep timestamp) +:+ String "-" revision.

Lemma str_take_app_length a b : str_take (String.length a) (a +:+ b) = a.
Proof. apply str_take_app. Qed.

Lemma last_index_none c b : contains_byte c b = false → last_index c b = None.
Proof.
  intros Hb. induction b as [|d b IH]; [done|]. rewrite contains_byte_cons in Hb.
  apply orb_false_iff in Hb as [Hd Hb]. cbn. rewrite IH by done.
  apply bool_decide_eq_false in Hd. by case_decide.
Qed.

Lemma drop_after c a b : str_drop (S (String.length a)) (a +:+ String c b) = b.
Proof.
  change (String c b) with (String c "" +:+ b). rewrite <-str_app_assoc.
  assert (S (String.length a) = String.length (a +:+ String c "")) as ->.
  { rewrite str_length_app. cbn. lia. }
  apply str_drop_app.
Qed.

Lemma after_last_any_spec base sep timestamp :
  sep = "."%char ∨ sep = "-"%char → isAll timestamp is_digit = true →
  after_last_any ".-" (base +:+ String sep timestamp) = timestamp.
Proof.
  intros Hsep Hts. set (s := base +:+ String sep timestamp).
  assert (last_index sep s = Some (String.length base)) as Hl.
  { apply last_index_app_none, isAll_no_byte with is_digit; [done|]. by destruct Hsep; subst. }
  assert (∀ c, c = "."%char ∨ c = "-"%char → ∀ i, last_index c s = Some i →
    i ≤ String.length base) as Hle.
  { intros c Hc i. unfold s. assert (contains_byte c timestamp = false) as Hn.
    { apply isAll_no_byte with is_digit; [done|]. by destruct Hc; subst. }
    destruct (decide (c = sep)) as [->|Hne]; [rewrite last_index_app_none by done; by intros [= <-]|].
    clear -Hn Hne. revert i. induction base as [|d b IH]; intros i.
    - rewrite str_app_nil_l. cbn. rewrite last_index_none by done. by rewrite decide_False by congruence.
    - rewrite str_app_cons. cbn [last_index String.length].
      destruct (last_index c _) as [j|] eqn:E; [intros [= <-]; specialize (IH j eq_refl); lia|].
      case_decide; [|done]. intros [= <-]. lia. }
  assert (String.length s = String.length base + S (String.length timestamp)) as Hs
    by (unfold s; by rewrite str_length_app).
  assert (str_drop (S (String.length base)) s = timestamp) as Hd by apply drop_after.
  unfold after_last_any. cbn [String.list_ascii_of_string foldl].
  destruct Hsep as [-> | ->]; rewrite Hl, Hd.
  - rewrite (proj2 (Nat.leb_le (String.length s - S (String.length base)) _)) by lia.
    destruct (last_index "-" s) as [i|] eqn:Ei; [|done].
    assert (i ≤ String.length base) as Hi by (eapply Hle; [by right|done]).
    case_match eqn:E; [|done]. apply Nat.leb_le in E.
    assert (i = String.length base) as -> by lia. exact Hd.
  - destruct (last_index "." s) as [i|] eqn:Ei.
    + assert (i ≤ String.length base) as Hi by (eapply Hle; [by left|done]).
      set (best := if String.length s - S i <=? String.length s then str_drop (S i) s else s).
      assert (String.length s - S (String.length base) ≤ String.length best) as Hb.
      { unfold best. destruct (_ <=? _); rewrite ?str_drop_length; lia. }
      by apply Nat.leb_le in Hb as ->.
    + rewrite (proj2 (Nat.leb_le (String.length s - S (String.length base)) _)) by lia. done.
Qed.

(** ** Properties *)

(** No build calls itself by a version Go synthesized from a commit: every
    pseudo-version, whatever base it starts from and whether its timestamp
    follows a dash or a dot, is recognized, and the release tag of such a build
    is empty. *)
Theorem pseudo_version_dropped base sep timestamp revision :
  sep = "."%char ∨ sep = "-"%char →
  String.length timestamp = 14 → isAll timestamp is_digit = true →
  String.length revision = 12 → isAll revision isHex = true →
  isPseudoVersion (pseudo_version base sep timestamp revision) = true ∧
  releaseTag ("v" +:+ pseudo_version base sep timestamp revision) = "".
Proof.
  intros Hsep Ht14 Ht Hr12 Hr.
  assert (isPseudoVersion (pseudo_version base sep timestamp revision) = true) as Hp.
  { unfold isPseudoVersion, pseudo_version.
    rewrite last_index_app_none by (by apply isAll_no_byte with isHex).
    rewrite drop_after, str_take_app, after_last_any_spec by done.
    by rewrite Hr12, Hr, Ht14, Ht. }
  split; [done|]. unfold releaseTag. rewrite trim_prefix_app.
  destruct (_ || _); [done|]. by rewrite Hp.
Qed.

Lemma pseudo_version_dropped_witness :
  releaseTag ("v" +:+ pseudo_version "3.0.0-m.5.0" "." "20240131120000" "0123456789ab") = "".
Proof.
  apply (pseudo_version_dropped "3.0.0-m.5.0" "." "20240131120000" "0123456789ab");
    [by left|done..].
Defined.
