(* ===== verification/Command.v ===== *)
(** [cmd/kit-tck]: the command line of the suites — its flags, what a run is written down
    as, and the three subcommands.

    The standard output is a writer that may fail; the terminal and the environment are
    the class [Terminal]. *)
From stdpp Require Import options.
From S2P Require Import Prelude GoStrings GoUnicode Json Types Config Marshal Surface Packages Oci Validate Yaml Registry KitSuite KitSource Selection Adapter Backing Suite SuiteChecks Report SpecLink Render BuildStamp.

(** ** Flags *)

(** What the [flag] package is told of a flag: the variable it sets, whether it stands
    without a value, and which values it takes. *)
Record flag_spec := mkFlagSpec { variable : string; is_bool : bool; accepts : string → bool }.
(** The variables that were set, with the last text each was set to. *)
Definition flags := gmap string string.

Inductive flag_error :=
  | BadSyntax (arg : string)
  | NotDefined (name : string)
  | HelpAsked
  | NeedsArgument (name : string)
  | InvalidValue (name value : string).

(** [-name], [--name], and the value after [=]; [None] where an operand or the end of the
    flags is. *)
Definition flag_name (arg : string) : option string :=
  match arg with
  | String "-" (String "-" name) => if bool_decide (name = "") then None else Some name
  | String "-" (String c name) => Some (String c name)
  | _ => None
  end.
Definition flag_value (name : string) : string * option string :=
  match name with
  | String c rest =>
      match cut "=" rest with
      | (before, value, true) => (String c before, Some value)
      | _ => (name, None)
      end
  | "" => (name, None)
  end.
Definition bad_name (name : string) : bool := has_prefix "-" name || has_prefix "=" name.

Section Parse.
Context (specs : gmap string flag_spec).

Definition set_flag (name value : string) (set : flags) : result flag_error flags :=
  match specs !! name with
  | Some spec => if accepts spec value then Ok (<[variable spec := value]> set) else Err (InvalidValue name value)
  | None => Err (NotDefined name)
  end.
(** [FlagSet.Parse]: the flags before the first operand, and what is left. *)
Fixpoint Parse (args : list string) (set : flags) : result flag_error (flags * list string) :=
  match args with
  | [] => Ok (set, [])
  | arg :: args' =>
      match flag_name arg with
      | None => Ok (set, if bool_decide (arg = "--") then args' else args)
      | Some name =>
          if bad_name name then Err (BadSyntax arg)
          else
            let '(name, given) := flag_value name in
            match specs !! name with
            | None => Err (if bool_decide (name = "help") || bool_decide (name = "h") then HelpAsked else NotDefined name)
            | Some spec =>
                match given, is_bool spec, args' with
                | Some value, _, _ => set ← set_flag name value set; Parse args' set
                | None, true, _ => set ← set_flag name "true" set; Parse args' set
                | None, false, value :: args' => set ← set_flag name value set; Parse args' set
                | None, false, [] => Err (NeedsArgument name)
                end
            end
      end
  end.

(** [parseOperands]: parsing resumes after each operand.  An operand is an argument, so
    the arguments bound the turns. *)
Fixpoint parse_operands (fuel : nat) (args : list string) (set : flags) (operands : list string) :
    result flag_error (option (flags * list string)) :=
  match fuel with
  | O => Ok None
  | S fuel =>
      '(set, rest) ← Parse args set;
      match rest with
      | [] => Ok (Some (set, operands))
      | operand :: args => parse_operands fuel args set (operands ++ [operand])
      end
  end.
Definition parseOperands (args : list string) : result flag_error (option (flags * list string)) :=
  parse_operands (S (length args)) args ∅ [].
End Parse.

(** ** What is judged *)

#[export] Instance finding_eq_dec : EqDecision (Finding string).
Proof. solve_decision. Defined.
#[export] Instance check_eq_dec : EqDecision Check_.
Proof. solve_decision. Defined.

#[export] Instance report_eq_dec : EqDecision (Report string).
Proof. solve_decision. Defined.

Record group := mkGroup { group_platforms : list string; group_report : Report string }.
Record outcome := mkOutcome { suite : string; target : string; groups : list group }.

Definition sameReport (a b : Report string) : bool :=
  bool_decide (Findings a = Findings b) && bool_decide (Report.Checks a = Report.Checks b).
Fixpoint add_group (platform : string) (rep : Report string) (gs : list group) : list group :=
  match gs with
  | [] => [mkGroup (if bool_decide (platform = "") then [] else [platform]) rep]
  | g :: gs =>
      if sameReport (group_report g) rep then mkGroup (group_platforms g ++ [platform]) (group_report g) :: gs
      else g :: add_group platform rep gs
  end.
Definition add (o : outcome) (platform : string) (rep : Report string) : outcome :=
  mkOutcome (suite o) (target o) (add_group platform rep (groups o)).
Definition conforms (o : outcome) : bool := forallb (λ g, negb (Failed (group_report g))) (groups o).

(** ** JSON *)

(** Encoded values, as text: [json.RawMessage] is embedded as it is. *)
Definition json_list (l : list string) : string := "[" +:+ join "," l +:+ "]".
Definition json_object (fields : list (string * string)) : string :=
  "{" +:+ join "," (map (λ f, marshal_string f.1 +:+ ":" +:+ f.2) fields) +:+ "}".
Definition json_bool (b : bool) : string := marshal (VBool b).
Definition json_int (n : nat) : string := marshal_number (NInt (Z.of_nat n)).
(** [omitempty]. *)
Definition omitempty (name : string) (empty : bool) (text : string) : list (string * string) :=
  if empty then [] else [(name, text)].

(** Where the scanner is in a document: in a string, after a backslash of one. *)
Inductive json_mode := Outside | Inside | Escaped.
Definition outside (m : json_mode) : bool := match m with Outside => true | _ => false end.
Definition json_space (c : ascii) : bool :=
  bool_decide (c ∈ [" "%char; byte 9; byte 10; byte 13]).
Definition json_step (m : json_mode) (c : ascii) : json_mode :=
  match m with
  | Outside => if bool_decide (c = quote) then Inside else Outside
  | Inside => if bool_decide (c = "\"%char) then Escaped else if bool_decide (c = quote) then Outside else Inside
  | Escaped => Inside
  end.
Definition json_newline (depth : nat) : string := String newline_byte (spaces (2 * depth)).
(** [json.Indent] with two spaces; an opened value that turns out empty is closed at
    once. *)
Fixpoint indent (m : json_mode) (opened : bool) (depth : nat) (s : string) : string :=
  match s with
  | "" => ""
  | String c s =>
      match m with
      | Outside =>
          if json_space c then indent Outside opened depth s
          else
            let closing := bool_decide (c = "]"%char) || bool_decide (c = "}"%char) in
            let '(before, depth) := if opened && negb closing then (json_newline (S depth), S depth) else ("", depth) in
            if bool_decide (c = quote) then before +:+ String c (indent Inside false depth s)
            else if bool_decide (c = "["%char) || bool_decide (c = "{"%char)
            then before +:+ String c (indent Outside true depth s)
            else if bool_decide (c = ","%char) then before +:+ String c (json_newline depth +:+ indent Outside false depth s)
            else if bool_decide (c = ":"%char) then before +:+ String c (String " " (indent Outside false depth s))
            else if closing then
              if opened then String c (indent Outside false depth s)
              else json_newline (pred depth) +:+ String c (indent Outside false (pred depth) s)
            else before +:+ String c (indent Outside false depth s)
      | _ => String c (indent (json_step m c) false depth s)
      end
  end.
Definition Indent : string → string := indent Outside false 0.

(** ** Writing a run down *)

Class Terminal := {
  IsTerminal : bool;
  GetSize : option Z;
  getenv : string → string;
}.
Definition terminal `{Terminal} : bool * Z :=
  if negb IsTerminal then (false, 0%Z)
  else
    match GetSize with
    | None => (true, 0%Z)
    | Some width => if (width <? 40)%Z then (true, 0%Z) else (true, Z.min width 140)
    end.

Definition bold : string := "1".
Definition ansi (color : bool) (code s : string) : string :=
  if negb color then s else String esc "[" +:+ code +:+ "m" +:+ s +:+ String esc "[0m".

Record presentation := mkPresentation { format : string; color_mode : string; verbose : bool; spec : Resolver }.

Definition painting `{Terminal} (p : presentation) (tty : bool) : bool :=
  if bool_decide (color_mode p = "always") then true
  else if bool_decide (color_mode p = "never") then false
  else if negb (bool_decide (getenv "NO_COLOR" = "")) || bool_decide (getenv "TERM" = "dumb") then false
  else tty.

Inductive write_error (E : Type) :=
  | UnknownFormat (format : string)
  | WriteFailed (cause : E)
  | NotConformant.
Arguments UnknownFormat {E} format.
Arguments WriteFailed {E} cause.
Arguments NotConformant {E}.

Section Write.
Context `{Unicode, Terminal}.
Context {W E : Type} (WriteString : string → W → option E * W).
Context (built : stamp).
Implicit Types (p : presentation) (o : outcome).

Notation line := (Render.line WriteString).

(** *** References *)

Definition cite (ids : list string) (id : string) : list string :=
  if bool_decide (id = "") || bool_decide (id ∈ ids) then ids else ids ++ [id].
Definition cite_group p (ids : list string) (g : group) : list string :=
  let ids := foldl cite ids (map Finding_Requirement (Findings (group_report g))) in
  if verbose p then foldl cite ids (map Check_Requirement (Report.Checks (group_report g))) else ids.
Definition cited p o : list string := foldl (cite_group p) [] (groups o).
Definition cited_refs p o : list (string * Reference) :=
  omap (λ id, ref ← Resolve (spec p) id; Some (id, ref)) (cited p o).
(** [%-*s]: padded to a width in runes; the width is the longest id's in bytes. *)
Definition left_justified (width : nat) (s : string) : string := s +:+ spaces (width - RuneCount s).
Definition reference_lines p o (style : string → string → string) : list string :=
  match cited_refs p o with
  | [] => []
  | refs =>
      let width := foldl (λ w r, Nat.max w (String.length r.1)) 0 refs in
      "" :: style dim "specification" ::
      map (λ r, "  " +:+ left_justified width (Reference_Requirement r.2) +:+ "  " +:+ style dim (Reference_URL r.2)) refs
  end.

(** *** Text *)

Definition header_line (verb target : string) : string :=
  "kit-tck " +:+ stamp_String built +:+ middle_dot +:+ verb +:+ middle_dot +:+ target.
Definition platform_lines (style : string → string → string) (platforms : list string) : list string :=
  "" :: match platforms with [] => [] | _ => [style bold (join ", " platforms)] end.
Definition write_group (options : Options) (style : string → string → string) (out : errWriter) (g : group) :
    errWriter :=
  let out := foldl line out (platform_lines style (group_platforms g)) in
  match err out with
  | Some _ => out
  | None => let '(e, w') := Render WriteString (group_report g) (w out) options in mkErrWriter w' e
  end.
Definition check_mark : string := of_bytes [226; 156; 147].
Definition cross_mark : string := of_bytes [226; 156; 151].
Definition text_options p : Options :=
  let '(tty, width) := terminal in
  let color := painting p tty in
  mkOptions (verbose p) color (color && tty) width (Some (URL (spec p))).
Definition writeText p o (w0 : W) : option E * W :=
  let options := text_options p in
  let style := ansi (Color options) in
  let out := foldl (write_group options style)
    (line (mkErrWriter w0 None) (style dim (header_line (suite o) (target o)))) (groups o) in
  let out := foldl line out
    ["";
     if conforms o then style green (check_mark +:+ " conforms") else style red (cross_mark +:+ " does not conform")] in
  let out := if Hyperlinks options then out else foldl line out (reference_lines p o style) in
  (err out, w out).

(** *** JSON *)

Definition lower_severity (s : Severity) : string := match s with Fail_ => "fail" | Warn => "warn" | Skip => "skip" end.
Definition json_finding p (f : Finding string) : string :=
  let url := URL (spec p) (Finding_Requirement f) in
  json_object ([("severity", marshal_string (lower_severity (Finding_Severity f)));
    ("check", marshal_string (Finding_Check f)); ("requirement", marshal_string (Finding_Requirement f));
    ("detail", marshal_string (Detail f))] ++ omitempty "spec" (bool_decide (url = "")) (marshal_string url)).
Definition json_summary (s : Summary) : string :=
  json_object [("checks", json_int (Summary_Checks s)); ("failed", json_int (Summary_Failed s));
    ("warned", json_int (Summary_Warned s)); ("skipped", json_int (Summary_Skipped s)); ("passed", json_int (Summary_Passed s))].
Definition json_platforms (platforms : list string) : list (string * string) :=
  omitempty "platforms" (bool_decide (platforms = [])) (json_list (map marshal_string platforms)).
Definition json_result p (g : group) : string :=
  let rep := group_report g in
  json_object (json_platforms (group_platforms g) ++
    [("conforms", json_bool (negb (Failed rep))); ("summary", json_summary (Summary_ rep));
     ("findings", json_list (map (json_finding p) (Findings rep)));
     ("passed", json_list (map (λ c, marshal_string (Check_Name c)) (passing rep)))]).
(** The envelope both kinds of run share. *)
Definition json_envelope (suite target : string) : list (string * string) :=
  [("tool", marshal_string "kit-tck"); ("version", marshal_string (Tag built))] ++
  omitempty "revision" (bool_decide (Rev built = "")) (marshal_string (Rev built)) ++
  [("suite", marshal_string suite); ("target", marshal_string target)].
Definition json_run p o : string :=
  json_object (json_envelope (suite o) (target o) ++
    [("conforms", json_bool (conforms o)); ("results", json_list (map (json_result p) (groups o)))]).
(** [encoder.Encode]: the indented document and a newline, in one write. *)
Definition encode (document : string) (w0 : W) : option E * W :=
  WriteString (Indent document +:+ String newline_byte "") w0.
Definition writeJSON p o (w0 : W) : option E * W := encode (json_run p o) w0.

(** The verdict is the error of a run that was written down. *)
Definition write p o (w0 : W) : option (write_error E) * W :=
  let verdict (r : option E * W) : option (write_error E) * W :=
    match r with
    | (Some e, w') => (Some (WriteFailed e), w')
    | (None, w') => (if conforms o then None else Some NotConformant, w')
    end in
  if bool_decide (format p = "json") then verdict (writeJSON p o w0)
  else if bool_decide (format p = "text") || bool_decide (format p = "") then verdict (writeText p o w0)
  else (Some (UnknownFormat (format p)), w0).
End Write.

(** ** What is inspected ([inspect.go]) *)

Record inspectedGroup := mkInspectedGroup { inspected_platforms : list string; inspected_kit : Inspection }.
Record inspection := mkInspections { inspection_target : string; inspection_groups : list inspectedGroup }.

Definition sameInspection (a b : Inspection) : bool :=
  bool_decide (Stem a = Stem b) && bool_decide (Inspection_Descriptor a = Inspection_Descriptor b) &&
  bool_decide (Recipe a = Recipe b).
Fixpoint add_inspected (platform : string) (i : Inspection) (gs : list inspectedGroup) : list inspectedGroup :=
  match gs with
  | [] => [mkInspectedGroup (if bool_decide (platform = "") then [] else [platform]) i]
  | g :: gs =>
      if sameInspection (inspected_kit g) i then mkInspectedGroup (inspected_platforms g ++ [platform]) (inspected_kit g) :: gs
      else g :: add_inspected platform i gs
  end.
Definition add_inspection (o : inspection) (platform : string) (i : Inspection) : inspection :=
  mkInspections (inspection_target o) (add_inspected platform i (inspection_groups o)).

(** The platform without its variant: at most two parts of three. *)
Definition osArch (p : string) : string := join "/" (take 2 (split "/" p)).
Definition sameOSArch (a b : string) : bool := bool_decide (osArch a = osArch b).
Definition hostPlatform (goarch : string) : string := "linux/" +:+ goarch.

(** What a subcommand ends with, but for a run that was written down. *)
Inductive command_error (E : Type) :=
  | SubcommandMissing
  | SubcommandUnknown (name : string)
  | FlagsRefused (cause : flag_error)
  | OneReference
  | AdapterMissing
  | KitUnloaded (cause : source_error)
  | KitUnjudged (cause : string)
  | FixturesMissing (cause : string)
  | RuntimeUnjudged (cause : Suite.suite_error)
  | RunExceeded (timeout : Z) (cause : Suite.suite_error)
  | RunUnwritten (cause : write_error E)
  | OneHalf
  | FormatUnknown (format : string)
  | NoImage
  | PlatformUnparsed (want cause : string)
  | PlatformAbsent (want : string) (have : list string)
  | KitUnread (cause : inspect_error)
  | HostImageAbsent (target host : string) (have : list string)
  | RecipeAbsent (target : string)
  | DescriptorUndecoded (cause : string)
  | OutputFailed (cause : E).
Arguments SubcommandMissing {E}.
Arguments SubcommandUnknown {E} name.
Arguments FlagsRefused {E} cause.
Arguments OneReference {E}.
Arguments AdapterMissing {E}.
Arguments KitUnloaded {E} cause.
Arguments KitUnjudged {E} cause.
Arguments FixturesMissing {E} cause.
Arguments RuntimeUnjudged {E} cause.
Arguments RunExceeded {E} timeout cause.
Arguments RunUnwritten {E} cause.
Arguments OneHalf {E}.
Arguments FormatUnknown {E} format.
Arguments NoImage {E}.
Arguments PlatformUnparsed {E} want cause.
Arguments PlatformAbsent {E} want have.
Arguments KitUnread {E} cause.
Arguments HostImageAbsent {E} target host have.
Arguments RecipeAbsent {E} target.
Arguments DescriptorUndecoded {E} cause.
Arguments OutputFailed {E} cause.

Definition labels (o : inspection) : list string := flat_map inspected_platforms (inspection_groups o).
(** The one reading raw output can print. *)
Definition single {E} (o : inspection) (host : string) : result (command_error E) Inspection :=
  match inspection_groups o with
  | [g] => Ok (inspected_kit g)
  | gs =>
      match List.find (λ g, existsb (λ p, sameOSArch p host) (inspected_platforms g)) gs with
      | Some g => Ok (inspected_kit g)
      | None => Err (HostImageAbsent (inspection_target o) host (labels o))
      end
  end.

(** [blockStyle]: a tree without the styles it was written in. *)
Fixpoint blockStyle (n : node) : node :=
  mkNode (node_id n) (node_kind_ n) 0 (node_tag n) (node_value n) (node_anchor n) (HeadComment n) (LineComment n)
    (FootComment n) (map blockStyle (node_content n)) (node_alias n).

(** [Marshal] of a [json.RawMessage]: its spaces outside strings dropped, and the
    characters of HTML escaped. *)
Fixpoint compact (m : json_mode) (s : string) : string :=
  match s with
  | String "226" (String "128" (String "168" r)) => "\u2028" +:+ compact (match m with Escaped => Inside | m => m end) r
  | String "226" (String "128" (String "169" r)) => "\u2029" +:+ compact (match m with Escaped => Inside | m => m end) r
  | String c r =>
      if outside m && json_space c then compact m r
      else (if contains_byte c "<>&" then unicode_escape c else String c "") +:+ compact (json_step m c) r
  | "" => ""
  end.

(** Which of the two halves a run asked to see. *)
Record halves := mkHalves { show_descriptor : bool; show_recipe : bool }.

Definition trim_newlines (s : string) : string := trim_right newline_byte s.
(** [lines.block]: indented, but for what is empty. *)
Definition block_lines (content : string) : list string :=
  map (λ line, if bool_decide (line = "") then "" else "    " +:+ line) (split newline_byte (trim_newlines content)).

Section Inspect.
Context `{Terminal, YamlNodes}.
Context (encode_node : node → result string string).
Context (json_valid : string → bool) (yaml_any : string → result string value).
Context {W E : Type} (WriteString : string → W → option E * W).
Context (built : stamp).

Notation line := (Render.line WriteString).

Definition descriptor_yaml (descriptor : string) : result (command_error E) string :=
  match parse_node descriptor with
  | Err cause => Err (DescriptorUndecoded cause)
  | Ok doc => map_err DescriptorUndecoded (encode_node (blockStyle doc))
  end.
Definition descriptorJSON (annotation : string) : result (command_error E) string :=
  if json_valid annotation then Ok (compact Outside annotation)
  else
    match yaml_any annotation with
    | Err cause => Err (DescriptorUndecoded cause)
    | Ok doc => if marshals doc then Ok (marshal doc) else Err (DescriptorUndecoded "no JSON form")
    end.

Definition missing_descriptor : string := "annotation only; no staged sources found".
Definition missing_recipe : string := "none staged: the kit is declaration-only, a set, or its sources are not staged".
Definition inspected_lines (style : string → string → string) (g : inspectedGroup) : result (command_error E) (list string) :=
  let i := inspected_kit g in
  let place := if bool_decide (DescriptorPath i = "") then missing_descriptor else DescriptorPath i in
  descriptor ← descriptor_yaml (Inspection_Descriptor i);
  Ok (platform_lines style (inspected_platforms g) ++
      ("  " +:+ style dim "descriptor" +:+ "  " +:+ style dim place) :: block_lines descriptor ++
      "" ::
      match Recipe i with
      | None => ["  " +:+ style dim "dockerfile" +:+ "  " +:+ style dim missing_recipe]
      | Some recipe => ("  " +:+ style dim "dockerfile" +:+ "  " +:+ style dim (RecipePath i)) :: block_lines recipe
      end).
(** A descriptor that does not decode ends the writing, after the lines before it. *)
Fixpoint write_inspected (style : string → string → string) (gs : list inspectedGroup) (out : errWriter) :
    option (command_error E) * errWriter :=
  match gs with
  | [] => (None, out)
  | g :: gs =>
      match inspected_lines style g with
      | Ok ls => write_inspected style gs (foldl line out ls)
      | Err e =>
          let i := inspected_kit g in
          let place := if bool_decide (DescriptorPath i = "") then missing_descriptor else DescriptorPath i in
          (Some e, foldl line out (platform_lines style (inspected_platforms g) ++
             ["  " +:+ style dim "descriptor" +:+ "  " +:+ style dim place]))
      end
  end.
Definition writeInspectionText (p : presentation) (o : inspection) (w0 : W) : option (command_error E) * W :=
  let style := ansi (painting p (fst terminal)) in
  let out := line (mkErrWriter w0 None) (style dim (header_line built "inspect" (inspection_target o))) in
  match write_inspected style (inspection_groups o) out with
  | (Some e, out) => (Some e, w out)
  | (None, out) => let out := line out "" in (option_map OutputFailed (err out), w out)
  end.

Definition json_inspected (show : halves) (g : inspectedGroup) : result (command_error E) string :=
  let i := inspected_kit g in
  descriptor ←
    (if show_descriptor show then
       descriptor ← descriptorJSON (Inspection_Descriptor i);
       Ok (omitempty "descriptorPath" (bool_decide (DescriptorPath i = "")) (marshal_string (DescriptorPath i)) ++
           omitempty "descriptor" (bool_decide (descriptor = "")) descriptor)
     else Ok []);
  let recipe :=
    if show_recipe show then
      match Recipe i with
      | None => [("dockerfile", "null")]
      | Some recipe =>
          omitempty "dockerfilePath" (bool_decide (RecipePath i = "")) (marshal_string (RecipePath i)) ++
          [("dockerfile", marshal_string recipe)]
      end
    else [] in
  Ok (json_object (json_platforms (inspected_platforms g) ++ descriptor ++ recipe)).
Definition writeInspectionJSON (o : inspection) (show : halves) (w0 : W) : option (command_error E) * W :=
  match mapM (json_inspected show) (inspection_groups o) with
  | Err e => (Some e, w0)
  | Ok results =>
      let '(e, w') := encode WriteString
        (json_object (json_envelope built "inspect" (inspection_target o) ++ [("results", json_list results)])) w0 in
      (option_map OutputFailed e, w')
  end.
End Inspect.

(** ** The subcommands ([main.go]) *)

Definition bool_texts : list string := ["1"; "t"; "T"; "TRUE"; "true"; "True"; "0"; "f"; "F"; "FALSE"; "false"; "False"].
Definition bool_flag (name : string) : string * flag_spec :=
  (name, mkFlagSpec name true (λ v, bool_decide (v ∈ bool_texts))).
Definition string_flag (name : string) : string * flag_spec := (name, mkFlagSpec name false (λ _, true)).
Definition output_flags : list (string * flag_spec) := [string_flag "format"; string_flag "color"].
Definition reporting_flags : list (string * flag_spec) :=
  output_flags ++ [bool_flag "verbose"; ("v", (bool_flag "verbose").2)].
Definition source_flags : list (string * flag_spec) := [string_flag "layout"; bool_flag "plain-http"].
Definition text_of (set : flags) (name default_ : string) : string := default default_ (set !! name).
Definition bool_of (set : flags) (name : string) : bool := bool_decide (text_of set name "false" ∈ take 6 bool_texts).

(** [Platform] ([tck/kit/source_oci.go]): with the variant, or two images of one
    architecture read as one. *)
Definition platformOf (a : ociArtifact) : string :=
  match art_platform a with
  | None => ""
  | Some p =>
      let label := OS p +:+ "/" +:+ Architecture p in
      if negb (bool_decide (Variant p = "")) then label +:+ "/" +:+ Variant p else label
  end.

Definition map_report {D D'} (f : D → D') (r : Report D) : Report D' :=
  mkReport (map (λ x, mkFinding (Finding_Check x) (Finding_Requirement x) (Finding_Severity x) (f (Detail x))) (Findings r))
    (Report.Checks r).

Section Commands.
Context `{Unicode, Terminal, YamlNodes, Validate.Documents}.
(** What is reached by the kit suite ([KitSource]), with the artifact it reads as, and
    the regular expressions and documents its checks read. *)
Context (FromRegistryAll : string → bool → result source_error (list ociArtifact)).
Context (FromLayoutAll : string → string → result source_error (list ociArtifact)).
Context (suite_artifact : ociArtifact → Artifact).
Context (compile : string → option (string → bool)) (json_text : string → option value).
Context (kit_wording : KitSuite.detail → string).
(** containerd's platforms package, and the architecture the binary was built for. *)
Context (platforms_Parse : string → result string Platform) (Normalize : Platform → Platform) (goarch : string).
Context (encode_node : node → result string string).
Context (json_valid : string → bool) (yaml_any : string → result string value).
Context {W E : Type} (WriteString : string → W → option E * W).
Context (built : stamp) (spec_pages : list visited).

Definition presentation_of (set : flags) : presentation :=
  mkPresentation (text_of set "format" "text") (text_of set "color" "auto") (bool_of set "verbose")
    (index (SpecLink.New (Tag built)) spec_pages).

Definition parsed (specs : list (string * flag_spec)) (args : list string) : result (command_error E) (flags * list string) :=
  parsed ← map_err FlagsRefused (parseOperands (list_to_map specs) args);
  Ok (default (∅, []) parsed).
Definition one_reference (operands : list string) : result (command_error E) string :=
  match operands with [reference] => Ok reference | _ => Err OneReference end.

Definition loadArtifacts (layout : string) (plainHTTP : bool) (reference : string) :
    string * result source_error (list ociArtifact) :=
  if negb (bool_decide (layout = "")) then (layout +:+ " " +:+ reference, FromLayoutAll layout reference)
  else (reference, FromRegistryAll reference plainHTTP).

(** A subcommand fails before it writes, or ends with what writing ended with. *)
Definition or_write {A} (r : result (command_error E) A) (k : A → W → option (command_error E) * W) (w0 : W) :
    option (command_error E) * W :=
  match r with Ok x => k x w0 | Err e => (Some e, w0) end.

Definition judge (a : ociArtifact) : result (command_error E) (string * Report string) :=
  rep ← map_err KitUnjudged (KitSuite.Run compile json_text (suite_artifact a));
  Ok (platformOf a, map_report kit_wording rep).
Definition judged (target : string) (runs : list (string * Report string)) : outcome :=
  foldl (λ o run, add o run.1 run.2) (mkOutcome "validate" target []) runs.
Definition validated (args : list string) : result (command_error E) (presentation * outcome) :=
  '(set, operands) ← parsed (source_flags ++ reporting_flags) args;
  reference ← one_reference operands;
  let '(target, artifacts) := loadArtifacts (text_of set "layout" "") (bool_of set "plain-http") reference in
  artifacts ← map_err KitUnloaded artifacts;
  runs ← mapM judge artifacts;
  Ok (presentation_of set, judged target runs).
Definition written (run : presentation * outcome) (w0 : W) : option (command_error E) * W :=
  let '(e, w') := write WriteString built run.1 run.2 w0 in (option_map RunUnwritten e, w').
Definition runValidate (args : list string) (w0 : W) : option (command_error E) * W :=
  or_write (validated args) written w0.

(** *** inspect *)

Definition samePlatform (label : string) (want : Platform) : bool :=
  match platforms_Parse label with
  | Err _ => false
  | Ok have =>
      let have := Normalize have in
      let want := Normalize want in
      bool_decide (OS have = OS want) && bool_decide (Architecture have = Architecture want) &&
      bool_decide (Variant have = Variant want)
  end.
Definition selectPlatform (artifacts : list ociArtifact) (want : string) : result (command_error E) (list ociArtifact) :=
  if bool_decide (length artifacts = 0) then Err NoImage
  else if bool_decide (want = "") then Ok artifacts
  else
    wanted ← map_err (PlatformUnparsed want) (platforms_Parse want);
    match List.find (λ a, samePlatform (platformOf a) wanted) artifacts with
    | Some a => Ok [a]
    | None => Err (PlatformAbsent want (map platformOf artifacts))
    end.

Definition inspect_flags : list (string * flag_spec) :=
  source_flags ++ [string_flag "platform"; bool_flag "descriptor"; bool_flag "dockerfile"] ++ output_flags.
Definition inspected (set : flags) (operands : list string) : result (command_error E) inspection :=
  reference ← one_reference operands;
  if bool_of set "descriptor" && bool_of set "dockerfile" then Err OneHalf
  else
    let format := text_of set "format" "text" in
    if negb (bool_decide (format = "text")) && negb (bool_decide (format = "json")) then Err (FormatUnknown format)
    else
      let '(target, artifacts) := loadArtifacts (text_of set "layout" "") (bool_of set "plain-http") reference in
      artifacts ← map_err KitUnloaded artifacts;
      artifacts ← selectPlatform artifacts (text_of set "platform" "");
      let read := if bool_of set "descriptor" then InspectDescriptor else Inspect in
      kits ← mapM (λ a, i ← map_err KitUnread (read (suite_artifact a)); Ok (platformOf a, i)) artifacts;
      Ok (foldl (λ o k, add_inspection o k.1 k.2) (mkInspections target []) kits).
(** One half, raw. *)
Definition write_raw (text : string) (w0 : W) : option (command_error E) * W :=
  let '(e, w') := WriteString text w0 in (option_map OutputFailed e, w').
Definition raw_half (set : flags) (o : inspection) : result (command_error E) string :=
  i ← single o (hostPlatform goarch);
  if bool_of set "descriptor" then descriptor_yaml encode_node (Inspection_Descriptor i)
  else match Recipe i with Some recipe => Ok recipe | None => Err (RecipeAbsent (inspection_target o)) end.
Definition write_inspection (set : flags) (o : inspection) (w0 : W) : option (command_error E) * W :=
  let onlyDescriptor := bool_of set "descriptor" in
  let onlyRecipe := bool_of set "dockerfile" in
  if bool_decide (text_of set "format" "text" = "json")
  then writeInspectionJSON json_valid yaml_any WriteString built o (mkHalves (negb onlyRecipe) (negb onlyDescriptor)) w0
  else if onlyRecipe || onlyDescriptor then or_write (raw_half set o) write_raw w0
  else writeInspectionText encode_node WriteString built (presentation_of set) o w0.
Definition runInspect (args : list string) (w0 : W) : option (command_error E) * W :=
  or_write (parsed inspect_flags args) (λ p, or_write (inspected p.1 p.2) (write_inspection p.1)) w0.

(** *** runtime *)

Section Runtime.
Context `{Host, !SSH, MapOrder}.
Context (DeepEqual : SelectionState → SelectionState → bool) (wording : Suite.detail → string).
(** The shipped fixtures' directory and its removal, and [time.ParseDuration]. *)
Context (DefaultFixtureRoot : state → result string string * state) (remove_fixtures : string → state → state).
Context (ParseDuration : string → option Z).

Definition defaultTimeout : Z := 30 * 60 * 1000000000.
Definition runtime_flags : list (string * flag_spec) :=
  [string_flag "adapter"; string_flag "fixtures";
   ("timeout", mkFlagSpec "timeout" false (λ v, bool_decide (is_Some (ParseDuration v))))] ++ reporting_flags.

Definition deadline_error (e : Suite.suite_error) : bool :=
  match e with
  | ContextEnded DeadlineExceeded => true
  | NoCapabilities (NotRun _ _ (Interrupted DeadlineExceeded)) => true
  | _ => false
  end.
Definition run_suite (set : flags) (root : string) (st : state) :
    result (command_error E) (presentation * outcome) * state :=
  let path := text_of set "adapter" "" in
  let '(rep, err, _, st) := SuiteChecks.Run DeepEqual (mkEnv (Some (mkAdapter path [] "")) (Some (Fixtures_ root)) None "" []) st in
  let exceeded := match ctx_Err Adapter.Background st.1 with Some DeadlineExceeded => true | _ => false end in
  (match err with
   | Some e =>
       if deadline_error e || exceeded
       then Err (RunExceeded (default defaultTimeout (set !! "timeout" ≫= ParseDuration)) e)
       else Err (RuntimeUnjudged e)
   | None => Ok (presentation_of set, add (mkOutcome "runtime" path []) "" (map_report wording rep))
   end, st).
(** The shipped fixtures, where no others are given, are removed when the run ends. *)
Definition runRuntime (args : list string) (st : state) (w0 : W) : (option (command_error E) * W) * state :=
  match parsed runtime_flags args with
  | Err e => ((Some e, w0), st)
  | Ok (set, _) =>
      if bool_decide (text_of set "adapter" "" = "") then ((Some AdapterMissing, w0), st)
      else if negb (bool_decide (text_of set "fixtures" "" = ""))
      then let '(run, st) := run_suite set (text_of set "fixtures" "") st in (or_write run written w0, st)
      else
        match DefaultFixtureRoot st with
        | (Err cause, st) => ((Some (FixturesMissing cause), w0), st)
        | (Ok root, st) =>
            let '(run, st) := run_suite set root st in
            (or_write run written w0, remove_fixtures root st)
        end
  end.

(** [run]: the version is printed whether or not it can be written. *)
Definition run (args : list string) (st : state) (w0 : W) : (option (command_error E) * W) * state :=
  match args with
  | [] => ((Some SubcommandMissing, w0), st)
  | name :: args =>
      if bool_decide (name = "validate") then (runValidate args w0, st)
      else if bool_decide (name = "inspect") then (runInspect args w0, st)
      else if bool_decide (name = "runtime") then runRuntime args st w0
      else if bool_decide (name ∈ ["version"; "-version"; "--version"])
      then ((None, (WriteString (stamp_String built +:+ String newline_byte "") w0).2), st)
      else if bool_decide (name ∈ ["-h"; "--help"; "help"]) then ((None, w0), st)
      else ((Some (SubcommandUnknown name), w0), st)
  end.
(** The exit status of [main]. *)
Definition exit_status (r : option (command_error E)) : Z := match r with None => 0 | Some _ => 1 end.
End Runtime.
End Commands.

(** * Facts *)

(** ** Flags and operands *)

(** An argument as it may be typed. *)
Inductive item :=
  | Operand (s : string)
  | Switch (name : string)
  | Assigned (name value : string)
  | Spaced (name value : string).
Definition item_args (i : item) : list string :=
  match i with
  | Operand s => [s]
  | Switch name => ["-" +:+ name]
  | Assigned name value => ["-" +:+ name +:+ "=" +:+ value]
  | Spaced name value => ["--" +:+ name; value]
  end.
(** The text a flag is given; an operand sets nothing. *)
Definition item_flag (i : item) : option (string * string) :=
  match i with
  | Operand _ => None
  | Switch name => Some (name, "true")
  | Assigned name value | Spaced name value => Some (name, value)
  end.
Definition item_operand (i : item) : option string := match i with Operand s => Some s | _ => None end.

Section Flags.
Context (specs : gmap string flag_spec).

Definition item_sets (set : flags) (i : item) : flags :=
  match item_flag i with
  | Some (name, value) => match specs !! name with Some spec => <[variable spec := value]> set | None => set end
  | None => set
  end.
Definition plain_name (name : string) : Prop :=
  name ≠ "" ∧ bad_name name = false ∧ contains_byte "=" name = false.
Definition well_typed (i : item) : Prop :=
  match item_flag i with
  | None => ∃ s, i = Operand s ∧ flag_name s = None ∧ s ≠ "--"
  | Some (name, value) =>
      plain_name name ∧ ∃ spec, specs !! name = Some spec ∧ accepts spec value = true ∧
      match i with Switch _ => is_bool spec = true | Spaced _ _ => is_bool spec = false | _ => True end
  end.

Lemma plain_flag_value name : plain_name name → flag_value name = (name, None).
Proof.
  intros (Hne & Hbad & Heq). destruct name as [|c rest]; [done|]. unfold flag_value.
  assert (contains_byte "=" rest = false) as Hr by (rewrite contains_byte_cons in Heq; by apply orb_false_iff in Heq as [_ ?]).
  by rewrite (cut_none "=" rest).
Qed.
Lemma plain_flag_assigned name value : plain_name name → flag_value (name +:+ "=" +:+ value) = (name, Some value).
Proof.
  intros (Hne & Hbad & Heq). destruct name as [|c rest]; [done|]. rewrite str_app_cons. unfold flag_value.
  rewrite contains_byte_cons in Heq. apply orb_false_iff in Heq as [_ Heq].
  rewrite (str_app_cons "=" ""), str_app_nil_l, cut_app by done. done.
Qed.
Lemma flag_name_single c r : c ≠ "-"%char → flag_name (String "-" (String c r)) = Some (String c r).
Proof. intros Hc. destruct c as [[] [] [] [] [] [] [] []]; done. Qed.
Lemma plain_flag_name name rest : plain_name name → flag_name ("-" +:+ name +:+ rest) = Some (name +:+ rest).
Proof.
  intros (Hne & Hbad & _). destruct name as [|c name]; [done|]. rewrite !str_app_cons, str_app_nil_l.
  apply flag_name_single. intros ->. by destruct name.
Qed.
Lemma plain_bad_name name rest : plain_name name → bad_name (name +:+ rest) = false.
Proof.
  intros (Hne & Hbad & _). destruct name as [|c name]; [done|]. rewrite str_app_cons. unfold bad_name in *. cbn in *.
  by destruct (ascii_dec "-" c), (ascii_dec "=" c); destruct name, rest.
Qed.

(** A flag is parsed and the rest is parsed after it. *)
Lemma Parse_flag i rest set :
  well_typed i → item_operand i = None → Parse specs (item_args i ++ rest) set = Parse specs rest (item_sets set i).
Proof.
  unfold well_typed, item_sets. intros Hi Ho. destruct i as [s|name|name value|name value]; [done|..]; cbn [item_flag] in *;
    destruct Hi as (Hn & spec & Hs & Ha & Hb); rewrite Hs; cbn [item_args app Parse].
  - rewrite <-(str_app_nil_r name), plain_flag_name by done. rewrite plain_bad_name by done. rewrite str_app_nil_r.
    rewrite plain_flag_value by done. rewrite Hs, Hb. unfold set_flag. by rewrite Hs, Ha.
  - rewrite plain_flag_name by done. rewrite plain_bad_name by done. rewrite plain_flag_assigned by done.
    rewrite Hs. unfold set_flag. rewrite Hs, Ha. by destruct (is_bool spec), rest.
  - assert (flag_name ("--" +:+ name) = Some name) as ->.
    { change ("--" +:+ name) with (String "-" (String "-" name)). cbn. destruct Hn as (Hne & _). by rewrite bool_decide_eq_false_2. }
    rewrite <-(str_app_nil_r name), plain_bad_name by done. rewrite str_app_nil_r.
    rewrite plain_flag_value by done. rewrite Hs, Hb. unfold set_flag. by rewrite Hs, Ha.
Qed.
Lemma Parse_operand s rest set : flag_name s = None → s ≠ "--" → Parse specs (s :: rest) set = Ok (set, s :: rest).
Proof. intros Hs Hd. cbn. by rewrite Hs, bool_decide_eq_false_2. Qed.

Lemma parse_operands_items items fuel set operands :
  Forall well_typed items → length (flat_map item_args items) < fuel →
  parse_operands specs fuel (flat_map item_args items) set operands =
    Ok (Some (foldl item_sets set items, operands ++ omap item_operand items)).
Proof.
  intros Hall. revert fuel set operands. induction Hall as [|i items Hi Hall IH]; intros fuel set operands Hf.
  - destruct fuel; cbn in Hf; [lia|]. cbn. by rewrite app_nil_r.
  - destruct fuel as [|fuel]; [lia|]. cbn [flat_map foldl] in *. rewrite length_app in Hf.
    destruct (item_operand i) as [s|] eqn:Eo.
    + destruct i; try done. cbn in Eo. injection Eo as <-. unfold well_typed in Hi. cbn in Hi.
      destruct Hi as (s' & [= <-] & Hs & Hd). cbn [item_args app length] in *. cbn [parse_operands].
      rewrite Parse_operand by done. cbn [mbind result_bind]. rewrite IH by lia.
      cbn [omap list_omap item_operand]. by rewrite <-app_assoc.
    + assert (parse_operands specs (S fuel) (item_args i ++ flat_map item_args items) set operands =
        parse_operands specs (S fuel) (flat_map item_args items) (item_sets set i) operands) as ->.
      { cbn [parse_operands]. by rewrite Parse_flag. }
      rewrite IH by lia. cbn [omap list_omap]. by rewrite Eo.
Qed.
End Flags.

(** Parsing ends with an answer: an operand leaves fewer arguments. *)
Lemma Parse_rest specs args set set' rest : Parse specs args set = Ok (set', rest) → length rest ≤ length args.
Proof.
  enough (∀ n args set, length args ≤ n → Parse specs args set = Ok (set', rest) → length rest ≤ length args) as Hn
    by by eapply Hn.
  clear. induction n as [|n IH]; intros [|arg args] set Hn E; cbn in Hn; [by injection E as <- <-|lia|by injection E as <- <-|].
  cbn [Parse] in E. destruct (flag_name arg) as [name|]; [|injection E as _ <-; case_bool_decide; cbn; lia].
  destruct (bad_name name); [done|]. destruct (flag_value name) as [name' given]. destruct (specs !! name') as [sp|]; [|done].
  destruct given as [value|].
  - destruct (set_flag _ _ value set) as [set1|] eqn:E1; cbn in E; rewrite ?E1 in E; [|destruct (is_bool sp), args; done].
    assert (Parse specs args set1 = Ok (set', rest)) as E2 by (destruct (is_bool sp), args; exact E).
    apply IH in E2; cbn; lia.
  - destruct (is_bool sp).
    + destruct (set_flag _ _ "true" set) as [set1|] eqn:E1; cbn in E; [|done]. apply IH in E; cbn; lia.
    + destruct args as [|value args]; [done|]. cbn in Hn. destruct (set_flag _ _ value set) as [set1|]; cbn in E; [|done].
      apply IH in E; cbn; lia.
Qed.
Lemma parse_operands_answers specs fuel args set operands :
  length args < fuel → parse_operands specs fuel args set operands ≠ Ok None.
Proof.
  revert args set operands. induction fuel as [|fuel IH]; intros args set operands Hf; [lia|]. cbn [parse_operands].
  destruct (Parse specs args set) as [[set' rest]|e] eqn:E; cbn; [|done]. destruct rest as [|operand rest]; [done|].
  apply Parse_rest in E. cbn in E. apply IH. lia.
Qed.

(** ** Groups *)

Definition platform_run := (string * Report string)%type.
Definition runs_of (runs : list platform_run) (rep : Report string) : list string :=
  map fst (List.filter (λ r, sameReport rep r.2) runs).

Lemma sameReport_eq a b : sameReport a b = true ↔ a = b.
Proof.
  unfold sameReport. rewrite andb_true_iff, !bool_decide_eq_true. destruct a, b; cbn.
  split; [by intros [-> ->]|by intros [= -> ->]].
Qed.
(** The groups of the runs so far: a report each, with the platforms it was made of. *)
Definition grouped (runs : list platform_run) (gs : list group) : Prop :=
  NoDup (map group_report gs) ∧
  (∀ g, g ∈ gs → group_platforms g = runs_of runs (group_report g) ∧ group_platforms g ≠ []) ∧
  (∀ r, r ∈ runs → ∃ g, g ∈ gs ∧ group_report g = r.2).

Lemma add_group_spec platform rep gs :
  platform ≠ "" → NoDup (map group_report gs) →
  let gs' := add_group platform rep gs in
  NoDup (map group_report gs') ∧
  (∀ g', g' ∈ gs' ↔
    (g' ∈ gs ∧ group_report g' ≠ rep) ∨
    (∃ g, g ∈ gs ∧ group_report g = rep ∧ g' = mkGroup (group_platforms g ++ [platform]) rep) ∨
    ((∀ g, g ∈ gs → group_report g ≠ rep) ∧ g' = mkGroup [platform] rep)).
Proof.
  intros Hp. induction gs as [|g gs IH]; intros Hnd; cbn zeta; cbn [add_group map] in *.
  - rewrite bool_decide_eq_false_2 by done. split; [apply NoDup_singleton|]. intros g'. set_solver.
  - apply NoDup_cons in Hnd as [Hg Hnd]. destruct (IH Hnd) as [Hnd' Hin]. destruct (sameReport (group_report g) rep) eqn:E.
    + apply sameReport_eq in E as <-. cbn [map group_report]. split; [by apply NoDup_cons|]. intros g'. setoid_rewrite elem_of_cons.
      assert (∀ h, h ∈ gs → group_report h ≠ group_report g) as Hne.
      { intros h Hh Heq. apply Hg. rewrite <-Heq. by apply list_elem_of_fmap_2. }
      split.
      * intros [->|Hg']; [right; left; exists g; repeat split; by left|left; split; [by right|by apply Hne]].
      * intros [[[->|?] ?]|[(h & [->|Hh] & He & ->)|[Hn _]]]; [done|by right|by left|by destruct (Hne h Hh)|].
        destruct (Hn g); [by left|done].
    + assert (group_report g ≠ rep) as Hne by (intros Heq; apply sameReport_eq in Heq; congruence).
      cbn [map]. split.
      * apply NoDup_cons. split; [|done]. intros (g' & Heq & Hg')%list_elem_of_fmap_1. apply Hin in Hg'.
        destruct Hg' as [[Hg' _]|[(h & _ & _ & ->)|[_ ->]]]; cbn in Heq; [|congruence..].
        apply Hg. rewrite Heq. by apply list_elem_of_fmap_2.
      * intros g'. rewrite elem_of_cons, Hin. setoid_rewrite elem_of_cons. split.
        -- intros [->|[[? ?]|[(h & Hh & He & ->)|[Hn ->]]]]; [left; by auto|left; by auto|right; left; exists h; by auto|].
           right. right. split; [|done]. intros h [->|Hh]; auto.
        -- intros [[[->|?] ?]|[(h & [->|Hh] & He & ->)|[Hn ->]]]; [by left|right; by left|done| |].
           { right. right. left. by exists h. }
           right. right. right. split; [|done]. intros h Hh. apply Hn. by right.
Qed.
Lemma runs_of_snoc runs platform rep rep' :
  runs_of (runs ++ [(platform, rep)]) rep' = runs_of runs rep' ++ if sameReport rep' rep then [platform] else [].
Proof. unfold runs_of. rewrite List.filter_app, map_app. cbn. by destruct (sameReport rep' rep). Qed.
Lemma runs_of_none runs rep : (∀ r, r ∈ runs → r.2 ≠ rep) → runs_of runs rep = [].
Proof.
  unfold runs_of. induction runs as [|r runs IH]; intros Hr; [done|]. cbn. destruct (sameReport rep r.2) eqn:E.
  - apply sameReport_eq in E. destruct (Hr r); [by left|done].
  - apply IH. intros r' Hr'. apply Hr. by right.
Qed.
Lemma add_grouped runs gs platform rep :
  platform ≠ "" → grouped runs gs → grouped (runs ++ [(platform, rep)]) (add_group platform rep gs).
Proof.
  intros Hp (Hnd & Hg & Hr). destruct (add_group_spec platform rep gs Hp Hnd) as [Hnd' Hin]. split; [done|]. split.
  - intros g' [[Hg' Hne]|[(g & Hg' & <- & ->)|[Hnone ->]]]%Hin; rewrite runs_of_snoc; cbn [group_platforms group_report].
    + destruct (sameReport _ rep) eqn:E; [by apply sameReport_eq in E|]. rewrite app_nil_r. by apply Hg.
    + destruct (Hg g Hg') as [<- _]. rewrite (proj2 (sameReport_eq _ _) eq_refl). split; [done|]. by destruct (group_platforms g).
    + rewrite (proj2 (sameReport_eq _ _) eq_refl). split; [|done]. rewrite runs_of_none; [done|].
      intros r Hfr Hs. destruct (Hr r Hfr) as (g & Hgg & Heq). apply (Hnone g Hgg). congruence.
  - intros r [Hrr|Hrr]%elem_of_app; [|apply list_elem_of_singleton in Hrr as ->].
    + destruct (Hr r Hrr) as (g & Hgg & Heq). destruct (decide (group_report g = rep)) as [He|He].
      * exists (mkGroup (group_platforms g ++ [platform]) rep). split; [apply Hin; right; left; eauto|]. cbn. congruence.
      * exists g. split; [apply Hin; by left|done].
    + cbn. destruct (List.find (λ g, sameReport (group_report g) rep) gs) as [g|] eqn:E.
      * apply find_some in E as [Hgg%list_elem_of_In He%sameReport_eq].
        exists (mkGroup (group_platforms g ++ [platform]) rep). split; [apply Hin; right; left; eauto|done].
      * exists (mkGroup [platform] rep). split; [|done]. apply Hin. right. right. split; [|done]. intros g Hgg He.
        eapply find_none in E; [|by apply list_elem_of_In]. apply sameReport_eq in He. cbn in E. congruence.
Qed.
Lemma judged_grouped target runs : Forall (λ r : platform_run, r.1 ≠ "") runs → grouped runs (groups (judged target runs)).
Proof.
  induction runs as [|[platform rep] runs IH] using rev_ind; intros Hall.
  - split; [constructor|]. split; [by intros g []%not_elem_of_nil|by intros r []%not_elem_of_nil].
  - apply Forall_app in Hall as [Hall [Hp _]%Forall_cons]. unfold judged. rewrite foldl_app. cbn.
    apply add_grouped; [done|]. by apply IH.
Qed.

(** ** Documents and references *)

(** A document without the spaces between its tokens. *)
Fixpoint squeeze (m : json_mode) (s : string) : string :=
  match s with
  | "" => ""
  | String c s => if outside m && json_space c then squeeze m s else String c (squeeze (json_step m c) s)
  end.
Lemma squeeze_newline depth s : squeeze Outside (json_newline depth +:+ s) = squeeze Outside s.
Proof. unfold json_newline. rewrite str_app_cons. cbn. induction (depth + (depth + 0)) as [|n IH]; [done|exact IH]. Qed.
Lemma squeeze_token c s :
  json_space c = false → squeeze Outside (String c s) = String c (squeeze (json_step Outside c) s).
Proof. intros Hc. cbn [squeeze outside andb]. by rewrite Hc. Qed.
Lemma squeeze_indent s m opened depth : squeeze m (indent m opened depth s) = squeeze m s.
Proof.
  revert m opened depth. induction s as [|c s IH]; intros m opened depth; [done|].
  destruct m; [|cbn [indent squeeze outside andb]; by rewrite IH..]. cbn [indent].
  destruct (json_space c) eqn:Hs; [rewrite IH; cbn [squeeze outside andb]; by rewrite Hs|].
  rewrite squeeze_token by done.
  set (closing := bool_decide (c = "]"%char) || bool_decide (c = "}"%char)).
  assert (∀ before x, (before = "" ∨ ∃ d, before = json_newline d) →
    squeeze Outside (before +:+ String c x) = String c (squeeze (json_step Outside c) x)) as Hb.
  { intros before x [->|[d ->]]; [by apply squeeze_token|]. rewrite squeeze_newline. by apply squeeze_token. }
  destruct (if opened && negb closing then _ else _) as [before depth'] eqn:Ebd.
  assert (before = "" ∨ ∃ d, before = json_newline d) as Hbefore.
  { destruct (opened && negb closing); injection Ebd as <- <-; eauto. }
  cbn beta iota. assert (json_step Outside c = if bool_decide (c = quote) then Inside else Outside) as Hstep by done.
  destruct (bool_decide (c = quote)); rewrite Hstep in *; [by rewrite Hb, IH|].
  destruct (bool_decide (c = "["%char) || bool_decide (c = "{"%char)); [by rewrite Hb, IH|].
  destruct (bool_decide (c = ","%char)); [by rewrite Hb, squeeze_newline, IH|].
  destruct (bool_decide (c = ":"%char)).
  { rewrite Hb by done. f_equal. apply IH. }
  destruct closing; [|by rewrite Hb, IH].
  destruct opened; [by rewrite squeeze_token, Hstep, IH|by rewrite squeeze_newline, squeeze_token, Hstep, IH].
Qed.

Lemma cite_spec ids id : NoDup ids → NoDup (cite ids id) ∧ ∀ x, x ∈ cite ids id ↔ x ∈ ids ∨ (x = id ∧ x ≠ "").
Proof.
  intros Hnd. unfold cite. destruct (decide (id = "")) as [->|Hne].
  { rewrite bool_decide_eq_true_2 by done. split; [done|]. naive_solver. }
  rewrite bool_decide_eq_false_2 by done. cbn [orb]. case_bool_decide as Hin.
  - split; [done|]. naive_solver.
  - split; [apply NoDup_app; split; [done|]; split; [set_solver|apply NoDup_singleton]|].
    intros x. rewrite elem_of_app, list_elem_of_singleton. naive_solver.
Qed.
Lemma cite_all ids l : NoDup ids →
  NoDup (foldl cite ids l) ∧ ∀ x, x ∈ foldl cite ids l ↔ x ∈ ids ∨ (x ∈ l ∧ x ≠ "").
Proof.
  revert ids. induction l as [|id l IH]; intros ids Hnd; cbn [foldl].
  { split; [done|]. intros x. split; [by left|]. by intros [?|[?%not_elem_of_nil _]]. }
  destruct (cite_spec ids id Hnd) as [Hnd' Hin]. destruct (IH _ Hnd') as [Hnd'' Hin']. split; [done|].
  intros x. rewrite Hin', Hin, elem_of_cons. naive_solver.
Qed.
(** The requirements a group's rendering names. *)
Definition group_names (p : presentation) (g : group) : list string :=
  map Finding_Requirement (Findings (group_report g)) ++
  if verbose p then map Check_Requirement (Report.Checks (group_report g)) else [].
Lemma cite_group_spec p ids g : NoDup ids →
  NoDup (cite_group p ids g) ∧ ∀ x, x ∈ cite_group p ids g ↔ x ∈ ids ∨ (x ∈ group_names p g ∧ x ≠ "").
Proof.
  intros Hnd. unfold cite_group, group_names. destruct (cite_all ids (map Finding_Requirement (Findings (group_report g))) Hnd) as [Hnd' Hin].
  destruct (verbose p); [|by rewrite app_nil_r].
  destruct (cite_all _ (map Check_Requirement (Report.Checks (group_report g))) Hnd') as [Hnd'' Hin']. split; [done|].
  intros x. rewrite Hin', Hin, elem_of_app. naive_solver.
Qed.
Lemma cited_spec p o : NoDup (cited p o) ∧ ∀ x, x ∈ cited p o ↔ x ≠ "" ∧ ∃ g, g ∈ groups o ∧ x ∈ group_names p g.
Proof.
  unfold cited. assert (∀ gs ids, NoDup ids → NoDup (foldl (cite_group p) ids gs) ∧
    ∀ x, x ∈ foldl (cite_group p) ids gs ↔ x ∈ ids ∨ (x ≠ "" ∧ ∃ g, g ∈ gs ∧ x ∈ group_names p g)) as Hall.
  { induction gs as [|g gs IH]; intros ids Hnd; cbn [foldl].
    { split; [done|]. intros x. split; [by left|]. by intros [?|(_ & g & []%not_elem_of_nil & _)]. }
    destruct (cite_group_spec p ids g Hnd) as [Hnd' Hin]. destruct (IH _ Hnd') as [Hnd'' Hin']. split; [done|].
    intros x. rewrite Hin', Hin. setoid_rewrite elem_of_cons. naive_solver. }
  destruct (Hall (groups o) [] ltac:(constructor)) as [Hnd Hin]. split; [done|]. intros x. rewrite Hin. set_solver.
Qed.

Lemma runs_of_some runs rep : runs_of runs rep ≠ [] → ∃ r, r ∈ runs ∧ r.2 = rep.
Proof.
  unfold runs_of. induction runs as [|r runs IH]; cbn; [done|]. destruct (sameReport rep r.2) eqn:E.
  - apply sameReport_eq in E. intros _. exists r. split; [by left|done].
  - intros (r' & Hr' & He)%IH. exists r'. split; [by right|done].
Qed.
Lemma forallb_groups runs gs :
  grouped runs gs → forallb (λ g, negb (Failed (group_report g))) gs = forallb (λ r : platform_run, negb (Failed r.2)) runs.
Proof.
  intros (_ & Hg & Hr). apply Bool.eq_true_iff_eq. rewrite !List.forallb_forall. split.
  - intros Hf r Hin%list_elem_of_In. destruct (Hr r Hin) as (g & Hgg & <-). by apply Hf, list_elem_of_In.
  - intros Hf g Hin%list_elem_of_In. destruct (Hg g Hin) as [Hp Hne]. rewrite Hp in Hne.
    destruct (runs_of_some _ _ Hne) as (r & Hrr & <-). by apply Hf, list_elem_of_In.
Qed.

(** ** What the command guarantees *)

(** A flag is a flag wherever it appears: however flags and operands are interleaved,
    the flags are set in their order and the operands are left in theirs. *)
Theorem flags_anywhere specs items :
  Forall (well_typed specs) items →
  parseOperands specs (flat_map item_args items) =
    Ok (Some (foldl (item_sets specs) ∅ items, omap item_operand items)).
Proof. intros Hi. unfold parseOperands. by rewrite parse_operands_items by (done || lia). Qed.

(** Parsing ends: an operand leaves fewer arguments, so the turns are never used up. *)
Theorem parsing_ends specs args : parseOperands specs args ≠ Ok None.
Proof. apply parse_operands_answers. lia. Qed.

(** A run over the platforms of a kit is written down once for each distinct report,
    under exactly the platforms judged so, and conforms when every platform does. *)
Theorem platforms_grouped target runs :
  Forall (λ r, r.1 ≠ "") runs →
  let o := judged target runs in
  NoDup (map group_report (groups o)) ∧
  (∀ g, g ∈ groups o → group_platforms g = runs_of runs (group_report g) ∧ group_platforms g ≠ []) ∧
  (∀ r, r ∈ runs → ∃ g, g ∈ groups o ∧ group_report g = r.2) ∧
  conforms o = forallb (λ r, negb (Failed r.2)) runs.
Proof.
  intros Hr o. pose proof (judged_grouped target runs Hr) as Hg. pose proof (forallb_groups runs _ Hg) as Hf.
  destruct Hg as (? & ? & ?). split; [done|]. split; [done|]. split; [done|]. exact Hf.
Qed.

Section Validate.
Context `{Unicode, Terminal, Validate.Documents}.
Context (FromRegistryAll : string → bool → result source_error (list ociArtifact)).
Context (FromLayoutAll : string → string → result source_error (list ociArtifact)).
Context (suite_artifact : ociArtifact → Artifact).
Context (compile : string → option (string → bool)) (json_text : string → option value).
Context (kit_wording : KitSuite.detail → string).
Context {W E : Type} (WriteString : string → W → option E * W).
Context (built : stamp) (spec_pages : list visited).

Notation validate := (runValidate FromRegistryAll FromLayoutAll suite_artifact compile json_text kit_wording WriteString built spec_pages).
Notation judge_ := (judge (E:=E) suite_artifact compile json_text kit_wording).

(** An artifact the suite reports no failure of. *)
Definition passes (a : ociArtifact) : Prop :=
  ∃ rep, KitSuite.Run compile json_text (suite_artifact a) = Ok rep ∧ Failed rep = false.

Lemma Failed_map_report {D D'} (f : D → D') (r : Report D) : Failed (map_report f r) = Failed r.
Proof. unfold Failed. cbn. induction (Findings r) as [|x l IH]; [done|]. cbn. by rewrite IH. Qed.
Lemma conforms_add o platform rep : conforms (add o platform rep) = conforms o && negb (Failed rep).
Proof.
  unfold conforms, add. cbn. induction (groups o) as [|g gs IH]; cbn; [by rewrite andb_true_r|].
  destruct (sameReport (group_report g) rep) eqn:Es; cbn.
  - apply sameReport_eq in Es as <-. by destruct (Failed (group_report g)), (forallb _ gs).
  - by rewrite IH, andb_assoc.
Qed.
Lemma conforms_judged target runs : conforms (judged target runs) = forallb (λ r : platform_run, negb (Failed r.2)) runs.
Proof.
  unfold judged. induction runs as [|r runs IH] using rev_ind; [done|].
  rewrite foldl_app, forallb_app. cbn [foldl forallb]. by rewrite conforms_add, IH, andb_true_r.
Qed.
Lemma mapM_judge artifacts runs : mapM judge_ artifacts = Ok runs →
  (forallb (λ r : platform_run, negb (Failed r.2)) runs = true ↔ Forall passes artifacts).
Proof.
  revert runs. induction artifacts as [|a artifacts IH]; intros runs Em; cbn in Em.
  - injection Em as <-. split; [by constructor|done].
  - destruct (judge_ a) as [run|] eqn:Ej; cbn in Em; [|done].
    destruct (mapM judge_ artifacts) as [runs'|] eqn:Em'; cbn in Em; [|done]. injection Em as <-. cbn [forallb].
    unfold judge in Ej. destruct (KitSuite.Run compile json_text (suite_artifact a)) as [rep|] eqn:Er; cbn in Ej; [|done].
    injection Ej as <-. cbn [snd].
    rewrite andb_true_iff, (IH _ eq_refl), Forall_cons, Failed_map_report, negb_true_iff.
    assert (passes a ↔ Failed rep = false) as ->; [|done].
    unfold passes. rewrite Er. split; [by intros (? & [= <-] & ?)|by exists rep].
Qed.

(** C20: The validate command exits with success exactly when its arguments are flags and
    one reference, the kit behind it was read, the suite judged every image of it and
    reports no failure of any, and the run was written down. *)
Theorem validate_exact args w0 :
  (validate args w0).1 = None ↔
  ∃ set reference target artifacts runs,
    parsed (E:=E) (source_flags ++ reporting_flags) args = Ok (set, [reference]) ∧
    loadArtifacts FromRegistryAll FromLayoutAll (text_of set "layout" "") (bool_of set "plain-http") reference =
      (target, Ok artifacts) ∧
    mapM judge_ artifacts = Ok runs ∧ Forall passes artifacts ∧
    (write WriteString built (presentation_of built spec_pages set) (judged target runs) w0).1 = None.
Proof.
  unfold runValidate, validated. split.
  - destruct (parsed _ args) as [[set operands]|] eqn:Ep; cbn; [|done].
    destruct operands as [|reference [|? ?]]; cbn; [done| |done].
    destruct (loadArtifacts _ _ _ _ _) as [target artifacts] eqn:El. destruct artifacts as [artifacts|]; cbn; [|done].
    destruct (mapM _ artifacts) as [runs|] eqn:Em; cbn; [|done]. unfold written. cbn.
    destruct (write _ _ _ _ _) as [e w'] eqn:Ew; cbn. destruct e as [e|]; [done|]. intros _.
    exists set, reference, target, artifacts, runs. rewrite Ew. repeat split; try done.
    apply (mapM_judge _ _ Em). rewrite <-(conforms_judged target). revert Ew. unfold write.
    destruct (conforms _); [done|]. repeat case_bool_decide; repeat case_match; congruence.
  - intros (set & reference & target & artifacts & runs & -> & Hl & Hm & _ & Hw). cbn. rewrite Hl. cbn. rewrite Hm. cbn.
    unfold written. cbn. destruct (write _ _ _ _ _) as [e w']. by cbn in Hw; subst.
Qed.
End Validate.

Module Sample.
Definition specs : gmap string flag_spec := list_to_map (source_flags ++ reporting_flags).
Lemma flags_anywhere_witness :
  parseOperands specs ["docker.io/me/kit:1"; "-v"; "--format"; "json"; "-layout=dir"; "extra"] =
    Ok (Some ({["verbose" := "true"; "format" := "json"; "layout" := "dir"]}, ["docker.io/me/kit:1"; "extra"])).
Proof.
  apply (flags_anywhere specs [Operand "docker.io/me/kit:1"; Switch "v"; Spaced "format" "json"; Assigned "layout" "dir"; Operand "extra"]).
  assert (∀ s, flag_name s = None → s ≠ "--" → well_typed specs (Operand s)) as Ho by by intros s; exists s.
  constructor; [by apply Ho|]. constructor.
  { split; [done|]. exists (bool_flag "verbose").2. by repeat split. }
  constructor; [split; [done|]; exists (string_flag "format").2; by repeat split|].
  constructor; [split; [done|]; exists (string_flag "layout").2; by repeat split|].
  constructor; [by apply Ho|constructor].
Defined.

Definition failing_report : Report string := Add zero_report "annotations" "SPEC-v3" [Failf "missing"].
Definition clean : Report string := Add zero_report "annotations" "SPEC-v3" [].
Definition platforms : list platform_run := [("linux/amd64", failing_report); ("linux/arm64", clean); ("linux/s390x", failing_report)].
Lemma platforms_grouped_witness :
  let o := mkOutcome "validate" "kit" [mkGroup ["linux/amd64"; "linux/s390x"] failing_report; mkGroup ["linux/arm64"] clean] in
  judged "kit" platforms = o ∧ conforms o = false.
Proof.
  split; [reflexivity|].
  refine (eq_trans (proj2 (proj2 (proj2 (platforms_grouped "kit" platforms _)))) _); [by repeat constructor|reflexivity].
Defined.

(** An image without a platform is put under the platforms of one judged alike, and two
    of them under a platform without a name. *)
Example unnamed_collapses :
  groups (judged "kit" [("", clean); ("linux/amd64", clean)]) = [mkGroup ["linux/amd64"] clean] ∧
  groups (judged "kit" [("", clean); ("", clean)]) = [mkGroup [""] clean].
Proof. by vm_compute. Qed.

Definition lines_of (s : string) : list string := split newline_byte s.
Example indent_sample :
  lines_of (Indent (json_object [("a", json_list ["1"; json_object []]); ("b", marshal_string "x:{,}")])) =
  ["{";
   "  " +:+ marshal_string "a" +:+ ": [";
   "    1,";
   "    {}";
   "  ],";
   "  " +:+ marshal_string "b" +:+ ": " +:+ marshal_string "x:{,}";
   "}"].
Proof. by vm_compute. Qed.
End Sample.
