(* ===== verification/Frontend.v ===== *)
(** The frontend's build ([cmd/frontend/build.go], [diff.go], [packages.go],
    [selfcheck.go]): one descriptor in, an annotated image out.

    BuildKit is the class [Builder] over [Gateway]: graphs are built from the
    constructors the code calls and solved to filesystems; marshaling a graph is part
    of solving it.  A solve of an empty graph has no filesystem: its reference is
    [None], and where the code calls a method of it the build fails.  The source
    [withYAMLSource] attaches to an error is in [Diagnostics]. *)
From stdpp Require Import options.
From S2P Require Import Prelude GoStrings Version Json Types Config Marshal GoPath Template Merge Packages Overlay Resolve Oci Assemble Validate Expand Registry LayerTar Publish Report KitSuite SetBuild BuildStamp Yaml Delta Recipe.

(** What a file at a path is. *)
Record file_info := mkFileInfo { info_dir : bool; info_regular : bool; info_perm : Z; info_uid : Z; info_gid : Z }.

(** A solve of the recipe frontend: its one filesystem, and the image config among its metadata. *)
Record solved_recipe `{Gateway} := mkSolved { single_ref : result string (option Solved); solved_config : option string }.

Class Builder `{Gateway} := {
  workers : list (list Platform);
  (** [llb]: a local source's files, an empty state, files put under a directory that
      is made, what one state adds to another, a solved filesystem as a state. *)
  local_state : string → list string → State;
  scratch_state : State;
  put_files : State → string → list (string * string) → State;
  diff_state : State → State → State;
  reference_state : Solved → result string State;
  solve_state : State → option Platform → result string (option Solved);
  solve_dockerfile : gmap string string → list (string * State) → result string solved_recipe;
  (** The named inputs of the build, when the bridge has them. *)
  supports_inputs : bool;
  build_inputs : result string (list (string * State));
  (** [dockerui]'s named contexts: under a platform and a resolve mode. *)
  named_context : string → Platform → string → result string (option (State * option ImageConfig));
  resolve_config : string → Platform → string → result string (string * string * string);
  read_prefix : Solved → string → Z → result string string;
  stat_file : Solved → string → result string file_info;
  fs_not_exist : string → bool;
}.

Inductive build_error :=
  | BuildGateway (cause : string)
  | NilReference
  | ReadDescriptor (filename cause : string)
  | PlatformsUnparsed (cause : string)
  | DescriptorUndecodable (cause : decode_error)
  | CommentUndecodable (cause : decode_error)
  | DeclarationsRefused (errs : list FieldError)
  | BuildArgsRefused (cause : arg_error)
  | BuildExpansion (cause : build_expand_error)
  | RecipeRefused (cause : recipe_error)
  | CommentWithRecipe
  | CommentWithKits
  | NoContent (filename companion : string)
  | KitsWithRecipe (filename recipe : string)
  | ExpandedUnreadable (cause : decode_error)
  | AuthoredDerived (errs : list FieldError)
  | SetRefused (cause : set_error)
  | ContextUndecodable (cause : config_error)
  | ContextCollides (contentFile : string)
  | ContextUnreadable_ (contentFile cause : string)
  | Amended (cause : amend_error)
  | PublishedUndecodable (cause : decode_error)
  | PublishedInvalid (errs : list FieldError)
  | RecipeNamesFrontend (recipe : string)
  | ContentFailed (recipe cause : string)
  | NoImageConfig
  | ImageConfigUnparsed
  | NoEntrypoint (recipe : string)
  | FinalStage (recipe : string) (cause : stage_error)
  | NamedContext (name cause : string)
  | BaseUnresolved (base cause : string)
  | PackagesUnread (path : string) (cause : read_error)
  | PackagesMalformed (path : string)
  | PublishedUnencodable
  | StampUnencodable
  | SelfCheckUnread (cause : string)
  | SelfCheckFailed (failures : list (Finding detail))
  | PlatformsUnencodable (cause : string).

Section Frontend.
Context `{References, Decoders, Documents, YamlNodes, Dockerfiles, ReadySort, GW : Gateway, !Builder}.
Context (marshal_image : OciImage → result string string).

(** ** Reading *)

Definition not_exist (e : string) : bool :=
  fs_not_exist e || contains "no such file or directory" e || contains "not found" e.

Definition solved_local (st : State) : result string Solved :=
  ref ← solve_state st None;
  match ref with Some ref => Ok ref | None => Err "nil reference" end.
Definition readDockerfileLocalFile (filename : string) : result string string :=
  ref ← solved_local (local_state "dockerfile" [filename]); ReadFile ref filename.
Definition readContextLocalFile (filename : string) : result string string :=
  ref ← solved_local (local_state "context" [filename]); ReadFile ref filename.
Definition readDescriptorSources (filename companion : string) : result build_error sources :=
  ref ← map_err BuildGateway (solved_local (local_state "dockerfile" [filename; companion]));
  descriptor ← map_err (ReadDescriptor filename) (ReadFile ref filename);
  Ok (mkSources descriptor match ReadFile ref companion with Ok body => Some body | Err _ => None end).

(** A path of a solved filesystem, bounded; [None] where nothing is there. *)
Definition readImageFile (ref : Solved) (name : string) : result read_error (option string) :=
  match read_prefix ref name (maxFileEntryBytes + 1) with
  | Err e => if not_exist e then Ok None else Err (KitSuite.ReadFailed e)
  | Ok body =>
      if (maxFileEntryBytes <? Z.of_nat (String.length body))%Z then Err KitSuite.TooLarge else Ok (Some body)
  end.

(** ** Build-phase expansion *)

Definition expandBuildPhase (compile : string → option (string → bool)) (raw : string) (d : Descriptor)
    (opts : gmap string string) : result build_error string :=
  let buildDecls := filter (λ kv, Arg_BuildArg kv.2 ≠ "") (Args d) in
  let supplied := map_imap (λ name _, opts !! (buildArgPrefix +:+ name)) buildDecls in
  values ← map_err BuildArgsRefused (ResolveArgs compile buildDecls supplied);
  map_err BuildExpansion (ExpandBuildArgs raw (Args d) values).

(** ** Solving the recipe *)

(** A recipe whose first line names this frontend would recurse. *)
Definition names_frontend (content : companionSource) : bool :=
  let '(line, _, _) := cut newline_byte (trim_space (recipe_bytes content)) in
  has_prefix syntaxMarker line && (contains "sandbox-kit" line || contains "sbx-kit" line).

(** The inputs handed on, with an inline recipe in the place of the descriptor's. *)
Definition recipe_inputs (content : companionSource) : result build_error (list (string * State)) :=
  handed ← (if supports_inputs then map_err BuildGateway build_inputs else Ok []);
  let handed := List.filter (λ ns, negb (bool_decide (ns.1 = "dockerfile"))) handed in
  Ok (if inline content
      then handed ++ [("dockerfile", put_files scratch_state "" [(recipe_name content, recipe_bytes content)])]
      else handed).

Definition recipe_opts (d : Descriptor) (opts : gmap string string) (content : companionSource) (plat : option Platform)
    (target : string) : gmap string string :=
  let fo := dockerfileFrontendOpts platform_FormatAll (map_to_list (Args d)) opts (recipe_name content) plat in
  if bool_decide (target = "") then fo else <[keyTarget := target]> fo.

Definition solveDockerfile (d : Descriptor) (opts : gmap string string) (content : companionSource)
    (plat : option Platform) (target : string) : result build_error solved_recipe :=
  if names_frontend content then Err (RecipeNamesFrontend (recipe_name content))
  else
    inputs ← recipe_inputs content;
    map_err (ContentFailed (recipe_name content)) (solve_dockerfile (recipe_opts d opts content plat target) inputs).

(** A solve's image configuration; one that states none is the zero one. *)
Definition config_of (raw : option string) : result build_error ImageConfig :=
  match raw with
  | None => Ok zero_image_config
  | Some raw => match parse_image raw with Some i => Ok (Image_Config i) | None => Err ImageConfigUnparsed end
  end.

(** ** A workload's image *)

Definition buildCompanion (d : Descriptor) (opts : gmap string string) (content : companionSource) (plat : option Platform) :
    result build_error (option Solved * string) :=
  res ← solveDockerfile d opts content plat "";
  ref ← map_err BuildGateway (single_ref res);
  match solved_config res with
  | None => Err NoImageConfig
  | Some raw =>
      if negb (bool_decide (Kind d = KindWorkload)) then Ok (ref, raw)
      else
        match parse_image raw with
        | None => Err ImageConfigUnparsed
        | Some img =>
            if bool_decide (Entrypoint (Image_Config img) = []) && bool_decide (Cmd (Image_Config img) = [])
            then Err (NoEntrypoint (recipe_name content)) else Ok (ref, raw)
        end
  end.

Definition platform_or_default (p : option Platform) : Platform := platformOrDefault DefaultSpec p.
Definition mixinImageConfig (plat : option Platform) (delta : ImageConfig) : result build_error string :=
  map_err BuildGateway (marshal_image (mixinImage (platform_or_default plat) delta)).
Definition minimalImageConfig (plat : option Platform) : result build_error string :=
  map_err BuildGateway (marshal_image (minimalImage (platform_or_default plat))).

Definition scratchResult (plat : option Platform) : result build_error (option Solved * string) :=
  ref ← map_err BuildGateway (solve_state scratch_state (Some (platform_or_default plat)));
  raw ← minimalImageConfig plat;
  Ok (ref, raw).

(** ** A mixin's overlay *)

Definition namedContextBase (opts : gmap string string) (name : string) (p : Platform) :
    result build_error (option (State * ImageConfig)) :=
  if bool_decide (name = "") || EqualFold name "scratch" || EqualFold name "context" then Ok None
  else
    match named_context name p (default "" (opts !! keyImageResolveMode)) with
    | Err e => Err (NamedContext name e)
    | Ok None => Ok None
    | Ok (Some (st, config)) => Ok (Some (st, default zero_image_config config))
    end.

(** An external base, pinned to the digest it resolves to. *)
Definition external_base (opts : gmap string string) (name : string) (p : Platform) :
    result build_error (State * ImageConfig) :=
  named ← map_err (BaseUnresolved name) (ParseNormalizedNamed name);
  let baseRef := named_string (TagNameOnly named) in
  '(pinned, dgst, raw) ← map_err (BaseUnresolved baseRef) (resolve_config baseRef p (default "" (opts !! keyImageResolveMode)));
  lower ← config_of (if bool_decide (raw = "") then None else Some raw);
  let pinned := if bool_decide (pinned = "") then baseRef else pinned in
  Ok (image_state (with_pin pinned dgst) p, lower).

(** The lower side of the difference; the stage of the recipe is solved without the
    caller's no-cache, so it is the upper solve's. *)
Definition lowerFor (d : Descriptor) (opts : gmap string string) (content : companionSource) (plat : option Platform)
    (final : stageBase) : result build_error (State * ImageConfig) :=
  if isStage final then
    res ← solveDockerfile d (delete keyNoCache opts) content plat (base final);
    ref ← map_err BuildGateway (single_ref res);
    lower ← config_of (solved_config res);
    match ref with
    | Some ref => st ← map_err BuildGateway (reference_state ref); Ok (st, lower)
    | None => Err NilReference
    end
  else
    let p := lowerPlatform final (effectiveTargetPlatform workers plat) in
    named ← namedContextBase opts (base final) p;
    match named with Some sc => Ok sc | None => external_base opts (base final) p end.

Definition buildMixinOverlay (d : Descriptor) (opts : gmap string string) (content : companionSource)
    (plat : option Platform) : result build_error (option Solved * string) :=
  let fo := dockerfileFrontendOpts platform_FormatAll (map_to_list (Args d)) opts (recipe_name content) plat in
  let target := effectiveTargetPlatform workers plat in
  final ← map_err (FinalStage (recipe_name content)) (finalStage (recipe_bytes content) fo target (buildPlatformOf workers));
  res ← solveDockerfile d opts content plat "";
  upperRef ← map_err BuildGateway (single_ref res);
  upper ← config_of (solved_config res);
  aliased ← namedContextBase opts (alias final) (lowerPlatform final target);
  match aliased with
  | None =>
      if EqualFold (base final) "scratch" then
        raw ← mixinImageConfig plat (configDelta zero_image_config upper); Ok (upperRef, raw)
      else
        upperState ← match upperRef with Some r => map_err BuildGateway (reference_state r) | None => Err NilReference end;
        '(lowerState, lower) ← lowerFor d opts content plat final;
        ref ← map_err BuildGateway (solve_state (diff_state lowerState upperState) None);
        raw ← mixinImageConfig plat (configDelta lower upper);
        Ok (ref, raw)
  | Some (lowerState, lower) =>
      upperState ← match upperRef with Some r => map_err BuildGateway (reference_state r) | None => Err NilReference end;
      ref ← map_err BuildGateway (solve_state (diff_state lowerState upperState) None);
      raw ← mixinImageConfig plat (configDelta lower upper);
      Ok (ref, raw)
  end.

Definition buildPlatform (d : Descriptor) (opts : gmap string string) (content : option companionSource)
    (plat : option Platform) : result build_error (option Solved * string) :=
  match content with
  | None => scratchResult plat
  | Some content =>
      if bool_decide (Kind d = KindMixin) then buildMixinOverlay d opts content plat else buildCompanion d opts content plat
  end.

(** ** Staging *)

(** The state files are added to, and the platform an absent one does not carry. *)
Definition stateToStageOn (ref : option Solved) (plat : option Platform) :
    result build_error (State * option Platform) :=
  match ref with
  | None => Ok (scratch_state, Some (platform_or_default plat))
  | Some ref => st ← map_err BuildGateway (reference_state ref); Ok (st, None)
  end.
Definition stage_files (ref : option Solved) (plat : option Platform) (dir : string) (files : list (string * string)) :
    result build_error (option Solved) :=
  '(st, constraint) ← stateToStageOn ref plat;
  map_err BuildGateway (solve_state (put_files st dir files) constraint).

Definition stageKitSources (ref : option Solved) (plat : option Platform) (stem published recipe : string) :
    result build_error (option Solved) :=
  let dir := Join stagedKitRoot stem in
  stage_files ref plat dir
    ((Join dir SetBuild.stagedDescriptorName, published) ::
     if bool_decide (recipe = "") then [] else [(Join dir SetBuild.stagedRecipeName, recipe)]).
Definition stageGuidance (ref : option Solved) (plat : option Platform) (staged body : string) :
    result build_error (option Solved) := stage_files ref plat (Dir staged) [(staged, body)].
Fixpoint stage_guidance (ref : option Solved) (plat : option Platform) (guidance : list ContextSource) :
    result build_error (option Solved) :=
  match guidance with
  | [] => Ok ref
  | body :: guidance =>
      ref ← stageGuidance ref plat (ContextSource_Target body) (ContextSource_Content body);
      stage_guidance ref plat guidance
  end.

Definition stagedGuidanceCollides (contentFile : string) : bool :=
  bool_decide (Base contentFile = "kit.yaml") || bool_decide (Base contentFile = "kit.dockerfile").

(** An entry's context body: the document that names where it is staged, and the body. *)
Definition stage_context (stem : string) (grouped : bool) (i : nat) (entry : Capability)
    (st : string * list ContextSource) : result build_error (string * list ContextSource) :=
  if negb (bool_decide (Type_ entry = CapabilityAgentContext)) then Ok st
  else
    ac ← map_err ContextUndecodable (DecodeCapabilityConfig decode_context zero_context entry);
    let file := AgentContext_ContentFile ac in
    if bool_decide (file = "") then Ok st
    else if negb grouped && stagedGuidanceCollides file then Err (ContextCollides file)
    else
      body ← map_err (ContextUnreadable_ file) (readContextLocalFile (trim_prefix "./" file));
      let root := Join stagedKitRoot stem in
      let target := if grouped then Join (Join root ("context-" +:+ pretty i)) (Base file) else Join root (Base file) in
      published ← map_err Amended (rewriteContentFile st.1 file target);
      Ok (published, st.2 ++ [mkContextSource "" "" body target]).
Fixpoint stage_contexts (stem : string) (grouped : bool) (i : nat) (entries : list Capability)
    (st : string * list ContextSource) : result build_error (string * list ContextSource) :=
  match entries with
  | [] => Ok st
  | entry :: entries => st ← stage_context stem grouped i entry st; stage_contexts stem grouped (S i) entries st
  end.

(** ** Derived provides *)

(** What a database says of every platform, unless one has no filesystem or no such database. *)
Inductive listing := NoFilesystem | NoDatabase | Listed (packages : list (list Package)).
Fixpoint listing_of (db : PackageDatabase) (refs : list (option Solved)) : result build_error listing :=
  match refs with
  | [] => Ok (Listed [])
  | None :: _ => Ok NoFilesystem
  | Some ref :: refs =>
      body ← map_err (PackagesUnread (Database_Path db)) (readImageFile ref (Database_Path db));
      match body with
      | None => Ok NoDatabase
      | Some body =>
          let '(packages, ok) := Read db body in
          if negb ok then Err (PackagesMalformed (Database_Path db))
          else
            rest ← listing_of db refs;
            Ok match rest with Listed l => Listed (packages :: l) | rest => rest end
      end
  end.
(** [None] once a platform has no filesystem. *)
Fixpoint derive_each (refs : list (option Solved)) (dbs : list PackageDatabase) : result build_error (option (list string)) :=
  match dbs with
  | [] => Ok (Some [])
  | db :: dbs =>
      found ← listing_of db refs;
      match found with
      | NoFilesystem => Ok None
      | NoDatabase => rest ← derive_each refs dbs; Ok (option_map (app (DerivedProvides (Namespace db) [])) rest)
      | Listed l => rest ← derive_each refs dbs; Ok (option_map (app (DerivedProvides (Namespace db) l)) rest)
      end
  end.
Definition derivedProvides (refs : list (option Solved)) : result build_error (list string) :=
  derived ← derive_each refs PackageDatabases; Ok (default [] derived).

(** ** The self-check *)

Definition read_text (name : string) (e : read_error) : string :=
  match e with KitSuite.TooLarge => name +:+ " exceeds the file limit" | KitSuite.ReadFailed cause => cause end.

Definition artifact_ReadFile (ref : option Solved) (name : string) : result read_error (option string) :=
  match ref with None => Ok None | Some ref => readImageFile ref name end.
Definition artifact_stat (ref : option Solved) (name : string) : result read_error (option file_info) :=
  match ref with
  | None => Ok None
  | Some ref =>
      match stat_file ref name with
      | Ok st => Ok (Some st)
      | Err e => if not_exist e then Ok None else Err (KitSuite.ReadFailed e)
      end
  end.
Definition HasFile (ref : option Solved) (name : string) : result read_error bool :=
  st ← artifact_stat ref name; Ok match st with Some st => negb (info_dir st) | None => false end.
Definition artifact_FileStat (ref : option Solved) (name : string) : result read_error (option FileStat) :=
  st ← artifact_stat ref name;
  Ok (option_map (λ st, mkFileStat (info_perm st) (info_uid st) (info_gid st) (info_regular st)) st).

Definition staged_stem (ref : Solved) (entry : string * bool) : result string (option string) :=
  if negb entry.2 then Ok None
  else
    let name := Base entry.1 in
    let file := Join (Join KitSuite.StagedKitRoot name) "kit.yaml" in
    body ← map_err (read_text file) (readImageFile ref file);
    Ok (if bool_decide (is_Some body) then Some name else None).
Definition artifact_StagedStems (ref : option Solved) : result string (list string) :=
  match ref with
  | None => Ok []
  | Some ref =>
      match ReadDir ref KitSuite.StagedKitRoot with
      | Err e => if not_exist e then Ok [] else Err e
      | Ok entries => stems ← mapM (staged_stem ref) entries; Ok (omap id stems)
      end
  end.

(** The layers do not exist yet. *)
Definition buildArtifact (ref : option Solved) (annotations : gmap string string) (config : OciImage) : Artifact :=
  mkArtifact annotations (Ok config) (Ok None) (artifact_ReadFile ref) (artifact_StagedStems ref) None
    (Some (HasFile ref)) (Some (artifact_FileStat ref)) None None.

Context (compile : string → option (string → bool)) (json_text : string → option value).

Definition selfCheck (ref : option Solved) (publishedJSON imageConfigJSON : string) (annotations : gmap string string) :
    result build_error () :=
  match parse_image imageConfigJSON with
  | None => Err ImageConfigUnparsed
  | Some img =>
      report ← map_err SelfCheckUnread
        (Run compile json_text (buildArtifact ref (<[AnnotationDescriptor := publishedJSON]> annotations) img));
      match Err_ report with Some failures => Err (SelfCheckFailed failures) | None => Ok () end
  end.

(** ** Reading the descriptor *)

(** The file's descriptor, and the recipe it is when it carries one in a comment block. *)
Definition read_descriptor (filename : string) (src : sources) :
    result build_error (sources * Descriptor * option companionSource) :=
  match Decode (source_descriptor src) with
  | Ok d => Ok (src, d, None)
  | Err e =>
      match extractCommentDescriptor (source_descriptor src) with
      | None => Err (DescriptorUndecodable e)
      | Some kitYAML =>
          d ← map_err CommentUndecodable (Decode kitYAML);
          Ok (mkSources kitYAML None, d, Some (mkCompanion (Base filename) (contentRecipe (source_descriptor src)) true))
      end
  end.

Definition choose_recipe (d : Descriptor) (src : sources) (stem filename companion : string) (comment : option companionSource) :
    result build_error (option companionSource) :=
  match comment with
  | Some content =>
      if negb (bool_decide (Build d = "") && bool_decide (Dockerfile d = "")) then Err CommentWithRecipe
      else if negb (bool_decide (Kits d = [])) then Err CommentWithKits
      else Ok (Some content)
  | None =>
      if negb (bool_decide (Dockerfile d = ""))
      then Some <$> map_err RecipeRefused (explicitCompanion readDockerfileLocalFile d src filename companion)
      else map_err RecipeRefused (companionSourceFor d src stem filename companion)
  end.
Definition content_of (d : Descriptor) (src : sources) (stem filename companion : string) (comment : option companionSource) :
    result build_error (option companionSource) :=
  content ← choose_recipe d src stem filename companion comment;
  match content with
  | None =>
      if bool_decide (Kind d = KindWorkload) && bool_decide (Kits d = []) then Err (NoContent filename companion) else Ok None
  | Some c => if bool_decide (Kits d = []) then Ok content else Err (KitsWithRecipe filename (recipe_name c))
  end.

Definition refused (errs : list FieldError) (e : list FieldError → build_error) : result build_error () :=
  if bool_decide (errs = []) then Ok () else Err (e errs).

(** ** The build *)

Record BuildResult := mkBuildResult {
  (** One unnamed filesystem, or one by platform id; each with its image configuration. *)
  exported : list (option string * (option Solved * string));
  exported_platforms : option string;
  manifest_annotations : gmap string string;
  index_annotations : gmap string string;
}.

Context (render_yaml : value → option string).
Context (parse_attestations : gmap string string → result string (gmap string (gmap string string))).
Context (marshal_platforms : list (string * Platform) → result string string).
(** The stamp of this frontend's binary. *)
Context (self : stamp).

Definition plan_set (d expanded : Descriptor) (published : string) (platformList : list (option Platform)) (stem : string) :
    result build_error (option setPlan) :=
  if bool_decide (Kits d = []) then Ok None
  else
    _ ← refused (ValidateDeclarations published expanded).2 DeclarationsRefused;
    _ ← refused (RequireAuthoredProvides expanded) AuthoredDerived;
    plan ← map_err SetRefused
      (planSet compile marshal_image render_yaml platform_FormatAll expanded (map platform_or_default platformList) stem);
    Ok (Some plan).

(** A platform's content: its kits', or its recipe's with the guidance staged. *)
Definition platform_content (d : Descriptor) (opts : gmap string string) (content : option companionSource)
    (plan : option setPlan) (stem : string) (guidance : list ContextSource) (plat : option Platform) :
    result build_error (option Solved * string) :=
  '(ref, config) ←
    match plan with
    | Some plan =>
        match builds plan !! platform_FormatAll (platform_or_default plat) with
        | Some built =>
            ref ← map_err SetRefused
              (stageSetContext (build_ref built) (platform_or_default plat) (stagedSetContextPath stem) (build_context built));
            Ok (Some ref, build_config built)
        | None => Ok (None, "")
        end
    | None => buildPlatform d opts content plat
    end;
  ref ← stage_guidance ref plat guidance;
  Ok (ref, config).

Definition no_plan (plan : option setPlan) : bool := match plan with None => true | Some _ => false end.

Record platformBuild := mkPlatformBuild { platform : option Platform; ref : option Solved; config : string }.
Fixpoint build_each (f : option Platform → result build_error (option Solved * string)) (l : list (option Platform)) :
    result build_error (list platformBuild) :=
  match l with
  | [] => Ok []
  | plat :: l =>
      '(ref, config) ← f plat;
      rest ← build_each f l;
      Ok (mkPlatformBuild plat ref config :: rest)
  end.

(** The published descriptor, completed with what a workload built here is found to hold. *)
Definition derive (plan : option setPlan) (published : string) (pd : Descriptor) (builds : list platformBuild) :
    result build_error (string * Descriptor) :=
  if no_plan plan && bool_decide (Kind pd = KindWorkload) then
    derived ← derivedProvides (map ref builds);
    if bool_decide (derived = []) then Ok (published, pd) else map_err Amended (withDerivedProvides published derived)
  else Ok (published, pd).

Definition kitAnnotations (publishedJSON builtBy : string) (pd : Descriptor) : gmap string string :=
  let base := <[AnnotationBuiltBy := builtBy]> (<[AnnotationSchemaVersion := Descriptor_SchemaVersion pd]>
                {[ AnnotationDescriptor := publishedJSON ]}) in
  let types := CapabilityTypes (Capabilities pd) in
  OCIAnnotations pd ∪ (if bool_decide (types = "") then base else <[AnnotationCapabilities := types]> base).

(** The kit's sources staged on each platform, and the result judged. *)
Fixpoint finish_each (stem published recipe publishedJSON : string) (annotations : gmap string string)
    (builds : list platformBuild) : result build_error (list platformBuild) :=
  match builds with
  | [] => Ok []
  | b :: builds =>
      ref ← stageKitSources (ref b) (platform b) stem published recipe;
      _ ← selfCheck ref publishedJSON (config b) annotations;
      rest ← finish_each stem published recipe publishedJSON annotations builds;
      Ok (mkPlatformBuild (platform b) ref (config b) :: rest)
  end.

Definition platform_id (b : platformBuild) : string := platform_FormatAll (platform_or_default (platform b)).

Definition exports (opts annotations : gmap string string) (finished : list platformBuild) : result build_error BuildResult :=
  let multiPlatform := 1 <? length finished in
  described ← (if multiPlatform
               then Some <$> map_err PlatformsUnencodable
                      (marshal_platforms (map (λ b, (platform_id b, platform_or_default (platform b))) finished))
               else Ok None);
  Ok (mkBuildResult
        (map (λ b, (if multiPlatform then Some (platform_id b) else None, (ref b, config b))) finished)
        described annotations
        (if multiPlatform || attestationsRequested parse_attestations opts then annotations else ∅)).

Definition path_stem (filename : string) : string := trim_suffix (Ext filename) (Base filename).
Definition DefaultDockerfileName : string := "Dockerfile".

Definition Build_ (opts : gmap string string) : result build_error BuildResult :=
  platformList ← map_err PlatformsUnparsed (parsePlatforms (default "" (opts !! keyPlatform)));
  let named := default "" (opts !! keyFilename) in
  let filename := if bool_decide (named = "") then DefaultDockerfileName else named in
  let stem := path_stem filename in
  let companion := Join (Dir filename) (stem +:+ ".dockerfile") in
  src ← readDescriptorSources filename companion;
  '(src, d, comment) ← read_descriptor filename src;
  _ ← refused (ValidateDeclarations (source_descriptor src) d).2 DeclarationsRefused;
  published ← expandBuildPhase compile (source_descriptor src) d opts;
  content ← content_of d src stem filename companion comment;
  expanded ← map_err ExpandedUnreadable (Decode published);
  plan ← plan_set d expanded published platformList stem;
  let published := match plan with Some p => plan_published p | None => published end in
  '(published, guidance) ←
    (if no_plan plan
     then stage_contexts stem (HasGroups (Capabilities expanded)) 0 (DeclaredCapabilities (Capabilities expanded)) (published, [])
     else Ok (published, []));
  pd ← map_err PublishedUndecodable (Decode published);
  _ ← refused (ValidatePublished published pd).2 PublishedInvalid;
  _ ← (if no_plan plan then refused (RequireAuthoredProvides pd) AuthoredDerived else Ok ());
  built ← build_each (platform_content d opts content plan stem guidance) platformList;
  '(published, pd) ← derive plan published pd built;
  publishedJSON ← match json_marshal (encode_descriptor pd) with Some text => Ok text | None => Err PublishedUnencodable end;
  builtBy ← match BuiltBy_Marshal (mkBuiltBy version_Name (Tag self) (Rev self)) with
            | Some text => Ok text
            | None => Err StampUnencodable
            end;
  let annotations := kitAnnotations publishedJSON builtBy pd in
  finished ← finish_each stem published (match content with Some c => recipe_bytes c | None => "" end) publishedJSON annotations built;
  exports opts annotations finished.
End Frontend.
