(* ===== verification/BuildFacts.v ===== *)
(** The build's contract: what it exports is one filesystem per requested platform, all
    under the same annotations, and nothing the conformance suite would refuse. *)
From stdpp Require Import options.
From S2P Require Import Prelude Diagnostics GoStrings Version Json Types Config Marshal GoPath Template Merge Packages Overlay Resolve Oci Assemble Validate Expand Registry LayerTar Publish Report KitSuite KitFacts SetBuild BuildStamp Yaml YamlFacts Delta Recipe Frontend.

(** ** The annotations *)

Lemma OCIAnnotations_other d key : key ∉ (annotation_fields d).*1 → OCIAnnotations d !! key = None.
Proof.
  unfold OCIAnnotations. assert (∀ m : gmap string string, m !! key = None → key ∉ (annotation_fields d).*1 →
    foldl (λ m kv, if bool_decide (kv.2 = "") then m else <[kv.1 := kv.2]> m) m (annotation_fields d) !! key = None) as Hall.
  { induction (annotation_fields d) as [|[k v] l IH]; intros m Hm Hk; [done|]. apply not_elem_of_cons in Hk as [Hne Hk].
    cbn [foldl fst snd] in *. apply IH; [|done]. destruct (bool_decide _); [done|]. by rewrite lookup_insert_ne. }
  by apply Hall.
Qed.
Lemma kitAnnotations_descriptor text builtBy d : kitAnnotations text builtBy d !! AnnotationDescriptor = Some text.
Proof.
  unfold kitAnnotations. rewrite lookup_union_r by (apply OCIAnnotations_other; cbn; set_solver).
  cbn zeta. destruct (bool_decide _); by simplify_map_eq.
Qed.
Lemma kitAnnotations_schema text builtBy d :
  kitAnnotations text builtBy d !! AnnotationSchemaVersion = Some (Descriptor_SchemaVersion d).
Proof.
  unfold kitAnnotations. rewrite lookup_union_r by (apply OCIAnnotations_other; cbn; set_solver).
  cbn zeta. destruct (bool_decide _); by simplify_map_eq.
Qed.

(** ** The platforms *)

Lemma parse_platforms_distinct `{Dockerfiles} parts : ∀ seen l,
  parse_platforms seen parts = Ok l →
  ∃ ps, l = Some <$> ps ∧ NoDup (platform_FormatAll <$> ps) ∧ ∀ p, p ∈ ps → platform_FormatAll p ∉ seen.
Proof.
  induction parts as [|part parts IH]; intros seen l; cbn [parse_platforms].
  { intros [= <-]. exists []. split; [done|]. split; [constructor|]. by intros p ?%not_elem_of_nil. }
  intros (p & _ & Hl)%result_bind_Ok. cbn zeta in Hl. set (q := platform_Normalize p) in *.
  destruct (bool_decide_reflect (platform_FormatAll q ∈ seen)) as [Hin|Hout]; [by apply IH|].
  apply result_bind_Ok in Hl as (rest & (ps & -> & Hnd & Hseen)%IH & [= <-]). exists (q :: ps). split; [done|]. split.
  - cbn. constructor; [|done]. intros (p' & E & Hp')%list_elem_of_fmap. apply (Hseen p' Hp'). rewrite <-E. by left.
  - intros p' [->|Hp']%elem_of_cons; [done|]. intros Hs. apply (Hseen p' Hp'). by right.
Qed.
Lemma parsePlatforms_distinct `{Dockerfiles} opt l :
  parsePlatforms opt = Ok l → l ≠ [] ∧ (l = [None] ∨ ∃ ps, l = Some <$> ps ∧ NoDup (platform_FormatAll <$> ps)).
Proof.
  unfold parsePlatforms. destruct (bool_decide (opt = "")); [intros [= <-]; by eauto|]. intros Hl. split.
  - pose proof (split_nonempty "," opt) as Hne. destruct (split "," opt) as [|part parts]; [done|]. cbn [parse_platforms] in Hl.
    apply result_bind_Ok in Hl as (p & _ & Hl). cbn zeta in Hl.
    rewrite bool_decide_eq_false_2 in Hl by apply not_elem_of_nil. by apply result_bind_Ok in Hl as (rest & _ & [= <-]).
  - apply parse_platforms_distinct in Hl as (ps & -> & ? & _). eauto.
Qed.

Section Build.
Context `{References, Decoders, Documents, YamlNodes, Dockerfiles, ReadySort, GW : Gateway, !Builder}.
Context (marshal_image : OciImage → result string string) (compile : string → option (string → bool))
  (json_text : string → option value) (render_yaml : value → option string)
  (parse_attestations : gmap string string → result string (gmap string (gmap string string)))
  (marshal_platforms : list (string * Platform) → result string string) (self : stamp).

(** ** The self-check *)

(** What the build is about to export passed the suite. *)
Definition checked (annotations : gmap string string) (ref : option Solved) (config : string) : Prop :=
  ∃ img stems d, parse_image config = Some img ∧ artifact_StagedStems ref = Ok stems ∧
    Decode (annotation annotations AnnotationDescriptor) = Ok d ∧
    conforming compile json_text (let a := buildArtifact ref annotations img in mkState a d (ownStem a d stems)).

Lemma selfCheck_checked ref text config annotations :
  selfCheck compile json_text ref text config annotations = Ok () → annotations !! AnnotationDescriptor = Some text →
  checked annotations ref config.
Proof.
  unfold selfCheck. intros Hs Ht. destruct (parse_image config) as [img|] eqn:Ei; [|done]. rewrite insert_id in Hs by done.
  apply result_bind_Ok in Hs as (rep & Hrun%map_err_Ok & Hs). destruct (Err_ rep) as [fs|] eqn:Er; [done|].
  destruct (Run_passed _ _ _ _ Hrun) as (stems & d & Hst & Hd & _ & Hc).
  { destruct (Failed rep) eqn:Ef; [|done]. apply Err_Failed in Ef as [? ?]. congruence. }
  exists img, stems, d. done.
Qed.

Lemma finish_each_checked stem published recipe text annotations bs : ∀ fs,
  finish_each compile json_text stem published recipe text annotations bs = Ok fs →
  annotations !! AnnotationDescriptor = Some text →
  platform <$> fs = platform <$> bs ∧ Forall (λ b, checked annotations (ref b) (config b)) fs.
Proof.
  induction bs as [|b bs IH]; intros fs; cbn [finish_each]; [by intros [= <-]|].
  intros (ref & _ & ([] & Hs & (rest & Hrest & [= <-])%result_bind_Ok)%result_bind_Ok)%result_bind_Ok Ht.
  destruct (IH rest Hrest Ht) as [Hp Hc]. split; [cbn; by rewrite Hp|].
  constructor; [by eapply selfCheck_checked|done].
Qed.

(** ** The build's steps *)

Lemma build_each_platforms f l : ∀ bs, build_each f l = Ok bs → platform <$> bs = l.
Proof.
  induction l as [|plat l IH]; intros bs; cbn [build_each]; [by intros [= <-]|].
  intros ([ref config] & _ & (rest & Hrest & [= <-])%result_bind_Ok)%result_bind_Ok. cbn. by rewrite (IH rest).
Qed.

Definition publishable (published : string) (pd : Descriptor) : Prop :=
  Decode published = Ok pd ∧ (ValidatePublished published pd).2 = [].

Lemma withDerivedProvides_publishable published derived out pd :
  withDerivedProvides published derived = Ok (out, pd) → publishable out pd.
Proof.
  unfold withDerivedProvides. intros (doc & _ & (doc' & _ & (out' & _ & (pd' & Hd%map_err_Ok & Hv)%result_bind_Ok)%result_bind_Ok)%result_bind_Ok)%result_bind_Ok.
  destruct (ValidatePublished out' pd').2 eqn:E; [|done]. injection Hv as <- <-. done.
Qed.
Lemma derive_publishable plan published pd bs out pd' :
  derive plan published pd bs = Ok (out, pd') → publishable published pd → publishable out pd'.
Proof.
  unfold derive. destruct (no_plan plan && _); [|by intros [= <- <-]]. intros (derived & _ & Hd)%result_bind_Ok.
  destruct (bool_decide (derived = [])); [by injection Hd as <- <-|]. apply map_err_Ok in Hd. intros _.
  by eapply withDerivedProvides_publishable.
Qed.
Lemma refused_Ok errs e u : refused errs e = Ok u → errs = [].
Proof. unfold refused. by destruct (bool_decide_reflect (errs = [])). Qed.

(** The ids of a build's platforms, and the one entry without an id of a build of one. *)
Definition export_ids (platforms : list (option Platform)) : list (option string) :=
  if 1 <? length platforms then (λ p, Some (platform_FormatAll (platform_or_default p))) <$> platforms else [None].

Lemma exports_ids opts annotations fs r :
  exports parse_attestations marshal_platforms opts annotations fs = Ok r → fs ≠ [] →
  (exported r).*1 = export_ids (platform <$> fs) ∧ manifest_annotations r = annotations ∧
  (index_annotations r = ∅ ∨ index_annotations r = annotations) ∧
  (exported r).*2 = (λ b, (ref b, config b)) <$> fs.
Proof.
  unfold exports. intros (described & _ & [= <-])%result_bind_Ok Hne. cbn [exported manifest_annotations index_annotations].
  split; [|split; [done|split; [destruct (_ || _); auto|by rewrite <-list_fmap_compose]]].
  unfold export_ids. rewrite length_fmap, <-list_fmap_compose.
  destruct (Nat.ltb_spec 1 (length fs)) as [Hl|Hl]; [by rewrite <-list_fmap_compose|].
  destruct fs as [|b [|]]; [done|done|cbn in *; lia].
Qed.
Lemma export_ids_distinct opt platforms : parsePlatforms opt = Ok platforms → NoDup (export_ids platforms).
Proof.
  intros Hp. destruct (parsePlatforms_distinct _ _ Hp) as [_ [->|(ps & -> & Hnd)]]; [apply NoDup_singleton|].
  unfold export_ids. destruct (1 <? _); [|apply NoDup_singleton].
  rewrite <-list_fmap_compose. change (NoDup (Some ∘ platform_FormatAll <$> ps)). rewrite list_fmap_compose. by apply (NoDup_fmap_2 Some).
Qed.

(** C35: Whatever a build exports is conformant: a build that succeeds exports one filesystem per requested
    platform, each under an id of its own; one published descriptor, valid as published, is the descriptor
    annotation of all of them; each filesystem passed the conformance suite under the very annotations that are
    exported with it; and the index carries the same annotations or none. *)
Theorem build_exports_conforming opts r :
  Build_ marshal_image compile json_text render_yaml parse_attestations marshal_platforms self opts = Ok r →
  ∃ platforms published pd text,
    parsePlatforms (default "" (opts !! keyPlatform)) = Ok platforms ∧
    (exported r).*1 = export_ids platforms ∧ NoDup (exported r).*1 ∧
    publishable published pd ∧ json_marshal (encode_descriptor pd) = Some text ∧
    manifest_annotations r !! AnnotationDescriptor = Some text ∧
    manifest_annotations r !! AnnotationSchemaVersion = Some (Descriptor_SchemaVersion pd) ∧
    (∀ id ref config, (id, (ref, config)) ∈ exported r → checked (manifest_annotations r) ref config) ∧
    (index_annotations r = ∅ ∨ index_annotations r = manifest_annotations r).
Proof.
  unfold Build_. intros (platforms & Hp%map_err_Ok & Hb)%result_bind_Ok. cbn zeta in Hb.
  apply result_bind_Ok in Hb as (src & _ & ([[src' d] comment] & _ & (? & _ & (pub0 & _ & Hb)%result_bind_Ok)%result_bind_Ok)%result_bind_Ok).
  apply result_bind_Ok in Hb as (content & _ & (expanded & _ & (plan & _ & ([pub guidance] & _ & Hb)%result_bind_Ok)%result_bind_Ok)%result_bind_Ok).
  apply result_bind_Ok in Hb as (pd0 & Hd%map_err_Ok & (? & Hv%refused_Ok & (? & _ & Hb)%result_bind_Ok)%result_bind_Ok).
  apply result_bind_Ok in Hb as (built & Hbuilt%build_each_platforms & ([published pd] & Hpub & Hb)%result_bind_Ok).
  apply derive_publishable in Hpub; [|done].
  apply result_bind_Ok in Hb as (text & Htext & (builtBy & _ & (fs & Hfs & Hr)%result_bind_Ok)%result_bind_Ok).
  destruct (json_marshal (encode_descriptor pd)) as [text'|] eqn:Et; [|done]. injection Htext as ->.
  apply finish_each_checked in Hfs as [Hfs Hchecked]; [|apply kitAnnotations_descriptor].
  destruct (parsePlatforms_distinct _ _ Hp) as [Hne _].
  apply exports_ids in Hr as (Hids & Hann & Hindex & Hout); [|by intros ->; rewrite <-Hbuilt, <-Hfs in Hne].
  rewrite Hfs, Hbuilt in Hids. exists platforms, published, pd, text. rewrite Hids, Hann.
  split; [done|]. split; [done|]. split; [by eapply export_ids_distinct|]. split; [done|]. split; [done|].
  split; [apply kitAnnotations_descriptor|]. split; [apply kitAnnotations_schema|]. split; [|done].
  intros id ref config Hin. assert ((ref, config) ∈ (exported r).*2) as Hrc by (apply list_elem_of_fmap; by exists (id, (ref, config))).
  rewrite Hout in Hrc. apply list_elem_of_fmap in Hrc as (b & [= -> ->] & Hb). rewrite Forall_forall in Hchecked. by apply Hchecked.
Qed.
End Build.

(** ** A build *)

(** A mixin without content, built for two platforms. *)
Definition plain_kit : Descriptor :=
  mkDescriptor false SchemaVersion "Plain" "" "" "" "" "1.2" ["MIT"] KindMixin ["plain"] [] [] [] [] ∅ "" [] "" false.
Definition plain_documents : Documents :=
  {| yaml_value := λ _, Ok VNull; yaml_descriptor := λ _, Ok plain_kit;
     document_nodes := {| yaml_nodes := λ _, Err "" |}; float_literal := λ _, None; float_negative := λ _, false;
     url_parts := λ _, Err ""; regexp_compiles := λ _, true; image_reference := λ _, Ok None |}.
Definition plain_dockerfiles : Dockerfiles :=
  {| Ast := unit; parse_file := λ _, Ok (); EscapeToken := λ _, "\"%char; parse_stages := λ _, Ok ([], []);
     ProcessWord := λ _ w _, Ok w; platform_Parse := λ s, Ok (mkPlatform s "linux" "" [] ""); platform_Normalize := id;
     platform_Format := Architecture; platform_FormatAll := Architecture; DefaultSpec := amd64 |}.
(** Filesystems as their files. *)
Definition files : Type := list (string * string).
Definition no_files : files := [].
Definition file_of (fs : files) (name : string) : result string string :=
  match List.find (λ f, bool_decide (f.1 = name)) fs with Some f => Ok f.2 | None => Err "not found" end.
Definition plain_gateway : Gateway :=
  {| State := files; Solved := files;
     ResolveImageConfig := λ ref _, Ok (ref, "", ""); image_state := λ _ _, no_files; merge_states := λ l, concat l;
     Solve := λ s _, Ok s; ReadDir := λ _ _, Ok [("plain", true)]; ReadFile := file_of;
     stage_file := λ s _ name body, Ok (s ++ [(name, body)]); SetBuild.readContextFile := λ _, Err "" |}.
#[local] Existing Instance plain_gateway.
Definition plain_builder : @Builder plain_gateway :=
  {| workers := [];
     local_state := λ _ paths, match paths with p :: _ => [(p, "kind: mixin")] | [] => no_files end;
     scratch_state := no_files; put_files := λ (st : files) _ added, st ++ added; diff_state := λ _ upper, upper;
     reference_state := λ fs, Ok fs;
     solve_state := λ (st : files) _, Ok match st with [] => None | _ => Some st end;
     solve_dockerfile := λ _ _, Err ""; supports_inputs := false; build_inputs := Ok []; named_context := λ _ _ _, Ok None;
     resolve_config := λ ref _ _, Ok (ref, "", ""); read_prefix := λ fs name _, file_of fs name;
     stat_file := λ fs name, _ ← file_of fs name; Ok (mkFileInfo false true 420 0 0); fs_not_exist := λ _, false |}.
Definition plain_images : Decoders :=
  {| parse_manifest := λ _, None; parse_index := λ _, None;
     parse_image := λ raw, Some (mkOciImage (mkPlatform raw "linux" "" [] "") zero_image_config "" [] []) |}.
Definition plain_build (opts : gmap string string) : result build_error (@BuildResult plain_gateway) :=
  @Build_ toy_references plain_images plain_documents sample_nodes plain_dockerfiles merge_ready plain_gateway plain_builder
    (λ img, Ok (Architecture (Image_Platform img))) (λ _, None) (λ _, Some (encode_built_by (mkBuiltBy version_Name "dev" "")))
    (λ _, None) (λ _, Err "") (λ ps, Ok (join "," (map fst ps))) (mkStamp "" "") opts.
Definition plain_opts : gmap string string := list_to_map [(keyFilename, "plain.yaml"); (keyPlatform, "arm64, amd64,arm64")].

Example plain_exported :
  (λ r, (exported r, exported_platforms r, bool_decide (index_annotations r = manifest_annotations r))) <$> plain_build plain_opts =
  Ok ([(Some "arm64", (Some [("/usr/share/sandbox/kit/plain/kit.yaml", "kind: mixin")], "arm64"));
       (Some "amd64", (Some [("/usr/share/sandbox/kit/plain/kit.yaml", "kind: mixin")], "amd64"))],
      Some "arm64,amd64", true).
Proof. by vm_compute. Qed.
(** A filesystem whose listing shows another kit's sources and not this one's is refused by the self-check. *)
Example plain_refused :
  match plain_build {[ keyFilename := "other.yaml" ]} with Err (SelfCheckFailed fs) => map Finding_Check fs | _ => [] end =
  ["staged-sources"].
Proof. by vm_compute. Qed.

Lemma build_exports_conforming_witness :
  ∃ r, plain_build plain_opts = Ok r ∧ NoDup (exported r).*1 ∧
    ∃ text, manifest_annotations r !! AnnotationDescriptor = Some text.
Proof.
  destruct (plain_build plain_opts) as [r|e] eqn:E; [|by vm_compute in E]. exists r. split; [exact eq_refl|].
  unfold plain_build in E. destruct (build_exports_conforming _ _ _ _ _ _ _ plain_opts r E)
    as (platforms & published & pd & text & _ & _ & Hnd & _ & _ & Ht & _).
  split; [exact Hnd|]. exists text. exact Ht.
Defined.
